(* ===== verification/_CoqProject ===== *)
-Q . S2P
Prelude.v
Limits.v
MemoryApi.v
HostMemory.v
SplitRing.v
GuestCopy.v
Mmio.v
Doorbell.v
VsockPacket.v
VsockStream.v
VsockSwitch.v
Ioapic.v
Device.v
Balloon.v
Block.v
PolicyAddress.v
PolicyRules.v
LruCache.v
Policy.v
AppFrames.v
FrameStream.v
Datagrams.v
Dns.v
VsockQueues.v
VsockPayload.v
VsockTransport.v
SyncTree.v
SyncLinks.v
SyncPlan.v
PackedImage.v
BootPlan.v
Machine.v
BootApply.v
FsWire.v
FsNodes.v
FsIo.v
FsHost.v
FsRequests.v
FsConfine.v
FsListing.v
FsDevice.v
MmioBridge.v
MmioRouting.v
MmioComplete.v
MmioService.v
MmioVcpu.v
VmmVcpu.v
VmmMachine.v
ArmExit.v
ArmPower.v
Frames.v
SyncAgent.v
SyncService.v
SyncScan.v
SyncExec.v
SyncSteps.v
SyncConverge.v
