(* ===== verification/Prelude.v ===== *)
(** * Terrarium: a verification development

    Terrarium runs an untrusted Linux guest in a virtual machine whose
    devices are WebAssembly components. The guest talks to a device through
    virtio registers and split rings in its own RAM; the component checks
    everything the guest says and reaches the host only through a few narrow
    interfaces. This library models the components and the host code on that
    boundary, and proves that what the guest controls stays inside its bounds.

    ** How the parts fit together

    - The runtime maps guest RAM in regions around the device hole and offers
      bounded copies and page discards to the components. A store of a device
      to guest memory goes through it.
    - A device component keeps a virtio-MMIO register file. A register access
      of the guest is a request of the component; a queue notification rings
      the device's doorbell, and the worker task of the device wakes up, walks
      the ring and completes entries.
    - Block and balloon are devices of that shape. The vsock device sits on
      the same transport and multiplexes the guest's streams: an agent stream,
      a control stream and a bounded number of network flows.
    - Between a processor and a component sits the MMIO bridge of the runtime: it
      finds the device of an address and works on one access of a device at a
      time.
    - The virtual machine component runs a task per processor and decides when
      the machine ends; the runtime then cleans up its native resources.
    - A synchronisation is planned and driven by the command line on the host and
      carried out by a service of the agent in the guest.
    - Devices raise level-triggered lines; the interrupt controller component
      aggregates them onto the pins of an I/O APIC.

    ** Files, and the code they model

    - [Prelude]: results, the state-and-error monad [stM], machine integers,
      list lemmas, tactics and hint databases. Models no code of its own.
    - [Limits]: [crates/terra-limits/src/lib.rs], resource limits and the RAM
      layout around the device hole.
    - [MemoryApi]: the class [GuestMemory], what a component relies on when it
      calls [terra:host/memory]. The device files are proved against it.
    - [HostMemory]: [crates/terra-hypervisor/src/memory.rs],
      [crates/terra-runtime/src/memory.rs] and the memory imports of
      [crates/terra-runtime/src/component/context.rs]; it ends with the
      instance that discharges [GuestMemory].
    - [SplitRing], [GuestCopy], [Mmio], [Doorbell], [Device]:
      [components/device-transport/src/lib.rs]: the ring functions, the
      batched guest copies, [MmioTransport], [Doorbell], and the error
      conversions and request handler shared by the devices.
    - [VsockPacket], [VsockStream], [VsockSwitch]:
      [components/vsock-device/src/packet.rs] and [switch.rs], with the
      budgets of [crates/terra-protocol/src/vsock.rs]: the header codec, one
      stream with its credit, and the switch with its connection numbers,
      retirement and reply rotation.
    - [Ioapic]: [components/interrupt-controller/src/lib.rs] and the checks of
      [crates/terra-runtime/src/component/interrupt_controller.rs].
    - [Balloon]: [components/mem/src/transport.rs], page reporting.
    - [Block]: [components/block/src/lib.rs], block requests, with the guest
      and the host acting at every suspension point.
    - [VsockQueues], [VsockPayload], [VsockTransport]:
      [components/vsock-frontend/src/transport.rs]: the batches and packets of
      the two queues in guest memory; the lemma that everything queued for the
      guest consists of bytes; the device, that is the register file, the
      queues and the switch under one lock.
    - [PolicyAddress], [PolicyRules], [LruCache], [Policy]:
      [crates/terra-policy/src]: address ranges and the floor of special-purpose
      addresses, host names and allow rules from their text, the cache of
      learned names, and the policy built from a recipe with its decisions.
    - [AppFrames], [FrameStream]: [crates/terra-protocol/src/application.rs] and
      [socket.rs]: the frames of a guest socket, their codec, and the decoder
      that cuts a byte stream into frames.
    - [Datagrams]: [DatagramBatch] of [crates/terra-protocol/src/network.rs].
    - [Dns]: [crates/terra-protocol/src/dns.rs] and [resolve] of
      [components/vsock-frontend/src/network/control.rs].
    - [SyncTree], [SyncLinks], [SyncPlan], [SyncExec], [SyncSteps], [SyncConverge]:
      file synchronisation, [crates/terra-protocol/src/sync.rs] and
      [crates/terra/src/cmd/sync]: paths and manifests ([security.rs], [scan.rs],
      [endpoint.rs]), the walk over the links of a download ([security.rs]), the
      plan ([plan.rs]), its execution ([exec.rs] with the staged files of
      [vm/image.rs]) against a guest that may answer anything and system calls
      that may be refused, what each step does, and the proof that a download
      that succeeds converges.
    - [PackedImage]: [crates/terra-protocol/src/packed_image.rs] and
      [guest_image.rs], the container of the kernel and the boot disk, with the
      read-only disk over it.
    - [BootPlan]: [components/boot/src/boot.rs], the planner that lays out the
      kernel and the tables a machine boots from.
    - [Machine], [BootApply]: [crates/terra-runtime/src/machine.rs], the device
      layout and the checked configuration; [component/vmm/boot.rs], the checks
      and copies of a plan.
    - [FsWire], [FsNodes], [FsIo], [FsHost], [FsRequests], [FsDevice]: the shared
      file system, [components/fs/src]: the messages ([wire.rs] and the codecs of
      [transport.rs]), the tables of nodes and open files, the scheduler
      ([transport/io.rs]), the operations on the host ([host.rs]), the requests
      ([transport/requests.rs]) and the device with its queues and events
      ([transport.rs]). What suspends is a program of [FsHost.prog], a free monad
      over the calls of the host and the closures that run under the lock of the
      tables, so that programs interleave at every such point. [FsConfine] and
      [FsListing] hold the theorems on the paths given to the host and on
      reading directories.
    - [MmioBridge], [MmioRouting], [MmioComplete], [MmioService], [MmioVcpu]: the way of a register
      access to its device, [crates/terra-runtime/src/component/mmio.rs],
      [mmio/device.rs], [mmio/bridge.rs], the device setup of
      [box_runtime/setup.rs] and [RuntimeVcpu] of [orchestration.rs]: the queue, the
      handles and the bridge; the invariant of its histories; that no command is
      answered without its device; what it promises;
      and the processors that use it.
    - [VmmVcpu], [VmmMachine]: the virtual machine component
      ([components/vmm/src]) with the host code it drives
      ([crates/terra-runtime/src/component/vmm]: [vcpu.rs], [lifecycle.rs],
      [teardown.rs], [native_task.rs] and the machine states of
      [virtualization.rs]): the rendezvous of a processor thread with its task,
      and the start, the end and the cleanup of a machine.
    - [ArmExit], [ArmPower]: [crates/terra-hypervisor/src/arm.rs] and the
      processors of [hvf/aarch64.rs]: data aborts and their completion, and the
      power states under PSCI calls.
    - [Frames]: [crates/terra-protocol/src/frames.rs], the length-prefixed messages.
    - [SyncAgent], [SyncService]: [crates/terra-agent/src/sync.rs], the service that
      carries out a synchronisation in the guest: its requests as programs of
      calls on the connection and the file system, and what every run of them
      keeps to. [SyncScan] composes its scan with the host's side of [SyncTree].

    A Rust struct is a [Record] with the source's fields, an enum an
    [Inductive] with the source's variants, a [&mut self] method a function
    from state to result and state. The state reached before an error is
    kept, as in the source. Integers are [Z] with their width written out:
    a checked operation is a comparison, a wrapping one a remainder.

    ** What the theorems show

    - Guest memory ([HostMemory], [GuestCopy], [Limits]): a store is all or
      nothing and changes exactly the bytes named; batches cut by the
      components read and write what the caller asked for; a reclaim discards
      whole host pages inside the request only; no RAM region overlaps a
      device window.
    - Transport ([Mmio], [SplitRing], [Doorbell]): the register file keeps its
      invariant under every access; a queue that is armed has its rings inside
      guest RAM and does not move until a reset; notifications reach the
      worker only from an armed queue of a running device; a driver that
      follows the handshake can arm a queue; the interrupt line always shows
      the status register; the chain walk returns exactly the chain the
      specification [chain_at] describes, or refuses it; a ring between
      register and take is never lost.
    - Vsock ([VsockPacket], [VsockStream], [VsockSwitch]): packets round-trip;
      the guest receives every byte once, in order and within its credit;
      malformed packets reset their stream only; flows, buffers and replies
      stay in their budgets whatever the guest and the clients do; a handle
      that was retired never reaches a later connection; every stream with a
      pending packet is served within one rotation.
    - Interrupts ([Ioapic]): a message is sent only for an unmasked pin whose
      line is up and not in service; the pin level is the disjunction of its
      sources.
    - Devices ([Balloon], [Block]): a report reaches the host only when its
      ranges are well-formed, bounded and outside the rings of its queue, and the
      host refuses one that is not in RAM before it discards anything; the backlog is drained; after a
      reset or a close no old request stores to the guest or touches the disk;
      what was written is what is read back.
    - Vsock device ([VsockQueues], [VsockTransport]): a captured batch is what
      entry-by-entry reads return and a published batch what entry-by-entry
      completions leave; packets for the guest are delivered byte by byte once;
      with arbitrary ring contents and failing accesses the device stores only
      in used rings and in buffers offered for receiving; every history keeps
      the device well formed, its line published and its switch in budget.
    - Network policy ([PolicyAddress], [PolicyRules], [Policy]): the floor is the
      special-purpose registry; rules cover exactly the names and addresses they
      say and survive printing; a peer is authorized only if the recipe opens
      it, and a learned answer opens its addresses for its lifetime.
    - Protocol ([AppFrames], [FrameStream], [Datagrams], [Dns]): frames round-trip
      and have one encoding; a stream cut anywhere yields its frames in order,
      once; batches of datagrams keep their contents and limits; a question is
      parsed exactly, and each query gets a well-formed response for it.
    - Synchronisation ([SyncTree], [SyncLinks], [SyncConverge]): a relative path is
      accepted exactly when it is a list of plain names; an accepted manifest is
      a tree; no accepted link leaves the destination once a guest entry took
      part in it, and the walk that decides this ends; a download that succeeds
      makes the destination equal to the source, as the bytes arrived, and its dry
      run reports the same counts; it succeeds when nothing is refused and the
      guest answers as asked.
    - Boot ([PackedImage], [BootPlan], [Machine], [BootApply]): packed images read
      back as what was packed, and foreign ones are read without a panic; the
      x86 planner traps in one case only, which [plan_x86_total] states, and places
      kernel and tables apart in RAM; every
      layout is one the planner accepts; whatever plan arrives, only the RAM it
      names is written; and an x86 machine whose kernel the planner
      accepts boots, unless the plan has more segments or bytes than the limits
      allow, with the kernel, the page tables, the memory map and the processor
      table in place.
    - Shared file system ([FsWire], [FsNodes], [FsIo], [FsConfine], [FsListing],
      [FsDevice]): listings round-trip; the tables stay consistent and bounded,
      lookup counts are exact, and a number denotes one file for as long as the
      guest can use it; the requests of one file run in order, and none waits
      without a reason; the host is asked only for single names below directories it
      gave, or for the paths it reported, and never through links; [.] and [..]
      are looked at only after the guest sent an RMDIR of them; the pages of a directory hold its
      entries once each; a request is answered at most once in its generation,
      into the buffers it gave.
    - MMIO bridge ([MmioService], [MmioVcpu]): every accepted access is answered once,
      also when the bridge stops; it reaches the one device whose window has it,
      in order and one at a time; none waits without a reason; a processor sees
      its accesses in program order although notifications are not waited for.
    - Machine lifecycle ([VmmVcpu], [VmmMachine]): under every interleaving an exit of
      a processor gets at most one completion, of its kind; native resources are
      cleaned up once, in order, and only after the machine is reaped; the
      lifecycle reports its first event after a clean teardown.
    - ARM ([ArmExit], [ArmPower]): a data abort is the load or store that the
      architecture defines for its syndrome; a processor that is on runs or has
      one order to start, and each accepted start happens once.
    - Synchronisation in the guest ([Frames], [SyncService]): messages round-trip
      and never allocate past their limit; the service changes only what a
      request names, below the root and not through links inside it; a file appears whole
      or not at all; a request is closed by one reply that tells what was done;
      a scan carries exactly the tree of the guest to the host.
      [failed_upload_runs_file_data] shows a case where the contents of a file
      are read as requests.

    ** Fuel, bounds and aborts

    Recursion over lists is structural. [chain_loop] recurses on the
    descriptor bound of the source, which returns an error when it is used up.
    The chunk loops of [GuestCopy] carry the length of the data as fuel, one
    unit per byte and each turn consumes at least one. [Dns.read_labels] carries
    the length of the query and [completion_loop] the number of completions; each
    turn consumes at least one byte or completion. [VsockTransport.steps] counts
    the source's own step limit. [take_replies] takes
    the number of pending replies, and [take_replies_fuel] proves it enough.
    [SyncLinks.drain] spends at least one unit of the source's work budget per
    turn, and [download_links_total] proves that the budget plus one is enough.
    The balloon's drain loop needs more turns than the backlog, which the ring
    size bounds by 256; [balloon_drains] proves that it then ends. The block
    pump is stated for any number of turns. [PackedImage.read_loop] carries the
    length of the buffer and [BootApply.copy_segment] the number of pieces of the
    segment, and both are proved enough. [FsIo.start_loop] takes as many turns as
    requests may still start, and [FsHost.readdir_loop] one more than there are
    entries; a turn starts a request or asks for an entry, or is the last. The transfer loops
    of [SyncExec] take as many turns as the file has bytes, and a turn moves one at least. The loops
    of [SyncAgent] take any number of turns, since a signal can interrupt a read any
    number of times; the theorems hold for all of them and for every prefix of a run. [None] is a trap of the component in
    [BootPlan], in exactly the case [plan_x86_total] states, and a process abort in
    [VsockSwitch] (64-bit connection numbers exhausted) and a panic in
    [Ioapic]; both are proved unreachable under the stated invariants.

    ** Outside code

    What the repository does not contain is a class or a parameter, with the
    documented behaviour as its laws: the memory mapping ([Backing]),
    [futures]' [AtomicWaker], the host's discard and disk calls, the [lru] crate
    ([LruCache]), the [lz4_flex] compressor, the [vm-fdt] writer, the answer of
    the sandboxed boot component, the variant decoder of [postcard], the name resolver of the
    broker, what the guest sends to a synchronisation and which system calls of it are refused
    ([SyncExec]), file digests and the name folding of the host file system, the WASI
    file system and [terra:fs/host] (calls of [FsHost.call] with arbitrary answers),
    timeouts and cleanup futures (arguments of the steps that observe them), the
    guest's system calls (calls of [SyncAgent.call] with arbitrary answers), the clock, the width of [usize] and the allocator's answers. Each is instantiated by a concrete
    function in the witnesses.

    ** Not modelled

    Left out, with the order in which they are worth adding: the
    agent component and the sessions of [crates/terra-agent], the socket relays of the vsock front end and of [crates/terra-network], the
    thread group of [crates/terra-hypervisor/src/vcpus.rs].
    The remaining hypervisor back ends, the command line, the sandbox and the build support are system calls and glue
    around the parts above. *)

(** ** Contents of this file

    Machine integers as [Z] with their widths written out, byte strings as
    [list Z], Rust's [Result] as a two-constructor type with its [?]
    operator as stdpp's monadic bind, and the list lemmas the components
    share. *)

From Stdlib Require Export ZArith Lia.
From stdpp Require Export base tactics option numbers list list_numbers.
From stdpp Require Import sorting.

(** ** Results: [Result<A, E>] *)

Inductive result (E A : Type) : Type :=
| Ok (a : A)
| Err (e : E).
Arguments Ok {E A} a.
Arguments Err {E A} e.

#[export] Instance result_ret {E} : MRet (result E) := λ A, @Ok E A.
#[export] Instance result_bind {E} : MBind (result E) :=
  λ A B f r, match r with Ok a => f a | Err e => Err e end.
#[export] Instance result_fmap {E} : FMap (result E) :=
  λ A B f r, match r with Ok a => Ok (f a) | Err e => Err e end.

#[export] Instance result_eq_dec `{EqDecision E, EqDecision A} : EqDecision (result E A).
Proof. solve_decision. Defined.

(** [Option::ok_or] and [Result::map_err]. *)
Definition ok_or {E A} (e : E) (o : option A) : result E A :=
  match o with Some a => Ok a | None => Err e end.
Definition map_err {E F A} (f : E → F) (r : result E A) : result F A :=
  match r with Ok a => Ok a | Err e => Err (f e) end.
Definition is_ok {E A} (r : result E A) : bool :=
  match r with Ok _ => true | Err _ => false end.

(** Step through the [?] operator without unfolding anything else. *)
Ltac rsimpl := cbn [mbind result_bind option_bind ok_or map_err is_ok fst snd negb andb orb].
Ltac rsimpl_in H :=
  cbn [mbind result_bind option_bind ok_or map_err is_ok fst snd negb andb orb] in H.

(** An early return: [if bad then return Err e; rest]. *)
Definition require {E} (b : bool) (e : E) : result E unit :=
  if b then Ok tt else Err e.

Lemma require_tt {E} b (e : E) u : require b e = Ok u → b = true.
Proof. by destruct b. Qed.
(** The [?] operator, backwards. *)
Lemma require_Ok {E} c (e : E) : require c e = Ok tt ↔ c = true.
Proof. by destruct c. Qed.
Lemma bind_Ok {E A B} (r : result E A) (k : A → result E B) b :
  r ≫= k = Ok b ↔ ∃ a, r = Ok a ∧ k a = Ok b.
Proof. destruct r as [x|x]; cbn; split; [by eauto|by intros (? & [= ->] & ?)|done|by intros (? & ? & ?)]. Qed.
Lemma ok_or_Ok {E A} (e : E) (o : option A) a : ok_or e o = Ok a → o = Some a.
Proof. destruct o; [by intros [= ->]|done]. Qed.

(** ** Fallible code over a mutable state

    [stM S E A] is code that mutates an [S] and returns a [Result<A, E>].
    The state reached before an error is kept, as it is in the source. *)

Definition stM (S E A : Type) : Type := S → result E A * S.

Definition st_ret {S E A} (a : A) : stM S E A := λ s, (Ok a, s).
Definition st_err {S E A} (e : E) : stM S E A := λ s, (Err e, s).
Definition st_bind {S E A B} (m : stM S E A) (k : A → stM S E B) : stM S E B :=
  λ s, match m s with
       | (Ok a, s') => k a s'
       | (Err e, s') => (Err e, s')
       end.
Definition st_lift {S E A} (r : result E A) : stM S E A := λ s, (r, s).

Declare Scope st_scope.
Delimit Scope st_scope with st.
Notation "x <- m ;; k" := (st_bind m (λ x, k))
  (at level 100, m at next level, right associativity) : st_scope.
Notation "m ;;; k" := (st_bind m (λ _, k))
  (at level 100, right associativity) : st_scope.

(** ** Machine integers *)

Local Open Scope Z_scope.

Definition u8 (z : Z) : Prop := 0 ≤ z < 256.
Definition u16 (z : Z) : Prop := 0 ≤ z < 65536.
Definition u32 (z : Z) : Prop := 0 ≤ z < 4294967296.
Definition u64 (z : Z) : Prop := 0 ≤ z < 18446744073709551616.

#[export] Instance u8_dec z : Decision (u8 z).
Proof. unfold u8. apply _. Defined.
#[export] Instance u16_dec z : Decision (u16 z).
Proof. unfold u16. apply _. Defined.
#[export] Instance u32_dec z : Decision (u32 z).
Proof. unfold u32. apply _. Defined.
#[export] Instance u64_dec z : Decision (u64 z).
Proof. unfold u64. apply _. Defined.

Definition U16_MAX : Z := 65535.
Definition U32_MAX : Z := 4294967295.
Definition U64_MAX : Z := 18446744073709551615.

(** [wrapping_add] and [wrapping_sub] at the widths the source uses. *)
Definition wrap16 (z : Z) : Z := z mod 65536.
Definition wrap32 (z : Z) : Z := z mod 4294967296.
Definition wrapping_add16 (a b : Z) : Z := wrap16 (a + b).
Definition wrapping_sub16 (a b : Z) : Z := wrap16 (a - b).
Definition wrapping_add32 (a b : Z) : Z := wrap32 (a + b).
Definition wrapping_sub32 (a b : Z) : Z := wrap32 (a - b).

(** [u64::checked_add], [checked_sub] and [checked_mul]. *)
Definition checked_add64 (a b : Z) : option Z :=
  if a + b <=? U64_MAX then Some (a + b) else None.
Definition checked_sub (a b : Z) : option Z :=
  if b <=? a then Some (a - b) else None.
Definition checked_mul64 (a b : Z) : option Z :=
  if a * b <=? U64_MAX then Some (a * b) else None.

(** [saturating_sub] on an unsigned type, and [saturating_add] on [u64]. *)
Definition sat_sub (a b : Z) : Z := if a <=? b then 0 else a - b.
Definition sat_add64 (a b : Z) : Z := if U64_MAX <=? a + b then U64_MAX else a + b.

(** [!x] at a width. *)
Definition not32 (z : Z) : Z := U32_MAX - z.
Definition not16 (z : Z) : Z := U16_MAX - z.
Definition not64 (z : Z) : Z := U64_MAX - z.

(** [is_power_of_two]: one bit set. *)
Definition is_power_of_two (z : Z) : bool :=
  (0 <? z) && (Z.land z (z - 1) =? 0).

(** [is_multiple_of] *)
Definition is_multiple_of (a b : Z) : bool :=
  if b =? 0 then a =? 0 else a mod b =? 0.

(** The length of a list as an integer. *)
Definition zlen {A} (l : list A) : Z := Z.of_nat (length l).

Ltac unfold_ints :=
  unfold u8, u16, u32, u64, U16_MAX, U32_MAX, U64_MAX, wrapping_add16, wrapping_sub16,
    wrapping_add32, wrapping_sub32, wrap16, wrap32, checked_add64, checked_sub,
    checked_mul64, sat_sub, sat_add64, not32, not16, not64, zlen in *.

(** Arithmetic over machine integers: unfold the widths, replace the
    remainders by their defining equations, and call [lia]. *)
Ltac ilia := unfold_ints; try (Z.to_euclidean_division_equations); lia.

(** Reflect boolean tests of the source into propositions. *)
Ltac breflect :=
  repeat match goal with
  | H : _ && _ = true |- _ => apply andb_true_iff in H; destruct H
  | H : _ || _ = false |- _ => apply orb_false_iff in H; destruct H
  | H : negb _ = true |- _ => apply negb_true_iff in H
  | H : negb _ = false |- _ => apply negb_false_iff in H
  | H : (_ =? _) = true |- _ => apply Z.eqb_eq in H
  | H : (_ =? _) = false |- _ => apply Z.eqb_neq in H
  | H : (_ <=? _) = true |- _ => apply Z.leb_le in H
  | H : (_ <=? _) = false |- _ => apply Z.leb_gt in H
  | H : (_ <? _) = true |- _ => apply Z.ltb_lt in H
  | H : (_ <? _) = false |- _ => apply Z.ltb_ge in H
  | H : bool_decide _ = true |- _ => apply bool_decide_eq_true in H
  | H : bool_decide _ = false |- _ => apply bool_decide_eq_false in H
  end.

(** Split the innermost test of the goal or of the hypotheses. *)
Ltac split_ifs :=
  repeat match goal with
  | |- context [if ?b then _ else _] =>
      lazymatch b with context [if _ then _ else _] => fail | _ => destruct b eqn:? end
  | H : context [if ?b then _ else _] |- _ =>
      lazymatch b with context [if _ then _ else _] => fail | _ => destruct b eqn:? end
  end.

Ltac solve_checked :=
  split; [intros ?; simplify_eq; try done; auto | intros; destruct_and?; subst; try done; lia].

Lemma checked_add64_Some a b c :
  checked_add64 a b = Some c ↔ c = a + b ∧ a + b ≤ U64_MAX.
Proof. unfold checked_add64. destruct (_ <=? _) eqn:E; breflect; solve_checked. Qed.

Lemma checked_add64_None a b : checked_add64 a b = None ↔ U64_MAX < a + b.
Proof. unfold checked_add64. destruct (_ <=? _) eqn:E; breflect; solve_checked. Qed.

Lemma checked_mul64_Some a b c :
  checked_mul64 a b = Some c ↔ c = a * b ∧ a * b ≤ U64_MAX.
Proof. unfold checked_mul64. destruct (_ <=? _) eqn:E; breflect; solve_checked. Qed.

Lemma checked_sub_Some a b c : checked_sub a b = Some c ↔ c = a - b ∧ b ≤ a.
Proof. unfold checked_sub. destruct (_ <=? _) eqn:E; breflect; solve_checked. Qed.

(** ** Byte strings *)

Definition bytes (l : list Z) : Prop := Forall u8 l.

#[export] Instance bytes_dec l : Decision (bytes l).
Proof. unfold bytes. apply _. Defined.

(** [to_le_bytes] on [n] bytes and [from_le_bytes]. *)
Fixpoint le_bytes (n : nat) (z : Z) : list Z :=
  match n with
  | O => []
  | S n => z mod 256 :: le_bytes n (z / 256)
  end.
Fixpoint from_le (l : list Z) : Z :=
  match l with
  | [] => 0
  | b :: l => b + 256 * from_le l
  end.

(** [to_be_bytes] and [from_be_bytes]. *)
Definition be_bytes (n : nat) (z : Z) : list Z := rev (le_bytes n z).
Definition from_be (l : list Z) : Z := from_le (rev l).

(** A slice [l[a..b]]: [None] when the range is out of bounds, as
    [slice::get]. *)
Definition slice {A} (l : list A) (a b : Z) : option (list A) :=
  if (a <=? b) && (b <=? zlen l)
  then Some (take (Z.to_nat (b - a)) (drop (Z.to_nat a) l))
  else None.

Lemma le_bytes_length n z : length (le_bytes n z) = n.
Proof. revert z; induction n; simpl; auto. Qed.

Lemma le_bytes_bytes n z : bytes (le_bytes n z).
Proof.
  revert z; induction n as [|n IH]; intros z; simpl; constructor; [|apply IH].
  ilia.
Qed.

Lemma from_le_le_bytes n z :
  0 ≤ z < 256 ^ Z.of_nat n → from_le (le_bytes n z) = z.
Proof.
  revert z; induction n as [|n IH]; intros z Hz; [simpl in *; lia|].
  change (le_bytes (S n) z) with (z mod 256 :: le_bytes n (z / 256)).
  change (from_le (z mod 256 :: le_bytes n (z / 256)))
    with (z mod 256 + 256 * from_le (le_bytes n (z / 256))).
  rewrite Nat2Z.inj_succ, Z.pow_succ_r in Hz by lia.
  rewrite IH; [|split; [|apply Z.div_lt_upper_bound; lia]].
  - pose proof (Z.div_mod z 256); lia.
  - apply Z.div_pos; lia.
Qed.

Lemma from_le_bound l : bytes l → 0 ≤ from_le l < 256 ^ zlen l.
Proof.
  unfold zlen. induction 1 as [|b l Hb _ IH]; [simpl; lia|].
  cbn [from_le length].
  rewrite Nat2Z.inj_succ, Z.pow_succ_r by lia. unfold u8 in Hb. lia.
Qed.

Lemma from_le_nonneg l : bytes l → 0 ≤ from_le l.
Proof. intros Hl. by apply from_le_bound in Hl as [? _]. Qed.

Lemma le_bytes_from_le l : bytes l → le_bytes (length l) (from_le l) = l.
Proof.
  induction 1 as [|b l Hb _ IH]; [done|].
  cbn [from_le length le_bytes]. unfold u8 in Hb.
  rewrite (Z.mul_comm 256), Z.mod_add, Z.div_add by lia.
  rewrite Z.mod_small, Z.div_small by lia. by rewrite Z.add_0_l, IH.
Qed.

Lemma from_be_be_bytes n z :
  0 ≤ z < 256 ^ Z.of_nat n → from_be (be_bytes n z) = z.
Proof.
  intros. unfold from_be, be_bytes. rewrite rev_involutive. by apply from_le_le_bytes.
Qed.

Lemma be_bytes_from_be l : bytes l → be_bytes (length l) (from_be l) = l.
Proof.
  intros Hl. unfold be_bytes, from_be. rewrite <-(length_rev l), le_bytes_from_le.
  - apply rev_involutive.
  - by apply Forall_rev.
Qed.

Lemma from_be_bound l : bytes l → 0 ≤ from_be l < 256 ^ zlen l.
Proof.
  intros Hl. unfold from_be. pose proof (from_le_bound (rev l)) as Hb. unfold zlen in *.
  rewrite length_rev in Hb. by apply Hb, Forall_rev.
Qed.

Lemma be_bytes_length n z : length (be_bytes n z) = n.
Proof. unfold be_bytes. by rewrite length_rev, le_bytes_length. Qed.

Lemma be_bytes_bytes n z : bytes (be_bytes n z).
Proof.
  unfold be_bytes, bytes. apply Forall_rev, le_bytes_bytes.
Qed.

(** ** Bit masks *)

Lemma land_ldiff_add a b : Z.land a b + Z.ldiff a b = a.
Proof.
  rewrite Z.add_nocarry_lxor; apply Z.bits_inj'; intros n Hn;
    rewrite ?Z.lxor_spec, ?Z.land_spec, ?Z.ldiff_spec, ?Z.bits_0;
    by destruct (Z.testbit a n), (Z.testbit b n).
Qed.

Lemma land_le_l a b : 0 ≤ a → 0 ≤ Z.land a b ≤ a.
Proof.
  intros Ha. pose proof (land_ldiff_add a b).
  assert (0 ≤ Z.ldiff a b) by (apply Z.ldiff_nonneg; lia).
  assert (0 ≤ Z.land a b) by (apply Z.land_nonneg; lia). lia.
Qed.

Lemma land_U32_MAX z : Z.land z U32_MAX = z mod 4294967296.
Proof. exact (Z.land_ones z 32 ltac:(lia)). Qed.

Lemma land_U32_bound z : u32 (Z.land z U32_MAX).
Proof. rewrite land_U32_MAX. ilia. Qed.

Lemma lor_bound n a b : 0 ≤ n → 0 ≤ a < 2 ^ n → 0 ≤ b < 2 ^ n → 0 ≤ Z.lor a b < 2 ^ n.
Proof.
  intros Hn Ha Hb. assert (0 ≤ Z.lor a b) as Hl by (apply Z.lor_nonneg; lia). split; [done|].
  destruct (decide (Z.lor a b = 0)) as [->|Hz]; [by apply Z.pow_pos_nonneg|].
  apply Z.log2_lt_pow2; [lia|]. rewrite Z.log2_lor by lia.
  assert (∀ x, 0 ≤ x < 2 ^ n → x ≠ 0 → Z.log2 x < n) as Hlog.
  { intros x Hx Hx0. apply Z.log2_lt_pow2; lia. }
  assert (∀ x, 0 ≤ x < 2 ^ n → x = 0 ∨ Z.log2 x < n) as Hlog'.
  { intros x Hx. destruct (decide (x = 0)); auto. }
  apply Z.max_lub_lt.
  - destruct (Hlog' a Ha) as [->|]; [|done]. destruct (Hlog' b Hb) as [->|]; [done|].
    pose proof (Z.log2_nonneg b). simpl. lia.
  - destruct (Hlog' b Hb) as [->|]; [|done]. destruct (Hlog' a Ha) as [->|]; [done|].
    pose proof (Z.log2_nonneg a). simpl. lia.
Qed.

(** A mask of the bits from [n] to [w] clears the others. *)
Lemma land_ones_shifted w n ip :
  0 ≤ n ≤ w → 0 ≤ ip < 2 ^ w →
  Z.land ip (Z.land (Z.shiftl (Z.ones w) n) (Z.ones w)) = ip / 2 ^ n * 2 ^ n.
Proof.
  intros Hn Hip. rewrite <-Z.shiftr_div_pow2, <-Z.shiftl_mul_pow2 by lia.
  apply Z.bits_inj'. intros k Hk.
  rewrite !Z.land_spec, !Z.shiftl_spec by lia.
  rewrite (Z.testbit_ones_nonneg w k) by lia.
  destruct (Z.ltb_spec k n) as [Hkn|Hkn].
  - rewrite !(Z.testbit_neg_r _ (k - n)) by lia. by rewrite andb_false_l, andb_false_r.
  - rewrite Z.shiftr_spec by lia. replace (k - n + n) with k by lia.
    rewrite Z.testbit_ones_nonneg by lia.
    destruct (Z.ltb_spec k w).
    + rewrite (proj2 (Z.ltb_lt (k - n) w)) by lia. by rewrite !andb_true_r.
    + rewrite !andb_false_r. symmetry.
      destruct (Z.eq_dec ip 0) as [->|]; [apply Z.testbit_0_l|].
      apply Z.bits_above_log2; [lia|]. apply Z.log2_lt_pow2; [lia|]. eapply Z.lt_le_trans; [apply Hip|].
      apply Z.pow_le_mono_r; lia.
Qed.

Lemma lor_u64 a b : u64 a → u64 b → u64 (Z.lor a b).
Proof. exact (lor_bound 64 a b ltac:(lia)). Qed.

Lemma land_u64_l a b : u64 a → u64 (Z.land a b).
Proof. intros Ha. pose proof (land_le_l a b). ilia. Qed.

Lemma shiftl32_u64 a : u32 a → u64 (Z.shiftl a 32).
Proof. intros Ha. rewrite Z.shiftl_mul_pow2 by lia. ilia. Qed.

(** Writing the two halves of a 64-bit register, low half first, replaces
    its old contents. *)
Lemma halves_u64 old v :
  u64 v →
  Z.lor (Z.land (Z.lor (Z.land old 0xffffffff00000000) (Z.land v U32_MAX)) U32_MAX)
        (Z.shiftl (Z.land (Z.shiftr v 32) U32_MAX) 32) = v.
Proof.
  intros Hv. apply Z.bits_inj'. intros n Hn.
  change U32_MAX with (Z.ones 32). change 0xffffffff00000000 with (Z.shiftl (Z.ones 32) 32).
  rewrite !Z.lor_spec, !Z.land_spec, Z.lor_spec, !Z.land_spec.
  rewrite !Z.shiftl_spec by lia.
  destruct (decide (n < 32)).
  - rewrite (Z.ones_spec_low 32 n), (Z.testbit_neg_r _ (n - 32)), (Z.testbit_neg_r _ (n - 32)) by lia.
    rewrite !andb_true_r, andb_false_r. rewrite orb_false_r. done.
  - rewrite (Z.ones_spec_high 32 n), !andb_false_r, Z.land_spec, Z.shiftr_spec by lia. simpl.
    replace (n - 32 + 32) with n by lia.
    destruct (decide (n < 64)).
    + by rewrite (Z.ones_spec_low 32 (n - 32)), andb_true_r by lia.
    + rewrite (Z.ones_spec_high 32 (n - 32)), andb_false_r by lia.
      symmetry. destruct (decide (v = 0)) as [->|]; [apply Z.bits_0|].
      apply Z.bits_above_log2; [ilia|]. apply Z.log2_lt_pow2; [ilia|].
      apply Z.lt_le_trans with (2 ^ 64); [ilia|]. apply Z.pow_le_mono_r; lia.
Qed.

(** ** Lists *)

Lemma zlen_nonneg {A} (l : list A) : 0 ≤ zlen l.
Proof. unfold zlen; lia. Qed.

Lemma zlen_app {A} (l k : list A) : zlen (l ++ k) = zlen l + zlen k.
Proof. unfold zlen. rewrite length_app. lia. Qed.

Lemma slice_length {A} (l : list A) a b s :
  0 ≤ a → slice l a b = Some s → zlen s = b - a.
Proof.
  unfold slice. intros Ha H. split_ifs; simplify_eq. breflect.
  unfold zlen in *. rewrite length_take, length_drop. lia.
Qed.

Lemma slice_bytes l a b s : bytes l → slice l a b = Some s → bytes s.
Proof. unfold slice. intros Hl. destruct (_ && _); [|done]. intros [= <-]. by apply Forall_take, Forall_drop. Qed.

Lemma slice_all {A} (l : list A) : slice l 0 (zlen l) = Some l.
Proof.
  unfold slice. rewrite Z.leb_refl.
  destruct (_ <=? _) eqn:E; [|apply Z.leb_gt in E; pose proof (zlen_nonneg l); lia].
  simpl. rewrite drop_0, Z.sub_0_r. unfold zlen. by rewrite Nat2Z.id, firstn_all.
Qed.

Lemma to_nat_zlen {A} (l : list A) : Z.to_nat (zlen l) = length l.
Proof. unfold zlen. lia. Qed.

Lemma slice_mid {A} (pre mid post : list A) :
  slice (pre ++ mid ++ post) (zlen pre) (zlen pre + zlen mid) = Some mid.
Proof.
  unfold slice. rewrite !zlen_app.
  pose proof (zlen_nonneg pre). pose proof (zlen_nonneg mid). pose proof (zlen_nonneg post).
  rewrite !(proj2 (Z.leb_le _ _)) by lia. cbn [andb]. unfold zlen.
  rewrite Nat2Z.id, drop_app_length, Z.add_simpl_l, Nat2Z.id. by rewrite take_app_length.
Qed.

(** Sums of machine integers, exact. *)
Definition sumZ (l : list Z) : Z := foldr Z.add 0 l.
Arguments sumZ : simpl never.

Lemma sumZ_cons x l : sumZ (x :: l) = x + sumZ l.
Proof. done. Qed.

Lemma sumZ_app l k : sumZ (l ++ k) = sumZ l + sumZ k.
Proof.
  induction l as [|x l IH]; [done|]. rewrite <- app_comm_cons, !sumZ_cons, IH. lia.
Qed.

Lemma sumZ_nonneg l : Forall (λ x, 0 ≤ x) l → 0 ≤ sumZ l.
Proof. induction 1; [done|]. rewrite sumZ_cons. lia. Qed.

Lemma sumZ_fmap_nonneg {A} (f : A → Z) l : (∀ x, 0 ≤ f x) → 0 ≤ sumZ (f <$> l).
Proof. intros Hf. apply sumZ_nonneg, Forall_fmap, Forall_true. intros. apply Hf. Qed.

Lemma list_bind_fmap {A B C} (g : A → B) (f : B → list C) l :
  ((g <$> l) ≫= f) = l ≫= λ x, f (g x).
Proof. induction l as [|x l IH]; [done|]. apply (f_equal (app (f (g x))) IH). Qed.

(** [slice::chunks(n)]: pieces of [n] elements, the last possibly shorter.
    The fuel is the length: a step drops at least one element. *)
Fixpoint chunks_fuel {A} (fuel n : nat) (l : list A) : list (list A) :=
  match fuel, l with
  | S fuel, _ :: _ => take n l :: chunks_fuel fuel n (drop n l)
  | _, _ => []
  end.
Definition chunks {A} (n : nat) (l : list A) : list (list A) := chunks_fuel (length l) n l.

Lemma chunks_fuel_enough {A} fuel n (l : list A) :
  (0 < n)%nat → (length l ≤ fuel)%nat → chunks_fuel fuel n l = chunks_fuel (length l) n l.
Proof.
  intros Hn. remember (length l) as k eqn:Hk. revert fuel l Hk.
  induction k as [k IH] using lt_wf_ind. intros fuel l -> Hf.
  destruct fuel as [|fuel], l as [|x l]; simpl in *; [done|lia|done|].
  f_equal. pose proof (length_drop (x :: l) n) as Hd. simpl in Hd.
  rewrite (IH (length (drop n (x :: l))) ltac:(lia) fuel _ eq_refl ltac:(lia)).
  symmetry. by apply IH; [lia|done|lia].
Qed.

Lemma chunks_cons {A} n (l : list A) :
  (0 < n)%nat → l ≠ [] → chunks n l = take n l :: chunks n (drop n l).
Proof.
  intros Hn Hl. destruct l as [|x l]; [done|]. unfold chunks at 1.
  cbn [length chunks_fuel]. f_equal.
  pose proof (length_drop (x :: l) n) as Hd. simpl in Hd.
  apply chunks_fuel_enough; [done|lia].
Qed.

(** Induction along [chunks]. *)
Lemma chunks_ind {A} n (P : list A → list (list A) → Prop) :
  (0 < n)%nat → P [] [] →
  (∀ l, l ≠ [] → P (drop n l) (chunks n (drop n l)) →
        P l (take n l :: chunks n (drop n l))) →
  ∀ l, P l (chunks n l).
Proof.
  intros Hn H0 Hstep l. remember (length l) as k eqn:Hk. revert l Hk.
  induction k as [k IH] using lt_wf_ind. intros l ->.
  destruct (decide (l = [])) as [->|Hl]; [done|].
  rewrite chunks_cons by done. apply Hstep; [done|].
  eapply IH; [|done]. rewrite length_drop. destruct l; simpl in *; [done|lia].
Qed.

Lemma concat_chunks {A} n (l : list A) : (0 < n)%nat → concat (chunks n l) = l.
Proof.
  intros Hn. apply (chunks_ind n (λ l cs, concat cs = l)); [done..|].
  intros k _ IH. simpl. by rewrite IH, take_drop.
Qed.

(** ** Sorting *)

(** [sort_by_key], which keeps the order of equal keys. *)
Fixpoint insert_by {A} (key : A → Z) (x : A) (l : list A) : list A :=
  match l with
  | [] => [x]
  | y :: l' => if key x <=? key y then x :: l else y :: insert_by key x l'
  end.
Definition sort_by_key {A} (key : A → Z) (l : list A) : list A := foldr (insert_by key) [] l.

Lemma insert_by_perm {A} (key : A → Z) x l : insert_by key x l ≡ₚ x :: l.
Proof.
  induction l as [|y l IH]; [done|]. cbn [insert_by]. destruct (_ <=? _); [done|]. rewrite IH. by constructor.
Qed.
Lemma sort_by_key_perm {A} (key : A → Z) (l : list A) : sort_by_key key l ≡ₚ l.
Proof.
  induction l as [|x l IH]; [done|]. cbn [sort_by_key foldr]. rewrite insert_by_perm. by constructor.
Qed.

Definition by_key {A} (key : A → Z) : A → A → Prop := λ x y, key x ≤ key y.

Lemma insert_by_sorted {A} (key : A → Z) x l :
  StronglySorted (by_key key) l → StronglySorted (by_key key) (insert_by key x l).
Proof.
  induction 1 as [|y l Hl IH Hy]; cbn [insert_by]; [by repeat constructor|].
  destruct (Z.leb_spec (key x) (key y)).
  - constructor; [by constructor|]. constructor; [done|]. eapply Forall_impl; [exact Hy|].
    unfold by_key. intros z Hz. lia.
  - constructor; [done|]. rewrite insert_by_perm. constructor; [unfold by_key; lia|done].
Qed.
Lemma sort_by_key_sorted {A} (key : A → Z) (l : list A) :
  StronglySorted (by_key key) (sort_by_key key l).
Proof. induction l as [|x l IH]; [constructor|]. by apply insert_by_sorted. Qed.

(** Elements with the same key keep their order. *)
Lemma insert_by_stable {A} (key : A → Z) k x l :
  StronglySorted (by_key key) l →
  filter (λ y, key y = k) (insert_by key x l) = filter (λ y, key y = k) (x :: l).
Proof.
  induction 1 as [|y l Hl IH Hy]; [done|]. cbn [insert_by]. destruct (Z.leb_spec (key x) (key y)); [done|].
  rewrite (filter_cons _ y (insert_by key x l)), IH, !filter_cons. repeat case_decide; try done. lia.
Qed.
Lemma sort_by_key_stable {A} (key : A → Z) k (l : list A) :
  filter (λ y, key y = k) (sort_by_key key l) = filter (λ y, key y = k) l.
Proof.
  induction l as [|x l IH]; [done|]. cbn [sort_by_key foldr]. rewrite insert_by_stable by apply sort_by_key_sorted.
  rewrite !filter_cons. unfold sort_by_key in IH. by rewrite IH.
Qed.

(** The hint database of the development: lengths and widths. *)
Create HintDb terra discriminated.
#[export] Hint Resolve le_bytes_bytes be_bytes_bytes zlen_nonneg lor_u64 land_u64_l
  shiftl32_u64 land_U32_bound : terra.
Create Rewrite HintDb terra_len.
#[export] Hint Rewrite @zlen_app le_bytes_length be_bytes_length @length_app : terra_len.
