(* ===== verification/Limits.v ===== *)
(** * Shared resource limits and the guest RAM layout

    [crates/terra-limits/src/lib.rs]: the constants the other components
    refer to, and the two functions that place guest RAM around the device
    hole. *)

From S2P Require Import Prelude.
Local Open Scope Z_scope.

Definition X86_MAX_DEVICES : Z := 37.
Definition X86_MAX_VCPUS : Z := 32.
Definition ARM_MAX_DEVICES : Z := 16.
Definition ARM_MAX_VCPUS : Z := 8.
Definition MAX_DEVICES : Z :=
  if ARM_MAX_DEVICES <? X86_MAX_DEVICES then X86_MAX_DEVICES else ARM_MAX_DEVICES.
Definition X86_IOAPIC_PINS : Z := 24.
Definition X86_RAM_BASE : Z := 0.
Definition X86_MMIO_BASE : Z := 0xd0000000.
Definition X86_MMIO_STRIDE : Z := 0x1000.
Definition X86_RAM_LOW_END : Z := X86_MMIO_BASE.
Definition X86_KVM_IDENTITY_MAP_ADDR : Z := 0xfffbc000.
Definition X86_KVM_TSS_ADDR : Z := 0xfffbd000.
Definition X86_HIGH_RAM_BASE : Z := 0x100000000.
Definition RAM_PAGE_SIZE : Z := 4096.

Definition MAX_SINGLE_GUEST_COPY_BYTES : Z := 16 * 1024.
Definition MAX_COMPONENT_HOSTCALL_BYTES : Z := 64 * 1024.
Definition MAX_BATCH_GUEST_COPY_BYTES : Z := MAX_COMPONENT_HOSTCALL_BYTES.
Definition MAX_BATCH_GUEST_COPY_RANGES : Z := 32.
Definition MAX_GUEST_DISCARD_BYTES : Z := 1024 * 1024.
Definition MAX_RECLAIM_REPORT_RANGES : Z := 32.
Definition MAX_RECLAIM_REPORT_BYTES : Z := 128 * 1024 * 1024.

Definition ARM_RAM_BASE : Z := 0x40000000.
Definition ARM_GIC_DIST_BASE : Z := 0x08000000.
Definition ARM_GIC_DIST_SIZE : Z := 0x00010000.
Definition ARM_GIC_REDIST_BASE : Z := 0x080a0000.
Definition ARM_GIC_REDIST_SIZE : Z := 0x00200000.
Definition ARM_VIRTIO_MMIO_BASE : Z := 0x0a000000.
Definition ARM_VIRTIO_MMIO_STRIDE : Z := 0x200.

Record RamRegion := mkRegion { rr_base : Z; rr_size : Z }.

Inductive RamLayout :=
| One (region : RamRegion)
| Two (first second : RamRegion).

Definition regions (l : RamLayout) : list RamRegion :=
  match l with
  | One region => [region]
  | Two first second => [first; second]
  end.

Definition x86_ram_layout (sz : Z) : option RamLayout :=
  if (sz =? 0) || negb (is_multiple_of sz RAM_PAGE_SIZE) then None else
  let low_capacity := X86_RAM_LOW_END - X86_RAM_BASE in
  let low_size := if sz <? low_capacity then sz else low_capacity in
  let high_size := sz - low_size in
  if high_size =? 0 then Some (One (mkRegion X86_RAM_BASE low_size)) else
  match checked_add64 X86_HIGH_RAM_BASE high_size with
  | None => None
  | Some _ => Some (Two (mkRegion X86_RAM_BASE low_size)
                        (mkRegion X86_HIGH_RAM_BASE high_size))
  end.

Definition arm_ram_layout (sz : Z) : option RamLayout :=
  if (sz =? 0) || negb (is_multiple_of sz RAM_PAGE_SIZE) then None else
  match checked_add64 ARM_RAM_BASE sz with
  | None => None
  | Some _ => Some (One (mkRegion ARM_RAM_BASE sz))
  end.

(** ** Layout properties *)

Definition region_end (r : RamRegion) : Z := rr_base r + rr_size r.

(** Two address ranges that share no byte. *)
Definition disjoint (b1 e1 b2 e2 : Z) : Prop := e1 ≤ b2 ∨ e2 ≤ b1.

(** The x86 MMIO window of every device slot, and the pages the hypervisor
    reserves below 4 GiB. *)
Definition x86_mmio_end : Z := X86_MMIO_BASE + X86_MAX_DEVICES * X86_MMIO_STRIDE.
Definition arm_mmio_end : Z :=
  ARM_VIRTIO_MMIO_BASE + ARM_MAX_DEVICES * ARM_VIRTIO_MMIO_STRIDE.

Lemma is_multiple_of_spec a b : b ≠ 0 → is_multiple_of a b = true ↔ a mod b = 0.
Proof.
  unfold is_multiple_of. intros Hb. apply Z.eqb_neq in Hb as ->. apply Z.eqb_eq.
Qed.

(** RAM never overlaps the device windows, covers exactly the requested
    bytes, is page aligned and stays below 2{^64}. *)
Record layout_ok (sz : Z) (devices : list (Z * Z)) (l : RamLayout) : Prop := {
  lo_total : foldr (λ r, Z.add (rr_size r)) 0 (regions l) = sz;
  lo_regions : ∀ r, r ∈ regions l →
    0 < rr_size r ∧ rr_size r mod RAM_PAGE_SIZE = 0 ∧ rr_base r mod RAM_PAGE_SIZE = 0 ∧
    region_end r ≤ U64_MAX;
  lo_devices : ∀ r d, r ∈ regions l → d ∈ devices →
    disjoint (rr_base r) (region_end r) d.1 d.2;
  lo_ordered : match l with
               | One _ => True
               | Two first second => region_end first ≤ rr_base second
               end;
}.

Definition x86_devices : list (Z * Z) :=
  [(X86_MMIO_BASE, x86_mmio_end);
   (X86_KVM_IDENTITY_MAP_ADDR, X86_KVM_TSS_ADDR + 3 * RAM_PAGE_SIZE)].
Definition arm_devices : list (Z * Z) :=
  [(ARM_GIC_DIST_BASE, ARM_GIC_DIST_BASE + ARM_GIC_DIST_SIZE);
   (ARM_GIC_REDIST_BASE, ARM_GIC_REDIST_BASE + ARM_GIC_REDIST_SIZE);
   (ARM_VIRTIO_MMIO_BASE, arm_mmio_end)].

Ltac layout_consts :=
  unfold region_end, disjoint, x86_mmio_end, arm_mmio_end, X86_RAM_LOW_END, X86_RAM_BASE,
    X86_MMIO_BASE, X86_MAX_DEVICES, X86_MMIO_STRIDE, X86_KVM_IDENTITY_MAP_ADDR,
    X86_KVM_TSS_ADDR, X86_HIGH_RAM_BASE, RAM_PAGE_SIZE, ARM_RAM_BASE, ARM_GIC_DIST_BASE,
    ARM_GIC_DIST_SIZE, ARM_GIC_REDIST_BASE, ARM_GIC_REDIST_SIZE, ARM_VIRTIO_MMIO_BASE,
    ARM_VIRTIO_MMIO_STRIDE, ARM_MAX_DEVICES in *.

(** Close the goals about the regions of a concrete layout. *)
Ltac solve_layout :=
  simpl; intros; repeat match goal with
  | H : _ ∈ _ :: _ |- _ => apply elem_of_cons in H as [->|H]
  | H : _ ∈ [] |- _ => by apply elem_of_nil in H
  end; simpl; layout_consts; simpl; ilia.

Lemma x86_ram_layout_ok sz l :
  u64 sz → x86_ram_layout sz = Some l → layout_ok sz x86_devices l.
Proof.
  intros Hsz. unfold x86_ram_layout, is_multiple_of. simpl. intros H.
  destruct (sz =? 0) eqn:H0; [done|].
  destruct (sz mod RAM_PAGE_SIZE =? 0) eqn:Hm; [|done]. simpl in H. breflect.
  destruct (sz <? X86_RAM_LOW_END - X86_RAM_BASE) eqn:Hlow; breflect.
  - rewrite Z.sub_diag in H. simpl in H. simplify_eq.
    split; unfold x86_devices; solve_layout.
  - destruct (_ =? 0) eqn:Hh in H; breflect.
    + simplify_eq. split; unfold x86_devices; solve_layout.
    + case_match eqn:Ha; simplify_eq. apply checked_add64_Some in Ha as [-> Ha].
      split; unfold x86_devices; solve_layout.
Qed.

Lemma arm_ram_layout_ok sz l :
  u64 sz → arm_ram_layout sz = Some l → layout_ok sz arm_devices l.
Proof.
  intros Hsz. unfold arm_ram_layout, is_multiple_of. simpl. intros H.
  destruct (sz =? 0) eqn:H0; [done|].
  destruct (sz mod RAM_PAGE_SIZE =? 0) eqn:Hm; [|done]. simpl in H. breflect.
  case_match eqn:Ha; simplify_eq. apply checked_add64_Some in Ha as [-> Ha].
  split; unfold arm_devices; solve_layout.
Qed.

(** Both RAM layouts cover exactly the requested bytes with non-empty,
    page-aligned, address-ordered regions below 2{^64}, and no region
    touches a device window (the virtio MMIO slots and the KVM pages on x86,
    the GIC and the virtio slots on ARM). *)
Theorem ram_layouts_avoid_devices sz :
  u64 sz →
  (∀ l, x86_ram_layout sz = Some l → layout_ok sz x86_devices l) ∧
  (∀ l, arm_ram_layout sz = Some l → layout_ok sz arm_devices l) ∧
  (sz ≠ 0 → sz mod RAM_PAGE_SIZE = 0 → sz ≤ U64_MAX - X86_HIGH_RAM_BASE →
   is_Some (x86_ram_layout sz) ∧ is_Some (arm_ram_layout sz)).
Proof.
  intros Hsz. split; [|split]; [by intros; apply x86_ram_layout_ok|by intros; apply arm_ram_layout_ok|].
  intros H0 Hm Hmax. unfold x86_ram_layout, arm_ram_layout.
  apply Z.eqb_neq in H0 as ->. assert (is_multiple_of sz RAM_PAGE_SIZE = true) as ->
    by (by apply is_multiple_of_spec).
  simpl. unfold checked_add64. split; repeat case_match; try done; breflect;
    layout_consts; ilia.
Qed.

Lemma ram_layouts_avoid_devices_witness :
  layout_ok 0x200000000 x86_devices
    (Two (mkRegion 0 0xd0000000) (mkRegion 0x100000000 0x130000000)).
Proof.
  destruct (ram_layouts_avoid_devices 0x200000000) as [H _]; [ilia|].
  apply H. reflexivity.
Defined.
