(* ===== verification/MemoryApi.v ===== *)
(** * The guest memory interface

    What the device components rely on when they call [terra:host/memory]
    ([components/wit/terra/host.wit]): bounded copies that read and write the
    guest-physical bytes they name. Components are proved against the class;
    [BoundedMemory] implements it. The model is sequential: between two calls
    the guest's own stores appear as a change of the host state [H]. *)

From S2P Require Import Prelude Limits.
Local Open Scope Z_scope.

(** [f] with the bytes [bs] stored from address [a] on. *)
Definition patch (f : Z → Z) (a : Z) (bs : list Z) : Z → Z :=
  λ x, if (a <=? x) && (x <? a + zlen bs)
       then default 0 (bs !! Z.to_nat (x - a)) else f x.

Definition peek (f : Z → Z) (a n : Z) : list Z := f <$> seqZ a n.

(** Writes in order; a later write wins where two overlap. *)
Definition patches (f : Z → Z) (ws : list (Z * list Z)) : Z → Z :=
  foldl (λ f w, patch f w.1 w.2) f ws.

(** The bounds every batched copy has to meet. *)
Definition batch_ok (lens : list Z) : Prop :=
  zlen lens ≤ MAX_BATCH_GUEST_COPY_RANGES ∧
  Forall (λ n, 0 < n ≤ MAX_SINGLE_GUEST_COPY_BYTES) lens ∧
  sumZ lens ≤ MAX_BATCH_GUEST_COPY_BYTES.

Class GuestMemory (H E : Type) := {
  gm_read : Z → Z → stM H E (list Z);
  gm_read_ranges : list (Z * Z) → stM H E (list Z);
  gm_write : Z → list Z → stM H E unit;
  gm_write_ranges : list (Z * list Z) → stM H E unit;
  (** [gm_mapped h a n]: the [n] bytes from [a] are guest RAM. *)
  gm_mapped : H → Z → Z → Prop;
  (** The contents of guest RAM. *)
  gm_byte : H → Z → Z;
  gm_byte_u8 h x : u8 (gm_byte h x);
  gm_mapped_u64 h a n : gm_mapped h a n → 0 ≤ a ∧ a + n ≤ U64_MAX;
  gm_mapped_sub h a n a' n' :
    gm_mapped h a n → a ≤ a' → 0 < n' → a' + n' ≤ a + n → gm_mapped h a' n';
  gm_read_ok h a n :
    0 < n ≤ MAX_SINGLE_GUEST_COPY_BYTES → gm_mapped h a n →
    gm_read a n h = (Ok (peek (gm_byte h) a n), h);
  gm_read_pure h a n : (gm_read a n h).2 = h;
  gm_write_ok h a bs :
    0 < zlen bs ≤ MAX_SINGLE_GUEST_COPY_BYTES → bytes bs → gm_mapped h a (zlen bs) →
    ∃ h', gm_write a bs h = (Ok tt, h') ∧
      (∀ x, gm_byte h' x = patch (gm_byte h) a bs x) ∧
      (∀ a n, gm_mapped h' a n ↔ gm_mapped h a n);
  gm_write_err h a bs e h' : gm_write a bs h = (Err e, h') → h' = h;
  (** A read that succeeds returns the contents, and a store that succeeds is
      that store, mapped or not. *)
  gm_read_inv h a n bs : (gm_read a n h).1 = Ok bs → bs = peek (gm_byte h) a n;
  gm_write_inv h a bs h' : bytes bs → gm_write a bs h = (Ok tt, h') →
    (∀ x, gm_byte h' x = patch (gm_byte h) a bs x) ∧
    (∀ a n, gm_mapped h' a n ↔ gm_mapped h a n);
  gm_read_ranges_ok h rs :
    batch_ok rs.*2 → Forall (λ r, gm_mapped h r.1 r.2) rs →
    gm_read_ranges rs h = (Ok (rs ≫= λ r, peek (gm_byte h) r.1 r.2), h);
  gm_read_ranges_pure h rs : (gm_read_ranges rs h).2 = h;
  gm_read_ranges_inv h rs bs : (gm_read_ranges rs h).1 = Ok bs →
    bs = rs ≫= λ r, peek (gm_byte h) r.1 r.2;
  gm_write_ranges_ok h ws :
    batch_ok ((λ w, zlen w.2) <$> ws) →
    Forall (λ w, bytes w.2 ∧ gm_mapped h w.1 (zlen w.2)) ws →
    ∃ h', gm_write_ranges ws h = (Ok tt, h') ∧
      (∀ x, gm_byte h' x = patches (gm_byte h) ws x) ∧
      (∀ a n, gm_mapped h' a n ↔ gm_mapped h a n);
  gm_write_ranges_err h ws e h' : Forall (λ w, bytes w.2) ws →
    gm_write_ranges ws h = (Err e, h') → h' = h;
  gm_write_ranges_inv h ws h' : Forall (λ w, bytes w.2) ws →
    gm_write_ranges ws h = (Ok tt, h') →
    (∀ x, gm_byte h' x = patches (gm_byte h) ws x) ∧
    (∀ a n, gm_mapped h' a n ↔ gm_mapped h a n);
}.

(** ** Reading back what was written *)

Lemma peek_length f a n : 0 ≤ n → zlen (peek f a n) = n.
Proof. intros. unfold peek, zlen. rewrite length_fmap, length_seqZ. lia. Qed.

Lemma peek_lookup f a n i :
  (i < Z.to_nat n)%nat → peek f a n !! i = Some (f (a + Z.of_nat i)).
Proof.
  intros Hi. unfold peek. rewrite list_lookup_fmap, lookup_seqZ_lt; [done|lia].
Qed.

Lemma peek_ext f g a n :
  (∀ x, a ≤ x < a + n → f x = g x) → peek f a n = peek g a n.
Proof.
  intros Hfg. unfold peek. apply list_fmap_ext. intros i x Hx.
  apply lookup_seqZ in Hx as [-> Hi]. apply Hfg. lia.
Qed.

Lemma peek_app f a n m :
  0 ≤ n → 0 ≤ m → peek f a (n + m) = peek f a n ++ peek f (a + n) m.
Proof. intros. unfold peek. rewrite <- fmap_app. f_equal. by apply seqZ_app. Qed.

Lemma peek_part f a n k m :
  0 ≤ k → 0 ≤ m → k + m ≤ n → take (Z.to_nat m) (drop (Z.to_nat k) (peek f a n)) = peek f (a + k) m.
Proof.
  intros Hk Hm Hle. replace n with (k + (m + (n - k - m))) by lia.
  assert (Hl : ∀ b i, 0 ≤ i → length (peek f b i) = Z.to_nat i)
    by (intros; unfold peek; by rewrite length_fmap, length_seqZ).
  rewrite !peek_app by lia. rewrite <-(Hl a k) at 1 by lia. rewrite drop_app_length.
  rewrite <-(Hl (a + k) m) at 1 by lia. by rewrite take_app_length.
Qed.

Lemma peek_bytes f a n : (∀ x, u8 (f x)) → bytes (peek f a n).
Proof. intros Hf. unfold peek, bytes. apply Forall_fmap, Forall_true. intros. apply Hf. Qed.

Lemma peek_patch_same f a bs : peek (patch f a bs) a (zlen bs) = bs.
Proof.
  apply list_eq. intros i. destruct (decide (i < length bs)%nat) as [Hi|Hi].
  - rewrite peek_lookup by (unfold zlen; lia). unfold patch, zlen.
    destruct (_ && _) eqn:Hb; breflect.
    + replace (Z.to_nat (a + Z.of_nat i - a)) with i by lia.
      destruct (lookup_lt_is_Some_2 bs i Hi) as [b ->]. done.
    + apply andb_false_iff in Hb as [Hb|Hb]; breflect; lia.
  - rewrite (lookup_ge_None_2 bs i) by lia. apply lookup_ge_None_2.
    pose proof (peek_length (patch f a bs) a (zlen bs)). unfold zlen in *. lia.
Qed.

Lemma patch_out f a bs x : ¬ (a ≤ x < a + zlen bs) → patch f a bs x = f x.
Proof.
  intros Hx. unfold patch. destruct (_ && _) eqn:Hb; [|done]. breflect. lia.
Qed.

Lemma patch_nil f a x : patch f a [] x = f x.
Proof. apply patch_out. unfold zlen. simpl. lia. Qed.

Lemma peek_patch_disjoint f a bs b n :
  b + n ≤ a ∨ a + zlen bs ≤ b → peek (patch f a bs) b n = peek f b n.
Proof. intros Hd. apply peek_ext. intros x Hx. apply patch_out. lia. Qed.

Lemma patches_ext f g ws : (∀ x, f x = g x) → ∀ x, patches f ws x = patches g ws x.
Proof.
  revert f g. induction ws as [|[a bs] ws IH]; intros f g Hfg x; simpl; [done|].
  apply IH. intros y. unfold patch. by rewrite Hfg.
Qed.

Lemma patches_app f ws ws' x : patches f (ws ++ ws') x = patches (patches f ws) ws' x.
Proof. unfold patches. by rewrite foldl_app. Qed.

Lemma patches_out f ws x :
  Forall (λ w, ¬ (w.1 ≤ x < w.1 + zlen w.2)) ws → patches f ws x = f x.
Proof.
  intros Hws. revert f. induction Hws as [|w ws Hw _ IH]; intros f; [done|].
  change (patches f (w :: ws) x) with (patches (patch f w.1 w.2) ws x).
  by rewrite IH, patch_out.
Qed.

Lemma patch_ext f g a bs : (∀ x, f x = g x) → ∀ x, patch f a bs x = patch g a bs x.
Proof. intros Hfg x. unfold patch. by rewrite Hfg. Qed.

Lemma patch_comm f a bs b cs x :
  a + zlen bs ≤ b ∨ b + zlen cs ≤ a → patch (patch f a bs) b cs x = patch (patch f b cs) a bs x.
Proof.
  intros Hd. destruct (decide (a ≤ x < a + zlen bs)).
  - rewrite patch_out by lia. unfold patch. by destruct (_ && _) eqn:Hb; [|lia].
  - rewrite (patch_out (patch f b cs)) by lia. unfold patch at 1 3.
    destruct (_ && _); [done|]. by apply patch_out.
Qed.

Lemma patch_over f a v w x : zlen v = zlen w → patch (patch f a v) a w x = patch f a w x.
Proof.
  intros Hl. unfold patch at 1 3. destruct (_ && _) eqn:Hb; [done|]. apply patch_out.
  rewrite Hl. apply andb_false_iff in Hb as [Hb|Hb]; breflect; lia.
Qed.

Lemma patch_app f a l1 l2 x :
  patch (patch f a l1) (a + zlen l1) l2 x = patch f a (l1 ++ l2) x.
Proof.
  unfold patch. rewrite zlen_app. unfold zlen.
  repeat match goal with
  | |- context [?b && ?c] => destruct (b && c) eqn:?
  end; breflect;
  repeat match goal with
  | H : _ && _ = false |- _ => apply andb_false_iff in H as [?|?]; breflect
  end; try lia; try done.
  - rewrite lookup_app_r by lia. do 2 f_equal. lia.
  - rewrite lookup_app_l by lia. done.
Qed.

Lemma peek_patch_app f a l1 l2 :
  peek (patch f a (l1 ++ l2)) a (zlen l1) = l1 ∧
  peek (patch f a (l1 ++ l2)) (a + zlen l1) (zlen l2) = l2.
Proof.
  pose proof (peek_patch_same f a (l1 ++ l2)) as Hp. rewrite zlen_app in Hp.
  rewrite peek_app in Hp by apply zlen_nonneg. apply app_inj_1 in Hp; [done|].
  unfold peek. rewrite length_fmap, length_seqZ. unfold zlen. lia.
Qed.

(** A memory whose errors are renamed: [map_err] on every call. *)
Definition map_memory_err {H E F} (f : E → F) `{!GuestMemory H E} : GuestMemory H F.
Proof.
  refine {| gm_read a n h := let '(r, h') := gm_read a n h in (map_err f r, h');
            gm_write a bs h := let '(r, h') := gm_write a bs h in (map_err f r, h');
            gm_read_ranges rs h := let '(r, h') := gm_read_ranges rs h in (map_err f r, h');
            gm_write_ranges ws h := let '(r, h') := gm_write_ranges ws h in (map_err f r, h');
            gm_mapped := gm_mapped; gm_byte := gm_byte |}.
  - apply gm_byte_u8.
  - apply gm_mapped_u64.
  - apply gm_mapped_sub.
  - intros. by rewrite gm_read_ok.
  - intros h a n. pose proof (gm_read_pure h a n). by destruct (gm_read a n h).
  - intros h a bs ? ? ?. destruct (gm_write_ok h a bs) as (h' & -> & ?); eauto.
  - intros h a bs e h' Hw. destruct (gm_write a bs h) as [[|] ?] eqn:Hw'; simplify_eq/=.
    by apply gm_write_err in Hw'.
  - intros h a n bs. pose proof (gm_read_inv h a n) as Hr.
    destruct (gm_read a n h) as [[|] ?]; simpl in *; [|done]. intros [= <-]. by apply Hr.
  - intros h a bs h' Hb Hw. destruct (gm_write a bs h) as [[[]|] ?] eqn:Hw'; simplify_eq/=.
    by eapply gm_write_inv.
  - intros. by rewrite gm_read_ranges_ok.
  - intros h rs. pose proof (gm_read_ranges_pure h rs). by destruct (gm_read_ranges rs h).
  - intros h rs bs. pose proof (gm_read_ranges_inv h rs) as Hr.
    destruct (gm_read_ranges rs h) as [[|] ?]; simpl in *; [|done]. intros [= <-]. by apply Hr.
  - intros h ws ? ?. destruct (gm_write_ranges_ok h ws) as (h' & -> & ?); eauto.
  - intros h ws e h' ? Hw. destruct (gm_write_ranges ws h) as [[|] ?] eqn:Hw'; simplify_eq/=.
    by apply gm_write_ranges_err in Hw'.
  - intros h ws h' ? Hw. destruct (gm_write_ranges ws h) as [[[]|] ?] eqn:Hw'; simplify_eq/=.
    by apply gm_write_ranges_inv in Hw'.
Defined.
