(* ===== verification/HostMemory.v ===== *)
(** * Guest RAM on the host

    [crates/terra-hypervisor/src/memory.rs] (the mapped regions and their
    range checks), [crates/terra-runtime/src/memory.rs] (the bounded copies
    every device store goes through, and the reclaim checks) and the memory
    imports of [crates/terra-runtime/src/component/context.rs]. The mapping
    itself, [memory/unix.rs] over the [vm-memory] crate and
    [memory/windows.rs] over [VirtualAlloc], is a parameter, the class
    [Backing]. Its laws hold of both: a range that spans two adjacent regions
    is contained on Unix and not on Windows, so the class leaves that open.
    Hosts are 64-bit, so [usize] and [u64] coincide here. *)

From stdpp Require Import gmap sorting.
From S2P Require Import Prelude Limits MemoryApi.
Local Open Scope Z_scope.

(** ** The mapping

    [Backing]: [new], [ranges], [contains], [read_append] and [write]. *)
Definition in_region (x : Z) (r : Z * Z) : Prop := r.1 ≤ x < r.1 + r.2.

Class Backing (B : Type) := {
  b_new : list (Z * Z) → option B;
  b_ranges : B → list (Z * Z);
  b_contains : B → Z → Z → bool;
  b_read : B → Z → Z → option (list Z);
  b_write : B → Z → list Z → option B;
  (** The bytes of the mapping; a name for what reads return. *)
  b_byte : B → Z → Z;
  b_byte_u8 b x : u8 (b_byte b x);
  b_new_ranges l b : b_new l = Some b → b_ranges b = l;
  b_contains_mapped b a n : 0 < n → b_contains b a n = true →
    ∀ x, a ≤ x < a + n → Exists (in_region x) (b_ranges b);
  b_contains_region b a n r : r ∈ b_ranges b → 0 < n → r.1 ≤ a → a + n ≤ r.1 + r.2 →
    b_contains b a n = true;
  b_contains_sub b a n a' n' : b_contains b a n = true → a ≤ a' → 0 < n' →
    a' + n' ≤ a + n → b_contains b a' n' = true;
  b_read_ok b a n : b_contains b a n = true → b_read b a n = Some (peek (b_byte b) a n);
  b_write_ok b a bs : b_contains b a (zlen bs) = true → bytes bs →
    ∃ b', b_write b a bs = Some b' ∧ b_ranges b' = b_ranges b ∧
      (∀ a n, b_contains b' a n = b_contains b a n) ∧
      ∀ x, b_byte b' x = patch (b_byte b) a bs x;
}.

(** ** [terra_hypervisor::memory::GuestMemory] *)

Inductive PlatformMemoryError := PlatformOutOfRange | PlatformUnmapped.

Section Hypervisor.
Context {B : Type} `{!Backing B}.

Record GuestMem := mkMem { backing : B; limit : Z }.

Definition range_end (base size : Z) : option Z := checked_add64 base size.

Definition guest_base (m : GuestMem) : Z :=
  match b_ranges (backing m) with [] => 0 | r :: _ => r.1 end.

(** [sort_unstable_by_key] on the base address. *)
Fixpoint insert_range (r : Z * Z) (l : list (Z * Z)) : list (Z * Z) :=
  match l with
  | [] => [r]
  | s :: l' => if r.1 <=? s.1 then r :: l else s :: insert_range r l'
  end.
Definition sort_ranges (l : list (Z * Z)) : list (Z * Z) := foldr insert_range [] l.

(** [ranges.windows(2).any(...)] *)
Fixpoint windows_overlap (l : list (Z * Z)) : bool :=
  match l with
  | a :: ((b :: _) as l') =>
      match range_end a.1 a.2 with None => true | Some e => b.1 <? e end
      || windows_overlap l'
  | _ => false
  end.

Definition from_ranges (ranges : list (Z * Z)) : option GuestMem :=
  let ranges := sort_ranges ranges in
  if bool_decide (ranges = [])
     || existsb (λ r, (r.2 =? 0) || bool_decide (range_end r.1 r.2 = None)) ranges
     || windows_overlap ranges
  then None else
  last_range ← last ranges;
  b ← b_new ranges;
  lim ← range_end last_range.1 last_range.2;
  Some (mkMem b lim).

Definition from_layout (l : RamLayout) : option GuestMem :=
  from_ranges ((λ r, (rr_base r, rr_size r)) <$> regions l).

Definition contains_range (m : GuestMem) (addr len : Z) : bool :=
  match checked_add64 addr len with
  | Some e => (e <=? limit m) && b_contains (backing m) addr len
  | None => false
  end.

Definition range_error (m : GuestMem) (addr len : Z) : PlatformMemoryError :=
  if (addr <? guest_base m)
     || match checked_add64 addr len with None => true | Some e => limit m <? e end
  then PlatformOutOfRange else PlatformUnmapped.

Definition validate_range (m : GuestMem) (addr len : Z)
  : result PlatformMemoryError unit :=
  if contains_range m addr len then Ok tt else Err (range_error m addr len).

Definition mem_read (m : GuestMem) (addr len : Z) : result PlatformMemoryError (list Z) :=
  _ ← validate_range m addr len;
  ok_or PlatformUnmapped (b_read (backing m) addr len).

Definition mem_write (addr : Z) (bs : list Z) : stM GuestMem PlatformMemoryError unit :=
  λ m, match validate_range m addr (zlen bs) with
       | Err e => (Err e, m)
       | Ok _ =>
         match b_write (backing m) addr bs with
         | Some b => (Ok tt, mkMem b (limit m))
         | None => (Err PlatformUnmapped, m)
         end
       end.

(** ** [terra_runtime::memory::BoundedMemory] *)

Inductive MemoryError := OutOfRange | TooLarge | MemUnmapped.

Definition map_memory_error (e : PlatformMemoryError) : MemoryError :=
  match e with PlatformOutOfRange => OutOfRange | PlatformUnmapped => MemUnmapped end.

Definition copy_len (len : Z) : result MemoryError Z :=
  if MAX_SINGLE_GUEST_COPY_BYTES <? len then Err TooLarge else Ok len.

Definition bounded_read (offset len : Z) : stM GuestMem MemoryError (list Z) :=
  λ m, (len ← copy_len len; map_err map_memory_error (mem_read m offset len), m).

(** The validation loop of a batch; [total] is the running sum. *)
Fixpoint validate_batch (m : GuestMem) (rs : list (Z * Z)) (total : Z)
  : result MemoryError Z :=
  match rs with
  | [] => Ok total
  | (addr, len) :: rs =>
    _ ← copy_len len;
    total ← ok_or TooLarge (checked_add64 total len);
    if MAX_BATCH_GUEST_COPY_BYTES <? total then Err TooLarge else
    _ ← map_err map_memory_error (validate_range m addr len);
    validate_batch m rs total
  end.

Fixpoint read_batch (m : GuestMem) (rs : list (Z * Z)) : result MemoryError (list Z) :=
  match rs with
  | [] => Ok []
  | (addr, len) :: rs =>
    len ← copy_len len;
    bs ← map_err map_memory_error (mem_read m addr len);
    rest ← read_batch m rs;
    Ok (bs ++ rest)
  end.

Definition bounded_read_ranges (rs : list (Z * Z)) : stM GuestMem MemoryError (list Z) :=
  λ m, ((if MAX_BATCH_GUEST_COPY_RANGES <? zlen rs then Err TooLarge else
         _ ← validate_batch m rs 0; read_batch m rs), m).

Definition bounded_write (offset : Z) (data : list Z) : stM GuestMem MemoryError unit :=
  λ m, match copy_len (zlen data) with
       | Err e => (Err e, m)
       | Ok _ => let '(r, m') := mem_write offset data m in
                 (map_err map_memory_error r, m')
       end.

Fixpoint write_batch (ws : list (Z * list Z)) : stM GuestMem MemoryError unit :=
  match ws with
  | [] => st_ret tt
  | (offset, data) :: ws => (bounded_write offset data;;; write_batch ws)%st
  end.

Definition bounded_write_ranges (ws : list (Z * list Z)) : stM GuestMem MemoryError unit :=
  λ m, if MAX_BATCH_GUEST_COPY_RANGES <? zlen ws then (Err TooLarge, m) else
       match validate_batch m ((λ w, (w.1, zlen w.2)) <$> ws) 0 with
       | Err e => (Err e, m)
       | Ok _ => write_batch ws m
       end.

(** [validate_ranges] of the reclaim path. *)
Inductive ReclaimError := ReclaimInvalid | ReclaimUnsupported | ReclaimTooLarge | ReclaimIo.

Definition PAGE_BYTES : Z := 4096.

Fixpoint validate_reclaim (m : GuestMem) (rs : list (Z * Z)) (total : Z)
  : result ReclaimError unit :=
  match rs with
  | [] => Ok tt
  | (addr, len) :: rs =>
    if (len =? 0) || negb (addr mod PAGE_BYTES =? 0) || negb (len mod PAGE_BYTES =? 0)
    then Err ReclaimInvalid else
    total ← ok_or ReclaimTooLarge (checked_add64 total len);
    if MAX_RECLAIM_REPORT_BYTES <? total then Err ReclaimTooLarge else
    if negb (contains_range m addr len) then Err ReclaimInvalid else
    validate_reclaim m rs total
  end.

Definition validate_ranges (m : GuestMem) (rs : list (Z * Z)) : result ReclaimError unit :=
  if MAX_RECLAIM_REPORT_RANGES <? zlen rs then Err ReclaimTooLarge else
  validate_reclaim m rs 0.
End Hypervisor.
Arguments GuestMem B : clear implicits.

(** [full_host_pages]: the complete host pages of a range. *)
Definition full_host_pages (address len page : Z) : option (Z * Z) :=
  if page =? 0 then None else
  e ← checked_add64 address len;
  p ← checked_sub page 1;
  s ← checked_add64 address p;
  let start := s / page * page in
  let e := e / page * page in
  if start <? e then Some (start, e - start) else None.

(** ** Discarding guest pages

    [GuestMemory::discard] and [GuestRam::discard], as compiled for Linux and
    Windows (the macOS branch also remaps through Hypervisor.framework and is
    not modelled). The host's address space is a parameter: where a guest
    range sits, the page size, and the call that discards host pages. *)
Inductive DiscardError := DiscardInvalid | DiscardUnsupported | DiscardIo.

Section Discard.
Context {B : Type} `{!Backing B} {S : Type}.
Context (host_address_within_region : GuestMem B → Z → Z → option Z).
Context (host_page_bytes : Z).
Context (discard_host_pages : Z → Z → stM S DiscardError unit).

(** The guest address, host address and length of the complete host pages. *)
Definition discard_host_range (m : GuestMem B) (r : Z * Z) : result DiscardError (Z * Z * Z) :=
  if (r.2 =? 0) || negb (contains_range m r.1 r.2) then Err DiscardInvalid else
  address ← ok_or DiscardInvalid (host_address_within_region m r.1 r.2);
  p ← ok_or DiscardInvalid (full_host_pages address r.2 host_page_bytes);
  Ok (r.1 + (p.1 - address), p.1, p.2).

Fixpoint collect_ranges (m : GuestMem B) (rs : list (Z * Z))
  : result DiscardError (list (Z * Z * Z)) :=
  match rs with
  | [] => Ok []
  | r :: rs => x ← discard_host_range m r; xs ← collect_ranges m rs; Ok (x :: xs)
  end.

Fixpoint discard_each (xs : list (Z * Z * Z)) : stM S DiscardError unit :=
  match xs with
  | [] => st_ret tt
  | (_, host, len) :: xs => (discard_host_pages host len;;; discard_each xs)%st
  end.

Definition discard (m : GuestMem B) (rs : list (Z * Z)) : stM S DiscardError unit :=
  λ s, match collect_ranges m rs with
       | Err e => (Err e, s)
       | Ok xs => discard_each xs s
       end.

Definition map_discard_error (e : DiscardError) : ReclaimError :=
  match e with
  | DiscardInvalid => ReclaimInvalid
  | DiscardUnsupported => ReclaimUnsupported
  | DiscardIo => ReclaimIo
  end.

(** [GuestRam::discard] *)
Definition reclaim (m : GuestMem B) (rs : list (Z * Z)) : stM S ReclaimError unit :=
  λ s, match validate_ranges m rs with
       | Err e => (Err e, s)
       | Ok _ => let '(r, s') := discard m rs s in (map_err map_discard_error r, s')
       end.
End Discard.

(** ** The bounded copies implement the memory interface *)
Section BoundedMemory.
Context {B : Type} `{!Backing B}.
Implicit Type m : GuestMem B.

Lemma contains_range_spec m a n :
  contains_range m a n = true ↔
  a + n ≤ U64_MAX ∧ a + n ≤ limit m ∧ b_contains (backing m) a n = true.
Proof.
  unfold contains_range. destruct (checked_add64 a n) as [e|] eqn:He.
  - apply checked_add64_Some in He as [-> He]. rewrite andb_true_iff, Z.leb_le. tauto.
  - apply checked_add64_None in He. split; [done|lia].
Qed.

Lemma contains_range_backing m a n :
  contains_range m a n = true → b_contains (backing m) a n = true.
Proof. unfold contains_range. case_match; [|done]. intros. by breflect. Qed.

Definition bounded_mapped m (a n : Z) : Prop :=
  0 ≤ a ∧ 0 < n ∧ contains_range m a n = true.

Lemma bounded_mapped_sub m a n a' n' :
  bounded_mapped m a n → a ≤ a' → 0 < n' → a' + n' ≤ a + n → bounded_mapped m a' n'.
Proof.
  intros (Ha & Hn & Hc) ? ? ?. repeat split; [lia|done|].
  apply contains_range_spec in Hc as (? & ? & Hx).
  apply contains_range_spec. repeat split; [lia|lia|]. by eapply b_contains_sub.
Qed.

Lemma mem_read_mapped m a n :
  contains_range m a n = true → mem_read m a n = Ok (peek (b_byte (backing m)) a n).
Proof.
  intros Hc. unfold mem_read, validate_range. rewrite Hc. simpl.
  by rewrite b_read_ok by (by apply contains_range_backing).
Qed.

Lemma copy_len_ok n : n ≤ MAX_SINGLE_GUEST_COPY_BYTES → copy_len n = Ok n.
Proof. intros. unfold copy_len. case_match; [breflect; lia|done]. Qed.

(** What a successful store leaves behind. *)
Definition stored m (ws : list (Z * list Z)) m' : Prop :=
  limit m' = limit m ∧
  (∀ a n, b_contains (backing m') a n = b_contains (backing m) a n) ∧
  b_ranges (backing m') = b_ranges (backing m) ∧
  ∀ x, b_byte (backing m') x = patches (b_byte (backing m)) ws x.

Lemma stored_contains m ws m' a n :
  stored m ws m' → contains_range m' a n = contains_range m a n.
Proof. intros (Hl & Hc & _). unfold contains_range. by rewrite Hl, Hc. Qed.

Lemma bounded_write_mapped m a bs :
  zlen bs ≤ MAX_SINGLE_GUEST_COPY_BYTES → bytes bs →
  contains_range m a (zlen bs) = true →
  ∃ m', bounded_write a bs m = (Ok tt, m') ∧ stored m [(a, bs)] m'.
Proof.
  intros Hlen Hb Hc. unfold bounded_write. rewrite copy_len_ok by done. simpl.
  unfold mem_write, validate_range. rewrite Hc.
  destruct (b_write_ok (backing m) a bs) as (b' & -> & Hr & Hc' & Hx);
    [by apply contains_range_backing|done|].
  eexists; split; [done|]. by repeat split.
Qed.

Lemma bounded_read_inv m a n bs :
  (bounded_read a n m).1 = Ok bs → bs = peek (b_byte (backing m)) a n.
Proof.
  unfold bounded_read, copy_len. destruct (_ <? n) in |- *; [done|]. rsimpl.
  destruct (contains_range m a n) eqn:Hc.
  - rewrite mem_read_mapped by done. by intros [= <-].
  - unfold mem_read, validate_range. by rewrite Hc.
Qed.

Lemma read_batch_inv m rs bs :
  read_batch m rs = Ok bs → bs = rs ≫= λ r, peek (b_byte (backing m)) r.1 r.2.
Proof.
  revert bs. induction rs as [|[a n] rs IH]; intros bs Hr; [by injection Hr as <-|].
  cbn [read_batch] in Hr. pose proof (bounded_read_inv m a n) as Hi. unfold bounded_read in Hi.
  cbn [fst] in Hi. destruct (copy_len n) as [len|]; [|done]. rsimpl_in Hr. rsimpl_in Hi.
  destruct (mem_read m a len) as [b|]; [|done]. rsimpl_in Hr. rsimpl_in Hi.
  destruct (read_batch m rs) as [rest|]; [|done]. rsimpl_in Hr. injection Hr as <-.
  by rewrite bind_cons, (Hi b eq_refl), (IH rest eq_refl).
Qed.

Lemma bounded_read_ranges_inv m rs bs :
  (bounded_read_ranges rs m).1 = Ok bs → bs = rs ≫= λ r, peek (b_byte (backing m)) r.1 r.2.
Proof.
  unfold bounded_read_ranges. cbn [fst]. destruct (_ <? _); [done|].
  destruct (validate_batch m rs 0); [|done]. apply read_batch_inv.
Qed.

Lemma bounded_write_inv m a bs m' :
  bytes bs → bounded_write a bs m = (Ok tt, m') → stored m [(a, bs)] m'.
Proof.
  intros Hb Hw. destruct (decide (zlen bs ≤ MAX_SINGLE_GUEST_COPY_BYTES)) as [Hl|Hl].
  - destruct (contains_range m a (zlen bs)) eqn:Hc.
    + destruct (bounded_write_mapped m a bs Hl Hb Hc) as (m'' & Hw' & Hs).
      rewrite Hw in Hw'. by injection Hw' as <-.
    + unfold bounded_write, mem_write, validate_range in Hw. rewrite copy_len_ok in Hw by done.
      rewrite Hc in Hw. by simplify_eq/=.
  - unfold bounded_write, copy_len in Hw. destruct (_ <? zlen bs) eqn:E in Hw; [done|]. breflect. lia.
Qed.

Lemma bounded_write_error m a bs e m' :
  bounded_write a bs m = (Err e, m') → m' = m.
Proof.
  unfold bounded_write, mem_write. repeat case_match; simplify_eq/=; try done; naive_solver.
Qed.

Lemma stored_trans m w ws m' m'' :
  stored m [w] m' → stored m' ws m'' → stored m (w :: ws) m''.
Proof.
  intros (? & Hc & ? & Hx) (? & Hc' & ? & Hx'). unfold stored. split_and!; try congruence.
  intros x. rewrite Hx'. simpl. by apply patches_ext.
Qed.

Lemma write_batch_mapped m ws :
  Forall (λ w, zlen w.2 ≤ MAX_SINGLE_GUEST_COPY_BYTES ∧ bytes w.2 ∧
               contains_range m w.1 (zlen w.2) = true) ws →
  ∃ m', write_batch ws m = (Ok tt, m') ∧ stored m ws m'.
Proof.
  revert m. induction ws as [|[a bs] ws IH]; intros m Hall.
  - exists m. split; [done|]. by repeat split.
  - inversion_clear Hall as [|? ? (Hl & Hb & Hc) Hall']. simpl in *.
    destruct (bounded_write_mapped m a bs Hl Hb Hc) as (m' & Hw & Hs).
    destruct (IH m') as (m'' & Hws & Hs').
    { eapply Forall_impl; [exact Hall'|]. intros w (? & ? & ?).
      by rewrite (stored_contains m [(a, bs)] m'). }
    exists m''. unfold st_bind. rewrite Hw, Hws. split; [done|]. by eapply stored_trans.
Qed.

Lemma validate_batch_ok m rs total :
  Forall (λ r, 0 ≤ r.2 ≤ MAX_SINGLE_GUEST_COPY_BYTES ∧ contains_range m r.1 r.2 = true) rs →
  0 ≤ total → total + sumZ rs.*2 ≤ MAX_BATCH_GUEST_COPY_BYTES →
  is_ok (validate_batch m rs total) = true.
Proof.
  revert total. induction rs as [|[a n] rs IH]; intros total Hall Ht Hsum; [done|].
  rewrite fmap_cons, sumZ_cons in Hsum.
  inversion_clear Hall as [|? ? (Hn & Hc) Hall']. simpl in *.
  rewrite copy_len_ok by lia. simpl.
  assert (0 ≤ sumZ rs.*2) as Hpos.
  { apply sumZ_nonneg, Forall_fmap. eapply Forall_impl; [exact Hall'|].
    intros r [? _]. simpl. lia. }
  destruct (checked_add64 total n) as [t|] eqn:Ha.
  - apply checked_add64_Some in Ha as [-> _]. simpl.
    destruct (MAX_BATCH_GUEST_COPY_BYTES <? total + n) eqn:Hb; [breflect; lia|].
    unfold validate_range. rewrite Hc. simpl. apply IH; [done|lia|lia].
  - apply checked_add64_None in Ha. unfold MAX_BATCH_GUEST_COPY_BYTES,
      MAX_COMPONENT_HOSTCALL_BYTES, U64_MAX in *. lia.
Qed.

Lemma validate_batch_inv m rs total t :
  validate_batch m rs total = Ok t →
  Forall (λ r, r.2 ≤ MAX_SINGLE_GUEST_COPY_BYTES ∧ contains_range m r.1 r.2 = true) rs ∧
  t = total + sumZ rs.*2 ∧ (rs ≠ [] → t ≤ MAX_BATCH_GUEST_COPY_BYTES).
Proof.
  revert total. induction rs as [|[a n] rs IH]; intros total; cbn [validate_batch].
  - intros [= <-]. split; [done|]. split; [unfold sumZ; simpl; lia|done].
  - unfold copy_len. destruct (_ <? n) eqn:Hn; [done|]. rsimpl.
    destruct (checked_add64 total n) as [t'|] eqn:Ha; [|done]. rsimpl.
    apply checked_add64_Some in Ha as [-> _].
    destruct (_ <? total + n) eqn:Hb; [done|]. unfold validate_range.
    destruct (contains_range m a n) eqn:Hc; [|done]. rsimpl. intros H. breflect.
    apply IH in H as (Hall & -> & Hle). split; [by constructor|].
    rewrite fmap_cons, sumZ_cons. split; [simpl; lia|]. intros _.
    destruct rs; [simpl in *; unfold sumZ; simpl; lia|]. apply Hle. done.
Qed.

Lemma read_batch_mapped m rs :
  Forall (λ r, r.2 ≤ MAX_SINGLE_GUEST_COPY_BYTES ∧ contains_range m r.1 r.2 = true) rs →
  read_batch m rs = Ok (rs ≫= λ r, peek (b_byte (backing m)) r.1 r.2).
Proof.
  induction 1 as [|[a n] rs [Hn Hc] _ IH]; [done|]. simpl in *.
  rewrite copy_len_ok by done. simpl. rewrite mem_read_mapped by done. simpl.
  by rewrite IH.
Qed.

Lemma batch_store_atomic m ws r m' :
  Forall (λ w, bytes w.2) ws →
  bounded_write_ranges ws m = (r, m') →
  (is_ok r = false ∧ m' = m) ∨
  (r = Ok tt ∧ stored m ws m' ∧ zlen ws ≤ MAX_BATCH_GUEST_COPY_RANGES ∧
   sumZ ((λ w, zlen w.2) <$> ws) ≤ MAX_BATCH_GUEST_COPY_BYTES ∧
   Forall (λ w, contains_range m w.1 (zlen w.2) = true) ws).
Proof.
  intros Hb H. unfold bounded_write_ranges in H.
  destruct (_ <? zlen ws) eqn:Hn; [simplify_eq; by left|].
  destruct (validate_batch _ _ _) as [t|e] eqn:Hv; [|simplify_eq; by left].
  right. apply validate_batch_inv in Hv as (Hall & Ht & Hle).
  rewrite Forall_fmap in Hall. rewrite <- list_fmap_compose in Ht. simpl in Ht.
  destruct (write_batch_mapped m ws) as (m'' & Hw & Hs).
  { rewrite Forall_forall in Hb, Hall |- *. intros w Hw. destruct (Hall w Hw). auto. }
  rewrite Hw in H. simplify_eq. breflect. split; [done|]. split; [done|]. split; [done|].
  split; [|by eapply Forall_impl; [exact Hall|]; intros ? [_ ?]].
  destruct ws as [|w ws]; [by vm_compute|]. apply Hle. done.
Qed.

#[export] Instance bounded_memory : GuestMemory (GuestMem B) MemoryError.
Proof.
  refine {| gm_read := bounded_read; gm_read_ranges := bounded_read_ranges;
            gm_write := bounded_write; gm_write_ranges := bounded_write_ranges;
            gm_mapped := bounded_mapped; gm_byte m := b_byte (backing m) |}.
  - intros. apply b_byte_u8.
  - intros m a n (Ha & Hn & Hc). by apply contains_range_spec in Hc as (? & _).
  - apply bounded_mapped_sub.
  - intros m a n Hn (_ & _ & Hc). unfold bounded_read.
    rewrite copy_len_ok by lia. simpl. by rewrite mem_read_mapped by done.
  - done.
  - intros m a bs Hn Hb (_ & _ & Hc).
    destruct (bounded_write_mapped m a bs) as (m' & ? & Hs); [lia|done..|].
    exists m'. split; [done|]. split; [apply Hs|]. intros. unfold bounded_mapped.
    by rewrite (stored_contains m [(a, bs)] m').
  - apply bounded_write_error.
  - apply bounded_read_inv.
  - intros m a bs m' Hb Hw. apply bounded_write_inv in Hw as Hs; [|done]. split; [apply Hs|].
    intros. unfold bounded_mapped. by rewrite (stored_contains m [(a, bs)] m').
  - intros m rs (Hn & Hall & Hsum) Hmap. unfold bounded_read_ranges.
    rewrite Forall_fmap in Hall.
    assert (Forall (λ r, 0 ≤ r.2 ≤ MAX_SINGLE_GUEST_COPY_BYTES ∧
      contains_range m r.1 r.2 = true) rs) as Hgood.
    { rewrite Forall_forall in Hall, Hmap |- *. intros r Hr.
      specialize (Hall r Hr). destruct (Hmap r Hr) as (_ & ? & ?). simpl in Hall. split; [lia|done]. }
    replace (zlen rs.*2) with (zlen rs) in Hn by (unfold zlen; by rewrite length_fmap).
    destruct (_ <? zlen rs) eqn:Hn'; [breflect; lia|].
    pose proof (validate_batch_ok m rs 0 Hgood) as Hv.
    destruct (validate_batch m rs 0); [|by specialize (Hv ltac:(lia) ltac:(lia))]. simpl.
    rewrite read_batch_mapped; [done|].
    eapply Forall_impl; [exact Hgood|]. intros r [? ?]. split; [lia|done].
  - done.
  - apply bounded_read_ranges_inv.
  - intros m ws (Hn & Hall & Hsum) Hmap.
    rewrite Forall_fmap in Hall.
    replace (zlen ((λ w, zlen w.2) <$> ws)) with (zlen ws) in Hn
      by (unfold zlen; by rewrite length_fmap).
    unfold bounded_write_ranges. destruct (_ <? zlen ws) eqn:Hn'; [breflect; lia|].
    pose proof (validate_batch_ok m ((λ w, (w.1, zlen w.2)) <$> ws) 0) as Hv.
    rewrite Forall_fmap, <- list_fmap_compose in Hv.
    destruct (validate_batch _ _ 0).
    + destruct (write_batch_mapped m ws) as (m' & Hw & Hs).
      { rewrite Forall_forall in Hall, Hmap |- *. intros w Hw.
        specialize (Hall w Hw). destruct (Hmap w Hw) as (? & _ & ? & ?).
        simpl in Hall. split; [lia|done]. }
      exists m'. split; [done|]. split; [apply Hs|]. intros. unfold bounded_mapped.
      by rewrite (stored_contains m ws m').
    + exfalso. cut (false = true); [done|]. apply Hv; [|lia|done].
      rewrite Forall_forall in Hall, Hmap |- *. intros w Hw.
      specialize (Hall w Hw). destruct (Hmap w Hw) as (_ & _ & ? & ?).
      simpl in *. split; [lia|done].
  - intros m ws e m' Hb H. by destruct (batch_store_atomic m ws _ _ Hb H) as [[_ ?]|[? _]].
  - intros m ws m' Hb H. destruct (batch_store_atomic m ws _ _ Hb H) as [[? _]|(_ & Hs & _)]; [done|].
    split; [apply Hs|]. intros. unfold bounded_mapped. by rewrite (stored_contains m ws m').
Defined.
End BoundedMemory.

(** ** A concrete mapping

    Bytes in a finite map; it satisfies every law of [Backing], so the
    theorems below apply to it. *)
Module Flat.
Record t := mk { ranges : list (Z * Z); store : gmap Z Z }.

Definition byte_at (b : t) (x : Z) : Z := default 0 (store b !! x) mod 256.
Definition contains (b : t) (a n : Z) : bool :=
  forallb (λ x, existsb (λ r, (r.1 <=? x) && (x <? r.1 + r.2)) (ranges b)) (seqZ a n).
Fixpoint put (m : gmap Z Z) (a : Z) (bs : list Z) : gmap Z Z :=
  match bs with
  | [] => m
  | c :: bs => <[a := c]> (put m (a + 1) bs)
  end.

Lemma put_lookup m a bs x :
  put m a bs !! x =
  if (a <=? x) && (x <? a + zlen bs) then bs !! Z.to_nat (x - a) else m !! x.
Proof.
  revert a. induction bs as [|c bs IH]; intros a.
  - cbn [put]. unfold zlen. simpl length. destruct (_ && _) eqn:Hb; [|done]. breflect. lia.
  - cbn [put]. replace (zlen (c :: bs)) with (1 + zlen bs) by (unfold zlen; simpl; lia).
    destruct (decide (a = x)) as [->|Hx].
    + rewrite lookup_insert_eq, Z.leb_refl.
      destruct (_ <? _) eqn:Hb; [by rewrite Z.sub_diag|breflect]. pose proof (zlen_nonneg bs). lia.
    + rewrite lookup_insert_ne, IH by done.
      destruct ((a <=? x) && _) eqn:H1, ((a + 1 <=? x) && _) eqn:H2; breflect; try done.
      * replace (Z.to_nat (x - a)) with (S (Z.to_nat (x - (a + 1)))) by lia. done.
      * apply andb_false_iff in H2 as [H2|H2]; breflect; lia.
      * apply andb_false_iff in H1 as [H1|H1]; breflect; lia.
Qed.

Lemma put_byte b a bs x :
  bytes bs → byte_at (mk (ranges b) (put (store b) a bs)) x = patch (byte_at b) a bs x.
Proof.
  intros Hb. unfold byte_at, patch. cbn [store]. rewrite put_lookup.
  destruct (_ && _); [|done]. destruct (bs !! _) as [c|] eqn:Hc; [|done].
  eapply Forall_lookup_1 in Hc; [|exact Hb]. simpl. by apply Z.mod_small.
Qed.

Lemma contains_spec b a n :
  contains b a n = true ↔ ∀ x, a ≤ x < a + n → Exists (in_region x) (ranges b).
Proof.
  unfold contains. rewrite forallb_forall. setoid_rewrite <- list_elem_of_In.
  setoid_rewrite elem_of_seqZ. apply forall_proper. intros x. apply forall_proper. intros _.
  rewrite existsb_exists, Exists_exists. setoid_rewrite list_elem_of_In.
  unfold in_region. setoid_rewrite andb_true_iff. setoid_rewrite Z.leb_le.
  by setoid_rewrite Z.ltb_lt.
Qed.

#[global] Instance flat_backing : Backing t.
Proof.
  refine {| b_new l := Some (mk l ∅); b_ranges := ranges; b_contains := contains;
            b_read b a n := Some (peek (byte_at b) a n);
            b_write b a bs := Some (mk (ranges b) (put (store b) a bs));
            b_byte := byte_at |}.
  - intros b x. unfold u8, byte_at. apply Z.mod_pos_bound. lia.
  - by intros l b [= <-].
  - intros b a n Hn Hc. by apply contains_spec.
  - intros b a n r Hr Hn H1 H2. apply contains_spec. intros x Hx.
    apply Exists_exists. exists r. split; [done|]. unfold in_region. lia.
  - intros b a n a' n' Hc ? ? ?. rewrite contains_spec in Hc |- *. intros x Hx. apply Hc. lia.
  - done.
  - intros b a bs Hc Hb. eexists. split; [done|]. split; [done|]. split; [done|].
    intros x. by apply put_byte.
Defined.
End Flat.

(** ** Properties *)

(** Ranges in ascending order that share no byte. *)
Definition apart (a b : Z * Z) : Prop := a.1 + a.2 ≤ b.1.

Definition good_range (r : Z * Z) : Prop := 0 ≤ r.1 ∧ 0 < r.2 ∧ r.1 + r.2 ≤ U64_MAX.

Lemma insert_range_perm r l : insert_range r l ≡ₚ r :: l.
Proof.
  induction l as [|s l IH]; cbn [insert_range]; [done|]. case_match; [done|].
  rewrite IH. apply Permutation_swap.
Qed.

Lemma sort_ranges_perm l : sort_ranges l ≡ₚ l.
Proof.
  induction l as [|r l IH]; [done|]. change (sort_ranges (r :: l)) with
    (insert_range r (sort_ranges l)). by rewrite insert_range_perm, IH.
Qed.

Lemma insert_range_sorted r l :
  StronglySorted (λ a b, a.1 ≤ b.1) l → StronglySorted (λ a b, a.1 ≤ b.1) (insert_range r l).
Proof.
  induction 1 as [|s l Hs IH Hall]; cbn [insert_range]; [repeat constructor|].
  destruct (r.1 <=? s.1) eqn:Hb; breflect.
  - constructor; [by constructor|]. constructor; [done|].
    eapply Forall_impl; [exact Hall|]. simpl. lia.
  - constructor; [done|]. rewrite insert_range_perm. constructor; [lia|done].
Qed.

Lemma sort_ranges_sorted l : StronglySorted (λ a b, a.1 ≤ b.1) (sort_ranges l).
Proof. induction l; [constructor|]. by apply insert_range_sorted. Qed.

Lemma windows_overlap_apart l :
  Forall good_range l → windows_overlap l = false → StronglySorted apart l.
Proof.
  induction l as [|a l IH]; intros Hg Hw; [constructor|].
  inversion_clear Hg as [|? ? Ha Hg']. destruct l as [|b l]; [repeat constructor|].
  cbn [windows_overlap] in Hw. apply orb_false_iff in Hw as [Hab Hw].
  specialize (IH Hg' Hw). constructor; [done|].
  unfold range_end, checked_add64 in Hab. unfold good_range in *.
  destruct (_ <=? U64_MAX) eqn:?; [|done]. breflect.
  inversion_clear IH as [|? ? _ Hall]. inversion_clear Hg' as [|? ? Hb _].
  constructor; [unfold apart; lia|]. eapply Forall_impl; [exact Hall|]. unfold apart; intros; lia.
Qed.

Lemma apart_windows l :
  Forall good_range l → StronglySorted apart l → windows_overlap l = false.
Proof.
  induction l as [|a l IH]; intros Hg Hs; [done|]. destruct l as [|b l]; [done|].
  inversion_clear Hg as [|? ? (_ & _ & Ha) Hg']. inversion_clear Hs as [|? ? Hs' Hall].
  apply orb_false_iff. split; [|by apply IH]. unfold range_end.
  rewrite (proj2 (checked_add64_Some a.1 a.2 (a.1 + a.2))) by done.
  apply Z.ltb_ge. by inversion_clear Hall.
Qed.

Lemma apart_last l x :
  Forall good_range l → StronglySorted apart l → last l = Some x →
  Forall (λ r, r.1 + r.2 ≤ x.1 + x.2) l.
Proof.
  induction l as [|a l IH]; intros Hg Hs Hl; [done|]. destruct l as [|b l].
  - simplify_eq/=. by constructor.
  - inversion_clear Hg as [|? ? Ha Hg']. inversion_clear Hs as [|? ? Hs' Hall].
    change (last (a :: b :: l)) with (last (b :: l)) in Hl.
    specialize (IH Hg' Hs' Hl). constructor; [|done].
    inversion_clear IH. inversion_clear Hall. inversion_clear Hg' as [|? ? (_ & ? & _) _].
    unfold apart in *. lia.
Qed.

Section FromRanges.
Context {B : Type} `{!Backing B}.

Lemma good_ranges_test l :
  Forall (λ r, 0 ≤ r.1 ∧ 0 ≤ r.2) l →
  existsb (λ r, (r.2 =? 0) || bool_decide (range_end r.1 r.2 = None)) l = false
  ↔ Forall good_range l.
Proof.
  induction 1 as [|r l [? ?] _ IH]; [done|]. cbn [existsb].
  rewrite orb_false_iff, Forall_cons, IH, orb_false_iff, Z.eqb_neq, bool_decide_eq_false.
  apply and_iff_compat_r. unfold good_range, range_end, checked_add64.
  destruct (_ <=? _) eqn:E1; breflect; split; intuition (lia || done).
Qed.

(** [GuestMemory::from_ranges] succeeds exactly when the ranges are
    non-empty, none is empty or passes 2{^64}, they are pairwise disjoint
    once sorted, and the mapping itself succeeds; the memory it builds maps
    the same ranges in address order and its limit is the largest end. *)
Theorem from_ranges_correct (rs : list (Z * Z)) :
  Forall (λ r, 0 ≤ r.1 ∧ 0 ≤ r.2) rs →
  (∀ m : GuestMem B, from_ranges rs = Some m →
     b_ranges (backing m) ≡ₚ rs ∧ Forall good_range rs ∧
     StronglySorted apart (b_ranges (backing m)) ∧
     Forall (λ r, r.1 + r.2 ≤ limit m) rs ∧
     (∃ r, r ∈ rs ∧ limit m = r.1 + r.2)) ∧
  (rs ≠ [] → Forall good_range rs → StronglySorted apart (sort_ranges rs) →
   is_Some (b_new (B := B) (sort_ranges rs)) → is_Some (from_ranges (B := B) rs)).
Proof.
  intros Hu. pose proof (sort_ranges_perm rs) as Hp. split.
  - intros m Hm. unfold from_ranges in Hm. case_match eqn:Hc; [done|].
    apply orb_false_iff in Hc as [Hc Hw]. apply orb_false_iff in Hc as [_ Hc].
    apply good_ranges_test in Hc; [|by rewrite Hp].
    pose proof (windows_overlap_apart _ Hc Hw) as Hs.
    destruct (last (sort_ranges rs)) as [x|] eqn:Hlast; [|done].
    destruct (b_new (sort_ranges rs)) as [b|] eqn:Hb; [|done]. cbn in Hm.
    unfold range_end in Hm. destruct (checked_add64 x.1 x.2) as [e|] eqn:He; [|done].
    simplify_eq/=. apply checked_add64_Some in He as [-> _]. apply b_new_ranges in Hb as ->.
    split; [done|]. split; [by rewrite <- Hp|]. split; [done|]. split.
    + rewrite <- Hp. by apply apart_last.
    + exists x. split; [|done]. rewrite <- Hp. by apply last_Some_elem_of.
  - intros Hne Hg Hs [b Hb]. rewrite <- Hp in Hg. unfold from_ranges.
    rewrite bool_decide_eq_false_2.
    2:{ intros Hn. rewrite Hn in Hp. symmetry in Hp. by apply Permutation_nil_r in Hp. }
    rewrite (proj2 (good_ranges_test (sort_ranges rs) ltac:(by rewrite Hp))) by done.
    rewrite apart_windows by done. cbn [orb].
    destruct (last (sort_ranges rs)) as [x|] eqn:Hx.
    + rewrite Hb. cbn. unfold range_end.
      assert (good_range x) as (_ & _ & Hxe).
      { rewrite Forall_forall in Hg. apply Hg. by apply last_Some_elem_of. }
      rewrite (proj2 (checked_add64_Some x.1 x.2 (x.1 + x.2))) by done. by eexists.
    + apply last_None in Hx. rewrite Hx in Hp. symmetry in Hp.
      by apply Permutation_nil_r in Hp.
Qed.
End FromRanges.

Lemma from_ranges_correct_witness :
  is_Some (from_ranges (B := Flat.t) [(0x100000000, 0x1000); (0, 0x2000)]).
Proof.
  apply (from_ranges_correct (B := Flat.t) [(0x100000000, 0x1000); (0, 0x2000)]).
  - repeat constructor; simpl; lia.
  - done.
  - repeat constructor; simpl; ilia.
  - vm_compute sort_ranges. repeat constructor; unfold apart; simpl; lia.
  - by eexists.
Defined.

Lemma host_pages_whole (address len page : Z) :
  0 ≤ address → 0 ≤ len → 0 < page → address + len + page ≤ U64_MAX →
  match full_host_pages address len page with
  | Some (start, n) =>
    0 < n ∧ start mod page = 0 ∧ n mod page = 0 ∧
    address ≤ start ∧ start + n ≤ address + len ∧
    ∀ k, address ≤ k * page → (k + 1) * page ≤ address + len →
      start ≤ k * page ∧ (k + 1) * page ≤ start + n
  | None => ∀ k, ¬ (address ≤ k * page ∧ (k + 1) * page ≤ address + len)
  end.
Proof.
  intros Ha Hl Hp Hu. unfold full_host_pages.
  destruct (page =? 0) eqn:E1; [breflect; lia|].
  rewrite (proj2 (checked_add64_Some address len _)) by (split; [done|lia]). simpl.
  rewrite (proj2 (checked_sub_Some page 1 _)) by (split; [done|lia]). simpl.
  rewrite (proj2 (checked_add64_Some address (page - 1) _)) by (split; [done|lia]). simpl.
  set (s := (address + (page - 1)) / page). set (e := (address + len) / page).
  assert (page * s ≤ address + (page - 1) < page * s + page) as Hs.
  { unfold s. pose proof (Z.div_mod (address + (page - 1)) page).
    pose proof (Z.mod_pos_bound (address + (page - 1)) page). lia. }
  assert (page * e ≤ address + len < page * e + page) as He.
  { unfold e. pose proof (Z.div_mod (address + len) page).
    pose proof (Z.mod_pos_bound (address + len) page). lia. }
  assert (∀ k, address ≤ k * page → (k + 1) * page ≤ address + len → s ≤ k ∧ k + 1 ≤ e) as Hk
    by (intros; nia).
  destruct (s * page <? e * page) eqn:E2; breflect.
  - split; [lia|]. split; [by apply Z.mod_mul; lia|].
    split; [rewrite <- Z.mul_sub_distr_r; by apply Z.mod_mul; lia|].
    split; [lia|]. split; [lia|]. intros k H1 H2. destruct (Hk k H1 H2). nia.
  - intros k [H1 H2]. destruct (Hk k H1 H2). nia.
Qed.

Section Copies.
Context {B : Type} `{!Backing B}.

(** C16. A batched device store is atomic: it is refused with guest RAM
    unchanged, or every range is inside RAM, the batch is within the range
    and byte limits, and RAM holds exactly the old contents with the
    stores applied in order. *)
Theorem bounded_write_ranges_atomic (m : GuestMem B) ws r m' :
  Forall (λ w, bytes w.2) ws →
  bounded_write_ranges ws m = (r, m') →
  (is_ok r = false ∧ m' = m) ∨
  (r = Ok tt ∧ limit m' = limit m ∧
   (∀ x, b_byte (backing m') x = patches (b_byte (backing m)) ws x) ∧
   (∀ a n, contains_range m' a n = contains_range m a n) ∧
   zlen ws ≤ MAX_BATCH_GUEST_COPY_RANGES ∧
   sumZ ((λ w, zlen w.2) <$> ws) ≤ MAX_BATCH_GUEST_COPY_BYTES ∧
   Forall (λ w, contains_range m w.1 (zlen w.2) = true) ws).
Proof.
  intros Hb H. destruct (batch_store_atomic m ws r m' Hb H) as [?|(? & Hs & ? & ? & ?)];
    [by left|right]. pose proof Hs as (? & ? & ? & ?). split_and!; try done.
  intros. by eapply stored_contains.
Qed.

(** A copy reads back what was stored: after a successful
    [BoundedMemory::write] the same range reads the stored bytes, and every
    range disjoint from it reads what it read before, errors included. *)
Theorem write_then_read (m m' : GuestMem B) a bs :
  bytes bs → bounded_write a bs m = (Ok tt, m') →
  (bounded_read a (zlen bs) m').1 = Ok bs ∧
  (∀ b n, b + n ≤ a ∨ a + zlen bs ≤ b → (bounded_read b n m').1 = (bounded_read b n m).1).
Proof.
  intros Hb Hw.
  assert (zlen bs ≤ MAX_SINGLE_GUEST_COPY_BYTES ∧ contains_range m a (zlen bs) = true)
    as [Hlen Hc].
  { unfold bounded_write, copy_len, mem_write, validate_range in Hw.
    repeat case_match; simplify_eq/=; breflect; done. }
  destruct (bounded_write_mapped m a bs Hlen Hb Hc) as (m'' & Hw' & Hs).
  rewrite Hw in Hw'. simplify_eq. pose proof Hs as (Hl & Hcc & Hr & Hx). simpl in Hx.
  unfold bounded_read, copy_len. cbn [fst]. split.
  - destruct (_ <? zlen bs) eqn:E1; [breflect; lia|]. rsimpl.
    rewrite mem_read_mapped by (by rewrite (stored_contains _ _ _ _ _ Hs)). rsimpl.
    rewrite (peek_ext _ (patch (b_byte (backing m)) a bs)) by auto.
    by rewrite peek_patch_same.
  - intros b n Hd. destruct (_ <? n); [done|]. rsimpl.
    destruct (contains_range m b n) eqn:E2.
    + rewrite !mem_read_mapped by (by rewrite ?(stored_contains _ _ _ _ _ Hs)). rsimpl.
      rewrite (peek_ext _ (patch (b_byte (backing m)) a bs)) by auto.
      by rewrite peek_patch_disjoint.
    + unfold mem_read, validate_range, range_error, guest_base.
      by rewrite (stored_contains _ _ _ _ _ Hs), E2, Hl, Hr.
Qed.

Lemma validate_reclaim_inv (m : GuestMem B) rs total :
  Forall (λ r, 0 ≤ r.1 ∧ 0 ≤ r.2) rs → validate_reclaim m rs total = Ok tt →
  (rs ≠ [] → total + sumZ rs.*2 ≤ MAX_RECLAIM_REPORT_BYTES) ∧
  Forall (λ r, 0 < r.2 ∧ r.1 mod PAGE_BYTES = 0 ∧ r.2 mod PAGE_BYTES = 0 ∧
               contains_range m r.1 r.2 = true) rs.
Proof.
  intros Hu. revert total. induction Hu as [|[a n] rs [Ha Hn] Hu IH]; intros total H; [done|].
  cbn [validate_reclaim] in H. destruct (_ || _) eqn:Ht in H; [done|]. breflect.
  destruct (checked_add64 total n) as [t|] eqn:Hadd; [|done]. rsimpl_in H.
  apply checked_add64_Some in Hadd as [-> _].
  destruct (_ <? total + n) eqn:Hle in H; [done|].
  destruct (contains_range m a n) eqn:Hc; [|done]. rsimpl_in H.
  apply IH in H as [Hs Hall]. rewrite fmap_cons, sumZ_cons. cbn [fst snd] in *. breflect.
  split; [|constructor; [|done]; cbn [fst snd]; split_and!; (done || lia)].
  intros _. destruct rs; [change (sumZ [].*2) with 0; lia|]. specialize (Hs ltac:(done)). lia.
Qed.

Context {S : Type} (host : GuestMem B → Z → Z → option Z) (page : Z).

(** The host pages one call may discard: whole pages of the host image of a
    requested range. *)
Definition discardable (m : GuestMem B) (rs : list (Z * Z)) (x : Z * Z) : Prop :=
  ∃ r h, r ∈ rs ∧ host m r.1 r.2 = Some h ∧ h ≤ x.1 ∧ x.1 + x.2 ≤ h + r.2 ∧ 0 < x.2 ∧
    x.1 mod page = 0 ∧ x.2 mod page = 0.

Lemma collect_discardable (m : GuestMem B) rs xs :
  0 < page → (∀ a n h, host m a n = Some h → 0 ≤ h ∧ h + n + page ≤ U64_MAX) →
  Forall (λ r, 0 ≤ r.1 ∧ 0 ≤ r.2) rs → collect_ranges host page m rs = Ok xs →
  Forall (λ x, discardable m rs (x.1.2, x.2)) xs.
Proof.
  intros Hp Hh Hu. revert xs.
  induction Hu as [|r rs [H1 H2] _ IH]; intros xs Hc; [simplify_eq/=; constructor|].
  cbn [collect_ranges] in Hc.
  destruct (discard_host_range host page m r) as [x|] eqn:Hx; [|done]. rsimpl_in Hc.
  destruct (collect_ranges host page m rs) as [xs'|]; [|done]. rsimpl_in Hc. simplify_eq.
  constructor.
  - unfold discard_host_range in Hx. case_match; [done|].
    destruct (host m r.1 r.2) as [h|] eqn:Hhost; [|done]. rsimpl_in Hx.
    destruct (Hh _ _ _ Hhost).
    pose proof (host_pages_whole h r.2 page ltac:(lia) ltac:(lia) Hp ltac:(lia)) as Hw.
    destruct (full_host_pages h r.2 page) as [[s n]|]; [|done]. rsimpl_in Hx. simplify_eq/=.
    destruct Hw as (? & ? & ? & ? & ? & _). exists r, h. split; [left|]. by split_and!.
  - eapply Forall_impl; [by apply IH|].
    intros y (r' & h & Hr & ?). exists r', h. split; [by right|done].
Qed.

(** Host calls a discard makes, in order, until one fails. *)
Definition log_discard (refuse : Z * Z → bool) (a n : Z)
  : stM (list (Z * Z)) DiscardError unit :=
  λ l, (if refuse (a, n) then Err DiscardIo else Ok tt, l ++ [(a, n)]).

Lemma discard_each_log refuse xs l :
  ∃ k, (discard_each (log_discard refuse) xs l).2 =
       l ++ take k ((λ x, (x.1.2, x.2)) <$> xs).
Proof.
  revert l. induction xs as [|[[g h] n] xs IH]; intros l.
  - exists 0%nat. by rewrite app_nil_r.
  - cbn [discard_each]. unfold st_bind, log_discard at 1. destruct (refuse (h, n)).
    + by exists 1%nat.
    + destruct (IH (l ++ [(h, n)])) as [k Hk]. exists (Datatypes.S k).
      rewrite Hk, <- app_assoc. done.
Qed.

(** Reclaiming guest pages is safe against any request. A request is
    validated whole before the first page goes: refused, it makes no host
    call; otherwise it names at most 32 page-aligned, non-empty ranges of
    guest RAM of at most 128 MiB together, and every host call discards
    whole host pages inside the host image of one requested range. *)
Theorem reclaim_discards_only_requested (m : GuestMem B) rs refuse r l :
  0 < page → (∀ a n h, host m a n = Some h → 0 ≤ h ∧ h + n + page ≤ U64_MAX) →
  Forall (λ r, 0 ≤ r.1 ∧ 0 ≤ r.2) rs →
  reclaim host page (log_discard refuse) m rs [] = (r, l) →
  Forall (discardable m rs) l ∧
  (l ≠ [] ∨ r = Ok tt →
   zlen rs ≤ MAX_RECLAIM_REPORT_RANGES ∧ sumZ rs.*2 ≤ MAX_RECLAIM_REPORT_BYTES ∧
   Forall (λ r, 0 < r.2 ∧ r.1 mod PAGE_BYTES = 0 ∧ r.2 mod PAGE_BYTES = 0 ∧
                contains_range m r.1 r.2 = true) rs).
Proof.
  intros Hp Hh Hu. unfold reclaim, discard.
  destruct (validate_ranges m rs) as [[]|e] eqn:Hv.
  2:{ intros [= <- <-]. split; [constructor|]. by intros [?|?]. }
  intros Heq. split.
  - destruct (collect_ranges host page m rs) as [xs|e] eqn:Hc; [|simplify_eq/=; constructor].
    destruct (discard_each_log refuse xs []) as [k Hk].
    destruct (discard_each _ xs []) as [r' l']. simplify_eq/=. apply Forall_take, Forall_fmap.
    by apply collect_discardable.
  - intros _. unfold validate_ranges in Hv. destruct (_ <? zlen rs) eqn:Hl; [done|]. breflect.
    destruct (validate_reclaim_inv m rs 0 Hu Hv) as [Hs Hall]. split; [done|]. split; [|done].
    destruct rs; [by vm_compute|]. by apply Hs.
Qed.
End Copies.

(** A small machine: two mapped regions. *)
Definition flat_memory : GuestMem Flat.t :=
  mkMem (Flat.mk [(0, 0x2000); (0x4000, 0x1000)] ∅) 0x5000.

Lemma bounded_write_ranges_atomic_witness :
  let ws := [(0x10, [1; 2; 3]); (0x4000, [9])] in
  let '(r, m') := bounded_write_ranges ws flat_memory in
  r = Ok tt ∧ b_byte (backing m') 0x11 = 2.
Proof.
  intros ws.
  destruct (bounded_write_ranges ws flat_memory) as [r m'] eqn:H.
  destruct (bounded_write_ranges_atomic flat_memory ws r m') as [[Hr _]|(Hr & _ & Hx & _)].
  - repeat constructor; vm_compute; done.
  - exact H.
  - vm_compute in H. by simplify_eq/=.
  - split; [done|]. rewrite Hx. reflexivity.
Defined.

Lemma write_then_read_witness :
  (bounded_read 0x4ffe 2 (bounded_write 0x4ffe [7; 8] flat_memory).2).1 = Ok [7; 8].
Proof.
  destruct (write_then_read flat_memory (bounded_write 0x4ffe [7; 8] flat_memory).2
              0x4ffe [7; 8]) as [H _].
  - repeat constructor; vm_compute; done.
  - by vm_compute.
  - exact H.
Defined.

Lemma reclaim_discards_only_requested_witness :
  let rs := [(0x4000, 4096)] in
  reclaim (λ _ a _, Some (0x10000 + a)) 4096 (log_discard (λ _, false)) flat_memory rs [] =
    (Ok tt, [(0x14000, 4096)]) ∧
  zlen rs ≤ MAX_RECLAIM_REPORT_RANGES.
Proof.
  intros rs.
  destruct (reclaim_discards_only_requested
    (λ _ a n, if (0 <=? a) && (a + n <? 0x100000) then Some (0x10000 + a) else None) 4096
    flat_memory rs (λ _, false) (Ok tt) [(0x14000, 4096)]) as [_ H].
  - lia.
  - intros a n h. case_match; [|done]. intros [= <-]. breflect. ilia.
  - repeat constructor; simpl; lia.
  - vm_compute. reflexivity.
  - split; [vm_compute; reflexivity|]. apply H. by right.
Defined.

(** [full_host_pages] returns whole host pages inside the range it was
    given, and every whole page of the range is among them; it returns nothing
    only when the range holds no whole page (or its rounding passes 2{^64}). *)
Theorem full_host_pages_maximal (address len page : Z) :
  0 ≤ address → 0 ≤ len → 0 < page → address + len + page ≤ U64_MAX →
  match full_host_pages address len page with
  | Some (start, n) =>
    0 < n ∧ start mod page = 0 ∧ n mod page = 0 ∧
    address ≤ start ∧ start + n ≤ address + len ∧
    ∀ k, address ≤ k * page → (k + 1) * page ≤ address + len →
      start ≤ k * page ∧ (k + 1) * page ≤ start + n
  | None => ∀ k, ¬ (address ≤ k * page ∧ (k + 1) * page ≤ address + len)
  end.
Proof. apply host_pages_whole. Qed.

Lemma full_host_pages_maximal_witness :
  match full_host_pages 0x1800 0x8000 0x4000 with
  | Some (start, n) => start = 0x4000 ∧ n = 0x4000 ∧ 0x1800 ≤ start
  | None => False
  end.
Proof.
  pose proof (full_host_pages_maximal 0x1800 0x8000 0x4000
    ltac:(lia) ltac:(lia) ltac:(lia) ltac:(ilia)) as H.
  change (full_host_pages 0x1800 0x8000 0x4000) with (Some (0x4000, 0x4000)) in *.
  cbv iota beta in *. tauto.
Defined.
