(* ===== verification/SplitRing.v ===== *)
(** * Split virtqueues

    [components/device-transport/src/lib.rs], the free functions every device
    component uses to walk a guest's split virtqueue: the available index
    with its resynchronisation, the used ring completion, and the descriptor
    chain with its loop and flag checks. *)

From S2P Require Import Prelude Limits MemoryApi HostMemory.
Local Open Scope Z_scope.

(** ** Error types *)

Inductive MmioError :=
| Unmapped | BadLen | Unaligned | BadFeatures | BadStatus | BadQueue | NotReady | ReadOnly.

Inductive SplitRingError := BadDescriptor | ChainTooLong.

#[export] Instance MmioError_eq_dec : EqDecision MmioError.
Proof. solve_decision. Defined.
#[export] Instance SplitRingError_eq_dec : EqDecision SplitRingError.
Proof. solve_decision. Defined.

(** ** Ring indices *)

(** Returns the number of pending entries and the new [next]. *)
Definition resync_pending_queue_entries (next available size : Z) : Z * Z :=
  let count := wrapping_sub16 available next in
  if negb (size =? 0) && (count <=? size) then (count, next) else (0, available).

Definition ring_address (base offset : Z) : result MmioError Z :=
  ok_or Unmapped (checked_add64 base offset).

(** Guest memory as the ring code sees it: two fallible calls on a host
    state, with the error type the caller chose ([E: From<MmioError>]). *)
Section Rings.
Context {H E : Type} (from_mmio : MmioError → E).
Context (read : Z → Z → stM H E (list Z)).
Context (write : Z → list Z → stM H E unit).

Local Open Scope st_scope.

Definition read_ring_index (address : Z) : stM H E Z :=
  bs <- read address 2;;
  if zlen bs =? 2 then st_ret (from_le bs) else st_err (from_mmio BadLen).

(** The [next] index is a [&mut u16] of the caller: it is returned beside
    the result. *)
Definition read_split_ring_available (available_ring size next : Z)
  : H → (result E (Z * option Z) * H) * Z :=
  λ h,
  if size =? 0 then ((Err (from_mmio BadQueue), h), next) else
  match ring_address available_ring 2 with
  | Err e => ((Err (from_mmio e), h), next)
  | Ok a =>
    match read_ring_index a h with
    | (Err e, h) => ((Err e, h), next)
    | (Ok available, h) =>
      let (count, next) := resync_pending_queue_entries next available size in
      if count =? 0 then ((Ok (available, None), h), next) else
      let offset := 4 + (next mod size) * 2 in
      match ring_address available_ring offset with
      | Err e => ((Err (from_mmio e), h), next)
      | Ok a =>
        ((head <- read_ring_index a;; st_ret (available, Some head)) h, next)
      end
    end
  end.

Definition complete_split_ring_entry (used_ring size head len : Z) : stM H E unit :=
  if size =? 0 then st_err (from_mmio BadQueue) else
  a <- st_lift (map_err from_mmio (ring_address used_ring 2));;
  index <- read_ring_index a;;
  slot <- st_lift (map_err from_mmio (ring_address used_ring (4 + (index mod size) * 8)));;
  let entry := le_bytes 4 head ++ le_bytes 4 len in
  write slot entry;;;
  a <- st_lift (map_err from_mmio (ring_address used_ring 2));;
  write a (le_bytes 2 (wrapping_add16 index 1)).
End Rings.

(** ** Descriptor chains *)

Definition SPLIT_RING_DESCRIPTOR_BYTES : Z := 16.
Definition SPLIT_RING_DESC_F_NEXT : Z := 1.
Definition SPLIT_RING_DESC_F_WRITE : Z := 2.

Record SplitRingDescriptor := mkDesc {
  d_addr : Z;
  d_len : Z;
  d_flags : Z;
  d_next : Z;
}.

#[export] Instance SplitRingDescriptor_eq_dec : EqDecision SplitRingDescriptor.
Proof. solve_decision. Defined.

(** The sixteen bytes of one descriptor: address, length, flags, next. *)
Definition parse_descriptor (bs : list Z) : SplitRingDescriptor :=
  mkDesc (from_le (take 8 bs)) (from_le (take 4 (drop 8 bs)))
         (from_le (take 2 (drop 12 bs))) (from_le (take 2 (drop 14 bs))).

Definition descriptor_at (table : list Z) (index : Z) : option SplitRingDescriptor :=
  let offset := index * SPLIT_RING_DESCRIPTOR_BYTES in
  parse_descriptor <$> slice table offset (offset + SPLIT_RING_DESCRIPTOR_BYTES).

Definition is_visited (visited : list bool) (index : Z) : bool :=
  default false (visited !! Z.to_nat index).

(** The [for _ in 0..max_descriptors] loop; the bound is the structural
    argument. *)
Fixpoint chain_loop (table : list Z) (size allowed_flags : Z) (n : nat) (index : Z)
    (visited : list bool) (chain : list SplitRingDescriptor)
  : result SplitRingError (list SplitRingDescriptor) :=
  match n with
  | O => Err ChainTooLong
  | S n =>
    if (size <=? index) || is_visited visited index then Err BadDescriptor else
    let visited := <[Z.to_nat index := true]> visited in
    match descriptor_at table index with
    | None => Err BadDescriptor
    | Some descriptor =>
      if negb (Z.land (d_flags descriptor) (not16 allowed_flags) =? 0)
      then Err BadDescriptor else
      let has_next := negb (Z.land (d_flags descriptor) SPLIT_RING_DESC_F_NEXT =? 0) in
      let chain := chain ++ [descriptor] in
      if negb has_next then Ok chain else
      if (size <=? d_next descriptor) || is_visited visited (d_next descriptor)
      then Err BadDescriptor else
      chain_loop table size allowed_flags n (d_next descriptor) visited chain
    end
  end.

Definition split_ring_chain (table : list Z) (index size : Z) (max_descriptors : nat)
    (allowed_flags : Z) : result SplitRingError (list SplitRingDescriptor) :=
  if (size =? 0) || Nat.eqb max_descriptors 0 then Err BadDescriptor else
  chain_loop table size allowed_flags max_descriptors index
    (replicate (Z.to_nat size) false) [].

(** ** What a chain is

    [desc_chain table size flags index idxs ds]: following the [NEXT] links
    from descriptor [index] visits the descriptors [ds] at the table slots
    [idxs], every slot is inside the queue and every flag is allowed. This is
    the reference the loop is compared with; it mentions neither a bound nor
    a visited set. *)
Section Chains.
Context (table : list Z) (size allowed_flags : Z).

Definition good_descriptor (index : Z) (d : SplitRingDescriptor) : Prop :=
  0 ≤ index < size ∧ descriptor_at table index = Some d ∧
  Z.land (d_flags d) (not16 allowed_flags) = 0.

Inductive desc_chain : Z → list Z → list SplitRingDescriptor → Prop :=
| desc_last index d :
    good_descriptor index d →
    Z.land (d_flags d) SPLIT_RING_DESC_F_NEXT = 0 →
    desc_chain index [index] [d]
| desc_link index d idxs ds :
    good_descriptor index d →
    Z.land (d_flags d) SPLIT_RING_DESC_F_NEXT ≠ 0 →
    desc_chain (d_next d) idxs ds →
    desc_chain index (index :: idxs) (d :: ds).

Lemma desc_chain_length index idxs ds :
  desc_chain index idxs ds → length idxs = length ds.
Proof. induction 1; simpl; auto. Qed.

Lemma desc_chain_head index idxs ds :
  desc_chain index idxs ds → ∃ rest, idxs = index :: rest.
Proof. inversion 1; eauto. Qed.

Lemma desc_chain_det index idxs ds idxs' ds' :
  desc_chain index idxs ds → desc_chain index idxs' ds' → idxs = idxs' ∧ ds = ds'.
Proof.
  intros Hc; revert idxs' ds'.
  induction Hc as [i d [? [Hd ?]] ?|i d idxs ds [? [Hd ?]] ? ? IH];
    intros idxs' ds' Hc'; inversion Hc' as [? ? [? [Hd' ?]]|? ? ? ? [? [Hd' ?]] ? Hr];
    subst; rewrite Hd in Hd'; simplify_eq; try done.
  by destruct (IH _ _ Hr) as [-> ->].
Qed.

(** Every slot on a chain starts a chain of its own, no longer than the
    whole one. *)
Lemma desc_chain_suffix index idxs ds j :
  desc_chain index idxs ds → j ∈ idxs →
  ∃ idxs' ds', desc_chain j idxs' ds' ∧ (length ds' ≤ length ds)%nat.
Proof.
  induction 1 as [i d Hg Hn|i d idxs ds Hg Hn Hc IH]; intros Hj.
  - apply list_elem_of_singleton in Hj as ->. exists [i], [d]. split; [by constructor|done].
  - apply elem_of_cons in Hj as [->|Hj].
    + exists (i :: idxs), (d :: ds). split; [by constructor|done].
    + destruct (IH Hj) as (? & ? & ? & ?). eexists _, _. split; [done|simpl; lia].
Qed.

(** A chain that ends never visits a slot twice. *)
Lemma desc_chain_NoDup index idxs ds : desc_chain index idxs ds → NoDup idxs.
Proof.
  induction 1 as [i d Hg Hn|i d idxs ds Hg Hn Hc IH]; [by apply NoDup_singleton|].
  apply NoDup_cons; split; [|done]. intros Hi.
  destruct (desc_chain_suffix _ _ _ _ Hc Hi) as (idxs' & ds' & Hc' & Hle).
  destruct (desc_chain_det _ _ _ _ _ Hc' (desc_link _ _ _ _ Hg Hn Hc)) as [_ ->].
  simpl in Hle. lia.
Qed.

Lemma is_visited_insert visited i j :
  0 ≤ i < zlen visited → 0 ≤ j →
  is_visited (<[Z.to_nat i := true]> visited) j = bool_decide (i = j) || is_visited visited j.
Proof.
  intros Hi Hj. unfold is_visited, zlen in *. case_bool_decide as Heq.
  - subst. rewrite list_lookup_insert_eq by lia. done.
  - rewrite list_lookup_insert_ne by lia. done.
Qed.

Hypothesis table_bytes : bytes table.

Lemma parse_descriptor_nonneg bs :
  bytes bs → let d := parse_descriptor bs in
  0 ≤ d_addr d ∧ 0 ≤ d_len d ∧ 0 ≤ d_flags d ∧ 0 ≤ d_next d.
Proof.
  intros Hb. unfold parse_descriptor; simpl.
  repeat split; apply from_le_nonneg; repeat first [apply Forall_take | apply Forall_drop]; done.
Qed.

Lemma descriptor_at_next index d :
  descriptor_at table index = Some d → 0 ≤ d_next d.
Proof.
  unfold descriptor_at. intros H. apply fmap_Some in H as (bs & Hs & ->).
  unfold slice in Hs. case_match; simplify_eq.
  apply parse_descriptor_nonneg. by apply Forall_take, Forall_drop.
Qed.

Lemma good_descriptor_next index d : good_descriptor index d → 0 ≤ d_next d.
Proof. intros (_ & Hd & _). by eapply descriptor_at_next. Qed.

Lemma chain_loop_sound n index visited chain ds :
  0 ≤ index → zlen visited = size →
  chain_loop table size allowed_flags n index visited chain = Ok ds →
  ∃ idxs ds', ds = chain ++ ds' ∧ desc_chain index idxs ds' ∧ (length ds' ≤ n)%nat.
Proof.
  revert index visited chain. induction n as [|n IH]; intros index visited chain Hi Hv H; [done|].
  cbn [chain_loop] in H. case_match; [done|]. breflect.
  destruct (descriptor_at table index) as [d|] eqn:Hd; [|done].
  destruct (Z.land (d_flags d) (not16 allowed_flags) =? 0) eqn:Hf; [|done]. simpl in H.
  assert (good_descriptor index d) as Hg by (breflect; done).
  destruct (Z.land (d_flags d) SPLIT_RING_DESC_F_NEXT =? 0) eqn:Hn; simpl in H; breflect.
  - simplify_eq. exists [index], [d]. split; [done|]. split; [by constructor|simpl; lia].
  - case_match; [done|]. breflect.
    apply IH in H as (idxs & ds' & -> & Hc & Hle);
      [|by eapply good_descriptor_next|unfold zlen in *; by rewrite length_insert].
    exists (index :: idxs), (d :: ds').
    rewrite <- app_assoc. split; [done|]. split; [by constructor|simpl; lia].
Qed.

Lemma chain_loop_complete n index visited chain idxs ds :
  zlen visited = size → desc_chain index idxs ds → (length ds ≤ n)%nat →
  Forall (λ i, is_visited visited i = false) idxs →
  chain_loop table size allowed_flags n index visited chain = Ok (chain ++ ds).
Proof.
  intros Hv Hc. revert n visited chain Hv.
  induction Hc as [i d Hg Hn|i d idxs ds Hg Hn Hc IH]; intros n visited chain Hv Hle Hf;
    (destruct n as [|n]; [simpl in Hle; lia|]); cbn [chain_loop];
    pose proof Hg as ([Hi0 Hi] & Hd & Ha);
    inversion_clear Hf as [|? ? Hfi Hfr]; apply Z.leb_gt in Hi as ->; rewrite Hfi, Hd, Ha; simpl.
  - by rewrite Hn.
  - apply Z.eqb_neq in Hn as Hn'. rewrite Hn'. simpl.
    assert (Forall (λ j, is_visited (<[Z.to_nat i := true]> visited) j = false) idxs) as Hf'.
    { pose proof (desc_chain_NoDup _ _ _ (desc_link _ _ _ _ Hg Hn Hc)) as Hnd.
      apply NoDup_cons in Hnd as [Hnot _].
      assert (Forall (λ j, 0 ≤ j) idxs) as Hpos.
      { clear -Hc. induction Hc as [? ? [? _]|? ? ? ? [? _]]; constructor; done || lia. }
      apply Forall_forall. intros j Hj. rewrite Forall_forall in Hfr, Hpos.
      rewrite is_visited_insert, Hfr, bool_decide_eq_false_2; auto.
      - intros ->. done.
      - unfold good_descriptor in Hg. lia. }
    destruct (desc_chain_head _ _ _ Hc) as [rest ->].
    assert (d_next d < size) as Hnext by (inversion Hc as [? ? [? _]|? ? ? ? [? _]]; lia).
    apply Z.leb_gt in Hnext as ->.
    pose proof (Forall_inv Hf') as Hfn. simpl in Hfn. rewrite Hfn. simpl.
    rewrite (app_assoc chain [d] ds : chain ++ d :: ds = _).
    apply IH; auto; [unfold zlen in *; by rewrite length_insert|simpl in Hle; lia].
Qed.
End Chains.

(** The descriptors of a returned chain hold machine integers. *)
Definition descriptor_fields (d : SplitRingDescriptor) : Prop :=
  0 ≤ d_addr d ∧ 0 ≤ d_len d ∧ 0 ≤ d_flags d ∧ 0 ≤ d_next d.

Lemma desc_chain_fields table size flags index idxs ds :
  bytes table → desc_chain table size flags index idxs ds → Forall descriptor_fields ds.
Proof.
  intros Hb Hc. assert (∀ i d, good_descriptor table size flags i d → descriptor_fields d) as Hg.
  { intros i d (_ & Hd & _). unfold descriptor_at in Hd. apply fmap_Some in Hd as (bs & Hs & ->).
    apply parse_descriptor_nonneg. unfold slice in Hs. case_match; simplify_eq.
    by apply Forall_take, Forall_drop. }
  induction Hc as [i d H _|i d idxs ds H _ _ IH]; constructor; eauto.
Qed.

Lemma split_ring_chain_fields table index size max flags ds :
  bytes table → 0 ≤ index → 0 ≤ size → split_ring_chain table index size max flags = Ok ds →
  Forall descriptor_fields ds ∧ (length ds ≤ max)%nat.
Proof.
  intros Hb Hi Hs. unfold split_ring_chain. destruct (_ || _) in |- *; [done|]. intros H.
  apply chain_loop_sound in H as (idxs & ds' & -> & Hc & Hl);
    [|done|done|unfold zlen; rewrite length_replicate; lia].
  split; [|done]. by eapply desc_chain_fields.
Qed.

(** ** Properties of chains *)

Section ChainResults.
Context (table : list Z) (size allowed_flags : Z).

Lemma chain_loop_too_long n index visited chain idxs ds :
  zlen visited = size → desc_chain table size allowed_flags index idxs ds →
  (n < length ds)%nat → NoDup idxs →
  Forall (λ i, is_visited visited i = false) idxs →
  chain_loop table size allowed_flags n index visited chain = Err ChainTooLong.
Proof.
  intros Hv Hc. revert n visited chain Hv.
  induction Hc as [i d Hg Hn|i d idxs ds Hg Hn Hc IH]; intros n visited chain Hv Hlt Hnd Hf;
    (destruct n as [|n]; [done|]); simpl in Hlt; [lia|].
  cbn [chain_loop]. pose proof Hg as ([Hi0 Hi] & Hd & Ha).
  apply NoDup_cons in Hnd as [Hnot Hnd].
  inversion_clear Hf as [|? ? Hfi Hfr]. pose proof Hi as Hi'. apply Z.leb_gt in Hi' as ->.
  rewrite Hfi, Hd, Ha. simpl. apply Z.eqb_neq in Hn as ->. simpl.
  assert (Forall (λ j, is_visited (<[Z.to_nat i := true]> visited) j = false) idxs) as Hf'.
  { apply Forall_forall. intros j Hj. rewrite Forall_forall in Hfr.
    destruct (desc_chain_suffix _ _ _ _ _ _ _ Hc Hj) as (? & ? & Hj' & _).
    assert (0 ≤ j < size) by (inversion Hj' as [? ? [? _]|? ? ? ? [? _]]; lia).
    rewrite is_visited_insert, Hfr, bool_decide_eq_false_2; auto; try lia. by intros ->. }
  destruct (desc_chain_head _ _ _ _ _ _ Hc) as [rest ->].
  assert (d_next d < size) as Hnext by (inversion Hc as [? ? [? _]|? ? ? ? [? _]]; lia).
  apply Z.leb_gt in Hnext as ->.
  pose proof (Forall_inv Hf') as Hfn. simpl in Hfn. rewrite Hfn. simpl.
  apply IH; auto; [unfold zlen in *; by rewrite length_insert|lia].
Qed.

Lemma fresh_visited idxs : Forall (λ i, is_visited (replicate (Z.to_nat size) false) i = false) idxs.
Proof.
  apply Forall_true. intros i. unfold is_visited.
  destruct (_ !! _) as [b|] eqn:Hl; [|done]. by apply lookup_replicate in Hl as [-> _].
Qed.

(** C17. [split_ring_chain] returns exactly the chain the [NEXT] links
    describe: it succeeds with [ds] if and only if following the links from
    [index] visits [ds], every slot in the queue and every flag allowed, in
    at most [max_descriptors] steps; a well-formed chain that is longer is
    reported as too long; and no returned chain visits a slot twice. *)
Theorem split_ring_chain_correct index max ds :
  bytes table → 0 ≤ index → (0 < max)%nat →
  (split_ring_chain table index size max allowed_flags = Ok ds ↔
   ∃ idxs, desc_chain table size allowed_flags index idxs ds ∧ (length ds ≤ max)%nat ∧
           NoDup idxs) ∧
  (∀ idxs, desc_chain table size allowed_flags index idxs ds → (max < length ds)%nat →
   split_ring_chain table index size max allowed_flags = Err ChainTooLong).
Proof.
  intros Hb Hi Hmax. unfold split_ring_chain.
  destruct (Nat.eqb max 0) eqn:E0; [apply Nat.eqb_eq in E0; lia|]. rewrite orb_false_r.
  assert (∀ idxs, desc_chain table size allowed_flags index idxs ds →
    (size =? 0) = false ∧ zlen (replicate (Z.to_nat size) false) = size) as Hsz.
  { intros idxs Hc. assert (0 ≤ index < size) by (inversion Hc as [? ? [? _]|? ? ? ? [? _]]; lia).
    unfold zlen. rewrite length_replicate. split; [apply Z.eqb_neq|]; lia. }
  split; [split|].
  - destruct (size =? 0) eqn:Es; [done|]. breflect. intros H.
    destruct (decide (0 ≤ size)) as [Hs|Hs].
    + apply chain_loop_sound in H as (idxs & ds' & -> & Hc & Hle);
        [|done|done|unfold zlen; rewrite length_replicate; lia].
      exists idxs. split; [done|]. split; [done|]. by eapply desc_chain_NoDup.
    + destruct max; [lia|]. cbn [chain_loop] in H.
      destruct (size <=? index) eqn:E1; [done|]. breflect. lia.
  - intros (idxs & Hc & Hle & Hnd). destruct (Hsz _ Hc) as [-> Hl].
    by erewrite chain_loop_complete; [|done|exact Hc|done|apply fresh_visited].
  - intros idxs Hc Hlt. destruct (Hsz _ Hc) as [-> Hl].
    eapply chain_loop_too_long; [done|exact Hc|done|by eapply desc_chain_NoDup|apply fresh_visited].
Qed.
End ChainResults.

(** A two-slot table: descriptor 1 links to descriptor 0. *)
Definition sample_table : list Z :=
  le_bytes 8 0x2000 ++ le_bytes 4 512 ++ le_bytes 2 2 ++ le_bytes 2 0 ++
  le_bytes 8 0x1000 ++ le_bytes 4 16 ++ le_bytes 2 1 ++ le_bytes 2 0.

Lemma split_ring_chain_correct_witness :
  ∃ idxs, desc_chain sample_table 2 3 1 idxs
            [mkDesc 0x1000 16 1 0; mkDesc 0x2000 512 2 0] ∧ NoDup idxs.
Proof.
  destruct (split_ring_chain_correct sample_table 2 3 1 4
    [mkDesc 0x1000 16 1 0; mkDesc 0x2000 512 2 0]) as [[H _] _].
  - repeat constructor; vm_compute; done.
  - lia.
  - lia.
  - destruct H as (idxs & Hc & _ & Hn); [reflexivity|]. exists idxs. split; [exact Hc|exact Hn].
Defined.

(** ** Properties of the rings, over the guest memory interface *)

Section RingMemory.
Context {H E : Type} `{!GuestMemory H E} (from_mmio : MmioError → E).

(** The 16-bit little-endian word at an address. *)
Definition word16 (h : H) (a : Z) : Z := from_le (peek (gm_byte h) a 2).

Lemma word16_u16 h a : u16 (word16 h a).
Proof.
  unfold word16. pose proof (from_le_bound (peek (gm_byte h) a 2)
    (peek_bytes _ _ _ (gm_byte_u8 h))) as Hb.
  rewrite peek_length in Hb by lia. exact Hb.
Qed.

Lemma read_ring_index_mapped h a :
  gm_mapped h a 2 → read_ring_index from_mmio gm_read a h = (Ok (word16 h a), h).
Proof.
  intros Hm. unfold read_ring_index, st_bind.
  rewrite gm_read_ok by (done || (split; [done|by vm_compute])).
  by rewrite peek_length by done.
Qed.

Lemma ring_address_mapped h a n base off :
  gm_mapped h a n → base + off ≤ a + n → ring_address base off = Ok (base + off).
Proof.
  intros Hm Hle. apply gm_mapped_u64 in Hm as [_ Hu]. unfold ring_address.
  by rewrite (proj2 (checked_add64_Some base off (base + off))) by (split; [done|lia]).
Qed.

(** The entries the driver has published and the device has not taken, as
    the source counts them: none when more are claimed than fit. *)
Definition pending (h : H) (avail size next : Z) : Z :=
  let n := wrapping_sub16 (word16 h (avail + 2)) next in
  if n <=? size then n else 0.

Lemma read_available_spec h avail size next :
  0 < size ≤ 32768 → gm_mapped h avail (4 + 2 * size) → u16 next →
  read_split_ring_available from_mmio gm_read avail size next h =
  let a := word16 h (avail + 2) in
  if pending h avail size next =? 0 then ((Ok (a, None), h), a)
  else ((Ok (a, Some (word16 h (avail + 4 + 2 * (next mod size)))), h), next).
Proof.
  intros Hs Hm Hn. unfold read_split_ring_available.
  destruct (size =? 0) eqn:E0; [breflect; lia|].
  erewrite (ring_address_mapped h) by (exact Hm || lia).
  rewrite read_ring_index_mapped by (eapply gm_mapped_sub; [exact Hm|lia..]).
  cbv zeta. unfold resync_pending_queue_entries, pending.
  rewrite E0. simpl. pose proof (word16_u16 h (avail + 2)) as Ha.
  set (a := word16 h (avail + 2)) in *. clearbody a.
  destruct (wrapping_sub16 a next <=? size) eqn:E1; [|done].
  destruct (wrapping_sub16 a next =? 0) eqn:E2; breflect.
  - by replace next with a by ilia.
  - pose proof (Z.mod_pos_bound next size).
    erewrite (ring_address_mapped h) by (exact Hm || lia).
    unfold st_bind. rewrite read_ring_index_mapped by (eapply gm_mapped_sub; [exact Hm|lia..]).
    unfold st_ret. do 5 f_equal. f_equal. lia.
Qed.

(** With the available ring in guest RAM, reading it never fails and
    changes no memory. It returns the driver's index; while entries are
    pending it returns the head in slot [next mod size] and leaves [next];
    when none are pending, or the driver claims more than the queue holds,
    it returns no entry and [next] becomes the driver's index, so that the
    device resumes at the driver's position. *)
Theorem read_available_correct h avail size next :
  0 < size ≤ 32768 → gm_mapped h avail (4 + 2 * size) → u16 next →
  read_split_ring_available from_mmio gm_read avail size next h =
  let a := word16 h (avail + 2) in
  if pending h avail size next =? 0 then ((Ok (a, None), h), a)
  else ((Ok (a, Some (word16 h (avail + 4 + 2 * (next mod size)))), h), next).
Proof. apply read_available_spec. Qed.

Lemma used_entry_words f slot head len :
  u32 head → u32 len →
  let g := patch f slot (le_bytes 4 head ++ le_bytes 4 len) in
  from_le (peek g slot 4) = head ∧ from_le (peek g (slot + 4) 4) = len.
Proof.
  intros Hh Hl g. destruct (peek_patch_app f slot (le_bytes 4 head) (le_bytes 4 len)) as [H1 H2].
  unfold zlen in H1, H2. rewrite !le_bytes_length in *. unfold g.
  change 4 with (Z.of_nat 4). rewrite H1, H2.
  split; apply from_le_le_bytes; ilia.
Qed.

(** The slot of the used ring an index names. *)
Definition used_slot (used size index : Z) : Z := used + 4 + 8 * (index mod size).

(** Completing an entry is two stores. *)
Lemma complete_entry_patches h used size head len :
  0 < size ≤ 32768 → gm_mapped h used (4 + 8 * size) →
  let i := word16 h (used + 2) in
  ∃ h', complete_split_ring_entry from_mmio gm_read gm_write used size head len h = (Ok tt, h') ∧
    (∀ x, gm_byte h' x =
      patch (patch (gm_byte h) (used_slot used size i) (le_bytes 4 head ++ le_bytes 4 len))
        (used + 2) (le_bytes 2 (wrapping_add16 i 1)) x) ∧
    (∀ a n, gm_mapped h' a n ↔ gm_mapped h a n).
Proof.
  intros Hs Hm i. pose proof (word16_u16 h (used + 2)) as Hi. fold i in Hi.
  pose proof (Z.mod_pos_bound i size ltac:(lia)) as Hmod. unfold used_slot.
  set (slot := used + 4 + 8 * (i mod size)).
  assert (zlen (le_bytes 4 head ++ le_bytes 4 len) = 8) as Hlen8
    by (unfold zlen; rewrite length_app, !le_bytes_length; done).
  assert (zlen (le_bytes 2 (wrapping_add16 i 1)) = 2) as Hlen2
    by (unfold zlen; by rewrite le_bytes_length).
  destruct (gm_write_ok h slot (le_bytes 4 head ++ le_bytes 4 len)) as (h1 & Hw1 & Hx1 & Hm1).
  { rewrite Hlen8. by vm_compute. }
  { apply Forall_app; split; apply le_bytes_bytes. }
  { rewrite Hlen8. eapply gm_mapped_sub; [exact Hm|lia..]. }
  destruct (gm_write_ok h1 (used + 2) (le_bytes 2 (wrapping_add16 i 1))) as (h2 & Hw2 & Hx2 & Hm2).
  { rewrite Hlen2. by vm_compute. }
  { apply le_bytes_bytes. }
  { rewrite Hlen2. apply Hm1. eapply gm_mapped_sub; [exact Hm|lia..]. }
  exists h2. split_and!.
  - unfold complete_split_ring_entry. destruct (size =? 0) eqn:E0; [breflect; lia|].
    unfold st_bind, st_lift. erewrite !(ring_address_mapped h) by (exact Hm || lia). rsimpl.
    rewrite read_ring_index_mapped by (eapply gm_mapped_sub; [exact Hm|lia..]). fold i.
    erewrite (ring_address_mapped h) by (exact Hm || lia). rsimpl.
    replace (used + (4 + i mod size * 8)) with slot by (unfold slot; lia).
    rewrite Hw1. by rewrite Hw2.
  - intros x. rewrite Hx2. unfold patch at 1 2. by rewrite Hx1.
  - intros a n. by rewrite Hm2, Hm1.
Qed.

Lemma complete_entry_spec h used size head len :
  0 < size ≤ 32768 → gm_mapped h used (4 + 8 * size) → u32 head → u32 len →
  ∃ h', complete_split_ring_entry from_mmio gm_read gm_write used size head len h = (Ok tt, h') ∧
    let slot := used + 4 + 8 * (word16 h (used + 2) mod size) in
    word16 h' (used + 2) = wrapping_add16 (word16 h (used + 2)) 1 ∧
    from_le (peek (gm_byte h') slot 4) = head ∧
    from_le (peek (gm_byte h') (slot + 4) 4) = len ∧
    (∀ x, ¬ (used + 2 ≤ x < used + 4) → ¬ (slot ≤ x < slot + 8) →
          gm_byte h' x = gm_byte h x) ∧
    (∀ a n, gm_mapped h' a n ↔ gm_mapped h a n).
Proof.
  intros Hs Hm Hh Hl. destruct (complete_entry_patches h used size head len Hs Hm) as (h' & Hc & Hx & Hmap).
  exists h'. split; [done|]. unfold used_slot in Hx. cbv zeta.
  pose proof (word16_u16 h (used + 2)) as Hi.
  pose proof (Z.mod_pos_bound (word16 h (used + 2)) size ltac:(lia)) as Hmod.
  set (i := word16 h (used + 2)) in *. set (slot := used + 4 + 8 * (i mod size)) in *.
  assert (zlen (le_bytes 4 head ++ le_bytes 4 len) = 8) as Hlen8
    by (unfold zlen; rewrite length_app, !le_bytes_length; done).
  assert (zlen (le_bytes 2 (wrapping_add16 i 1)) = 2) as Hlen2
    by (unfold zlen; by rewrite le_bytes_length).
  split_and!.
  - unfold word16 at 1. rewrite (peek_ext _ _ _ _ (λ x _, Hx x)).
    rewrite <- Hlen2 at 2. rewrite peek_patch_same. apply from_le_le_bytes. ilia.
  - rewrite (peek_ext _ _ _ _ (λ x _, Hx x)), peek_patch_disjoint by (unfold slot; lia).
    by apply used_entry_words.
  - rewrite (peek_ext _ _ _ _ (λ x _, Hx x)), peek_patch_disjoint by (unfold slot; lia).
    by apply used_entry_words.
  - intros x H1 H2. by rewrite Hx, !patch_out by lia.
  - done.
Qed.

(** With the used ring in guest RAM, completing an entry never fails:
    slot [used.idx mod size] holds the head and the written length, the
    used index is one more (modulo 2{^16}), and no other byte of memory
    changes. *)
Theorem complete_entry_correct h used size head len :
  0 < size ≤ 32768 → gm_mapped h used (4 + 8 * size) → u32 head → u32 len →
  ∃ h', complete_split_ring_entry from_mmio gm_read gm_write used size head len h = (Ok tt, h') ∧
    let slot := used + 4 + 8 * (word16 h (used + 2) mod size) in
    word16 h' (used + 2) = wrapping_add16 (word16 h (used + 2)) 1 ∧
    from_le (peek (gm_byte h') slot 4) = head ∧
    from_le (peek (gm_byte h') (slot + 4) 4) = len ∧
    (∀ x, ¬ (used + 2 ≤ x < used + 4) → ¬ (slot ≤ x < slot + 8) →
          gm_byte h' x = gm_byte h x) ∧
    (∀ a n, gm_mapped h' a n ↔ gm_mapped h a n).
Proof. apply complete_entry_spec. Qed.
End RingMemory.

Lemma read_available_correct_witness :
  let m := (bounded_write 0x102 (le_bytes 2 3 ++ [0; 0; 0; 0; 7; 0]) flat_memory).2 in
  (read_split_ring_available (λ _, OutOfRange) bounded_read 0x100 4 2 m).1.1 = Ok (3, Some 7).
Proof.
  intros m. pose proof (read_available_correct (λ _, OutOfRange) m 0x100 4 2) as H.
  cbn [gm_read bounded_memory] in H. rewrite H.
  - vm_compute. reflexivity.
  - lia.
  - cbn. unfold bounded_mapped. split; [lia|]. split; [lia|]. vm_compute. reflexivity.
  - ilia.
Defined.

Lemma complete_entry_correct_witness :
  ∃ m', complete_split_ring_entry (λ _, OutOfRange) bounded_read bounded_write
          0x200 4 9 100 flat_memory = (Ok tt, m') ∧ word16 m' 0x202 = 1.
Proof.
  destruct (complete_entry_correct (λ _, OutOfRange) flat_memory 0x200 4 9 100)
    as (m' & H & Hi & _).
  - lia.
  - cbn. unfold bounded_mapped. split; [lia|]. split; [lia|]. vm_compute. reflexivity.
  - ilia.
  - ilia.
  - exists m'. split; [exact H|]. etransitivity; [exact Hi|]. vm_compute. reflexivity.
Defined.
