(* ===== verification/GuestCopy.v ===== *)
(** * Batched guest copies

    [components/device-transport/src/lib.rs]: [for_each_batch],
    [read_guest_ranges] and [write_guest_ranges], which cut arbitrary guest
    ranges into pieces and batches the host accepts. [usize] is the target's
    (32 bits in the Wasm components), so its largest value is a parameter, as
    is the allocator's answer to [try_reserve_exact]. *)

From S2P Require Import Prelude Limits MemoryApi HostMemory.
Local Open Scope Z_scope.

Inductive MemoryCopyError := CopyBadLen | CopyUnmapped | CopyTooLarge.

#[export] Instance MemoryCopyError_eq_dec : EqDecision MemoryCopyError.
Proof. solve_decision. Defined.

(** ** [for_each_batch] *)
Section Batches.
Context {S E P : Type} (issue : list P → Z → stM S E unit).

(** Whether the pending batch has to go out before [len] more bytes. *)
Definition batch_full (batch : list P) (batch_bytes len : Z) : bool :=
  negb (Nat.eqb (length batch) 0) &&
  ((zlen batch =? MAX_BATCH_GUEST_COPY_RANGES) ||
   (MAX_BATCH_GUEST_COPY_BYTES <? batch_bytes + len)).

Fixpoint batch_loop (pieces : list (P * Z)) (batch : list P) (batch_bytes : Z)
  : stM S E unit :=
  match pieces with
  | [] => if Nat.eqb (length batch) 0 then st_ret tt else issue batch batch_bytes
  | (piece, len) :: pieces =>
    if batch_full batch batch_bytes len
    then (issue batch batch_bytes;;; batch_loop pieces [piece] (0 + len))%st
    else batch_loop pieces (batch ++ [piece]) (batch_bytes + len)
  end.

Definition for_each_batch (pieces : list (P * Z)) : stM S E unit :=
  batch_loop pieces [] 0.
End Batches.

(** ** Cutting ranges into pieces *)

Definition CHUNK : Z := MAX_SINGLE_GUEST_COPY_BYTES.

(** [(0..len).step_by(chunk_bytes).map(..)] *)
Definition read_pieces (r : Z * Z) : list ((Z * Z) * Z) :=
  (λ i, let offset := i * CHUNK in
        let piece_len := Z.min (r.2 - offset) CHUNK in
        ((r.1 + offset, piece_len), piece_len))
  <$> seqZ 0 ((r.2 + CHUNK - 1) / CHUNK).

(** [bytes.chunks(chunk_bytes).zip((address..).step_by(chunk_bytes))] *)
Definition write_pieces (w : Z * list Z) : list ((Z * list Z) * Z) :=
  imap (λ i chunk, ((w.1 + Z.of_nat i * CHUNK, chunk), zlen chunk))
       (chunks (Z.to_nat CHUNK) w.2).

Section Copies.
Context {H E : Type} `{!GuestMemory H E} (from_copy : MemoryCopyError → E).
Context (usize_max : Z) (try_reserve : Z → bool).

(** The checks before the first host call: the total of the lengths. *)
Fixpoint check_ranges (ranges : list (Z * Z)) (total : Z) : result MemoryCopyError Z :=
  match ranges with
  | [] => Ok total
  | (address, len) :: ranges =>
    _ ← ok_or CopyUnmapped (checked_add64 address len);
    total ← ok_or CopyTooLarge (checked_add64 total len);
    check_ranges ranges total
  end.

Definition to_usize (z : Z) : result MemoryCopyError Z :=
  if z <=? usize_max then Ok z else Err CopyTooLarge.

(** The closure of [read_guest_ranges]; the output vector is the second
    component of the state. *)
Definition read_issue (batch : list (Z * Z)) (batch_bytes : Z)
  : stM (H * list Z) E unit :=
  λ '(h, out),
  let '(r, h) := match batch with
                 | [(address, len)] => gm_read address len h
                 | _ => gm_read_ranges batch h
                 end in
  match r with
  | Err e => (Err e, (h, out))
  | Ok chunk =>
    if negb (zlen chunk =? batch_bytes) then (Err (from_copy CopyBadLen), (h, out))
    else (Ok tt, (h, out ++ chunk))
  end.

Definition read_guest_ranges (ranges : list (Z * Z)) : stM H E (list Z) :=
  λ h,
  match total ← check_ranges ranges 0;
        _ ← to_usize total;
        _ ← (if try_reserve total then Ok tt else Err CopyTooLarge);
        to_usize MAX_SINGLE_GUEST_COPY_BYTES with
  | Err e => (Err (from_copy e), h)
  | Ok _ =>
    let '(r, (h, out)) := for_each_batch read_issue (ranges ≫= read_pieces) (h, []) in
    (_ ← r; Ok out, h)
  end.

Definition write_issue (batch : list (Z * list Z)) (_ : Z) : stM H E unit :=
  match batch with
  | [(address, bs)] => gm_write address bs
  | _ => gm_write_ranges batch
  end.

Fixpoint check_writes (ranges : list (Z * list Z)) : result MemoryCopyError unit :=
  match ranges with
  | [] => Ok tt
  | (address, bs) :: ranges =>
    _ ← ok_or CopyUnmapped (checked_add64 address (zlen bs));
    check_writes ranges
  end.

Definition write_guest_ranges (ranges : list (Z * list Z)) : stM H E unit :=
  λ h,
  match _ ← check_writes ranges; to_usize MAX_SINGLE_GUEST_COPY_BYTES with
  | Err e => (Err (from_copy e), h)
  | Ok _ => for_each_batch write_issue (ranges ≫= write_pieces) h
  end.
End Copies.

(** ** Batches as a partition

    The reference: the list of batches [for_each_batch] issues. *)
Section Partition.
Context {P : Type}.

Fixpoint batches (pieces : list (P * Z)) (batch : list (P * Z)) : list (list (P * Z)) :=
  match pieces with
  | [] => match batch with [] => [] | _ => [batch] end
  | (piece, len) :: pieces =>
    if batch_full batch.*1 (sumZ batch.*2) len
    then batch :: batches pieces [(piece, len)]
    else batches pieces (batch ++ [(piece, len)])
  end.

Lemma concat_batches pieces batch : concat (batches pieces batch) = batch ++ pieces.
Proof.
  revert batch. induction pieces as [|[p n] pieces IH]; intros batch; simpl.
  - by destruct batch; simpl; rewrite ?app_nil_r.
  - case_match; simpl; rewrite IH; [done|]. by rewrite <- app_assoc.
Qed.

(** Every batch is non-empty and within both limits, when no single piece
    exceeds the byte limit. *)
Definition good_batch (b : list (P * Z)) : Prop :=
  b ≠ [] ∧ zlen b ≤ MAX_BATCH_GUEST_COPY_RANGES ∧
  sumZ b.*2 ≤ MAX_BATCH_GUEST_COPY_BYTES.

Lemma batches_good pieces batch :
  Forall (λ p, p.2 ≤ MAX_BATCH_GUEST_COPY_BYTES) pieces →
  batch = [] ∨ good_batch batch →
  Forall good_batch (batches pieces batch).
Proof.
  intros Hp. revert batch. induction Hp as [|[p n] pieces Hn _ IH]; intros batch Hb; simpl.
  - destruct batch; [done|]. constructor; [|done]. by destruct Hb.
  - simpl in Hn.
    assert (good_batch [(p, n)]) as Hone.
    { split; [done|]. split; [by vm_compute|]. unfold sumZ; simpl. lia. }
    destruct (batch_full _ _ _) eqn:Hf.
    + constructor; [|apply IH; by right].
      destruct Hb as [->|]; [by vm_compute in Hf|done].
    + apply IH. right. destruct Hb as [->|(Hne & Hl & Hs)]; [done|].
      unfold batch_full in Hf. rewrite length_fmap in Hf.
      destruct batch as [|q batch]; [done|]. cbn [length Nat.eqb negb andb] in Hf. breflect.
      split; [by destruct batch|].
      rewrite fmap_app, sumZ_app, zlen_app. unfold sumZ at 2; simpl foldr.
      replace (zlen (q :: batch).*1) with (zlen (q :: batch)) in *
        by (unfold zlen; by rewrite length_fmap).
      change (zlen [(p, n)]) with 1. lia.
Qed.

(** [for_each_batch] issues exactly the batches of the reference, in order,
    and stops at the first error. *)
Lemma for_each_batch_spec {S E} (issue : list P → Z → stM S E unit) pieces :
  ∀ s, for_each_batch issue pieces s =
  foldr (λ b k, (issue b.*1 (sumZ b.*2);;; k)%st) (st_ret tt) (batches pieces []) s.
Proof.
  unfold for_each_batch.
  assert (∀ batch s, batch_loop issue pieces batch.*1 (sumZ batch.*2) s =
    foldr (λ b k, (issue b.*1 (sumZ b.*2);;; k)%st) (st_ret tt) (batches pieces batch) s)
    as Hgen; [|exact (Hgen [])].
  induction pieces as [|[p n] pieces IH]; intros batch s; cbn [batch_loop batches].
  - rewrite length_fmap. destruct batch as [|q batch]; [done|].
    cbn [length Nat.eqb foldr]. unfold st_bind. by destruct (issue _ _ s) as [[[]|] ?].
  - destruct (batch_full _ _ _).
    + cbn [foldr]. unfold st_bind at 1. unfold st_bind at 1.
      destruct (issue _ _ s) as [[[]|] s']; [|done].
      etransitivity; [|apply (IH [(p, n)] s')]. simpl. unfold sumZ. simpl.
      by rewrite Z.add_0_r.
    + etransitivity; [|apply IH]. rewrite !fmap_app, sumZ_app. do 2 f_equal.
      change (sumZ [(p, n)].*2) with (n + 0). lia.
Qed.
End Partition.

(** ** Pieces cover their range *)

Lemma chunk_pos : 0 < CHUNK.
Proof. by vm_compute. Qed.

(** A piece is non-empty, no larger than one host copy, and inside [a, a+n). *)
Definition good_piece (a n : Z) (q : (Z * Z) * Z) : Prop :=
  q.1.2 = q.2 ∧ 0 < q.2 ≤ CHUNK ∧ a ≤ q.1.1 ∧ q.1.1 + q.2 ≤ a + n.

Lemma read_pieces_good r : Forall (good_piece r.1 r.2) (read_pieces r).
Proof.
  unfold read_pieces. apply Forall_fmap, Forall_forall. intros i Hi.
  apply elem_of_seqZ in Hi. pose proof chunk_pos. unfold good_piece; simpl.
  assert (i * CHUNK < r.2).
  { pose proof (Z.mul_div_le (r.2 + CHUNK - 1) CHUNK). nia. }
  nia.
Qed.

Lemma peek_pieces f a n k :
  0 ≤ n → (k = 0%nat ∨ (Z.of_nat k - 1) * CHUNK < n) →
  (seqZ 0 (Z.of_nat k) ≫= λ i, peek f (a + i * CHUNK) (Z.min (n - i * CHUNK) CHUNK)) =
  peek f a (Z.min n (Z.of_nat k * CHUNK)).
Proof.
  pose proof chunk_pos as HC. intros Hn Hk. induction k as [|k IH].
  - rewrite Z.mul_0_l, Z.min_r by done. done.
  - rewrite seqZ_S, bind_app, IH, Nat2Z.inj_succ by lia.
    destruct Hk as [?|Hk]; [lia|]. rewrite Nat2Z.inj_succ in Hk.
    assert (Z.of_nat k * CHUNK < n) by lia.
    rewrite bind_singleton, (Z.min_r n (Z.of_nat k * CHUNK)) by lia.
    rewrite Z.add_0_l, <- peek_app by lia. f_equal. lia.
Qed.

Lemma read_pieces_peek f r :
  0 ≤ r.2 → (read_pieces r ≫= λ q, peek f q.1.1 q.1.2) = peek f r.1 r.2.
Proof.
  intros Hn. pose proof chunk_pos as HC. unfold read_pieces. rewrite list_bind_fmap. simpl.
  set (k := (r.2 + CHUNK - 1) / CHUNK).
  assert (0 ≤ k) by (apply Z.div_pos; lia).
  assert (CHUNK * k ≤ r.2 + CHUNK - 1) by (apply Z.mul_div_le; lia).
  assert (r.2 + CHUNK - 1 < CHUNK * Z.succ k) by (apply Z.mul_succ_div_gt; lia).
  pose proof (peek_pieces f r.1 r.2 (Z.to_nat k) Hn) as Hp.
  rewrite Z2Nat.id in Hp by done. rewrite Z.min_l in Hp by nia. apply Hp. right. nia.
Qed.

Section CopyCorrect.
Context {H E : Type} `{!GuestMemory H E} (from_copy : MemoryCopyError → E).
Context (usize_max : Z) (try_reserve : Z → bool).

(** A piece of mapped guest RAM. *)
Definition mapped_piece (h : H) (q : (Z * Z) * Z) : Prop :=
  q.1.2 = q.2 ∧ 0 < q.2 ≤ CHUNK ∧ gm_mapped h q.1.1 q.2.

Lemma mapped_pieces_sum f (b : list ((Z * Z) * Z)) :
  Forall (λ q, q.1.2 = q.2 ∧ 0 < q.2) b →
  zlen (b ≫= λ q, peek f q.1.1 q.1.2) = sumZ b.*2.
Proof.
  induction 1 as [|q b [Hq ?] _ IH]; [done|].
  rewrite fmap_cons, sumZ_cons, bind_cons, zlen_app, peek_length, IH by lia. lia.
Qed.

Lemma read_issue_mapped h out b :
  good_batch b → Forall (mapped_piece h) b →
  read_issue from_copy b.*1 (sumZ b.*2) (h, out) =
  (Ok tt, (h, out ++ (b ≫= λ q, peek (gm_byte h) q.1.1 q.1.2))).
Proof.
  intros (Hne & Hl & Hs) Hall.
  assert (zlen (b ≫= λ q, peek (gm_byte h) q.1.1 q.1.2) = sumZ b.*2) as Hsum.
  { apply mapped_pieces_sum. eapply Forall_impl; [exact Hall|]. intros q (? & ? & ?).
    split; [done|lia]. }
  assert (read_issue from_copy b.*1 (sumZ b.*2) (h, out) =
    let '(r, h') := (Ok (b ≫= λ q, peek (gm_byte h) q.1.1 q.1.2), h) : result E (list Z) * H in
    match r with
    | Err e => (Err e, (h', out))
    | Ok chunk => if negb (zlen chunk =? sumZ b.*2) then (Err (from_copy CopyBadLen), (h', out))
                  else (Ok tt, (h', out ++ chunk))
    end) as ->; [|by rewrite Hsum, Z.eqb_refl].
  unfold read_issue. destruct b as [|[[a n] m] [|q b]]; [done| |].
  - inversion_clear Hall as [|? ? (Hn & Hle & Hm) _]. simpl in *. subst m.
    rewrite gm_read_ok by done. by rewrite app_nil_r.
  - set (bb := ((a, n), m) :: q :: b) in *.
    change (match bb.*1 with [(address, len)] => gm_read address len h
            | _ => gm_read_ranges bb.*1 h end) with (gm_read_ranges bb.*1 h).
    rewrite gm_read_ranges_ok; [by rewrite list_bind_fmap| |].
    + rewrite <- list_fmap_compose.
      assert ((snd ∘ fst <$> bb) = bb.*2) as ->.
      { apply list_fmap_ext. intros i x Hx.
        eapply Forall_lookup_1 in Hx; [|exact Hall]. by destruct Hx. }
      split; [unfold zlen in *; by rewrite length_fmap|]. split; [|done].
      apply Forall_fmap. eapply Forall_impl; [exact Hall|]. by intros ? (_ & ? & _).
    + apply Forall_fmap. eapply Forall_impl; [exact Hall|].
      intros ? (Heq & _ & ?). simpl. by rewrite Heq.
Qed.

Lemma read_batches_mapped h bs out :
  Forall good_batch bs → Forall (Forall (mapped_piece h)) bs →
  foldr (λ b k, (read_issue from_copy b.*1 (sumZ b.*2);;; k)%st) (st_ret tt) bs (h, out) =
  (Ok tt, (h, out ++ (concat bs ≫= λ q, peek (gm_byte h) q.1.1 q.1.2))).
Proof.
  revert out. induction bs as [|b bs IH]; intros out Hg Hm; cbn [foldr concat].
  - change ([] ≫= _) with (@nil Z). by rewrite app_nil_r.
  - inversion_clear Hg. inversion_clear Hm. unfold st_bind.
    rewrite read_issue_mapped by done. rewrite IH by done.
    by rewrite bind_app, app_assoc.
Qed.

Lemma check_ranges_ok ranges total :
  0 ≤ total → Forall (λ r, 0 ≤ r.1 ∧ 0 ≤ r.2 ∧ r.1 + r.2 ≤ U64_MAX) ranges →
  total + sumZ ranges.*2 ≤ U64_MAX →
  check_ranges ranges total = Ok (total + sumZ ranges.*2).
Proof.
  revert total. induction ranges as [|[a n] ranges IH]; intros total Ht Hall Hsum.
  - simpl. change (sumZ [].*2) with 0. by rewrite Z.add_0_r.
  - inversion_clear Hall as [|? ? (Ha & Hn & Han) Hall']. rewrite fmap_cons, sumZ_cons in *.
    cbn [check_ranges fst snd] in *.
    rewrite (proj2 (checked_add64_Some a n (a + n))) by (split; [done|lia]). rsimpl.
    assert (0 ≤ sumZ ranges.*2).
    { apply sumZ_nonneg, Forall_fmap. eapply Forall_impl; [exact Hall'|]. by intros ? (_ & ? & _). }
    rewrite (proj2 (checked_add64_Some total n (total + n))) by (split; [done|lia]). rsimpl.
    rewrite IH by (done || lia). f_equal. lia.
Qed.

Lemma concat_Forall {A} (P : A → Prop) (ls : list (list A)) :
  Forall P (concat ls) → Forall (Forall P) ls.
Proof.
  induction ls as [|l ls IH]; simpl; [done|]. rewrite Forall_app. intros []. constructor; auto.
Qed.

(** Ranges that name guest RAM (or nothing). *)
Definition readable (h : H) (ranges : list (Z * Z)) : Prop :=
  Forall (λ r, 0 ≤ r.2 ∧ 0 ≤ r.1 ≤ U64_MAX ∧ (r.2 ≠ 0 → gm_mapped h r.1 r.2)) ranges.

Lemma readable_checks h ranges :
  readable h ranges → Forall (λ r, 0 ≤ r.1 ∧ 0 ≤ r.2 ∧ r.1 + r.2 ≤ U64_MAX) ranges.
Proof.
  intros Hr. eapply Forall_impl; [exact Hr|]. intros [a n] (Hn & Ha & Hm); simpl in *.
  destruct (decide (n = 0)) as [->|Hn0]; [lia|].
  destruct (gm_mapped_u64 h a n (Hm Hn0)). lia.
Qed.

Lemma readable_pieces h ranges :
  readable h ranges → Forall (mapped_piece h) (ranges ≫= read_pieces).
Proof.
  induction 1 as [|[a n] ranges (Hn & Ha & Hm) _ IH]; [by constructor|].
  rewrite bind_cons. apply Forall_app. split; [|done].
  eapply Forall_impl; [exact (read_pieces_good (a, n))|].
  intros q (Hq & Hle & Hlo & Hhi). split; [done|]. split; [done|]. simpl in *.
  eapply gm_mapped_sub; [apply Hm; lia|lia..].
Qed.

Lemma bind_read_pieces f ranges :
  Forall (λ r, 0 ≤ r.2) ranges →
  ((ranges ≫= read_pieces) ≫= λ q, peek f q.1.1 q.1.2) = ranges ≫= λ r, peek f r.1 r.2.
Proof.
  induction 1 as [|r ranges Hn _ IH]; [done|].
  rewrite bind_cons, bind_app, read_pieces_peek by done. by rewrite IH, bind_cons.
Qed.

Lemma read_guest_ranges_ok h ranges :
  readable h ranges → CHUNK ≤ usize_max ≤ U64_MAX →
  sumZ ranges.*2 ≤ usize_max → try_reserve (sumZ ranges.*2) = true →
  read_guest_ranges from_copy usize_max try_reserve ranges h =
  (Ok (ranges ≫= λ r, peek (gm_byte h) r.1 r.2), h).
Proof.
  intros Hr Hu Hsum Hres. unfold read_guest_ranges.
  rewrite check_ranges_ok by (done || lia || by eapply readable_checks). rsimpl.
  rewrite Z.add_0_l. unfold to_usize.
  destruct (sumZ _ <=? usize_max) eqn:E1; [|breflect; lia]. rsimpl.
  rewrite Hres. rsimpl. destruct (MAX_SINGLE_GUEST_COPY_BYTES <=? _) eqn:E2;
    [|breflect; unfold CHUNK in *; lia].
  rewrite for_each_batch_spec, read_batches_mapped.
  - rewrite concat_batches. simpl. rewrite bind_read_pieces; [done|].
    eapply Forall_impl; [exact Hr|]. by intros ? (? & _).
  - apply batches_good; [|by left]. eapply Forall_impl; [by apply readable_pieces|].
    intros q (_ & Hq & _). unfold CHUNK, MAX_BATCH_GUEST_COPY_BYTES,
      MAX_COMPONENT_HOSTCALL_BYTES, MAX_SINGLE_GUEST_COPY_BYTES in *. lia.
  - apply concat_Forall. rewrite concat_batches. by apply readable_pieces.
Qed.
(** Whatever the host answers, a read that succeeds returns as many bytes as
    were asked for. *)
Lemma read_batches_length bs h out h' out' :
  foldr (λ b k, (read_issue from_copy b.*1 (sumZ b.*2);;; k)%st) (st_ret tt) bs (h, out) = (Ok tt, (h', out')) →
  zlen out' = zlen out + sumZ (concat bs).*2.
Proof.
  revert h out. induction bs as [|b bs IH]; intros h out Hr; cbn [foldr concat] in *.
  - unfold st_ret in Hr. simplify_eq. unfold sumZ; simpl. lia.
  - unfold st_bind in Hr. destruct (read_issue _ _ _ (h, out)) as [[[]|] [h1 out1]] eqn:Hi; [|done].
    apply IH in Hr. rewrite Hr, fmap_app, sumZ_app.
    assert (zlen out1 = zlen out + sumZ b.*2) as Hl; [|lia].
    unfold read_issue in Hi. destruct (match b.*1 with [(a, n)] => _ | _ => _ end) as [[chunk|] h2]; [|done].
    destruct (zlen chunk =? sumZ b.*2) eqn:Hc; [|done]. simpl in Hi. simplify_eq. breflect.
    rewrite zlen_app. lia.
Qed.

Lemma read_pieces_sum ranges :
  Forall (λ r, 0 ≤ r.2) ranges → sumZ (ranges ≫= read_pieces).*2 = sumZ ranges.*2.
Proof.
  intros Hr. rewrite <- (mapped_pieces_sum (λ _, 0)).
  - rewrite bind_read_pieces by done. induction Hr as [|[a n] ranges Hn _ IH]; [done|].
    rewrite bind_cons, zlen_app, peek_length, IH, fmap_cons, sumZ_cons by done. done.
  - induction Hr as [|[a n] ranges Hn _ IH]; [by constructor|]. rewrite bind_cons. apply Forall_app.
    split; [|done]. eapply Forall_impl; [exact (read_pieces_good (a, n))|].
    intros q (? & ? & _). split; [done|lia].
Qed.

Lemma read_guest_ranges_length h ranges out h' :
  Forall (λ r, 0 ≤ r.2) ranges →
  read_guest_ranges from_copy usize_max try_reserve ranges h = (Ok out, h') →
  zlen out = sumZ ranges.*2.
Proof.
  intros Hr. unfold read_guest_ranges. destruct (check_ranges ranges 0 ≫= _); [|done].
  rewrite for_each_batch_spec.
  match goal with |- context [foldr ?f ?z ?l (h, [])] =>
    destruct (foldr f z l (h, [])) as [[[]|] [h1 out1]] eqn:Hf; [|done] end.
  simpl. intros [= <- <-]. apply read_batches_length in Hf. rewrite concat_batches in Hf. simpl in Hf.
  rewrite read_pieces_sum in Hf by done. unfold zlen in *. simpl in Hf. lia.
Qed.

(** Reads change nothing. *)
Lemma read_guest_ranges_pure h ranges :
  (read_guest_ranges from_copy usize_max try_reserve ranges h).2 = h.
Proof.
  unfold read_guest_ranges. destruct (check_ranges ranges 0 ≫= _); [|done].
  rewrite for_each_batch_spec. generalize (@nil Z).
  induction (batches _ []) as [|b bs IH]; intros out; [done|]. cbn [foldr]. unfold st_bind.
  assert (Hi : (read_issue from_copy b.*1 (sumZ b.*2) (h, out)).2.1 = h).
  { unfold read_issue.
    pose proof (gm_read_ranges_pure h b.*1) as Hr.
    destruct b.*1 as [|[x n] [|y l]]; [|pose proof (gm_read_pure h x n) as Hr1|];
      [destruct (gm_read_ranges _ h) as [[|] ?]|destruct (gm_read x n h) as [[|] ?]
      |destruct (gm_read_ranges _ h) as [[|] ?]]; cbn [snd] in *; subst; by try case_match. }
  destruct (read_issue _ _ _ (h, out)) as [[[]|] [h1 out1]]; cbn [fst snd] in Hi; subst h1; [|done].
  apply IH.
Qed.

(** A short read that succeeds returns the contents. *)
Lemma read_guest_ranges_one h a n bs h' :
  0 < n ≤ CHUNK →
  read_guest_ranges from_copy usize_max try_reserve [(a, n)] h = (Ok bs, h') →
  bs = peek (gm_byte h) a n.
Proof.
  intros Hn. unfold read_guest_ranges. destruct (check_ranges _ 0 ≫= _); [|done].
  assert (Hp : [(a, n)] ≫= read_pieces = [((a + 0 * CHUNK, Z.min (n - 0 * CHUNK) CHUNK),
    Z.min (n - 0 * CHUNK) CHUNK)]).
  { rewrite bind_cons, app_nil_r. unfold read_pieces. cbn [fst snd].
    replace ((n + CHUNK - 1) / CHUNK) with 1; [done|].
    apply (Z.div_unique _ _ _ (n - 1)); lia. }
  rewrite Hp. unfold for_each_batch. cbn [batch_loop length app Nat.eqb].
  replace (batch_full [] 0 _) with false by done. cbn [batch_loop length Nat.eqb].
  replace (a + 0 * CHUNK) with a by lia. replace (Z.min (n - 0 * CHUNK) CHUNK) with n by lia.
  unfold read_issue. pose proof (gm_read_inv h a n) as Hi.
  destruct (gm_read a n h) as [[chunk|] h1]; [|done]. cbn [fst] in Hi.
  destruct (negb _); [done|]. cbn [app]. intros [= <- _]. by apply Hi.
Qed.
End CopyCorrect.

(** ** Stores *)

Definition good_store (C a : Z) (bs : list Z) (q : (Z * list Z) * Z) : Prop :=
  q.2 = zlen q.1.2 ∧ 0 < q.2 ≤ C ∧ a ≤ q.1.1 ∧ q.1.1 + q.2 ≤ a + zlen bs ∧
  (bytes bs → bytes q.1.2).

(** Stated for any chunk size: the real one is large. *)
Lemma store_pieces (n : nat) (C : Z) bs :
  (0 < n)%nat → C = Z.of_nat n → ∀ a,
  let ps := imap (λ i chunk, ((a + Z.of_nat i * C, chunk), zlen chunk)) (chunks n bs) in
  Forall (good_store C a bs) ps ∧ ∀ f x, patches f ps.*1 x = patch f a bs x.
Proof.
  intros Hn HC.
  apply (chunks_ind n (λ bs cs, ∀ a,
    let ps := imap (λ i chunk, ((a + Z.of_nat i * C, chunk), zlen chunk)) cs in
    Forall (good_store C a bs) ps ∧ ∀ f x, patches f ps.*1 x = patch f a bs x)); [done| |].
  - intros a. split; [done|]. intros f x. by rewrite patch_nil.
  - intros l Hl IH a. specialize (IH (a + C)). destruct IH as [IHg IHp].
    rewrite imap_cons.
    rewrite (imap_ext _ (λ i chunk, ((a + C + Z.of_nat i * C, chunk), zlen chunk)))
      by (intros; unfold compose; do 2 f_equal; lia).
    set (rest := imap _ _) in *.
    assert (zlen (take n l) = Z.min C (zlen l)) as Ht
      by (unfold zlen; rewrite length_take; lia).
    assert (zlen (drop n l) = Z.max 0 (zlen l - C)) as Hd
      by (unfold zlen; rewrite length_drop; lia).
    assert (0 < zlen l) as Hpos by (destruct l; [done|unfold zlen; simpl; lia]).
    split.
    + constructor.
      * unfold good_store; simpl. rewrite Z.add_0_r, Ht. split_and!; try lia.
        intros Hb. by apply Forall_take.
      * eapply Forall_impl; [exact IHg|]. intros q (Hq & Hle & Hlo & Hhi & Hb).
        unfold good_store. split_and!; try done; try lia. intros. by apply Hb, Forall_drop.
    + intros f x. rewrite fmap_cons. change (patches f (?w :: ?ws) x) with
        (patches (patch f w.1 w.2) ws x). simpl. rewrite IHp, Z.add_0_r.
      destruct (decide (zlen l ≤ C)).
      * rewrite (drop_ge l n), patch_nil, (take_ge l n) by (unfold zlen in *; lia). done.
      * rewrite <- (take_drop n l) at 3. rewrite <- patch_app.
        by replace (zlen (take n l)) with C by lia.
Qed.

Lemma write_pieces_spec a bs :
  Forall (good_store CHUNK a bs) (write_pieces (a, bs)) ∧
  ∀ f x, patches f (write_pieces (a, bs)).*1 x = patch f a bs x.
Proof.
  pose proof chunk_pos. apply store_pieces; lia.
Qed.

Section StoreCorrect.
Context {H E : Type} `{!GuestMemory H E} (from_copy : MemoryCopyError → E).
Context (usize_max : Z).

Definition store_piece (h : H) (q : (Z * list Z) * Z) : Prop :=
  q.2 = zlen q.1.2 ∧ 0 < q.2 ≤ CHUNK ∧ bytes q.1.2 ∧ gm_mapped h q.1.1 q.2.

(** [h'] is [h] with the stores [ws] done. *)
Definition after_stores (h : H) (ws : list (Z * list Z)) (h' : H) : Prop :=
  (∀ x, gm_byte h' x = patches (gm_byte h) ws x) ∧
  (∀ a n, gm_mapped h' a n ↔ gm_mapped h a n).

Lemma write_issue_mapped h b :
  good_batch b → Forall (store_piece h) b →
  ∃ h', write_issue b.*1 (sumZ b.*2) h = (Ok tt, h') ∧ after_stores h b.*1 h'.
Proof.
  intros (Hne & Hl & Hs) Hall. unfold write_issue.
  destruct b as [|[[a bs] m] [|q b]]; [done| |].
  - inversion_clear Hall as [|? ? (Hn & Hle & Hb & Hm) _]. simpl in *. subst m.
    destruct (gm_write_ok h a bs) as (h' & ? & ? & ?); eauto. by exists h'.
  - set (bb := ((a, bs), m) :: q :: b) in *.
    change (match bb.*1 with [(address, bs)] => gm_write address bs
            | _ => gm_write_ranges bb.*1 end) with (gm_write_ranges (E := E) bb.*1).
    assert (((λ w, zlen w.2) <$> bb.*1) = bb.*2) as Hlens.
    { rewrite <- list_fmap_compose. apply list_fmap_ext. intros i x Hx.
      eapply Forall_lookup_1 in Hx; [|exact Hall]. by destruct Hx. }
    destruct (gm_write_ranges_ok h bb.*1) as (h' & ? & ? & ?).
    + rewrite Hlens. split; [unfold zlen in *; by rewrite length_fmap|]. split; [|done].
      apply Forall_fmap. eapply Forall_impl; [exact Hall|]. by intros ? (_ & ? & _).
    + apply Forall_fmap. eapply Forall_impl; [exact Hall|].
      intros ? (Heq & _ & ? & ?). simpl. by rewrite <- Heq.
    + by exists h'.
Qed.

Lemma write_batches_mapped h bs :
  Forall good_batch bs → Forall (Forall (store_piece h)) bs →
  ∃ h', foldr (λ b k, (write_issue b.*1 (sumZ b.*2);;; k)%st) (st_ret tt) bs h = (Ok tt, h') ∧
    after_stores h (concat bs).*1 h'.
Proof.
  revert h. induction bs as [|b bs IH]; intros h Hg Hm; cbn [foldr concat].
  - by exists h.
  - inversion_clear Hg as [|? ? Hb Hg']. inversion_clear Hm as [|? ? Hp Hm'].
    destruct (write_issue_mapped h b Hb Hp) as (h1 & Hw & Hx & Hmap).
    destruct (IH h1) as (h2 & Hws & Hx2 & Hmap2); [done| |].
    { eapply Forall_impl; [exact Hm'|]. intros l Hl. eapply Forall_impl; [exact Hl|].
      intros q (? & ? & ? & ?). unfold store_piece. by rewrite Hmap. }
    exists h2. unfold st_bind. rewrite Hw. split; [done|]. split.
    + intros x. rewrite Hx2, fmap_app, patches_app. by apply patches_ext.
    + intros. by rewrite Hmap2.
Qed.

Definition writable (h : H) (ranges : list (Z * list Z)) : Prop :=
  Forall (λ w, bytes w.2 ∧ 0 ≤ w.1 ≤ U64_MAX ∧
               (w.2 ≠ [] → gm_mapped h w.1 (zlen w.2))) ranges.

Lemma check_writes_ok h ranges : writable h ranges → check_writes ranges = Ok tt.
Proof.
  induction 1 as [|[a bs] ranges (Hb & Ha & Hm) _ IH]; [done|]. simpl in *.
  destruct (checked_add64 a (zlen bs)) eqn:Hc; rsimpl; [done|].
  apply checked_add64_None in Hc. exfalso. destruct bs as [|x bs].
  - unfold zlen in Hc; simpl in Hc. lia.
  - destruct (gm_mapped_u64 h a (zlen (x :: bs))); [by apply Hm|lia].
Qed.

Lemma writable_pieces h ranges :
  writable h ranges → Forall (store_piece h) (ranges ≫= write_pieces).
Proof.
  induction 1 as [|[a bs] ranges (Hb & Ha & Hm) _ IH]; [by constructor|].
  rewrite bind_cons. apply Forall_app. split; [|done].
  eapply Forall_impl; [exact (proj1 (write_pieces_spec a bs))|].
  intros q (Hq & Hle & Hlo & Hhi & Hqb). simpl in *. split_and!; [done|lia|lia|auto|].
  eapply gm_mapped_sub; [apply Hm|lia..]. intros ->. unfold zlen in *; simpl in *. lia.
Qed.

Lemma patches_write_pieces f ranges x :
  patches f (ranges ≫= write_pieces).*1 x = patches f ranges x.
Proof.
  revert f. induction ranges as [|[a bs] ranges IH]; intros f; [done|].
  rewrite bind_cons, fmap_app, patches_app, IH.
  change (patches f ((a, bs) :: ranges) x) with (patches (patch f a bs) ranges x).
  apply patches_ext. intros y. apply (proj2 (write_pieces_spec a bs)).
Qed.

Lemma write_guest_ranges_ok h ranges :
  writable h ranges → CHUNK ≤ usize_max →
  ∃ h', write_guest_ranges from_copy usize_max ranges h = (Ok tt, h') ∧
    after_stores h ranges h'.
Proof.
  intros Hw Hu. unfold write_guest_ranges. rewrite (check_writes_ok h) by done. rsimpl.
  unfold to_usize. destruct (_ <=? usize_max) eqn:E1; [|breflect; unfold CHUNK in *; lia].
  destruct (write_batches_mapped h (batches (ranges ≫= write_pieces) [])) as (h' & Hr & Hx & Hm).
  - apply batches_good; [|by left]. eapply Forall_impl; [by apply writable_pieces|].
    intros q (_ & Hq & _). unfold CHUNK, MAX_BATCH_GUEST_COPY_BYTES,
      MAX_COMPONENT_HOSTCALL_BYTES, MAX_SINGLE_GUEST_COPY_BYTES in *. lia.
  - apply concat_Forall. rewrite concat_batches. by apply writable_pieces.
  - exists h'. rewrite for_each_batch_spec, Hr. split; [done|]. split; [|done].
    intros x. rewrite Hx, concat_batches. apply patches_write_pieces.
Qed.

(** Whatever the host answers, a batch is stored as a whole or not at all, so
    the stores done are the first ones. *)
Lemma write_issue_inv h (b : list ((Z * list Z) * Z)) n r h' :
  Forall (λ q, bytes q.1.2) b → write_issue b.*1 n h = (r, h') →
  (r = Ok tt ∧ after_stores h b.*1 h') ∨ (is_ok r = false ∧ h' = h).
Proof.
  intros Hb Hw. assert (Hb' : Forall (λ w, bytes w.2) b.*1) by by apply Forall_fmap.
  assert (Hranges : gm_write_ranges b.*1 h = (r, h') →
    (r = Ok tt ∧ after_stores h b.*1 h') ∨ (is_ok r = false ∧ h' = h)).
  { destruct r as [[]|e]; intros Hr; [left|right].
    - split; [done|]. by apply gm_write_ranges_inv.
    - split; [done|]. by eapply gm_write_ranges_err. }
  unfold write_issue in Hw. destruct b.*1 as [|[a bs] [|q l]]; [by apply Hranges| |by apply Hranges].
  apply Forall_cons in Hb' as [Hbs _]. destruct r as [[]|e]; [left|right].
  - split; [done|]. by apply gm_write_inv.
  - split; [done|]. by eapply gm_write_err.
Qed.

Lemma write_batches_inv h (bs : list (list ((Z * list Z) * Z))) r h' :
  Forall (Forall (λ q, bytes q.1.2)) bs →
  foldr (λ b k, (write_issue b.*1 (sumZ b.*2);;; k)%st) (st_ret tt) bs h = (r, h') →
  ∃ ws ws', (concat bs).*1 = ws ++ ws' ∧ after_stores h ws h' ∧ (r = Ok tt → ws' = []).
Proof.
  intros Hbs. revert h. induction Hbs as [|b bs Hb _ IH]; intros h Hr; cbn [foldr concat] in *.
  - unfold st_ret in Hr. simplify_eq. by exists [], [].
  - unfold st_bind in Hr. destruct (write_issue _ _ h) as [r1 h1] eqn:Hi.
    apply write_issue_inv in Hi as [[-> [Hx Hm]]|[Hno ->]]; [| |done].
    + apply IH in Hr as (ws & ws' & Hc & [Hx' Hm'] & Hok). exists (b.*1 ++ ws), ws'.
      split_and!; [by rewrite fmap_app, Hc, app_assoc| |done]. split.
      * intros x. rewrite Hx', patches_app. by apply patches_ext.
      * intros. by rewrite Hm'.
    + destruct r1 as [|e]; [done|]. simplify_eq. by exists [], ((b ++ concat bs).*1).
Qed.

(** [h'] differs from [h] only inside the ranges. *)
Definition only_in (rs : list (Z * Z)) (h h' : H) : Prop :=
  (∀ x, Forall (λ r, ¬ (r.1 ≤ x < r.1 + r.2)) rs → gm_byte h' x = gm_byte h x) ∧
  (∀ a n, gm_mapped h' a n ↔ gm_mapped h a n).

Lemma write_guest_ranges_inv h ranges r h' :
  Forall (λ w, bytes w.2) ranges →
  write_guest_ranges from_copy usize_max ranges h = (r, h') →
  only_in ((λ w, (w.1, zlen w.2)) <$> ranges) h h' ∧ (r = Ok tt → after_stores h ranges h').
Proof.
  intros Hb. unfold write_guest_ranges. destruct (check_writes ranges ≫= _) as [t|err]; cycle 1.
  { intros [= <- <-]. done. }
  rewrite for_each_batch_spec. intros Hr.
  assert (Hin : Forall (λ q, bytes q.1.2 ∧ ∃ w, w ∈ ranges ∧
    w.1 ≤ q.1.1 ∧ q.1.1 + zlen q.1.2 ≤ w.1 + zlen w.2) (ranges ≫= write_pieces)).
  { apply Forall_forall. intros q Hq. apply list_elem_of_bind in Hq as ([a bs] & Hq & Hw).
    pose proof (proj1 (write_pieces_spec a bs)) as Hs. rewrite Forall_forall in Hs.
    destruct (Hs q Hq) as (Hl & _ & Hlo & Hhi & Hqb).
    split; [by apply Hqb, (proj1 (Forall_forall _ _) Hb _ Hw)|].
    exists (a, bs). cbn [fst snd] in *. split_and!; [done|done|lia]. }
  apply write_batches_inv in Hr as (ws & ws' & Hc & [Hx Hm] & Hok).
  - rewrite concat_batches in Hc. cbn [app] in Hc. split; [split; [|done]|].
    + intros x Hout. rewrite Hx. apply patches_out. apply Forall_forall. intros w Hw Hrange.
      assert (Hw' : w ∈ (ranges ≫= write_pieces).*1) by (rewrite Hc; apply elem_of_app; by left).
      apply list_elem_of_fmap in Hw' as (q & -> & Hq). rewrite Forall_forall in Hin.
      destruct (Hin q Hq) as (_ & v & Hv & Hlo & Hhi). rewrite Forall_fmap, Forall_forall in Hout.
      apply (Hout v Hv). cbn [fst snd compose]. lia.
    + intros ->. rewrite (Hok eq_refl), app_nil_r in Hc. split; [|done]. intros x.
      rewrite Hx, <-Hc. apply patches_write_pieces.
  - apply concat_Forall. rewrite concat_batches. eapply Forall_impl; [exact Hin|]. by intros q [? _].
Qed.
End StoreCorrect.

(** ** Properties *)

Section CopyProperties.
Context {H E : Type} `{!GuestMemory H E} (from_copy : MemoryCopyError → E).
Context (usize_max : Z) (try_reserve : Z → bool).

(** Reading any list of guest ranges, however long, returns exactly the
    bytes of those ranges in order and changes nothing, when the ranges are
    guest RAM and the total fits the target's [usize] and the allocator. *)
Theorem read_guest_ranges_correct h ranges :
  readable h ranges → CHUNK ≤ usize_max ≤ U64_MAX →
  sumZ ranges.*2 ≤ usize_max → try_reserve (sumZ ranges.*2) = true →
  read_guest_ranges from_copy usize_max try_reserve ranges h =
  (Ok (ranges ≫= λ r, peek (gm_byte h) r.1 r.2), h).
Proof. apply read_guest_ranges_ok. Qed.

(** Writing any list of byte ranges to guest RAM succeeds and leaves
    memory with exactly those stores applied in order, and the mapping
    unchanged. *)
Theorem write_guest_ranges_correct h ranges :
  writable h ranges → CHUNK ≤ usize_max →
  ∃ h', write_guest_ranges from_copy usize_max ranges h = (Ok tt, h') ∧
    (∀ x, gm_byte h' x = patches (gm_byte h) ranges x) ∧
    (∀ a n, gm_mapped h' a n ↔ gm_mapped h a n).
Proof. apply write_guest_ranges_ok. Qed.

Lemma check_ranges_overflow ranges total r :
  r ∈ ranges → U64_MAX < r.1 + r.2 → is_ok (check_ranges ranges total) = false.
Proof.
  intros Hr Ho. revert total.
  induction Hr as [[a n] ranges|[a n] [a' n'] ranges _ IH]; intros total; cbn [check_ranges].
  - by rewrite (proj2 (checked_add64_None a n)).
  - destruct (checked_add64 a' n'); rsimpl; [|done].
    destruct (checked_add64 total n'); rsimpl; [|done]. by apply IH.
Qed.

Lemma check_writes_overflow ranges w :
  w ∈ ranges → U64_MAX < w.1 + zlen w.2 → check_writes ranges = Err CopyUnmapped.
Proof.
  intros Hr Ho. induction Hr as [[a n] ranges|[a n] [a' n'] ranges _ IH]; cbn [check_writes].
  - by rewrite (proj2 (checked_add64_None a (zlen n))).
  - destruct (checked_add64 a' (zlen n')); rsimpl; [|done]. by apply IH.
Qed.

(** A range that wraps past 2{^64} anywhere in the request is refused
    before the first host call: reads and writes both return an error with
    the host state, and so guest RAM, untouched. *)
Theorem wrapping_ranges_refused h :
  (∀ ranges r, r ∈ ranges → U64_MAX < r.1 + r.2 →
     ∃ e, read_guest_ranges from_copy usize_max try_reserve ranges h = (Err (from_copy e), h)) ∧
  (∀ ranges w, w ∈ ranges → U64_MAX < w.1 + zlen w.2 →
     write_guest_ranges from_copy usize_max ranges h = (Err (from_copy CopyUnmapped), h)).
Proof.
  split.
  - intros ranges r Hr Ho. unfold read_guest_ranges.
    pose proof (check_ranges_overflow ranges 0 r Hr Ho) as Hc.
    destruct (check_ranges ranges 0) as [t|e]; [done|]. by exists e.
  - intros ranges w Hw Ho. unfold write_guest_ranges.
    by rewrite (check_writes_overflow ranges w).
Qed.
End CopyProperties.

(** A read of 40,000 bytes crosses three host copies. *)
Definition wide_memory : GuestMem Flat.t := mkMem (Flat.mk [(0, 0x10000)] ∅) 0x10000.

Lemma contains_one_region b r a n lim :
  b_ranges b = [r] → r.1 ≤ a → 0 < n → a + n ≤ r.1 + r.2 → a + n ≤ lim → a + n ≤ U64_MAX →
  contains_range (mkMem (B := Flat.t) b lim) a n = true.
Proof.
  intros Hr ? ? ? ? ?. apply contains_range_spec. split; [done|]. split; [done|].
  cbn [backing]. eapply (b_contains_region _ _ _ r); [rewrite Hr; left|done..].
Qed.

Lemma read_guest_ranges_correct_witness :
  let ranges := [(0x10, 40000); (0, 0)] in
  read_guest_ranges (λ _, OutOfRange) U32_MAX (λ _, true) ranges wide_memory =
  (Ok (ranges ≫= λ r, peek (gm_byte wide_memory) r.1 r.2), wide_memory).
Proof.
  intros ranges. apply (read_guest_ranges_correct (λ _, OutOfRange) U32_MAX (λ _, true)).
  - constructor; [|constructor; [|constructor]]; cbn [fst snd].
    + split; [lia|]. split; [ilia|]. intros _. cbn. split; [lia|]. split; [lia|].
      apply (contains_one_region _ (0, 0x10000)); [reflexivity|cbn; ilia..].
    + split; [lia|]. split; [ilia|]. done.
  - vm_compute. split; discriminate.
  - vm_compute. discriminate.
  - reflexivity.
Defined.

Lemma write_guest_ranges_correct_witness :
  ∃ m', write_guest_ranges (λ _, OutOfRange) U32_MAX [(0x20, [1; 2]); (0x21, [5])] wide_memory
          = (Ok tt, m') ∧ gm_byte m' 0x21 = 5.
Proof.
  destruct (write_guest_ranges_correct (λ _, OutOfRange) U32_MAX wide_memory
    [(0x20, [1; 2]); (0x21, [5])]) as (m' & H & Hx & _).
  - assert (∀ a bs, bytes bs → 0 ≤ a → 0 < zlen bs → a + zlen bs ≤ 0x10000 →
      bytes bs ∧ 0 ≤ a ≤ U64_MAX ∧ (bs ≠ [] → gm_mapped wide_memory a (zlen bs))) as Hw.
    { intros a bs Hb Ha Hn Hle. split; [exact Hb|]. split; [ilia|]. intros _. cbn.
      split; [lia|]. split; [lia|].
      apply (contains_one_region _ (0, 0x10000)); [reflexivity|cbn; ilia..]. }
    apply Forall_cons; split; [|apply Forall_singleton];
      [apply (Hw 0x20 [1; 2])|apply (Hw 0x21 [5])];
      (by vm_compute) || (repeat (apply Forall_cons; split; [by vm_compute|]); apply Forall_nil_2).
  - vm_compute. discriminate.
  - exists m'. split; [exact H|]. rewrite Hx. reflexivity.
Defined.

Lemma wrapping_ranges_refused_witness :
  write_guest_ranges (λ _, OutOfRange) U32_MAX [(0x20, [1]); (U64_MAX, [1; 2])] wide_memory =
  (Err OutOfRange, wide_memory).
Proof.
  destruct (wrapping_ranges_refused (λ _, OutOfRange) U32_MAX (λ _, true) wide_memory) as [_ H].
  apply (H _ (U64_MAX, [1; 2])).
  - right. left.
  - vm_compute. reflexivity.
Defined.
