(* ===== verification/Mmio.v ===== *)
(** * The virtio-MMIO transport

    [components/device-transport/src/lib.rs], [MmioTransport]: the register
    file every virtio device component keeps, with feature negotiation, the
    device status handshake, queue configuration and the interrupt line. *)

From S2P Require Import Prelude SplitRing.
Local Open Scope Z_scope.

Module Transport.

(** ** Constants *)

Module status.
Definition RESET : Z := 0.
Definition ACKNOWLEDGE : Z := 1.
Definition DRIVER : Z := 2.
Definition DRIVER_OK : Z := 4.
Definition FEATURES_OK : Z := 8.
Definition DEVICE_NEEDS_RESET : Z := 64.
Definition FAILED : Z := 128.
End status.

Definition MAGIC : Z := 0x74726976.
Definition VERSION : Z := 2.
Definition VENDOR_ID : Z := 0x54455252.
Definition INT_USED_BUFFER : Z := 1.
Definition VIRTIO_F_VERSION_1 : Z := Z.shiftl 1 32.
Definition REGION_BYTES : Z := 0x200.

Definition MAGIC_VALUE : Z := 0x000.
Definition REG_VERSION : Z := 0x004.
Definition DEVICE_ID : Z := 0x008.
Definition VENDOR : Z := 0x00c.
Definition HOST_FEATURES : Z := 0x010.
Definition HOST_FEATURES_SEL : Z := 0x014.
Definition GUEST_FEATURES : Z := 0x020.
Definition GUEST_FEATURES_SEL : Z := 0x024.
Definition QUEUE_SEL : Z := 0x030.
Definition QUEUE_NUM_MAX : Z := 0x034.
Definition QUEUE_NUM : Z := 0x038.
Definition QUEUE_READY : Z := 0x044.
Definition QUEUE_NOTIFY : Z := 0x050.
Definition INTERRUPT_STATUS : Z := 0x060.
Definition INTERRUPT_ACK : Z := 0x064.
Definition REG_STATUS : Z := 0x070.
Definition QUEUE_DESC_LOW : Z := 0x080.
Definition QUEUE_DESC_HIGH : Z := 0x084.
Definition QUEUE_AVAIL_LOW : Z := 0x090.
Definition QUEUE_AVAIL_HIGH : Z := 0x094.
Definition QUEUE_USED_LOW : Z := 0x0a0.
Definition QUEUE_USED_HIGH : Z := 0x0a4.
Definition CONFIG_GENERATION : Z := 0x0fc.
Definition CONFIG_BASE : Z := 0x100.
Definition MAX_QUEUE_SIZE : Z := 32768.

(** ** State *)

Inductive WriteOutcome :=
| NoOutcome
| QueueNotify (queue : Z)
| Reset.

Record QueueRegs := mkRegs {
  num : Z;
  ready : bool;
  desc : Z;
  avail : Z;
  used : Z;
}.
Definition default_regs : QueueRegs := mkRegs 0 false 0 0 0.

Record MmioTransport := mkTransport {
  ram_size : Z;
  device_id : Z;
  host_features : Z;
  guest_features : Z;
  feature_sel : Z;
  dev_status : Z;
  queue_max : Z;
  selected : Z;
  queues : list QueueRegs;
  interrupt_status : Z;
  irq_level : bool;
  irq_dirty : bool;
  config : list Z;
}.

(** Field updates. *)
Definition set_guest_features v t := mkTransport (ram_size t) (device_id t) (host_features t) v
  (feature_sel t) (dev_status t) (queue_max t) (selected t) (queues t) (interrupt_status t)
  (irq_level t) (irq_dirty t) (config t).
Definition set_feature_sel v t := mkTransport (ram_size t) (device_id t) (host_features t)
  (guest_features t) v (dev_status t) (queue_max t) (selected t) (queues t) (interrupt_status t)
  (irq_level t) (irq_dirty t) (config t).
Definition set_status v t := mkTransport (ram_size t) (device_id t) (host_features t)
  (guest_features t) (feature_sel t) v (queue_max t) (selected t) (queues t) (interrupt_status t)
  (irq_level t) (irq_dirty t) (config t).
Definition set_selected v t := mkTransport (ram_size t) (device_id t) (host_features t)
  (guest_features t) (feature_sel t) (dev_status t) (queue_max t) v (queues t)
  (interrupt_status t) (irq_level t) (irq_dirty t) (config t).
Definition set_queues v t := mkTransport (ram_size t) (device_id t) (host_features t)
  (guest_features t) (feature_sel t) (dev_status t) (queue_max t) (selected t) v
  (interrupt_status t) (irq_level t) (irq_dirty t) (config t).
Definition set_interrupt_status v t := mkTransport (ram_size t) (device_id t) (host_features t)
  (guest_features t) (feature_sel t) (dev_status t) (queue_max t) (selected t) (queues t) v
  (irq_level t) (irq_dirty t) (config t).
Definition set_irq l d t := mkTransport (ram_size t) (device_id t) (host_features t)
  (guest_features t) (feature_sel t) (dev_status t) (queue_max t) (selected t) (queues t)
  (interrupt_status t) l d (config t).
Definition set_config v t := mkTransport (ram_size t) (device_id t) (host_features t)
  (guest_features t) (feature_sel t) (dev_status t) (queue_max t) (selected t) (queues t)
  (interrupt_status t) (irq_level t) (irq_dirty t) v.

Definition new (ram_size device_id host_features queue_max : Z) (config : list Z)
  : MmioTransport :=
  mkTransport ram_size device_id host_features 0 0 0 queue_max 0 [default_regs] 0 false false
    config.

Definition with_queue_count (count : Z) (t : MmioTransport) : MmioTransport :=
  set_queues (replicate (Z.to_nat (Z.max count 1)) default_regs) t.

Definition negotiated (t : MmioTransport) : Z := Z.land (guest_features t) (host_features t).

Definition queue_addrs_for (queue : Z) (t : MmioTransport) : option (Z * Z * Z * Z) :=
  r ← queues t !! Z.to_nat queue;
  if ready r then Some (desc r, avail r, used r, num r) else None.

(** ** Register accesses *)

Definition check (offset width : Z) : result MmioError unit :=
  if negb (existsb (Z.eqb width) [1; 2; 4; 8]) then Err BadLen else
  e ← ok_or Unmapped (checked_add64 offset width);
  if (REGION_BYTES <=? offset) || (REGION_BYTES <? e) then Err Unmapped else
  if negb (is_multiple_of offset 4) && (offset <? CONFIG_BASE) then Err Unaligned else
  Ok tt.

(** [u32::try_from(features & u32::MAX)] cannot fail; [u32::try_from] of the
    high half fails on no [u64]. *)
Definition feature_word (features : Z) (t : MmioTransport) : result MmioError Z :=
  if feature_sel t =? 0 then Ok (Z.land features U32_MAX)
  else if feature_sel t =? 1 then
    (if Z.shiftr features 32 <=? U32_MAX then Ok (Z.shiftr features 32) else Err BadFeatures)
  else Err BadFeatures.

Definition config_read (offset width : Z) (t : MmioTransport) : result MmioError Z :=
  if negb (existsb (Z.eqb width) [1; 2; 4]) then Err BadLen else
  bs ← ok_or Unmapped (slice (config t) offset (offset + width));
  Ok (from_le bs).

Definition selected_regs (t : MmioTransport) : QueueRegs :=
  default default_regs (queues t !! Z.to_nat (selected t)).

Definition read (offset width : Z) (t : MmioTransport) : result MmioError Z :=
  _ ← check offset width;
  if (offset <? CONFIG_BASE) && negb (offset =? REG_STATUS) && negb (width =? 4)
  then Err BadLen else
  if offset =? MAGIC_VALUE then Ok MAGIC else
  if offset =? REG_VERSION then Ok VERSION else
  if offset =? DEVICE_ID then Ok (device_id t) else
  if offset =? VENDOR then Ok VENDOR_ID else
  if offset =? HOST_FEATURES then feature_word (host_features t) t else
  if offset =? GUEST_FEATURES then feature_word (guest_features t) t else
  if offset =? QUEUE_NUM_MAX then Ok (queue_max t) else
  if offset =? QUEUE_NUM then Ok (num (selected_regs t)) else
  if offset =? QUEUE_READY then Ok (if ready (selected_regs t) then 1 else 0) else
  if offset =? INTERRUPT_STATUS then Ok (interrupt_status t) else
  if (offset =? REG_STATUS) && ((width =? 1) || (width =? 4)) then Ok (dev_status t) else
  if offset =? CONFIG_GENERATION then Ok 0 else
  if CONFIG_BASE <=? offset then config_read (offset - CONFIG_BASE) width t else
  Err Unmapped.

Definition valid_queue_size (max size : Z) : bool :=
  negb (max =? 0) && (max <=? MAX_QUEUE_SIZE) && is_power_of_two max &&
  negb (size =? 0) && (size <=? max) && is_power_of_two size.

Definition drive_status (current written : Z) : result MmioError Z :=
  if (written =? status.RESET) || (written =? current) then Ok written else
  if negb (Z.land current status.FAILED =? 0)
     || negb (Z.land written status.DEVICE_NEEDS_RESET =? 0) then Err BadStatus else
  if negb (Z.land written status.FAILED =? 0) then Ok (Z.lor current status.FAILED) else
  match find (λ bit, Z.land current bit =? 0)
    [status.ACKNOWLEDGE; status.DRIVER; status.FEATURES_OK; status.DRIVER_OK] with
  | None => Err BadStatus
  | Some next => if written =? Z.lor current next then Ok written else Err BadStatus
  end.

Definition set_irq_level (level : bool) (t : MmioTransport) : MmioTransport :=
  if negb (eqb (irq_level t) level) then set_irq level true t else t.

Definition reset_device (t : MmioTransport) : MmioTransport :=
  let t := set_queues (replicate (length (queues t)) default_regs) t in
  let t := set_selected 0 t in
  let t := set_guest_features 0 t in
  let t := set_interrupt_status 0 t in
  set_irq_level false t.

(** Updates of the selected queue's registers ([selected_regs_mut]). *)
Definition selected_regs_mut (f : QueueRegs → result MmioError QueueRegs)
  : stM MmioTransport MmioError unit :=
  λ t, match queues t !! Z.to_nat (selected t) with
       | None => (Err BadQueue, t)
       | Some r => match f r with
                   | Err e => (Err e, t)
                   | Ok r => (Ok tt, set_queues (<[Z.to_nat (selected t) := r]> (queues t)) t)
                   end
       end.

Inductive ring_field := Desc | Avail | Used.

Definition get_addr (field : ring_field) (r : QueueRegs) : Z :=
  match field with Desc => desc r | Avail => avail r | Used => used r end.
Definition put_addr (field : ring_field) (v : Z) (r : QueueRegs) : QueueRegs :=
  match field with
  | Desc => mkRegs (num r) (ready r) v (avail r) (used r)
  | Avail => mkRegs (num r) (ready r) (desc r) v (used r)
  | Used => mkRegs (num r) (ready r) (desc r) (avail r) v
  end.

Definition update_addr (field : ring_field) (value : Z) (high : bool)
  : stM MmioTransport MmioError unit :=
  selected_regs_mut (λ regs,
    if ready regs then Err BadQueue else
    let addr := get_addr field regs in
    Ok (put_addr field
          (if high then Z.lor (Z.land addr U32_MAX) (Z.shiftl value 32)
           else Z.lor (Z.land addr 0xffffffff00000000) value) regs)).

Definition rings (r : QueueRegs) : list (Z * Z) :=
  [(desc r, num r * SPLIT_RING_DESCRIPTOR_BYTES); (avail r, 4 + num r * 2);
   (used r, 4 + num r * 8)].

Definition ring_outside (ram_size : Z) (ring : Z * Z) : bool :=
  (ring.1 =? 0) ||
  match checked_add64 ring.1 ring.2 with None => true | Some e => ram_size <? e end.

Definition arm_queue : stM MmioTransport MmioError unit :=
  λ t, selected_regs_mut (λ r,
    if (num r =? 0) || existsb (ring_outside (ram_size t)) (rings r) then Err BadQueue
    else Ok (mkRegs (num r) true (desc r) (avail r) (used r))) t.

Definition ring_bell (value : Z) (t : MmioTransport) : result MmioError Z :=
  if U16_MAX <? value then Err BadQueue else
  regs ← ok_or BadQueue (queues t !! Z.to_nat value);
  if negb (ready regs) then Err NotReady else Ok value.

Definition write (offset width value : Z) : stM MmioTransport MmioError WriteOutcome :=
  λ t,
  match check offset width with
  | Err e => (Err e, t)
  | Ok _ =>
  if (offset <? CONFIG_BASE) && negb (offset =? REG_STATUS) && negb (width =? 4)
  then (Err Unmapped, t) else
  let word := Z.land value U32_MAX in
  if (offset =? HOST_FEATURES_SEL) || (offset =? GUEST_FEATURES_SEL) then
    if 1 <? word then (Err BadFeatures, t) else (Ok NoOutcome, set_feature_sel word t) else
  if offset =? GUEST_FEATURES then
    match (if feature_sel t =? 0 then
             Ok (Z.lor (Z.land (guest_features t) 0xffffffff00000000) word)
           else if feature_sel t =? 1 then
             Ok (Z.lor (Z.land (guest_features t) U32_MAX) (Z.shiftl word 32))
           else Err BadFeatures) with
    | Err e => (Err e, t)
    | Ok features =>
      if negb (Z.land features (not64 (host_features t)) =? 0) then (Err BadFeatures, t)
      else (Ok NoOutcome, set_guest_features features t)
    end else
  if offset =? QUEUE_SEL then
    if zlen (queues t) <=? word then (Err BadQueue, t)
    else (Ok NoOutcome, set_selected word t) else
  if offset =? QUEUE_NUM then
    if (U16_MAX <? word) || ready (selected_regs t) || negb (valid_queue_size (queue_max t) word)
    then (Err BadQueue, t)
    else (selected_regs_mut (λ r, Ok (mkRegs word (ready r) (desc r) (avail r) (used r)));;;
          st_ret NoOutcome)%st t else
  if offset =? QUEUE_READY then
    if word =? 0 then
      (selected_regs_mut (λ r, Ok (mkRegs (num r) false (desc r) (avail r) (used r)));;;
       st_ret NoOutcome)%st t
    else if word =? 1 then (arm_queue;;; st_ret NoOutcome)%st t
    else (Err BadQueue, t) else
  if offset =? QUEUE_NOTIFY then (bell ← ring_bell word t; Ok (QueueNotify bell), t) else
  if offset =? INTERRUPT_ACK then
    let t := set_interrupt_status (Z.land (interrupt_status t) (not32 word)) t in
    (Ok NoOutcome, if interrupt_status t =? 0 then set_irq_level false t else t) else
  if (offset =? REG_STATUS) && ((width =? 1) || (width =? 4)) then
    match drive_status (dev_status t) (value mod 256) with
    | Err e => (Err e, t)
    | Ok s =>
      let t := set_status s t in
      if (s =? 0) || negb (Z.land s status.FAILED =? 0)
      then (Ok Reset, reset_device t) else (Ok NoOutcome, t)
    end else
  if (offset =? QUEUE_DESC_LOW) || (offset =? QUEUE_DESC_HIGH) then
    (update_addr Desc word (offset =? QUEUE_DESC_HIGH);;; st_ret NoOutcome)%st t else
  if (offset =? QUEUE_AVAIL_LOW) || (offset =? QUEUE_AVAIL_HIGH) then
    (update_addr Avail word (offset =? QUEUE_AVAIL_HIGH);;; st_ret NoOutcome)%st t else
  if (offset =? QUEUE_USED_LOW) || (offset =? QUEUE_USED_HIGH) then
    (update_addr Used word (offset =? QUEUE_USED_HIGH);;; st_ret NoOutcome)%st t else
  if CONFIG_BASE <=? offset then (Err ReadOnly, t) else (Err Unmapped, t)
  end.

(** ** Interrupts *)

Definition signal (bit : Z) (t : MmioTransport) : MmioTransport :=
  if Z.land (dev_status t) status.FAILED =? 0 then
    let t := set_interrupt_status (Z.lor (interrupt_status t) bit) t in
    if negb (Z.land (dev_status t) status.DRIVER_OK =? 0) then set_irq_level true t else t
  else t.

Definition take_irq (t : MmioTransport) : option bool * MmioTransport :=
  if irq_dirty t then (Some (irq_level t), set_irq (irq_level t) false t) else (None, t).

(** ** The invariant *)

(** A ring that is entirely inside the first [ram_size] bytes, away from
    address zero. *)
Definition ring_inside (ram_size : Z) (ring : Z * Z) : Prop :=
  0 < ring.1 ∧ ring.1 + ring.2 ≤ ram_size.

Record regs_ok (max ram : Z) (r : QueueRegs) : Prop := {
  ro_num : num r = 0 ∨ valid_queue_size max (num r) = true;
  ro_addrs : u64 (desc r) ∧ u64 (avail r) ∧ u64 (used r);
  ro_ready : ready r = true → num r ≠ 0 ∧ Forall (ring_inside ram) (rings r);
}.

(** The states the status handshake goes through, and a failed device. *)
Definition handshake : list Z := [0; 1; 3; 11; 15].
Definition good_status (s : Z) : Prop :=
  s ∈ handshake ∨ s ∈ (λ x, Z.lor x status.FAILED) <$> handshake.

Record wf (t : MmioTransport) : Prop := {
  wf_sel : 0 ≤ selected t < zlen (queues t);
  wf_fsel : feature_sel t = 0 ∨ feature_sel t = 1;
  wf_features : u64 (guest_features t) ∧ u64 (host_features t) ∧
    Z.land (guest_features t) (not64 (host_features t)) = 0;
  wf_status : good_status (dev_status t);
  wf_queues : Forall (regs_ok (queue_max t) (ram_size t)) (queues t);
  wf_irq : 0 ≤ interrupt_status t ∧
    (irq_level t = true → dev_status t = 15 ∧ interrupt_status t ≠ 0);
}.

(** What no operation changes. *)
Definition same_device (t t' : MmioTransport) : Prop :=
  ram_size t' = ram_size t ∧ device_id t' = device_id t ∧
  host_features t' = host_features t ∧ queue_max t' = queue_max t ∧
  length (queues t') = length (queues t).

#[global] Instance same_device_preorder : PreOrder same_device.
Proof.
  split; [by intros t|]. unfold same_device. intros a b c. intuition congruence.
Qed.

Lemma regs_ok_default max ram : regs_ok max ram default_regs.
Proof. split; [by left|by vm_compute|done]. Qed.

Lemma good_status_bound s : good_status s → 0 ≤ s < 256.
Proof.
  unfold good_status, handshake. intros H.
  destruct H as [H|H]; [|apply list_elem_of_fmap in H as (x & -> & H)];
    repeat (apply elem_of_cons in H as [->|H]); try (by apply elem_of_nil in H);
    vm_compute; intuition congruence.
Qed.

(** *** The status register *)

Ltac enum_list H :=
  repeat (apply elem_of_cons in H as [->|H]); [..|by apply elem_of_nil in H].

Lemma drive_status_good current written s :
  good_status current → drive_status current written = Ok s → good_status s.
Proof.
  intros Hc H. unfold drive_status in H.
  assert (good_status 0) as H0 by (left; left).
  destruct (written =? status.RESET) eqn:E0; simpl in H; breflect; [by simplify_eq|].
  destruct (written =? current) eqn:E1; simpl in H; breflect; [by simplify_eq|].
  destruct Hc as [Hc|Hc].
  - enum_list Hc; cbn in H; repeat case_match; simplify_eq; breflect; subst;
      apply (bool_decide_unpack _); vm_compute; exact I.
  - apply list_elem_of_fmap in Hc as (x & -> & Hx). enum_list Hx; cbn in H; done.
Qed.

Lemma drive_status_stays s written s' :
  drive_status s written = Ok s' → s = 15 → s' = 15 ∨ s' = 0 ∨ Z.land s' status.FAILED ≠ 0.
Proof.
  intros H ->. unfold drive_status in H.
  destruct (written =? status.RESET) eqn:E0; simpl in H; breflect; [simplify_eq; auto|].
  destruct (written =? 15) eqn:E1; simpl in H; breflect; [simplify_eq; auto|].
  destruct (_ =? 0) in H; simpl in H; [|done].
  destruct (_ =? 0) in H; simpl in H; [done|]. simplify_eq. by right; right.
Qed.
(** ** What a write does

    The effects an accepted register write can have, as a relation. It says
    nothing of offsets and widths: it is the transport seen by the device. *)

(** A change of the selected queue's registers. *)
Inductive regs_step (max ram : Z) (r : QueueRegs) : QueueRegs → Prop :=
| rs_num n :
    ready r = false → valid_queue_size max n = true →
    regs_step max ram r (mkRegs n (ready r) (desc r) (avail r) (used r))
| rs_disarm : regs_step max ram r (mkRegs (num r) false (desc r) (avail r) (used r))
| rs_arm :
    num r ≠ 0 → existsb (ring_outside ram) (rings r) = false →
    regs_step max ram r (mkRegs (num r) true (desc r) (avail r) (used r))
| rs_addr field v :
    ready r = false → (u64 (get_addr field r) → u64 v) →
    regs_step max ram r (put_addr field v r).

Inductive effect (t : MmioTransport) : WriteOutcome → MmioTransport → Prop :=
| eff_feature_sel v : v = 0 ∨ v = 1 → effect t NoOutcome (set_feature_sel v t)
| eff_features f :
    (u64 (guest_features t) → u64 f) → Z.land f (not64 (host_features t)) = 0 →
    effect t NoOutcome (set_guest_features f t)
| eff_select q : 0 ≤ q < zlen (queues t) → effect t NoOutcome (set_selected q t)
| eff_regs r r' :
    queues t !! Z.to_nat (selected t) = Some r →
    regs_step (queue_max t) (ram_size t) r r' →
    effect t NoOutcome (set_queues (<[Z.to_nat (selected t) := r']> (queues t)) t)
| eff_notify q r :
    u16 q → queues t !! Z.to_nat q = Some r → ready r = true → effect t (QueueNotify q) t
| eff_ack w :
    u32 w →
    let t1 := set_interrupt_status (Z.land (interrupt_status t) (not32 w)) t in
    effect t NoOutcome (if interrupt_status t1 =? 0 then set_irq_level false t1 else t1)
| eff_reset written s :
    drive_status (dev_status t) written = Ok s → (s = 0 ∨ Z.land s status.FAILED ≠ 0) →
    effect t Reset (reset_device (set_status s t))
| eff_status written s :
    drive_status (dev_status t) written = Ok s → s ≠ 0 → Z.land s status.FAILED = 0 →
    effect t NoOutcome (set_status s t).

Lemma selected_regs_mut_effect (f : QueueRegs → result MmioError QueueRegs) t out t' :
  (∀ r r', f r = Ok r' → queues t !! Z.to_nat (selected t) = Some r →
           regs_step (queue_max t) (ram_size t) r r') →
  (selected_regs_mut f;;; st_ret NoOutcome)%st t = (Ok out, t') → effect t out t'.
Proof.
  intros Hf. unfold st_bind, selected_regs_mut, st_ret.
  destruct (queues t !! _) as [r|] eqn:Hr; [|done].
  destruct (f r) as [r'|] eqn:Hfr; [|done]. intros [= <- <-]. eapply eff_regs; eauto.
Qed.

Lemma update_addr_effect field v high t out t' :
  u32 v → (update_addr field v high;;; st_ret NoOutcome)%st t = (Ok out, t') → effect t out t'.
Proof.
  intros Hv. apply selected_regs_mut_effect. intros r r' Hr _.
  destruct (ready r) eqn:Hready; [done|]. cbv zeta in Hr. simplify_eq. apply rs_addr; [done|]. intros Ha.
  assert (u64 v) by ilia. destruct high; auto with terra.
Qed.

Lemma guest_features_effect word t out t' :
  u32 word →
  match (if feature_sel t =? 0 then
           Ok (Z.lor (Z.land (guest_features t) 0xffffffff00000000) word)
         else if feature_sel t =? 1 then
           Ok (Z.lor (Z.land (guest_features t) U32_MAX) (Z.shiftl word 32))
         else Err BadFeatures) with
  | Err e => (Err e, t)
  | Ok features =>
    if negb (Z.land features (not64 (host_features t)) =? 0) then (Err BadFeatures, t)
    else (Ok NoOutcome, set_guest_features features t)
  end = (Ok out, t') → effect t out t'.
Proof.
  intros Hw H. assert (u64 word) by ilia.
  destruct (feature_sel t =? 0); [|destruct (feature_sel t =? 1); [|done]];
    (destruct (_ =? 0) eqn:Hz in H; [|done]); simplify_eq/=; breflect;
    apply eff_features; auto with terra.
Qed.

(** Every accepted write is one of the effects; the proof is the case
    analysis of the register decoder. *)
Lemma write_effect offset width value t out t' :
  0 ≤ value → write offset width value t = (Ok out, t') → effect t out t'.
Proof.
  intros Hval. unfold write. destruct (check offset width); [|done].
  case_match; [done|]. cbv zeta. pose proof (land_U32_bound value) as Hw.
  set (word := Z.land value U32_MAX) in *. clearbody word.
  destruct (_ || _) eqn:E1.
  { case_match; [done|]. intros [= <- <-]. apply eff_feature_sel. breflect. ilia. }
  destruct (offset =? GUEST_FEATURES) eqn:E2.
  { apply guest_features_effect; done. }
  destruct (offset =? QUEUE_SEL) eqn:E3.
  { case_match; [done|]. intros [= <- <-]. apply eff_select. breflect. ilia. }
  destruct (offset =? QUEUE_NUM) eqn:E4.
  { destruct (_ || _) eqn:E5 in |- *; [done|]. breflect. apply selected_regs_mut_effect.
    intros r r' [= <-] Hr. unfold selected_regs in *. rewrite Hr in *. by apply rs_num. }
  destruct (offset =? QUEUE_READY) eqn:E5.
  { destruct (word =? 0).
    { apply selected_regs_mut_effect. intros r r' [= <-] _. apply rs_disarm. }
    destruct (word =? 1); [|done]. apply selected_regs_mut_effect. intros r r' Hr _.
    destruct (_ || _) eqn:E6 in Hr; [done|]. simplify_eq. breflect. by apply rs_arm. }
  destruct (offset =? QUEUE_NOTIFY) eqn:E6.
  { unfold ring_bell. destruct (U16_MAX <? word) eqn:Hu; [done|]. rsimpl.
    destruct (queues t !! _) as [r|] eqn:Hr; [|done]. rsimpl.
    destruct (ready r) eqn:Hready; [|done]. intros [= <- <-]. breflect.
    eapply eff_notify; [ilia|done|done]. }
  destruct (offset =? INTERRUPT_ACK) eqn:E7.
  { intros [= <- <-]. by apply eff_ack. }
  destruct (_ && _) eqn:E8 in |- *.
  { destruct (drive_status _ _) as [s'|] eqn:Hs; [|done].
    destruct (_ || _) eqn:E9 in |- *; intros [= <- <-].
    - eapply eff_reset; [done|]. apply orb_true_iff in E9 as [?|?]; breflect; auto.
    - breflect. eapply eff_status; done. }
  repeat (case_match; [by apply update_addr_effect|]). by case_match.
Qed.

(** ** Preservation *)

Lemma rings_inside_test ram r :
  u64 (desc r) ∧ u64 (avail r) ∧ u64 (used r) →
  existsb (ring_outside ram) (rings r) = false → Forall (ring_inside ram) (rings r).
Proof.
  intros (Hd & Ha & Hu). unfold rings. cbn [existsb]. rewrite !orb_false_iff.
  assert (∀ a n, u64 a → ring_outside ram (a, n) = false → ring_inside ram (a, n)) as Hone.
  { intros a n Hua. unfold ring_outside, ring_inside; cbn [fst snd].
    rewrite orb_false_iff, Z.eqb_neq. intros [? Hc].
    destruct (checked_add64 a n) as [e|] eqn:He; [|done].
    apply checked_add64_Some in He as [-> _]. breflect. ilia. }
  intros (? & ? & ? & _). repeat constructor; by apply Hone.
Qed.

Lemma regs_step_ok max ram r r' :
  regs_ok max ram r → regs_step max ram r r' → regs_ok max ram r'.
Proof.
  intros [Hn Ha Hr] H. destruct H as [n Hready Hv| |Hnz Ho|field v Hready Hv].
  - split; simpl; [by right|done|]. by rewrite Hready.
  - by split.
  - split; [done|done|]. intros _. split; [done|]. by apply (rings_inside_test ram r).
  - destruct field; split; simpl in *; try rewrite Hready; try done; intuition.
Qed.

Lemma set_irq_level_fields level t :
  let t' := set_irq_level level t in
  irq_level t' = level ∧ selected t' = selected t ∧ queues t' = queues t ∧
  feature_sel t' = feature_sel t ∧ guest_features t' = guest_features t ∧
  dev_status t' = dev_status t ∧ interrupt_status t' = interrupt_status t ∧
  config t' = config t ∧ same_device t t'.
Proof.
  unfold set_irq_level. destruct (irq_level t) eqn:Hl, level; simpl; split_and!; done.
Qed.

Lemma wf_set_irq_level level t :
  wf (set_irq (irq_level t && level) (irq_dirty t) t) →
  (level = true → dev_status t = 15 ∧ interrupt_status t ≠ 0) → wf (set_irq_level level t).
Proof.
  intros [H1 H2 H3 H4 H5 H6] Hl.
  destruct (set_irq_level_fields level t) as
    (El & Es & Eq & Ef & Eg & Ed & Ei & _ & Sr & _ & Sh & Sq & _).
  split; rewrite ?Es, ?Eq, ?Ef, ?Eg, ?Ed, ?Ei, ?Sr, ?Sh, ?Sq, ?El; simpl in *; try done.
  split; [apply H6|done].
Qed.

Lemma effect_same_device t out t' : effect t out t' → same_device t t'.
Proof.
  destruct 1; try (unfold same_device; simpl; rewrite ?length_insert; done).
  - cbv zeta. destruct (_ =? 0); [|done].
    by destruct (set_irq_level_fields false t1) as (_ & _ & _ & _ & _ & _ & _ & _ & ?).
  - unfold reset_device. cbv zeta.
    match goal with |- same_device _ (set_irq_level _ ?u) =>
      destruct (set_irq_level_fields false u) as (_ & _ & _ & _ & _ & _ & _ & _ & Hs) end.
    unfold same_device in *. simpl in *. rewrite length_replicate in Hs. done.
Qed.

Lemma wf_reset t :
  wf t → ∀ s, good_status s → wf (reset_device (set_status s t)).
Proof.
  intros [H1 H2 H3 H4 H5 H6] s Hs. unfold reset_device. cbv zeta.
  apply wf_set_irq_level; [|done]. rewrite andb_false_r. unfold zlen in *.
  split; simpl; rewrite ?length_replicate; try done; try lia.
  - unfold zlen. rewrite length_replicate. lia.
  - split; [by vm_compute|]. split; [apply H3|done].
  - apply Forall_replicate, regs_ok_default.
Qed.

Lemma effect_wf t out t' : effect t out t' → wf t → wf t'.
Proof.
  intros He Hwf. pose proof Hwf as [H1 H2 H3 H4 H5 H6].
  destruct He as [v Hv|f Hf Hh|q Hq|r r' Hr Hs|q r Hq Hr Hready|w Hw t1|written s Hd Hs|written s Hd H0 Hs].
  - by split.
  - split; try done. simpl. split; [|split; [apply H3|done]]. apply Hf, H3.
  - by split.
  - assert (regs_ok (queue_max t) (ram_size t) r) as Hok by (by eapply Forall_lookup_1).
    split; simpl; unfold zlen in *; rewrite ?length_insert; try done.
    apply Forall_insert; [done|]. by eapply regs_step_ok.
  - done.
  - pose proof (land_le_l (interrupt_status t) (not32 w) ltac:(lia)) as Hl.
    destruct (_ =? 0) eqn:E0; breflect.
    + apply wf_set_irq_level; [|done]. rewrite andb_false_r. unfold t1 in *.
      split; simpl in *; try done; lia.
    + split; simpl in *; try done. split; [lia|]. intros Hlev.
      by destruct H6 as [_ H6], (H6 Hlev).
  - apply wf_reset; [done|]. by eapply drive_status_good.
  - assert (good_status s) by (by eapply drive_status_good).
    split; try done; simpl. split; [apply H6|]. intros Hlev.
    destruct H6 as [_ H6]. destruct (H6 Hlev) as [H15 Hi]. split; [|done].
    destruct (drive_status_stays _ _ _ Hd H15) as [?|[?|?]]; done.
Qed.

Lemma wf_signal bit t : 0 ≤ bit → bit ≠ 0 → wf t → wf (signal bit t).
Proof.
  intros Hb Hb0 Hwf. pose proof Hwf as [H1 H2 H3 H4 H5 [H6 H7]]. unfold signal.
  destruct (Z.land (dev_status t) status.FAILED =? 0) eqn:Hf; [|done]. cbv zeta.
  assert (0 ≤ Z.lor (interrupt_status t) bit ∧ Z.lor (interrupt_status t) bit ≠ 0) as [Hl Hl0].
  { split; [by apply Z.lor_nonneg|]. intros Hz. apply Z.lor_eq_0_iff in Hz. tauto. }
  assert (wf (set_interrupt_status (Z.lor (interrupt_status t) bit) t)) as Hw.
  { split; simpl; try done. split; [done|]. intros Hlev. by destruct (H7 Hlev). }
  destruct (_ =? 0) eqn:Hd in |- *; [done|]. apply wf_set_irq_level.
  - simpl. rewrite andb_true_r. destruct Hw as [? ? ? ? ? [? ?]]. by split.
  - intros _. simpl in *. split; [|done]. breflect.
    revert Hf Hd. clear -H4. generalize dependent (dev_status t). intros s Hs Hf Hd.
    destruct Hs as [Hs|Hs]; [|apply list_elem_of_fmap in Hs as (x & -> & Hs)];
      enum_list Hs; done.
Qed.

Lemma wf_take_irq t : wf t → wf (take_irq t).2.
Proof. intros [? ? ? ? ? ?]. unfold take_irq. case_match; [|done]. by split. Qed.
(** ** Runs of a device *)

(** What can happen to a transport: register writes by the guest (reads do
    not change it), and the device's own calls. *)
Inductive op :=
| OWrite (offset width value : Z)
| OSignal (bit : Z)
| OTakeIrq
| OConfig (index : nat) (byte : Z).

Definition op_ok (o : op) : Prop :=
  match o with
  | OWrite offset width value => u64 offset ∧ u8 width ∧ u64 value
  | OSignal bit => u32 bit ∧ bit ≠ 0
  | _ => True
  end.

#[global] Instance op_ok_dec o : Decision (op_ok o).
Proof. destruct o; unfold op_ok, u8, u32, u64; apply _. Defined.

Definition apply_op (t : MmioTransport) (o : op) : MmioTransport :=
  match o with
  | OWrite offset width value => (write offset width value t).2
  | OSignal bit => signal bit t
  | OTakeIrq => (take_irq t).2
  | OConfig i b => set_config (<[i := b]> (config t)) t
  end.

Definition run (ops : list op) (t : MmioTransport) : MmioTransport := foldl apply_op t ops.

Lemma write_error offset width value t e t' :
  write offset width value t = (Err e, t') → t' = t.
Proof.
  unfold write, st_bind, arm_queue, update_addr, selected_regs_mut, st_ret. intros H.
  repeat (case_match; simplify_eq/=; try done).
Qed.

Lemma signal_same_device bit t : same_device t (signal bit t).
Proof.
  unfold signal. destruct (_ =? 0); [|done]. cbv zeta.
  destruct (_ =? 0); [done|]. simpl.
  match goal with |- same_device _ (set_irq_level _ ?u) =>
    by destruct (set_irq_level_fields true u) as (_ & _ & _ & _ & _ & _ & _ & _ & ?) end.
Qed.

Lemma apply_op_ok o t : op_ok o → wf t → wf (apply_op t o) ∧ same_device t (apply_op t o).
Proof.
  intros Ho Hwf. destruct o as [offset width value|bit| |i b]; simpl in *.
  - destruct (write offset width value t) as [[out|e] t'] eqn:Hw; simpl.
    + apply write_effect in Hw; [|unfold_ints; lia].
      split; [by eapply effect_wf|by eapply effect_same_device].
    + apply write_error in Hw as ->. done.
  - split; [apply wf_signal; [ilia|tauto|done]|apply signal_same_device].
  - split; [by apply wf_take_irq|]. unfold take_irq. by case_match.
  - split; [|done]. destruct Hwf. by split.
Qed.

Lemma run_ok ops t : Forall op_ok ops → wf t → wf (run ops t) ∧ same_device t (run ops t).
Proof.
  intros Hops. revert t. induction Hops as [|o ops Ho _ IH]; intros t Hwf; [done|].
  destruct (apply_op_ok o t Ho Hwf) as [Hw Hs]. destruct (IH _ Hw) as [Hw' Hs'].
  split; [done|]. by etransitivity.
Qed.

(** A freshly built transport. *)
Definition fresh (ram id features max count : Z) (cfg : list Z) : MmioTransport :=
  with_queue_count count (new ram id features max cfg).

Lemma fresh_wf ram id features max count cfg :
  u64 features → wf (fresh ram id features max count cfg).
Proof.
  intros Hf. unfold fresh, with_queue_count, new. split; simpl.
  - unfold zlen. rewrite length_replicate. lia.
  - by left.
  - split; [by vm_compute|]. by split.
  - apply (bool_decide_unpack _). by vm_compute.
  - apply Forall_replicate, regs_ok_default.
  - done.
Qed.

(** C2. Whatever register writes, interrupts and configuration updates a
    device sees, in any order, the transport stays well formed: the selected
    queue exists, the guest's features are among the host's, the status is one
    the handshake reaches, every configured queue size is a valid power of
    two, every armed queue's rings lie inside guest RAM, and the interrupt
    line is high only when the driver is ready and a cause is pending. The
    identity of the device, its RAM bound and its number of queues never
    change. *)
Theorem transport_invariant ram id features max count cfg ops :
  u64 features → Forall op_ok ops →
  wf (run ops (fresh ram id features max count cfg)) ∧
  same_device (fresh ram id features max count cfg)
    (run ops (fresh ram id features max count cfg)).
Proof. intros Hf Hops. apply run_ok; [done|]. by apply fresh_wf. Qed.

Lemma transport_invariant_witness :
  wf (run [OWrite 0x70 1 1; OWrite 0x70 1 3; OSignal 1; OTakeIrq; OWrite 0x38 4 64]
        (fresh 0x10000 2 1 256 2 [])).
Proof.
  apply (transport_invariant 0x10000 2 1 256 2 []
    [OWrite 0x70 1 1; OWrite 0x70 1 3; OSignal 1; OTakeIrq; OWrite 0x38 4 64]).
  - by vm_compute.
  - repeat constructor; by vm_compute.
Defined.

(** A refused register write changes nothing: whatever the error, the
    transport is the one before the write. *)
Theorem refused_write_frame offset width value t e t' :
  write offset width value t = (Err e, t') → t' = t.
Proof. apply write_error. Qed.

Lemma refused_write_frame_witness :
  (write 0x44 4 1 (fresh 0x10000 2 1 256 2 [])).2 = fresh 0x10000 2 1 256 2 [].
Proof. apply (refused_write_frame 0x44 4 1 _ BadQueue). reflexivity. Defined.

Lemma wf_queue t q r :
  wf t → queues t !! q = Some r → regs_ok (queue_max t) (ram_size t) r.
Proof. intros [_ _ _ _ Hq _] Hr. by eapply Forall_lookup_1. Qed.

(** The device is only ever notified of a queue it can use: an accepted
    write that reports queue [q] leaves the state alone, and [q] is armed with
    a valid size and with its descriptor table and both rings inside RAM and
    away from address zero. *)
Theorem notify_only_armed offset width value t q t' :
  wf t → u64 value → write offset width value t = (Ok (QueueNotify q), t') →
  t' = t ∧ ∃ d a u n, queue_addrs_for q t = Some (d, a, u, n) ∧
    valid_queue_size (queue_max t) n = true ∧
    Forall (ring_inside (ram_size t)) [(d, n * 16); (a, 4 + n * 2); (u, 4 + n * 8)].
Proof.
  intros Hwf Hv Hw. apply write_effect in Hw; [|apply Hv].
  inversion Hw as [| | | |? r Hq Hr Hready| | |]; subst. split; [done|].
  destruct (wf_queue _ _ _ Hwf Hr) as [Hn _ Hin]. destruct (Hin Hready) as [Hn0 Hall].
  exists (desc r), (avail r), (used r), (num r). unfold queue_addrs_for. rewrite Hr. cbn.
  rewrite Hready. split; [done|]. split; [by destruct Hn|done].
Qed.

(** An armed queue keeps its rings: while it is armed, no accepted write
    changes a queue's addresses or size, except the ones that disarm it (a
    zero written to [QUEUE_READY] while it is selected, or a reset). *)
Theorem armed_queue_stable offset width value t out t' q rings :
  wf t → u64 value → 0 ≤ q → write offset width value t = (Ok out, t') →
  queue_addrs_for q t = Some rings →
  queue_addrs_for q t' = Some rings ∨
  (out = Reset ∧ queue_addrs_for q t' = None) ∨
  (selected t = q ∧ queue_addrs_for q t' = None).
Proof.
  intros Hwf Hv Hq Hw Hr. apply write_effect in Hw; [|apply Hv].
  unfold queue_addrs_for in *.
  destruct Hw as [| | |r r' Hsel Hs|? ? ? ? ?|w Hw t1|written s Hd Hs|]; try (by left).
  - simpl. destruct (decide (selected t = q)) as [<-|Hne].
    + rewrite Hsel in Hr. cbn in Hr. destruct (ready r) eqn:Hready; [|done]. simplify_eq.
      rewrite list_lookup_insert_eq by (by eapply lookup_lt_Some).
      destruct Hs; simpl in *; try congruence; [by right; right|by left].
    + left. rewrite list_lookup_insert_ne; [done|]. destruct (wf_sel _ Hwf). lia.
  - left. destruct (_ =? 0); [|done].
    destruct (set_irq_level_fields false t1) as (_ & _ & -> & _). done.
  - right; left. split; [done|]. unfold reset_device. cbv zeta.
    match goal with |- context [set_irq_level _ ?u] =>
      destruct (set_irq_level_fields false u) as (_ & _ & -> & _) end.
    simpl. destruct (replicate _ _ !! _) as [r|] eqn:Hl; [|done].
    by apply lookup_replicate in Hl as [-> _].
Qed.
(** *** A driver can always configure a queue *)

(** A sequence of 32-bit register writes. *)
Fixpoint write_all (ws : list (Z * Z)) : stM MmioTransport MmioError (list WriteOutcome) :=
  match ws with
  | [] => st_ret []
  | (offset, value) :: ws =>
    (out <- write offset 4 value;; outs <- write_all ws;; st_ret (out :: outs))%st
  end.

Lemma write_all_cons offset value ws t out t' :
  write offset 4 value t = (Ok out, t') →
  write_all ((offset, value) :: ws) t =
  (outs <- write_all ws;; st_ret (out :: outs))%st t'.
Proof. intros Hw. cbn [write_all]. unfold st_bind at 1. by rewrite Hw. Qed.

Section Configure.
Context (t : MmioTransport) (q : Z).
Hypothesis Hq : 0 ≤ q < zlen (queues t).
Hypothesis Hq16 : q ≤ U16_MAX.

(** The transport with queue [q] selected and its registers set to [r]. *)
Definition at_queue (r : QueueRegs) : MmioTransport :=
  set_queues (<[Z.to_nat q := r]> (queues t)) (set_selected q t).

Lemma at_queue_lookup r : queues (at_queue r) !! Z.to_nat q = Some r.
Proof. simpl. apply list_lookup_insert_eq. unfold zlen in Hq. lia. Qed.

Lemma at_queue_mut f r r' :
  f r = Ok r' → (selected_regs_mut f;;; st_ret NoOutcome)%st (at_queue r) =
                (Ok NoOutcome, at_queue r').
Proof.
  intros Hf. unfold st_bind, selected_regs_mut.
  change (selected (at_queue r)) with q. rewrite at_queue_lookup, Hf.
  unfold st_ret, at_queue, set_queues, set_selected. simpl. by rewrite list_insert_insert_eq.
Qed.

Lemma word_small v : 0 ≤ v ≤ U32_MAX → Z.land v U32_MAX = v.
Proof. intros. rewrite land_U32_MAX. apply Z.mod_small. ilia. Qed.

Lemma write_select r : queues t !! Z.to_nat q = Some r →
  write QUEUE_SEL 4 q t = (Ok NoOutcome, at_queue r).
Proof.
  intros Hr. unfold write. cbn -[Z.land]. rewrite word_small by ilia.
  destruct (_ <=? q) eqn:E1; [breflect; lia|].
  unfold at_queue. rewrite (list_insert_id (queues t)) by done. by destruct t.
Qed.

Lemma write_disarm r :
  write QUEUE_READY 4 0 (at_queue r) =
  (Ok NoOutcome, at_queue (mkRegs (num r) false (desc r) (avail r) (used r))).
Proof. exact (at_queue_mut _ r _ eq_refl). Qed.

Lemma write_num n r :
  ready r = false → valid_queue_size (queue_max t) n = true →
  write QUEUE_NUM 4 n (at_queue r) =
  (Ok NoOutcome, at_queue (mkRegs n false (desc r) (avail r) (used r))).
Proof.
  intros Hready Hv. assert (0 < n ≤ U16_MAX) as Hn.
  { unfold valid_queue_size, is_power_of_two, MAX_QUEUE_SIZE in Hv. breflect. ilia. }
  unfold write. cbn -[Z.land U16_MAX valid_queue_size selected_regs at_queue].
  rewrite word_small by ilia. unfold selected_regs. change (selected (at_queue r)) with q.
  rewrite at_queue_lookup. cbn -[U16_MAX valid_queue_size at_queue]. rewrite Hready.
  change (queue_max (at_queue r)) with (queue_max t). rewrite Hv.
  destruct (U16_MAX <? n) eqn:E1; [breflect; lia|]. apply at_queue_mut. by rewrite Hready.
Qed.

Lemma update_addr_at field v high r :
  ready r = false →
  (update_addr field v high;;; st_ret NoOutcome)%st (at_queue r) =
  (Ok NoOutcome, at_queue (put_addr field
     (if high then Z.lor (Z.land (get_addr field r) U32_MAX) (Z.shiftl v 32)
      else Z.lor (Z.land (get_addr field r) 0xffffffff00000000) v) r)).
Proof. intros Hready. apply at_queue_mut. by rewrite Hready. Qed.

Definition low_reg (field : ring_field) : Z :=
  match field with
  | Desc => QUEUE_DESC_LOW | Avail => QUEUE_AVAIL_LOW | Used => QUEUE_USED_LOW
  end.
Definition high_reg (field : ring_field) : Z :=
  match field with
  | Desc => QUEUE_DESC_HIGH | Avail => QUEUE_AVAIL_HIGH | Used => QUEUE_USED_HIGH
  end.

Lemma write_addr field v ws r :
  ready r = false → u64 v →
  write_all ((low_reg field, v) :: (high_reg field, Z.shiftr v 32) :: ws) (at_queue r) =
  (outs <- write_all ws;; st_ret (NoOutcome :: NoOutcome :: outs))%st
    (at_queue (put_addr field v r)).
Proof.
  intros Hready Hv.
  erewrite write_all_cons; [|by destruct field; apply (update_addr_at _ _ false)].
  unfold st_bind at 1. erewrite write_all_cons;
    [|by destruct field; apply (update_addr_at _ _ true); destruct r].
  assert (∀ old r, put_addr field (Z.lor (Z.land (get_addr field (put_addr field
    (Z.lor (Z.land old 0xffffffff00000000) (Z.land v U32_MAX)) r)) U32_MAX)
    (Z.shiftl (Z.land (Z.shiftr v 32) U32_MAX) 32)) (put_addr field
    (Z.lor (Z.land old 0xffffffff00000000) (Z.land v U32_MAX)) r) = put_addr field v r) as ->.
  { intros old r'. destruct field; simpl; by rewrite halves_u64. }
  unfold st_bind. by destruct (write_all ws _) as [[|] ?].
Qed.

Lemma write_arm r :
  num r ≠ 0 → existsb (ring_outside (ram_size t)) (rings r) = false →
  write QUEUE_READY 4 1 (at_queue r) =
  (Ok NoOutcome, at_queue (mkRegs (num r) true (desc r) (avail r) (used r))).
Proof.
  intros Hn Ho. apply at_queue_mut. cbn [ram_size at_queue]. apply Z.eqb_neq in Hn as ->.
  cbn [orb]. change (ram_size (at_queue r)) with (ram_size t). by rewrite Ho.
Qed.

Lemma write_notify r :
  ready r = true → write QUEUE_NOTIFY 4 q (at_queue r) = (Ok (QueueNotify q), at_queue r).
Proof.
  intros Hready. unfold write. cbn -[Z.land at_queue ring_bell]. rewrite word_small by ilia.
  unfold ring_bell. destruct (U16_MAX <? q) eqn:E1; [breflect; lia|].
  rewrite at_queue_lookup. rsimpl. by rewrite Hready.
Qed.
End Configure.

(** The driver's writes: select, disarm, size, three addresses, arm, notify. *)
Definition configure (q n d a u : Z) : list (Z * Z) :=
  [(QUEUE_SEL, q); (QUEUE_READY, 0); (QUEUE_NUM, n);
   (QUEUE_DESC_LOW, d); (QUEUE_DESC_HIGH, Z.shiftr d 32);
   (QUEUE_AVAIL_LOW, a); (QUEUE_AVAIL_HIGH, Z.shiftr a 32);
   (QUEUE_USED_LOW, u); (QUEUE_USED_HIGH, Z.shiftr u 32);
   (QUEUE_READY, 1); (QUEUE_NOTIFY, q)].

Lemma ring_inside_test ram a n :
  ram ≤ U64_MAX → ring_inside ram (a, n) → ring_outside ram (a, n) = false.
Proof.
  intros Hr [H1 H2]. unfold ring_outside. cbn [fst snd] in *.
  destruct (a =? 0) eqn:E1; [breflect; lia|]. simpl.
  rewrite (proj2 (checked_add64_Some a n (a + n))) by (split; [done|lia]). apply Z.ltb_ge. lia.
Qed.

(** A driver can always (re)configure a queue: in every well-formed
    state, selecting an existing queue, giving it a valid size and ring
    addresses inside RAM, arming it and ringing its doorbell succeeds at every
    write, ends in a notification of that queue, and leaves the queue armed at
    exactly those addresses; no other queue is touched. *)
Theorem driver_can_arm t q n d a u :
  wf t → 0 ≤ q < zlen (queues t) → q ≤ U16_MAX → ram_size t ≤ U64_MAX →
  valid_queue_size (queue_max t) n = true →
  u64 d → u64 a → u64 u →
  Forall (ring_inside (ram_size t)) [(d, n * 16); (a, 4 + n * 2); (u, 4 + n * 8)] →
  ∃ t', write_all (configure q n d a u) t =
          (Ok (replicate 10 NoOutcome ++ [QueueNotify q]), t') ∧
    queue_addrs_for q t' = Some (d, a, u, n) ∧
    ∀ p, 0 ≤ p → p ≠ q → queue_addrs_for p t' = queue_addrs_for p t.
Proof.
  intros Hwf Hq Hq16 Hram Hn Hd Ha Hu Hin.
  destruct (lookup_lt_is_Some_2 (queues t) (Z.to_nat q)) as [r Hr]; [unfold zlen in Hq; lia|].
  assert (n ≠ 0) as Hn0.
  { unfold valid_queue_size in Hn. breflect. done. }
  exists (at_queue t q (mkRegs n true d a u)). split; [|split].
  - unfold configure.
    erewrite write_all_cons by (by apply write_select). unfold st_bind at 1.
    erewrite write_all_cons by (by apply write_disarm). unfold st_bind at 1.
    erewrite write_all_cons by (by apply write_num). unfold st_bind at 1.
    rewrite (write_addr t q Hq Desc) by done. unfold st_bind at 1.
    rewrite (write_addr t q Hq Avail) by done. unfold st_bind at 1.
    rewrite (write_addr t q Hq Used) by done. unfold st_bind at 1.
    erewrite write_all_cons; [|apply write_arm; [done|done|]].
    2:{ unfold rings. cbn [existsb num desc avail used put_addr].
        inversion_clear Hin as [|? ? H1 Hin']. inversion_clear Hin' as [|? ? H2 Hin].
        inversion_clear Hin as [|? ? H3 _]. unfold SPLIT_RING_DESCRIPTOR_BYTES.
        by rewrite !ring_inside_test. }
    unfold st_bind at 1. erewrite write_all_cons by (by apply write_notify). done.
  - unfold queue_addrs_for. by rewrite at_queue_lookup.
  - intros p Hp Hpq. unfold queue_addrs_for, at_queue. simpl.
    rewrite list_lookup_insert_ne by lia. done.
Qed.
(** *** The interrupt line as its observer sees it *)

(** The runtime polls [take_irq] and publishes what it returns; [seen] is the
    last level it published. *)
Definition watch (s : MmioTransport * bool) (o : op) : MmioTransport * bool :=
  (apply_op s.1 o,
   match o with
   | OTakeIrq => default s.2 (take_irq s.1).1
   | _ => s.2
   end).

Definition line_tracked (s : MmioTransport * bool) : Prop :=
  irq_dirty s.1 = false → s.2 = irq_level s.1.

Lemma set_irq_level_tracked level t seen :
  line_tracked (t, seen) → line_tracked (set_irq_level level t, seen).
Proof.
  unfold line_tracked, set_irq_level; simpl. intros H.
  destruct (irq_level t) eqn:Hl, level; simpl; rewrite ?Hl; done.
Qed.

Lemma effect_tracked t out t' seen :
  effect t out t' → line_tracked (t, seen) → line_tracked (t', seen).
Proof.
  destruct 1; try done.
  - intros H'. destruct (_ =? 0); [|done]. by apply set_irq_level_tracked.
  - intros H'. by apply set_irq_level_tracked.
Qed.

Lemma watch_tracked s o : op_ok o → line_tracked s → line_tracked (watch s o).
Proof.
  destruct s as [t seen]. intros Ho Ht. destruct o as [offset width value|bit| |i b]; simpl in *.
  - unfold watch; simpl.
    destruct (write offset width value t) as [[out|e] t'] eqn:Hw; simpl.
    + eapply effect_tracked; [|exact Ht]. eapply write_effect; [|exact Hw]. unfold_ints. lia.
    + by apply write_error in Hw as ->.
  - unfold watch; cbn [fst snd apply_op]. unfold signal. case_match; [|done].
    case_match; [|done]. by apply set_irq_level_tracked.
  - unfold watch; cbn [fst snd apply_op]. unfold take_irq.
    destruct (irq_dirty t) eqn:Hd; cbn [fst snd default from_option]; [done|exact Ht].
  - done.
Qed.

(** The interrupt line is never reported stale: after any sequence of
    accesses and [take_irq] polls, one more poll leaves the last reported
    level equal to the device's actual level, so no edge is lost however many
    changes happened between two polls. *)
Theorem irq_reports_level ram id features max count cfg ops :
  Forall op_ok ops →
  let s := foldl watch (fresh ram id features max count cfg, false) (ops ++ [OTakeIrq]) in
  s.2 = irq_level s.1.
Proof.
  intros Hops. cbv zeta. rewrite foldl_app. set (s := foldl watch _ ops).
  assert (line_tracked s) as Hs.
  { unfold s. clear s. assert (line_tracked (fresh ram id features max count cfg, false)) as H0
      by done. revert H0. generalize (fresh ram id features max count cfg, false).
    induction Hops as [|o ops Ho _ IH]; intros s Hs; [done|]. by apply IH, watch_tracked. }
  simpl. unfold take_irq. destruct (irq_dirty s.1) eqn:Hd; simpl; [done|]. by apply Hs.
Qed.

(** A device mid-run: driver ready, queue 0 armed, an interrupt raised. *)
Definition sample_ops : list op :=
  [OWrite 0x70 1 1; OWrite 0x70 1 3; OWrite 0x70 1 11] ++
  ((λ w, OWrite w.1 4 w.2) <$> take 10 (configure 0 64 0x1000 0x2000 0x3000)) ++
  [OWrite 0x70 1 15; OSignal INT_USED_BUFFER].
Definition sample_device : MmioTransport := run sample_ops (fresh 0x10000 2 1 256 2 []).

Lemma sample_ops_ok : Forall op_ok sample_ops.
Proof. apply (bool_decide_unpack _). by vm_compute. Qed.

Lemma sample_wf : wf sample_device.
Proof. apply run_ok; [apply sample_ops_ok|]. apply fresh_wf. by vm_compute. Qed.

Lemma irq_reports_level_witness :
  let s := foldl watch (fresh 0x10000 2 1 256 2 [], false) (sample_ops ++ [OTakeIrq]) in
  s.2 = true ∧ irq_level s.1 = true.
Proof.
  pose proof (irq_reports_level 0x10000 2 1 256 2 [] sample_ops sample_ops_ok) as H.
  cbv zeta in *. rewrite H. split; vm_compute; reflexivity.
Defined.

Lemma notify_only_armed_witness :
  ∃ d a u n, queue_addrs_for 0 sample_device = Some (d, a, u, n) ∧
    Forall (ring_inside 0x10000) [(d, n * 16); (a, 4 + n * 2); (u, 4 + n * 8)].
Proof.
  destruct (notify_only_armed 0x50 4 0 sample_device 0 sample_device)
    as (_ & d & a & u & n & H & _ & Hf).
  - exact sample_wf.
  - by vm_compute.
  - vm_compute. reflexivity.
  - exists d, a, u, n. split; [exact H|exact Hf].
Defined.

Lemma armed_queue_stable_witness :
  queue_addrs_for 0 (write 0x30 4 1 sample_device).2 = Some (0x1000, 0x2000, 0x3000, 64).
Proof.
  destruct (armed_queue_stable 0x30 4 1 sample_device NoOutcome (write 0x30 4 1 sample_device).2
    0 (0x1000, 0x2000, 0x3000, 64)) as [H|[[H _]|[_ H]]].
  - exact sample_wf.
  - by vm_compute.
  - lia.
  - vm_compute. reflexivity.
  - vm_compute. reflexivity.
  - exact H.
  - discriminate H.
  - vm_compute in H. discriminate H.
Defined.

Lemma driver_can_arm_witness :
  ∃ t', (write_all (configure 1 128 0x1000 0x3000 0x5000) sample_device).2 = t' ∧
    queue_addrs_for 1 t' = Some (0x1000, 0x3000, 0x5000, 128).
Proof.
  destruct (driver_can_arm sample_device 1 128 0x1000 0x3000 0x5000) as (t' & H & Hq & _).
  - exact sample_wf.
  - vm_compute. split; congruence.
  - by vm_compute.
  - by vm_compute.
  - by vm_compute.
  - by vm_compute.
  - by vm_compute.
  - by vm_compute.
  - repeat (apply Forall_cons; split; [by vm_compute|]). apply Forall_nil_2.
  - exists t'. rewrite H. split; [reflexivity|exact Hq].
Defined.

(** *** The status handshake *)

(** The one bit a driver may raise next. *)
Definition handshake_next (current : Z) : option Z :=
  match current with
  | 0 => Some 1 | 1 => Some 3 | 3 => Some 11 | 11 => Some 15 | _ => None
  end.

Definition status_spec (current written : Z) : result MmioError Z :=
  if bool_decide (written = 0 ∨ written = current) then Ok written else
  if Z.testbit current 7 || Z.testbit written 6 then Err BadStatus else
  if Z.testbit written 7 then Ok (Z.lor current 128) else
  if bool_decide (handshake_next current = Some written) then Ok written else Err BadStatus.

Definition statuses : list Z := handshake ++ ((λ x, Z.lor x status.FAILED) <$> handshake).

(** The status register follows the virtio handshake. In every status a
    device can be in, a write is accepted exactly when it is a reset, repeats
    the current status, or, on a device that has not failed and without
    DEVICE_NEEDS_RESET, reports a failure or takes the next step, ACKNOWLEDGE,
    DRIVER, FEATURES_OK, DRIVER_OK, one bit at a time. *)
Theorem status_handshake current written :
  good_status current → u8 written →
  drive_status current written = status_spec current written.
Proof.
  intros Hc Hw.
  assert (Forall (λ c, Forall (λ w, drive_status c w = status_spec c w) (seqZ 0 256)) statuses)
    as Hall by (apply (bool_decide_unpack _); by vm_compute).
  rewrite Forall_forall in Hall. specialize (Hall current ltac:(by apply elem_of_app)).
  rewrite Forall_forall in Hall. apply Hall, elem_of_seqZ. exact Hw.
Qed.

Lemma status_handshake_witness : drive_status 11 15 = Ok 15 ∧ drive_status 3 15 = Err BadStatus.
Proof.
  split; rewrite status_handshake;
    first [reflexivity | apply (bool_decide_unpack _); vm_compute; exact I | by vm_compute].
Defined.
End Transport.
