(* ===== verification/Doorbell.v ===== *)
(** * The doorbell between a device's register file and its worker task

    [components/device-transport/src/lib.rs], [Doorbell]: work bits and a
    closed flag, updated by any number of ringers and consumed by one waiting
    task. [futures::task::AtomicWaker] is outside the repository: it is the
    class [AtomicWaker], with the one law its documentation gives, that
    [wake] notifies the waker last passed to [register].

    The first part translates each method; the second runs the methods'
    atomic actions interleaved, because the order of [register] and [take] in
    [poll_wait] is what makes the doorbell correct. *)

From stdpp Require Import relations.
From S2P Require Import Prelude.
Local Open Scope Z_scope.

Class AtomicWaker (W : Type) := {
  aw_new : W;
  (** Store the waiting task's waker. *)
  aw_register : W → W;
  (** Take the stored waker and wake it: whether a task was notified. *)
  aw_wake : W → W * bool;
  aw_armed : W → Prop;
  aw_register_armed w : aw_armed (aw_register w);
  aw_wake_armed w : aw_armed w → (aw_wake w).2 = true;
}.

(** The waker slot as a flag. *)
#[export] Instance flag_waker : AtomicWaker bool.
Proof.
  refine {| aw_new := false; aw_register _ := true; aw_wake w := (false, w);
            aw_armed w := w = true |}; [done|by intros ? ->].
Defined.

Module Doorbell.
Section Methods.
Context {W : Type} `{!AtomicWaker W}.

Record t := mk { bits : Z; closed : bool; waker : W }.

Definition new : t := mk 0 false aw_new.

(** The atomic actions. *)
Definition fetch_or (b : Z) (d : t) : t := mk (Z.lor (bits d) b) (closed d) (waker d).
Definition swap_closed (d : t) : bool * t := (closed d, mk (bits d) true (waker d)).
Definition wake (d : t) : t * bool :=
  let (w, woken) := aw_wake (waker d) in (mk (bits d) (closed d) w, woken).

(** [ring]: whether the waiting task was notified, beside the new state. *)
Definition ring (b : Z) (d : t) : t * bool := wake (fetch_or b d).

Definition close (d : t) : bool * (t * bool) :=
  let (was_closed, d) := swap_closed d in (was_closed, wake d).

Definition is_closed (d : t) : bool := closed d.

Definition clear (d : t) : t := mk 0 (closed d) (waker d).

Definition reset (d : t) : t :=
  let d := clear d in mk (bits d) false (waker d).

Definition take (d : t) : Z * t := (bits d, mk 0 (closed d) (waker d)).

Definition register (d : t) : t := mk (bits d) (closed d) (aw_register (waker d)).

(** [Some bits] for [Poll::Ready(bits)]. *)
Definition poll_wait (d : t) : option Z * t :=
  let d := register d in
  let (b, d) := take d in
  if negb (b =? 0) || is_closed d then (Some b, d) else (None, d).
End Methods.
Arguments t W : clear implicits.

(** ** Interleavings *)
Section Concurrent.
Context {W : Type} `{!AtomicWaker W}.

(** Where the waiting task is inside [poll_wait]; [Ready b] is a completed
    [wait]. *)
Inductive waiter := Polling | Registered | Took (b : Z) | Parked | Ready (b : Z).

Record world := mkWorld {
  bell : t W;
  task : waiter;
  notified : bool;      (* the executor will poll the task again *)
  in_flight : nat;      (* ringers between their update and their [wake] *)
  rung : Z;             (* every bit ever rung *)
  taken : Z;            (* every bit handed to the task *)
  dropped : Z;          (* every bit discarded by [clear] or [reset] *)
}.

Inductive step : world → world → Prop :=
| s_ring b d k n i r ta dr : u32 b →
    step (mkWorld d k n i r ta dr) (mkWorld (fetch_or b d) k n (S i) (Z.lor r b) ta dr)
| s_close d k n i r ta dr :
    step (mkWorld d k n i r ta dr) (mkWorld (swap_closed d).2 k n (S i) r ta dr)
| s_wake d k n i r ta dr :
    step (mkWorld d k n (S i) r ta dr)
         (mkWorld (wake d).1 k (n || (wake d).2) i r ta dr)
| s_clear d k n i r ta dr :
    step (mkWorld d k n i r ta dr) (mkWorld (clear d) k n i r ta (Z.lor dr (bits d)))
| s_reset d k n i r ta dr :
    step (mkWorld d k n i r ta dr) (mkWorld (reset d) k n i r ta (Z.lor dr (bits d)))
| s_register d n i r ta dr :
    step (mkWorld d Polling n i r ta dr) (mkWorld (register d) Registered n i r ta dr)
| s_take d n i r ta dr :
    step (mkWorld d Registered n i r ta dr)
         (mkWorld (take d).2 (Took (take d).1) n i r (Z.lor ta (take d).1) dr)
| s_decide b d n i r ta dr :
    step (mkWorld d (Took b) n i r ta dr)
         (mkWorld d (if negb (b =? 0) || is_closed d then Ready b else Parked) n i r ta dr)
| s_again b d n i r ta dr :
    step (mkWorld d (Ready b) n i r ta dr) (mkWorld d Polling n i r ta dr)
| s_resume d i r ta dr :
    step (mkWorld d Parked true i r ta dr) (mkWorld d Polling false i r ta dr).

Definition start : world := mkWorld new Polling false 0 0 0 0.

Definition work (d : t W) : Prop := bits d ≠ 0 ∨ closed d = true.

(** The wake-up that is owed is on its way. *)
Definition owed (w : world) : Prop := notified w = true ∨ (0 < in_flight w)%nat.

Record inv (w : world) : Prop := {
  inv_armed : match task w with
              | Registered | Took _ | Parked => aw_armed (waker (bell w)) ∨ notified w = true
              | _ => True
              end;
  inv_took : match task w with
             | Took b => bits (bell w) ≠ 0 → owed w
             | Parked => work (bell w) → owed w
             | _ => True
             end;
  inv_bits : Z.lor (Z.lor (taken w) (dropped w)) (bits (bell w)) = rung w;
}.

Lemma inv_start : inv start.
Proof. by split. Qed.

Lemma wake_bell d : bits (wake d).1 = bits d ∧ closed (wake d).1 = closed d ∧
  (aw_armed (waker d) → (wake d).2 = true).
Proof.
  unfold wake. pose proof (aw_wake_armed (waker d)). by destruct (aw_wake (waker d)).
Qed.

Lemma inv_wake w d k n i r ta dr :
  w = mkWorld d k n (S i) r ta dr → inv w →
  inv (mkWorld (wake d).1 k (n || (wake d).2) i r ta dr).
Proof.
  intros -> [Ha Ht Hb]; simpl in *. destruct (wake_bell d) as (Eb & Ec & Ew).
  assert (match k with Registered | Took _ | Parked => n || (wake d).2 = true | _ => True end).
  { destruct k; try done; destruct Ha as [Ha| ->]; try done; rewrite (Ew Ha); apply orb_true_r. }
  split; simpl; [by destruct k; auto| |by rewrite Eb].
  unfold owed; simpl. destruct k; auto.
Qed.

Lemma inv_step w w' : step w w' → inv w → inv w'.
Proof.
  intros Hs Hi. pose proof Hi as [Ha Ht Hb].
  destruct Hs as [b d k n i r ta dr Hu|d k n i r ta dr|d k n i r ta dr|d k n i r ta dr
    |d k n i r ta dr|d n i r ta dr|d n i r ta dr|b d n i r ta dr|b d n i r ta dr|d i r ta dr];
    simpl in *.
  - split; simpl; [done|unfold owed; simpl; destruct k; auto with lia|].
    by rewrite <- Hb, !Z.lor_assoc.
  - split; simpl; [done|unfold owed; simpl; destruct k; auto with lia|done].
  - by eapply inv_wake.
  - split; [done|destruct k; try done; [by intros []|intros [?|?]; [done|apply Ht; by right]]|].
    cbn [bell taken dropped rung bits clear reset]. by rewrite <- Hb, Z.lor_0_r, !Z.lor_assoc.
  - split; [done|destruct k; try done; [by intros []|by intros [?|?]]|].
    cbn [bell taken dropped rung bits clear reset]. by rewrite <- Hb, Z.lor_0_r, !Z.lor_assoc.
  - split; simpl; [left; apply aw_register_armed|done|done].
  - split; [exact Ha|by intros []|]. cbn [bell taken dropped rung bits take fst snd].
    rewrite <- Hb, Z.lor_0_r, <- !Z.lor_assoc. f_equal. apply Z.lor_comm.
  - destruct (b =? 0) eqn:E0, (is_closed d) eqn:Ec; simpl; split; simpl; auto.
    intros [?|?]; [by apply Ht|]. unfold is_closed in Ec. congruence.
  - by split.
  - by split.
Qed.

Lemma inv_reachable w : rtc step start w → inv w.
Proof.
  assert (∀ v, rtc step v w → inv v → inv w) as H.
  { intros v Hr. induction Hr; eauto using inv_step. }
  intros Hr. apply (H start Hr), inv_start.
Qed.

(** C32. No wake-up is lost. However the atomic actions of ringers, closers
    and the waiting task interleave, a task that is parked while work bits
    are set or the doorbell is closed has been notified, or a ringer that
    has not finished yet is about to notify it; so the task polls again
    within two steps. *)
Theorem no_lost_wakeup w :
  rtc step start w → task w = Parked → work (bell w) →
  notified w = true ∨
  ∃ w', step w w' ∧ task w' = Parked ∧ notified w' = true.
Proof.
  intros Hr Hk Hw. destruct (inv_reachable w Hr) as [Ha Ht _].
  destruct w as [d k n i r ta dr]; simpl in *. subst k.
  destruct (Ht Hw) as [Hn|Hi]; [by left|]. simpl in Hi. destruct i as [|i]; [lia|].
  destruct Ha as [Ha|Hn]; [|by left]. right.
  eexists. split; [apply s_wake|]. split; [done|]. simpl.
  destruct (wake_bell d) as (_ & _ & Hwake). rewrite (Hwake Ha). apply orb_true_r.
Qed.

(** No work bit is lost or made up: at every moment the bits ever rung
    are exactly those handed to the task, those discarded by [clear] or
    [reset], and those still set. *)
Theorem bits_conserved w :
  rtc step start w → rung w = Z.lor (Z.lor (taken w) (dropped w)) (bits (bell w)).
Proof. intros Hr. by destruct (inv_reachable w Hr) as [_ _ <-]. Qed.
End Concurrent.

(** A ring between [register] and [take], and one while the task is parked. *)
Definition parked_world : world (W := bool) :=
  mkWorld (mk 4 false true) Parked false 1 4 0 0.

Lemma parked_reachable : rtc step start parked_world.
Proof.
  eapply rtc_l; [apply s_register|]. eapply rtc_l; [apply s_take|].
  eapply rtc_l; [apply s_decide|]. eapply rtc_l; [apply (s_ring 4); by vm_compute|].
  apply rtc_refl.
Qed.

Lemma no_lost_wakeup_witness :
  ∃ w', step parked_world w' ∧ task w' = Parked ∧ notified w' = true.
Proof.
  destruct (no_lost_wakeup parked_world) as [H|H].
  - exact parked_reachable.
  - reflexivity.
  - left. discriminate.
  - discriminate H.
  - exact H.
Defined.

Lemma bits_conserved_witness : rung parked_world = 4 ∧ bits (bell parked_world) = 4.
Proof.
  split; [|reflexivity]. rewrite (bits_conserved parked_world); [reflexivity|].
  exact parked_reachable.
Defined.
End Doorbell.
