(* ===== verification/VsockPacket.v ===== *)
(** * Virtio-vsock packets

    [components/vsock-device/src/packet.rs], the 44-byte header, and the
    constants of [crates/terra-protocol/src/vsock.rs]. *)

From S2P Require Import Prelude.
Local Open Scope Z_scope.

(** ** Endpoint classes and budgets *)

Definition HOST_CID : Z := 2.
Definition GUEST_CID : Z := 3.
Definition AGENT_PORT : Z := 6000.
Definition CONTROL_PORT : Z := 6001.
Definition TCP_PORT : Z := 6002.
Definition UDP_PORT : Z := 6003.
Definition PUBLICATION_PORT : Z := 6004.
(** [PUBLICATION_HOST_PORTS], a half-open range. *)
Definition PUBLICATION_HOST_PORTS : Z * Z := (0x00100000, 0x00200000).
Definition MAX_NETWORK_SOCKETS : Z := 1024.
Definition MAX_PACKET_DATA_BYTES : Z := 64 * 1024.
Definition AGENT_UPSTREAM_BYTES : Z := 64 * 1024.
Definition AGENT_REPLY_BYTES : Z := 256 * 1024.
Definition CONTROL_UPSTREAM_BYTES : Z := 32 * 1024.
Definition CONTROL_REPLY_BYTES : Z := 128 * 1024.
Definition FLOW_UPSTREAM_BYTES : Z := 64 * 1024.
Definition FLOW_REPLY_BYTES : Z := 80 * 1024.
Definition MAX_FLOW_UPSTREAM_BYTES : Z := MAX_NETWORK_SOCKETS * FLOW_UPSTREAM_BYTES.
Definition MAX_FLOW_REPLY_BYTES : Z := MAX_NETWORK_SOCKETS * FLOW_REPLY_BYTES.
Definition MAX_QUEUED_REPLY_BYTES : Z :=
  AGENT_REPLY_BYTES + CONTROL_REPLY_BYTES + MAX_FLOW_REPLY_BYTES.

Definition is_flow_guest_port (port : Z) : bool :=
  negb (port =? 0) && negb (port =? AGENT_PORT) && negb (port =? CONTROL_PORT) &&
  negb (port =? PUBLICATION_PORT).

(** ** The header *)

Definition VSOCK_HEADER_BYTES : Z := 44.

Record VsockHeader := mkHeader {
  src_cid : Z;
  dst_cid : Z;
  src_port : Z;
  dst_port : Z;
  hlen : Z;
  type_ : Z;
  op : Z;
  flags : Z;
  buf_alloc : Z;
  fwd_cnt : Z;
}.

#[export] Instance VsockHeader_eq_dec : EqDecision VsockHeader.
Proof. solve_decision. Defined.

(** [le::<N>(bytes, offset)] *)
Definition le (n : nat) (bs : list Z) (offset : nat) : list Z := take n (drop offset bs).

Definition parse (bs : list Z) : option (VsockHeader * list Z) :=
  if zlen bs <? VSOCK_HEADER_BYTES then None else
  Some (mkHeader (from_le (le 8 bs 0)) (from_le (le 8 bs 8)) (from_le (le 4 bs 16))
          (from_le (le 4 bs 20)) (from_le (le 4 bs 24)) (from_le (le 2 bs 28))
          (from_le (le 2 bs 30)) (from_le (le 4 bs 32)) (from_le (le 4 bs 36))
          (from_le (le 4 bs 40)),
        drop 44 bs).

Definition encode (h : VsockHeader) : list Z :=
  le_bytes 8 (src_cid h) ++ le_bytes 8 (dst_cid h) ++ le_bytes 4 (src_port h) ++
  le_bytes 4 (dst_port h) ++ le_bytes 4 (hlen h) ++ le_bytes 2 (type_ h) ++
  le_bytes 2 (op h) ++ le_bytes 4 (flags h) ++ le_bytes 4 (buf_alloc h) ++
  le_bytes 4 (fwd_cnt h).

(** Fields at their widths. *)
Definition header_ok (h : VsockHeader) : Prop :=
  u64 (src_cid h) ∧ u64 (dst_cid h) ∧ u32 (src_port h) ∧ u32 (dst_port h) ∧
  u32 (hlen h) ∧ u16 (type_ h) ∧ u16 (op h) ∧ u32 (flags h) ∧ u32 (buf_alloc h) ∧
  u32 (fwd_cnt h).

(** ** Properties *)

Lemma le_app_here n a b : length a = n → le n (a ++ b) 0 = a.
Proof. intros <-. unfold le. rewrite drop_0. apply take_app_length. Qed.

Lemma le_app_skip n k a b : (length a ≤ k)%nat → le n (a ++ b) k = le n b (k - length a).
Proof. intros H. unfold le. by rewrite drop_app_ge. Qed.

Lemma encode_length h : length (encode h) = 44%nat.
Proof. unfold encode. by rewrite !length_app, !le_bytes_length. Qed.

(** Read a field back through the concatenation. *)
Ltac read_field :=
  repeat (rewrite le_app_skip by (rewrite le_bytes_length; lia);
          rewrite ?le_bytes_length; cbn [Nat.sub]);
  rewrite le_app_here by apply le_bytes_length;
  apply from_le_le_bytes; ilia.

Lemma parse_encode h rest : header_ok h → parse (encode h ++ rest) = Some (h, rest).
Proof.
  intros (H1 & H2 & H3 & H4 & H5 & H6 & H7 & H8 & H9 & H10). unfold parse.
  destruct (_ <? _) eqn:E.
  { breflect. rewrite zlen_app in E. unfold zlen at 1 in E. rewrite encode_length in E.
    pose proof (zlen_nonneg rest). unfold VSOCK_HEADER_BYTES in E. lia. }
  rewrite (drop_app_length' (encode h) rest 44) by (by rewrite encode_length).
  unfold encode. rewrite <- !app_assoc. destruct h as [a b c d e f g i j k].
  cbn [src_cid dst_cid src_port dst_port hlen type_ op flags buf_alloc fwd_cnt] in *.
  apply f_equal, (f_equal2 pair); [|done]. f_equal; read_field.
Qed.

Lemma le_length n bs k : (k + n ≤ length bs)%nat → length (le n bs k) = n.
Proof. intros. unfold le. rewrite length_take, length_drop. lia. Qed.

Lemma le_bytes_le n bs k :
  bytes bs → (k + n ≤ length bs)%nat → le_bytes n (from_le (le n bs k)) = le n bs k.
Proof.
  intros Hb Hl. rewrite <- (le_length n bs k) at 1 by done. apply le_bytes_from_le.
  by apply Forall_take, Forall_drop.
Qed.

Lemma le_drop n bs k : le n bs k ++ drop (k + n) bs = drop k bs.
Proof. unfold le. by rewrite <- drop_drop, take_drop. Qed.

Lemma from_le_le n bs k : bytes bs → (k + n ≤ length bs)%nat →
  0 ≤ from_le (le n bs k) < 256 ^ Z.of_nat n.
Proof.
  intros Hb Hl. pose proof (from_le_bound (le n bs k)) as H. unfold zlen in H.
  rewrite le_length in H by done. apply H. by apply Forall_take, Forall_drop.
Qed.

Lemma parse_inv bs h rest :
  bytes bs → parse bs = Some (h, rest) → header_ok h ∧ encode h ++ rest = bs.
Proof.
  intros Hb. unfold parse. destruct (_ <? _) eqn:E; [done|]. breflect. intros [= <- <-].
  unfold zlen, VSOCK_HEADER_BYTES in E. split.
  - unfold header_ok; cbn [src_cid dst_cid src_port dst_port hlen type_ op flags buf_alloc fwd_cnt].
    split_and!; match goal with |- _ (from_le (le ?n _ ?k)) =>
      pose proof (from_le_le n bs k Hb ltac:(lia)); ilia end.
  - unfold encode; cbn [src_cid dst_cid src_port dst_port hlen type_ op flags buf_alloc fwd_cnt].
    rewrite !le_bytes_le by (done || lia). rewrite <- !app_assoc.
    change 44%nat with (40 + 4)%nat. rewrite (le_drop 4 bs 40).
    rewrite (le_drop 4 bs 36 : le 4 bs 36 ++ drop 40 bs = _).
    rewrite (le_drop 4 bs 32 : le 4 bs 32 ++ drop 36 bs = _).
    rewrite (le_drop 2 bs 30 : le 2 bs 30 ++ drop 32 bs = _).
    rewrite (le_drop 2 bs 28 : le 2 bs 28 ++ drop 30 bs = _).
    rewrite (le_drop 4 bs 24 : le 4 bs 24 ++ drop 28 bs = _).
    rewrite (le_drop 4 bs 20 : le 4 bs 20 ++ drop 24 bs = _).
    rewrite (le_drop 4 bs 16 : le 4 bs 16 ++ drop 20 bs = _).
    rewrite (le_drop 8 bs 8 : le 8 bs 8 ++ drop 16 bs = _).
    rewrite (le_drop 8 bs 0 : le 8 bs 0 ++ drop 8 bs = _). apply drop_0.
Qed.

(** The vsock header codec is exact: a packet parses to a header and a
    payload if and only if it is the encoding of that header followed by that
    payload, with every field at its width. *)
Theorem header_roundtrip bs h rest :
  bytes bs → (parse bs = Some (h, rest) ↔ header_ok h ∧ bs = encode h ++ rest).
Proof.
  intros Hb. split.
  - intros Hp. destruct (parse_inv _ _ _ Hb Hp) as [? <-]. done.
  - intros [Hh ->]. by apply parse_encode.
Qed.

Lemma header_roundtrip_witness :
  let h := mkHeader 3 2 6002 6002 5 1 5 0 65536 12 in
  parse (encode h ++ [104; 101; 108; 108; 111]) = Some (h, [104; 101; 108; 108; 111]).
Proof.
  intros h. apply (header_roundtrip (encode h ++ [104; 101; 108; 108; 111]) h).
  - apply (bool_decide_unpack _). by vm_compute.
  - split; [|reflexivity]. by vm_compute.
Defined.
