(* ===== verification/VsockStream.v ===== *)
(** * One vsock stream

    [components/vsock-device/src/switch.rs], [Connection] and
    [StreamConnection]: packet validation, credit accounting in both
    directions, half-close, and the bounded reply queue. [usize] sums are
    exact here; the invariant bounds them far below 2{^32}, the smallest
    [usize] the component is built for. *)

From S2P Require Import Prelude VsockPacket.
Local Open Scope Z_scope.

Definition MAX_QUEUED_REPLIES : Z := 128.
Definition RESERVED_CONTROL_REPLY_SLOTS : Z := 8.

Definition TYPE_STREAM : Z := 1.
Definition OP_REQUEST : Z := 1.
Definition OP_RESPONSE : Z := 2.
Definition OP_RST : Z := 3.
Definition OP_SHUTDOWN : Z := 4.
Definition OP_RW : Z := 5.
Definition OP_CREDIT_UPDATE : Z := 6.
Definition OP_CREDIT_REQUEST : Z := 7.
Definition FLAG_SHUTDOWN_RCV : Z := 1.
Definition FLAG_SHUTDOWN_SEND : Z := 2.

(** ** State *)

Record Connection := mkConn {
  peer_buf_alloc : Z;
  peer_fwd_cnt : Z;
  rx_received : Z;
  rx_fwd_cnt : Z;
  rx_credit_update_fwd_cnt : Z;
  is_receive_credit_requested : bool;
  tx_fwd_cnt : Z;
  is_credit_requested : bool;
  tx_shutdown : bool;
  peer_receive_closed : bool;
  rx_shutdown : bool;
}.

Definition new_connection (peer_buf_alloc : Z) : Connection :=
  mkConn peer_buf_alloc 0 0 0 0 false 0 false false false false.

Definition queued_bytes (c : Connection) : Z := wrapping_sub32 (rx_received c) (rx_fwd_cnt c).
Definition unacked_bytes (sent acknowledged : Z) : Z := wrapping_sub32 sent acknowledged.
Definition ack_ahead (acknowledged sent : Z) : bool :=
  negb (acknowledged =? sent) && (wrapping_sub32 acknowledged sent <? Z.shiftl 1 31).

Record Reply := mkReply {
  reply_number : Z;
  header : VsockHeader;
  payload : list Z;
}.

Inductive VsockError := Backpressure | Busy | UnknownConnection.

Record StreamConnection := mkStream {
  connection : option Connection;
  is_connecting : bool;
  guest_port : Z;
  host_port : Z;
  rx_alloc : Z;
  max_tx_bytes : Z;
  upstream : list Z;
  replies : list Reply;
  reply_bytes : Z;
}.

Module Stream.

Definition new (guest_port host_port rx_alloc max_tx_bytes : Z) : StreamConnection :=
  mkStream None false guest_port host_port rx_alloc max_tx_bytes [] [] 0.

(** Field updates. *)
Definition set_connection c s := mkStream c (is_connecting s) (guest_port s) (host_port s)
  (rx_alloc s) (max_tx_bytes s) (upstream s) (replies s) (reply_bytes s).
Definition set_connecting b s := mkStream (connection s) b (guest_port s) (host_port s)
  (rx_alloc s) (max_tx_bytes s) (upstream s) (replies s) (reply_bytes s).
Definition set_upstream u s := mkStream (connection s) (is_connecting s) (guest_port s)
  (host_port s) (rx_alloc s) (max_tx_bytes s) u (replies s) (reply_bytes s).
Definition set_replies r n s := mkStream (connection s) (is_connecting s) (guest_port s)
  (host_port s) (rx_alloc s) (max_tx_bytes s) (upstream s) r n.

Definition set_peer_credit alloc fwd c := mkConn alloc fwd (rx_received c) (rx_fwd_cnt c)
  (rx_credit_update_fwd_cnt c) (is_receive_credit_requested c) (tx_fwd_cnt c)
  (is_credit_requested c) (tx_shutdown c) (peer_receive_closed c) (rx_shutdown c).
Definition set_rx_received n c := mkConn (peer_buf_alloc c) (peer_fwd_cnt c) n (rx_fwd_cnt c)
  (rx_credit_update_fwd_cnt c) (is_receive_credit_requested c) (tx_fwd_cnt c)
  (is_credit_requested c) (tx_shutdown c) (peer_receive_closed c) (rx_shutdown c).
Definition set_rx_fwd n c := mkConn (peer_buf_alloc c) (peer_fwd_cnt c) (rx_received c) n
  (rx_credit_update_fwd_cnt c) (is_receive_credit_requested c) (tx_fwd_cnt c)
  (is_credit_requested c) (tx_shutdown c) (peer_receive_closed c) (rx_shutdown c).
Definition set_credit_update n c := mkConn (peer_buf_alloc c) (peer_fwd_cnt c) (rx_received c)
  (rx_fwd_cnt c) n (is_receive_credit_requested c) (tx_fwd_cnt c)
  (is_credit_requested c) (tx_shutdown c) (peer_receive_closed c) (rx_shutdown c).
Definition set_receive_requested b c := mkConn (peer_buf_alloc c) (peer_fwd_cnt c) (rx_received c)
  (rx_fwd_cnt c) (rx_credit_update_fwd_cnt c) b (tx_fwd_cnt c)
  (is_credit_requested c) (tx_shutdown c) (peer_receive_closed c) (rx_shutdown c).
Definition set_tx_fwd n c := mkConn (peer_buf_alloc c) (peer_fwd_cnt c) (rx_received c)
  (rx_fwd_cnt c) (rx_credit_update_fwd_cnt c) (is_receive_credit_requested c) n
  (is_credit_requested c) (tx_shutdown c) (peer_receive_closed c) (rx_shutdown c).
Definition set_credit_requested b c := mkConn (peer_buf_alloc c) (peer_fwd_cnt c) (rx_received c)
  (rx_fwd_cnt c) (rx_credit_update_fwd_cnt c) (is_receive_credit_requested c) (tx_fwd_cnt c)
  b (tx_shutdown c) (peer_receive_closed c) (rx_shutdown c).
Definition set_shutdown tx closed rx c := mkConn (peer_buf_alloc c) (peer_fwd_cnt c)
  (rx_received c) (rx_fwd_cnt c) (rx_credit_update_fwd_cnt c) (is_receive_credit_requested c)
  (tx_fwd_cnt c) (is_credit_requested c) tx closed rx.

(** ** The reply queue *)

Definition can_queue_reply (payload_len : Z) (s : StreamConnection) : bool :=
  (zlen (replies s) <? MAX_QUEUED_REPLIES) &&
  (reply_bytes s + payload_len <=? max_tx_bytes s).

Definition queue_reply (reply : Reply) (s : StreamConnection) : bool * StreamConnection :=
  if negb (can_queue_reply (zlen (payload reply)) s) then (false, s) else
  let s := set_replies (replies s ++ [reply]) (reply_bytes s + zlen (payload reply)) s in
  (true,
   if op (header reply) =? OP_CREDIT_UPDATE then
     set_connection (set_credit_update (fwd_cnt (header reply)) <$> connection s) s
   else s).

(** [host_header] with the fields its callers override. *)
Definition host_header (host_port guest_port len op flags buf_alloc fwd_cnt : Z) : VsockHeader :=
  mkHeader HOST_CID GUEST_CID host_port guest_port len TYPE_STREAM op flags buf_alloc fwd_cnt.

Definition rst (guest_port host_port : Z) (s : StreamConnection) : bool * StreamConnection :=
  queue_reply (mkReply 0 (host_header host_port guest_port 0 OP_RST 0 0 0) []) s.

(** [replies.back_mut()] when it is a credit update. *)
Definition last_credit_update (rs : list Reply) : option (list Reply * Reply) :=
  match rev rs with
  | r :: front => if op (header r) =? OP_CREDIT_UPDATE then Some (rev front, r) else None
  | [] => None
  end.

Definition set_fwd_cnt (n : Z) (r : Reply) : Reply :=
  let h := header r in
  mkReply (reply_number r)
    (mkHeader (src_cid h) (dst_cid h) (src_port h) (dst_port h) (hlen h) (type_ h) (op h)
       (flags h) (buf_alloc h) n) (payload r).

Definition respond (c : Connection) (o fl : Z) (s : StreamConnection) : bool * StreamConnection :=
  match (if o =? OP_CREDIT_UPDATE then last_credit_update (replies s) else None) with
  | Some (front, r) =>
    let s := set_replies (front ++ [set_fwd_cnt (rx_fwd_cnt c) r]) (reply_bytes s) s in
    (true, set_connection (set_credit_update (rx_fwd_cnt c) <$> connection s) s)
  | None =>
    queue_reply (mkReply 0 (host_header (host_port s) (guest_port s) 0 o fl (rx_alloc s)
                              (rx_fwd_cnt c)) []) s
  end.

Definition drop_connection (s : StreamConnection) : StreamConnection :=
  set_upstream [] (set_connecting false (set_connection None s)).

(** ** Received packets *)

(** The accepted path of [note_peer_credit]: the peer's window is recorded
    and a withheld credit update may be flushed. *)
Definition accept_peer_credit (h : VsockHeader) (c : Connection) (s : StreamConnection)
  : bool * StreamConnection :=
  let unacked := unacked_bytes (tx_fwd_cnt c) (fwd_cnt h) in
  let prior_available :=
    sat_sub (peer_buf_alloc c) (unacked_bytes (tx_fwd_cnt c) (peer_fwd_cnt c)) in
  let available := sat_sub (buf_alloc h) unacked in
  let flush_receive_credit :=
    (buf_alloc h <? peer_buf_alloc c) && negb (rx_fwd_cnt c =? rx_credit_update_fwd_cnt c) in
  let c := set_peer_credit (buf_alloc h) (fwd_cnt h) c in
  let c := if prior_available <? available then set_credit_requested false c else c in
  let s := set_connection (Some c) s in
  if flush_receive_credit then
    let '(ok, s) := respond c OP_CREDIT_UPDATE 0 s in
    if ok then (true, s) else (false, drop_connection s)
  else (true, s).

Definition note_peer_credit (h : VsockHeader) (s : StreamConnection) : bool * StreamConnection :=
  match connection s with
  | None => (false, s)
  | Some c =>
    let acknowledged := fwd_cnt h in
    if ack_ahead acknowledged (tx_fwd_cnt c) then
      (false, drop_connection (rst (guest_port s) (host_port s) s).2)
    else if negb (acknowledged =? peer_fwd_cnt c) &&
            negb (ack_ahead acknowledged (peer_fwd_cnt c)) then (true, s)
    else if (if max_tx_bytes s <=? U32_MAX then max_tx_bytes s else U32_MAX) <?
            unacked_bytes (tx_fwd_cnt c) acknowledged then (true, s)
    else accept_peer_credit h c s
  end.

Definition is_live (s : StreamConnection) : bool :=
  match connection s with Some _ => true | None => is_connecting s end.

Definition reject_packet (h : VsockHeader) (s : StreamConnection) : StreamConnection :=
  let s := if negb (op h =? OP_RST) then (rst (src_port h) (dst_port h) s).2 else s in
  if is_live s then drop_connection s else s.

Definition on_request (h : VsockHeader) (s : StreamConnection) : StreamConnection :=
  if negb (fwd_cnt h =? 0) || is_live s then reject_packet h s else
  let c := new_connection (buf_alloc h) in
  let '(ok, s) := respond c OP_RESPONSE 0 s in
  if ok then set_connection (Some c) s else s.

Definition on_response (h : VsockHeader) (s : StreamConnection) : StreamConnection :=
  if negb (is_connecting s) || negb (fwd_cnt h =? 0)
  then set_connecting false (reject_packet h s)
  else set_connection (Some (new_connection (buf_alloc h))) (set_connecting false s).

Definition request (s : StreamConnection) : bool * StreamConnection :=
  if is_live s then (false, s) else
  let '(queued, s) :=
    queue_reply (mkReply 0 (host_header (host_port s) (guest_port s) 0 OP_REQUEST 0
                              (rx_alloc s) 0) []) s in
  (queued, if queued then set_connecting true s else s).

Definition on_rst (s : StreamConnection) : StreamConnection :=
  if is_live s then drop_connection s else s.

Definition on_shutdown (fl : Z) (s : StreamConnection) : StreamConnection :=
  match connection s with
  | None => s
  | Some c =>
    let rcv := negb (Z.land fl FLAG_SHUTDOWN_RCV =? 0) in
    let snd := negb (Z.land fl FLAG_SHUTDOWN_SEND =? 0) in
    let s := if rcv
             then set_replies (List.filter (λ r, negb (op (header r) =? OP_RW)) (replies s)) 0 s
             else s in
    set_connection (Some (set_shutdown (tx_shutdown c || rcv) (peer_receive_closed c || rcv)
                            (rx_shutdown c || snd) c)) s
  end.

Definition on_data (h : VsockHeader) (data : list Z) (s : StreamConnection) : StreamConnection :=
  match connection s with
  | None => s
  | Some c =>
    if (rx_alloc s <? queued_bytes c + hlen h) || (rx_alloc s <? zlen (upstream s) + zlen data)
    then drop_connection (rst (src_port h) (dst_port h) s).2
    else set_upstream (upstream s ++ data)
           (set_connection (Some (set_rx_received (wrapping_add32 (rx_received c) (hlen h)) c)) s)
  end.

Definition on_credit_request (s : StreamConnection) : StreamConnection :=
  match connection s with
  | None => s
  | Some c =>
    let c := set_receive_requested (negb (queued_bytes c =? 0)) c in
    let '(ok, s) := respond c OP_CREDIT_UPDATE 0 (set_connection (Some c) s) in
    if ok then s else drop_connection s
  end.

Definition on_connected (h : VsockHeader) (data : list Z) (s : StreamConnection)
  : StreamConnection :=
  match connection s with
  | None => (rst (src_port h) (dst_port h) s).2
  | Some c =>
    if (op h =? OP_RW) && rx_shutdown c then reject_packet h s else
    let '(ok, s) := note_peer_credit h s in
    if negb ok then s else
    if op h =? OP_SHUTDOWN then on_shutdown (flags h) s
    else if op h =? OP_RW then on_data h data s
    else if op h =? OP_CREDIT_REQUEST then on_credit_request s
    else s
  end.

(** The header checks of [rx]. *)
Definition bad_packet (h : VsockHeader) (data : list Z) : bool :=
  negb (type_ h =? TYPE_STREAM) || negb (src_cid h =? GUEST_CID) || negb (dst_cid h =? HOST_CID)
  || negb (eqb (op h =? OP_RW) (0 <? hlen h)) || (MAX_PACKET_DATA_BYTES <? hlen h)
  || negb (zlen data =? hlen h)
  || ((op h =? OP_SHUTDOWN) &&
      ((flags h =? 0) ||
       negb (Z.land (flags h) (not32 (Z.lor FLAG_SHUTDOWN_RCV FLAG_SHUTDOWN_SEND)) =? 0)))
  || (negb (op h =? OP_SHUTDOWN) && negb (flags h =? 0)).

Definition rx (h : VsockHeader) (data : list Z) (s : StreamConnection) : StreamConnection :=
  if bad_packet h data then reject_packet h s else
  if is_connecting s && negb ((op h =? OP_RESPONSE) || (op h =? OP_RST)) then reject_packet h s else
  if op h =? OP_REQUEST then on_request h s else
  if op h =? OP_RESPONSE then on_response h s else
  if op h =? OP_RST then on_rst s else
  if (op h =? OP_SHUTDOWN) || (op h =? OP_RW) || (op h =? OP_CREDIT_UPDATE)
     || (op h =? OP_CREDIT_REQUEST) then on_connected h data s
  else reject_packet h s.

(** ** Sending *)

Definition request_credit (s : StreamConnection) : bool * StreamConnection :=
  match connection s with
  | None => (false, s)
  | Some c =>
    if is_credit_requested c then (false, s) else
    let '(queued, s) :=
      queue_reply (mkReply 0 (host_header (host_port s) (guest_port s) 0 OP_CREDIT_REQUEST 0
                                (rx_alloc s) (rx_fwd_cnt c)) []) s in
    if queued then
      match connection s with
      | Some c => (true, set_connection (Some (set_credit_requested true c)) s)
      | None => (false, s)
      end
    else (false, s)
  end.

Definition available_send_credit (s : StreamConnection) : Z :=
  match connection s with
  | Some c =>
    if tx_shutdown c then 0 else
    let unacknowledged := unacked_bytes (tx_fwd_cnt c) (peer_fwd_cnt c) in
    Z.min (sat_sub (peer_buf_alloc c) unacknowledged) (sat_sub (max_tx_bytes s) unacknowledged)
  | None => 0
  end.

Definition send_capacity (s : StreamConnection) : Z :=
  if MAX_QUEUED_REPLIES - RESERVED_CONTROL_REPLY_SLOTS <=? zlen (replies s) then 0 else
  Z.min (Z.min (available_send_credit s) MAX_PACKET_DATA_BYTES)
        (sat_sub (max_tx_bytes s) (reply_bytes s)).

Definition deliver (data : list Z) (s : StreamConnection) : result VsockError unit * StreamConnection :=
  match connection s with
  | None => (Err UnknownConnection, s)
  | Some c =>
    if tx_shutdown c then (Err UnknownConnection, s) else
    if zlen data =? 0 then (Ok tt, s) else
    if U32_MAX <? zlen data then (Err Backpressure, s) else
    if send_capacity s <? zlen data then
      (Err Backpressure,
       if (zlen data <=? max_tx_bytes s) && (available_send_credit s <? zlen data)
       then (request_credit s).2 else s)
    else
    let s' := set_connection (Some (set_tx_fwd (wrapping_add32 (tx_fwd_cnt c) (zlen data)) c)) s in
    let '(queued, s') :=
      queue_reply (mkReply 0 (host_header (host_port s) (guest_port s) (zlen data) OP_RW 0
                                (rx_alloc s) (rx_fwd_cnt c)) data) s' in
    if queued then (Ok tt, s') else (Err Backpressure, set_connection (Some c) s')
  end.

Definition shutdown (s : StreamConnection) : result VsockError unit * StreamConnection :=
  match connection s with
  | None => (Err UnknownConnection, s)
  | Some c =>
    if tx_shutdown c then (Ok tt, s) else
    if negb (can_queue_reply 0 s) then (Err Backpressure, s) else
    let c := set_shutdown true (peer_receive_closed c) (rx_shutdown c) c in
    let '(ok, s) := respond c OP_SHUTDOWN FLAG_SHUTDOWN_SEND (set_connection (Some c) s) in
    if ok then (Ok tt, s) else (Err Backpressure, drop_connection s)
  end.

Definition guest_send_closed (s : StreamConnection) : bool :=
  match connection s with Some c => rx_shutdown c | None => false end.

(** ** Consuming *)

Definition last_is_credit_update (rs : list Reply) : bool :=
  match last rs with Some r => op (header r) =? OP_CREDIT_UPDATE | None => false end.

Definition advance_receive_credit (count : Z) (s : StreamConnection) : StreamConnection :=
  match connection s with
  | None => s
  | Some c =>
    let snapshot :=
      set_rx_fwd (wrapping_add32 (rx_fwd_cnt c) (if count <=? U32_MAX then count else U32_MAX)) c in
    let c := if queued_bytes snapshot =? 0 then set_receive_requested false snapshot else snapshot in
    let s := set_connection (Some c) s in
    if negb (host_port s =? AGENT_PORT) && negb (is_receive_credit_requested snapshot)
       && (wrapping_sub32 (rx_fwd_cnt snapshot) (rx_credit_update_fwd_cnt snapshot)
           <? Z.min (rx_alloc s) (peer_buf_alloc snapshot) / 2)
       && negb (last_is_credit_update (replies s))
    then s else
    let '(ok, s) := respond snapshot OP_CREDIT_UPDATE 0 s in
    if ok then s else drop_connection s
  end.

Definition take_reply (max_bytes : Z) (s : StreamConnection) : option Reply * StreamConnection :=
  match replies s with
  | [] => (None, s)
  | r :: rs =>
    if max_bytes <? zlen (payload r) then (None, s)
    else (Some r, set_replies rs (reply_bytes s - zlen (payload r)) s)
  end.

Definition consume_upstream (max_bytes : Z) (s : StreamConnection) : StreamConnection :=
  let count := Z.min max_bytes (zlen (upstream s)) in
  if count =? 0 then s
  else advance_receive_credit count (set_upstream (drop (Z.to_nat count) (upstream s)) s).

(** ** The invariant *)

Definition reply_len (r : Reply) : Z := zlen (payload r).

(** Only data packets carry bytes. *)
Definition reply_ok (r : Reply) : Prop := op (header r) = OP_RW ∨ payload r = [].

Record conn_ok (s : StreamConnection) (c : Connection) : Prop := {
  co_widths : u32 (peer_buf_alloc c) ∧ u32 (peer_fwd_cnt c) ∧ u32 (rx_received c) ∧
    u32 (rx_fwd_cnt c) ∧ u32 (rx_credit_update_fwd_cnt c) ∧ u32 (tx_fwd_cnt c);
  (** The counters agree with the bytes that are buffered. *)
  co_queued : queued_bytes c = zlen (upstream s);
  co_unacked : unacked_bytes (tx_fwd_cnt c) (peer_fwd_cnt c) ≤ max_tx_bytes s;
  (** Nothing is queued for a guest that stopped receiving. *)
  co_closed : peer_receive_closed c = true →
    tx_shutdown c = true ∧ Forall (λ r, op (header r) ≠ OP_RW) (replies s);
}.

(** Everything but the bound on unadvertised credit. *)
Record core (s : StreamConnection) : Prop := {
  so_alloc : 0 ≤ rx_alloc s < Z.shiftl 1 31 ∧ 0 ≤ max_tx_bytes s < Z.shiftl 1 31;
  so_upstream : zlen (upstream s) ≤ rx_alloc s;
  so_replies : zlen (replies s) ≤ MAX_QUEUED_REPLIES;
  so_bytes : reply_bytes s = sumZ (reply_len <$> replies s) ∧ reply_bytes s ≤ max_tx_bytes s;
  so_payload : Forall reply_ok (replies s);
  so_none : connection s = None → upstream s = [];
  so_connecting : is_connecting s = true → connection s = None;
  so_conn : ∀ c, connection s = Some c → conn_ok s c;
}.

(** Credit the host has freed but not yet told the guest about. *)
Definition unadvertised (c : Connection) : Z :=
  wrapping_sub32 (rx_fwd_cnt c) (rx_credit_update_fwd_cnt c).

Definition advertised (s : StreamConnection) : Prop :=
  ∀ c, connection s = Some c → unadvertised c = 0 ∨ unadvertised c < rx_alloc s / 2.

Definition stream_ok (s : StreamConnection) : Prop := core s ∧ advertised s.

(** What no packet changes. *)
Definition same_stream (s s' : StreamConnection) : Prop :=
  guest_port s' = guest_port s ∧ host_port s' = host_port s ∧
  rx_alloc s' = rx_alloc s ∧ max_tx_bytes s' = max_tx_bytes s.

#[global] Instance same_stream_preorder : PreOrder same_stream.
Proof. split; [by intros s|]. unfold same_stream. intros a b c. intuition congruence. Qed.

Lemma reply_len_nonneg r : 0 ≤ reply_len r.
Proof. apply zlen_nonneg. Qed.

Lemma core_new gp hp ra mt :
  0 ≤ ra < Z.shiftl 1 31 → 0 ≤ mt < Z.shiftl 1 31 → stream_ok (new gp hp ra mt).
Proof.
  intros Hr Hm. split; [|by intros ?]. split; simpl; try done; try (by intros ?).
  - unfold zlen; simpl; lia.
  - split; [done|lia].
Qed.

(** *** Shared arithmetic of the counters *)

Lemma queued_add32 a b n :
  u32 a → u32 b → 0 ≤ n → wrapping_sub32 a b + n < 4294967296 →
  wrapping_sub32 (wrapping_add32 a n) b = wrapping_sub32 a b + n.
Proof.
  intros Ha Hb Hn Hlt. unfold wrapping_sub32, wrapping_add32, wrap32 in *.
  rewrite Zminus_mod_idemp_l. replace (a + n - b) with (a - b + n) by lia.
  rewrite <- (Zplus_mod_idemp_l (a - b)). apply Z.mod_small.
  pose proof (Z.mod_pos_bound (a - b) 4294967296 ltac:(lia)). lia.
Qed.

Lemma queued_sub32 a b n :
  u32 a → u32 b → 0 ≤ n ≤ wrapping_sub32 a b →
  wrapping_sub32 a (wrapping_add32 b n) = wrapping_sub32 a b - n.
Proof.
  intros Ha Hb Hn. unfold wrapping_sub32, wrapping_add32, wrap32 in *.
  rewrite Zminus_mod_idemp_r. replace (a - (b + n)) with (a - b - n) by lia.
  rewrite <- (Zminus_mod_idemp_l (a - b)). apply Z.mod_small.
  pose proof (Z.mod_pos_bound (a - b) 4294967296 ltac:(lia)). lia.
Qed.

Lemma wrapping32_u32 a b : u32 (wrapping_add32 a b) ∧ u32 (wrapping_sub32 a b).
Proof. split; ilia. Qed.

(** *** Replies *)

Lemma conn_ok_ext s s' c :
  upstream s' = upstream s → max_tx_bytes s' = max_tx_bytes s →
  (peer_receive_closed c = true → Forall (λ r, op (header r) ≠ OP_RW) (replies s) →
   Forall (λ r, op (header r) ≠ OP_RW) (replies s')) →
  conn_ok s c → conn_ok s' c.
Proof.
  intros Hu Hm Hr [H1 H2 H3 H4]. split; rewrite ?Hu, ?Hm; try done.
  intros Hc. destruct (H4 Hc). auto.
Qed.

Lemma conn_ok_set_connection o s c : conn_ok (set_connection o s) c ↔ conn_ok s c.
Proof. by split; apply conn_ok_ext. Qed.

Lemma conn_ok_credit_update s c n :
  u32 n → conn_ok s c → conn_ok s (set_credit_update n c).
Proof. intros Hn [H1 H2 H3 H4]. split; simpl in *; try done. intuition. Qed.

(** Appending a reply keeps the core. *)
Definition sendable (r : Reply) (s : StreamConnection) : Prop :=
  reply_ok r ∧ u32 (fwd_cnt (header r)) ∧
  (op (header r) = OP_RW → ∀ c, connection s = Some c → peer_receive_closed c = false).

Lemma queue_reply_spec r s q s' :
  core s → sendable r s → queue_reply r s = (q, s') →
  core s' ∧ same_stream s s' ∧ upstream s' = upstream s ∧ is_connecting s' = is_connecting s ∧
  (if q then replies s' = replies s ++ [r] ∧
     connection s' = (if op (header r) =? OP_CREDIT_UPDATE
                      then set_credit_update (fwd_cnt (header r)) <$> connection s
                      else connection s)
   else s' = s).
Proof.
  intros Hc (Hr & Hf & Hrw). unfold queue_reply.
  destruct (can_queue_reply _ _) eqn:Hq; simpl; [|by intros [= <- <-]].
  intros [= <- Hs']. unfold can_queue_reply in Hq. breflect.
  destruct Hc as [H1 H2 H3 [H4 H5] H6 H7 H8 H9].
  assert (∀ c, connection s = Some c → conn_ok
    (set_replies (replies s ++ [r]) (reply_bytes s + zlen (payload r)) s) c) as Hconn.
  { intros c Hc. eapply conn_ok_ext; [..|by apply H9]; try done.
    intros Hcl Hall. apply Forall_app. split; [done|]. constructor; [|done].
    intros Hop. by rewrite (Hrw Hop c Hc) in Hcl. }
  assert (core s' ∧ replies s' = replies s ++ [r] ∧ same_stream s s' ∧ upstream s' = upstream s ∧
    is_connecting s' = is_connecting s ∧
    connection s' = (if op (header r) =? OP_CREDIT_UPDATE
                      then set_credit_update (fwd_cnt (header r)) <$> connection s
                      else connection s)) as (? & ? & ? & ? & ? & ?); [|by split_and!].
  assert (zlen (replies s ++ [r]) ≤ MAX_QUEUED_REPLIES) as Hlen.
  { rewrite zlen_app. change (zlen [r]) with 1. lia. }
  assert (reply_bytes s + zlen (payload r) = sumZ (reply_len <$> replies s ++ [r])) as Hsum.
  { rewrite fmap_app, sumZ_app, H4. unfold sumZ at 3. simpl. unfold reply_len at 3. lia. }
  assert (Forall reply_ok (replies s ++ [r])) as Hok
    by (apply Forall_app; split; [done|by constructor]).
  subst s'. destruct (op (header r) =? OP_CREDIT_UPDATE); [|split_and!; try done; by split].
  split_and!; try done. split; try done; simpl.
  - intros Hn. apply fmap_None in Hn. auto.
  - intros Hi. by rewrite (H8 Hi).
  - intros c Hc'. apply fmap_Some in Hc' as (c' & Hc' & ->).
    apply conn_ok_credit_update; [done|]. apply conn_ok_set_connection. by apply Hconn.
Qed.

Lemma drop_connection_core s : core s → core (drop_connection s).
Proof.
  intros [H1 H2 H3 H4 H5 H6 H7 H8]. split; simpl; try done.
  unfold zlen; simpl. lia.
Qed.

Lemma drop_connection_ok s : core s → stream_ok (drop_connection s) ∧ same_stream s (drop_connection s).
Proof. intros. split; [|done]. split; [by apply drop_connection_core|by intros ?]. Qed.

Lemma control_sendable n h s :
  op h ≠ OP_RW → u32 (fwd_cnt h) → sendable (mkReply n h []) s.
Proof. intros Ho Hf. split; [by right|]. split; [done|]. done. Qed.

(** Queueing a control packet that is not a credit update keeps everything. *)
Lemma queue_control_ok h s q s' :
  stream_ok s → op h ≠ OP_RW → op h ≠ OP_CREDIT_UPDATE → u32 (fwd_cnt h) →
  queue_reply (mkReply 0 h []) s = (q, s') →
  stream_ok s' ∧ same_stream s s' ∧ connection s' = connection s ∧ upstream s' = upstream s ∧
  is_connecting s' = is_connecting s ∧
  replies s' = (if q then replies s ++ [mkReply 0 h []] else replies s).
Proof.
  intros [Hc Ha] Ho Hcu Hf Hq.
  destruct (queue_reply_spec _ _ _ _ Hc (control_sendable 0 h s Ho Hf) Hq)
    as (Hc' & Hs & Hu & Hi & Hd).
  apply Z.eqb_neq in Hcu. cbn [header] in Hd. rewrite Hcu in Hd.
  destruct q; [destruct Hd as [Hr Hconn]|subst s'; by split_and!].
  split_and!; try done. split; [done|]. intros c Hcc. rewrite Hconn in Hcc.
  destruct Hs as (_ & _ & -> & _). by apply Ha.
Qed.

Lemma last_credit_update_spec rs front r :
  last_credit_update rs = Some (front, r) → rs = front ++ [r] ∧ op (header r) = OP_CREDIT_UPDATE.
Proof.
  unfold last_credit_update. destruct (rev rs) as [|x xs] eqn:Hr; [done|].
  destruct (_ =? _) eqn:He; [|done]. intros [= <- <-]. breflect. split; [|done].
  rewrite <- (rev_involutive rs), Hr. done.
Qed.

(** A credit update tells the guest everything: afterwards nothing is
    unadvertised. *)
Lemma respond_credit_update c0 c fl s q s' :
  core s → connection s = Some c → rx_fwd_cnt c0 = rx_fwd_cnt c →
  respond c0 OP_CREDIT_UPDATE fl s = (q, s') →
  same_stream s s' ∧ core s' ∧ upstream s' = upstream s ∧
  if q then connection s' = Some (set_credit_update (rx_fwd_cnt c) c) ∧ stream_ok s'
  else s' = s.
Proof.
  intros Hcore Hc Hfwd Hq. unfold respond in Hq. rewrite Z.eqb_refl in Hq.
  assert (u32 (rx_fwd_cnt c0)) as Hu.
  { rewrite Hfwd. destruct Hcore as [_ _ _ _ _ _ _ H9]. apply (H9 c Hc). }
  assert (∀ s', connection s' = Some (set_credit_update (rx_fwd_cnt c) c) → advertised s') as Hadv.
  { intros s1 Hs1 c1 Hc1. rewrite Hs1 in Hc1. simplify_eq. left. unfold unadvertised; simpl. ilia. }
  destruct (last_credit_update (replies s)) as [[front r]|] eqn:Hl.
  - apply last_credit_update_spec in Hl as [Hrs Hop]. simplify_eq/=.
    destruct Hcore as [H1 H2 H3 [H4 H5] H6 H7 H8 H9].
    assert (payload r = []) as Hp.
    { rewrite Hrs in H6. apply Forall_app in H6 as [_ H6]. inversion_clear H6 as [|? ? Hr _].
      destruct Hr as [Hr|]; [by rewrite Hop in Hr|done]. }
    assert (connection (set_connection (set_credit_update (rx_fwd_cnt c0) <$> connection s)
      (set_replies (front ++ [set_fwd_cnt (rx_fwd_cnt c0) r]) (reply_bytes s) s)) =
      Some (set_credit_update (rx_fwd_cnt c) c)) as Hconn by (simpl; by rewrite Hc, Hfwd).
    match goal with |- same_stream _ ?x ∧ _ => assert (core x) as Hcore end.
    { rewrite Hrs, zlen_app in H3. rewrite Hrs in H6. apply Forall_app in H6 as [H6 _].
      split; simpl; try done.
      - rewrite zlen_app. exact H3.
      - split; [|done]. rewrite H4, Hrs, !fmap_app, !sumZ_app. done.
      - apply Forall_app. split; [done|]. constructor; [|done]. right. exact Hp.
      - by rewrite Hc.
      - intros Hi. by rewrite (H8 Hi) in Hc.
      - rewrite Hc. intros c1 [= <-]. apply conn_ok_credit_update; [done|].
        apply conn_ok_set_connection. eapply conn_ok_ext; [..|by apply H9]; try done.
        intros _. simpl. rewrite Hrs, !Forall_app. intros [? Hr]. split; [done|].
        inversion_clear Hr. by constructor. }
    split_and!; try done. split; [done|]. apply Hadv. exact Hconn.
  - apply queue_reply_spec in Hq as (Hc' & Hs & Hup & Hi & Hd);
      [|done|by apply control_sendable]. split_and!; try done.
    destruct q; [|done]. destruct Hd as [_ Hd]. cbn [header op fwd_cnt host_header] in Hd.
    rewrite Z.eqb_refl, Hc, Hfwd in Hd. split; [done|]. split; [done|]. by apply Hadv.
Qed.

(** *** Packets *)

Lemma rst_ok gp hp s : stream_ok s →
  let s' := (rst gp hp s).2 in
  stream_ok s' ∧ same_stream s s' ∧ connection s' = connection s ∧ upstream s' = upstream s ∧
  is_connecting s' = is_connecting s.
Proof.
  intros Hs s'. unfold s', rst.
  destruct (queue_reply _ s) as [q s1] eqn:Hq. cbn [snd].
  apply queue_control_ok in Hq as (? & ? & ? & ? & ? & ?); try done.
Qed.

Lemma drop_after_ok s s' : stream_ok s' → same_stream s s' →
  stream_ok (drop_connection s') ∧ same_stream s (drop_connection s').
Proof.
  intros [Hc _] Hs. destruct (drop_connection_ok s' Hc). split; [done|]. by etransitivity.
Qed.

Lemma reject_packet_ok h s :
  stream_ok s → stream_ok (reject_packet h s) ∧ same_stream s (reject_packet h s).
Proof.
  intros Hs. unfold reject_packet. cbv zeta.
  assert (stream_ok (if negb (op h =? OP_RST) then (rst (src_port h) (dst_port h) s).2 else s) ∧
    same_stream s (if negb (op h =? OP_RST) then (rst (src_port h) (dst_port h) s).2 else s))
    as [H1 H2].
  { case_match; [|done]. by destruct (rst_ok (src_port h) (dst_port h) s Hs) as (? & ? & _). }
  destruct (is_live _); [by apply drop_after_ok|done].
Qed.

Lemma on_rst_ok s : stream_ok s → stream_ok (on_rst s) ∧ same_stream s (on_rst s).
Proof. intros Hs. unfold on_rst. case_match; [|done]. by apply drop_after_ok. Qed.

Lemma stream_ok_fresh_connection s n :
  stream_ok s → connection s = None → u32 n →
  stream_ok (set_connection (Some (new_connection n)) (set_connecting false s)).
Proof.
  intros [[H1 H2 H3 H4 H5 H6 H7 H8] _] Hn Hu. split.
  - split; simpl; try done. intros c [= <-]. split; simpl; try done.
    + by rewrite (H6 Hn).
    + change (unacked_bytes 0 0) with 0. lia.
  - intros c [= <-]. by left.
Qed.

Lemma not_live s : is_live s = false → connection s = None ∧ is_connecting s = false.
Proof. unfold is_live. by destruct (connection s). Qed.

Lemma set_connecting_id s b : is_connecting s = b → set_connecting b s = s.
Proof. intros <-. by destruct s. Qed.

Lemma on_request_ok h s :
  stream_ok s → header_ok h → stream_ok (on_request h s) ∧ same_stream s (on_request h s).
Proof.
  intros Hs (_ & _ & _ & _ & _ & _ & _ & _ & Hba & _). unfold on_request.
  destruct (_ || _) eqn:Hb; [by apply reject_packet_ok|]. breflect.
  apply not_live in H0 as [Hn Hi]. cbv zeta. unfold respond.
  change (OP_RESPONSE =? OP_CREDIT_UPDATE) with false. cbv iota.
  destruct (queue_reply _ s) as [q s1] eqn:Hq.
  apply queue_control_ok in Hq as (Hs1 & Hsame & Hc & Hu & Hi1 & Hr); try done.
  destruct q; [|done]. rewrite Hn in Hc. rewrite Hi in Hi1. split; [|done].
  rewrite <- (set_connecting_id s1 false) by done.
  by apply stream_ok_fresh_connection.
Qed.

Lemma stream_ok_connecting s :
  stream_ok s → connection s = None → stream_ok (set_connecting true s).
Proof.
  intros [[H1 H2 H3 H4 H5 H6 H7 H8] Ha] Hn. split; [|done]. split; try done.
  intros c Hc. simpl in Hc. congruence.
Qed.

Lemma stream_ok_not_connecting s : stream_ok s → stream_ok (set_connecting false s).
Proof.
  intros [[H1 H2 H3 H4 H5 H6 H7 H8] Ha]. split; [|done]. split; try done.
  intros c Hc. eapply conn_ok_ext; [..|by apply H8]; done.
Qed.

Lemma on_response_ok h s :
  stream_ok s → header_ok h → stream_ok (on_response h s) ∧ same_stream s (on_response h s).
Proof.
  intros Hs (_ & _ & _ & _ & _ & _ & _ & _ & Hba & _). unfold on_response.
  destruct (_ || _) eqn:Hb.
  - destruct (reject_packet_ok h s Hs). split; [by apply stream_ok_not_connecting|done].
  - breflect. split; [|done]. apply stream_ok_fresh_connection; [done| |done].
    destruct Hs as [Hc _]. by apply so_connecting.
Qed.

Lemma request_ok s : stream_ok s → stream_ok (request s).2 ∧ same_stream s (request s).2.
Proof.
  intros Hs. unfold request. destruct (is_live s) eqn:Hl; [done|].
  apply not_live in Hl as [Hn Hi].
  destruct (queue_reply _ s) as [q s1] eqn:Hq.
  apply queue_control_ok in Hq as (Hs1 & Hsame & Hc & Hu & Hi1 & Hr); try done.
  cbn [snd]. destruct q; [|done]. split; [|done].
  apply stream_ok_connecting; [done|congruence].
Qed.

Lemma core_set_connection s c c' :
  core s → connection s = Some c → conn_ok s c' → core (set_connection (Some c') s).
Proof.
  intros [H1 H2 H3 H4 H5 H6 H7 H8] Hc Hok. split; simpl; try done.
  - intros Hi. by rewrite (H7 Hi) in Hc.
  - intros c1 [= <-]. by apply conn_ok_set_connection.
Qed.

Lemma ok_set_connection s c c' :
  stream_ok s → connection s = Some c → conn_ok s c' →
  rx_fwd_cnt c' = rx_fwd_cnt c → rx_credit_update_fwd_cnt c' = rx_credit_update_fwd_cnt c →
  stream_ok (set_connection (Some c') s).
Proof.
  intros [Hc Ha] Hs Hok H1 H2. split; [by eapply core_set_connection|].
  intros c1 [= <-]. unfold unadvertised. rewrite H1, H2. by apply Ha.
Qed.

Lemma accept_peer_credit_ok h c s :
  stream_ok s → connection s = Some c → header_ok h →
  unacked_bytes (tx_fwd_cnt c) (fwd_cnt h) ≤ max_tx_bytes s →
  let r := accept_peer_credit h c s in
  stream_ok r.2 ∧ same_stream s r.2 ∧ (r.1 = true → upstream r.2 = upstream s ∧
    ∃ c', connection r.2 = Some c' ∧ rx_received c' = rx_received c ∧ rx_fwd_cnt c' = rx_fwd_cnt c).
Proof.
  intros Hs Hc (_ & _ & _ & _ & _ & _ & _ & _ & Hba & Hf) Hun. unfold accept_peer_credit. cbv zeta.
  set (c1 := if _ <? _ then _ else _).
  assert (rx_received c1 = rx_received c ∧ rx_fwd_cnt c1 = rx_fwd_cnt c ∧
    rx_credit_update_fwd_cnt c1 = rx_credit_update_fwd_cnt c ∧ conn_ok s c1)
    as (Hr & Hfw & Hcu & Hok).
  { pose proof Hs as [[_ _ _ _ _ _ _ H8] _]. destruct (H8 c Hc) as [W Q U K]. unfold c1.
    split_and!; try (by case_match). case_match; split; simpl; try done; intuition. }
  assert (stream_ok (set_connection (Some c1) s)) as Hs1 by (by eapply ok_set_connection).
  clearbody c1. destruct (_ && _).
  - destruct (respond c1 OP_CREDIT_UPDATE 0 _) as [q s1] eqn:Hq.
    eapply (respond_credit_update c1 c1) in Hq as (Hsame & Hcore & Hu & Hd); [|apply Hs1|done..].
    destruct q; cbn [fst snd].
    + destruct Hd as [Hconn Hok1]. split_and!; try done. intros _. split; [done|].
      eexists. split; [done|]. done.
    + destruct (drop_connection_ok s1 Hcore). split_and!; try done.
  - split_and!; try done. intros _. split; [done|]. by exists c1.
Qed.

Lemma note_peer_credit_ok h s :
  stream_ok s → header_ok h →
  let r := note_peer_credit h s in
  stream_ok r.2 ∧ same_stream s r.2 ∧ (r.1 = true → upstream r.2 = upstream s ∧
    ∃ c c', connection s = Some c ∧ connection r.2 = Some c' ∧
      rx_received c' = rx_received c ∧ rx_fwd_cnt c' = rx_fwd_cnt c).
Proof.
  intros Hs Hh. unfold note_peer_credit. cbv zeta.
  destruct (connection s) as [c|] eqn:Hc; [|done].
  destruct (ack_ahead _ _).
  { destruct (rst_ok (guest_port s) (host_port s) s Hs) as (H1 & H2 & _).
    cbn [fst snd]. by destruct (drop_after_ok s _ H1 H2). }
  destruct (_ && _); [split_and!; try done; intros _; split; [done|by exists c, c]|].
  destruct (_ <? _) eqn:Hun; [split_and!; try done; intros _; split; [done|by exists c, c]|].
  breflect. destruct (accept_peer_credit_ok h c s Hs Hc Hh) as (H1 & H2 & H3).
  { case_match; [done|]. breflect. pose proof (wrapping32_u32 (tx_fwd_cnt c) (fwd_cnt h)) as [_ Hw].
    unfold unacked_bytes. ilia. }
  split_and!; try done. intros Ht. destruct (H3 Ht) as (? & c' & ? & ? & ?).
  split; [done|]. by exists c, c'.
Qed.

Lemma on_shutdown_ok fl s :
  stream_ok s → stream_ok (on_shutdown fl s) ∧ same_stream s (on_shutdown fl s).
Proof.
  intros Hs. unfold on_shutdown. destruct (connection s) as [c|] eqn:Hc; [|done]. cbv zeta.
  split; [|by case_match]. pose proof Hs as [[H1 H2 H3 [H4 H5] H6 H7 H8 H9] Ha].
  destruct (H9 c Hc) as [W Q U K].
  destruct (negb (Z.land fl FLAG_SHUTDOWN_RCV =? 0)); rewrite ?orb_true_r, ?orb_false_r.
  - set (rs := List.filter _ _). assert (Forall (λ r, op (header r) ≠ OP_RW) rs) as Hno.
    { unfold rs. apply Forall_forall. intros r Hr. apply list_elem_of_In, filter_In in Hr as [_ Hr].
      by breflect. }
    assert (Forall reply_ok rs) as Hok.
    { apply Forall_forall. intros r Hr. rewrite Forall_forall in H6. apply H6.
      apply list_elem_of_In in Hr. apply list_elem_of_In. by apply filter_In in Hr as [? _]. }
    split; [|by intros c1 [= <-]; apply (Ha c Hc)]. split; simpl; try done.
    + unfold zlen, rs in *. pose proof (filter_length_le (λ r, negb (op (header r) =? OP_RW)) (replies s)).
      lia.
    + split; [|lia]. symmetry. clearbody rs. clear -Hno Hok.
      induction Hno as [|r rs Hr Hno IH]; [done|]. inversion_clear Hok as [|? ? Hrok Hok'].
      rewrite fmap_cons, sumZ_cons, IH by done. destruct Hrok as [|Hp]; [done|].
      unfold reply_len. by rewrite Hp.
    + intros Hi. by rewrite (H8 Hi) in Hc.
    + intros c1 [= <-]. split; simpl; done.
  - eapply ok_set_connection; done.
Qed.

Lemma on_data_ok h data s :
  stream_ok s → header_ok h → zlen data = hlen h →
  stream_ok (on_data h data s) ∧ same_stream s (on_data h data s).
Proof.
  intros Hs Hh Hl. unfold on_data. destruct (connection s) as [c|] eqn:Hc; [|done].
  destruct (_ || _) eqn:Hb.
  { destruct (rst_ok (src_port h) (dst_port h) s Hs) as (H1 & H2 & _). by apply drop_after_ok. }
  breflect. split; [|done]. pose proof Hs as [[H1 H2 H3 H4 H5 H6 H7 H8] Ha].
  destruct (H8 c Hc) as [W Q U K]. split; [|by intros c1 [= <-]; apply (Ha c Hc)].
  split; simpl; try done.
  - rewrite zlen_app. lia.
  - intros Hi. by rewrite (H7 Hi) in Hc.
  - intros c1 [= <-]. destruct W as (W1 & W2 & W3 & W4 & W5 & W6). split; simpl; try done.
    + split_and!; try done. apply wrapping32_u32.
    + unfold queued_bytes in *; simpl. pose proof (zlen_nonneg data).
      rewrite queued_add32, zlen_app by (done || (unfold Z.shiftl in *; simpl in *; lia)). lia.
Qed.

Lemma on_credit_request_ok s :
  stream_ok s → stream_ok (on_credit_request s) ∧ same_stream s (on_credit_request s).
Proof.
  intros Hs. unfold on_credit_request. destruct (connection s) as [c|] eqn:Hc; [|done]. cbv zeta.
  set (c1 := set_receive_requested _ c).
  assert (stream_ok (set_connection (Some c1) s)) as Hs1.
  { eapply ok_set_connection; try done. pose proof Hs as [[_ _ _ _ _ _ _ H8] _].
    destruct (H8 c Hc) as [W Q U K]. by split. }
  destruct (respond c1 OP_CREDIT_UPDATE 0 _) as [q s1] eqn:Hq.
  eapply (respond_credit_update c1 c1) in Hq as (Hsame & Hcore & Hu & Hd); [|apply Hs1|done..].
  destruct q; [by destruct Hd|]. by destruct (drop_connection_ok s1 Hcore).
Qed.

Lemma on_connected_ok h data s :
  stream_ok s → header_ok h → zlen data = hlen h →
  stream_ok (on_connected h data s) ∧ same_stream s (on_connected h data s).
Proof.
  intros Hs Hh Hl. unfold on_connected. destruct (connection s) as [c|] eqn:Hc.
  2:{ by destruct (rst_ok (src_port h) (dst_port h) s Hs) as (? & ? & _). }
  destruct (_ && _); [by apply reject_packet_ok|].
  destruct (note_peer_credit h s) as [q s1] eqn:Hq.
  pose proof (note_peer_credit_ok h s Hs Hh) as Hn. rewrite Hq in Hn. destruct Hn as (H1 & H2 & _).
  cbn [fst snd] in *. assert (∀ s2, stream_ok s2 ∧ same_stream s1 s2 → stream_ok s2 ∧ same_stream s s2)
    as Htrans by (intros s2 []; split; [done|by etransitivity]).
  destruct q; [|done]. cbn [negb]. repeat case_match; apply Htrans.
  - by apply on_shutdown_ok.
  - by apply on_data_ok.
  - by apply on_credit_request_ok.
  - done.
Qed.

Lemma rx_ok h data s :
  stream_ok s → header_ok h → stream_ok (rx h data s) ∧ same_stream s (rx h data s).
Proof.
  intros Hs Hh. unfold rx. destruct (bad_packet h data) eqn:Hb; [by apply reject_packet_ok|].
  assert (zlen data = hlen h) as Hl by (unfold bad_packet in Hb; by breflect).
  repeat case_match; auto using reject_packet_ok, on_request_ok, on_response_ok, on_rst_ok,
    on_connected_ok.
Qed.

(** *** Sending and consuming *)

Lemma request_credit_ok s :
  stream_ok s → stream_ok (request_credit s).2 ∧ same_stream s (request_credit s).2.
Proof.
  intros Hs. unfold request_credit. destruct (connection s) as [c|] eqn:Hc; [|done].
  destruct (is_credit_requested c); [done|].
  destruct (queue_reply _ s) as [q s1] eqn:Hq.
  pose proof Hs as [[_ _ _ _ _ _ _ H8] _]. destruct (H8 c Hc) as [W Q U K].
  apply queue_control_ok in Hq as (Hs1 & Hsame & Hcc & Hu & Hi & Hr); try done; [|apply W].
  destruct q; [|done]. rewrite Hcc, Hc. cbn [snd]. split; [|done].
  apply (ok_set_connection s1 c); try done; [congruence|].
  pose proof Hs1 as [[_ _ _ _ _ _ _ H8'] _].
  destruct (H8' c ltac:(congruence)) as [W' Q' U' K']. by split.
Qed.

Lemma send_capacity_le s :
  send_capacity s ≤ available_send_credit s ∨ send_capacity s = 0.
Proof. unfold send_capacity. case_match; [by right|left]. lia. Qed.

Lemma available_credit_bound s c n :
  connection s = Some c → 0 < n → n ≤ available_send_credit s →
  tx_shutdown c = false ∧
  unacked_bytes (tx_fwd_cnt c) (peer_fwd_cnt c) + n ≤ peer_buf_alloc c ∧
  unacked_bytes (tx_fwd_cnt c) (peer_fwd_cnt c) + n ≤ max_tx_bytes s.
Proof.
  intros Hc Hn. unfold available_send_credit. rewrite Hc.
  destruct (tx_shutdown c); [lia|]. cbv zeta. unfold sat_sub.
  destruct (peer_buf_alloc c <=? _) eqn:E1, (max_tx_bytes s <=? _) eqn:E2; breflect; lia.
Qed.

(** The state of the connection after [deliver] accepted [n] bytes. *)
Lemma conn_ok_sent s c n :
  stream_ok s → connection s = Some c → 0 < n → n ≤ send_capacity s →
  conn_ok s (set_tx_fwd (wrapping_add32 (tx_fwd_cnt c) n) c).
Proof.
  intros Hs Hc Hn Hcap. pose proof Hs as [[H1 _ _ _ _ _ _ H8] _].
  destruct (H8 c Hc) as [W Q U K]. destruct W as (W1 & W2 & W3 & W4 & W5 & W6).
  assert (n ≤ available_send_credit s) as Hav by (destruct (send_capacity_le s); lia).
  destruct (available_credit_bound s c n Hc Hn Hav) as (_ & _ & Hle).
  split; simpl; try done.
  - split_and!; try done. apply wrapping32_u32.
  - unfold unacked_bytes in *. rewrite queued_add32; try done; [lia|].
    unfold Z.shiftl in H1; simpl in H1. lia.
Qed.

Lemma deliver_sendable s c data n :
  stream_ok s → connection s = Some c → tx_shutdown c = false →
  sendable (mkReply 0 (host_header (host_port s) (guest_port s) n OP_RW 0 (rx_alloc s)
    (rx_fwd_cnt c)) data) (set_connection (Some (set_tx_fwd (wrapping_add32 (tx_fwd_cnt c) n) c)) s).
Proof.
  intros Hs Hc Hsh. pose proof Hs as [[_ _ _ _ _ _ _ H8] _].
  destruct (H8 c Hc) as [W Q U K]. split; [by left|]. split; [apply W|].
  intros _ c1 [= <-]. simpl. destruct (peer_receive_closed c); [|done].
  by destruct (K eq_refl); congruence.
Qed.

(** [deliver] on every branch. *)
Lemma deliver_spec data s r s' :
  stream_ok s → deliver data s = (r, s') →
  stream_ok s' ∧ same_stream s s' ∧
  (r = Ok tt → data ≠ [] → ∃ c, connection s = Some c ∧ zlen data ≤ send_capacity s ∧
     connection s' = Some (set_tx_fwd (wrapping_add32 (tx_fwd_cnt c) (zlen data)) c) ∧
     replies s' = replies s ++ [mkReply 0 (host_header (host_port s) (guest_port s) (zlen data)
        OP_RW 0 (rx_alloc s) (rx_fwd_cnt c)) data]).
Proof.
  intros Hs. unfold deliver. destruct (connection s) as [c|] eqn:Hc; [|by intros [= <- <-]].
  destruct (tx_shutdown c) eqn:Hsh; [by intros [= <- <-]|].
  destruct (zlen data =? 0) eqn:E0.
  { intros [= <- <-]. split_and!; try done. intros _ Hne. breflect. unfold zlen in E0.
    by destruct data. }
  destruct (U32_MAX <? zlen data) eqn:E1; [by intros [= <- <-]|].
  destruct (send_capacity s <? zlen data) eqn:E2.
  { intros [= <- <-]. destruct (request_credit_ok s Hs). case_match; split_and!; done. }
  cbv zeta. breflect. pose proof (zlen_nonneg data).
  destruct (queue_reply _ _) as [q s1] eqn:Hq.
  set (c1 := set_tx_fwd (wrapping_add32 (tx_fwd_cnt c) (zlen data)) c) in *.
  assert (stream_ok (set_connection (Some c1) s)) as Hs1.
  { eapply ok_set_connection; try done. apply conn_ok_sent; try done; lia. }
  apply queue_reply_spec in Hq as (Hc' & Hsame & Hup & Hi & Hd);
    [|apply Hs1|by apply deliver_sendable]. cbn [header host_header op] in Hd.
  destruct q; intros [= <- <-].
  - destruct Hd as [Hr Hconn]. cbn in Hconn. split_and!; try done.
    + split; [done|]. intros c2 Hc2. rewrite Hconn in Hc2. simplify_eq.
      destruct Hs as [_ Ha]. destruct Hsame as (_ & _ & -> & _). apply (Ha c Hc).
    + intros _ _. by exists c.
  - subst s1. split_and!; try done. eapply (ok_set_connection _ c1); try done.
    pose proof Hs as [[_ _ _ _ _ _ _ H8] _].
    eapply conn_ok_ext; [..|by apply H8]; done.
Qed.

Lemma shutdown_ok s : stream_ok s → stream_ok (shutdown s).2 ∧ same_stream s (shutdown s).2.
Proof.
  intros Hs. unfold shutdown. destruct (connection s) as [c|] eqn:Hc; [|done].
  destruct (tx_shutdown c) eqn:Ht; [done|]. destruct (can_queue_reply 0 s) eqn:Hcan; [|done].
  cbn [negb]. cbv zeta. set (c1 := set_shutdown _ _ _ c).
  pose proof Hs as [[_ _ _ _ _ _ _ H8] _]. destruct (H8 c Hc) as [W Q U K].
  assert (stream_ok (set_connection (Some c1) s)) as Hs1.
  { eapply ok_set_connection; try done. split; simpl; try done.
    intros Hcl. by destruct (K Hcl). }
  unfold respond. change (OP_SHUTDOWN =? OP_CREDIT_UPDATE) with false. cbv iota.
  destruct (queue_reply _ _) as [q s1] eqn:Hq.
  apply queue_control_ok in Hq as (Hs2 & Hsame & _); try done; [|apply W].
  destruct q; cbn [snd]; [done|]. by apply drop_after_ok.
Qed.

Lemma advance_receive_credit_ok n s s0 :
  stream_ok s0 → s = set_upstream (drop (Z.to_nat n) (upstream s0)) s0 →
  0 ≤ n ≤ zlen (upstream s0) →
  stream_ok (advance_receive_credit n s) ∧ same_stream s0 (advance_receive_credit n s).
Proof.
  intros Hs0 -> Hn. pose proof Hs0 as [[H1 H2 H3 H4 H5 H6 H7 H8] Ha].
  unfold advance_receive_credit. cbn [connection set_upstream].
  destruct (connection s0) as [c|] eqn:Hc.
  2:{ split; [|done]. rewrite (H6 eq_refl), drop_nil.
      split; [|intros c Hc1; simpl in Hc1; congruence].
      split; simpl; try done; [unfold zlen; simpl; lia|intros c Hc1; congruence]. }
  cbv zeta. destruct (H8 c eq_refl) as [W Q U K]. destruct W as (W1 & W2 & W3 & W4 & W5 & W6).
  assert ((if n <=? U32_MAX then n else U32_MAX) = n) as ->.
  { destruct (n <=? U32_MAX) eqn:E; [done|]. breflect. unfold Z.shiftl in H1; simpl in H1. ilia. }
  set (snap := set_rx_fwd (wrapping_add32 (rx_fwd_cnt c) n) c).
  set (c1 := if queued_bytes snap =? 0 then _ else snap).
  set (s1 := set_connection (Some c1) _).
  assert (rx_fwd_cnt c1 = rx_fwd_cnt snap ∧
          rx_credit_update_fwd_cnt c1 = rx_credit_update_fwd_cnt snap) as [Hf1 Hu1]
    by (unfold c1; by case_match).
  assert (zlen (drop (Z.to_nat n) (upstream s0)) = zlen (upstream s0) - n) as Hlen
    by (unfold zlen in *; rewrite length_drop; lia).
  assert (core s1) as Hcore.
  { split; unfold s1; simpl; try done; [rewrite Hlen; lia|intros Hi; by apply H7 in Hi|].
    intros c2 [= <-].
    assert (conn_ok (set_upstream (drop (Z.to_nat n) (upstream s0)) s0) snap) as Hsnap.
    { split; simpl; try done.
      - split_and!; try done. apply wrapping32_u32.
      - unfold queued_bytes in *; simpl. rewrite queued_sub32 by (done || lia). lia. }
    apply conn_ok_set_connection. unfold c1. case_match; [|done].
    destruct Hsnap. by split. }
  destruct (_ && _) eqn:Hb in |- *.
  - split; [|done]. split; [done|]. unfold s1. intros c2 [= <-]. right. breflect.
    unfold unadvertised. rewrite Hf1, Hu1. cbn [rx_alloc set_connection set_upstream] in *.
    eapply Z.lt_le_trans; [eassumption|]. apply Z.div_le_mono; [lia|apply Z.le_min_l].
  - destruct (respond snap OP_CREDIT_UPDATE 0 s1) as [q s2] eqn:Hq.
    apply (respond_credit_update snap c1) in Hq as (Hsame & Hcore2 & Hu & Hd); try done.
    destruct q; [by destruct Hd|]. by destruct (drop_connection_ok s2 Hcore2).
Qed.

Lemma consume_upstream_ok n s :
  stream_ok s → 0 ≤ n → stream_ok (consume_upstream n s) ∧ same_stream s (consume_upstream n s).
Proof.
  intros Hs Hn. unfold consume_upstream. cbv zeta. case_match; [done|].
  eapply advance_receive_credit_ok; try done. pose proof (zlen_nonneg (upstream s)). lia.
Qed.

Lemma take_reply_ok n s :
  stream_ok s → stream_ok (take_reply n s).2 ∧ same_stream s (take_reply n s).2.
Proof.
  intros Hs. unfold take_reply. destruct (replies s) as [|r rs] eqn:Hr; [done|].
  case_match; [done|]. cbn [snd]. split; [|done].
  destruct Hs as [[H1 H2 H3 [H4 H5] H6 H7 H8 H9] Ha]. split; [|done].
  rewrite Hr in *. rewrite fmap_cons, sumZ_cons in H4. inversion_clear H6.
  pose proof (reply_len_nonneg r). unfold reply_len at 1 in H4.
  assert (0 ≤ zlen (payload r)) by apply zlen_nonneg.
  split; simpl; try done.
  - unfold zlen in *; simpl in *. lia.
  - split; lia.
  - intros c Hc. eapply conn_ok_ext; [..|by apply H9]; try done. rewrite Hr. simpl.
    intros _ Hall. by inversion_clear Hall.
Qed.

(** ** Properties *)

(** C34. The host never sends more than the guest allowed. An accepted
    [deliver] of a non-empty payload queues exactly one data packet with those
    bytes at the end of the queue; counting it, the bytes the guest has not
    acknowledged fit the guest's advertised buffer and the host's own budget,
    the packet is at most 64 KiB, and the queue keeps its reserve for control
    packets. *)
Theorem send_within_credit data s s' :
  stream_ok s → data ≠ [] → deliver data s = (Ok tt, s') →
  ∃ c c', connection s = Some c ∧ connection s' = Some c' ∧
    (∃ h, replies s' = replies s ++ [mkReply 0 h data] ∧ op h = OP_RW ∧ hlen h = zlen data) ∧
    unacked_bytes (tx_fwd_cnt c') (peer_fwd_cnt c') =
      unacked_bytes (tx_fwd_cnt c) (peer_fwd_cnt c) + zlen data ∧
    unacked_bytes (tx_fwd_cnt c') (peer_fwd_cnt c') ≤ peer_buf_alloc c' ∧
    unacked_bytes (tx_fwd_cnt c') (peer_fwd_cnt c') ≤ max_tx_bytes s ∧
    zlen data ≤ MAX_PACKET_DATA_BYTES ∧
    zlen (replies s') ≤ MAX_QUEUED_REPLIES - RESERVED_CONTROL_REPLY_SLOTS ∧
    reply_bytes s' ≤ max_tx_bytes s.
Proof.
  intros Hs Hne Hd. destruct (deliver_spec data s _ _ Hs Hd) as (Hs' & Hsame & Hok).
  destruct (Hok eq_refl Hne) as (c & Hc & Hcap & Hc' & Hr).
  assert (0 < zlen data) as Hpos by (destruct data; [done|unfold zlen; simpl; lia]).
  assert (zlen data ≤ available_send_credit s) as Hav by (destruct (send_capacity_le s); lia).
  destruct (available_credit_bound s c _ Hc Hpos Hav) as (_ & Hb1 & Hb2).
  pose proof Hs as [[H1 _ _ _ _ _ _ H8] _]. destruct (H8 c Hc) as [(W1 & W2 & W3 & W4 & W5 & W6) _ _ _].
  assert (unacked_bytes (wrapping_add32 (tx_fwd_cnt c) (zlen data)) (peer_fwd_cnt c) =
    unacked_bytes (tx_fwd_cnt c) (peer_fwd_cnt c) + zlen data) as Hun.
  { unfold unacked_bytes in *. apply queued_add32; try done; [lia|].
    unfold Z.shiftl in H1; simpl in H1. lia. }
  eexists c, _. split; [done|]. split; [exact Hc'|]. cbn [tx_fwd_cnt peer_fwd_cnt peer_buf_alloc set_tx_fwd].
  rewrite Hun. split; [by eexists|]. split_and!; try done.
  - unfold send_capacity in Hcap. case_match; lia.
  - rewrite Hr, zlen_app. change (zlen [_]) with 1. unfold send_capacity in Hcap.
    case_match; breflect; lia.
  - destruct Hs' as [[_ _ _ [_ Hb] _ _ _ _] _]. by destruct Hsame as (_ & _ & _ & <-).
Qed.

(** *** Bytes arrive in order *)

(** Received packets on a live connection, and what the host does with it. *)
Inductive event :=
| ERx (h : VsockHeader) (data : list Z)
| EConsume (n : Z)
| EDeliver (data : list Z)
| EShutdown
| ERequestCredit
| ETakeReply (n : Z).

Definition event_ok (e : event) : Prop :=
  match e with
  | ERx h _ => header_ok h
  | EConsume n => 0 ≤ n
  | _ => True
  end.

Definition apply_event (e : event) (s : StreamConnection) : StreamConnection :=
  match e with
  | ERx h data => rx h data s
  | EConsume n => consume_upstream n s
  | EDeliver data => (deliver data s).2
  | EShutdown => (shutdown s).2
  | ERequestCredit => (request_credit s).2
  | ETakeReply n => (take_reply n s).2
  end.

(** The bytes an event adds to the received and to the consumed stream. *)
Definition received_by (e : event) : list Z :=
  match e with ERx h data => if op h =? OP_RW then data else [] | _ => [] end.
Definition consumed_by (e : event) (s : StreamConnection) : list Z :=
  match e with EConsume n => take (Z.to_nat n) (upstream s) | _ => [] end.

(** Follow one connection: [None] once it is gone. *)
Fixpoint follow (es : list event) (s : StreamConnection) (received consumed : list Z)
  : option (StreamConnection * list Z * list Z) :=
  match es with
  | [] => Some (s, received, consumed)
  | e :: es =>
    let s' := apply_event e s in
    match connection s' with
    | None => None
    | Some _ => follow es s' (received ++ received_by e) (consumed ++ consumed_by e s)
    end
  end.

Lemma apply_event_ok e s :
  stream_ok s → event_ok e → stream_ok (apply_event e s) ∧ same_stream s (apply_event e s).
Proof.
  intros Hs He. destruct e as [h data|n|data| | |n]; simpl in *.
  - by apply rx_ok.
  - by apply consume_upstream_ok.
  - destruct (deliver data s) as [r s'] eqn:Hd.
    destruct (deliver_spec data s r s' Hs Hd) as (? & ? & _). done.
  - by apply shutdown_ok.
  - by apply request_credit_ok.
  - by apply take_reply_ok.
Qed.

Lemma rst_connection gp hp s : connection (rst gp hp s).2 = connection s.
Proof. unfold rst, queue_reply. by destruct (can_queue_reply _ s). Qed.

Lemma reject_packet_drops h s c : connection s = Some c → connection (reject_packet h s) = None.
Proof.
  intros Hc. unfold reject_packet. cbv zeta.
  set (s1 := if negb _ then _ else s).
  assert (connection s1 = connection s) as Hs1.
  { unfold s1. case_match; [apply rst_connection|done]. }
  unfold is_live. clearbody s1. destruct (connection s1) eqn:E; [done|congruence].
Qed.

Lemma queue_reply_upstream r s : upstream (queue_reply r s).2 = upstream s.
Proof. unfold queue_reply. destruct (can_queue_reply _ s); [|done]. simpl. by case_match. Qed.

Lemma respond_upstream c o f s : upstream (respond c o f s).2 = upstream s.
Proof.
  unfold respond. destruct (if o =? _ then _ else _) as [[front r]|];
    [done|apply queue_reply_upstream].
Qed.

(** *** Only the host starts to connect *)

Definition no_connect (s s' : StreamConnection) : Prop := is_connecting s' = true → is_connecting s = true.

#[global] Instance no_connect_preorder : PreOrder no_connect.
Proof. split; [by intros s H|]. unfold no_connect. intros a b c. tauto. Qed.

Lemma queue_reply_no_connect r s : no_connect s (queue_reply r s).2.
Proof. unfold queue_reply. destruct (can_queue_reply _ s); [|by intro]. simpl. case_match; by intro. Qed.

Lemma rst_no_connect gp hp s : no_connect s (rst gp hp s).2.
Proof. apply queue_reply_no_connect. Qed.

Lemma respond_no_connect c o f s : no_connect s (respond c o f s).2.
Proof. unfold respond. destruct (if o =? _ then _ else _) as [[front r]|]; [by intro|apply queue_reply_no_connect]. Qed.

Lemma drop_no_connect s s' : no_connect s (drop_connection s').
Proof. by intro. Qed.

Lemma reject_packet_no_connect h s : no_connect s (reject_packet h s).
Proof.
  unfold reject_packet. cbv zeta. case_match; [by intro|]. case_match; [apply rst_no_connect|by intro].
Qed.

Lemma on_request_no_connect h s : no_connect s (on_request h s).
Proof.
  unfold on_request. case_match; [apply reject_packet_no_connect|]. cbv zeta.
  pose proof (respond_no_connect (new_connection (buf_alloc h)) OP_RESPONSE 0 s) as Hr.
  destruct (respond _ _ _ s) as [[] s']; exact Hr.
Qed.

Lemma note_peer_credit_no_connect h s : no_connect s (note_peer_credit h s).2.
Proof.
  unfold note_peer_credit, accept_peer_credit. repeat case_match; try (by intro);
  match goal with H : respond ?c ?o ?f ?x = (_, ?s') |- no_connect s ?s'' =>
    pose proof (respond_no_connect c o f x) as Hr; rewrite H in Hr; exact Hr end.
Qed.

Lemma on_credit_request_no_connect s : no_connect s (on_credit_request s).
Proof.
  unfold on_credit_request. destruct (connection s) as [c|]; [|by intro]. cbv zeta.
  set (c' := set_receive_requested _ c).
  pose proof (respond_no_connect c' OP_CREDIT_UPDATE 0 (set_connection (Some c') s)) as Hr.
  destruct (respond _ _ _ _) as [[] s']; [exact Hr|by intro].
Qed.

Lemma on_connected_no_connect h data s : no_connect s (on_connected h data s).
Proof.
  unfold on_connected. destruct (connection s); [|apply rst_no_connect].
  case_match; [apply reject_packet_no_connect|].
  pose proof (note_peer_credit_no_connect h s) as Hr. destruct (note_peer_credit h s) as [q s1]. cbn [snd] in Hr.
  etransitivity; [exact Hr|]. repeat case_match; try (by intro).
  - unfold on_shutdown. repeat case_match; by intro.
  - unfold on_data. repeat case_match; by intro.
  - apply on_credit_request_no_connect.
Qed.

Lemma rx_no_connect h data s : no_connect s (rx h data s).
Proof.
  unfold rx. repeat case_match; eauto using reject_packet_no_connect, on_request_no_connect, on_connected_no_connect.
  - unfold on_response. case_match; by intro.
  - unfold on_rst. case_match; by intro.
Qed.

(** A packet leaves a connection connected or ends it. *)
Lemma rx_stays_connected h data s :
  stream_ok s → connection s ≠ None → is_live (rx h data s) = true → connection (rx h data s) ≠ None.
Proof.
  intros [Hc _] Hs. unfold is_live. destruct (connection (rx h data s)); [done|]. intros Hl%rx_no_connect.
  by rewrite (so_connecting s Hc Hl) in Hs.
Qed.

(** What a packet does to the buffer of a connection that survives it. *)
Lemma rx_upstream h data s c c' :
  stream_ok s → header_ok h → connection s = Some c → connection (rx h data s) = Some c' →
  upstream (rx h data s) = upstream s ++ (if op h =? OP_RW then data else []).
Proof.
  intros Hs Hh Hc. unfold rx. destruct (bad_packet h data); [by rewrite (reject_packet_drops _ _ c)|].
  destruct (_ && _); [by rewrite (reject_packet_drops _ _ c)|].
  assert (is_live s = true) as Hl by (unfold is_live; by rewrite Hc).
  destruct (op h =? OP_REQUEST).
  { unfold on_request. rewrite Hl, orb_true_r. by rewrite (reject_packet_drops _ _ c). }
  destruct (op h =? OP_RESPONSE).
  { unfold on_response. pose proof Hs as [[_ _ _ _ _ _ H7 _] _].
    destruct (is_connecting s) eqn:Hi; [by rewrite H7 in Hc|]. simpl.
    by rewrite (reject_packet_drops _ _ c). }
  destruct (op h =? OP_RST); [unfold on_rst; by rewrite Hl|].
  destruct (_ || _); [|by rewrite (reject_packet_drops _ _ c)].
  unfold on_connected. rewrite Hc.
  destruct (_ && _); [by rewrite (reject_packet_drops _ _ c)|].
  destruct (note_peer_credit h s) as [q s1] eqn:Hq.
  pose proof (note_peer_credit_ok h s Hs Hh) as Hn. rewrite Hq in Hn. cbn [fst snd] in Hn.
  destruct Hn as (_ & _ & Hup). destruct q; cbn [negb].
  2:{ intros Hc'. exfalso. revert Hq Hc'. unfold note_peer_credit, accept_peer_credit. rewrite Hc.
      repeat (case_match; simpl); intros; by simplify_eq/=. }
  destruct (Hup eq_refl) as (Hu & c1 & c2 & _ & Hc2 & _). rewrite <- Hu.
  destruct (op h =? OP_SHUTDOWN) eqn:Es.
  { breflect. rewrite Es. intros _. unfold on_shutdown. rewrite Hc2. simpl.
    case_match; simpl; by rewrite app_nil_r. }
  destruct (op h =? OP_RW).
  { unfold on_data. rewrite Hc2. by case_match. }
  rewrite app_nil_r. destruct (op h =? OP_CREDIT_REQUEST); [|done].
  unfold on_credit_request. rewrite Hc2. cbv zeta.
  pose proof (respond_upstream (set_receive_requested (negb (queued_bytes c2 =? 0)) c2)
    OP_CREDIT_UPDATE 0 (set_connection (Some (set_receive_requested (negb (queued_bytes c2 =? 0)) c2)) s1)).
  by destruct (respond _ _ _ _) as [[|] s2].
Qed.

Lemma consume_upstream_buffer n s c' :
  0 ≤ n → connection (consume_upstream n s) = Some c' →
  upstream (consume_upstream n s) = drop (Z.to_nat n) (upstream s).
Proof.
  intros Hn. unfold consume_upstream. cbv zeta.
  assert (drop (Z.to_nat n) (upstream s) =
    drop (Z.to_nat (Z.min n (zlen (upstream s)))) (upstream s)) as ->.
  { destruct (decide (n ≤ zlen (upstream s))); [by rewrite Z.min_l|].
    rewrite Z.min_r by lia. unfold zlen in *. rewrite !drop_ge by lia. done. }
  set (k := Z.min _ _). destruct (k =? 0) eqn:Ek; [breflect; by rewrite Ek|].
  unfold advance_receive_credit. cbn [connection set_upstream].
  destruct (connection s); [|done]. cbv zeta.
  case_match; [done|].
  match goal with |- context [respond ?a ?b ?c ?d] => pose proof (respond_upstream a b c d) end.
  by destruct (respond _ _ _ _) as [[|] s2].
Qed.

Lemma send_upstream e s :
  match e with ERx _ _ | EConsume _ => False | _ => True end →
  stream_ok s → connection (apply_event e s) ≠ None → upstream (apply_event e s) = upstream s.
Proof.
  destruct e as [| |data| | |n]; intros He Hs Hc; try done; simpl in *.
  - revert Hc. unfold deliver. repeat case_match; simpl; try done; intros _;
      try (unfold request_credit; repeat (case_match; simplify_eq/=); try done);
      repeat match goal with H : queue_reply ?r ?s' = (_, ?s1) |- _ =>
        pose proof (queue_reply_upstream r s') as Hu; rewrite H in Hu; clear H end; done.
  - revert Hc. unfold shutdown. repeat case_match; simpl; try done; intros _;
      repeat match goal with H : respond ?a ?b ?c ?d = (_, ?s1) |- _ =>
        pose proof (respond_upstream a b c d) as Hu; rewrite H in Hu; clear H end; done.
  - unfold request_credit. repeat (case_match; simplify_eq/=); try done;
      repeat match goal with H : queue_reply ?r ?s' = (_, ?s1) |- _ =>
        pose proof (queue_reply_upstream r s') as Hu; rewrite H in Hu; clear H end; done.
  - unfold take_reply. by repeat case_match.
Qed.

Lemma event_upstream e s c c' :
  stream_ok s → event_ok e → connection s = Some c → connection (apply_event e s) = Some c' →
  upstream s ++ received_by e = consumed_by e s ++ upstream (apply_event e s).
Proof.
  intros Hs He Hc Hc'. destruct e as [h data|n|data| | |n]; simpl received_by; simpl consumed_by.
  - symmetry. exact (rx_upstream h data s c c' Hs He Hc Hc').
  - simpl in *. rewrite (consume_upstream_buffer n s c') by done. by rewrite app_nil_r, take_drop.
  - rewrite (send_upstream (EDeliver data) s), app_nil_r by (done || congruence). done.
  - rewrite (send_upstream EShutdown s), app_nil_r by (done || congruence). done.
  - rewrite (send_upstream ERequestCredit s), app_nil_r by (done || congruence). done.
  - rewrite (send_upstream (ETakeReply n) s), app_nil_r by (done || congruence). done.
Qed.

(** Guest bytes reach the host in order, once. While a connection lives,
    whatever packets arrive and whatever the host sends or consumes in
    between, the bytes of the accepted data packets are exactly the bytes the
    host consumed followed by the bytes still buffered; and the buffer never
    exceeds the advertised allocation. *)
Theorem stream_fifo es s c s' received consumed :
  stream_ok s → connection s = Some c → Forall event_ok es →
  follow es s (upstream s) [] = Some (s', received, consumed) →
  received = consumed ++ upstream s' ∧ zlen (upstream s') ≤ rx_alloc s ∧ stream_ok s'.
Proof.
  assert (∀ es s c r k, stream_ok s → connection s = Some c → Forall event_ok es →
    r = k ++ upstream s → follow es s r k = Some (s', received, consumed) →
    received = consumed ++ upstream s' ∧ stream_ok s' ∧ same_stream s s') as Hgen.
  { clear. induction es as [|e es IH]; intros s c r k Hs Hc Hes Hr Hf; simpl in Hf.
    { simplify_eq. by split_and!. }
    inversion_clear Hes as [|? ? He Hes'].
    destruct (connection (apply_event e s)) as [c1|] eqn:Hc1; [|done].
    destruct (apply_event_ok e s Hs He) as [Hs1 Hsame].
    pose proof (event_upstream e s c c1 Hs He Hc Hc1) as Hev.
    edestruct IH as (? & ? & ?); [exact Hs1|exact Hc1|done| |exact Hf|].
    - rewrite Hr, <- app_assoc, Hev, app_assoc. done.
    - split_and!; try done. by etransitivity. }
  intros Hs Hc Hes Hf. destruct (Hgen es s c (upstream s) [] Hs Hc Hes eq_refl Hf) as (Hr & Hs' & Hsame).
  split_and!; try done. destruct Hsame as (_ & _ & <- & _). by destruct Hs' as [[]].
Qed.

Lemma follow_ok es s r k s' received consumed :
  stream_ok s → Forall event_ok es → follow es s r k = Some (s', received, consumed) →
  stream_ok s' ∧ same_stream s s'.
Proof.
  revert s r k. induction es as [|e es IH]; intros s r k Hs Hes Hf; simpl in Hf; [by simplify_eq|].
  inversion_clear Hes as [|? ? He Hes'].
  destruct (connection (apply_event e s)) as [c1|]; [|done].
  destruct (apply_event_ok e s Hs He) as [Hs1 Hsame].
  destruct (IH _ _ _ Hs1 Hes' Hf). split; [done|]. by etransitivity.
Qed.

Lemma sub32_split a b c :
  wrapping_sub32 a b + wrapping_sub32 b c < 4294967296 →
  wrapping_sub32 a c = wrapping_sub32 a b + wrapping_sub32 b c.
Proof.
  unfold wrapping_sub32, wrap32. intros H. replace (a - c) with ((a - b) + (b - c)) by lia.
  rewrite Zplus_mod. apply Z.mod_small.
  pose proof (Z.mod_pos_bound (a - b) 4294967296). pose proof (Z.mod_pos_bound (b - c) 4294967296). lia.
Qed.

(** The guest is never left without a window. In every state a connection
    reaches, the bytes the guest counts against the credit it was last told
    about are the bytes still buffered and the credit not yet advertised, and
    the latter is less than half the allocation; so once the host has consumed
    everything, the guest may send at least half the allocation. *)
Theorem receive_window_open es s s' c' received consumed :
  stream_ok s → Forall event_ok es →
  follow es s [] [] = Some (s', received, consumed) → connection s' = Some c' →
  let in_flight := wrapping_sub32 (rx_received c') (rx_credit_update_fwd_cnt c') in
  in_flight = zlen (upstream s') + unadvertised c' ∧
  (upstream s' = [] → rx_alloc s / 2 ≤ rx_alloc s - in_flight).
Proof.
  intros Hs Hes Hf Hc'.
  destruct (follow_ok _ _ _ _ _ _ _ Hs Hes Hf) as [[[H1 H2 _ _ _ _ _ H8] Ha] Hsame].
  destruct (H8 c' Hc') as [_ Q _ _]. specialize (Ha c' Hc').
  destruct Hsame as (_ & _ & Hra & _). rewrite Hra in *. cbv zeta.
  assert (rx_alloc s / 2 ≤ rx_alloc s) by (apply Z.div_le_upper_bound; lia).
  assert (rx_alloc s / 2 + rx_alloc s / 2 ≤ rx_alloc s).
  { pose proof (Z.mul_div_le (rx_alloc s) 2). lia. }
  assert (wrapping_sub32 (rx_received c') (rx_credit_update_fwd_cnt c') =
    zlen (upstream s') + unadvertised c') as Hfl.
  { unfold unadvertised, queued_bytes in *. rewrite <- Q. apply sub32_split. rewrite Q.
    unfold Z.shiftl in H1; simpl in H1. lia. }
  rewrite Hfl. split; [done|]. intros Hnil. rewrite Hnil. change (zlen []) with 0.
  pose proof (Z.div_pos (rx_alloc s) 2). lia.
Qed.

(** A malformed packet kills the connection it names and nothing else
    happens: the stream is left unconnected with an empty receive buffer, no
    byte of the packet is accepted, and, unless the packet was itself a reset,
    one reset is queued for the guest when there is room. *)
Theorem malformed_packet_resets h data s :
  stream_ok s → bad_packet h data = true →
  let s' := rx h data s in
  connection s' = None ∧ is_connecting s' = false ∧ upstream s' = [] ∧
  replies s' = (if negb (op h =? OP_RST) && can_queue_reply 0 s
                then replies s ++ [mkReply 0 (host_header (dst_port h) (src_port h) 0 OP_RST 0 0 0) []]
                else replies s).
Proof.
  intros Hs Hb. cbv zeta. unfold rx. rewrite Hb. unfold reject_packet. cbv zeta.
  set (s1 := if negb _ then _ else s).
  assert (connection s1 = connection s ∧ is_connecting s1 = is_connecting s ∧
    upstream s1 = upstream s ∧ replies s1 = (if negb (op h =? OP_RST) && can_queue_reply 0 s
                then replies s ++ [mkReply 0 (host_header (dst_port h) (src_port h) 0 OP_RST 0 0 0) []]
                else replies s)) as (H1 & H2 & H3 & H4).
  { unfold s1. destruct (op h =? OP_RST); [done|]. simpl. unfold rst, queue_reply.
    change (zlen (payload _)) with 0. by destruct (can_queue_reply 0 s). }
  clearbody s1. destruct (is_live s1) eqn:Hl; [by rewrite <- H4|].
  apply not_live in Hl as [Hn Hi]. split_and!; try done. rewrite H3.
  destruct Hs as [Hc _]. apply so_none; [done|congruence].
Qed.

(** *** Witnesses *)

(** A guest opens a flow, sends five bytes, the host reads two of them. *)
Definition sample_open : VsockHeader := mkHeader GUEST_CID HOST_CID 4000 TCP_PORT 0 1 OP_REQUEST 0 65536 0.
Definition sample_data : VsockHeader := mkHeader GUEST_CID HOST_CID 4000 TCP_PORT 5 1 OP_RW 0 65536 0.
Definition sample_stream : StreamConnection :=
  rx sample_open [] (new 4000 TCP_PORT FLOW_UPSTREAM_BYTES FLOW_REPLY_BYTES).

Lemma sample_open_ok : header_ok sample_open ∧ header_ok sample_data.
Proof. by vm_compute. Qed.

Lemma sample_stream_ok : stream_ok sample_stream.
Proof. apply rx_ok; [|apply sample_open_ok]. by apply core_new; vm_compute. Qed.

Definition sample_events : list event :=
  [ERx sample_data [104; 101; 108; 108; 111]; EDeliver [1; 2; 3]; EConsume 2; ETakeReply 100].

Lemma sample_events_ok : Forall event_ok sample_events.
Proof. repeat constructor; try apply sample_open_ok; simpl; done. Qed.

Lemma send_within_credit_witness :
  ∃ c', connection (deliver [1; 2; 3] sample_stream).2 = Some c' ∧
    unacked_bytes (tx_fwd_cnt c') (peer_fwd_cnt c') ≤ peer_buf_alloc c'.
Proof.
  destruct (send_within_credit [1; 2; 3] sample_stream (deliver [1; 2; 3] sample_stream).2)
    as (c & c' & _ & H & _ & _ & Hle & _).
  - exact sample_stream_ok.
  - discriminate.
  - vm_compute. reflexivity.
  - exists c'. split; [exact H|exact Hle].
Defined.

Lemma stream_fifo_witness :
  ∃ s', follow sample_events sample_stream [] [] =
          Some (s', [104; 101; 108; 108; 111], [104; 101]) ∧
    [104; 101; 108; 108; 111] = [104; 101] ++ upstream s'.
Proof.
  eexists. split; [vm_compute; reflexivity|].
  eapply (stream_fifo sample_events sample_stream).
  - exact sample_stream_ok.
  - vm_compute. reflexivity.
  - exact sample_events_ok.
  - vm_compute. reflexivity.
Defined.

Lemma receive_window_open_witness :
  ∃ s' c' r k, follow sample_events sample_stream [] [] = Some (s', r, k) ∧
    connection s' = Some c' ∧
    wrapping_sub32 (rx_received c') (rx_credit_update_fwd_cnt c') = zlen (upstream s') + unadvertised c'.
Proof.
  eexists _, _, _, _. split; [vm_compute; reflexivity|]. split; [vm_compute; reflexivity|].
  eapply (receive_window_open sample_events sample_stream).
  - exact sample_stream_ok.
  - exact sample_events_ok.
  - vm_compute. reflexivity.
  - vm_compute. reflexivity.
Defined.

Lemma malformed_packet_resets_witness :
  connection (rx sample_data [1] sample_stream) = None.
Proof.
  apply (malformed_packet_resets sample_data [1] sample_stream).
  - exact sample_stream_ok.
  - vm_compute. reflexivity.
Defined.

End Stream.
