(* ===== verification/VsockSwitch.v ===== *)
(** * The vsock switch

    [components/vsock-device/src/switch.rs], [Endpoint] and [VsockSwitch]:
    the fixed agent and control endpoints, at most
    [network_socket_capacity] flows, connection numbers, retirement, and the
    rotation that picks the next packet for the guest. An operation returns
    [None] where the source aborts the process, which happens only when the
    64-bit connection numbers run out. *)

From stdpp Require Import relations.
From S2P Require Import Prelude VsockPacket VsockStream.
Local Open Scope Z_scope.

Definition MAX_REJECTED_RESETS : Z := 32.

Inductive Role := Agent | Control | Tcp | Udp | Publication.
#[export] Instance Role_eq_dec : EqDecision Role.
Proof. solve_decision. Defined.

Definition buffers (r : Role) : Z * Z :=
  match r with
  | Agent => (AGENT_UPSTREAM_BYTES, AGENT_REPLY_BYTES)
  | Control => (CONTROL_UPSTREAM_BYTES, CONTROL_REPLY_BYTES)
  | Tcp | Udp | Publication => (FLOW_UPSTREAM_BYTES, FLOW_REPLY_BYTES)
  end.

Record ConnectionId := mkId {
  id_role : Role;
  id_guest_port : Z;
  id_host_port : Z;
  id_number : Z;
}.
#[export] Instance ConnectionId_eq_dec : EqDecision ConnectionId.
Proof. solve_decision. Defined.

Record Endpoint := mkEndpoint {
  ep_role : Role;
  ep_stream : StreamConnection;
  ep_number : Z;
  ep_retiring : option Z;
}.

Definition FIXED_ENDPOINTS : Z := 2.
Definition REPLY_CLASSES : Z := FIXED_ENDPOINTS + 1.

Record VsockSwitch := mkSwitch {
  endpoints : list Endpoint;
  next_connection_number : Z;
  network_enabled : bool;
  network_socket_capacity : Z;
  next_reply : Z;
  next_flow_reply : Z;
  rejected : list Reply;
}.

Module Switch.

(** ** Endpoints *)

Definition new_endpoint (role : Role) (guest_port host_port number : Z) : Endpoint :=
  let '(rx_alloc, max_tx_bytes) := buffers role in
  mkEndpoint role (Stream.new guest_port host_port rx_alloc max_tx_bytes) number None.

Definition set_stream (s : StreamConnection) (e : Endpoint) : Endpoint :=
  mkEndpoint (ep_role e) s (ep_number e) (ep_retiring e).

Definition identity (number : Z) (e : Endpoint) : ConnectionId :=
  mkId (ep_role e) (guest_port (ep_stream e)) (host_port (ep_stream e)) number.

Definition connected (e : Endpoint) : option ConnectionId :=
  (λ _, identity (ep_number e) e) <$> connection (ep_stream e).

Definition is_live (e : Endpoint) : bool := Stream.is_live (ep_stream e).

Definition retire (number : Z) (e : Endpoint) : Endpoint :=
  let '(n, r) := if is_live e || bool_decide (ep_retiring e = None)
                 then (number, Some (ep_number e)) else (ep_number e, ep_retiring e) in
  let s := Stream.drop_connection (ep_stream e) in
  mkEndpoint (ep_role e)
    (Stream.set_replies (List.filter (λ r, op (header r) =? OP_RST) (replies s)) 0 s) n r.

(** ** The switch *)

Definition set_endpoints l sw := mkSwitch l (next_connection_number sw) (network_enabled sw)
  (network_socket_capacity sw) (next_reply sw) (next_flow_reply sw) (rejected sw).
Definition set_number n sw := mkSwitch (endpoints sw) n (network_enabled sw)
  (network_socket_capacity sw) (next_reply sw) (next_flow_reply sw) (rejected sw).
Definition set_network b sw := mkSwitch (endpoints sw) (next_connection_number sw) b
  (network_socket_capacity sw) (next_reply sw) (next_flow_reply sw) (rejected sw).
Definition set_next_reply n sw := mkSwitch (endpoints sw) (next_connection_number sw)
  (network_enabled sw) (network_socket_capacity sw) n (next_flow_reply sw) (rejected sw).
Definition set_next_flow n sw := mkSwitch (endpoints sw) (next_connection_number sw)
  (network_enabled sw) (network_socket_capacity sw) (next_reply sw) n (rejected sw).
Definition set_rejected l sw := mkSwitch (endpoints sw) (next_connection_number sw)
  (network_enabled sw) (network_socket_capacity sw) (next_reply sw) (next_flow_reply sw) l.

Definition with_network_socket_capacity (enabled : bool) (capacity : Z) : VsockSwitch :=
  mkSwitch [new_endpoint Agent AGENT_PORT AGENT_PORT 1;
            new_endpoint Control CONTROL_PORT CONTROL_PORT 2] 3 enabled
    (Z.min capacity MAX_NETWORK_SOCKETS) 0 0 [].

Definition with_network (enabled : bool) : VsockSwitch :=
  with_network_socket_capacity enabled MAX_NETWORK_SOCKETS.

Definition new : VsockSwitch := with_network_socket_capacity true MAX_NETWORK_SOCKETS.

Definition allocate_connection_number (sw : VsockSwitch) : option (Z * VsockSwitch) :=
  n ← checked_add64 (next_connection_number sw) 1;
  Some (next_connection_number sw, set_number n sw).

Definition in_publication_ports (port : Z) : bool :=
  (fst PUBLICATION_HOST_PORTS <=? port) && (port <? snd PUBLICATION_HOST_PORTS).

Definition classify (guest_port host_port : Z) (sw : VsockSwitch) : option Role :=
  if (guest_port =? AGENT_PORT) && (host_port =? AGENT_PORT) then Some Agent else
  if (guest_port =? CONTROL_PORT) && (host_port =? CONTROL_PORT) && network_enabled sw
  then Some Control else
  if (host_port =? TCP_PORT) && network_enabled sw && is_flow_guest_port guest_port
  then Some Tcp else
  if (host_port =? UDP_PORT) && network_enabled sw && is_flow_guest_port guest_port
  then Some Udp else
  if (guest_port =? PUBLICATION_PORT) && network_enabled sw && in_publication_ports host_port
  then Some Publication else None.

Definition at_ports (gp hp : Z) (e : Endpoint) : bool :=
  (guest_port (ep_stream e) =? gp) && (host_port (ep_stream e) =? hp).

(** [iter().position(..)] *)
Fixpoint position {A} (f : A → bool) (l : list A) : option nat :=
  match l with
  | [] => None
  | x :: l => if f x then Some 0%nat else S <$> position f l
  end.

Definition endpoint_index (gp hp : Z) (sw : VsockSwitch) : option nat :=
  position (at_ports gp hp) (endpoints sw).

(** The endpoint at a pair of ports with its index. *)
Definition endpoint_at (gp hp : Z) (sw : VsockSwitch) : option (nat * Endpoint) :=
  i ← endpoint_index gp hp sw; e ← endpoints sw !! i; Some (i, e).

Definition connection_index (id : ConnectionId) (sw : VsockSwitch) : option (nat * Endpoint) :=
  p ← endpoint_at (id_guest_port id) (id_host_port id) sw;
  if bool_decide (connected p.2 = Some id) then Some p else None.

Definition set_endpoint (i : nat) (e : Endpoint) (sw : VsockSwitch) : VsockSwitch :=
  set_endpoints (<[i := e]> (endpoints sw)) sw.

Definition reject (h : VsockHeader) (sw : VsockSwitch) : VsockSwitch :=
  if negb (op h =? OP_RST) && (zlen (rejected sw) <? MAX_REJECTED_RESETS) then
    let number := match endpoint_at (src_port h) (dst_port h) sw with
                  | Some (_, e) => ep_number e
                  | None => 0
                  end in
    set_rejected (rejected sw ++
      [mkReply number (Stream.host_header (dst_port h) (src_port h) 0 OP_RST 0 0 0) []]) sw
  else sw.

Definition network_socket_count (sw : VsockSwitch) : Z := zlen (endpoints sw) - FIXED_ENDPOINTS.

Definition retire_endpoint (i : nat) (sw : VsockSwitch) : option VsockSwitch :=
  p ← allocate_connection_number sw;
  let '(number, sw) := p in
  e ← endpoints sw !! i;
  Some (set_endpoint i (retire number e) sw).

(** Resets kept for the same pair of ports are dropped. *)
Definition forget_rejected (gp hp : Z) (sw : VsockSwitch) : VsockSwitch :=
  set_rejected (List.filter (λ r, negb (dst_port (header r) =? gp) ||
                                  negb (src_port (header r) =? hp)) (rejected sw)) sw.

(** The checks before a packet may open a flow. *)
Definition refuses_flow (role : Role) (h : VsockHeader) (bs : list Z) (sw : VsockSwitch) : bool :=
  negb (bool_decide (role = Tcp ∨ role = Udp)) || negb (op h =? OP_REQUEST)
  || negb (type_ h =? TYPE_STREAM) || negb (src_cid h =? GUEST_CID)
  || negb (dst_cid h =? HOST_CID) || negb (hlen h =? 0) || negb (zlen bs =? 0)
  || negb (flags h =? 0) || negb (fwd_cnt h =? 0)
  || (network_socket_capacity sw <=? network_socket_count sw).

(** A packet for the endpoint at an index. *)
Definition rx_at (i : nat) (h : VsockHeader) (bs : list Z) (sw : VsockSwitch)
  : option (option ConnectionId * VsockSwitch) :=
  e ← endpoints sw !! i;
  if bool_decide (ep_retiring e ≠ None) then Some (None, reject h sw) else
  let touched := identity (ep_number e) e in
  let e' := set_stream (Stream.rx h bs (ep_stream e)) e in
  let sw := set_endpoint i e' sw in
  sw ← (if is_live e && negb (is_live e') then retire_endpoint i sw else Some sw);
  Some (Some touched, sw).

Definition rx (h : VsockHeader) (bs : list Z) (sw : VsockSwitch)
  : option (option ConnectionId * VsockSwitch) :=
  match classify (src_port h) (dst_port h) sw with
  | None => Some (None, reject h sw)
  | Some role =>
    match endpoint_index (src_port h) (dst_port h) sw with
    | Some i => rx_at i h bs sw
    | None =>
      if refuses_flow role h bs sw then Some (None, reject h sw) else
      let sw := forget_rejected (src_port h) (dst_port h) sw in
      p ← allocate_connection_number sw;
      let '(number, sw) := p in
      let sw := set_endpoints (endpoints sw ++
                  [new_endpoint role (src_port h) (dst_port h) number]) sw in
      rx_at (length (endpoints sw) - 1) h bs sw
    end
  end.

Definition connect_publication (host_port : Z) (sw : VsockSwitch)
  : option (result VsockError ConnectionId * VsockSwitch) :=
  if negb (network_enabled sw) || negb (in_publication_ports host_port)
     || (network_socket_capacity sw <=? network_socket_count sw)
  then Some (Err Backpressure, sw) else
  if bool_decide (endpoint_index PUBLICATION_PORT host_port sw ≠ None)
  then Some (Err Busy, sw) else
  p ← allocate_connection_number sw;
  let '(number, sw) := p in
  let e := new_endpoint Publication PUBLICATION_PORT host_port number in
  let '(queued, s) := Stream.request (ep_stream e) in
  if negb queued then Some (Err Backpressure, sw) else
  let e := set_stream s e in
  Some (Ok (identity number e), set_endpoints (endpoints sw ++ [e]) sw).

(** ** Queries *)

Definition is_connecting (id : ConnectionId) (sw : VsockSwitch) : bool :=
  match endpoint_at (id_guest_port id) (id_host_port id) sw with
  | Some (_, e) => (ep_number e =? id_number id) && VsockStream.is_connecting (ep_stream e)
  | None => false
  end.

Definition connection_for (gp hp : Z) (sw : VsockSwitch) : option ConnectionId :=
  p ← endpoint_at gp hp sw; connected p.2.

Definition connection (role : Role) (sw : VsockSwitch) : option ConnectionId :=
  match role with
  | Agent => connection_for AGENT_PORT AGENT_PORT sw
  | Control => connection_for CONTROL_PORT CONTROL_PORT sw
  | _ => None
  end.

Definition is_current (id : ConnectionId) (sw : VsockSwitch) : bool :=
  bool_decide (connection_index id sw ≠ None).

Definition connections (sw : VsockSwitch) : list ConnectionId :=
  omap connected (endpoints sw).

Definition flow_connections (sw : VsockSwitch) : list ConnectionId :=
  omap connected (drop 2 (endpoints sw)).

Definition connected_stream (id : ConnectionId) (sw : VsockSwitch) : option StreamConnection :=
  p ← connection_index id sw; Some (ep_stream p.2).

(** ** Retirement *)

Definition retire_connection (id : ConnectionId) (sw : VsockSwitch)
  : option (bool * VsockSwitch) :=
  match endpoint_at (id_guest_port id) (id_host_port id) sw with
  | None => Some (false, sw)
  | Some (i, e) =>
    if negb (bool_decide (ep_role e = id_role id))
       || negb (bool_decide (ep_retiring e = Some (id_number id)))
       || negb (zlen (replies (ep_stream e)) =? 0)
    then Some (false, sw) else
    sw ← (if FIXED_ENDPOINTS <=? Z.of_nat i
          then Some (set_endpoints (take i (endpoints sw) ++ drop (S i) (endpoints sw)) sw)
          else p ← allocate_connection_number sw;
               let '(number, sw) := p in
               Some (set_endpoint i (mkEndpoint (ep_role e) (ep_stream e) number None) sw));
    Some (true, forget_rejected (id_guest_port id) (id_host_port id) sw)
  end.

Definition retirements (sw : VsockSwitch) : list ConnectionId :=
  omap (λ e, (λ number, identity number e) <$> ep_retiring e) (endpoints sw).

Definition is_retiring (id : ConnectionId) (sw : VsockSwitch) : bool :=
  match endpoint_at (id_guest_port id) (id_host_port id) sw with
  | Some (_, e) => bool_decide (ep_role e = id_role id) &&
                   bool_decide (ep_retiring e = Some (id_number id))
  | None => false
  end.

(** A [for index in a..b] loop. *)
Fixpoint for_each (idxs : list nat) (f : nat → VsockSwitch → option VsockSwitch) (sw : VsockSwitch)
  : option VsockSwitch :=
  match idxs with
  | [] => Some sw
  | i :: idxs => sw ← f i sw; for_each idxs f sw
  end.

Definition clear_replies (i : nat) (sw : VsockSwitch) : option VsockSwitch :=
  e ← endpoints sw !! i;
  Some (set_endpoint i (set_stream (Stream.set_replies [] (reply_bytes (ep_stream e))
                                      (ep_stream e)) e) sw).

Definition reset_connections (sw : VsockSwitch) : option VsockSwitch :=
  sw ← for_each (seq 0 (length (endpoints sw))) (λ i sw,
         e ← endpoints sw !! i;
         sw ← (if is_live e then retire_endpoint i sw else Some sw);
         clear_replies i sw) sw;
  Some (set_rejected [] sw).

Definition reset_network_connections (sw : VsockSwitch) : option VsockSwitch :=
  for_each (seq 1 (length (endpoints sw) - 1)) (λ i sw,
    e ← endpoints sw !! i;
    if is_live e then
      let s := (Stream.rst (guest_port (ep_stream e)) (host_port (ep_stream e))
                  (ep_stream e)).2 in
      retire_endpoint i (set_endpoint i (set_stream s e) sw)
    else Some sw) sw.

Definition disable_network (sw : VsockSwitch) : option VsockSwitch :=
  reset_network_connections (set_network false sw).

(** ** Streams of one connection *)

Definition input_budget (id : ConnectionId) (sw : VsockSwitch) : Z :=
  match connected_stream id sw with Some s => rx_alloc s | None => 0 end.

Definition output_budget (id : ConnectionId) (sw : VsockSwitch) : Z :=
  match connected_stream id sw with Some s => max_tx_bytes s | None => 0 end.

Definition available_send_credit (id : ConnectionId) (sw : VsockSwitch) : Z :=
  match connected_stream id sw with Some s => Stream.available_send_credit s | None => 0 end.

Definition send_capacity (id : ConnectionId) (sw : VsockSwitch) : Z :=
  match connected_stream id sw with Some s => Stream.send_capacity s | None => 0 end.

(** [stream_mut] and an operation on the stream. *)
Definition on_stream {A} (id : ConnectionId) (f : StreamConnection → result VsockError A * StreamConnection)
    (sw : VsockSwitch) : result VsockError A * VsockSwitch :=
  match connection_index id sw with
  | None => (Err UnknownConnection, sw)
  | Some (i, e) => let '(r, s) := f (ep_stream e) in (r, set_endpoint i (set_stream s e) sw)
  end.

Definition request_credit (id : ConnectionId) (sw : VsockSwitch)
  : result VsockError bool * VsockSwitch :=
  on_stream id (λ s, let '(b, s) := Stream.request_credit s in (Ok b, s)) sw.

Definition deliver (id : ConnectionId) (bs : list Z) (sw : VsockSwitch)
  : result VsockError unit * VsockSwitch :=
  if MAX_PACKET_DATA_BYTES <? zlen bs then (Err Backpressure, sw)
  else on_stream id (Stream.deliver bs) sw.

Definition shutdown (id : ConnectionId) (sw : VsockSwitch) : result VsockError unit * VsockSwitch :=
  on_stream id Stream.shutdown sw.

Definition reset_connection (id : ConnectionId) (sw : VsockSwitch)
  : option (result VsockError unit * VsockSwitch) :=
  match endpoint_at (id_guest_port id) (id_host_port id) sw with
  | Some (i, e) =>
    if (ep_number e =? id_number id) && is_live e then
      let s := (Stream.rst (id_guest_port id) (id_host_port id) (ep_stream e)).2 in
      sw ← retire_endpoint i (set_endpoint i (set_stream s e) sw);
      Some (Ok tt, sw)
    else Some (Err UnknownConnection, sw)
  | None => Some (Err UnknownConnection, sw)
  end.

Definition guest_receive_closed (id : ConnectionId) (sw : VsockSwitch) : bool :=
  match connected_stream id sw with
  | Some s => match VsockStream.connection s with Some c => peer_receive_closed c | None => false end
  | None => false
  end.

Definition guest_send_closed (id : ConnectionId) (sw : VsockSwitch) : bool :=
  match connected_stream id sw with Some s => Stream.guest_send_closed s | None => false end.

(** The two halves of the ring buffer, joined. *)
Definition peek_upstream (id : ConnectionId) (max_bytes : Z) (sw : VsockSwitch) : list Z :=
  match connected_stream id sw with
  | Some s => take (Z.to_nat max_bytes) (upstream s)
  | None => []
  end.

Definition consume_upstream (id : ConnectionId) (max_bytes : Z) (sw : VsockSwitch)
  : option (result VsockError unit * VsockSwitch) :=
  match connection_index id sw with
  | None => Some (Err UnknownConnection, sw)
  | Some (i, e) =>
    let s := Stream.consume_upstream max_bytes (ep_stream e) in
    let sw := set_endpoint i (set_stream s e) sw in
    sw ← (match VsockStream.connection s with None => retire_endpoint i sw | Some _ => Some sw end);
    Some (Ok tt, sw)
  end.

(** ** Replies *)

Definition is_reply_current (r : Reply) (sw : VsockSwitch) : bool :=
  match endpoint_at (dst_port (header r)) (src_port (header r)) sw with
  | None => reply_number r =? 0
  | Some (_, e) =>
    (ep_number e =? reply_number r) &&
    (negb (op (header r) =? OP_RW) ||
     negb (match VsockStream.connection (ep_stream e) with
           | Some c => peer_receive_closed c
           | None => false
           end))
  end.

Definition has_pending_replies_for (id : ConnectionId) (sw : VsockSwitch) : bool :=
  match endpoint_at (id_guest_port id) (id_host_port id) sw with
  | Some (_, e) =>
    ((ep_number e =? id_number id) || bool_decide (ep_retiring e = Some (id_number id))) &&
    negb (zlen (replies (ep_stream e)) =? 0)
  | None => false
  end.

Definition pending_reply_count (sw : VsockSwitch) : Z :=
  sumZ ((λ e, zlen (replies (ep_stream e))) <$> endpoints sw) + zlen (rejected sw).

Definition take_reply_from (i : nat) (max_bytes : Z) (sw : VsockSwitch)
  : option Reply * VsockSwitch :=
  match endpoints sw !! i with
  | None => (None, sw)
  | Some e =>
    match Stream.take_reply max_bytes (ep_stream e) with
    | (None, _) => (None, sw)
    | (Some r, s) =>
      (Some (mkReply (ep_number e) (header r) (payload r)), set_endpoint i (set_stream s e) sw)
    end
  end.

(** The scan [for offset in 0..count] with [n] offsets left. *)
Fixpoint flow_scan (n : nat) (offset count max_bytes : Z) (sw : VsockSwitch)
  : option Reply * VsockSwitch :=
  match n with
  | O => (None, sw)
  | S n =>
    let index := FIXED_ENDPOINTS + (next_flow_reply sw + offset) mod count in
    match take_reply_from (Z.to_nat index) max_bytes sw with
    | (Some r, sw) => (Some r, set_next_flow ((index - FIXED_ENDPOINTS + 1) mod count) sw)
    | (None, sw) => flow_scan n (offset + 1) count max_bytes sw
    end
  end.

Definition take_flow_reply (max_bytes : Z) (sw : VsockSwitch) : option Reply * VsockSwitch :=
  let count := network_socket_count sw in flow_scan (Z.to_nat count) 0 count max_bytes sw.

Fixpoint class_scan (n : nat) (offset max_bytes : Z) (sw : VsockSwitch)
  : option Reply * VsockSwitch :=
  match n with
  | O => match rejected sw with
         | [] => (None, sw)
         | r :: rs => (Some r, set_rejected rs sw)
         end
  | S n =>
    let class := (next_reply sw + offset) mod REPLY_CLASSES in
    match (if class <? FIXED_ENDPOINTS then take_reply_from (Z.to_nat class) max_bytes sw
           else take_flow_reply max_bytes sw) with
    | (Some r, sw) => (Some r, set_next_reply ((class + 1) mod REPLY_CLASSES) sw)
    | (None, sw) => class_scan n (offset + 1) max_bytes sw
    end
  end.

Definition take_reply (max_bytes : Z) (sw : VsockSwitch) : option Reply * VsockSwitch :=
  class_scan (Z.to_nat REPLY_CLASSES) 0 max_bytes sw.

(** The loop takes one reply a turn, so the number of items bounds it; the
    callers' [usize::MAX] is covered by [take_replies]. *)
Fixpoint take_replies_up_to (max_items : nat) (remaining : Z) (sw : VsockSwitch)
  : list Reply * VsockSwitch :=
  match max_items with
  | O => ([], sw)
  | S n =>
    match take_reply remaining sw with
    | (None, sw) => ([], sw)
    | (Some r, sw) =>
      let '(rs, sw) := take_replies_up_to n (remaining - zlen (payload r)) sw in (r :: rs, sw)
    end
  end.

(** [take_replies_up_to(usize::MAX, usize::MAX)]: a turn takes one pending
    reply, so their number is fuel enough ([take_replies_fuel]). *)
Definition take_replies (usize_max : Z) (sw : VsockSwitch) : list Reply * VsockSwitch :=
  take_replies_up_to (Z.to_nat (pending_reply_count sw)) usize_max sw.

(** ** The invariant *)

Definition is_rst (r : Reply) : Prop := op (header r) = OP_RST ∧ payload r = [].

(** The ports an endpoint of each role may have. *)
Definition role_ports (e : Endpoint) : Prop :=
  let gp := guest_port (ep_stream e) in let hp := host_port (ep_stream e) in
  match ep_role e with
  | Agent => gp = AGENT_PORT ∧ hp = AGENT_PORT
  | Control => gp = CONTROL_PORT ∧ hp = CONTROL_PORT
  | Tcp => hp = TCP_PORT ∧ is_flow_guest_port gp = true
  | Udp => hp = UDP_PORT ∧ is_flow_guest_port gp = true
  | Publication => gp = PUBLICATION_PORT ∧ in_publication_ports hp = true
  end.

(** The connection numbers an endpoint holds. *)
Definition numbers (e : Endpoint) : list Z := ep_number e :: option_list (ep_retiring e).

Record ep_ok (e : Endpoint) : Prop := {
  eo_stream : Stream.stream_ok (ep_stream e);
  eo_buffers : buffers (ep_role e) = (rx_alloc (ep_stream e), max_tx_bytes (ep_stream e));
  eo_ports : role_ports e;
  (** An endpoint without a connection has only resets left to send. *)
  eo_idle : is_live e = false → Forall is_rst (replies (ep_stream e));
  eo_retiring : ep_retiring e ≠ None → is_live e = false;
}.

Definition ports (e : Endpoint) : Z * Z := (guest_port (ep_stream e), host_port (ep_stream e)).

Definition fixed_ports : list (Z * Z) := [(AGENT_PORT, AGENT_PORT); (CONTROL_PORT, CONTROL_PORT)].

Record sw_ok (sw : VsockSwitch) : Prop := {
  sw_fixed : take 2 (ports <$> endpoints sw) = fixed_ports;
  sw_capacity : network_socket_count sw ≤ network_socket_capacity sw ≤ MAX_NETWORK_SOCKETS;
  sw_endpoints : Forall ep_ok (endpoints sw);
  sw_ports : NoDup (ports <$> endpoints sw);
  sw_numbers : NoDup (endpoints sw ≫= numbers);
  sw_next : Forall (λ n, 0 < n < next_connection_number sw) (endpoints sw ≫= numbers) ∧
            next_connection_number sw ≤ U64_MAX;
  sw_rejected : zlen (rejected sw) ≤ MAX_REJECTED_RESETS ∧ Forall is_rst (rejected sw);
}.

(** ** Primitive steps

    Every operation is a sequence of these; the invariants are proved for
    them once. *)

Definition keep_rst (s : StreamConnection) : StreamConnection :=
  Stream.set_replies (List.filter (λ r, op (header r) =? OP_RST) (replies s)) 0
    (Stream.drop_connection s).

Inductive prim : VsockSwitch → VsockSwitch → Prop :=
| p_aux sw nr nf en rj :
    zlen rj ≤ MAX_REJECTED_RESETS → Forall is_rst rj →
    prim sw (mkSwitch (endpoints sw) (next_connection_number sw) en
               (network_socket_capacity sw) nr nf rj)
| p_stream sw i e s :
    endpoints sw !! i = Some e → Stream.stream_ok s → Stream.same_stream (ep_stream e) s →
    (is_live e = true → Stream.is_live s = true) →
    (Stream.is_live s = true → ep_retiring e = None) →
    (Stream.is_live s = false → Forall is_rst (replies s)) →
    (VsockStream.connection (ep_stream e) ≠ None → VsockStream.connection s ≠ None) →
    prim sw (set_endpoint i (set_stream s e) sw)
| p_retire sw i e s :
    endpoints sw !! i = Some e → is_live e = true → Stream.core s →
    Stream.same_stream (ep_stream e) s → next_connection_number sw < U64_MAX →
    prim sw (set_number (next_connection_number sw + 1)
      (set_endpoint i (mkEndpoint (ep_role e) (keep_rst s) (next_connection_number sw)
                         (Some (ep_number e))) sw))
| p_push sw role gp hp :
    (gp, hp) ∉ (ports <$> endpoints sw) →
    role_ports (new_endpoint role gp hp (next_connection_number sw)) →
    network_socket_count sw < network_socket_capacity sw →
    next_connection_number sw < U64_MAX →
    prim sw (set_endpoints (endpoints sw ++ [new_endpoint role gp hp (next_connection_number sw)])
               (set_number (next_connection_number sw + 1) sw))
| p_remove sw i e :
    endpoints sw !! i = Some e → (2 ≤ i)%nat → is_live e = false →
    prim sw (set_endpoints (take i (endpoints sw) ++ drop (S i) (endpoints sw)) sw)
| p_unretire sw i e :
    endpoints sw !! i = Some e → is_live e = false → next_connection_number sw < U64_MAX →
    prim sw (set_number (next_connection_number sw + 1)
      (set_endpoint i (mkEndpoint (ep_role e) (ep_stream e) (next_connection_number sw) None) sw))
| p_number sw :
    next_connection_number sw < U64_MAX →
    prim sw (set_number (next_connection_number sw + 1) sw).

(** *** Primitive steps keep the invariant *)

Lemma keep_rst_ok s :
  Stream.core s → Stream.stream_ok (keep_rst s) ∧ Stream.same_stream s (keep_rst s) ∧
  Stream.is_live (keep_rst s) = false ∧ Forall is_rst (replies (keep_rst s)).
Proof.
  intros Hc. pose proof (Stream.drop_connection_core s Hc) as [H1 H2 H3 H4 H5 H6 H7 H8].
  assert (Forall is_rst (List.filter (λ r, op (header r) =? OP_RST) (replies s))) as Hrst.
  { apply Forall_forall. intros r Hr. apply list_elem_of_In, filter_In in Hr as [Hr Ho].
    breflect. split; [done|]. apply list_elem_of_In in Hr. simpl in H5. rewrite Forall_forall in H5.
    destruct (H5 r Hr) as [Hrw|]; [by rewrite Hrw in Ho|done]. }
  split_and!; try done. split; [|by intros ?]. split; simpl in *; try done.
  - pose proof (filter_length_le (λ r, op (header r) =? OP_RST) (replies s)). unfold zlen in *. lia.
  - split; [|lia]. clear -Hrst. induction Hrst as [|r l [_ Hp] _ IH]; [done|].
    rewrite fmap_cons, sumZ_cons, <- IH. unfold Stream.reply_len. by rewrite Hp.
  - eapply Forall_impl; [exact Hrst|]. intros r [_ ?]. by right.
Qed.

Lemma ports_insert sw i e e' :
  endpoints sw !! i = Some e → ports e' = ports e →
  ports <$> <[i := e']> (endpoints sw) = ports <$> endpoints sw.
Proof.
  intros Hi Hp. rewrite list_fmap_insert, Hp. apply list_insert_id.
  by rewrite list_lookup_fmap, Hi.
Qed.

(** Replacing one endpoint splits the list around it. *)
Lemma endpoints_split (l : list Endpoint) i e e' :
  l !! i = Some e → ∃ l1 l2, l = l1 ++ e :: l2 ∧ length l1 = i ∧ <[i := e']> l = l1 ++ e' :: l2.
Proof.
  intros Hi. exists (take i l), (drop (S i) l). split_and!.
  - symmetry. by apply take_drop_middle.
  - apply length_take_le. apply lookup_lt_Some in Hi. lia.
  - apply insert_take_drop. by apply lookup_lt_Some in Hi.
Qed.

Lemma numbers_nonempty e : ep_number e ∈ numbers e.
Proof. left. Qed.

(** An endpoint whose numbers are replaced by its own and fresh ones. *)
Lemma numbers_replace l1 l2 e (ns : list Z) next :
  NoDup ((l1 ++ e :: l2) ≫= numbers) →
  Forall (λ n, 0 < n < next) ((l1 ++ e :: l2) ≫= numbers) →
  NoDup ns → Forall (λ n, n ∈ numbers e ∨ n = next) ns → 0 < next →
  NoDup ((l1 ≫= numbers) ++ ns ++ (l2 ≫= numbers)) ∧
  Forall (λ n, 0 < n < next + 1) ((l1 ≫= numbers) ++ ns ++ (l2 ≫= numbers)).
Proof.
  intros Hnd Hb Hns Hin Hpos. rewrite bind_app, bind_cons in Hnd, Hb.
  rewrite !Forall_app in Hb. destruct Hb as (Hb1 & Hbe & Hb2).
  rewrite !NoDup_app in Hnd. destruct Hnd as (Hn1 & Hd1 & Hne & Hd2 & Hn2).
  rewrite Forall_forall in Hb1, Hbe, Hb2, Hin. split.
  - rewrite !NoDup_app. split_and!; try done.
    + intros n H1 H2. apply elem_of_app in H2 as [H2|H2].
      * destruct (Hin n H2) as [H3| ->]; [|specialize (Hb1 _ H1); lia].
        apply (Hd1 n H1). apply elem_of_app. by left.
      * apply (Hd1 n H1). apply elem_of_app. by right.
    + intros n H1 H2. destruct (Hin n H1) as [H3| ->]; [by apply (Hd2 n H3)|].
      specialize (Hb2 _ H2). lia.
  - rewrite !Forall_app. split_and!; apply Forall_forall; intros n Hn.
    + specialize (Hb1 _ Hn). lia.
    + destruct (Hin n Hn) as [H3| ->]; [specialize (Hbe _ H3)|]; lia.
    + specialize (Hb2 _ Hn). lia.
Qed.

Lemma sw_next_pos sw : sw_ok sw → 0 < next_connection_number sw.
Proof.
  intros [Hf _ _ _ _ [Hn _] _]. destruct (endpoints sw) as [|e l]; [done|].
  rewrite bind_cons in Hn. inversion_clear Hn as [|? ? Hn' _]. lia.
Qed.

Lemma replace_fresh_ok sw i e e' :
  sw_ok sw → endpoints sw !! i = Some e → ep_ok e' → ports e' = ports e →
  NoDup (numbers e') → Forall (λ n, n ∈ numbers e ∨ n = next_connection_number sw) (numbers e') →
  next_connection_number sw < U64_MAX →
  sw_ok (set_number (next_connection_number sw + 1) (set_endpoint i e' sw)).
Proof.
  intros Hok Hi He Hp Hnd Hin Hlt. pose proof (sw_next_pos sw Hok) as Hpos.
  destruct Hok as [Hf Hcap Heps Hports Hnum [Hnext Hmax] Hrej].
  destruct (endpoints_split (endpoints sw) i e e' Hi) as (l1 & l2 & Hl & Hlen & Hins).
  assert (ports <$> <[i := e']> (endpoints sw) = ports <$> endpoints sw) as Hpe by (by apply (ports_insert sw i e)).
  rewrite Hl in Hnum, Hnext.
  destruct (numbers_replace l1 l2 e (numbers e') _ Hnum Hnext Hnd Hin Hpos) as [Hn1 Hn2].
  split; simpl; rewrite ?Hpe; try done.
  - unfold network_socket_count, zlen in *. simpl. by rewrite length_insert.
  - by apply Forall_insert.
  - by rewrite Hins, bind_app, bind_cons.
  - rewrite Hins, bind_app, bind_cons. split; [done|lia].
Qed.

Lemma replace_same_ok sw i e e' :
  sw_ok sw → endpoints sw !! i = Some e → ep_ok e' → ports e' = ports e →
  numbers e' = numbers e → sw_ok (set_endpoint i e' sw).
Proof.
  intros [Hf Hcap Heps Hports Hnum Hnext Hrej] Hi He Hp Hns.
  destruct (endpoints_split (endpoints sw) i e e' Hi) as (l1 & l2 & Hl & Hlen & Hins).
  assert (ports <$> <[i := e']> (endpoints sw) = ports <$> endpoints sw) as Hpe by (by apply (ports_insert sw i e)).
  assert (<[i := e']> (endpoints sw) ≫= numbers = endpoints sw ≫= numbers) as Hne
    by (by rewrite Hins, Hl, !bind_app, !bind_cons, Hns).
  split; simpl; rewrite ?Hpe, ?Hne; try done.
  - unfold network_socket_count, zlen in *. simpl. by rewrite length_insert.
  - by apply Forall_insert.
Qed.

Lemma lookup_ok sw i e : sw_ok sw → endpoints sw !! i = Some e → ep_ok e.
Proof. intros [_ _ Heps _ _ _ _] Hi. by eapply Forall_lookup_1. Qed.

Lemma role_ports_same e r s n t :
  role_ports e → r = ep_role e → Stream.same_stream (ep_stream e) s →
  role_ports (mkEndpoint r s n t).
Proof. intros Hr -> (H1 & H2 & _). unfold role_ports; simpl. by rewrite H1, H2. Qed.

Lemma ep_ok_stream e s :
  ep_ok e → Stream.stream_ok s → Stream.same_stream (ep_stream e) s →
  (Stream.is_live s = true → ep_retiring e = None) →
  (Stream.is_live s = false → Forall is_rst (replies s)) → ep_ok (set_stream s e).
Proof.
  intros [H1 H2 H3 H4 H5] Hs Hsame Hl Hi. split; simpl; try done.
  - rewrite H2. by destruct Hsame as (_ & _ & -> & ->).
  - by apply (role_ports_same e).
  - intros Hr. destruct (Stream.is_live s) eqn:E; [|done]. by rewrite (Hl eq_refl) in Hr.
Qed.

Lemma ep_ok_retired e s n t :
  ep_ok e → Stream.core s → Stream.same_stream (ep_stream e) s →
  ep_ok (mkEndpoint (ep_role e) (keep_rst s) n t).
Proof.
  intros [H1 H2 H3 H4 H5] Hc Hsame. destruct (keep_rst_ok s Hc) as (K1 & K2 & K3 & K4).
  assert (Stream.same_stream (ep_stream e) (keep_rst s)) as Hs by (by etransitivity).
  split; simpl; try done.
  - rewrite H2. by destruct Hsame as (_ & _ & -> & ->).
  - by apply (role_ports_same e).
Qed.

Lemma same_ports e s r n t :
  Stream.same_stream (ep_stream e) s → ports (mkEndpoint r s n t) = ports e.
Proof. intros (H1 & H2 & _). unfold ports; simpl. by rewrite H1, H2. Qed.

Lemma new_endpoint_ok role gp hp n :
  role_ports (new_endpoint role gp hp n) → ep_ok (new_endpoint role gp hp n) ∧
  ports (new_endpoint role gp hp n) = (gp, hp) ∧ numbers (new_endpoint role gp hp n) = [n] ∧
  is_live (new_endpoint role gp hp n) = false.
Proof.
  intros Hr. split; [|by destruct role].
  destruct role; (split; [apply Stream.core_new; by vm_compute|done|exact Hr|by intros _; simpl|done]).
Qed.

Lemma take_fixed (l : list (Z * Z)) i :
  take 2 l = fixed_ports → (2 ≤ i)%nat → take 2 (take i l ++ drop (S i) l) = fixed_ports.
Proof.
  intros Hf Hi. assert (2 ≤ length l)%nat.
  { assert (length (take 2 l) = 2%nat) as Hl by (by rewrite Hf). rewrite length_take in Hl. lia. }
  rewrite take_app_le by (rewrite length_take; lia). rewrite take_take, Nat.min_l by lia. done.
Qed.

Lemma push_ok sw role gp hp :
  sw_ok sw → (gp, hp) ∉ (ports <$> endpoints sw) →
  role_ports (new_endpoint role gp hp (next_connection_number sw)) →
  network_socket_count sw < network_socket_capacity sw → next_connection_number sw < U64_MAX →
  sw_ok (set_endpoints (endpoints sw ++ [new_endpoint role gp hp (next_connection_number sw)])
           (set_number (next_connection_number sw + 1) sw)).
Proof.
  intros Hok Hfresh Hrole Hcap Hlt.
  destruct (new_endpoint_ok role gp hp (next_connection_number sw) Hrole) as (He & Hpe & Hn & _).
  pose proof (sw_next_pos sw Hok) as Hpos.
  destruct Hok as [Hf Hcp Heps Hports Hnum [Hnext Hmax] Hrej].
  assert (∀ f : Endpoint → Z * Z, f <$> [new_endpoint role gp hp (next_connection_number sw)] =
    [f (new_endpoint role gp hp (next_connection_number sw))]) as Hone by done.
  split; cbn [endpoints set_endpoints set_number next_connection_number rejected];
    rewrite ?fmap_app, ?bind_app, ?bind_singleton, ?Hone, ?Hpe, ?Hn.
  - rewrite take_app_le; [done|]. assert (length (take 2 (ports <$> endpoints sw)) = 2%nat) as Hl
      by (by rewrite Hf). rewrite length_take in Hl. lia.
  - unfold network_socket_count, zlen in *. simpl. rewrite length_app. simpl. lia.
  - apply Forall_app. split; [done|by constructor].
  - apply NoDup_app. split; [done|]. split; [|apply NoDup_singleton].
    intros x Hx. rewrite list_elem_of_singleton. by intros ->.
  - apply NoDup_app. split; [done|]. split; [|apply NoDup_singleton].
    intros x Hx. rewrite list_elem_of_singleton. intros ->.
    rewrite Forall_forall in Hnext. specialize (Hnext _ Hx). lia.
  - rewrite Forall_app, Forall_singleton. split; [|lia]. split; [|lia].
    eapply Forall_impl; [exact Hnext|]. simpl. lia.
  - done.
Qed.

Lemma remove_ok sw i e :
  sw_ok sw → endpoints sw !! i = Some e → (2 ≤ i)%nat →
  sw_ok (set_endpoints (take i (endpoints sw) ++ drop (S i) (endpoints sw)) sw).
Proof.
  intros Hok Hi H2.
  destruct Hok as [Hf Hcp Heps Hports Hnum [Hnext Hmax] Hrej].
  destruct (endpoints_split (endpoints sw) i e e Hi) as (l1 & l2 & Hl' & Hlen & Hins).
  assert (take i (endpoints sw) ++ drop (S i) (endpoints sw) = l1 ++ l2) as Hrm.
  { rewrite Hl', <- Hlen. rewrite take_app_length. f_equal.
    rewrite drop_app_ge by lia. by replace (S (length l1) - length l1)%nat with 1%nat by lia. }
  assert (l1 ++ l2 `sublist_of` endpoints sw) as Hsub.
  { rewrite Hl'. apply sublist_app; [done|]. by apply sublist_cons. }
  split; simpl; try done.
  - rewrite fmap_app, fmap_take, fmap_drop. by apply take_fixed.
  - unfold network_socket_count, zlen in *. simpl. rewrite Hrm.
    apply sublist_length in Hsub. lia.
  - rewrite Hrm. rewrite Hl', Forall_app, Forall_cons in Heps. apply Forall_app. tauto.
  - rewrite Hrm. eapply sublist_NoDup; [exact Hports|]. by apply fmap_sublist.
  - rewrite Hrm. eapply sublist_NoDup; [exact Hnum|]. by apply bind_sublist.
  - rewrite Hrm. split; [|done]. rewrite Forall_forall in Hnext |- *. intros n Hn. apply Hnext.
    eapply elem_of_sublist; [exact Hn|]. by apply bind_sublist.
Qed.

Lemma prim_ok sw sw' : prim sw sw' → sw_ok sw → sw_ok sw'.
Proof.
  intros Hp Hok. destruct Hp as [sw nr nf en rj Hlen Hrj|sw i e s Hi Hs Hsame Hll Hlr Hidle
    |sw i e s Hi Hl Hc Hsame Hlt|sw role gp hp Hfresh Hrole Hcap Hlt|sw i e Hi H2 Hl
    |sw i e Hi Hl Hlt|sw Hlt].
  - destruct Hok. by split.
  - pose proof (lookup_ok _ _ _ Hok Hi) as He.
    eapply replace_same_ok; [done|done|by apply ep_ok_stream|by apply same_ports|done].
  - pose proof (lookup_ok _ _ _ Hok Hi) as He. pose proof He as [_ _ _ _ Hret].
    destruct (keep_rst_ok s Hc) as (_ & Hks & _).
    assert (ep_retiring e = None) as Hnone.
    { destruct (ep_retiring e) eqn:Hr; [|done]. by rewrite Hret in Hl. }
    eapply replace_fresh_ok; [done|done|by apply ep_ok_retired| | | |done].
    + apply same_ports. by etransitivity.
    + pose proof Hok as [_ _ _ _ _ [Hnext _] _]. unfold numbers; simpl.
      apply NoDup_cons; split; [|apply NoDup_singleton]. rewrite list_elem_of_singleton.
      intros Heq. assert (ep_number e ∈ endpoints sw ≫= numbers) as Hin.
      { apply list_elem_of_bind. exists e. split; [left|by eapply list_elem_of_lookup_2]. }
      rewrite Forall_forall in Hnext. specialize (Hnext _ Hin). lia.
    + apply Forall_cons. split; [by right|]. apply Forall_singleton. left. left.
  - by apply push_ok.
  - by eapply remove_ok.
  - pose proof (lookup_ok _ _ _ Hok Hi) as He.
    eapply replace_fresh_ok; [done|done| |by apply same_ports| | |done].
    + destruct He as [K1 K2 K3 K4 K5]. split; try done.
    + apply NoDup_singleton.
    + constructor; [by right|done].
  - destruct Hok as [Hf Hcp Heps Hports Hnum [Hnext Hmax] Hrej]. split; try done.
    split; [|simpl; lia]. eapply Forall_impl; [exact Hnext|]. simpl. lia.
Qed.

Lemma prims_ok sw sw' : rtc prim sw sw' → sw_ok sw → sw_ok sw'.
Proof. induction 1; eauto using prim_ok. Qed.

(** ** Operations are sequences of primitive steps *)

Lemma position_Some {A} (f : A → bool) l i :
  position f l = Some i → ∃ x, l !! i = Some x ∧ f x = true.
Proof.
  revert i. induction l as [|x l IH]; intros i; simpl; [done|].
  destruct (f x) eqn:Hf; [intros [= <-]; by exists x|].
  intros H. apply fmap_Some in H as (j & Hj & ->). by apply IH.
Qed.

Lemma position_None {A} (f : A → bool) l : position f l = None → ∀ x, x ∈ l → f x = false.
Proof.
  induction l as [|x l IH]; simpl; [intros _ y Hy; by apply elem_of_nil in Hy|].
  destruct (f x) eqn:Hf; [done|]. intros H y Hy. apply fmap_None in H.
  apply elem_of_cons in Hy as [->|Hy]; auto.
Qed.

Lemma at_ports_true gp hp e : at_ports gp hp e = true ↔ ports e = (gp, hp).
Proof.
  unfold at_ports, ports. rewrite andb_true_iff, !Z.eqb_eq. split; [by intros [-> ->]|by intros [= -> ->]].
Qed.

Lemma endpoint_index_Some gp hp sw i :
  endpoint_index gp hp sw = Some i → ∃ e, endpoints sw !! i = Some e ∧ ports e = (gp, hp).
Proof.
  intros H. apply position_Some in H as (e & He & Hp). exists e. split; [done|].
  by apply at_ports_true.
Qed.

Lemma endpoint_index_None gp hp sw :
  endpoint_index gp hp sw = None → (gp, hp) ∉ (ports <$> endpoints sw).
Proof.
  intros H Hin. apply list_elem_of_fmap in Hin as (e & He & Hin).
  pose proof (position_None _ _ H e Hin) as Hf.
  by rewrite (proj2 (at_ports_true gp hp e) (eq_sym He)) in Hf.
Qed.

Lemma endpoint_at_Some gp hp sw i e :
  endpoint_at gp hp sw = Some (i, e) → endpoints sw !! i = Some e ∧ ports e = (gp, hp).
Proof.
  unfold endpoint_at. destruct (endpoint_index gp hp sw) as [j|] eqn:Hj; [|done]. simpl.
  apply endpoint_index_Some in Hj as (e' & He' & Hp). rewrite He'. by intros [= <- <-].
Qed.

Lemma connection_index_Some id sw i e :
  connection_index id sw = Some (i, e) → endpoints sw !! i = Some e ∧ connected e = Some id.
Proof.
  unfold connection_index. destruct (endpoint_at _ _ sw) as [[j e']|] eqn:Hj; [|done].
  apply endpoint_at_Some in Hj as [? _]. simpl. case_bool_decide; [|done]. by intros [= <- <-].
Qed.

Lemma connected_live e id : connected e = Some id → is_live e = true.
Proof.
  unfold connected, is_live, Stream.is_live. by destruct (VsockStream.connection (ep_stream e)).
Qed.

Lemma allocate_Some sw n sw' :
  allocate_connection_number sw = Some (n, sw') →
  n = next_connection_number sw ∧ sw' = set_number (next_connection_number sw + 1) sw ∧
  next_connection_number sw < U64_MAX.
Proof.
  unfold allocate_connection_number. destruct (checked_add64 _ _) as [m|] eqn:Hm; [|done].
  apply checked_add64_Some in Hm as [-> Hle]. simpl. intros [= <- <-]. split_and!; [done..|lia].
Qed.

Lemma reject_prim h sw : sw_ok sw → prim sw (reject h sw).
Proof.
  intros Hok. unfold reject. destruct Hok as [_ _ _ _ _ _ [Hl Hr]].
  destruct (negb _ && _) eqn:Hb; [|destruct sw; by apply (p_aux (mkSwitch _ _ _ _ _ _ _))].
  breflect. apply p_aux; [rewrite zlen_app; change (zlen [_]) with 1; lia|].
  apply Forall_app. split; [done|]. by constructor.
Qed.

Lemma forget_prim gp hp sw : sw_ok sw → prim sw (forget_rejected gp hp sw).
Proof.
  intros [_ _ _ _ _ _ [Hl Hr]]. apply p_aux.
  - pose proof (filter_length_le (λ r, negb (dst_port (header r) =? gp) ||
      negb (src_port (header r) =? hp)) (rejected sw)). unfold zlen in *. lia.
  - apply Forall_forall. intros r Hin. apply list_elem_of_In, filter_In in Hin as [Hin _].
    rewrite Forall_forall in Hr. apply Hr. by apply list_elem_of_In.
Qed.

Lemma live_not_retiring sw i e :
  sw_ok sw → endpoints sw !! i = Some e → is_live e = true → ep_retiring e = None.
Proof.
  intros Hok Hi Hl. destruct (lookup_ok _ _ _ Hok Hi) as [_ _ _ _ Hr].
  destruct (ep_retiring e) eqn:E; [|done]. by rewrite Hr in Hl.
Qed.

Lemma retire_prim sw i e s sw' :
  sw_ok sw → endpoints sw !! i = Some e → is_live e = true → Stream.core s →
  Stream.same_stream (ep_stream e) s →
  retire_endpoint i (set_endpoint i (set_stream s e) sw) = Some sw' → prim sw sw'.
Proof.
  intros Hok Hi Hl Hc Hs. unfold retire_endpoint.
  destruct (allocate_connection_number _) as [[n sw1]|] eqn:Ha; [|done]. simpl.
  apply allocate_Some in Ha as (-> & -> & Hlt). simpl in *.
  rewrite list_lookup_insert_eq by (by eapply lookup_lt_Some). simpl. intros [= <-].
  pose proof (live_not_retiring sw i e Hok Hi Hl) as Hr.
  assert (retire (next_connection_number sw) (set_stream s e) =
    mkEndpoint (ep_role e) (keep_rst s) (next_connection_number sw) (Some (ep_number e))) as ->.
  { unfold retire. simpl. rewrite Hr, bool_decide_eq_true_2, orb_true_r by done. done. }
  pose proof (p_retire sw i e s Hi Hl Hc Hs Hlt) as Hp.
  unfold set_endpoint, set_endpoints, set_number in *; simpl in *. by rewrite list_insert_insert_eq.
Qed.

Lemma retire_self_prim sw i e sw' :
  sw_ok sw → endpoints sw !! i = Some e → is_live e = true →
  retire_endpoint i sw = Some sw' → prim sw sw'.
Proof.
  intros Hok Hi Hl H. destruct (lookup_ok _ _ _ Hok Hi) as [[Hc _] _ _ _ _].
  eapply (retire_prim sw i e (ep_stream e)); try done.
  replace (set_endpoint i (set_stream (ep_stream e) e) sw) with sw; [done|].
  unfold set_endpoint, set_endpoints. rewrite list_insert_id; [by destruct sw|]. by destruct e.
Qed.

Lemma rst_idle gp hp s :
  Forall is_rst (replies s) → Forall is_rst (replies (Stream.rst gp hp s).2).
Proof.
  intros Hr. unfold Stream.rst, Stream.queue_reply. destruct (Stream.can_queue_reply _ s); [|done].
  simpl. apply Forall_app. split; [done|]. by constructor.
Qed.

Lemma reject_packet_idle h s :
  Stream.is_live s = false → Forall is_rst (replies s) →
  Forall is_rst (replies (Stream.reject_packet h s)).
Proof.
  intros Hl Hr. unfold Stream.reject_packet. cbv zeta.
  assert (Forall is_rst (replies (if negb (op h =? OP_RST)
    then (Stream.rst (src_port h) (dst_port h) s).2 else s))) as Hs1.
  { case_match; [by apply rst_idle|done]. }
  match goal with |- context [Stream.is_live ?x] => destruct (Stream.is_live x) end; exact Hs1.
Qed.

Lemma rx_idle h data s :
  Stream.is_live s = false → Forall is_rst (replies s) →
  Stream.is_live (Stream.rx h data s) = false → Forall is_rst (replies (Stream.rx h data s)).
Proof.
  intros Hl Hr. pose proof (Stream.not_live s Hl) as [Hn Hi]. unfold Stream.rx.
  destruct (Stream.bad_packet h data); [intros; by apply reject_packet_idle|].
  rewrite Hi. cbn [andb].
  destruct (op h =? OP_REQUEST).
  { unfold Stream.on_request. rewrite Hl, orb_false_r.
    destruct (negb _); [intros; by apply reject_packet_idle|]. cbv zeta.
    unfold Stream.respond. change (OP_RESPONSE =? OP_CREDIT_UPDATE) with false. cbv iota.
    unfold Stream.queue_reply. by destruct (Stream.can_queue_reply _ s). }
  destruct (op h =? OP_RESPONSE).
  { unfold Stream.on_response. rewrite Hi. cbn [negb orb].
    intros _. by apply (reject_packet_idle h s). }
  destruct (op h =? OP_RST); [unfold Stream.on_rst; by rewrite Hl|].
  destruct (_ || _); [|intros; by apply reject_packet_idle].
  unfold Stream.on_connected. rewrite Hn. intros _. by apply rst_idle.
Qed.

Lemma rx_at_prims i h bs sw r sw' :
  sw_ok sw → header_ok h → rx_at i h bs sw = Some (r, sw') → prim sw sw'.
Proof.
  intros Hok Hh. unfold rx_at. destruct (endpoints sw !! i) as [e|] eqn:Hi; [|done]. simpl.
  destruct (lookup_ok _ _ _ Hok Hi) as [Hs Hb Hp Hid Hret].
  case_bool_decide as Hr; [intros [= <- <-]; by apply reject_prim|].
  assert (ep_retiring e = None) as Hnone by (by destruct (ep_retiring e)).
  destruct (Stream.rx_ok h bs (ep_stream e) Hs Hh) as [Hs' Hsame].
  set (s' := Stream.rx h bs (ep_stream e)) in *.
  destruct (is_live e && negb (is_live (set_stream s' e))) eqn:Hb2.
  - apply andb_true_iff in Hb2 as [Hl Hnl].
    destruct (retire_endpoint i _) as [sw1|] eqn:Hre; [|done]. simpl. intros [= <- <-].
    eapply retire_prim; [done|done|done| |done|done]. apply Hs'.
  - simpl. intros [= <- <-]. apply (p_stream sw i e s'); try done.
    + intros Hl. rewrite Hl in Hb2. simpl in Hb2. by apply negb_false_iff in Hb2.
    + intros Hnl. destruct (is_live e) eqn:Hl; simpl in Hb2.
      * apply negb_false_iff in Hb2. unfold is_live in Hb2. simpl in Hb2. congruence.
      * by apply rx_idle; [|apply Hid|].
    + intros Hc. apply Stream.rx_stays_connected; [done|done|]. assert (is_live e = true) as Hl
        by (unfold is_live, Stream.is_live; by destruct (VsockStream.connection (ep_stream e))).
      rewrite Hl in Hb2. simpl in Hb2. by apply negb_false_iff in Hb2.
Qed.

Lemma classify_ports gp hp sw role n :
  classify gp hp sw = Some role → role_ports (new_endpoint role gp hp n).
Proof.
  unfold classify. intros H.
  repeat match type of H with
  | (if ?b then _ else _) = _ => destruct b eqn:?; [simplify_eq|]
  end; breflect; try done.
Qed.

Lemma rx_prims h bs sw r sw' :
  sw_ok sw → header_ok h → rx h bs sw = Some (r, sw') → rtc prim sw sw'.
Proof.
  intros Hok Hh. unfold rx. destruct (classify _ _ sw) as [role|] eqn:Hcl.
  2:{ intros [= <- <-]. by apply rtc_once, reject_prim. }
  destruct (endpoint_index _ _ sw) as [i|] eqn:Hi.
  { intros H. apply rtc_once. by eapply rx_at_prims. }
  destruct (refuses_flow role h bs sw) eqn:Href.
  { intros [= <- <-]. by apply rtc_once, reject_prim. }
  pose proof (forget_prim (src_port h) (dst_port h) sw Hok) as Hfp.
  pose proof (prim_ok _ _ Hfp Hok) as Hok1.
  set (sw1 := forget_rejected (src_port h) (dst_port h) sw) in *.
  destruct (allocate_connection_number sw1) as [[n sw2]|] eqn:Ha; [|done]. simpl.
  apply allocate_Some in Ha as (-> & -> & Hlt).
  intros H. eapply rtc_l; [exact Hfp|].
  assert (prim sw1 (set_endpoints (endpoints sw1 ++
    [new_endpoint role (src_port h) (dst_port h) (next_connection_number sw1)])
    (set_number (next_connection_number sw1 + 1) sw1))) as Hpush.
  { apply p_push; [by apply endpoint_index_None|by eapply classify_ports| |done].
    unfold refuses_flow in Href. breflect. done. }
  eapply rtc_l; [exact Hpush|]. apply rtc_once.
  eapply rx_at_prims; [by eapply prim_ok|done|exact H].
Qed.

Lemma connect_publication_prims hp sw r sw' :
  sw_ok sw → connect_publication hp sw = Some (r, sw') → rtc prim sw sw'.
Proof.
  intros Hok. unfold connect_publication.
  destruct (_ || _) eqn:Hb; [by intros [= <- <-]|].
  case_bool_decide as Hidx; [by intros [= <- <-]|].
  destruct (allocate_connection_number sw) as [[n sw1]|] eqn:Ha; [|done]. simpl.
  apply allocate_Some in Ha as (-> & -> & Hlt).
  intros [= <- <-]. breflect.
  set (e := new_endpoint Publication PUBLICATION_PORT hp (next_connection_number sw)).
  assert (role_ports e) as Hrp by done.
  assert (prim sw (set_endpoints (endpoints sw ++ [e])
    (set_number (next_connection_number sw + 1) sw))) as Hpush.
  { apply p_push; try done. apply endpoint_index_None. by destruct (endpoint_index _ _ sw). }
  pose proof (prim_ok _ _ Hpush Hok) as Hok1.
  eapply rtc_l; [exact Hpush|]. apply rtc_once.
  destruct (new_endpoint_ok Publication PUBLICATION_PORT hp (next_connection_number sw) Hrp)
    as ([Hs _ _ _ _] & _).
  destruct (Stream.request_ok (ep_stream e) Hs) as [Hs' Hsame].
  assert (endpoints (set_endpoints (endpoints sw ++ [e])
    (set_number (next_connection_number sw + 1) sw)) !! length (endpoints sw) = Some e) as Hlk
    by (by apply list_lookup_middle).
  pose proof (p_stream _ _ e (Stream.request (ep_stream e)).2 Hlk Hs' Hsame) as Hp.
  unfold set_endpoint, set_endpoints, set_number in *; simpl in *.
  rewrite insert_app_r_alt, Nat.sub_diag in Hp by done. simpl in Hp. by apply Hp.
Qed.

(** *** Operations on one connection's stream *)

Lemma queue_reply_connection r s :
  VsockStream.connection (Stream.queue_reply r s).2 = None ↔ VsockStream.connection s = None.
Proof.
  unfold Stream.queue_reply. destruct (Stream.can_queue_reply _ s); [|done]. simpl.
  case_match; [|done]. simpl. by rewrite fmap_None.
Qed.

Lemma request_credit_connection s :
  VsockStream.connection (Stream.request_credit s).2 = None ↔ VsockStream.connection s = None.
Proof.
  unfold Stream.request_credit. destruct (VsockStream.connection s) as [c|] eqn:Hc; [|by simpl].
  destruct (is_credit_requested c); [by simpl; rewrite Hc|].
  match goal with |- context [Stream.queue_reply ?r s] =>
    pose proof (queue_reply_connection r s) as Hq end.
  rewrite Hc in Hq. destruct (Stream.queue_reply _ s) as [[|] s1]; cbn [snd] in *.
  - destruct (VsockStream.connection s1) eqn:E; cbn [snd]; [split; done|].
    by rewrite E.
  - exact Hq.
Qed.

Lemma deliver_connection data s :
  VsockStream.connection (Stream.deliver data s).2 = None ↔ VsockStream.connection s = None.
Proof.
  unfold Stream.deliver. destruct (VsockStream.connection s) as [c|] eqn:Hc; [|by simpl].
  destruct (tx_shutdown c); [by simpl; rewrite Hc|].
  destruct (zlen data =? 0); [by simpl; rewrite Hc|].
  destruct (U32_MAX <? zlen data); [by simpl; rewrite Hc|].
  destruct (Stream.send_capacity s <? zlen data).
  { cbn [snd]. case_match; [|by rewrite Hc]. by rewrite request_credit_connection, Hc. }
  cbv zeta. match goal with |- context [Stream.queue_reply ?r ?s'] =>
    pose proof (queue_reply_connection r s') as Hq; destruct (Stream.queue_reply r s') as [[|] s1] end;
    cbn [snd] in *; [rewrite Hq|]; done.
Qed.

Lemma shutdown_connection s :
  VsockStream.connection (Stream.shutdown s).2 = None ↔ VsockStream.connection s = None.
Proof.
  unfold Stream.shutdown. destruct (VsockStream.connection s) as [c|] eqn:Hc; [|by simpl].
  destruct (tx_shutdown c); [by simpl; rewrite Hc|].
  destruct (Stream.can_queue_reply 0 s) eqn:Hq; [|by simpl; rewrite Hc]. cbn [negb]. cbv zeta.
  unfold Stream.respond. change (OP_SHUTDOWN =? OP_CREDIT_UPDATE) with false. cbv iota.
  unfold Stream.queue_reply. change (zlen (payload (mkReply _ _ []))) with 0.
  change (Stream.can_queue_reply 0 (Stream.set_connection _ s)) with (Stream.can_queue_reply 0 s).
  by rewrite Hq.
Qed.

Lemma connected_some e id : connected e = Some id → VsockStream.connection (ep_stream e) ≠ None.
Proof. unfold connected. by destruct (VsockStream.connection _). Qed.

Lemma some_live s : VsockStream.connection s ≠ None → Stream.is_live s = true.
Proof. unfold Stream.is_live. by destruct (VsockStream.connection s). Qed.

(** An operation that keeps the connection is one step. *)
Lemma on_stream_prim {A} id (f : StreamConnection → result VsockError A * StreamConnection) sw r sw' :
  (∀ s, Stream.stream_ok s → Stream.stream_ok (f s).2 ∧ Stream.same_stream s (f s).2) →
  (∀ s, VsockStream.connection (f s).2 = None ↔ VsockStream.connection s = None) →
  sw_ok sw → on_stream id f sw = (r, sw') → rtc prim sw sw'.
Proof.
  intros Hf Hc Hok. unfold on_stream.
  destruct (connection_index id sw) as [[i e]|] eqn:Hi; [|by intros [= <- <-]].
  apply connection_index_Some in Hi as [Hi He].
  destruct (lookup_ok _ _ _ Hok Hi) as [Hs _ _ _ Hret]. destruct (Hf _ Hs) as [Hs' Hsame].
  specialize (Hc (ep_stream e)). pose proof (connected_some e id He) as Hne.
  assert (Stream.is_live (f (ep_stream e)).2 = true) as Hlive
    by (apply some_live; by rewrite Hc).
  destruct (f (ep_stream e)) as [r' s'] eqn:Hfe. intros [= <- <-]. cbn [fst snd] in *.
  apply rtc_once, p_stream; try done; [|congruence|by rewrite Hc].
  intros _. apply (live_not_retiring sw i); [done|done|by eapply connected_live].
Qed.

Lemma request_credit_prims id sw r sw' :
  sw_ok sw → request_credit id sw = (r, sw') → rtc prim sw sw'.
Proof.
  intros Hok. unfold request_credit. apply on_stream_prim; [| |done].
  - intros s Hs. pose proof (Stream.request_credit_ok s Hs). by destruct (Stream.request_credit s).
  - intros s. pose proof (request_credit_connection s). by destruct (Stream.request_credit s).
Qed.

Lemma deliver_prims id bs sw r sw' : sw_ok sw → deliver id bs sw = (r, sw') → rtc prim sw sw'.
Proof.
  intros Hok. unfold deliver. case_match; [by intros [= <- <-]|].
  apply on_stream_prim; [| |done].
  - intros s Hs. destruct (Stream.deliver bs s) as [r' s'] eqn:Hd.
    by destruct (Stream.deliver_spec bs s r' s' Hs Hd) as (? & ? & _).
  - apply deliver_connection.
Qed.

Lemma shutdown_prims id sw r sw' : sw_ok sw → shutdown id sw = (r, sw') → rtc prim sw sw'.
Proof.
  intros Hok. unfold shutdown. apply on_stream_prim; [| |done].
  - apply Stream.shutdown_ok.
  - apply shutdown_connection.
Qed.

Lemma rst_core gp hp s : Stream.stream_ok s →
  Stream.core (Stream.rst gp hp s).2 ∧ Stream.same_stream s (Stream.rst gp hp s).2.
Proof. intros Hs. destruct (Stream.rst_ok gp hp s Hs) as ([? _] & ? & _). done. Qed.

Lemma reset_connection_prims id sw r sw' :
  sw_ok sw → reset_connection id sw = Some (r, sw') → rtc prim sw sw'.
Proof.
  intros Hok. unfold reset_connection.
  destruct (endpoint_at _ _ sw) as [[i e]|] eqn:Hi; [|by intros [= <- <-]].
  apply endpoint_at_Some in Hi as [Hi _].
  destruct (_ && _) eqn:Hb; [|by intros [= <- <-]]. breflect.
  destruct (lookup_ok _ _ _ Hok Hi) as [Hs _ _ _ _].
  destruct (rst_core (id_guest_port id) (id_host_port id) _ Hs).
  cbv zeta. destruct (retire_endpoint i _) as [sw1|] eqn:Hr; [|done]. simpl. intros [= <- <-].
  apply rtc_once. by eapply retire_prim.
Qed.

Lemma consume_upstream_prims id n sw r sw' :
  sw_ok sw → 0 ≤ n → consume_upstream id n sw = Some (r, sw') → rtc prim sw sw'.
Proof.
  intros Hok Hn. unfold consume_upstream.
  destruct (connection_index id sw) as [[i e]|] eqn:Hi; [|by intros [= <- <-]].
  apply connection_index_Some in Hi as [Hi He]. cbv zeta.
  destruct (lookup_ok _ _ _ Hok Hi) as [Hs _ _ _ _].
  destruct (Stream.consume_upstream_ok n _ Hs Hn) as [Hs' Hsame].
  assert (is_live e = true) as Hl by (by eapply connected_live).
  set (s' := Stream.consume_upstream n (ep_stream e)) in *.
  destruct (VsockStream.connection s') as [c|] eqn:Hc.
  - simpl. intros [= <- <-]. assert (Stream.is_live s' = true) as Hl'
      by (apply some_live; by rewrite Hc).
    apply rtc_once, p_stream; try done; [|congruence|by rewrite Hc]. intros _. by eapply live_not_retiring.
  - destruct (retire_endpoint i _) as [sw1|] eqn:Hr; [|done]. simpl. intros [= <- <-].
    apply rtc_once. eapply retire_prim; try done. apply Hs'.
Qed.

(** *** Retirement and resets *)

Lemma retire_connection_prims id sw r sw' :
  sw_ok sw → retire_connection id sw = Some (r, sw') → rtc prim sw sw'.
Proof.
  intros Hok. unfold retire_connection.
  destruct (endpoint_at _ _ sw) as [[i e]|] eqn:Hi; [|by intros [= <- <-]].
  apply endpoint_at_Some in Hi as [Hi _].
  destruct (_ || _) eqn:Hb; [by intros [= <- <-]|]. breflect.
  destruct (lookup_ok _ _ _ Hok Hi) as [_ _ _ _ Hret].
  assert (is_live e = false) as Hl by (apply Hret; congruence).
  destruct (FIXED_ENDPOINTS <=? Z.of_nat i) eqn:Hfix; breflect.
  - simpl. intros [= <- <-]. unfold FIXED_ENDPOINTS in Hfix.
    pose proof (p_remove sw i e Hi ltac:(lia) Hl) as Hp.
    eapply rtc_l; [exact Hp|]. apply rtc_once, forget_prim. by eapply prim_ok.
  - destruct (allocate_connection_number sw) as [[n sw1]|] eqn:Ha; [|done].
    apply allocate_Some in Ha as (-> & -> & Hlt). simpl. intros [= <- <-].
    pose proof (p_unretire sw i e Hi Hl Hlt) as Hp.
    eapply rtc_l; [exact Hp|].
    apply rtc_once, (forget_prim _ _ (set_number (next_connection_number sw + 1)
      (set_endpoint i (mkEndpoint (ep_role e) (ep_stream e) (next_connection_number sw) None) sw))).
    by eapply prim_ok.
Qed.

Lemma for_each_prims idxs f sw sw' :
  (∀ i sw sw', i ∈ idxs → sw_ok sw → f i sw = Some sw' → rtc prim sw sw') →
  sw_ok sw → for_each idxs f sw = Some sw' → rtc prim sw sw'.
Proof.
  revert sw. induction idxs as [|i idxs IH]; intros sw Hf Hok H; simpl in H; [by simplify_eq|].
  destruct (f i sw) as [sw1|] eqn:Hi; [|done]. simpl in H.
  assert (rtc prim sw sw1) as H1 by (apply (Hf i); [left|done|done]).
  etransitivity; [exact H1|]. apply IH; [|by eapply prims_ok|done].
  intros j sw2 sw3 Hj. apply Hf. by right.
Qed.

Lemma clear_replies_prim i e sw sw' :
  sw_ok sw → endpoints sw !! i = Some e → is_live e = false →
  clear_replies i sw = Some sw' → prim sw sw'.
Proof.
  intros Hok Hi Hl. unfold clear_replies. rewrite Hi. simpl. intros [= <-].
  destruct (lookup_ok _ _ _ Hok Hi) as [[[H1 H2 H3 [H4 H5] H6 H7 H8 H9] Ha] _ _ Hid _].
  pose proof (Stream.not_live _ Hl) as [Hn Hc].
  assert (reply_bytes (ep_stream e) = 0) as H0.
  { rewrite H4. specialize (Hid Hl). clear -Hid. induction Hid as [|r l [_ Hp] _ IH]; [done|].
    rewrite fmap_cons, sumZ_cons, IH. unfold Stream.reply_len. by rewrite Hp. }
  apply p_stream; try done; try (unfold Stream.is_live; simpl; by rewrite Hn, Hc).
  split; [|done]. split; simpl; try done.
  intros c Hcc. by rewrite Hn in Hcc.
Qed.

Lemma reset_connections_prims sw sw' :
  sw_ok sw → reset_connections sw = Some sw' → rtc prim sw sw'.
Proof.
  intros Hok. unfold reset_connections.
  destruct (for_each _ _ sw) as [sw1|] eqn:Hf; [|done]. simpl. intros [= <-].
  assert (rtc prim sw sw1) as H1.
  { eapply for_each_prims; [|done|exact Hf]. clear Hf Hok. intros i w w' _ Hok H. cbv beta in H.
    destruct (endpoints w !! i) as [e|] eqn:Hi; [|done]. simpl in H.
    destruct (is_live e) eqn:Hl.
    - destruct (retire_endpoint i w) as [w1|] eqn:Hr; [|done]. simpl in H.
      pose proof (retire_self_prim _ _ _ _ Hok Hi Hl Hr) as Hp.
      eapply rtc_l; [exact Hp|]. apply rtc_once.
      assert (∃ e', endpoints w1 !! i = Some e' ∧ is_live e' = false) as (e' & Hi' & Hl').
      { revert Hr. unfold retire_endpoint.
        destruct (allocate_connection_number w) as [[n w2]|] eqn:Ha; [|done].
        apply allocate_Some in Ha as (-> & -> & _). simpl. rewrite Hi. simpl. intros [= <-].
        simpl. rewrite list_lookup_insert_eq by (by eapply lookup_lt_Some).
        eexists. split; [done|]. unfold retire. by case_match. }
      eapply clear_replies_prim; [by eapply prim_ok|done|done|done].
    - simpl in H. apply rtc_once. by eapply clear_replies_prim. }
  etransitivity; [exact H1|]. apply rtc_once. by apply p_aux.
Qed.

Lemma reset_network_prims sw sw' :
  sw_ok sw → reset_network_connections sw = Some sw' → rtc prim sw sw'.
Proof.
  intros Hok H. unfold reset_network_connections in H.
  eapply for_each_prims; [|done|exact H]. clear H Hok. intros i w w' _ Hok H. cbv beta in H.
  destruct (endpoints w !! i) as [e|] eqn:Hi; [|done]. simpl in H.
  destruct (is_live e) eqn:Hl; [|simplify_eq; done].
  destruct (lookup_ok _ _ _ Hok Hi) as [Hs _ _ _ _].
  destruct (rst_core (guest_port (ep_stream e)) (host_port (ep_stream e)) _ Hs).
  apply rtc_once. by eapply retire_prim.
Qed.

Lemma disable_network_prims sw sw' :
  sw_ok sw → disable_network sw = Some sw' → rtc prim sw sw'.
Proof.
  intros Hok H. unfold disable_network in H.
  assert (prim sw (set_network false sw)) as Hp.
  { pose proof Hok as [_ _ _ _ _ _ [? ?]]. by apply p_aux. }
  eapply rtc_l; [exact Hp|]. apply reset_network_prims; [by eapply prim_ok|done].
Qed.

(** *** Taking replies *)

Lemma take_reply_from_prim i n sw r sw' :
  sw_ok sw → take_reply_from i n sw = (r, sw') → rtc prim sw sw'.
Proof.
  intros Hok. unfold take_reply_from.
  destruct (endpoints sw !! i) as [e|] eqn:Hi; [|by intros [= <- <-]].
  destruct (lookup_ok _ _ _ Hok Hi) as [Hs _ _ Hid Hret].
  pose proof (Stream.take_reply_ok n _ Hs) as Ht.
  destruct (Stream.take_reply n (ep_stream e)) as [[r'|] s'] eqn:Hr; [|by intros [= <- <-]].
  intros [= <- <-]. destruct Ht as [Hs' Hsame]. cbn [snd] in *. unfold Stream.take_reply in Hr.
  assert (VsockStream.connection s' = VsockStream.connection (ep_stream e)) as Hcn
    by (repeat case_match; by simplify_eq/=).
  assert (Stream.is_live s' = is_live e ∧ ∃ x, replies (ep_stream e) = x :: replies s') as [Hl [x Hx]].
  { destruct (replies (ep_stream e)) as [|x l] eqn:Hl; [done|]. case_match; [done|].
    simplify_eq/=. split; [done|]. by eexists. }
  apply rtc_once, p_stream; try done; rewrite ?Hl, ?Hcn; try done.
  - by apply live_not_retiring with (1 := Hok) (2 := Hi).
  - intros Hnl. specialize (Hid Hnl). rewrite Hx in Hid. by inversion_clear Hid.
Qed.

Lemma flow_scan_prims n offset count mx sw r sw' :
  sw_ok sw → flow_scan n offset count mx sw = (r, sw') → rtc prim sw sw'.
Proof.
  revert offset sw. induction n as [|n IH]; intros offset sw Hok H; simpl in H; [by simplify_eq|].
  destruct (take_reply_from _ mx sw) as [[r1|] sw1] eqn:Ht.
  - pose proof (take_reply_from_prim _ _ _ _ _ Hok Ht) as H1. simplify_eq.
    etransitivity; [exact H1|]. apply rtc_once.
    assert (sw_ok sw1) as [_ _ _ _ _ _ [? ?]] by (by eapply prims_ok). by apply p_aux.
  - pose proof (take_reply_from_prim _ _ _ _ _ Hok Ht) as H1.
    etransitivity; [exact H1|]. eapply IH; [by eapply prims_ok|done].
Qed.

Lemma class_scan_prims n offset mx sw r sw' :
  sw_ok sw → class_scan n offset mx sw = (r, sw') → rtc prim sw sw'.
Proof.
  revert offset sw. induction n as [|n IH]; intros offset sw Hok H; simpl in H.
  { pose proof Hok as [_ _ _ _ _ _ [Hl Hr]].
    destruct (rejected sw) as [|x l] eqn:Hrj; [by simplify_eq|]. simplify_eq.
    apply rtc_once, p_aux; [unfold zlen in *; simpl in *; lia|by inversion_clear Hr]. }
  destruct (if _ <? _ then _ else _) as [[r1|] sw1] eqn:Ht.
  - assert (rtc prim sw sw1) as H1
      by (case_match; [by eapply take_reply_from_prim|by eapply flow_scan_prims]).
    simplify_eq. etransitivity; [exact H1|]. apply rtc_once.
    assert (sw_ok sw1) as [_ _ _ _ _ _ [? ?]] by (by eapply prims_ok). by apply p_aux.
  - assert (rtc prim sw sw1) as H1
      by (case_match; [by eapply take_reply_from_prim|by eapply flow_scan_prims]).
    etransitivity; [exact H1|]. eapply IH; [by eapply prims_ok|done].
Qed.

Lemma take_replies_prims n mx sw rs sw' :
  sw_ok sw → take_replies_up_to n mx sw = (rs, sw') → rtc prim sw sw'.
Proof.
  revert mx sw rs. induction n as [|n IH]; intros mx sw rs Hok H; simpl in H; [by simplify_eq|].
  destruct (take_reply mx sw) as [[r|] sw1] eqn:Ht; unfold take_reply in Ht;
    apply class_scan_prims in Ht; try done; [|by simplify_eq].
  destruct (take_replies_up_to n _ sw1) as [rs' sw2] eqn:Hr. simplify_eq.
  etransitivity; [exact Ht|]. eapply IH; [by eapply prims_ok|exact Hr].
Qed.

(** ** Runs of the switch *)

Inductive sop :=
| SRx (h : VsockHeader) (bs : list Z)
| SConnectPublication (host_port : Z)
| SRetire (id : ConnectionId)
| SReset
| SResetNetwork
| SDisableNetwork
| SRequestCredit (id : ConnectionId)
| SDeliver (id : ConnectionId) (bs : list Z)
| SShutdown (id : ConnectionId)
| SResetConnection (id : ConnectionId)
| SConsume (id : ConnectionId) (n : Z)
| STake (max_items : nat) (max_bytes : Z).

Definition sop_ok (o : sop) : Prop :=
  match o with
  | SRx h _ => header_ok h
  | SConsume _ n => 0 ≤ n
  | _ => True
  end.

Definition apply_sop (o : sop) (sw : VsockSwitch) : option VsockSwitch :=
  match o with
  | SRx h bs => snd <$> rx h bs sw
  | SConnectPublication p => snd <$> connect_publication p sw
  | SRetire id => snd <$> retire_connection id sw
  | SReset => reset_connections sw
  | SResetNetwork => reset_network_connections sw
  | SDisableNetwork => disable_network sw
  | SRequestCredit id => Some (request_credit id sw).2
  | SDeliver id bs => Some (deliver id bs sw).2
  | SShutdown id => Some (shutdown id sw).2
  | SResetConnection id => snd <$> reset_connection id sw
  | SConsume id n => snd <$> consume_upstream id n sw
  | STake n mx => Some (take_replies_up_to n mx sw).2
  end.

Fixpoint run (ops : list sop) (sw : VsockSwitch) : option VsockSwitch :=
  match ops with
  | [] => Some sw
  | o :: ops => sw ← apply_sop o sw; run ops sw
  end.

Lemma apply_sop_prims o sw sw' :
  sw_ok sw → sop_ok o → apply_sop o sw = Some sw' → rtc prim sw sw'.
Proof.
  intros Hok Ho H. destruct o; cbn [apply_sop sop_ok] in *;
    try match type of H with snd <$> _ = _ => apply fmap_Some in H as ([r sw1] & H & ->); simpl end.
  - by eapply rx_prims.
  - by eapply connect_publication_prims.
  - by eapply retire_connection_prims.
  - by apply reset_connections_prims.
  - by apply reset_network_prims.
  - by apply disable_network_prims.
  - destruct (request_credit id sw) eqn:E. simplify_eq/=. by eapply request_credit_prims.
  - destruct (deliver id bs sw) eqn:E. simplify_eq/=. by eapply deliver_prims.
  - destruct (shutdown id sw) eqn:E. simplify_eq/=. by eapply shutdown_prims.
  - by eapply reset_connection_prims.
  - by eapply consume_upstream_prims.
  - destruct (take_replies_up_to max_items max_bytes sw) eqn:E. simplify_eq/=.
    by eapply take_replies_prims.
Qed.

Lemma run_prims ops sw sw' :
  sw_ok sw → Forall sop_ok ops → run ops sw = Some sw' → rtc prim sw sw'.
Proof.
  intros Hok Hops. revert sw Hok. induction Hops as [|o ops Ho _ IH]; intros sw Hok H; simpl in H.
  { by simplify_eq. }
  destruct (apply_sop o sw) as [sw1|] eqn:Ha; [|done]. simpl in H.
  pose proof (apply_sop_prims o sw sw1 Hok Ho Ha) as H1.
  etransitivity; [exact H1|]. apply IH; [by eapply prims_ok|done].
Qed.

Lemma initial_ok en cap : 0 ≤ cap → sw_ok (with_network_socket_capacity en cap).
Proof.
  intros Hc. split; simpl; try done.
  - unfold network_socket_count, zlen, FIXED_ENDPOINTS, MAX_NETWORK_SOCKETS; simpl. lia.
  - repeat (apply Forall_cons; split); [by apply new_endpoint_ok|by apply new_endpoint_ok|done].
  - apply (bool_decide_unpack _). by vm_compute.
  - apply (bool_decide_unpack _). by vm_compute.
  - split; [|by vm_compute]. repeat (apply Forall_cons; split; [by vm_compute|]). done.
Qed.

(** The bounds the device promises its host, per endpoint. *)
Record bounded (e : Endpoint) : Prop := {
  bd_upstream : zlen (upstream (ep_stream e)) ≤ rx_alloc (ep_stream e) ≤ 64 * 1024;
  bd_replies : zlen (replies (ep_stream e)) ≤ MAX_QUEUED_REPLIES;
  bd_bytes : reply_bytes (ep_stream e) = sumZ ((λ r, zlen (payload r)) <$> replies (ep_stream e)) ∧
             reply_bytes (ep_stream e) ≤ max_tx_bytes (ep_stream e) ≤ 256 * 1024;
  bd_credit : ∀ c, VsockStream.connection (ep_stream e) = Some c →
    queued_bytes c = zlen (upstream (ep_stream e)) ∧
    unacked_bytes (tx_fwd_cnt c) (peer_fwd_cnt c) ≤ max_tx_bytes (ep_stream e) ∧
    wrapping_sub32 (rx_fwd_cnt c) (rx_credit_update_fwd_cnt c) ≤ rx_alloc (ep_stream e);
  (** Without a connection, nothing but resets is left to send. *)
  bd_idle : is_live e = false → Forall (λ r, op (header r) = OP_RST) (replies (ep_stream e));
}.

Lemma ep_ok_bounded e : ep_ok e → bounded e.
Proof.
  intros [[[H1 H2 H3 H4 H5 H6 H7 H8] Ha] Hb _ Hid _].
  assert (rx_alloc (ep_stream e) ≤ 64 * 1024 ∧ max_tx_bytes (ep_stream e) ≤ 256 * 1024) as [Hr Hm].
  { destruct (ep_role e); injection Hb as <- <-; by vm_compute. }
  destruct H4 as [H4 H4']. split.
  - done.
  - done.
  - split; [exact H4|lia].
  - intros c Hc. destruct (H8 c Hc) as [_ Q U _]. split_and!; try done.
    specialize (Ha c Hc). unfold Stream.unadvertised in Ha.
    pose proof (Z.div_le_upper_bound (rx_alloc (ep_stream e)) 2 (rx_alloc (ep_stream e))). lia.
  - intros Hl. eapply Forall_impl; [by apply Hid|]. by intros r [? _].
Qed.

(** What a run leaves behind. *)
Record sw_bounded (cap : Z) (sw : VsockSwitch) : Prop := {
  sb_endpoints : Forall bounded (endpoints sw);
  sb_ports : NoDup (ports <$> endpoints sw);
  sb_numbers : NoDup (endpoints sw ≫= numbers);
  sb_fixed : take 2 (ports <$> endpoints sw) = fixed_ports;
  sb_sockets : network_socket_count sw ≤ Z.min cap MAX_NETWORK_SOCKETS;
  sb_rejected : zlen (rejected sw) ≤ MAX_REJECTED_RESETS;
}.

Lemma run_bounded en cap ops sw :
  0 ≤ cap → Forall sop_ok ops → run ops (with_network_socket_capacity en cap) = Some sw →
  sw_bounded cap sw.
Proof.
  intros Hc Hops H. pose proof (initial_ok en cap Hc) as H0.
  pose proof (run_prims _ _ _ H0 Hops H) as Hp.
  assert (network_socket_capacity sw = Z.min cap MAX_NETWORK_SOCKETS) as Hcap.
  { assert (∀ a b, rtc prim a b → network_socket_capacity b = network_socket_capacity a) as Hk.
    { clear. induction 1 as [|a b c Hab _ IH]; [done|]. rewrite IH. by destruct Hab. }
    by rewrite (Hk _ _ Hp). }
  destruct (prims_ok _ _ Hp H0) as [Hf Hcp Heps Hports Hnum _ [Hrej _]].
  split; try done; [|lia]. eapply Forall_impl; [exact Heps|]. apply ep_ok_bounded.
Qed.

(** C18. Hostile traffic cannot break the switch. After any sequence of guest
    packets and host calls, in any order, every endpoint keeps its buffers and
    its credit counters within their budgets and consistent with the bytes
    they describe; no two endpoints share a pair of ports or a connection
    number; there are at most the configured number of flows, never more than
    1024, after the two fixed endpoints; at most 32 resets are kept for
    rejected packets. *)
Theorem switch_bounds en cap ops sw :
  0 ≤ cap → Forall sop_ok ops → run ops (with_network_socket_capacity en cap) = Some sw →
  Forall bounded (endpoints sw) ∧
  NoDup (ports <$> endpoints sw) ∧ NoDup (endpoints sw ≫= numbers) ∧
  take 2 (ports <$> endpoints sw) = fixed_ports ∧
  network_socket_count sw ≤ Z.min cap MAX_NETWORK_SOCKETS ∧
  zlen (rejected sw) ≤ MAX_REJECTED_RESETS.
Proof.
  intros Hc Hops H. by destruct (run_bounded en cap ops sw Hc Hops H).
Qed.

(** ** Connection identities *)

(** A connection number that no endpoint will ever use again. *)
Definition dead (n : Z) (sw : VsockSwitch) : Prop :=
  n < next_connection_number sw ∧ n ∉ (ep_number <$> endpoints sw).

Lemma prim_next sw sw' : prim sw sw' → next_connection_number sw ≤ next_connection_number sw'.
Proof. destruct 1; simpl; lia. Qed.

Lemma number_insert n sw i e e' :
  endpoints sw !! i = Some e → n ∉ (ep_number <$> endpoints sw) → ep_number e' ≠ n →
  n ∉ (ep_number <$> <[i := e']> (endpoints sw)).
Proof.
  intros Hi Hn He'. destruct (endpoints_split (endpoints sw) i e e' Hi) as (l1 & l2 & Hl & _ & ->).
  rewrite Hl, fmap_app, fmap_cons in Hn. rewrite fmap_app, fmap_cons.
  rewrite elem_of_app, elem_of_cons in Hn |- *. intros [?|[?|?]]; [tauto|by subst|tauto].
Qed.

Lemma prim_dead n sw sw' : prim sw sw' → dead n sw → dead n sw'.
Proof.
  intros Hp [Hlt Hn]. pose proof (prim_next _ _ Hp) as Hle. split; [lia|].
  destruct Hp as [sw nr nf en rj Hl Hrj|sw i e s Hi|sw i e s Hi|sw role gp hp Hfresh
    |sw i e Hi H2 Hl|sw i e Hi|sw Hl]; simpl in *.
  - done.
  - apply (number_insert n sw i e); [done|done|]. intros <-. apply Hn, list_elem_of_fmap.
    exists e. split; [done|]. by eapply list_elem_of_lookup_2.
  - apply (number_insert n sw i e); [done|done|simpl; lia].
  - rewrite fmap_app, elem_of_app. intros [?|Hin]; [done|].
    apply list_elem_of_fmap in Hin as (e & -> & He). apply list_elem_of_singleton in He as ->.
    destruct role; simpl in *; lia.
  - rewrite fmap_app, fmap_take, fmap_drop, elem_of_app. intros [Hin|Hin]; apply Hn.
    + rewrite <- (take_drop i (ep_number <$> endpoints sw)). apply elem_of_app. by left.
    + rewrite <- (take_drop (S i) (ep_number <$> endpoints sw)). apply elem_of_app. by right.
  - apply (number_insert n sw i e); [done|done|simpl; lia].
  - done.
Qed.

Lemma prims_dead n sw sw' : rtc prim sw sw' → dead n sw → dead n sw'.
Proof. induction 1; eauto using prim_dead. Qed.

(** An endpoint is connected under the handle. *)
Definition holds (id : ConnectionId) (sw : VsockSwitch) : Prop :=
  ∃ i e, endpoints sw !! i = Some e ∧ connected e = Some id.

Lemma connected_number e id : connected e = Some id → ep_number e = id_number id.
Proof. unfold connected. destruct (VsockStream.connection (ep_stream e)); [|done]. by intros [= <-]. Qed.

Lemma connected_ports e id : connected e = Some id → ports e = (id_guest_port id, id_host_port id).
Proof. unfold connected. destruct (VsockStream.connection (ep_stream e)); [|done]. by intros [= <-]. Qed.

Lemma connected_set_stream e s id :
  connected e = Some id → VsockStream.connection s ≠ None → Stream.same_stream (ep_stream e) s →
  connected (set_stream s e) = Some id.
Proof.
  unfold connected. destruct (VsockStream.connection (ep_stream e)); [|done]. intros [= <-] Hs (Hg & Hh & _). simpl.
  destruct (VsockStream.connection s); [|done]. simpl. unfold identity. simpl. by rewrite Hg, Hh.
Qed.

Lemma unique_number sw i j e e' :
  sw_ok sw → endpoints sw !! i = Some e → endpoints sw !! j = Some e' →
  ep_number e = ep_number e' → i = j.
Proof.
  intros Hok Hi Hj Heq. destruct (decide (i = j)) as [|Hij]; [done|]. exfalso.
  destruct Hok as [_ _ _ _ Hnum _ _].
  destruct (endpoints_split (endpoints sw) i e e Hi) as (l1 & l2 & Hl & Hlen & _).
  rewrite Hl, bind_app, bind_cons in Hnum. rewrite !NoDup_app in Hnum.
  destruct Hnum as (_ & Hd1 & _ & Hd2 & _).
  assert (ep_number e' ∈ numbers e') as Hin by left.
  rewrite Hl in Hj. apply lookup_app_Some in Hj as [Hj|[Hle Hj]].
  - apply (Hd1 (ep_number e')).
    + apply list_elem_of_bind. exists e'. split; [done|]. by eapply list_elem_of_lookup_2.
    + apply elem_of_app. left. rewrite <- Heq. left.
  - destruct (j - length l1)%nat as [|k] eqn:Hk; [lia|]. simpl in Hj.
    apply (Hd2 (ep_number e)); [left|]. rewrite Heq.
    apply list_elem_of_bind. exists e'. split; [done|]. by eapply list_elem_of_lookup_2.
Qed.

(** A handle stays connected, or its number is dead for good. *)
Lemma prim_holds id sw sw' : sw_ok sw → prim sw sw' → holds id sw → holds id sw' ∨ dead (id_number id) sw'.
Proof.
  intros Hok Hp (j & e0 & Hj & Hid). pose proof (connected_number _ _ Hid) as Hn.
  pose proof (connected_live _ _ Hid) as Hl.
  assert (id_number id < next_connection_number sw) as Hlt.
  { destruct Hok as [_ _ _ _ _ [Hnext _] _]. rewrite Forall_forall in Hnext. apply Hnext.
    apply list_elem_of_bind. exists e0. split; [rewrite <- Hn; left|by eapply list_elem_of_lookup_2]. }
  destruct Hp as [sw nr nf en rj Hln Hrj|sw i e s Hi Hs Hsame Hll Hlr Hidle Hcn
    |sw i e s Hi Hli Hc Hsame Hmax|sw role gp hp Hfresh Hrole Hcap Hmax|sw i e Hi H2 Hli
    |sw i e Hi Hli Hmax|sw Hmax].
  - left. by exists j, e0.
  - left. destruct (decide (i = j)) as [->|Hij].
    + rewrite Hi in Hj. simplify_eq. exists j, (set_stream s e0). split.
      * simpl. apply list_lookup_insert_eq. by eapply lookup_lt_Some.
      * apply connected_set_stream; [done| |done]. apply Hcn. by eapply connected_some.
    + exists j, e0. split; [|done]. simpl. by rewrite list_lookup_insert_ne.
  - destruct (decide (i = j)) as [->|Hij].
    + right. rewrite Hi in Hj. simplify_eq. split; [simpl; lia|]. simpl. intros Hin.
      apply list_elem_of_fmap in Hin as (e' & Heq & Hin). apply list_elem_of_lookup in Hin as [k Hk].
      destruct (decide (k = j)) as [->|Hkj].
      * rewrite list_lookup_insert_eq in Hk by (by eapply lookup_lt_Some). simplify_eq. simpl in Heq. lia.
      * rewrite list_lookup_insert_ne in Hk by done. apply Hkj.
        eapply (unique_number sw k j e' e0); [done|done|done|congruence].
    + left. exists j, e0. split; [|done]. simpl. by rewrite list_lookup_insert_ne.
  - left. exists j, e0. split; [|done]. simpl. by apply lookup_app_l_Some.
  - left. assert (i ≠ j) by (intros ->; rewrite Hi in Hj; congruence).
    destruct (decide (j < i)%nat).
    + exists j, e0. split; [|done]. simpl. rewrite lookup_app_l.
      * by rewrite lookup_take_lt.
      * rewrite length_take. apply lookup_lt_Some in Hi. lia.
    + exists (j - 1)%nat, e0. split; [|done]. simpl. pose proof (lookup_lt_Some _ _ _ Hi).
      rewrite lookup_app_r by (rewrite length_take; lia). rewrite length_take, lookup_drop.
      replace (S i + (j - 1 - Nat.min i (length (endpoints sw))))%nat with j by lia. done.
  - left. assert (i ≠ j) by (intros ->; rewrite Hi in Hj; congruence).
    exists j, e0. split; [|done]. simpl. by rewrite list_lookup_insert_ne.
  - left. by exists j, e0.
Qed.

Lemma prims_holds id sw sw' :
  rtc prim sw sw' → sw_ok sw → holds id sw → holds id sw' ∨ dead (id_number id) sw'.
Proof.
  induction 1 as [|a b c Hab Hbc IH]; intros Hok Hl; [by left|].
  destruct (prim_holds id a b Hok Hab Hl) as [Hl'|Hd].
  - apply IH; [by eapply prim_ok|done].
  - right. by eapply prims_dead.
Qed.

Lemma endpoint_at_unique sw i e :
  NoDup (ports <$> endpoints sw) → endpoints sw !! i = Some e → endpoint_at (ports e).1 (ports e).2 sw = Some (i, e).
Proof.
  intros Hnd Hi. unfold endpoint_at. destruct (endpoint_index _ _ sw) as [j|] eqn:Hj.
  - apply endpoint_index_Some in Hj as (e' & He' & Hp). simpl. rewrite He'. simpl.
    assert (i = j) as -> by (eapply (NoDup_lookup _ i j (ports e) Hnd); rewrite list_lookup_fmap, ?Hi, ?He'; simpl; [done|by rewrite Hp, <- surjective_pairing]).
    by rewrite Hi in He'; simplify_eq.
  - exfalso. apply endpoint_index_None in Hj. apply Hj. rewrite <- surjective_pairing.
    apply list_elem_of_fmap. exists e. split; [done|]. by eapply list_elem_of_lookup_2.
Qed.

Lemma is_current_holds id sw : NoDup (ports <$> endpoints sw) → is_current id sw = true ↔ holds id sw.
Proof.
  intros Hnd. unfold is_current. rewrite bool_decide_eq_true. split.
  - destruct (connection_index id sw) as [[i e]|] eqn:Hi; [|done]. intros _. exists i, e. by apply connection_index_Some.
  - intros (i & e & Hi & He). unfold connection_index. pose proof (endpoint_at_unique sw i e Hnd Hi) as Ha.
    rewrite (connected_ports _ _ He) in Ha. simpl in Ha. rewrite Ha. simpl. by rewrite bool_decide_eq_true_2.
Qed.

Lemma dead_not_holds id sw : dead (id_number id) sw → ¬ holds id sw.
Proof.
  intros [_ Hn] (i & e & Hi & He). apply Hn. rewrite <- (connected_number _ _ He). apply list_elem_of_fmap.
  exists e. split; [done|]. by eapply list_elem_of_lookup_2.
Qed.

(** C28. A stale handle never comes back to life. Once a connection that was
    current is no longer current, for whatever reason, no later sequence of packets
    and host calls makes the same handle current again, so an operation on it can
    only report an unknown connection. *)
Theorem stale_handles_stay_dead en cap ops1 ops2 ops3 sw1 sw2 sw3 id :
  0 ≤ cap → Forall sop_ok (ops1 ++ ops2 ++ ops3) →
  run ops1 (with_network_socket_capacity en cap) = Some sw1 →
  run ops2 sw1 = Some sw2 → run ops3 sw2 = Some sw3 →
  is_current id sw1 = true → is_current id sw2 = false →
  is_current id sw3 = false.
Proof.
  intros Hc Hops H1 H2 H3 Hcur Hstale. rewrite !Forall_app in Hops. destruct Hops as (Ho1 & Ho2 & Ho3).
  pose proof (initial_ok en cap Hc) as H0.
  assert (sw_ok sw1) as Hok1 by exact (prims_ok _ _ (run_prims _ _ _ H0 Ho1 H1) H0).
  pose proof (run_prims _ _ _ Hok1 Ho2 H2) as Hp2.
  assert (sw_ok sw2) as Hok2 by (by eapply prims_ok).
  pose proof (run_prims _ _ _ Hok2 Ho3 H3) as Hp3.
  assert (sw_ok sw3) as Hok3 by (by eapply prims_ok).
  apply not_true_iff_false. apply not_true_iff_false in Hstale.
  rewrite is_current_holds in Hcur by apply sw_ports, Hok1. rewrite is_current_holds in Hstale by apply sw_ports, Hok2.
  rewrite is_current_holds by apply sw_ports, Hok3.
  destruct (prims_holds id sw1 sw2 Hp2 Hok1 Hcur) as [?|Hd]; [done|].
  eapply dead_not_holds, prims_dead; done.
Qed.

(** ** Connection numbers do not run out *)

(** [o] yields a state that used at most [k] connection numbers. *)
Definition within (k : Z) (sw : VsockSwitch) (o : option VsockSwitch) : Prop :=
  ∃ sw', o = Some sw' ∧ next_connection_number sw' ≤ next_connection_number sw + k.

Lemma allocate_total sw :
  next_connection_number sw < U64_MAX →
  allocate_connection_number sw =
  Some (next_connection_number sw, set_number (next_connection_number sw + 1) sw).
Proof.
  intros H. unfold allocate_connection_number.
  by rewrite (proj2 (checked_add64_Some _ 1 _)) by (split; [done|lia]).
Qed.

Lemma retire_endpoint_total i sw :
  (i < length (endpoints sw))%nat → next_connection_number sw < U64_MAX →
  ∃ sw', retire_endpoint i sw = Some sw' ∧
    next_connection_number sw' = next_connection_number sw + 1 ∧
    length (endpoints sw') = length (endpoints sw).
Proof.
  intros Hi Hn. unfold retire_endpoint. rewrite allocate_total by done. simpl.
  destruct (lookup_lt_is_Some_2 _ _ Hi) as [e ->]. simpl. eexists. split; [done|].
  simpl. by rewrite length_insert.
Qed.

Lemma for_each_total idxs f sw :
  (∀ i sw, (i < length (endpoints sw))%nat → next_connection_number sw < U64_MAX →
    ∃ sw', f i sw = Some sw' ∧ next_connection_number sw' ≤ next_connection_number sw + 1 ∧
      length (endpoints sw') = length (endpoints sw)) →
  Forall (λ i, (i < length (endpoints sw))%nat) idxs →
  next_connection_number sw + zlen idxs ≤ U64_MAX →
  within (zlen idxs) sw (for_each idxs f sw).
Proof.
  intros Hf Hidx. revert sw Hidx. induction idxs as [|i idxs IH]; intros sw Hidx Hn.
  - exists sw. split; [done|]. unfold zlen; simpl; lia.
  - inversion_clear Hidx as [|? ? Hi Hidx']. unfold zlen in Hn; simpl in Hn.
    destruct (Hf i sw Hi ltac:(lia)) as (sw1 & Hfi & Hn1 & Hl1). simpl. rewrite Hfi. simpl.
    destruct (IH sw1) as (sw2 & H2 & Hn2).
    + by rewrite Hl1.
    + unfold zlen. lia.
    + exists sw2. split; [done|]. unfold zlen in *; simpl. lia.
Qed.

Lemma rx_at_total i h bs sw :
  (i < length (endpoints sw))%nat → next_connection_number sw < U64_MAX →
  ∃ r sw', rx_at i h bs sw = Some (r, sw') ∧
    next_connection_number sw' ≤ next_connection_number sw + 1.
Proof.
  intros Hi Hn. unfold rx_at. destruct (lookup_lt_is_Some_2 _ _ Hi) as [e He]. rewrite He. simpl.
  case_bool_decide.
  { eexists _, _. split; [done|]. unfold reject. case_match; simpl; lia. }
  case_match; [|eexists _, _; split; [done|]; simpl; lia].
  destruct (retire_endpoint_total i (set_endpoint i (set_stream (Stream.rx h bs (ep_stream e)) e) sw))
    as (sw1 & -> & Hn1 & _).
  - simpl. by rewrite length_insert.
  - done.
  - simpl. eexists _, _. split; [done|]. rewrite Hn1. simpl. lia.
Qed.

Lemma lookup_in_range (sw : VsockSwitch) i e :
  endpoints sw !! i = Some e → (i < length (endpoints sw))%nat.
Proof. apply lookup_lt_Some. Qed.

Lemma seq_in_range a n (sw : VsockSwitch) :
  (a + n ≤ length (endpoints sw))%nat → Forall (λ i, (i < length (endpoints sw))%nat) (seq a n).
Proof. intros H. apply Forall_forall. intros i Hi. apply elem_of_seq in Hi. lia. Qed.

Lemma reset_connections_total sw :
  next_connection_number sw + zlen (endpoints sw) ≤ U64_MAX →
  within (zlen (endpoints sw)) sw (reset_connections sw).
Proof.
  intros Hn. unfold reset_connections.
  destruct (for_each_total (seq 0 (length (endpoints sw))) (λ i sw,
         e ← endpoints sw !! i;
         sw ← (if is_live e then retire_endpoint i sw else Some sw);
         clear_replies i sw) sw) as (sw' & -> & Hn').
  - intros i w Hi Hw. destruct (lookup_lt_is_Some_2 _ _ Hi) as [e He]. rewrite He. simpl.
    assert (∃ w', (if is_live e then retire_endpoint i w else Some w) = Some w' ∧
      next_connection_number w' ≤ next_connection_number w + 1 ∧
      length (endpoints w') = length (endpoints w)) as (w' & -> & Hw' & Hlw).
    { case_match; [|exists w; split_and!; [done|lia|done]].
      destruct (retire_endpoint_total i w Hi Hw) as (w' & -> & ? & ?). exists w'. split_and!; [done|lia|done]. }
    simpl. unfold clear_replies. rewrite <- Hlw in Hi. destruct (lookup_lt_is_Some_2 _ _ Hi) as [e' ->].
    simpl. eexists. split; [done|]. simpl. by rewrite length_insert.
  - by apply seq_in_range.
  - unfold zlen in *. by rewrite length_seq.
  - simpl. eexists. split; [done|]. simpl. unfold zlen in *. by rewrite length_seq in Hn'.
Qed.

Lemma reset_network_total sw :
  next_connection_number sw + zlen (endpoints sw) ≤ U64_MAX →
  within (zlen (endpoints sw)) sw (reset_network_connections sw).
Proof.
  intros Hn. unfold reset_network_connections.
  edestruct (for_each_total (seq 1 (length (endpoints sw) - 1))) as (sw' & Hs & Hn');
    [| | |rewrite Hs; exists sw'; split; [done|]; unfold zlen in *; rewrite length_seq in Hn'; lia].
  - intros i w Hi Hw. destruct (lookup_lt_is_Some_2 _ _ Hi) as [e He]. rewrite He. simpl.
    case_match; [|exists w; split_and!; [done|lia|done]].
    match goal with |- context [retire_endpoint i ?x] =>
      destruct (retire_endpoint_total i x) as (w' & -> & Hw' & Hlw) end.
    + simpl. by rewrite length_insert.
    + done.
    + eexists. split; [done|]. rewrite Hw', Hlw. simpl. rewrite length_insert. split; [lia|done].
  - destruct (endpoints sw) as [|e l] eqn:El; [constructor|]. rewrite <- El.
    apply seq_in_range. rewrite El. simpl. lia.
  - unfold zlen in *. rewrite length_seq. lia.
Qed.

Lemma class_scan_next n o mx sw : sw_ok sw →
  next_connection_number (class_scan n o mx sw).2 = next_connection_number sw.
Proof.
  assert (∀ i sw, next_connection_number (take_reply_from i mx sw).2 = next_connection_number sw) as Ht.
  { intros i w. unfold take_reply_from. by repeat case_match. }
  assert (∀ n o c sw, next_connection_number (flow_scan n o c mx sw).2 = next_connection_number sw) as Hf.
  { clear n o sw. induction n as [|n IH]; intros o c w; simpl; [done|].
    specialize (Ht (Z.to_nat (FIXED_ENDPOINTS + (next_flow_reply w + o) mod c)) w).
    destruct (take_reply_from _ mx w) as [[r|] w1]; simpl in *; [done|by rewrite IH]. }
  intros _. revert o sw. induction n as [|n IH]; intros o sw; simpl; [by case_match|].
  assert (∀ w1 r, (if (next_reply sw + o) mod REPLY_CLASSES <? FIXED_ENDPOINTS
    then take_reply_from (Z.to_nat ((next_reply sw + o) mod REPLY_CLASSES)) mx sw
    else take_flow_reply mx sw) = (r, w1) → next_connection_number w1 = next_connection_number sw) as Hc.
  { intros w1 r. case_match; intros H1.
    - pose proof (Ht (Z.to_nat ((next_reply sw + o) mod REPLY_CLASSES)) sw) as H2. by rewrite H1 in H2.
    - pose proof (Hf (Z.to_nat (network_socket_count sw)) 0 (network_socket_count sw) sw) as H2.
      unfold take_flow_reply in H1. by rewrite H1 in H2. }
  destruct (if _ <? _ then _ else _) as [[r|] w1]; specialize (Hc _ _ eq_refl); simpl;
    [done|]. by rewrite IH.
Qed.

Lemma take_replies_next n mx sw : sw_ok sw →
  next_connection_number (take_replies_up_to n mx sw).2 = next_connection_number sw.
Proof.
  revert mx sw. induction n as [|n IH]; intros mx sw Hok; simpl; [done|].
  pose proof (class_scan_next (Z.to_nat REPLY_CLASSES) 0 mx sw Hok) as Hc. unfold take_reply.
  destruct (class_scan _ 0 mx sw) as [[r|] w1] eqn:Hs; simpl in Hc; [|done].
  assert (sw_ok w1) as Hok1 by (eapply prims_ok; [by eapply class_scan_prims|done]).
  specialize (IH (mx - zlen (payload r)) w1 Hok1).
  destruct (take_replies_up_to n _ w1) as [rs w2]. simpl in *. congruence.
Qed.

Lemma two_fixed sw : sw_ok sw → 2 ≤ zlen (endpoints sw).
Proof.
  intros Hok. destruct Hok as [Hf _ _ _ _ _ _]. apply (f_equal length) in Hf.
  rewrite length_take, length_fmap in Hf. change (length fixed_ports) with 2%nat in Hf.
  unfold zlen. lia.
Qed.

Lemma on_stream_next {A} id (f : StreamConnection → result VsockError A * StreamConnection) sw :
  next_connection_number (on_stream id f sw).2 = next_connection_number sw.
Proof. unfold on_stream. repeat case_match; done. Qed.

Lemma reject_next h sw : next_connection_number (reject h sw) = next_connection_number sw.
Proof. unfold reject. by case_match. Qed.

Lemma within_id k sw sw' :
  0 ≤ k → next_connection_number sw' = next_connection_number sw → within k sw (Some sw').
Proof. intros Hk H. exists sw'. split; [done|]. lia. Qed.

Lemma retire_stream_total i e s sw :
  endpoints sw !! i = Some e → next_connection_number sw < U64_MAX →
  within 1 sw (retire_endpoint i (set_endpoint i (set_stream s e) sw)).
Proof.
  intros Hi Hn. destruct (retire_endpoint_total i (set_endpoint i (set_stream s e) sw))
    as (sw' & -> & Hn' & _).
  - simpl. rewrite length_insert. by eapply lookup_in_range.
  - done.
  - exists sw'. split; [done|]. simpl in Hn'. lia.
Qed.

Lemma rx_total h bs sw :
  next_connection_number sw + 2 ≤ U64_MAX → within 2 sw (snd <$> rx h bs sw).
Proof.
  intros Hn. unfold rx.
  destruct (classify _ _ sw); [|apply within_id; [lia|apply reject_next]].
  destruct (endpoint_index _ _ sw) as [i|] eqn:Hi.
  - apply endpoint_index_Some in Hi as (e & Hi & _).
    destruct (rx_at_total i h bs sw) as (x & sw' & -> & Hn'); [by eapply lookup_in_range|lia|].
    exists sw'. split; [done|]. lia.
  - destruct (refuses_flow _ _ _ _); [apply within_id; [lia|apply reject_next]|].
    rewrite allocate_total by (simpl; lia). simpl (_ ≫= _).
    match goal with |- context [rx_at ?i h bs ?w] =>
      destruct (rx_at_total i h bs w) as (x & sw' & Hrx & Hn') end.
    + simpl. rewrite length_app. simpl. lia.
    + simpl. lia.
    + rewrite Hrx. exists sw'. split; [done|]. simpl in Hn'. lia.
Qed.

Lemma connect_publication_total hp sw :
  next_connection_number sw < U64_MAX → within 1 sw (snd <$> connect_publication hp sw).
Proof.
  intros Hn. unfold connect_publication. destruct (_ || _); [by apply within_id|].
  case_bool_decide; [by apply within_id|].
  rewrite allocate_total by lia. simpl. eexists. split; [done|]. simpl. lia.
Qed.

Lemma retire_connection_total id sw :
  next_connection_number sw < U64_MAX → within 1 sw (snd <$> retire_connection id sw).
Proof.
  intros Hn. unfold retire_connection.
  destruct (endpoint_at _ _ sw) as [[i e]|]; [|by apply within_id].
  destruct (_ || _); [by apply within_id|]. case_match; [by apply within_id|].
  rewrite allocate_total by lia. simpl. eexists. split; [done|]. simpl. lia.
Qed.

Lemma reset_connection_total id sw :
  next_connection_number sw < U64_MAX → within 1 sw (snd <$> reset_connection id sw).
Proof.
  intros Hn. unfold reset_connection.
  destruct (endpoint_at _ _ sw) as [[i e]|] eqn:Hi; [|by apply within_id].
  apply endpoint_at_Some in Hi as [Hi _]. case_match; [|by apply within_id].
  destruct (retire_stream_total i e
    (Stream.rst (id_guest_port id) (id_host_port id) (ep_stream e)).2 sw Hi Hn) as (sw' & -> & Hn').
  by exists sw'.
Qed.

Lemma consume_upstream_total id n sw :
  next_connection_number sw < U64_MAX → within 1 sw (snd <$> consume_upstream id n sw).
Proof.
  intros Hn. unfold consume_upstream.
  destruct (connection_index _ sw) as [[i e]|] eqn:Hi; [|by apply within_id].
  apply connection_index_Some in Hi as [Hi _]. cbv zeta.
  destruct (VsockStream.connection _); [by apply within_id|].
  destruct (retire_stream_total i e (Stream.consume_upstream n (ep_stream e)) sw Hi Hn)
    as (sw' & -> & Hn').
  by exists sw'.
Qed.

Lemma within_le k k' sw o : within k sw o → k ≤ k' → within k' sw o.
Proof. intros (sw' & -> & H) Hk. exists sw'. split; [done|]. lia. Qed.

Lemma apply_sop_total o sw :
  sw_ok sw → next_connection_number sw + zlen (endpoints sw) ≤ U64_MAX →
  within (zlen (endpoints sw)) sw (apply_sop o sw).
Proof.
  intros Hok Hn. pose proof (two_fixed sw Hok) as H2.
  assert (next_connection_number sw < U64_MAX) as Hn1 by lia.
  destruct o; cbn [apply_sop].
  - eapply within_le; [apply rx_total; lia|lia].
  - eapply within_le; [by apply connect_publication_total|lia].
  - eapply within_le; [by apply retire_connection_total|lia].
  - by apply reset_connections_total.
  - by apply reset_network_total.
  - unfold disable_network. destruct (reset_network_total (set_network false sw)) as (sw' & -> & ?);
      [done|]. by exists sw'.
  - apply within_id; [lia|]. apply on_stream_next.
  - apply within_id; [lia|]. unfold deliver. case_match; [done|]. apply on_stream_next.
  - apply within_id; [lia|]. apply on_stream_next.
  - eapply within_le; [by apply reset_connection_total|lia].
  - eapply within_le; [by apply consume_upstream_total|lia].
  - apply within_id; [lia|]. by apply take_replies_next.
Qed.

(** The switch does not abort in practice: starting fresh, every sequence
    of fewer than 2{^53} operations runs to its end. *)
Theorem switch_never_aborts en cap ops :
  0 ≤ cap → Forall sop_ok ops → zlen ops < 2 ^ 53 →
  is_Some (run ops (with_network_socket_capacity en cap)).
Proof.
  intros Hc Hops Hlen.
  assert (∀ sw, sw_ok sw → next_connection_number sw + 1026 * zlen ops ≤ U64_MAX →
    is_Some (run ops sw)) as Hgen.
  { clear Hlen. induction Hops as [|o ops Ho _ IH]; intros sw Hok Hn; [by eexists|].
    assert (zlen (endpoints sw) ≤ 1026) as Hl.
    { pose proof Hok as [_ Hcap _ _ _ _ _]. unfold network_socket_count, FIXED_ENDPOINTS,
        MAX_NETWORK_SOCKETS in Hcap. lia. }
    unfold zlen in Hn; simpl in Hn.
    destruct (apply_sop_total o sw Hok) as (sw' & Ha & Hn'); [unfold zlen in *; lia|].
    simpl. rewrite Ha. simpl. apply IH; [eapply prims_ok; [by eapply apply_sop_prims|done]|].
    unfold zlen in *. lia. }
  apply Hgen; [by apply initial_ok|]. simpl. unfold U64_MAX.
  change (2 ^ 53) with 9007199254740992 in Hlen. lia.
Qed.

(** ** The reply rotation *)

(** The bytes waiting in the endpoints. *)
Definition pending_bytes (sw : VsockSwitch) : Z :=
  sumZ ((λ e, sumZ (Stream.reply_len <$> replies (ep_stream e))) <$> endpoints sw).

(** The oldest reply of an endpoint fits in [mx] bytes. *)
Definition offers (mx : Z) (e : Endpoint) : bool :=
  match replies (ep_stream e) with
  | [] => false
  | r :: _ => zlen (payload r) <=? mx
  end.

(** One reply left the endpoints or the rejected resets. *)
Record took (r : Reply) (sw sw' : VsockSwitch) : Prop := {
  tk_count : pending_reply_count sw' = pending_reply_count sw - 1;
  tk_bytes : pending_bytes sw' = pending_bytes sw - zlen (payload r);
  tk_next : next_reply sw' = next_reply sw;
}.

(** The scan of one class. *)
Definition class_take (k mx : Z) (sw : VsockSwitch) : option Reply * VsockSwitch :=
  if k <? FIXED_ENDPOINTS then take_reply_from (Z.to_nat k) mx sw else take_flow_reply mx sw.

Lemma sumZ_insert {A} (f : A → Z) l i x y :
  l !! i = Some x → sumZ (f <$> <[i := y]> l) = sumZ (f <$> l) - f x + f y.
Proof.
  revert i. induction l as [|z l IH]; intros [|i] Hi; simplify_eq/=; rewrite ?sumZ_cons; [lia|].
  rewrite (IH i) by done. lia.
Qed.

Lemma take_reply_from_offers i mx sw :
  (∃ e, endpoints sw !! i = Some e ∧ offers mx e = true ∧ ∃ r s,
     take_reply_from i mx sw = (Some r, set_endpoint i (set_stream s e) sw) ∧
     took r sw (set_endpoint i (set_stream s e) sw)) ∨
  ((∀ e, endpoints sw !! i = Some e → offers mx e = false) ∧ take_reply_from i mx sw = (None, sw)).
Proof.
  unfold take_reply_from, offers, Stream.take_reply.
  destruct (endpoints sw !! i) as [e|] eqn:Hi; [|by right].
  destruct (replies (ep_stream e)) as [|r rs] eqn:Hr.
  { right. split; [|done]. intros e' [= <-]. by rewrite Hr. }
  destruct (mx <? zlen (payload r)) eqn:Hm; breflect.
  { right. split; [|done]. intros e' [= <-]. rewrite Hr. apply Z.leb_gt. lia. }
  left. exists e. rewrite Hr. split; [done|]. split; [apply Z.leb_le; lia|].
  eexists _, _. split; [done|].
  split; unfold pending_reply_count, pending_bytes; cbn [endpoints set_endpoint set_endpoints];
    rewrite ?(sumZ_insert _ _ _ _ _ Hi); simpl; rewrite ?Hr, ?fmap_cons, ?sumZ_cons; [|unfold Stream.reply_len|done];
    unfold zlen; simpl; lia.
Qed.

(** The scan of the flows, [n] offsets from [o]. *)
Lemma flow_scan_spec n o count mx sw :
  (n = O ∨ 0 < count) →
  match flow_scan n o count mx sw with
  | (Some r, sw') => took r sw sw' ∧ take 2 (endpoints sw') = take 2 (endpoints sw)
  | (None, sw') => sw' = sw ∧ ∀ k e, o ≤ k < o + Z.of_nat n →
      endpoints sw !! Z.to_nat (FIXED_ENDPOINTS + (next_flow_reply sw + k) mod count) = Some e →
      offers mx e = false
  end.
Proof.
  intros Hc. revert o. induction n as [|n IH]; intros o; cbn [flow_scan].
  { split; [done|]. intros k e Hk. lia. }
  destruct Hc as [|Hc]; [done|]. specialize (IH (or_intror Hc) (o + 1)).
  set (i := Z.to_nat _).
  destruct (take_reply_from_offers i mx sw) as [(e & Hi & _ & r & s & -> & [? ? ?])|[Hn ->]].
  - split; [by split|]. simpl. apply take_insert_ge.
    pose proof (Z.mod_pos_bound (next_flow_reply sw + o) count Hc).
    unfold i, FIXED_ENDPOINTS. lia.
  - destruct (flow_scan n (o + 1) count mx sw) as [[r|] sw']; [done|].
    destruct IH as [-> IH]. split; [done|]. intros k e Hk Hi.
    destruct (decide (k = o)) as [->|]; [by apply Hn|]. eapply IH; [|exact Hi]. lia.
Qed.

(** The rotation of the flows reaches every flow. *)
Lemma rotation_covers next count j :
  0 < count → 0 ≤ j < count → ∃ k, 0 ≤ k < count ∧ (next + k) mod count = j.
Proof.
  intros Hc Hj. exists ((j - next) mod count). split; [by apply Z.mod_pos_bound|].
  rewrite Zplus_mod_idemp_r. replace (next + (j - next)) with j by lia. by apply Z.mod_small.
Qed.

Lemma take_flow_reply_spec mx sw :
  match take_flow_reply mx sw with
  | (Some r, sw') => took r sw sw' ∧ take 2 (endpoints sw') = take 2 (endpoints sw)
  | (None, sw') => sw' = sw ∧ ∀ i e, (2 ≤ i)%nat → endpoints sw !! i = Some e → offers mx e = false
  end.
Proof.
  unfold take_flow_reply. cbv zeta.
  pose proof (flow_scan_spec (Z.to_nat (network_socket_count sw)) 0 (network_socket_count sw) mx sw) as H.
  destruct (flow_scan _ _ _ _ _) as [[r|] sw'].
  { apply H. destruct (decide (0 < network_socket_count sw)); [by right|left; lia]. }
  destruct H as [-> H]; [destruct (decide (0 < network_socket_count sw)); [by right|left; lia]|].
  split; [done|]. intros i e Hi He.
  pose proof (lookup_lt_Some _ _ _ He) as Hlt. unfold network_socket_count, FIXED_ENDPOINTS, zlen in *.
  destruct (rotation_covers (next_flow_reply sw) (Z.of_nat (length (endpoints sw)) - 2)
    (Z.of_nat i - 2)) as (k & Hk & Hm); [lia..|].
  eapply (H k); [lia|]. rewrite Hm. by replace (Z.to_nat (2 + (Z.of_nat i - 2))) with i by lia.
Qed.

(** What a scan returns depends on the scanned endpoints alone. *)
Lemma take_reply_from_ext i mx sw sw' :
  endpoints sw' !! i = endpoints sw !! i →
  (take_reply_from i mx sw').1 = (take_reply_from i mx sw).1.
Proof. intros H. unfold take_reply_from. rewrite H. by repeat case_match. Qed.

Lemma take_reply_from_None i mx sw sw' : take_reply_from i mx sw = (None, sw') → sw' = sw.
Proof. unfold take_reply_from. intros. repeat case_match; by simplify_eq. Qed.

Lemma flow_scan_ext n o count mx sw sw' :
  (n = O ∨ 0 < count) → next_flow_reply sw' = next_flow_reply sw →
  (∀ i, (2 ≤ i)%nat → endpoints sw' !! i = endpoints sw !! i) →
  (flow_scan n o count mx sw').1 = (flow_scan n o count mx sw).1.
Proof.
  intros Hc Hf He. revert o. induction n as [|n IH]; intros o; cbn [flow_scan]; [done|].
  destruct Hc as [|Hc]; [done|]. specialize (IH (or_intror Hc) (o + 1)). rewrite Hf.
  set (i := Z.to_nat _).
  assert ((2 ≤ i)%nat) as Hi.
  { pose proof (Z.mod_pos_bound (next_flow_reply sw + o) count Hc). unfold i, FIXED_ENDPOINTS. lia. }
  pose proof (take_reply_from_ext i mx sw sw' (He i Hi)) as Hx.
  destruct (take_reply_from i mx sw) as [[r|] w] eqn:H1, (take_reply_from i mx sw') as [[r'|] w'] eqn:H2;
    simplify_eq/=; [done|].
  by rewrite (take_reply_from_None _ _ _ _ H1), (take_reply_from_None _ _ _ _ H2).
Qed.

(** Taking from one class leaves the other classes' offers as they were. *)
Lemma class_take_Some k mx sw r sw' :
  0 ≤ k < REPLY_CLASSES → class_take k mx sw = (Some r, sw') →
  took r sw sw' ∧ ∀ j, 0 ≤ j < REPLY_CLASSES → j ≠ k → (class_take j mx sw').1 = (class_take j mx sw).1.
Proof.
  unfold class_take. intros Hk. change REPLY_CLASSES with 3 in *. destruct (k <? _) eqn:Hf; breflect; unfold FIXED_ENDPOINTS in *.
  - intros Ht. destruct (take_reply_from_offers (Z.to_nat k) mx sw)
      as [(e & He & _ & r' & s & Heq & Htk)|[_ Heq]]; rewrite Heq in Ht; simplify_eq.
    split; [done|]. intros j Hj Hne. case_match; breflect.
    + apply take_reply_from_ext. simpl. rewrite list_lookup_insert_ne by lia. done.
    + unfold take_flow_reply. cbv zeta.
      assert (network_socket_count (set_endpoint (Z.to_nat k) (set_stream s e) sw) = network_socket_count sw)
        as -> by (unfold network_socket_count, zlen; simpl; by rewrite length_insert).
      apply flow_scan_ext; [|done|].
      * destruct (decide (0 < network_socket_count sw)); [by right|left; lia].
      * intros i Hi. simpl. rewrite list_lookup_insert_ne by lia. done.
  - intros Ht. pose proof (take_flow_reply_spec mx sw) as Hs. rewrite Ht in Hs.
    destruct Hs as [Htk Hs]. split; [done|]. intros j Hj Hne. case_match; breflect; [|lia].
    apply take_reply_from_ext.
    rewrite <- (lookup_take_lt (endpoints sw') 2), <- (lookup_take_lt (endpoints sw) 2), Hs by lia. done.
Qed.

Lemma class_take_None k mx sw sw' :
  0 ≤ k < REPLY_CLASSES → class_take k mx sw = (None, sw') →
  sw' = sw ∧ ∀ i e, Z.min (Z.of_nat i) FIXED_ENDPOINTS = k → endpoints sw !! i = Some e → offers mx e = false.
Proof.
  unfold class_take. intros Hk. change REPLY_CLASSES with 3 in *. unfold FIXED_ENDPOINTS in *.
  destruct (k <? _) eqn:Hf; breflect; intros Ht.
  - destruct (take_reply_from_offers (Z.to_nat k) mx sw)
      as [(e & He & _ & r' & s & Heq & Htk)|[Hn Heq]]; rewrite Heq in Ht; simplify_eq.
    split; [done|]. intros i e Hi. assert (i = Z.to_nat k) as -> by lia. apply Hn.
  - pose proof (take_flow_reply_spec mx sw) as Hs. rewrite Ht in Hs. destruct Hs as [-> Hs].
    split; [done|]. intros i e Hi. apply Hs. lia.
Qed.

(** The class the scan settles on is the first one, in rotation order, with a
    reply that fits. *)
Lemma class_scan_spec n o mx sw :
  match class_scan n o mx sw with
  | (Some r, sw') =>
    (∃ d w, o ≤ d < o + Z.of_nat n ∧
       class_take ((next_reply sw + d) mod REPLY_CLASSES) mx sw = (Some r, w) ∧
       sw' = set_next_reply (((next_reply sw + d) mod REPLY_CLASSES + 1) mod REPLY_CLASSES) w ∧
       ∀ d', o ≤ d' < d → (class_take ((next_reply sw + d') mod REPLY_CLASSES) mx sw).1 = None) ∨
    (∃ rs, rejected sw = r :: rs ∧ sw' = set_rejected rs sw ∧
       ∀ d', o ≤ d' < o + Z.of_nat n → (class_take ((next_reply sw + d') mod REPLY_CLASSES) mx sw).1 = None)
  | (None, sw') => sw' = sw ∧ rejected sw = [] ∧
       ∀ d', o ≤ d' < o + Z.of_nat n → (class_take ((next_reply sw + d') mod REPLY_CLASSES) mx sw).1 = None
  end.
Proof.
  revert o. induction n as [|n IH]; intros o; cbn [class_scan].
  { destruct (rejected sw) as [|r rs] eqn:Hr.
    - split_and!; [done..|lia].
    - right. exists rs. split_and!; [done..|lia]. }
  cbv zeta. fold (class_take ((next_reply sw + o) mod REPLY_CLASSES) mx sw).
  destruct (class_take _ mx sw) as [[r|] w] eqn:Ht.
  { left. exists o, w. split_and!; [lia|lia|done|done|]. intros d' Hd'. lia. }
  apply class_take_None in Ht as Hw; [|by apply Z.mod_pos_bound]. destruct Hw as [-> _].
  assert (∀ d', o ≤ d' → d' < o + 1 → (class_take ((next_reply sw + d') mod REPLY_CLASSES) mx sw).1 = None)
    as H1 by (intros d' ??; replace d' with o by lia; by rewrite Ht).
  specialize (IH (o + 1)). destruct (class_scan n (o + 1) mx sw) as [[r|] w].
  - destruct IH as [(d & w' & Hd & H2 & H3 & H4)|(rs & H2 & H3 & H4)].
    + left. exists d, w'. split_and!; [lia|lia|done|done|]. intros d' Hd'.
      destruct (decide (d' = o)) as [->|]; [by rewrite Ht|]. apply H4. lia.
    + right. exists rs. split_and!; [done|done|]. intros d' Hd'.
      destruct (decide (d' = o)) as [->|]; [by rewrite Ht|]. apply H4. lia.
  - destruct IH as (-> & H3 & H4). split_and!; [done|done|]. intros d' Hd'.
    destruct (decide (d' = o)) as [->|]; [by rewrite Ht|]. apply H4. lia.
Qed.

Lemma offset_class next k : 0 ≤ k < REPLY_CLASSES →
  (next + (k - next) mod REPLY_CLASSES) mod REPLY_CLASSES = k.
Proof.
  intros Hk. rewrite Zplus_mod_idemp_r. replace (next + (k - next)) with k by lia.
  by apply Z.mod_small.
Qed.

(** The state after [n] calls of [take_reply]. *)
Fixpoint takes (n : nat) (mx : Z) (sw : VsockSwitch) : VsockSwitch :=
  match n with O => sw | S n => takes n mx (take_reply mx sw).2 end.

Lemma class_take_rotate k mx n w :
  (class_take k mx (set_next_reply n w)).1 = (class_take k mx w).1.
Proof.
  unfold class_take, take_flow_reply, take_reply_from.
  destruct (k <? FIXED_ENDPOINTS); [simpl; by repeat case_match|]. cbv zeta.
  change (network_socket_count (set_next_reply _ w)) with (network_socket_count w).
  apply flow_scan_ext; [|done|done].
  destruct (decide (0 < network_socket_count w)); [by right|left; lia].
Qed.

(** Serving the class at offset [c] brings the class at offset [d] closer. *)
Lemma rotation_distance next k c :
  let d := (k - next) mod REPLY_CLASSES in
  0 ≤ c < d →
  (k - ((next + c) mod REPLY_CLASSES + 1) mod REPLY_CLASSES) mod REPLY_CLASSES = d - (c + 1).
Proof.
  intros d Hc. pose proof (Z.mod_pos_bound (k - next) REPLY_CLASSES ltac:(done)) as Hb.
  rewrite Zminus_mod_idemp_r.
  replace (k - ((next + c) mod REPLY_CLASSES + 1)) with (k - 1 - (next + c) mod REPLY_CLASSES) by lia.
  rewrite Zminus_mod_idemp_r. replace (k - 1 - (next + c)) with ((k - next) - (c + 1)) by lia.
  rewrite <- Zminus_mod_idemp_l. fold d. fold d in Hb. apply Z.mod_small. lia.
Qed.

Lemma rotation_served d k mx sw r :
  0 ≤ k < REPLY_CLASSES → (k - next_reply sw) mod REPLY_CLASSES ≤ Z.of_nat d →
  (class_take k mx sw).1 = Some r →
  ∃ n, (n ≤ d)%nat ∧ (take_reply mx (takes n mx sw)).1 = Some r.
Proof.
  intros Hk. revert sw. induction d as [d IH] using lt_wf_ind. intros sw Hd Hr.
  pose proof (class_scan_spec (Z.to_nat REPLY_CLASSES) 0 mx sw) as Hs.
  pose proof (Z.mod_pos_bound (k - next_reply sw) REPLY_CLASSES ltac:(done)) as Hb.
  pose proof (offset_class (next_reply sw) k Hk) as Ho.
  set (dk := (k - next_reply sw) mod REPLY_CLASSES) in *.
  assert (∀ m, dk < m → ¬ ∀ d', 0 ≤ d' < m →
    (class_take ((next_reply sw + d') mod REPLY_CLASSES) mx sw).1 = None) as Hnone.
  { intros m Hm H. specialize (H dk ltac:(lia)). rewrite Ho in H. congruence. }
  destruct (class_scan (Z.to_nat REPLY_CLASSES) 0 mx sw) as [[x|] sw'] eqn:Hc; unfold REPLY_CLASSES, FIXED_ENDPOINTS in Hb;
    [|by destruct Hs as (_ & _ & Hs); destruct (Hnone 3 ltac:(lia) Hs)].
  destruct Hs as [(c & w & Hcr & Hct & -> & Hbefore)|(rs & _ & _ & Hs)];
    [|by destruct (Hnone 3 ltac:(lia) Hs)].
  destruct (decide (c = dk)) as [->|Hne].
  { exists O. split; [lia|]. simpl. unfold take_reply. rewrite Hc. simpl. rewrite Ho in Hct. by rewrite Hct in Hr. }
  assert (c < dk) as Hlt.
  { destruct (decide (c < dk)); [done|]. by destruct (Hnone c ltac:(lia) Hbefore). }
  destruct (class_take_Some ((next_reply sw + c) mod REPLY_CLASSES) mx sw x w) as [_ Hkeep];
    [by apply Z.mod_pos_bound|done|].
  set (cls := (next_reply sw + c) mod REPLY_CLASSES) in *.
  assert (cls ≠ k) as Hcls.
  { intros <-. apply Hne. unfold dk, cls. rewrite Zminus_mod_idemp_l.
    replace (next_reply sw + c - next_reply sw) with c by lia. symmetry. apply Z.mod_small.
    unfold REPLY_CLASSES, FIXED_ENDPOINTS. lia. }
  destruct (IH (d - 1)%nat ltac:(lia) (set_next_reply ((cls + 1) mod REPLY_CLASSES) w)) as (n & Hn & Hserve).
  - simpl. unfold cls. rewrite rotation_distance by (fold dk; lia). fold dk. lia.
  - rewrite class_take_rotate. by rewrite <- Hr, <- (Hkeep k Hk).
  - exists (S n). split; [lia|]. simpl. unfold take_reply at 2. rewrite Hc. exact Hserve.
Qed.

(** The reply rotation starves nobody: a reply that the agent endpoint, the
    control endpoint or the flows could send now is returned by one of the next
    three [take_reply] calls with the same room, whatever the other classes
    have queued. *)
Theorem reply_rotation_fair k mx sw r :
  0 ≤ k < REPLY_CLASSES → (class_take k mx sw).1 = Some r →
  ∃ n, (n ≤ 2)%nat ∧ (take_reply mx (takes n mx sw)).1 = Some r.
Proof.
  intros Hk. apply rotation_served; [done|].
  pose proof (Z.mod_pos_bound (k - next_reply sw) REPLY_CLASSES ltac:(done)) as Hb.
  change REPLY_CLASSES with 3 in *. lia.
Qed.

Lemma reply_rotation_fair_witness :
  let sw := set_endpoints [new_endpoint Agent AGENT_PORT AGENT_PORT 1;
      set_stream (Stream.rst CONTROL_PORT CONTROL_PORT
        (ep_stream (new_endpoint Control CONTROL_PORT CONTROL_PORT 2))).2
        (new_endpoint Control CONTROL_PORT CONTROL_PORT 2)] new in
  ∃ r, (class_take 1 0 sw).1 = Some r ∧
    ∃ n, (n ≤ 2)%nat ∧ (take_reply 0 (takes n 0 sw)).1 = Some r.
Proof.
  intros sw. eexists. split; [by vm_compute|].
  apply (reply_rotation_fair 1 0 sw); [by vm_compute|]. by vm_compute.
Defined.

(** A drained switch: nothing left in the endpoints or the rejected resets. *)
Lemma pending_zero sw :
  (∀ i e, endpoints sw !! i = Some e → replies (ep_stream e) = []) → rejected sw = [] →
  pending_reply_count sw = 0.
Proof.
  intros H Hr. unfold pending_reply_count. rewrite Hr.
  assert (∀ l : list Endpoint, (∀ i e, l !! i = Some e → replies (ep_stream e) = []) →
    sumZ ((λ e, zlen (replies (ep_stream e))) <$> l) = 0) as Hl; [|by rewrite Hl].
  clear. induction l as [|e l IH]; intros H; [done|]. rewrite fmap_cons, sumZ_cons.
  rewrite (H 0%nat e) by done. rewrite IH; [done|]. intros i. apply (H (S i)).
Qed.

Lemma class_take_rejected k mx sw r sw' :
  class_take k mx sw = (r, sw') → rejected sw' = rejected sw.
Proof.
  assert (∀ i w, rejected (take_reply_from i mx w).2 = rejected w) as Ht.
  { intros i w. unfold take_reply_from. by repeat case_match. }
  assert (∀ n o c w, rejected (flow_scan n o c mx w).2 = rejected w) as Hf.
  { induction n as [|n IH]; intros o c w; simpl; [done|].
    specialize (Ht (Z.to_nat (FIXED_ENDPOINTS + (next_flow_reply w + o) mod c)) w).
    destruct (take_reply_from _ mx w) as [[x|] w1]; simpl in *; [done|by rewrite IH]. }
  unfold class_take, take_flow_reply. cbv zeta. intros H.
  change sw' with (r, sw').2. rewrite <- H. case_match; [apply Ht|apply Hf].
Qed.

Lemma pending_count_nonneg sw : 0 ≤ pending_reply_count sw.
Proof.
  unfold pending_reply_count. pose proof (zlen_nonneg (rejected sw)).
  pose proof (sumZ_fmap_nonneg (λ e, zlen (replies (ep_stream e))) (endpoints sw)
    (λ e, zlen_nonneg _)). lia.
Qed.

Lemma sumZ_lookup {A} (f : A → Z) l i x :
  (∀ y, 0 ≤ f y) → l !! i = Some x → f x ≤ sumZ (f <$> l).
Proof.
  intros Hf. revert i. induction l as [|y l IH]; intros [|i] Hi; simplify_eq/=; rewrite sumZ_cons.
  - pose proof (sumZ_fmap_nonneg f l Hf). lia.
  - specialize (IH i Hi). specialize (Hf y). lia.
Qed.

Lemma pending_bytes_head sw i e r rs :
  endpoints sw !! i = Some e → replies (ep_stream e) = r :: rs → zlen (payload r) ≤ pending_bytes sw.
Proof.
  intros Hi Hr. pose proof (sumZ_fmap_nonneg Stream.reply_len rs Stream.reply_len_nonneg).
  assert (sumZ (Stream.reply_len <$> replies (ep_stream e)) ≤ pending_bytes sw) as H1.
  { apply (sumZ_lookup (λ e, sumZ (Stream.reply_len <$> replies (ep_stream e))) _ i); [|done].
    intros y. apply sumZ_fmap_nonneg, Stream.reply_len_nonneg. }
  rewrite Hr, fmap_cons, sumZ_cons in H1. unfold Stream.reply_len at 1 in H1. lia.
Qed.

(** When everything pending fits, a call returns a reply until nothing is left. *)
Lemma take_reply_progress mx sw :
  Forall is_rst (rejected sw) → pending_bytes sw ≤ mx →
  match take_reply mx sw with
  | (Some r, sw') => pending_reply_count sw' = pending_reply_count sw - 1 ∧
      pending_bytes sw' = pending_bytes sw - zlen (payload r) ∧ Forall is_rst (rejected sw')
  | (None, sw') => sw' = sw ∧ pending_reply_count sw = 0
  end.
Proof.
  intros Hrst Hmx. pose proof (class_scan_spec (Z.to_nat REPLY_CLASSES) 0 mx sw) as Hs.
  unfold take_reply. destruct (class_scan _ 0 mx sw) as [[r|] sw'].
  - destruct Hs as [(d & w & _ & Ht & -> & _)|(rs & Hr & -> & _)].
    + pose proof (class_take_Some _ mx sw r w (Z.mod_pos_bound _ REPLY_CLASSES ltac:(done)) Ht) as [[Hc Hb _] _].
      split; [exact Hc|]. split; [exact Hb|]. simpl. by rewrite (class_take_rejected _ _ _ _ _ Ht).
    + rewrite Hr in Hrst. inversion_clear Hrst as [|? ? Hx Hrs]. destruct Hx as [_ Hp].
      split_and!; [|unfold pending_bytes; simpl; rewrite Hp; unfold zlen; simpl; lia|done].
      unfold pending_reply_count, zlen. rewrite Hr. simpl. lia.
  - destruct Hs as (-> & Hr & Hs). split; [done|]. apply pending_zero; [|done]. intros i e Hi.
    assert (offers mx e = false) as Ho.
    { set (k := Z.min (Z.of_nat i) FIXED_ENDPOINTS).
      assert (0 ≤ k < REPLY_CLASSES) as Hk by (unfold k, REPLY_CLASSES, FIXED_ENDPOINTS; lia).
      specialize (Hs ((k - next_reply sw) mod REPLY_CLASSES)). rewrite offset_class in Hs by done.
      destruct (class_take k mx sw) as [o w] eqn:Ht. simpl in Hs. rewrite Hs in Ht.
      - apply class_take_None in Ht as [_ Hn]; [|done]. by eapply Hn.
      - pose proof (Z.mod_pos_bound (k - next_reply sw) REPLY_CLASSES ltac:(done)).
        change (Z.of_nat (Z.to_nat REPLY_CLASSES)) with REPLY_CLASSES. lia. }
    unfold offers in Ho. destruct (replies (ep_stream e)) as [|x l] eqn:Hx; [done|]. breflect.
    pose proof (pending_bytes_head sw i e x l Hi Hx). lia.
Qed.

Lemma take_replies_progress n mx sw :
  Forall is_rst (rejected sw) → pending_bytes sw ≤ mx → pending_reply_count sw ≤ Z.of_nat n →
  let '(rs, sw') := take_replies_up_to n mx sw in
  pending_reply_count sw' = 0 ∧ zlen rs = pending_reply_count sw ∧
  ∀ m, pending_reply_count sw ≤ Z.of_nat m → take_replies_up_to m mx sw = (rs, sw').
Proof.
  revert mx sw. induction n as [|n IH]; intros mx sw Hrst Hmx Hn.
  { pose proof (pending_count_nonneg sw). simpl. split_and!; [lia|unfold zlen; simpl; lia|].
    intros [|m] _; [done|]. simpl. pose proof (take_reply_progress mx sw Hrst Hmx) as Hp.
    destruct (take_reply mx sw) as [[r|] sw']; [|by destruct Hp as [-> _]].
    destruct Hp as [Hp _]. pose proof (pending_count_nonneg sw'). lia. }
  cbn [take_replies_up_to]. pose proof (take_reply_progress mx sw Hrst Hmx) as Hp.
  destruct (take_reply mx sw) as [[r|] sw1] eqn:Ht.
  - destruct Hp as (Hc & Hb & Hrst1). specialize (IH (mx - zlen (payload r)) sw1 Hrst1 ltac:(lia) ltac:(lia)).
    destruct (take_replies_up_to n _ sw1) as [rs sw2]. destruct IH as (H1 & H2 & H3).
    split_and!; [done|unfold zlen in *; simpl; lia|]. pose proof (pending_count_nonneg sw1).
    intros [|m] Hm; [lia|]. simpl. rewrite Ht, H3 by lia. done.
  - destruct Hp as [-> H0]. split_and!; [done|unfold zlen; simpl; lia|].
    intros [|m] _; [done|]. simpl. by rewrite Ht.
Qed.

(** Everything the endpoints may hold together. *)
Lemma pending_bytes_bound sw : sw_ok sw → pending_bytes sw ≤ 1026 * (256 * 1024).
Proof.
  intros Hok. pose proof Hok as [_ Hcap Heps _ _ _ _].
  unfold network_socket_count, FIXED_ENDPOINTS, MAX_NETWORK_SOCKETS in Hcap.
  assert (pending_bytes sw ≤ zlen (endpoints sw) * (256 * 1024)) as H; [|lia].
  unfold pending_bytes. clear Hok Hcap. induction Heps as [|e l He _ IH]; [done|].
  rewrite fmap_cons, sumZ_cons. destruct (ep_ok_bounded e He) as [_ _ [Hb Hb'] _ _].
  change (λ r, zlen (payload r)) with Stream.reply_len in Hb. unfold zlen in *. simpl length. lia.
Qed.

(** Draining the switch drains it. In every reachable state
    [take_replies] returns exactly the pending replies, as many as
    [pending_reply_count] announces, and leaves none; it stops by itself, as
    a larger bound on the items changes nothing. *)
Theorem take_replies_fuel en cap ops sw usize_max :
  0 ≤ cap → Forall sop_ok ops → run ops (with_network_socket_capacity en cap) = Some sw →
  2 ^ 31 ≤ usize_max →
  ∃ rs sw', take_replies usize_max sw = (rs, sw') ∧
  pending_reply_count sw' = 0 ∧ zlen rs = pending_reply_count sw ∧
  ∀ n, pending_reply_count sw ≤ Z.of_nat n → take_replies_up_to n usize_max sw = (rs, sw').
Proof.
  intros Hc Hops Hr Hm. pose proof (initial_ok en cap Hc) as H0.
  assert (sw_ok sw) as Hok by exact (prims_ok _ _ (run_prims _ _ _ H0 Hops Hr) H0).
  pose proof (pending_bytes_bound sw Hok). pose proof (pending_count_nonneg sw).
  pose proof (take_replies_progress (Z.to_nat (pending_reply_count sw)) usize_max sw) as Hp.
  unfold take_replies. destruct (take_replies_up_to _ usize_max sw) as [rs sw'].
  exists rs, sw'. split; [done|]. apply Hp; [apply Hok|lia|lia].
Qed.


(** ** A run of the switch

    The guest opens a flow, sends on it and resets it. *)

Definition demo_header (o n : Z) : VsockHeader :=
  mkHeader GUEST_CID HOST_CID 4000 TCP_PORT n TYPE_STREAM o 0 65536 0.
Definition demo_open : list sop := [SRx (demo_header OP_REQUEST 0) []].
Definition demo_traffic : list sop :=
  [SRx (demo_header OP_RW 3) [1; 2; 3]; STake 1 65536; SRx (demo_header OP_RST 0) []].
Definition demo_id : ConnectionId := mkId Tcp 4000 TCP_PORT 3.

Lemma demo_ops_ok : Forall sop_ok (demo_open ++ demo_traffic ++ demo_open).
Proof.
  repeat (apply Forall_cons; split);
    try (by apply (bool_decide_unpack (header_ok _)); vm_compute); done.
Qed.

Lemma switch_bounds_witness :
  ∃ sw, run demo_open (with_network_socket_capacity true 4) = Some sw ∧
    network_socket_count sw = 1 ∧ network_socket_count sw ≤ Z.min 4 MAX_NETWORK_SOCKETS.
Proof.
  eexists. split; [vm_compute; reflexivity|]. split; [vm_compute; reflexivity|].
  eapply (switch_bounds true 4 demo_open).
  - done.
  - exact (proj1 (proj1 (Forall_app _ _ _) demo_ops_ok)).
  - vm_compute. reflexivity.
Defined.

Lemma stale_handles_stay_dead_witness :
  ∃ sw1 sw2 sw3, run demo_open (with_network_socket_capacity true 4) = Some sw1 ∧
    run demo_traffic sw1 = Some sw2 ∧ run demo_open sw2 = Some sw3 ∧
    is_current demo_id sw1 = true ∧ is_current demo_id sw2 = false ∧ is_current demo_id sw3 = false.
Proof.
  eexists _, _, _. do 5 (split; [vm_compute; reflexivity|]).
  eapply (stale_handles_stay_dead true 4 demo_open demo_traffic demo_open _ _ _ demo_id).
  - done.
  - exact demo_ops_ok.
  - vm_compute. reflexivity.
  - vm_compute. reflexivity.
  - vm_compute. reflexivity.
  - vm_compute. reflexivity.
  - vm_compute. reflexivity.
Defined.

Lemma switch_never_aborts_witness :
  is_Some (run (demo_open ++ demo_traffic ++ demo_open) (with_network_socket_capacity true 4)).
Proof.
  apply switch_never_aborts.
  - done.
  - exact demo_ops_ok.
  - vm_compute. reflexivity.
Defined.

Lemma take_replies_fuel_witness :
  ∃ sw, run demo_open (with_network_socket_capacity true 4) = Some sw ∧
    ∃ rs sw', take_replies U64_MAX sw = (rs, sw') ∧ pending_reply_count sw' = 0 ∧
    zlen rs = pending_reply_count sw ∧
    ∀ n, pending_reply_count sw ≤ Z.of_nat n → take_replies_up_to n U64_MAX sw = (rs, sw').
Proof.
  eexists. split; [vm_compute; reflexivity|].
  eapply (take_replies_fuel true 4 demo_open _ U64_MAX).
  - done.
  - exact (proj1 (proj1 (Forall_app _ _ _) demo_ops_ok)).
  - vm_compute. reflexivity.
  - vm_compute. discriminate.
Defined.

End Switch.
