(* ===== verification/Ioapic.v ===== *)
(** * The interrupt controller

    [components/interrupt-controller/src/lib.rs]: the I/O APIC register
    window, the aggregation of device lines onto pins and the calls the
    component exports, with the checks of the native side of
    [crates/terra-runtime/src/component/interrupt_controller.rs]. [None]
    stands for a panic, an index outside an array. *)

From S2P Require Import Prelude Limits.
Local Open Scope Z_scope.

Module Ioapic.

Definition PINS : Z := X86_IOAPIC_PINS.
Definition REGISTER_SELECT : Z := 0.
Definition WINDOW : Z := 0x10.
Definition VERSION_REGISTER : Z := 1.
Definition VERSION : Z := Z.lor (Z.shiftl (X86_IOAPIC_PINS - 1) 16) 0x11.
Definition REDIRECTION_BASE : Z := 0x10.
Definition MASKED : Z := Z.shiftl 1 16.
Definition LEVEL_TRIGGERED : Z := Z.shiftl 1 15.

Inductive Mode := ModeIoapic | IrqLines.
#[global] Instance Mode_eq_dec : EqDecision Mode.
Proof. solve_decision. Defined.

Inductive Error := InvalidState | InvalidSlot.
#[global] Instance Error_eq_dec : EqDecision Error.
Proof. solve_decision. Defined.

Record Config := mkConfig { cfg_mode : Mode; cfg_routes : list Z }.
Record X86Interrupt := mkInterrupt { vector : Z; destination : Z; level_triggered : bool }.
#[global] Instance X86Interrupt_eq_dec : EqDecision X86Interrupt.
Proof. solve_decision. Defined.
Record IoapicReply := mkIoapicReply { value : Z; interrupts : list X86Interrupt }.
Record IrqLevel := mkIrqLevel { gsi : Z; irq_asserted : bool }.

(** A redirection entry is its low and its high register half. *)
Record Controller := mkController {
  mode : Mode;
  routes : list Z;
  levels : list bool;
  register : Z;
  redirection : list (Z * Z);
  asserted : list bool;
}.

Definition set_levels l c :=
  mkController (mode c) (routes c) l (register c) (redirection c) (asserted c).
Definition set_register r c :=
  mkController (mode c) (routes c) (levels c) r (redirection c) (asserted c).
Definition set_redirection r c :=
  mkController (mode c) (routes c) (levels c) (register c) r (asserted c).
Definition set_asserted a c :=
  mkController (mode c) (routes c) (levels c) (register c) (redirection c) a.

(** [u8::try_from(route)] and the pin check. *)
Definition checked_route (route : Z) : result Error Z :=
  if (route <=? 255) && (route <? PINS) then Ok route else Err InvalidSlot.

Fixpoint checked_routes (rs : list Z) : result Error (list Z) :=
  match rs with
  | [] => Ok []
  | r :: rs => r ← checked_route r; rs ← checked_routes rs; Ok (r :: rs)
  end.

Definition new (config : Config) : result Error Controller :=
  if MAX_DEVICES <? zlen (cfg_routes config) then Err InvalidSlot else
  rs ← checked_routes (cfg_routes config);
  Ok (mkController (cfg_mode config) rs (replicate (length rs) false) 0
        (replicate (Z.to_nat PINS) (MASKED, 0)) (replicate (Z.to_nat PINS) false)).

(** [to_le_bytes()[i]] of a 32-bit value. *)
Definition le_byte (i z : Z) : Z := Z.shiftr z (8 * i) mod 256.

Definition deliver (pin : Z) (c : Controller) : option (option X86Interrupt) :=
  e ← redirection c !! Z.to_nat pin;
  let '(low, high) := e in
  Some (if Z.land low MASKED =? 0
        then Some (mkInterrupt (le_byte 0 low) (le_byte 3 high)
                     (negb (Z.land low LEVEL_TRIGGERED =? 0)))
        else None).

Definition redirection_half (c : Controller) : option (Z * Z) :=
  index ← checked_sub (register c) REDIRECTION_BASE;
  if index / 2 <? PINS then Some (index / 2, index mod 2) else None.

Definition half_of (e : Z * Z) (half : Z) : Z := if half =? 0 then e.1 else e.2.
Definition set_half (e : Z * Z) (half v : Z) : Z * Z :=
  if half =? 0 then (v, e.2) else (e.1, v).

Definition read_register (c : Controller) : option Z :=
  if register c =? VERSION_REGISTER then Some VERSION else
  match redirection_half c with
  | None => Some 0
  | Some (pin, half) => e ← redirection c !! Z.to_nat pin; Some (half_of e half)
  end.

Definition write_register (v : Z) (c : Controller) : option (option Z * Controller) :=
  match redirection_half c with
  | None => Some (None, c)
  | Some (pin, half) =>
    e ← redirection c !! Z.to_nat pin;
    Some (Some pin, set_redirection (<[Z.to_nat pin := set_half e half v]> (redirection c)) c)
  end.

(** [pin.filter(|pin| self.asserted[pin]).and_then(|pin| self.deliver(pin))] *)
Definition deliver_asserted (pin : option Z) (c : Controller) : option (option X86Interrupt) :=
  match pin with
  | None => Some None
  | Some pin =>
    a ← asserted c !! Z.to_nat pin;
    if (a : bool) then deliver pin c else Some None
  end.

Definition access (offset width : Z) (write : bool) (v : Z) (c : Controller)
  : option (IoapicReply * Controller) :=
  if (offset =? REGISTER_SELECT) && (width =? 4) then
    if write then Some (mkIoapicReply 0 [], set_register (le_byte 0 v) c)
    else Some (mkIoapicReply (register c) [], c)
  else if (offset =? WINDOW) && (width =? 4) then
    if write then
      p ← write_register v c;
      let '(pin, c) := p in
      i ← deliver_asserted pin c;
      Some (mkIoapicReply 0 (option_list i), c)
    else v ← read_register c; Some (mkIoapicReply v [], c)
  else Some (mkIoapicReply 0 [], c).

Definition aggregate (pin : Z) (c : Controller) : bool :=
  existsb (λ p, (p.1 =? pin) && p.2) (zip (routes c) (levels c)).

Definition line (slot : Z) (level : bool) (c : Controller)
  : option (result Error (option Z) * Controller) :=
  match routes c !! Z.to_nat slot with
  | None => Some (Err InvalidSlot, c)
  | Some gsi =>
    _ ← levels c !! Z.to_nat slot;
    let c := set_levels (<[Z.to_nat slot := level]> (levels c)) c in
    let aggregated := aggregate gsi c in
    a ← asserted c !! Z.to_nat gsi;
    if eqb a aggregated then Some (Ok None, c)
    else Some (Ok (Some gsi), set_asserted (<[Z.to_nat gsi := aggregated]> (asserted c)) c)
  end.

Definition ioapic_line (slot : Z) (level : bool) (c : Controller)
  : option (result Error (option X86Interrupt) * Controller) :=
  p ← line slot level c;
  let '(r, c) := p in
  match r with
  | Err e => Some (Err e, c)
  | Ok pin => i ← deliver_asserted pin c; Some (Ok i, c)
  end.

Fixpoint eoi_pins (v : Z) (pins : list Z) (c : Controller) : option (list X86Interrupt) :=
  match pins with
  | [] => Some []
  | pin :: pins =>
    i ← deliver_asserted (Some pin) c;
    rest ← eoi_pins v pins c;
    Some (match i with
          | Some i => if level_triggered i && (vector i =? v) then i :: rest else rest
          | None => rest
          end)
  end.

Definition eoi (v : Z) (c : Controller) : option (list X86Interrupt) :=
  eoi_pins v (seqZ 0 PINS) c.

(** ** The exported calls, on the one controller of the component *)

Definition state := option Controller.

Definition with_controller {T} (m : Mode)
    (operate : Controller → option (result Error T * Controller)) (st : state)
  : option (result Error T * state) :=
  match st with
  | Some c =>
    if bool_decide (mode c = m) then p ← operate c; Some (p.1, Some p.2)
    else Some (Err InvalidState, st)
  | None => Some (Err InvalidState, st)
  end.

Module Component.

Definition configure (config : Config) (st : state) : result Error unit * state :=
  match st with
  | Some _ => (Err InvalidState, st)
  | None => match new config with
            | Ok c => (Ok tt, Some c)
            | Err e => (Err e, st)
            end
  end.

Definition irq_line (slot : Z) (a : bool) : state → option (result Error (option IrqLevel) * state) :=
  with_controller IrqLines (λ c,
    p ← line slot a c;
    let '(r, c) := p in
    match r with
    | Err e => Some (Err e, c)
    | Ok None => Some (Ok None, c)
    | Ok (Some g) => b ← asserted c !! Z.to_nat g; Some (Ok (Some (mkIrqLevel g b)), c)
    end).

Definition guest_ioapic_line (slot : Z) (a : bool)
  : state → option (result Error (list X86Interrupt) * state) :=
  with_controller ModeIoapic (λ c,
    p ← ioapic_line slot a c; Some (fmap (M := result Error) option_list p.1, p.2)).

Definition guest_access (offset width : Z) (write : bool) (v : Z)
  : state → option (result Error IoapicReply * state) :=
  with_controller ModeIoapic (λ c, p ← access offset width write v c; Some (Ok p.1, p.2)).

Definition guest_eoi (v : Z) : state → option (result Error (list X86Interrupt) * state) :=
  with_controller ModeIoapic (λ c, l ← eoi v c; Some (Ok l, c)).

End Component.

(** ** The native side's checks *)

Definition validate_x86_interrupts (ints : list X86Interrupt) (vcpus : Z) : bool :=
  (zlen ints <=? PINS) &&
  forallb (λ i, (32 <=? vector i) && ((destination i =? 255) || (destination i <? vcpus))) ints.

Definition validate_irq_line (slot : Z) (change : IrqLevel) (granted : list Z) : bool :=
  bool_decide (granted !! Z.to_nat slot = Some (gsi change)).

(** ** The invariant *)

Record ctl_ok (c : Controller) : Prop := {
  co_devices : zlen (routes c) ≤ MAX_DEVICES;
  co_routes : Forall (λ r, 0 ≤ r < PINS) (routes c);
  co_levels : length (levels c) = length (routes c);
  co_register : u8 (register c);
  co_redirection : length (redirection c) = Z.to_nat PINS;
  co_entries : Forall (λ e, u32 e.1 ∧ u32 e.2) (redirection c);
  (** The level of a pin is the disjunction of its devices' lines. *)
  co_asserted : asserted c = (λ pin, aggregate pin c) <$> seqZ 0 PINS;
}.

Lemma le_byte_u8 i z : u8 (le_byte i z).
Proof. unfold le_byte, u8. by apply Z.mod_pos_bound. Qed.

Lemma checked_routes_Ok rs l :
  Forall u32 rs → checked_routes rs = Ok l → l = rs ∧ Forall (λ r, 0 ≤ r < PINS) rs.
Proof.
  intros Hrs. revert l. induction Hrs as [|r rs Hr _ IH]; intros l; simpl; [by intros [= <-]|].
  unfold checked_route. destruct (_ && _) eqn:E; [|done]. rsimpl.
  destruct (checked_routes rs) as [l'|]; [|done]. rsimpl. intros [= <-].
  destruct (IH l' eq_refl) as [-> Hf]. breflect. split; [done|]. constructor; [|done].
  unfold u32 in Hr. lia.
Qed.

Lemma lookup_seqZ_pin pin : 0 ≤ pin < PINS → seqZ 0 PINS !! Z.to_nat pin = Some pin.
Proof. intros H. rewrite lookup_seqZ_lt by lia. f_equal. lia. Qed.

Lemma asserted_lookup c pin :
  ctl_ok c → 0 ≤ pin < PINS → asserted c !! Z.to_nat pin = Some (aggregate pin c).
Proof. intros Hc Hp. by rewrite (co_asserted c Hc), list_lookup_fmap, lookup_seqZ_pin. Qed.

Lemma redirection_lookup c pin :
  ctl_ok c → 0 ≤ pin < PINS → ∃ e, redirection c !! Z.to_nat pin = Some e.
Proof.
  intros Hc Hp. apply lookup_lt_is_Some_2. rewrite (co_redirection c Hc). lia.
Qed.

Lemma new_ok config c : Forall u32 (cfg_routes config) → new config = Ok c → ctl_ok c.
Proof.
  intros Hr. unfold new. destruct (_ <? _) eqn:E; [done|]. breflect.
  destruct (checked_routes _) as [l|] eqn:Hl; [|done]. rsimpl. intros [= <-].
  apply checked_routes_Ok in Hl as [-> Hf]; [|done].
  split; cbn [routes levels register redirection asserted].
  - done.
  - done.
  - by rewrite length_replicate.
  - done.
  - done.
  - apply (bool_decide_unpack _). by vm_compute.
  - assert (∀ pin (rs : list Z), existsb (λ p, (p.1 =? pin) && p.2) (zip rs (replicate (length rs) false)) = false) as Ha.
    { intros pin rs. induction rs as [|r rs IH]; [done|]. simpl. by rewrite IH, andb_false_r. }
    unfold aggregate. cbn [routes levels].
    rewrite (list_fmap_ext _ (λ _, false)) by (intros; apply Ha). by vm_compute.
Qed.

(** A change of one line only changes the level of its own pin. *)
Lemma aggregate_insert c slot g level pin :
  routes c !! slot = Some g → length (levels c) = length (routes c) → pin ≠ g →
  aggregate pin (set_levels (<[slot := level]> (levels c)) c) = aggregate pin c.
Proof.
  unfold aggregate. cbn [routes levels set_levels]. intros Hs Hl Hne.
  revert slot Hs Hl. generalize (levels c) as ls. induction (routes c) as [|r rs IH]; intros ls slot Hs Hl;
    [by destruct slot|]. destruct ls as [|l ls]; [done|].
  destruct slot as [|slot]; simplify_eq/=.
  - by replace (g =? pin) with false by (symmetry; apply Z.eqb_neq; lia).
  - f_equal. by apply IH.
Qed.

(** Recording the new level of the pin restores the invariant. *)
Lemma set_line_ok slot level c g :
  ctl_ok c → routes c !! slot = Some g →
  let c1 := set_levels (<[slot := level]> (levels c)) c in
  ctl_ok (set_asserted (<[Z.to_nat g := aggregate g c1]> (asserted c1)) c1).
Proof.
  intros Hc Hs c1. pose proof Hc as [Hd Hr Hl Hg Hrd He Ha].
  pose proof (Forall_lookup_1 _ _ _ _ Hr Hs) as Hgp. cbn beta in Hgp.
  split; cbn [set_asserted routes levels register redirection asserted]; try done.
  { change (levels c1) with (<[slot := level]> (levels c)). by rewrite length_insert. }
  change (asserted c1) with (asserted c). rewrite Ha. apply list_eq. intros i.
  rewrite list_lookup_fmap. destruct (decide (i = Z.to_nat g)) as [->|Hne].
  - rewrite lookup_seqZ_pin by done. rewrite list_lookup_insert_eq; [done|].
    rewrite length_fmap, length_seqZ. lia.
  - rewrite list_lookup_insert_ne, list_lookup_fmap by done.
    destruct (seqZ 0 PINS !! i) as [p|] eqn:Hp; [|done]. apply lookup_seqZ in Hp as [-> Hp]. simpl.
    f_equal. symmetry. apply aggregate_insert with (g := g); [done..|lia].
Qed.

Lemma line_ok slot level c :
  ctl_ok c →
  ∃ r c', line slot level c = Some (r, c') ∧ ctl_ok c' ∧ mode c' = mode c ∧ routes c' = routes c ∧
    redirection c' = redirection c ∧
    match r with
    | Err _ => routes c !! Z.to_nat slot = None ∧ c' = c
    | Ok o => ∃ g, routes c !! Z.to_nat slot = Some g ∧ 0 ≤ g < PINS ∧
        levels c' = <[Z.to_nat slot := level]> (levels c) ∧
        (∀ pin, pin ≠ g → aggregate pin c' = aggregate pin c) ∧
        o = (if eqb (aggregate g c) (aggregate g c') then None else Some g)
    end.
Proof.
  intros Hc. pose proof Hc as [_ Hr Hl _ _ _ _]. unfold line.
  destruct (routes c !! Z.to_nat slot) as [g|] eqn:Hs; [|by exists (Err InvalidSlot), c].
  pose proof (Forall_lookup_1 _ _ _ _ Hr Hs) as Hgp. cbn beta in Hgp.
  pose proof (set_line_ok (Z.to_nat slot) level c g Hc Hs) as Hok. cbv zeta in Hok.
  destruct (lookup_lt_is_Some_2 (levels c) (Z.to_nat slot)) as [l0 ->].
  { rewrite Hl. by eapply lookup_lt_Some. }
  cbn [mbind option_bind]. set (c1 := set_levels _ c) in *.
  assert (∀ pin, pin ≠ g → aggregate pin c1 = aggregate pin c) as Hother
    by (intros; by apply aggregate_insert with (g := g)).
  pose proof (asserted_lookup c g Hc Hgp) as Hag. change (asserted c) with (asserted c1) in Hag.
  rewrite Hag. cbn [mbind option_bind]. destruct (eqb _ _) eqn:Heq.
  - apply eqb_prop in Heq. rewrite <- Heq, list_insert_id in Hok by done.
    exists (Ok None), c1. split; [done|]. split; [done|]. do 3 (split; [done|]).
    exists g. split_and!; try done; [lia..|]. by rewrite Heq, eqb_reflx.
  - eexists (Ok (Some g)), _. split; [done|]. split; [done|]. do 3 (split; [done|]).
    exists g. split_and!; try done; [lia..|].
    change (aggregate g (set_asserted _ c1)) with (aggregate g c1). by rewrite Heq.
Qed.

(** ** What a pin may deliver *)

(** The interrupt an unmasked redirection entry describes. *)
Definition entry_interrupt (e : Z * Z) : option X86Interrupt :=
  if Z.land e.1 MASKED =? 0
  then Some (mkInterrupt (le_byte 0 e.1) (le_byte 3 e.2) (negb (Z.land e.1 LEVEL_TRIGGERED =? 0)))
  else None.

(** The interrupt of a pin whose level is high. *)
Definition pending (pin : Z) (c : Controller) : option X86Interrupt :=
  if aggregate pin c then e ← redirection c !! Z.to_nat pin; entry_interrupt e else None.

Lemma deliver_asserted_spec pin c :
  ctl_ok c → 0 ≤ pin < PINS → deliver_asserted (Some pin) c = Some (pending pin c).
Proof.
  intros Hc Hp. unfold deliver_asserted, pending. rewrite (asserted_lookup c pin Hc Hp).
  cbn [mbind option_bind]. destruct (aggregate pin c); [|done]. unfold deliver.
  destruct (redirection_lookup c pin Hc Hp) as [[lo hi] ->]. done.
Qed.

Lemma aggregate_true pin c :
  aggregate pin c = true ↔ ∃ slot, routes c !! slot = Some pin ∧ levels c !! slot = Some true.
Proof.
  unfold aggregate. generalize (levels c). induction (routes c) as [|r rs IH]; intros ls; simpl.
  { split; [done|]. by intros (? & ? & ?). }
  destruct ls as [|l ls]; simpl.
  { split; [done|]. by intros (? & ? & ?). }
  rewrite orb_true_iff, andb_true_iff, Z.eqb_eq, IH. split.
  - intros [[-> ->]|(slot & H1 & H2)]; [by exists 0%nat|by exists (S slot)].
  - intros ([|slot] & H1 & H2); simplify_eq/=; [by left|right; by exists slot].
Qed.

Lemma redirection_half_Some c pin half :
  redirection_half c = Some (pin, half) → 0 ≤ pin < PINS.
Proof.
  unfold redirection_half. destruct (checked_sub _ _) as [i|] eqn:Hi; [|done]. simpl.
  destruct (_ <? _) eqn:E; [|done]. intros [= <- <-]. breflect.
  apply checked_sub_Some in Hi as [-> Hi]. split; [|done]. apply Z.div_pos; lia.
Qed.

Lemma set_entry_ok c pin e :
  ctl_ok c → u32 e.1 → u32 e.2 →
  ctl_ok (set_redirection (<[Z.to_nat pin := e]> (redirection c)) c).
Proof.
  intros [Hd Hr Hl Hg Hrd He Ha] H1 H2. split; try done; cbn [set_redirection redirection].
  - by rewrite length_insert.
  - by apply Forall_insert.
Qed.

Lemma pending_other c pin pin' e :
  0 ≤ pin → 0 ≤ pin' → pin' ≠ pin →
  pending pin' (set_redirection (<[Z.to_nat pin := e]> (redirection c)) c) = pending pin' c.
Proof.
  intros Hp Hp' Hne. unfold pending. cbn [redirection set_redirection].
  rewrite list_lookup_insert_ne by lia. done.
Qed.

(** A write of the window: the entry changes and its pin may deliver. *)
Lemma access_ok offset width write v c :
  ctl_ok c → u32 v →
  ∃ r c', access offset width write v c = Some (r, c') ∧ ctl_ok c' ∧ mode c' = mode c ∧
    ((interrupts r = [] ∧ ∀ pin, 0 ≤ pin < PINS → pending pin c' = pending pin c) ∨
     ∃ pin, 0 ≤ pin < PINS ∧ interrupts r = option_list (pending pin c') ∧
       ∀ pin', 0 ≤ pin' < PINS → pin' ≠ pin → pending pin' c' = pending pin' c).
Proof.
  intros Hc Hv. unfold access. destruct (_ && _) eqn:E1.
  { destruct write; eexists _, _; (split; [done|]); (split; [|split; [done|by left]]); [|done].
    destruct Hc. split; try done. apply le_byte_u8. }
  destruct (_ && _) eqn:E2 in |- *; [|eexists _, _; split; [done|]; split; [done|]; split; [done|by left]].
  destruct write.
  - unfold write_register. destruct (redirection_half c) as [[pin half]|] eqn:Hh; cbn [mbind option_bind deliver_asserted].
    + apply redirection_half_Some in Hh. destruct (redirection_lookup c pin Hc Hh) as [e He]. rewrite He.
      cbn [mbind option_bind]. pose proof (Forall_lookup_1 _ _ _ _ (co_entries c Hc) He) as [He1 He2].
      set (c1 := set_redirection _ c).
      assert (ctl_ok c1) as Hc1 by (apply set_entry_ok; [done| |]; unfold set_half; by destruct (half =? 0)).
      rewrite (deliver_asserted_spec pin c1 Hc1 Hh). eexists _, _. split; [done|]. split; [done|].
      split; [done|]. right. exists pin. split; [done|]. split; [done|]. intros pin' Hp' Hne.
      apply pending_other; lia.
    + eexists _, _. split; [done|]. split; [done|]. split; [done|by left].
  - assert (∃ x, read_register c = Some x) as [x ->].
    { unfold read_register. destruct (_ =? _) in |- *; [by eexists|].
      destruct (redirection_half c) as [[pin half]|] eqn:Hh; [|by eexists].
      apply redirection_half_Some in Hh. destruct (redirection_lookup c pin Hc Hh) as [e ->]. by eexists. }
    eexists _, _. split; [done|]. split; [done|]. split; [done|by left].
Qed.

Lemma ioapic_line_ok slot level c :
  ctl_ok c →
  ∃ r c', ioapic_line slot level c = Some (r, c') ∧ ctl_ok c' ∧ mode c' = mode c ∧
    match r with
    | Err _ => c' = c
    | Ok o => ∃ g, 0 ≤ g < PINS ∧ (∀ pin, pin ≠ g → pending pin c' = pending pin c) ∧
        ((o = None ∧ pending g c' = pending g c) ∨ o = pending g c')
    end.
Proof.
  intros Hc. unfold ioapic_line. destruct (line_ok slot level c Hc) as (r & c' & -> & Hc' & Hm & _ & Hrd & H).
  cbn [mbind option_bind]. destruct r as [o|e]; [|exists (Err e), c'; by destruct H as [_ ->]].
  destruct H as (g & _ & Hg & _ & Hother & ->).
  assert (∀ pin, aggregate pin c' = aggregate pin c → pending pin c' = pending pin c) as Hpend.
  { intros pin Hp. unfold pending. by rewrite Hp, Hrd. }
  destruct (eqb _ _) eqn:Heq.
  - apply eqb_prop in Heq. exists (Ok None), c'. split; [done|]. split; [done|]. split; [done|].
    exists g. split; [done|]. split; [|by left; auto]. intros pin Hp. by apply Hpend, Hother.
  - rewrite (deliver_asserted_spec g c' Hc' Hg). eexists (Ok _), c'. split; [done|]. split; [done|].
    split; [done|]. exists g. split; [done|]. split; [|by right]. intros pin Hp. by apply Hpend, Hother.
Qed.

(** The level-triggered interrupts a processor's end of interrupt raises again. *)
Definition resampled (v pin : Z) (c : Controller) : option X86Interrupt :=
  i ← pending pin c; if level_triggered i && (vector i =? v) then Some i else None.

Lemma eoi_pins_ok v pins c :
  ctl_ok c → Forall (λ p, 0 ≤ p < PINS) pins →
  eoi_pins v pins c = Some (omap (λ pin, resampled v pin c) pins).
Proof.
  intros Hc. induction 1 as [|pin pins Hp _ IH]; [done|]. cbn [eoi_pins].
  rewrite (deliver_asserted_spec pin c Hc Hp), IH. cbn [mbind option_bind omap list_omap].
  set (rest := omap _ pins). unfold resampled.
  destruct (pending pin c) as [i|]; [|done]. cbn [mbind option_bind]. by destruct (_ && _).
Qed.

Lemma eoi_ok v c : ctl_ok c → eoi v c = Some (omap (λ pin, resampled v pin c) (seqZ 0 PINS)).
Proof.
  intros Hc. apply eoi_pins_ok; [done|]. apply Forall_forall. intros p Hp.
  apply elem_of_seqZ in Hp. lia.
Qed.

(** ** Sequences of calls *)

Inductive call :=
| Configure (config : Config)
| IrqLine (slot : Z) (a : bool)
| IoapicLine (slot : Z) (a : bool)
| Access (offset width : Z) (write : bool) (v : Z)
| Eoi (v : Z).

Inductive reply :=
| RUnit
| RLevel (o : option IrqLevel)
| RInterrupts (l : list X86Interrupt)
| RAccess (r : IoapicReply).

Definition call_ok (k : call) : Prop :=
  match k with
  | Configure config => Forall u32 (cfg_routes config)
  | Access _ _ _ v => u32 v
  | _ => True
  end.

Definition raised (r : reply) : list X86Interrupt :=
  match r with RInterrupts l => l | RAccess r => interrupts r | _ => [] end.

Definition map_reply {T} (f : T → reply) (o : option (result Error T * state))
  : option (result Error reply * state) :=
  p ← o; Some (fmap (M := result Error) f p.1, p.2).

Definition apply_call (k : call) (st : state) : option (result Error reply * state) :=
  match k with
  | Configure config => map_reply (λ _, RUnit) (Some (Component.configure config st))
  | IrqLine slot a => map_reply RLevel (Component.irq_line slot a st)
  | IoapicLine slot a => map_reply RInterrupts (Component.guest_ioapic_line slot a st)
  | Access o w wr v => map_reply RAccess (Component.guest_access o w wr v st)
  | Eoi v => map_reply RInterrupts (Component.guest_eoi v st)
  end.

Fixpoint run (ks : list call) (st : state) : option (list (result Error reply) * state) :=
  match ks with
  | [] => Some ([], st)
  | k :: ks => p ← apply_call k st; q ← run ks p.2; Some (p.1 :: q.1, q.2)
  end.

Definition state_ok (st : state) : Prop := ∀ c, st = Some c → ctl_ok c.

(** What one call does to the interrupts the pins may deliver. *)
Definition delivers (k : call) (st st' : state) (r : result Error reply) : Prop :=
  match st, r with
  | Some c, Ok r => ∃ c', st' = Some c' ∧ mode c' = mode c ∧
      (mode c = ModeIoapic →
       (∃ pins, NoDup pins ∧ Forall (λ p, 0 ≤ p < PINS) pins ∧ raised r = omap (λ pin, pending pin c') pins) ∧
       (∀ pin i, 0 ≤ pin < PINS → pending pin c' ≠ pending pin c → pending pin c' = Some i → i ∈ raised r) ∧
       (∀ v, k = Eoi v → c' = c ∧ raised r = omap (λ pin, resampled v pin c) (seqZ 0 PINS)))
  | Some _, Err _ => st' = st
  | None, _ => True
  end.

(** A call succeeds without a panic and delivers. *)
Definition served (k : call) (st : state) (o : option (result Error reply * state)) : Prop :=
  ∃ r st', o = Some (r, st') ∧ state_ok st' ∧ delivers k st st' r.

(** A call on the wrong mode, or before [configure], is refused. *)
Lemma with_controller_served {T} k m (f : T → reply) operate st :
  state_ok st →
  (∀ c, st = Some c → mode c = m →
     ∃ r c', operate c = Some (r, c') ∧ ctl_ok c' ∧ delivers k (Some c) (Some c') (fmap (M := result Error) f r)) →
  served k st (map_reply f (with_controller m operate st)).
Proof.
  intros Hst H. unfold with_controller, map_reply. destruct st as [c|]; [|by eexists (Err _), _].
  case_bool_decide as Hm; [|by eexists (Err _), _].
  destruct (H c eq_refl Hm) as (r & c' & -> & Hc' & Hd). cbn [mbind option_bind fst snd].
  eexists _, _. split; [done|]. split; [|exact Hd]. by intros ? [= <-].
Qed.

Lemma raised_one pin c :
  0 ≤ pin < PINS →
  ∃ pins, NoDup pins ∧ Forall (λ p, 0 ≤ p < PINS) pins ∧
    option_list (pending pin c) = omap (λ p, pending p c) pins.
Proof.
  intros Hp. exists [pin]. split; [apply NoDup_singleton|]. split; [by apply Forall_singleton|].
  simpl. by destruct (pending pin c).
Qed.

Lemma raised_none c :
  ∃ pins, NoDup pins ∧ Forall (λ p, 0 ≤ p < PINS) pins ∧ [] = omap (λ p, pending p c) pins.
Proof. exists []. split; [constructor|]. by split. Qed.

Lemma configure_served config st :
  state_ok st → Forall u32 (cfg_routes config) → served (Configure config) st (apply_call (Configure config) st).
Proof.
  intros Hst Hr. unfold apply_call, Component.configure, map_reply.
  destruct st as [c|]; [by eexists (Err _), _|].
  destruct (new config) as [c|e] eqn:Hn; eexists _, _; (split; [done|]); (split; [|done]); [|done].
  intros c' [= <-]. by eapply new_ok.
Qed.

Lemma irq_line_served slot a st :
  state_ok st → served (IrqLine slot a) st (apply_call (IrqLine slot a) st).
Proof.
  intros Hst. apply with_controller_served; [done|]. intros c -> Hm.
  destruct (line_ok slot a c (Hst c eq_refl)) as (r & c' & -> & Hc' & Hm' & _ & _ & Hl).
  cbn [mbind option_bind]. destruct r as [[g|]|e].
  - destruct Hl as (g' & _ & Hg & _ & _ & Hif). destruct (eqb _ _); simplify_eq.
    rewrite (asserted_lookup c' g' Hc' Hg). eexists _, c'. split; [done|]. split; [done|].
    exists c'. split; [done|]. split; [done|]. congruence.
  - eexists _, c'. split; [done|]. split; [done|]. exists c'. split; [done|]. split; [done|]. congruence.
  - destruct Hl as [_ ->]. eexists _, c. split; [done|]. by split.
Qed.

Lemma ioapic_line_served slot a st :
  state_ok st → served (IoapicLine slot a) st (apply_call (IoapicLine slot a) st).
Proof.
  intros Hst. apply with_controller_served; [done|]. intros c -> Hm.
  destruct (ioapic_line_ok slot a c (Hst c eq_refl)) as (r & c' & -> & Hc' & Hm' & Hl).
  eexists _, c'. split; [done|]. split; [done|]. cbn [fst].
  destruct r as [o|e]; [|by rewrite Hl]. destruct Hl as (g & Hg & Hother & Ho).
  exists c'. split; [done|]. split; [done|]. intros _. cbn [raised]. split; [|split; [|done]].
  - destruct Ho as [[-> _]| ->]; [apply raised_none|by apply raised_one].
  - intros pin i Hp Hne Hi. destruct (decide (pin = g)) as [->|Hpg]; [|by destruct Hne; apply Hother].
    destruct Ho as [[_ Heq]| ->]; [done|]. rewrite Hi. by apply list_elem_of_singleton.
Qed.

Lemma access_served o w wr v st :
  state_ok st → u32 v → served (Access o w wr v) st (apply_call (Access o w wr v) st).
Proof.
  intros Hst Hv. apply with_controller_served; [done|]. intros c -> Hm.
  destruct (access_ok o w wr v c (Hst c eq_refl) Hv) as (r & c' & -> & Hc' & Hm' & H).
  eexists _, c'. split; [done|]. split; [done|]. exists c'. split; [done|]. split; [done|]. intros _.
  simpl raised. destruct H as [[-> Hp]|(pin & Hpin & -> & Hother)]; (split; [|split; [|done]]).
  - apply raised_none.
  - intros p i Hpr Hne. by destruct Hne; apply Hp.
  - by apply raised_one.
  - intros p i Hpr Hne Hi. destruct (decide (p = pin)) as [->|Hpg]; [|by destruct Hne; apply Hother].
    rewrite Hi. by apply list_elem_of_singleton.
Qed.

Lemma omap_restrict {A B} (f g : A → option B) (l : list A) :
  (∀ x y, g x = Some y → f x = Some y) → omap g l = omap f (filter (λ x, is_Some (g x)) l).
Proof.
  intros H. induction l as [|x l IH]; [done|]. rewrite filter_cons. cbn [omap list_omap].
  rewrite IH. destruct (g x) as [y|] eqn:Hg.
  - rewrite decide_True by done. cbn [omap list_omap]. by rewrite (H x y Hg).
  - by rewrite decide_False by (by intros [? ?]).
Qed.

Lemma eoi_served v st : state_ok st → served (Eoi v) st (apply_call (Eoi v) st).
Proof.
  intros Hst. apply with_controller_served; [done|]. intros c -> Hm.
  rewrite (eoi_ok v c (Hst c eq_refl)). eexists _, c. split; [done|]. split; [by apply Hst|].
  exists c. split; [done|]. split; [done|]. intros _. cbn [raised]. split; [|split].
  - exists (filter (λ p, is_Some (resampled v p c)) (seqZ 0 PINS)). split; [apply NoDup_filter, NoDup_seqZ|].
    split.
    + apply Forall_forall. intros p Hp. apply list_elem_of_filter in Hp as [_ Hp].
      apply elem_of_seqZ in Hp. lia.
    + apply omap_restrict. intros p i. unfold resampled. destruct (pending p c) as [j|]; [|done].
      cbn [mbind option_bind]. by destruct (_ && _).
  - done.
  - by intros v' [= <-].
Qed.

Lemma call_served k st : state_ok st → call_ok k → served k st (apply_call k st).
Proof.
  intros Hst Hk. destruct k; [by apply configure_served|by apply irq_line_served|
    by apply ioapic_line_served|by apply access_served|by apply eoi_served].
Qed.

Lemma run_served ks st :
  state_ok st → Forall call_ok ks → ∃ rs st', run ks st = Some (rs, st') ∧ state_ok st'.
Proof.
  intros Hst Hks. revert st Hst. induction Hks as [|k ks Hk _ IH]; intros st Hst; [by eexists _, _|].
  destruct (call_served k st Hst Hk) as (r & st1 & Ha & Hst1 & _).
  destruct (IH st1 Hst1) as (rs & st2 & Hr & Hst2).
  exists (r :: rs), st2. split; [|done]. simpl. rewrite Ha. simpl. by rewrite Hr.
Qed.

Lemma initial_state_ok : state_ok None.
Proof. by intros c. Qed.

(** Distinct pins deliver no more than one interrupt each. *)
Lemma raised_bound (f : Z → option X86Interrupt) pins :
  NoDup pins → Forall (λ p, 0 ≤ p < PINS) pins → zlen (omap f pins) ≤ PINS.
Proof.
  intros Hn Hf. assert (length (omap f pins) ≤ length pins)%nat as H1.
  { clear. induction pins as [|p pins IH]; [done|]. cbn [omap list_omap].
    destruct (f p); cbn [length]; lia. }
  assert (length pins ≤ length (seqZ 0 PINS))%nat as H2.
  { apply submseteq_length, NoDup_submseteq; [done|]. intros p Hp.
    rewrite Forall_forall in Hf. specialize (Hf p Hp). cbn beta in Hf. apply elem_of_seqZ. lia. }
  rewrite length_seqZ in H2. unfold zlen. change (Z.to_nat PINS) with 24%nat in H2.
  change PINS with 24. lia.
Qed.

(** ** Properties *)

(** The controller cannot be driven into a panic, and a pin is high
    exactly when some device routed to it holds its line: from the
    unconfigured state, any sequence of calls with any routes, slots and
    register values runs to its end, and then the recorded level of every
    pin is the disjunction of its devices' lines. *)
Theorem ioapic_invariant ks :
  Forall call_ok ks →
  ∃ rs st, run ks None = Some (rs, st) ∧ ∀ c, st = Some c →
    ∀ pin, 0 ≤ pin < PINS → ∃ b, asserted c !! Z.to_nat pin = Some b ∧
      (b = true ↔ ∃ slot, routes c !! slot = Some pin ∧ levels c !! slot = Some true).
Proof.
  intros Hks. destruct (run_served ks None initial_state_ok Hks) as (rs & st & Hr & Hst).
  exists rs, st. split; [done|]. intros c -> pin Hp. exists (aggregate pin c).
  split; [|apply aggregate_true]. apply asserted_lookup; [by apply Hst|done].
Qed.

(** C33. No interrupt is lost and none is made up. In I/O APIC mode, after any
    history, a call that makes a high, unmasked pin deliver something else
    than before returns that interrupt; everything a call returns is what
    distinct high, unmasked pins deliver, so never more than the host's batch
    check admits; and an end of interrupt returns
    exactly the level-triggered interrupts with its vector that are still
    pending. *)
Theorem ioapic_delivery ks k rs c r st' :
  Forall call_ok ks → call_ok k → run ks None = Some (rs, Some c) → mode c = ModeIoapic →
  apply_call k (Some c) = Some (Ok r, st') →
  ∃ c', st' = Some c' ∧
    (∃ pins, NoDup pins ∧ Forall (λ p, 0 ≤ p < PINS) pins ∧
       raised r = omap (λ pin, pending pin c') pins) ∧
    zlen (raised r) ≤ PINS ∧
    (∀ pin i, 0 ≤ pin < PINS → pending pin c' ≠ pending pin c → pending pin c' = Some i → i ∈ raised r) ∧
    (∀ v, k = Eoi v → c' = c ∧ raised r = omap (λ pin, resampled v pin c) (seqZ 0 PINS)).
Proof.
  intros Hks Hk Hr Hm Ha.
  destruct (run_served ks None initial_state_ok Hks) as (rs' & st & Hr' & Hst). simplify_eq.
  destruct (call_served k (Some c) Hst Hk) as (r1 & st1 & Ha1 & _ & Hd). simplify_eq.
  destruct Hd as (c' & -> & _ & Hd). exists c'. split; [done|].
  destruct (Hd Hm) as (Hp & Hin & He). split; [exact Hp|]. split; [|done].
  destruct Hp as (pins & Hn & Hf & ->). by apply raised_bound.
Qed.

(** The host's record of the lines: it checks each change against the routes
    it granted, refuses the rest, and applies it. *)
Fixpoint drive (granted : list Z) (calls : list (Z * bool)) (view : list bool) (st : state)
  : option (list bool * state) :=
  match calls with
  | [] => Some (view, st)
  | (slot, a) :: calls =>
    p ← Component.irq_line slot a st;
    match p.1 with
    | Ok (Some change) =>
      if validate_irq_line slot change granted
      then drive granted calls (<[Z.to_nat (gsi change) := irq_asserted change]> view) p.2
      else None
    | _ => drive granted calls view p.2
    end
  end.

Lemma drive_tracks granted calls c :
  ctl_ok c → mode c = IrqLines → routes c = granted →
  ∃ c', drive granted calls (asserted c) (Some c) = Some (asserted c', Some c') ∧ ctl_ok c'.
Proof.
  revert c. induction calls as [|[slot a] calls IH]; intros c Hc Hm Hr; [by exists c|]. cbn [drive].
  unfold Component.irq_line, with_controller. rewrite bool_decide_eq_true_2 by done.
  destruct (line_ok slot a c Hc) as (r & c' & Hl & Hc' & Hm' & Hr' & _ & H). rewrite Hl. cbn [mbind option_bind].
  assert (∃ c2, drive granted calls (asserted c') (Some c') = Some (asserted c2, Some c2) ∧ ctl_ok c2) as IH'
    by (apply IH; congruence).
  destruct r as [o|e]; [|by destruct H as [_ ->]].
  destruct H as (g & Hg & Hgp & _ & Hother & ->).
  assert (<[Z.to_nat g := aggregate g c']> (asserted c) = asserted c') as Hview.
  { rewrite (co_asserted c Hc), (co_asserted c' Hc'). apply list_eq. intros i.
    rewrite list_lookup_fmap. destruct (decide (i = Z.to_nat g)) as [->|Hne].
    - rewrite lookup_seqZ_pin by done. rewrite list_lookup_insert_eq; [done|].
      rewrite length_fmap, length_seqZ. lia.
    - rewrite list_lookup_insert_ne, list_lookup_fmap by done.
      destruct (seqZ 0 PINS !! i) as [p|] eqn:Hp; [|done]. apply lookup_seqZ in Hp as [-> Hp]. simpl.
      f_equal. symmetry. apply Hother. lia. }
  destruct (eqb _ _) eqn:Heq; cbn [mbind option_bind fst snd].
  - apply eqb_prop in Heq. rewrite <- Heq, list_insert_id in Hview by (by apply asserted_lookup).
    by rewrite Hview.
  - rewrite (asserted_lookup c' g Hc' Hgp). cbn [mbind option_bind fst snd]. unfold validate_irq_line.
    cbn [gsi irq_asserted]. rewrite bool_decide_eq_true_2 by (by rewrite <- Hr). by rewrite Hview.
Qed.

(** The host's view of the interrupt lines is exact: driving any sequence
    of line changes through [irq_line] and applying the changes it reports,
    the host never sees a change outside the routes it granted and its record
    of every line equals the controller's. *)
Theorem irq_lines_tracked config c calls :
  Forall u32 (cfg_routes config) → cfg_mode config = IrqLines → new config = Ok c →
  ∃ c', drive (cfg_routes config) calls (replicate (Z.to_nat PINS) false) (Some c)
        = Some (asserted c', Some c') ∧
    ∀ pin, 0 ≤ pin < PINS → asserted c' !! Z.to_nat pin = Some (aggregate pin c').
Proof.
  intros Hr Hm Hn. pose proof (new_ok config c Hr Hn) as Hc.
  assert (mode c = IrqLines ∧ routes c = cfg_routes config ∧
    asserted c = replicate (Z.to_nat PINS) false) as (Hm' & Hrt & Ha).
  { unfold new in Hn. destruct (_ <? _); [done|]. destruct (checked_routes _) as [l|] eqn:Hl; [|done].
    rsimpl_in Hn. apply checked_routes_Ok in Hl as [-> _]; [|done]. by injection Hn as <-. }
  destruct (drive_tracks (cfg_routes config) calls c Hc Hm' Hrt) as (c' & Hd & Hc').
  exists c'. rewrite <- Ha. split; [exact Hd|]. intros pin. by apply asserted_lookup.
Qed.

(** *** Witnesses *)

Definition sample_config (m : Mode) : Config := mkConfig m [5; 5; 6].
Definition sample_calls : list call :=
  [Configure (sample_config ModeIoapic); Access 0 4 true 0x1a; Access 0x10 4 true 0x8030;
   IoapicLine 0 true].

Lemma sample_calls_ok : Forall call_ok sample_calls.
Proof. repeat (apply Forall_cons; split); try done; by apply (bool_decide_unpack _); vm_compute. Qed.

Lemma ioapic_invariant_witness :
  ∃ rs st, run sample_calls None = Some (rs, st) ∧ ∀ c, st = Some c →
    ∀ pin, 0 ≤ pin < PINS → ∃ b, asserted c !! Z.to_nat pin = Some b ∧
      (b = true ↔ ∃ slot, routes c !! slot = Some pin ∧ levels c !! slot = Some true).
Proof. apply (ioapic_invariant sample_calls). exact sample_calls_ok. Defined.

Lemma ioapic_delivery_witness :
  ∃ rs c, run sample_calls None = Some (rs, Some c) ∧
    ∃ c', apply_call (Eoi 0x30) (Some c) = Some (Ok (RInterrupts [mkInterrupt 0x30 0 true]), Some c') ∧
    raised (RInterrupts [mkInterrupt 0x30 0 true]) = omap (λ pin, resampled 0x30 pin c) (seqZ 0 PINS).
Proof.
  eexists _, _. split; [vm_compute; reflexivity|]. eexists. split; [vm_compute; reflexivity|].
  edestruct (ioapic_delivery sample_calls (Eoi 0x30)) as (c' & Hc & _ & _ & _ & He).
  - exact sample_calls_ok.
  - exact I.
  - vm_compute. reflexivity.
  - vm_compute. reflexivity.
  - vm_compute. reflexivity.
  - exact (proj2 (He 0x30 eq_refl)).
Defined.

Lemma irq_lines_tracked_witness :
  ∃ c c', new (sample_config IrqLines) = Ok c ∧
    drive [5; 5; 6] [(0, true); (1, true); (0, false); (2, true); (9, true)]
      (replicate (Z.to_nat PINS) false) (Some c) = Some (asserted c', Some c').
Proof.
  eexists.
  edestruct (irq_lines_tracked (sample_config IrqLines)) as (c' & Hd & _).
  - apply (bool_decide_unpack _). vm_compute. exact I.
  - reflexivity.
  - vm_compute. reflexivity.
  - exists c'. split; [vm_compute; reflexivity|exact Hd].
Defined.

End Ioapic.
