(* ===== verification/Device.v ===== *)
(** * Device errors and requests

    What every device component shares on top of the transport: the error
    enumeration of [components/wit/mmio/mmio.wit] with the conversions of the
    [device_error!] macro, and the request handler of [mmio_device!], both in
    [components/device-transport/src/lib.rs]. *)

From S2P Require Import Prelude MemoryApi SplitRing GuestCopy Mmio.
Local Open Scope Z_scope.

Module Device.

Inductive DeviceError := Unmapped | BadLen | BadQueue | NotReady | TooLarge | Io.
#[global] Instance DeviceError_eq_dec : EqDecision DeviceError.
Proof. solve_decision. Defined.

Definition from_mmio (e : MmioError) : DeviceError :=
  match e with
  | SplitRing.Unmapped => Unmapped
  | SplitRing.BadQueue => BadQueue
  | SplitRing.NotReady => NotReady
  | SplitRing.BadLen | Unaligned | BadFeatures | BadStatus | ReadOnly => BadLen
  end.

Definition from_ring (e : SplitRingError) : DeviceError :=
  match e with BadDescriptor => BadLen | ChainTooLong => TooLarge end.

Definition from_copy (e : MemoryCopyError) : DeviceError :=
  match e with
  | CopyBadLen => BadLen
  | CopyUnmapped => Unmapped
  | CopyTooLarge => TooLarge
  end.

(** [memory::read(..).map_err(|_| DeviceError::Unmapped)] and its siblings. *)
Definition host_memory {H E} `{!GuestMemory H E} : GuestMemory H DeviceError :=
  map_memory_err (λ _, Unmapped).

(** ** Requests *)

Inductive Operation := Read | Write | Reset | Close.

Record Request := mkRequest {
  sequence : Z;
  operation : Operation;
  offset : Z;
  width : Z;
  value : Z;
}.

Record Reply := mkReply {
  reply_sequence : Z;
  reply_value : Z;
  reply_error : option DeviceError;
}.

Section Serve.
Context {D : Type}.
Context (read : Z → Z → stM D DeviceError Z).
Context (write : Z → Z → Z → stM D DeviceError unit).
Context (reset : D → D).
Context (close : stM D DeviceError unit).

(** The reply and whether it is the last one. *)
Definition handle (request : Request) (d : D) : (Reply * bool) * D :=
  let terminal := match operation request with Close => true | _ => false end in
  let '(result, d) :=
    match operation request with
    | Read => read (offset request) (width request) d
    | Write => (write (offset request) (width request) (value request);;; st_ret 0)%st d
    | Reset => (Ok 0, reset d)
    | Close => (close;;; st_ret 0)%st d
    end in
  let '(value, error) := match result with Ok v => (v, None) | Err e => (0, Some e) end in
  ((mkReply (sequence request) value error, terminal), d).

(** The requests of the stream until it ends or a [Close] was answered; the
    caller keeps reading the replies. *)
Fixpoint serve (requests : list Request) (d : D) : list Reply * D :=
  match requests with
  | [] => ([], d)
  | request :: requests =>
    let '((reply, terminal), d) := handle request d in
    if terminal then ([reply], d)
    else let '(replies, d) := serve requests d in (reply :: replies, d)
  end.
End Serve.

(** ** A device's transport and its interrupt line

    What every device keeps between two calls: a well-formed transport of the
    configured device [t0], and a published line that is the transport's level
    unless a change is still to be published. *)
Record bus_ok (t0 t : Transport.MmioTransport) (line : bool) : Prop := {
  bus_wf : Transport.wf t;
  bus_same : Transport.same_device t0 t;
  bus_line : Transport.line_tracked (t, line);
}.

Section Bus.
Context (t0 : Transport.MmioTransport).

Lemma bus_write offset width value t line r t' :
  0 ≤ value → bus_ok t0 t line → Transport.write offset width value t = (r, t') → bus_ok t0 t' line.
Proof.
  intros Hv [H1 H2 H3] Hw. destruct r as [out|e]; [|by apply Transport.write_error in Hw as ->].
  apply Transport.write_effect in Hw; [|done]. split.
  - by eapply Transport.effect_wf.
  - etransitivity; [done|]. by eapply Transport.effect_same_device.
  - by eapply Transport.effect_tracked.
Qed.

Lemma bus_signal bit t line : 0 ≤ bit → bit ≠ 0 → bus_ok t0 t line → bus_ok t0 (Transport.signal bit t) line.
Proof.
  intros Hb Hb0 [H1 H2 H3]. split.
  - by apply Transport.wf_signal.
  - etransitivity; [done|]. apply Transport.signal_same_device.
  - unfold Transport.signal. destruct (_ =? 0); [|done]. cbv zeta. destruct (_ =? 0); [done|].
    by apply Transport.set_irq_level_tracked.
Qed.

Lemma bus_config cfg t line : bus_ok t0 t line → bus_ok t0 (Transport.set_config cfg t) line.
Proof. intros [[? ? ? ? ? ?] ? ?]. split; [by split|done|done]. Qed.

(** Publishing what [take_irq] reports leaves the line at the level. *)
Lemma bus_take_irq t line :
  bus_ok t0 t line →
  let '(irq, t') := Transport.take_irq t in
  bus_ok t0 t' (default line irq) ∧ Transport.irq_dirty t' = false ∧
  default line irq = Transport.irq_level t' ∧ Transport.irq_level t' = Transport.irq_level t ∧
  Transport.queues t' = Transport.queues t ∧ Transport.config t' = Transport.config t ∧
  Transport.negotiated t' = Transport.negotiated t ∧ Transport.dev_status t' = Transport.dev_status t.
Proof.
  intros [H1 H2 H3]. unfold Transport.take_irq.
  destruct (Transport.irq_dirty t) eqn:Hd; simpl.
  - split; [|done]. split; [|done|done]. destruct H1. by split.
  - split; [by split|]. split; [done|]. split; [by apply H3|done].
Qed.
End Bus.

End Device.
