(* ===== verification/Balloon.v ===== *)
(** * The balloon device

    [components/mem/src/transport.rs]: the page-reporting balloon on top of
    the virtio-MMIO transport, the split rings and the doorbell. A report
    names guest pages the host may discard; the device checks them and hands
    them to the host.

    The host side is the state [env]: guest memory, the level last published
    on the interrupt line, every report handed to [host::discard] and the
    doorbell. [host::discard] is the class [DiscardHost], whose law says that
    it touches no byte outside the ranges it is given, which is what
    [HostMemory] proves of the runtime. *)

From S2P Require Import Prelude Limits MemoryApi HostMemory SplitRing Mmio Doorbell Device.
Local Open Scope Z_scope.

(** A byte of one of the ranges. *)
Definition in_ranges (rs : list (Z * Z)) (x : Z) : Prop :=
  Exists (λ r, r.1 ≤ x < r.1 + r.2) rs.

Class DiscardHost (H : Type) (mapped : H → Z → Z → Prop) (byte : H → Z → Z) := {
  (** The call's result is ignored by the device. *)
  dh_discard : list (Z * Z) → H → H;
  dh_mapped rs h a n : mapped (dh_discard rs h) a n ↔ mapped h a n;
  dh_byte rs h x : ¬ in_ranges rs x → byte (dh_discard rs h) x = byte h x;
}.

Module Balloon.
Import Device.

Definition REPORT : Z := 2.
Definition QUEUE_COUNT : Z := 3.
Definition QUEUE_SIZE : Z := 256.
Definition DESC_BYTES : Z := SPLIT_RING_DESCRIPTOR_BYTES.
Definition MAX_CHAIN : Z := MAX_RECLAIM_REPORT_RANGES.
Definition MAX_REPORT_BYTES : Z := MAX_RECLAIM_REPORT_BYTES.
Definition PAGE_SIZE : Z := 4096.
Definition VIRTIO_BALLOON_F_PAGE_POISON : Z := Z.shiftl 1 4.
Definition VIRTIO_BALLOON_F_PAGE_REPORTING : Z := Z.shiftl 1 5.
Definition HOST_FEATURES : Z :=
  Z.lor (Z.lor Transport.VIRTIO_F_VERSION_1 VIRTIO_BALLOON_F_PAGE_POISON)
    VIRTIO_BALLOON_F_PAGE_REPORTING.
Definition CONFIG_BASE : Z := 0x100.
Definition CONFIG_BYTES : Z := 16.
Definition CONFIG_ACTUAL : Z * Z := (4, 8).
Definition CONFIG_POISON : Z * Z := (12, 16).

Record QueueEntry := mkEntry {
  descriptor_table : Z;
  available_ring : Z;
  used_ring : Z;
  size : Z;
  head : Z;
}.

Record State := mkState {
  mmio : Transport.MmioTransport;
  next : list Z;
}.

(** ** Pure checks *)

Definition chain (table : list Z) (index size : Z) : result DeviceError (list SplitRingDescriptor) :=
  map_err from_ring (split_ring_chain table index size (Z.to_nat MAX_CHAIN)
    (Z.lor SPLIT_RING_DESC_F_NEXT SPLIT_RING_DESC_F_WRITE)).

Definition overlaps (left right : Z * Z) : bool :=
  match checked_add64 left.1 left.2 with
  | None => true
  | Some left_end =>
    match checked_add64 right.1 right.2 with
    | None => true
    | Some right_end => (left.1 <? right_end) && (right.1 <? left_end)
    end
  end.

Fixpoint collect_report (descriptors : list SplitRingDescriptor) (rings : list (Z * Z))
    (bytes : Z) (ranges : list (Z * Z)) : result DeviceError (list (Z * Z)) :=
  match descriptors with
  | [] => Ok ranges
  | d :: descriptors =>
    if (Z.land (d_flags d) SPLIT_RING_DESC_F_WRITE =? 0) || (d_len d =? 0) then Err BadLen else
    let range := (d_addr d, d_len d) in
    if negb (is_multiple_of range.1 PAGE_SIZE) || negb (is_multiple_of range.2 PAGE_SIZE)
       || bool_decide (checked_add64 range.1 range.2 = None)
       || existsb (overlaps range) rings
    then Err BadLen else
    bytes ← ok_or TooLarge (checked_add64 bytes range.2);
    if MAX_REPORT_BYTES <? bytes then Err TooLarge else
    collect_report descriptors rings bytes (ranges ++ [range])
  end.

Definition report_ranges (descriptors : list SplitRingDescriptor)
    (descriptor_table available_ring used_ring : Z * Z) : result DeviceError (list (Z * Z)) :=
  if (zlen descriptors =? 0) || (MAX_CHAIN <? zlen descriptors) then Err BadLen else
  collect_report descriptors [descriptor_table; available_ring; used_ring] 0 [].

(** The bytes of [v] from index [i] on, in place ([copy_from_slice]). *)
Definition splice (l : list Z) (i : Z) (v : list Z) : list Z :=
  take (Z.to_nat i) l ++ v ++ drop (Z.to_nat i + length v) l.

(** [usize] has 32 bits on the component's target. *)
Definition USIZE_MAX : Z := U32_MAX.

Definition config_write (config : list Z) (offset : Z) (data : list Z)
  : result DeviceError (list Z) :=
  if USIZE_MAX <? offset then Err BadLen else
  if USIZE_MAX <? offset + zlen data then Err BadLen else
  let field := (offset, offset + zlen data) in
  let is_writable := existsb (λ w : Z * Z, (w.1 <=? field.1) && (field.2 <=? w.2))
                       [CONFIG_ACTUAL; CONFIG_POISON] in
  if negb is_writable || negb (existsb (Z.eqb (zlen data)) [1; 2; 4]) then Err BadLen else
  Ok (splice config offset data).

Definition poison_is_zero (config : list Z) : bool :=
  match slice config CONFIG_POISON.1 CONFIG_POISON.2 with
  | Some poison => forallb (Z.eqb 0) poison
  | None => false
  end.

Section Balloon.
Context {H E W : Type} `{GM : !GuestMemory H E} `{!AtomicWaker W}.
Context `{DH : !DiscardHost H gm_mapped gm_byte}.
(** [memory::address_limit()] *)
Context (address_limit : Z).

Record env := mkEnv {
  mem : H;
  line : bool;
  reports : list (list (Z * Z));
  bell : Doorbell.t W;
}.

(** [STATE] and the rest of the world. *)
Record device := mkDevice { st : option State; world : env }.

Definition set_mem (h : H) (e : env) : env := mkEnv h (line e) (reports e) (bell e).
Definition set_bell (b : Doorbell.t W) (e : env) : env := mkEnv (mem e) (line e) (reports e) b.
Definition publish_interrupt_asserted (asserted : bool) (e : env) : env :=
  mkEnv (mem e) asserted (reports e) (bell e).
Definition host_discard (rs : list (Z * Z)) (e : env) : env :=
  mkEnv (dh_discard rs (mem e)) (line e) (reports e ++ [rs]) (bell e).

Definition set_next (n : list Z) (s : State) : State := mkState (mmio s) n.
Definition set_mmio (t : Transport.MmioTransport) (s : State) : State := mkState t (next s).
Definition next_of (queue : Z) (s : State) : Z := default 0 (next s !! Z.to_nat queue).

(** Run an operation of guest memory inside the locked state. *)
Definition on_memory {A} (f : stM H DeviceError A) : stM (State * env) DeviceError A :=
  λ c, let '(r, h) := f (mem c.2) in (r, (c.1, set_mem h c.2)).

Definition read : Z → Z → stM H DeviceError (list Z) := @gm_read _ _ host_memory.
Definition write : Z → list Z → stM H DeviceError unit := @gm_write _ _ host_memory.

Definition locked {A} (f : stM (State * env) DeviceError A) : stM device DeviceError A :=
  λ d,
  match st d with
  | None => (Err NotReady, d)
  | Some s =>
    let '(result, (s, e)) := f (s, world d) in
    let '(irq, t) := Transport.take_irq (mmio s) in
    let e := match irq with Some asserted => publish_interrupt_asserted asserted e | None => e end in
    (result, mkDevice (Some (set_mmio t s)) e)
  end.

Definition available (queue : Z) : stM (State * env) DeviceError (option QueueEntry) :=
  λ c,
  let '(s, e) := c in
  if Z.land (Transport.negotiated (mmio s)) Transport.VIRTIO_F_VERSION_1 =? 0
  then (Err NotReady, c) else
  match Transport.queue_addrs_for queue (mmio s) with
  | None => (Err NotReady, c)
  | Some (table, avail, used, n) =>
    let '(r, h, next') := read_split_ring_available from_mmio read avail n (next_of queue s) (mem e) in
    let c := (set_next (<[Z.to_nat queue := next']> (next s)) s, set_mem h e) in
    match r with
    | Err err => (Err err, c)
    | Ok (_, head) => (Ok (mkEntry table avail used n <$> head), c)
    end
  end.

Definition complete (queue : Z) (ring : QueueEntry) : stM (State * env) DeviceError unit :=
  (on_memory (complete_split_ring_entry from_mmio read write (used_ring ring) (size ring) (head ring) 0);;;
   λ c, let '(s, e) := c in
        let s := set_next (<[Z.to_nat queue := wrapping_add16 (next_of queue s) 1]> (next s)) s in
        (Ok tt, (set_mmio (Transport.signal Transport.INT_USED_BUFFER (mmio s)) s, e)))%st.

Definition ring_ranges (ring : QueueEntry) : list (Z * Z) :=
  [(descriptor_table ring, size ring * DESC_BYTES); (available_ring ring, 4 + size ring * 2);
   (used_ring ring, 4 + size ring * 8)].

Definition discard_report (ring : QueueEntry) : stM (State * env) DeviceError unit :=
  (table <- on_memory (read (descriptor_table ring) (size ring * DESC_BYTES));;
   ranges <- st_lift (descriptors ← chain table (head ring) (size ring);
                      report_ranges descriptors (descriptor_table ring, size ring * DESC_BYTES)
                        (available_ring ring, 4 + size ring * 2) (used_ring ring, 4 + size ring * 8));;
   λ c, if poison_is_zero (Transport.config (mmio c.1))
        then (Ok tt, (c.1, host_discard ranges c.2)) else (Ok tt, c))%st.

Definition fresh_state : State :=
  mkState (Transport.with_queue_count QUEUE_COUNT
             (Transport.new address_limit 5 HOST_FEATURES QUEUE_SIZE
                (replicate (Z.to_nat CONFIG_BYTES) 0)))
          (replicate (Z.to_nat QUEUE_COUNT) 0).

Definition configure (d : device) : device :=
  mkDevice (Some fresh_state)
    (publish_interrupt_asserted false (set_bell (Doorbell.reset (bell (world d))) (world d))).

Definition mmio_read (addr width : Z) : stM device DeviceError Z :=
  locked (λ c, (map_err from_mmio (Transport.read addr width (mmio c.1)), c)).

Definition mmio_write (addr width value : Z) : stM device DeviceError unit :=
  locked (λ c,
    let '(s, e) := c in
    match checked_sub addr CONFIG_BASE with
    | Some offset =>
      match slice (le_bytes 8 value) 0 width with
      | None => (Err BadLen, c)
      | Some data =>
        match config_write (Transport.config (mmio s)) offset data with
        | Err err => (Err err, c)
        | Ok config => (Ok tt, (set_mmio (Transport.set_config config (mmio s)) s, e))
        end
      end
    | None =>
      match Transport.write addr width value (mmio s) with
      | (Err err, t) => (Err (from_mmio err), (set_mmio t s, e))
      | (Ok Transport.NoOutcome, t) => (Ok tt, (set_mmio t s, e))
      | (Ok Transport.Reset, t) =>
        (Ok tt, (mkState t (replicate (Z.to_nat QUEUE_COUNT) 0), e))
      | (Ok (Transport.QueueNotify queue), t) =>
        (Ok tt, (set_mmio t s, set_bell (Doorbell.ring (Z.shiftl 1 queue) (bell e)).1 e))
      end
    end).

(** One turn of the inner loop of [run], inside the lock: whether an entry
    was completed. *)
Definition turn (queue : Z) : stM (State * env) DeviceError bool :=
  (ring <- available queue;;
   match ring with
   | None => st_ret false
   | Some ring =>
     (λ c, if queue =? REPORT then (Ok tt, (discard_report ring c).2) else (Ok tt, c));;;
     complete queue ring;;;
     st_ret true
   end)%st.

Definition process (queue : Z) (d : device) : bool * device :=
  let '(r, d) := locked (turn queue) d in
  (match r with Ok b => b | Err _ => false end, d).

(** The inner loop, with at most [n] turns. Between two turns the task
    yields; here nothing else runs meanwhile. *)
Fixpoint drain (n : nat) (queue : Z) (d : device) : nat * device :=
  match n with
  | O => (O, d)
  | S n => let '(processed, d) := process queue d in
           if processed then let '(k, d) := drain n queue d in (S k, d) else (O, d)
  end.

Definition reset (d : device) : device :=
  if negb (Doorbell.is_closed (bell (world d))) then configure d else d.

Definition close : stM device DeviceError unit :=
  λ d, (Ok tt, mkDevice None (publish_interrupt_asserted false
         (set_bell (Doorbell.close (bell (world d))).2.1 (world d)))).

(** The [for queue in 0..QUEUE_COUNT] loop of [run] over the bits of one
    doorbell. *)
Fixpoint service (n : nat) (queues : list Z) (bits : Z) (d : device) : device :=
  match queues with
  | [] => d
  | queue :: queues =>
    if Z.land bits (Z.shiftl 1 queue) =? 0 then service n queues bits d
    else service n queues bits (drain n queue d).2
  end.

(** ** What a report may name *)

Definition apart (r ring : Z * Z) : Prop := r.1 + r.2 ≤ ring.1 ∨ ring.1 + ring.2 ≤ r.1.

Record safe_report (rings : list (Z * Z)) (rs : list (Z * Z)) : Prop := {
  sr_count : 0 < zlen rs ≤ MAX_RECLAIM_REPORT_RANGES;
  sr_ranges : Forall (λ r, 0 ≤ r.1 ∧ 0 < r.2 ∧ r.1 mod PAGE_SIZE = 0 ∧ r.2 mod PAGE_SIZE = 0 ∧
                           r.1 + r.2 ≤ U64_MAX ∧ Forall (apart r) rings) rs;
  sr_bytes : sumZ rs.*2 ≤ MAX_RECLAIM_REPORT_BYTES;
}.

Lemma overlaps_apart r ring : overlaps r ring = false → apart r ring.
Proof.
  unfold overlaps, apart. destruct (checked_add64 r.1 r.2) as [e|] eqn:He; [|done].
  destruct (checked_add64 ring.1 ring.2) as [e'|] eqn:He'; [|done].
  apply checked_add64_Some in He as [-> _]. apply checked_add64_Some in He' as [-> _].
  intros Hb. apply andb_false_iff in Hb as [Hb|Hb]; breflect; lia.
Qed.

Lemma existsb_apart r rings : existsb (overlaps r) rings = false → Forall (apart r) rings.
Proof.
  induction rings as [|ring rings IH]; [constructor|]. simpl. intros Hb. breflect.
  constructor; [by apply overlaps_apart|by apply IH].
Qed.

Lemma multiple_of_page a : is_multiple_of a PAGE_SIZE = true → a mod PAGE_SIZE = 0.
Proof. unfold is_multiple_of. simpl. intros Hb. by breflect. Qed.

Lemma collect_report_spec ds rings total acc rs :
  Forall descriptor_fields ds → collect_report ds rings total acc = Ok rs →
  ∃ new, rs = acc ++ new ∧ length new = length ds ∧
    (new ≠ [] → total + sumZ new.*2 ≤ MAX_REPORT_BYTES) ∧
    Forall (λ r, 0 ≤ r.1 ∧ 0 < r.2 ∧ r.1 mod PAGE_SIZE = 0 ∧ r.2 mod PAGE_SIZE = 0 ∧
                 r.1 + r.2 ≤ U64_MAX ∧ Forall (apart r) rings) new.
Proof.
  intros Hds. revert total acc. induction Hds as [|d ds (Ha & Hl & _) _ IH]; intros total acc Hrs.
  { simplify_eq/=. exists []. by rewrite app_nil_r. }
  cbn [collect_report] in Hrs. destruct (_ || _) eqn:E1 in Hrs; [done|].
  destruct (_ || _) eqn:E2 in Hrs; [done|]. breflect.
  destruct (checked_add64 total (d_len d)) as [t|] eqn:Ht; cbn [fst snd] in *; rewrite Ht in Hrs; [|done].
  rsimpl_in Hrs. destruct (_ <? t) eqn:E3 in Hrs; [done|]. breflect.
  apply checked_add64_Some in Ht as [-> Ht].
  apply IH in Hrs as (new & -> & Hlen & Hsum & Hall).
  exists ((d_addr d, d_len d) :: new). split; [by rewrite <- app_assoc|]. split; [simpl; lia|]. split.
  - intros _. rewrite fmap_cons, sumZ_cons. cbn [snd]. destruct new as [|x new]; [unfold sumZ; simpl; lia|].
    specialize (Hsum ltac:(done)). lia.
  - constructor; [|done]. cbn [fst snd].
    destruct (checked_add64 (d_addr d) (d_len d)) as [e|] eqn:He; [|done].
    apply checked_add64_Some in He as [-> He].
    split_and!; [lia|lia|by apply multiple_of_page..|done|by apply existsb_apart].
Qed.

Lemma report_ranges_safe ds t a u rs :
  Forall descriptor_fields ds → report_ranges ds t a u = Ok rs → safe_report [t; a; u] rs.
Proof.
  intros Hds. unfold report_ranges. destruct (_ || _) eqn:Hlim in |- *; [done|]. breflect. intros Hrs.
  apply collect_report_spec in Hrs as (new & -> & Hlen & Hsum & Hall); [|done]. simpl in *.
  unfold zlen, MAX_CHAIN in *. pose proof (zlen_nonneg ds). unfold zlen in *.
  split; [unfold zlen; lia|done|]. apply Hsum. intros ->. simpl in Hlen. lia.
Qed.

(** ** The effect of a report *)

(** A report changes nothing but guest memory, in the pages it discards. *)
Inductive reported (ring : QueueEntry) (c : State * env) : State * env → Prop :=
| rep_none : reported ring c c
| rep_discard rs :
    poison_is_zero (Transport.config (mmio c.1)) = true →
    safe_report (ring_ranges ring) rs →
    reported ring c (c.1, host_discard rs c.2).

Lemma on_memory_read a n c :
  ∃ r, on_memory (read a n) c = (r, c) ∧
    ∀ bs, r = Ok bs → bs = peek (gm_byte (mem c.2)) a n.
Proof.
  destruct c as [s e]. unfold on_memory, read. cbn [fst snd].
  pose proof (@gm_read_pure _ _ host_memory (mem e) a n) as Hp.
  pose proof (@gm_read_inv _ _ host_memory (mem e) a n) as Hi.
  destruct (@gm_read _ _ host_memory a n (mem e)) as [r h]. simpl in *. subst h.
  exists r. split; [by destruct e|]. intros bs ->. by apply Hi.
Qed.

Lemma discard_report_spec ring c :
  0 ≤ head ring → 0 ≤ size ring → reported ring c (discard_report ring c).2.
Proof.
  intros Hh Hs. unfold discard_report, st_bind.
  destruct (on_memory_read (descriptor_table ring) (size ring * DESC_BYTES) c) as (r & -> & Hr).
  destruct r as [table|]; [|constructor]. specialize (Hr table eq_refl). unfold st_lift, chain.
  destruct (split_ring_chain _ _ _ _ _) as [ds|] eqn:Hc; [|constructor]. rsimpl.
  apply split_ring_chain_fields in Hc as [Hf _]; [|subst table; apply peek_bytes, gm_byte_u8|done|done].
  destruct (report_ranges ds _ _ _) as [rs|] eqn:Hrs; [|constructor].
  apply report_ranges_safe in Hrs; [|done].
  destruct (poison_is_zero _) eqn:Hp; [|constructor]. by constructor.
Qed.

Lemma read_index_nonneg a h i h' :
  read_ring_index from_mmio read a h = (Ok i, h') → 0 ≤ i ∧ h' = h.
Proof.
  unfold read_ring_index, st_bind, read.
  pose proof (@gm_read_pure _ _ host_memory h a 2) as Hp.
  pose proof (@gm_read_inv _ _ host_memory h a 2) as Hi.
  destruct (@gm_read _ _ host_memory a 2 h) as [[bs|] h1]; [|done]. simpl in *. subst h1.
  specialize (Hi bs eq_refl). destruct (_ =? _); [|done]. intros [= <- <-]. split; [|done].
  rewrite Hi. apply from_le_nonneg, peek_bytes, gm_byte_u8.
Qed.

Lemma available_inv queue s e ring c' :
  available queue (s, e) = (Ok (Some ring), c') →
  0 ≤ head ring ∧ mmio c'.1 = mmio s ∧
  Transport.queue_addrs_for queue (mmio s) =
    Some (descriptor_table ring, available_ring ring, used_ring ring, size ring) ∧
  reports c'.2 = reports e.
Proof.
  unfold available. destruct (_ =? 0) in |- *; [done|].
  destruct (Transport.queue_addrs_for queue (mmio s)) as [[[[t a] u] n]|] eqn:Hq; [|done].
  destruct (read_split_ring_available _ _ _ _ _ _) as [[r h] nx] eqn:Hr.
  destruct r as [[av hd]|]; [|done]. destruct hd as [hd|]; [|done]. intros [= <- <-]. simpl.
  split; [|done]. unfold read_split_ring_available in Hr. destruct (n =? 0); [done|].
  destruct (ring_address a 2); [|done]. destruct (read_ring_index _ _ _ (mem e)) as [[i|] h1] eqn:H1; [|done].
  destruct (resync_pending_queue_entries _ _ _) as [k nx']. destruct (k =? 0); [done|].
  destruct (ring_address a _); [|done]. unfold st_bind, st_ret in Hr.
  destruct (read_ring_index _ _ _ h1) as [[i'|] h2] eqn:H2; [|done]. simplify_eq/=.
  by apply read_index_nonneg in H2 as [? _].
Qed.

(** ** The invariant *)

Record ctx_ok (c : State * env) : Prop := {
  cx_bus : bus_ok (mmio fresh_state) (mmio c.1) (line c.2);
  cx_next : length (next c.1) = 3%nat ∧ Forall u16 (next c.1);
}.

Definition dev_ok (d : device) : Prop :=
  ∀ s, st d = Some s → ctx_ok (s, world d) ∧ Transport.irq_dirty (mmio s) = false.

Lemma locked_ok {A} (f : stM (State * env) DeviceError A) d :
  (∀ c, ctx_ok c → ctx_ok (f c).2) → dev_ok d → dev_ok (locked f d).2.
Proof.
  intros Hf Hd. unfold locked. destruct (st d) as [s|] eqn:Hs; [|exact Hd].
  destruct (Hd s Hs) as [Hc _]. apply Hf in Hc. destruct (f (s, world d)) as [r [s' e]]. simpl in Hc.
  destruct Hc as [Hb Hn]. cbn [fst snd] in *.
  pose proof (bus_take_irq _ (mmio s') (line e) Hb) as Ht.
  destruct (Transport.take_irq (mmio s')) as [irq t']. destruct Ht as (Hb' & Hd' & _).
  intros s2 [= <-]. cbn [world mmio set_mmio]. split; [|done]. split; [|done]. cbn [fst snd mmio set_mmio].
  destruct irq; exact Hb'.
Qed.

Lemma ctx_ok_mem s e h rp b :
  ctx_ok (s, e) → ctx_ok (s, mkEnv h (line e) rp b).
Proof. intros [Hb Hn]. by split. Qed.

Lemma on_memory_ok {A} (f : stM H DeviceError A) c : ctx_ok c → ctx_ok (on_memory f c).2.
Proof.
  intros Hc. destruct c as [s e]. unfold on_memory. cbn [fst snd]. destruct (f (mem e)).
  by apply ctx_ok_mem.
Qed.

Lemma ctx_ok_next q n s e :
  u16 n → ctx_ok (s, e) → ctx_ok (set_next (<[q := n]> (next s)) s, e).
Proof.
  intros Hu [Hb [Hl Hf]]. split; [done|]. cbn [fst snd next set_next].
  split; [by rewrite length_insert|by apply Forall_insert].
Qed.

Lemma read_index_u16 a h i h' : read_ring_index from_mmio read a h = (Ok i, h') → u16 i.
Proof.
  unfold read_ring_index, st_bind, read. pose proof (@gm_read_inv _ _ host_memory h a 2) as Hi.
  destruct (@gm_read _ _ host_memory a 2 h) as [[bs|] h1]; [|done]. simpl in *.
  specialize (Hi bs eq_refl). destruct (_ =? _); [|done]. intros [= <- <-].
  pose proof (from_le_bound bs) as Hb. rewrite Hi, peek_length in Hb by done.
  rewrite Hi. apply Hb, peek_bytes, gm_byte_u8.
Qed.

Lemma next_of_u16 queue s e : ctx_ok (s, e) → u16 (next_of queue s).
Proof.
  intros [_ [_ Hf]]. unfold next_of. destruct (next s !! Z.to_nat queue) as [n|] eqn:Hn; [|by vm_compute].
  by eapply Forall_lookup_1 in Hf.
Qed.

Lemma available_ok queue c : ctx_ok c → ctx_ok (available queue c).2.
Proof.
  intros Hc. destruct c as [s e]. unfold available. destruct (_ =? 0) in |- *; [done|].
  destruct (Transport.queue_addrs_for queue (mmio s)) as [[[[t a] u] n]|]; [|done].
  pose proof (next_of_u16 queue s e Hc) as Hnx.
  destruct (read_split_ring_available _ _ _ _ _ _) as [[r h] nx] eqn:Hr.
  assert (u16 nx) as Hu.
  { unfold read_split_ring_available in Hr. destruct (n =? 0); [by simplify_eq|].
    destruct (ring_address a 2); [|by simplify_eq].
    destruct (read_ring_index _ _ _ (mem e)) as [[i|] h1] eqn:H1; [|by simplify_eq].
    apply read_index_u16 in H1.
    assert (u16 (resync_pending_queue_entries (next_of queue s) i n).2) as Hu2
      by (unfold resync_pending_queue_entries; by destruct (_ && _)).
    destruct (resync_pending_queue_entries _ _ _) as [k nx']. simpl in Hu2.
    destruct (k =? 0); [by simplify_eq|]. destruct (ring_address a _); [|by simplify_eq].
    by injection Hr as _ <-. }
  assert (ctx_ok (set_next (<[Z.to_nat queue := nx]> (next s)) s, set_mem h e)) as Hok
    by (apply ctx_ok_next; [done|by apply ctx_ok_mem]).
  destruct r as [[? ?]|]; exact Hok.
Qed.

Lemma complete_ok queue ring c : ctx_ok c → ctx_ok (complete queue ring c).2.
Proof.
  intros Hc. unfold complete, st_bind.
  pose proof (on_memory_ok (complete_split_ring_entry from_mmio read write (used_ring ring) (size ring)
    (head ring) 0) c Hc) as Hm.
  destruct (on_memory _ c) as [[[]|] [s e]]; [|exact Hm]. simpl in Hm.
  pose proof (next_of_u16 queue s e Hm) as Hnx.
  apply (ctx_ok_next (Z.to_nat queue) (wrapping_add16 (next_of queue s) 1)) in Hm;
    [|unfold wrapping_add16, wrap16, u16; by apply Z.mod_pos_bound].
  destruct Hm as [Hb Hn]. split; [|done]. cbn [fst snd set_mmio mmio]. by apply bus_signal.
Qed.

Lemma reported_ok ring c c' : reported ring c c' → ctx_ok c → ctx_ok c'.
Proof. intros [|rs _ _] Hc; [done|]. destruct c as [s e]. by apply ctx_ok_mem. Qed.

(** An armed queue has a valid size. *)
Lemma queue_size_bound queue c t a u n :
  ctx_ok c → Transport.queue_addrs_for queue (mmio c.1) = Some (t, a, u, n) →
  0 < n ≤ QUEUE_SIZE ∧ 0 < t ∧ 0 < a ∧ 0 < u.
Proof.
  intros [[Hwf (_ & _ & _ & Hmax & _) _] _]. unfold Transport.queue_addrs_for.
  destruct (Transport.queues _ !! _) as [r|] eqn:Hr; [|done]. simpl.
  destruct (Transport.ready r) eqn:Hready; [|done]. intros [= <- <- <- <-].
  destruct (Transport.wf_queue _ _ _ Hwf Hr) as [Hn _ Hin]. destruct (Hin Hready) as [Hn0 Hf].
  destruct Hn as [|Hv]; [done|]. unfold Transport.valid_queue_size, is_power_of_two in Hv. breflect.
  change (Transport.queue_max (mmio fresh_state)) with QUEUE_SIZE in Hmax.
  unfold Transport.rings in Hf. rewrite !Forall_cons in Hf. unfold Transport.ring_inside in Hf.
  cbn [fst snd] in Hf. split; [lia|]. intuition lia.
Qed.

(** The entry a turn works on and the state after its report. *)
Lemma turn_inv queue c r c' :
  ctx_ok c → turn queue c = (r, c') →
  c' = (available queue c).2 ∨
  ∃ ring c1 c2, available queue c = (Ok (Some ring), c1) ∧ 0 ≤ head ring ∧
    Transport.queue_addrs_for queue (mmio c.1) =
      Some (descriptor_table ring, available_ring ring, used_ring ring, size ring) ∧
    (c2 = c1 ∨ (queue = REPORT ∧ reported ring c1 c2)) ∧ c' = (complete queue ring c2).2.
Proof.
  intros Hc. unfold turn, st_bind at 1. pose proof (available_ok queue c Hc) as Hok.
  destruct (available queue c) as [[[ring|]|] c1] eqn:Hav; try (intros [= <- <-]; by left).
  intros Ht. right. destruct c as [s e]. apply available_inv in Hav as Hi.
  destruct Hi as (Hh & Hm & Hq & _). cbn [fst snd] in *.
  assert (0 ≤ size ring) as Hn.
  { rewrite <- Hm in Hq. apply queue_size_bound in Hq as [? _]; [lia|done]. }
  set (c2 := if queue =? REPORT then (discard_report ring c1).2 else c1).
  exists ring, c1, c2. split; [done|]. split; [done|]. split; [done|]. split.
  - unfold c2. destruct (queue =? REPORT) eqn:Hqr; breflect; [|by left].
    right. split; [done|]. by apply discard_report_spec.
  - unfold st_bind, st_ret in Ht. unfold c2. destruct (queue =? REPORT);
      destruct (complete queue ring _) as [[[]|] c3]; by simplify_eq/=.
Qed.

Lemma turn_ok queue c : ctx_ok c → ctx_ok (turn queue c).2.
Proof.
  intros Hc. destruct (turn queue c) as [r c'] eqn:Ht.
  destruct (turn_inv queue c r c' Hc Ht) as [->|(ring & c1 & c2 & Hav & _ & _ & Hrep & ->)];
    [by apply available_ok|].
  pose proof (available_ok queue c Hc) as H1. rewrite Hav in H1. apply complete_ok.
  destruct Hrep as [->|[_ Hrep]]; [done|]. by eapply reported_ok.
Qed.

Lemma process_ok queue d : dev_ok d → dev_ok (process queue d).2.
Proof.
  intros Hd. unfold process. pose proof (locked_ok (turn queue) d (turn_ok queue) Hd) as Hl.
  by destruct (locked (turn queue) d).
Qed.

Lemma mmio_write_ok addr width value d : 0 ≤ value → dev_ok d → dev_ok (mmio_write addr width value d).2.
Proof.
  intros Hv Hd. apply locked_ok; [|done]. intros [s e] Hc. pose proof Hc as [Hb Hn]. cbn [fst snd] in *.
  destruct (checked_sub addr CONFIG_BASE) as [off|].
  - destruct (slice _ 0 width); [|done]. destruct (config_write _ off _) as [cfg|]; [|done].
    split; [|done]. by apply bus_config.
  - destruct (Transport.write addr width value (mmio s)) as [[out|err] t'] eqn:Hw;
      (eapply bus_write in Hw; [|done..]); [|by split].
    destruct out; split; try done. split; [done|]. by apply (bool_decide_unpack _); vm_compute.
Qed.

Lemma mmio_read_ok addr width d : dev_ok d → dev_ok (mmio_read addr width d).2.
Proof. intros Hd. by apply locked_ok. Qed.

Lemma configure_ok d : dev_ok (configure d).
Proof.
  intros s [= <-]. split; [|done]. split; [|split; [done|by apply (bool_decide_unpack _); vm_compute]].
  split; [|done|done]. apply Transport.fresh_wf. by vm_compute.
Qed.

(** ** Runs of the device

    Register accesses, turns of the worker, resets and [close], and between
    any two of them arbitrary stores by the guest. *)
Inductive bop :=
| BRead (addr width : Z)
| BWrite (addr width value : Z)
| BProcess (queue : Z)
| BReset
| BClose
| BGuest (h : H).

Definition bop_ok (o : bop) : Prop := match o with BWrite _ _ v => 0 ≤ v | _ => True end.

Definition apply_bop (d : device) (o : bop) : device :=
  match o with
  | BRead addr width => (mmio_read addr width d).2
  | BWrite addr width value => (mmio_write addr width value d).2
  | BProcess queue => (process queue d).2
  | BReset => reset d
  | BClose => (close d).2
  | BGuest h => mkDevice (st d) (set_mem h (world d))
  end.

Lemma apply_bop_ok o d : bop_ok o → dev_ok d → dev_ok (apply_bop d o).
Proof.
  intros Ho Hd. destruct o; simpl in *.
  - by apply mmio_read_ok.
  - by apply mmio_write_ok.
  - by apply process_ok.
  - unfold reset. destruct (negb _); [apply configure_ok|done].
  - by intros s.
  - intros s Hs. destruct (Hd s Hs) as [Hc ?]. split; [|done]. by apply ctx_ok_mem.
Qed.

Lemma balloon_run_ok ops d : Forall bop_ok ops → dev_ok d → dev_ok (foldl apply_bop d ops).
Proof.
  intros Hops. revert d. induction Hops as [|o ops Ho _ IH]; intros d Hd; [done|].
  by apply IH, apply_bop_ok.
Qed.

Lemma locked_reports {A} (f : stM (State * env) DeviceError A) d s :
  st d = Some s → reports (world (locked f d).2) = reports (f (s, world d)).2.2.
Proof.
  intros Hs. unfold locked. rewrite Hs. destruct (f (s, world d)) as [r [s' e]].
  by destruct (Transport.take_irq (mmio s')) as [[|] t'].
Qed.

Lemma available_frame queue c :
  mmio (available queue c).2.1 = mmio c.1 ∧ reports (available queue c).2.2 = reports c.2.
Proof.
  destruct c as [s e]. unfold available. destruct (_ =? 0) in |- *; [done|].
  destruct (Transport.queue_addrs_for queue (mmio s)) as [[[[t a] u] n]|]; [|done].
  destruct (read_split_ring_available _ _ _ _ _ _) as [[r h] nx].
  by destruct r as [[? ?]|].
Qed.

Lemma complete_reports queue ring c : reports (complete queue ring c).2.2 = reports c.2.
Proof.
  destruct c as [s e]. unfold complete, st_bind, on_memory. cbn [fst snd].
  by destruct (complete_split_ring_entry _ _ _ _ _ _ _ (mem e)) as [[[]|] h].
Qed.

(** What one turn of the worker hands to the host. *)
Definition reports_of (d : device) (queue : Z) (d' : device) : Prop :=
  reports (world d') = reports (world d) ∨
  ∃ s ring rs, st d = Some s ∧ queue = REPORT ∧
    Transport.queue_addrs_for queue (mmio s) =
      Some (descriptor_table ring, available_ring ring, used_ring ring, size ring) ∧
    poison_is_zero (Transport.config (mmio s)) = true ∧
    safe_report (ring_ranges ring) rs ∧ reports (world d') = reports (world d) ++ [rs].

Lemma process_reports queue d : dev_ok d → reports_of d queue (process queue d).2.
Proof.
  intros Hd. unfold reports_of, process. destruct (st d) as [s|] eqn:Hs;
    [|left; unfold locked; by rewrite Hs].
  destruct (Hd s Hs) as [Hc _]. pose proof (locked_reports (turn queue) d s Hs) as Hl.
  destruct (locked (turn queue) d) as [r d']. cbn [snd] in Hl |- *. rewrite Hl. clear Hl r d'.
  pose proof (available_frame queue (s, world d)) as [Hm Hr].
  destruct (turn queue (s, world d)) as [r c'] eqn:Ht. cbn [snd].
  destruct (turn_inv queue _ r c' Hc Ht) as [->|(ring & c1 & c2 & Hav & _ & Hq & Hrep & ->)]; [by left|].
  rewrite complete_reports. rewrite Hav in Hm, Hr. cbn [fst snd] in *.
  destruct Hrep as [->|[-> [|rs Hp Hsafe]]]; [by left..|]. right.
  exists s, ring, rs. rewrite Hm in Hp. split_and!; try done. simpl. by rewrite Hr.
Qed.

(** Of a safe report the host checks only that its ranges are guest RAM. *)
Lemma safe_report_validated {B} `{!Backing B} (m : GuestMem B) rings rs :
  safe_report rings rs →
  validate_ranges m rs = if forallb (λ r, contains_range m r.1 r.2) rs then Ok tt else Err ReclaimInvalid.
Proof.
  intros [[_ Hc] Hf Hs]. unfold validate_ranges.
  destruct (_ <? zlen rs) eqn:Hl; [breflect; lia|]. clear Hc Hl.
  assert (∀ total, 0 ≤ total → total + sumZ rs.*2 ≤ MAX_RECLAIM_REPORT_BYTES →
    validate_reclaim m rs total = if forallb (λ r, contains_range m r.1 r.2) rs then Ok tt else Err ReclaimInvalid)
    as Hgen; [|by apply Hgen].
  clear Hs. induction Hf as [|[a n] rs (Ha & Hn & Hpa & Hpn & _) Hf IH]; intros total H0 Ht; [done|].
  cbn [validate_reclaim forallb fst snd] in *.
  rewrite fmap_cons, sumZ_cons in Ht. cbn [snd] in Ht.
  assert (0 ≤ sumZ rs.*2) as Hpos.
  { apply sumZ_nonneg, Forall_fmap. eapply Forall_impl; [exact Hf|]. intros r (_ & ? & _). simpl. lia. }
  change PAGE_BYTES with PAGE_SIZE. rewrite Hpa, Hpn. destruct (n =? 0) eqn:E0; [breflect; lia|]. simpl.
  rewrite (proj2 (checked_add64_Some total n (total + n))).
  2:{ split; [done|]. unfold MAX_RECLAIM_REPORT_BYTES, U64_MAX in *. lia. }
  rsimpl. destruct (_ <? total + n) eqn:E1; [breflect; lia|].
  destruct (contains_range m a n); [|done]. apply IH; [lia|lia].
Qed.

Lemma locked_same_reports {A} (f : stM (State * env) DeviceError A) d :
  (∀ c, reports (f c).2.2 = reports c.2) → reports (world (locked f d).2) = reports (world d).
Proof.
  intros Hf. destruct (st d) as [s|] eqn:Hs; [|unfold locked; by rewrite Hs].
  by rewrite (locked_reports f d s Hs), Hf.
Qed.

(** C31. The balloon only ever gives back pages it may give back. After any
    history of register accesses, resets, worker turns and guest stores, the
    host is asked to discard memory only by a turn of the report queue, only
    while the poison value is zero, and only with 1 to 32 page-aligned,
    non-empty ranges of at most 128 MiB together, none wrapping around and
    none touching the descriptor table, the available ring or the used ring of the
    report queue. The device does not look whether the ranges are guest RAM: the host
    does, and no other check of its validation can refuse such a report. So the
    validation accepts the report when all its ranges are guest RAM, and otherwise the
    host refuses it before the first page is discarded. *)
Theorem balloon_reports_safe d0 ops o :
  Forall bop_ok (ops ++ [o]) →
  let d := foldl apply_bop (configure d0) ops in
  reports (world (apply_bop d o)) = reports (world d) ∨
  ∃ s ring rs, o = BProcess REPORT ∧ st d = Some s ∧
    Transport.queue_addrs_for REPORT (mmio s) =
      Some (descriptor_table ring, available_ring ring, used_ring ring, size ring) ∧
    reports (world (apply_bop d o)) = reports (world d) ++ [rs] ∧
    poison_is_zero (Transport.config (mmio s)) = true ∧ safe_report (ring_ranges ring) rs ∧
    ∀ (B : Type) (HB : Backing B) (m : GuestMem B),
      if forallb (λ r, contains_range m r.1 r.2) rs then validate_ranges m rs = Ok tt
      else ∀ (S : Type) host page (discard_page : Z → Z → stM S DiscardError unit) (x : S),
        reclaim host page discard_page m rs x = (Err ReclaimInvalid, x).
Proof.
  intros Hops d. apply Forall_app in Hops as [Hops _].
  assert (dev_ok d) as Hd by (apply balloon_run_ok; [done|apply configure_ok]).
  destruct o as [addr width|addr width v|queue| | |h]; cbn [apply_bop].
  - left. by apply locked_same_reports.
  - left. apply locked_same_reports. intros [s e]. by repeat case_match.
  - destruct (process_reports queue d Hd) as [?|(s & ring & rs & ? & -> & ? & ? & Hs & ?)]; [by left|].
    right. exists s, ring, rs. split_and!; try done. intros B HB m.
    pose proof (safe_report_validated m _ _ Hs) as Hv. destruct (forallb _ rs); [done|].
    intros S host page discard_page x. unfold reclaim. by rewrite Hv.
  - left. unfold reset. by destruct (negb _).
  - by left.
  - by left.
Qed.

(** ** Serving a queue

    The driver's side of a queue: an armed queue of a negotiated device, its
    available and used ring in guest RAM and apart from each other. *)
Record serviceable (queue a u n : Z) (s : State) (h : H) : Prop := {
  sv_version : Z.land (Transport.negotiated (mmio s)) Transport.VIRTIO_F_VERSION_1 ≠ 0;
  sv_queue : ∃ t, Transport.queue_addrs_for queue (mmio s) = Some (t, a, u, n);
  sv_index : 0 ≤ queue < QUEUE_COUNT;
  sv_avail : gm_mapped h a (4 + 2 * n);
  sv_used : gm_mapped h u (4 + 8 * n);
  sv_apart : apart (a, 4 + 2 * n) (u, 4 + 8 * n);
}.

Definition avail_index (a : Z) (h : H) : Z := @word16 H DeviceError host_memory h (a + 2).
Definition used_index (u : Z) (h : H) : Z := @word16 H DeviceError host_memory h (u + 2).

(** The entries the driver published and the device has not completed. *)
Definition backlog (queue a n : Z) (s : State) (h : H) : Z :=
  @pending H DeviceError host_memory h a n (next_of queue s).

(** Memory with the same available ring, used index and mapping. *)
Record same_rings (a u n : Z) (h h' : H) : Prop := {
  sm_avail : ∀ x, a ≤ x < a + (4 + 2 * n) → gm_byte h' x = gm_byte h x;
  sm_mapped : ∀ b k, gm_mapped h' b k ↔ gm_mapped h b k;
}.

Lemma word16_ext (h h' : H) b :
  (∀ x, b ≤ x < b + 2 → gm_byte h' x = gm_byte h x) →
  @word16 H DeviceError host_memory h' b = @word16 H DeviceError host_memory h b.
Proof. intros Hx. unfold word16. f_equal. by apply peek_ext. Qed.

Lemma report_keeps_rings ring c c' a u n t :
  0 ≤ n → reported ring c c' → ring = mkEntry t a u n (head ring) →
  same_rings a u n (mem c.2) (mem c'.2) ∧ used_index u (mem c'.2) = used_index u (mem c.2) ∧
  c'.1 = c.1 ∧ line c'.2 = line c.2.
Proof.
  intros Hn Hrep Hring. destruct Hrep as [|rs _ [_ Hf _]]; [by repeat split|].
  assert (∀ x, (a ≤ x < a + (4 + n * 2) ∨ u ≤ x < u + (4 + n * 8)) → ¬ in_ranges rs x) as Hout.
  { intros x Hx Hin. unfold in_ranges in Hin. apply Exists_exists in Hin as (r & Hr & Hin).
    rewrite Forall_forall in Hf. destruct (Hf r Hr) as (_ & _ & _ & _ & _ & Hap).
    rewrite Hring in Hap. unfold ring_ranges in Hap. rewrite !Forall_cons in Hap. unfold apart in Hap.
    cbn [fst snd available_ring used_ring size] in Hap. intuition lia. }
  cbn [snd host_discard mem]. split; [split|split; [|done]].
  - intros x Hx. apply dh_byte, Hout. lia.
  - intros b k. apply dh_mapped.
  - apply word16_ext. intros x Hx. apply dh_byte, Hout. lia.
Qed.

Lemma available_served queue a u n s e :
  ctx_ok (s, e) → serviceable queue a u n s (mem e) →
  ∃ t, available queue (s, e) =
    if backlog queue a n s (mem e) =? 0
    then (Ok None, (set_next (<[Z.to_nat queue := avail_index a (mem e)]> (next s)) s, e))
    else (Ok (Some (mkEntry t a u n
            (@word16 H DeviceError host_memory (mem e) (a + 4 + 2 * (next_of queue s mod n))))), (s, e)).
Proof.
  intros Hc [Hv [t Hq] Hi Hav _ _]. exists t. unfold available.
  destruct (_ =? 0) eqn:E0 in |- *; [breflect; done|]. rewrite Hq.
  pose proof (queue_size_bound queue (s, e) t a u n Hc Hq) as [Hn _].
  unfold read. rewrite (@read_available_spec H DeviceError host_memory from_mmio (mem e) a n);
    [|unfold QUEUE_SIZE in Hn; lia|exact Hav|by eapply next_of_u16].
  cbv zeta. fold (backlog queue a n s (mem e)). unfold avail_index.
  destruct (backlog queue a n s (mem e) =? 0).
  - by destruct e.
  - destruct Hc as [_ [Hl _]]. unfold next_of. destruct (lookup_lt_is_Some_2 (next s) (Z.to_nat queue)) as [x Hx];
      [cbn [fst] in Hl; unfold QUEUE_COUNT in Hi; lia|].
    rewrite Hx. cbn [default from_option]. rewrite list_insert_id by done. by destruct s, e.
Qed.

Lemma complete_served queue a u n s e ring t :
  0 < n ≤ QUEUE_SIZE → serviceable queue a u n s (mem e) → ring = mkEntry t a u n (head ring) → u32 (head ring) →
  ∃ h', complete queue ring (s, e) =
    (Ok tt, (set_mmio (Transport.signal Transport.INT_USED_BUFFER (mmio s))
               (set_next (<[Z.to_nat queue := wrapping_add16 (next_of queue s) 1]> (next s)) s),
             set_mem h' e)) ∧
    same_rings a u n (mem e) h' ∧ used_index u h' = wrapping_add16 (used_index u (mem e)) 1.
Proof.
  intros Hn [_ _ _ _ Hu Hap] Hring Hh. unfold complete, st_bind, on_memory. cbn [fst snd].
  rewrite Hring. cbn [used_ring size head].
  destruct (@complete_entry_spec H DeviceError host_memory from_mmio (mem e) u n (head ring) 0)
    as (h' & Hc & Hi & _ & _ & Hframe & Hmap); [unfold QUEUE_SIZE in Hn; lia|exact Hu|done|by vm_compute|].
  exists h'. unfold read, write. rewrite Hc. split; [done|]. split; [|exact Hi]. split; [|exact Hmap].
  intros x Hx. unfold apart in Hap. cbn [fst snd] in Hap.
  pose proof (Z.mod_pos_bound (@word16 H DeviceError host_memory (mem e) (u + 2)) n ltac:(lia)).
  apply Hframe; lia.
Qed.

Lemma next_of_insert queue v s e :
  ctx_ok (s, e) → 0 ≤ queue < QUEUE_COUNT →
  next_of queue (set_next (<[Z.to_nat queue := v]> (next s)) s) = v.
Proof.
  intros [_ [Hl _]] Hq. unfold next_of. cbn [next set_next fst] in *.
  rewrite list_lookup_insert_eq; [done|]. unfold QUEUE_COUNT in Hq. lia.
Qed.

(** One turn on a serviceable queue. *)
Record turned (queue a u n : Z) (s : State) (e : env) (s' : State) (e' : env) : Prop := {
  tu_line : line e' = line e;
  tu_rings : same_rings a u n (mem e) (mem e');
  tu_step : if backlog queue a n s (mem e) =? 0
    then next_of queue s' = avail_index a (mem e) ∧ mmio s' = mmio s ∧
         used_index u (mem e') = used_index u (mem e)
    else next_of queue s' = wrapping_add16 (next_of queue s) 1 ∧
         mmio s' = Transport.signal Transport.INT_USED_BUFFER (mmio s) ∧
         used_index u (mem e') = wrapping_add16 (used_index u (mem e)) 1;
}.

Lemma serviceable_mem queue a u n s h h' :
  (∀ b k, gm_mapped h' b k ↔ gm_mapped h b k) → serviceable queue a u n s h → serviceable queue a u n s h'.
Proof. intros Hm [? ? ? ? ? ?]. split; try done; by apply Hm. Qed.

Lemma same_rings_trans a u n h1 h2 h3 :
  same_rings a u n h1 h2 → same_rings a u n h2 h3 → same_rings a u n h1 h3.
Proof.
  intros [H1 M1] [H2 M2]. split.
  - intros x Hx. by rewrite H2, H1.
  - intros b k. by rewrite M2, M1.
Qed.

Lemma turn_served queue a u n s e :
  ctx_ok (s, e) → serviceable queue a u n s (mem e) →
  ∃ s' e', turn queue (s, e) = (Ok (negb (backlog queue a n s (mem e) =? 0)), (s', e')) ∧
    turned queue a u n s e s' e'.
Proof.
  intros Hc Hsv. destruct (available_served queue a u n s e Hc Hsv) as [t Hav].
  unfold turn, st_bind at 1. rewrite Hav. clear Hav.
  destruct (backlog queue a n s (mem e) =? 0) eqn:Hb.
  { eexists _, e. split; [done|]. split; [done|by split|]. rewrite Hb.
    split; [|done]. by eapply next_of_insert; [|apply Hsv]. }
  set (ring := mkEntry _ _ _ _ _).
  assert (u32 (head ring)) as Hh by (pose proof (@word16_u16 H DeviceError host_memory (mem e)
    (a + 4 + 2 * (next_of queue s mod n))); unfold u16, u32 in *; simpl; lia).
  destruct (sv_queue _ _ _ _ _ _ Hsv) as [t' Hq].
  pose proof (queue_size_bound queue (s, e) _ _ _ _ Hc Hq) as [Hn _].
  assert (∃ e2, (if queue =? REPORT then (Ok tt, (discard_report ring (s, e)).2) else (@Ok DeviceError _ tt, (s, e)))
      = (Ok tt, (s, e2)) ∧ same_rings a u n (mem e) (mem e2) ∧
      used_index u (mem e2) = used_index u (mem e) ∧ line e2 = line e) as (e2 & He2 & Hr2 & Hu2 & Hl2).
  { destruct (queue =? REPORT); [|by exists e].
    pose proof (discard_report_spec ring (s, e) ltac:(unfold u32 in Hh; lia) ltac:(simpl; lia)) as Hrep.
    apply (report_keeps_rings _ _ _ a u n t) in Hrep as (Hsr & Hui & Hs1 & Hl); [|lia|done].
    destruct (discard_report ring (s, e)).2 as [s2 e2]. cbn [fst snd] in *. subst s2. by exists e2. }
  destruct (complete_served queue a u n s e2 ring t) as (h' & Hcm & Hr3 & Hu3);
    [done|eapply serviceable_mem; [apply Hr2|done]|done|done|].
  exists (set_mmio (Transport.signal Transport.INT_USED_BUFFER (mmio s))
            (set_next (<[Z.to_nat queue := wrapping_add16 (next_of queue s) 1]> (next s)) s)), (set_mem h' e2).
  split.
  - unfold st_bind, st_ret. rewrite He2, Hcm. done.
  - split; [done|by eapply same_rings_trans|]. rewrite Hb. split.
    + exact (next_of_insert queue _ s e Hc (sv_index _ _ _ _ _ _ Hsv)).
    + split; [done|]. cbn [mem set_mem]. by rewrite Hu3, Hu2.
Qed.

Lemma signal_fields bit t :
  let t' := Transport.signal bit t in
  Transport.queues t' = Transport.queues t ∧ Transport.negotiated t' = Transport.negotiated t ∧
  Transport.dev_status t' = Transport.dev_status t ∧
  (Transport.dev_status t = 15 → Transport.irq_level t' = true).
Proof.
  unfold Transport.signal. destruct (_ =? 0) eqn:E1; cbv zeta.
  - cbn [Transport.dev_status Transport.set_interrupt_status].
    destruct (_ =? 0) eqn:E2 in |- *; cbn [negb].
    + split_and!; try done. cbn. intros Hd. by rewrite Hd in E2.
    + match goal with |- context [Transport.set_irq_level true ?x] =>
        destruct (Transport.set_irq_level_fields true x) as (Hl & _ & Hq & _ & Hg & Hd & _ & _ & Hsd) end.
      destruct Hsd as (_ & _ & Hh & _). unfold Transport.negotiated.
      rewrite Hl, Hq, Hg, Hd, Hh. by split_and!.
  - split_and!; try done. intros Hd. by rewrite Hd in E1.
Qed.

Lemma same_rings_avail a u n h h' :
  0 ≤ n → same_rings a u n h h' → avail_index a h' = avail_index a h.
Proof. intros Hn [Hx _]. apply word16_ext. intros x Hr. apply Hx. lia. Qed.

Lemma backlog_bound queue a n s h : 0 ≤ n → 0 ≤ backlog queue a n s h ≤ n.
Proof.
  intros Hn. unfold backlog, pending. case_match; breflect; [|lia]. split; [|done].
  unfold wrapping_sub16, wrap16. by apply Z.mod_pos_bound.
Qed.

Lemma backlog_step queue a n s s' h h' :
  avail_index a h' = avail_index a h → backlog queue a n s h ≠ 0 → u16 (next_of queue s) →
  next_of queue s' = wrapping_add16 (next_of queue s) 1 →
  backlog queue a n s' h' = backlog queue a n s h - 1.
Proof.
  unfold backlog, pending, avail_index. intros -> Hb Hu ->.
  pose proof (@word16_u16 H DeviceError host_memory h (a + 2)) as Hw.
  set (i := @word16 H DeviceError host_memory h (a + 2)) in *. clearbody i.
  set (x := next_of queue s) in *. clearbody x.
  assert (wrapping_sub16 i (wrapping_add16 x 1) = wrapping_sub16 i x - 1 ∨ wrapping_sub16 i x = 0) as [Hs|Hs].
  { unfold wrapping_sub16, wrapping_add16, wrap16, u16 in *. Z.to_euclidean_division_equations. lia. }
  - rewrite Hs. destruct (wrapping_sub16 i x <=? n) eqn:E1; [|done]. breflect.
    destruct (_ <=? n) eqn:E2 in |- *; [done|]. breflect. lia.
  - rewrite Hs in Hb. by destruct (0 <=? n).
Qed.

(** The turn, seen from outside the lock. *)
Lemma process_served queue a u n d s :
  dev_ok d → st d = Some s → serviceable queue a u n s (mem (world d)) →
  ∃ s' e', process queue d = (negb (backlog queue a n s (mem (world d)) =? 0), mkDevice (Some s') e') ∧
    dev_ok (mkDevice (Some s') e') ∧ serviceable queue a u n s' (mem e') ∧
    avail_index a (mem e') = avail_index a (mem (world d)) ∧
    Transport.dev_status (mmio s') = Transport.dev_status (mmio s) ∧
    if backlog queue a n s (mem (world d)) =? 0
    then next_of queue s' = avail_index a (mem (world d)) ∧
         used_index u (mem e') = used_index u (mem (world d)) ∧ line e' = line (world d)
    else backlog queue a n s' (mem e') = backlog queue a n s (mem (world d)) - 1 ∧
         used_index u (mem e') = wrapping_add16 (used_index u (mem (world d))) 1 ∧
         (Transport.dev_status (mmio s) = 15 → line e' = true).
Proof.
  intros Hd Hs Hsv. destruct (Hd s Hs) as [Hc Hdirty].
  destruct (turn_served queue a u n s (world d) Hc Hsv) as (s1 & e1 & Ht & [Hl Hr Hstep]).
  pose proof (turn_ok queue (s, world d) Hc) as Hc1. rewrite Ht in Hc1. cbn [snd] in Hc1.
  pose proof (process_ok queue d Hd) as Hok. unfold process, locked in Hok |- *. rewrite Hs, Ht in Hok |- *.
  pose proof (bus_take_irq _ (mmio s1) (line e1) (cx_bus _ Hc1)) as Htk.
  destruct (Transport.take_irq (mmio s1)) as [irq t']. cbn [snd] in Hok.
  destruct Htk as (_ & _ & Hline & Hlev & Hqs & _ & Hneg & Hst).
  set (e2 := match irq with Some b => publish_interrupt_asserted b e1 | None => e1 end) in *.
  assert (line e2 = default (line e1) irq ∧ mem e2 = mem e1) as [Hl2 Hm2] by (unfold e2; by destruct irq).
  destruct (sv_queue _ _ _ _ _ _ Hsv) as [t Hq].
  pose proof (queue_size_bound queue (s, world d) _ _ _ _ Hc Hq) as [Hn _].
  pose proof (same_rings_avail a u n _ _ ltac:(lia) Hr) as Hav.
  exists (set_mmio t' s1), e2. split; [done|]. split; [exact Hok|]. rewrite Hm2.
  assert (Transport.queues (mmio s1) = Transport.queues (mmio s) ∧
    Transport.negotiated (mmio s1) = Transport.negotiated (mmio s) ∧
    Transport.dev_status (mmio s1) = Transport.dev_status (mmio s)) as (Eq1 & Eq2 & Eq3).
  { destruct (backlog queue a n s (mem (world d)) =? 0); destruct Hstep as (_ & -> & _); [done|].
    by destruct (signal_fields Transport.INT_USED_BUFFER (mmio s)) as (? & ? & ? & _). }
  split.
  { destruct Hsv as [H1 [t2 H2] H3 H4 H5 H6]. split; cbn [mmio set_mmio]; try done.
    - by rewrite Hneg, Eq2.
    - exists t2. unfold Transport.queue_addrs_for in *. by rewrite Hqs, Eq1.
    - by apply Hr.
    - by apply Hr. }
  split; [done|]. split; [cbn [mmio set_mmio]; congruence|].
  destruct (backlog queue a n s (mem (world d)) =? 0) eqn:Hb; breflect.
  - destruct Hstep as (Hnx & Hmm & Hui). split; [exact Hnx|]. split; [done|].
    rewrite Hl2, Hline, Hlev, Hmm. symmetry. by apply (bus_line _ _ _ (cx_bus _ Hc)).
  - destruct Hstep as (Hnx & Hmm & Hui). split; [|split; [done|]].
    + eapply backlog_step; [done|done|by eapply next_of_u16|exact Hnx].
    + intros H15. rewrite Hl2, Hline, Hlev, Hmm. by apply signal_fields.
Qed.

Lemma drain_served queue a u n d s fuel :
  dev_ok d → st d = Some s → serviceable queue a u n s (mem (world d)) →
  (Z.to_nat (backlog queue a n s (mem (world d))) < fuel)%nat →
  ∃ s' e', drain fuel queue d =
      (Z.to_nat (backlog queue a n s (mem (world d))), mkDevice (Some s') e') ∧
    next_of queue s' = avail_index a (mem (world d)) ∧
    avail_index a (mem e') = avail_index a (mem (world d)) ∧
    used_index u (mem e') =
      wrapping_add16 (used_index u (mem (world d))) (backlog queue a n s (mem (world d))) ∧
    (Transport.dev_status (mmio s) = 15 → backlog queue a n s (mem (world d)) ≠ 0 → line e' = true) ∧
    (backlog queue a n s (mem (world d)) = 0 → line e' = line (world d)).
Proof.
  revert d s. induction fuel as [|fuel IH]; intros d s Hd Hs Hsv Hf; [lia|].
  destruct (process_served queue a u n d s Hd Hs Hsv) as (s1 & e1 & Hp & Hd1 & Hsv1 & Hav & Hst & Hstep).
  cbn [drain]. rewrite Hp. clear Hp.
  destruct (sv_queue _ _ _ _ _ _ Hsv) as [t Hq].
  pose proof (queue_size_bound queue (s, world d) _ _ _ _ (proj1 (Hd s Hs)) Hq) as [Hn _].
  pose proof (backlog_bound queue a n s (mem (world d)) ltac:(lia)) as Hbb.
  set (k := backlog queue a n s (mem (world d))) in *. destruct (k =? 0) eqn:Hk; breflect; cbn [negb].
  - destruct Hstep as (Hnx & Hui & Hl). rewrite Hk. exists s1, e1. split_and!; try done.
    rewrite Hui. unfold wrapping_add16, wrap16. rewrite Z.add_0_r. symmetry. apply Z.mod_small.
    exact (@word16_u16 H DeviceError host_memory (mem (world d)) (u + 2)).
  - destruct Hstep as (Hb1 & Hui & Hl).
    destruct (IH (mkDevice (Some s1) e1) s1) as (s2 & e2 & Hdr & Hnx & Hav2 & Hui2 & Hl2 & Hl3);
      [done|done|done|cbn [world]; lia|]. cbn [world] in *. rewrite Hdr. exists s2, e2.
    split; [f_equal; lia|]. split; [congruence|]. split; [congruence|]. split; [|split; [|done]].
    + rewrite Hui2, Hui, Hb1. unfold wrapping_add16, wrap16. rewrite Zplus_mod_idemp_l. f_equal. lia.
    + intros H15 _. destruct (decide (backlog queue a n s1 (mem e1) = 0)) as [H0|H0].
      * rewrite Hl3 by done. by apply Hl.
      * apply Hl2; [congruence|done].
Qed.

(** Every published entry is completed, and nothing else: on a queue the
    driver set up with separate rings in guest RAM, the worker's loop stops by
    itself after exactly as many turns as entries were pending, the used index
    has advanced by that number, the device has caught up with the driver, and
    once the driver is ready the interrupt line is high if anything was
    completed. Malformed reports are completed like any other entry. *)
Theorem balloon_drains d0 ops queue a u n d s fuel :
  Forall bop_ok ops → d = foldl apply_bop (configure d0) ops → st d = Some s →
  serviceable queue a u n s (mem (world d)) →
  (Z.to_nat (backlog queue a n s (mem (world d))) < fuel)%nat →
  ∃ s' e', drain fuel queue d =
      (Z.to_nat (backlog queue a n s (mem (world d))), mkDevice (Some s') e') ∧
    next_of queue s' = avail_index a (mem (world d)) ∧
    avail_index a (mem e') = avail_index a (mem (world d)) ∧
    used_index u (mem e') =
      wrapping_add16 (used_index u (mem (world d))) (backlog queue a n s (mem (world d))) ∧
    (Transport.dev_status (mmio s) = 15 → backlog queue a n s (mem (world d)) ≠ 0 → line e' = true).
Proof.
  intros Hops -> Hs Hsv Hf.
  destruct (drain_served queue a u n _ s fuel (balloon_run_ok ops _ Hops (configure_ok d0)) Hs Hsv Hf)
    as (s' & e' & H1 & H2 & H3 & H4 & H5 & _).
  by exists s', e'.
Qed.
End Balloon.

(** ** A host that zeroes what it discards *)
Section Zeroing.
Context {B : Type} `{!Backing B}.

Definition zero_range (m : GuestMem B) (r : Z * Z) : GuestMem B :=
  (bounded_write r.1 (replicate (Z.to_nat r.2) 0) m).2.

Lemma zero_range_spec m r :
  (∀ x, ¬ (r.1 ≤ x < r.1 + r.2) → b_byte (backing (zero_range m r)) x = b_byte (backing m) x) ∧
  (∀ a n, contains_range (zero_range m r) a n = contains_range m a n).
Proof.
  unfold zero_range. destruct (bounded_write r.1 _ m) as [[[]|e] m'] eqn:Hw; cbn [snd].
  - apply bounded_write_inv in Hw; [|by apply Forall_replicate]. split.
    + intros x Hx. destruct Hw as (_ & _ & _ & ->). simpl. apply patch_out.
      unfold zlen. rewrite length_replicate. lia.
    + intros a n. by eapply stored_contains.
  - apply bounded_write_error in Hw as ->. done.
Qed.

#[global] Instance zeroing_host : DiscardHost (GuestMem B) gm_mapped gm_byte.
Proof.
  refine {| dh_discard rs m := foldl zero_range m rs |}.
  - intros rs. induction rs as [|r rs IH]; intros m a n; [done|].
    etransitivity; [apply IH|]. cbn [gm_mapped bounded_memory]. unfold bounded_mapped.
    by rewrite (proj2 (zero_range_spec m r)).
  - intros rs. induction rs as [|r rs IH]; intros m x Hx; [done|]. unfold in_ranges in Hx.
    rewrite Exists_cons in Hx. etransitivity; [apply IH; unfold in_ranges; tauto|].
    apply (zero_range_spec m r). tauto.
Defined.
End Zeroing.

(** ** A driver that reports one page *)

(** Descriptor 0 of the table at 0x4000 names the page at 0x1000; the
    available ring is at 0x4100, the used ring at 0x4200. *)
Definition demo_memory : GuestMem Flat.t :=
  (bounded_write 0x1000 [7; 7] (bounded_write 0x4102 (le_bytes 2 1)
    (bounded_write 0x4000 (le_bytes 8 0x1000 ++ le_bytes 4 0x1000 ++ le_bytes 2 2 ++ le_bytes 2 0)
       flat_memory).2).2).2.

Definition demo_env : env (H := GuestMem Flat.t) (W := bool) :=
  mkEnv demo_memory false [] Doorbell.new.
Definition demo_start : device (H := GuestMem Flat.t) (W := bool) := mkDevice None demo_env.

Definition demo_ops : list (bop (H := GuestMem Flat.t)) :=
  [BWrite 0x70 4 1; BWrite 0x70 4 3; BWrite 0x24 4 1; BWrite 0x20 4 1; BWrite 0x70 4 11] ++
  ((λ w, BWrite w.1 4 w.2) <$> Transport.configure 2 4 0x4000 0x4100 0x4200) ++ [BWrite 0x70 4 15].

Lemma balloon_demo_ops_ok : Forall bop_ok (demo_ops ++ [BProcess REPORT]).
Proof. repeat (apply Forall_cons; split; [by vm_compute|]). done. Qed.

Local Abbreviation demo_device := (foldl (apply_bop 0x5000) (configure 0x5000 demo_start) demo_ops).

Lemma demo_reports :
  reports (world demo_device) = [] ∧
  reports (world (apply_bop 0x5000 demo_device (BProcess REPORT))) = [[(0x1000, 0x1000)]].
Proof. split; vm_compute; reflexivity. Qed.

Lemma balloon_reports_safe_witness :
  ∃ ring, safe_report (ring_ranges ring) [(0x1000, 0x1000)] ∧
    reports (world (apply_bop 0x5000 demo_device (BProcess REPORT))) = [[(0x1000, 0x1000)]].
Proof.
  destruct demo_reports as [H0 H1].
  destruct (balloon_reports_safe 0x5000 demo_start demo_ops (BProcess REPORT) balloon_demo_ops_ok)
    as [Hsame|(s & ring & rs & _ & _ & _ & Hr & _ & Hsafe & _)].
  - rewrite H0, H1 in Hsame. discriminate.
  - rewrite H0, H1 in Hr. injection Hr as Hr. rewrite <- Hr in Hsafe. exists ring. by split.
Defined.

Definition demo_state : State := default (mkState (Transport.new 0 0 0 0 []) []) (st demo_device).

Lemma demo_st : st demo_device = Some demo_state.
Proof. vm_compute. reflexivity. Qed.

Lemma demo_serviceable : serviceable REPORT 0x4100 0x4200 4 demo_state (mem (world demo_device)).
Proof.
  split.
  - vm_compute. discriminate.
  - exists 0x4000. vm_compute. reflexivity.
  - vm_compute. split; [discriminate|reflexivity].
  - vm_compute. split_and!; [discriminate|reflexivity|reflexivity].
  - vm_compute. split_and!; [discriminate|reflexivity|reflexivity].
  - left. vm_compute. discriminate.
Qed.

Lemma demo_facts :
  backlog REPORT 0x4100 4 demo_state (mem (world demo_device)) = 1 ∧
  used_index 0x4200 (mem (world demo_device)) = 0 ∧ Transport.dev_status (mmio demo_state) = 15.
Proof. split_and!; vm_compute; reflexivity. Qed.

Lemma balloon_drains_witness :
  ∃ s' e', drain 2 REPORT demo_device = (1%nat, mkDevice (Some s') e') ∧
    used_index 0x4200 (mem e') = 1 ∧ line e' = true.
Proof.
  destruct demo_facts as (Hb & Hu0 & H15).
  destruct (balloon_drains 0x5000 demo_start demo_ops REPORT 0x4100 0x4200 4 demo_device demo_state 2)
    as (s' & e' & Hd & _ & _ & Hu & Hl).
  - exact (proj1 (proj1 (Forall_app _ _ _) balloon_demo_ops_ok)).
  - reflexivity.
  - exact demo_st.
  - exact demo_serviceable.
  - rewrite Hb. vm_compute. lia.
  - rewrite Hb in Hd, Hu, Hl. rewrite Hu0 in Hu. exists s', e'.
    split; [exact Hd|]. split; [exact Hu|]. apply Hl; [exact H15|discriminate].
Defined.

End Balloon.
