(* ===== verification/Block.v ===== *)
(** * The block device

    [components/block/src/lib.rs]: requests on the virtio queue, executed
    against the host's disk. The disk calls are asynchronous: while one is
    pending the guest may store to its memory, write registers, reset or
    close the device. The model makes that explicit: at every [await] the
    next batch of the schedule [sched] runs, and the epoch checks of the
    source decide what the resumed request may still do.

    [terra:host/disk] is outside the component: its calls are the parameters
    of the section [Block]. The trace [log] records every store to guest
    memory and every disk call (reads, writes, discards, and syncs for a flush or the
    close), with whether the request that made it was current, or for the close
    whether the device is closed; it has no influence on the device. *)

From S2P Require Import Prelude Limits MemoryApi HostMemory SplitRing GuestCopy Mmio Doorbell Device.
Local Open Scope Z_scope.

Module Block.
Import Device.

Definition SECTOR_BYTES : Z := 512.
Definition STATUS_OK : Z := 0.
Definition STATUS_IOERR : Z := 1.
Definition STATUS_UNSUPP : Z := 2.
Definition T_IN : Z := 0.
Definition T_OUT : Z := 1.
Definition T_FLUSH : Z := 4.
Definition T_DISCARD : Z := 11.
Definition VIRTIO_BLK_F_SIZE_MAX : Z := 1.
Definition VIRTIO_BLK_F_SEG_MAX : Z := 2.
Definition VIRTIO_BLK_F_RO : Z := 5.
Definition VIRTIO_BLK_F_FLUSH : Z := 9.
Definition VIRTIO_BLK_F_DISCARD : Z := 13.
Definition CONFIG_SIZE_MAX : Z := 8.
Definition CONFIG_SEG_MAX : Z := 12.
Definition CONFIG_MAX_DISCARD_SECTORS : Z := 36.
Definition CONFIG_MAX_DISCARD_SEG : Z := 40.
Definition CONFIG_DISCARD_SECTOR_ALIGNMENT : Z := 44.
Definition CONFIG_BYTES : Z := 48.
Definition MAX_SINGLE : Z := MAX_SINGLE_GUEST_COPY_BYTES.
Definition MAX_TOTAL : Z := MAX_BATCH_GUEST_COPY_BYTES.
Definition MAX_DISCARD : Z := MAX_GUEST_DISCARD_BYTES.
Definition MAX_RANGES : Z := 16.
Definition DISCARD_BYTES : Z := 16.
Definition DISCARD_SECTOR_ALIGNMENT : Z := 1.

(** [copy_from_slice] at an offset. *)
Definition put_at (i : Z) (v l : list Z) : list Z :=
  take (Z.to_nat i) l ++ v ++ drop (Z.to_nat i + length v) l.

(** [u32::try_from] *)
Definition try_u32 (z : Z) : result DeviceError Z :=
  if z <=? U32_MAX then Ok z else Err TooLarge.

Definition build_block_configuration (capacity : Z) (readonly : bool)
  : result DeviceError (Z * list Z) :=
  let config := replicate (Z.to_nat CONFIG_BYTES) 0 in
  let config := put_at 0 (le_bytes 8 (capacity / SECTOR_BYTES)) config in
  size_max ← try_u32 MAX_SINGLE;
  let config := put_at CONFIG_SIZE_MAX (le_bytes 4 size_max) config in
  seg_max ← try_u32 (MAX_TOTAL / MAX_SINGLE);
  let config := put_at CONFIG_SEG_MAX (le_bytes 4 seg_max) config in
  let features := Z.lor (Z.lor (Z.lor (Z.shiftl 1 VIRTIO_BLK_F_SIZE_MAX)
                    (Z.shiftl 1 VIRTIO_BLK_F_SEG_MAX)) (Z.shiftl 1 VIRTIO_BLK_F_FLUSH))
                    Transport.VIRTIO_F_VERSION_1 in
  if readonly then Ok (Z.lor features (Z.shiftl 1 VIRTIO_BLK_F_RO), config) else
  let features := Z.lor features (Z.shiftl 1 VIRTIO_BLK_F_DISCARD) in
  sectors ← try_u32 (MAX_DISCARD / SECTOR_BYTES);
  let config := put_at CONFIG_MAX_DISCARD_SECTORS (le_bytes 4 sectors) config in
  let config := put_at CONFIG_MAX_DISCARD_SEG (le_bytes 4 1) config in
  Ok (features, put_at CONFIG_DISCARD_SECTOR_ALIGNMENT (le_bytes 4 DISCARD_SECTOR_ALIGNMENT) config).

Definition sector_start (sector total capacity : Z) : option Z :=
  start ← checked_mul64 sector SECTOR_BYTES;
  e ← checked_add64 start total;
  if (total =? 0) || negb (is_multiple_of total SECTOR_BYTES) || (capacity <? e)
  then None else Some start.

Definition parse_discard_range (bs : list Z) (capacity : Z) : result Z (Z * Z) :=
  if negb (zlen bs =? DISCARD_BYTES) then Err STATUS_IOERR else
  let sector := from_le (take 8 bs) in
  let sectors := from_le (take 4 (drop 8 bs)) in
  let flags := from_le (drop 12 bs) in
  if negb (flags =? 0) then Err STATUS_UNSUPP else
  if MAX_DISCARD / SECTOR_BYTES <? sectors then Err STATUS_IOERR else
  len ← ok_or STATUS_IOERR (checked_mul64 sectors SECTOR_BYTES);
  offset ← ok_or STATUS_IOERR (sector_start sector len capacity);
  Ok (offset, sectors * SECTOR_BYTES).

Definition status_tail (chain : list SplitRingDescriptor) : option Z :=
  if 2 <=? zlen chain then
    status ← last chain;
    if (d_len status =? 1) && negb (Z.land (d_flags status) SPLIT_RING_DESC_F_WRITE =? 0)
    then Some (d_addr status) else None
  else None.

Record TransportState := mkTransportState {
  transport : Transport.MmioTransport;
  avail : Z;
}.

(** What the trace records; [current] is [is_current] of the request. *)
Inductive event :=
| EStore (current : bool) (addr : Z) (bs : list Z)
| EReadAt (current : bool) (offset len capacity : Z)
| EWriteAt (current : bool) (offset len capacity : Z)
| EDiscard (current : bool) (offset len capacity : Z)
| EFlush (current : bool)
| ECloseSync (closed : bool).

Section Block.
Context {H E D W : Type} `{GM : !GuestMemory H E} `{!AtomicWaker W}.
(** The host's disk: capacity, and calls with whether they succeeded. *)
Context (disk_capacity : D → Z) (read_at : Z → Z → D → option (list Z))
  (write_at : Z → list Z → D → bool * D) (disk_sync : D → bool * D)
  (disk_discard : Z → Z → D → bool * D).
(** [usize] on the component's target, its allocator, the RAM limit. *)
Context (usize_max : Z) (try_reserve : Z → bool) (address_limit : Z).

(** What the guest can do while a disk call is pending. *)
Inductive action :=
| AWrite (addr width value : Z)
| AReset
| AClose
| AGuest (h : H).

Record world := mkWorld {
  mem : H;
  disk : D;
  line : bool;
  bell : Doorbell.t W;
  epoch : Z;
  st : option TransportState;
  sched : list (list action);
  log : list event;
}.

Definition set_mem x w := mkWorld x (disk w) (line w) (bell w) (epoch w) (st w) (sched w) (log w).
Definition set_disk x w := mkWorld (mem w) x (line w) (bell w) (epoch w) (st w) (sched w) (log w).
Definition set_line x w := mkWorld (mem w) (disk w) x (bell w) (epoch w) (st w) (sched w) (log w).
Definition set_bell x w := mkWorld (mem w) (disk w) (line w) x (epoch w) (st w) (sched w) (log w).
Definition set_epoch x w := mkWorld (mem w) (disk w) (line w) (bell w) x (st w) (sched w) (log w).
Definition set_st x w := mkWorld (mem w) (disk w) (line w) (bell w) (epoch w) x (sched w) (log w).
Definition set_sched x w := mkWorld (mem w) (disk w) (line w) (bell w) (epoch w) (st w) x (log w).
Definition add_log x w :=
  mkWorld (mem w) (disk w) (line w) (bell w) (epoch w) (st w) (sched w) (log w ++ x).

(** [EPOCH.fetch_add(1)] *)
Definition bump_epoch (w : world) : world := set_epoch ((epoch w + 1) mod 2 ^ 64) w.

Definition is_current (ep : Z) (w : world) : bool :=
  negb (Doorbell.is_closed (bell w)) && (ep =? epoch w).

(** The mutex around the transport. *)
Definition with_transport {A} (f : stM TransportState DeviceError A) : stM world DeviceError A :=
  λ w,
  match st w with
  | None => (Err NotReady, w)
  | Some s =>
    let '(result, s) := f s in
    let '(irq, t) := Transport.take_irq (transport s) in
    let w := set_st (Some (mkTransportState t (avail s))) w in
    (result, match irq with Some asserted => set_line asserted w | None => w end)
  end.

(** ** Registers, reset and close *)

Definition mmio_read (addr width : Z) : stM world DeviceError Z :=
  with_transport (λ s, (map_err from_mmio (Transport.read addr width (transport s)), s)).

Definition mmio_write (addr width value : Z) : stM world DeviceError unit :=
  (outcome <- with_transport (λ s,
     match Transport.write addr width value (transport s) with
     | (Err e, t) => (Err (from_mmio e), mkTransportState t (avail s))
     | (Ok outcome, t) =>
       (Ok outcome, mkTransportState t
          (match outcome with Transport.Reset => 0 | _ => avail s end))
     end);;
   λ w, match outcome with
        | Transport.NoOutcome => (Ok tt, w)
        | Transport.QueueNotify _ => (Ok tt, set_bell (Doorbell.ring 1 (bell w)).1 w)
        | Transport.Reset =>
          let w := bump_epoch w in (Ok tt, set_bell (Doorbell.clear (bell w)) w)
        end)%st.

Definition reset (w : world) : world :=
  let w := bump_epoch w in
  let w := set_bell (Doorbell.clear (bell w)) w in
  (with_transport (λ s,
     match Transport.write 0x070 4 0 (transport s) with
     | (Err e, t) => (Err (from_mmio e), mkTransportState t (avail s))
     | (Ok _, t) => (Ok tt, mkTransportState t 0)
     end) w).2.

Definition close : stM world DeviceError unit :=
  λ w,
  let w := set_bell (Doorbell.close (bell w)).2.1 w in
  let w := reset w in
  let w := add_log [ECloseSync (Doorbell.is_closed (bell w))] w in
  let '(ok, d) := disk_sync (disk w) in
  (if ok : bool then Ok tt else Err Io, set_disk d w).

Definition act (w : world) (a : action) : world :=
  match a with
  | AWrite addr width value => (mmio_write addr width value w).2
  | AReset => reset w
  | AClose => (close w).2
  | AGuest h => set_mem h w
  end.

(** An [await]: the next batch of the schedule runs. *)
Definition await (w : world) : world :=
  match sched w with
  | [] => w
  | batch :: rest => foldl act (set_sched rest w) batch
  end.

(** ** Guest memory and the disk *)

(** [memory::read(..).map_err(|_| err)] *)
Definition host_read {F} (err : F) (a n : Z) : stM world F (list Z) :=
  λ w, let '(r, h) := gm_read a n (mem w) in (map_err (λ _, err) r, set_mem h w).

(** [memory::write(..).map_err(|_| err)], on behalf of request epoch [ep]. *)
Definition host_write {F} (ep : Z) (err : F) (a : Z) (bs : list Z) : stM world F unit :=
  λ w, let w := add_log [EStore (is_current ep w) a bs] w in
       let '(r, h) := gm_write a bs (mem w) in (map_err (λ _, err) r, set_mem h w).

Definition read_guest_memory (ranges : list (Z * Z)) : stM world DeviceError (list Z) :=
  λ w, let '(r, h) := @read_guest_ranges H DeviceError host_memory from_copy usize_max try_reserve
                        ranges (mem w) in (r, set_mem h w).

Definition write_guest_memory (ep : Z) (ranges : list (Z * list Z)) : stM world DeviceError unit :=
  λ w, let w := add_log ((λ r, EStore (is_current ep w) r.1 r.2) <$> ranges) w in
       let '(r, h) := @GuestCopy.write_guest_ranges H DeviceError host_memory from_copy usize_max
                        ranges (mem w) in (r, set_mem h w).

Definition disk_read_at (ep offset len : Z) (w : world) : option (list Z) * world :=
  let w := add_log [EReadAt (is_current ep w) offset len (disk_capacity (disk w))] w in
  (read_at offset len (disk w), await w).

Definition disk_write_at (ep offset : Z) (bs : list Z) (w : world) : bool * world :=
  let w := add_log [EWriteAt (is_current ep w) offset (zlen bs) (disk_capacity (disk w))] w in
  let '(ok, d) := write_at offset bs (disk w) in (ok, await (set_disk d w)).

Definition disk_flush (ep : Z) (w : world) : bool * world :=
  let w := add_log [EFlush (is_current ep w)] w in
  let '(ok, d) := disk_sync (disk w) in (ok, await (set_disk d w)).

Definition disk_discard_at (ep offset len : Z) (w : world) : bool * world :=
  let w := add_log [EDiscard (is_current ep w) offset len (disk_capacity (disk w))] w in
  let '(ok, d) := disk_discard offset len (disk w) in (ok, await (set_disk d w)).

(** ** Requests *)

Definition write_status (status_addr status ep : Z) (w : world) : option Z * world :=
  if negb (is_current ep w) then (None, w) else
  match host_write ep tt status_addr [status] w with
  | (Ok _, w) => (Some status, w)
  | (Err _, w) => (None, w)
  end.

(** [write_status(..).unwrap_or(STATUS_IOERR)] *)
Definition final_status (status_addr status ep : Z) (w : world) : Z * world :=
  let '(o, w) := write_status status_addr status ep w in (default STATUS_IOERR o, w).

Definition read_guest_payload (data : list (Z * Z)) : stM world DeviceError (list Z) :=
  read_guest_memory (List.filter (λ r, negb (r.2 =? 0)) data).

(** The chunks of [bytes] for the ranges in order. *)
Fixpoint split_ranges (ranges : list (Z * Z)) (bs : list Z) : result DeviceError (list (Z * list Z)) :=
  match ranges with
  | [] => Ok []
  | (a, n) :: ranges =>
    if usize_max <? n then Err TooLarge else
    if zlen bs <? n then Err BadLen else
    rest ← split_ranges ranges (drop (Z.to_nat n) bs);
    Ok ((a, take (Z.to_nat n) bs) :: rest)
  end.

Definition write_guest_ranges (ranges : list (Z * Z)) (bs : list Z) (ep : Z)
  : stM world DeviceError unit :=
  λ w,
  match split_ranges (List.filter (λ r, negb (r.2 =? 0)) ranges) bs with
  | Err e => (Err e, w)
  | Ok writes => if negb (is_current ep w) then (Err NotReady, w) else write_guest_memory ep writes w
  end.

Definition request_type (header : SplitRingDescriptor) : stM world DeviceError (Z * Z) :=
  if (d_len header <? 16) || negb (Z.land (d_flags header) SPLIT_RING_DESC_F_WRITE =? 0)
  then st_err BadLen else
  (bs <- host_read BadLen (d_addr header) 16;;
   st_ret (from_le (take 4 bs), from_le (take 8 (drop 8 bs))))%st.

Definition ioerr_completion (status_addr ep : Z) : stM world DeviceError Z :=
  λ w, match write_status status_addr STATUS_IOERR ep w with
       | (None, w) => (Err NotReady, w)
       | (Some _, w) => (Ok 1, w)
       end.

Definition execute_discard (data : list (Z * Z)) (capacity ep : Z) : stM world Z unit :=
  match data with
  | [(a, n)] =>
    if negb (n =? DISCARD_BYTES) then st_err STATUS_IOERR else
    (bs <- host_read STATUS_IOERR a DISCARD_BYTES;;
     p <- st_lift (parse_discard_range bs capacity);;
     λ w, let '(ok, w) := disk_discard_at ep p.1 p.2 w in
          (if ok : bool then Ok tt else Err STATUS_IOERR, w))%st
  | _ => st_err STATUS_IOERR
  end.

Definition execute (req_type sector : Z) (data : list (Z * Z)) (total status_addr ep : Z)
    (w : world) : Z * world :=
  if negb (is_current ep w) then (STATUS_IOERR, w) else
  let capacity := disk_capacity (disk w) in
  let fail := final_status status_addr STATUS_IOERR ep in
  if req_type =? T_IN then
    match sector_start sector total capacity with
    | None => fail w
    | Some disk_offset =>
      match disk_read_at ep disk_offset total w with
      | (None, w) => fail w
      | (Some bs, w) =>
        if negb (zlen bs =? total) then fail w else
        match write_guest_ranges data bs ep w with
        | (Err _, w) => fail w
        | (Ok _, w) => final_status status_addr STATUS_OK ep w
        end
      end
    end
  else if req_type =? T_OUT then
    match sector_start sector total capacity with
    | None => fail w
    | Some disk_offset =>
      match read_guest_payload data w with
      | (Err _, w) => fail w
      | (Ok bs, w) =>
        if negb (is_current ep w) then (STATUS_IOERR, w) else
        match disk_write_at ep disk_offset bs w with
        | (false, w) => fail w
        | (true, w) => final_status status_addr STATUS_OK ep w
        end
      end
    end
  else if req_type =? T_FLUSH then
    if negb (sector =? 0) || negb (total =? 0) then fail w else
    let '(ok, w) := disk_flush ep w in
    final_status status_addr (if ok then STATUS_OK else STATUS_IOERR) ep w
  else if req_type =? T_DISCARD then
    let '(r, w) := execute_discard data capacity ep w in
    final_status status_addr (match r with Ok _ => STATUS_OK | Err status => status end) ep w
  else final_status status_addr STATUS_UNSUPP ep w.

(** The data descriptors: [None] for the ones a request may not have. *)
Fixpoint collect_data (writable_data : bool) (descs : list SplitRingDescriptor) (total : Z)
    (data : list (Z * Z)) : option (list (Z * Z) * Z) :=
  match descs with
  | [] => Some (data, total)
  | d :: descs =>
    if negb (eqb (negb (Z.land (d_flags d) SPLIT_RING_DESC_F_WRITE =? 0)) writable_data)
       || (MAX_SINGLE <? d_len d) then None else
    match checked_add64 total (d_len d) with
    | None => None
    | Some total => if MAX_TOTAL <? total then None
                    else collect_data writable_data descs total (data ++ [(d_addr d, d_len d)])
    end
  end.

(** [chain[1..chain.len() - 1]] *)
Definition middle {A} (l : list A) : list A := take (length l - 2) (drop 1 l).

Definition execute_chain (head desc_table queue_size ep : Z) : stM world DeviceError Z :=
  λ w,
  if negb (is_current ep w) then (Err NotReady, w) else
  if (queue_size =? 0) || (256 <? queue_size) || negb (is_power_of_two queue_size)
     || (queue_size <=? head) then (Err BadQueue, w) else
  (table <- host_read BadLen desc_table (queue_size * SPLIT_RING_DESCRIPTOR_BYTES);;
   chain <- st_lift (map_err from_ring (split_ring_chain table head queue_size
              (Z.to_nat (MAX_RANGES + 2)) (Z.lor SPLIT_RING_DESC_F_NEXT SPLIT_RING_DESC_F_WRITE)));;
   match status_tail chain, chain with
   | Some status_addr, header :: _ =>
     host_read BadLen status_addr 1;;;
     λ w,
     match request_type header w with
     | (Err _, w) => ioerr_completion status_addr ep w
     | (Ok (req_type, sector), w) =>
       let writable_data := negb ((req_type =? T_OUT) || (req_type =? T_DISCARD)) in
       match collect_data writable_data (middle chain) 0 [] with
       | None => ioerr_completion status_addr ep w
       | Some (data, total) =>
         let '(status, w) := execute req_type sector data total status_addr ep w in
         if negb (is_current ep w) then (Err NotReady, w) else
         let payload := if (req_type =? T_IN) && (status =? STATUS_OK) then total else 0 in
         ((n ← ok_or TooLarge (checked_add64 payload 1); try_u32 n), w)
       end
     end
   | _, _ => st_err BadLen
   end)%st w.

Definition process_pending : stM world DeviceError bool :=
  λ w,
  if Doorbell.is_closed (bell w) then (Ok false, w) else
  let ep := epoch w in
  match with_transport (λ s,
          (q ← ok_or NotReady (Transport.queue_addrs_for 0 (transport s)); Ok (q, avail s), s)) w with
  | (Err NotReady, w) => (Ok false, w)
  | (Err e, w) => (Err e, w)
  | (Ok (desc, avail_ring, used, size, next), w) =>
    let '(r, h, next) := read_split_ring_available from_mmio
      (λ a n h, let '(r, h) := gm_read a n h in (map_err (λ _, BadLen) r, h))
      avail_ring size next (mem w) in
    let w := set_mem h w in
    match r with
    | Err _ => (Ok false, w)
    | Ok (_, None) =>
      if negb (is_current ep w) then (Ok false, w) else
      (with_transport (λ s, (Ok tt, mkTransportState (transport s) next));;; st_ret false)%st w
    | Ok (available, Some head) =>
      let '(r, w) := execute_chain head desc size ep w in
      match (match r with
             | Ok used_len => inl used_len
             | Err NotReady => inr (Ok false)
             | Err BadLen | Err BadQueue | Err TooLarge => inl 0
             | Err e => inr (Err e)
             end) with
      | inr r => (r, w)
      | inl used_len =>
        if negb (is_current ep w) then (Ok false, w) else
        match complete_split_ring_entry from_mmio (host_read BadLen) (host_write ep BadLen)
                used size head used_len w with
        | (Err _, w) => (Ok false, w)
        | (Ok _, w) =>
          let next := wrapping_add16 next 1 in
          let current := is_current ep w in
          match with_transport (λ s,
                  if negb current then (Err NotReady, s) else
                  (Ok tt, mkTransportState (Transport.signal Transport.INT_USED_BUFFER (transport s)) next)) w with
          | (Ok _, w) => (Ok (negb (next =? available)), w)
          | (Err NotReady, w) => (Ok false, w)
          | (Err e, w) => (Err e, w)
          end
        end
      end
    end
  end.

Definition configure (readonly : bool) : stM world DeviceError unit :=
  λ w,
  if Doorbell.is_closed (bell w) then (Err NotReady, w) else
  let w := bump_epoch w in
  let w := set_bell (Doorbell.clear (bell w)) w in
  match build_block_configuration (disk_capacity (disk w)) readonly with
  | Err e => (Err e, w)
  | Ok (features, config) =>
    (Ok tt, set_st (Some (mkTransportState
      (Transport.new address_limit 2 features 256 config) 0)) (set_line false w))
  end.

(** [while process_pending().await? { yield }], with at most [n] turns; the
    error ends [run]. *)
Fixpoint pump (n : nat) (w : world) : result DeviceError unit * world :=
  match n with
  | O => (Ok tt, w)
  | S n =>
    match process_pending w with
    | (Ok true, w) => pump n (await w)
    | (Ok false, w) => (Ok tt, w)
    | (Err e, w) => (Err e, w)
    end
  end.

(** ** What a request may do *)

(** A disk range: whole sectors inside the disk. *)
Definition within_disk (offset len capacity limit : Z) : Prop :=
  0 ≤ offset ∧ 0 < len ≤ limit ∧ offset mod SECTOR_BYTES = 0 ∧ len mod SECTOR_BYTES = 0 ∧
  offset + len ≤ capacity.

Definition event_ok (e : event) : Prop :=
  match e with
  | EStore current _ _ => current = true
  | EReadAt current offset len capacity | EWriteAt current offset len capacity =>
    current = true ∧ within_disk offset len capacity MAX_TOTAL
  | EDiscard current offset len capacity =>
    current = true ∧ within_disk offset len capacity MAX_DISCARD
  | EFlush current => current = true
  | ECloseSync closed => closed = true
  end.

(** [w'] follows [w] with only permitted events in between. *)
Definition emits (w w' : world) : Prop := ∃ evs, log w' = log w ++ evs ∧ Forall event_ok evs.

#[local] Instance emits_preorder : PreOrder emits.
Proof.
  split.
  - intros w. exists []. by rewrite app_nil_r.
  - intros w1 w2 w3 (e1 & H1 & F1) (e2 & H2 & F2). exists (e1 ++ e2).
    rewrite H2, H1, <- app_assoc. split; [done|]. by apply Forall_app.
Qed.

Lemma emits_same w w' : log w' = log w → emits w w'.
Proof. intros Hl. exists []. by rewrite app_nil_r. Qed.

Lemma emits_one w w' e : log w' = log w ++ [e] → event_ok e → emits w w'.
Proof. intros Hl He. exists [e]. split; [done|]. by apply Forall_singleton. Qed.

(** Operations on the registers leave no trace. *)
Lemma with_transport_log {A} (f : stM TransportState DeviceError A) w :
  log (with_transport f w).2 = log w.
Proof.
  unfold with_transport. destruct (st w) as [s|]; [|done]. destruct (f s) as [r s'].
  by destruct (Transport.take_irq _) as [[|] t].
Qed.

Lemma mmio_write_log addr width value w : log (mmio_write addr width value w).2 = log w.
Proof.
  unfold mmio_write, st_bind. match goal with |- context [with_transport ?f w] =>
    pose proof (with_transport_log f w) as Hl; destruct (with_transport f w) as [[o|] w1] end; [|exact Hl].
  by destruct o.
Qed.

Lemma reset_log w : log (reset w) = log w.
Proof. unfold reset. by rewrite with_transport_log. Qed.

Lemma with_transport_bell {A} (f : stM TransportState DeviceError A) w :
  bell (with_transport f w).2 = bell w.
Proof.
  unfold with_transport. destruct (st w) as [s|]; [|done]. destruct (f s) as [r s'].
  by destruct (Transport.take_irq _) as [[|] t].
Qed.

(** A close makes one disk call, of a closed device. *)
Lemma close_emits w : emits w (close w).2.
Proof.
  unfold close. cbv zeta. set (w1 := set_bell _ w).
  assert (Hc : Doorbell.is_closed (bell (reset w1)) = true).
  { unfold reset. rewrite with_transport_bell. cbn. unfold Doorbell.close, Doorbell.swap_closed, Doorbell.wake.
    by destruct (aw_wake _). }
  destruct (disk_sync _) as [ok d]. eapply emits_one; [cbn [snd log set_disk add_log]; by rewrite reset_log|exact Hc].
Qed.

Lemma act_emits w a : emits w (act w a).
Proof.
  destruct a; simpl; [apply emits_same, mmio_write_log|apply emits_same, reset_log|apply close_emits|by apply emits_same].
Qed.

Lemma await_emits w : emits w (await w).
Proof.
  unfold await. destruct (sched w) as [|b rest]; [done|].
  transitivity (set_sched rest w); [by apply emits_same|]. generalize (set_sched rest w).
  induction b as [|a b IH]; intros w1; [done|]. simpl. etransitivity; [apply act_emits|apply IH].
Qed.

(** *** Guest memory *)

Lemma host_read_spec {F} (err : F) a n w :
  ∃ r, host_read err a n w = (r, w) ∧ ∀ bs, r = Ok bs → bs = peek (gm_byte (mem w)) a n.
Proof.
  unfold host_read. pose proof (gm_read_pure (mem w) a n) as Hp. pose proof (gm_read_inv (mem w) a n) as Hi.
  destruct (gm_read a n (mem w)) as [r h]. simpl in *. subst h. eexists. split; [by destruct w|].
  intros bs. destruct r as [bs'|]; simpl; [|done]. intros [= <-]. by apply Hi.
Qed.

Lemma host_write_emits {F} ep (err : F) a bs w :
  is_current ep w = true →
  emits w (host_write ep err a bs w).2 ∧ is_current ep (host_write ep err a bs w).2 = true.
Proof.
  intros Hc. unfold host_write. destruct (gm_write a bs _) as [r h]. simpl. split; [|done].
  eapply emits_one; [done|exact Hc].
Qed.

Lemma write_status_emits addr status ep w : emits w (write_status addr status ep w).2.
Proof.
  unfold write_status. destruct (is_current ep w) eqn:Hc; [|done]. simpl.
  pose proof (host_write_emits ep tt addr [status] w Hc) as [He _].
  by destruct (host_write ep tt addr [status] w) as [[|] w1].
Qed.

Lemma final_status_emits addr status ep w : emits w (final_status addr status ep w).2.
Proof.
  unfold final_status. pose proof (write_status_emits addr status ep w) as He.
  by destruct (write_status addr status ep w).
Qed.

Lemma write_guest_ranges_emits ranges bs ep w : emits w (write_guest_ranges ranges bs ep w).2.
Proof.
  unfold write_guest_ranges. destruct (split_ranges _ bs) as [writes|]; [|done].
  destruct (is_current ep w) eqn:Hc; [|done]. cbn [negb]. unfold write_guest_memory.
  destruct (GuestCopy.write_guest_ranges _ _ _ _) as [r h]. simpl.
  eexists. split; [done|]. apply Forall_fmap, Forall_true. by intros r'.
Qed.

Lemma ioerr_completion_emits addr ep w : emits w (ioerr_completion addr ep w).2.
Proof.
  unfold ioerr_completion. pose proof (write_status_emits addr STATUS_IOERR ep w) as He.
  by destruct (write_status addr STATUS_IOERR ep w) as [[|] w1].
Qed.

(** *** The disk *)

Lemma sector_start_within sector total capacity offset limit :
  0 ≤ sector → 0 ≤ total ≤ limit → sector_start sector total capacity = Some offset →
  within_disk offset total capacity limit.
Proof.
  intros Hs Ht. unfold sector_start. destruct (checked_mul64 sector SECTOR_BYTES) as [start|] eqn:Hm; [|done].
  apply checked_mul64_Some in Hm as [-> _]. simpl.
  destruct (checked_add64 _ total) as [e|] eqn:He; [|done]. apply checked_add64_Some in He as [-> _]. simpl.
  destruct (_ || _) eqn:Hb in |- *; [done|]. intros [= <-]. breflect.
  assert (total mod SECTOR_BYTES = 0) as Hmod by (unfold is_multiple_of in *; simpl in *; by breflect).
  unfold within_disk, SECTOR_BYTES in *. split_and!; try lia.
  by rewrite Z.mod_mul.
Qed.

Lemma disk_read_at_emits ep offset len w :
  is_current ep w = true → within_disk offset len (disk_capacity (disk w)) MAX_TOTAL →
  emits w (disk_read_at ep offset len w).2.
Proof.
  intros Hc Hw. unfold disk_read_at. cbv zeta. cbn [snd].
  etransitivity; [|apply await_emits]. eapply emits_one; [done|]. by split.
Qed.

Lemma disk_write_at_emits ep offset bs w :
  is_current ep w = true → within_disk offset (zlen bs) (disk_capacity (disk w)) MAX_TOTAL →
  emits w (disk_write_at ep offset bs w).2.
Proof.
  intros Hc Hw. unfold disk_write_at. destruct (write_at _ _ _) as [ok d]. cbn [snd].
  etransitivity; [|apply await_emits]. eapply emits_one; [done|]. by split.
Qed.

Lemma parse_discard_within bs capacity offset len :
  bytes bs → parse_discard_range bs capacity = Ok (offset, len) →
  within_disk offset len capacity MAX_DISCARD.
Proof.
  intros Hb. unfold parse_discard_range. destruct (zlen bs =? _); [|done]. cbn [negb].
  destruct (_ =? 0) in |- *; [|done]. cbn [negb].
  assert (0 ≤ from_le (take 8 bs) ∧ 0 ≤ from_le (take 4 (drop 8 bs))) as [Hs Hn].
  { split; apply from_le_nonneg; repeat first [apply Forall_take | apply Forall_drop]; done. }
  destruct (_ <? _) eqn:Hle in |- *; [done|]. breflect.
  destruct (checked_mul64 _ _) as [n|] eqn:Hm; [|done]. apply checked_mul64_Some in Hm as [-> _]. rsimpl.
  destruct (sector_start _ _ _) as [off|] eqn:Hst; [|done]. rsimpl. intros [= <- <-].
  eapply sector_start_within; [exact Hs| |exact Hst].
  unfold MAX_DISCARD, MAX_GUEST_DISCARD_BYTES, SECTOR_BYTES in *.
  change (1024 * 1024 / 512) with 2048 in Hle. lia.
Qed.

Lemma execute_discard_emits data ep w :
  is_current ep w = true → emits w (execute_discard data (disk_capacity (disk w)) ep w).2.
Proof.
  intros Hc. unfold execute_discard. destruct data as [|[a n] [|]]; [done| |done].
  destruct (n =? DISCARD_BYTES); [|done]. cbn [negb]. unfold st_bind, st_lift.
  destruct (host_read_spec STATUS_IOERR a DISCARD_BYTES w) as (r & -> & Hr).
  destruct r as [bs|]; [|done]. specialize (Hr bs eq_refl).
  destruct (parse_discard_range bs _) as [[off len]|] eqn:Hp; [|done].
  apply parse_discard_within in Hp; [|rewrite Hr; apply peek_bytes, gm_byte_u8]. cbn [fst snd].
  unfold disk_discard_at. destruct (disk_discard off len _) as [ok d]. cbn [snd].
  etransitivity; [|apply await_emits]. eapply emits_one; [done|]. by split.
Qed.

(** The ranges of a request: their lengths add up to its total. *)
Definition request_ok (data : list (Z * Z)) (total : Z) : Prop :=
  Forall (λ r, 0 ≤ r.2) data ∧ sumZ data.*2 = total ∧ 0 ≤ total ≤ MAX_TOTAL.

Lemma filter_sum (data : list (Z * Z)) :
  sumZ (List.filter (λ r, negb (r.2 =? 0)) data).*2 = sumZ data.*2.
Proof.
  induction data as [|[a n] data IH]; [done|]. cbn [List.filter snd]. rewrite fmap_cons, sumZ_cons.
  destruct (n =? 0) eqn:Hn; breflect; cbn [negb]; [cbn [snd]; lia|].
  rewrite fmap_cons, sumZ_cons. lia.
Qed.

Lemma read_guest_payload_spec data w :
  Forall (λ r, 0 ≤ r.2) data →
  ∃ r h, read_guest_payload data w = (r, set_mem h w) ∧ ∀ bs, r = Ok bs → zlen bs = sumZ data.*2.
Proof.
  intros Hd. unfold read_guest_payload, read_guest_memory.
  destruct (read_guest_ranges _ _ _ _ (mem w)) as [r h] eqn:Hr. exists r, h. split; [done|].
  intros bs ->. apply (@read_guest_ranges_length H DeviceError host_memory) in Hr; [|].
  - by rewrite Hr, filter_sum.
  - apply Forall_forall. intros x Hx. rewrite list_elem_of_In in Hx. apply filter_In in Hx as [Hx _].
    rewrite <- list_elem_of_In in Hx. rewrite Forall_forall in Hd. by apply Hd.
Qed.

Lemma execute_emits req_type sector data total status_addr ep w :
  0 ≤ sector → request_ok data total →
  emits w (execute req_type sector data total status_addr ep w).2.
Proof.
  intros Hs (Hd & Hsum & Ht). unfold execute. destruct (is_current ep w) eqn:Hc; [|done]. cbn [negb].
  repeat match goal with |- context [if ?b =? ?c then _ else _] => destruct (b =? c) end.
  - destruct (sector_start sector total _) as [off|] eqn:Hst; [|apply final_status_emits].
    eapply sector_start_within in Hst; [|done..].
    pose proof (disk_read_at_emits ep off total w Hc Hst) as H1.
    destruct (disk_read_at ep off total w) as [[bs|] w1]; [|etransitivity; [exact H1|apply final_status_emits]].
    etransitivity; [exact H1|]. destruct (zlen bs =? total); [|apply final_status_emits]. cbn [negb].
    pose proof (write_guest_ranges_emits data bs ep w1) as H2.
    destruct (write_guest_ranges data bs ep w1) as [[|] w2]; (etransitivity; [exact H2|apply final_status_emits]).
  - destruct (sector_start sector total _) as [off|] eqn:Hst; [|apply final_status_emits].
    eapply sector_start_within in Hst; [|done..].
    destruct (read_guest_payload_spec data w Hd) as (r & h & -> & Hr).
    assert (emits w (set_mem h w)) as H1 by (by apply emits_same).
    destruct r as [bs|]; [|etransitivity; [exact H1|apply final_status_emits]].
    specialize (Hr bs eq_refl). change (is_current ep (set_mem h w)) with (is_current ep w). rewrite Hc. cbn [negb].
    pose proof (disk_write_at_emits ep off bs (set_mem h w) Hc) as H2.
    rewrite Hr, Hsum in H2. specialize (H2 Hst).
    destruct (disk_write_at ep off bs _) as [[|] w2]; (etransitivity; [exact H1|]);
      (etransitivity; [exact H2|apply final_status_emits]).
  - destruct (negb _ || negb _); [apply final_status_emits|]. unfold disk_flush.
    destruct (disk_sync _) as [ok d]. etransitivity; [|apply final_status_emits].
    etransitivity; [|apply await_emits]. by eapply emits_one.
  - pose proof (execute_discard_emits data ep w Hc) as H1.
    destruct (execute_discard data _ ep w) as [r w1]. etransitivity; [exact H1|apply final_status_emits].
  - apply final_status_emits.
Qed.

(** *** Chains *)

Lemma collect_data_spec writable descs total data data' total' :
  Forall descriptor_fields descs → Forall (λ r, 0 ≤ r.2) data →
  sumZ data.*2 = total → 0 ≤ total ≤ MAX_TOTAL →
  collect_data writable descs total data = Some (data', total') → request_ok data' total'.
Proof.
  intros Hf. revert total data. induction Hf as [|d descs (_ & Hl & _) _ IH]; intros total data Hd Hs Ht Hr.
  { injection Hr as <- <-. split; [done|]. by split. }
  cbn [collect_data] in Hr. destruct (_ || _) in Hr; [done|].
  destruct (checked_add64 total (d_len d)) as [t|] eqn:Ha; [|done].
  apply checked_add64_Some in Ha as [-> _]. destruct (_ <? total + _) eqn:Hle in Hr; [done|]. breflect.
  refine (IH _ _ _ _ _ Hr); [| |lia].
  - apply Forall_app. split; [done|]. by apply Forall_singleton.
  - rewrite fmap_app, sumZ_app, Hs. unfold sumZ at 1. simpl. lia.
Qed.

Lemma request_type_spec header w :
  ∃ r, request_type header w = (r, w) ∧ ∀ t sector, r = Ok (t, sector) → 0 ≤ t ∧ 0 ≤ sector.
Proof.
  unfold request_type. destruct (_ || _); [by exists (Err BadLen)|]. unfold st_bind.
  destruct (host_read_spec BadLen (d_addr header) 16 w) as (r & -> & Hr).
  destruct r as [bs|e]; [|by exists (Err e)]. eexists. split; [done|]. intros t sector [= <- <-].
  rewrite (Hr bs eq_refl).
  split; apply from_le_nonneg; repeat first [apply Forall_take | apply Forall_drop];
    apply peek_bytes, gm_byte_u8.
Qed.

Lemma execute_chain_emits head table size ep w :
  0 ≤ head → emits w (execute_chain head table size ep w).2.
Proof.
  intros Hh. unfold execute_chain. destruct (is_current ep w) eqn:Hc; [|done]. cbn [negb].
  destruct (_ || _) eqn:Hq in |- *; [done|]. breflect. unfold st_bind, st_lift.
  destruct (host_read_spec BadLen table (size * SPLIT_RING_DESCRIPTOR_BYTES) w) as (r & -> & Hr).
  destruct r as [bs|]; [|done].
  destruct (split_ring_chain _ _ _ _ _) as [chain|] eqn:Hchain; [|done]. rsimpl.
  assert (0 ≤ size) as Hsz by (unfold is_power_of_two in *; breflect; lia).
  apply split_ring_chain_fields in Hchain as [Hf _];
    [|rewrite (Hr bs eq_refl); apply peek_bytes, gm_byte_u8|done|done].
  destruct (status_tail chain) as [status_addr|]; [|done]. destruct chain as [|header rest] eqn:Hcn; [done|].
  rewrite <- Hcn in *. destruct (host_read_spec BadLen status_addr 1 w) as (r1 & -> & _).
  destruct r1; [|done]. destruct (request_type_spec header w) as (r2 & -> & Hr2).
  destruct r2 as [[t sector]|]; [|apply ioerr_completion_emits].
  destruct (Hr2 t sector eq_refl) as [_ Hsec].
  destruct (collect_data _ _ 0 []) as [[data total]|] eqn:Hcol; [|apply ioerr_completion_emits].
  apply collect_data_spec in Hcol; [|by apply Forall_take, Forall_drop|done|done|by vm_compute].
  pose proof (execute_emits t sector data total status_addr ep w Hsec Hcol) as He.
  destruct (execute t sector data total status_addr ep w) as [status w1].
  by destruct (is_current ep w1).
Qed.

Lemma complete_emits used size head len ep w :
  is_current ep w = true →
  emits w (complete_split_ring_entry from_mmio (host_read BadLen) (host_write ep BadLen) used size head len w).2 ∧
  is_current ep (complete_split_ring_entry from_mmio (host_read BadLen) (host_write ep BadLen)
                   used size head len w).2 = true.
Proof.
  intros Hc. unfold complete_split_ring_entry, read_ring_index, st_bind, st_lift, st_err.
  destruct (size =? 0); [done|]. destruct (ring_address used 2) as [a|]; [|done]. rsimpl.
  destruct (host_read_spec BadLen a 2 w) as (r & -> & _). destruct r as [bs|]; [|done].
  destruct (zlen bs =? 2); [|done]. unfold st_ret.
  destruct (ring_address used _) as [slot|]; [|done]. rsimpl.
  pose proof (host_write_emits ep BadLen slot (le_bytes 4 head ++ le_bytes 4 len) w Hc) as [H1 C1].
  destruct (host_write ep BadLen slot _ w) as [[[]|] w1]; [|done]. cbn [snd] in *.
  pose proof (host_write_emits ep BadLen a (le_bytes 2 (wrapping_add16 (from_le bs) 1)) w1 C1) as [H2 C2].
  split; [by etransitivity|done].
Qed.

Lemma ring_head_nonneg avail_ring size next h i hd h' next' :
  read_split_ring_available from_mmio
      (λ a n h, let '(r, h) := gm_read a n h in (map_err (λ _, BadLen) r, h))
      avail_ring size next h = (Ok (i, Some hd), h', next') → 0 ≤ hd.
Proof.
  set (rd := λ a n h, let '(r, h) := gm_read a n h in (map_err (λ _, BadLen) r, h)).
  assert (∀ a h i h', read_ring_index from_mmio rd a h = (Ok i, h') → 0 ≤ i) as Hidx.
  { intros a h1 i1 h2. unfold read_ring_index, st_bind, rd. pose proof (gm_read_inv h1 a 2) as Hi.
    destruct (gm_read a 2 h1) as [[bs|] h3]; [|done]. simpl in *. specialize (Hi bs eq_refl).
    destruct (_ =? _); [|done]. intros [= <- <-]. rewrite Hi. apply from_le_nonneg, peek_bytes, gm_byte_u8. }
  unfold read_split_ring_available. destruct (size =? 0); [done|].
  destruct (ring_address avail_ring 2); [|done].
  destruct (read_ring_index from_mmio rd _ h) as [[av|] h1]; [|done].
  destruct (resync_pending_queue_entries _ _ _) as [k nx]. destruct (k =? 0); [done|].
  destruct (ring_address avail_ring _) as [b|]; [|done]. unfold st_bind, st_ret.
  destruct (read_ring_index from_mmio rd b h1) as [[hd'|] h2] eqn:H2; [|done].
  intros [= _ <- _ _]. by eapply Hidx.
Qed.

Lemma process_pending_emits w : emits w (process_pending w).2.
Proof.
  unfold process_pending. destruct (Doorbell.is_closed (bell w)) eqn:Hcl; [done|].
  match goal with |- context [with_transport ?f w] =>
    pose proof (with_transport_log f w) as Hl; destruct (with_transport f w) as [[x|e] w1] end;
    [|apply emits_same in Hl; by destruct e].
  destruct x as [[[[desc av] used] size] next]. apply emits_same in Hl. cbn [snd] in Hl.
  etransitivity; [exact Hl|]. clear Hl.
  destruct (read_split_ring_available _ _ _ _ _ _) as [[r h] next'] eqn:Hr.
  set (w2 := set_mem h w1). assert (emits w1 w2) as H2 by (by apply emits_same).
  etransitivity; [exact H2|]. clear H2.
  destruct r as [[available [hd|]]|]; [| |done].
  2:{ destruct (negb _); [done|]. unfold st_bind. match goal with |- context [with_transport ?f w2] =>
        pose proof (with_transport_log f w2) as Hl; destruct (with_transport f w2) as [[|] w3] end;
        by apply emits_same. }
  apply ring_head_nonneg in Hr. pose proof (execute_chain_emits hd desc size (epoch w) w2 Hr) as H3.
  destruct (execute_chain hd desc size (epoch w) w2) as [r w3]. cbn [snd] in H3.
  etransitivity; [exact H3|]. clear H3. destruct (match r with Ok u => _ | Err e => _ end) as [used_len|r']; [|done].
  destruct (is_current (epoch w) w3) eqn:Hc; [|done]. cbn [negb].
  pose proof (complete_emits used size hd used_len (epoch w) w3 Hc) as [H4 _].
  destruct (complete_split_ring_entry _ _ _ _ _ _ _ w3) as [[[]|] w4]; [|done]. cbn [snd] in H4.
  etransitivity; [exact H4|]. match goal with |- context [with_transport ?f w4] =>
    pose proof (with_transport_log f w4) as Hl; destruct (with_transport f w4) as [[[]|e] w5] end;
    apply emits_same in Hl; [done|by destruct e].
Qed.

(** C19. Nothing a guest does makes the block device touch memory or disk out
    of turn. Whatever the rings, descriptors and registers hold, and whatever
    the guest does while disk calls are pending (stores, register writes,
    resets, closing the device), every store to guest memory is made for a
    request of the current epoch on an open device, so none lands after a
    reset; every read, write, discard and flush of the disk is made for a current
    request, and the first three cover whole sectors inside the disk, at most 64 KiB of data
    or 1 MiB of discard; and the only other disk call is the sync of a device that has been closed. *)
Theorem block_trace_ok n w :
  ∃ evs, log (pump n w).2 = log w ++ evs ∧ Forall event_ok evs.
Proof.
  change (emits w (pump n w).2). revert w. induction n as [|n IH]; intros w; [done|]. cbn [pump].
  pose proof (process_pending_emits w) as Hp.
  destruct (process_pending w) as [[[]|] w1]; [|exact Hp..]. cbn [snd] in Hp.
  etransitivity; [exact Hp|]. etransitivity; [apply await_emits|apply IH].
Qed.

(** ** Undisturbed requests *)

Definition nonempty (data : list (Z * Z)) : list (Z * Z) := List.filter (λ r, negb (r.2 =? 0)) data.

(** The buffers of a request are guest RAM. *)
Definition buffers_mapped (h : H) (data : list (Z * Z)) : Prop :=
  Forall (λ r, 0 ≤ r.1 ≤ U64_MAX ∧ (r.2 ≠ 0 → gm_mapped h r.1 r.2)) data.

Lemma nonempty_Forall (P : Z * Z → Prop) data : Forall P data → Forall P (nonempty data).
Proof.
  intros Hf. apply Forall_forall. intros x Hx. unfold nonempty in Hx. rewrite list_elem_of_In in Hx.
  apply filter_In in Hx as [Hx _]. rewrite <- list_elem_of_In in Hx. rewrite Forall_forall in Hf. by apply Hf.
Qed.

(** A status byte in guest RAM is written. *)
Lemma final_status_ok addr status ep w :
  is_current ep w = true → u8 status → gm_mapped (mem w) addr 1 →
  ∃ w', final_status addr status ep w = (status, w') ∧ is_current ep w' = true ∧
    disk w' = disk w ∧ sched w' = sched w ∧
    (∀ x, gm_byte (mem w') x = patch (gm_byte (mem w)) addr [status] x) ∧
    (∀ a n, gm_mapped (mem w') a n ↔ gm_mapped (mem w) a n).
Proof.
  intros Hc Hs Hm. unfold final_status, write_status. rewrite Hc. cbn [negb]. unfold host_write.
  destruct (gm_write_ok (mem w) addr [status]) as (h' & Hw & Hx & Hmap);
    [by vm_compute|by apply Forall_singleton|done|].
  cbn [mem add_log]. rewrite Hw. eexists. split; [done|]. by split_and!.
Qed.

Lemma split_ranges_ok ranges bs :
  Forall (λ r, 0 ≤ r.2 ≤ usize_max) ranges → sumZ ranges.*2 = zlen bs →
  ∃ chunks, split_ranges ranges bs = Ok chunks ∧ concat chunks.*2 = bs ∧
    (λ c, (c.1, zlen c.2)) <$> chunks = ranges.
Proof.
  intros Hr. revert bs. induction Hr as [|[a n] ranges Hn Hr IH]; intros bs Hs.
  { exists []. destruct bs; [done|]. unfold zlen, sumZ in Hs; simpl in Hs. lia. }
  cbn [split_ranges fst snd] in *. rewrite fmap_cons, sumZ_cons in Hs. cbn [snd] in Hs.
  assert (0 ≤ sumZ ranges.*2) as Hpos.
  { apply sumZ_nonneg, Forall_fmap. eapply Forall_impl; [exact Hr|]. intros r [? _]. simpl. lia. }
  destruct (_ <? n) eqn:E1; [breflect; lia|]. destruct (zlen bs <? n) eqn:E2; [breflect; lia|].
  unfold zlen in *. destruct (IH (drop (Z.to_nat n) bs)) as (chunks & Hc & Hj & Hl).
  { unfold zlen. rewrite length_drop. lia. }
  rewrite Hc. rsimpl. eexists. split; [done|]. split.
  - rewrite fmap_cons. cbn [concat snd]. rewrite Hj. apply take_drop.
  - rewrite fmap_cons, Hl. cbn [fst snd]. unfold zlen. rewrite length_take. do 3 f_equal. lia.
Qed.

Lemma await_quiet w : sched w = [] → await w = w.
Proof. intros Hs. unfold await. by rewrite Hs. Qed.

Lemma nonempty_sum data : sumZ (nonempty data).*2 = sumZ data.*2.
Proof. apply filter_sum. Qed.

(** The pieces of a request's buffers can be stored. *)
Lemma chunks_writable (h : H) chunks data :
  (λ c, (c.1, zlen c.2)) <$> chunks = data → buffers_mapped h data → bytes (concat chunks.*2) →
  @writable H DeviceError host_memory h chunks.
Proof.
  intros <- Hb. induction chunks as [|[a bs] chunks IH]; intros Hbs; [constructor|].
  rewrite fmap_cons in Hb. simpl in Hbs. apply Forall_app in Hbs as [Hb1 Hb2].
  inversion_clear Hb as [|? ? [Ha Hm] Hb']. cbn [fst snd] in *. constructor; [|by apply IH].
  cbn [fst snd]. split; [done|]. split; [done|]. intros Hne. apply Hm.
  destruct bs; [done|]. unfold zlen; simpl; lia.
Qed.

Lemma range_le_sum (data : list (Z * Z)) r : Forall (λ r, 0 ≤ r.2) data → r ∈ data → r.2 ≤ sumZ data.*2.
Proof.
  intros Hd Hin. induction Hd as [|y l Hy Hl IH]; [by apply elem_of_nil in Hin|].
  rewrite fmap_cons, sumZ_cons. apply elem_of_cons in Hin as [->|Hin].
  - assert (0 ≤ sumZ l.*2); [|lia]. by apply sumZ_nonneg, Forall_fmap.
  - specialize (IH Hin). lia.
Qed.

Section Quiet.
(** The target can address and allocate what one request needs. *)
Hypothesis usize_ok : MAX_TOTAL ≤ usize_max ≤ U64_MAX.
Hypothesis reserve_ok : ∀ n, 0 ≤ n ≤ MAX_TOTAL → try_reserve n = true.

(** The bytes of a request's buffers. *)
Definition payload (h : H) (data : list (Z * Z)) : list Z :=
  nonempty data ≫= λ r, peek (gm_byte h) r.1 r.2.

Lemma execute_out sector data total status_addr ep w off d' :
  is_current ep w = true → sched w = [] → request_ok data total →
  buffers_mapped (mem w) data → gm_mapped (mem w) status_addr 1 →
  sector_start sector total (disk_capacity (disk w)) = Some off →
  write_at off (payload (mem w) data) (disk w) = (true, d') →
  ∃ w', execute T_OUT sector data total status_addr ep w = (STATUS_OK, w') ∧
    is_current ep w' = true ∧ sched w' = [] ∧ disk w' = d' ∧
    (∀ x, gm_byte (mem w') x = patch (gm_byte (mem w)) status_addr [STATUS_OK] x) ∧
    (∀ a n, gm_mapped (mem w') a n ↔ gm_mapped (mem w) a n).
Proof.
  intros Hc Hq (Hd & Hsum & Ht) Hb Hst Hss Hw. unfold execute. rewrite Hc. cbn [negb].
  change (T_OUT =? T_IN) with false. change (T_OUT =? T_OUT) with true. cbv iota. rewrite Hss.
  unfold read_guest_payload, read_guest_memory.
  rewrite (@read_guest_ranges_ok H DeviceError host_memory).
  - cbn [negb]. change (is_current ep (set_mem (mem w) w)) with (is_current ep w). rewrite Hc. cbn [negb].
    unfold disk_write_at. cbn [disk set_mem add_log].
    change (@gm_byte H DeviceError host_memory) with (@gm_byte H E GM).
    change (List.filter (λ r : Z * Z, negb (r.2 =? 0)) data) with (nonempty data).
    fold (payload (mem w) data). rewrite Hw. rewrite await_quiet by done.
    match goal with |- context [final_status status_addr STATUS_OK ep ?v] =>
      destruct (final_status_ok status_addr STATUS_OK ep v) as (w' & -> & H1 & H2 & H3 & H4 & H5) end;
      [done|by vm_compute|done|].
    exists w'. split_and!; try done. by rewrite H3.
  - apply Forall_forall. intros r Hr. apply (nonempty_Forall (λ r, 0 ≤ r.2)) in Hd.
    apply nonempty_Forall in Hb. unfold nonempty in *. rewrite Forall_forall in Hd, Hb.
    destruct (Hb r Hr). by split; [apply Hd|].
  - unfold CHUNK, MAX_TOTAL, MAX_BATCH_GUEST_COPY_BYTES, MAX_COMPONENT_HOSTCALL_BYTES,
      MAX_SINGLE_GUEST_COPY_BYTES in *. lia.
  - rewrite filter_sum. lia.
  - rewrite filter_sum. apply reserve_ok. lia.
Qed.

Lemma execute_in sector data total status_addr ep w off bs :
  is_current ep w = true → sched w = [] → request_ok data total →
  buffers_mapped (mem w) data → gm_mapped (mem w) status_addr 1 →
  sector_start sector total (disk_capacity (disk w)) = Some off →
  read_at off total (disk w) = Some bs → zlen bs = total → bytes bs →
  ∃ w' chunks, execute T_IN sector data total status_addr ep w = (STATUS_OK, w') ∧
    is_current ep w' = true ∧ sched w' = [] ∧
    (λ c, (c.1, zlen c.2)) <$> chunks = nonempty data ∧ concat chunks.*2 = bs ∧
    ∀ x, gm_byte (mem w') x = patch (patches (gm_byte (mem w)) chunks) status_addr [STATUS_OK] x.
Proof.
  intros Hc Hq (Hd & Hsum & Ht) Hb Hst Hss Hr Hlen Hbs. unfold execute. rewrite Hc. cbn [negb].
  change (T_IN =? T_IN) with true. cbv iota. rewrite Hss. unfold disk_read_at.
  cbn [disk add_log]. rewrite Hr. rewrite await_quiet by done. rewrite Hlen, Z.eqb_refl. cbn [negb].
  unfold write_guest_ranges. fold (nonempty data).
  destruct (split_ranges_ok (nonempty data) bs) as (chunks & -> & Hj & Hl).
  { apply Forall_forall. intros r Hin. apply (nonempty_Forall (λ r, 0 ≤ r.2)) in Hd as Hd'.
    rewrite Forall_forall in Hd'. split; [by apply Hd'|].
    pose proof (range_le_sum _ r (nonempty_Forall _ _ Hd) Hin) as Hle. rewrite nonempty_sum in Hle. lia. }
  { rewrite nonempty_sum. lia. }
  change (is_current ep (add_log _ w)) with (is_current ep w). rewrite Hc. cbn [negb].
  unfold write_guest_memory. cbn [mem add_log].
  destruct (@write_guest_ranges_ok H DeviceError host_memory from_copy usize_max (mem w) chunks)
    as (h' & -> & Hx & Hmap).
  { eapply chunks_writable; [exact Hl|by apply nonempty_Forall|by rewrite Hj]. }
  { unfold CHUNK, MAX_TOTAL, MAX_BATCH_GUEST_COPY_BYTES, MAX_COMPONENT_HOSTCALL_BYTES,
      MAX_SINGLE_GUEST_COPY_BYTES in *. lia. }
  match goal with |- context [final_status status_addr STATUS_OK ep ?v] =>
    destruct (final_status_ok status_addr STATUS_OK ep v) as (w' & -> & H1 & _ & H3 & H4 & _) end;
    [done|by vm_compute|by apply Hmap|].
  exists w', chunks. split_and!; try done; [by rewrite H3|].
  intros x. rewrite H4. unfold patch. cbn [mem set_mem]. by rewrite <- Hx.
Qed.
(** What the disk documents: data written is read back, and a write does not
    change the size. *)
Hypothesis disk_law : ∀ off bs d d', write_at off bs d = (true, d') →
  read_at off (zlen bs) d' = Some bs ∧ disk_capacity d' = disk_capacity d.

Lemma payload_length h data :
  Forall (λ r, 0 ≤ r.2) data → zlen (payload h data) = sumZ data.*2.
Proof.
  intros Hd. rewrite <- nonempty_sum. apply (nonempty_Forall _ _) in Hd. unfold payload.
  induction Hd as [|r l Hr _ IH]; [done|]. rewrite bind_cons, zlen_app, peek_length, IH by done.
  by rewrite fmap_cons, sumZ_cons.
Qed.

Lemma payload_bytes h data : bytes (payload h data).
Proof.
  unfold payload. induction (nonempty data) as [|r l IH]; [by constructor|]. rewrite bind_cons.
  apply Forall_app. split; [|done]. apply peek_bytes, gm_byte_u8.
Qed.

(** A disk block survives the trip: a guest that writes the buffers [src]
    to a sector and then reads that sector into the buffers [dst] finds there
    exactly the bytes of [src], in order, however either request is split
    into buffers; both requests report success, and no other byte of guest
    memory changes but the two status bytes. *)
Theorem block_roundtrip sector src dst total status1 status2 ep w off :
  is_current ep w = true → sched w = [] →
  request_ok src total → request_ok dst total →
  buffers_mapped (mem w) src → buffers_mapped (mem w) dst →
  gm_mapped (mem w) status1 1 → gm_mapped (mem w) status2 1 →
  sector_start sector total (disk_capacity (disk w)) = Some off →
  (write_at off (payload (mem w) src) (disk w)).1 = true →
  ∃ w1 w2 chunks,
    execute T_OUT sector src total status1 ep w = (STATUS_OK, w1) ∧
    execute T_IN sector dst total status2 ep w1 = (STATUS_OK, w2) ∧
    (λ c, (c.1, zlen c.2)) <$> chunks = nonempty dst ∧
    concat chunks.*2 = payload (mem w) src ∧
    ∀ x, gm_byte (mem w2) x =
      patch (patches (patch (gm_byte (mem w)) status1 [STATUS_OK]) chunks) status2 [STATUS_OK] x.
Proof.
  intros Hc Hq Hs Hd Hbs Hbd Hm1 Hm2 Hss Hw.
  destruct (write_at off (payload (mem w) src) (disk w)) as [ok d'] eqn:Hwr. cbn [fst] in Hw. subst ok.
  destruct (disk_law _ _ _ _ Hwr) as [Hread Hcap]. pose proof Hs as (Hs1 & Hs2 & _).
  rewrite payload_length, Hs2 in Hread by done.
  destruct (execute_out sector src total status1 ep w off d') as (w1 & He1 & Hc1 & Hq1 & Hd1 & Hx1 & Hmap1);
    try done.
  destruct (execute_in sector dst total status2 ep w1 off (payload (mem w) src))
    as (w2 & chunks & He2 & _ & _ & Hl & Hj & Hx2); try done.
  - eapply Forall_impl; [exact Hbd|]. intros r [? Hr]. split; [done|]. intros Hn. by apply Hmap1, Hr.
  - by apply Hmap1.
  - by rewrite Hd1, Hcap.
  - by rewrite Hd1.
  - by rewrite payload_length, Hs2.
  - apply payload_bytes.
  - exists w1, w2, chunks. split_and!; try done. intros x. rewrite Hx2.
    apply patch_ext. intros y. apply patches_ext. exact Hx1.
Qed.
End Quiet.
End Block.

(** ** A disk of bytes *)
Module Disk.
Definition t : Type := list Z.
Definition capacity (d : t) : Z := zlen d.
Definition read_at (off len : Z) (d : t) : option (list Z) :=
  if (0 <=? off) && (0 <=? len) && (off + len <=? zlen d)
  then Some (take (Z.to_nat len) (drop (Z.to_nat off) d)) else None.
Definition write_at (off : Z) (bs : list Z) (d : t) : bool * t :=
  if (0 <=? off) && (off + zlen bs <=? zlen d)
  then (true, take (Z.to_nat off) d ++ bs ++ drop (Z.to_nat off + length bs) d) else (false, d).
Definition sync (d : t) : bool * t := (true, d).
Definition discard (off len : Z) (d : t) : bool * t := write_at off (replicate (Z.to_nat len) 0) d.

Lemma law off bs d d' :
  write_at off bs d = (true, d') → read_at off (zlen bs) d' = Some bs ∧ capacity d' = capacity d.
Proof.
  unfold write_at, read_at, capacity. destruct (_ && _) eqn:Hb; [|done]. intros [= <-]. breflect.
  unfold zlen in *. assert (length (take (Z.to_nat off) d) = Z.to_nat off) as Ht
    by (rewrite length_take; lia).
  assert (Z.of_nat (length (take (Z.to_nat off) d ++ bs ++ drop (Z.to_nat off + length bs) d)) =
    Z.of_nat (length d)) as Hl by (rewrite !length_app, Ht, length_drop; lia).
  rewrite Hl. split; [|done].
  destruct (_ && _) eqn:Hc.
  - f_equal. rewrite drop_app_length' by done. by rewrite Nat2Z.id, take_app_length.
  - exfalso. apply andb_false_iff in Hc as [Hc|Hc]; [apply andb_false_iff in Hc as [Hc|Hc]|]; breflect; lia.
Qed.
End Disk.

Definition demo_mem : GuestMem Flat.t := (bounded_write 0x100 (replicate 300 7 ++ replicate 212 9) flat_memory).2.
Definition demo_world : world (H := GuestMem Flat.t) (D := Disk.t) (W := bool) :=
  mkWorld demo_mem (replicate 4096 0) false Doorbell.new 0 None [] [].

Lemma block_roundtrip_witness :
  ∃ w1 w2 chunks,
    execute Disk.capacity Disk.read_at Disk.write_at Disk.sync Disk.discard U32_MAX (λ _, true)
      T_OUT 2 [(0x100, 512)] 512 0x4000 0 demo_world = (STATUS_OK, w1) ∧
    execute Disk.capacity Disk.read_at Disk.write_at Disk.sync Disk.discard U32_MAX (λ _, true)
      T_IN 2 [(0x800, 500); (0x4100, 12)] 512 0x4001 0 w1 = (STATUS_OK, w2) ∧
    (λ c, (c.1, zlen c.2)) <$> chunks = [(0x800, 500); (0x4100, 12)] ∧
    concat chunks.*2 = replicate 300 7 ++ replicate 212 9.
Proof.
  destruct (block_roundtrip Disk.capacity Disk.read_at Disk.write_at Disk.sync Disk.discard U32_MAX
    (λ _, true) ltac:(by vm_compute) ltac:(done) Disk.law 2 [(0x100, 512)] [(0x800, 500); (0x4100, 12)]
    512 0x4000 0x4001 0 demo_world 1024) as (w1 & w2 & chunks & H1 & H2 & H3 & H4 & _).
  - vm_compute. reflexivity.
  - reflexivity.
  - split; [apply (bool_decide_unpack _); vm_compute; exact I|]. split; [reflexivity|vm_compute; split; discriminate].
  - split; [apply (bool_decide_unpack _); vm_compute; exact I|]. split; [reflexivity|vm_compute; split; discriminate].
  - repeat (apply Forall_cons; split); [|done].
    split; [vm_compute; split; discriminate|]. intros _. vm_compute. split_and!; [discriminate|reflexivity..].
  - repeat (apply Forall_cons; split); [| |done];
      (split; [vm_compute; split; discriminate|]; intros _; vm_compute; split_and!; [discriminate|reflexivity..]).
  - vm_compute. split_and!; [discriminate|reflexivity..].
  - vm_compute. split_and!; [discriminate|reflexivity..].
  - vm_compute. reflexivity.
  - vm_compute. reflexivity.
  - exists w1, w2, chunks. split; [exact H1|]. split; [exact H2|]. split; [exact H3|].
    rewrite H4. vm_compute. reflexivity.
Defined.

End Block.
