(* ===== verification/PolicyAddress.v ===== *)
(** * Addresses of the egress policy

    [crates/terra-policy/src/address.rs]: address ranges and the default
    floor, the set of addresses that no name and no default opens. An address
    is its number, as [u32::from] and [u128::from] give it; octets and
    segments are its big-endian digits. *)

From S2P Require Import Prelude.
From stdpp Require Import sorting sets.

Local Open Scope Z_scope.

(** ** [std::net::IpAddr] *)

Inductive IpAddr : Type :=
| V4 (ip : Z)
| V6 (ip : Z).

#[export] Instance IpAddr_eq_dec : EqDecision IpAddr.
Proof. solve_decision. Defined.

Definition U128_MAX : Z := 340282366920938463463374607431768211455.

Definition ip_wf (a : IpAddr) : Prop :=
  match a with V4 ip => u32 ip | V6 ip => 0 ≤ ip ≤ U128_MAX end.

#[export] Instance ip_wf_dec a : Decision (ip_wf a).
Proof. destruct a; cbn [ip_wf]; apply _. Defined.

(** [Ipv4Addr::octets] and [Ipv6Addr::segments]. *)
Definition octet (ip i : Z) : Z := Z.shiftr ip (8 * (3 - i)) mod 256.
Definition segment (ip i : Z) : Z := Z.shiftr ip (16 * (7 - i)) mod 65536.

(** The IPv4 address in the last four octets of an IPv6 address. *)
Definition low_v4 (ip : Z) : Z := ip mod 4294967296.

(** [Ipv6Addr::to_ipv4_mapped] and [Ipv6Addr::to_ipv4]. *)
Definition to_ipv4_mapped (ip : Z) : option Z :=
  if forallb (λ i, segment ip i =? 0) [0; 1; 2; 3; 4] && (segment ip 5 =? 0xffff)
  then Some (low_v4 ip) else None.
Definition to_ipv4 (ip : Z) : option Z :=
  if forallb (λ i, segment ip i =? 0) [0; 1; 2; 3; 4] &&
     ((segment ip 5 =? 0) || (segment ip 5 =? 0xffff))
  then Some (low_v4 ip) else None.

(** [IpAddr::to_canonical]. *)
Definition to_canonical (a : IpAddr) : IpAddr :=
  match a with
  | V4 ip => V4 ip
  | V6 ip => match to_ipv4_mapped ip with Some v4 => V4 v4 | None => V6 ip end
  end.

(** ** Ranges *)

Inductive Cidr : Type :=
| CidrV4 (network mask : Z)
| CidrV6 (network mask : Z).

#[export] Instance Cidr_eq_dec : EqDecision Cidr.
Proof. solve_decision. Defined.

(** [impl From<IpAddr> for Cidr]. *)
Definition cidr_from (a : IpAddr) : Cidr :=
  match to_canonical a with
  | V4 ip => CidrV4 ip U32_MAX
  | V6 ip => CidrV6 ip U128_MAX
  end.

(** [u32::MAX.checked_shl(n).unwrap_or(0)] and the same at 128 bits. *)
Definition mask32 (n : Z) : Z :=
  if n <? 32 then Z.land (Z.shiftl U32_MAX n) U32_MAX else 0.
Definition mask128 (n : Z) : Z :=
  if n <? 128 then Z.land (Z.shiftl U128_MAX n) U128_MAX else 0.

(** The part of [Cidr::parse] after the text has been read. *)
Definition cidr_of_prefix (address : IpAddr) (prefix : option Z) : option Cidr :=
  prefix ← (match address, prefix with
            | V6 ip, Some prefix =>
                match to_ipv4_mapped ip with
                | Some _ => Some <$> checked_sub prefix 96
                | None => Some (Some prefix)
                end
            | _, prefix => Some prefix
            end);
  match to_canonical address with
  | V4 ip =>
      let prefix := default 32 prefix in
      if 32 <? prefix then None else
      let mask := mask32 (32 - prefix) in
      Some (CidrV4 (Z.land ip mask) mask)
  | V6 ip =>
      let prefix := default 128 prefix in
      if 128 <? prefix then None else
      let mask := mask128 (128 - prefix) in
      Some (CidrV6 (Z.land ip mask) mask)
  end.

Definition contains (c : Cidr) (a : IpAddr) : bool :=
  match c, a with
  | CidrV4 network mask, V4 ip => Z.land ip mask =? network
  | CidrV6 network mask, V6 ip => Z.land ip mask =? network
  | _, _ => false
  end.

(** ** The floor *)

(** [Ipv4Addr]'s [is_private], [is_loopback], [is_link_local],
    [is_multicast] and [is_broadcast]. *)
Definition is_private (ip : Z) : bool :=
  (octet ip 0 =? 10)
  || ((octet ip 0 =? 172) && (16 <=? octet ip 1) && (octet ip 1 <=? 31))
  || ((octet ip 0 =? 192) && (octet ip 1 =? 168)).
Definition is_loopback (ip : Z) : bool := octet ip 0 =? 127.
Definition is_link_local (ip : Z) : bool := (octet ip 0 =? 169) && (octet ip 1 =? 254).
Definition is_multicast (ip : Z) : bool := (224 <=? octet ip 0) && (octet ip 0 <=? 239).
Definition is_broadcast (ip : Z) : bool := ip =? U32_MAX.

Definition is_global_v4 (ip : Z) : bool :=
  let a := octet ip 0 in
  let b := octet ip 1 in
  let c := octet ip 2 in
  let d := octet ip 3 in
  negb ((a =? 0)
        || is_private ip
        || ((a =? 100) && ((64 <=? b) && (b <? 128)))
        || is_loopback ip
        || is_link_local ip
        || is_multicast ip
        || ((a =? 192) && (b =? 0) && (c =? 0) && negb (d =? 9) && negb (d =? 10))
        || (((a =? 192) && (b =? 0) && (c =? 2))
            || ((a =? 198) && (b =? 51) && (c =? 100))
            || ((a =? 203) && (b =? 0) && (c =? 113)))
        || ((a =? 192) && (b =? 88) && (c =? 99))
        || ((a =? 198) && ((18 <=? b) && (b <? 20)))
        || (240 <=? a)
        || is_broadcast ip).

Definition nat64_well_known_v4 (ip : Z) : option Z :=
  if (segment ip 0 =? 0x64) && (segment ip 1 =? 0xff9b) &&
     forallb (λ i, segment ip i =? 0) [2; 3; 4; 5]
  then Some (low_v4 ip) else None.

Definition is_global_v6 (ip : Z) : bool :=
  match nat64_well_known_v4 ip with
  | Some v4 => is_global_v4 v4
  | None =>
      let a := segment ip 0 in
      let b := segment ip 1 in
      let c := segment ip 2 in
      negb (negb (Z.land a 0xe000 =? 0x2000)
            || ((a =? 0x2001) && (b <? 0x200)
                && negb ((a =? 0x2001) && (b =? 1)
                         && forallb (λ i, segment ip i =? 0) [2; 3; 4; 5; 6]
                         && ((1 <=? segment ip 7) && (segment ip 7 <=? 3)))
                && negb ((b =? 3) || ((b =? 4) && (c =? 0x112)))
                && negb ((0x20 <=? b) && (b <=? 0x3f)))
            || (a =? 0x2002)
            || ((a =? 0x2001) && (b =? 0xdb8))
            || ((a =? 0x3fff) && (b <? 0x1000)))
  end.

Definition embedded_ipv4 (ip : Z) : option Z :=
  match to_ipv4 ip with
  | Some v4 => Some v4
  | None =>
      if forallb (λ i, segment ip i =? 0) [0; 1; 2; 3] &&
         (segment ip 4 =? 0xffff) && (segment ip 5 =? 0)
      then Some (low_v4 ip) else None
  end.

Definition is_floored (a : IpAddr) : bool :=
  match a with
  | V4 ip => negb (is_global_v4 ip)
  | V6 ip => match embedded_ipv4 ip with
             | Some v4 => negb (is_global_v4 v4)
             | None => negb (is_global_v6 ip)
             end
  end.

(** ** What a range means

    The reference for [contains]: the first [p] bits agree. *)

Definition same_prefix (w p a b : Z) : Prop := a / 2 ^ (w - p) = b / 2 ^ (w - p).

Lemma land_mask32 n ip : 0 ≤ n ≤ 32 → u32 ip → Z.land ip (mask32 n) = ip / 2 ^ n * 2 ^ n.
Proof.
  intros Hn Hip. unfold mask32. destruct (Z.ltb_spec n 32).
  - apply (land_ones_shifted 32); [lia|]. exact Hip.
  - replace n with 32 by lia. rewrite Z.land_0_r, Z.div_small by exact Hip. lia.
Qed.

Lemma land_mask128 n ip :
  0 ≤ n ≤ 128 → 0 ≤ ip ≤ U128_MAX → Z.land ip (mask128 n) = ip / 2 ^ n * 2 ^ n.
Proof.
  intros Hn Hip. assert (0 ≤ ip < 2 ^ 128) by (unfold U128_MAX in Hip; lia).
  unfold mask128. destruct (Z.ltb_spec n 128).
  - by apply (land_ones_shifted 128); [lia|].
  - replace n with 128 by lia. rewrite Z.land_0_r, Z.div_small by lia. lia.
Qed.

Lemma mul_pow_inj n a b : 0 ≤ n → a * 2 ^ n = b * 2 ^ n ↔ a = b.
Proof. intros Hn. assert (0 < 2 ^ n) by (apply Z.pow_pos_nonneg; lia). nia. Qed.

Lemma to_canonical_wf a : ip_wf a → ip_wf (to_canonical a).
Proof.
  destruct a as [ip|ip]; cbn [to_canonical]; [done|]. unfold to_ipv4_mapped. intros Hip.
  destruct (forallb _ _ && _); cbn [ip_wf]; [|done]. apply Z.mod_pos_bound. lia.
Qed.

(** ** Functions that are constant between breakpoints

    Both the floor and the registry it follows are unions of intervals. Two
    such functions agree everywhere when they agree at the breakpoints. *)

Definition between (lo hi x : Z) : bool := (lo <=? x) && (x <? hi).

Definition stepwise (B : list Z) (f : Z → bool) : Prop :=
  ∀ x y, (∀ c, c ∈ B → (c <=? x) = (c <=? y)) → f x = f y.

Lemma stepwise_between B lo hi : lo ∈ B → hi ∈ B → stepwise B (between lo hi).
Proof.
  intros Hlo Hhi x y Hxy. unfold between. rewrite !Z.ltb_antisym.
  by rewrite (Hxy lo Hlo), (Hxy hi Hhi).
Qed.

Lemma stepwise_andb B f g : stepwise B f → stepwise B g → stepwise B (λ x, f x && g x).
Proof. intros Hf Hg x y Hxy. cbn. by rewrite (Hf x y Hxy), (Hg x y Hxy). Qed.
Lemma stepwise_orb B f g : stepwise B f → stepwise B g → stepwise B (λ x, f x || g x).
Proof. intros Hf Hg x y Hxy. cbn. by rewrite (Hf x y Hxy), (Hg x y Hxy). Qed.
Lemma stepwise_negb B f : stepwise B f → stepwise B (λ x, negb (f x)).
Proof. intros Hf x y Hxy. cbn. by rewrite (Hf x y Hxy). Qed.
Lemma stepwise_if B f g h :
  stepwise B f → stepwise B g → stepwise B h → stepwise B (λ x, if f x then g x else h x).
Proof. intros Hf Hg Hh x y Hxy. cbn. by rewrite (Hf x y Hxy), (Hg x y Hxy), (Hh x y Hxy). Qed.
Lemma stepwise_const B b : stepwise B (λ _, b).
Proof. by intros x y _. Qed.

(** The largest breakpoint below [x]. *)
Fixpoint last_break (B : list Z) (x : Z) : Z :=
  match B with
  | [] => 0
  | c :: B => if c <=? x then Z.max c (last_break B x) else last_break B x
  end.

Lemma last_break_le B x : 0 ≤ x → 0 ≤ last_break B x ≤ x.
Proof. intros Hx. induction B as [|c B IH]; cbn; [lia|]. destruct (Z.leb_spec c x); lia. Qed.

Lemma last_break_ge B x c : c ∈ B → c ≤ x → c ≤ last_break B x.
Proof.
  induction B as [|d B IH]; intros Hc Hx; [by apply not_elem_of_nil in Hc|]. cbn.
  apply elem_of_cons in Hc as [<-|Hc].
  - rewrite (proj2 (Z.leb_le c x)) by done. lia.
  - specialize (IH Hc Hx). destruct (d <=? x); lia.
Qed.

Lemma last_break_in B x : last_break B x ∈ 0 :: B.
Proof.
  induction B as [|c B IH]; cbn [last_break]; [left|]. rewrite !elem_of_cons in *.
  destruct (c <=? x); [|tauto].
  destruct (Z.max_spec c (last_break B x)) as [[_ ->]|[_ ->]]; tauto.
Qed.

Lemma stepwise_eq B f g :
  stepwise B f → stepwise B g → forallb (λ c, eqb (f c) (g c)) (0 :: B) = true →
  ∀ x, 0 ≤ x → f x = g x.
Proof.
  intros Hf Hg Hall x Hx. pose proof (last_break_le B x Hx) as Hle.
  assert (Hbr : ∀ c, c ∈ B → (c <=? x) = (c <=? last_break B x)).
  { intros c Hc. destruct (Z.leb_spec c x); symmetry.
    - apply Z.leb_le. by apply last_break_ge.
    - apply Z.leb_gt. lia. }
  rewrite (Hf _ _ Hbr), (Hg _ _ Hbr). apply eqb_prop.
  rewrite forallb_forall in Hall. apply Hall, list_elem_of_In, last_break_in.
Qed.

Create HintDb stepwise discriminated.
#[export] Hint Resolve stepwise_andb stepwise_orb stepwise_negb stepwise_if stepwise_const
  : stepwise.

(** ** The registry the floor follows

    The IANA special-purpose registries, as the repository's tests list
    them, most specific range first: [(base, prefix length, floored)]. *)

Definition v4 (a b c d : Z) : Z := ((a * 256 + b) * 256 + c) * 256 + d.
Definition v6 (a b c d e f g h : Z) : Z :=
  ((((((a * 65536 + b) * 65536 + c) * 65536 + d) * 65536 + e) * 65536 + f) * 65536 + g)
  * 65536 + h.

Definition registry_v4 : list (Z * Z * bool) :=
  [ (v4 192 0 0 9, 32, false); (v4 192 0 0 10, 32, false); (v4 192 88 99 2, 32, true);
    (v4 192 0 0 0, 24, true); (v4 192 0 2 0, 24, true); (v4 192 31 196 0, 24, false);
    (v4 192 52 193 0, 24, false); (v4 192 88 99 0, 24, true); (v4 192 175 48 0, 24, false);
    (v4 198 51 100 0, 24, true); (v4 203 0 113 0, 24, true);
    (v4 169 254 0 0, 16, true); (v4 192 168 0 0, 16, true);
    (v4 198 18 0 0, 15, true); (v4 172 16 0 0, 12, true); (v4 100 64 0 0, 10, true);
    (v4 0 0 0 0, 8, true); (v4 10 0 0 0, 8, true); (v4 127 0 0 0, 8, true);
    (v4 224 0 0 0, 4, true); (v4 240 0 0 0, 4, true) ].

Definition registry_v6 : list (Z * Z * bool) :=
  [ (v6 0 0 0 0 0 0 0 1, 128, true); (v6 0x2001 1 0 0 0 0 0 1, 128, false);
    (v6 0x2001 1 0 0 0 0 0 2, 128, false); (v6 0x2001 1 0 0 0 0 0 3, 128, false);
    (v6 0x100 0 0 0 0 0 0 0, 64, true); (v6 0x100 0 0 1 0 0 0 0, 64, true);
    (v6 0x64 0xff9b 1 0 0 0 0 0, 48, true); (v6 0x2001 2 0 0 0 0 0 0, 48, true);
    (v6 0x2001 4 0x112 0 0 0 0 0, 48, false); (v6 0x2620 0x4f 0x8000 0 0 0 0 0, 48, false);
    (v6 0x2001 0 0 0 0 0 0 0, 32, true); (v6 0x2001 3 0 0 0 0 0 0, 32, false);
    (v6 0x2001 0xdb8 0 0 0 0 0 0, 32, true);
    (v6 0x2001 0x10 0 0 0 0 0 0, 28, true); (v6 0x2001 0x20 0 0 0 0 0 0, 28, false);
    (v6 0x2001 0x30 0 0 0 0 0 0, 28, false); (v6 0x2001 0 0 0 0 0 0 0, 23, true);
    (v6 0x3fff 0 0 0 0 0 0 0, 20, true); (v6 0x2002 0 0 0 0 0 0 0, 16, true);
    (v6 0x5f00 0 0 0 0 0 0 0, 16, true); (v6 0xfe80 0 0 0 0 0 0 0, 10, true);
    (v6 0xfec0 0 0 0 0 0 0 0, 10, true); (v6 0xfe00 0 0 0 0 0 0 0, 9, true);
    (v6 0 0 0 0 0 0 0 0, 8, true); (v6 0x100 0 0 0 0 0 0 0, 8, true);
    (v6 0xff00 0 0 0 0 0 0 0, 8, true); (v6 0x200 0 0 0 0 0 0 0, 7, true);
    (v6 0xfc00 0 0 0 0 0 0 0, 7, true); (v6 0x400 0 0 0 0 0 0 0, 6, true);
    (v6 0xf800 0 0 0 0 0 0 0, 6, true); (v6 0x800 0 0 0 0 0 0 0, 5, true);
    (v6 0xf000 0 0 0 0 0 0 0, 5, true); (v6 0x1000 0 0 0 0 0 0 0, 4, true);
    (v6 0xe000 0 0 0 0 0 0 0, 4, true); (v6 0x2000 0 0 0 0 0 0 0, 3, false);
    (v6 0x4000 0 0 0 0 0 0 0, 3, true); (v6 0x6000 0 0 0 0 0 0 0, 3, true);
    (v6 0x8000 0 0 0 0 0 0 0, 3, true); (v6 0xa000 0 0 0 0 0 0 0, 3, true);
    (v6 0xc000 0 0 0 0 0 0 0, 3, true) ].

Definition in_range (w : Z) (r : Z * Z * bool) (ip : Z) : bool :=
  ip / 2 ^ (w - r.1.2) =? r.1.1 / 2 ^ (w - r.1.2).

(** The entry of the longest matching prefix. *)
Fixpoint classify_range (w : Z) (unlisted : bool) (t : list (Z * Z * bool)) (ip : Z) : bool :=
  match t with
  | [] => unlisted
  | r :: t => if in_range w r ip then r.2 else classify_range w unlisted t ip
  end.

(** The prefixes that carry an IPv4 address: mapped, compatible, translated
    and NAT64. *)
Definition v4_carriers : list Z :=
  [v6 0 0 0 0 0 0xffff 0 0; v6 0 0 0 0 0 0 0 0; v6 0 0 0 0 0xffff 0 0 0;
   v6 0x64 0xff9b 0 0 0 0 0 0].

(** What the registries say of an address: an unlisted IPv4 address is
    global, an unlisted IPv6 address is not. *)
Definition registry_floored (a : IpAddr) : bool :=
  match a with
  | V4 ip => classify_range 32 false registry_v4 ip
  | V6 ip =>
      if existsb (λ base, ip / 2 ^ 32 =? base / 2 ^ 32) v4_carriers
      then classify_range 32 false registry_v4 (low_v4 ip)
      else classify_range 128 true registry_v6 ip
  end.

(** The tables are ordered by prefix length, so the first match is the most
    specific one. *)
Lemma registries_most_specific_first :
  StronglySorted (λ r s : Z * Z * bool, s.1.2 ≤ r.1.2) registry_v4 ∧
  StronglySorted (λ r s : Z * Z * bool, s.1.2 ≤ r.1.2) registry_v6.
Proof. split; repeat constructor; cbn; lia. Qed.

Definition breaks (w : Z) (t : list (Z * Z * bool)) : list Z :=
  t ≫= λ r, [r.1.1 / 2 ^ (w - r.1.2) * 2 ^ (w - r.1.2);
             (r.1.1 / 2 ^ (w - r.1.2) + 1) * 2 ^ (w - r.1.2)].

Lemma in_range_between w r ip :
  r.1.2 ≤ w →
  in_range w r ip = between (r.1.1 / 2 ^ (w - r.1.2) * 2 ^ (w - r.1.2))
                            ((r.1.1 / 2 ^ (w - r.1.2) + 1) * 2 ^ (w - r.1.2)) ip.
Proof.
  intros Hr. unfold in_range, between. set (q := r.1.1 / _). set (m := 2 ^ (w - r.1.2)).
  assert (0 < m) by (apply Z.pow_pos_nonneg; lia).
  apply eq_bool_prop_intro. rewrite !andb_True, !Is_true_true, Z.eqb_eq, Z.leb_le, Z.ltb_lt.
  pose proof (Z.div_mod ip m). pose proof (Z.mod_pos_bound ip m). nia.
Qed.

Lemma stepwise_classify w unlisted t :
  Forall (λ r : Z * Z * bool, r.1.2 ≤ w) t →
  ∀ B, breaks w t ⊆ B → stepwise B (classify_range w unlisted t).
Proof.
  induction 1 as [|r t Hr _ IH]; intros B HS; cbn [classify_range]; [apply stepwise_const|].
  unfold breaks in HS. rewrite bind_cons in HS.
  apply (stepwise_if B (in_range w r) (λ _, r.2) (classify_range w unlisted t));
    [|apply stepwise_const|apply IH; intros z Hz; by apply HS; right; right].
  intros x y Hxy. rewrite !in_range_between by done.
  apply (stepwise_between B); [apply HS; left|apply HS; right; left|done].
Qed.

(** ** The floor as intervals *)

Lemma octets_of ip :
  u32 ip →
  ip = v4 (octet ip 0) (octet ip 1) (octet ip 2) (octet ip 3) ∧
  u8 (octet ip 0) ∧ u8 (octet ip 1) ∧ u8 (octet ip 2) ∧ u8 (octet ip 3).
Proof.
  intros Hip. unfold octet, v4. rewrite !Z.shiftr_div_pow2 by lia.
  cbn [Z.sub Z.mul Z.opp Z.add Z.pos_sub Pos.mul Z.pow Z.pow_pos Pos.iter].
  unfold u32 in Hip. split; [|split_and!; apply Z.mod_pos_bound; lia].
  Z.to_euclidean_division_equations. lia.
Qed.

Definition global_v4_ranges (ip : Z) : bool :=
  negb (between 0 (v4 1 0 0 0) ip
        || (between (v4 10 0 0 0) (v4 11 0 0 0) ip
            || between (v4 172 16 0 0) (v4 172 32 0 0) ip
            || between (v4 192 168 0 0) (v4 192 169 0 0) ip)
        || between (v4 100 64 0 0) (v4 100 128 0 0) ip
        || between (v4 127 0 0 0) (v4 128 0 0 0) ip
        || between (v4 169 254 0 0) (v4 169 255 0 0) ip
        || between (v4 224 0 0 0) (v4 240 0 0 0) ip
        || (between (v4 192 0 0 0) (v4 192 0 1 0) ip
            && negb (between (v4 192 0 0 9) (v4 192 0 0 10) ip)
            && negb (between (v4 192 0 0 10) (v4 192 0 0 11) ip))
        || (between (v4 192 0 2 0) (v4 192 0 3 0) ip
            || between (v4 198 51 100 0) (v4 198 51 101 0) ip
            || between (v4 203 0 113 0) (v4 203 0 114 0) ip)
        || between (v4 192 88 99 0) (v4 192 88 100 0) ip
        || between (v4 198 18 0 0) (v4 198 20 0 0) ip
        || between (v4 240 0 0 0) (v4 256 0 0 0) ip
        || between (v4 255 255 255 255) (v4 256 0 0 0) ip).

(** Boolean identities between linear comparisons. *)
Ltac bool_lia :=
  apply eq_bool_prop_intro;
  rewrite ?negb_True, ?andb_True, ?orb_True, ?Is_true_true, ?Z.eqb_eq, ?Z.leb_le, ?Z.ltb_lt;
  lia.
Ltac bool_congr :=
  repeat match goal with
  | |- negb _ = negb _ => f_equal
  | |- (_ || _) = (_ || _) => f_equal
  end; bool_lia.

Lemma is_global_v4_ranges ip : u32 ip → is_global_v4 ip = global_v4_ranges ip.
Proof.
  intros Hip. destruct (octets_of ip Hip) as (Heq & Ha & Hb & Hc & Hd).
  unfold is_global_v4, global_v4_ranges, is_private, is_loopback, is_link_local, is_multicast,
    is_broadcast, U32_MAX, u8, v4, between in *.
  set (a := octet ip 0) in *. set (b := octet ip 1) in *. set (c := octet ip 2) in *.
  set (d := octet ip 3) in *. clearbody a b c d.
  bool_congr.
Qed.

Ltac solve_stepwise :=
  repeat first [ simple apply stepwise_between | simple apply stepwise_negb
               | simple apply stepwise_orb | simple apply stepwise_andb ];
  apply (bool_decide_unpack _); vm_compute; exact I.

Lemma global_v4_registry ip :
  u32 ip → is_global_v4 ip = negb (classify_range 32 false registry_v4 ip).
Proof.
  intros Hip. rewrite is_global_v4_ranges by done.
  apply (stepwise_eq (v4 255 255 255 255 :: breaks 32 registry_v4)
           global_v4_ranges (λ ip, negb (classify_range 32 false registry_v4 ip)));
    [unfold global_v4_ranges; solve_stepwise| |by vm_compute|apply Hip].
  apply stepwise_negb, stepwise_classify; [|intros z Hz; by right].
  repeat constructor; cbn; lia.
Qed.

Lemma segments_of ip :
  0 ≤ ip ≤ U128_MAX →
  ip = v6 (segment ip 0) (segment ip 1) (segment ip 2) (segment ip 3)
          (segment ip 4) (segment ip 5) (segment ip 6) (segment ip 7) ∧
  Forall (λ i, u16 (segment ip i)) [0; 1; 2; 3; 4; 5; 6; 7].
Proof.
  intros Hip. split; [|repeat constructor; apply Z.mod_pos_bound; lia].
  set (q k := ip / 2 ^ (16 * k)).
  assert (Hseg : ∀ i j, 0 ≤ i ≤ 7 → j = 7 - i → segment ip i = q j mod 65536).
  { intros i j Hi ->. unfold segment, q. by rewrite Z.shiftr_div_pow2 by lia. }
  assert (Hstep : ∀ k k', 0 ≤ k → k' = k + 1 → q k = q k' * 65536 + q k mod 65536).
  { intros k k' Hk ->. unfold q. replace (16 * (k + 1)) with (16 * k + 16) by lia.
    rewrite Z.pow_add_r, <-Z.div_div by lia. change (2 ^ 16) with 65536.
    rewrite (Z.mul_comm _ 65536). apply Z.div_mod. lia. }
  assert (H8 : q 8 = 0) by (apply Z.div_small; unfold U128_MAX in Hip; lia).
  assert (Hq0 : ip = q 0) by (symmetry; apply Z.div_1_r).
  unfold v6. rewrite (Hseg 0 7), (Hseg 1 6), (Hseg 2 5), (Hseg 3 4), (Hseg 4 3), (Hseg 5 2),
    (Hseg 6 1), (Hseg 7 0) by lia.
  rewrite Hq0 at 1. clearbody q.
  pose proof (Hstep 0 1) as P0. pose proof (Hstep 1 2) as P1. pose proof (Hstep 2 3) as P2.
  pose proof (Hstep 3 4) as P3. pose proof (Hstep 4 5) as P4. pose proof (Hstep 5 6) as P5.
  pose proof (Hstep 6 7) as P6. pose proof (Hstep 7 8) as P7.
  lia.
Qed.

(** The first 96 bits: the segments before the embedded IPv4 address. *)
Lemma prefix96_of ip :
  0 ≤ ip ≤ U128_MAX →
  ip / 2 ^ 32 = v6 0 0 (segment ip 0) (segment ip 1) (segment ip 2) (segment ip 3)
                   (segment ip 4) (segment ip 5).
Proof.
  intros Hip. destruct (segments_of ip Hip) as [Heq Hs].
  rewrite !Forall_cons in Hs. destruct Hs as (_&_&_&_&_&_&H6&H7&_). unfold u16 in *.
  rewrite Heq at 1. unfold v6. change (2 ^ 32) with 4294967296.
  symmetry. apply Z.div_unique_pos with (segment ip 6 * 65536 + segment ip 7); lia.
Qed.

Ltac with_segments ip Hip :=
  destruct (segments_of ip Hip) as [Heq Hs]; pose proof (prefix96_of ip Hip) as Htop;
  rewrite !Forall_cons in Hs; destruct Hs as (Hs0 & Hs1 & Hs2 & Hs3 & Hs4 & Hs5 & Hs6 & Hs7 & _);
  cbn beta in *; unfold u16, v6 in *; cbn [forallb];
  generalize dependent (segment ip 0); intros s0; generalize dependent (segment ip 1); intros s1;
  generalize dependent (segment ip 2); intros s2; generalize dependent (segment ip 3); intros s3;
  generalize dependent (segment ip 4); intros s4; generalize dependent (segment ip 5); intros s5;
  generalize dependent (segment ip 6); intros s6; generalize dependent (segment ip 7); intros s7;
  intros.

Lemma to_ipv4_prefix ip :
  0 ≤ ip ≤ U128_MAX →
  to_ipv4 ip = if (ip / 2 ^ 32 =? 0) || (ip / 2 ^ 32 =? 0xffff)
               then Some (low_v4 ip) else None.
Proof.
  intros Hip. unfold to_ipv4. with_segments ip Hip.
  apply (f_equal (λ b : bool, if b then _ else _)). rewrite Htop. bool_lia.
Qed.

Lemma embedded_ipv4_prefix ip :
  0 ≤ ip ≤ U128_MAX →
  embedded_ipv4 ip =
    if (ip / 2 ^ 32 =? 0) || (ip / 2 ^ 32 =? 0xffff) || (ip / 2 ^ 32 =? 0xffff0000)
    then Some (low_v4 ip) else None.
Proof.
  intros Hip. unfold embedded_ipv4. rewrite to_ipv4_prefix by done.
  destruct (_ || _); [done|]. cbn [orb].
  with_segments ip Hip.
  apply (f_equal (λ b : bool, if b then _ else _)). rewrite Htop. bool_lia.
Qed.

Lemma nat64_prefix ip :
  0 ≤ ip ≤ U128_MAX →
  nat64_well_known_v4 ip =
    if ip / 2 ^ 32 =? v6 0 0 0x64 0xff9b 0 0 0 0 then Some (low_v4 ip) else None.
Proof.
  intros Hip. unfold nat64_well_known_v4. with_segments ip Hip.
  apply (f_equal (λ b : bool, if b then _ else _)). rewrite Htop. bool_lia.
Qed.

(** [is_global_v6] outside NAT64, as intervals. *)
Definition global_v6_ranges (ip : Z) : bool :=
  negb (negb (between (v6 0x2000 0 0 0 0 0 0 0) (v6 0x4000 0 0 0 0 0 0 0) ip)
        || (between (v6 0x2001 0 0 0 0 0 0 0) (v6 0x2001 0x200 0 0 0 0 0 0) ip
            && negb (between (v6 0x2001 1 0 0 0 0 0 1) (v6 0x2001 1 0 0 0 0 0 4) ip)
            && negb (between (v6 0x2001 3 0 0 0 0 0 0) (v6 0x2001 4 0 0 0 0 0 0) ip
                     || between (v6 0x2001 4 0x112 0 0 0 0 0) (v6 0x2001 4 0x113 0 0 0 0 0) ip)
            && negb (between (v6 0x2001 0x20 0 0 0 0 0 0) (v6 0x2001 0x40 0 0 0 0 0 0) ip))
        || between (v6 0x2002 0 0 0 0 0 0 0) (v6 0x2003 0 0 0 0 0 0 0) ip
        || between (v6 0x2001 0xdb8 0 0 0 0 0 0) (v6 0x2001 0xdb9 0 0 0 0 0 0) ip
        || between (v6 0x3fff 0 0 0 0 0 0 0) (v6 0x3fff 0x1000 0 0 0 0 0 0) ip).

Lemma land_e000 a : u16 a → (Z.land a 0xe000 =? 0x2000) = ((0x2000 <=? a) && (a <? 0x4000)).
Proof.
  intros Ha. change 0xe000 with (Z.land (Z.shiftl (Z.ones 16) 13) (Z.ones 16)).
  rewrite land_ones_shifted by (unfold u16 in Ha; lia). unfold u16 in Ha.
  change (2 ^ 13) with 8192. pose proof (Z.div_mod a 8192). pose proof (Z.mod_pos_bound a 8192).
  bool_lia.
Qed.

Lemma is_global_v6_ranges ip :
  0 ≤ ip ≤ U128_MAX → nat64_well_known_v4 ip = None → is_global_v6 ip = global_v6_ranges ip.
Proof.
  intros Hip Hnat. unfold is_global_v6. rewrite Hnat. clear Hnat. rewrite land_e000
    by (apply Z.mod_pos_bound; lia).
  unfold global_v6_ranges, between. with_segments ip Hip. clear Htop Hip.
  bool_congr.
Qed.

Lemma global_v6_registry ip :
  0 ≤ ip → global_v6_ranges ip = negb (classify_range 128 true registry_v6 ip).
Proof.
  intros Hip.
  apply (stepwise_eq (breaks 128 registry_v6)
           global_v6_ranges (λ ip, negb (classify_range 128 true registry_v6 ip)));
    [unfold global_v6_ranges; solve_stepwise| |by vm_compute|done].
  apply stepwise_negb, stepwise_classify; [|done]. repeat constructor; cbn; lia.
Qed.

(** ** Claims *)

(** C35. The floor is the registries: for every IPv4 and IPv6 address, the
    octet and segment tests of the code agree with a longest-prefix match in
    the table of special-purpose ranges, where an IPv6 address that carries an
    IPv4 address (mapped, compatible, translated or NAT64) is classified by
    the address it carries. *)
Theorem floor_matches_registry a : ip_wf a → is_floored a = registry_floored a.
Proof.
  destruct a as [ip|ip]; intros Hip; cbn [is_floored registry_floored].
  { by rewrite global_v4_registry, negb_involutive. }
  assert (Hlow : u32 (low_v4 ip)) by (apply Z.mod_pos_bound; lia).
  rewrite embedded_ipv4_prefix by done. set (h := ip / 2 ^ 32).
  replace (existsb _ v4_carriers) with
    ((h =? 0) || (h =? 0xffff) || (h =? 0xffff0000) || (h =? v6 0 0 0x64 0xff9b 0 0 0 0))
    by (change (existsb _ _) with ((h =? 0xffff) || ((h =? 0) || ((h =? 0xffff0000) ||
          ((h =? v6 0 0 0x64 0xff9b 0 0 0 0) || false)))); bool_lia).
  destruct (_ || _ || (h =? 0xffff0000)); cbn [orb].
  { by rewrite global_v4_registry, negb_involutive. }
  pose proof (nat64_prefix ip Hip) as Hnat. fold h in Hnat.
  destruct (h =? v6 0 0 0x64 0xff9b 0 0 0 0).
  - unfold is_global_v6. by rewrite Hnat, global_v4_registry, negb_involutive.
  - by rewrite is_global_v6_ranges, global_v6_registry, negb_involutive by first [done|apply Hip].
Qed.

(** The metadata service, written as a NAT64 address. *)
Lemma floor_matches_registry_witness :
  is_floored (V6 (v6 0x64 0xff9b 0 0 0 0 0xa9fe 0xa9fe)) =
  registry_floored (V6 (v6 0x64 0xff9b 0 0 0 0 0xa9fe 0xa9fe)).
Proof. apply (floor_matches_registry (V6 (v6 0x64 0xff9b 0 0 0 0 0xa9fe 0xa9fe))). by vm_compute. Defined.
