(* ===== verification/PolicyRules.v ===== *)
(** * Names, allow rules and host records

    [crates/terra-policy/src/hostname.rs], [rules.rs] and the textual half of
    [address.rs]: what a recipe's [allow:] and [hosts:] entries mean.

    A Rust [str] is the list of its Unicode scalar values; [str_len] is its
    length in UTF-8 bytes. The functions of the standard library the code
    uses on text come first: trimming, splitting, stripping, unsigned integer
    parsing and the address parser of [core::net]. *)

From S2P Require Import Prelude PolicyAddress.
From stdpp Require Import strings sets.

Local Open Scope Z_scope.

(** ** Text *)

Definition str : Type := list Z.

(** A literal of the source. *)
Fixpoint lit (s : string) : str :=
  match s with
  | EmptyString => []
  | String c s => Z.of_nat (Ascii.nat_of_ascii c) :: lit s
  end.

Definition utf8_len (c : Z) : Z :=
  if c <? 0x80 then 1 else if c <? 0x800 then 2 else if c <? 0x10000 then 3 else 4.
Definition str_len (s : str) : Z := sumZ (utf8_len <$> s).

(** [char::is_whitespace], the Unicode property [White_Space]. *)
Definition is_whitespace (c : Z) : bool :=
  ((9 <=? c) && (c <=? 13)) || (c =? 32) || (c =? 0x85) || (c =? 0xa0) || (c =? 0x1680)
  || ((0x2000 <=? c) && (c <=? 0x200a)) || (c =? 0x2028) || (c =? 0x2029) || (c =? 0x202f)
  || (c =? 0x205f) || (c =? 0x3000).

Fixpoint drop_while (p : Z → bool) (s : str) : str :=
  match s with
  | [] => []
  | c :: t => if p c then drop_while p t else s
  end.

Definition trim_end_by (p : Z → bool) (s : str) : str := rev (drop_while p (rev s)).
Definition trim (s : str) : str := trim_end_by is_whitespace (drop_while is_whitespace s).
Definition trim_end_matches (c : Z) (s : str) : str := trim_end_by (Z.eqb c) s.

Definition ascii_lower (c : Z) : Z := if (65 <=? c) && (c <=? 90) then c + 32 else c.
Definition to_ascii_lowercase (s : str) : str := ascii_lower <$> s.
Definition eq_ignore_ascii_case (s t : str) : bool :=
  bool_decide (to_ascii_lowercase s = to_ascii_lowercase t).

Definition contains_char (c : Z) (s : str) : bool := existsb (Z.eqb c) s.
Definition starts_with (c : Z) (s : str) : bool :=
  match s with d :: _ => d =? c | [] => false end.
Definition ends_with (c : Z) (s : str) : bool := starts_with c (rev s).

Fixpoint strip_prefix (p s : str) : option str :=
  match p, s with
  | [], s => Some s
  | a :: p, b :: s => if a =? b then strip_prefix p s else None
  | _ :: _, [] => None
  end.
Definition strip_suffix (p s : str) : option str :=
  rev (A := Z) <$> strip_prefix (rev p) (rev s).

(** [str::split] at a character: the pieces, never none. *)
Fixpoint split (c : Z) (s : str) : list str :=
  match s with
  | [] => [[]]
  | d :: s =>
      if d =? c then [] :: split c s
      else match split c s with
           | l :: ls => (d :: l) :: ls
           | [] => [[d]]
           end
  end.

(** [str::split_once] at the first occurrence of a text, and [rsplit_once] at
    the last occurrence of a character. *)
Fixpoint split_once (p s : str) : option (str * str) :=
  match strip_prefix p s, s with
  | Some rest, _ => Some ([], rest)
  | None, [] => None
  | None, c :: s => (λ '(a, b), (c :: a, b)) <$> split_once p s
  end.
Definition rsplit_once (c : Z) (s : str) : option (str * str) :=
  (λ '(a, b), (rev b, rev a)) <$> split_once [c] (rev s).

(** *** [char::to_digit] and the integer parsers *)

Definition to_digit (radix c : Z) : option Z :=
  let d := if (48 <=? c) && (c <=? 57) then c - 48
           else if (97 <=? c) && (c <=? 122) then c - 87
           else if (65 <=? c) && (c <=? 90) then c - 55
           else 36 in
  if d <? radix then Some d else None.

Fixpoint parse_digits (max acc : Z) (s : str) : option Z :=
  match s with
  | [] => Some acc
  | c :: s =>
      d ← to_digit 10 c;
      let acc := acc * 10 + d in
      if acc <=? max then parse_digits max acc s else None
  end.

(** [s.parse::<uN>()] for the unsigned type whose largest value is [max]: one
    leading plus sign is accepted, a minus sign is not a digit. *)
Definition parse_unsigned (max : Z) (s : str) : option Z :=
  match s with
  | [] => None
  | [c] => if (c =? 43) || (c =? 45) then None else parse_digits max 0 [c]
  | c :: t => if c =? 43 then parse_digits max 0 t else parse_digits max 0 (c :: t)
  end.

(** *** [core::net]'s parser: each reader returns what it read and the rest *)

Definition reader (A : Type) : Type := str → option (A * str).

Definition read_given_char (target : Z) : reader unit :=
  λ s, match s with c :: t => if c =? target then Some (tt, t) else None | [] => None end.

(** The digit loop of [read_number]: the value, the number of digits and the
    rest, or [None] when there are more than [max_digits]. *)
Fixpoint read_digits (radix max_digits result count : Z) (s : str) : option (Z * Z * str) :=
  match s with
  | [] => Some (result, count, [])
  | c :: t =>
      match to_digit radix c with
      | None => Some (result, count, s)
      | Some d =>
          if max_digits <? count + 1 then None
          else read_digits radix max_digits (result * radix + d) (count + 1) t
      end
  end.

Definition read_number (radix max_digits : Z) (allow_zero_prefix : bool) (max : Z) : reader Z :=
  λ s,
    let has_leading_zero := starts_with 48 s in
    '(result, count, rest) ← read_digits radix max_digits 0 0 s;
    if count =? 0 then None
    else if negb allow_zero_prefix && has_leading_zero && (1 <? count) then None
    else if result <=? max then Some (result, rest) else None.

Definition read_separator {A} (sep : Z) (index : nat) (inner : reader A) : reader A :=
  λ s, match index with
       | O => inner s
       | S _ => '(_, s) ← read_given_char sep s; inner s
       end.

Definition dot : Z := 46.
Definition colon : Z := 58.

(** [n] more octets of an IPv4 address, from the octet numbered [i]. *)
Fixpoint read_octets (n i : nat) (s : str) : option (list Z * str) :=
  match n with
  | O => Some ([], s)
  | S n =>
      '(o, s) ← read_separator dot i (read_number 10 3 false 255) s;
      '(os, s) ← read_octets n (S i) s;
      Some (o :: os, s)
  end.
Definition read_ipv4_addr : reader Z :=
  λ s, '(os, s) ← read_octets 4 0 s; Some (from_be os, s).

(** [read_groups] into [limit] slots: the groups read, whether the last two
    came from an embedded IPv4 address, and the rest. *)
Fixpoint read_groups_from (slots i : nat) (s : str) : list Z * bool * str :=
  match slots with
  | O => ([], false, s)
  | S slots =>
      match (match slots with
             | O => None
             | S _ => read_separator colon i read_ipv4_addr s
             end) with
      | Some (v4, s) => ([v4 / 65536; v4 mod 65536], true, s)
      | None =>
          match read_separator colon i (read_number 16 4 true U16_MAX) s with
          | Some (g, s) =>
              let '(gs, ipv4, s) := read_groups_from slots (S i) s in (g :: gs, ipv4, s)
          | None => ([], false, s)
          end
      end
  end.
Definition read_groups (limit : nat) (s : str) : list Z * bool * str :=
  read_groups_from limit 0 s.

Definition from_segments (l : list Z) : Z := foldl (λ acc g, acc * 65536 + g) 0 l.

Definition read_ipv6_addr : reader Z :=
  λ s,
    let '(head, head_ipv4, s) := read_groups 8 s in
    if (length head =? 8)%nat then Some (from_segments head, s)
    else if (head_ipv4 : bool) then None
    else
      '(_, s) ← read_given_char colon s;
      '(_, s) ← read_given_char colon s;
      let '(tail, _, s) := read_groups (8 - (length head + 1)) s in
      Some (from_segments (head ++ replicate (8 - length head - length tail) 0 ++ tail), s).

Definition read_ip_addr : reader IpAddr :=
  λ s, match read_ipv4_addr s with
       | Some (ip, s) => Some (V4 ip, s)
       | None => '(ip, s) ← read_ipv6_addr s; Some (V6 ip, s)
       end.

Definition parse_with {A} (inner : reader A) (s : str) : option A :=
  match inner s with Some (a, []) => Some a | _ => None end.

Definition parse_ipv6 : str → option Z := parse_with read_ipv6_addr.
Definition parse_ip : str → option IpAddr := parse_with read_ip_addr.

(** ** Host names *)

Definition MAX_NAME_BYTES : Z := 256.

Definition is_ascii_alphanumeric (c : Z) : bool :=
  ((48 <=? c) && (c <=? 57)) || ((65 <=? c) && (c <=? 90)) || ((97 <=? c) && (c <=? 122)).

Definition dash : Z := 45.

(** The test on one label. A character outside ASCII is only non-ASCII bytes,
    so the test on bytes is the test on characters. *)
Definition valid_label (label : str) : bool :=
  ((1 <=? str_len label) && (str_len label <=? 63))
  && negb (starts_with dash label)
  && negb (ends_with dash label)
  && forallb (λ c, is_ascii_alphanumeric c || (c =? dash)) label.

Definition normalize_hostname (hostname : str) : option str :=
  if MAX_NAME_BYTES <? str_len hostname then None else
  let hostname := to_ascii_lowercase (trim_end_matches dot hostname) in
  if ((1 <=? str_len hostname) && (str_len hostname <=? 253))
     && forallb valid_label (split dot hostname)
  then Some hostname else None.

(** ** Ranges as text: [Cidr::parse] *)

Definition slash : Z := 47.

Definition cidr_parse (spec : str) : option Cidr :=
  '(addr, prefix) ← (match split_once [slash] (trim spec) with
                     | Some (addr, prefix) =>
                         prefix ← parse_unsigned 255 prefix; Some (addr, Some prefix)
                     | None => Some (trim spec, None)
                     end);
  address ← parse_ip addr;
  cidr_of_prefix address prefix.

(** ** Rules *)

Definition HOST_LOOPBACK_SYMBOL : str := lit "HOST_LOOPBACK".

Definition Port : Type := option Z.

Inductive Rule : Type :=
| Rule_Host (port : Port)
| Rule_Addr (cidr : Cidr) (port : Port)
| Rule_Name (name : str) (port : Port).

#[export] Instance Rule_eq_dec : EqDecision Rule.
Proof. solve_decision. Defined.

(** The messages of the policy's errors, with what they quote. *)
Inductive PolicyError : Type :=
| BadWildcard (entry : str)
| NotAPort (entry text : str)
| UnclosedBracket (entry : str)
| AmbiguousV6 (entry : str)
| PrefixOutOfRange (entry : str)
| WildcardAddress (entry : str)
| NotAName (entry : str)
| RecordEmptyName
| RecordWildcard (name : str)
| RecordBadName (name : str)
| RecordBadAddress (name addr : str)
| DuplicateRecord (name : str)
| Port53Blocked (entry : str)
| GatewayRule (entry : str) (gateway : IpAddr)
| OpensNothing (entry : str)
| TooManyRules
| TooManyHostAddresses
| EntryTooLong
| ConfigTooLarge
| TooManyGrants.

#[export] Instance PolicyError_eq_dec : EqDecision PolicyError.
Proof. solve_decision. Defined.

Definition wild : str := lit "*.".

Definition name_covers (rule name : str) : bool :=
  match strip_prefix wild rule with
  | None => bool_decide (rule = name)
  | Some parent =>
      match strip_suffix parent name with
      | Some sub => ends_with dot sub && (1 <? str_len sub)
      | None => false
      end
  end.

Definition parse_port (text : str) : option Z :=
  let text := trim text in
  match parse_unsigned U16_MAX text with
  | Some port => if negb (port =? 0) && negb (starts_with 43 text) then Some port else None
  | None => None
  end.

Definition is_none {A} (o : option A) : bool := match o with None => true | Some _ => false end.
Definition is_some {A} (o : option A) : bool := negb (is_none o).

Definition split_host_port (entry : str) : result PolicyError (str * Port) :=
  let parse_rule_port text := ok_or (NotAPort entry text) (parse_port text) in
  match strip_prefix (lit "[") entry with
  | Some rest =>
      match strip_suffix (lit "]") rest with
      | Some host => Ok (host, None)
      | None =>
          '(host, port_text) ← ok_or (UnclosedBracket entry) (split_once (lit "]:") rest);
          port ← parse_rule_port port_text;
          Ok (host, Some port)
      end
  | None =>
      match rsplit_once colon entry with
      | Some (host, port_text) =>
          if negb (bool_decide (host = [])) && negb (contains_char colon host) then
            port ← parse_rule_port port_text; Ok (host, Some port)
          else if is_some (parse_ipv6 host) && is_some (parse_port port_text) then
            Err (AmbiguousV6 entry)
          else Ok (entry, None)
      | None => Ok (entry, None)
      end
  end.

Definition classify (entry host : str) (port : Port) : result PolicyError Rule :=
  if eq_ignore_ascii_case host HOST_LOOPBACK_SYMBOL then Ok (Rule_Host port) else
  let addr := match split_once [slash] host with Some (addr, _) => addr | None => host end in
  if is_some (parse_ip addr) then
    cidr ← ok_or (PrefixOutOfRange entry) (cidr_parse host);
    Ok (Rule_Addr cidr port)
  else
    let '(wildcard, name_without_wildcard) :=
      match strip_prefix wild host with
      | Some parent => (wild, parent)
      | None => ([], host)
      end in
    if negb (bool_decide (wildcard = [])) && is_some (parse_ip name_without_wildcard)
    then Err (WildcardAddress entry)
    else
      name ← ok_or (NotAName entry)
               ((λ normalized, wildcard ++ normalized)
                  <$> normalize_hostname name_without_wildcard);
      Ok (Rule_Name name port).

Definition parse_allow (entry : str) : result PolicyError Rule :=
  let entry := trim entry in
  let after_wildcard := default entry (strip_prefix wild entry) in
  if contains_char 42 after_wildcard || bool_decide (after_wildcard = [])
  then Err (BadWildcard entry)
  else
    '(host, port) ← split_host_port entry;
    classify entry host port.

(** ** Host records *)

Record StaticDnsRecord := mkStaticDnsRecord { record_name : str; record_addr : str }.

Definition parse_dns_record (rule : StaticDnsRecord) (gateway_addrs : IpAddr * IpAddr)
    : result PolicyError (str * list IpAddr) :=
  if bool_decide (trim (record_name rule) = []) then Err RecordEmptyName else
  if contains_char 42 (record_name rule) then Err (RecordWildcard (record_name rule)) else
  key ← ok_or (RecordBadName (record_name rule)) (normalize_hostname (record_name rule));
  let addr := trim (record_addr rule) in
  addrs ← (if eq_ignore_ascii_case addr HOST_LOOPBACK_SYMBOL
           then Ok [gateway_addrs.1; gateway_addrs.2]
           else
             ip ← ok_or (RecordBadAddress (record_name rule) (record_addr rule)) (parse_ip addr);
             Ok [to_canonical ip]);
  Ok (key, addrs).

Definition is_host_loopback (address : IpAddr) : bool :=
  bool_decide (address = V4 (v4 127 0 0 1)) || bool_decide (address = V6 1).

(** The spellings the repository's tests pin down. *)
Definition spell (s : string) : result PolicyError (str * Port) := split_host_port (lit s).
Example spellings :
  spell "[db.local]" = Ok (lit "db.local", None) ∧
  spell "[db.local]:5432" = Ok (lit "db.local", Some 5432) ∧
  spell "db.local:5432" = Ok (lit "db.local", Some 5432) ∧
  spell "::1" = Ok (lit "::1", None) ∧
  spell "[2001:db8::1]:443" = Ok (lit "2001:db8::1", Some 443) ∧
  spell "8.8.8.0/24:443" = Ok (lit "8.8.8.0/24", Some 443) ∧
  spell "fe80::1:2" = Err (AmbiguousV6 (lit "fe80::1:2")) ∧
  parse_allow (lit "8.8.8.0/24:443") = Ok (Rule_Addr (CidrV4 (v4 8 8 8 0) 0xffffff00) (Some 443)) ∧
  parse_allow (lit "::ffff:1.1.1.0/120") = Ok (Rule_Addr (CidrV4 (v4 1 1 1 0) 0xffffff00) None) ∧
  parse_allow (lit "[64:ff9b::1.2.3.4]") =
    Ok (Rule_Addr (CidrV6 (v6 0x64 0xff9b 0 0 0 0 0x102 0x304) U128_MAX) None) ∧
  parse_allow (lit " host_loopback:22") = Ok (Rule_Host (Some 22)) ∧
  parse_allow (lit "*.Example.COM.:+1") = Err (NotAPort (lit "*.Example.COM.:+1") (lit "+1")) ∧
  parse_allow (lit "*.Example.COM.") = Ok (Rule_Name (lit "*.example.com") None).
Proof. by vm_compute. Qed.

(** ** Lemmas on text *)

Lemma strip_prefix_Some p s t : strip_prefix p s = Some t ↔ s = p ++ t.
Proof.
  revert s. induction p as [|a p IH]; intros s; cbn; [split; congruence|].
  destruct s as [|b s]; [done|]. destruct (Z.eqb_spec a b) as [->|Hab].
  - rewrite IH. split; congruence.
  - split; congruence.
Qed.

Lemma strip_suffix_Some p s t : strip_suffix p s = Some t ↔ s = t ++ p.
Proof.
  unfold strip_suffix. rewrite fmap_Some. setoid_rewrite strip_prefix_Some. split.
  - intros (x & Hx & ->). rewrite <-(rev_involutive s), Hx, rev_app_distr.
    by rewrite rev_involutive.
  - intros ->. exists (rev t). by rewrite rev_app_distr, rev_involutive.
Qed.

Lemma strip_prefix_app p t : strip_prefix p (p ++ t) = Some t.
Proof. by apply strip_prefix_Some. Qed.
Lemma strip_suffix_app p t : strip_suffix p (t ++ p) = Some t.
Proof. by apply strip_suffix_Some. Qed.

(** The first character decides. *)
Lemma strip_prefix_head a p b s : a ≠ b → strip_prefix (a :: p) (b :: s) = None.
Proof. intros Hab. cbn. by rewrite (proj2 (Z.eqb_neq a b)). Qed.

Lemma split_once_absent c s : c ∉ s → split_once [c] s = None.
Proof.
  induction s as [|d s IH]; intros Hc; [done|]. rewrite not_elem_of_cons in Hc.
  cbn. rewrite (proj2 (Z.eqb_neq c d)) by tauto. by rewrite IH by tauto.
Qed.

(** The first occurrence of [c :: p] in [a ++ c :: p ++ b] when [a] is free
    of [c]. *)
Lemma split_once_first c p a b : c ∉ a → split_once (c :: p) (a ++ (c :: p) ++ b) = Some (a, b).
Proof.
  induction a as [|d a IH]; intros Hc; cbn [app split_once].
  - pose proof (strip_prefix_app (c :: p) b) as Hp. cbn [app] in Hp. by rewrite Hp.
  - rewrite not_elem_of_cons in Hc. cbn [app] in IH.
    by rewrite strip_prefix_head, IH by tauto.
Qed.

Lemma not_elem_of_rev (c : Z) s : c ∉ s → c ∉ rev s.
Proof. by rewrite !list_elem_of_In, <-in_rev. Qed.

Lemma rsplit_once_last c a b : c ∉ b → rsplit_once c (a ++ [c] ++ b) = Some (a, b).
Proof.
  intros Hc. unfold rsplit_once. rewrite !rev_app_distr, <-app_assoc.
  change (rev [c]) with [c].
  rewrite (split_once_first c [] (rev b) (rev a)) by by apply not_elem_of_rev.
  cbn. by rewrite !rev_involutive.
Qed.

Lemma rsplit_once_absent c s : c ∉ s → rsplit_once c s = None.
Proof. intros Hc. unfold rsplit_once. by rewrite split_once_absent by by apply not_elem_of_rev. Qed.

Lemma contains_char_false c s : contains_char c s = false ↔ c ∉ s.
Proof.
  unfold contains_char. rewrite <-not_true_iff_false, existsb_exists, list_elem_of_In.
  split; intros Hno; [intros Hin; apply Hno; exists c; split; [done|apply Z.eqb_refl]|].
  intros (d & Hd & Heq). apply Z.eqb_eq in Heq as <-. done.
Qed.

(** Trimming stops at once on text that has nothing to trim. *)
Lemma drop_while_none p s : Forall (λ c, p c = false) s → drop_while p s = s.
Proof. by intros [|c t Hc _]; cbn; rewrite ?Hc. Qed.

Lemma trim_end_by_none p s : Forall (λ c, p c = false) s → trim_end_by p s = s.
Proof.
  intros Hs. unfold trim_end_by. rewrite drop_while_none by by apply Forall_rev.
  apply rev_involutive.
Qed.

Lemma trim_none s : Forall (λ c, is_whitespace c = false) s → trim s = s.
Proof. intros Hs. unfold trim. rewrite drop_while_none by done. by apply trim_end_by_none. Qed.

(** ** Labels *)

Fixpoint join (c : Z) (ls : list str) : str :=
  match ls with
  | [] => []
  | [l] => l
  | l :: ls => l ++ c :: join c ls
  end.

Lemma split_nonempty c s : split c s ≠ [].
Proof. destruct s as [|d s]; cbn; [done|]. by repeat case_match. Qed.

Lemma split_app c a b : split c (a ++ c :: b) = split c a ++ split c b.
Proof.
  induction a as [|d a IH]; cbn [app split]; [by rewrite Z.eqb_refl|].
  rewrite IH. destruct (d =? c); [done|].
  pose proof (split_nonempty c a). by destruct (split c a).
Qed.

Lemma join_cons c l ls : ls ≠ [] → join c (l :: ls) = l ++ c :: join c ls.
Proof. by destruct ls. Qed.

Lemma join_split c s : join c (split c s) = s.
Proof.
  induction s as [|d s IH]; [done|]. cbn [split]. pose proof (split_nonempty c s).
  destruct (Z.eqb_spec d c) as [->|Hd].
  - by rewrite join_cons, IH by done.
  - destruct (split c s) as [|l [|l' ls]] eqn:Hs; [done|by rewrite <-IH|].
    rewrite join_cons in IH |- * by done. by rewrite <-IH.
Qed.

Lemma join_app c ls ks :
  ls ≠ [] → ks ≠ [] → join c (ls ++ ks) = join c ls ++ c :: join c ks.
Proof.
  intros Hls Hks. induction ls as [|l ls IH]; [done|]. cbn [app].
  destruct ls as [|l' ls]; [by apply join_cons|].
  rewrite !join_cons by (try done; by destruct ks). rewrite IH by done.
  by rewrite <-app_assoc.
Qed.

(** The characters of a host name. *)
Definition name_char (c : Z) : Prop :=
  is_ascii_alphanumeric c = true ∨ c = dash ∨ c = dot.

Lemma Forall_join P c ls : P c → Forall (Forall P) ls → Forall P (join c ls).
Proof.
  intros Hc. induction 1 as [|l ls Hl Hls IH]; [constructor|].
  destruct ls; [done|]. cbn [join]. apply Forall_app. split; [done|]. by constructor.
Qed.

Lemma normalize_hostname_Some h n :
  normalize_hostname h = Some n →
  n = to_ascii_lowercase (trim_end_matches dot h) ∧ 1 ≤ str_len n ≤ 253 ∧
  Forall (λ l, valid_label l = true) (split dot n).
Proof.
  unfold normalize_hostname. destruct (MAX_NAME_BYTES <? _); [done|].
  destruct (_ && _) eqn:Hok; [|done]. intros [= <-]. breflect.
  split; [done|]. split; [lia|]. apply Forall_forall. intros l Hl.
  rewrite forallb_forall in H0. apply H0. by apply list_elem_of_In.
Qed.

Lemma valid_label_nonempty l : valid_label l = true → l ≠ [].
Proof. by intros Hl ->. Qed.

Lemma valid_label_chars l : valid_label l = true → Forall name_char l.
Proof.
  unfold valid_label. intros Hl. apply andb_prop in Hl as [_ Hl].
  rewrite forallb_forall in Hl. apply Forall_forall. intros c Hc.
  apply list_elem_of_In in Hc. specialize (Hl c Hc). apply orb_prop in Hl as [Hl|Hl].
  - by left.
  - right. left. by apply Z.eqb_eq.
Qed.

Lemma normalize_hostname_chars h n : normalize_hostname h = Some n → Forall name_char n.
Proof.
  intros Hn. apply normalize_hostname_Some in Hn as (_ & _ & Hls).
  rewrite <-(join_split dot n). apply Forall_join; [by right; right|].
  eapply Forall_impl; [exact Hls|]. intros l. apply valid_label_chars.
Qed.

(** Characters that no host name contains. *)
Lemma name_char_absent c s : ¬ name_char c → Forall name_char s → c ∉ s.
Proof. intros Hc Hs Hin. rewrite Forall_forall in Hs. by apply Hc, Hs. Qed.

Ltac not_name_char := unfold name_char; vm_compute; intuition discriminate.

Lemma normalize_hostname_unstarred h n s :
  normalize_hostname h = Some n → strip_prefix wild n = Some s → False.
Proof.
  intros Hn Hs. apply normalize_hostname_chars in Hn. apply strip_prefix_Some in Hs as ->.
  apply Forall_app in Hn as [Hn _]. apply Forall_cons in Hn as [Hn _]. revert Hn. not_name_char.
Qed.

Lemma str_len_app a b : str_len (a ++ b) = str_len a + str_len b.
Proof. unfold str_len. by rewrite fmap_app, sumZ_app. Qed.

Lemma utf8_len_pos c : 1 ≤ utf8_len c.
Proof. unfold utf8_len. split_ifs; lia. Qed.

Lemma str_len_pos s : s ≠ [] → 1 ≤ str_len s.
Proof.
  destruct s as [|c s]; [done|]. intros _. unfold str_len. rewrite fmap_cons, sumZ_cons.
  pose proof (utf8_len_pos c).
  pose proof (sumZ_fmap_nonneg utf8_len s ltac:(intros x; pose proof (utf8_len_pos x); lia)).
  lia.
Qed.

Lemma ends_with_snoc c s : ends_with c s = true ↔ ∃ t, s = t ++ [c].
Proof.
  unfold ends_with, starts_with. split.
  - destruct (rev s) as [|d t] eqn:Hs; [done|]. rewrite Z.eqb_eq. intros ->.
    exists (rev t). by rewrite <-(rev_involutive s), Hs.
  - intros [t ->]. rewrite rev_app_distr. cbn. apply Z.eqb_refl.
Qed.

(** A wildcard covers exactly the names with more labels on the left. *)
Lemma wild_covers p n :
  Forall (λ l, l ≠ []) (split dot n) →
  name_covers (wild ++ p) n = true ↔ ∃ ls, ls ≠ [] ∧ split dot n = ls ++ split dot p.
Proof.
  intros Hn. unfold name_covers. rewrite strip_prefix_app. split.
  - destruct (strip_suffix p n) as [sub|] eqn:Hsub; [|done].
    apply strip_suffix_Some in Hsub as ->. intros [Hend _]%andb_prop.
    apply ends_with_snoc in Hend as [t ->]. exists (split dot t).
    split; [apply split_nonempty|]. rewrite <-app_assoc. apply split_app.
  - intros (ls & Hls & Heq). assert (Hj : n = (join dot ls ++ [dot]) ++ p).
    { rewrite <-(join_split dot n), Heq, join_app, join_split by (done || apply split_nonempty).
      by rewrite <-app_assoc. }
    rewrite Hj, strip_suffix_app. apply andb_true_intro. split; [apply ends_with_snoc; eauto|].
    apply Z.ltb_lt. rewrite str_len_app. change (str_len [dot]) with 1.
    assert (Hne : join dot ls ≠ []); [|pose proof (str_len_pos _ Hne); lia].
    rewrite Heq in Hn. apply Forall_app in Hn as [Hn _]. destruct ls as [|l ls]; [done|].
    apply Forall_cons in Hn as [Hl _]. by destruct ls; cbn; destruct l.
Qed.

(** What a name rule of the recipe can be. *)
Lemma parse_allow_name e r port :
  parse_allow e = Ok (Rule_Name r port) →
  ∃ h m, normalize_hostname h = Some m ∧ (r = m ∨ r = wild ++ m).
Proof.
  unfold parse_allow. destruct (_ || _); [done|].
  destruct (split_host_port _) as [[host prt]|err]; rsimpl; [|done].
  unfold classify. destruct (eq_ignore_ascii_case _ _); [done|].
  destruct (is_some _) in |- *.
  { destruct (cidr_parse host); by rsimpl. }
  destruct (strip_prefix wild host) as [parent|].
  - destruct (negb _ && _); [done|].
    destruct (normalize_hostname parent) as [m|] eqn:Hm; cbn; [|done].
    intros [= <- _]. eauto.
  - destruct (negb _ && _); [done|].
    destruct (normalize_hostname host) as [m|] eqn:Hm; cbn; [|done].
    intros [= <- _]. eauto.
Qed.

(** ** Writing a rule

    The canonical spelling of a rule, and what it is meant to be. The
    reference for the parser: an address rule is written as its octets or its
    eight groups and a prefix length. *)

Fixpoint digits (radix : Z) (fuel : nat) (z : Z) : list Z :=
  match fuel with
  | O => []
  | S fuel => if z <? radix then [z] else digits radix fuel (z / radix) ++ [z mod radix]
  end.
Definition digit_char (d : Z) : Z := if d <? 10 then 48 + d else 87 + d.
Definition dec (z : Z) : str := digit_char <$> digits 10 5 z.
Definition hex (z : Z) : str := digit_char <$> digits 16 4 z.

Inductive RuleSpec : Type :=
| Spec_Host (port : Port)
| Spec_V4 (a b c d prefix : Z) (port : Port)
| Spec_V6 (segments : list Z) (prefix : Z) (port : Port)
| Spec_Name (wildcard : bool) (name : str) (port : Port).

Definition print_port (port : Port) : str :=
  match port with None => [] | Some p => colon :: dec p end.

Definition print_rule (s : RuleSpec) : str :=
  match s with
  | Spec_Host port => HOST_LOOPBACK_SYMBOL ++ print_port port
  | Spec_V4 a b c d prefix port =>
      join dot (dec <$> [a; b; c; d]) ++ [slash] ++ dec prefix ++ print_port port
  | Spec_V6 segments prefix port =>
      lit "[" ++ (join colon (hex <$> segments) ++ [slash] ++ dec prefix) ++ lit "]"
        ++ print_port port
  | Spec_Name wildcard name port =>
      (if wildcard then wild else []) ++ name ++ print_port port
  end.

(** A range with prefix length [p]: the base with the other bits cleared, and
    the mask of the first [p] bits. *)
Definition base_of (w p ip : Z) : Z := ip / 2 ^ (w - p) * 2 ^ (w - p).
Definition mask_of (w p : Z) : Z := 2 ^ w - 2 ^ (w - p).

Definition rule_of (s : RuleSpec) : Rule :=
  match s with
  | Spec_Host port => Rule_Host port
  | Spec_V4 a b c d prefix port =>
      Rule_Addr (CidrV4 (base_of 32 prefix (v4 a b c d)) (mask_of 32 prefix)) port
  | Spec_V6 segments prefix port =>
      Rule_Addr (CidrV6 (base_of 128 prefix (from_segments segments)) (mask_of 128 prefix)) port
  | Spec_Name wildcard name port => Rule_Name ((if wildcard then wild else []) ++ name) port
  end.

Definition port_wf (port : Port) : Prop :=
  match port with None => True | Some p => 1 ≤ p ≤ U16_MAX end.

Definition spec_wf (s : RuleSpec) : Prop :=
  match s with
  | Spec_Host port => port_wf port
  | Spec_V4 a b c d prefix port =>
      u8 a ∧ u8 b ∧ u8 c ∧ u8 d ∧ 0 ≤ prefix ≤ 32 ∧ port_wf port
  | Spec_V6 segments prefix port =>
      length segments = 8%nat ∧ Forall u16 segments ∧
      to_ipv4_mapped (from_segments segments) = None ∧ 0 ≤ prefix ≤ 128 ∧ port_wf port
  | Spec_Name wildcard name port =>
      normalize_hostname name = Some name ∧ parse_ip name = None ∧ port_wf port
  end.

(** *** Numbers *)

Definition value (radix : Z) (ds : list Z) : Z := foldl (λ acc d, acc * radix + d) 0 ds.

Lemma digits_spec radix fuel z :
  2 ≤ radix → 0 ≤ z < radix ^ Z.of_nat (S fuel) →
  value radix (digits radix (S fuel) z) = z ∧
  Forall (λ d, 0 ≤ d < radix) (digits radix (S fuel) z) ∧
  (1 ≤ length (digits radix (S fuel) z) ≤ S fuel)%nat ∧
  (∀ ds, digits radix (S fuel) z = 0 :: ds → ds = []).
Proof.
  intros Hr. revert z. induction fuel as [|fuel IH]; intros z Hz.
  - change (Z.of_nat 1) with 1 in Hz. rewrite Z.pow_1_r in Hz.
    cbn [digits]. rewrite (proj2 (Z.ltb_lt z radix)) by lia.
    split_and!; [done|by apply Forall_singleton|cbn; lia..|]. by intros ds [= _ <-].
  - remember (S fuel) as f eqn:Hf. cbn [digits]. subst f. destruct (Z.ltb_spec z radix).
    { split_and!; [done|apply Forall_singleton; lia|cbn; lia..|]. by intros ds [= _ <-]. }
    assert (Hq : 0 ≤ z / radix < radix ^ Z.of_nat (S fuel)).
    { split; [apply Z.div_pos; lia|]. apply Z.div_lt_upper_bound; [lia|].
      rewrite <-Z.pow_succ_r by lia. replace (Z.succ _) with (Z.of_nat (S (S fuel))) by lia. apply Hz. }
    destruct (IH _ Hq) as (Hv & Hd & Hl & H0). split_and!.
    + unfold value in *. rewrite foldl_app. cbn [foldl]. rewrite Hv.
      pose proof (Z.div_mod z radix). lia.
    + apply Forall_app. split; [done|]. apply Forall_singleton, Z.mod_pos_bound. lia.
    + rewrite length_app. cbn [length]. lia.
    + rewrite length_app. cbn [length]. lia.
    + intros ds Hds. destruct (digits radix (S fuel) (z / radix)) as [|d ds'] eqn:Hdig;
        [cbn in Hl; lia|]. cbn [app] in Hds. injection Hds as -> <-.
      rewrite (H0 ds' eq_refl) in Hv. unfold value in Hv. cbn in Hv.
      assert (1 ≤ z / radix) by (apply Z.div_le_lower_bound; lia). lia.
Qed.

(** Numbers as they are printed: digits of the radix, in range, no leading
    zero. *)
Record printed (radix : Z) (n : nat) (z : Z) (ds : list Z) : Prop := {
  printed_value : value radix ds = z;
  printed_digits : Forall (λ d, 0 ≤ d < radix) ds;
  printed_length : (1 ≤ length ds ≤ n)%nat;
  printed_zero : ∀ ds', ds = 0 :: ds' → ds' = [];
}.

Lemma digits_printed radix fuel z :
  2 ≤ radix → 0 ≤ z < radix ^ Z.of_nat (S fuel) →
  printed radix (S fuel) z (digits radix (S fuel) z).
Proof. intros Hr Hz. by destruct (digits_spec radix fuel z Hr Hz) as (? & ? & ? & ?). Qed.

Lemma octet_printed z : u8 z → printed 10 3 z (digits 10 5 z).
Proof.
  intros Hz. destruct (digits_printed 10 4 z) as [Hv Hd Hl H0]; [lia|unfold u8 in Hz; lia|].
  split; [done..|split; [lia|]|done].
  assert (Hall : Forall (λ z, (length (digits 10 5 z) ≤ 3)%nat) (seqZ 0 256)).
  { apply (bool_decide_unpack _). by vm_compute. }
  rewrite Forall_forall in Hall. apply Hall, elem_of_seqZ. unfold u8 in Hz. lia.
Qed.

Lemma to_digit_char radix d : 0 ≤ d < radix → radix ≤ 16 → to_digit radix (digit_char d) = Some d.
Proof.
  intros Hd Hr. unfold to_digit, digit_char. destruct (Z.ltb_spec d 10).
  - rewrite (proj2 (Z.leb_le 48 (48 + d))), (proj2 (Z.leb_le (48 + d) 57)) by lia. cbn [andb].
    replace (48 + d - 48) with d by lia. by rewrite (proj2 (Z.ltb_lt d radix)) by lia.
  - rewrite (proj2 (Z.leb_gt (87 + d) 57)), (proj2 (Z.leb_le 97 (87 + d))),
      (proj2 (Z.leb_le (87 + d) 122)) by lia. rewrite andb_false_r. cbn [andb].
    replace (87 + d - 87) with d by lia. by rewrite (proj2 (Z.ltb_lt d radix)) by lia.
Qed.

(** Where a number ends. *)
Definition stops (radix : Z) (s : str) : Prop :=
  match s with [] => True | c :: _ => to_digit radix c = None end.

Lemma read_digits_print radix m ds acc n rest :
  radix ≤ 16 → Forall (λ d, 0 ≤ d < radix) ds → n + zlen ds ≤ m → stops radix rest →
  read_digits radix m acc n ((digit_char <$> ds) ++ rest) =
  Some (foldl (λ acc d, acc * radix + d) acc ds, n + zlen ds, rest).
Proof.
  intros Hr Hds. revert acc n. induction Hds as [|d ds Hd _ IH]; intros acc n Hm Hstop.
  - replace (n + zlen []) with n by (unfold zlen; cbn; lia). cbn [fmap list_fmap app foldl].
    destruct rest as [|c rest]; [done|]. cbn [read_digits stops] in *. by rewrite Hstop.
  - rewrite fmap_cons. cbn [app read_digits foldl]. rewrite to_digit_char by done.
    unfold zlen in *. cbn [length] in *. rewrite (proj2 (Z.ltb_ge m (n + 1))) by lia.
    rewrite IH by (lia || done). by replace (n + 1 + _) with (n + Z.of_nat (S (length ds))) by lia.
Qed.

Lemma read_number_print radix n z zp max ds rest :
  radix ≤ 16 → printed radix n z ds → z ≤ max → stops radix rest →
  read_number radix (Z.of_nat n) zp max ((digit_char <$> ds) ++ rest) = Some (z, rest).
Proof.
  intros Hr [Hv Hd Hl H0] Hz Hstop. unfold read_number.
  rewrite read_digits_print by (done || unfold zlen; lia). unfold value in Hv. rewrite Hv.
  cbn [mbind option_bind].
  rewrite (proj2 (Z.eqb_neq _ 0)), (proj2 (Z.leb_le z max)) by (done || unfold zlen; lia).
  destruct ds as [|d ds]; [cbn in Hl; lia|]. rewrite fmap_cons. cbn [app starts_with].
  apply Forall_cons in Hd as [Hd _]. cbn beta in Hd.
  destruct (Z.eqb_spec (digit_char d) 48) as [H48|_]; [|by rewrite andb_false_r].
  rewrite (H0 ds) by (f_equal; unfold digit_char in H48; destruct (d <? 10) eqn:?; breflect; lia).
  by rewrite andb_false_r.
Qed.

Lemma foldl_digits_ge radix acc ds :
  1 ≤ radix → 0 ≤ acc → Forall (λ d, 0 ≤ d < radix) ds →
  acc ≤ foldl (λ acc d, acc * radix + d) acc ds.
Proof.
  intros Hr. revert acc. induction ds as [|d ds IH]; intros acc Hacc Hds; cbn [foldl]; [lia|].
  apply Forall_cons in Hds as [Hd Hds]. cbn beta in Hd.
  etransitivity; [|apply IH; [nia|done]]. nia.
Qed.

Lemma parse_digits_print max ds acc :
  0 ≤ acc → Forall (λ d, 0 ≤ d < 10) ds → foldl (λ acc d, acc * 10 + d) acc ds ≤ max →
  parse_digits max acc (digit_char <$> ds) = Some (foldl (λ acc d, acc * 10 + d) acc ds).
Proof.
  intros Hacc Hds. revert acc Hacc. induction Hds as [|d ds Hd Hds IH]; intros acc Hacc Hmax; [done|].
  rewrite fmap_cons. cbn [parse_digits foldl] in *. rewrite to_digit_char by lia.
  cbn [mbind option_bind].
  pose proof (foldl_digits_ge 10 (acc * 10 + d) ds ltac:(lia) ltac:(lia) Hds).
  rewrite (proj2 (Z.leb_le _ max)) by lia. apply IH; lia.
Qed.

(** *** Reading what was printed *)

Lemma dec_printed z : u16 z → printed 10 5 z (digits 10 5 z).
Proof. intros Hz. apply (digits_printed 10 4); unfold u16 in Hz; lia. Qed.
Lemma hex_printed z : u16 z → printed 16 4 z (digits 16 4 z).
Proof. intros Hz. apply (digits_printed 16 3); unfold u16 in Hz; lia. Qed.

(** The characters of printed numbers and addresses. *)
Definition plain_char (c : Z) : Prop := 48 ≤ c ≤ 57 ∨ 97 ≤ c ≤ 102.

Lemma digit_char_plain radix ds :
  radix ≤ 16 → Forall (λ d, 0 ≤ d < radix) ds → Forall plain_char (digit_char <$> ds).
Proof.
  intros Hr Hds. apply Forall_fmap. eapply Forall_impl; [exact Hds|]. intros d Hd. cbn in *.
  unfold plain_char, digit_char. destruct (Z.ltb_spec d 10); lia.
Qed.

Lemma dec_plain z : u16 z → Forall plain_char (dec z).
Proof. intros Hz. by apply (digit_char_plain 10), (printed_digits _ _ _ _ (dec_printed z Hz)). Qed.
Lemma hex_plain z : u16 z → Forall plain_char (hex z).
Proof. intros Hz. by apply (digit_char_plain 16), (printed_digits _ _ _ _ (hex_printed z Hz)). Qed.

Lemma dec_nonempty z : u16 z → dec z ≠ [].
Proof.
  intros Hz Hd. pose proof (printed_length _ _ _ _ (dec_printed z Hz)). unfold dec in Hd.
  apply fmap_nil_inv in Hd. rewrite Hd in *. cbn in *. lia.
Qed.

Lemma plain_absent c s : ¬ plain_char c → Forall plain_char s → c ∉ s.
Proof. intros Hc Hs Hin. rewrite Forall_forall in Hs. by apply Hc, Hs. Qed.

Lemma parse_unsigned_dec z max : u16 z → z ≤ max → parse_unsigned max (dec z) = Some z.
Proof.
  intros Hz Hmax. destruct (dec_printed z Hz) as [Hv Hd Hl _]. pose proof (dec_plain z Hz) as Hp.
  assert (Hok : parse_digits max 0 (dec z) = Some z).
  { unfold value in Hv. rewrite <-Hv at 2. apply parse_digits_print; [done|done|lia]. }
  unfold dec in *. destruct (digits 10 5 z) as [|d ds]; [cbn in Hl; lia|].
  rewrite fmap_cons in *. apply Forall_cons in Hp as [Hp _]. unfold plain_char in Hp.
  cbn [parse_unsigned].
  destruct (digit_char <$> ds); cbn [parse_unsigned]; rewrite (proj2 (Z.eqb_neq _ 43)) by lia.
  - by rewrite (proj2 (Z.eqb_neq _ 45)) by lia.
  - done.
Qed.

Lemma plain_not_space c : plain_char c → is_whitespace c = false.
Proof.
  unfold plain_char, is_whitespace. intros Hc.
  repeat (apply orb_false_intro); breflect; try lia; apply andb_false_iff; breflect; lia.
Qed.

Lemma parse_port_dec z : 1 ≤ z ≤ U16_MAX → parse_port (dec z) = Some z.
Proof.
  unfold U16_MAX. intros Hz. assert (Hu : u16 z) by (unfold u16; lia).
  pose proof (dec_plain z Hu) as Hp. unfold parse_port. rewrite trim_none.
  2: { eapply Forall_impl; [exact Hp|]. intros c. apply plain_not_space. }
  rewrite parse_unsigned_dec by (done || unfold U16_MAX; lia).
  rewrite (proj2 (Z.eqb_neq z 0)) by lia. destruct Hp as [|c s Hc _]; [done|].
  cbn [starts_with]. unfold plain_char in Hc. by rewrite (proj2 (Z.eqb_neq c 43)) by lia.
Qed.

Lemma read_octet_print z rest :
  u8 z → stops 10 rest → read_number 10 3 false 255 (dec z ++ rest) = Some (z, rest).
Proof.
  intros Hz Hstop. apply (read_number_print 10 3); [done|by apply octet_printed| |done].
  unfold u8 in Hz. lia.
Qed.

Lemma read_ipv4_print a b c d rest :
  u8 a → u8 b → u8 c → u8 d → stops 10 rest →
  read_ipv4_addr (join dot (dec <$> [a; b; c; d]) ++ rest) = Some (v4 a b c d, rest).
Proof.
  intros Ha Hb Hc Hd Hstop. rewrite !fmap_cons. cbn [fmap list_fmap join].
  repeat (rewrite <-app_assoc; cbn [app]).
  assert (Hnext : ∀ n z s, u8 z → stops 10 s →
            read_separator dot (S n) (read_number 10 3 false 255) (dot :: dec z ++ s) = Some (z, s)).
  { intros n z s Hz Hs. cbn [read_separator read_given_char]. rewrite Z.eqb_refl.
    cbn [mbind option_bind]. by apply read_octet_print. }
  assert (Hfirst : ∀ s, stops 10 s →
            read_separator dot 0 (read_number 10 3 false 255) (dec a ++ s) = Some (a, s)).
  { intros s Hs. by apply read_octet_print. }
  unfold read_ipv4_addr. cbn [read_octets]. rewrite Hfirst by done. do 3 (cbn [mbind option_bind]; rewrite Hnext by done).
  cbn [mbind option_bind].
  f_equal. f_equal. unfold from_be, v4. cbn. lia.
Qed.

(** An IPv4 address has dots. *)
Lemma read_digits_rest radix m acc n s r k rest :
  read_digits radix m acc n s = Some (r, k, rest) → ∃ pre, s = pre ++ rest.
Proof.
  revert acc n. induction s as [|c s IH]; intros acc n; cbn [read_digits].
  { intros [= _ _ <-]. by exists []. }
  destruct (to_digit radix c) as [d|]; [|intros [= _ _ <-]; by exists []].
  destruct (m <? n + 1); [done|]. intros [pre ->]%IH. by exists (c :: pre).
Qed.

Lemma read_number_rest radix m zp max s z rest :
  read_number radix m zp max s = Some (z, rest) → ∃ pre, s = pre ++ rest.
Proof.
  unfold read_number. destruct (read_digits radix m 0 0 s) as [[[r k] rest']|] eqn:Hr; [|done].
  apply read_digits_rest in Hr. cbn [mbind option_bind].
  destruct (k =? 0); [done|]. destruct (_ && _ && _); [done|]. destruct (r <=? max); [|done].
  by intros [= _ <-].
Qed.

Lemma read_ipv4_undotted s : dot ∉ s → read_ipv4_addr s = None.
Proof.
  intros Hs. unfold read_ipv4_addr. cbn [read_octets].
  change (read_separator dot 0 ?f s) with (f s).
  destruct (read_number 10 3 false 255 s) as [[o rest]|] eqn:Hr; [|done].
  apply read_number_rest in Hr as [pre ->]. cbn [mbind option_bind].
  assert (Hsep : ∀ f : reader Z, read_separator dot 1 f rest = None); [|by rewrite Hsep].
  intros f. unfold read_separator, read_given_char. destruct rest as [|c rest]; [done|].
  rewrite (proj2 (Z.eqb_neq c dot)); [done|]. intros ->. apply Hs, elem_of_app. right. left.
Qed.

(** Eight groups. *)
Definition more_groups (gs : list Z) : str := gs ≫= λ g, colon :: hex g.

Lemma join_groups g gs : join colon (hex <$> g :: gs) = hex g ++ more_groups gs.
Proof.
  revert g. induction gs as [|g' gs IH]; intros g; [by rewrite app_nil_r|].
  rewrite fmap_cons, join_cons by done. rewrite IH. unfold more_groups.
  by rewrite bind_cons.
Qed.

Lemma groups_undotted g gs : u16 g → Forall u16 gs → dot ∉ hex g ++ more_groups gs.
Proof.
  intros Hg Hgs. revert g Hg. induction Hgs as [|g' gs Hg' _ IH]; intros g Hg;
    rewrite not_elem_of_app; (split; [apply plain_absent; [unfold plain_char, dot; lia|];
                                      by apply hex_plain|]).
  - apply not_elem_of_nil.
  - unfold more_groups. rewrite bind_cons. cbn [app]. rewrite not_elem_of_cons.
    split; [done|]. by apply IH.
Qed.

Lemma read_group_print g rest :
  u16 g → stops 16 rest → read_number 16 4 true U16_MAX (hex g ++ rest) = Some (g, rest).
Proof.
  intros Hg Hstop. apply (read_number_print 16 4); [done|by apply hex_printed| |done].
  unfold u16, U16_MAX in *. lia.
Qed.

Lemma more_groups_stops gs : stops 16 (more_groups gs).
Proof. by destruct gs. Qed.

Lemma read_more_groups gs i :
  Forall u16 gs → read_groups_from (length gs) (S i) (more_groups gs) = (gs, false, []).
Proof.
  intros Hgs. revert i. induction Hgs as [|g gs Hg Hgs IH]; intros i; [done|].
  pose proof (groups_undotted g gs Hg Hgs) as Hdot.
  cbn [length read_groups_from]. unfold more_groups. rewrite bind_cons. fold (more_groups gs).
  cbn [app]. unfold read_separator, read_given_char. rewrite Z.eqb_refl. cbn [mbind option_bind].
  rewrite read_ipv4_undotted by done.
  rewrite read_group_print by (done || apply more_groups_stops).
  rewrite IH. by destruct (length gs).
Qed.

Lemma parse_ip_v6_print gs :
  length gs = 8%nat → Forall u16 gs →
  parse_ip (join colon (hex <$> gs)) = Some (V6 (from_segments gs)).
Proof.
  intros Hlen Hgs. destruct gs as [|g gs]; [done|]. apply Forall_cons in Hgs as [Hg Hgs].
  rewrite join_groups. pose proof (groups_undotted g gs Hg Hgs) as Hdot.
  unfold parse_ip, parse_with, read_ip_addr. rewrite read_ipv4_undotted by done.
  unfold read_ipv6_addr, read_groups. injection Hlen as Hlen.
  assert (Hall : read_groups_from 8 0 (hex g ++ more_groups gs) = (g :: gs, false, [])).
  { cbn [read_groups_from]. change (read_separator colon 0 ?f ?s) with (f s).
    rewrite read_ipv4_undotted by done.
    rewrite read_group_print by (done || apply more_groups_stops).
    pose proof (read_more_groups gs 0 Hgs) as Hrest. rewrite Hlen in Hrest.
    cbn [read_groups_from] in Hrest. by rewrite Hrest. }
  rewrite Hall. cbn [length]. by rewrite Hlen.
Qed.

Lemma from_segments_u128 gs :
  length gs = 8%nat → Forall u16 gs → 0 ≤ from_segments gs ≤ U128_MAX.
Proof.
  intros Hlen Hgs. do 8 (destruct gs as [|? gs]; [done|]). destruct gs; [|done].
  rewrite !Forall_cons in Hgs. unfold u16 in Hgs. unfold from_segments, U128_MAX. cbn [foldl]. lia.
Qed.

(** *** The pieces of an entry *)

Lemma print_port_chars port :
  port_wf port → Forall (λ c, plain_char c ∨ c = colon) (print_port port).
Proof.
  destruct port as [p|]; cbn [print_port]; [|done]. intros Hp. cbn [port_wf] in Hp.
  constructor; [by right|]. eapply Forall_impl; [apply dec_plain; unfold u16, U16_MAX in *; lia|].
  by left.
Qed.

Lemma split_host_port_plain c host port :
  c ≠ 91 → colon ∉ c :: host → port_wf port →
  split_host_port ((c :: host) ++ print_port port) = Ok (c :: host, port).
Proof.
  intros Hc Hcolon Hp. unfold split_host_port.
  assert (Hopen : strip_prefix (lit "[") ((c :: host) ++ print_port port) = None)
    by by apply strip_prefix_head.
  rewrite Hopen.
  destruct port as [p|]; cbn [print_port].
  - assert (Hu : u16 p) by (cbn [port_wf] in Hp; unfold u16, U16_MAX in *; lia).
    change (colon :: dec p) with ([colon] ++ dec p). rewrite rsplit_once_last.
    2: { apply plain_absent; [unfold plain_char, colon; lia|by apply dec_plain]. }
    rewrite (proj2 (contains_char_false _ _) Hcolon), bool_decide_false by done. cbn [negb andb].
    rewrite parse_port_dec by done. done.
  - rewrite app_nil_r. by rewrite rsplit_once_absent by done.
Qed.

Lemma split_host_port_bracketed host port :
  93 ∉ host → port_wf port →
  split_host_port (lit "[" ++ host ++ lit "]" ++ print_port port) = Ok (host, port).
Proof.
  intros Hhost Hp. unfold split_host_port. rewrite strip_prefix_app.
  destruct port as [p|]; cbn [print_port]; [|by rewrite app_nil_r, strip_suffix_app].
  assert (Hu : u16 p) by (cbn [port_wf] in Hp; unfold u16, U16_MAX in *; lia).
  destruct (strip_suffix (lit "]") _) as [x|] eqn:Hx.
  { exfalso. apply strip_suffix_Some in Hx. change (x ++ lit "]") with (x ++ [93]) in Hx.
    destruct (exists_last (dec_nonempty p Hu)) as (ds & c & Hc).
    assert (Hin : c ∈ dec p) by (rewrite Hc, elem_of_app; right; left).
    rewrite Hc in Hx. change (lit "]" ++ colon :: ds ++ [c]) with (lit "]:" ++ ds ++ [c]) in Hx.
    rewrite !app_assoc in Hx. apply app_inj_tail in Hx as [_ ->].
    revert Hin. apply plain_absent; [unfold plain_char; lia|by apply dec_plain]. }
  pose proof (split_once_first 93 [58] host (dec p) Hhost) as Hsplit.
  change (split_once _ _) with (split_once [93; 58] (host ++ [93; 58] ++ dec p)).
  rewrite Hsplit. rsimpl.
  by rewrite parse_port_dec by done.
Qed.

Lemma parse_allow_intro (text after host : str) port :
  Forall (λ c, is_whitespace c = false) text →
  42 ∉ after → after ≠ [] → text = after ∨ text = wild ++ after →
  split_host_port text = Ok (host, port) →
  parse_allow text = classify text host port.
Proof.
  intros Hws Hstar Hne Htext Hsplit. unfold parse_allow. rewrite trim_none by done.
  cbv zeta. assert (Hafter : default text (strip_prefix wild text) = after).
  { destruct Htext as [->| ->]; [|by rewrite strip_prefix_app].
    destruct (strip_prefix wild after) as [x|] eqn:Hx; [|done].
    apply strip_prefix_Some in Hx as ->. destruct Hstar. left. }
  rewrite Hafter, (proj2 (contains_char_false _ _)), bool_decide_false by done.
  cbn [orb]. by rewrite Hsplit.
Qed.

(** No printed text has white space or a star in it. *)
Definition clean (s : str) : Prop := Forall (λ c, is_whitespace c = false ∧ c ≠ 42) s.

Lemma clean_spaces s : clean s → Forall (λ c, is_whitespace c = false) s.
Proof. intros Hs. eapply Forall_impl; [exact Hs|]. by intros c []. Qed.
Lemma clean_stars s : clean s → 42 ∉ s.
Proof. unfold clean. rewrite Forall_forall. intros Hs Hin. by destruct (Hs 42 Hin). Qed.
Lemma parse_allow_plain (text host : str) port :
  clean text → text ≠ [] → split_host_port text = Ok (host, port) →
  parse_allow text = classify text host port.
Proof.
  intros Hc Hne. apply (parse_allow_intro text text); [by apply clean_spaces|by apply clean_stars|done|].
  by left.
Qed.
Lemma clean_plain s : Forall plain_char s → clean s.
Proof.
  intros Hs. eapply Forall_impl; [exact Hs|]. intros c Hc. split; [by apply plain_not_space|].
  unfold plain_char in Hc. lia.
Qed.
Lemma clean_app a b : clean a → clean b → clean (a ++ b).
Proof. intros. by apply Forall_app. Qed.
Lemma clean_join c ls : clean [c] → Forall clean ls → clean (join c ls).
Proof. intros Hc Hls. apply Forall_join; [by inversion Hc|done]. Qed.
Lemma clean_port port : port_wf port → clean (print_port port).
Proof.
  intros Hp. destruct port as [p|]; [|constructor]. apply (clean_app [colon]).
  - by apply Forall_singleton.
  - apply clean_plain, dec_plain. cbn [port_wf] in Hp. unfold u16, U16_MAX in *. lia.
Qed.
Lemma name_char_clean s : Forall name_char s → clean s.
Proof.
  intros Hs. eapply Forall_impl; [exact Hs|]. intros c [Hc|[->| ->]]; [|done..].
  unfold is_ascii_alphanumeric in Hc. unfold is_whitespace. split.
  - repeat (apply orb_false_intro); breflect; try lia; apply andb_false_iff; breflect; lia.
  - breflect; lia.
Qed.

(** *** Ranges *)

Lemma mask32_of p : 0 ≤ p ≤ 32 → mask32 (32 - p) = mask_of 32 p.
Proof.
  intros Hp. assert (Hall : Forall (λ p, mask32 (32 - p) = mask_of 32 p) (seqZ 0 33))
    by (apply (bool_decide_unpack _); by vm_compute).
  rewrite Forall_forall in Hall. apply Hall, elem_of_seqZ. lia.
Qed.
Lemma mask128_of p : 0 ≤ p ≤ 128 → mask128 (128 - p) = mask_of 128 p.
Proof.
  intros Hp. assert (Hall : Forall (λ p, mask128 (128 - p) = mask_of 128 p) (seqZ 0 129))
    by (apply (bool_decide_unpack _); by vm_compute).
  rewrite Forall_forall in Hall. apply Hall, elem_of_seqZ. lia.
Qed.

Lemma cidr_of_prefix_v4 ip p :
  u32 ip → 0 ≤ p ≤ 32 →
  cidr_of_prefix (V4 ip) (Some p) = Some (CidrV4 (base_of 32 p ip) (mask_of 32 p)).
Proof.
  intros Hip Hp. unfold cidr_of_prefix. cbn [mbind option_bind to_canonical default from_option id].
  rewrite (proj2 (Z.ltb_ge 32 p)) by lia. rewrite land_mask32 by (done || lia).
  by rewrite mask32_of.
Qed.
Lemma cidr_of_prefix_v6 ip p :
  0 ≤ ip ≤ U128_MAX → to_ipv4_mapped ip = None → 0 ≤ p ≤ 128 →
  cidr_of_prefix (V6 ip) (Some p) = Some (CidrV6 (base_of 128 p ip) (mask_of 128 p)).
Proof.
  intros Hip Hm Hp. unfold cidr_of_prefix. cbn [to_canonical]. rewrite Hm.
  cbn [mbind option_bind default from_option id].
  rewrite (proj2 (Z.ltb_ge 128 p)) by lia. rewrite land_mask128 by (done || lia).
  by rewrite mask128_of.
Qed.

(** A printed range is read back, whatever its address. *)
Lemma cidr_parse_print (addr : str) address p :
  clean addr → slash ∉ addr → parse_ip addr = Some address → 0 ≤ p ≤ 128 →
  cidr_parse (addr ++ [slash] ++ dec p) = cidr_of_prefix address (Some p).
Proof.
  intros Hclean Hslash Haddr Hp. assert (Hu : u16 p) by (unfold u16; lia). unfold cidr_parse.
  rewrite trim_none.
  2: { apply clean_spaces, clean_app; [done|]. apply (clean_app [slash]).
       - by apply Forall_singleton.
       - by apply clean_plain, dec_plain. }
  rewrite (split_once_first slash [] addr (dec p)) by done.
  rewrite parse_unsigned_dec by (done || lia). cbn [mbind option_bind]. by rewrite Haddr.
Qed.

(** *** One entry of each shape *)

Definition addr_char (c : Z) : Prop := plain_char c ∨ c = dot ∨ c = colon.

Lemma addr_char_clean s : Forall addr_char s → clean s.
Proof.
  intros Hs. eapply Forall_impl; [exact Hs|]. intros c [Hc|[->| ->]]; [|done..].
  split; [by apply plain_not_space|unfold plain_char in Hc; lia].
Qed.
Lemma addr_char_absent c s : ¬ addr_char c → Forall addr_char s → c ∉ s.
Proof. intros Hc Hs Hin. rewrite Forall_forall in Hs. by apply Hc, Hs. Qed.
Lemma dec_addr z : u16 z → Forall addr_char (dec z).
Proof. intros Hz. eapply Forall_impl; [by apply dec_plain|]. by left. Qed.
Lemma hex_addr z : u16 z → Forall addr_char (hex z).
Proof. intros Hz. eapply Forall_impl; [by apply hex_plain|]. by left. Qed.

Ltac not_addr_char := unfold addr_char, plain_char, dot, colon, slash; lia.

Lemma range_clean addr p :
  Forall addr_char addr → u16 p → clean (addr ++ [slash] ++ dec p).
Proof.
  intros Ha Hp. apply clean_app; [by apply addr_char_clean|].
  apply (clean_app [slash]); [by apply Forall_singleton|by apply clean_plain, dec_plain].
Qed.

Lemma classify_addr entry (addr : str) address p c port :
  Forall addr_char addr → parse_ip addr = Some address → 0 ≤ p ≤ 128 →
  cidr_of_prefix address (Some p) = Some c →
  classify entry (addr ++ [slash] ++ dec p) port = Ok (Rule_Addr c port).
Proof.
  intros Hchars Haddr Hp Hc. unfold classify.
  assert (Hloop : eq_ignore_ascii_case (addr ++ [slash] ++ dec p) HOST_LOOPBACK_SYMBOL = false).
  { apply bool_decide_eq_false.
    change (to_ascii_lowercase HOST_LOOPBACK_SYMBOL) with (104 :: lit "ost_loopback").
    destruct Hchars as [|x s Hx _]; [done|]. cbn [app].
    unfold to_ascii_lowercase. rewrite fmap_cons. intros [= Hh _]. unfold ascii_lower in Hh.
    destruct (_ && _) eqn:Hup in Hh; breflect; revert Hx; not_addr_char. }
  assert (Hslash : slash ∉ addr) by (apply addr_char_absent; [not_addr_char|done]).
  rewrite Hloop, (split_once_first slash [] addr (dec p)) by done. rewrite Haddr.
  cbn [is_some is_none negb].
  by rewrite (cidr_parse_print addr address), Hc by (try done; by apply addr_char_clean).
Qed.

Lemma parse_allow_v4 a b c d p port :
  u8 a → u8 b → u8 c → u8 d → 0 ≤ p ≤ 32 → port_wf port →
  parse_allow (print_rule (Spec_V4 a b c d p port)) = Ok (rule_of (Spec_V4 a b c d p port)).
Proof.
  intros Ha Hb Hc Hd Hp Hport. cbn [print_rule rule_of].
  pose proof (read_ipv4_print a b c d [] Ha Hb Hc Hd I) as Haddr. rewrite app_nil_r in Haddr.
  assert (Hu : ∀ z, u8 z → u16 z) by (unfold u8, u16; lia).
  assert (Hdotted : Forall (λ c, plain_char c ∨ c = dot) (join dot (dec <$> [a; b; c; d]))).
  { apply Forall_join; [by right|]. rewrite !fmap_cons, !Forall_cons. split_and!; [..|constructor];
      (eapply Forall_impl; [by apply dec_plain, Hu|by left]). }
  set (addr := join dot _) in *. assert (Hchars : Forall addr_char addr).
  { eapply Forall_impl; [exact Hdotted|]. unfold addr_char. tauto. }
  assert (Hup : u16 p) by (unfold u16; lia).
  assert (Hip : parse_ip addr = Some (V4 (v4 a b c d)))
    by (unfold parse_ip, parse_with, read_ip_addr; by rewrite Haddr).
  rewrite !app_assoc, <-(app_assoc addr).
  rewrite (parse_allow_plain _ (addr ++ [slash] ++ dec p) port).
  - eapply classify_addr; [done|done|lia|]. apply cidr_of_prefix_v4; [|done].
    unfold u8, u32, v4 in *. lia.
  - apply clean_app; [by apply range_clean|by apply clean_port].
  - by destruct addr.
  - assert (Hcolon : colon ∉ addr ++ [slash] ++ dec p).
    { rewrite !not_elem_of_app, list_elem_of_singleton. split_and!; [|done|].
      - intros Hin. rewrite Forall_forall in Hdotted. destruct (Hdotted _ Hin) as [Hx|]; [|done].
        revert Hx. unfold plain_char, colon. lia.
      - apply plain_absent; [unfold plain_char, colon; lia|by apply dec_plain]. }
    destruct addr as [|x s]; [done|]. cbn [app] in Hcolon |- *.
    apply split_host_port_plain; [|done..]. intros ->.
    apply Forall_cons in Hchars as [Hx _]. revert Hx. not_addr_char.
Qed.

Lemma parse_allow_v6 gs p port :
  length gs = 8%nat → Forall u16 gs → to_ipv4_mapped (from_segments gs) = None →
  0 ≤ p ≤ 128 → port_wf port →
  parse_allow (print_rule (Spec_V6 gs p port)) = Ok (rule_of (Spec_V6 gs p port)).
Proof.
  intros Hlen Hgs Hm Hp Hport. cbn [print_rule rule_of].
  pose proof (parse_ip_v6_print gs Hlen Hgs) as Hip.
  assert (Hchars : Forall addr_char (join colon (hex <$> gs))).
  { apply Forall_join; [by right; right|]. apply Forall_fmap.
    eapply Forall_impl; [exact Hgs|]. intros g. apply hex_addr. }
  set (addr := join colon _) in *. assert (Hup : u16 p) by (unfold u16; lia).
  rewrite (parse_allow_plain _ (addr ++ [slash] ++ dec p) port).
  - eapply classify_addr; [done|done|lia|]. apply cidr_of_prefix_v6; [|done..].
    by apply from_segments_u128.
  - apply (clean_app (lit "[")); [by apply Forall_singleton|].
    apply clean_app; [by apply range_clean|].
    apply (clean_app (lit "]")); [by apply Forall_singleton|by apply clean_port].
  - done.
  - apply split_host_port_bracketed; [|done].
    rewrite !not_elem_of_app, list_elem_of_singleton. split_and!; [|done|].
    + apply addr_char_absent; [not_addr_char|done].
    + apply plain_absent; [unfold plain_char; lia|by apply dec_plain].
Qed.

Lemma parse_allow_host port :
  port_wf port → parse_allow (print_rule (Spec_Host port)) = Ok (Rule_Host port).
Proof.
  intros Hport. cbn [print_rule].
  rewrite (parse_allow_plain _ HOST_LOOPBACK_SYMBOL port); [done|..|done|].
  - apply clean_app; [|by apply clean_port]. apply (bool_decide_unpack _). by vm_compute.
  - apply (split_host_port_plain 72 (lit "OST_LOOPBACK")); [done| |done].
    apply (bool_decide_unpack _). by vm_compute.
Qed.

(** No name, with or without a wildcard, reads as the host symbol. *)
Lemma name_not_loopback s :
  95 ∉ s → eq_ignore_ascii_case s HOST_LOOPBACK_SYMBOL = false.
Proof.
  intros Hs. apply bool_decide_eq_false. intros Heq. apply Hs.
  assert (Hin : 95 ∈ to_ascii_lowercase s).
  { rewrite Heq. apply (bool_decide_unpack _). by vm_compute. }
  apply list_elem_of_fmap in Hin as (c & Hc & Hin). unfold ascii_lower in Hc.
  destruct (_ && _) eqn:Hup in Hc; breflect; [lia|]. by subst.
Qed.

Lemma classify_name entry wildcard name port :
  normalize_hostname name = Some name → parse_ip name = None →
  classify entry ((if wildcard : bool then wild else []) ++ name) port =
  Ok (Rule_Name ((if wildcard then wild else []) ++ name) port).
Proof.
  intros Hn Hip. pose proof (normalize_hostname_chars _ _ Hn) as Hchars. unfold classify.
  rewrite name_not_loopback.
  2: { rewrite not_elem_of_app. split; [|apply name_char_absent; [not_name_char|done]].
       destruct wildcard; apply (bool_decide_unpack _); by vm_compute. }
  rewrite split_once_absent.
  2: { rewrite not_elem_of_app. split; [|apply name_char_absent; [not_name_char|done]].
       destruct wildcard; apply (bool_decide_unpack _); by vm_compute. }
  destruct wildcard.
  - change (parse_ip (wild ++ name)) with (@None IpAddr). cbn [is_some is_none negb].
    rewrite strip_prefix_app, Hip. cbn [is_some is_none negb]. rewrite andb_false_r, Hn. done.
  - cbn [app]. rewrite Hip. cbn [is_some is_none negb].
    destruct (strip_prefix wild name) as [s|] eqn:Hs.
    { by destruct (normalize_hostname_unstarred _ _ _ Hn Hs). }
    rewrite bool_decide_true by done. cbn [negb andb]. by rewrite Hn.
Qed.

Lemma parse_allow_name_print wildcard name port :
  normalize_hostname name = Some name → parse_ip name = None → port_wf port →
  parse_allow (print_rule (Spec_Name wildcard name port)) =
  Ok (rule_of (Spec_Name wildcard name port)).
Proof.
  intros Hn Hip Hport. pose proof (normalize_hostname_chars _ _ Hn) as Hchars.
  assert (Hne : name ≠ []) by (intros ->; by vm_compute in Hn).
  cbn [print_rule rule_of]. rewrite <-(classify_name
    ((if wildcard then wild else []) ++ name ++ print_port port)) by done.
  apply (parse_allow_intro _ (name ++ print_port port)).
  - assert (Hc : clean (name ++ print_port port))
      by (apply clean_app; [by apply name_char_clean|by apply clean_port]).
    apply Forall_app. split; [|by apply clean_spaces].
    destruct wildcard; apply (bool_decide_unpack _); by vm_compute.
  - apply clean_stars, clean_app; [by apply name_char_clean|by apply clean_port].
  - by destruct name.
  - destruct wildcard; [by right|by left].
  - rewrite app_assoc. assert (Hcolon : colon ∉ (if wildcard then wild else []) ++ name).
    { rewrite not_elem_of_app. split; [|apply name_char_absent; [not_name_char|done]].
      destruct wildcard; apply (bool_decide_unpack _); by vm_compute. }
    destruct wildcard; cbn [app wild] in *.
    + by apply (split_host_port_plain 42 (dot :: name)).
    + destruct name as [|c s]; [done|]. apply split_host_port_plain; [|done..].
      intros ->. apply Forall_cons in Hchars as [Hx _]. revert Hx. not_name_char.
Qed.

(** Membership in a range is agreement on its prefix. *)
Definition covers (s : RuleSpec) (ip : IpAddr) : Prop :=
  match s, ip with
  | Spec_V4 a b c d prefix _, V4 x => same_prefix 32 prefix x (v4 a b c d)
  | Spec_V6 segments prefix _, V6 x => same_prefix 128 prefix x (from_segments segments)
  | _, _ => False
  end.

Lemma contains_base w p x y :
  0 ≤ p ≤ w →
  (x / 2 ^ (w - p) * 2 ^ (w - p) =? base_of w p y) = true ↔ same_prefix w p x y.
Proof. intros Hp. rewrite Z.eqb_eq. unfold base_of. apply mul_pow_inj. lia. Qed.

Lemma contains_covers s c port ip :
  spec_wf s → rule_of s = Rule_Addr c port → ip_wf ip → contains c ip = true ↔ covers s ip.
Proof.
  intros Hs Hc Hip. destruct s; cbn [rule_of spec_wf] in *; [done|..|done].
  - injection Hc as <- _. destruct ip as [x|x]; cbn [contains covers]; [|done].
    rewrite <-mask32_of, land_mask32 by (done || lia). apply contains_base. lia.
  - injection Hc as <- _. destruct ip as [x|x]; cbn [contains covers]; [done|].
    rewrite <-mask128_of, land_mask128 by (done || lia). apply contains_base. lia.
Qed.

(** ** Claims *)

(** A name rule covers a name exactly, and a leading wildcard covers the
    names with at least one more label to the left of what follows it, and
    never that name itself. In particular ["*.example.com"] does not cover
    ["notexample.com"], whatever the two texts have in common. *)
Theorem name_rule_labels e r port h n :
  parse_allow e = Ok (Rule_Name r port) → normalize_hostname h = Some n →
  name_covers r n = true ↔
  r = n ∨ ∃ p ls, r = wild ++ p ∧ ls ≠ [] ∧ split dot n = ls ++ split dot p.
Proof.
  intros Hr Hn. destruct (parse_allow_name _ _ _ Hr) as (h' & m & Hm & [->| ->]).
  - unfold name_covers. destruct (strip_prefix wild m) as [s|] eqn:Hs.
    { by destruct (normalize_hostname_unstarred _ _ _ Hm Hs). }
    rewrite bool_decide_eq_true. split; [by left|]. intros [->|(p & ls & -> & _)]; [done|].
    by rewrite strip_prefix_app in Hs.
  - rewrite wild_covers.
    2: { apply normalize_hostname_Some in Hn as (_ & _ & Hls).
         eapply Forall_impl; [exact Hls|]. intros l. apply valid_label_nonempty. }
    split.
    + intros (ls & ? & ?). right. by exists m, ls.
    + intros [<-|(p & ls & Heq & ? & ?)].
      * by destruct (normalize_hostname_unstarred _ _ m Hn (strip_prefix_app _ _)).
      * apply app_inv_head in Heq as <-. eauto.
Qed.

Lemma name_rule_labels_witness :
  name_covers (lit "*.example.com") (lit "www.example.com") = true ↔
  lit "*.example.com" = lit "www.example.com" ∨
  ∃ p ls, lit "*.example.com" = wild ++ p ∧ ls ≠ [] ∧
          split dot (lit "www.example.com") = ls ++ split dot p.
Proof.
  apply (name_rule_labels (lit " *.Example.COM.:443") (lit "*.example.com") (Some 443)
           (lit "WWW.example.com.") (lit "www.example.com")); by vm_compute.
Defined.

(** Every well-formed rule has a spelling that means it: writing a rule
    for the host, for an IPv4 or IPv6 range or for a name, with or without a
    port, and parsing the text gives that rule back; and a range rule opens
    exactly the addresses of its family that share its prefix. *)
Theorem allow_rule_roundtrip s :
  spec_wf s →
  parse_allow (print_rule s) = Ok (rule_of s) ∧
  (∀ c port ip, rule_of s = Rule_Addr c port → ip_wf ip → contains c ip = true ↔ covers s ip).
Proof.
  intros Hs. split; [|intros c port ip; by apply contains_covers].
  destruct s; cbn [spec_wf] in Hs.
  - by apply parse_allow_host.
  - apply parse_allow_v4; tauto.
  - apply parse_allow_v6; tauto.
  - apply parse_allow_name_print; tauto.
Qed.

Lemma allow_rule_roundtrip_witness :
  let s := Spec_V6 [0x2001; 0xdb8; 0; 0; 0; 0; 0; 1] 32 (Some 443) in
  parse_allow (print_rule s) = Ok (rule_of s) ∧
  (∀ c port ip, rule_of s = Rule_Addr c port → ip_wf ip → contains c ip = true ↔ covers s ip).
Proof.
  apply (allow_rule_roundtrip (Spec_V6 [0x2001; 0xdb8; 0; 0; 0; 0; 0; 1] 32 (Some 443))).
  cbn [spec_wf port_wf]. split; [done|]. split; [|by vm_compute].
  by apply (bool_decide_unpack _); vm_compute.
Defined.
