(* ===== verification/LruCache.v ===== *)
(** * The [lru] crate's cache

    [lru::LruCache] is outside the repository. It is the class [LruCache]:
    the operations the policy calls, with the documented behaviour of each as
    a law about [lru_entries], the entries from the most to the least recently
    used. A recency list implements the class, which the witnesses use. *)

From S2P Require Import Prelude.

Section spec.
Context {K V : Type} `{EqDecision K}.

Fixpoint find_key (k : K) (l : list (K * V)) : option V :=
  match l with
  | [] => None
  | (k', v) :: l => if decide (k = k') then Some v else find_key k l
  end.

Definition remove_key (k : K) (l : list (K * V)) : list (K * V) :=
  filter (λ e, e.1 ≠ k) l.

(** Using an entry makes it the most recent one. *)
Definition promote (k : K) (f : V → V) (l : list (K * V)) : list (K * V) :=
  match find_key k l with
  | Some v => (k, f v) :: remove_key k l
  | None => l
  end.

Lemma find_key_Some_elem k v l : find_key k l = Some v → (k, v) ∈ l.
Proof.
  induction l as [|[k' v'] l IH]; cbn; [done|]. case_decide as Hk.
  - intros [= <-]. subst. left.
  - intros Hv. right. auto.
Qed.

Lemma find_key_is_Some k v l : (k, v) ∈ l → is_Some (find_key k l).
Proof.
  induction l as [|[k' v'] l IH]; cbn; [by intros ?%not_elem_of_nil|].
  case_decide; [done|]. intros [[= <- <-]|]%elem_of_cons; auto. done.
Qed.

Lemma elem_of_remove_key k e l : e ∈ remove_key k l ↔ e.1 ≠ k ∧ e ∈ l.
Proof. unfold remove_key. by rewrite list_elem_of_filter. Qed.

Lemma find_key_remove_key k k' l : k ≠ k' → find_key k (remove_key k' l) = find_key k l.
Proof.
  intros Hk. induction l as [|[a v] l IH]; [done|]. unfold remove_key in *.
  rewrite filter_cons. cbn [fst]. destruct (decide (a ≠ k')) as [Ha|Ha]; cbn [find_key];
    case_decide; try done. subst. destruct Ha. by intros ->.
Qed.

Lemma length_remove_key k l : (length (remove_key k l) ≤ length l)%nat.
Proof. apply length_filter. Qed.

Lemma length_remove_present k v l :
  find_key k l = Some v → (S (length (remove_key k l)) ≤ length l)%nat.
Proof.
  induction l as [|[k' v'] l IH]; [done|]. unfold remove_key in *. rewrite filter_cons.
  cbn [find_key fst length]. destruct (decide (k' ≠ k)) as [Hk|Hk]; case_decide as Hk'.
  - subst. done.
  - intros Hv. cbn [length]. specialize (IH Hv). lia.
  - intros _. pose proof (length_remove_key k l). unfold remove_key in *. lia.
  - intros _. destruct Hk. by intros ->.
Qed.
End spec.

(** The cache, as the policy uses it. [lru_get_mut k f] is a [get_mut] whose
    caller stores [f v] through the reference it was given. *)
Class LruCache (C K V : Type) `{EqDecision K} := {
  lru_new : nat → C;
  lru_get : K → C → option V * C;
  lru_get_mut : K → (V → V) → C → option V * C;
  lru_put : K → V → C → C;
  lru_pop : K → C → C;

  lru_entries : C → list (K * V);
  lru_capacity : C → nat;

  lru_new_spec n : lru_entries (lru_new n) = [] ∧ lru_capacity (lru_new n) = n;
  lru_get_spec k c :
    (lru_get k c).1 = find_key k (lru_entries c) ∧
    lru_entries (lru_get k c).2 = promote k id (lru_entries c) ∧
    lru_capacity (lru_get k c).2 = lru_capacity c;
  lru_get_mut_spec k f c :
    (lru_get_mut k f c).1 = find_key k (lru_entries c) ∧
    lru_entries (lru_get_mut k f c).2 = promote k f (lru_entries c) ∧
    lru_capacity (lru_get_mut k f c).2 = lru_capacity c;
  lru_put_spec k v c :
    lru_entries (lru_put k v c) =
      take (lru_capacity c) ((k, v) :: remove_key k (lru_entries c)) ∧
    lru_capacity (lru_put k v c) = lru_capacity c;
  lru_pop_spec k c :
    lru_entries (lru_pop k c) = remove_key k (lru_entries c) ∧
    lru_capacity (lru_pop k c) = lru_capacity c;
}.

(** The recency list and its capacity. *)
#[export] Program Instance recency_list {K V} `{EqDecision K} :
  LruCache (nat * list (K * V)) K V := {
  lru_new n := (n, []);
  lru_get k c := (find_key k c.2, (c.1, promote k id c.2));
  lru_get_mut k f c := (find_key k c.2, (c.1, promote k f c.2));
  lru_put k v c := (c.1, take c.1 ((k, v) :: remove_key k c.2));
  lru_pop k c := (c.1, remove_key k c.2);
  lru_entries c := c.2;
  lru_capacity c := c.1;
}.
Solve All Obligations with done.
