(* ===== verification/Policy.v ===== *)
(** * The egress policy of a box

    [crates/terra-policy/src/config.rs] and [runtime.rs]: the limits on a
    recipe's network section, the policy built from it, the bounded learning
    of resolved addresses, and the decision whether the guest may reach a
    peer. The clock is an argument of the calls that read it. The cache of
    learned addresses is any [LruCache]. *)

From S2P Require Import Prelude PolicyAddress PolicyRules LruCache.
From stdpp Require Import strings.

Local Open Scope Z_scope.

(** ** Configuration *)

Definition MAX_CONFIG_BYTES : Z := 65536.
Definition MAX_RULES : Z := 4096.
Definition MAX_EXPANDED_RULES : Z := 4096.
Definition MAX_RULE_BYTES : Z := 512.
Definition MAX_HOST_ADDRESSES : Z := 1024.
Definition MAX_RESOLVED_ADDRESSES : nat := 32.
Definition LEARNED_ADDRESSES_CAPACITY : nat := Z.to_nat 4096.
Definition LEARNED_DNS_TTL_SECS : Z := 60.

Inductive NetworkMode : Type := UnrestrictedPublic | Allowlist.

#[export] Instance NetworkMode_eq_dec : EqDecision NetworkMode.
Proof. solve_decision. Defined.

Record Network := mkNetwork {
  net_mode : NetworkMode;
  net_allow : list str;
  net_hosts : list StaticDnsRecord;
  net_host_addresses : list IpAddr;
}.

(** The loop over the texts of the configuration: each is bounded, and their
    lengths are added up. [usize] has at least 32 bits; the sum is bounded by
    the number of texts, far below that, so saturation never shows. *)
Fixpoint sum_texts (texts : list str) (bytes : Z) : result PolicyError Z :=
  match texts with
  | [] => Ok bytes
  | text :: texts =>
      if MAX_RULE_BYTES <? str_len text then Err EntryTooLong
      else sum_texts texts (bytes + str_len text)
  end.

Definition validate_limits (net : Network) : result PolicyError unit :=
  if (MAX_RULES <? zlen (net_allow net)) || (MAX_RULES <? zlen (net_hosts net))
  then Err TooManyRules
  else if MAX_HOST_ADDRESSES <? zlen (net_host_addresses net)
  then Err TooManyHostAddresses
  else
    bytes ← sum_texts (net_allow net ++
                       (net_hosts net ≫= λ record, [record_name record; record_addr record])) 0;
    if MAX_CONFIG_BYTES <? bytes then Err ConfigTooLarge else Ok tt.

(** ** [BTreeMap<String, Vec<IpAddr>>]: entries in the order of their keys *)

Fixpoint str_compare (s t : str) : comparison :=
  match s, t with
  | [], [] => Eq
  | [], _ :: _ => Lt
  | _ :: _, [] => Gt
  | a :: s, b :: t => match a ?= b with Eq => str_compare s t | c => c end
  end.

(** [BTreeMap::insert]: the value that was there, and the new map. *)
Fixpoint btree_insert {V} (k : str) (v : V) (m : list (str * V)) : option V * list (str * V) :=
  match m with
  | [] => (None, [(k, v)])
  | (k', v') :: m' =>
      match str_compare k k' with
      | Lt => (None, (k, v) :: m)
      | Eq => (Some v', (k, v) :: m')
      | Gt => let '(old, m'') := btree_insert k v m' in (old, (k', v') :: m'')
      end
  end.

Definition btree_get {V} (k : str) (m : list (str * V)) : option V :=
  snd <$> List.find (λ e, bool_decide (e.1 = k)) m.

Definition Key : Type := IpAddr * Port.

(** [NameLookup]. *)
Inductive NameLookup : Type :=
| Lookup_Static (ips : list IpAddr)
| Lookup_Resolve (name : str)
| Lookup_Denied.

Module Policy.
Section Policy.
Context {C : Type} `{!LruCache C Key Z}.

(** [learned_poisoned] is the state of the mutex: [lock] fails once a thread
    panicked while it held the lock. *)
Record BoxPolicy := mkBoxPolicy {
  mode : NetworkMode;
  address_rules : list (Cidr * Port);
  name_rules : list (str * Port);
  learned_dns : C;
  learned_poisoned : bool;
  static_dns : list (str * list IpAddr);
  host_grants : list Port;
  host_addresses : list IpAddr;
  gateway_addresses : IpAddr * IpAddr;
}.

Definition set_learned (p : BoxPolicy) (c : C) : BoxPolicy :=
  mkBoxPolicy (mode p) (address_rules p) (name_rules p) c (learned_poisoned p) (static_dns p)
    (host_grants p) (host_addresses p) (gateway_addresses p).
Definition set_static_dns (p : BoxPolicy) (m : list (str * list IpAddr)) : BoxPolicy :=
  mkBoxPolicy (mode p) (address_rules p) (name_rules p) (learned_dns p) (learned_poisoned p) m
    (host_grants p) (host_addresses p) (gateway_addresses p).
Definition set_grants (p : BoxPolicy) (addrs : list (Cidr * Port)) (names : list (str * Port))
    (hosts : list Port) : BoxPolicy :=
  mkBoxPolicy (mode p) addrs names (learned_dns p) (learned_poisoned p) (static_dns p)
    hosts (host_addresses p) (gateway_addresses p).

(** Pushes onto the three lists of grants. *)
Definition push_address (c : Cidr) (g : Port) (p : BoxPolicy) : BoxPolicy :=
  set_grants p (address_rules p ++ [(c, g)]) (name_rules p) (host_grants p).
Definition push_name (n : str) (g : Port) (p : BoxPolicy) : BoxPolicy :=
  set_grants p (address_rules p) (name_rules p ++ [(n, g)]) (host_grants p).
Definition push_host (g : Port) (p : BoxPolicy) : BoxPolicy :=
  set_grants p (address_rules p) (name_rules p) (host_grants p ++ [g]).

Definition gateways (g : IpAddr * IpAddr) : list IpAddr := [g.1; g.2].
Definition is_gateway (p : BoxPolicy) (ip : IpAddr) : bool :=
  bool_decide (ip ∈ gateways (gateway_addresses p)).

Definition blocks_direct_dns (p : BoxPolicy) : bool :=
  bool_decide (mode p = Allowlist) || negb (bool_decide (static_dns p = [])).

(** ** Building the policy *)

Definition add_dns_record (record : StaticDnsRecord) (p : BoxPolicy)
    : result PolicyError BoxPolicy :=
  '(key, addrs) ← parse_dns_record record (gateway_addresses p);
  let '(old, m) := btree_insert key addrs (static_dns p) in
  match old with
  | Some _ => Err (DuplicateRecord (record_name record))
  | None => Ok (set_static_dns p m)
  end.

Definition rule_port (r : Rule) : Port :=
  match r with Rule_Host g | Rule_Addr _ g | Rule_Name _ g => g end.

(** What a published address grants: a gateway opens the host, any other
    address itself. *)
Definition push_resolved (g : Port) (p : BoxPolicy) (addr : IpAddr) : BoxPolicy :=
  if is_gateway p addr then push_host g p else push_address (cidr_from addr) g p.

Definition add_allow_rule (entry : str) (p : BoxPolicy) : result PolicyError BoxPolicy :=
  rule ← parse_allow entry;
  if bool_decide (rule_port rule = Some 53) && blocks_direct_dns p
  then Err (Port53Blocked entry)
  else match rule with
  | Rule_Host port => Ok (push_host port p)
  | Rule_Addr cidr port =>
      match List.find (λ gateway, bool_decide (cidr_from gateway = cidr))
                      (gateways (gateway_addresses p)) with
      | Some gateway => Err (GatewayRule entry gateway)
      | None => Ok (push_address cidr port p)
      end
  | Rule_Name name port =>
      let resolved := filter (λ r, name_covers name r.1 = true) (static_dns p) ≫= snd in
      if bool_decide (resolved = []) && bool_decide (mode p = UnrestrictedPublic)
      then Err (OpensNothing entry)
      else Ok (push_name name port (foldl (push_resolved port) p resolved))
  end.

Fixpoint add_dns_records (records : list StaticDnsRecord) (p : BoxPolicy)
    : result PolicyError BoxPolicy :=
  match records with
  | [] => Ok p
  | record :: records => p ← add_dns_record record p; add_dns_records records p
  end.

Fixpoint add_allow_rules (entries : list str) (p : BoxPolicy) : result PolicyError BoxPolicy :=
  match entries with
  | [] => Ok p
  | entry :: entries =>
      p ← add_allow_rule entry p;
      if MAX_EXPANDED_RULES <? zlen (address_rules p) + zlen (host_grants p)
      then Err TooManyGrants
      else add_allow_rules entries p
  end.

Definition empty_policy (net : Network) (gateway_addresses : IpAddr * IpAddr) : BoxPolicy :=
  mkBoxPolicy (net_mode net) [] [] (lru_new LEARNED_ADDRESSES_CAPACITY) false [] []
    (to_canonical <$> net_host_addresses net) gateway_addresses.

Definition with_clock (net : Network) (gateway_addresses : IpAddr * IpAddr)
    : result PolicyError BoxPolicy :=
  _ ← validate_limits net;
  p ← add_dns_records (net_hosts net) (empty_policy net gateway_addresses);
  add_allow_rules (net_allow net) p.

(** ** Names *)

Definition grants_for (p : BoxPolicy) (normalized_name : str) : list Port :=
  snd <$> filter (λ r, name_covers r.1 normalized_name = true) (name_rules p).

Definition static_answer (p : BoxPolicy) (normalized_name : str) : option (list IpAddr) :=
  btree_get normalized_name (static_dns p).

Definition lookup_name (p : BoxPolicy) (name : str) : NameLookup :=
  match normalize_hostname name with
  | None => Lookup_Denied
  | Some name =>
      match static_answer p name with
      | Some ips => Lookup_Static ips
      | None =>
          if bool_decide (mode p = Allowlist) && bool_decide (grants_for p name = [])
          then Lookup_Denied else Lookup_Resolve name
      end
  end.

Definition is_host_address (p : BoxPolicy) (ip : IpAddr) : bool :=
  let nat64_target := match ip with
                      | V6 ip => V4 <$> nat64_well_known_v4 ip
                      | V4 _ => None
                      end in
  bool_decide (ip ∈ host_addresses p)
  || match nat64_target with
     | Some target => bool_decide (target ∈ host_addresses p)
     | None => false
     end.

(** Learning one key: an entry that is there is only ever extended. *)
Definition learn (expires_at : Z) (c : C) (key : Key) : C :=
  match lru_get_mut key (Z.max expires_at) c with
  | (Some _, c) => c
  | (None, c) => lru_put key expires_at c
  end.

(** The loop that collects the acceptable addresses of an answer. *)
Definition accept_address (p : BoxPolicy) (accepted : list IpAddr) (ip : IpAddr) : list IpAddr :=
  if negb (is_floored ip) && negb (is_gateway p ip) && negb (is_host_address p ip)
     && negb (bool_decide (ip ∈ accepted))
  then accepted ++ [ip] else accepted.

Definition accept_resolved (now : Z) (name : str) (addresses : list IpAddr) (p : BoxPolicy)
    : list IpAddr * BoxPolicy :=
  match normalize_hostname name with
  | None => ([], p)
  | Some name =>
      let grants := grants_for p name in
      if bool_decide (mode p = Allowlist) && bool_decide (grants = []) then ([], p) else
      let accepted := foldl (accept_address p) []
                        (to_canonical <$> take MAX_RESOLVED_ADDRESSES addresses) in
      match mode p with
      | UnrestrictedPublic => (accepted, p)
      | Allowlist =>
          if learned_poisoned p then ([], p) else
          let expires_at := sat_add64 now (LEARNED_DNS_TTL_SECS * 1000000000) in
          let keys := accepted ≫= λ ip, (λ grant, (ip, grant)) <$> grants in
          (accepted, set_learned p (foldl (learn expires_at) (learned_dns p) keys))
      end
  end.

(** ** The decision *)

(** One turn of the [filter_map] over the two keys of a peer. *)
Definition check_learned (now : Z) (key : Key) (c : C) : option Z * C :=
  match lru_get key c with
  | (Some expires_at, c) =>
      if now <? expires_at then (Some expires_at, c) else (None, lru_pop key c)
  | (None, c) => (None, lru_pop key c)
  end.

(** [Iterator::max] on the expiries found. *)
Definition max_option (a b : option Z) : option Z :=
  match a, b with
  | Some x, Some y => Some (Z.max x y)
  | Some x, None => Some x
  | None, b => b
  end.

Definition allowed_until (now : Z) (ip : IpAddr) (port : Port) (p : BoxPolicy)
    : option Z * BoxPolicy :=
  let ip := to_canonical ip in
  if is_gateway p ip then (None, p) else
  if existsb (λ '(cidr, grant), contains cidr ip && (is_none grant || bool_decide (grant = port)))
       (address_rules p)
  then (Some U64_MAX, p) else
  if is_host_address p ip || is_floored ip then (None, p) else
  match mode p with
  | UnrestrictedPublic => (Some U64_MAX, p)
  | Allowlist =>
      if learned_poisoned p then (None, p) else
      let '(any, c) := check_learned now (ip, None) (learned_dns p) in
      let '(this, c) := check_learned now (ip, port) c in
      (max_option any this, set_learned p c)
  end.

Definition allows (now : Z) (ip : IpAddr) (port : Port) (p : BoxPolicy) : bool * BoxPolicy :=
  let '(until, p) := allowed_until now ip port p in (is_some until, p).

Definition grant_matches (port : Z) (grant : Port) : bool :=
  match grant with None => true | Some g => g =? port end.

(** A [SocketAddr] is an address and a port. *)
Definition authorized_until (now : Z) (peer : IpAddr * Z) (p : BoxPolicy)
    : option Z * BoxPolicy :=
  if (peer.2 =? 53) && blocks_direct_dns p then (None, p) else
  if is_host_loopback peer.1 && existsb (grant_matches peer.2) (host_grants p)
  then (Some U64_MAX, p) else
  allowed_until now peer.1 (Some peer.2) p.

Definition authorizes (now : Z) (peer : IpAddr * Z) (p : BoxPolicy) : bool * BoxPolicy :=
  let '(until, p) := authorized_until now peer p in (is_some until, p).

Definition host_service_ports (p : BoxPolicy) : list Port := host_grants p.

(** ** What the recipe opens

    The reference for the decision, in terms of the recipe alone: which entry
    of [allow:] opens the host, a range or a name. *)

Definition published (net : Network) (gws : IpAddr * IpAddr) (r : str) (addr : IpAddr) : Prop :=
  ∃ record key addrs,
    record ∈ net_hosts net ∧ parse_dns_record record gws = Ok (key, addrs) ∧
    name_covers r key = true ∧ addr ∈ addrs.

Definition opens_host (net : Network) (gws : IpAddr * IpAddr) (g : Port) : Prop :=
  ∃ e, e ∈ net_allow net ∧
    (parse_allow e = Ok (Rule_Host g) ∨
     ∃ r addr, parse_allow e = Ok (Rule_Name r g) ∧ published net gws r addr ∧
               addr ∈ gateways gws).

Definition opens_range (net : Network) (gws : IpAddr * IpAddr) (c : Cidr) (g : Port) : Prop :=
  ∃ e, e ∈ net_allow net ∧
    (parse_allow e = Ok (Rule_Addr c g) ∨
     ∃ r addr, parse_allow e = Ok (Rule_Name r g) ∧ published net gws r addr ∧
               (addr ∉ gateways gws) ∧ c = cidr_from addr).

Definition opens_name (net : Network) (r : str) (g : Port) : Prop :=
  ∃ e, e ∈ net_allow net ∧ parse_allow e = Ok (Rule_Name r g).

(** A policy whose grants all come from the recipe. *)
Record from_recipe (net : Network) (gws : IpAddr * IpAddr) (p : BoxPolicy) : Prop := {
  fr_mode : mode p = net_mode net;
  fr_gateways : gateway_addresses p = gws;
  fr_host_addresses : host_addresses p = (to_canonical <$> net_host_addresses net);
  fr_static : ∀ key addrs, (key, addrs) ∈ static_dns p →
    ∃ record, record ∈ net_hosts net ∧ parse_dns_record record gws = Ok (key, addrs);
  fr_address : ∀ c g, (c, g) ∈ address_rules p → opens_range net gws c g;
  fr_host : ∀ g, g ∈ host_grants p → opens_host net gws g;
  fr_name : ∀ r g, (r, g) ∈ name_rules p → opens_name net r g;
}.

Lemma btree_insert_elem {V} k (v : V) m m' :
  btree_insert k v m = (None, m') → m' ≠ [] ∧ ∀ e, e ∈ m' → e = (k, v) ∨ e ∈ m.
Proof.
  revert m'. induction m as [|[k' v'] m IH]; intros m'; cbn [btree_insert].
  { intros [= <-]. split; [done|]. intros e He. left. by apply list_elem_of_singleton. }
  destruct (str_compare k k'); [done|..].
  - intros [= <-]. split; [done|]. intros e He. by apply elem_of_cons in He.
  - destruct (btree_insert k v m) as [old m''] eqn:Hm. intros [= -> <-]. split; [done|].
    destruct (IH _ eq_refl) as [_ Hin]. intros e [->|He]%elem_of_cons; [by right; left|].
    destruct (Hin e He); [by left|by right; right].
Qed.

Lemma add_dns_record_from net gws record p p' :
  record ∈ net_hosts net → from_recipe net gws p → add_dns_record record p = Ok p' →
  from_recipe net gws p' ∧ static_dns p' ≠ [] ∧ address_rules p' = address_rules p ∧
  host_grants p' = host_grants p.
Proof.
  intros Hrec Hp. unfold add_dns_record. rewrite (fr_gateways _ _ _ Hp).
  destruct (parse_dns_record record gws) as [[key addrs]|] eqn:Hparse; rsimpl; [|done].
  destruct (btree_insert key addrs (static_dns p)) as [[old|] m] eqn:Hm; [done|].
  intros [= <-]. apply btree_insert_elem in Hm as [Hne Hin].
  split; [|by repeat split]. destruct Hp as [Hmode Hgw Hha Hst Hrest]. split; try done.
  cbn [static_dns set_static_dns]. intros k a [[= -> ->]|Hk]%Hin; eauto.
Qed.

Lemma add_dns_records_from net gws records p p' :
  records ⊆ net_hosts net → from_recipe net gws p → add_dns_records records p = Ok p' →
  from_recipe net gws p' ∧ (static_dns p' = [] → static_dns p = [] ∧ records = []).
Proof.
  revert p. induction records as [|record records IH]; intros p Hsub Hp; cbn [add_dns_records].
  { by intros [= <-]. }
  destruct (add_dns_record record p) as [q|] eqn:Hq; rsimpl; [|done].
  assert (Hrec : record ∈ net_hosts net) by (apply Hsub; left).
  destruct (add_dns_record_from _ _ _ _ _ Hrec Hp Hq) as (Hfrom & Hne & _).
  intros Hok. destruct (IH q) as [Hp' Hst]; [intros x Hx; apply Hsub; by right|done..|].
  split; [done|]. intros Hnil. by destruct (Hst Hnil).
Qed.

(** Everything but the grants is as it was. *)
Definition same_frame (p q : BoxPolicy) : Prop :=
  mode q = mode p ∧ learned_dns q = learned_dns p ∧ learned_poisoned q = learned_poisoned p ∧
  static_dns q = static_dns p ∧ host_addresses q = host_addresses p ∧
  gateway_addresses q = gateway_addresses p.

Lemma same_frame_trans p q r : same_frame p q → same_frame q r → same_frame p r.
Proof.
  intros (?&?&?&?&?&?) (?&?&?&?&?&?). by repeat split; etransitivity.
Qed.

Lemma from_recipe_push net gws p q :
  from_recipe net gws p → same_frame p q →
  (∀ c g, (c, g) ∈ address_rules q → (c, g) ∈ address_rules p ∨ opens_range net gws c g) →
  (∀ g, g ∈ host_grants q → g ∈ host_grants p ∨ opens_host net gws g) →
  (∀ r g, (r, g) ∈ name_rules q → (r, g) ∈ name_rules p ∨ opens_name net r g) →
  from_recipe net gws q.
Proof.
  intros [Hm Hgw Hha Hst Ha Hh Hn] (Em & _ & _ & Es & Eh & Eg) Ha' Hh' Hn'. split.
  - congruence.
  - congruence.
  - congruence.
  - by rewrite Es.
  - intros c g Hin. destruct (Ha' c g Hin); auto.
  - intros g Hin. destruct (Hh' g Hin); auto.
  - intros r g Hin. destruct (Hn' r g Hin); auto.
Qed.

Lemma snoc_elem {A} (x y : A) l : x ∈ l ++ [y] → x ∈ l ∨ x = y.
Proof. rewrite elem_of_app, list_elem_of_singleton. tauto. Qed.

(** The grants of a published name. *)
Lemma push_resolved_from net gws e r g addrs p :
  e ∈ net_allow net → parse_allow e = Ok (Rule_Name r g) →
  (∀ addr, addr ∈ addrs → published net gws r addr) →
  from_recipe net gws p →
  from_recipe net gws (foldl (push_resolved g) p addrs) ∧
  same_frame p (foldl (push_resolved g) p addrs).
Proof.
  intros He Hparse. revert p. induction addrs as [|a addrs IH]; intros p Hpub Hp;
    cbn [foldl]; [split; [done|by repeat split]|].
  assert (Ha : published net gws r a) by (apply Hpub; left).
  assert (Hstep : from_recipe net gws (push_resolved g p a) ∧ same_frame p (push_resolved g p a)).
  { unfold push_resolved, is_gateway. rewrite (fr_gateways _ _ _ Hp).
    case_bool_decide as Hgw; (split; [|by repeat split]);
      (apply (from_recipe_push net gws p); [done|by repeat split|..]); cbn; auto.
    - intros g' [?| ->]%snoc_elem; [by left|]. right. exists e. split; [done|]. right. by exists r, a.
    - intros c g' [?|[= -> ->]]%snoc_elem; [by left|]. right. exists e. split; [done|].
      right. by exists r, a. }
  destruct Hstep as [Hfrom Hframe].
  destruct (IH (push_resolved g p a)) as [Hf Hs]; [intros x Hx; apply Hpub; by right|done|].
  split; [done|]. by eapply same_frame_trans.
Qed.

Lemma add_allow_rule_from net gws entry p p' :
  entry ∈ net_allow net → from_recipe net gws p → add_allow_rule entry p = Ok p' →
  from_recipe net gws p' ∧ same_frame p p'.
Proof.
  intros He Hp. unfold add_allow_rule.
  destruct (parse_allow entry) as [rule|] eqn:Hparse; rsimpl; [|done].
  destruct (_ && _) in |- *; [done|]. destruct rule as [g|c g|r g].
  - intros [= <-]. split; [|by repeat split].
    apply (from_recipe_push net gws p); [done|by repeat split|..]; cbn; auto.
    intros g' [?| ->]%snoc_elem; [by left|]. right. exists entry. eauto.
  - destruct (List.find _ _); [done|]. intros [= <-]. split; [|by repeat split].
    apply (from_recipe_push net gws p); [done|by repeat split|..]; cbn; auto.
    intros c' g' [?|[= -> ->]]%snoc_elem; [by left|]. right. exists entry. eauto.
  - set (resolved := filter _ _ ≫= snd). destruct (_ && _) in |- *; [done|]. intros [= <-].
    destruct (push_resolved_from net gws entry r g resolved p) as [Hf Hs]; [done..| |done|].
    { intros a Ha. unfold resolved in Ha. apply list_elem_of_bind in Ha as ([k addrs] & Ha & Hk).
      apply list_elem_of_filter in Hk as [Hcov Hk].
      destruct (fr_static _ _ _ Hp _ _ Hk) as (record & ? & ?).
      exists record, k, addrs. by split_and!. }
    split; [|eapply same_frame_trans; [exact Hs|by repeat split]].
    eapply from_recipe_push; [exact Hf|by repeat split|..]; cbn; auto.
    intros r' g' [?|[= -> ->]]%snoc_elem; [by left|]. right. exists entry. eauto.
Qed.

Lemma add_allow_rules_from net gws entries p p' :
  entries ⊆ net_allow net → from_recipe net gws p → add_allow_rules entries p = Ok p' →
  from_recipe net gws p' ∧ same_frame p p'.
Proof.
  revert p. induction entries as [|e entries IH]; intros p Hsub Hp; cbn [add_allow_rules].
  { intros [= <-]. split; [done|by repeat split]. }
  destruct (add_allow_rule e p) as [q|] eqn:Hq; rsimpl; [|done].
  destruct (_ <? _); [done|]. intros Hok.
  assert (He : e ∈ net_allow net) by (apply Hsub; left).
  destruct (add_allow_rule_from _ _ _ _ _ He Hp Hq) as [Hfq Hsq].
  destruct (IH q) as [Hf Hs]; [intros x Hx; apply Hsub; by right|done..|].
  split; [done|]. by eapply same_frame_trans.
Qed.

Lemma add_dns_records_learned records p p' :
  add_dns_records records p = Ok p' →
  learned_dns p' = learned_dns p ∧ learned_poisoned p' = learned_poisoned p.
Proof.
  revert p. induction records as [|r rs IH]; intros p; cbn [add_dns_records].
  { by intros [= <-]. }
  unfold add_dns_record at 1. destruct (parse_dns_record _ _) as [[k a]|]; rsimpl; [|done].
  destruct (btree_insert _ _ _) as [[o|] m]; rsimpl; [done|]. intros Hok. by apply IH in Hok.
Qed.

(** A policy that was built has only grants of its recipe, has learned
    nothing, and lets the guest ask other resolvers only when the recipe is
    unrestricted and publishes no name. *)
Lemma with_clock_from net gws p :
  with_clock net gws = Ok p →
  from_recipe net gws p ∧ lru_entries (learned_dns p) = [] ∧
  lru_capacity (learned_dns p) = LEARNED_ADDRESSES_CAPACITY ∧ learned_poisoned p = false ∧
  (blocks_direct_dns p = false → net_mode net = UnrestrictedPublic ∧ net_hosts net = []).
Proof.
  unfold with_clock. destruct (validate_limits net); rsimpl; [|done].
  destruct (add_dns_records _ _) as [q|] eqn:Hq; rsimpl; [|done]. intros Hp.
  assert (H0 : from_recipe net gws (empty_policy net gws))
    by (split; try done; intros ? *; by intros ?%not_elem_of_nil).
  destruct (add_dns_records_from _ _ _ _ _ (reflexivity _) H0 Hq) as [Hfq Hst].
  destruct (add_allow_rules_from _ _ _ _ _ (reflexivity _) Hfq Hp) as [Hf Hs].
  destruct Hs as (Em & El & Ep & Es & _).
  destruct (add_dns_records_learned _ _ _ Hq) as [Hl Hpo]. cbn in Hl, Hpo.
  destruct (lru_new_spec LEARNED_ADDRESSES_CAPACITY) as [Hnew Hcap].
  split; [done|]. rewrite El, Hl, Ep, Hpo. split_and!; [done..|].
  unfold blocks_direct_dns. rewrite Es, (fr_mode _ _ _ Hf). intros Hb.
  apply orb_false_iff in Hb as [Hm Hd]. apply bool_decide_eq_false in Hm.
  rewrite negb_false_iff, bool_decide_eq_true in Hd.
  split; [by destruct (net_mode net)|]. by destruct (Hst Hd).
Qed.

(** ** A policy in use

    Calls arrive in any order and at any time; [Poison] is a thread that
    panics while it holds the cache. *)

Inductive op : Type :=
| Accept (now : Z) (name : str) (addresses : list IpAddr)
| Authorized (now : Z) (peer : IpAddr * Z)
| Allows (now : Z) (ip : IpAddr) (port : Port)
| Poison.

Definition poison (p : BoxPolicy) : BoxPolicy :=
  mkBoxPolicy (mode p) (address_rules p) (name_rules p) (learned_dns p) true (static_dns p)
    (host_grants p) (host_addresses p) (gateway_addresses p).

Definition step (p : BoxPolicy) (o : op) : BoxPolicy :=
  match o with
  | Accept now name addresses => (accept_resolved now name addresses p).2
  | Authorized now peer => (authorized_until now peer p).2
  | Allows now ip port => (allows now ip port p).2
  | Poison => poison p
  end.

Definition run (ops : list op) (p : BoxPolicy) : BoxPolicy := foldl step p ops.

(** The rules never change. *)
Definition same_rules (p q : BoxPolicy) : Prop :=
  mode q = mode p ∧ address_rules q = address_rules p ∧ name_rules q = name_rules p ∧
  static_dns q = static_dns p ∧ host_grants q = host_grants p ∧
  host_addresses q = host_addresses p ∧ gateway_addresses q = gateway_addresses p.

#[local] Instance same_rules_preorder : PreOrder same_rules.
Proof.
  split; [by repeat split|].
  intros p q r (?&?&?&?&?&?&?) (?&?&?&?&?&?&?). by repeat split; etransitivity.
Qed.

Lemma allowed_until_rules now ip port p : same_rules p (allowed_until now ip port p).2.
Proof.
  unfold allowed_until. repeat case_match; reflexivity || by repeat split.
Qed.

Lemma step_rules p o : same_rules p (step p o).
Proof.
  destruct o as [now name addrs|now peer|now ip port|]; cbn [step].
  - unfold accept_resolved. repeat case_match; reflexivity || by repeat split.
  - unfold authorized_until. repeat case_match; try reflexivity. apply allowed_until_rules.
  - unfold allows. pose proof (allowed_until_rules now ip port p).
    by destruct (allowed_until now ip port p).
  - by repeat split.
Qed.

Lemma run_rules ops p : same_rules p (run ops p).
Proof.
  revert p. induction ops as [|o ops IH]; intros p; [reflexivity|].
  etransitivity; [apply (step_rules p o)|apply IH].
Qed.

(** *** Where learned entries come from *)

Definition expiry (now : Z) : Z := sat_add64 now (LEARNED_DNS_TTL_SECS * 1000000000).

Lemma promote_elem (k : Key) (f : Z → Z) l e :
  e ∈ promote k f l → e ∈ l ∨ ∃ v, (k, v) ∈ l ∧ e = (k, f v).
Proof.
  unfold promote. destruct (find_key k l) as [v|] eqn:Hv; [|by left].
  intros [->|He]%elem_of_cons.
  - right. exists v. split; [by apply find_key_Some_elem|done].
  - left. by apply elem_of_remove_key in He as [_ ?].
Qed.

Lemma learn_elem exp c k e :
  e ∈ lru_entries (learn exp c k) → e ∈ lru_entries c ∨ e = (k, exp).
Proof.
  unfold learn. destruct (lru_get_mut_spec k (Z.max exp) c) as (Hv & He & _).
  destruct (lru_get_mut k (Z.max exp) c) as [o c']. cbn [fst snd] in *.
  assert (Hc' : ∀ e, e ∈ lru_entries c' → e ∈ lru_entries c ∨ e = (k, exp)).
  { intros e'. rewrite He. intros [?|(v & Hin & ->)]%promote_elem; [by left|].
    destruct (Z.max_spec exp v) as [[_ ->]|[_ ->]]; [by left|by right]. }
  destruct o; [apply Hc'|]. destruct (lru_put_spec k exp c') as [-> _].
  intros [->|Hin]%subseteq_take%elem_of_cons; [by right|].
  by apply elem_of_remove_key in Hin as [_ ?%Hc'].
Qed.

Lemma learn_all_elem exp ks c e :
  e ∈ lru_entries (foldl (learn exp) c ks) →
  e ∈ lru_entries c ∨ ∃ k, k ∈ ks ∧ e = (k, exp).
Proof.
  revert c. induction ks as [|k ks IH]; intros c; cbn [foldl]; [by left|].
  intros [He|(k' & ? & ->)]%IH.
  - apply learn_elem in He as [?| ->]; [by left|]. right. exists k. split; [left|done].
  - right. exists k'. split; [by right|done].
Qed.

Lemma check_learned_elem now k c e :
  e ∈ lru_entries (check_learned now k c).2 → e ∈ lru_entries c.
Proof.
  unfold check_learned. destruct (lru_get_spec k c) as (_ & He & _).
  destruct (lru_get k c) as [o c']. cbn [fst snd] in *.
  assert (Hc' : ∀ e, e ∈ lru_entries c' → e ∈ lru_entries c).
  { intros e'. rewrite He. by intros [?|(v & Hin & ->)]%promote_elem. }
  assert (Hpop : ∀ e, e ∈ lru_entries (lru_pop k c') → e ∈ lru_entries c).
  { intros e'. destruct (lru_pop_spec k c') as [-> _].
    intros [_ ?]%elem_of_remove_key. by apply Hc'. }
  destruct o as [x|]; [destruct (now <? x)|]; cbn [snd]; auto.
Qed.

Lemma allowed_until_elem now ip port p e :
  e ∈ lru_entries (learned_dns (allowed_until now ip port p).2) →
  e ∈ lru_entries (learned_dns p).
Proof.
  unfold allowed_until. set (a := to_canonical ip). destruct (is_gateway p a); [done|].
  destruct (existsb _ _); [done|]. destruct (_ || _); [done|].
  destruct (mode p); [done|]. destruct (learned_poisoned p); [done|].
  pose proof (check_learned_elem now (a, None) (learned_dns p)) as H1.
  destruct (check_learned now (a, None) (learned_dns p)) as [o1 c1].
  pose proof (check_learned_elem now (a, port) c1) as H2.
  destruct (check_learned now (a, port) c1) as [o2 c2]. cbn in *. auto.
Qed.

(** An entry of the cache: the answer that taught it. *)
Definition taught (hist : list op) (p : BoxPolicy) (key : Key) (t : Z) : Prop :=
  ∃ now name addresses n,
    Accept now name addresses ∈ hist ∧ normalize_hostname name = Some n ∧
    key.2 ∈ grants_for p n ∧
    key.1 ∈ (to_canonical <$> take MAX_RESOLVED_ADDRESSES addresses) ∧ t = expiry now.

Definition learned_ok (hist : list op) (p : BoxPolicy) : Prop :=
  ∀ key t, (key, t) ∈ lru_entries (learned_dns p) → taught hist p key t.

Lemma accept_address_elem p ips acc ip :
  ip ∈ foldl (accept_address p) acc ips → ip ∈ acc ∨ ip ∈ ips.
Proof.
  revert acc. induction ips as [|i ips IH]; intros acc; cbn [foldl]; [by left|].
  intros [Hin|]%IH; [|by right; right]. unfold accept_address in Hin.
  destruct (_ && _); [|by left]. apply snoc_elem in Hin as [?| ->]; [by left|right; left].
Qed.

Lemma taught_mono hist hist' p q key t :
  hist ⊆ hist' → same_rules p q → taught hist p key t → taught hist' q key t.
Proof.
  intros Hsub Hrules (now & name & addrs & n & Hin & Hn & Hg & Hip & Ht).
  exists now, name, addrs, n. split_and!; [by apply Hsub|done| |done..].
  unfold grants_for in *. by destruct Hrules as (_ & _ & -> & _).
Qed.

Lemma step_learned hist p o : learned_ok hist p → learned_ok (hist ++ [o]) (step p o).
Proof.
  intros Hok key t Hin. pose proof (step_rules p o) as Hrules.
  assert (Hold : (key, t) ∈ lru_entries (learned_dns p) → taught (hist ++ [o]) (step p o) key t).
  { intros ?%Hok. eapply taught_mono; [|done..]. intros x Hx. apply elem_of_app. by left. }
  destruct o as [now name addrs|now peer|now ip port|]; cbn [step] in *.
  - unfold accept_resolved in Hin, Hold, Hrules |- *.
    destruct (normalize_hostname name) as [n|] eqn:Hn; [|auto].
    destruct (_ && _); [auto|]. destruct (mode p); [auto|].
    destruct (learned_poisoned p); [auto|]. cbn [snd learned_dns set_learned] in Hin.
    apply learn_all_elem in Hin as [?|(k & Hk & [= -> ->])]; [auto|].
    apply list_elem_of_bind in Hk as (ip & Hk & Hip).
    apply list_elem_of_fmap in Hk as (g & -> & Hg).
    exists now, name, addrs, n. split_and!; [apply elem_of_app; right; left|done|done| |done].
    by apply accept_address_elem in Hip as [?%not_elem_of_nil|].
  - unfold authorized_until in Hin, Hold |- *. revert Hin Hold.
    destruct (_ && _); [auto|]. destruct (_ && _); [auto|]. intros Hin Hold.
    by eapply Hold, allowed_until_elem.
  - unfold allows in *. pose proof (allowed_until_elem now ip port p) as He.
    destruct (allowed_until now ip port p) as [u q]. cbn [snd] in *. auto.
  - auto.
Qed.

Lemma run_learned ops hist p : learned_ok hist p → learned_ok (hist ++ ops) (run ops p).
Proof.
  revert hist p. induction ops as [|o ops IH]; intros hist p Hok; [by rewrite app_nil_r|].
  change (hist ++ o :: ops) with (hist ++ [o] ++ ops). rewrite app_assoc.
  by apply (IH _ (step p o)), step_learned.
Qed.

(** ** Why a peer is reachable *)

Definition public (net : Network) (gws : IpAddr * IpAddr) (ip : IpAddr) : Prop :=
  is_floored ip = false ∧ (ip ∉ gateways gws) ∧
  (ip ∉ (to_canonical <$> net_host_addresses net)) ∧
  (∀ x v, ip = V6 x → nat64_well_known_v4 x = Some v →
          V4 v ∉ (to_canonical <$> net_host_addresses net)).

Definition at_port (g : Port) (port : Z) : Prop := g = None ∨ g = Some port.

(** [justified net gws ops now peer t]: the recipe, together with the answers
    learned in [ops], opens [peer] until [t]. *)
Inductive justified (net : Network) (gws : IpAddr * IpAddr) (ops : list op) (now : Z)
    (ip : IpAddr) (port : Z) : Z → Prop :=
| by_host g :
    is_host_loopback ip = true → opens_host net gws g → at_port g port →
    justified net gws ops now ip port U64_MAX
| by_range c g :
    to_canonical ip ∉ gateways gws → opens_range net gws c g →
    contains c (to_canonical ip) = true → at_port g port →
    justified net gws ops now ip port U64_MAX
| by_default :
    net_mode net = UnrestrictedPublic → public net gws (to_canonical ip) →
    justified net gws ops now ip port U64_MAX
| by_name r g t name addresses n :
    net_mode net = Allowlist → public net gws (to_canonical ip) →
    opens_name net r g → at_port g port →
    Accept t name addresses ∈ ops → normalize_hostname name = Some n → name_covers r n = true →
    to_canonical ip ∈ (to_canonical <$> take MAX_RESOLVED_ADDRESSES addresses) →
    now < expiry t →
    justified net gws ops now ip port (expiry t).

Lemma grant_matches_at g port : grant_matches port g = true → at_port g port.
Proof. destruct g as [g|]; cbn; [|by left]. rewrite Z.eqb_eq. intros ->. by right. Qed.

Lemma check_learned_Some now k c t :
  (check_learned now k c).1 = Some t → (k, t) ∈ lru_entries c ∧ now < t.
Proof.
  unfold check_learned. destruct (lru_get_spec k c) as (Hv & _).
  destruct (lru_get k c) as [[x|] c']; cbn [fst snd] in *; [|done].
  destruct (Z.ltb_spec now x); [|done]. intros [= <-]. split; [|done]. by apply find_key_Some_elem.
Qed.

Lemma not_host_address net gws p ip :
  from_recipe net gws p → is_host_address p ip = false → is_floored ip = false →
  ip ∉ gateways gws → public net gws ip.
Proof.
  intros Hp Hh Hfl Hgw. unfold is_host_address in Hh. rewrite (fr_host_addresses _ _ _ Hp) in Hh.
  apply orb_false_iff in Hh as [Hha Hnat]. apply bool_decide_eq_false in Hha.
  split_and!; [done..|]. intros x v -> Hv. rewrite Hv in Hnat. cbn in Hnat.
  by apply bool_decide_eq_false in Hnat.
Qed.

(** The decision on an address, for a policy that came from the recipe. *)
Lemma allowed_until_justified net gws ops p now ip port t :
  from_recipe net gws p → learned_ok ops p →
  (allowed_until now ip (Some port) p).1 = Some t → justified net gws ops now ip port t.
Proof.
  intros Hp Hl. unfold allowed_until, is_gateway. rewrite (fr_gateways _ _ _ Hp).
  case_bool_decide as Hgw; [done|]. destruct (existsb _ _) eqn:Hex.
  { intros [= <-]. apply existsb_exists in Hex as ([c g] & Hin & Hc).
    apply list_elem_of_In, (fr_address _ _ _ Hp) in Hin. apply andb_prop in Hc as [Hc Hg].
    eapply by_range; [done..|]. destruct g as [g|]; [|by left]. right.
    by apply orb_prop in Hg as [?|?%bool_decide_eq_true]. }
  destruct (_ || _) eqn:Hpub; [done|]. apply orb_false_iff in Hpub as [Hha Hfl].
  pose proof (not_host_address _ _ _ _ Hp Hha Hfl Hgw) as Hpublic.
  destruct (mode p) eqn:Hmode; rewrite (fr_mode _ _ _ Hp) in Hmode.
  { intros [= <-]. by apply by_default. }
  destruct (learned_poisoned p); [done|].
  pose proof (check_learned_Some now (to_canonical ip, None) (learned_dns p)) as H1.
  pose proof (check_learned_elem now (to_canonical ip, None) (learned_dns p)) as He1.
  destruct (check_learned now _ (learned_dns p)) as [o1 c1].
  pose proof (check_learned_Some now (to_canonical ip, Some port) c1) as H2.
  destruct (check_learned now _ c1) as [o2 c2]. cbn [fst snd] in *.
  intros Hmax. assert (Hlearned : ∃ g, at_port g port ∧ now < t ∧
                        ((to_canonical ip, g), t) ∈ lru_entries (learned_dns p)).
  { destruct o1 as [x|], o2 as [y|]; cbn [max_option] in Hmax; try done; injection Hmax as <-.
    - destruct (Z.max_spec x y) as [[_ ->]|[_ ->]];
        [destruct (H2 y eq_refl); exists (Some port)|destruct (H1 x eq_refl); exists None].
      + split_and!; [by right|done|auto].
      + split_and!; [by left|done|auto].
    - destruct (H1 x eq_refl). exists None. split_and!; [by left|done|auto].
    - destruct (H2 y eq_refl). exists (Some port). split_and!; [by right|done|auto]. }
  destruct Hlearned as (g & Hg & Hnow & (t0 & name & addrs & n & Ha & Hn & Hgr & Hip & ->)%Hl).
  cbn [fst snd] in *. unfold grants_for in Hgr. apply list_elem_of_fmap in Hgr as ([r g'] & -> & Hr).
  apply list_elem_of_filter in Hr as [Hcov Hr]. apply (fr_name _ _ _ Hp) in Hr.
  by eapply by_name.
Qed.

Lemma from_recipe_rules net gws p q :
  from_recipe net gws p → same_rules p q → from_recipe net gws q.
Proof.
  intros [? ? ? ? ? ? ?] (Em & Ea & En & Es & Eh & Eha & Eg).
  split; rewrite ?Em, ?Ea, ?En, ?Es, ?Eh, ?Eha, ?Eg; done.
Qed.

Lemma blocks_direct_dns_rules p q :
  same_rules p q → blocks_direct_dns q = blocks_direct_dns p.
Proof. intros (Em & _ & _ & Es & _). unfold blocks_direct_dns. by rewrite Em, Es. Qed.

(** ** Claims *)

(** C3. Every connection the policy lets through can be traced to the recipe.
    After any sequence of calls on a policy built from a recipe, a peer that
    is authorized until [t] is the host's loopback opened by a host entry; or
    an address, not a gateway, inside a range some entry writes or publishes;
    or, in the unrestricted mode, a public address; or, in the allowlist mode,
    a public address that an answer taught for a name some entry covers, on
    the entry's port, at most sixty seconds ago. Port 53 is open only where
    the guest may use other resolvers. *)
Theorem authorization_justified net gws p ops now ip port t :
  with_clock net gws = Ok p →
  (authorized_until now (ip, port) (run ops p)).1 = Some t →
  justified net gws ops now ip port t ∧
  (port = 53 → net_mode net = UnrestrictedPublic ∧ net_hosts net = []).
Proof.
  intros Hp. destruct (with_clock_from _ _ _ Hp) as (Hfrom & Hempty & _ & _ & Hdns).
  pose proof (run_rules ops p) as Hrules.
  pose proof (from_recipe_rules _ _ _ _ Hfrom Hrules) as Hfrom'.
  assert (Hl : learned_ok ops (run ops p)).
  { apply (run_learned ops []). intros k x. rewrite Hempty. by intros ?%not_elem_of_nil. }
  rewrite <-(blocks_direct_dns_rules _ _ Hrules) in Hdns. set (q := run ops p) in *.
  unfold authorized_until. cbn [fst snd]. destruct (_ && _) eqn:H53; [done|].
  intros Ht. split.
  - destruct (is_host_loopback ip && _) eqn:Hloop; [|by eapply allowed_until_justified].
    injection Ht as <-. apply andb_prop in Hloop as [Hloop Hex].
    apply existsb_exists in Hex as (g & Hg & Hm). apply list_elem_of_In in Hg.
    eapply by_host; [done|by apply (fr_host _ _ _ Hfrom')|by apply grant_matches_at].
  - intros ->. by apply Hdns.
Qed.

(** *** Learned addresses stay reachable *)

Lemma find_key_promote (k k' : Key) (l : list (Key * Z)) : find_key k (promote k' id l) = find_key k l.
Proof.
  unfold promote. destruct (find_key k' l) as [v|] eqn:Hv; [|done]. cbn [find_key id].
  case_decide as Hk; [by subst|]. by apply find_key_remove_key.
Qed.

(** A check drops an entry only once it has expired. *)
Lemma check_learned_keeps now k k' c v :
  find_key k (lru_entries c) = Some v → now < v →
  find_key k (lru_entries (check_learned now k' c).2) = Some v.
Proof.
  intros Hk Hv. unfold check_learned. destruct (lru_get_spec k' c) as (Hget & He & _).
  destruct (lru_get k' c) as [o c']. cbn [fst snd] in *.
  assert (Hc' : find_key k (lru_entries c') = Some v) by by rewrite He, find_key_promote.
  assert (Hpop : k ≠ k' → find_key k (lru_entries (lru_pop k' c')) = Some v).
  { intros Hne. destruct (lru_pop_spec k' c') as [-> _]. by rewrite find_key_remove_key. }
  destruct o as [x|].
  - destruct (Z.ltb_spec now x); cbn [snd]; [done|]. apply Hpop. intros ->.
    rewrite Hk in Hget. injection Hget as ->. lia.
  - cbn [snd]. apply Hpop. intros ->. by rewrite Hk in Hget.
Qed.

Lemma check_learned_finds now k c v :
  find_key k (lru_entries c) = Some v → now < v → (check_learned now k c).1 = Some v.
Proof.
  intros Hk Hv. unfold check_learned. destruct (lru_get_spec k c) as (Hget & _).
  destruct (lru_get k c) as [o c']. cbn [fst] in *. rewrite Hget, Hk.
  by rewrite (proj2 (Z.ltb_lt now v)).
Qed.

(** A key near the front stays near the front, one place further back. *)
Lemma find_key_take_remove n (k k' : Key) (l : list (Key * Z)) v :
  k ≠ k' → find_key k (take n l) = Some v → find_key k (take n (remove_key k' l)) = Some v.
Proof.
  intros Hne. revert n. induction l as [|[a x] l IH]; intros n; [done|].
  destruct n as [|n]; [done|]. cbn [take find_key]. unfold remove_key. rewrite filter_cons.
  cbn [fst]. fold (remove_key k' l). destruct (decide (a ≠ k')) as [Ha|Ha]; cbn [take find_key].
  - case_decide; [done|]. apply IH.
  - case_decide as Hk; [subst; by destruct Ha|]. intros Hv%IH.
    clear -Hv. revert n Hv. generalize (remove_key k' l). intros m.
    induction m as [|[b y] m IHm]; intros n; [by destruct n|]. destruct n as [|n]; [done|].
    cbn [take find_key]. case_decide; [done|]. apply IHm.
Qed.

Definition front (n : nat) (exp : Z) (k : Key) (l : list (Key * Z)) : Prop :=
  ∃ v, exp ≤ v ∧ find_key k (take n l) = Some v.

Lemma find_key_take n (k : Key) (l : list (Key * Z)) v :
  find_key k (take n l) = Some v → find_key k l = Some v.
Proof.
  revert n. induction l as [|[a x] l IH]; intros n; [by destruct n|].
  destruct n as [|n]; [done|]. cbn [take find_key]. case_decide; [done|]. apply IH.
Qed.

(** The entries after learning a key: the key in front, the others behind. *)
Lemma learn_entries exp c k n :
  (n < lru_capacity c)%nat →
  ∃ x, exp ≤ x ∧
    take (S n) (lru_entries (learn exp c k)) = (k, x) :: take n (remove_key k (lru_entries c)).
Proof.
  intros Hn. unfold learn. destruct (lru_get_mut_spec k (Z.max exp) c) as (Hv & He & Hcap).
  destruct (lru_get_mut k (Z.max exp) c) as [o c']. cbn [fst snd] in *. unfold promote in He.
  destruct (find_key k (lru_entries c)) as [v|]; subst o.
  - exists (Z.max exp v). rewrite He. split; [lia|done].
  - exists exp. destruct (lru_put_spec k exp c') as [-> _]. rewrite He, Hcap. split; [lia|].
    rewrite take_take. by replace (S n `min` lru_capacity c)%nat with (S n) by lia.
Qed.

Lemma learn_capacity exp c k : lru_capacity (learn exp c k) = lru_capacity c.
Proof.
  unfold learn. destruct (lru_get_mut_spec k (Z.max exp) c) as (_ & _ & Hcap).
  destruct (lru_get_mut k (Z.max exp) c) as [[v|] c']; cbn [snd] in *; [done|].
  by destruct (lru_put_spec k exp c') as [_ ->].
Qed.

Lemma learn_front exp c k k' n :
  (n < lru_capacity c)%nat → k = k' ∨ front n exp k (lru_entries c) →
  front (S n) exp k (lru_entries (learn exp c k')).
Proof.
  intros Hn Hk. destruct (learn_entries exp c k' n Hn) as (x & Hx & Htake).
  unfold front. rewrite Htake. cbn [find_key]. case_decide as Heq; [by exists x|].
  destruct Hk as [?|(v & Hv & Hassoc)]; [done|]. exists v. split; [done|].
  by apply find_key_take_remove.
Qed.

Lemma learn_all_front exp ks seen n c :
  (n + length ks ≤ lru_capacity c)%nat →
  (∀ k, k ∈ seen → front n exp k (lru_entries c)) →
  ∀ k, k ∈ seen ++ ks → front (n + length ks) exp k (lru_entries (foldl (learn exp) c ks)).
Proof.
  revert seen n c. induction ks as [|k' ks IH]; intros seen n c Hcap Hseen k Hk; cbn [foldl length].
  { rewrite app_nil_r in Hk. rewrite Nat.add_0_r. auto. }
  cbn [length] in Hcap. replace (n + S (length ks))%nat with (S n + length ks)%nat by lia.
  apply (IH (seen ++ [k'])); [rewrite learn_capacity; lia| |by rewrite <-app_assoc].
  intros a Ha. apply learn_front; [lia|]. apply snoc_elem in Ha as [?| ->]; [right; auto|by left].
Qed.

(** *** What an answer yields *)

Definition acceptable (p : BoxPolicy) (ip : IpAddr) : bool :=
  negb (is_floored ip) && negb (is_gateway p ip) && negb (is_host_address p ip).

Lemma accept_address_length p ips acc :
  (length (foldl (accept_address p) acc ips) ≤ length acc + length ips)%nat.
Proof.
  revert acc. induction ips as [|i ips IH]; intros acc; cbn [foldl length]; [lia|].
  etransitivity; [apply IH|]. unfold accept_address. destruct (_ && _); [|lia].
  rewrite length_app. cbn. lia.
Qed.

Lemma accept_address_keeps p acc i ip : ip ∈ acc → ip ∈ accept_address p acc i.
Proof. unfold accept_address. destruct (_ && _); [|done]. rewrite elem_of_app. by left. Qed.

Lemma accept_address_in p ips acc ip :
  ip ∈ acc ∨ (ip ∈ ips ∧ acceptable p ip = true) → ip ∈ foldl (accept_address p) acc ips.
Proof.
  revert acc. induction ips as [|i ips IH]; intros acc Hip; cbn [foldl].
  { by destruct Hip as [?|[?%not_elem_of_nil _]]. }
  apply IH. destruct Hip as [?|[[->|?]%elem_of_cons Hok]]; [|left|by right].
  - left. by apply accept_address_keeps.
  - unfold accept_address. fold (acceptable p i). rewrite Hok. cbn [andb].
    case_bool_decide; cbn [negb]; [done|]. apply elem_of_app. right. left.
Qed.

(** Calls that only ask. *)
Definition asks_before (t : Z) (o : op) : Prop :=
  match o with
  | Authorized now _ | Allows now _ _ => now < t
  | Accept _ _ _ | Poison => False
  end.

(** An entry that has not expired survives a question. *)
Lemma allowed_until_keeps now ip port p k v :
  find_key k (lru_entries (learned_dns p)) = Some v → now < v →
  find_key k (lru_entries (learned_dns (allowed_until now ip port p).2)) = Some v ∧
  learned_poisoned (allowed_until now ip port p).2 = learned_poisoned p.
Proof.
  intros Hk Hv. unfold allowed_until. set (a := to_canonical ip).
  destruct (is_gateway p a); [done|]. destruct (existsb _ _); [done|].
  destruct (_ || _); [done|]. destruct (mode p); [done|].
  destruct (learned_poisoned p) eqn:Hpo; [done|].
  pose proof (check_learned_keeps now k (a, None) _ _ Hk Hv) as H1.
  destruct (check_learned now (a, None) (learned_dns p)) as [o1 c1]. cbn [snd] in H1.
  pose proof (check_learned_keeps now k (a, port) _ _ H1 Hv) as H2.
  destruct (check_learned now (a, port) c1) as [o2 c2].
  by split.
Qed.

Lemma step_keeps t o p k v :
  asks_before t o → t ≤ v → find_key k (lru_entries (learned_dns p)) = Some v →
  find_key k (lru_entries (learned_dns (step p o))) = Some v ∧
  learned_poisoned (step p o) = learned_poisoned p.
Proof.
  intros Ho Ht Hk. destruct o as [now name addrs|now peer|now ip port|]; cbn in Ho; try done;
    cbn [step].
  - unfold authorized_until. destruct (_ && _); [done|]. destruct (_ && _); [done|].
    apply allowed_until_keeps; [done|lia].
  - unfold allows. pose proof (allowed_until_keeps now ip port p k v Hk ltac:(lia)) as Hq.
    by destruct (allowed_until now ip port p).
Qed.

Lemma run_keeps t qs p k v :
  Forall (asks_before t) qs → t ≤ v → find_key k (lru_entries (learned_dns p)) = Some v →
  find_key k (lru_entries (learned_dns (run qs p))) = Some v ∧
  learned_poisoned (run qs p) = learned_poisoned p.
Proof.
  intros Hqs Ht. revert p. induction Hqs as [|o qs Ho _ IH]; intros p Hk; [done|].
  destruct (step_keeps t o p k v Ho Ht Hk) as [Hk' Hp'].
  destruct (IH (step p o) Hk') as [? ?]. cbn [run foldl]. split; [done|]. by etransitivity.
Qed.

(** What a live entry answers. *)
Lemma authorized_until_live now ip port p g v e :
  mode p = Allowlist → learned_poisoned p = false → acceptable p (to_canonical ip) = true →
  find_key (to_canonical ip, g) (lru_entries (learned_dns p)) = Some v →
  at_port g port → port ≠ 53 → now < e ≤ v → e ≤ U64_MAX →
  ∃ u, (authorized_until now (ip, port) p).1 = Some u ∧ e ≤ u.
Proof.
  intros Hm Hpo Hok Hk Hg H53 Hv Hmax. unfold authorized_until. cbn [fst snd].
  rewrite (proj2 (Z.eqb_neq port 53)) by done. cbn [andb].
  destruct (_ && _); [eexists; split; [done|lia]|].
  apply andb_prop in Hok as [[Hfl Hgw]%andb_prop Hha]. unfold allowed_until.
  rewrite negb_true_iff in *. rewrite Hgw, Hha, Hfl. cbn [orb].
  destruct (existsb _ _); [eexists; split; [done|lia]|]. rewrite Hm, Hpo.
  pose proof (check_learned_keeps now (to_canonical ip, g) (to_canonical ip, None) _ _ Hk ltac:(lia))
    as Hk1.
  pose proof (λ H, check_learned_finds now (to_canonical ip, None) (learned_dns p) v H ltac:(lia)) as F1.
  destruct (check_learned now _ (learned_dns p)) as [o1 c1]. cbn [fst snd] in *.
  pose proof (λ H, check_learned_finds now (to_canonical ip, Some port) c1 v H ltac:(lia)) as F2.
  destruct (check_learned now _ c1) as [o2 c2]. cbn [fst snd] in *.
  destruct Hg as [->| ->].
  - rewrite F1 by done. destruct o2 as [y|]; eexists; split; done || lia.
  - rewrite F2 by done. destruct o1 as [x|]; eexists; split; done || lia.
Qed.

(** Learning makes every granted key live. *)
Lemma accept_resolved_learns now name n addresses ip g p :
  mode p = Allowlist → learned_poisoned p = false → normalize_hostname name = Some n →
  (MAX_RESOLVED_ADDRESSES * length (grants_for p n) ≤ lru_capacity (learned_dns p))%nat →
  ip ∈ (to_canonical <$> take MAX_RESOLVED_ADDRESSES addresses) → acceptable p ip = true →
  g ∈ grants_for p n →
  ip ∈ (accept_resolved now name addresses p).1 ∧
  ∃ v, expiry now ≤ v ∧
    find_key (ip, g) (lru_entries (learned_dns (accept_resolved now name addresses p).2)) = Some v.
Proof.
  intros Hm Hpo Hn Hcap Hip Hok Hg. unfold accept_resolved. rewrite Hn, Hm, Hpo.
  destruct (grants_for p n) as [|g0 gs] eqn:Hgs; [by apply not_elem_of_nil in Hg|].
  rewrite (bool_decide_false (_ :: _ = [])) by done. rewrite andb_false_r. cbn [fst snd].
  set (accepted := foldl _ _ _). set (keys := accepted ≫= _).
  assert (Hacc : ip ∈ accepted) by (apply accept_address_in; by right).
  split; [done|]. cbn [learned_dns set_learned].
  assert (Hlen : (length accepted ≤ MAX_RESOLVED_ADDRESSES)%nat).
  { pose proof (accept_address_length p (to_canonical <$> take MAX_RESOLVED_ADDRESSES addresses) [])
      as Hl. fold accepted in Hl. rewrite length_fmap, length_take in Hl. cbn [length] in Hl. lia. }
  assert (Hkeys : length keys = (length accepted * length (g0 :: gs))%nat).
  { unfold keys. clear. induction accepted as [|a l IH]; [done|].
    rewrite bind_cons, length_app, length_fmap, IH. cbn [length]. lia. }
  assert (Hin : (ip, g) ∈ [] ++ keys).
  { apply list_elem_of_bind. exists ip. split; [|done]. apply list_elem_of_fmap. by exists g. }
  apply (learn_all_front (expiry now) keys [] 0 (learned_dns p)) in Hin as (v & Hv & Hassoc).
  - exists v. split; [done|]. by eapply find_key_take.
  - etransitivity; [|exact Hcap]. unfold Key. rewrite Hkeys. by apply Nat.mul_le_mono_r.
  - by intros k ?%not_elem_of_nil.
Qed.

Lemma expiry_max now : expiry now ≤ U64_MAX.
Proof. unfold expiry, sat_add64. case_match; breflect; lia. Qed.

(** A resolved name works: when an answer for a name that the allowlist
    covers is accepted, every public address among its first thirty-two is
    handed to the guest, and stays reachable on every port the entries grant
    until sixty seconds have passed, whatever else is asked in the meantime,
    as long as the answer's grants fit in the cache. *)
Theorem learned_names_open p now name n addresses ip g qs t port :
  mode p = Allowlist → learned_poisoned p = false → normalize_hostname name = Some n →
  (MAX_RESOLVED_ADDRESSES * length (grants_for p n) ≤ lru_capacity (learned_dns p))%nat →
  to_canonical ip ∈ (to_canonical <$> take MAX_RESOLVED_ADDRESSES addresses) →
  acceptable p (to_canonical ip) = true → g ∈ grants_for p n → at_port g port → port ≠ 53 →
  Forall (asks_before (expiry now)) qs → t < expiry now →
  to_canonical ip ∈ (accept_resolved now name addresses p).1 ∧
  ∃ u, (authorized_until t (ip, port) (run qs (accept_resolved now name addresses p).2)).1 = Some u ∧
       expiry now ≤ u.
Proof.
  intros Hm Hpo Hn Hcap Hip Hok Hg Hport H53 Hqs Ht.
  destruct (accept_resolved_learns now name n addresses (to_canonical ip) g p)
    as (Hacc & v & Hv & Hk); [done..|]. split; [done|].
  pose proof (step_rules p (Accept now name addresses)) as Hr1. cbn [step] in Hr1.
  assert (Hpo1 : learned_poisoned (accept_resolved now name addresses p).2 = false)
    by (unfold accept_resolved; repeat case_match; done).
  set (q := (accept_resolved now name addresses p).2) in *.
  pose proof (run_rules qs q) as Hr2. pose proof (transitivity Hr1 Hr2) as Hr.
  destruct (run_keeps (expiry now) qs q _ _ Hqs Hv Hk) as [Hk' Hpo'].
  destruct Hr as (Em & _ & _ & _ & _ & Eha & Egw).
  apply (authorized_until_live t ip port (run qs q) g v); [..|lia|apply expiry_max];
    try congruence; try done.
  unfold acceptable, is_gateway, is_host_address in *. by rewrite Eha, Egw.
Qed.

End Policy.

(** ** Concrete uses *)

Definition demo_cache : Type := nat * list (Key * Z).

Definition demo_gateways : IpAddr * IpAddr := (V4 (v4 100 96 0 1), V6 (v6 0xfd00 0 0 0 0 0 0 1)).

Definition demo_net : Network :=
  mkNetwork Allowlist [lit "*.api.test:443"; lit "10.0.0.0/8"; lit "db.local:5432"]
    [mkStaticDnsRecord (lit "db.local") (lit "HOST_LOOPBACK")] [V4 (v4 192 0 2 7)].

Definition demo_policy : BoxPolicy (C := demo_cache) :=
  mkBoxPolicy Allowlist [(CidrV4 (v4 10 0 0 0) 0xff000000, None)]
    [(lit "*.api.test", Some 443); (lit "db.local", Some 5432)]
    (LEARNED_ADDRESSES_CAPACITY, []) false
    [(lit "db.local", [V4 (v4 100 96 0 1); V6 (v6 0xfd00 0 0 0 0 0 0 1)])]
    [Some 5432; Some 5432] [V4 (v4 192 0 2 7)] demo_gateways.

Lemma demo_policy_built : with_clock demo_net demo_gateways = Ok demo_policy.
Proof. by vm_compute. Qed.

Definition demo_answer : op :=
  Accept 7 (lit "WWW.api.test.") [V4 (v4 10 0 0 5); V6 (v6 0 0 0 0 0 0xffff 0x101 0x101)].

Lemma demo_authorized :
  (authorized_until 9 (V4 (v4 1 1 1 1), 443) (run [demo_answer] demo_policy)).1
  = Some 60000000007.
Proof. by vm_compute. Qed.

Lemma authorization_justified_witness :
  justified demo_net demo_gateways [demo_answer] 9 (V4 (v4 1 1 1 1)) 443 60000000007 ∧
  (443 = 53 → net_mode demo_net = UnrestrictedPublic ∧ net_hosts demo_net = []).
Proof.
  apply (authorization_justified demo_net demo_gateways demo_policy [demo_answer] 9
           (V4 (v4 1 1 1 1)) 443 60000000007).
  - apply demo_policy_built.
  - apply demo_authorized.
Defined.

Lemma demo_fits :
  (MAX_RESOLVED_ADDRESSES * length (grants_for demo_policy (lit "www.api.test")) ≤
   lru_capacity (learned_dns demo_policy))%nat.
Proof. apply Nat.leb_le. by vm_compute. Qed.

Lemma demo_answer_public :
  acceptable demo_policy (to_canonical (V4 (v4 1 1 1 1))) = true ∧
  normalize_hostname (lit "WWW.api.test.") = Some (lit "www.api.test") ∧
  grants_for demo_policy (lit "www.api.test") = [Some 443].
Proof. by vm_compute. Qed.

Lemma learned_names_open_witness :
  to_canonical (V4 (v4 1 1 1 1)) ∈
    (accept_resolved 7 (lit "WWW.api.test.") [V4 (v4 10 0 0 5); V4 (v4 1 1 1 1)] demo_policy).1 ∧
  ∃ u, (authorized_until 11 (V4 (v4 1 1 1 1), 443)
          (run [Authorized 10 (V4 (v4 9 9 9 9), 443)]
             (accept_resolved 7 (lit "WWW.api.test.") [V4 (v4 10 0 0 5); V4 (v4 1 1 1 1)]
                demo_policy).2)).1 = Some u ∧ expiry 7 ≤ u.
Proof.
  destruct demo_answer_public as (Hok & Hn & Hg).
  apply (learned_names_open demo_policy 7 (lit "WWW.api.test.") (lit "www.api.test")
           [V4 (v4 10 0 0 5); V4 (v4 1 1 1 1)] (V4 (v4 1 1 1 1)) (Some 443)
           [Authorized 10 (V4 (v4 9 9 9 9), 443)] 11 443).
  - reflexivity.
  - reflexivity.
  - exact Hn.
  - exact demo_fits.
  - right. left.
  - exact Hok.
  - rewrite Hg. left.
  - right. reflexivity.
  - discriminate.
  - constructor; [reflexivity|constructor].
  - reflexivity.
Defined.
End Policy.
