(* ===== verification/AppFrames.v ===== *)
(** * Network frames between the guest kernel and the host

    [crates/terra-protocol/src/application.rs]: the binary frames of the
    per-socket streams, their reader and writer and the runs of UDP datagrams;
    with the socket errors of [crates/terra-protocol/src/socket.rs].

    A reader is code over the bytes that are left ([Body]), a writer code over
    the bytes written so far ([BodyWriter]). [postcard] is outside the
    repository; [Error::decode] calls it on one byte, and the section
    parameter [postcard_error] stands for that call. *)

From S2P Require Import Prelude.

Local Open Scope Z_scope.
Local Open Scope st_scope.

(** ** Socket errors *)

Inductive SocketError : Type :=
| AccessDenied | InvalidArgument | InvalidState | LimitExceeded | Cancelled
| ConnectionRefused | ConnectionReset | TimedOut | NameUnresolvable | ResolverBusy
| DatagramTooLarge | Closed | Io | NotReady | Protocol.

#[export] Instance SocketError_eq_dec : EqDecision SocketError.
Proof. solve_decision. Defined.

(** The variants in the order of their declaration. *)
Definition socket_errors : list SocketError :=
  [AccessDenied; InvalidArgument; InvalidState; LimitExceeded; Cancelled; ConnectionRefused;
   ConnectionReset; TimedOut; NameUnresolvable; ResolverBusy; DatagramTooLarge; Closed; Io;
   NotReady; Protocol].

(** [error as u16]. *)
Definition error_code (e : SocketError) : Z :=
  match e with
  | AccessDenied => 1 | InvalidArgument => 2 | InvalidState => 3 | LimitExceeded => 4
  | Cancelled => 5 | ConnectionRefused => 6 | ConnectionReset => 7 | TimedOut => 8
  | NameUnresolvable => 9 | ResolverBusy => 10 | DatagramTooLarge => 11 | Closed => 12
  | Io => 13 | NotReady => 14 | Protocol => 15
  end.

(** ** Sizes *)

Definition HEADER_BYTES : Z := 8.
Definition ENDPOINT_BYTES : Z := 20.
Definition UDP_SEGMENT_FIELD_BYTES : Z := 4.
Definition ENDPOINT_IPV4 : Z := 4.
Definition ENDPOINT_IPV6 : Z := 6.
Definition UDP_FRAME_OVERHEAD_BYTES : Z :=
  HEADER_BYTES + ENDPOINT_BYTES + UDP_SEGMENT_FIELD_BYTES.
Definition MAX_DATAGRAM_SEGMENTS : Z := 64.
Definition MAX_NETWORK_DATAGRAM_BYTES : Z := 4096.
Definition MAX_FRAME_BYTES : Z := 64 * 1024.
Definition MAX_UDP_RUN_BYTES : Z := MAX_FRAME_BYTES - UDP_FRAME_OVERHEAD_BYTES.
Definition MAX_KEEPALIVE_SECS : Z := 32767.
Definition MAX_KEEPALIVE_PROBES : Z := 127.
Definition TCP_OPEN_INLINE_URGENT_FLAG : Z := 1.
Definition TCP_OPEN_KEEPALIVE_FLAG : Z := 2.

(** ** Data *)

(** [std::net::SocketAddr]. *)
Inductive SocketAddr : Type :=
| SocketV4 (ip port : Z)
| SocketV6 (ip port flowinfo scope_id : Z).

#[export] Instance SocketAddr_eq_dec : EqDecision SocketAddr.
Proof. solve_decision. Defined.

Inductive Opcode : Type := Op_TcpOpen | Op_UdpSend | Op_Opened | Op_UdpDatagram | Op_UdpError.

Inductive FrameError : Type := mkFrameError.

Definition opcode_code (o : Opcode) : Z :=
  match o with
  | Op_TcpOpen => 0x01 | Op_UdpSend => 0x03 | Op_Opened => 0x101 | Op_UdpDatagram => 0x103
  | Op_UdpError => 0x104
  end.

(** [Opcode::try_from]. *)
Definition opcode_try_from (value : Z) : result FrameError Opcode :=
  if value =? 0x01 then Ok Op_TcpOpen
  else if value =? 0x03 then Ok Op_UdpSend
  else if value =? 0x101 then Ok Op_Opened
  else if value =? 0x103 then Ok Op_UdpDatagram
  else if value =? 0x104 then Ok Op_UdpError
  else Err mkFrameError.

Record TcpKeepalive := mkTcpKeepalive { idle_secs : Z; interval_secs : Z; probe_count : Z }.

(** [TcpKeepalive::new]. *)
Definition keepalive_new (idle interval probes : Z) : option TcpKeepalive :=
  if ((1 <=? idle) && (idle <=? MAX_KEEPALIVE_SECS))
     && ((1 <=? interval) && (interval <=? MAX_KEEPALIVE_SECS))
     && ((1 <=? probes) && (probes <=? MAX_KEEPALIVE_PROBES))
  then Some (mkTcpKeepalive idle interval probes) else None.

Record TcpOpenOptions := mkTcpOpenOptions {
  inline_urgent : bool;
  keepalive : option TcpKeepalive;
}.

Record UdpRun := mkUdpRun { run_peer : SocketAddr; run_segment : Z; run_bytes : list Z }.

Inductive GuestFrame : Type :=
| TcpOpen (peer : SocketAddr) (options : TcpOpenOptions)
| UdpSend (run : UdpRun).

Inductive HostFrame : Type :=
| Opened (outcome : result SocketError unit)
| UdpDatagram (run : UdpRun)
| UdpError (peer : SocketAddr) (error : SocketError).

(** ** UDP runs *)

(** [length.div_ceil(segment)]. *)
Definition div_ceil (a b : Z) : Z := (a + b - 1) / b.

Definition is_valid_segmented_run (length segment : Z) : bool :=
  (1 <=? segment) && (segment <=? MAX_NETWORK_DATAGRAM_BYTES) && (segment <? length)
  && (length <=? MAX_UDP_RUN_BYTES) && (div_ceil length segment <=? MAX_DATAGRAM_SEGMENTS).

Definition is_valid_udp_run (length segment : Z) : bool :=
  if segment =? 0 then length <=? MAX_NETWORK_DATAGRAM_BYTES
  else is_valid_segmented_run length segment.

(** [usize::is_multiple_of]: only 0 is a multiple of 0. *)
Definition extends_udp_run (run_bytes segment length : Z) : bool :=
  negb (length =? 0) && (length <=? segment)
  && is_multiple_of run_bytes segment
  && is_valid_segmented_run (run_bytes + length) segment.

Definition check_udp_run (bytes : list Z) (segment : Z) : result FrameError unit :=
  if is_valid_udp_run (zlen bytes) segment then Ok tt else Err mkFrameError.

(** ** Reading *)

Definition Body (A : Type) : Type := stM (list Z) FrameError A.

Definition take_array (n : nat) : Body (list Z) :=
  λ s, if (n <=? length s)%nat then (Ok (take n s), drop n s) else (Err mkFrameError, s).

Definition get_u16 : Body Z := bs <- take_array 2;; st_ret (from_le bs).
Definition get_u32 : Body Z := bs <- take_array 4;; st_ret (from_le bs).

Definition reserved : Body unit :=
  v <- get_u16;; if v =? 0 then st_ret tt else st_err mkFrameError.

Definition get_peer : Body SocketAddr :=
  head <- take_array 2;;
  match head with
  | [family; 0] =>
      port <- get_u16;;
      address <- take_array 16;;
      if (family =? ENDPOINT_IPV4) && bool_decide (drop 4 address = replicate 12 0)
      then st_ret (SocketV4 (from_be (take 4 address)) port)
      else if family =? ENDPOINT_IPV6
      then st_ret (SocketV6 (from_be address) port 0 0)
      else st_err mkFrameError
  | _ => st_err mkFrameError
  end.

Definition get_tcp_open : Body (SocketAddr * TcpOpenOptions) :=
  flags <- get_u16;;
  probes <- get_u16;;
  idle <- get_u16;;
  interval <- get_u16;;
  if negb (Z.land flags (not16 (Z.lor TCP_OPEN_INLINE_URGENT_FLAG TCP_OPEN_KEEPALIVE_FLAG)) =? 0)
  then st_err mkFrameError
  else
    alive <- (if Z.land flags TCP_OPEN_KEEPALIVE_FLAG =? 0
              then (if bool_decide ([probes; idle; interval] = [0; 0; 0])
                    then st_ret None else st_err mkFrameError)
              else match keepalive_new idle interval probes with
                   | Some k => st_ret (Some k)
                   | None => st_err mkFrameError
                   end);;
    peer <- get_peer;;
    st_ret (peer, mkTcpOpenOptions (negb (Z.land flags TCP_OPEN_INLINE_URGENT_FLAG =? 0)) alive).

Definition remaining : Body (list Z) := λ s, (Ok s, []).
Definition finish : Body unit :=
  λ s, if bool_decide (s = []) then (Ok tt, s) else (Err mkFrameError, s).

Definition read_udp_body : Body UdpRun :=
  peer <- get_peer;;
  segment <- get_u16;;
  reserved;;;
  bytes <- remaining;;
  st_lift (check_udp_run bytes segment);;;
  st_ret (mkUdpRun peer segment bytes).

(** The opcode and payload length a header declares. *)
Definition read_header (bytes : list Z) : result FrameError (Opcode * Z) :=
  ((code <- get_u16;;
   opcode <- st_lift (opcode_try_from code);;
   reserved;;;
   length <- get_u32;;
   if MAX_FRAME_BYTES - HEADER_BYTES <? length then st_err mkFrameError
   else st_ret (opcode, length)) bytes).1.

Definition frame_len (header : list Z) : result FrameError Z :=
  (λ h, HEADER_BYTES + h.2) <$> read_header header.

(** ** Writing *)

Definition BodyWriter : Type := stM (list Z) FrameError unit.

Definition extend (bs : list Z) : BodyWriter := λ out, (Ok tt, out ++ bs).
Definition put_u16 (value : Z) : BodyWriter := extend (le_bytes 2 value).
Definition put_reserved : BodyWriter := put_u16 0.

Definition put_peer (peer : SocketAddr) : BodyWriter :=
  match peer with
  | SocketV4 ip port =>
      extend [ENDPOINT_IPV4; 0];;; put_u16 port;;; extend (be_bytes 4 ip ++ replicate 12 0)
  | SocketV6 ip port flowinfo scope_id =>
      if (flowinfo =? 0) && (scope_id =? 0)
      then extend [ENDPOINT_IPV6; 0];;; put_u16 port;;; extend (be_bytes 16 ip)
      else st_err mkFrameError
  end.

Definition put_tcp_open (peer : SocketAddr) (options : TcpOpenOptions) : BodyWriter :=
  let flags := if inline_urgent options then TCP_OPEN_INLINE_URGENT_FLAG else 0 in
  let '(flags, fields) :=
    match keepalive options with
    | Some k => (Z.lor flags TCP_OPEN_KEEPALIVE_FLAG,
                 [probe_count k; idle_secs k; interval_secs k])
    | None => (flags, [0; 0; 0])
    end in
  put_u16 flags;;;
  extend (fields ≫= le_bytes 2);;;
  put_peer peer.

Definition put_status (error : option SocketError) : BodyWriter :=
  put_u16 (match error with Some e => error_code e | None => 0 end);;;
  put_reserved.

(** The segment that is written for a run. *)
Definition written_segment (run : UdpRun) : Z :=
  if run_segment run <? zlen (run_bytes run) then run_segment run else 0.

Definition put_udp_body (run : UdpRun) : BodyWriter :=
  st_lift (check_udp_run (run_bytes run) (written_segment run));;;
  put_peer (run_peer run);;;
  put_u16 (written_segment run);;;
  put_reserved;;;
  extend (run_bytes run).

(** [out[at..at + src.len()].copy_from_slice(src)]. *)
Definition copy_at (pos : nat) (src out : list Z) : list Z :=
  take pos out ++ src ++ drop (pos + length src) out.

Definition append_frame (opcode : Opcode) (write_payload : BodyWriter) : BodyWriter :=
  λ out,
    let start := length out in
    let '(written, out') := write_payload (out ++ replicate (Z.to_nat HEADER_BYTES) 0) in
    let written := match written with
                   | Ok _ => if MAX_FRAME_BYTES <? zlen out' - Z.of_nat start
                             then Err mkFrameError else written
                   | Err _ => written
                   end in
    match written with
    | Err e => (Err e, take start out')
    | Ok _ =>
        let length := (zlen out' - Z.of_nat start - HEADER_BYTES) mod 4294967296 in
        (Ok tt, copy_at (start + 4) (le_bytes 4 length)
                  (copy_at start (le_bytes 2 (opcode_code opcode)) out'))
    end.

Definition guest_opcode (f : GuestFrame) : Opcode :=
  match f with TcpOpen _ _ => Op_TcpOpen | UdpSend _ => Op_UdpSend end.
Definition guest_append (f : GuestFrame) : BodyWriter :=
  append_frame (guest_opcode f)
    match f with
    | TcpOpen peer options => put_tcp_open peer options
    | UdpSend run => put_udp_body run
    end.

Definition host_opcode (f : HostFrame) : Opcode :=
  match f with
  | Opened _ => Op_Opened | UdpDatagram _ => Op_UdpDatagram | UdpError _ _ => Op_UdpError
  end.
Definition host_append (f : HostFrame) : BodyWriter :=
  append_frame (host_opcode f)
    match f with
    | Opened outcome => put_status (match outcome with Ok _ => None | Err e => Some e end)
    | UdpDatagram run => put_udp_body run
    | UdpError peer error => put_status (Some error);;; put_peer peer
    end.

(** [GuestFrame::encode] and [HostFrame::encode]. *)
Definition encode (append : BodyWriter) : result FrameError (list Z) :=
  match append [] with (Ok _, out) => Ok out | (Err e, _) => Err e end.

(** ** Frames *)

Definition decode_frame {F} (decode_payload : Opcode → Body F) (bytes : list Z)
    : result FrameError (option (F * Z)) :=
  if zlen bytes <? HEADER_BYTES then Ok None else
  '(opcode, length) ← read_header (take (Z.to_nat HEADER_BYTES) bytes);
  let rest := drop (Z.to_nat HEADER_BYTES) bytes in
  if zlen rest <? length then Ok None else
  let payload := take (Z.to_nat length) rest in
  match (frame <- decode_payload opcode;; finish;;; st_ret frame) payload with
  | (Ok frame, _) => Ok (Some (frame, HEADER_BYTES + length))
  | (Err e, _) => Err e
  end.

Definition guest_decode_payload (opcode : Opcode) : Body GuestFrame :=
  match opcode with
  | Op_UdpSend => run <- read_udp_body;; st_ret (UdpSend run)
  | Op_TcpOpen => o <- get_tcp_open;; st_ret (TcpOpen o.1 o.2)
  | Op_Opened | Op_UdpDatagram | Op_UdpError => st_err mkFrameError
  end.

Definition guest_decode : list Z → result FrameError (option (GuestFrame * Z)) :=
  decode_frame guest_decode_payload.

Section Status.
Variable postcard_error : Z → option SocketError.

(** [Error::decode]. *)
Definition error_decode (value : Z) : option SocketError :=
  index ← checked_sub value 1;
  if index <=? 255 then postcard_error index else None.

Definition get_status : Body (option SocketError) :=
  status <- get_u16;;
  reserved;;;
  if status =? 0 then st_ret None
  else match error_decode status with
       | Some e => st_ret (Some e)
       | None => st_err mkFrameError
       end.

Definition host_decode_payload (opcode : Opcode) : Body HostFrame :=
  match opcode with
  | Op_UdpDatagram => run <- read_udp_body;; st_ret (UdpDatagram run)
  | Op_Opened =>
      s <- get_status;;
      st_ret (Opened (match s with None => Ok tt | Some e => Err e end))
  | Op_UdpError =>
      s <- get_status;;
      match s with
      | None => st_err mkFrameError
      | Some error => peer <- get_peer;; st_ret (UdpError peer error)
      end
  | Op_TcpOpen | Op_UdpSend => st_err mkFrameError
  end.

Definition host_decode : list Z → result FrameError (option (HostFrame * Z)) :=
  decode_frame host_decode_payload.
End Status.

(** The guest side of a small conversation. *)
Definition demo_error (i : Z) : option SocketError := socket_errors !! Z.to_nat i.
Definition demo_frame : GuestFrame :=
  UdpSend (mkUdpRun (SocketV4 0x01020304 53) 3 [1; 2; 3; 4; 5]).
Example guest_frame_bytes :
  encode (guest_append demo_frame) =
    Ok [3; 0; 0; 0; 29; 0; 0; 0; 4; 0; 53; 0; 1; 2; 3; 4; 0; 0; 0; 0; 0; 0; 0; 0; 0; 0; 0; 0;
        3; 0; 0; 0; 1; 2; 3; 4; 5] ∧
  guest_decode ([3; 0; 0; 0; 29; 0; 0; 0; 4; 0; 53; 0; 1; 2; 3; 4; 0; 0; 0; 0; 0; 0; 0; 0; 0; 0;
        0; 0; 3; 0; 0; 0; 1; 2; 3; 4; 5] ++ [9; 9]) = Ok (Some (demo_frame, 37)) ∧
  host_decode demo_error [4; 1; 0; 0; 24; 0; 0; 0; 6; 0; 0; 0; 4; 0; 53; 0; 1; 2; 3; 4; 0; 0; 0;
        0; 0; 0; 0; 0; 0; 0; 0; 0] = Ok (Some (UdpError (SocketV4 0x01020304 53) ConnectionRefused, 32)).
Proof. by vm_compute. Qed.

(** ** Readers and writers that fit together

    [parses r a w]: on [w] followed by anything, [r] reads [a] and leaves the
    rest. [exactly r P]: whatever [r] reads, it read a [w] that [P] describes. *)

Definition parses {A} (r : Body A) (a : A) (w : list Z) : Prop :=
  ∀ rest, r (w ++ rest) = (Ok a, rest).
Definition exactly {A} (r : Body A) (P : A → list Z → Prop) : Prop :=
  ∀ s a rest, bytes s → r s = (Ok a, rest) → ∃ w, s = w ++ rest ∧ P a w.
Definition writes (w : BodyWriter) (bs : list Z) : Prop := ∀ out, w out = (Ok tt, out ++ bs).

Lemma parses_ret {A} (a : A) : parses (st_ret a) a [].
Proof. by intros rest. Qed.
Lemma parses_bind {A B} (r : Body A) (k : A → Body B) a b w1 w2 :
  parses r a w1 → parses (k a) b w2 → parses (st_bind r k) b (w1 ++ w2).
Proof. intros Hr Hk rest. unfold st_bind. by rewrite <-app_assoc, Hr, Hk. Qed.
(** The last step of a reader reads nothing. *)
Lemma parses_last {A B} (r : Body A) (k : A → Body B) a b w :
  parses r a w → parses (k a) b [] → parses (st_bind r k) b w.
Proof. intros Hr Hk. rewrite <-(app_nil_r w). by eapply parses_bind. Qed.

Lemma parses_array n w : length w = n → parses (take_array n) w w.
Proof.
  intros <- rest. unfold take_array. rewrite (proj2 (Nat.leb_le _ _)) by (rewrite length_app; lia).
  by rewrite take_app_length, drop_app_length.
Qed.

Lemma exactly_ret {A} (a : A) : exactly (st_ret a) (λ b w, b = a ∧ w = []).
Proof. intros s b rest _ [= <- <-]. by exists []. Qed.
Lemma exactly_bind {A B} (r : Body A) (k : A → Body B) P Q :
  exactly r P → (∀ a, exactly (k a) (Q a)) →
  exactly (st_bind r k) (λ b w, ∃ a w1 w2, w = w1 ++ w2 ∧ P a w1 ∧ Q a b w2).
Proof.
  intros Hr Hk s b rest Hs. unfold st_bind. destruct (r s) as [[a|e] s'] eqn:Ha; [|done].
  destruct (Hr _ _ _ Hs Ha) as (w1 & -> & HP). apply Forall_app in Hs as [_ Hs].
  intros Hb. destruct (Hk a _ _ _ Hs Hb) as (w2 & -> & HQ).
  exists (w1 ++ w2). split; [by rewrite app_assoc|]. by exists a, w1, w2.
Qed.
Lemma exactly_mono {A} (r : Body A) (P Q : A → list Z → Prop) :
  exactly r P → (∀ a w, P a w → Q a w) → exactly r Q.
Proof. intros Hr HPQ s a rest Hs Ha. destruct (Hr s a rest Hs Ha) as (w & ? & ?); eauto. Qed.

Lemma exactly_array n : exactly (take_array n) (λ a w, a = w ∧ length w = n ∧ bytes w).
Proof.
  intros s a rest Hs. unfold take_array. destruct (Nat.leb_spec n (length s)); [|done].
  intros [= <- <-]. exists (take n s). rewrite take_drop. split_and!; [done..| |].
  - rewrite length_take. lia.
  - by apply Forall_take.
Qed.

(** Little-endian integers of [n] bytes. *)
Lemma parses_le n v :
  0 ≤ v < 256 ^ Z.of_nat n → parses (bs <- take_array n;; st_ret (from_le bs)) v (le_bytes n v).
Proof.
  intros Hv. eapply parses_last; [by apply parses_array, le_bytes_length|].
  rewrite from_le_le_bytes by done. apply parses_ret.
Qed.
Lemma exactly_le n :
  exactly (bs <- take_array n;; st_ret (from_le bs))
    (λ v w, 0 ≤ v < 256 ^ Z.of_nat n ∧ w = le_bytes n v).
Proof.
  eapply exactly_mono; [apply exactly_bind; [apply exactly_array|intros a; apply exactly_ret]|].
  intros v w (a & w1 & w2 & -> & (-> & Hlen & Hb) & -> & ->). rewrite app_nil_r.
  pose proof (from_le_bound w1 Hb) as Hv. pose proof (le_bytes_from_le w1 Hb) as Hw.
  unfold zlen in Hv. by rewrite Hlen in Hv, Hw.
Qed.

Lemma parses_u16 v : u16 v → parses get_u16 v (le_bytes 2 v).
Proof. apply (parses_le 2). Qed.
Lemma parses_u32 v : u32 v → parses get_u32 v (le_bytes 4 v).
Proof. apply (parses_le 4). Qed.
Lemma exactly_u16 : exactly get_u16 (λ v w, u16 v ∧ w = le_bytes 2 v).
Proof. apply (exactly_le 2). Qed.
Lemma exactly_u32 : exactly get_u32 (λ v w, u32 v ∧ w = le_bytes 4 v).
Proof. apply (exactly_le 4). Qed.

Lemma parses_reserved : parses reserved tt (le_bytes 2 0).
Proof. eapply parses_last; [by apply parses_u16|apply parses_ret]. Qed.
Lemma exactly_reserved : exactly reserved (λ _ w, w = le_bytes 2 0).
Proof.
  intros s a rest Hs. unfold reserved, st_bind. destruct (get_u16 s) as [[v|e] s'] eqn:Hv; [|done].
  destruct (exactly_u16 s v s' Hs Hv) as (w & -> & _ & ->).
  destruct (Z.eqb_spec v 0) as [->|]; [|done]. intros [= _ <-]. by exists (le_bytes 2 0).
Qed.

(** The next step of a reader, from what it read. *)
Ltac read_step Hs lem a Ha :=
  unfold st_bind at 1;
  match goal with
  | |- context [match ?r ?s with _ => _ end = (Ok _, _) → _] =>
      let E := fresh in
      destruct (r s) as [[a|?] ?] eqn:E; [|done];
      destruct (lem _ _ _ Hs E) as (? & -> & Ha); apply Forall_app in Hs as [_ Hs]; clear E
  end.

(** ** Endpoints *)

Definition peer_wf (peer : SocketAddr) : Prop :=
  match peer with
  | SocketV4 ip port => u32 ip ∧ u16 port
  | SocketV6 ip port flowinfo scope_id =>
      0 ≤ ip < 256 ^ Z.of_nat 16 ∧ u16 port ∧ flowinfo = 0 ∧ scope_id = 0
  end.

Definition peer_bytes (peer : SocketAddr) : list Z :=
  match peer with
  | SocketV4 ip port => [ENDPOINT_IPV4; 0] ++ le_bytes 2 port ++ be_bytes 4 ip ++ replicate 12 0
  | SocketV6 ip port _ _ => [ENDPOINT_IPV6; 0] ++ le_bytes 2 port ++ be_bytes 16 ip
  end.

Lemma peer_bytes_length peer : length (peer_bytes peer) = 20%nat.
Proof. by destruct peer. Qed.

Lemma parses_peer peer : peer_wf peer → parses get_peer peer (peer_bytes peer).
Proof.
  destruct peer as [ip port|ip port fl sc]; cbn [peer_wf peer_bytes].
  - intros [Hip Hport]. eapply parses_bind; [by apply (parses_array 2 [ENDPOINT_IPV4; 0])|].
    eapply parses_bind; [by apply parses_u16|].
    eapply parses_last; [by apply parses_array|].
    rewrite (take_app_length' (be_bytes 4 ip)) by done.
    rewrite (drop_app_length' (be_bytes 4 ip)) by done.
    rewrite bool_decide_true by done. cbn [andb Z.eqb ENDPOINT_IPV4 Pos.eqb].
    rewrite from_be_be_bytes by done. apply parses_ret.
  - intros (Hip & Hport & -> & ->).
    eapply parses_bind; [by apply (parses_array 2 [ENDPOINT_IPV6; 0])|].
    eapply parses_bind; [by apply parses_u16|].
    eapply parses_last; [by apply parses_array|].
    cbn [andb Z.eqb ENDPOINT_IPV4 ENDPOINT_IPV6 Pos.eqb].
    rewrite from_be_be_bytes by done. apply parses_ret.
Qed.

Lemma exactly_peer : exactly get_peer (λ peer w, peer_wf peer ∧ w = peer_bytes peer).
Proof.
  intros s peer rest Hs. unfold get_peer. unfold st_bind at 1.
  destruct (take_array 2 s) as [[head|e] s1] eqn:Hhead; [|done].
  destruct (exactly_array 2 s head s1 Hs Hhead) as (w1 & -> & <- & Hl1 & Hb1).
  apply Forall_app in Hs as [_ Hs1].
  destruct head as [|family [|z [|? ?]]]; try done. destruct z; try done.
  unfold st_bind at 1. destruct (get_u16 s1) as [[port|e] s2] eqn:Hport; [|done].
  destruct (exactly_u16 s1 port s2 Hs1 Hport) as (w2 & -> & Hp & ->).
  apply Forall_app in Hs1 as [_ Hs2].
  unfold st_bind at 1. destruct (take_array 16 s2) as [[address|e] s3] eqn:Haddr; [|done].
  destruct (exactly_array 16 s2 address s3 Hs2 Haddr) as (w3 & -> & <- & Hl3 & Hb3).
  assert (Hbe : ∀ n (l : list Z), bytes l → length l = n → be_bytes n (from_be l) = l ∧
                  0 ≤ from_be l < 256 ^ Z.of_nat n).
  { intros n l Hl <-. split; [by apply be_bytes_from_be|by apply from_be_bound]. }
  destruct ((family =? ENDPOINT_IPV4) && _) eqn:H4.
  - breflect. intros [= <- <-]. destruct (Hbe 4%nat (take 4 address)) as [Hbytes Hip].
    { by apply Forall_take. }
    { rewrite length_take. lia. }
    exists (peer_bytes (SocketV4 (from_be (take 4 address)) port)). split; [|done].
    cbn [peer_bytes]. rewrite Hbytes, <-H0, take_drop, <-H. by rewrite <-!app_assoc.
  - destruct (Z.eqb_spec family ENDPOINT_IPV6) as [->|]; [|done]. intros [= <- <-].
    destruct (Hbe 16%nat address Hb3 Hl3) as [Hbytes Hip].
    exists (peer_bytes (SocketV6 (from_be address) port 0 0)). split; [|done].
    cbn [peer_bytes]. rewrite Hbytes. by rewrite <-!app_assoc.
Qed.

(** ** Options of a connection *)

Definition keepalive_wf (k : TcpKeepalive) : Prop :=
  1 ≤ idle_secs k ≤ MAX_KEEPALIVE_SECS ∧ 1 ≤ interval_secs k ≤ MAX_KEEPALIVE_SECS ∧
  1 ≤ probe_count k ≤ MAX_KEEPALIVE_PROBES.

Definition options_wf (o : TcpOpenOptions) : Prop :=
  match keepalive o with Some k => keepalive_wf k | None => True end.

Lemma keepalive_new_spec idle interval probes k :
  keepalive_new idle interval probes = Some k ↔
  k = mkTcpKeepalive idle interval probes ∧ keepalive_wf k.
Proof.
  unfold keepalive_new, keepalive_wf. destruct (_ && _) eqn:Hok; split.
  - intros [= <-]. breflect. split; [done|]. cbn [idle_secs interval_secs probe_count]. lia.
  - by intros [-> _].
  - done.
  - intros [-> Hk]. cbn [idle_secs interval_secs probe_count] in Hk. exfalso. rewrite <-not_true_iff_false in Hok. apply Hok.
    rewrite !andb_true_iff, !Z.leb_le. lia.
Qed.

Definition tcp_flags (o : TcpOpenOptions) : Z :=
  Z.lor (if inline_urgent o then TCP_OPEN_INLINE_URGENT_FLAG else 0)
        (match keepalive o with Some _ => TCP_OPEN_KEEPALIVE_FLAG | None => 0 end).
Definition tcp_fields (o : TcpOpenOptions) : list Z :=
  match keepalive o with
  | Some k => [probe_count k; idle_secs k; interval_secs k]
  | None => [0; 0; 0]
  end.
Definition tcp_open_bytes (peer : SocketAddr) (o : TcpOpenOptions) : list Z :=
  le_bytes 2 (tcp_flags o) ++ (tcp_fields o ≫= le_bytes 2) ++ peer_bytes peer.

Lemma tcp_flags_spec o :
  u16 (tcp_flags o) ∧
  Z.land (tcp_flags o) (not16 (Z.lor TCP_OPEN_INLINE_URGENT_FLAG TCP_OPEN_KEEPALIVE_FLAG)) = 0 ∧
  (Z.land (tcp_flags o) TCP_OPEN_KEEPALIVE_FLAG =? 0) =
    match keepalive o with Some _ => false | None => true end ∧
  negb (Z.land (tcp_flags o) TCP_OPEN_INLINE_URGENT_FLAG =? 0) = inline_urgent o.
Proof. destruct o as [[] [k|]]; by vm_compute. Qed.

(** The only flags a frame may carry. *)
Lemma tcp_flags_known flags :
  u16 flags →
  Z.land flags (not16 (Z.lor TCP_OPEN_INLINE_URGENT_FLAG TCP_OPEN_KEEPALIVE_FLAG)) = 0 →
  flags = 0 ∨ flags = 1 ∨ flags = 2 ∨ flags = 3.
Proof.
  intros Hf Hland.
  change (not16 _) with (Z.land (Z.shiftl (Z.ones 16) 2) (Z.ones 16)) in Hland.
  rewrite land_ones_shifted in Hland by (lia || exact Hf).
  change (2 ^ 2) with 4 in Hland. unfold u16 in Hf. ilia.
Qed.

Lemma fields_bytes a b c :
  ([a; b; c] ≫= le_bytes 2) = le_bytes 2 a ++ le_bytes 2 b ++ le_bytes 2 c.
Proof. done. Qed.

Lemma parses_tcp_open peer o :
  peer_wf peer → options_wf o → parses get_tcp_open (peer, o) (tcp_open_bytes peer o).
Proof.
  intros Hpeer Ho. destruct (tcp_flags_spec o) as (Hf & Hknown & Hkeep & Hinline).
  unfold get_tcp_open, tcp_open_bytes.
  eapply parses_bind; [by apply parses_u16|]. unfold tcp_fields, options_wf in *.
  assert (Hu : ∀ k, keepalive_wf k → u16 (probe_count k) ∧ u16 (idle_secs k) ∧ u16 (interval_secs k)).
  { unfold keepalive_wf, u16, MAX_KEEPALIVE_SECS, MAX_KEEPALIVE_PROBES. lia. }
  destruct o as [inline [k|]]; cbn [keepalive] in *.
  - destruct (Hu k Ho) as (? & ? & ?). rewrite fields_bytes, <-!app_assoc.
    do 3 (eapply parses_bind; [by apply parses_u16|]). rewrite Hknown.
    cbn [Z.eqb negb]. rewrite Hkeep. rewrite (proj2 (keepalive_new_spec _ _ _ k)) by by destruct k.
    eapply (parses_bind _ _ _ _ []); [apply parses_ret|].
    eapply parses_last; [by apply parses_peer|]. rewrite Hinline. apply parses_ret.
  - rewrite fields_bytes, <-!app_assoc.
    do 3 (eapply parses_bind; [by apply parses_u16|]). rewrite Hknown. cbn [Z.eqb negb]. rewrite Hkeep.
    rewrite bool_decide_true by done.
    eapply (parses_bind _ _ _ _ []); [apply parses_ret|].
    eapply parses_last; [by apply parses_peer|]. rewrite Hinline. apply parses_ret.
Qed.

Lemma exactly_tcp_open :
  exactly get_tcp_open (λ o w, peer_wf o.1 ∧ options_wf o.2 ∧ w = tcp_open_bytes o.1 o.2).
Proof.
  intros s [peer o] rest Hs. unfold get_tcp_open.
  read_step Hs exactly_u16 flags Hflags. read_step Hs exactly_u16 probes Hprobes.
  read_step Hs exactly_u16 idle Hidle. read_step Hs exactly_u16 interval Hinterval.
  destruct (Z.eqb_spec (Z.land flags (not16 (Z.lor TCP_OPEN_INLINE_URGENT_FLAG
    TCP_OPEN_KEEPALIVE_FLAG))) 0) as [Hknown|]; [|done]. cbn [negb].
  destruct Hflags as [Hflags ->], Hprobes as [_ ->], Hidle as [_ ->], Hinterval as [_ ->].
  assert (Hlast : ∀ alive s, bytes s →
    (p <- get_peer;; st_ret (p, mkTcpOpenOptions
        (negb (Z.land flags TCP_OPEN_INLINE_URGENT_FLAG =? 0)) alive)) s = (Ok (peer, o), rest) →
    s = peer_bytes peer ++ rest ∧ peer_wf peer ∧
    o = mkTcpOpenOptions (negb (Z.land flags TCP_OPEN_INLINE_URGENT_FLAG =? 0)) alive).
  { intros alive s' Hs'. read_step Hs' exactly_peer p Hp. intros [= <- <- <-].
    by destruct Hp as [? ->]. }
  apply tcp_flags_known in Hknown; [|done].
  unfold st_bind at 1. destruct (Z.land flags TCP_OPEN_KEEPALIVE_FLAG =? 0) eqn:Hkeep.
  - case_bool_decide as H0; [|done]. injection H0 as -> -> ->. cbn [st_ret].
    intros (-> & Hpeer & ->)%Hlast; [|done].
    eexists (tcp_open_bytes peer (mkTcpOpenOptions _ None)). split_and!; [|done..].
    unfold tcp_open_bytes, tcp_fields, tcp_flags. cbn [keepalive inline_urgent fst snd].
    by destruct Hknown as [->|[->|[->| ->]]]; try done; rewrite <-?app_assoc.
  - destruct (keepalive_new idle interval probes) as [k|] eqn:Hk; [|done]. cbn [st_ret].
    apply keepalive_new_spec in Hk as [-> Hk].
    intros (-> & Hpeer & ->)%Hlast; [|done].
    eexists (tcp_open_bytes peer (mkTcpOpenOptions _ (Some _))). split_and!; [|done..].
    unfold tcp_open_bytes, tcp_fields, tcp_flags. cbn [keepalive inline_urgent fst snd].
    cbn [probe_count idle_secs interval_secs]. rewrite fields_bytes.
    by destruct Hknown as [->|[->|[->| ->]]]; try done; rewrite <-!app_assoc.
Qed.

(** ** Runs of datagrams *)

Definition run_valid (run : UdpRun) : Prop :=
  is_valid_udp_run (zlen (run_bytes run)) (run_segment run) = true.
Definition run_wf (run : UdpRun) : Prop :=
  peer_wf (run_peer run) ∧ u16 (run_segment run) ∧ bytes (run_bytes run) ∧ run_valid run.

Definition run_payload (run : UdpRun) : list Z :=
  peer_bytes (run_peer run) ++ le_bytes 2 (run_segment run) ++ le_bytes 2 0 ++ run_bytes run.

(** What a run is written as: a segment that does not split it is 0. *)
Definition canonical_run (run : UdpRun) : UdpRun :=
  mkUdpRun (run_peer run) (written_segment run) (run_bytes run).

Lemma valid_run_size length segment :
  is_valid_udp_run length segment = true → length ≤ MAX_UDP_RUN_BYTES.
Proof.
  unfold is_valid_udp_run, is_valid_segmented_run. destruct (segment =? 0); intros; breflect.
  - unfold MAX_UDP_RUN_BYTES, MAX_FRAME_BYTES, UDP_FRAME_OVERHEAD_BYTES, MAX_NETWORK_DATAGRAM_BYTES,
      HEADER_BYTES, ENDPOINT_BYTES, UDP_SEGMENT_FIELD_BYTES in *. lia.
  - done.
Qed.

Lemma canonical_run_valid run : run_valid run → u16 (run_segment run) → canonical_run run = run.
Proof.
  destruct run as [peer segment bs]. unfold run_valid, canonical_run, written_segment. cbn.
  unfold is_valid_udp_run, is_valid_segmented_run.
  destruct (Z.eqb_spec segment 0) as [->|]; [by destruct (_ <? _)|].
  intros Hv _. breflect. by rewrite (proj2 (Z.ltb_lt segment (zlen bs))).
Qed.

(** A reader that ends in the whole rest of the payload. *)
Lemma read_udp_body_spec run :
  run_wf run → read_udp_body (run_payload run) = (Ok run, []).
Proof.
  intros (Hpeer & Hseg & _ & Hv). unfold read_udp_body, run_payload.
  unfold st_bind at 1. rewrite (parses_peer _ Hpeer).
  unfold st_bind at 1. rewrite (parses_u16 _ Hseg).
  unfold st_bind at 1. rewrite parses_reserved.
  cbn [st_bind remaining]. unfold st_bind, st_lift, check_udp_run.
  unfold run_valid in Hv. rewrite Hv. by destruct run.
Qed.

Lemma read_udp_body_inv s run rest :
  bytes s → read_udp_body s = (Ok run, rest) → rest = [] ∧ run_wf run ∧ s = run_payload run.
Proof.
  intros Hs. unfold read_udp_body. read_step Hs exactly_peer peer Hpeer.
  read_step Hs exactly_u16 segment Hseg. read_step Hs exactly_reserved u Hres.
  cbn [st_bind remaining]. unfold st_bind, st_lift, check_udp_run, remaining.
  destruct (is_valid_udp_run _ _) eqn:Hv; [|done]. intros [= <- <-].
  by destruct Hpeer as [? ->], Hseg as [? ->]; subst.
Qed.

(** ** Writers *)

Lemma writes_bind w1 w2 b1 b2 :
  writes w1 b1 → writes w2 b2 → writes (w1;;; w2) (b1 ++ b2).
Proof. intros H1 H2 out. unfold st_bind. by rewrite H1, H2, app_assoc. Qed.
Lemma writes_extend bs : writes (extend bs) bs.
Proof. by intros out. Qed.

Lemma writes_peer peer : peer_wf peer → writes (put_peer peer) (peer_bytes peer).
Proof.
  destruct peer as [ip port|ip port fl sc]; cbn [peer_wf peer_bytes put_peer].
  - intros _. by repeat (apply writes_bind; [apply writes_extend|]).
  - intros (_ & _ & -> & ->). cbn [Z.eqb andb].
    by repeat (apply writes_bind; [apply writes_extend|]).
Qed.

Lemma writes_tcp_open peer o :
  peer_wf peer → writes (put_tcp_open peer o) (tcp_open_bytes peer o).
Proof.
  intros Hp. unfold put_tcp_open, tcp_open_bytes, tcp_flags, tcp_fields.
  destruct o as [inline [k|]]; cbn [keepalive inline_urgent].
  - apply writes_bind; [apply writes_extend|].
    apply writes_bind; [apply writes_extend|by apply writes_peer].
  - rewrite Z.lor_0_r. apply writes_bind; [apply writes_extend|].
    apply writes_bind; [apply writes_extend|by apply writes_peer].
Qed.

Definition status_bytes (error : option SocketError) : list Z :=
  le_bytes 2 (match error with Some e => error_code e | None => 0 end) ++ le_bytes 2 0.

Lemma writes_status e : writes (put_status e) (status_bytes e).
Proof. apply writes_bind; apply writes_extend. Qed.

Lemma writes_udp_body run :
  peer_wf (run_peer run) → run_valid (canonical_run run) →
  writes (put_udp_body run) (run_payload (canonical_run run)).
Proof.
  intros Hp Hv out. unfold put_udp_body, check_udp_run. unfold st_bind at 1, st_lift.
  unfold run_valid in Hv. cbn [canonical_run run_bytes run_segment] in Hv. rewrite Hv.
  apply (writes_bind (put_peer _)); [by apply writes_peer|].
  apply writes_bind; [apply writes_extend|]. by apply writes_bind; apply writes_extend.
Qed.

(** Whatever happens, a writer only adds to what was there. *)
Definition grows (w : BodyWriter) : Prop := ∀ out, ∃ bs, (w out).2 = out ++ bs.

Lemma writes_grows w bs : writes w bs → grows w.
Proof. intros Hw out. exists bs. by rewrite Hw. Qed.
Lemma grows_err e : grows (st_err e).
Proof. intros out. exists []. by rewrite app_nil_r. Qed.
Lemma grows_lift r : grows (st_lift r).
Proof. intros out. exists []. by rewrite app_nil_r. Qed.
Lemma grows_bind w1 w2 : grows w1 → grows w2 → grows (w1;;; w2).
Proof.
  intros H1 H2 out. unfold st_bind. destruct (w1 out) as [[[]|e] out1] eqn:H.
  - destruct (H1 out) as [b1 E1], (H2 out1) as [b2 E2]. rewrite H in E1. cbn in E1. subst.
    exists (b1 ++ b2). by rewrite E2, app_assoc.
  - destruct (H1 out) as [b1 E1]. rewrite H in E1. by exists b1.
Qed.

(** ** Frames as bytes *)

Definition frame_header (op : Opcode) (len : Z) : list Z :=
  le_bytes 2 (opcode_code op) ++ le_bytes 2 0 ++ le_bytes 4 len.
Definition frame_bytes (op : Opcode) (payload : list Z) : list Z :=
  frame_header op (zlen payload) ++ payload.

Lemma copy_at_app out a b src :
  length src = length a → copy_at (length out) src (out ++ a ++ b) = out ++ src ++ b.
Proof.
  intros Hlen. unfold copy_at. rewrite take_app_length, Hlen.
  by rewrite <-length_app, (app_assoc out a b), drop_app_length.
Qed.

Lemma append_frame_ok op w bs out :
  writes w bs → zlen bs ≤ MAX_FRAME_BYTES - HEADER_BYTES →
  append_frame op w out = (Ok tt, out ++ frame_bytes op bs).
Proof.
  intros Hw Hlen. unfold append_frame. rewrite Hw.
  assert (Hsize : zlen ((out ++ replicate (Z.to_nat HEADER_BYTES) 0) ++ bs) - zlen out
                  = HEADER_BYTES + zlen bs).
  { unfold zlen. rewrite !length_app, length_replicate. unfold HEADER_BYTES. lia. }
  change (Z.of_nat (length out)) with (zlen out). rewrite Hsize.
  rewrite (proj2 (Z.ltb_ge MAX_FRAME_BYTES _)) by lia.
  replace (HEADER_BYTES + zlen bs - HEADER_BYTES) with (zlen bs) by lia.
  pose proof (zlen_nonneg bs). rewrite Z.mod_small
    by (unfold MAX_FRAME_BYTES, HEADER_BYTES in Hlen; lia).
  f_equal. unfold frame_bytes, frame_header.
  change (replicate (Z.to_nat HEADER_BYTES) 0) with ([0; 0] ++ [0; 0] ++ [0; 0; 0; 0]).
  rewrite <-!app_assoc, (copy_at_app out [0; 0]) by done.
  replace (length out + 4)%nat
    with (length (out ++ le_bytes 2 (opcode_code op) ++ [0; 0]))
    by (rewrite !length_app, le_bytes_length; cbn; lia).
  rewrite !(app_assoc out), !(app_assoc _ [0; 0]), (copy_at_app _ [0; 0; 0; 0]) by done.
  by rewrite <-!app_assoc.
Qed.

Lemma append_frame_err op w out e :
  grows w → (append_frame op w out).1 = Err e → append_frame op w out = (Err e, out).
Proof.
  intros Hw. unfold append_frame.
  destruct (Hw (out ++ replicate (Z.to_nat HEADER_BYTES) 0)) as [bs Hbs].
  destruct (w _) as [r out']. cbn [snd] in Hbs. subst out'.
  assert (Htrunc : ∀ b, take (length out) ((out ++ b) ++ bs) = out).
  { intros b. rewrite <-app_assoc. apply take_app_length. }
  destruct r as [u|e']; [destruct (_ <? _)|]; cbn [fst]; rewrite ?Htrunc; congruence.
Qed.

Lemma opcode_try_from_code op : opcode_try_from (opcode_code op) = Ok op.
Proof. by destruct op. Qed.
Lemma opcode_try_from_inv v op : opcode_try_from v = Ok op → v = opcode_code op.
Proof. unfold opcode_try_from. repeat (case_match; breflect; [by intros [= <-]|]). done. Qed.
Lemma opcode_code_u16 op : u16 (opcode_code op).
Proof. by destruct op. Qed.

Lemma read_header_spec op len :
  0 ≤ len ≤ MAX_FRAME_BYTES - HEADER_BYTES → read_header (frame_header op len) = Ok (op, len).
Proof.
  intros Hlen. unfold read_header, frame_header.
  unfold st_bind at 1. rewrite (parses_u16 _ (opcode_code_u16 op)).
  unfold st_bind at 1, st_lift. rewrite opcode_try_from_code.
  unfold st_bind at 1. rewrite parses_reserved.
  unfold st_bind at 1. rewrite <-(app_nil_r (le_bytes 4 len)), (parses_u32 len).
  - by rewrite (proj2 (Z.ltb_ge _ len)) by lia.
  - unfold u32, MAX_FRAME_BYTES, HEADER_BYTES in *. lia.
Qed.

Lemma read_header_inv h op len :
  bytes h → length h = 8%nat → read_header h = Ok (op, len) →
  h = frame_header op len ∧ 0 ≤ len ≤ MAX_FRAME_BYTES - HEADER_BYTES.
Proof.
  intros Hh Hlen. unfold read_header.
  destruct (st_bind _ _ h) as [r rest] eqn:Hr. cbn [fst]. intros ->. revert Hr.
  read_step Hh exactly_u16 code Hcode. unfold st_bind at 1, st_lift.
  destruct (opcode_try_from code) as [o|] eqn:Ho; [|done].
  read_step Hh exactly_reserved u Hres. read_step Hh exactly_u32 n Hn.
  destruct (Z.ltb_spec (MAX_FRAME_BYTES - HEADER_BYTES) n); [done|]. intros [= -> -> ->].
  destruct Hcode as [_ ->], Hn as [Hn ->]. subst. apply opcode_try_from_inv in Ho as ->.
  unfold u32 in Hn. split; [|lia].
  rewrite !length_app, !le_bytes_length in Hlen. destruct rest; [|cbn in Hlen; lia].
  by rewrite app_nil_r.
Qed.

(** A frame of [payload] that a reader of [decode_payload] takes. *)
Definition reads {F} (dp : Opcode → Body F) (op : Opcode) (payload : list Z) (f : F) : Prop :=
  (frame <- dp op;; finish;;; st_ret frame) payload = (Ok f, []).

Lemma reads_parses {F} (dp : Opcode → Body F) op payload f :
  parses (dp op) f payload → reads dp op payload f.
Proof.
  intros Hp. unfold reads. unfold st_bind at 1.
  by rewrite <-(app_nil_r payload), (Hp []).
Qed.

Lemma decode_frame_spec {F} (dp : Opcode → Body F) op payload f tail :
  reads dp op payload f → zlen payload ≤ MAX_FRAME_BYTES - HEADER_BYTES →
  decode_frame dp (frame_bytes op payload ++ tail) =
  Ok (Some (f, zlen (frame_bytes op payload))).
Proof.
  intros Hr Hlen. unfold decode_frame, frame_bytes. rewrite <-app_assoc.
  set (h := frame_header op (zlen payload)).
  assert (Hh : length h = Z.to_nat HEADER_BYTES) by done.
  assert (Hz : zlen h = HEADER_BYTES) by done.
  pose proof (zlen_nonneg payload) as H0. pose proof (zlen_nonneg tail) as H1.
  rewrite (proj2 (Z.ltb_ge _ HEADER_BYTES)).
  2: { rewrite !zlen_app, Hz. unfold HEADER_BYTES. lia. }
  rewrite take_app_length', drop_app_length' by done.
  unfold h. rewrite read_header_spec by lia. rsimpl.
  rewrite (proj2 (Z.ltb_ge _ (zlen payload))) by (rewrite zlen_app; lia).
  rewrite (take_app_length' payload) by (unfold zlen; lia).
  unfold reads in Hr. rewrite Hr. do 3 f_equal. by rewrite zlen_app.
Qed.

Lemma decode_frame_inv {F} (dp : Opcode → Body F) s f n :
  bytes s → decode_frame dp s = Ok (Some (f, n)) →
  ∃ op payload rest,
    s = frame_bytes op payload ++ rest ∧ n = zlen (frame_bytes op payload) ∧
    bytes payload ∧ zlen payload ≤ MAX_FRAME_BYTES - HEADER_BYTES ∧
    ∃ rest', (frame <- dp op;; finish;;; st_ret frame) payload = (Ok f, rest').
Proof.
  intros Hs. unfold decode_frame. destruct (Z.ltb_spec (zlen s) HEADER_BYTES) as [|Hlen]; [done|].
  unfold zlen, HEADER_BYTES in Hlen.
  assert (Hhead : length (take (Z.to_nat HEADER_BYTES) s) = 8%nat)
    by (rewrite length_take; unfold HEADER_BYTES; lia).
  destruct (read_header _) as [[op len]|] eqn:Hh; rsimpl; [|done].
  apply read_header_inv in Hh as [Heq Hl]; [|by apply Forall_take|done].
  set (rest := drop (Z.to_nat HEADER_BYTES) s).
  destruct (Z.ltb_spec (zlen rest) len) as [|Hrest]; [done|].
  set (payload := take (Z.to_nat len) rest).
  destruct (st_bind _ _ payload) as [[f'|e] rest'] eqn:Hr; [|done]. intros [= <- <-].
  assert (Hp : zlen payload = len)
    by (unfold payload, zlen in *; rewrite length_take; lia).
  exists op, payload, (drop (Z.to_nat len) rest). split_and!.
  - unfold frame_bytes. rewrite Hp, <-Heq, <-app_assoc. unfold payload. rewrite take_drop.
    symmetry. apply take_drop.
  - unfold frame_bytes. rewrite zlen_app, Hp. done.
  - by apply Forall_take, Forall_drop.
  - lia.
  - eauto.
Qed.

(** ** Guest frames *)

(** The widths of the fields of a Rust value. *)
Definition peer_typed (peer : SocketAddr) : Prop :=
  match peer with
  | SocketV4 ip port => u32 ip ∧ u16 port
  | SocketV6 ip port flowinfo scope_id =>
      0 ≤ ip < 256 ^ Z.of_nat 16 ∧ u16 port ∧ u32 flowinfo ∧ u32 scope_id
  end.
Definition run_typed (run : UdpRun) : Prop :=
  peer_typed (run_peer run) ∧ u16 (run_segment run) ∧ bytes (run_bytes run).

(** An endpoint the frames can carry. *)
Definition peer_plain (peer : SocketAddr) : bool :=
  match peer with
  | SocketV4 _ _ => true
  | SocketV6 _ _ flowinfo scope_id => (flowinfo =? 0) && (scope_id =? 0)
  end.

Lemma peer_plain_wf peer : peer_typed peer → peer_plain peer = true → peer_wf peer.
Proof. destruct peer; cbn; [done|]. intros (? & ? & _) ?. by breflect. Qed.

Lemma peer_wf_plain peer : peer_wf peer → peer_typed peer ∧ peer_plain peer = true.
Proof. destruct peer; cbn; [done|]. by intros (? & ? & -> & ->). Qed.

Lemma put_peer_err peer out : peer_plain peer = false → put_peer peer out = (Err mkFrameError, out).
Proof. destruct peer; [done|]. cbn. by intros ->. Qed.

Definition guest_typed (f : GuestFrame) : Prop :=
  match f with
  | TcpOpen peer options => peer_typed peer ∧ options_wf options
  | UdpSend run => run_typed run
  end.
Definition guest_sendable (f : GuestFrame) : bool :=
  match f with
  | TcpOpen peer _ => peer_plain peer
  | UdpSend run => peer_plain (run_peer run)
                   && is_valid_udp_run (zlen (run_bytes run)) (written_segment run)
  end.
Definition canonical_guest (f : GuestFrame) : GuestFrame :=
  match f with TcpOpen _ _ => f | UdpSend run => UdpSend (canonical_run run) end.
Definition guest_payload (f : GuestFrame) : list Z :=
  match f with
  | TcpOpen peer options => tcp_open_bytes peer options
  | UdpSend run => run_payload run
  end.

Lemma run_payload_size run :
  run_valid run → zlen (run_payload run) ≤ MAX_FRAME_BYTES - HEADER_BYTES.
Proof.
  intros Hv. apply valid_run_size in Hv. unfold run_payload, zlen in *.
  rewrite !length_app, peer_bytes_length, !le_bytes_length.
  unfold MAX_UDP_RUN_BYTES, UDP_FRAME_OVERHEAD_BYTES, HEADER_BYTES, ENDPOINT_BYTES,
    UDP_SEGMENT_FIELD_BYTES in *. lia.
Qed.

Lemma canonical_run_wf run :
  run_typed run → peer_plain (run_peer run) = true →
  is_valid_udp_run (zlen (run_bytes run)) (written_segment run) = true →
  run_wf (canonical_run run).
Proof.
  intros (Hp & Hs & Hb) Hplain Hv. split_and!; [by apply peer_plain_wf| |done..].
  cbn. unfold written_segment. by case_match.
Qed.

Lemma run_wf_canonical run :
  run_wf run →
  run_typed run ∧
  peer_plain (run_peer run) && is_valid_udp_run (zlen (run_bytes run)) (written_segment run) = true ∧
  canonical_run run = run.
Proof.
  intros (Hp & Hs & Hb & Hv). pose proof (canonical_run_valid run Hv Hs) as Hc.
  destruct (peer_wf_plain _ Hp) as [Ht Hplain]. split_and!; [done| |done].
  rewrite Hplain. cbn [andb]. change (written_segment run) with (run_segment (canonical_run run)).
  by rewrite Hc.
Qed.

Lemma tcp_open_size peer o : zlen (tcp_open_bytes peer o) = 28.
Proof.
  unfold tcp_open_bytes, tcp_fields, zlen. rewrite !length_app, le_bytes_length, peer_bytes_length.
  by destruct o as [? [k|]].
Qed.

Lemma grows_peer peer : grows (put_peer peer).
Proof.
  destruct (peer_plain peer) eqn:Hp.
  - destruct peer; cbn [put_peer peer_plain] in *; rewrite ?Hp;
      repeat apply grows_bind; apply (writes_grows _ _ (writes_extend _)).
  - intros out. exists []. by rewrite put_peer_err, app_nil_r.
Qed.

Lemma grows_udp_body run : grows (put_udp_body run).
Proof.
  apply grows_bind; [apply grows_lift|]. apply grows_bind; [apply grows_peer|].
  repeat apply grows_bind; apply (writes_grows _ _ (writes_extend _)).
Qed.

Lemma grows_tcp_open peer o : grows (put_tcp_open peer o).
Proof.
  unfold put_tcp_open. destruct o as [i [k|]]; cbn [keepalive];
    (repeat apply grows_bind; [apply (writes_grows _ _ (writes_extend _))..|apply grows_peer]).
Qed.

(** What a writer and a reader promise each other about one frame: the writer
    refuses it and leaves the buffer alone, or adds one encoding that the
    reader takes back, whatever follows. *)
Definition carries {F} (append : BodyWriter) (decode : list Z → result FrameError (option (F * Z)))
    (sendable : bool) (f : F) (out : list Z) : Prop :=
  match append out with
  | (Ok _, out') =>
      sendable = true ∧ ∃ enc, out' = out ++ enc ∧ zlen enc ≤ MAX_FRAME_BYTES ∧
        ∀ tail, decode (enc ++ tail) = Ok (Some (f, zlen enc))
  | (Err _, out') => sendable = false ∧ out' = out
  end.

Lemma carries_ok {F} (dp : Opcode → Body F) op w payload f out :
  writes w payload → zlen payload ≤ MAX_FRAME_BYTES - HEADER_BYTES → reads dp op payload f →
  carries (append_frame op w) (decode_frame dp) true f out.
Proof.
  intros Hw Hlen Hr. unfold carries. rewrite (append_frame_ok _ _ _ _ Hw Hlen). split; [done|].
  exists (frame_bytes op payload). split_and!; [done| |by intros; apply decode_frame_spec].
  unfold frame_bytes. rewrite zlen_app. change (zlen (frame_header _ _)) with HEADER_BYTES. lia.
Qed.

Lemma carries_err {F} (decode : list Z → result FrameError (option (F * Z))) op w f out :
  grows w → (∀ o, ∃ e, (w o).1 = Err e) → carries (append_frame op w) decode false f out.
Proof.
  intros Hg He. unfold carries.
  assert (Herr : ∃ e, (append_frame op w out).1 = Err e).
  { unfold append_frame. destruct (He (out ++ replicate (Z.to_nat HEADER_BYTES) 0)) as [e Hw].
    destruct (w _) as [r o]. cbn [fst] in Hw. subst r. by exists e. }
  destruct Herr as [e He']. by rewrite (append_frame_err _ _ _ e Hg He').
Qed.

(** Failures of the writers. *)
Lemma bind_err_l (w1 w2 : BodyWriter) o e : (w1 o).1 = Err e → ((w1;;; w2) o).1 = Err e.
Proof. unfold st_bind. destruct (w1 o) as [[u|e'] o']; cbn; congruence. Qed.
Lemma bind_err_r (w1 w2 : BodyWriter) :
  (∀ o, ∃ e, (w2 o).1 = Err e) → ∀ o, ∃ e, ((w1;;; w2) o).1 = Err e.
Proof. intros H2 o. unfold st_bind. destruct (w1 o) as [[u|e'] o']; cbn; eauto. Qed.

Lemma put_peer_fails peer : peer_plain peer = false → ∀ o, ∃ e, (put_peer peer o).1 = Err e.
Proof. intros Hp o. rewrite put_peer_err by done. cbn. eauto. Qed.

Lemma put_udp_body_fails run :
  peer_plain (run_peer run) && is_valid_udp_run (zlen (run_bytes run)) (written_segment run) = false →
  ∀ o, ∃ e, (put_udp_body run o).1 = Err e.
Proof.
  intros Hrun o. unfold put_udp_body, check_udp_run. unfold st_bind at 1, st_lift.
  destruct (is_valid_udp_run _ _); [|cbn; eauto]. rewrite andb_true_r in Hrun.
  eexists. apply bind_err_l. by rewrite put_peer_err.
Qed.

Lemma udp_body_carries {F} (dp : Opcode → Body F) op (mk : UdpRun → F) run out :
  (∀ r, run_wf r → reads dp op (run_payload r) (mk r)) → run_typed run →
  carries (append_frame op (put_udp_body run)) (decode_frame dp)
    (peer_plain (run_peer run) && is_valid_udp_run (zlen (run_bytes run)) (written_segment run))
    (mk (canonical_run run)) out.
Proof.
  intros Hdp Hty. destruct (_ && _) eqn:Hok.
  - apply andb_prop in Hok as [Hp Hv].
    pose proof (canonical_run_wf run Hty Hp Hv) as Hwf.
    eapply carries_ok; [|apply run_payload_size, Hwf|by apply Hdp].
    apply writes_udp_body; [apply peer_plain_wf; [apply Hty|done]|done].
  - apply carries_err; [apply grows_udp_body|by apply put_udp_body_fails].
Qed.

Lemma guest_reads_run r : run_wf r → reads guest_decode_payload Op_UdpSend (run_payload r) (UdpSend r).
Proof.
  intros Hr. unfold reads. cbn [guest_decode_payload]. unfold st_bind at 1, st_bind at 1.
  by rewrite (read_udp_body_spec r Hr).
Qed.

Lemma guest_carries f out :
  guest_typed f →
  carries (guest_append f) guest_decode (guest_sendable f) (canonical_guest f) out.
Proof.
  destruct f as [peer o|run]; cbn [guest_typed guest_sendable canonical_guest guest_append].
  - intros [Hp Ho]. unfold guest_append, guest_decode. cbn [guest_opcode].
    destruct (peer_plain peer) eqn:Hplain.
    + pose proof (peer_plain_wf _ Hp Hplain) as Hwf. eapply carries_ok.
      * by apply writes_tcp_open.
      * rewrite tcp_open_size. by vm_compute.
      * apply reads_parses. eapply parses_last; [by apply parses_tcp_open|]. apply parses_ret.
    + apply carries_err; [apply grows_tcp_open|]. unfold put_tcp_open.
      destruct o as [i [k|]]; cbn [keepalive];
        do 2 apply bind_err_r; by apply put_peer_fails.
  - intros Hrun. by apply (udp_body_carries _ _ UdpSend); [apply guest_reads_run|].
Qed.

(** ** Host frames *)

Definition host_typed (f : HostFrame) : Prop :=
  match f with
  | Opened _ => True
  | UdpDatagram run => run_typed run
  | UdpError peer _ => peer_typed peer
  end.
Definition host_sendable (f : HostFrame) : bool :=
  match f with
  | Opened _ => true
  | UdpDatagram run => peer_plain (run_peer run)
                       && is_valid_udp_run (zlen (run_bytes run)) (written_segment run)
  | UdpError peer _ => peer_plain peer
  end.
Definition canonical_host (f : HostFrame) : HostFrame :=
  match f with UdpDatagram run => UdpDatagram (canonical_run run) | _ => f end.

Section HostFrames.
Variable postcard_error : Z → option SocketError.

(** [postcard] reads one byte as the index of a variant. *)
Hypothesis postcard_error_index :
  ∀ i, u8 i → postcard_error i = socket_errors !! Z.to_nat i.

Lemma error_decode_code e : error_decode postcard_error (error_code e) = Some e.
Proof. unfold error_decode. destruct e; cbn; by rewrite postcard_error_index by done. Qed.

Lemma error_decode_inv v e : error_decode postcard_error v = Some e → v = error_code e.
Proof.
  unfold error_decode. destruct (checked_sub v 1) as [i|] eqn:Hi; [|done].
  apply checked_sub_Some in Hi as [-> Hv]. cbn [mbind option_bind].
  destruct (Z.leb_spec (v - 1) 255); [|done]. rewrite postcard_error_index by (unfold u8; lia).
  destruct (Z.to_nat (v - 1)) as [|n] eqn:Hn; [intros [= <-]; cbn; lia|].
  do 14 (destruct n as [|n]; [intros [= <-]; cbn; lia|]). done.
Qed.

Lemma error_code_u16 e : u16 (error_code e) ∧ error_code e ≠ 0.
Proof. by destruct e. Qed.

Lemma parses_status e : parses (get_status postcard_error) e (status_bytes e).
Proof.
  unfold get_status, status_bytes. destruct e as [e|].
  - destruct (error_code_u16 e) as [Hu Hne].
    eapply parses_bind; [by apply parses_u16|]. eapply parses_last; [apply parses_reserved|].
    rewrite (proj2 (Z.eqb_neq _ 0)), error_decode_code by done. apply parses_ret.
  - eapply parses_bind; [by apply parses_u16|]. eapply parses_last; [apply parses_reserved|].
    apply parses_ret.
Qed.

Lemma exactly_status : exactly (get_status postcard_error) (λ e w, w = status_bytes e).
Proof.
  intros s e rest Hs. unfold get_status. read_step Hs exactly_u16 v Hv.
  read_step Hs exactly_reserved u Hu. destruct Hv as [_ ->]. subst.
  destruct (Z.eqb_spec v 0) as [->|].
  - intros [= <- <-]. exists (status_bytes None).
    split; [|done]. unfold status_bytes. by rewrite <-app_assoc.
  - destruct (error_decode postcard_error v) as [e'|] eqn:He; [|done]. intros [= <- <-].
    apply error_decode_inv in He as ->. exists (status_bytes (Some e')).
    split; [|done]. unfold status_bytes. by rewrite <-app_assoc.
Qed.

Lemma host_reads_run r :
  run_wf r → reads (host_decode_payload postcard_error) Op_UdpDatagram (run_payload r) (UdpDatagram r).
Proof.
  intros Hr. unfold reads. cbn [host_decode_payload]. unfold st_bind at 1, st_bind at 1.
  by rewrite (read_udp_body_spec r Hr).
Qed.

Lemma host_carries f out :
  host_typed f →
  carries (host_append f) (host_decode postcard_error) (host_sendable f) (canonical_host f) out.
Proof.
  destruct f as [outcome|run|peer e]; cbn [host_typed host_sendable canonical_host].
  - intros _. eapply carries_ok; [apply writes_status|by destruct outcome as [|[]]|].
    apply reads_parses. eapply parses_last; [apply parses_status|].
    destruct outcome as [[]|e]; apply parses_ret.
  - intros Hrun. by apply (udp_body_carries _ _ UdpDatagram); [apply host_reads_run|].
  - intros Hp. unfold host_append, host_decode. cbn [host_opcode].
    destruct (peer_plain peer) eqn:Hplain.
    + pose proof (peer_plain_wf _ Hp Hplain) as Hwf. eapply carries_ok.
      * apply writes_bind; [apply writes_status|by apply writes_peer].
      * unfold zlen. rewrite length_app, peer_bytes_length. by destruct e.
      * apply reads_parses. eapply parses_bind; [apply parses_status|].
        eapply parses_last; [by apply parses_peer|]. apply parses_ret.
    + apply carries_err.
      * apply grows_bind; [apply (writes_grows _ _ (writes_status _))|apply grows_peer].
      * apply bind_err_r. by apply put_peer_fails.
Qed.

(** *** What was decoded is what would be sent *)

Lemma finish_inv {F} (r : Body F) s f rest :
  (frame <- r;; finish;;; st_ret frame) s = (Ok f, rest) → r s = (Ok f, []) ∧ rest = [].
Proof.
  unfold st_bind. destruct (r s) as [[f'|e] s']; [|done]. unfold finish.
  case_bool_decide; [|done]. intros [= -> <-]. by subst.
Qed.

Lemma guest_decode_payload_inv op payload f :
  bytes payload → guest_decode_payload op payload = (Ok f, []) →
  op = guest_opcode f ∧ payload = guest_payload f ∧
  guest_typed f ∧ guest_sendable f = true ∧ canonical_guest f = f.
Proof.
  intros Hb. destruct op; cbn [guest_decode_payload]; try done.
  - read_step Hb exactly_tcp_open o Ho. destruct o as [peer o]. cbn [fst snd] in *.
    intros [= <- ->]. destruct Ho as (Hp & Ho & ->). rewrite app_nil_r.
    destruct (peer_wf_plain _ Hp). by split_and!.
  - unfold st_bind. destruct (read_udp_body payload) as [[run|e] s'] eqn:Hr; [|done].
    apply read_udp_body_inv in Hr as (-> & Hwf & ->); [|done]. intros [= <-].
    destruct (run_wf_canonical _ Hwf) as (? & ? & ?). split_and!; [done..|].
    cbn. by f_equal.
Qed.

Definition host_payload (f : HostFrame) : list Z :=
  match f with
  | Opened outcome => status_bytes (match outcome with Ok _ => None | Err e => Some e end)
  | UdpDatagram run => run_payload run
  | UdpError peer e => status_bytes (Some e) ++ peer_bytes peer
  end.

Lemma host_decode_payload_inv op payload f :
  bytes payload → host_decode_payload postcard_error op payload = (Ok f, []) →
  op = host_opcode f ∧ payload = host_payload f ∧
  host_typed f ∧ host_sendable f = true ∧ canonical_host f = f.
Proof.
  intros Hb. destruct op; cbn [host_decode_payload]; try done.
  - read_step Hb exactly_status e He. intros [= <- ->]. subst. rewrite app_nil_r.
    by destruct e.
  - unfold st_bind. destruct (read_udp_body payload) as [[run|e] s'] eqn:Hr; [|done].
    apply read_udp_body_inv in Hr as (-> & Hwf & ->); [|done]. intros [= <-].
    destruct (run_wf_canonical _ Hwf) as (? & ? & ?). split_and!; [done..|].
    cbn. by f_equal.
  - read_step Hb exactly_status e He. destruct e as [e|]; [|done].
    read_step Hb exactly_peer peer Hp. intros [= <- ->]. destruct Hp as [Hp ->]. subst.
    rewrite app_nil_r. destruct (peer_wf_plain _ Hp). by split_and!.
Qed.

(** A frame that was decoded, appended again. *)
Lemma decoded_again {F} (dp : Opcode → Body F) (append : F → BodyWriter) (payload : F → list Z)
    (op_of : F → Opcode) s f n :
  (∀ op p f, bytes p → dp op p = (Ok f, []) →
     op = op_of f ∧ p = payload f ∧
     ∀ out, zlen (payload f) ≤ MAX_FRAME_BYTES - HEADER_BYTES →
            append f out = (Ok tt, out ++ frame_bytes op p)) →
  bytes s → decode_frame dp s = Ok (Some (f, n)) →
  n ≤ zlen s ∧ append f [] = (Ok tt, take (Z.to_nat n) s).
Proof.
  intros Hdp Hs Hd. destruct (decode_frame_inv dp s f n Hs Hd)
    as (op & p & rest & -> & -> & Hb & Hlen & rest' & Hr).
  apply finish_inv in Hr as [Hr _]. destruct (Hdp op p f Hb Hr) as (-> & -> & Happ).
  split; [rewrite zlen_app; pose proof (zlen_nonneg rest); lia|].
  rewrite Happ by done. unfold zlen. by rewrite Nat2Z.id, take_app_length.
Qed.

Lemma guest_decoded_again s f n :
  bytes s → guest_decode s = Ok (Some (f, n)) →
  n ≤ zlen s ∧ guest_append f [] = (Ok tt, take (Z.to_nat n) s).
Proof.
  apply (decoded_again _ guest_append guest_payload guest_opcode).
  intros op p f' Hb Hr. destruct (guest_decode_payload_inv op p f' Hb Hr) as (-> & -> & Ht & Hok & Hc).
  split_and!; [done..|]. intros out Hlen. unfold guest_append. apply append_frame_ok; [|done].
  destruct f' as [peer o|run]; cbn [guest_typed guest_sendable guest_payload canonical_guest] in *.
  - apply writes_tcp_open, peer_plain_wf; [apply Ht|done].
  - injection Hc as Hc. rewrite <-Hc at 2. apply andb_prop in Hok as [Hp Hv].
    apply writes_udp_body; [apply peer_plain_wf; [apply Ht|done]|done].
Qed.

Lemma host_decoded_again s f n :
  bytes s → host_decode postcard_error s = Ok (Some (f, n)) →
  n ≤ zlen s ∧ host_append f [] = (Ok tt, take (Z.to_nat n) s).
Proof.
  apply (decoded_again _ host_append host_payload host_opcode).
  intros op p f' Hb Hr. destruct (host_decode_payload_inv op p f' Hb Hr) as (-> & -> & Ht & Hok & Hc).
  split_and!; [done..|]. intros out Hlen. unfold host_append. apply append_frame_ok; [|done].
  destruct f' as [outcome|run|peer e]; cbn [host_typed host_sendable host_payload canonical_host] in *.
  - apply writes_status.
  - injection Hc as Hc. rewrite <-Hc at 2. apply andb_prop in Hok as [Hp Hv].
    apply writes_udp_body; [apply peer_plain_wf; [apply Ht|done]|done].
  - apply writes_bind; [apply writes_status|]. by apply writes_peer, peer_plain_wf.
Qed.
End HostFrames.

(** ** The two directions *)

(** Two decoders of which one refuses every opcode that the other takes. *)
Lemma decode_frame_refuses {F G} (dp : Opcode → Body F) (dq : Opcode → Body G) s f n :
  (∀ op, (∀ p, dp op p = (Err mkFrameError, p)) ∨ (∀ p, dq op p = (Err mkFrameError, p))) →
  decode_frame dp s = Ok (Some (f, n)) → decode_frame dq s = Err mkFrameError.
Proof.
  intros Hx. unfold decode_frame. destruct (_ <? HEADER_BYTES); [done|].
  destruct (read_header _) as [[op len]|]; rsimpl; [|done]. destruct (_ <? len); [done|].
  destruct (Hx op) as [Hp|Hq]; unfold st_bind; [by rewrite Hp|by rewrite Hq].
Qed.

Lemma directions_apart postcard_error op :
  (∀ p, guest_decode_payload op p = (Err mkFrameError, p)) ∨
  (∀ p, host_decode_payload postcard_error op p = (Err mkFrameError, p)).
Proof. destruct op; first [by left|by right]. Qed.

(** ** Claims *)

(** C30. Every frame the guest or the host can build is either refused, leaving
    the output buffer as it was, or appended as one encoding of at most
    [MAX_FRAME_BYTES] that the other side decodes to the same frame and the
    same length whatever bytes follow; a frame is refused exactly when its
    endpoint has a flow label or a scope, or its run of datagrams is invalid.
    A segment size that does not split its run is written as 0. The two directions
    never decode as one another: whatever bytes one decoder takes as a frame the other
    refuses. *)
Theorem frames_roundtrip postcard_error g h out :
  (∀ i, u8 i → postcard_error i = socket_errors !! Z.to_nat i) →
  guest_typed g → host_typed h →
  carries (guest_append g) guest_decode (guest_sendable g) (canonical_guest g) out ∧
  carries (host_append h) (host_decode postcard_error) (host_sendable h) (canonical_host h) out ∧
  (∀ s f n, guest_decode s = Ok (Some (f, n)) → host_decode postcard_error s = Err mkFrameError) ∧
  (∀ s f n, host_decode postcard_error s = Ok (Some (f, n)) → guest_decode s = Err mkFrameError).
Proof.
  intros Hp Hg Hh. split_and!; [by apply guest_carries|by apply host_carries|..]; intros s f n; apply decode_frame_refuses.
  - apply directions_apart.
  - intros op. destruct (directions_apart postcard_error op); auto.
Qed.

Lemma frames_roundtrip_witness :
  carries (guest_append demo_frame) guest_decode (guest_sendable demo_frame)
    (canonical_guest demo_frame) [7] ∧
  carries (host_append (Opened (Err TimedOut))) (host_decode demo_error)
    (host_sendable (Opened (Err TimedOut))) (canonical_host (Opened (Err TimedOut))) [7] ∧
  (∀ s f n, guest_decode s = Ok (Some (f, n)) → host_decode demo_error s = Err mkFrameError) ∧
  (∀ s f n, host_decode demo_error s = Ok (Some (f, n)) → guest_decode s = Err mkFrameError).
Proof.
  apply (frames_roundtrip demo_error demo_frame (Opened (Err TimedOut)) [7]).
  - reflexivity.
  - split; [by vm_compute|]. split; [by vm_compute|]. by apply (bool_decide_unpack _); vm_compute.
  - exact I.
Defined.

(** Every frame has one encoding: whatever bytes the guest's or the host's
    decoder accepts are exactly the bytes that encoding the decoded frame
    gives, so no two byte strings mean the same frame and nothing in a frame is
    ignored. *)
Theorem frames_canonical postcard_error s :
  (∀ i, u8 i → postcard_error i = socket_errors !! Z.to_nat i) → bytes s →
  (∀ f n, guest_decode s = Ok (Some (f, n)) →
     n ≤ zlen s ∧ guest_append f [] = (Ok tt, take (Z.to_nat n) s)) ∧
  (∀ f n, host_decode postcard_error s = Ok (Some (f, n)) →
     n ≤ zlen s ∧ host_append f [] = (Ok tt, take (Z.to_nat n) s)).
Proof.
  intros Hp Hs. split; intros f n; [by apply guest_decoded_again|by apply host_decoded_again].
Qed.

Lemma frames_canonical_witness :
  (∀ f n, guest_decode [1; 1; 0; 0; 4; 0; 0; 0; 6; 0; 0; 0] = Ok (Some (f, n)) →
     n ≤ zlen [1; 1; 0; 0; 4; 0; 0; 0; 6; 0; 0; 0] ∧
     guest_append f [] = (Ok tt, take (Z.to_nat n) [1; 1; 0; 0; 4; 0; 0; 0; 6; 0; 0; 0])) ∧
  (∀ f n, host_decode demo_error [1; 1; 0; 0; 4; 0; 0; 0; 6; 0; 0; 0] = Ok (Some (f, n)) →
     n ≤ zlen [1; 1; 0; 0; 4; 0; 0; 0; 6; 0; 0; 0] ∧
     host_append f [] = (Ok tt, take (Z.to_nat n) [1; 1; 0; 0; 4; 0; 0; 0; 6; 0; 0; 0])).
Proof.
  apply (frames_canonical demo_error [1; 1; 0; 0; 4; 0; 0; 0; 6; 0; 0; 0]).
  - reflexivity.
  - by apply (bool_decide_unpack _); vm_compute.
Defined.
