(* ===== verification/FrameStream.v ===== *)
(** * Reassembly of frames from a byte stream

    [crates/terra-protocol/src/application.rs], [StreamDecoder]: a fixed buffer
    that a reader fills and frames are taken from, over any type that has the
    [Frame] trait. The trait is the class [Frame]: [decode] and what the
    decoder needs of it, which [AppFrames] gives for both kinds of frames. *)

From S2P Require Import Prelude AppFrames.

Local Open Scope Z_scope.
Local Open Scope st_scope.

(** ** Reassembly *)

Record StreamDecoder := mkStreamDecoder {
  sd_bytes : list Z;
  sd_start : Z;
  sd_end : Z;
}.

Definition decoder_default : StreamDecoder :=
  mkStreamDecoder (replicate (Z.to_nat MAX_FRAME_BYTES) 0) 0 0.

(** [read_buffer]: the decoder after making room, and the size of the free
    space it hands out. *)
Definition read_buffer (d : StreamDecoder) : StreamDecoder * Z :=
  let d := if (sd_end d =? zlen (sd_bytes d)) && (0 <? sd_start d)
           then mkStreamDecoder
                  (copy_at 0 (take (Z.to_nat (sd_end d - sd_start d))
                                (drop (Z.to_nat (sd_start d)) (sd_bytes d))) (sd_bytes d))
                  0 (sd_end d - sd_start d)
           else d in
  (d, zlen (sd_bytes d) - sd_end d).

Definition commit (count : Z) (d : StreamDecoder) : StreamDecoder :=
  mkStreamDecoder (sd_bytes d) (sd_start d) (sd_end d + count).

(** A reader that wrote [data] into the free space and committed it. *)
Definition fill (data : list Z) (d : StreamDecoder) : StreamDecoder :=
  let d := (read_buffer d).1 in
  commit (zlen data)
    (mkStreamDecoder (copy_at (Z.to_nat (sd_end d)) data (sd_bytes d)) (sd_start d) (sd_end d)).

(** The bytes that were committed and not yet decoded. *)
Definition undecoded (d : StreamDecoder) : list Z :=
  take (Z.to_nat (sd_end d - sd_start d)) (drop (Z.to_nat (sd_start d)) (sd_bytes d)).

Definition next_frame {F} (decode : list Z → result FrameError (option (F * Z)))
    (d : StreamDecoder) : result FrameError (option F) * StreamDecoder :=
  match decode (undecoded d) with
  | Err e => (Err e, d)
  | Ok None => (Ok None, d)
  | Ok (Some (frame, length)) =>
      let start := sd_start d + length in
      (Ok (Some frame),
       if start =? sd_end d then mkStreamDecoder (sd_bytes d) 0 0
       else mkStreamDecoder (sd_bytes d) start (sd_end d))
  end.

Definition is_empty (d : StreamDecoder) : bool := sd_start d =? sd_end d.

(** ** The trait *)

Class Frame (F : Type) := {
  decode : list Z → result FrameError (option (F * Z));
  decode_nil : decode [] = Ok None;
  decode_size s f n : bytes s → decode s = Ok (Some (f, n)) → 0 < n ≤ zlen s;
  (** A whole buffer holds at least one frame, or a bad one. *)
  decode_full s : bytes s → zlen s = MAX_FRAME_BYTES → decode s ≠ Ok None;
  (** Bytes that arrive later do not turn a frame into an error. *)
  decode_prefix s t r : bytes s → decode (s ++ t) = Ok (Some r) →
    decode s = Ok (Some r) ∨ decode s = Ok None;
}.

(** How far [decode_frame] gets, in terms of the header. *)
Lemma decode_frame_unfold {F} (dp : Opcode → Body F) s :
  8 ≤ zlen s →
  decode_frame dp s =
  '(op, len) ← read_header (take 8 s);
  if zlen s <? 8 + len then Ok None else
  match (frame <- dp op;; finish;;; st_ret frame) (take (Z.to_nat len) (drop 8 s)) with
  | (Ok frame, _) => Ok (Some (frame, 8 + len))
  | (Err e, _) => Err e
  end.
Proof.
  intros Hs. unfold decode_frame. rewrite (proj2 (Z.ltb_ge _ _)) by done.
  change (Z.to_nat HEADER_BYTES) with 8%nat.
  destruct (read_header (take 8 s)) as [[op len]|]; rsimpl; [|done].
  replace (zlen (drop 8 s) <? len) with (zlen s <? 8 + len); [done|].
  unfold zlen in *. rewrite length_drop.
  destruct (Z.ltb_spec (Z.of_nat (length s)) (8 + len)), (Z.ltb_spec (Z.of_nat (length s - 8)) len);
    lia || done.
Qed.

Lemma read_header_take s op len :
  bytes s → 8 ≤ zlen s → read_header (take 8 s) = Ok (op, len) →
  0 ≤ len ≤ MAX_FRAME_BYTES - HEADER_BYTES.
Proof.
  intros Hs Hlen Hh. apply read_header_inv in Hh as [_ ?]; [done|by apply Forall_take|].
  unfold zlen in Hlen. rewrite length_take. lia.
Qed.

Lemma decode_frame_short {F} (dp : Opcode → Body F) s : zlen s < 8 → decode_frame dp s = Ok None.
Proof. intros Hs. unfold decode_frame. by rewrite (proj2 (Z.ltb_lt _ _)). Qed.

Lemma decode_frame_size {F} (dp : Opcode → Body F) s f n :
  bytes s → decode_frame dp s = Ok (Some (f, n)) → 0 < n ≤ zlen s.
Proof.
  intros Hb. destruct (Z.lt_ge_cases (zlen s) 8); [by rewrite decode_frame_short|].
  rewrite decode_frame_unfold by done.
  destruct (read_header _) as [[op len]|] eqn:Hh; rsimpl; [|done].
  apply read_header_take in Hh; [|done..]. destruct (Z.ltb_spec (zlen s) (8 + len)); [done|].
  destruct (st_bind _ _ _) as [[f'|e] r]; [|done]. intros [= _ <-]. lia.
Qed.

Lemma decode_frame_full {F} (dp : Opcode → Body F) s :
  bytes s → zlen s = MAX_FRAME_BYTES → decode_frame dp s ≠ Ok None.
Proof.
  intros Hb Hs. rewrite decode_frame_unfold by by rewrite Hs.
  destruct (read_header _) as [[op len]|] eqn:Hh; rsimpl; [|done].
  apply read_header_take in Hh; [|done|by rewrite Hs].
  rewrite (proj2 (Z.ltb_ge (zlen s) (8 + len))) by (unfold HEADER_BYTES in Hh; lia).
  by destruct (st_bind _ _ _) as [[f'|e] r].
Qed.

Lemma decode_frame_prefix {F} (dp : Opcode → Body F) s t r :
  bytes s → decode_frame dp (s ++ t) = Ok (Some r) →
  decode_frame dp s = Ok (Some r) ∨ decode_frame dp s = Ok None.
Proof.
  intros Hb Hd. destruct (Z.lt_ge_cases (zlen s) 8) as [|Hs]; [right; by apply decode_frame_short|].
  rewrite decode_frame_unfold in Hd |- * by (rewrite ?zlen_app; pose proof (zlen_nonneg t); lia).
  assert (Hlen : (8 ≤ length s)%nat) by (unfold zlen in Hs; lia).
  rewrite take_app_le in Hd by done. rewrite drop_app_le in Hd by done.
  destruct (read_header _) as [[op len]|] eqn:Hh; rsimpl_in Hd; rsimpl; [|done].
  apply read_header_take in Hh; [|done..].
  destruct (Z.ltb_spec (zlen s) (8 + len)); [by right|left].
  destruct (_ <? _); [done|]. unfold zlen in *.
  by rewrite take_app_le in Hd by (rewrite length_drop; lia).
Qed.

#[export] Instance guest_Frame : Frame GuestFrame := {
  decode := guest_decode;
  decode_nil := decode_frame_short _ [] eq_refl;
  decode_size := decode_frame_size _;
  decode_full := decode_frame_full _;
  decode_prefix := decode_frame_prefix _;
}.

(** The host's frames, for a given [postcard]. *)
Definition host_Frame (postcard_error : Z → option SocketError) : Frame HostFrame := {|
  decode := host_decode postcard_error;
  decode_nil := decode_frame_short _ [] eq_refl;
  decode_size := decode_frame_size _;
  decode_full := decode_frame_full _;
  decode_prefix := decode_frame_prefix _;
|}.

(** ** The buffer *)

Record decoder_ok (d : StreamDecoder) : Prop := {
  do_bytes : bytes (sd_bytes d);
  do_length : zlen (sd_bytes d) = MAX_FRAME_BYTES;
  do_range : 0 ≤ sd_start d ≤ sd_end d ∧ sd_end d ≤ MAX_FRAME_BYTES;
}.

Lemma decoder_default_ok : decoder_ok decoder_default ∧ undecoded decoder_default = [].
Proof.
  split; [|done]. split.
  - by apply Forall_replicate.
  - unfold zlen. cbn [sd_bytes decoder_default]. by rewrite length_replicate, Z2Nat.id.
  - cbn [sd_start sd_end decoder_default]. unfold MAX_FRAME_BYTES. lia.
Qed.

Lemma undecoded_length d : decoder_ok d → zlen (undecoded d) = sd_end d - sd_start d.
Proof.
  intros [_ Hl Hr]. unfold undecoded, zlen in *. rewrite length_take, length_drop. lia.
Qed.

Lemma undecoded_bytes d : decoder_ok d → bytes (undecoded d).
Proof. intros [Hb _ _]. by apply Forall_take, Forall_drop. Qed.

Lemma copy_at_length pos src out :
  (pos + length src ≤ length out)%nat → length (copy_at pos src out) = length out.
Proof. intros H. unfold copy_at. rewrite !length_app, length_take, length_drop. lia. Qed.

Lemma read_buffer_spec d :
  decoder_ok d →
  decoder_ok (read_buffer d).1 ∧ undecoded (read_buffer d).1 = undecoded d ∧
  (read_buffer d).2 = MAX_FRAME_BYTES - sd_end (read_buffer d).1 ∧
  ((read_buffer d).2 = 0 → zlen (undecoded d) = MAX_FRAME_BYTES).
Proof.
  intros Hd. pose proof (undecoded_length d Hd) as Hu. pose proof (undecoded_bytes d Hd) as Hub.
  destruct Hd as [Hb Hl Hr]. unfold read_buffer. destruct (_ && _) eqn:Hfull; cbn [fst snd].
  - breflect. fold (undecoded d). set (u := undecoded d) in *.
    assert (Hun : (length u ≤ length (sd_bytes d))%nat) by (unfold zlen in *; lia).
    assert (Hcl : zlen (copy_at 0 u (sd_bytes d)) = MAX_FRAME_BYTES)
      by (unfold zlen; rewrite copy_at_length by done; exact Hl).
    split_and!.
    + split; cbn [sd_bytes sd_start sd_end]; [|done|unfold zlen in *; lia].
      unfold copy_at. rewrite take_0, app_nil_l. apply Forall_app.
      split; [done|by apply Forall_drop].
    + unfold undecoded at 1. cbn [sd_bytes sd_start sd_end]. unfold copy_at.
      rewrite take_0, app_nil_l, drop_0. apply take_app_length'. unfold zlen in Hu. lia.
    + cbn [sd_bytes sd_end]. rewrite Hcl. done.
    + cbn [sd_bytes sd_end]. rewrite Hcl. lia.
  - split_and!; [done..|by rewrite Hl|]. rewrite Hl. intros Hfree.
    apply andb_false_iff in Hfull as [?|?]; breflect; lia.
Qed.

Lemma fill_spec d data :
  decoder_ok d → bytes data → zlen data ≤ (read_buffer d).2 →
  decoder_ok (fill data d) ∧ undecoded (fill data d) = undecoded d ++ data.
Proof.
  intros Hd Hdata Hfit. destruct (read_buffer_spec d Hd) as (Hd' & Hu & Hfree & _).
  rewrite <-Hu. unfold fill. set (e := (read_buffer d).1) in *. clearbody e.
  rewrite Hfree in Hfit. destruct Hd' as [Hb Hl Hr]. unfold commit, zlen in *.
  assert (Hpos : (Z.to_nat (sd_end e) + length data ≤ length (sd_bytes e))%nat) by lia.
  split; [split|]; cbn [sd_bytes sd_start sd_end].
  - unfold copy_at, bytes. rewrite !Forall_app. by split_and!; [apply Forall_take| |apply Forall_drop].
  - unfold zlen. by rewrite copy_at_length.
  - lia.
  - unfold undecoded. cbn [sd_bytes sd_start sd_end]. unfold copy_at.
    rewrite drop_app_le by (rewrite length_take; lia).
    rewrite app_assoc, take_app_le.
    2: { rewrite length_app, length_drop, length_take. lia. }
    rewrite skipn_firstn_comm.
    replace (Z.to_nat (sd_end e) - Z.to_nat (sd_start e))%nat
      with (Z.to_nat (sd_end e - sd_start e)) by lia.
    apply take_ge. rewrite length_app, length_take, length_drop. lia.
Qed.

Section Stream.
Context {F : Type} `{!Frame F}.

Lemma next_frame_spec d f n :
  decoder_ok d → decode (undecoded d) = Ok (Some (f, n)) →
  (next_frame decode d).1 = Ok (Some f) ∧ decoder_ok (next_frame decode d).2 ∧
  undecoded (next_frame decode d).2 = drop (Z.to_nat n) (undecoded d).
Proof.
  intros Hd Hn. pose proof (decode_size _ _ _ (undecoded_bytes d Hd) Hn) as Hsize.
  rewrite (undecoded_length d Hd) in Hsize. destruct Hd as [Hb Hl Hr].
  unfold next_frame. rewrite Hn. cbn [fst snd]. split; [done|].
  destruct (Z.eqb_spec (sd_start d + n) (sd_end d)) as [Heq|Hne].
  - split; [by split; cbn; [..|unfold MAX_FRAME_BYTES in *; lia]|].
    unfold undecoded. cbn [sd_bytes sd_start sd_end]. rewrite Z.sub_diag. cbn [Z.to_nat take].
    symmetry. apply drop_ge. rewrite length_take. lia.
  - split; [split; cbn; [done..|lia]|]. unfold undecoded. cbn [sd_bytes sd_start sd_end].
    rewrite skipn_firstn_comm, drop_drop. f_equal; [lia|]. f_equal. lia.
Qed.

(** ** A reader and its decoder

    The transport holds the bytes that were sent. [Read n] moves at most [n]
    of them, as many as fit, into the buffer; [Next] takes a frame out. *)

Inductive stream_op : Type := Read (n : nat) | Next.

Record stream := mkStream {
  source : list Z;
  decoder : StreamDecoder;
  delivered : list F;
}.

Definition stream_step (st : stream) (o : stream_op) : option stream :=
  match o with
  | Read n =>
      let m := (n `min` Z.to_nat (read_buffer (decoder st)).2)%nat in
      Some (mkStream (drop m (source st)) (fill (take m (source st)) (decoder st)) (delivered st))
  | Next =>
      match next_frame decode (decoder st) with
      | (Ok (Some f), d) => Some (mkStream (source st) d (delivered st ++ [f]))
      | (Ok None, d) => Some (mkStream (source st) d (delivered st))
      | (Err _, _) => None
      end
  end.

Fixpoint stream_run (ops : list stream_op) (st : stream) : option stream :=
  match ops with
  | [] => Some st
  | o :: ops => st ← stream_step st o; stream_run ops st
  end.

(** [enc] is an encoding of [f]. *)
Definition encodes (f : F) (enc : list Z) : Prop :=
  bytes enc ∧ ∀ tail, decode (enc ++ tail) = Ok (Some (f, zlen enc)).

(** The frames [fs], encoded as [encs], are on their way: the first [k] were
    delivered, the bytes of the others are in the buffer and the transport. *)
Definition in_flight (fs : list F) (encs : list (list Z)) (k : nat) (st : stream) : Prop :=
  decoder_ok (decoder st) ∧ (k ≤ length fs)%nat ∧ delivered st = take k fs ∧
  undecoded (decoder st) ++ source st = concat (drop k encs).

Lemma encs_bytes fs encs k : Forall2 encodes fs encs → bytes (concat (drop k encs)).
Proof.
  intros Hall. apply Forall_concat, Forall_drop.
  induction Hall as [|f enc fs encs [Hb _] _ IH]; by constructor.
Qed.

(** What the decoder sees of a frame that is next. *)
Lemma next_of_flight fs encs k st f :
  Forall2 encodes fs encs → in_flight fs encs k st → fs !! k = Some f →
  ∃ enc, encs !! k = Some enc ∧ decode (undecoded (decoder st)) = Ok (Some (f, zlen enc))
         ∨ decode (undecoded (decoder st)) = Ok None.
Proof.
  intros Hall (Hd & _ & _ & Hbytes) Hf.
  destruct (Forall2_lookup_l _ _ _ _ _ Hall Hf) as (enc & He & Henc).
  exists enc. rewrite (drop_S _ _ _ He) in Hbytes. cbn [concat] in Hbytes.
  destruct Henc as [_ Henc]. specialize (Henc (concat (drop (S k) encs))). rewrite <-Hbytes in Henc.
  destruct (decode_prefix _ _ _ (undecoded_bytes _ Hd) Henc); [by left|by right].
Qed.

Lemma nothing_left fs encs k st :
  Forall2 encodes fs encs → in_flight fs encs k st → fs !! k = None →
  undecoded (decoder st) = [] ∧ source st = [] ∧ delivered st = fs.
Proof.
  intros Hall (_ & Hk & Hdel & Hbytes) Hf. apply lookup_ge_None in Hf.
  rewrite drop_ge in Hbytes by (rewrite <-(Forall2_length _ _ _ Hall); lia).
  apply app_eq_nil in Hbytes as [-> ->]. rewrite Hdel. split_and!; [done..|]. apply take_ge. lia.
Qed.

Lemma read_in_flight fs encs k st n :
  Forall2 encodes fs encs → in_flight fs encs k st →
  ∃ st', stream_step st (Read n) = Some st' ∧ in_flight fs encs k st' ∧
    length (source st') =
      (length (source st) - n `min` Z.to_nat (read_buffer (decoder st)).2)%nat.
Proof.
  intros Hall Hfl. destruct (Hfl) as (Hd & Hk & Hdel & Hbytes). eexists. split; [done|].
  cbn [source decoder delivered]. set (m := (n `min` _)%nat). rewrite length_drop. split; [|done].
  destruct (read_buffer_spec _ Hd) as (Hd' & _ & Hfree & _).
  assert (Hsrc : bytes (source st)).
  { pose proof (encs_bytes fs encs k Hall) as Hb. rewrite <-Hbytes in Hb.
    by apply Forall_app in Hb as [_ ?]. }
  destruct (fill_spec (decoder st) (take m (source st)) Hd) as [Hd2 Hu2].
  - by apply Forall_take.
  - pose proof (do_range _ Hd'). unfold zlen. rewrite length_take. lia.
  - split_and!; [done..|]. cbn [decoder source]. by rewrite Hu2, <-app_assoc, take_drop.
Qed.

Lemma next_in_flight fs encs k st :
  Forall2 encodes fs encs → in_flight fs encs k st →
  ∃ st', stream_step st Next = Some st' ∧ source st' = source st ∧
    (in_flight fs encs k st' ∧ decode (undecoded (decoder st)) = Ok None ∨
     in_flight fs encs (S k) st').
Proof.
  intros Hall Hfl. cbn [stream_step].
  assert (Hnone : decode (undecoded (decoder st)) = Ok None →
                  next_frame decode (decoder st) = (Ok None, decoder st)).
  { intros Hn. unfold next_frame. by rewrite Hn. }
  destruct (fs !! k) as [f|] eqn:Hf.
  - destruct (next_of_flight _ _ _ _ _ Hall Hfl Hf) as (enc & [[Henc Hn]|Hn]).
    + destruct Hfl as (Hd & Hk & Hdel & Hbytes).
      pose proof (decode_size _ _ _ (undecoded_bytes _ Hd) Hn) as Hsize.
      destruct (next_frame_spec _ _ _ Hd Hn) as (H1 & H2 & H3).
      destruct (next_frame decode (decoder st)) as [r d]. cbn [fst snd] in *. subst r.
      eexists. split; [done|]. split; [done|]. right. split_and!; cbn [decoder delivered source].
      * done.
      * by apply lookup_lt_Some in Hf.
      * by rewrite Hdel, (take_S_r _ _ f).
      * rewrite (drop_S _ _ _ Henc) in Hbytes. cbn [concat] in Hbytes. rewrite H3.
        unfold zlen in *. rewrite Nat2Z.id. rewrite <-drop_app_le by lia.
        by rewrite Hbytes, drop_app_length.
    + rewrite Hnone by done. eexists. split; [done|]. split; [done|]. left. by split.
  - destruct (nothing_left _ _ _ _ Hall Hfl Hf) as (Hu & _).
    assert (Hn : decode (undecoded (decoder st)) = Ok None) by (rewrite Hu; apply decode_nil).
    rewrite Hnone by done. eexists. split; [done|]. split; [done|]. left. by split.
Qed.

Lemma run_in_flight fs encs ops k st :
  Forall2 encodes fs encs → in_flight fs encs k st →
  ∃ k' st', stream_run ops st = Some st' ∧ in_flight fs encs k' st'.
Proof.
  intros Hall. revert k st. induction ops as [|o ops IH]; intros k st Hfl; [by exists k, st|].
  destruct o as [n|].
  - destruct (read_in_flight _ _ _ _ n Hall Hfl) as (st' & Hs & Hfl' & _).
    cbn [stream_run]. rewrite Hs. by apply (IH k).
  - destruct (next_in_flight _ _ _ _ Hall Hfl) as (st' & Hs & _ & Hcase).
    cbn [stream_run]. rewrite Hs. destruct Hcase as [[Hfl' _]|Hfl']; by eapply IH.
Qed.

(** While frames are missing, one is ready or there is something to read and
    room to read it into. *)
Lemma never_stuck fs encs k st :
  Forall2 encodes fs encs → in_flight fs encs k st → (k < length fs)%nat →
  decode (undecoded (decoder st)) = Ok None →
  source st ≠ [] ∧ 0 < (read_buffer (decoder st)).2.
Proof.
  intros Hall Hfl Hk Hn. destruct (lookup_lt_is_Some_2 fs k Hk) as [f Hf].
  destruct (Forall2_lookup_l _ _ _ _ _ Hall Hf) as (enc & He & _ & Henc).
  destruct Hfl as (Hd & _ & _ & Hbytes). split.
  - intros Hsrc. rewrite Hsrc, app_nil_r, (drop_S _ _ _ He) in Hbytes. cbn [concat] in Hbytes.
    by rewrite Hbytes, Henc in Hn.
  - destruct (read_buffer_spec _ Hd) as (Hd' & _ & Hfree & Hfull).
    pose proof (do_range _ Hd'). apply Z.le_neq. split; [lia|]. intros Hz. symmetry in Hz.
    by apply (decode_full _ (undecoded_bytes _ Hd) (Hfull Hz)).
Qed.

Definition outstanding (fs : list F) (k : nat) (st : stream) : nat :=
  length (source st) + (length fs - k).

(** One round of reading and decoding brings the end closer. *)
Lemma round_progress fs encs k st n :
  Forall2 encodes fs encs → in_flight fs encs k st → (k < length fs)%nat → (0 < n)%nat →
  ∃ k' st', stream_run [Read n; Next] st = Some st' ∧ in_flight fs encs k' st' ∧
            (outstanding fs k' st' < outstanding fs k st)%nat.
Proof.
  intros Hall Hfl Hk Hn. unfold outstanding.
  destruct (read_in_flight _ _ _ _ n Hall Hfl) as (st1 & Hs1 & Hfl1 & Hlen1).
  destruct (next_in_flight _ _ _ _ Hall Hfl1) as (st2 & Hs2 & Hsrc2 & Hcase).
  cbn [stream_run]. rewrite Hs1. cbn [mbind option_bind]. rewrite Hs2. cbn [mbind option_bind].
  destruct Hcase as [[Hfl2 Hnone]|Hfl2].
  - exists k, st2. split_and!; [done..|]. rewrite Hsrc2, Hlen1.
    destruct (decode (undecoded (decoder st))) as [[r|]|] eqn:Hdec.
    + exfalso. destruct (lookup_lt_is_Some_2 fs k Hk) as [f Hf].
      destruct (Forall2_lookup_l _ _ _ _ _ Hall Hf) as (enc & He & _ & Henc).
      destruct (next_of_flight _ _ _ _ _ Hall Hfl Hf) as (enc' & [[He' Hd]|Hd]); [|congruence].
      assert (enc' = enc) as -> by congruence.
      destruct Hfl as (Hok & _ & _ & Hb), Hfl1 as (_ & _ & _ & Hb1).
      pose proof (decode_size _ _ _ (undecoded_bytes _ Hok) Hd) as Hsize.
      rewrite (drop_S _ _ _ He) in Hb, Hb1. cbn [concat] in Hb, Hb1.
      assert (Hpre : (length enc ≤ length (undecoded (decoder st1)))%nat).
      { apply (f_equal length) in Hb, Hb1. rewrite !length_app in Hb, Hb1.
        unfold zlen in Hsize. lia. }
      assert (Hu1 : undecoded (decoder st1) = enc ++ drop (length enc) (undecoded (decoder st1))).
      { rewrite <-(take_drop (length enc) (undecoded (decoder st1))) at 1. f_equal.
        apply (f_equal (take (length enc))) in Hb1.
        by rewrite take_app_le, take_app_length in Hb1. }
      by rewrite Hu1, Henc in Hnone.
    + destruct (never_stuck _ _ _ _ Hall Hfl Hk Hdec) as [Hsrc Hroom].
      destruct (source st); [done|]. cbn [length]. lia.
    + exfalso. destruct (lookup_lt_is_Some_2 fs k Hk) as [f Hf].
      destruct (next_of_flight _ _ _ _ _ Hall Hfl Hf) as (enc' & [[He' Hd]|Hd]); congruence.
  - exists (S k), st2. split_and!; [done..|]. rewrite Hsrc2, Hlen1. lia.
Qed.

Lemma stream_run_app ops1 ops2 st :
  stream_run (ops1 ++ ops2) st = stream_run ops1 st ≫= stream_run ops2.
Proof.
  revert st. induction ops1 as [|o ops1 IH]; intros st; [done|]. cbn [app stream_run].
  destruct (stream_step st o); cbn [mbind option_bind]; [apply IH|done].
Qed.

Definition rounds (m n : nat) : list stream_op := concat (replicate m [Read n; Next]).

Lemma rounds_deliver fs encs m n k st :
  Forall2 encodes fs encs → in_flight fs encs k st → (0 < n)%nat → (outstanding fs k st ≤ m)%nat →
  ∃ st', stream_run (rounds m n) st = Some st' ∧ delivered st' = fs ∧ source st' = [].
Proof.
  intros Hall Hfl Hn. revert k st Hfl. induction m as [|m IH]; intros k st Hfl Hm.
  - exists st. split; [done|]. unfold outstanding in Hm.
    destruct (nothing_left _ _ _ _ Hall Hfl) as (_ & ? & ?); [|done]. apply lookup_ge_None. lia.
  - unfold rounds. cbn [replicate concat]. rewrite stream_run_app.
    destruct (Nat.lt_ge_cases k (length fs)) as [Hk|Hk].
    + destruct (round_progress _ _ _ _ n Hall Hfl Hk Hn) as (k' & st' & -> & Hfl' & Hlt).
      apply (IH k' st' Hfl'). lia.
    + destruct (nothing_left _ _ _ _ Hall Hfl) as (_ & Hsrc & _); [by apply lookup_ge_None|].
      destruct (read_in_flight _ _ _ _ n Hall Hfl) as (st1 & Hs1 & Hfl1 & Hlen1).
      destruct (next_in_flight _ _ _ _ Hall Hfl1) as (st2 & Hs2 & Hsrc2 & Hcase).
      rewrite Hsrc in Hlen1. cbn [length] in Hlen1.
      cbn [stream_run]. rewrite Hs1. cbn [mbind option_bind]. rewrite Hs2.
      cbn [mbind option_bind]. destruct Hcase as [[Hfl2 _]|(_ & Hbad & _)]; [|lia].
      apply (IH k st2 Hfl2). unfold outstanding. rewrite Hsrc2. lia.
Qed.

Lemma start_in_flight fs encs :
  in_flight fs encs 0 (mkStream (concat encs) decoder_default []).
Proof.
  destruct decoder_default_ok as [Hd Hu]. split_and!; [done|lia|done|].
  cbn [decoder source]. by rewrite Hu.
Qed.

(** ** Claims *)

(** C37. Frames survive any chopping of the stream: when the encodings of some
    frames are sent one after another, then however the bytes are read, in
    pieces of whatever size and with attempts to decode at any moment, the
    decoder never reports an error, has delivered a prefix of the frames in
    order, and holds exactly the bytes that follow. Reading and decoding in
    turns, as many times as there are bytes and frames, delivers all of them:
    the buffer of one maximal frame is always enough. *)
Theorem stream_reassembled fs encs :
  Forall2 encodes fs encs →
  (∀ ops, ∃ k st, stream_run ops (mkStream (concat encs) decoder_default []) = Some st ∧
     delivered st = take k fs ∧ undecoded (decoder st) ++ source st = concat (drop k encs)) ∧
  (∀ n m, (0 < n)%nat → (length (concat encs) + length fs ≤ m)%nat →
     ∃ st, stream_run (rounds m n) (mkStream (concat encs) decoder_default []) = Some st ∧
       delivered st = fs ∧ source st = []).
Proof.
  intros Hall. pose proof (start_in_flight fs encs) as Hfl. split.
  - intros ops. destruct (run_in_flight _ _ ops _ _ Hall Hfl) as (k & st & Hrun & _ & _ & ? & ?).
    by exists k, st.
  - intros n m Hn Hm. apply (rounds_deliver _ _ _ _ 0 _ Hall Hfl Hn).
    unfold outstanding. cbn [source]. lia.
Qed.
End Stream.

(** Two frames of the guest. *)
Definition demo_open : GuestFrame :=
  TcpOpen (SocketV4 0x01020304 443) (mkTcpOpenOptions true (Some (mkTcpKeepalive 60 5 3))).

Lemma demo_encodes :
  Forall2 encodes [demo_open; demo_frame]
    [frame_bytes Op_TcpOpen (guest_payload demo_open);
     frame_bytes Op_UdpSend (guest_payload demo_frame)].
Proof.
  assert (Henc : ∀ f, guest_typed f → guest_sendable f = true → canonical_guest f = f →
            bytes (frame_bytes (guest_opcode f) (guest_payload f)) →
            guest_append f [] = (Ok tt, frame_bytes (guest_opcode f) (guest_payload f)) →
            encodes f (frame_bytes (guest_opcode f) (guest_payload f))).
  { intros f Ht Hs Hc Hb Ha. split; [done|]. pose proof (guest_carries f [] Ht) as Hcar.
    unfold carries in Hcar. rewrite Ha, Hc in Hcar. destruct Hcar as (_ & enc & Heq & _ & Hd).
    cbn [app] in Heq. by subst enc. }
  constructor; [|constructor; [|constructor]]; apply Henc;
    first [by vm_compute | by apply (bool_decide_unpack _); vm_compute].
Qed.

Lemma stream_reassembled_witness :
  let encs := [frame_bytes Op_TcpOpen (guest_payload demo_open);
               frame_bytes Op_UdpSend (guest_payload demo_frame)] in
  (∀ ops, ∃ k st, stream_run ops (mkStream (concat encs) decoder_default []) = Some st ∧
     delivered st = take k [demo_open; demo_frame] ∧
     undecoded (decoder st) ++ source st = concat (drop k encs)) ∧
  (∀ n m, (0 < n)%nat → (length (concat encs) + 2 ≤ m)%nat →
     ∃ st, stream_run (rounds m n) (mkStream (concat encs) decoder_default []) = Some st ∧
       delivered st = [demo_open; demo_frame] ∧ source st = []).
Proof. exact (stream_reassembled [demo_open; demo_frame] _ demo_encodes). Defined.
