(* ===== verification/Datagrams.v ===== *)
(** * Batches of datagrams

    [crates/terra-protocol/src/network.rs], [DatagramBatch]: datagrams packed
    into one buffer, equal-sized neighbours merged into runs the way UDP
    segmentation offload does, within the limits of one network message. *)

From S2P Require Import Prelude AppFrames.

Local Open Scope Z_scope.

Definition MAX_NETWORK_CHUNK_BYTES : Z := 64 * 1024.
Definition MAX_NETWORK_DATAGRAMS : Z := 64.
Definition MAX_NETWORK_DATAGRAM_BATCH_BYTES : Z := MAX_NETWORK_CHUNK_BYTES.

Definition datagram_batch_bytes (entries bytes : Z) : Z :=
  bytes + entries * UDP_FRAME_OVERHEAD_BYTES.

Definition is_within_datagram_batch_limits (entries bytes : Z) : bool :=
  (entries <=? MAX_NETWORK_DATAGRAMS)
  && (datagram_batch_bytes entries bytes <=? MAX_NETWORK_DATAGRAM_BATCH_BYTES).

Record DatagramHeader := mkDatagramHeader {
  peer : SocketAddr;
  len : Z;
  segment : Z;
}.

Definition is_valid (h : DatagramHeader) : bool := is_valid_udp_run (len h) (segment h).

Record DatagramBatch := mkDatagramBatch {
  headers : list DatagramHeader;
  buffer : list Z;
}.

(** [DatagramBatch::default]. *)
Definition batch_default : DatagramBatch := mkDatagramBatch [] [].

Definition from_parts (hs : list DatagramHeader) (bs : list Z) : option DatagramBatch :=
  if negb (forallb is_valid hs) then None else
  let total := sumZ (len <$> hs) in
  if (total =? zlen bs) && is_within_datagram_batch_limits (zlen hs) (zlen bs)
  then Some (mkDatagramBatch hs bs) else None.

Definition batch_len (b : DatagramBatch) : Z := zlen (headers b).
Definition batch_is_empty (b : DatagramBatch) : bool := bool_decide (headers b = []).
Definition batch_bytes (b : DatagramBatch) : Z :=
  datagram_batch_bytes (batch_len b) (zlen (buffer b)).

Definition has_room_for_entry (length : Z) (b : DatagramBatch) : bool :=
  is_within_datagram_batch_limits (batch_len b + 1) (zlen (buffer b) + length).
Definition has_room_for_datagram (b : DatagramBatch) : bool :=
  has_room_for_entry MAX_NETWORK_DATAGRAM_BYTES b.

(** The last entry as a run: its own length when it is one datagram. *)
Definition run_segment_of (last : DatagramHeader) : Z :=
  if segment last =? 0 then len last else segment last.

Definition push_entry (p : SocketAddr) (bs : list Z) (b : DatagramBatch) : bool * DatagramBatch :=
  if (MAX_NETWORK_DATAGRAM_BYTES <? zlen bs) || negb (has_room_for_entry (zlen bs) b)
  then (false, b)
  else (true, mkDatagramBatch (headers b ++ [mkDatagramHeader p (zlen bs) 0]) (buffer b ++ bs)).

Definition push (p : SocketAddr) (bs : list Z) (b : DatagramBatch) : bool * DatagramBatch :=
  if U16_MAX <? zlen bs then (false, b) else
  match last (headers b) with
  | Some l =>
      let seg := run_segment_of l in
      if bool_decide (peer l = p) && extends_udp_run (len l) seg (zlen bs)
         && (batch_bytes b + zlen bs <=? MAX_NETWORK_DATAGRAM_BATCH_BYTES)
      then (true, mkDatagramBatch
                    (removelast (headers b) ++
                     [mkDatagramHeader (peer l) (wrapping_add16 (len l) (zlen bs)) seg])
                    (buffer b ++ bs))
      else push_entry p bs b
  | None => push_entry p bs b
  end.

(** The loop of [push_run]: the bytes taken so far. *)
Fixpoint push_all (p : SocketAddr) (ds : list (list Z)) (taken : Z) (b : DatagramBatch)
    : Z * DatagramBatch :=
  match ds with
  | [] => (taken, b)
  | d :: ds =>
      match push p d b with
      | (true, b) => push_all p ds (taken + zlen d) b
      | (false, b) => (taken, b)
      end
  end.

Definition push_run (p : SocketAddr) (bs : list Z) (stride : nat) (b : DatagramBatch)
    : Z * DatagramBatch :=
  if bool_decide (bs = []) then (0, (push p bs b).2)
  else push_all p (chunks (stride `max` 1) bs) 0 b.

(** [entries]: the headers with the part of the buffer each describes. *)
Fixpoint entries_from (hs : list DatagramHeader) (rest : list Z)
    : list (SocketAddr * Z * list Z) :=
  match hs with
  | [] => []
  | h :: hs => (peer h, segment h, take (Z.to_nat (len h)) rest)
               :: entries_from hs (drop (Z.to_nat (len h)) rest)
  end.
Definition entries (b : DatagramBatch) : list (SocketAddr * Z * list Z) :=
  entries_from (headers b) (buffer b).

(** [datagrams]: the datagrams a batch stands for. *)
Definition entry_datagrams (e : SocketAddr * Z * list Z) : list (SocketAddr * list Z) :=
  let '(p, seg, run) := e in
  let size := if seg =? 0 then (length run `max` 1)%nat else Z.to_nat seg in
  (λ d, (p, d)) <$> (chunks size run ++ (if bool_decide (run = []) then [run] else [])).
Definition datagrams (b : DatagramBatch) : list (SocketAddr * list Z) :=
  entries b ≫= entry_datagrams.

(** ** A valid batch *)

Record batch_ok (b : DatagramBatch) : Prop := {
  bo_valid : Forall (λ h, is_valid h = true) (headers b);
  bo_lens : Forall (λ h, 0 ≤ len h) (headers b);
  bo_segments : Forall (λ h, u16 (segment h)) (headers b);
  bo_total : sumZ (len <$> headers b) = zlen (buffer b);
  bo_limits : is_within_datagram_batch_limits (zlen (headers b)) (zlen (buffer b)) = true;
}.

Lemma from_parts_spec hs bs b :
  Forall (λ h, 0 ≤ len h) hs → Forall (λ h, u16 (segment h)) hs →
  from_parts hs bs = Some b ↔ b = mkDatagramBatch hs bs ∧ batch_ok b.
Proof.
  intros Hlens Hsegs. unfold from_parts. split.
  - destruct (forallb is_valid hs) eqn:Hv; [|done]. cbn [negb].
    destruct (_ && _) eqn:Hok; [|done]. intros [= <-]. breflect. split; [done|].
    split; try done. apply Forall_forall. intros h Hh. rewrite forallb_forall in Hv.
    by apply Hv, list_elem_of_In.
  - intros [-> [Hv _ _ Ht Hl]]. cbn [headers buffer] in *.
    assert (Hf : forallb is_valid hs = true).
    { apply forallb_forall. intros h Hh%list_elem_of_In. rewrite Forall_forall in Hv. by apply Hv. }
    rewrite Hf. cbn [negb]. by rewrite (proj2 (Z.eqb_eq _ _) Ht), Hl.
Qed.

(** ** Chunks *)

Lemma chunks_small {A} n (l : list A) : (0 < length l ≤ n)%nat → chunks n l = [l].
Proof.
  intros Hl. assert (Hne : l ≠ []) by (intros ->; cbn in Hl; lia).
  rewrite chunks_cons by (lia || done). rewrite take_ge by lia. by rewrite drop_ge by lia.
Qed.

Lemma chunks_app {A} n k (a b : list A) :
  (0 < n)%nat → length a = (k * n)%nat → chunks n (a ++ b) = chunks n a ++ chunks n b.
Proof.
  intros Hn. revert a. induction k as [|k IH]; intros a Ha.
  - by rewrite (nil_length_inv a Ha).
  - assert (Hne : a ≠ []) by (intros ->; cbn in Ha; lia).
    rewrite (chunks_cons n a), (chunks_cons n (a ++ b)) by (done || by destruct a).
    rewrite take_app_le, drop_app_le by lia. cbn [app]. f_equal. apply IH.
    rewrite length_drop. lia.
Qed.

(** ** Entries *)

Lemma entries_from_app hs1 hs2 b1 b2 :
  Forall (λ h, 0 ≤ len h) hs1 → sumZ (len <$> hs1) = zlen b1 →
  entries_from (hs1 ++ hs2) (b1 ++ b2) = entries_from hs1 b1 ++ entries_from hs2 b2.
Proof.
  intros Hlens. revert b1. induction Hlens as [|h hs Hh Hhs IH]; intros b1 Hsum.
  - destruct b1; [done|]. by unfold zlen in Hsum.
  - rewrite fmap_cons, sumZ_cons in Hsum.
    assert (Hrest : 0 ≤ sumZ (len <$> hs)) by by apply sumZ_nonneg, Forall_fmap.
    unfold zlen in *. cbn [app entries_from]. cbn beta in Hh.
    rewrite take_app_le, drop_app_le by lia. f_equal. apply IH. unfold zlen.
    rewrite length_drop. lia.
Qed.

(** A batch and its last entry. *)
Lemma datagrams_snoc hs h b1 b2 :
  Forall (λ h, 0 ≤ len h) hs → sumZ (len <$> hs) = zlen b1 → len h = zlen b2 →
  datagrams (mkDatagramBatch (hs ++ [h]) (b1 ++ b2)) =
  datagrams (mkDatagramBatch hs b1) ++ entry_datagrams (peer h, segment h, b2).
Proof.
  intros Hlens Hsum Hh. unfold datagrams, entries. cbn [headers buffer].
  rewrite entries_from_app, bind_app by done. f_equal. cbn [entries_from].
  rewrite bind_cons. cbn [mbind list_bind]. rewrite app_nil_r, Hh. unfold zlen.
  rewrite Nat2Z.id. by rewrite take_ge by lia.
Qed.

Lemma sum_snoc hs h : sumZ (len <$> hs ++ [h]) = sumZ (len <$> hs) + len h.
Proof. rewrite fmap_app, sumZ_app. unfold sumZ. cbn. lia. Qed.

Lemma batch_split hs h (bs : list Z) :
  Forall (λ h, 0 ≤ len h) (hs ++ [h]) → sumZ (len <$> hs ++ [h]) = zlen bs →
  ∃ b1 b2, bs = b1 ++ b2 ∧ sumZ (len <$> hs) = zlen b1 ∧ len h = zlen b2.
Proof.
  intros Hlens Hsum. apply Forall_app in Hlens as [Hhs Hh]. apply Forall_cons in Hh as [Hh _].
  rewrite sum_snoc in Hsum. assert (0 ≤ sumZ (len <$> hs)) by by apply sumZ_nonneg, Forall_fmap.
  exists (take (Z.to_nat (sumZ (len <$> hs))) bs), (drop (Z.to_nat (sumZ (len <$> hs))) bs).
  unfold zlen in *. rewrite take_drop, length_take, length_drop. cbn beta in *. split_and!; [done|lia..].
Qed.

(** Merging a datagram into a run adds exactly that datagram. *)
Lemma entry_datagrams_extend p seg run d :
  u16 seg →
  let seg' := if seg =? 0 then zlen run else seg in
  extends_udp_run (zlen run) seg' (zlen d) = true →
  entry_datagrams (p, seg', run ++ d) = entry_datagrams (p, seg, run) ++ [(p, d)].
Proof.
  intros Hseg seg'. assert (Hdef : seg' = if seg =? 0 then zlen run else seg) by done.
  clearbody seg'. intros Hext. unfold extends_udp_run, is_multiple_of in Hext. breflect.
  rename H into Hd0, H2 into Hle, H1 into Hmult.
  assert (Hpos : 0 < seg') by (pose proof (zlen_nonneg d); lia).
  rewrite (proj2 (Z.eqb_neq seg' 0)) in Hmult by lia. breflect.
  assert (Hd : d ≠ []) by (intros ->; by apply Hd0).
  assert (Hdl : (0 < length d ≤ Z.to_nat seg')%nat).
  { destruct d; [done|]. unfold zlen in *. cbn [length] in *. lia. }
  assert (Hk : length run = (Z.to_nat (zlen run / seg') * Z.to_nat seg')%nat).
  { pose proof (Z.div_mod (zlen run) seg' ltac:(lia)) as Hdm.
    rewrite Hmult, Z.add_0_r, Z.mul_comm in Hdm.
    assert (0 ≤ zlen run / seg') by (apply Z.div_pos; [apply zlen_nonneg|lia]).
    rewrite <-Z2Nat.inj_mul, <-Hdm by lia. unfold zlen. lia. }
  cbn [entry_datagrams]. rewrite (proj2 (Z.eqb_neq seg' 0)) by lia.
  assert (Hn : (0 < Z.to_nat seg')%nat) by lia.
  rewrite (chunks_app _ _ _ _ Hn Hk), (chunks_small _ d Hdl).
  rewrite (bool_decide_false (run ++ d = [])) by (intros [_ ?]%app_eq_nil; done).
  rewrite app_nil_r, fmap_app. f_equal. f_equal.
  destruct (Z.eqb_spec seg 0) as [->|Hs]; subst seg'.
  - assert (Hr : (0 < length run)%nat) by (unfold zlen in Hpos; lia).
    rewrite !chunks_small by (unfold zlen; lia).
    by rewrite bool_decide_false, app_nil_r by (intros ->; cbn in Hr; lia).
  - case_bool_decide as Hnil; [|by rewrite app_nil_r]. exfalso. subst run.
    unfold is_valid_segmented_run in H0. breflect. change (zlen []) with 0 in *. lia.
Qed.

Lemma last_Some_removelast {A} (l : list A) x : last l = Some x → l = removelast l ++ [x].
Proof. intros [l' ->]%last_Some. by rewrite removelast_last. Qed.

Lemma batch_limit_bytes b : batch_ok b → zlen (buffer b) ≤ MAX_NETWORK_DATAGRAM_BATCH_BYTES.
Proof.
  intros [_ _ _ _ Hl]. unfold is_within_datagram_batch_limits, datagram_batch_bytes in Hl. breflect.
  pose proof (zlen_nonneg (headers b)). unfold UDP_FRAME_OVERHEAD_BYTES, HEADER_BYTES,
    ENDPOINT_BYTES, UDP_SEGMENT_FIELD_BYTES in *. lia.
Qed.

(** ** Pushing one datagram *)

Definition pushed (p : SocketAddr) (bs : list Z) (b : DatagramBatch)
    (r : bool * DatagramBatch) : Prop :=
  batch_ok r.2 ∧ if r.1 then datagrams r.2 = datagrams b ++ [(p, bs)] else r.2 = b.

Lemma push_entry_spec p bs b : batch_ok b → pushed p bs b (push_entry p bs b).
Proof.
  intros Hb. unfold push_entry. destruct (_ || _) eqn:Hroom; [by split|].
  apply orb_false_iff in Hroom as [Hlen Hroom]. breflect.
  destruct Hb as [Hv Hl Hs Ht Hlim], b as [hs buf]. cbn [headers buffer] in *. split.
  - split; cbn [snd headers buffer].
    + apply Forall_app. split; [done|]. apply Forall_singleton. unfold is_valid, is_valid_udp_run.
      cbn. by apply Z.leb_le.
    + apply Forall_app. split; [done|]. apply Forall_singleton, zlen_nonneg.
    + apply Forall_app. split; [done|]. by apply Forall_singleton.
    + rewrite sum_snoc, zlen_app. cbn [len]. lia.
    + rewrite !zlen_app. exact Hroom.
  - cbn [fst snd]. rewrite datagrams_snoc by done. f_equal. cbn [peer segment entry_datagrams].
    cbn [Z.eqb]. destruct bs as [|x bs]; [done|].
    rewrite chunks_small by (cbn [length]; lia). by rewrite bool_decide_false.
Qed.

Lemma push_spec p bs b : batch_ok b → pushed p bs b (push p bs b).
Proof.
  intros Hb. unfold push. destruct (Z.ltb_spec U16_MAX (zlen bs)) as [|H16]; [by split|].
  destruct (last (headers b)) as [l|] eqn:Hlast; [|by apply push_entry_spec].
  destruct (_ && _ && _) eqn:Hmerge; [|by apply push_entry_spec]. breflect.
  rename H1 into Hext, H0 into Hroom. subst p. apply last_Some_removelast in Hlast.
  destruct Hb as [Hv Hl Hs Ht Hlim], b as [hs buf]. cbn [headers buffer] in *.
  set (hs' := removelast hs) in *. rewrite Hlast in Hv, Hl, Hs, Ht, Hlim, Hroom |- *.
  clearbody hs'. clear Hlast hs.
  destruct (batch_split _ _ _ Hl Ht) as (b1 & b2 & -> & Hsum & Hlen2).
  apply Forall_app in Hv as [Hv Hvl], Hl as [Hl Hll], Hs as [Hs Hsl].
  apply Forall_cons in Hvl as [Hvl _], Hll as [Hll _], Hsl as [Hsl _]. cbn beta in *.
  assert (Hseg : u16 (run_segment_of l) ∧ wrapping_add16 (len l) (zlen bs) = len l + zlen bs
                 ∧ is_valid_segmented_run (len l + zlen bs) (run_segment_of l) = true).
  { unfold extends_udp_run in Hext. breflect. split_and!; [..|done].
    - unfold is_valid_segmented_run in H0. breflect.
      unfold u16, MAX_NETWORK_DATAGRAM_BYTES in *. lia.
    - unfold is_valid_segmented_run in H0. breflect. unfold wrapping_add16, wrap16.
      pose proof (zlen_nonneg bs). apply Z.mod_small.
      unfold MAX_UDP_RUN_BYTES, MAX_FRAME_BYTES, UDP_FRAME_OVERHEAD_BYTES, HEADER_BYTES,
        ENDPOINT_BYTES, UDP_SEGMENT_FIELD_BYTES in *. lia. }
  destruct Hseg as (Hseg & Hadd & Hvalid). rewrite Hadd.
  split; [split|]; cbn [fst snd headers buffer].
  - apply Forall_app. split; [done|]. apply Forall_singleton. unfold is_valid, is_valid_udp_run.
    cbn [len segment]. destruct (Z.eqb_spec (run_segment_of l) 0) as [Hz|]; [|done].
    rewrite Hz in Hvalid. by unfold is_valid_segmented_run in Hvalid.
  - apply Forall_app. split; [done|]. apply Forall_singleton. cbn [len].
    pose proof (zlen_nonneg bs). lia.
  - apply Forall_app. split; [done|]. by apply Forall_singleton.
  - rewrite sum_snoc in *. rewrite zlen_app. cbn [len]. lia.
  - unfold is_within_datagram_batch_limits, batch_bytes, datagram_batch_bytes, batch_len in *.
    cbn [headers buffer] in *. breflect. rewrite !zlen_app in *. change (zlen [?x]) with 1 in *.
    apply andb_true_intro. split; apply Z.leb_le; lia.
  - rewrite <-app_assoc, !datagrams_snoc by (done || cbn [len]; rewrite ?zlen_app; lia).
    rewrite <-app_assoc. f_equal. cbn [peer segment].
    assert (Hrs : run_segment_of l = if segment l =? 0 then zlen b2 else segment l)
      by (unfold run_segment_of; by rewrite Hlen2).
    rewrite Hrs, Hlen2 in Hext. rewrite Hrs. by apply entry_datagrams_extend.
Qed.

(** ** Pushing a run *)

Lemma push_all_spec p ds taken b :
  batch_ok b →
  ∃ n, let '(taken', b') := push_all p ds taken b in
    batch_ok b' ∧
    taken' = taken + zlen (concat (take n ds)) ∧
    datagrams b' = datagrams b ++ ((λ d, (p, d)) <$> take n ds) ∧
    ∀ d, ds !! n = Some d → push p d b' = (false, b').
Proof.
  revert taken b. induction ds as [|d ds IH]; intros taken b Hb.
  - exists 0%nat. cbn. rewrite app_nil_r. split_and!; [done|unfold zlen; cbn; lia|done..].
  - cbn [push_all]. pose proof (push_spec p d b Hb) as [Hok Hd].
    destruct (push p d b) as [[] b1] eqn:Hpush; cbn [fst snd] in *.
    + destruct (IH (taken + zlen d) b1 Hok) as [n Hn]. exists (S n).
      destruct (push_all p ds (taken + zlen d) b1) as [taken' b'].
      destruct Hn as (Hb' & -> & Hds & Hnext). cbn [take concat]. rewrite zlen_app.
      split_and!; [done|lia| |done]. by rewrite Hds, Hd, <-app_assoc.
    + subst b1. exists 0%nat. rewrite take_0. cbn [concat fmap list_fmap].
      rewrite app_nil_r. split_and!; [done|unfold zlen; cbn; lia|done|].
      by intros d' [= <-].
Qed.

(** [push] keeps a batch valid: every header describes a well-formed run, the
    lengths add up to the buffer and the message limits hold. When it returns
    [true] the datagrams the batch stands for are the old ones followed by
    exactly the pushed one, whether it was merged into a run or got an entry of
    its own; when it returns [false] the batch is unchanged. The parts of the
    result are accepted by [from_parts]. *)
Theorem batch_push p bs b :
  batch_ok b →
  pushed p bs b (push p bs b) ∧
  (let b' := (push p bs b).2 in from_parts (headers b') (buffer b') = Some b').
Proof.
  intros Hb. pose proof (push_spec p bs b Hb) as Hp. split; [done|]. destruct Hp as [Hok _].
  apply from_parts_spec; [apply Hok..|]. split; [by destruct (push p bs b).2|done].
Qed.

(** [push_run] takes a whole number of [stride]-byte datagrams: the batch
    stands for its old datagrams followed by the first [n] chunks of the run, the
    count returned is their length, and the chunk after them, if there is one,
    does not fit the batch. *)
Theorem push_run_takes p bs stride b :
  batch_ok b → bs ≠ [] →
  ∃ n, let cs := chunks (stride `max` 1) bs in
    let '(taken, b') := push_run p bs stride b in
    batch_ok b' ∧
    taken = zlen (concat (take n cs)) ∧
    datagrams b' = datagrams b ++ ((λ d, (p, d)) <$> take n cs) ∧
    ∀ d, cs !! n = Some d → push p d b' = (false, b').
Proof.
  intros Hb Hne. unfold push_run. rewrite bool_decide_false by done.
  destruct (push_all_spec p (chunks (stride `max` 1) bs) 0 b Hb) as [n Hn]. exists n.
  by destruct (push_all p _ 0 b).
Qed.

Lemma batch_default_ok : batch_ok batch_default.
Proof. by split. Qed.

(** ** Witnesses *)

Definition demo_peer : SocketAddr := SocketV4 167772161 53.
Definition demo_batch : DatagramBatch := (push demo_peer [1; 2; 3] batch_default).2.

Lemma demo_batch_ok : batch_ok demo_batch.
Proof. apply push_spec, batch_default_ok. Qed.

Lemma batch_push_witness :
  push demo_peer [4; 5] demo_batch =
    (true, mkDatagramBatch [mkDatagramHeader demo_peer 5 3] [1; 2; 3; 4; 5]) ∧
  datagrams (push demo_peer [4; 5] demo_batch).2 =
    [(demo_peer, [1; 2; 3]); (demo_peer, [4; 5])] ∧
  batch_ok (push demo_peer [4; 5] demo_batch).2.
Proof.
  split; [reflexivity|]. split; [vm_compute; reflexivity|].
  exact (proj1 (proj1 (batch_push demo_peer [4; 5] demo_batch demo_batch_ok))).
Defined.

Lemma push_run_takes_witness :
  ∃ n, datagrams (push_run demo_peer [4; 5; 6; 7; 8] 2 demo_batch).2 =
    datagrams demo_batch ++ ((λ d, (demo_peer, d)) <$> take n [[4; 5]; [6; 7]; [8]]).
Proof.
  destruct (push_run_takes demo_peer [4; 5; 6; 7; 8] 2 demo_batch demo_batch_ok ltac:(discriminate))
    as [n Hn].
  exists n. change (chunks (2 `max` 1) [4; 5; 6; 7; 8]) with [[4; 5]; [6; 7]; [8]] in Hn.
  destruct (push_run demo_peer [4; 5; 6; 7; 8] 2 demo_batch) as [t b']. apply Hn.
Defined.
