(* ===== verification/Dns.v ===== *)
(** * DNS questions and answers

    [crates/terra-protocol/src/dns.rs], and [resolve] of
    [components/vsock-frontend/src/network/control.rs]: the first question of
    a query of the guest, and the response built for it from what the broker
    resolved. Names and packets are byte strings; a Rust [String] is its UTF-8
    bytes. *)

From S2P Require Import Prelude PolicyAddress PolicyRules AppFrames.
From stdpp Require Import strings.

Local Open Scope Z_scope.

Definition MAX_DNS_BYTES : Z := 4096.

Inductive DnsTransport : Type := Datagram | Stream.
#[export] Instance DnsTransport_eq_dec : EqDecision DnsTransport.
Proof. solve_decision. Defined.

Module Dns.

Definition QUESTION_NAME_OFFSET : Z := 12.
Definition HEADER_BYTES : Z := QUESTION_NAME_OFFSET.
Definition FLAGS_OFFSET : Z := 2.
Definition QUESTION_COUNT_OFFSET : Z := 4.
Definition QUESTION_FIXED_BYTES : Z := 4.
Definition POINTER_TAG : Z := 0xc0.
Definition FLAG_RESPONSE : Z := 0x8000.
Definition FLAG_TRUNCATED : Z := 0x0200.
Definition FLAG_RECURSION_DESIRED : Z := 0x0100.
Definition FLAG_RECURSION_AVAILABLE : Z := 0x0080.
Definition CLASS_IN : Z := 1.
Definition TYPE_A : Z := 1.
Definition TYPE_AAAA : Z := 28.
Definition ANSWER_TTL_SECS : Z := 60.
Definition UDP_RESPONSE_BYTES : Z := 512.
Definition MAX_LABEL_BYTES : Z := 63.
Definition MAX_NAME_BYTES : Z := 253.

Inductive Rcode : Type := ServFail | NxDomain.
(** The [repr(u16)] discriminant. *)
Definition rcode_code (r : Rcode) : Z := match r with ServFail => 2 | NxDomain => 3 end.

Record Question := mkQuestion {
  name : list Z;
  query : list Z;
  wire : list Z;
  qtype : Z;
}.

(** [std::str::from_utf8(..).is_ok()]: well-formed UTF-8, with no overlong form,
    surrogate or value above U+10FFFF. *)
Definition is_cont (b : Z) : bool := (0x80 <=? b) && (b <=? 0xbf).
Definition second_of_3 (a b : Z) : bool :=
  if a =? 0xe0 then (0xa0 <=? b) && (b <=? 0xbf)
  else if a =? 0xed then (0x80 <=? b) && (b <=? 0x9f)
  else (0xe1 <=? a) && (a <=? 0xef) && is_cont b.
Definition second_of_4 (a b : Z) : bool :=
  if a =? 0xf0 then (0x90 <=? b) && (b <=? 0xbf)
  else if a =? 0xf4 then (0x80 <=? b) && (b <=? 0x8f)
  else (0xf1 <=? a) && (a <=? 0xf3) && is_cont b.
Fixpoint is_utf8 (s : list Z) : bool :=
  match s with
  | [] => true
  | a :: s =>
      if a <? 0x80 then is_utf8 s else
      match s with
      | [] => false
      | b :: s =>
          if (0xc2 <=? a) && (a <=? 0xdf) then is_cont b && is_utf8 s else
          match s with
          | [] => false
          | c :: s =>
              if (0xe0 <=? a) && (a <=? 0xef) then second_of_3 a b && is_cont c && is_utf8 s else
              match s with
              | [] => false
              | d :: s => second_of_4 a b && is_cont c && is_cont d && is_utf8 s
              end
          end
      end
  end.

Definition read_u16 (buf : list Z) (offset : Z) : option Z :=
  match drop (Z.to_nat offset) buf with
  | a :: b :: _ => Some (from_be [a; b])
  | _ => None
  end.

(** The loop over the labels. Each turn moves [pos] forward, so the length of
    the query bounds the turns. *)
Fixpoint read_labels (fuel : nat) (query : list Z) (name : list Z) (pos : Z)
    : option (list Z * Z) :=
  match fuel with
  | O => None
  | S fuel =>
      len ← query !! Z.to_nat pos;
      let pos := pos + 1 in
      if len =? 0 then Some (name, pos) else
      if MAX_LABEL_BYTES <? len then None else
      label ← slice query pos (pos + len);
      if MAX_NAME_BYTES <? zlen name + zlen label + (if bool_decide (name = []) then 0 else 1)
      then None else
      let name := if bool_decide (name = []) then name else name ++ [46] in
      if is_utf8 label then read_labels fuel query (name ++ label) (pos + zlen label) else None
  end.

(** [Question::parse]. *)
Definition parse (query : list Z) : option Question :=
  count ← read_u16 query QUESTION_COUNT_OFFSET;
  if negb (count =? 1) then None else
  '(name, pos) ← read_labels (S (length query)) query [] HEADER_BYTES;
  qtype ← read_u16 query pos;
  wire ← slice query HEADER_BYTES (pos + QUESTION_FIXED_BYTES);
  Some (mkQuestion (to_ascii_lowercase name) query wire qtype).

(** A response header echoing the query's id and recursion-desired bit. *)
Definition start_response (query : list Z) (flags question_count answer_count : Z) : list Z :=
  let id := default 0 (read_u16 query 0) in
  let recursion_desired :=
    Z.land (default 0 (read_u16 query FLAGS_OFFSET)) FLAG_RECURSION_DESIRED in
  let flags := Z.lor (Z.lor (Z.lor FLAG_RESPONSE recursion_desired) FLAG_RECURSION_AVAILABLE) flags in
  [id; flags; question_count; answer_count; 0; 0] ≫= be_bytes 2.

Definition header_only_response (query : list Z) (question : option Question) (flags : Z)
    : list Z :=
  let response := start_response query flags (match question with Some _ => 1 | None => 0 end) 0 in
  match question with Some q => response ++ wire q | None => response end.

Definition error_response (query : list Z) (rcode : Rcode) : list Z :=
  header_only_response query (parse query) (rcode_code rcode).

(** [Question::error]. *)
Definition error (q : Question) (rcode : Rcode) : list Z :=
  header_only_response (query q) (Some q) (rcode_code rcode).

(** The closure [is_answer]. *)
Definition is_answer (q : Question) (ip : IpAddr) : bool :=
  match ip with V4 _ => qtype q =? TYPE_A | V6 _ => qtype q =? TYPE_AAAA end.

Definition octets (ip : IpAddr) : list Z :=
  match ip with V4 ip => be_bytes 4 ip | V6 ip => be_bytes 16 ip end.

(** The body of the loop over the answers. *)
Definition answer_record (q : Question) (ip : IpAddr) : list Z :=
  [POINTER_TAG; QUESTION_NAME_OFFSET] ++ be_bytes 2 (qtype q) ++ be_bytes 2 CLASS_IN
  ++ be_bytes 4 ANSWER_TTL_SECS ++ be_bytes 2 (zlen (octets ip)) ++ octets ip.

Definition full_answer (q : Question) (ips : list IpAddr) : option (list Z) :=
  let answers := List.filter (is_answer q) ips in
  if U16_MAX <? zlen answers then None else
  Some (start_response (query q) 0 1 (zlen answers) ++ wire q ++ (answers ≫= answer_record q)).

Definition max_response_bytes (transport : DnsTransport) : Z :=
  match transport with Datagram => UDP_RESPONSE_BYTES | Stream => MAX_DNS_BYTES end.

(** [Question::answer]. *)
Definition answer (q : Question) (ips : list IpAddr) (transport : DnsTransport) : list Z :=
  match full_answer q ips with
  | Some response =>
      if zlen response <=? max_response_bytes transport then response else
      header_only_response (query q) (Some q)
        (if bool_decide (transport = Datagram) then FLAG_TRUNCATED else rcode_code ServFail)
  | None => header_only_response (query q) (Some q) (rcode_code ServFail)
  end.

(** ** The frontend's resolver *)

(** [terra:network/broker]'s [ip-address] and [error]. *)
Inductive HostIpAddress : Type :=
| Ipv4 (a b c d : Z)
| Ipv6 (a b c d e f g h : Z).
Inductive BrokerError : Type :=
| BAccessDenied | BInvalidArgument | BInvalidState | BLimitExceeded | BCancelled
| BConnectionRefused | BConnectionReset | BTimedOut | BNameUnresolvable | BResolverBusy
| BDatagramTooLarge | BClosed | BIo.

Definition host_ip_address (address : HostIpAddress) : IpAddr :=
  match address with
  | Ipv4 a b c d => V4 (from_be [a; b; c; d])
  | Ipv6 a b c d e f g h => V6 (from_be ([a; b; c; d; e; f; g; h] ≫= be_bytes 2))
  end.

Definition broker_error (error : BrokerError) : SocketError :=
  match error with
  | BAccessDenied => AccessDenied
  | BInvalidArgument => InvalidArgument
  | BInvalidState => InvalidState
  | BLimitExceeded => LimitExceeded
  | BCancelled => Cancelled
  | BConnectionRefused => ConnectionRefused
  | BConnectionReset => ConnectionReset
  | BTimedOut => TimedOut
  | BNameUnresolvable => NameUnresolvable
  | BResolverBusy => ResolverBusy
  | BDatagramTooLarge => DatagramTooLarge
  | BClosed => Closed
  | BIo => Io
  end.

Section Resolve.
(** [broker::resolve], an import of the component. *)
Variable broker_resolve : list Z → result BrokerError (list HostIpAddress).

Definition resolve (transport : DnsTransport) (query : list Z) : list Z :=
  match parse query with
  | None => error_response query ServFail
  | Some question =>
      match broker_resolve (name question) with
      | Ok addresses => answer question (host_ip_address <$> addresses) transport
      | Err e =>
          if bool_decide (broker_error e = AccessDenied) then error question NxDomain
          else error question ServFail
      end
  end.
End Resolve.

(** A query for [api.internal] and its answer. *)
Definition demo_query : list Z :=
  [0x12; 0x34; 1; 0; 0; 1; 0; 0; 0; 0; 0; 0; 3; 65; 112; 105; 8; 105; 110; 116; 101; 114; 110;
   97; 108; 0; 0; 1; 0; 1].
Example demo_parse :
  name <$> parse demo_query = Some (lit "api.internal"%string) ∧
  resolve (λ _, Ok [Ipv4 10 0 0 5; Ipv6 0x2606 0x4700 0 0 0 0 0 1]) Datagram demo_query =
    [0x12; 0x34; 0x81; 0x80; 0; 1; 0; 1; 0; 0; 0; 0; 3; 65; 112; 105; 8; 105; 110; 116; 101; 114;
     110; 97; 108; 0; 0; 1; 0; 1; 0xc0; 0x0c; 0; 1; 0; 1; 0; 0; 0; 0x3c; 0; 4; 10; 0; 0; 5].
Proof. by vm_compute. Qed.

(** ** Questions on the wire *)

Definition label_ok (l : list Z) : Prop := 1 ≤ zlen l ≤ MAX_LABEL_BYTES ∧ is_utf8 l = true.
Definition wire_labels (ls : list (list Z)) : list Z := ls ≫= λ l, zlen l :: l.

(** The labels of a name joined by dots. *)
Definition dotted (ls : list (list Z)) : list Z :=
  match ls with [] => [] | l :: ls => l ++ (ls ≫= λ l, 46 :: l) end.

(** [dotted] continued from the name read so far. *)
Definition dotted_from (n : list Z) (ls : list (list Z)) : list Z :=
  if bool_decide (n = []) then dotted ls else n ++ (ls ≫= λ l, 46 :: l).

Lemma dotted_from_cons n l ls :
  l ≠ [] →
  dotted_from n (l :: ls) =
  dotted_from ((if bool_decide (n = []) then n else n ++ [46]) ++ l) ls.
Proof.
  intros Hl. unfold dotted_from. rewrite !bind_cons.
  destruct (decide (n = [])) as [->|Hn].
  - rewrite (bool_decide_true ([] = [])) by done. cbn [app]. by rewrite bool_decide_false.
  - rewrite !(bool_decide_false (n = [])) by done. rewrite bool_decide_false.
    + by rewrite <-!app_assoc.
    + intros [? _]%app_eq_nil. by destruct n.
Qed.

Lemma dotted_from_grows n ls : zlen n ≤ zlen (dotted_from n ls).
Proof.
  unfold dotted_from. case_bool_decide; subst.
  - apply zlen_nonneg.
  - rewrite zlen_app. pose proof (zlen_nonneg (ls ≫= λ l, 46 :: l)). lia.
Qed.

Lemma slice_split {A} (l : list A) pre a b s :
  slice l a b = Some s → zlen pre = a → (∃ post, l = pre ++ post) →
  ∃ post, l = pre ++ s ++ post.
Proof.
  unfold slice. intros Hs <- [post ->]. split_ifs; simplify_eq. breflect.
  unfold zlen. rewrite Nat2Z.id, drop_app_length. eexists. by rewrite take_drop.
Qed.

Lemma lookup_mid {A} (pre : list A) x post : (pre ++ x :: post) !! Z.to_nat (zlen pre) = Some x.
Proof. unfold zlen. rewrite Nat2Z.id. by apply list_lookup_middle. Qed.

(** The loop accepts exactly the encodings of labels. *)
Lemma read_labels_sound fuel q n pre post m pos :
  q = pre ++ post → bytes q → zlen n ≤ MAX_NAME_BYTES →
  read_labels fuel q n (zlen pre) = Some (m, pos) →
  ∃ ls post', post = wire_labels ls ++ 0 :: post' ∧ Forall label_ok ls ∧
    m = dotted_from n ls ∧ zlen m ≤ MAX_NAME_BYTES ∧ pos = zlen (pre ++ wire_labels ls ++ [0]).
Proof.
  revert n pre post. induction fuel as [|fuel IH]; intros n pre post -> Hq Hn; [done|].
  cbn [read_labels]. destruct post as [|len post].
  { rewrite app_nil_r, lookup_ge_None_2 by (unfold zlen; lia). done. }
  rewrite lookup_mid. cbn [mbind option_bind].
  assert (Hlen : u8 len) by (apply Forall_app in Hq as [_ Hq]; by apply Forall_cons in Hq as [? _]).
  destruct (Z.eqb_spec len 0) as [->|Hne].
  { intros [= <- <-]. exists [], post. split_and!; [done..|by unfold dotted_from, dotted;
      case_bool_decide; rewrite ?app_nil_r|done|]. rewrite zlen_app. done. }
  destruct (Z.ltb_spec MAX_LABEL_BYTES len) as [|Hmax]; [done|].
  destruct (slice _ _ _) as [label|] eqn:Hslice; [|done]. cbn [mbind option_bind].
  assert (Hll : zlen label = len).
  { apply slice_length in Hslice; pose proof (zlen_nonneg pre); lia. }
  apply (slice_split _ (pre ++ [len])) in Hslice as [post' Hpost];
    [|rewrite zlen_app; done|exists post; by rewrite <-app_assoc].
  rewrite <-app_assoc in Hpost. apply app_inv_head in Hpost. injection Hpost as ->.
  destruct (_ <? _) eqn:Hfits; [done|]. breflect.
  destruct (is_utf8 label) eqn:Hutf; [|done]. intros Hread.
  assert (Hl : label ≠ []) by (intros ->; by apply Hne).
  replace (zlen pre + 1 + zlen label) with (zlen (pre ++ len :: label)) in Hread
    by (rewrite zlen_app; unfold zlen; cbn [length]; lia).
  apply (IH _ _ post') in Hread as (ls & post'' & -> & Hls & -> & Hm & ->).
  - exists (label :: ls), post''. unfold wire_labels. rewrite bind_cons, Hll. split_and!.
    + by rewrite <-!app_assoc.
    + constructor; [|done]. unfold label_ok, u8 in *. split; [lia|done].
    + by rewrite dotted_from_cons.
    + done.
    + by rewrite <-!app_assoc.
  - by rewrite <-app_assoc, <-app_comm_cons.
  - done.
  - case_bool_decide; rewrite ?zlen_app; unfold zlen in *; cbn [length] in *; subst; cbn in *; lia.
Qed.

Lemma read_labels_complete fuel n pre ls post :
  Forall label_ok ls → zlen (dotted_from n ls) ≤ MAX_NAME_BYTES →
  (length (wire_labels ls) < fuel)%nat →
  read_labels fuel (pre ++ wire_labels ls ++ 0 :: post) n (zlen pre) =
    Some (dotted_from n ls, zlen (pre ++ wire_labels ls ++ [0])).
Proof.
  intros Hls. revert fuel n pre. induction Hls as [|l ls Hl Hls IH]; intros fuel n pre Hmax Hfuel;
    (destruct fuel as [|fuel]; [lia|]); cbn [read_labels].
  - unfold wire_labels. cbn [mbind list_bind app]. rewrite lookup_mid. cbn [mbind option_bind].
    cbn [Z.eqb]. rewrite zlen_app. f_equal. f_equal. unfold dotted_from, dotted.
    case_bool_decide; by rewrite ?app_nil_r.
  - unfold wire_labels in *. rewrite bind_cons, <-!app_comm_cons, lookup_mid in *.
    cbn [mbind option_bind]. destruct Hl as [Hl Hutf].
    assert (Hlne : l ≠ []) by (intros ->; by destruct Hl).
    rewrite (proj2 (Z.eqb_neq _ _)), (proj2 (Z.ltb_ge _ _)) by (unfold MAX_LABEL_BYTES in *; lia).
    fold (wire_labels ls) in *.
    replace (pre ++ zlen l :: (l ++ wire_labels ls) ++ 0 :: post)
      with ((pre ++ [zlen l]) ++ l ++ (wire_labels ls ++ 0 :: post))
      by by rewrite <-!app_assoc.
    replace (zlen pre + 1) with (zlen (pre ++ [zlen l])) by by rewrite zlen_app.
    rewrite slice_mid. cbn [mbind option_bind]. rewrite dotted_from_cons in Hmax |- * by done.
    assert (H : zlen ((if bool_decide (n = []) then n else n ++ [46]) ++ l) ≤ MAX_NAME_BYTES)
      by (etrans; [apply dotted_from_grows|exact Hmax]).
    rewrite (proj2 (Z.ltb_ge _ _)).
    2:{ revert H. case_bool_decide; rewrite !zlen_app; unfold zlen; cbn [length]; lia. }
    rewrite Hutf, (app_assoc _ l), <-zlen_app, IH; [|done|].
    + by rewrite <-!app_assoc.
    + cbn [length] in Hfuel. rewrite length_app in Hfuel. lia.
Qed.

Lemma read_u16_app a x y rest : read_u16 (a ++ x :: y :: rest) (zlen a) = Some (from_be [x; y]).
Proof. unfold read_u16, zlen. by rewrite Nat2Z.id, drop_app_length. Qed.
Lemma read_u16_be2 a v rest : u16 v → read_u16 (a ++ be_bytes 2 v ++ rest) (zlen a) = Some v.
Proof.
  intros Hv. change (be_bytes 2 v) with [(v / 256) mod 256; v mod 256]. cbn [app].
  rewrite read_u16_app. change [(v / 256) mod 256; v mod 256] with (be_bytes 2 v).
  by rewrite from_be_be_bytes.
Qed.

Lemma read_u16_Some a rest v :
  read_u16 (a ++ rest) (zlen a) = Some v →
  ∃ x y rest', rest = x :: y :: rest' ∧ v = from_be [x; y].
Proof.
  unfold read_u16, zlen. rewrite Nat2Z.id, drop_app_length.
  destruct rest as [|x [|y rest]]; [done..|]. intros [= <-]. eauto.
Qed.

(** What [parse] accepts: a header that counts one question, the labels of a
    name of at most 253 bytes, the root label, a type and a class. *)
Record question_at (packet hdr : list Z) (ls : list (list Z)) (tc rest : list Z) : Prop := {
  qa_packet : packet = hdr ++ wire_labels ls ++ 0 :: tc ++ rest;
  qa_header : zlen hdr = HEADER_BYTES;
  qa_count : read_u16 hdr QUESTION_COUNT_OFFSET = Some 1;
  qa_labels : Forall label_ok ls;
  qa_name : zlen (dotted ls) ≤ MAX_NAME_BYTES;
  qa_fixed : zlen tc = QUESTION_FIXED_BYTES;
}.

Definition question_of (packet : list Z) (ls : list (list Z)) (tc : list Z) : Question :=
  mkQuestion (to_ascii_lowercase (dotted ls)) packet (wire_labels ls ++ 0 :: tc)
    (from_be (take 2 tc)).

Lemma read_u16_prefix hdr rest k :
  0 ≤ k → k + 2 ≤ zlen hdr → read_u16 (hdr ++ rest) k = read_u16 hdr k.
Proof.
  intros Hk Hl. unfold read_u16. unfold zlen in *. rewrite drop_app_le by lia.
  assert (Hd : (2 ≤ length (drop (Z.to_nat k) hdr))%nat) by (rewrite length_drop; lia).
  destruct (drop (Z.to_nat k) hdr) as [|x [|y l]]; cbn in Hd; [lia..|done].
Qed.

Lemma parse_complete packet hdr ls tc rest :
  question_at packet hdr ls tc rest → parse packet = Some (question_of packet ls tc).
Proof.
  intros [-> Hh Hc Hls Hn Ht]. unfold parse. rewrite read_u16_prefix, Hc; [|done|by rewrite Hh].
  cbn [mbind option_bind negb Z.eqb Pos.eqb]. rewrite <-Hh, read_labels_complete; [|done|done|].
  2:{ rewrite !length_app. cbn [length]. lia. }
  cbn [mbind option_bind].
  destruct tc as [|a [|b tc]]; [done..|].
  replace (hdr ++ wire_labels ls ++ 0 :: (a :: b :: tc) ++ rest)
    with ((hdr ++ wire_labels ls ++ [0]) ++ a :: b :: tc ++ rest) at 1 by by rewrite <-!app_assoc.
  rewrite read_u16_app. cbn [mbind option_bind].
  replace (zlen (hdr ++ wire_labels ls ++ [0]) + QUESTION_FIXED_BYTES)
    with (zlen hdr + zlen (wire_labels ls ++ 0 :: a :: b :: tc)).
  2:{ rewrite <-Ht, !zlen_app. unfold zlen. cbn [length]. lia. }
  replace (hdr ++ wire_labels ls ++ 0 :: (a :: b :: tc) ++ rest)
    with (hdr ++ (wire_labels ls ++ 0 :: a :: b :: tc) ++ rest) at 1 by by rewrite <-!app_assoc.
  by rewrite slice_mid.
Qed.

Lemma parse_sound packet q :
  bytes packet → parse packet = Some q →
  ∃ hdr ls tc rest, question_at packet hdr ls tc rest ∧ q = question_of packet ls tc.
Proof.
  intros Hb. unfold parse. destruct (read_u16 packet QUESTION_COUNT_OFFSET) as [c|] eqn:Hc; [|done].
  cbn [mbind option_bind]. destruct (Z.eqb_spec c 1) as [->|]; [|done]. cbn [negb].
  destruct (decide (zlen packet < HEADER_BYTES)) as [Hshort|Hlong].
  { assert (Hr : ∀ fuel, read_labels fuel packet [] HEADER_BYTES = None).
    { intros [|fuel]; [done|]. cbn [read_labels]. rewrite lookup_ge_None_2; [done|].
      unfold HEADER_BYTES, QUESTION_NAME_OFFSET, zlen in *. lia. }
    by rewrite Hr. }
  set (hdr := take 12 packet). set (post := drop 12 packet).
  assert (Hsplit : packet = hdr ++ post) by (symmetry; apply take_drop).
  assert (Hh : zlen hdr = HEADER_BYTES).
  { unfold hdr, HEADER_BYTES, QUESTION_NAME_OFFSET, zlen in *. rewrite length_take. lia. }
  clearbody hdr post. subst packet. rewrite read_u16_prefix in Hc by (done || by rewrite Hh).
  rewrite <-Hh. destruct (read_labels _ _ _ _) as [[n pos]|] eqn:Hr; [|done].
  apply (read_labels_sound _ _ _ hdr post) in Hr as (ls & post' & -> & Hls & -> & Hn & ->); [|done..].
  cbn [mbind option_bind].
  replace (hdr ++ wire_labels ls ++ 0 :: post') with ((hdr ++ wire_labels ls ++ [0]) ++ post')
    by by rewrite <-!app_assoc.
  destruct (read_u16 (_ ++ post') _) as [ty|] eqn:Hty; [|done]. cbn [mbind option_bind].
  apply read_u16_Some in Hty as (x & y & post'' & -> & ->).
  destruct (slice _ _ _) as [w|] eqn:Hw; [|done]. intros [= <-].
  pose proof (slice_length _ _ _ _ (zlen_nonneg hdr) Hw) as Hwl.
  apply (slice_split _ hdr) in Hw as [rest Hw]; [|done|by eexists; rewrite <-!app_assoc].
  rewrite <-!app_assoc in Hw. apply app_inv_head in Hw. cbn [app] in Hw.
  assert (Hwn : w = wire_labels ls ++ 0 :: x :: y :: take 2 post'' ∧ rest = drop 2 post'').
  { rewrite !zlen_app in Hwl. change (zlen [0]) with 1 in Hwl. unfold QUESTION_FIXED_BYTES in Hwl.
    apply (f_equal (λ l, (take (length w) l, drop (length w) l))) in Hw.
    rewrite take_app_length, drop_app_length in Hw. injection Hw as Ht Hd.
    assert (Hlw : length w = (length (wire_labels ls) + 5)%nat) by (unfold zlen in *; lia).
    rewrite Hlw, take_app_add in Ht. rewrite Hlw, drop_app_add in Hd. cbn in Ht, Hd. done. }
  destruct Hwn as [-> ->].
  exists hdr, ls, (x :: y :: take 2 post''), (drop 2 post''). split; [split|].
  - rewrite <-!app_assoc. cbn [app]. by rewrite take_drop.
  - done.
  - done.
  - done.
  - done.
  - rewrite !zlen_app in Hwl. change (zlen [0]) with 1 in Hwl. unfold QUESTION_FIXED_BYTES in *.
    unfold zlen in *. cbn [length] in *. lia.
  - unfold question_of. by rewrite <-!app_assoc.
Qed.

(** [Question::parse] accepts exactly the packets whose header counts one
    question and is followed by the labels of a name (each of 1 to 63 bytes of
    UTF-8, at most 253 bytes once joined by dots), the root label, a type and a
    class; it returns that name in lower case, the question's bytes and its
    type. In particular compression pointers and truncated packets are refused. *)
Theorem dns_question_parsed packet q :
  bytes packet →
  parse packet = Some q ↔
  ∃ hdr ls tc rest, question_at packet hdr ls tc rest ∧ q = question_of packet ls tc.
Proof.
  intros Hb. split; [by apply parse_sound|].
  intros (hdr & ls & tc & rest & Hat & ->). by eapply parse_complete.
Qed.

(** ** Responses, as a client reads them *)

Record dns_record := mkRecord { rtype : Z; rclass : Z; rttl : Z; rdata : list Z }.
Record Response := mkResponse {
  rs_id : Z;
  rs_flags : Z;
  rs_name : list Z;
  rs_question : list Z;
  rs_records : list dns_record;
}.

(** Resource records whose owner is a pointer to the question, up to the end. *)
Fixpoint read_records (n : nat) (bs : list Z) : option (list dns_record) :=
  match n with
  | O => if bool_decide (bs = []) then Some [] else None
  | S n =>
      if bool_decide (take 2 bs = [0xc0; 12]) then
        ty ← read_u16 bs 2;
        cl ← read_u16 bs 4;
        let ttl := from_be (take 4 (drop 6 bs)) in
        len ← read_u16 bs 10;
        data ← slice bs 12 (12 + len);
        rs ← read_records n (drop (Z.to_nat (12 + len)) bs);
        Some (mkRecord ty cl ttl data :: rs)
      else None
  end.

Definition read_response (bs : list Z) : option Response :=
  q ← parse bs;
  id ← read_u16 bs 0;
  flags ← read_u16 bs 2;
  n ← read_u16 bs 6;
  records ← read_records (Z.to_nat n) (drop (Z.to_nat (12 + zlen (wire q))) bs);
  Some (mkResponse id flags (name q) (wire q) records).

(** The header fields a response echoes, and the response code or flag. *)
Definition query_id (packet : list Z) : Z := default 0 (read_u16 packet 0).
Definition response_flags (packet : list Z) (extra : Z) : Z :=
  0x8080 + (if Z.testbit (default 0 (read_u16 packet 2)) 8 then 0x100 else 0) + extra.

Definition record_of (q : Question) (ip : IpAddr) : dns_record :=
  mkRecord (qtype q) 1 60 (octets ip).

(** What a question gets: the code or flag, and the records. *)
Definition outcome (q : Question) (transport : DnsTransport)
    (resolved : result BrokerError (list HostIpAddress)) : Z * list dns_record :=
  match resolved with
  | Err BAccessDenied => (3, [])
  | Err _ => (2, [])
  | Ok addresses =>
      let answers := List.filter (is_answer q) (host_ip_address <$> addresses) in
      if 12 + zlen (wire q) + sumZ ((λ ip, 12 + zlen (octets ip)) <$> answers)
           <=? max_response_bytes transport
      then (0, record_of q <$> answers)
      else match transport with
           | Datagram => if zlen answers <=? U16_MAX then (0x200, []) else (2, [])
           | Stream => (2, [])
           end
  end.

Lemma land_bit8 v : Z.land v 0x100 = if Z.testbit v 8 then 0x100 else 0.
Proof.
  apply Z.bits_inj'. intros n Hn. rewrite Z.land_spec. change 0x100 with (2 ^ 8).
  rewrite Z.pow2_bits_eqb by lia. destruct (Z.eqb_spec 8 n) as [<-|Hne].
  - rewrite andb_true_r. destruct (Z.testbit v 8); [by rewrite Z.pow2_bits_true|by rewrite Z.bits_0].
  - rewrite andb_false_r. destruct (Z.testbit v 8); [|by rewrite Z.bits_0].
    symmetry. rewrite Z.pow2_bits_false; [done|lia].
Qed.

Lemma start_response_eq packet extra qc ac :
  extra ∈ [0; 2; 3; 0x200] →
  start_response packet extra qc ac =
    be_bytes 2 (query_id packet) ++ be_bytes 2 (response_flags packet extra) ++ be_bytes 2 qc ++
    be_bytes 2 ac ++ [0; 0; 0; 0].
Proof.
  intros He. unfold start_response. rewrite !bind_cons. cbn [mbind list_bind].
  unfold FLAG_RECURSION_DESIRED. rewrite land_bit8.
  replace (Z.lor _ extra) with (response_flags packet extra); [done|].
  unfold response_flags, FLAGS_OFFSET.
  destruct (Z.testbit _ 8); repeat (apply elem_of_cons in He as [->|He]; [done|]); by apply elem_of_nil in He.
Qed.

Lemma read_u16_bound buf off v : bytes buf → read_u16 buf off = Some v → u16 v.
Proof.
  unfold read_u16. intros Hb Hr.
  assert (Hd : bytes (drop (Z.to_nat off) buf)) by by apply Forall_drop.
  destruct (drop _ buf) as [|x [|y l]]; [done..|]. injection Hr as <-.
  apply (Forall_app _ [x; y]) in Hd as [Hd _]. by apply (from_be_bound [x; y]).
Qed.

Lemma query_id_u16 packet : bytes packet → u16 (query_id packet).
Proof.
  intros Hb. unfold query_id. destruct (read_u16 packet 0) eqn:Hr; [|done].
  by eapply read_u16_bound.
Qed.
Lemma response_flags_u16 packet extra : extra ∈ [0; 2; 3; 0x200] → u16 (response_flags packet extra).
Proof.
  intros He. unfold response_flags, u16. destruct (Z.testbit _ 8);
    repeat (apply elem_of_cons in He as [->|He]; [done|]); by apply elem_of_nil in He.
Qed.

(** The header of a response. *)
Lemma response_header packet extra qc ac rest :
  bytes packet → extra ∈ [0; 2; 3; 0x200] → u16 qc → u16 ac →
  let r := start_response packet extra qc ac in
  zlen r = 12 ∧
  read_u16 (r ++ rest) 0 = Some (query_id packet) ∧
  read_u16 (r ++ rest) 2 = Some (response_flags packet extra) ∧
  read_u16 r 4 = Some qc ∧
  read_u16 (r ++ rest) 6 = Some ac.
Proof.
  intros Hb He Hqc Hac r. unfold r. rewrite start_response_eq by done.
  pose proof (query_id_u16 packet Hb). pose proof (response_flags_u16 packet extra He).
  split_and!.
  - rewrite !zlen_app. unfold zlen. by rewrite !be_bytes_length.
  - rewrite <-!app_assoc. by apply (read_u16_be2 []).
  - rewrite <-!app_assoc. by apply (read_u16_be2 (be_bytes 2 (query_id packet))).
  - rewrite app_assoc.
    by apply (read_u16_be2 (be_bytes 2 (query_id packet) ++ be_bytes 2 (response_flags packet extra))).
  - rewrite <-!app_assoc, (app_assoc _ (be_bytes 2 _)), (app_assoc _ (be_bytes 2 qc)).
    by apply (read_u16_be2 ((be_bytes 2 (query_id packet) ++
      be_bytes 2 (response_flags packet extra)) ++ be_bytes 2 qc)).
Qed.

Lemma octets_length ip : zlen (octets ip) = match ip with V4 _ => 4 | V6 _ => 16 end.
Proof. unfold zlen. destruct ip; cbn [octets]; by rewrite be_bytes_length. Qed.

Lemma answer_record_length q ip : zlen (answer_record q ip) = 12 + zlen (octets ip).
Proof.
  unfold answer_record. rewrite !zlen_app. unfold zlen. rewrite !be_bytes_length. cbn [length]. lia.
Qed.

Lemma answer_records_length q ips :
  zlen (ips ≫= answer_record q) = sumZ ((λ ip, 12 + zlen (octets ip)) <$> ips).
Proof.
  induction ips as [|ip ips IH]; [done|].
  by rewrite bind_cons, zlen_app, answer_record_length, fmap_cons, sumZ_cons, IH.
Qed.

Lemma read_records_answers q ips :
  u16 (qtype q) → read_records (length ips) (ips ≫= answer_record q) = Some (record_of q <$> ips).
Proof.
  intros Hq. induction ips as [|ip ips IH]; [done|]. rewrite bind_cons. cbn [length read_records].
  set (rest := ips ≫= answer_record q) in *. clearbody rest.
  unfold answer_record, POINTER_TAG, QUESTION_NAME_OFFSET. rewrite <-!app_assoc.
  rewrite bool_decide_true by done.
  rewrite (read_u16_be2 [0xc0; 12]) by done. cbn [mbind option_bind].
  rewrite (app_assoc _ (be_bytes 2 (qtype q))).
  rewrite (read_u16_be2 ([0xc0; 12] ++ be_bytes 2 (qtype q)) CLASS_IN) by done.
  cbn [mbind option_bind].
  rewrite (app_assoc _ (be_bytes 2 CLASS_IN)), (app_assoc _ (be_bytes 4 ANSWER_TTL_SECS)).
  assert (Hlen : u16 (zlen (octets ip))) by (rewrite octets_length; by destruct ip).
  rewrite (read_u16_be2 ((([0xc0; 12] ++ be_bytes 2 (qtype q)) ++ be_bytes 2 CLASS_IN) ++
    be_bytes 4 ANSWER_TTL_SECS) (zlen (octets ip))) by done.
  cbn [mbind option_bind].
  rewrite (app_assoc _ (be_bytes 2 (zlen (octets ip)))).
  set (hd := ((([0xc0; 12] ++ be_bytes 2 (qtype q)) ++ be_bytes 2 CLASS_IN) ++
    be_bytes 4 ANSWER_TTL_SECS) ++ be_bytes 2 (zlen (octets ip))).
  assert (Hhd : zlen hd = 12) by (unfold hd; rewrite !zlen_app; done).
  rewrite <-Hhd at 1 2. rewrite slice_mid. cbn [mbind option_bind].
  replace (drop (Z.to_nat (12 + zlen (octets ip))) _) with rest.
  2:{ rewrite <-Hhd, <-zlen_app, app_assoc. unfold zlen. by rewrite Nat2Z.id, drop_app_length. }
  rewrite IH. reflexivity.
Qed.

Lemma wire_labels_length ls : zlen (wire_labels ls) ≤ zlen (dotted ls) + 1.
Proof.
  assert (Hrest : ∀ ls, zlen (wire_labels ls) = zlen (ls ≫= λ l, 46 :: l)).
  { clear ls. induction ls as [|l ls IH]; [done|]. unfold wire_labels in *.
    rewrite !bind_cons, !zlen_app, IH. done. }
  destruct ls as [|l ls]; [done|]. unfold dotted. rewrite zlen_app, <-Hrest.
  unfold wire_labels. rewrite bind_cons, zlen_app. unfold zlen. cbn [length]. lia.
Qed.

(** A question that was parsed, with a response built around it. *)
Record asked (packet : list Z) (q : Question) : Prop := {
  as_query : query q = packet;
  as_wire : zlen (wire q) ≤ 259;
  as_qtype : u16 (qtype q);
  as_echo : ∀ hdr rest, zlen hdr = 12 → read_u16 hdr 4 = Some 1 →
    ∃ q', parse (hdr ++ wire q ++ rest) = Some q' ∧ name q' = name q ∧ wire q' = wire q;
}.

Lemma parse_asked packet q : bytes packet → parse packet = Some q → asked packet q.
Proof.
  intros Hb Hp. apply parse_sound in Hp as (hdr & ls & tc & rest & Hat & ->); [|done].
  destruct Hat as [-> Hh Hc Hls Hn Ht]. split.
  - done.
  - cbn [wire question_of]. rewrite zlen_app. pose proof (wire_labels_length ls).
    replace (zlen (0 :: tc)) with (1 + zlen tc) by (unfold zlen; cbn [length]; lia).
    unfold MAX_NAME_BYTES, QUESTION_FIXED_BYTES in *. lia.
  - apply Forall_app in Hb as [_ Hb]. apply Forall_app in Hb as [_ Hb].
    apply Forall_cons in Hb as [_ Hb]. apply Forall_app in Hb as [Hb _].
    cbn [qtype question_of]. pose proof (from_be_bound (take 2 tc) (Forall_take _ _ _ Hb)) as Hv.
    replace (zlen (take 2 tc)) with 2 in Hv; [done|].
    unfold QUESTION_FIXED_BYTES, zlen in *. rewrite length_take. lia.
  - intros hdr' rest' Hh' Hc'. eexists. split.
    + eapply (parse_complete _ hdr' ls tc rest'). split; try done. cbn [wire question_of].
      by rewrite <-!app_assoc.
    + done.
Qed.

Lemma read_response_built packet q extra ips :
  bytes packet → asked packet q → extra ∈ [0; 2; 3; 0x200] → zlen ips ≤ U16_MAX →
  let r := start_response packet extra 1 (zlen ips) ++ wire q ++ (ips ≫= answer_record q) in
  zlen r = 12 + zlen (wire q) + sumZ ((λ ip, 12 + zlen (octets ip)) <$> ips) ∧
  read_response r =
    Some (mkResponse (query_id packet) (response_flags packet extra) (name q) (wire q)
            (record_of q <$> ips)).
Proof.
  intros Hb [_ _ Hty Hecho] He Hips r.
  assert (Hac : u16 (zlen ips)) by (unfold u16; pose proof (zlen_nonneg ips); unfold U16_MAX in *; lia).
  destruct (response_header packet extra 1 (zlen ips) (wire q ++ (ips ≫= answer_record q)) Hb He
    ltac:(done) Hac) as (Hl & Hid & Hfl & Hqc & Hn).
  destruct (Hecho _ (ips ≫= answer_record q) Hl Hqc) as (q' & Hp & Hname & Hwire).
  split.
  - unfold r. rewrite !zlen_app, Hl, answer_records_length. lia.
  - unfold read_response. unfold r. rewrite Hp, Hid, Hfl, Hn. cbn [mbind option_bind].
    rewrite Hwire, Hname. rewrite <-Hl at 1. rewrite app_assoc, <-zlen_app. unfold zlen.
    rewrite !Nat2Z.id, drop_app_length, read_records_answers by done. done.
Qed.

(** The header-only responses. *)
Lemma read_response_header packet q extra :
  bytes packet → asked packet q → extra ∈ [0; 2; 3; 0x200] →
  let r := header_only_response (query q) (Some q) extra in
  zlen r ≤ 512 ∧
  read_response r =
    Some (mkResponse (query_id packet) (response_flags packet extra) (name q) (wire q) []).
Proof.
  intros Hb Hq He. destruct (read_response_built packet q extra [] Hb Hq He ltac:(done)) as [Hl Hr].
  cbn [mbind list_bind] in Hl, Hr. rewrite app_nil_r in Hl, Hr. unfold header_only_response.
  rewrite (as_query _ _ Hq). cbn zeta. split; [|done].
  etrans; [apply Z.eq_le_incl, Hl|]. pose proof (as_wire _ _ Hq). change (sumZ _) with 0. lia.
Qed.

Lemma records_size ips : 16 * zlen ips ≤ sumZ ((λ ip, 12 + zlen (octets ip)) <$> ips).
Proof.
  induction ips as [|ip ips IH]; [done|]. rewrite fmap_cons, sumZ_cons.
  pose proof (octets_length ip) as Ho. unfold zlen in *. cbn [length].
  destruct ip; lia.
Qed.

Lemma answer_outcome packet q ips transport :
  bytes packet → asked packet q →
  let '(extra, records) := outcome q transport (Ok ips) in
  let r := answer q (host_ip_address <$> ips) transport in
  zlen r ≤ max_response_bytes transport ∧
  read_response r =
    Some (mkResponse (query_id packet) (response_flags packet extra) (name q) (wire q) records).
Proof.
  intros Hb Hq. cbn [outcome]. unfold answer, full_answer.
  set (answers := List.filter (is_answer q) (host_ip_address <$> ips)). clearbody answers.
  assert (Hmax : 512 ≤ max_response_bytes transport) by by destruct transport.
  assert (Hmax' : max_response_bytes transport ≤ 4096) by by destruct transport.
  assert (Hfail : ∀ extra, extra ∈ [0; 2; 3; 0x200] →
    zlen (header_only_response packet (Some q) extra) ≤ max_response_bytes transport ∧
    read_response (header_only_response packet (Some q) extra) =
      Some (mkResponse (query_id packet) (response_flags packet extra) (name q) (wire q) [])).
  { intros extra He. destruct (read_response_header packet q extra Hb Hq He) as [Hl Hr].
    rewrite (as_query _ _ Hq) in Hl, Hr. split; [lia|done]. }
  rewrite (as_query _ _ Hq).
  pose proof (records_size answers) as Hsize. pose proof (zlen_nonneg (wire q)).
  destruct (Z.ltb_spec U16_MAX (zlen answers)) as [Hmany|Hfew].
  { rewrite (proj2 (Z.leb_gt _ _)) by (unfold U16_MAX in *; lia).
    destruct transport; [rewrite (proj2 (Z.leb_gt _ _)) by done|]; apply (Hfail 2); repeat first [by left | right]. }
  destruct (read_response_built packet q 0 answers Hb Hq ltac:(by left) Hfew) as [Hl Hr].
  rewrite Hl.
  destruct (Z.leb_spec (12 + zlen (wire q) + sumZ ((λ ip, 12 + zlen (octets ip)) <$> answers))
    (max_response_bytes transport)) as [Hfits|_].
  - split; [|exact Hr]. etrans; [apply Z.eq_le_incl, Hl|exact Hfits].
  - destruct transport; [rewrite (proj2 (Z.leb_le _ _)) by done|];
      rewrite ?bool_decide_true, ?bool_decide_false by done;
      [apply (Hfail 0x200)|apply (Hfail 2)]; repeat first [by left | right].
Qed.

(** [resolve] answers every packet within its transport's limit (512 bytes for
    a datagram, 4096 for a stream). A packet with no question gets a bare header
    with its id and SERVFAIL. Otherwise a client that parses the response reads the
    query's id and recursion-desired bit, its question and name, and: all
    addresses of the requested family, each with type, class and a lifetime of 60
    seconds, when they fit; the truncation flag or SERVFAIL and no record when
    they do not; NXDOMAIN when the broker denies the name; SERVFAIL on any other
    error. *)
Theorem dns_resolve_answers broker_resolve transport packet :
  bytes packet →
  let r := resolve broker_resolve transport packet in
  zlen r ≤ max_response_bytes transport ∧
  match parse packet with
  | None =>
      zlen r = 12 ∧ read_u16 r 0 = Some (query_id packet) ∧
      read_u16 r 2 = Some (response_flags packet 2) ∧ read_u16 r 4 = Some 0
  | Some q =>
      let '(extra, records) := outcome q transport (broker_resolve (name q)) in
      read_response r =
        Some (mkResponse (query_id packet) (response_flags packet extra) (name q) (wire q) records)
  end.
Proof.
  intros Hb. cbn zeta. unfold resolve, error_response.
  assert (Hmax : 512 ≤ max_response_bytes transport) by by destruct transport.
  destruct (parse packet) as [q|] eqn:Hp.
  - pose proof (parse_asked packet q Hb Hp) as Hq.
    destruct (broker_resolve (name q)) as [ips|e] eqn:Hbr.
    + pose proof (answer_outcome packet q ips transport Hb Hq) as Ha.
      by destruct (outcome q transport (Ok ips)).
    + assert (Hfail : ∀ rc, zlen (error q rc) ≤ max_response_bytes transport ∧
        read_response (error q rc) = Some (mkResponse (query_id packet)
          (response_flags packet (rcode_code rc)) (name q) (wire q) [])).
      { intros rc. destruct (read_response_header packet q (rcode_code rc) Hb Hq) as [Hl Hr];
          [destruct rc; repeat first [by left | right]|]. unfold error. split; [lia|done]. }
      destruct e; apply (Hfail NxDomain) || apply (Hfail ServFail).
  - unfold header_only_response.
    destruct (response_header packet 2 0 0 [] Hb ltac:(repeat first [by left | right]) ltac:(done)
      ltac:(done)) as (Hl & Hid & Hfl & Hqc & _).
    rewrite app_nil_r in Hid, Hfl. cbn [rcode_code]. split; [lia|]. by split_and!.
Qed.

(** ** Witnesses *)

Lemma demo_query_bytes : bytes demo_query.
Proof. apply (bool_decide_unpack _). by vm_compute. Qed.

Lemma dns_question_parsed_witness :
  ∃ hdr ls tc rest, question_at demo_query hdr ls tc rest ∧
    parse demo_query = Some (question_of demo_query ls tc).
Proof.
  destruct (parse demo_query) as [q|] eqn:Hq; [|discriminate Hq].
  destruct (proj1 (dns_question_parsed demo_query q demo_query_bytes) Hq)
    as (hdr & ls & tc & rest & Hat & Heq).
  exists hdr, ls, tc, rest. split; [exact Hat|]. rewrite Heq. reflexivity.
Defined.

Definition demo_broker (name : list Z) : result BrokerError (list HostIpAddress) :=
  Ok [Ipv4 10 0 0 5; Ipv6 0x2606 0x4700 0 0 0 0 0 1].

Lemma dns_resolve_answers_witness :
  zlen (resolve demo_broker Stream demo_query) ≤ 4096 ∧
  rs_records <$> read_response (resolve demo_broker Stream demo_query) =
    Some [mkRecord 1 1 60 [10; 0; 0; 5]].
Proof.
  split; [|vm_compute; reflexivity].
  exact (proj1 (dns_resolve_answers demo_broker Stream demo_query demo_query_bytes)).
Defined.

End Dns.
