(* ===== verification/VsockQueues.v ===== *)
(** * The queues of the vsock device

    [components/vsock-frontend/src/transport.rs], the part that only touches
    guest memory: a batch of queue entries captured from one snapshot of the
    rings, the used ring entries published for a batch, and one packet read
    from or written to a descriptor chain. *)

From S2P Require Import Prelude Limits MemoryApi HostMemory SplitRing GuestCopy Mmio.
From S2P Require Import VsockPacket VsockStream Device.
Local Open Scope Z_scope.

Module VsockQueues.
Import Device.

Definition RX : Z := 0.
Definition TX : Z := 1.
Definition QUEUE_SIZE : Z := 256.
Definition DESC_BYTES : Z := SPLIT_RING_DESCRIPTOR_BYTES.
Definition MAX_CHAIN : Z := 16.
Definition MAX_PACKET : Z := VSOCK_HEADER_BYTES + MAX_PACKET_DATA_BYTES.

Record QueueBatch := mkBatch {
  size : Z;
  used_ring : Z;
  used_index : Z;
  snapshot : list Z;
  descriptor_table_offset : option Z;
  heads : list Z;
  completions : list (Z * Z);
  has_more : bool;
}.

Definition complete (completion : Z * Z) (b : QueueBatch) : QueueBatch :=
  mkBatch (size b) (used_ring b) (used_index b) (snapshot b) (descriptor_table_offset b) (heads b)
    (completions b ++ [completion]) (has_more b).
Definition without_table (b : QueueBatch) : QueueBatch :=
  mkBatch (size b) (used_ring b) (used_index b) (snapshot b) None (heads b) (completions b)
    (has_more b).

Definition descriptor_table (b : QueueBatch) : option (list Z) :=
  offset ← descriptor_table_offset b;
  slice (snapshot b) offset (offset + size b * SPLIT_RING_DESCRIPTOR_BYTES).

Definition next_head (b : QueueBatch) : option Z := heads b !! length (completions b).

Definition has_remaining (b : QueueBatch) : bool :=
  match next_head b with Some _ => true | None => has_more b end.

Definition at_ (base offset : Z) : result DeviceError Z := ok_or Unmapped (checked_add64 base offset).

Definition chain (table : list Z) (index size : Z) : result DeviceError (list SplitRingDescriptor) :=
  map_err from_ring (split_ring_chain table index size (Z.to_nat MAX_CHAIN)
    (Z.lor SPLIT_RING_DESC_F_NEXT SPLIT_RING_DESC_F_WRITE)).

(** The head in slot [next + offset] of the available ring in the snapshot. *)
Definition head_at (snapshot : list Z) (next size offset : Z) : Z :=
  let index := wrapping_add16 next offset mod size in
  from_le (take 2 (drop (Z.to_nat (4 + index * 2)) snapshot)).

(** [next] is a [&mut u16] of the caller: it is returned beside the result. *)
Definition decode_queue_batch (next available size max_steps used_ring : Z) (snapshot : list Z)
    : result DeviceError QueueBatch * Z :=
  let available_bytes := 4 + size * 2 in
  let used_offset := available_bytes + size * SPLIT_RING_DESCRIPTOR_BYTES in
  if (size =? 0) || (QUEUE_SIZE <? size) || negb (is_power_of_two size) || (max_steps =? 0)
     || negb (zlen snapshot =? used_offset + 2)
  then (Err BadLen, next) else
  let '(count, next) := resync_pending_queue_entries next available size in
  let head_count := Z.min count max_steps in
  if U16_MAX <? head_count then (Err BadLen, next) else
  (Ok (mkBatch size used_ring (from_le (take 2 (drop (Z.to_nat used_offset) snapshot))) snapshot
         (Some available_bytes) (head_at snapshot next size <$> seqZ 0 head_count) []
         (head_count <? count)), next).

(** The used ring entries of a run that does not wrap around the ring. *)
Definition used_entries (completions : list (Z * Z)) : list Z :=
  completions ≫= λ c, le_bytes 4 c.1 ++ le_bytes 4 c.2.

(** The [while] loop of [completion_ranges]; every turn takes at least one
    completion, so their number is fuel enough. *)
Fixpoint completion_loop (fuel : nat) (used_ring size index : Z) (completions : list (Z * Z))
    (ranges : list (Z * list Z)) : result DeviceError (Z * list (Z * list Z)) :=
  match fuel, completions with
  | S fuel, _ :: _ =>
      let slot := index mod size in
      let count := Z.min (zlen completions) (size - slot) in
      let data := used_entries (take (Z.to_nat count) completions) in
      offset ← at_ used_ring (4 + slot * 8);
      if U16_MAX <? count then Err BadLen else
      completion_loop fuel used_ring size (wrapping_add16 index count)
        (drop (Z.to_nat count) completions) (ranges ++ [(offset, data)])
  | _, _ => Ok (index, ranges)
  end.

Definition completion_ranges (used_ring size used_index : Z) (completions : list (Z * Z))
    : result DeviceError (list (Z * list Z)) :=
  if (size =? 0) || (QUEUE_SIZE <? size) || negb (is_power_of_two size)
     || (size <? zlen completions)
  then Err BadLen else
  if bool_decide (completions = []) then Ok [] else
  '(index, ranges) ← completion_loop (length completions) used_ring size used_index completions [];
  offset ← at_ used_ring 2;
  Ok (ranges ++ [(offset, le_bytes 2 index)]).

Definition rx_used_len (capacity : Z) (payload : list Z) : option Z :=
  if (capacity =? VSOCK_HEADER_BYTES) && negb (bool_decide (payload = [])) then Some 0 else None.

(** [reply.header] with its length replaced. *)
Definition with_len (len : Z) (h : VsockHeader) : VsockHeader :=
  mkHeader (src_cid h) (dst_cid h) (src_port h) (dst_port h) len (type_ h) (op h) (flags h)
    (buf_alloc h) (fwd_cnt h).

Section Memory.
Context {H E : Type} `{GM : !GuestMemory H E}.
(** The largest [usize] and the allocator's answers, as in [GuestCopy]. *)
Context (usize_max : Z) (try_reserve : Z → bool).
Local Open Scope st_scope.

Definition read_guest_memory (ranges : list (Z * Z)) : stM H DeviceError (list Z) :=
  @read_guest_ranges H DeviceError host_memory from_copy usize_max try_reserve ranges.
Definition write_guest_memory (ranges : list (Z * list Z)) : stM H DeviceError unit :=
  @write_guest_ranges H DeviceError host_memory from_copy usize_max ranges.

Definition read (addr len : Z) : stM H DeviceError (list Z) :=
  if MAX_PACKET <? len then st_err TooLarge else read_guest_memory [(addr, len)].
Definition write (addr : Z) (bs : list Z) : stM H DeviceError unit :=
  if MAX_PACKET <? zlen bs then st_err TooLarge else write_guest_memory [(addr, bs)].

(** [memory::read_ranges(..).map_err(|_| Unmapped)] and its sibling. *)
Definition read_snapshot : list (Z * Z) → stM H DeviceError (list Z) :=
  @gm_read_ranges _ _ host_memory.
Definition write_ranges : list (Z * list Z) → stM H DeviceError unit :=
  @gm_write_ranges _ _ host_memory.

(** The snapshot of the rings; without the descriptor table, its bytes are
    zero and the batch has no table. *)
Definition capture_snapshot (descriptor_table available_ring used_ring size : Z)
    : stM H DeviceError (list Z * bool) :=
  used_idx <- st_lift (at_ used_ring 2);;
  λ h,
  match read_snapshot [(available_ring, 4 + size * 2); (descriptor_table, size * DESC_BYTES);
                       (used_idx, 2)] h with
  | (Ok snapshot, h) => (Ok (snapshot, true), h)
  | (Err Unmapped, h) =>
      (metadata <- read_snapshot [(available_ring, 4 + size * 2); (used_idx, 2)];;
       let available_bytes := 4 + size * 2 in
       if negb (zlen metadata =? available_bytes + 2) then st_err BadLen else
       st_ret (take (Z.to_nat available_bytes) metadata
               ++ replicate (Z.to_nat (size * SPLIT_RING_DESCRIPTOR_BYTES)) 0
               ++ drop (Z.to_nat available_bytes) metadata, false)) h
  | (Err e, h) => (Err e, h)
  end.

Definition capture_queue_batch (mmio : Transport.MmioTransport) (queue next max_steps : Z)
    : H → (result DeviceError (option QueueBatch) * H) * Z :=
  λ h,
  match Transport.queue_addrs_for queue mmio with
  | None => ((Ok None, h), next)
  | Some (descriptor_table, available_ring, used_ring, size) =>
      match (a <- st_lift (at_ available_ring 2);; read_ring_index from_mmio read a) h with
      | (Err e, h) => ((Err e, h), next)
      | (Ok available, h) =>
          let '(count, next) := resync_pending_queue_entries next available size in
          if count =? 0 then ((Ok None, h), next) else
          match capture_snapshot descriptor_table available_ring used_ring size h with
          | (Err e, h) => ((Err e, h), next)
          | (Ok (snapshot, has_descriptor_table), h) =>
              match decode_queue_batch next available size max_steps used_ring snapshot with
              | (Err e, next) => ((Err e, h), next)
              | (Ok batch, next) =>
                  ((Ok (Some (if has_descriptor_table : bool then batch else without_table batch)),
                    h), next)
              end
          end
      end
  end.

(** [try_fold(0usize, checked_add)] over the lengths of descriptors. *)
Fixpoint total_len (n : Z) (ds : list SplitRingDescriptor) : option Z :=
  match ds with
  | [] => Some n
  | d :: ds => if n + d_len d <=? usize_max then total_len (n + d_len d) ds else None
  end.

Definition is_writable (d : SplitRingDescriptor) : bool :=
  negb (Z.land (d_flags d) SPLIT_RING_DESC_F_WRITE =? 0).

(** The loop over the payload descriptors. *)
Fixpoint read_payload (ds : list SplitRingDescriptor) (data : list Z) : stM H DeviceError (list Z) :=
  match ds with
  | [] => st_ret data
  | d :: ds =>
      bs <- read (d_addr d) (d_len d);;
      if negb (zlen bs =? d_len d) then st_err BadLen else read_payload ds (data ++ bs)
  end.

Definition read_tx_packet (descriptors : list SplitRingDescriptor)
    : stM H DeviceError (option (VsockHeader * list Z)) :=
  match descriptors with
  | [] => st_ret None
  | first :: rest =>
      if is_writable first || negb (d_len first =? VSOCK_HEADER_BYTES) then st_ret None else
      header_bytes <- read (d_addr first) (d_len first);;
      match parse header_bytes with
      | None => st_ret None
      | Some (header, _) =>
          let payload_len := hlen header in
          if (MAX_PACKET_DATA_BYTES <? payload_len)
             || negb (bool_decide (total_len 0 rest = Some payload_len))
             || existsb is_writable rest
          then st_ret None else
          data <- (match rest with
                   | [d] => bs <- read (d_addr d) (d_len d);;
                            if negb (zlen bs =? d_len d) then st_err BadLen else st_ret bs
                   | _ => read_payload rest []
                   end);;
          st_ret (Some (header, data))
      end
  end.

(** The loop over the descriptors of a receive buffer: what is left of the
    packet at the end. *)
Fixpoint write_chain (descriptors : list SplitRingDescriptor) (rest : list Z)
    : stM H DeviceError (list Z) :=
  match descriptors with
  | [] => st_ret rest
  | d :: ds =>
      let n := Z.to_nat (Z.min (zlen rest) (d_len d)) in
      write (d_addr d) (take n rest);;;
      let rest := drop n rest in
      if bool_decide (rest = []) then st_ret rest else write_chain ds rest
  end.

(** The reply is a [&mut Reply] of the caller: it is returned beside the
    result. *)
Definition write_rx_packet (reply : VsockStream.Reply) (descriptors : list SplitRingDescriptor) (capacity : Z)
    : H → (result DeviceError Z * VsockStream.Reply) * H :=
  λ h,
  match rx_used_len capacity (payload reply) with
  | Some len => ((Ok len, reply), h)
  | None =>
      let n := Z.min (capacity - VSOCK_HEADER_BYTES) (zlen (payload reply)) in
      if U32_MAX <? n then ((Err TooLarge, reply), h) else
      let packet := encode (with_len n (header reply)) ++ take (Z.to_nat n) (payload reply) in
      match write_chain descriptors packet h with
      | (Err e, h) => ((Err e, reply), h)
      | (Ok rest, h) =>
          if negb (bool_decide (rest = [])) then ((Err BadLen, reply), h) else
          let reply := VsockStream.mkReply (reply_number reply) (header reply)
                         (drop (Z.to_nat n) (payload reply)) in
          (if U32_MAX <? zlen packet then (Err TooLarge, reply) else (Ok (zlen packet), reply), h)
      end
  end.
End Memory.

(** ** The used ring *)


Definition valid_size (size : Z) : Prop := 0 < size ≤ QUEUE_SIZE ∧ is_power_of_two size = true.

Lemma valid_size_divides size : valid_size size → 65536 mod size = 0.
Proof.
  intros [Hs Hp].
  assert (Hall : Forall (λ n, is_power_of_two n = true → 65536 mod n = 0) (seqZ 1 256)).
  { apply (bool_decide_unpack _). by vm_compute. }
  rewrite Forall_forall in Hall. apply (Hall size); [|done]. apply elem_of_seqZ.
  unfold QUEUE_SIZE in Hs. lia.
Qed.

Lemma wrap_mod size i : valid_size size → wrap16 i mod size = i mod size.
Proof.
  intros Hs. pose proof (valid_size_divides size Hs) as Hd. destruct Hs as [Hs _].
  unfold wrap16. symmetry. rewrite (Z.div_mod i 65536) at 1 by done.
  rewrite (Z.div_mod 65536 size) at 1 by lia. rewrite Hd, Z.add_0_r.
  rewrite <-Z.mul_assoc, Z.add_comm, (Z.mul_comm size), Z.mod_add by lia. done.
Qed.

Section UsedRing.
Context (used size : Z) (Hsize : valid_size size).

Definition entry (c : Z * Z) : list Z := le_bytes 4 c.1 ++ le_bytes 4 c.2.

(** The entries written one by one. *)
Fixpoint slots (f : Z → Z) (i : Z) (cs : list (Z * Z)) : Z → Z :=
  match cs with
  | [] => f
  | c :: cs => slots (patch f (used_slot used size i) (entry c)) (wrapping_add16 i 1) cs
  end.

Lemma entry_length c : zlen (entry c) = 8.
Proof. unfold entry, zlen. by rewrite length_app, !le_bytes_length. Qed.
Lemma used_entries_cons c cs : used_entries (c :: cs) = entry c ++ used_entries cs.
Proof. done. Qed.
Lemma used_entries_length cs : zlen (used_entries cs) = 8 * zlen cs.
Proof.
  induction cs as [|c cs IH]; [done|]. rewrite used_entries_cons, zlen_app, entry_length, IH.
  unfold zlen. cbn [length]. lia.
Qed.
Lemma used_entries_bytes cs : bytes (used_entries cs).
Proof.
  induction cs as [|c cs IH]; [constructor|]. rewrite used_entries_cons. apply Forall_app.
  split; [|done]. apply Forall_app. split; apply le_bytes_bytes.
Qed.

Lemma slots_ext f g i cs : (∀ x, f x = g x) → ∀ x, slots f i cs x = slots g i cs x.
Proof.
  revert f g i. induction cs as [|c cs IH]; intros f g i Hfg x; [done|]. cbn [slots]. apply IH.
  intros y. unfold patch. by rewrite Hfg.
Qed.

Lemma slots_app f i cs ds :
  ∀ x, slots f i (cs ++ ds) x = slots (slots f i cs) (wrapping_add16 i (zlen cs)) ds x.
Proof.
  revert f i. induction cs as [|c cs IH]; intros f i x; cbn [slots app].
  - destruct ds as [|d ds]; [done|]. cbn [slots]. unfold wrapping_add16. rewrite Z.add_0_r.
    unfold used_slot. rewrite (wrap_mod size i Hsize). unfold wrap16.
    by rewrite Zplus_mod_idemp_l.
  - rewrite IH. unfold wrapping_add16, wrap16. rewrite Zplus_mod_idemp_l.
    replace (i + 1 + zlen cs) with (i + zlen (c :: cs)); [done|]. unfold zlen. cbn [length]. lia.
Qed.

(** A run that does not wrap around is one store. *)
Lemma slots_run f i cs x :
  i mod size + zlen cs ≤ size →
  slots f i cs x = patch f (used_slot used size i) (used_entries cs) x.
Proof.
  revert f i. induction cs as [|c cs IH]; intros f i Hrun.
  { cbn [slots used_entries mbind list_bind]. by rewrite patch_nil. }
  cbn [slots]. rewrite used_entries_cons, <-patch_app, entry_length.
  destruct cs as [|d cs].
  { cbn [slots used_entries mbind list_bind]. by rewrite patch_nil. }
  assert (Hi : wrapping_add16 i 1 mod size = i mod size + 1).
  { unfold wrapping_add16. rewrite wrap_mod by done. destruct Hsize as [Hs _].
    rewrite <-Zplus_mod_idemp_l. apply Z.mod_small. pose proof (Z.mod_pos_bound i size).
    unfold zlen in Hrun. cbn [length] in Hrun. lia. }
  rewrite IH by (rewrite Hi; unfold zlen in *; cbn [length] in *; lia).
  unfold used_slot. rewrite Hi. f_equal. lia.
Qed.

(** The ranges of the loop are the entries, in at most two runs. *)
Record runs (i : Z) (cs : list (Z * Z)) (rs : list (Z * list Z)) : Prop := {
  rn_patches : ∀ f x, patches f rs x = slots f i cs x;
  rn_count : zlen rs ≤ 2;
  rn_inside : Forall (λ r, used + 4 ≤ r.1 ∧ r.1 + zlen r.2 ≤ used + 4 + 8 * size ∧
                           0 < zlen r.2 ∧ bytes r.2) rs;
}.

Lemma run_range i cs :
  cs ≠ [] → i mod size + zlen cs ≤ size →
  runs i cs [(used_slot used size i, used_entries cs)].
Proof.
  intros Hne Hrun. split; [|done|].
  - intros f x. by rewrite slots_run.
  - apply Forall_singleton. cbn [fst snd]. rewrite used_entries_length. unfold used_slot.
    pose proof (Z.mod_pos_bound i size ltac:(apply Hsize)).
    assert (0 < zlen cs) by (destruct cs; [done|unfold zlen; cbn [length]; lia]).
    split_and!; [lia..|apply used_entries_bytes].
Qed.

Lemma at_ok off : 0 ≤ off ≤ 4 + 8 * size → used + 4 + 8 * size ≤ U64_MAX → at_ used off = Ok (used + off).
Proof.
  intros Ho Hu. unfold at_. by rewrite (proj2 (checked_add64_Some used off (used + off))) by lia.
Qed.

Lemma completion_loop_spec i cs :
  used + 4 + 8 * size ≤ U64_MAX → cs ≠ [] → zlen cs ≤ size →
  ∃ rs, completion_loop (length cs) used size i cs [] = Ok (wrapping_add16 i (zlen cs), rs) ∧
        runs i cs rs.
Proof.
  intros Hu Hne Hn. pose proof Hsize as [Hs _]. unfold QUEUE_SIZE in Hs.
  pose proof (Z.mod_pos_bound i size ltac:(lia)) as Hmod.
  assert (Hturn : ∀ fuel j ds acc, ds ≠ [] → zlen ds ≤ size →
    completion_loop (S fuel) used size j ds acc =
    let k := Z.min (zlen ds) (size - j mod size) in
    completion_loop fuel used size (wrapping_add16 j k) (drop (Z.to_nat k) ds)
      (acc ++ [(used_slot used size j, used_entries (take (Z.to_nat k) ds))])).
  { intros fuel j ds acc Hds Hdn. destruct ds as [|d ds]; [done|]. cbn [completion_loop].
    pose proof (Z.mod_pos_bound j size ltac:(lia)).
    rewrite at_ok by lia. rsimpl.
    rewrite (proj2 (Z.ltb_ge _ _)) by (unfold U16_MAX; lia).
    cbv zeta. unfold used_slot. do 4 f_equal. lia. }
  assert (Hend : ∀ fuel j acc, completion_loop fuel used size j [] acc = Ok (j, acc))
    by by intros [|fuel].
  destruct (length cs) as [|[|m]] eqn:Hlen; [by destruct cs| |].
  - rewrite Hturn by done. cbv zeta.
    assert (Hk : Z.min (zlen cs) (size - i mod size) = zlen cs) by (unfold zlen in *; lia).
    rewrite Hk. rewrite !to_nat_zlen, firstn_all, skipn_all, Hend.
    eexists. split; [done|]. apply run_range; [done|lia].
  - rewrite Hturn by done. cbv zeta.
    destruct (decide (zlen cs ≤ size - i mod size)) as [Hfits|Hwraps].
    + rewrite Z.min_l by done. rewrite !to_nat_zlen, firstn_all, skipn_all, Hend.
      eexists. split; [done|]. apply run_range; [done|lia].
    + rewrite Z.min_r by lia. set (k := size - i mod size) in *.
      assert (Hi' : wrapping_add16 i k mod size = 0).
      { unfold wrapping_add16. rewrite wrap_mod by done. unfold k.
        rewrite <-Zplus_mod_idemp_l. replace (i mod size + (size - i mod size)) with size by lia.
        apply Z.mod_same. lia. }
      assert (Hdl : zlen (drop (Z.to_nat k) cs) = zlen cs - k)
        by (unfold zlen in *; rewrite length_drop; lia).
      assert (Htl : zlen (take (Z.to_nat k) cs) = k) by (unfold zlen in *; rewrite length_take; lia).
      rewrite Hturn; [|intros He; rewrite He in Hdl; unfold zlen in *; cbn in Hdl; lia|lia].
      cbv zeta. rewrite Hi', Z.sub_0_r, Z.min_l by lia.
      rewrite !to_nat_zlen, firstn_all, skipn_all, Hend.
      eexists. split.
      * apply f_equal, (f_equal2 pair); [|reflexivity]. rewrite Hdl. unfold wrapping_add16, wrap16. rewrite Zplus_mod_idemp_l.
        f_equal. lia.
      * destruct (run_range i (take (Z.to_nat k) cs)) as [P1 _ I1].
        { intros He. rewrite He in Htl. unfold zlen in *. cbn in Htl. lia. }
        { lia. }
        destruct (run_range (wrapping_add16 i k) (drop (Z.to_nat k) cs)) as [P2 _ I2].
        { intros He. rewrite He in Hdl. unfold zlen in *. cbn in Hdl. lia. }
        { lia. }
        split; [|done|by apply Forall_app].
        intros f x. rewrite <-(take_drop (Z.to_nat k) cs) at 3. rewrite slots_app, Htl, <-P2.
        rewrite patches_app. apply patches_ext. apply P1.
Qed.
End UsedRing.

Section Publish.
Context {H E : Type} `{GM : !GuestMemory H E}.
Context (used size : Z) (Hsize : valid_size size).

(** [host_memory] renames errors only. *)
Ltac same_memory :=
  change (@gm_byte H DeviceError host_memory) with (@gm_byte H E GM) in *;
  change (@gm_mapped H DeviceError host_memory) with (@gm_mapped H E GM) in *;
  change (@word16 H DeviceError host_memory) with (@word16 H E GM) in *.

(** The reference: each completion through [complete_split_ring_entry]. *)
Fixpoint complete_each (cs : list (Z * Z)) : stM H DeviceError unit :=
  match cs with
  | [] => st_ret tt
  | c :: cs =>
      (complete_split_ring_entry from_mmio (@gm_read _ _ host_memory) (@gm_write _ _ host_memory)
         used size c.1 c.2;;;
       complete_each cs)%st
  end.

Definition index_bytes (i : Z) : list Z := le_bytes 2 i.
Lemma index_bytes_length i : zlen (index_bytes i) = 2.
Proof. unfold index_bytes, zlen. by rewrite le_bytes_length. Qed.

Lemma slots_index f w i cs x :
  slots used size (patch f (used + 2) (index_bytes w)) i cs x =
  patch (slots used size f i cs) (used + 2) (index_bytes w) x.
Proof.
  revert f i. induction cs as [|c cs IH]; intros f i; [done|]. cbn [slots]. rewrite <-IH.
  apply slots_ext. intros y. apply patch_comm. rewrite index_bytes_length. unfold used_slot.
  pose proof (Z.mod_pos_bound i size ltac:(apply Hsize)). lia.
Qed.

Lemma complete_each_spec h cs :
  gm_mapped h used (4 + 8 * size) → cs ≠ [] →
  let i := word16 h (used + 2) in
  ∃ h', complete_each cs h = (Ok tt, h') ∧
    (∀ x, gm_byte h' x = patch (slots used size (gm_byte h) i cs) (used + 2)
                           (index_bytes (wrapping_add16 i (zlen cs))) x) ∧
    (∀ a n, gm_mapped h' a n ↔ gm_mapped h a n).
Proof.
  intros Hm Hne i. pose proof Hsize as [Hs _]. unfold QUEUE_SIZE in Hs.
  destruct cs as [|c cs]; [done|]. clear Hne. revert h c Hm i.
  induction cs as [|d cs IH]; intros h c Hm i.
  - destruct (@complete_entry_patches H DeviceError host_memory from_mmio h used size c.1 c.2
      ltac:(lia) Hm) as (h' & Hc & Hx & Hmap); same_memory.
    exists h'. unfold complete_each, st_bind. rewrite Hc. by split.
  - destruct (@complete_entry_patches H DeviceError host_memory from_mmio h used size c.1 c.2
      ltac:(lia) Hm) as (h1 & Hc & Hx & Hmap); same_memory.
    cbn [complete_each]. unfold st_bind at 1. rewrite Hc.
    destruct (IH h1 d ltac:(by apply Hmap)) as (h' & Hc' & Hx' & Hmap'). exists h'.
    split; [exact Hc'|]. split; [|intros; by rewrite Hmap', Hmap].
    assert (Hw : word16 h1 (used + 2) = wrapping_add16 i 1).
    { unfold word16 at 1. etrans; [apply f_equal, peek_ext; intros x _; apply Hx|].
      change 2 with (zlen (index_bytes (wrapping_add16 i 1))) at 2.
      rewrite peek_patch_same. apply from_le_le_bytes. unfold wrapping_add16, wrap16.
      by apply Z.mod_pos_bound. }
    intros x. rewrite Hx', Hw. cbn [slots].
    etrans; [apply patch_ext; intros y;
      apply (slots_ext used size (gm_byte h1) _ _ (d :: cs) Hx y)|].
    etrans; [apply patch_ext; intros y; apply slots_index|].
    rewrite patch_over by by rewrite !index_bytes_length.
    f_equal. f_equal. unfold wrapping_add16, wrap16. rewrite Zplus_mod_idemp_l. f_equal.
    unfold zlen. cbn [length]. lia.
Qed.

Lemma completion_ranges_spec h cs :
  gm_mapped h used (4 + 8 * size) → cs ≠ [] → zlen cs ≤ size →
  let i := word16 h (used + 2) in
  ∃ rs h', completion_ranges used size i cs = Ok rs ∧ write_ranges rs h = (Ok tt, h') ∧
    (∀ x, gm_byte h' x = patch (slots used size (gm_byte h) i cs) (used + 2)
                           (index_bytes (wrapping_add16 i (zlen cs))) x) ∧
    (∀ a n, gm_mapped h' a n ↔ gm_mapped h a n).
Proof.
  intros Hm Hne Hn i. pose proof Hsize as [Hs Hp]. unfold QUEUE_SIZE in Hs.
  pose proof (gm_mapped_u64 _ _ _ Hm) as [Hu0 Hu].
  destruct (completion_loop_spec used size Hsize i cs) as (rs & Hloop & [Hpt Hcnt Hin]); [lia|done..|].
  assert (Hr : completion_ranges used size i cs =
    Ok (rs ++ [(used + 2, index_bytes (wrapping_add16 i (zlen cs)))])).
  { unfold completion_ranges. rewrite Hp, (proj2 (Z.eqb_neq _ _)), !(proj2 (Z.ltb_ge _ _))
      by (unfold QUEUE_SIZE; lia). cbn [negb orb]. rewrite bool_decide_false by done.
    rewrite Hloop. rsimpl. by rewrite (at_ok used size) by lia. }
  assert (Hlen : Forall (λ n, 0 < n ≤ MAX_SINGLE_GUEST_COPY_BYTES) ((λ r, zlen r.2) <$> rs) ∧
    sumZ ((λ r, zlen r.2) <$> rs) ≤ zlen rs * (8 * size)).
  { clear -Hin Hs. induction Hin as [|r rs (? & ? & ? & ?) _ [IH1 IH2]]; [done|].
    rewrite fmap_cons, sumZ_cons. replace (zlen (r :: rs)) with (1 + zlen rs)
      by (unfold zlen; cbn [length]; lia).
    unfold MAX_SINGLE_GUEST_COPY_BYTES in *. split; [constructor; [lia|done]|lia]. }
  destruct Hlen as [Hl1 Hl2].
  destruct (@gm_write_ranges_ok H DeviceError host_memory h
    (rs ++ [(used + 2, index_bytes (wrapping_add16 i (zlen cs)))])) as (h' & Hw & Hx & Hmap); same_memory.
  - rewrite fmap_app. split_and!.
    + rewrite zlen_app. unfold zlen in *. rewrite length_fmap. cbn [length fmap list_fmap].
      unfold MAX_BATCH_GUEST_COPY_RANGES. lia.
    + apply Forall_app. split; [done|]. apply Forall_singleton. cbn [snd].
      rewrite index_bytes_length. by unfold MAX_SINGLE_GUEST_COPY_BYTES.
    + rewrite sumZ_app. cbn [fmap list_fmap snd]. rewrite index_bytes_length.
      unfold sumZ at 2. cbn [foldr]. unfold MAX_BATCH_GUEST_COPY_BYTES, MAX_COMPONENT_HOSTCALL_BYTES.
      pose proof (zlen_nonneg rs). nia.
  - apply Forall_app. split.
    + eapply Forall_impl; [exact Hin|]. intros r (? & ? & ? & ?). split; [done|].
      eapply gm_mapped_sub; [exact Hm|lia..].
    + apply Forall_singleton. cbn [fst snd]. rewrite index_bytes_length.
      split; [apply le_bytes_bytes|]. eapply gm_mapped_sub; [exact Hm|lia..].
  - exists (rs ++ [(used + 2, index_bytes (wrapping_add16 i (zlen cs)))]), h'.
    split_and!; [done|done| |done]. intros x. rewrite Hx, patches_app.
    apply patch_ext. intros y. apply Hpt.
Qed.

(** Publishing a batch of completions writes exactly what completing its
    entries one by one through [complete_split_ring_entry] would: both succeed when
    the used ring is guest RAM, and leave the same memory, although the batch is
    cut into at most two runs at the end of the ring and the used index is stored
    once. *)
Theorem batch_published h cs :
  gm_mapped h used (4 + 8 * size) → cs ≠ [] → zlen cs ≤ size →
  ∃ rs h1 h2,
    completion_ranges used size (word16 h (used + 2)) cs = Ok rs ∧
    write_ranges rs h = (Ok tt, h1) ∧ complete_each cs h = (Ok tt, h2) ∧
    (∀ x, gm_byte h1 x = gm_byte h2 x) ∧ (∀ a n, gm_mapped h1 a n ↔ gm_mapped h2 a n).
Proof.
  intros Hm Hne Hn. destruct (completion_ranges_spec h cs Hm Hne Hn) as (rs & h1 & Hr & Hw & Hx & Hmap).
  destruct (complete_each_spec h cs Hm Hne) as (h2 & Hc & Hx2 & Hmap2).
  exists rs, h1, h2. split_and!; [done..| |].
  - intros x. by rewrite Hx, Hx2.
  - intros a n. by rewrite Hmap, Hmap2.
Qed.
End Publish.

(** ** Capturing a batch *)

Section Capture.
Context {H E : Type} `{GM : !GuestMemory H E}.
Context (usize_max : Z) (try_reserve : Z → bool).
Context (Husize : U32_MAX ≤ usize_max ≤ U64_MAX) (Hreserve : ∀ n, n ≤ MAX_PACKET → try_reserve n = true).

Lemma read_mapped h a n :
  0 ≤ n ≤ MAX_PACKET → 0 ≤ a ≤ U64_MAX → (n ≠ 0 → gm_mapped h a n) →
  read usize_max try_reserve a n h = (Ok (peek (gm_byte h) a n), h).
Proof.
  intros Hn Ha Hm. unfold read. rewrite (proj2 (Z.ltb_ge _ _)) by lia. unfold read_guest_memory.
  assert (Hmax : MAX_PACKET ≤ U32_MAX) by by vm_compute.
  assert (Hchunk : CHUNK ≤ U32_MAX) by by vm_compute.
  rewrite (@read_guest_ranges_ok H DeviceError host_memory).
  - by rewrite bind_cons, app_nil_r.
  - apply Forall_singleton. cbn [fst snd]. split_and!; [lia..|done].
  - lia.
  - unfold sumZ. cbn. lia.
  - apply Hreserve. unfold sumZ. cbn. lia.
Qed.

Lemma read_index_mapped h a :
  gm_mapped h a 2 →
  read_ring_index from_mmio (read usize_max try_reserve) a h = (Ok (word16 h a), h).
Proof.
  intros Hm. pose proof (gm_mapped_u64 h a 2 Hm). unfold read_ring_index, st_bind.
  rewrite read_mapped by (done || (split; [done|by vm_compute]) || lia).
  by rewrite peek_length.
Qed.

(** The batch that takes [n] entries from [next] on. *)
Definition batch_of (h : H) (table avail used size next n : Z) (more : bool) : QueueBatch :=
  mkBatch size used (word16 h (used + 2))
    (peek (gm_byte h) avail (4 + size * 2) ++ peek (gm_byte h) table (size * 16)
     ++ peek (gm_byte h) (used + 2) 2)
    (Some (4 + size * 2))
    ((λ k, word16 h (avail + 4 + 2 * ((next + k) mod size))) <$> seqZ 0 n) [] more.

Lemma capture_snapshot_mapped h table avail used size :
  valid_size size → gm_mapped h avail (4 + size * 2) → gm_mapped h table (size * 16) →
  gm_mapped h used (4 + 8 * size) →
  capture_snapshot table avail used size h =
  (Ok (snapshot (batch_of h table avail used size 0 0 false), true), h).
Proof.
  intros [Hs _] Ha Ht Hu. unfold QUEUE_SIZE in Hs. pose proof (gm_mapped_u64 _ _ _ Hu) as [? ?].
  unfold capture_snapshot, st_bind, st_lift. rewrite (at_ok used size) by lia.
  unfold read_snapshot, DESC_BYTES, SPLIT_RING_DESCRIPTOR_BYTES.
  rewrite (@gm_read_ranges_ok H DeviceError host_memory).
  - by rewrite !bind_cons, app_nil_r.
  - split_and!; [done| |].
    + cbn [fmap list_fmap snd]. unfold MAX_SINGLE_GUEST_COPY_BYTES. repeat constructor; lia.
    + cbn [fmap list_fmap snd]. unfold sumZ, MAX_BATCH_GUEST_COPY_BYTES, MAX_COMPONENT_HOSTCALL_BYTES.
      cbn [foldr]. lia.
  - repeat (apply Forall_cons; split; [cbn [fst snd]|]); [done|done| |done].
    eapply gm_mapped_sub; [exact Hu|lia..].
Qed.

Lemma decode_batch h table avail used size next max_steps :
  valid_size size → 0 < max_steps → u16 next →
  let available := word16 h (avail + 2) in
  let n := wrapping_sub16 available next in
  n ≤ size →
  decode_queue_batch next available size max_steps used
    (snapshot (batch_of h table avail used size 0 0 false)) =
  (Ok (batch_of h table avail used size next (Z.min n max_steps) (max_steps <? n)), next).
Proof.
  intros Hv Hmx Hnx available n Hn. pose proof Hv as [Hs Hp]. unfold QUEUE_SIZE in Hs.
  assert (Hsn : snapshot (batch_of h table avail used size 0 0 false) =
    peek (gm_byte h) avail (4 + size * 2) ++ peek (gm_byte h) table (size * 16)
    ++ peek (gm_byte h) (used + 2) 2) by done.
  set (sn := snapshot _) in *. clearbody sn.
  assert (Hlen : zlen sn = 4 + size * 2 + size * 16 + 2).
  { rewrite Hsn, !zlen_app, !peek_length by lia. lia. }
  assert (Hn0 : 0 ≤ n) by (unfold n, wrapping_sub16, wrap16; by apply Z.mod_pos_bound).
  unfold decode_queue_batch. rewrite Hp, Hlen. unfold SPLIT_RING_DESCRIPTOR_BYTES.
  rewrite !(proj2 (Z.eqb_neq _ _)), !(proj2 (Z.ltb_ge _ _)), Z.eqb_refl
    by (unfold QUEUE_SIZE; lia). cbn [negb orb].
  unfold resync_pending_queue_entries. fold n. rewrite (proj2 (Z.eqb_neq size 0)) by lia.
  rewrite (proj2 (Z.leb_le n size)) by lia. cbn [negb andb].
  rewrite (proj2 (Z.ltb_ge U16_MAX _)) by (unfold U16_MAX; lia).
  f_equal. unfold batch_of. f_equal. rewrite <-Hsn. f_equal.
  - unfold word16. f_equal. rewrite Hsn, app_assoc.
    replace (Z.to_nat (4 + size * 2 + size * 16))
      with (length (peek (gm_byte h) avail (4 + size * 2) ++ peek (gm_byte h) table (size * 16))).
    2:{ rewrite length_app. unfold peek. rewrite !length_fmap, !length_seqZ. lia. }
    rewrite drop_app_length. by rewrite take_ge by (unfold peek; by rewrite length_fmap, length_seqZ).
  - apply list_fmap_ext. intros i k Hk. apply lookup_seqZ in Hk as [-> Hk].
    unfold head_at, word16. f_equal. unfold wrapping_add16. rewrite wrap_mod by done.
    pose proof (Z.mod_pos_bound (next + (0 + Z.of_nat i)) size ltac:(lia)) as Hm.
    set (idx := (next + (0 + Z.of_nat i)) mod size) in *.
    rewrite Hsn, drop_app_le, take_app_le;
      [|rewrite length_drop|]; try (unfold peek; rewrite length_fmap, length_seqZ; lia).
    change 2%nat with (Z.to_nat 2). rewrite peek_part by lia. f_equal. lia.
  - lia.
Qed.

(** With the rings of an armed queue in guest RAM, one capture equals reading
    the queue entry by entry: it takes the pending entries, at most [max_steps],
    and the [k]-th head is the one [read_split_ring_available] would return after
    [k] completions; the batch records the used index, whether entries are left,
    and the whole descriptor table; [next] is kept until the batch is published.
    With nothing pending, or more claimed than the queue holds, there is no batch
    and the device resynchronises with the driver. *)
Theorem batch_captured h mmio queue table avail used size next max_steps :
  Transport.queue_addrs_for queue mmio = Some (table, avail, used, size) →
  valid_size size → gm_mapped h avail (4 + size * 2) → gm_mapped h table (size * 16) →
  gm_mapped h used (4 + 8 * size) → 0 < max_steps → u16 next →
  let n := SplitRing.pending h avail size next in
  capture_queue_batch usize_max try_reserve mmio queue next max_steps h =
    (if n =? 0 then ((Ok None, h), word16 h (avail + 2))
     else ((Ok (Some (batch_of h table avail used size next (Z.min n max_steps) (max_steps <? n))),
            h), next)) ∧
  (∀ k, 0 ≤ k < n →
     read_split_ring_available from_mmio (@gm_read _ _ host_memory) avail size
       (wrapping_add16 next k) h =
     ((Ok (word16 h (avail + 2), Some (word16 h (avail + 4 + 2 * ((next + k) mod size)))), h),
      wrapping_add16 next k)) ∧
  (n ≠ 0 → ∀ m more, descriptor_table (batch_of h table avail used size next m more) =
                     Some (peek (gm_byte h) table (size * 16))).
Proof.
  intros Hq Hv Ha Ht Hu Hmx Hnx n. pose proof Hv as [Hs _]. unfold QUEUE_SIZE in Hs.
  pose proof (gm_mapped_u64 _ _ _ Ha) as [? ?]. split_and!.
  - unfold capture_queue_batch. rewrite Hq. unfold st_bind, st_lift.
    assert (Hat : at_ avail 2 = Ok (avail + 2)).
    { unfold at_. by rewrite (proj2 (checked_add64_Some avail 2 (avail + 2))) by lia. }
    rewrite Hat, read_index_mapped by (eapply gm_mapped_sub; [exact Ha|lia..]).
    unfold n, SplitRing.pending, resync_pending_queue_entries.
    rewrite (proj2 (Z.eqb_neq size 0)) by lia. cbn [negb andb].
    pose proof (word16_u16 h (avail + 2)) as Hw.
    destruct (Z.leb_spec (wrapping_sub16 (word16 h (avail + 2)) next) size) as [Hle|]; [|done].
    destruct (Z.eqb_spec (wrapping_sub16 (word16 h (avail + 2)) next) 0) as [Hz|Hnz].
    { f_equal. unfold_ints. unfold wrapping_sub16, wrap16 in Hz.
      apply Z.mod_divide in Hz as [q Hz]; [|done]. lia. }
    rewrite capture_snapshot_mapped by done.
    by rewrite (decode_batch h table avail used size next max_steps Hv Hmx Hnx Hle).
  - intros k Hk. unfold n, SplitRing.pending in Hk.
    pose proof (word16_u16 h (avail + 2)) as Hw.
    set (a := word16 h (avail + 2)) in *.
    destruct (Z.leb_spec (wrapping_sub16 a next) size) as [Hle|]; [|lia].
    assert (Hsub : wrapping_sub16 a (wrapping_add16 next k) = wrapping_sub16 a next - k).
    { unfold wrapping_sub16, wrapping_add16, wrap16 in *.
      rewrite Zminus_mod_idemp_r. replace (a - (next + k)) with (a - next - k) by lia.
      rewrite <-Zminus_mod_idemp_l. apply Z.mod_small.
      pose proof (Z.mod_pos_bound (a - next) 65536). lia. }
    rewrite (@read_available_spec H DeviceError host_memory);
      [|lia|by replace (4 + 2 * size) with (4 + size * 2) by lia
       |unfold wrapping_add16, wrap16, u16; by apply Z.mod_pos_bound].
    change (@SplitRing.pending H DeviceError host_memory) with (@SplitRing.pending H E GM).
    change (@word16 H DeviceError host_memory) with (@word16 H E GM).
    unfold SplitRing.pending. fold a. rewrite Hsub.
    rewrite (proj2 (Z.leb_le _ _)), (proj2 (Z.eqb_neq _ _)) by lia.
    unfold wrapping_add16. by rewrite wrap_mod.
  - intros _ m more. unfold descriptor_table, batch_of.
    cbn [descriptor_table_offset snapshot VsockQueues.size mbind option_bind].
    replace (4 + size * 2) with (zlen (peek (gm_byte h) avail (4 + size * 2))) at 2 3
      by (rewrite peek_length; lia).
    replace (size * SPLIT_RING_DESCRIPTOR_BYTES) with (zlen (peek (gm_byte h) table (size * 16)))
      by (rewrite peek_length; unfold SPLIT_RING_DESCRIPTOR_BYTES; lia).
    apply slice_mid.
Qed.
End Capture.

(** ** Packets in descriptor chains *)

Section Packets.
Context {H E : Type} `{GM : !GuestMemory H E}.
Context (usize_max : Z) (try_reserve : Z → bool).

Definition ranges_of (ds : list SplitRingDescriptor) : list (Z * Z) := (λ d, (d_addr d, d_len d)) <$> ds.

(** The stores that spread a packet over a chain. *)
Fixpoint scatter (ds : list SplitRingDescriptor) (rest : list Z) : list (Z * list Z) :=
  match ds with
  | [] => []
  | d :: ds =>
      let n := Z.to_nat (Z.min (zlen rest) (d_len d)) in
      (d_addr d, take n rest) ::
      (if bool_decide (drop n rest = []) then [] else scatter ds (drop n rest))
  end.

Lemma only_in_refl rs (h : H) : only_in rs h h.
Proof. done. Qed.
Lemma only_in_trans rs (h1 h2 h3 : H) : only_in rs h1 h2 → only_in rs h2 h3 → only_in rs h1 h3.
Proof.
  intros [H1 M1] [H2 M2]. split; [|intros; by rewrite M2].
  intros x Hx. by rewrite H2, H1.
Qed.
Lemma only_in_mono rs rs' (h h' : H) :
  (∀ x, Forall (λ r, ¬ (r.1 ≤ x < r.1 + r.2)) rs' → Forall (λ r, ¬ (r.1 ≤ x < r.1 + r.2)) rs) →
  only_in rs h h' → only_in rs' h h'.
Proof. intros Hsub [H1 M1]. split; [|done]. intros x Hx. by apply H1, Hsub. Qed.

Lemma write_inv h a bs r h' :
  bytes bs → write usize_max a bs h = (r, h') →
  only_in [(a, zlen bs)] h h' ∧ (r = Ok tt → after_stores h [(a, bs)] h').
Proof.
  intros Hb. unfold write. destruct (_ <? _); [by intros [= <- <-]|]. intros Hw.
  apply (@write_guest_ranges_inv H DeviceError host_memory) in Hw; [exact Hw|].
  by apply Forall_singleton.
Qed.

Lemma write_chain_inv ds rest h r h' :
  Forall (λ d, 0 ≤ d_len d) ds → bytes rest → write_chain usize_max ds rest h = (r, h') →
  only_in (ranges_of ds) h h' ∧
  (∀ left, r = Ok left → after_stores h (scatter ds rest) h' ∧
     rest = concat (scatter ds rest).*2 ++ left ∧
     (sumZ (d_len <$> ds) < zlen rest ∨ left = [] ∨ ds = [])).
Proof.
  intros Hds. revert rest h. induction Hds as [|d ds Hd Hds IH]; intros rest h Hb; cbn [write_chain].
  { intros [= <- <-]. split; [done|]. intros left [= ->]. split_and!; [done|done|by right; right]. }
  set (n := Z.min (zlen rest) (d_len d)). pose proof (zlen_nonneg rest) as Hz.
  assert (Htake : zlen (take (Z.to_nat n) rest) = n) by (unfold zlen in *; rewrite length_take; lia).
  assert (Hdrop : zlen (drop (Z.to_nat n) rest) = zlen rest - n)
    by (unfold zlen in *; rewrite length_drop; lia).
  unfold st_bind. destruct (write usize_max (d_addr d) _ h) as [r1 h1] eqn:Hw.
  apply write_inv in Hw as [Hin Hst]; [|by apply Forall_take].
  assert (Hin1 : only_in (ranges_of (d :: ds)) h h1).
  { eapply only_in_mono; [|exact Hin]. intros x Hx. apply Forall_cons in Hx as [Hx _].
    cbn [fst snd] in Hx. apply Forall_singleton. cbn [fst snd]. rewrite Htake. lia. }
  destruct r1 as [[]|e]; [|intros [= <- <-]; by split].
  specialize (Hst eq_refl). cbn [scatter]. fold n.
  case_bool_decide as Hend.
  - intros [= <- <-]. split; [done|]. intros left [= <-]. rewrite Hend.
    split_and!; [done| |by right; left]. cbn [fmap list_fmap concat snd].
    by rewrite <-(take_drop (Z.to_nat n) rest), Hend, !app_nil_r at 1.
  - intros Hr. destruct (IH (drop (Z.to_nat n) rest) h1 (Forall_drop _ _ _ Hb) Hr) as [Hin2 Hok].
    split.
    { eapply only_in_trans; [done|]. eapply only_in_mono; [|exact Hin2].
      intros x Hx. by apply Forall_cons in Hx as [_ Hx]. }
    intros left ->. destruct (Hok left eq_refl) as ([Hx Hm] & Hrest & Hleft). split_and!.
    + destruct Hst as [Hx1 Hm1]. split; [|intros; by rewrite Hm].
      intros x. rewrite Hx.
      change (patches (gm_byte h) (?w :: ?ws) x) with (patches (patch (gm_byte h) w.1 w.2) ws x).
      apply patches_ext. intros y. apply Hx1.
    + cbn [fmap list_fmap concat snd]. rewrite <-app_assoc, <-Hrest. by rewrite take_drop.
    + assert (Hn : n ≠ zlen rest).
      { intros Hn. apply Hend, length_zero_iff_nil. unfold zlen in Hdrop, Hn. lia. }
      rewrite fmap_cons, sumZ_cons. destruct Hleft as [Hl|[->| ->]]; [left; lia|by right; left|].
      left. change (sumZ (d_len <$> [])) with 0. lia.
Qed.

Lemma total_len_sum n ds m : total_len usize_max n ds = Some m → m = n + sumZ (d_len <$> ds).
Proof.
  revert n. induction ds as [|d ds IH]; intros n; cbn [total_len].
  - intros [= <-]. change (sumZ (d_len <$> [])) with 0. lia.
  - destruct (_ <=? _); [|done]. intros ->%IH. rewrite fmap_cons, sumZ_cons. lia.
Qed.

(** A chain in guest RAM takes all it can hold. *)
Lemma write_mapped h a bs :
  U32_MAX ≤ usize_max → bytes bs → zlen bs ≤ MAX_PACKET → 0 ≤ a ≤ U64_MAX →
  (bs ≠ [] → gm_mapped h a (zlen bs)) → is_ok (write usize_max a bs h).1 = true.
Proof.
  intros Hu Hb Hl Ha Hm. unfold write. rewrite (proj2 (Z.ltb_ge _ _)) by lia.
  assert (Hchunk : CHUNK ≤ U32_MAX) by by vm_compute. unfold write_guest_memory.
  destruct (@write_guest_ranges_ok H DeviceError host_memory from_copy usize_max h [(a, bs)])
    as (h' & -> & _); [|lia|done]. apply Forall_singleton. cbn [fst snd]. split_and!; [done|lia..|done].
Qed.

Lemma write_chain_mapped ds rest h :
  U32_MAX ≤ usize_max → bytes rest → zlen rest ≤ MAX_PACKET →
  Forall (λ d, 0 ≤ d_len d ∧ 0 ≤ d_addr d ≤ U64_MAX ∧
               (d_len d ≠ 0 → gm_mapped h (d_addr d) (d_len d))) ds →
  is_ok (write_chain usize_max ds rest h).1 = true.
Proof.
  intros Hu. revert rest h. induction ds as [|d ds IH]; intros rest h Hb Hl Hds; [done|].
  apply Forall_cons in Hds as [(Hd & Ha & Hm) Hds]. cbn [write_chain]. unfold st_bind.
  set (n := Z.min (zlen rest) (d_len d)). pose proof (zlen_nonneg rest).
  assert (Htake : zlen (take (Z.to_nat n) rest) = n) by (unfold zlen in *; rewrite length_take; lia).
  pose proof (write_mapped h (d_addr d) (take (Z.to_nat n) rest) Hu (Forall_take _ _ _ Hb)
    ltac:(lia) Ha) as Hw.
  destruct (write usize_max (d_addr d) _ h) as [[[]|e] h1] eqn:Hwr; cbn [fst is_ok] in Hw.
  - apply write_inv in Hwr as [[_ Hmap] _]; [|by apply Forall_take].
    case_bool_decide; [done|]. apply IH.
    + by apply Forall_drop.
    + unfold zlen in *. rewrite length_drop. lia.
    + eapply Forall_impl; [exact Hds|]. intros d' (? & ? & Hm'). split_and!; [done|lia..|].
      intros. by apply Hmap, Hm'.
  - apply Hw. intros Hne. rewrite Htake. eapply gm_mapped_sub; [apply Hm|..]; try lia.
    + intros Hz. apply Hne. by replace (Z.to_nat n) with 0%nat by lia.
    + destruct (decide (n = 0)) as [Hn|]; [|lia]. exfalso. apply Hne.
      by replace (Z.to_nat n) with 0%nat by lia.
Qed.

(** The bytes of one receive packet that carries [n] bytes of the reply. *)
Definition packet_of (reply : VsockStream.Reply) (n : Z) : list Z :=
  encode (with_len n (header reply)) ++ take (Z.to_nat n) (payload reply).

Lemma rx_packet_spec reply ds capacity h r reply' h' :
  Forall (λ d, 0 ≤ d_len d) ds → bytes (payload reply) →
  total_len usize_max 0 ds = Some capacity → VSOCK_HEADER_BYTES ≤ capacity ≤ MAX_PACKET →
  write_rx_packet usize_max reply ds capacity h = ((r, reply'), h') →
  only_in (ranges_of ds) h h' ∧
  (U32_MAX ≤ usize_max →
   Forall (λ d, 0 ≤ d_addr d ≤ U64_MAX ∧ (d_len d ≠ 0 → gm_mapped h (d_addr d) (d_len d))) ds →
   is_ok r = true) ∧
  match r with
  | Err _ => reply' = reply
  | Ok len =>
      (capacity = VSOCK_HEADER_BYTES ∧ payload reply ≠ [] ∧ len = 0 ∧ reply' = reply ∧ h' = h) ∨
      ∃ n, n = Z.min (capacity - VSOCK_HEADER_BYTES) (zlen (payload reply)) ∧
        (payload reply ≠ [] → 0 < n) ∧ len = VSOCK_HEADER_BYTES + n ∧
        header reply' = header reply ∧ reply_number reply' = reply_number reply ∧
        payload reply = take (Z.to_nat n) (payload reply) ++ payload reply' ∧
        after_stores h (scatter ds (packet_of reply n)) h' ∧
        concat (scatter ds (packet_of reply n)).*2 = packet_of reply n
  end.
Proof.
  intros Hds Hb Htot Hcap. unfold write_rx_packet, rx_used_len.
  apply total_len_sum in Htot. rewrite Z.add_0_l in Htot.
  destruct ((capacity =? VSOCK_HEADER_BYTES) && _) eqn:Hnone.
  { intros [= <- <- <-]. breflect. split; [done|]. split; [done|]. by left. }
  set (n := Z.min (capacity - VSOCK_HEADER_BYTES) (zlen (payload reply))).
  assert (Hmax : MAX_PACKET ≤ U32_MAX) by by vm_compute.
  pose proof (zlen_nonneg (payload reply)) as Hz.
  assert (Hn : 0 ≤ n ≤ capacity - VSOCK_HEADER_BYTES) by (unfold n; lia).
  rewrite (proj2 (Z.ltb_ge _ _)) by (unfold VSOCK_HEADER_BYTES in *; lia).
  fold (packet_of reply n).
  assert (Hpb : bytes (packet_of reply n)).
  { apply Forall_app. split; [|by apply Forall_take]. unfold encode.
    repeat (apply Forall_app; split); apply le_bytes_bytes. }
  assert (Hpl : zlen (packet_of reply n) = VSOCK_HEADER_BYTES + n).
  { unfold packet_of. rewrite zlen_app. unfold zlen at 1. rewrite encode_length.
    unfold zlen. rewrite length_take. unfold VSOCK_HEADER_BYTES, zlen in *. lia. }
  pose proof (write_chain_mapped ds (packet_of reply n) h) as Hmap.
  assert (Hne0 : ds ≠ []) by (intros ->; change (sumZ (d_len <$> [])) with 0 in Htot;
    unfold VSOCK_HEADER_BYTES in *; lia).
  destruct (write_chain usize_max ds (packet_of reply n) h) as [[left|e] h1] eqn:Hw;
    (apply write_chain_inv in Hw as [Hin Hok]; [|done|done]).
  2:{ intros [= <- <- <-]. split; [done|]. split; [|done]. intros Hu Hall. apply Hmap; [done..|lia|].
      rewrite Forall_forall in Hds, Hall |- *. intros d Hd. split; [by apply Hds|by apply Hall]. }
  destruct (Hok left eq_refl) as (Hst & Hcat & Hleft).
  assert (Hl : left = []) by (destruct Hleft as [?|[?|?]]; [lia|done|done]).
  rewrite bool_decide_true by done. cbn [negb].
  rewrite Hpl, (proj2 (Z.ltb_ge _ _)) by lia. intros [= <- <- <-]. split; [done|]. split; [done|]. right.
  exists n. rewrite Hl, app_nil_r in Hcat. split_and!; try done.
  - intros Hne. assert (0 < zlen (payload reply)).
    { destruct (payload reply); [done|unfold zlen; cbn [length]; lia]. }
    apply andb_false_iff in Hnone as [Hc|Hc]; breflect; [unfold n; lia|done].
  - cbn [payload]. by rewrite take_drop.
Qed.

(** Filling one receive buffer of the guest, whatever the host answers,
    touches no byte outside the buffer's descriptors. When it succeeds, either
    the buffer has no room for payload and is returned unused with the reply
    kept whole, or the stores are exactly one packet spread over the chain in
    order: the reply's header with its length set to the [n] bytes that fit, and
    the first [n] bytes of the payload, which are then removed from the reply.
    So successive buffers receive the payload in order, each byte once; a packet
    with payload carries at least one byte. A failed store leaves the reply
    whole, and with the buffer in guest RAM no store fails. *)
Theorem rx_packet_written reply ds capacity h r reply' h' :
  Forall (λ d, 0 ≤ d_len d) ds → bytes (payload reply) →
  total_len usize_max 0 ds = Some capacity → VSOCK_HEADER_BYTES ≤ capacity ≤ MAX_PACKET →
  write_rx_packet usize_max reply ds capacity h = ((r, reply'), h') →
  only_in (ranges_of ds) h h' ∧
  (U32_MAX ≤ usize_max →
   Forall (λ d, 0 ≤ d_addr d ≤ U64_MAX ∧ (d_len d ≠ 0 → gm_mapped h (d_addr d) (d_len d))) ds →
   is_ok r = true) ∧
  match r with
  | Err _ => reply' = reply
  | Ok len =>
      (capacity = VSOCK_HEADER_BYTES ∧ payload reply ≠ [] ∧ len = 0 ∧ reply' = reply ∧ h' = h) ∨
      ∃ n, n = Z.min (capacity - VSOCK_HEADER_BYTES) (zlen (payload reply)) ∧
        (payload reply ≠ [] → 0 < n) ∧ len = VSOCK_HEADER_BYTES + n ∧
        header reply' = header reply ∧ reply_number reply' = reply_number reply ∧
        payload reply = take (Z.to_nat n) (payload reply) ++ payload reply' ∧
        after_stores h (scatter ds (packet_of reply n)) h' ∧
        concat (scatter ds (packet_of reply n)).*2 = packet_of reply n
  end.
Proof. apply rx_packet_spec. Qed.
End Packets.

(** ** What the device learns from a hostile guest

    These hold whatever the memory contains and whichever calls fail. *)

Section Hostile.
Context {H E : Type} `{GM : !GuestMemory H E}.
Context (usize_max : Z) (try_reserve : Z → bool).

Lemma read_pure a n h : (read usize_max try_reserve a n h).2 = h.
Proof.
  unfold read. destruct (_ <? _); [done|].
  apply (@read_guest_ranges_pure H DeviceError host_memory).
Qed.

Lemma read_contents a n h bs :
  0 < n ≤ CHUNK → (read usize_max try_reserve a n h).1 = Ok bs → bs = peek (gm_byte h) a n.
Proof.
  intros Hn. unfold read. destruct (_ <? _); [done|]. intros Hr.
  destruct (read_guest_memory _ _ _ h) as [r h'] eqn:He. cbn [fst] in Hr. subst r.
  by apply (@read_guest_ranges_one H DeviceError host_memory) in He.
Qed.

Lemma read_index_pure a h : (read_ring_index from_mmio (read usize_max try_reserve) a h).2 = h.
Proof.
  unfold read_ring_index, st_bind. pose proof (read_pure a 2 h) as Hp.
  destruct (read _ _ a 2 h) as [[bs|e] h1]; cbn [snd] in Hp; subst h1; [|done].
  by destruct (_ =? _).
Qed.

Lemma snapshot_index_u16 a h i :
  (read_ring_index from_mmio (read usize_max try_reserve) a h).1 = Ok i → u16 i.
Proof.
  unfold read_ring_index, st_bind. pose proof (read_contents a 2 h) as Hc.
  destruct (read _ _ a 2 h) as [[bs|e] h1]; [|done]. cbn [fst] in Hc.
  specialize (Hc bs ltac:(by vm_compute) eq_refl). destruct (_ =? _); [|done]. intros [= <-].
  pose proof (from_le_bound bs) as Hb. rewrite Hc, peek_length in Hb by done.
  rewrite Hc. apply Hb, peek_bytes, gm_byte_u8.
Qed.

Lemma resync_u16 next available size :
  u16 next → u16 available → u16 (resync_pending_queue_entries next available size).2.
Proof. intros. unfold resync_pending_queue_entries. by destruct (_ && _). Qed.

(** A captured batch: its queue, non-negative heads, no completion yet, and a
    table that is the guest's. *)
Record captured (h : H) (table avail used size : Z) (b : QueueBatch) : Prop := {
  cp_size : VsockQueues.size b = size;
  cp_used : used_ring b = used;
  cp_heads : Forall (λ x, 0 ≤ x) (heads b);
  cp_completions : completions b = [];
  cp_table : ∀ t, descriptor_table b = Some t → t = peek (gm_byte h) table (size * 16);
}.

Lemma capture_snapshot_spec h table avail used size :
  0 ≤ size →
  (capture_snapshot table avail used size h).2 = h ∧
  ∀ sn full, (capture_snapshot table avail used size h).1 = Ok (sn, full) →
    bytes sn ∧ (full = true → slice sn (4 + size * 2) (4 + size * 2 + size * 16) =
                               Some (peek (gm_byte h) table (size * 16))).
Proof.
  intros Hs. unfold capture_snapshot, st_bind, st_lift.
  destruct (at_ used 2) as [u|e]; [|done].
  assert (Hbytes : ∀ rs : list (Z * Z), bytes (rs ≫= λ r, peek (gm_byte h) r.1 r.2)).
  { intros rs. induction rs as [|r rs IH]; [constructor|]. rewrite bind_cons. apply Forall_app.
    split; [apply peek_bytes, gm_byte_u8|done]. }
  unfold read_snapshot.
  match goal with |- context [@gm_read_ranges H DeviceError host_memory ?rs h] =>
    pose proof (@gm_read_ranges_pure H DeviceError host_memory h rs) as Hp;
    pose proof (@gm_read_ranges_inv H DeviceError host_memory h rs) as Hi;
    destruct (@gm_read_ranges H DeviceError host_memory rs h) as [[sn|e] h1] end;
    cbn [fst snd] in Hp, Hi; subst h1.
  - split; [done|]. intros sn' full [= -> <-]. specialize (Hi sn' eq_refl). split.
    + rewrite Hi. apply Hbytes.
    + intros _. rewrite Hi, !bind_cons. cbn [fst snd].
      unfold DESC_BYTES, SPLIT_RING_DESCRIPTOR_BYTES.
      change (@gm_byte H DeviceError host_memory) with (@gm_byte H E GM).
      replace (4 + size * 2) with (zlen (peek (gm_byte h) avail (4 + size * 2))) at 2 3
        by (rewrite peek_length; lia).
      replace (size * 16) with (zlen (peek (gm_byte h) table (size * 16))) at 2
        by (rewrite peek_length; lia).
      apply slice_mid.
  - destruct e; try done.
    match goal with |- context [@gm_read_ranges H DeviceError host_memory ?rs h] =>
      pose proof (@gm_read_ranges_pure H DeviceError host_memory h rs) as Hp;
      pose proof (@gm_read_ranges_inv H DeviceError host_memory h rs) as Hi2;
      destruct (@gm_read_ranges H DeviceError host_memory rs h) as [[sn|e] h1] end;
      cbn [fst snd] in Hp, Hi2; subst h1; [|done].
    destruct (negb _); [done|]. split; [done|]. intros sn' full [= <- <-]. split; [|done].
    specialize (Hi2 sn eq_refl).
    assert (bytes sn) by (rewrite Hi2; apply Hbytes).
    apply Forall_app; split; [by apply Forall_take|]. apply Forall_app; split; [|by apply Forall_drop].
    by apply Forall_replicate.
Qed.

Lemma decode_spec next available size mx used sn :
  bytes sn → u16 next → u16 available →
  u16 (decode_queue_batch next available size mx used sn).2 ∧
  ∀ b, (decode_queue_batch next available size mx used sn).1 = Ok b →
    VsockQueues.size b = size ∧ used_ring b = used ∧ Forall (λ x, 0 ≤ x) (heads b) ∧
    completions b = [] ∧ snapshot b = sn ∧ descriptor_table_offset b = Some (4 + size * 2).
Proof.
  intros Hb Hn Ha. unfold decode_queue_batch. destruct (_ || _ || _ || _ || _); [done|].
  pose proof (resync_u16 next available size Hn Ha) as Hr.
  destruct (resync_pending_queue_entries next available size) as [count n']. cbn [snd] in Hr.
  destruct (_ <? _); [done|]. split; [done|]. intros b [= <-]. split_and!; try done.
  cbn [heads]. apply Forall_fmap, Forall_true. intros k. unfold compose, head_at.
  apply from_le_bound, Forall_take, Forall_drop, Hb.
Qed.

Lemma capture_spec mmio queue next mx h r h' n' table avail used size :
  u16 next → Transport.queue_addrs_for queue mmio = Some (table, avail, used, size) → 0 ≤ size →
  capture_queue_batch usize_max try_reserve mmio queue next mx h = ((r, h'), n') →
  h' = h ∧ u16 n' ∧ ∀ b, r = Ok (Some b) → captured h table avail used size b.
Proof.
  intros Hn Hq Hs. unfold capture_queue_batch. rewrite Hq. unfold st_bind at 1, st_lift at 1.
  destruct (at_ avail 2) as [a|e]; [|by intros [= <- <- <-]].
  pose proof (read_index_pure a h) as Hp. pose proof (snapshot_index_u16 a h) as Hu.
  destruct (read_ring_index _ _ a h) as [[i|e] h1]; cbn [fst snd] in Hp, Hu; subst h1;
    [|by intros [= <- <- <-]].
  specialize (Hu i eq_refl). pose proof (resync_u16 next i size Hn Hu) as Hr.
  destruct (resync_pending_queue_entries next i size) as [count n1]. cbn [snd] in Hr.
  destruct (count =? 0); [by intros [= <- <- <-]|].
  destruct (capture_snapshot_spec h table avail used size Hs) as [Hp Hsn].
  destruct (capture_snapshot table avail used size h) as [[[sn full]|e] h1]; cbn [fst snd] in *;
    subst h1; [|by intros [= <- <- <-]].
  destruct (Hsn sn full eq_refl) as [Hb Htab].
  destruct (decode_spec n1 i size mx used sn Hb Hr Hu) as [Hn2 Hd].
  destruct (decode_queue_batch n1 i size mx used sn) as [[b|e] n2]; cbn [fst snd] in *;
    [|by intros [= <- <- <-]].
  destruct (Hd b eq_refl) as (H1 & H2 & H3 & H4 & H5 & H6).
  intros [= <- <- <-]. split_and!; [done|done|]. intros b' [= <-].
  destruct full; split; try done.
  intros t. unfold descriptor_table. rewrite H6, H5, H1. cbn [mbind option_bind].
  unfold SPLIT_RING_DESCRIPTOR_BYTES. rewrite Htab by done. by intros [= <-].
Qed.

(** A chain only names descriptors of the table. *)
Definition in_table (table : list Z) (size : Z) (d : SplitRingDescriptor) : Prop :=
  ∃ i, 0 ≤ i < size ∧ descriptor_at table i = Some d.

Lemma chain_in_table table index size ds :
  bytes table → 0 ≤ index → 0 ≤ size → chain table index size = Ok ds →
  Forall (in_table table size) ds ∧ Forall (λ d, 0 ≤ d_len d) ds.
Proof.
  intros Hb Hi Hs. unfold chain, split_ring_chain. destruct (_ || _); [done|].
  destruct (chain_loop _ _ _ _ _ _ _) as [ds'|] eqn:Hc; [|done]. intros [= ->].
  apply chain_loop_sound in Hc as (idxs & ds' & -> & Hchain & _);
    [|done|done|unfold zlen; rewrite length_replicate; lia].
  cbn [app]. assert (Hin : Forall (in_table table size) ds').
  { clear -Hchain. induction Hchain as [i d (Hi & Hd & _) _|i d idxs ds (Hi & Hd & _) _ _ IH];
      constructor; try done; by exists i. }
  split; [done|]. apply (desc_chain_fields _ _ _ _ _ _ Hb) in Hchain.
  eapply Forall_impl; [exact Hchain|]. by intros d (_ & ? & _).
Qed.

(** A packet taken from a chain has a header of the right widths. *)
Lemma read_payload_pure ds data h : (read_payload usize_max try_reserve ds data h).2 = h.
Proof.
  revert data. induction ds as [|d ds IH]; intros data; [done|]. cbn [read_payload]. unfold st_bind.
  pose proof (read_pure (d_addr d) (d_len d) h) as Hp.
  destruct (read _ _ _ _ h) as [[bs|e] h1]; cbn [snd] in Hp; subst h1; [|done].
  destruct (negb _); [done|apply IH].
Qed.

Lemma read_tx_packet_spec ds h :
  (read_tx_packet usize_max try_reserve ds h).2 = h ∧
  ∀ hd data, (read_tx_packet usize_max try_reserve ds h).1 = Ok (Some (hd, data)) → header_ok hd.
Proof.
  unfold read_tx_packet. destruct ds as [|first rest]; [done|].
  destruct (is_writable first || _) eqn:Hf; [done|]. breflect. unfold st_bind at 1 4.
  pose proof (read_pure (d_addr first) (d_len first) h) as Hp.
  pose proof (read_contents (d_addr first) (d_len first) h) as Hc.
  destruct (read _ _ _ _ h) as [[bs|e] h1]; cbn [fst snd] in Hp, Hc; subst h1; [|done].
  specialize (Hc bs ltac:(rewrite H1; by vm_compute) eq_refl).
  destruct (parse bs) as [[hdr rs]|] eqn:Hparse; [|done].
  apply parse_inv in Hparse as [Hok _]; [|rewrite Hc; apply peek_bytes, gm_byte_u8].
  cbv zeta. destruct (_ || _ || _); [done|].
  assert (Hend : ∀ m : stM H DeviceError (list Z), (m h).2 = h →
    ((data <- m;; st_ret (Some (hdr, data)))%st h).2 = h ∧
    ∀ hd data, ((data <- m;; st_ret (Some (hdr, data)))%st h).1 = Ok (Some (hd, data)) → header_ok hd).
  { intros m Hm. unfold st_bind. destruct (m h) as [[d|e] h1]; cbn [fst snd] in *; subst h1; [|done].
    split; [done|]. by intros hd data [= <- _]. }
  apply Hend. destruct rest as [|d [|d' rest]]; [done| |apply read_payload_pure].
  unfold st_bind. pose proof (read_pure (d_addr d) (d_len d) h) as Hp.
  destruct (read _ _ _ _ h) as [[bs'|e] h1]; cbn [snd] in Hp; subst h1; [|done].
  by destruct (negb _).
Qed.

(** The stores of a published batch lie in its used ring. *)
Definition used_ok (used size : Z) (r : Z * list Z) : Prop :=
  used ≤ r.1 ∧ r.1 + zlen r.2 ≤ used + 4 + 8 * size ∧ bytes r.2.

Lemma completion_loop_inside fuel used size i cs acc j rs :
  0 < size → Forall (used_ok used size) acc →
  completion_loop fuel used size i cs acc = Ok (j, rs) → Forall (used_ok used size) rs.
Proof.
  intros Hs. revert i cs acc. induction fuel as [|fuel IH]; intros i cs acc Hacc Hl;
    cbn [completion_loop] in Hl; [by injection Hl as _ <-|].
  destruct cs as [|c cs]; [by injection Hl as _ <-|].
  destruct (at_ used (4 + i mod size * 8)) as [off|] eqn:Ha; [|done]. rsimpl_in Hl.
  destruct (_ <? _) in Hl; [done|]. apply IH in Hl; [done|]. apply Forall_app. split; [done|].
  apply Forall_singleton. unfold at_ in Ha.
  destruct (checked_add64 _ _) as [o|] eqn:Hc; [|done]. injection Ha as <-.
  apply checked_add64_Some in Hc as [-> _]. pose proof (Z.mod_pos_bound i size Hs).
  unfold used_ok. cbn [fst snd]. rewrite used_entries_length.
  set (k := Z.min (zlen (c :: cs)) (size - i mod size)).
  assert (zlen (take (Z.to_nat k) (c :: cs)) ≤ size - i mod size)
    by (unfold k, zlen; rewrite length_take; lia).
  split_and!; [lia|lia|apply used_entries_bytes].
Qed.

Lemma completion_ranges_inside used size i cs rs :
  completion_ranges used size i cs = Ok rs → Forall (used_ok used size) rs.
Proof.
  unfold completion_ranges. destruct (_ || _ || _ || _) eqn:Hv; [done|]. breflect.
  assert (Hs : 0 < size).
  { unfold is_power_of_two in *. destruct (Z.ltb_spec 0 size); [done|]. exfalso.
    pose proof (zlen_nonneg cs). lia. }
  case_bool_decide; [by intros [= <-]|].
  destruct (completion_loop _ _ _ _ _ _) as [[j rs']|] eqn:Hl; [|done]. rsimpl.
  apply completion_loop_inside in Hl; [|done|constructor].
  unfold at_. destruct (checked_add64 used 2) as [o|] eqn:Hc; [|done]. rsimpl.
  apply checked_add64_Some in Hc as [-> _]. intros [= <-]. apply Forall_app. split; [done|].
  apply Forall_singleton. unfold used_ok. cbn [fst snd].
  change [j mod 256; (j / 256) mod 256] with (le_bytes 2 j).
  assert (Hl2 : zlen (le_bytes 2 j) = 2) by (unfold zlen; by rewrite le_bytes_length).
  split_and!; [lia|lia|apply le_bytes_bytes].
Qed.
End Hostile.

(** ** Small queues in a flat memory *)

Lemma demo_valid : valid_size 4.
Proof. split; [unfold QUEUE_SIZE; lia|reflexivity]. Qed.

Ltac flat_mapped := cbn; unfold bounded_mapped; split; [lia|]; split; [lia|]; vm_compute; reflexivity.

(** Three completions that wrap around a ring of four whose used index is 2. *)
Definition demo_used : GuestMem Flat.t := (bounded_write 0x202 (le_bytes 2 2) flat_memory).2.

Lemma batch_published_witness :
  ∃ rs h1 h2, completion_ranges 0x200 4 2 [(1, 10); (2, 20); (3, 30)] = Ok rs ∧ zlen rs = 3 ∧
    write_ranges rs demo_used = (Ok tt, h1) ∧
    complete_each 0x200 4 [(1, 10); (2, 20); (3, 30)] demo_used = (Ok tt, h2) ∧
    (∀ x, gm_byte h1 x = gm_byte h2 x) ∧ gm_byte h1 0x202 = 5.
Proof.
  destruct (batch_published 0x200 4 demo_valid demo_used [(1, 10); (2, 20); (3, 30)])
    as (rs & h1 & h2 & Hr & Hw & Hc & Hx & _).
  - flat_mapped.
  - discriminate.
  - vm_compute. discriminate.
  - assert (word16 demo_used (0x200 + 2) = 2) as Hi by (vm_compute; reflexivity).
    rewrite Hi in Hr. exists rs, h1, h2. split; [exact Hr|].
    vm_compute in Hr. injection Hr as <-. split; [reflexivity|]. split; [exact Hw|].
    split; [exact Hc|]. split; [exact Hx|]. vm_compute in Hw. injection Hw as <-.
    vm_compute. reflexivity.
Defined.

(** Queue 0 armed with four entries, one of them pending. *)
Definition demo_armed : Transport.MmioTransport :=
  Transport.set_queues [Transport.mkRegs 4 true 0x100 0x180 0x200]
    (Transport.new 0x5000 19 Transport.VIRTIO_F_VERSION_1 QUEUE_SIZE []).
Definition demo_available : GuestMem Flat.t := (bounded_write 0x182 (le_bytes 2 1 ++ le_bytes 2 3) flat_memory).2.

Lemma batch_captured_witness :
  ∃ b, capture_queue_batch U32_MAX (λ _, true) demo_armed 0 0 8 demo_available =
         ((Ok (Some b), demo_available), 0) ∧ heads b = [3] ∧ has_remaining b = true.
Proof.
  destruct (batch_captured U32_MAX (λ _, true) ltac:(vm_compute; split; discriminate)
              ltac:(reflexivity) demo_available demo_armed 0 0x100 0x180 0x200 4 0 8) as [H _].
  - reflexivity.
  - exact demo_valid.
  - flat_mapped.
  - flat_mapped.
  - flat_mapped.
  - lia.
  - done.
  - eexists. split; [etransitivity; [exact H|]|]; vm_compute.
    + reflexivity.
    + split; reflexivity.
Defined.

Definition demo_reply : VsockStream.Reply :=
  VsockStream.mkReply 3 (mkHeader HOST_CID GUEST_CID TCP_PORT 4000 0 TYPE_STREAM OP_RW 0 65536 0) [1; 2; 3; 4; 5].

(** Two receive buffers that hold the header and three of five bytes. *)
Lemma rx_packet_written_witness :
  let ds := [mkDesc 0x1000 40 3 1; mkDesc 0x1100 7 2 0] in
  let '((r, reply), h) := write_rx_packet U32_MAX demo_reply ds 47 flat_memory in
  r = Ok 47 ∧ payload reply = [4; 5] ∧ only_in (ranges_of ds) flat_memory h ∧
  peek (gm_byte h) 0x1104 3 = [1; 2; 3].
Proof.
  intros ds. destruct (write_rx_packet U32_MAX demo_reply ds 47 flat_memory) as [[r reply] h] eqn:Hw.
  destruct (rx_packet_written U32_MAX demo_reply ds 47 flat_memory r reply h) as [Hin _].
  - repeat constructor; vm_compute; discriminate.
  - apply (bool_decide_unpack _). vm_compute. exact I.
  - reflexivity.
  - vm_compute. split; discriminate.
  - exact Hw.
  - vm_compute in Hw. injection Hw as <- <- <-. split; [reflexivity|]. split; [reflexivity|].
    split; [exact Hin|]. vm_compute. reflexivity.
Defined.

End VsockQueues.
