(* ===== verification/VsockPayload.v ===== *)
(** * What the replies of the switch carry

    A property of payloads that holds of the empty one and of every payload
    the host delivers holds of every reply the switch ever hands out: packets
    of the guest only produce replies without payload. The device uses it with
    "is a byte string". *)

From S2P Require Import Prelude VsockPacket VsockStream VsockSwitch.
Local Open Scope Z_scope.

Module VsockPayload.
Section Payload.
Context (P : list Z → Prop) (P0 : P []).

Definition pays (s : StreamConnection) : Prop := Forall (λ r, P (payload r)) (replies s).

Lemma queue_reply_pays r s b s' :
  P (payload r) → Stream.queue_reply r s = (b, s') → pays s → pays s'.
Proof.
  unfold Stream.queue_reply, pays. intros Hr Hq Hs. destruct (negb _); [by simplify_eq|].
  injection Hq as _ <-. case_match; cbn [replies Stream.set_connection Stream.set_replies];
    (apply Forall_app; split; [done|by apply Forall_singleton]).
Qed.

Lemma rst_pays gp hp s : pays s → pays (Stream.rst gp hp s).2.
Proof.
  intros Hs. unfold Stream.rst. destruct (Stream.queue_reply _ s) eqn:Hq.
  by apply queue_reply_pays in Hq.
Qed.

Lemma respond_pays c o fl s b s' : Stream.respond c o fl s = (b, s') → pays s → pays s'.
Proof.
  unfold Stream.respond. intros Hr Hs.
  destruct (if o =? OP_CREDIT_UPDATE then _ else None) as [[front r]|] eqn:Hl.
  - injection Hr as _ <-. unfold pays in *. cbn [replies Stream.set_connection Stream.set_replies].
    destruct (o =? OP_CREDIT_UPDATE); [|done]. unfold Stream.last_credit_update in Hl.
    destruct (rev (replies s)) as [|r' front'] eqn:Hrev; [done|].
    destruct (_ =? _); [|done]. injection Hl as <- <-.
    assert (Hrs : replies s = rev front' ++ [r']) by by rewrite <-(rev_involutive (replies s)), Hrev.
    rewrite Hrs in Hs. apply Forall_app in Hs as [Hf Hr']. apply Forall_app. split; [done|].
    apply Forall_cons in Hr' as [Hr' _]. apply Forall_singleton. exact Hr'.
  - by apply queue_reply_pays in Hr.
Qed.

Lemma drop_connection_pays s : pays s → pays (Stream.drop_connection s).
Proof. done. Qed.

Lemma reject_packet_pays h s : pays s → pays (Stream.reject_packet h s).
Proof.
  intros Hs. unfold Stream.reject_packet. destruct (negb _).
  - pose proof (rst_pays (src_port h) (dst_port h) s Hs). by destruct (Stream.is_live _).
  - by destruct (Stream.is_live _).
Qed.

Lemma note_peer_credit_pays h s b s' : Stream.note_peer_credit h s = (b, s') → pays s → pays s'.
Proof.
  unfold Stream.note_peer_credit, Stream.accept_peer_credit. intros Hn Hs.
  destruct (connection s) as [c|]; [|by simplify_eq].
  destruct (ack_ahead _ _).
  { injection Hn as _ <-. by apply drop_connection_pays, rst_pays. }
  destruct (_ && _); [by simplify_eq|]. destruct (_ <? _) in Hn; [by simplify_eq|]. cbv zeta in Hn.
  destruct (_ && _) in Hn; [|injection Hn as _ <-; by destruct (_ <? _)].
  destruct (Stream.respond _ _ _ _) as [ok s1] eqn:Hr. apply respond_pays in Hr; [|done].
  destruct ok; by injection Hn as _ <-.
Qed.

Lemma on_connected_pays h data s : pays s → pays (Stream.on_connected h data s).
Proof.
  intros Hs. unfold Stream.on_connected. destruct (connection s) as [c|]; [|by apply rst_pays].
  destruct (_ && _); [by apply reject_packet_pays|].
  destruct (Stream.note_peer_credit h s) as [ok s1] eqn:Hn. apply note_peer_credit_pays in Hn; [|done].
  destruct (negb ok); [done|]. destruct (op h =? OP_SHUTDOWN).
  { unfold Stream.on_shutdown. destruct (connection s1); [|done]. destruct (negb _); [|done].
    unfold pays in *. cbn [replies Stream.set_connection Stream.set_replies].
    apply Forall_forall. intros r Hr. apply list_elem_of_In, filter_In in Hr as [Hr _].
    rewrite Forall_forall in Hn. by apply Hn, list_elem_of_In. }
  destruct (op h =? OP_RW).
  { unfold Stream.on_data. destruct (connection s1); [|done]. destruct (_ || _); [|done].
    by apply drop_connection_pays, rst_pays. }
  destruct (op h =? OP_CREDIT_REQUEST); [|done].
  unfold Stream.on_credit_request. destruct (connection s1); [|done].
  destruct (Stream.respond _ _ _ _) as [ok' s2] eqn:Hr. apply respond_pays in Hr; [|done].
  by destruct ok'.
Qed.

Lemma rx_pays h data s : pays s → pays (Stream.rx h data s).
Proof.
  intros Hs. unfold Stream.rx. destruct (Stream.bad_packet h data); [by apply reject_packet_pays|].
  destruct (_ && _); [by apply reject_packet_pays|]. destruct (op h =? OP_REQUEST).
  { unfold Stream.on_request. destruct (_ || _); [by apply reject_packet_pays|].
    destruct (Stream.respond _ _ _ _) as [ok s1] eqn:Hr. apply respond_pays in Hr; [|done].
    by destruct ok. }
  destruct (op h =? OP_RESPONSE).
  { unfold Stream.on_response. destruct (_ || _); [by apply reject_packet_pays|done]. }
  destruct (op h =? OP_RST); [unfold Stream.on_rst; by destruct (Stream.is_live s)|].
  destruct (_ || _); [by apply on_connected_pays|by apply reject_packet_pays].
Qed.

Lemma request_credit_pays s : pays s → pays (Stream.request_credit s).2.
Proof.
  intros Hs. unfold Stream.request_credit. destruct (connection s); [|done].
  destruct (is_credit_requested _); [done|].
  destruct (Stream.queue_reply _ s) as [ok s1] eqn:Hq. apply queue_reply_pays in Hq; [|done..].
  destruct ok; [|done]. by destruct (connection s1).
Qed.

Lemma deliver_pays data s : P data → pays s → pays (Stream.deliver data s).2.
Proof.
  intros Hd Hs. unfold Stream.deliver. destruct (connection s); [|done]. destruct (tx_shutdown _); [done|].
  destruct (_ =? 0); [done|]. destruct (_ <? _); [done|]. destruct (_ <? _).
  { cbn [snd]. destruct (_ && _); [by apply request_credit_pays|done]. }
  destruct (Stream.queue_reply _ _) as [ok s1] eqn:Hq. apply queue_reply_pays in Hq; [|done..].
  by destruct ok.
Qed.

Lemma shutdown_pays s : pays s → pays (Stream.shutdown s).2.
Proof.
  intros Hs. unfold Stream.shutdown. destruct (connection s); [|done]. destruct (tx_shutdown _); [done|].
  destruct (negb _); [done|].
  destruct (Stream.respond _ _ _ _) as [ok s1] eqn:Hr. apply respond_pays in Hr; [|done].
  by destruct ok.
Qed.

Lemma consume_pays n s : pays s → pays (Stream.consume_upstream n s).
Proof.
  intros Hs. unfold Stream.consume_upstream. destruct (_ =? 0); [done|].
  unfold Stream.advance_receive_credit. cbn [connection Stream.set_upstream].
  destruct (connection s); [|done]. destruct (_ && _); [done|].
  destruct (Stream.respond _ _ _ _) as [ok s1] eqn:Hr. apply respond_pays in Hr; [|done].
  by destruct ok.
Qed.

Lemma take_reply_pays mx s r s' :
  Stream.take_reply mx s = (r, s') → pays s → pays s' ∧ (∀ x, r = Some x → P (payload x)).
Proof.
  unfold Stream.take_reply. intros Ht Hs. destruct (replies s) as [|x rs] eqn:Hrs; [by simplify_eq|].
  destruct (_ <? _); [simplify_eq; by split|]. unfold pays in Hs. rewrite Hrs in Hs.
  apply Forall_cons in Hs as [Hx Hs]. simplify_eq. split; [done|]. by intros y [= <-].
Qed.

(** ** The switch *)

Definition sw_pays (sw : VsockSwitch) : Prop :=
  Forall (λ e, pays (ep_stream e)) (endpoints sw) ∧ Forall (λ r, P (payload r)) (rejected sw).

Lemma set_endpoint_pays i e sw : pays (ep_stream e) → sw_pays sw → sw_pays (Switch.set_endpoint i e sw).
Proof. intros He [Hs Hr]. split; [|done]. by apply Forall_insert. Qed.

Lemma endpoint_pays i e sw : sw_pays sw → endpoints sw !! i = Some e → pays (ep_stream e).
Proof. intros [Hs _] Hi. by eapply Forall_lookup_1 in Hs. Qed.

Lemma reject_pays h sw : sw_pays sw → sw_pays (Switch.reject h sw).
Proof.
  intros [Hs Hr]. unfold Switch.reject. destruct (_ && _); [|done]. split; [done|].
  apply Forall_app. split; [done|]. by apply Forall_singleton.
Qed.

Lemma retire_endpoint_pays i sw sw' :
  Switch.retire_endpoint i sw = Some sw' → sw_pays sw → sw_pays sw'.
Proof.
  unfold Switch.retire_endpoint, Switch.allocate_connection_number. intros Hr Hs.
  destruct (checked_add64 _ 1); [|done]. cbn [mbind option_bind] in Hr.
  destruct (endpoints (Switch.set_number _ sw) !! i) as [e|] eqn:Hi; [|done]. injection Hr as <-.
  apply set_endpoint_pays; [|done]. apply (endpoint_pays i e sw Hs) in Hi.
  unfold Switch.retire, pays in *. destruct (if _ || _ then _ else _) as [n' rt].
  cbn [ep_stream replies Stream.set_replies]. apply Forall_forall. intros r Hr. apply list_elem_of_In, filter_In in Hr as [Hr _].
  rewrite Forall_forall in Hi. by apply Hi, list_elem_of_In.
Qed.

Lemma rx_at_pays i h bs sw x sw' :
  Switch.rx_at i h bs sw = Some (x, sw') → sw_pays sw → sw_pays sw'.
Proof.
  unfold Switch.rx_at. intros Hr Hs. destruct (endpoints sw !! i) as [e|] eqn:Hi; [|done].
  cbn [mbind option_bind] in Hr. case_bool_decide; [injection Hr as _ <-; by apply reject_pays|].
  assert (Hset : sw_pays (Switch.set_endpoint i
    (Switch.set_stream (Stream.rx h bs (ep_stream e)) e) sw)).
  { apply set_endpoint_pays; [|done]. by eapply rx_pays, endpoint_pays. }
  destruct (Switch.is_live e && _).
  - destruct (Switch.retire_endpoint _ _) as [sw1|] eqn:Hret; [|done]. injection Hr as _ <-.
    by apply retire_endpoint_pays in Hret.
  - by injection Hr as _ <-.
Qed.

Lemma forget_rejected_pays gp hp sw : sw_pays sw → sw_pays (Switch.forget_rejected gp hp sw).
Proof.
  intros [Hs Hr]. split; [done|]. cbn. apply Forall_forall. intros r Hin.
  apply list_elem_of_In, filter_In in Hin as [Hin _]. rewrite Forall_forall in Hr.
  by apply Hr, list_elem_of_In.
Qed.

Lemma switch_rx_pays h bs sw x sw' :
  Switch.rx h bs sw = Some (x, sw') → sw_pays sw → sw_pays sw'.
Proof.
  unfold Switch.rx. intros Hr Hs. destruct (Switch.classify _ _ sw) as [role|];
    [|injection Hr as _ <-; by apply reject_pays].
  destruct (Switch.endpoint_index _ _ sw) as [i|]; [by apply rx_at_pays in Hr|].
  destruct (Switch.refuses_flow _ _ _ sw); [injection Hr as _ <-; by apply reject_pays|].
  unfold Switch.allocate_connection_number in Hr.
  destruct (checked_add64 _ 1) as [n|]; [|done]. cbn [mbind option_bind] in Hr.
  apply rx_at_pays in Hr; [done|].
  apply (forget_rejected_pays (src_port h) (dst_port h)) in Hs as [Hs Hrj]. split; [|done].
  apply Forall_app. split; [done|]. apply Forall_singleton.
  unfold pays, Switch.new_endpoint. by destruct (buffers role).
Qed.

Lemma take_reply_from_pays i mx sw r sw' :
  Switch.take_reply_from i mx sw = (r, sw') → sw_pays sw →
  sw_pays sw' ∧ (∀ x, r = Some x → P (payload x)).
Proof.
  unfold Switch.take_reply_from. intros Ht Hs. destruct (endpoints sw !! i) as [e|] eqn:Hi;
    [|by simplify_eq].
  destruct (Stream.take_reply mx (ep_stream e)) as [[x|] s] eqn:Hr; [|by simplify_eq].
  apply take_reply_pays in Hr as [Hp Hx]; [|by eapply endpoint_pays]. simplify_eq.
  split; [by apply set_endpoint_pays|]. intros y [= <-]. exact (Hx x eq_refl).
Qed.

Lemma flow_scan_pays n off cnt mx sw r sw' :
  Switch.flow_scan n off cnt mx sw = (r, sw') → sw_pays sw →
  sw_pays sw' ∧ (∀ x, r = Some x → P (payload x)).
Proof.
  revert off sw. induction n as [|n IH]; intros off sw Hf Hs; cbn [Switch.flow_scan] in Hf;
    [by simplify_eq|].
  destruct (Switch.take_reply_from _ mx sw) as [[x|] sw1] eqn:Ht;
    (apply take_reply_from_pays in Ht as [Hs1 Hx]; [|done]).
  - simplify_eq. split; [exact Hs1|done].
  - exact (IH _ _ Hf Hs1).
Qed.

Lemma class_scan_pays n off mx sw r sw' :
  Switch.class_scan n off mx sw = (r, sw') → sw_pays sw →
  sw_pays sw' ∧ (∀ x, r = Some x → P (payload x)).
Proof.
  revert off sw. induction n as [|n IH]; intros off sw Hf Hs; cbn [Switch.class_scan] in Hf.
  { destruct (rejected sw) as [|x rs] eqn:Hrj; [by simplify_eq|]. destruct Hs as [Hs Hr].
    rewrite Hrj in Hr. apply Forall_cons in Hr as [Hx Hr]. simplify_eq. split; [by split|].
    by intros y [= <-]. }
  destruct (if _ <? _ then _ else _) as [[x|] sw1] eqn:Ht.
  - assert (H1 : sw_pays sw1 ∧ (∀ y, Some x = Some y → P (payload y)))
      by (destruct (_ <? _) in Ht; [by eapply take_reply_from_pays|by eapply flow_scan_pays]).
    simplify_eq. destruct H1 as [H1 Hx]. split; [exact H1|done].
  - assert (H1 : sw_pays sw1).
    { destruct (_ <? _) in Ht; [by eapply take_reply_from_pays|by eapply flow_scan_pays]. }
    exact (IH _ _ Hf H1).
Qed.

Lemma take_reply_sw_pays mx sw r sw' :
  Switch.take_reply mx sw = (r, sw') → sw_pays sw →
  sw_pays sw' ∧ (∀ x, r = Some x → P (payload x)).
Proof. apply class_scan_pays. Qed.

Lemma for_each_pays idxs f sw sw' :
  (∀ i a b, f i a = Some b → sw_pays a → sw_pays b) →
  Switch.for_each idxs f sw = Some sw' → sw_pays sw → sw_pays sw'.
Proof.
  intros Hf. revert sw. induction idxs as [|i idxs IH]; intros sw H Hs; cbn [Switch.for_each] in H;
    [by simplify_eq|].
  destruct (f i sw) as [sw1|] eqn:Hi; [|done]. apply (IH sw1); [done|]. by eapply Hf.
Qed.

Lemma reset_connections_pays sw sw' :
  Switch.reset_connections sw = Some sw' → sw_pays sw → sw_pays sw'.
Proof.
  unfold Switch.reset_connections. intros H Hs.
  destruct (Switch.for_each _ _ sw) as [sw1|] eqn:Hf; [|done]. injection H as <-.
  apply for_each_pays in Hf as [He _]; [by split| |done].
  intros i a b Hi Ha. destruct (endpoints a !! i) as [e|] eqn:Hl; [|done].
  cbn [mbind option_bind] in Hi.
  destruct (if Switch.is_live e then _ else _) as [a1|] eqn:Hr; [|done]. cbn [mbind option_bind] in Hi.
  assert (Ha1 : sw_pays a1).
  { destruct (Switch.is_live e); [by eapply retire_endpoint_pays|by simplify_eq]. }
  unfold Switch.clear_replies in Hi. destruct (endpoints a1 !! i) as [e1|]; [|done].
  injection Hi as <-. apply set_endpoint_pays; [|done]. unfold pays. constructor.
Qed.

Lemma reset_network_pays sw sw' :
  Switch.reset_network_connections sw = Some sw' → sw_pays sw → sw_pays sw'.
Proof.
  apply for_each_pays. intros i a b Hi Ha. destruct (endpoints a !! i) as [e|] eqn:Hl; [|done].
  cbn [mbind option_bind] in Hi. destruct (Switch.is_live e); [|by simplify_eq].
  apply retire_endpoint_pays in Hi; [done|]. apply set_endpoint_pays; [|done].
  apply rst_pays. by eapply endpoint_pays.
Qed.

Lemma on_stream_pays {A} id (f : StreamConnection → result VsockError A * StreamConnection) sw :
  (∀ s, pays s → pays (f s).2) → sw_pays sw → sw_pays (Switch.on_stream id f sw).2.
Proof.
  intros Hf Hs. unfold Switch.on_stream, Switch.connection_index, Switch.endpoint_at.
  destruct (Switch.endpoint_index _ _ sw) as [i|]; [|done]. cbn [mbind option_bind].
  destruct (endpoints sw !! i) as [e|] eqn:Hi; [|done]. cbn [mbind option_bind fst snd].
  case_bool_decide; [|done]. cbn [mbind option_bind fst snd].
  pose proof (Hf (ep_stream e) (endpoint_pays i e sw Hs Hi)) as Hp.
  destruct (f (ep_stream e)) as [r s]. by apply set_endpoint_pays.
Qed.

Lemma remove_pays i sw :
  sw_pays sw → sw_pays (Switch.set_endpoints (take i (endpoints sw) ++ drop (S i) (endpoints sw)) sw).
Proof.
  intros [Hs Hr]. split; [|done]. apply Forall_app. split; [by apply Forall_take|by apply Forall_drop].
Qed.

Lemma endpoint_at_pays gp hp sw i e :
  Switch.endpoint_at gp hp sw = Some (i, e) → sw_pays sw →
  pays (ep_stream e) ∧ endpoints sw !! i = Some e.
Proof.
  unfold Switch.endpoint_at. destruct (Switch.endpoint_index gp hp sw) as [k|]; [|done].
  cbn [mbind option_bind]. destruct (endpoints sw !! k) as [f|] eqn:Hk; [|done]. intros [= <- <-] Hs.
  split; [by eapply endpoint_pays|done].
Qed.

Lemma connect_publication_pays port sw r sw' :
  Switch.connect_publication port sw = Some (r, sw') → sw_pays sw → sw_pays sw'.
Proof.
  unfold Switch.connect_publication, Switch.allocate_connection_number. intros H Hs.
  destruct (_ || _ || _); [by simplify_eq|]. case_bool_decide; [by simplify_eq|].
  destruct (checked_add64 _ 1); [|done]. cbn [mbind option_bind] in H.
  assert (Hn : ∀ n, pays (ep_stream (Switch.new_endpoint Publication PUBLICATION_PORT port n)))
    by (intros n; unfold pays, Switch.new_endpoint; by destruct (buffers Publication)).
  unfold Stream.request in H. destruct (Stream.is_live _) in H; [injection H as _ <-; exact Hs|].
  destruct (Stream.queue_reply _ _) as [ok s1] eqn:Hq. apply queue_reply_pays in Hq; [|done|apply Hn].
  destruct ok; cbn [negb] in H; injection H as _ <-; [|exact Hs]. destruct Hs as [Hs Hr]. split; [|done].
  apply Forall_app. split; [done|]. by apply Forall_singleton.
Qed.

Lemma retire_connection_pays id sw b sw' :
  Switch.retire_connection id sw = Some (b, sw') → sw_pays sw → sw_pays sw'.
Proof.
  unfold Switch.retire_connection, Switch.allocate_connection_number. intros H Hs.
  destruct (Switch.endpoint_at _ _ sw) as [[i e]|] eqn:He; [|by simplify_eq].
  apply endpoint_at_pays in He as [Hp Hi]; [|done].
  destruct (_ || _ || _); [by simplify_eq|].
  destruct (if FIXED_ENDPOINTS <=? _ then _ else _) as [sw1|] eqn:Hr; [|done]. injection H as _ <-.
  apply forget_rejected_pays. destruct (_ <=? _) in Hr; [injection Hr as <-; by apply remove_pays|].
  destruct (checked_add64 _ 1); [|done]. injection Hr as <-. by apply set_endpoint_pays.
Qed.

Lemma reset_connection_pays id sw r sw' :
  Switch.reset_connection id sw = Some (r, sw') → sw_pays sw → sw_pays sw'.
Proof.
  unfold Switch.reset_connection. intros H Hs.
  destruct (Switch.endpoint_at _ _ sw) as [[i e]|] eqn:He; [|by simplify_eq].
  apply endpoint_at_pays in He as [Hp Hi]; [|done]. destruct (_ && _); [|by simplify_eq].
  destruct (Switch.retire_endpoint _ _) as [sw1|] eqn:Hr; [|done]. injection H as _ <-.
  apply retire_endpoint_pays in Hr; [done|]. apply set_endpoint_pays; [|done]. by apply rst_pays.
Qed.

Lemma switch_consume_pays id n sw r sw' :
  Switch.consume_upstream id n sw = Some (r, sw') → sw_pays sw → sw_pays sw'.
Proof.
  unfold Switch.consume_upstream, Switch.connection_index. intros H Hs.
  destruct (Switch.endpoint_at _ _ sw) as [[i e]|] eqn:He; [|cbn [mbind option_bind] in H; by simplify_eq].
  apply endpoint_at_pays in He as [Hp Hi]; [|done]. cbn [mbind option_bind snd] in H.
  case_bool_decide; [|by simplify_eq]. cbv zeta in H.
  assert (Hset : sw_pays (Switch.set_endpoint i
    (Switch.set_stream (Stream.consume_upstream n (ep_stream e)) e) sw)).
  { apply set_endpoint_pays; [|done]. by apply consume_pays. }
  destruct (VsockStream.connection _); [injection H as _ <-; exact Hset|].
  destruct (Switch.retire_endpoint _ _) as [sw1|] eqn:Hr; [|done]. injection H as _ <-.
  by apply retire_endpoint_pays in Hr.
Qed.

Lemma take_replies_pays n mx sw rs sw' :
  Switch.take_replies_up_to n mx sw = (rs, sw') → sw_pays sw → sw_pays sw'.
Proof.
  revert mx sw rs. induction n as [|n IH]; intros mx sw rs H Hs; cbn [Switch.take_replies_up_to] in H;
    [by simplify_eq|].
  destruct (Switch.take_reply mx sw) as [[r|] sw1] eqn:Ht;
    (apply take_reply_sw_pays in Ht as [Hs1 _]; [|done]); [|by simplify_eq].
  destruct (Switch.take_replies_up_to n _ sw1) as [rs1 sw2] eqn:Hr. simplify_eq. by apply IH in Hr.
Qed.

Definition sop_pays (o : Switch.sop) : Prop :=
  match o with Switch.SDeliver _ bs => P bs | _ => True end.

(** Every operation of the switch keeps the property. *)
Lemma apply_sop_pays o sw sw' :
  sop_pays o → Switch.apply_sop o sw = Some sw' → sw_pays sw → sw_pays sw'.
Proof.
  intros Ho H Hs. destruct o; cbn [Switch.apply_sop sop_pays] in *;
    try match type of H with snd <$> _ = _ => apply fmap_Some in H as ([r sw1] & H & ->); simpl end.
  - by eapply switch_rx_pays.
  - by eapply connect_publication_pays.
  - by eapply retire_connection_pays.
  - by eapply reset_connections_pays.
  - by eapply reset_network_pays.
  - by eapply reset_network_pays in H.
  - injection H as <-. apply on_stream_pays; [|done]. intros s Hp.
    pose proof (request_credit_pays s Hp). by destruct (Stream.request_credit s).
  - injection H as <-. unfold Switch.deliver. destruct (_ <? _); [done|].
    apply on_stream_pays; [|done]. intros s. by apply deliver_pays.
  - injection H as <-. apply on_stream_pays; [|done]. apply shutdown_pays.
  - by eapply reset_connection_pays.
  - by eapply switch_consume_pays.
  - injection H as <-. destruct (Switch.take_replies_up_to _ _ sw) eqn:Ht.
    by eapply take_replies_pays.
Qed.

Lemma initial_pays en cap : sw_pays (Switch.with_network_socket_capacity en cap).
Proof. split; [|constructor]. repeat constructor. Qed.
End Payload.
End VsockPayload.
