(* ===== verification/VsockTransport.v ===== *)
(** * The vsock device

    [components/vsock-frontend/src/transport.rs]: the virtio-MMIO transport,
    its two queues and the switch put together. The host side is the state [env]: guest memory, the published
    interrupt level, the switch, the connections [network::notify_connection]
    was called for, and the worker's doorbell. [None] is the abort of the
    switch when its connection numbers are exhausted. *)

From S2P Require Import Prelude Limits MemoryApi HostMemory SplitRing GuestCopy Mmio Doorbell.
From S2P Require Import VsockPacket VsockStream VsockSwitch Device VsockQueues VsockPayload.
Local Open Scope Z_scope.

Module VsockTransport.
Import Device VsockQueues.

Definition NO_INTERRUPT : Z := 1.
Definition NO_NOTIFY : Z := 1.
Definition MAX_HELD_TX_COMPLETIONS : Z := 32.

Record State := mkState {
  mmio : Transport.MmioTransport;
  next : list Z;
  pending_rx : option VsockStream.Reply;
  pending : list bool;
  held_tx_completions : Z;
}.

Inductive RxStep : Type := Completed (len : Z) | Retry | Idle.

Definition set_mmio (t : Transport.MmioTransport) (s : State) : State :=
  mkState t (next s) (pending_rx s) (pending s) (held_tx_completions s).
Definition set_next (queue n : Z) (s : State) : State :=
  mkState (mmio s) (<[Z.to_nat queue := n]> (next s)) (pending_rx s) (pending s)
    (held_tx_completions s).
Definition set_pending_rx (r : option VsockStream.Reply) (s : State) : State :=
  mkState (mmio s) (next s) r (pending s) (held_tx_completions s).
Definition set_pending (queue : Z) (b : bool) (s : State) : State :=
  mkState (mmio s) (next s) (pending_rx s) (<[Z.to_nat queue := b]> (pending s))
    (held_tx_completions s).
Definition set_held (n : Z) (s : State) : State :=
  mkState (mmio s) (next s) (pending_rx s) (pending s) n.
Definition next_of (queue : Z) (s : State) : Z := default 0 (next s !! Z.to_nat queue).
Definition pending_of (queue : Z) (s : State) : bool := default false (pending s !! Z.to_nat queue).

Section Device.
Context {H E W : Type} `{GM : !GuestMemory H E} `{!AtomicWaker W}.
Context (usize_max : Z) (try_reserve : Z → bool).
(** [memory::address_limit()] *)
Context (address_limit : Z).

Record env := mkEnv {
  mem : H;
  line : bool;
  switch : VsockSwitch.VsockSwitch;
  notified : list ConnectionId;
  bell : Doorbell.t W;
}.

(** [STATE] and the rest of the world. *)
Record device := mkDevice { st : option State; world : env }.

Definition set_mem (h : H) (e : env) : env := mkEnv h (line e) (switch e) (notified e) (bell e).
Definition set_line (b : bool) (e : env) : env := mkEnv (mem e) b (switch e) (notified e) (bell e).
Definition set_switch (sw : VsockSwitch.VsockSwitch) (e : env) : env :=
  mkEnv (mem e) (line e) sw (notified e) (bell e).
Definition notify_connection (id : option ConnectionId) (e : env) : env :=
  mkEnv (mem e) (line e) (switch e) (notified e ++ option_list id) (bell e).
Definition set_bell (b : Doorbell.t W) (e : env) : env :=
  mkEnv (mem e) (line e) (switch e) (notified e) b.
Definition wake_worker (e : env) : env := set_bell (Doorbell.ring 1 (bell e)).1 e.

Definition new_state : State :=
  mkState (Transport.with_queue_count 3
             (Transport.new address_limit 19 Transport.VIRTIO_F_VERSION_1 QUEUE_SIZE
                (le_bytes 8 GUEST_CID)))
    [0; 0] None [false; false] 0.

Definition reset_transport (c : State * env) : option (State * env) :=
  let '(s, e) := c in
  sw ← Switch.reset_connections (switch e);
  Some (mkState (mmio s) [0; 0] None [false; false] 0, wake_worker (set_switch sw e)).

(** [state(f)]: run with the lock held, then publish the interrupt level. *)
Definition locked {A} (f : State * env → option (result DeviceError A * (State * env))) (d : device)
    : option (result DeviceError A * device) :=
  match st d with
  | None => Some (Err NotReady, d)
  | Some s =>
      '(result, (s, e)) ← f (s, world d);
      let '(irq, t) := Transport.take_irq (mmio s) in
      let e := match irq with Some asserted => set_line asserted e | None => e end in
      Some (result, mkDevice (Some (set_mmio t s)) e)
  end.

(** Run an operation of guest memory inside the locked state. *)
Definition on_memory {A} (f : stM H DeviceError A) : stM (State * env) DeviceError A :=
  λ c, let '(r, h) := f (mem c.2) in (r, (c.1, set_mem h c.2)).

(** Whether the guest wants an interrupt for the published completions. *)
Definition publish_batch (queue : Z) (batch : QueueBatch) : stM (State * env) DeviceError bool :=
  (if bool_decide (completions batch = []) then st_ret false else
   ranges <- st_lift (completion_ranges (used_ring batch) (size batch) (used_index batch)
                        (completions batch));;
   on_memory (VsockQueues.write_ranges ranges);;;
   λ c,
   let '(s, e) := c in
   if U16_MAX <? zlen (completions batch) then (Err BadLen, c) else
   let s := set_next queue (wrapping_add16 (next_of queue s) (zlen (completions batch))) s in
   match Transport.queue_addrs_for queue (mmio s) with
   | None => (Ok true, (s, e))
   | Some (_, available_ring, _, _) =>
       let '(r, h) := VsockQueues.read usize_max try_reserve available_ring 2 (mem e) in
       let flags := match r with
                    | Ok bs => if zlen bs =? 2 then Some (from_le bs) else None
                    | Err _ => None
                    end in
       (Ok (match flags with Some flags => Z.land flags NO_INTERRUPT =? 0 | None => true end),
        (s, set_mem h e))
   end)%st.

Definition request_used_interrupt (is_rx_requested has_tx_payload : bool) (tx_requested : Z)
    (s : State) : State :=
  let s := set_held (held_tx_completions s + tx_requested) s in
  if is_rx_requested || has_tx_payload || (MAX_HELD_TX_COMPLETIONS <=? held_tx_completions s)
  then set_mmio (Transport.signal Transport.INT_USED_BUFFER (mmio s)) (set_held 0 s) else s.

(** Whether the packet carried payload. *)
Definition process_tx (batch : QueueBatch) (head : Z) (e : env) : option (bool * env) :=
  match descriptor_table batch with
  | None => Some (false, e)
  | Some table =>
      match chain table head (size batch) with
      | Err _ => Some (false, e)
      | Ok descriptors =>
          match read_tx_packet usize_max try_reserve descriptors (mem e) with
          | (Ok (Some (header, data)), h) =>
              '(touched, sw) ← Switch.rx header data (switch e);
              Some (negb (bool_decide (data = [])),
                    notify_connection touched (set_switch sw (set_mem h e)))
          | (_, h) => Some (false, set_mem h e)
          end
      end
  end.

Definition is_stale (sw : VsockSwitch.VsockSwitch) (r : option VsockStream.Reply) : bool :=
  match r with Some reply => negb (Switch.is_reply_current reply sw) | None => false end.

(** The next reply into [pending_rx]; [true] asks for another turn. *)
Definition refill (c : State * env) : bool * (State * env) :=
  let '(s, e) := c in
  let s := if is_stale (switch e) (pending_rx s) then set_pending_rx None s else s in
  match pending_rx s with
  | Some _ => (false, (s, e))
  | None =>
      let '(r, sw) := Switch.take_reply MAX_PACKET (switch e) in
      let e := set_switch sw e in
      let e := match r with
               | Some reply =>
                   notify_connection (Switch.connection_for (dst_port (header reply))
                                        (src_port (header reply)) sw) e
               | None => e
               end in
      if is_stale sw r then (true, (set_pending_rx None s, e)) else (false, (set_pending_rx r s, e))
  end.

Definition process_rx (batch : QueueBatch) (head : Z) (c : State * env) : RxStep * (State * env) :=
  match descriptor_table batch with
  | None => (Completed 0, c)
  | Some table =>
      match chain table head (size batch) with
      | Err _ => (Completed 0, c)
      | Ok descriptors =>
          match total_len usize_max 0 descriptors with
          | None => (Completed 0, c)
          | Some capacity =>
              if existsb (λ d, negb (is_writable d)) descriptors then (Completed 0, c) else
              if negb ((VSOCK_HEADER_BYTES <=? capacity) && (capacity <=? MAX_PACKET))
              then (Completed 0, c) else
              let '(again, (s, e)) := refill c in
              if again : bool then (Retry, (s, e)) else
              match pending_rx s with
              | None => (Idle, (s, e))
              | Some reply =>
                  let '((r, reply), h) := write_rx_packet usize_max reply descriptors capacity (mem e) in
                  let e := set_mem h e in
                  match r with
                  | Err _ => (Completed 0, (set_pending_rx (Some reply) s, e))
                  | Ok len =>
                      (Completed len,
                       (set_pending_rx (if bool_decide (payload reply = []) then None
                                        else Some reply) s, e))
                  end
              end
          end
      end
  end.

(** ** One turn of the device *)

Record batches := mkBatches {
  tx : option QueueBatch;
  rx : option QueueBatch;
  rx_enabled : bool;
  progressed : bool;
  has_tx_payload : bool;
}.

Definition head_of (b : option QueueBatch) : option (QueueBatch * Z) :=
  batch ← b; head ← next_head batch; Some (batch, head).

Definition step_tx (b : batches) (e : env) : option (bool * batches * env) :=
  match head_of (tx b) with
  | None => Some (false, b, e)
  | Some (batch, head) =>
      '(payload, e) ← process_tx batch head e;
      Some (true, mkBatches (Some (complete (head, 0) batch)) (rx b) true (progressed b)
                    (has_tx_payload b || payload), e)
  end.

Definition step_rx (moved : bool) (b : batches) (c : State * env)
    : bool * batches * (State * env) :=
  if rx_enabled b then
    match head_of (rx b) with
    | None => (moved, b, c)
    | Some (batch, head) =>
        match process_rx batch head c with
        | (Completed len, c) =>
            (true, mkBatches (tx b) (Some (complete (head, len) batch)) true (progressed b)
                     (has_tx_payload b), c)
        | (Retry, c) => (true, b, c)
        | (Idle, c) => (moved, mkBatches (tx b) (rx b) false (progressed b) (has_tx_payload b), c)
        end
    end
  else (moved, b, c).

(** The [for _ in 0..max_steps] loop. *)
Fixpoint steps (n : nat) (b : batches) (c : State * env) : option (batches * (State * env)) :=
  match n with
  | O => Some (b, c)
  | S n =>
      '(moved, b, e) ← step_tx b c.2;
      let '(moved, b, c) := step_rx moved b (c.1, e) in
      let b := mkBatches (tx b) (rx b) (rx_enabled b) (progressed b || moved) (has_tx_payload b) in
      if moved : bool then steps n b c else Some (b, c)
  end.

Definition capture (queue max_steps : Z) : stM (State * env) DeviceError (option QueueBatch) :=
  λ c,
  let '(s, e) := c in
  let '((r, h), n) := capture_queue_batch usize_max try_reserve (mmio s) queue (next_of queue s)
                        max_steps (mem e) in
  (r, (set_next queue n s, set_mem h e)).

Definition is_headed (b : option QueueBatch) : bool :=
  match head_of b with Some _ => true | None => false end.

Definition capture_pending_batches (max_steps : Z)
    : stM (State * env) DeviceError (option QueueBatch * option QueueBatch) :=
  (tx <- (λ c, if pending_of TX c.1 then capture TX max_steps c else (Ok None, c));;
   rx <- (λ c, if pending_of RX c.1 || is_headed tx then capture RX max_steps c else (Ok None, c));;
   st_ret (tx, rx))%st.

(** The end of [process_pending] for one queue. *)
Definition finish_queue (queue : Z) (enabled : bool) (batch : option QueueBatch)
    : stM (State * env) DeviceError bool :=
  λ c,
  let c := (set_pending queue (match batch with
                               | Some b => has_remaining b && enabled
                               | None => false
                               end) c.1, c.2) in
  match batch with
  | Some b => publish_batch queue b c
  | None => (Ok false, c)
  end.

Definition finish (b : batches) : stM (State * env) DeviceError bool :=
  (tx_interrupt <- finish_queue TX true (tx b);;
   rx_interrupt <- finish_queue RX (rx_enabled b) (rx b);;
   λ c,
   let tx_requested := match tx b with
                       | Some batch => if tx_interrupt : bool then zlen (completions batch) else 0
                       | None => 0
                       end in
   (Ok (progressed b),
    (request_used_interrupt rx_interrupt (has_tx_payload b) tx_requested c.1, c.2)))%st.

Definition process_pending (max_steps : nat) : device → option (result DeviceError bool * device) :=
  locked (λ c,
    match capture_pending_batches (Z.of_nat max_steps) c with
    | (Err e, c) => Some (Err e, c)
    | (Ok (tx, rx), c) =>
        '(b, c) ← steps max_steps
                    (mkBatches tx rx (pending_of RX c.1 || is_headed tx) false false) c;
        Some (finish b c)
    end).

(** ** The other operations *)

Definition write_transport (addr width value : Z) (c : State * env)
    : option (result DeviceError unit * (State * env)) :=
  let '(s, e) := c in
  match Transport.write addr width value (mmio s) with
  | (Err err, t) => Some (Err (from_mmio err), (set_mmio t s, e))
  | (Ok Transport.NoOutcome, t) => Some (Ok tt, (set_mmio t s, e))
  | (Ok (Transport.QueueNotify queue), t) =>
      let s := set_mmio t s in
      Some (Ok tt, (if queue <? zlen (pending s) then set_pending queue true s else s,
                    wake_worker e))
  | (Ok Transport.Reset, t) => c ← reset_transport (set_mmio t s, e); Some (Ok tt, c)
  end.

Definition mmio_read (addr width : Z) : device → option (result DeviceError Z * device) :=
  locked (λ c, Some (map_err from_mmio (Transport.read addr width (mmio c.1)), c)).
Definition mmio_write (addr width value : Z) : device → option (result DeviceError unit * device) :=
  locked (write_transport addr width value).

Definition configure (d : device) : result DeviceError unit * device :=
  if Doorbell.is_closed (bell (world d)) then (Err NotReady, d) else
  (Ok tt, mkDevice (Some new_state) (set_line false (world d))).

Definition suppress_tx_notifications (c : State * env) : State * env :=
  let '(s, e) := c in
  match Transport.queue_addrs_for TX (mmio s) with
  | None => c
  | Some (_, _, used_ring, _) =>
      let '(r, h) := VsockQueues.write usize_max used_ring (le_bytes 2 NO_NOTIFY) (mem e) in
      (if is_ok r then set_pending TX true s else s, set_mem h e)
  end.

Definition rearm_tx_notifications : stM (State * env) DeviceError bool :=
  λ c,
  let '(s, e) := c in
  match Transport.queue_addrs_for TX (mmio s) with
  | None => (Ok false, (set_pending TX false s, e))
  | Some (_, available_ring, used_ring, size) =>
      let '(w, h) := VsockQueues.write usize_max used_ring (le_bytes 2 0) (mem e) in
      let '(refused, h) :=
        match w with
        | Ok _ => (None, h)
        | Err error =>
            let '(r, h) := VsockQueues.read usize_max try_reserve used_ring 2 h in
            let flags := match r with
                         | Ok bs => if zlen bs =? 2 then Some (from_le bs) else None
                         | Err _ => None
                         end in
            (match flags with
             | Some flags => if Z.land flags NO_NOTIFY =? 0 then None else Some error
             | None => None
             end, h)
        end in
      match refused with
      | Some error => (Err error, (s, set_mem h e))
      | None =>
          match (a <- st_lift (at_ available_ring 2);;
                 bs <- VsockQueues.read usize_max try_reserve a 2;;
                 if zlen bs =? 2 then st_ret (from_le bs) else st_err BadLen)%st h with
          | (Err error, h) => (Err error, (s, set_mem h e))
          | (Ok available, h) =>
              let '(count, n) := resync_pending_queue_entries (next_of TX s) available size in
              (Ok (negb (count =? 0)), (set_pending TX (negb (count =? 0)) (set_next TX n s),
                                       set_mem h e))
          end
      end
  end.

Definition suppress_transmit_notifications : device → option (result DeviceError unit * device) :=
  locked (λ c, Some (Ok tt, suppress_tx_notifications c)).
Definition rearm_transmit_notifications : device → option (result DeviceError bool * device) :=
  locked (λ c, Some (rearm_tx_notifications c)).

Definition has_pending_reply_for (id : ConnectionId) (d : device) : bool * device :=
  match locked (λ c, Some (Ok (match pending_rx c.1 with
                               | Some reply =>
                                   (src_port (header reply) =? id_host_port id)
                                   && (dst_port (header reply) =? id_guest_port id)
                                   && Switch.is_reply_current reply (switch c.2)
                               | None => false
                               end), c)) d with
  | Some (Ok b, d) => (b, d)
  | Some (Err _, d) => (false, d)
  | None => (false, d)
  end.

Definition has_held_interrupt (d : device) : bool * device :=
  match locked (λ c, Some (Ok (negb (held_tx_completions c.1 =? 0)), c)) d with
  | Some (Ok b, d) => (b, d)
  | Some (Err _, d) => (false, d)
  | None => (false, d)
  end.

Definition flush_held_interrupt : device → option (result DeviceError unit * device) :=
  locked (λ c,
    let '(s, e) := c in
    Some (Ok tt, (if held_tx_completions s =? 0 then s
                  else set_mmio (Transport.signal Transport.INT_USED_BUFFER (mmio s)) (set_held 0 s),
                  e))).

Definition schedule_receive_queue (d : device) : option device :=
  '(_, d) ← locked (λ c, Some (Ok tt, (set_pending RX true c.1, c.2))) d;
  Some (mkDevice (st d) (wake_worker (world d))).

Definition reset (d : device) : option device :=
  if Doorbell.is_closed (bell (world d)) then Some d else
  let d := (configure d).2 in
  sw ← Switch.reset_connections (switch (world d));
  Some (mkDevice (st d) (set_switch sw (world d))).

Definition close (d : device) : option device :=
  let e := set_line false (set_bell (Doorbell.close (bell (world d))).2.1 (world d)) in
  sw ← Switch.reset_connections (switch e);
  Some (mkDevice None (set_switch sw e)).

(** ** The invariant

    [ctx_ok] is what holds with the lock held. The switch is not invariant but
    moves by its own operations: [sw_run]. *)

Definition sw_run (sw sw' : VsockSwitch.VsockSwitch) : Prop :=
  ∃ ops, Forall (λ o, Switch.sop_ok o ∧ VsockPayload.sop_pays bytes o) ops ∧
         Switch.run ops sw = Some sw'.

Record ctx_ok (c : State * env) : Prop := {
  cx_bus : bus_ok (mmio new_state) (mmio c.1) (line c.2);
  cx_next : length (next c.1) = 2%nat ∧ Forall u16 (next c.1);
  cx_pending : length (pending c.1) = 2%nat;
  cx_held : 0 ≤ held_tx_completions c.1 < MAX_HELD_TX_COMPLETIONS;
  cx_reply : ∀ r, pending_rx c.1 = Some r → bytes (payload r);
  cx_switch : VsockPayload.sw_pays bytes (switch c.2);
}.

Lemma run_app ops1 ops2 sw sw1 :
  Switch.run ops1 sw = Some sw1 → Switch.run (ops1 ++ ops2) sw = Switch.run ops2 sw1.
Proof.
  revert sw. induction ops1 as [|o ops1 IH]; intros sw Hr; cbn [Switch.run app] in *.
  - by injection Hr as ->.
  - destruct (Switch.apply_sop o sw) as [sw2|]; [|done]. by apply IH.
Qed.

#[local] Instance sw_run_preorder : PreOrder sw_run.
Proof.
  split.
  - intros sw. by exists [].
  - intros a b c (o1 & H1 & R1) (o2 & H2 & R2). exists (o1 ++ o2). split; [by apply Forall_app|].
    by rewrite (run_app _ _ _ _ R1).
Qed.

Lemma sw_run_once o sw sw' :
  Switch.sop_ok o → VsockPayload.sop_pays bytes o → Switch.apply_sop o sw = Some sw' → sw_run sw sw'.
Proof.
  intros Ho Hp Ha. exists [o]. split; [by apply Forall_singleton|]. cbn [Switch.run]. by rewrite Ha.
Qed.

Lemma sw_run_pays sw sw' :
  sw_run sw sw' → VsockPayload.sw_pays bytes sw → VsockPayload.sw_pays bytes sw'.
Proof.
  intros (ops & Hops & Hr). revert sw Hr. induction Hops as [|o ops [_ Ho] _ IH]; intros sw Hr Hs;
    cbn [Switch.run] in Hr; [by injection Hr as <-|].
  destruct (Switch.apply_sop o sw) as [sw1|] eqn:Ha; [|done]. apply (IH sw1 Hr).
  eapply VsockPayload.apply_sop_pays; [constructor|exact Ho|exact Ha|exact Hs].
Qed.

(** Memory that changed only where [Q] allows. *)
Definition only_at (Q : Z → Prop) (h h' : H) : Prop :=
  (∀ x, ¬ Q x → gm_byte h' x = gm_byte h x) ∧ (∀ a n, gm_mapped h' a n ↔ gm_mapped h a n).

Lemma only_in_at (Q : Z → Prop) rs (h h' : H) :
  (∀ r x, r ∈ rs → r.1 ≤ x < r.1 + r.2 → Q x) → only_in rs h h' → only_at Q h h'.
Proof.
  intros Hrs [H1 H2]. split; [|done]. intros x Hx. apply H1, Forall_forall. intros r Hr Hin.
  by apply Hx, (Hrs r).
Qed.

(** One action of the device with the lock held: it keeps the invariant, moves
    the switch by its operations, leaves the register file alone and stores only
    where [Q] allows. *)
Record moves (Q : Z → Prop) (c c' : State * env) : Prop := {
  mv_ok : ctx_ok c → ctx_ok c';
  mv_switch : sw_run (switch c.2) (switch c'.2);
  mv_mmio : mmio c'.1 = mmio c.1;
  mv_mem : ctx_ok c → only_at Q (mem c.2) (mem c'.2);
}.

#[local] Instance moves_preorder Q : PreOrder (moves Q).
Proof.
  split.
  - intros c. split; [done|reflexivity|done|by intros].
  - intros a b c [O1 S1 M1 F1] [O2 S2 M2 F2]. split.
    + auto.
    + by etrans.
    + by rewrite M2.
    + intros Ha. destruct (F1 Ha) as [X1 Y1], (F2 (O1 Ha)) as [X2 Y2]. split.
      * intros x Hx. by rewrite X2, X1.
      * intros. by rewrite Y2.
Qed.

(** The state changes, the world does not. *)
Lemma moves_state Q s e s' : mmio s' = mmio s → (ctx_ok (s, e) → ctx_ok (s', e)) → moves Q (s, e) (s', e).
Proof. intros Hm Ho. split; [done|reflexivity|done|done]. Qed.

Lemma ctx_switch s e sw ids : 
  ctx_ok (s, e) → VsockPayload.sw_pays bytes sw →
  ctx_ok (s, mkEnv (mem e) (line e) sw ids (bell e)).
Proof. intros [B N P' D R S] Hs. by split. Qed.

Lemma ctx_mem s e h : ctx_ok (s, e) → ctx_ok (s, set_mem h e).
Proof. intros [B N P' D R S]. by split. Qed.

Lemma ctx_next q n s e : u16 n → ctx_ok (s, e) → ctx_ok (set_next q n s, e).
Proof.
  intros Hn [B [N1 N2] P' D R S]. split; try done. cbn [fst next set_next].
  split; [by rewrite length_insert|by apply Forall_insert].
Qed.

Lemma ctx_pending q b s e : ctx_ok (s, e) → ctx_ok (set_pending q b s, e).
Proof. intros [B N P' D R S]. split; try done. cbn [fst pending set_pending]. by rewrite length_insert. Qed.

Lemma ctx_reply r s e :
  (∀ x, r = Some x → bytes (payload x)) → ctx_ok (s, e) → ctx_ok (set_pending_rx r s, e).
Proof. intros Hr [B N P' D R S]. by split. Qed.

Lemma vsock_next_u16 q s e : ctx_ok (s, e) → u16 (next_of q s).
Proof.
  intros [_ [_ Hn] _ _ _ _]. unfold next_of. destruct (next s !! Z.to_nat q) as [n|] eqn:Hl; [|done].
  by eapply Forall_lookup_1 in Hn.
Qed.

(** An armed queue has a valid size and non-negative addresses. *)
Lemma armed_size q c table avail used sz :
  ctx_ok c → Transport.queue_addrs_for q (mmio c.1) = Some (table, avail, used, sz) → 0 < sz.
Proof.
  intros [[Hwf (_ & _ & _ & Hmax & _) _] _ _ _ _ _]. unfold Transport.queue_addrs_for.
  destruct (Transport.queues _ !! _) as [r|] eqn:Hr; [|done]. cbn [mbind option_bind].
  destruct (Transport.ready r) eqn:Hrd; [|done]. intros [= <- <- <- <-].
  pose proof (Transport.wf_queues _ Hwf) as Hq. eapply Forall_lookup_1 in Hq; [|exact Hr].
  destruct Hq as [Hnum _ Hready]. destruct (Hready Hrd) as [Hnz _].
  destruct Hnum as [?|Hv]; [done|]. unfold Transport.valid_queue_size, is_power_of_two in Hv.
  breflect. lia.
Qed.

(** Only the switch and the notifications change. *)
Lemma moves_switch Q s e sw ids :
  sw_run (switch e) sw → moves Q (s, e) (s, mkEnv (mem e) (line e) sw ids (bell e)).
Proof.
  intros Hr. split; [|done|done|done]. intros Hc. apply ctx_switch; [done|].
  eapply sw_run_pays; [exact Hr|apply Hc].
Qed.

Lemma moves_trans Q a b c : moves Q a b → moves Q b c → moves Q a c.
Proof. intros H1 H2. by transitivity b. Qed.

(** ** Taking a packet from the guest *)

Lemma process_tx_moves Q batch head s e b e' :
  process_tx batch head e = Some (b, e') → moves Q (s, e) (s, e').
Proof.
  unfold process_tx. destruct (descriptor_table batch) as [table|]; [|by intros [= _ <-]].
  destruct (chain table head (size batch)) as [ds|]; [|by intros [= _ <-]].
  destruct (read_tx_packet_spec usize_max try_reserve ds (mem e)) as [Hp Hok].
  destruct (read_tx_packet _ _ ds (mem e)) as [r h]; cbn [fst snd] in Hp, Hok. subst h.
  assert (He : set_mem (mem e) e = e) by by destruct e. rewrite He.
  destruct r as [[[hd data]|]|err]; [|by intros [= _ <-]..].
  destruct (Switch.rx hd data (switch e)) as [[touched sw]|] eqn:Hrx; [|done].
  cbn [mbind option_bind]. intros [= _ <-]. apply (moves_switch _ _ e).
  apply (sw_run_once (Switch.SRx hd data)); [by eapply Hok|done|]. cbn [Switch.apply_sop].
  by rewrite Hrx.
Qed.

(** ** Giving a packet to the guest *)

Lemma refill_moves Q c again c' :
  ctx_ok c → refill c = (again, c') → moves Q c c'.
Proof.
  intros Hc. destruct c as [s e]. unfold refill.
  set (s0 := if is_stale (switch e) (pending_rx s) then set_pending_rx None s else s).
  assert (H0 : moves Q (s, e) (s0, e)).
  { unfold s0. destruct (is_stale _ _); [|done]. apply moves_state; [done|]. by apply ctx_reply. }
  assert (Hc0 : ctx_ok (s0, e)) by by apply H0.
  clearbody s0. destruct (pending_rx s0); [by intros [= <- <-]|].
  destruct (Switch.take_reply MAX_PACKET (switch e)) as [r sw] eqn:Ht.
  assert (Hrun : sw_run (switch e) sw).
  { apply (sw_run_once (Switch.STake 1 MAX_PACKET)); [done|done|].
    cbn [Switch.apply_sop Switch.take_replies_up_to]. rewrite Ht. by destruct r. }
  apply VsockPayload.take_reply_sw_pays with (P := bytes) in Ht as [_ Hr]; [|apply Hc0].
  set (e1 := match r with Some _ => _ | None => _ end).
  assert (H1 : moves Q (s0, e) (s0, e1)).
  { unfold e1. destruct r; apply (moves_switch _ _ e), Hrun. }
  clearbody e1. intros Heq.
  assert (Hs : ∃ r', c' = (set_pending_rx r' s0, e1) ∧ (∀ x, r' = Some x → bytes (payload x))).
  { destruct (is_stale sw r); injection Heq as _ <-; eexists; (split; [done|]); [done|exact Hr]. }
  destruct Hs as (r' & -> & Hr'). eapply moves_trans; [exact H0|]. eapply moves_trans; [exact H1|].
  apply moves_state; [done|]. by apply ctx_reply.
Qed.

(** The batch belongs to the armed queue [q] of [t], and its table is the one
    memory held when it was captured. *)
Definition batch_for (q : Z) (t : Transport.MmioTransport) (h : H) (b : QueueBatch) : Prop :=
  ∃ table avail used sz,
    Transport.queue_addrs_for q t = Some (table, avail, used, sz) ∧ 0 < sz ∧
    size b = sz ∧ used_ring b = used ∧ Forall (λ x, 0 ≤ x) (heads b) ∧
    (∀ tb, descriptor_table b = Some tb → tb = peek (gm_byte h) table (sz * 16)).

(** What the device may store to: the used rings, and the buffers the guest
    offered for receiving. *)
Definition may_write (t : Transport.MmioTransport) (h : H) (x : Z) : Prop :=
  (∃ q table avail used sz, q ∈ [TX; RX] ∧
     Transport.queue_addrs_for q t = Some (table, avail, used, sz) ∧ used ≤ x < used + 4 + 8 * sz) ∨
  (∃ table avail used sz d,
     Transport.queue_addrs_for RX t = Some (table, avail, used, sz) ∧
     in_table (peek (gm_byte h) table (sz * 16)) sz d ∧ is_writable d = true ∧
     d_addr d ≤ x < d_addr d + d_len d).

Lemma process_rx_moves t h0 batch head c step c' :
  batch_for RX t h0 batch → 0 ≤ head → ctx_ok c →
  process_rx batch head c = (step, c') → moves (may_write t h0) c c'.
Proof.
  intros (table & avail & used & sz & Hq & Hsz & Hsize & _ & _ & Htab) Hh Hc. unfold process_rx.
  destruct (descriptor_table batch) as [tb|] eqn:Htb; [|by intros [= _ <-]].
  rewrite (Htab tb eq_refl), Hsize.
  assert (Hbytes : bytes (peek (gm_byte h0) table (sz * 16))) by apply peek_bytes, gm_byte_u8.
  destruct (chain _ head sz) as [ds|] eqn:Hch; [|by intros [= _ <-]].
  apply chain_in_table in Hch as [Hin Hlen]; [|done|done|lia].
  destruct (total_len usize_max 0 ds) as [capacity|] eqn:Htot; [|by intros [= _ <-]].
  destruct (existsb _ ds) eqn:Hw; [by intros [= _ <-]|].
  destruct (_ && _) eqn:Hcap; cbn [negb]; [|by intros [= _ <-]]. breflect.
  destruct (refill c) as [again [s e]] eqn:Hr. pose proof (refill_moves (may_write t h0) _ _ _ Hc Hr) as Hmv.
  assert (Hc1 : ctx_ok (s, e)) by by apply Hmv.
  destruct again; [by intros [= _ <-]|].
  destruct (pending_rx s) as [reply|] eqn:Hp; [|by intros [= _ <-]].
  destruct (write_rx_packet usize_max reply ds capacity (mem e)) as [[r reply'] h'] eqn:Hwr.
  apply rx_packet_spec in Hwr as (Hmem & _ & Hreply); [|done|by apply (cx_reply _ Hc1)|done|done].
  assert (Hb' : bytes (payload reply')).
  { pose proof (cx_reply _ Hc1 reply Hp) as Hb. destruct r as [len|]; [|by subst].
    destruct Hreply as [(_ & _ & _ & -> & _)|(n & _ & _ & _ & _ & _ & Hpay & _)]; [done|].
    rewrite Hpay in Hb. by apply Forall_app in Hb as [_ ?]. }
  intros Heq. eapply moves_trans; [exact Hmv|].
  assert (Hs : ∃ p, c' = (set_pending_rx p s, set_mem h' e) ∧ (∀ x, p = Some x → bytes (payload x))).
  { destruct r; injection Heq as _ <-; eexists; (split; [done|]); [|by intros x [= <-]].
    case_bool_decide; [done|]. by intros x [= <-]. }
  destruct Hs as (p & -> & Hpb). split.
  - intros _. by apply ctx_reply, ctx_mem.
  - reflexivity.
  - done.
  - intros _. eapply only_in_at; [|exact Hmem]. intros rg x Hrg Hx.
    apply list_elem_of_fmap in Hrg as (d & -> & Hd). right. exists table, avail, used, sz, d.
    cbn [fst snd] in Hx. split_and!; [done| | |lia|lia].
    + rewrite Forall_forall in Hin. by apply Hin.
    + destruct (is_writable d) eqn:Hwd; [done|]. exfalso.
      assert (existsb (λ d, negb (is_writable d)) ds = true); [|congruence].
      apply existsb_exists. exists d. split; [by apply list_elem_of_In|by rewrite Hwd].
Qed.
(** ** A turn *)

Definition opt_for (q : Z) (t : Transport.MmioTransport) (h : H) (b : option QueueBatch) : Prop :=
  ∀ x, b = Some x → batch_for q t h x.
Definition batches_for (t : Transport.MmioTransport) (h : H) (b : batches) : Prop :=
  opt_for TX t h (tx b) ∧ opt_for RX t h (rx b).

Lemma opt_for_complete q t h x b :
  batch_for q t h b → opt_for q t h (Some (complete x b)).
Proof. intros Hb y [= <-]. exact Hb. Qed.

Lemma head_of_inv q t h b x head :
  opt_for q t h b → head_of b = Some (x, head) → b = Some x ∧ batch_for q t h x ∧ 0 ≤ head.
Proof.
  unfold head_of. intros Hb. destruct b as [y|]; [|done]. cbn [mbind option_bind].
  destruct (next_head y) as [k|] eqn:Hn; [|done]. cbn [mbind option_bind]. intros [= <- <-].
  specialize (Hb y eq_refl). split_and!; [done|done|].
  destruct Hb as (? & ? & ? & ? & _ & _ & _ & _ & Hh & _). by eapply Forall_lookup_1 in Hh.
Qed.

Lemma step_tx_moves Q t h0 b s e moved b' e' :
  batches_for t h0 b → step_tx b e = Some (moved, b', e') →
  moves Q (s, e) (s, e') ∧ batches_for t h0 b'.
Proof.
  intros [Htx Hrx]. unfold step_tx. destruct (head_of (tx b)) as [[batch head]|] eqn:Hh.
  - apply (head_of_inv TX t h0) in Hh as (_ & Hb & _); [|done].
    destruct (process_tx batch head e) as [[pay e1]|] eqn:Hp; [|done]. cbn [mbind option_bind].
    intros [= _ <- <-]. split; [by eapply process_tx_moves|].
    split; [by apply opt_for_complete|done].
  - intros [= _ <- <-]. by split.
Qed.

Lemma step_rx_moves t h0 moved b c moved' b' c' :
  batches_for t h0 b → ctx_ok c → step_rx moved b c = (moved', b', c') →
  moves (may_write t h0) c c' ∧ batches_for t h0 b'.
Proof.
  intros [Htx Hrx] Hc. unfold step_rx. destruct (rx_enabled b); [|by intros [= _ <- <-]].
  destruct (head_of (rx b)) as [[batch head]|] eqn:Hh; [|by intros [= _ <- <-]].
  apply (head_of_inv RX t h0) in Hh as (_ & Hb & Hpos); [|done].
  destruct (process_rx batch head c) as [step c1] eqn:Hp.
  apply (process_rx_moves t h0) in Hp; [|done..].
  destruct step; intros [= _ <- <-]; (split; [done|]); [|done|done].
  split; [done|by apply opt_for_complete].
Qed.

Lemma steps_moves n t h0 b c b' c' :
  batches_for t h0 b → ctx_ok c → steps n b c = Some (b', c') →
  moves (may_write t h0) c c' ∧ batches_for t h0 b'.
Proof.
  revert b c. induction n as [|n IH]; intros b [s e] Hb Hc; cbn [steps]; [by intros [= <- <-]|].
  cbn [fst snd]. destruct (step_tx b e) as [[[m1 b1] e1]|] eqn:Ht; [|done]. cbn [mbind option_bind].
  apply (step_tx_moves (may_write t h0) t h0 b s) in Ht as [M1 B1]; [|done].
  assert (C1 : ctx_ok (s, e1)) by by apply M1.
  destruct (step_rx m1 b1 (s, e1)) as [[m2 b2] c2] eqn:Hr.
  apply (step_rx_moves t h0) in Hr as [M2 B2]; [|done..].
  destruct m2.
  - intros Hs. apply IH in Hs as [M3 B3]; [|exact B2|by apply M2].
    split; [|done]. eapply moves_trans; [exact M1|]. by eapply moves_trans.
  - intros [= <- <-]. split; [by eapply moves_trans|exact B2].
Qed.

(** ** Capturing *)

Lemma capture_moves Q q mx c r c' :
  ctx_ok c → capture q mx c = (r, c') →
  moves Q c c' ∧ mem c'.2 = mem c.2 ∧ (∀ b, r = Ok b → opt_for q (mmio c.1) (mem c.2) b).
Proof.
  intros Hc. destruct c as [s e]. unfold capture.
  destruct (capture_queue_batch _ _ _ _ _ _ _) as [[r1 h1] n] eqn:Hcap.
  assert (Hx : h1 = mem e ∧ u16 n ∧ ∀ b, r1 = Ok b → opt_for q (mmio s) (mem e) b).
  { destruct (Transport.queue_addrs_for q (mmio s)) as [[[[table avail] used] sz]|] eqn:Hq.
    - pose proof (armed_size _ _ _ _ _ _ Hc Hq) as Hsz.
      eapply capture_spec in Hcap; [|by eapply vsock_next_u16|exact Hq|lia].
      destruct Hcap as (-> & Hn & Hb). split_and!; [done|done|]. intros b -> x ->.
      destruct (Hb x eq_refl) as [P1 P2 P3 P4 P5]. by exists table, avail, used, sz.
    - unfold capture_queue_batch in Hcap. rewrite Hq in Hcap. injection Hcap as <- <- <-.
      split_and!; [done|by eapply vsock_next_u16|]. by intros b [= <-] x. }
  destruct Hx as (-> & Hn & Hb). intros [= <- <-].
  assert (He : set_mem (mem e) e = e) by by destruct e. rewrite He.
  split_and!; [|done|exact Hb]. apply moves_state; [done|]. by apply ctx_next.
Qed.

Lemma capture_pending_moves Q mx c r c' :
  ctx_ok c → capture_pending_batches mx c = (r, c') →
  moves Q c c' ∧ mem c'.2 = mem c.2 ∧
  (∀ a b, r = Ok (a, b) → opt_for TX (mmio c.1) (mem c.2) a ∧ opt_for RX (mmio c.1) (mem c.2) b).
Proof.
  intros Hc. unfold capture_pending_batches, st_bind, st_ret.
  set (o1 := if pending_of TX c.1 then capture TX mx c else (Ok None, c)).
  assert (H1 : moves Q c o1.2 ∧ mem o1.2.2 = mem c.2 ∧
    (∀ b, o1.1 = Ok b → opt_for TX (mmio c.1) (mem c.2) b)).
  { unfold o1. destruct (pending_of TX c.1); [|split_and!; [done|done|by intros b [= <-]]].
    destruct (capture TX mx c) as [r1 c1] eqn:Hcap. by eapply capture_moves. }
  destruct o1 as [[a|err] c1]; cbn [fst snd] in H1; destruct H1 as (M1 & E1 & B1);
    [|by intros [= <- <-]].
  assert (C1 : ctx_ok c1) by by apply M1.
  set (o2 := if pending_of RX c1.1 || is_headed a then capture RX mx c1 else (Ok None, c1)).
  assert (H2 : moves Q c1 o2.2 ∧ mem o2.2.2 = mem c.2 ∧
    (∀ b, o2.1 = Ok b → opt_for RX (mmio c.1) (mem c.2) b)).
  { unfold o2. destruct (_ || _); [|split_and!; [done|done|by intros b [= <-]]].
    destruct (capture RX mx c1) as [r2 c2] eqn:Hcap.
    rewrite <-E1, <-(mv_mmio _ _ _ M1). by eapply capture_moves. }
  destruct o2 as [[b|err] c2]; cbn [fst snd] in H2; destruct H2 as (M2 & E2 & B2);
    intros [= <- <-]; (split_and!; [by eapply moves_trans|done|]); [|done].
  intros a' b' [= <- <-]. split; [by apply B1|by apply B2].
Qed.

(** ** Publishing *)

Lemma store_used q t h0 used sz ws h r h' table avail :
  q ∈ [TX; RX] → Transport.queue_addrs_for q t = Some (table, avail, used, sz) →
  Forall (used_ok used sz) ws → VsockQueues.write_ranges ws h = (r, h') →
  only_at (may_write t h0) h h'.
Proof.
  intros Hq Ha Hws Hw. unfold VsockQueues.write_ranges in Hw.
  assert (Hb : Forall (λ w, bytes w.2) ws) by (eapply Forall_impl; [exact Hws|]; by intros w (_ & _ & ?)).
  destruct r as [[]|err].
  - apply (@gm_write_ranges_inv H DeviceError host_memory) in Hw as [H1 H2]; [|done].
    change (@gm_byte H DeviceError host_memory) with (@gm_byte H E GM) in H1.
    split; [|exact H2]. intros x Hx. rewrite H1. apply patches_out.
    eapply Forall_impl; [exact Hws|]. intros w (L1 & L2 & _) Hin. apply Hx. left.
    exists q, table, avail, used, sz. split_and!; [done|done|lia|lia].
  - by apply (@gm_write_ranges_err H DeviceError host_memory) in Hw as ->.
Qed.

Lemma publish_moves q t h0 b c r c' :
  q ∈ [TX; RX] → batch_for q t h0 b → ctx_ok c → publish_batch q b c = (r, c') →
  moves (may_write t h0) c c'.
Proof.
  intros Hq (table & avail & used & sz & Ha & Hsz & Hs & Hu & _ & _) Hc. destruct c as [s e].
  unfold publish_batch. case_bool_decide; [by intros [= _ <-]|].
  unfold st_bind at 1, st_lift. destruct (completion_ranges _ _ _ _) as [ws|err] eqn:Hr;
    [|by intros [= _ <-]].
  apply completion_ranges_inside in Hr. rewrite Hs, Hu in Hr.
  unfold st_bind, on_memory. cbn [fst snd].
  destruct (VsockQueues.write_ranges ws (mem e)) as [r1 h1] eqn:Hw.
  eapply store_used in Hw; [|exact Hq|exact Ha|exact Hr].
  assert (M1 : moves (may_write t h0) (s, e) (s, set_mem h1 e)).
  { split; [by apply ctx_mem|reflexivity|done|done]. }
  destruct r1 as [[]|err]; [|by intros [= _ <-]].
  destruct (U16_MAX <? _); [by intros [= _ <-]|].
  set (n := wrapping_add16 _ _).
  assert (M2 : moves (may_write t h0) (s, e) (set_next q n s, set_mem h1 e)).
  { eapply moves_trans; [exact M1|]. apply moves_state; [done|]. apply ctx_next.
    unfold n, wrapping_add16, wrap16, u16. by apply Z.mod_pos_bound. }
  intros Heq. apply (f_equal snd) in Heq. cbn [snd] in Heq. subst c'.
  destruct (Transport.queue_addrs_for q (mmio (set_next q n s))) as [[[[? av] ?] ?]|]; [|exact M2].
  pose proof (read_pure usize_max try_reserve av 2 (mem (set_mem h1 e))) as Hp.
  destruct (VsockQueues.read _ _ _ _ _) as [r2 h2]. cbn [snd mem set_mem] in Hp. by subst h2.
Qed.
Lemma finish_queue_moves q en t h0 b c r c' :
  q ∈ [TX; RX] → opt_for q t h0 b → ctx_ok c → finish_queue q en b c = (r, c') →
  moves (may_write t h0) c c'.
Proof.
  intros Hq Hb Hc. destruct c as [s e]. unfold finish_queue. cbn [fst snd].
  set (s1 := set_pending q _ s).
  assert (M1 : moves (may_write t h0) (s, e) (s1, e))
    by (apply moves_state; [done|by apply ctx_pending]).
  destruct b as [b|]; [|by intros [= _ <-]]. intros Hp. eapply moves_trans; [exact M1|].
  eapply publish_moves; [exact Hq|by apply Hb|by apply M1|exact Hp].
Qed.

(** ** Every operation

    [acts] is [moves] for an operation that may also change the register file. *)
Record acts (Q : Z → Prop) (c c' : State * env) : Prop := {
  ac_ok : ctx_ok c';
  ac_switch : sw_run (switch c.2) (switch c'.2);
  ac_mem : only_at Q (mem c.2) (mem c'.2);
}.

Lemma moves_acts Q c c' : ctx_ok c → moves Q c c' → acts Q c c'.
Proof. intros Hc [O S M F]. split; auto. Qed.

Lemma acts_after Q c c1 c2 : moves Q c c1 → ctx_ok c → acts Q c1 c2 → acts Q c c2.
Proof.
  intros [O S M F] Hc [O2 S2 F2]. split; [done|by etrans|].
  destruct (F Hc) as [X1 Y1], F2 as [X2 Y2]. split.
  - intros x Hx. by rewrite X2, X1.
  - intros. by rewrite Y2.
Qed.

(** The register file changes, memory and the switch do not. *)
Lemma acts_state Q s e s' : ctx_ok (s', e) → acts Q (s, e) (s', e).
Proof. intros Hc. split; [done|reflexivity|done]. Qed.

Lemma ctx_mmio t n s e :
  0 ≤ n < MAX_HELD_TX_COMPLETIONS → bus_ok (mmio new_state) t (line e) → ctx_ok (s, e) →
  ctx_ok (set_mmio t (set_held n s), e).
Proof. intros Hn Hb [B N P' D R S]. by split. Qed.

Lemma used_request_ok rx_req pay n s e :
  0 ≤ n → ctx_ok (s, e) → ctx_ok (request_used_interrupt rx_req pay n s, e).
Proof.
  intros Hn Hc. unfold request_used_interrupt. cbn [held_tx_completions set_held].
  pose proof (cx_held _ Hc) as Hd. cbn [fst] in Hd.
  destruct (_ || _ || _) eqn:Hb.
  - apply (ctx_mmio _ 0 s e); [done| |done].
    apply bus_signal; [done|done|apply Hc].
  - apply orb_false_iff in Hb as [_ Hle]. apply Z.leb_gt in Hle. destruct Hc as [B N P' D R S].
    split; try done. cbn [fst held_tx_completions set_held] in *. lia.
Qed.

Lemma finish_acts t h0 b c r c' :
  batches_for t h0 b → ctx_ok c → finish b c = (r, c') → acts (may_write t h0) c c'.
Proof.
  intros [Htx Hrx] Hc. unfold finish, st_bind.
  destruct (finish_queue TX true (tx b) c) as [[ti|err] c1] eqn:H1;
    (eapply finish_queue_moves in H1; [|by left|exact Htx|done]);
    [|intros [= _ <-]; by apply moves_acts].
  assert (C1 : ctx_ok c1) by by apply H1.
  destruct (finish_queue RX (rx_enabled b) (rx b) c1) as [[ri|err] c2] eqn:H2;
    (eapply finish_queue_moves in H2; [|by right; left|exact Hrx|done]);
    [|intros [= _ <-]; eapply acts_after; [exact H1|done|by apply moves_acts]].
  assert (C2 : ctx_ok c2) by by apply H2.
  intros [= _ <-]. eapply acts_after; [exact H1|done|]. eapply acts_after; [exact H2|done|].
  destruct c2 as [s2 e2]. apply acts_state, used_request_ok; [|exact C2].
  destruct (tx b) as [x|]; [|done]. destruct ti; [apply zlen_nonneg|done].
Qed.

Lemma turn_acts n c r c' :
  ctx_ok c →
  (match capture_pending_batches (Z.of_nat n) c with
   | (Err e, c) => Some (Err e, c)
   | (Ok (tx, rx), c) =>
       '(b, c) ← steps n (mkBatches tx rx (pending_of RX c.1 || is_headed tx) false false) c;
       Some (finish b c)
   end) = Some (r, c') → acts (may_write (mmio c.1) (mem c.2)) c c'.
Proof.
  intros Hc. destruct (capture_pending_batches _ c) as [r1 c1] eqn:Hcap.
  apply (capture_pending_moves (may_write (mmio c.1) (mem c.2))) in Hcap as (M1 & _ & B1); [|done].
  destruct r1 as [[a b]|err]; [|intros [= _ <-]; by apply moves_acts].
  assert (C1 : ctx_ok c1) by by apply M1.
  destruct (steps _ _ c1) as [[b2 c2]|] eqn:Hs; [|done]. cbn [mbind option_bind].
  apply (steps_moves n (mmio c.1) (mem c.2)) in Hs as [M2 B2]; [|by apply B1|done].
  assert (C2 : ctx_ok c2) by by apply M2.
  intros [= Hf]. eapply acts_after; [exact M1|done|]. eapply acts_after; [exact M2|done|].
  by eapply finish_acts.
Qed.
Lemma flags_store q s e v r h table avail used sz :
  q ∈ [TX; RX] → ctx_ok (s, e) →
  Transport.queue_addrs_for q (mmio s) = Some (table, avail, used, sz) →
  VsockQueues.write usize_max used (le_bytes 2 v) (mem e) = (r, h) →
  moves (may_write (mmio s) (mem e)) (s, e) (s, set_mem h e).
Proof.
  intros Hq Hc Ha Hw. pose proof (armed_size _ _ _ _ _ _ Hc Ha) as Hsz.
  apply write_inv in Hw as [Hin _]; [|apply le_bytes_bytes].
  split; [by apply ctx_mem|reflexivity|done|]. intros _. eapply only_in_at; [|exact Hin].
  intros rg x Hrg Hx. apply list_elem_of_singleton in Hrg as ->. cbn [fst snd] in Hx.
  assert (Hl : zlen (le_bytes 2 v) = 2) by (unfold zlen; by rewrite le_bytes_length).
  left. exists q, table, avail, used, sz. split_and!; [done|done|lia|lia].
Qed.

Lemma suppress_acts c :
  ctx_ok c → acts (may_write (mmio c.1) (mem c.2)) c (suppress_tx_notifications c).
Proof.
  intros Hc. apply moves_acts; [done|]. destruct c as [s e]. unfold suppress_tx_notifications. cbn [fst snd].
  destruct (Transport.queue_addrs_for TX (mmio s)) as [[[[table avail] used] sz]|] eqn:Ha; [|done].
  destruct (VsockQueues.write _ _ _ _) as [r h] eqn:Hw.
  eapply flags_store in Hw; [|by left|done|exact Ha].
  eapply moves_trans; [exact Hw|]. destruct (is_ok r); [|done].
  apply moves_state; [done|]. by apply ctx_pending.
Qed.

Lemma rearm_acts c :
  ctx_ok c → acts (may_write (mmio c.1) (mem c.2)) c (rearm_tx_notifications c).2.
Proof.
  intros Hc. apply moves_acts; [done|]. destruct c as [s e]. unfold rearm_tx_notifications. cbn [fst snd].
  destruct (Transport.queue_addrs_for TX (mmio s)) as [[[[table avail] used] sz]|] eqn:Ha;
    [|by apply moves_state, ctx_pending].
  destruct (VsockQueues.write _ _ _ _) as [w h] eqn:Hw.
  eapply flags_store in Hw; [|by left|done|exact Ha].
  set (o := match w with Ok _ => _ | Err _ => _ end).
  assert (Ho : o.2 = h).
  { unfold o. destruct w; [done|]. pose proof (read_pure usize_max try_reserve used 2 h) as Hp.
    by destruct (VsockQueues.read _ _ _ _ _). }
  destruct o as [refused h']. cbn [snd] in Ho. subst h'. destruct refused; [exact Hw|].
  unfold st_bind, st_lift. destruct (at_ avail 2) as [a|err]; [|exact Hw].
  pose proof (read_pure usize_max try_reserve a 2 h) as Hp.
  pose proof (read_contents usize_max try_reserve a 2 h) as Hcn.
  destruct (VsockQueues.read _ _ _ _ _) as [[bs|err] h']; cbn [fst snd] in Hp, Hcn; subst h';
    [|exact Hw].
  specialize (Hcn bs ltac:(done) eq_refl).
  destruct (_ =? 2); [|exact Hw]. unfold st_ret.
  assert (Hu : u16 (from_le bs)).
  { pose proof (from_le_bound bs) as Hb. rewrite Hcn, peek_length in Hb by done.
    rewrite Hcn. apply Hb, peek_bytes, gm_byte_u8. }
  pose proof (resync_u16 (next_of TX s) (from_le bs) sz (vsock_next_u16 TX s e Hc) Hu) as Hn.
  destruct (resync_pending_queue_entries _ _ _) as [count n]. cbn [fst snd] in *.
  eapply moves_trans; [exact Hw|]. apply moves_state; [done|]. intros Hm.
  by apply ctx_pending, ctx_next.
Qed.

Lemma write_transport_acts Q addr width value c r c' :
  0 ≤ value → ctx_ok c → write_transport addr width value c = Some (r, c') → acts Q c c'.
Proof.
  intros Hv Hc. destruct c as [s e]. unfold write_transport.
  destruct (Transport.write addr width value (mmio s)) as [ro t] eqn:Hw.
  eapply bus_write in Hw; [|done|apply Hc]. cbn [fst snd] in Hw.
  assert (C1 : ctx_ok (set_mmio t s, e)) by (destruct Hc; by split).
  destruct ro as [[|queue|]|err]; [..|intros [= _ <-]; by apply acts_state];
    [intros [= _ <-]; by apply acts_state| |].
  - intros [= _ <-]. cbn [fst snd].
    assert (C2 : ctx_ok (if queue <? zlen (pending (set_mmio t s))
                         then set_pending queue true (set_mmio t s) else set_mmio t s, e))
      by (destruct (_ <? _); [by apply ctx_pending|done]).
    split; [by destruct C2; split|reflexivity|done].
  - unfold reset_transport. destruct (Switch.reset_connections _) as [sw|] eqn:Hr; [|done].
    cbn [mbind option_bind]. intros [= _ <-].
    assert (Hrun : sw_run (switch e) sw) by by apply (sw_run_once Switch.SReset).
    split; [|done|done]. destruct C1 as [B N P' D R S]. split; try done.
    + split; [done|]. by repeat constructor.
    + by eapply sw_run_pays.
Qed.
(** ** The device between calls *)

Record dev_ok (d : device) : Prop := {
  dv_switch : VsockPayload.sw_pays bytes (switch (world d));
  dv_state : ∀ s, st d = Some s → ctx_ok (s, world d) ∧ Transport.irq_dirty (mmio s) = false;
}.

(** Where the device may store. *)
Definition stores_of (d : device) (x : Z) : Prop :=
  ∃ s, st d = Some s ∧ may_write (mmio s) (mem (world d)) x.

Record advances (d d' : device) : Prop := {
  ad_ok : dev_ok d → dev_ok d';
  ad_switch : dev_ok d → sw_run (switch (world d)) (switch (world d'));
  ad_mem : dev_ok d → only_at (stores_of d) (mem (world d)) (mem (world d'));
}.

Lemma locked_advances {A} (f : State * env → option (result DeviceError A * (State * env))) d r d' :
  (∀ c r c', ctx_ok c → f c = Some (r, c') → acts (may_write (mmio c.1) (mem c.2)) c c') →
  locked f d = Some (r, d') → advances d d'.
Proof.
  intros Hf. unfold locked. destruct (st d) as [s|] eqn:Hs.
  - destruct (f (s, world d)) as [[r1 [s' e']]|] eqn:Hr; [|done]. cbn [mbind option_bind].
    destruct (Transport.take_irq (mmio s')) as [irq t] eqn:Ht. intros [= _ <-].
    assert (Ha : dev_ok d → acts (may_write (mmio s) (mem (world d))) (s, world d) (s', e')).
    { intros [_ Hd]. eapply (Hf (s, world d)); [by apply Hd|done]. }
    split; intros Hd; destruct (Ha Hd) as [O S M]; cbn [world fst snd] in *.
    + pose proof (bus_take_irq _ _ _ (cx_bus _ O)) as Hb. cbn [fst snd] in Hb. rewrite Ht in Hb.
      destruct Hb as (Hb & Hdirty & _). destruct O as [B N P' D R Sw]. split.
      { by destruct irq. }
      intros s2 [= <-]. split; [|done]. split; try done; [|by destruct irq].
      cbn [fst snd mmio set_mmio]. by destruct irq.
    + by destruct irq.
    + destruct irq; (destruct M as [M1 M2]; split; [|exact M2]; intros x Hx; apply M1; intros Hw;
        apply Hx; by exists s).
  - intros [= _ <-]. split; [done|by intros; reflexivity|done].
Qed.

(** A change of everything but memory. *)
Lemma advances_plain d d' :
  (dev_ok d → dev_ok d') → (dev_ok d → sw_run (switch (world d)) (switch (world d'))) →
  mem (world d') = mem (world d) → advances d d'.
Proof. intros H1 H2 H3. split; [done|done|]. intros _. by rewrite H3. Qed.

Lemma fresh_ctx e :
  VsockPayload.sw_pays bytes (switch e) → ctx_ok (new_state, set_line false e).
Proof.
  intros Hs. split; try done; [|by repeat constructor].
  split; [|done|done]. apply Transport.fresh_wf. by vm_compute.
Qed.

Lemma configure_advances d : advances d (configure d).2.
Proof.
  unfold configure. destruct (Doorbell.is_closed _); [by apply advances_plain|].
  apply advances_plain; [|by intros|done]. intros [Hs _]. split; [done|]. intros s [= <-].
  split; [by apply fresh_ctx|done].
Qed.

Lemma reset_advances d d' : reset d = Some d' → advances d d'.
Proof.
  unfold reset. destruct (Doorbell.is_closed _); [by intros [= <-]; apply advances_plain|].
  pose proof (configure_advances d) as [O S M]. set (d1 := (configure d).2) in *.
  assert (Hm : mem (world d1) = mem (world d)) by (unfold d1, configure; by destruct (Doorbell.is_closed _)).
  clearbody d1. destruct (Switch.reset_connections _) as [sw|] eqn:Hr; [|done]. cbn [mbind option_bind].
  intros [= <-]. assert (Hrun : sw_run (switch (world d1)) sw) by by apply (sw_run_once Switch.SReset).
  apply advances_plain; [|intros Hd; by etrans; [apply S|]|done].
  intros Hd. destruct (O Hd) as [Hs Hst]. apply sw_run_pays in Hrun; [|done].
  split; [done|]. intros s Hx. destruct (Hst s Hx) as [Hc ?]. split; [|done]. by destruct Hc; split.
Qed.

Lemma close_advances d d' : close d = Some d' → advances d d'.
Proof.
  unfold close. destruct (Switch.reset_connections _) as [sw|] eqn:Hr; [|done]. cbn [mbind option_bind].
  intros [= <-]. assert (Hrun : sw_run (switch (world d)) sw) by by apply (sw_run_once Switch.SReset).
  apply advances_plain; [|done|done]. intros [Hs _]. split; [|done]. by eapply sw_run_pays.
Qed.

(** Everything that can happen to the device: its exports, the worker's calls,
    the switch calls of the network tasks, the worker taking its doorbell and
    the guest's own stores. *)
Inductive vop :=
| VRead (addr width : Z)
| VWrite (addr width value : Z)
| VProcess (max_steps : nat)
| VSuppress
| VRearm
| VHasReply (id : ConnectionId)
| VHasHeld
| VFlush
| VSchedule
| VConfigure
| VReset
| VClose
| VSwitch (o : Switch.sop)
| VBell (b : Doorbell.t W)
| VGuest (h : H).

Definition vop_ok (o : vop) : Prop :=
  match o with
  | VWrite _ _ value => 0 ≤ value
  | VSwitch o => Switch.sop_ok o ∧ VsockPayload.sop_pays bytes o
  | _ => True
  end.

Definition is_guest (o : vop) : bool := match o with VGuest _ => true | _ => false end.

Definition apply_vop (o : vop) (d : device) : option device :=
  match o with
  | VRead addr width => snd <$> mmio_read addr width d
  | VWrite addr width value => snd <$> mmio_write addr width value d
  | VProcess n => snd <$> process_pending n d
  | VSuppress => snd <$> suppress_transmit_notifications d
  | VRearm => snd <$> rearm_transmit_notifications d
  | VHasReply id => Some (has_pending_reply_for id d).2
  | VHasHeld => Some (has_held_interrupt d).2
  | VFlush => snd <$> flush_held_interrupt d
  | VSchedule => schedule_receive_queue d
  | VConfigure => Some (configure d).2
  | VReset => reset d
  | VClose => close d
  | VSwitch o => sw ← Switch.apply_sop o (switch (world d)); Some (mkDevice (st d) (set_switch sw (world d)))
  | VBell b => Some (mkDevice (st d) (set_bell b (world d)))
  | VGuest h => Some (mkDevice (st d) (set_mem h (world d)))
  end.

Fixpoint vrun (ops : list vop) (d : device) : option device :=
  match ops with [] => Some d | o :: ops => d ← apply_vop o d; vrun ops d end.

(** A locked operation is judged by what it does with the lock held. *)
Ltac locked_op :=
  intros (x & Hx & ->)%fmap_Some; destruct x as [? ?]; eapply locked_advances; [|exact Hx].

Lemma locked_keep {A} (f : State * env → A) d d' r :
  locked (λ c, Some (Ok (f c), c)) d = Some (r, d') → advances d d'.
Proof. apply locked_advances. intros [s e] r0 c' Hc [= _ <-]. by apply acts_state. Qed.

Lemma has_pending_reply_advances id d : advances d (has_pending_reply_for id d).2.
Proof.
  unfold has_pending_reply_for. destruct (locked _ d) as [[r d']|] eqn:Hl; [|by apply advances_plain].
  apply locked_keep in Hl. by destruct r.
Qed.

Lemma has_held_advances d : advances d (has_held_interrupt d).2.
Proof.
  unfold has_held_interrupt. destruct (locked _ d) as [[r d']|] eqn:Hl; [|by apply advances_plain].
  apply locked_keep in Hl. by destruct r.
Qed.

(** Only the switch or the doorbell changes, with the lock free. *)
Lemma world_ok d e :
  line e = line (world d) → VsockPayload.sw_pays bytes (switch e) → dev_ok d →
  dev_ok (mkDevice (st d) e).
Proof.
  intros Hl Hs [_ Hst]. split; [done|]. intros s Hx. destruct (Hst s Hx) as [[B N P' D R _] ?].
  split; [|done]. split; try done. cbn [fst snd world] in *. by rewrite Hl.
Qed.

Lemma schedule_advances d d' : schedule_receive_queue d = Some d' → advances d d'.
Proof.
  unfold schedule_receive_queue. destruct (locked _ d) as [[r d1]|] eqn:Hl; [|done].
  cbn [mbind option_bind]. intros [= <-]. apply locked_advances in Hl as [O S M].
  - split; [|done|done]. intros Hd. apply world_ok; [done|by apply O|by apply O].
  - intros [s e] r0 c' Hc [= _ <-]. by apply acts_state, ctx_pending.
Qed.

Lemma vop_advances o d d' :
  is_guest o = false → vop_ok o → apply_vop o d = Some d' → advances d d'.
Proof.
  intros Hg Ho. destruct o as [addr width|addr width value|n| | |id| | | | | | |o|b|h];
    cbn [apply_vop vop_ok is_guest] in *; try done.
  - locked_op. intros [s e] r0 c' Hc [= _ <-]. by apply acts_state.
  - locked_op. intros c r0 c' Hc Heq. eapply write_transport_acts; [|exact Hc|exact Heq]. exact Ho.
  - locked_op. intros c r0 c' Hc Heq. eapply (turn_acts n); [exact Hc|exact Heq].
  - locked_op. intros c r0 c' Hc [= _ <-]. by apply suppress_acts.
  - locked_op. intros c r0 c' Hc [= Heq]. pose proof (rearm_acts c Hc) as Ha. by rewrite Heq in Ha.
  - intros [= <-]. apply has_pending_reply_advances.
  - intros [= <-]. apply has_held_advances.
  - locked_op. intros [s e] r0 c' Hc [= _ <-]. apply acts_state. destruct (_ =? 0); [done|].
    apply ctx_mmio; [done| |done]. apply bus_signal; [done|done|apply Hc].
  - apply schedule_advances.
  - intros [= <-]. apply configure_advances.
  - apply reset_advances.
  - apply close_advances.
  - destruct (Switch.apply_sop o _) as [sw|] eqn:Ha; [|done]. cbn [mbind option_bind]. intros [= <-].
    assert (Hrun : sw_run (switch (world d)) sw) by (by apply (sw_run_once o); destruct Ho).
    apply advances_plain; [|done|done]. intros Hd. apply world_ok; [done| |done].
    eapply sw_run_pays; [exact Hrun|apply Hd].
  - intros [= <-]. apply advances_plain; [|by intros|done]. intros Hd.
    apply world_ok; [done|apply Hd|done].
Qed.

Lemma vop_ok_step o d d' :
  vop_ok o → apply_vop o d = Some d' → dev_ok d →
  dev_ok d' ∧ sw_run (switch (world d)) (switch (world d')).
Proof.
  intros Ho Ha Hd. destruct (is_guest o) eqn:Hg.
  - destruct o; try done. cbn [apply_vop] in Ha. injection Ha as <-. split; [|by cbn].
    apply world_ok; [done|apply Hd|done].
  - apply vop_advances in Ha as [O S _]; [|done..]. auto.
Qed.

Lemma vrun_ok ops d d' :
  Forall vop_ok ops → vrun ops d = Some d' → dev_ok d →
  dev_ok d' ∧ sw_run (switch (world d)) (switch (world d')).
Proof.
  intros Hops. revert d. induction Hops as [|o ops Ho _ IH]; intros d Hr Hd; cbn [vrun] in Hr.
  { injection Hr as ->. by split. }
  destruct (apply_vop o d) as [d1|] eqn:Ha; [|done]. cbn [mbind option_bind] in Hr.
  destruct (vop_ok_step o d d1 Ho Ha Hd) as [O1 S1], (IH d1 Hr) as [O2 S2]; [done|].
  split; [done|by etrans].
Qed.
(** The device before it is configured. *)
Definition fresh_device (has_network : bool) (cap : Z) (h : H) (l : bool) (b : Doorbell.t W) : device :=
  mkDevice None (mkEnv h l (Switch.with_network_socket_capacity has_network cap) [] b).

Lemma fresh_device_ok en cap h l b : dev_ok (fresh_device en cap h l b).
Proof. split; [apply VsockPayload.initial_pays; constructor|done]. Qed.

(** C1. The vsock device never stores outside the memory the driver gave it.
    After any history of register writes, worker turns, resets, host calls and
    stores by the guest, whatever the rings and descriptors contain and whichever
    memory accesses fail, one more operation of the device changes no byte of
    guest memory except in the used ring of an armed queue and in the
    device-writable buffers that the receive queue's descriptor table named when
    the operation began; a device that is not configured stores nothing. *)
Theorem vsock_stores_confined en cap h l b ops o d d' x :
  Forall vop_ok (ops ++ [o]) → vrun ops (fresh_device en cap h l b) = Some d →
  is_guest o = false → apply_vop o d = Some d' → ¬ stores_of d x →
  gm_byte (mem (world d')) x = gm_byte (mem (world d)) x.
Proof.
  intros Hops Hr Hg Ha. apply Forall_app in Hops as [Hops Ho]. rewrite Forall_singleton in Ho.
  destruct (vrun_ok ops _ _ Hops Hr (fresh_device_ok en cap h l b)) as [Hd _].
  apply vop_advances in Ha as [_ _ M]; [|done..]. by apply M.
Qed.

(** C29. The device invariant. After any history of register accesses, worker
    turns over hostile rings, notification changes, resets, calls of the network
    tasks and stores by the guest, the switch is one that its own operations
    reach, within all its budgets; and while the device is configured its
    register file is well formed, the published interrupt line is the level of
    the register file, which is high only when the driver is ready and a cause is
    pending, fewer than 32 completions wait for an interrupt, and both ring
    positions are 16-bit. *)
Theorem vsock_device_invariant en cap h l b ops d :
  0 ≤ cap → Forall vop_ok ops → vrun ops (fresh_device en cap h l b) = Some d →
  (∃ sops, Forall Switch.sop_ok sops ∧
     Switch.run sops (Switch.with_network_socket_capacity en cap) = Some (switch (world d))) ∧
  Switch.sw_bounded cap (switch (world d)) ∧
  ∀ s, st d = Some s →
    Transport.wf (mmio s) ∧ line (world d) = Transport.irq_level (mmio s) ∧
    (line (world d) = true →
       Transport.dev_status (mmio s) = 15 ∧ Transport.interrupt_status (mmio s) ≠ 0) ∧
    0 ≤ held_tx_completions s < MAX_HELD_TX_COMPLETIONS ∧
    length (next s) = 2%nat ∧ Forall u16 (next s).
Proof.
  intros Hcap Hops Hr.
  destruct (vrun_ok ops _ _ Hops Hr (fresh_device_ok en cap h l b)) as [[_ Hd] (sops & Hs & Hrun)].
  assert (Hok : Forall Switch.sop_ok sops) by (eapply Forall_impl; [exact Hs|]; by intros ? []).
  split_and!; [by exists sops|eapply Switch.run_bounded; [exact Hcap|exact Hok|exact Hrun]|].
  intros s Hst. destruct (Hd s Hst) as [[[Hwf _ Hl] [Hn1 Hn2] _ Hh _ _] Hdirty].
  cbn [fst snd] in *. specialize (Hl Hdirty). cbn [fst snd] in Hl.
  split_and!; try done; try apply Hh.
  - intros Hline. rewrite Hl in Hline. by apply (Transport.wf_irq _ Hwf).
Qed.
End Device.

(** ** A guest that opens a flow

    The receive queue is at 0x1000, the transmit queue at 0x1400; the guest sends
    a connection request and offers one receive buffer. *)

Definition demo_request : VsockHeader :=
  mkHeader GUEST_CID HOST_CID 4000 TCP_PORT 0 TYPE_STREAM OP_REQUEST 0 65536 0.

Definition demo_memory : GuestMem Flat.t :=
  (bounded_write_ranges
     [(0x1000, le_bytes 8 0x1800 ++ le_bytes 4 0x400 ++ le_bytes 2 2 ++ le_bytes 2 0);
      (0x1102, le_bytes 2 1);
      (0x1400, le_bytes 8 0x1c00 ++ le_bytes 4 44 ++ le_bytes 2 0 ++ le_bytes 2 0);
      (0x1502, le_bytes 2 1);
      (0x1c00, encode demo_request)] flat_memory).2.

Local Abbreviation demo_vop := (vop (H := GuestMem Flat.t) (W := bool)).

Definition demo_ops : list demo_vop :=
  [VConfigure; VWrite 0x70 4 1; VWrite 0x70 4 3; VWrite 0x24 4 1; VWrite 0x20 4 1; VWrite 0x70 4 11] ++
  ((λ w, VWrite w.1 4 w.2) <$> Transport.configure 0 4 0x1000 0x1100 0x1200) ++
  ((λ w, VWrite w.1 4 w.2) <$> Transport.configure 1 4 0x1400 0x1500 0x1600) ++ [VWrite 0x70 4 15].

Local Abbreviation demo_fresh := (fresh_device true 4 demo_memory false (Doorbell.new (W := bool))).
Local Abbreviation demo_run := (vrun U32_MAX (λ _, true) 0x5000).
Definition demo_device := default demo_fresh (demo_run demo_ops demo_fresh).
Definition demo_state := default (new_state 0) (st demo_device).
Definition demo_after := default demo_fresh (demo_run (demo_ops ++ [VProcess 4]) demo_fresh).

Lemma vsock_demo_ops_ok : Forall vop_ok (demo_ops ++ [VProcess 4]).
Proof. repeat (apply Forall_cons; split; [by vm_compute|]). done. Qed.

Lemma demo_runs :
  demo_run demo_ops demo_fresh = Some demo_device ∧
  demo_run (demo_ops ++ [VProcess 4]) demo_fresh = Some demo_after ∧
  apply_vop U32_MAX (λ _, true) 0x5000 (VProcess 4) demo_device = Some demo_after ∧
  st demo_device = Some demo_state.
Proof. split_and!; vm_compute; reflexivity. Qed.

Lemma demo_queues :
  Transport.queue_addrs_for TX (mmio demo_state) = Some (0x1400, 0x1500, 0x1600, 4) ∧
  Transport.queue_addrs_for RX (mmio demo_state) = Some (0x1000, 0x1100, 0x1200, 4).
Proof. split; vm_compute; reflexivity. Qed.

Lemma demo_table :
  peek (gm_byte (mem (world demo_device))) 0x1000 (4 * 16) =
  le_bytes 8 0x1800 ++ le_bytes 4 0x400 ++ le_bytes 2 2 ++ le_bytes 2 0 ++ replicate 48 0.
Proof. vm_compute. reflexivity. Qed.

(** The buffer of the request is not among the places the device may store to. *)
Lemma demo_queues_confined (d : device (H := GuestMem Flat.t) (W := bool)) s :
  st d = Some s →
  Transport.queue_addrs_for TX (mmio s) = Some (0x1400, 0x1500, 0x1600, 4) →
  Transport.queue_addrs_for RX (mmio s) = Some (0x1000, 0x1100, 0x1200, 4) →
  peek (gm_byte (mem (world d))) 0x1000 (4 * 16) =
    le_bytes 8 0x1800 ++ le_bytes 4 0x400 ++ le_bytes 2 2 ++ le_bytes 2 0 ++ replicate 48 0 →
  ¬ stores_of d 0x1c00.
Proof.
  intros Hst Htx Hrx Htab (s1 & Hs & Hw). rewrite Hst in Hs. injection Hs as <-.
  destruct Hw as [(q & t & a & u & n & Hq & Ha & Hx)|(t & a & u & n & dd & Ha & (i & Hi & Hdd) & _ & Hx)].
  - rewrite elem_of_cons, list_elem_of_singleton in Hq.
    destruct Hq as [-> | ->]; rewrite ?Htx, ?Hrx in Ha; injection Ha as <- <- <- <-; lia.
  - rewrite Hrx in Ha. injection Ha as <- <- <- <-. rewrite Htab in Hdd.
    assert (i = 0 ∨ i = 1 ∨ i = 2 ∨ i = 3) as Hcases by lia.
    destruct Hcases as [-> |[-> |[-> | ->]]]; vm_compute in Hdd; injection Hdd as <-;
      cbn [d_addr d_len] in Hx; lia.
Qed.

Lemma demo_not_stored : ¬ stores_of demo_device 0x1c00.
Proof.
  exact (demo_queues_confined demo_device demo_state (proj2 (proj2 (proj2 demo_runs)))
           (proj1 demo_queues) (proj2 demo_queues) demo_table).
Qed.

Lemma vsock_stores_confined_witness :
  gm_byte (mem (world demo_after)) 0x1c00 = gm_byte (mem (world demo_device)) 0x1c00 ∧
  gm_byte (mem (world demo_device)) 0x1202 = 0 ∧ gm_byte (mem (world demo_after)) 0x1202 = 1.
Proof.
  split; [|split; vm_compute; reflexivity].
  apply (vsock_stores_confined U32_MAX (λ _, true) 0x5000 true 4 demo_memory false Doorbell.new
           demo_ops (VProcess 4) demo_device demo_after 0x1c00).
  - exact vsock_demo_ops_ok.
  - exact (proj1 demo_runs).
  - reflexivity.
  - exact (proj1 (proj2 (proj2 demo_runs))).
  - exact demo_not_stored.
Defined.

(** The request was answered: one flow, and the response in the guest's buffer. *)
Lemma vsock_device_invariant_witness :
  Switch.sw_bounded 4 (switch (world demo_after)) ∧
  Switch.network_socket_count (switch (world demo_after)) = 1 ∧
  peek (gm_byte (mem (world demo_after))) 0x181e 2 = le_bytes 2 OP_RESPONSE ∧
  line (world demo_after) = true.
Proof.
  split; [|split_and!; vm_compute; reflexivity].
  apply (vsock_device_invariant U32_MAX (λ _, true) 0x5000 true 4 demo_memory false Doorbell.new
           (demo_ops ++ [VProcess 4])).
  - lia.
  - exact vsock_demo_ops_ok.
  - exact (proj1 (proj2 demo_runs)).
Defined.

End VsockTransport.
