(* ===== verification/SyncTree.v ===== *)
(** * Manifests of a synchronised tree

    [crates/terra-protocol/src/sync.rs], and of [crates/terra/src/cmd/sync] the
    files [security.rs] (paths, modes and manifests), [scan.rs] (the manifest a
    guest sends, with its budget) and [endpoint.rs] (where a copy is placed).

    A path is the text of [PolicyRules]; a [BTreeMap] is the association list
    of its entries in key order. The Windows branches are not modelled. Time
    enters as the answer of each deadline check. *)

From stdpp Require Import strings sorting.
From S2P Require Import Prelude PolicyRules.

Local Open Scope Z_scope.

(** ** [BTreeMap<String, V>] *)

Fixpoint str_compare (s t : str) : comparison :=
  match s, t with
  | [], [] => Eq
  | [], _ :: _ => Lt
  | _ :: _, [] => Gt
  | a :: s, b :: t => match a ?= b with Eq => str_compare s t | c => c end
  end.

Definition btree (V : Type) : Type := list (str * V).

Fixpoint bt_get {V} (k : str) (m : btree V) : option V :=
  match m with
  | [] => None
  | (k', v) :: m => if bool_decide (k = k') then Some v else bt_get k m
  end.

Fixpoint bt_insert {V} (k : str) (v : V) (m : btree V) : btree V :=
  match m with
  | [] => [(k, v)]
  | (k', v') :: m' =>
      match str_compare k k' with
      | Lt => (k, v) :: m
      | Eq => (k, v) :: m'
      | Gt => (k', v') :: bt_insert k v m'
      end
  end.

Definition str_lt (s t : str) : Prop := str_compare s t = Lt.
Definition bt_wf {V} (m : btree V) : Prop := StronglySorted str_lt m.*1.

(** *** Its order and lookups *)

Lemma str_compare_refl s : str_compare s s = Eq.
Proof. induction s as [|a s IH]; [done|]. cbn. by rewrite Z.compare_refl. Qed.

Lemma str_compare_eq s t : str_compare s t = Eq → s = t.
Proof.
  revert t. induction s as [|a s IH]; intros [|b t]; cbn; try done.
  destruct (Z.compare_spec a b) as [->| |]; [|done|done]. intros Ht. by rewrite (IH t Ht).
Qed.

Lemma str_compare_antisym s t : str_compare t s = CompOpp (str_compare s t).
Proof.
  revert t. induction s as [|a s IH]; intros [|b t]; cbn; try done.
  rewrite (Z.compare_antisym a b). destruct (a ?= b); [apply IH|done|done].
Qed.

Lemma str_lt_cons a s b t : str_lt (a :: s) (b :: t) ↔ a < b ∨ a = b ∧ str_lt s t.
Proof.
  unfold str_lt. cbn. destruct (Z.compare_spec a b); split; try done; try lia; intuition lia.
Qed.

Lemma str_lt_trans s t u : str_lt s t → str_lt t u → str_lt s u.
Proof.
  revert t u. induction s as [|a s IH]; intros [|b t] [|c u]; try done.
  rewrite !str_lt_cons. intros [?|[-> ?]] [?|[-> ?]]; [left; lia|by left|by left|].
  right. split; [done|]. by eapply IH.
Qed.

Lemma str_lt_irrefl s : ¬ str_lt s s.
Proof. unfold str_lt. by rewrite str_compare_refl. Qed.

Section BTree.
Context {V : Type}.
Implicit Types m : btree V.

Lemma bt_get_elem k v m : bt_get k m = Some v → (k, v) ∈ m.
Proof.
  induction m as [|[k' v'] m IH]; [done|]. cbn. case_bool_decide as Hk; [intros [= <-]; subst; left|].
  intros H. right. auto.
Qed.

Lemma bt_wf_cons k v m : bt_wf ((k, v) :: m) ↔ bt_wf m ∧ Forall (λ e, str_lt k e.1) m.
Proof.
  unfold bt_wf. cbn [fmap list_fmap fst]. split.
  - intros H. inversion H as [|? ? H1 H2]; subst. split; [done|]. by rewrite Forall_fmap in H2.
  - intros [H1 H2]. constructor; [done|]. by apply Forall_fmap.
Qed.

Lemma bt_elem_get k v m : bt_wf m → (k, v) ∈ m → bt_get k m = Some v.
Proof.
  induction m as [|[k' v'] m IH]; [by intros _ ?%not_elem_of_nil|]. rewrite bt_wf_cons. intros [Hm Hf] Hin.
  cbn. apply elem_of_cons in Hin as [[= <- <-]|Hin]; [by rewrite bool_decide_eq_true_2|].
  rewrite bool_decide_eq_false_2; [by apply IH|]. intros ->. rewrite Forall_forall in Hf.
  by apply (str_lt_irrefl k'), (Hf (k', v)).
Qed.

Lemma bt_get_insert k v m k' : bt_get k' (bt_insert k v m) = if bool_decide (k' = k) then Some v else bt_get k' m.
Proof.
  induction m as [|[k1 v1] m IH]; [done|]. cbn [bt_insert].
  destruct (str_compare k k1) eqn:Hc; [|done|].
  - apply str_compare_eq in Hc as <-. cbn. by case_bool_decide.
  - cbn [bt_get]. rewrite IH. case_bool_decide as H1; [|done]. subst.
    rewrite bool_decide_eq_false_2; [done|]. intros ->. by rewrite str_compare_refl in Hc.
Qed.

Lemma bt_insert_Forall (P : str * V → Prop) k v m :
  P (k, v) → Forall P m → Forall P (bt_insert k v m).
Proof.
  intros Hk. induction 1 as [|[k1 v1] m H1 Hm IH]; cbn [bt_insert]; [by constructor|].
  destruct (str_compare k k1); repeat (constructor || done).
Qed.

Lemma bt_insert_wf k v m : bt_wf m → bt_wf (bt_insert k v m).
Proof.
  induction m as [|[k1 v1] m IH]; cbn [bt_insert]; [intros _; by repeat constructor|].
  rewrite bt_wf_cons. intros [Hm Hf]. destruct (str_compare k k1) eqn:Hc.
  - apply str_compare_eq in Hc as ->. by apply bt_wf_cons.
  - rewrite !bt_wf_cons. split_and!; [done|done|]. constructor; [done|].
    eapply Forall_impl; [exact Hf|]. intros e He. by eapply str_lt_trans.
  - rewrite bt_wf_cons. split; [by apply IH|]. apply bt_insert_Forall; [|done].
    cbn. unfold str_lt. by rewrite str_compare_antisym, Hc.
Qed.

Lemma bt_insert_length k v m : bt_get k m = None → length (bt_insert k v m) = S (length m).
Proof.
  induction m as [|[k1 v1] m IH]; [done|]. cbn [bt_get bt_insert]. case_bool_decide as Hk; [done|].
  intros H. destruct (str_compare k k1) eqn:Hc; cbn; [by apply str_compare_eq in Hc|done|]. by rewrite IH.
Qed.

Lemma bt_sum_insert (f : str * V → Z) k v m :
  bt_get k m = None → sumZ (f <$> bt_insert k v m) = f (k, v) + sumZ (f <$> m).
Proof.
  induction m as [|[k1 v1] m IH]; [done|]. cbn [bt_get bt_insert]. case_bool_decide as Hk; [done|].
  intros H. destruct (str_compare k k1) eqn:Hc; [by apply str_compare_eq in Hc|done|].
  rewrite !fmap_cons, !sumZ_cons, IH by done. lia.
Qed.
End BTree.

(** ** The protocol *)

Module Sync.

Definition MAX_SYNC_FILE_BYTES : Z := Z.shiftl 16 30.
Definition MAX_SYNC_PATH_BYTES : Z := 4096.
Definition SYNC_TIMESTAMP_PRECISION_NANOS : Z := 1000.

Definition truncate_nanos (nanos : Z) : Z :=
  (nanos / SYNC_TIMESTAMP_PRECISION_NANOS) * SYNC_TIMESTAMP_PRECISION_NANOS.

Inductive SyncEntryKind : Type :=
| File (size : Z)
| Directory
| Symlink (target : str).
#[export] Instance SyncEntryKind_eq_dec : EqDecision SyncEntryKind.
Proof. solve_decision. Defined.

Definition link_target (k : SyncEntryKind) : option str :=
  match k with Symlink target => Some target | File _ | Directory => None end.

Record SyncEntry := mkEntry {
  relative_path : str;
  kind : SyncEntryKind;
  mode : Z;
  mtime_secs : Z;
  mtime_nanos : Z;
}.
#[export] Instance SyncEntry_eq_dec : EqDecision SyncEntry.
Proof. solve_decision. Defined.

Inductive RootStatus : Type := ExistingDirectory | ExistingFile | ExistingSymlink | Missing.
#[export] Instance RootStatus_eq_dec : EqDecision RootStatus.
Proof. solve_decision. Defined.

Inductive SyncRequest : Type :=
| BeginSession (guest_root : str)
| ScanEntries
| ComputeDigest (relative_path : str)
| WriteFile (relative_path : str) (size mode mtime_secs mtime_nanos : Z)
| CommitFile
| ReadFile (relative_path : str)
| RCreateDir (relative_path : str) (mode : Z)
| RCreateSymlink (relative_path target : str)
| UpdateMetadata (relative_path : str) (mode mtime_secs mtime_nanos : Z)
| RRemoveEntry (relative_path : str)
| EndSession.

Inductive SyncReply : Type :=
| SessionReady (root_status : RootStatus)
| Entry (entry : SyncEntry)
| ScanComplete
| DigestProgress (bytes_hashed : Z)
| Digest (sha256 : list Z)
| WriteFileReady
| ReadFileReady (size mode mtime_secs mtime_nanos : Z)
| Success
| ErrReply (message : str).

(** What a check or a step can fail with; the first argument of the last three
    names the step. *)
Inductive SyncError : Type :=
| NotAbsolute | PathTooLong | PathHasNul | EmptyComponent | DotComponent
| FileTooLarge | NanosOutOfRange
| PathMismatch | BadParent | MissingRootHasEntries | RootMismatch
| EntryBudget | MetadataBudget | DuplicatePath | TimedOut
| LinkWork | LinkEscapes | LinkTooDeep | EmptyTarget | TargetTooLong | TargetHasNul | TargetAbsolute
| DirectoryOverFile | FileOverDirectory
| NotUtf8 | BothInside | BothOutside | NamedBox | EmptyGuestPath
| GuestMessage (message : str) | UnexpectedReply | Disconnected | HostFailure (code : Z).
#[export] Instance SyncError_eq_dec : EqDecision SyncError.
Proof. solve_decision. Defined.

Abbreviation slash := 47 (only parsing).
Abbreviation dot_name := [46] (only parsing).
Abbreviation dotdot_name := [46; 46] (only parsing).

Definition validate_wire_path (path : str) : result SyncError unit :=
  if MAX_SYNC_PATH_BYTES <? str_len path then Err PathTooLong else
  if contains_char 0 path then Err PathHasNul else Ok tt.

Fixpoint check_components (components : list str) : result SyncError unit :=
  match components with
  | [] => Ok tt
  | component :: components =>
      if bool_decide (component = []) then Err EmptyComponent else
      if bool_decide (component = dot_name) || bool_decide (component = dotdot_name)
      then Err DotComponent else check_components components
  end.

Definition validate_relative_path (path : str) : result SyncError unit :=
  if bool_decide (path = []) then Ok tt else
  _ ← validate_wire_path path;
  check_components (split slash path).

(** The checks made while a field is deserialized. *)
Definition deserialize_abs_path (path : str) : result SyncError str :=
  if negb (starts_with slash path) then Err NotAbsolute else
  _ ← validate_wire_path path; Ok path.
Definition deserialize_relative_path (path : str) : result SyncError str :=
  _ ← validate_relative_path path; Ok path.
Definition deserialize_sync_file_size (size : Z) : result SyncError Z :=
  if MAX_SYNC_FILE_BYTES <? size then Err FileTooLarge else Ok size.
Definition deserialize_nanos (nanos : Z) : result SyncError Z :=
  if 1000000000 <=? nanos then Err NanosOutOfRange else Ok (truncate_nanos nanos).

Definition deserialize_entry (e : SyncEntry) : result SyncError SyncEntry :=
  path ← deserialize_relative_path (relative_path e);
  k ← match kind e with
      | File size => File <$> deserialize_sync_file_size size
      | k => Ok k
      end;
  nanos ← deserialize_nanos (mtime_nanos e);
  Ok (mkEntry path k (mode e) (mtime_secs e) nanos).

(** ** Modes and manifests: [security.rs] *)

Inductive Direction : Type := HostToGuest | GuestToHost.
#[export] Instance Direction_eq_dec : EqDecision Direction.
Proof. solve_decision. Defined.

(** [0o755] is [0x1ed] and [0o777] is [0x1ff]. *)
Definition to_safe_mode (guest_mode : Z) : Z := Z.land guest_mode 0x1ed.

Definition effective_mode (mode : Z) (direction : Direction) : Z :=
  match direction with
  | HostToGuest => Z.land mode 0x1ff
  | GuestToHost => to_safe_mode mode
  end.

Definition validate_host_relative_path (path : str) : result SyncError unit :=
  validate_relative_path path.

(** [path.rsplit_once('/').map_or("", |(parent, _)| parent)] *)
Definition parent_of (path : str) : str :=
  match rsplit_once slash path with Some (parent, _) => parent | None => [] end.

Definition is_dir (e : SyncEntry) : bool := bool_decide (kind e = Directory).

Definition validate_entry (entries : btree SyncEntry) (path : str) (entry : SyncEntry)
    : result SyncError unit :=
  _ ← validate_host_relative_path path;
  _ ← require (bool_decide (relative_path entry = path)) PathMismatch;
  _ ← match kind entry with
      | File size => require (size <=? MAX_SYNC_FILE_BYTES) FileTooLarge
      | _ => Ok tt
      end;
  if bool_decide (path = []) then Ok tt else
  require (match bt_get (parent_of path) entries with
           | Some parent => is_dir parent
           | None => bool_decide (parent_of path = [])
           end) BadParent.

Fixpoint validate_entries (entries todo : btree SyncEntry) : result SyncError unit :=
  match todo with
  | [] => Ok tt
  | (path, entry) :: todo =>
      _ ← validate_entry entries path entry; validate_entries entries todo
  end.
Definition validate_manifest (entries : btree SyncEntry) : result SyncError unit :=
  validate_entries entries entries.

Definition root_matches (status : RootStatus) (k : SyncEntryKind) : bool :=
  match status, k with
  | ExistingDirectory, Directory | ExistingFile, File _ | ExistingSymlink, Symlink _ => true
  | _, _ => false
  end.

Definition validate_root_kind (entries : btree SyncEntry) (status : RootStatus)
    : result SyncError unit :=
  if bool_decide (status = Missing) then require (bool_decide (entries = [])) MissingRootHasEntries else
  require (match bt_get [] entries with
           | Some entry => root_matches status (kind entry)
           | None => false
           end) RootMismatch.

(** ** The manifest of the guest: [scan.rs] *)

Definition MAX_SYNC_ENTRIES : Z := 100000.
Definition MAX_SYNC_METADATA_BYTES : Z := 16 * 1024 * 1024.
Definition ENTRY_METADATA_OVERHEAD_BYTES : Z := 32.

Record SyncManifestBudget := mkBudget { entries : Z; metadata_bytes : Z }.

Definition with_existing_entries (n : Z) : SyncManifestBudget := mkBudget n 0.

Section Scan.
Context (usize_max : Z).

Definition checked_add_usize (a b : Z) : option Z :=
  if a + b <=? usize_max then Some (a + b) else None.

Definition add_entry (path : str) (link_target : option str) (b : SyncManifestBudget)
    : result SyncError SyncManifestBudget :=
  n ← ok_or EntryBudget (checked_add_usize (entries b) 1);
  if MAX_SYNC_ENTRIES <? n then Err EntryBudget else
  cost ← ok_or MetadataBudget
           (bytes ← checked_add_usize (str_len path)
                      (match link_target with Some t => str_len t | None => 0 end);
            checked_add_usize bytes ENTRY_METADATA_OVERHEAD_BYTES);
  total ← ok_or MetadataBudget (checked_add_usize (metadata_bytes b) cost);
  if MAX_SYNC_METADATA_BYTES <? total then Err MetadataBudget else Ok (mkBudget n total).

(** What [read_frame_async] can end with. *)
Inductive wire : Type := WTimeout | WBroken | WClosed | WFrame (reply : SyncReply).

Definition read_reply (w : wire) : result SyncError SyncReply :=
  match w with
  | WTimeout => Err TimedOut
  | WBroken | WClosed => Err Disconnected
  | WFrame (ErrReply message) => Err (GuestMessage message)
  | WFrame reply => Ok reply
  end.

(** One turn per reply; the boolean is [Instant::now() < deadline]. *)
Fixpoint scan_loop (input : list (bool * wire)) (b : SyncManifestBudget) (m : btree SyncEntry)
    : result SyncError (btree SyncEntry) :=
  match input with
  | [] => Err Disconnected
  | (in_time, w) :: input =>
      if negb in_time then Err TimedOut else
      reply ← read_reply w;
      match reply with
      | Entry entry =>
          _ ← validate_relative_path (relative_path entry);
          b ← add_entry (relative_path entry) (link_target (kind entry)) b;
          match bt_get (relative_path entry) m with
          | Some _ => Err DuplicatePath
          | None => scan_loop input b (bt_insert (relative_path entry) entry m)
          end
      | ScanComplete => Ok m
      | _ => Err UnexpectedReply
      end
  end.

Definition scan_guest_entries (input : list (bool * wire)) : result SyncError (btree SyncEntry) :=
  m ← scan_loop input (mkBudget 0 0) [];
  _ ← validate_manifest m;
  Ok m.
End Scan.

(** ** Where the copy goes: [endpoint.rs] *)

Record GuestEndpoint := mkGuest { g_path : str; g_trailing : bool }.
Record HostEndpoint := mkHost { h_path : str; h_trailing : bool }.
Inductive Endpoint : Type := Guest (e : GuestEndpoint) | Host (e : HostEndpoint).
Inductive Transfer : Type :=
| Upload (host : HostEndpoint) (guest : GuestEndpoint)
| Download (guest : GuestEndpoint) (host : HostEndpoint).

Definition is_ascii_alphabetic (c : Z) : bool :=
  ((65 <=? c) && (c <=? 90)) || ((97 <=? c) && (c <=? 122)).

(** [Path::components] collected again: empty components and all but a leading
    dot disappear. *)
Definition normalize_path (raw : str) : str :=
  let kept ls := filter (λ c, c ≠ [] ∧ c ≠ dot_name) ls in
  if starts_with slash raw then slash :: join slash (kept (split slash raw)) else
  match split slash raw with
  | first :: rest =>
      join slash (if bool_decide (first = dot_name) then dot_name :: kept rest
                  else kept (first :: rest))
  | [] => []
  end.

Definition parse_guest (raw rest : str) : result SyncError Endpoint :=
  _ ← require (starts_with slash rest) NotAbsolute;
  let path := if bool_decide (rest = [slash]) then rest else trim_end_matches slash rest in
  _ ← require (negb (bool_decide (path = []))) EmptyGuestPath;
  Ok (Guest (mkGuest path (ends_with slash raw))).

Definition is_windows_drive (raw : str) : bool :=
  match raw with a :: b :: _ => is_ascii_alphabetic a && (b =? 58) | _ => false end.

(** [name:/rest] with a name before the first colon. *)
Definition is_named_box (raw : str) : bool :=
  match split_once [58] raw with
  | Some (name, rest) =>
      negb (bool_decide (name = [])) && negb (contains_char slash name)
      && negb (contains_char 92 name) && starts_with slash rest
  | None => false
  end.

Definition parse_endpoint (raw : str) : result SyncError Endpoint :=
  match (match strip_prefix (lit "box:") raw with
         | Some rest => Some rest
         | None => strip_prefix [58] raw
         end) with
  | Some rest => parse_guest raw rest
  | None =>
      if negb (is_windows_drive raw) && is_named_box raw then Err NamedBox else
      Ok (Host (mkHost (normalize_path raw) (ends_with slash raw)))
  end.

Definition parse_endpoints (src dst : str) : result SyncError Transfer :=
  s ← parse_endpoint src;
  d ← parse_endpoint dst;
  match s, d with
  | Guest _, Guest _ => Err BothInside
  | Host _, Host _ => Err BothOutside
  | Host host, Guest guest => Ok (Upload host guest)
  | Guest guest, Host host => Ok (Download guest host)
  end.

Record SourcePlacement := mkSource { s_name : str; s_is_dir : bool; s_trailing : bool }.
Record DestinationPlacement := mkDestination {
  d_path : str; d_is_existing_dir : bool; d_trailing : bool }.

Definition resolve_placement (src : SourcePlacement) (dst : DestinationPlacement) : str :=
  let inside := trim_end_matches slash (d_path dst) ++ [slash] ++ s_name src in
  if s_is_dir src then
    if s_trailing src then d_path dst else if d_is_existing_dir dst then inside else d_path dst
  else if d_is_existing_dir dst || d_trailing dst then inside else d_path dst.

(** ** Paths as components *)

(** A component that names an entry of a directory. *)
Record component_ok (c : str) : Prop := {
  co_nonempty : c ≠ [];
  co_no_slash : slash ∉ c;
  co_not_dot : c ≠ dot_name;
  co_not_dotdot : c ≠ dotdot_name;
}.

Lemma split_free c s : Forall (λ l, c ∉ l) (split c s).
Proof.
  induction s as [|d s IH]; cbn [split]; [apply Forall_singleton, not_elem_of_nil|].
  destruct (Z.eqb_spec d c) as [->|Hd]; [constructor; [apply not_elem_of_nil|done]|].
  pose proof (split_nonempty c s) as Hne. destruct (split c s) as [|l ls]; [done|].
  inversion IH as [|? ? Hl Hls]; subst. constructor; [|done]. by apply not_elem_of_cons.
Qed.

Lemma split_absent c s : c ∉ s → split c s = [s].
Proof.
  induction s as [|d s IH]; intros Hc; [done|]. rewrite not_elem_of_cons in Hc. cbn [split].
  rewrite (proj2 (Z.eqb_neq d c)) by (intros ->; tauto). by rewrite IH by tauto.
Qed.

Lemma split_join c ls : ls ≠ [] → Forall (λ l, c ∉ l) ls → split c (join c ls) = ls.
Proof.
  intros Hne Hls. induction Hls as [|l ls Hl Hls IH]; [done|]. destruct ls as [|k ls].
  - by apply split_absent.
  - rewrite join_cons, split_app, IH by done. by rewrite split_absent.
Qed.

Lemma components_free ls : Forall component_ok ls → Forall (λ l, slash ∉ l) ls.
Proof. intros H. eapply Forall_impl; [exact H|]. apply co_no_slash. Qed.

Lemma join_nonempty ls : ls ≠ [] → Forall component_ok ls → join slash ls ≠ [].
Proof.
  intros Hne Hls Hj. assert (Hs := split_join slash ls Hne (components_free ls Hls)).
  rewrite Hj in Hs. cbn in Hs. subst ls. inversion Hls as [|? ? Hc _]; subst. by apply (co_nonempty _ Hc).
Qed.

Lemma parent_of_join ls c :
  component_ok c → Forall component_ok ls → parent_of (join slash (ls ++ [c])) = join slash ls.
Proof.
  intros Hc Hls. unfold parent_of. destruct ls as [|l ls].
  - cbn [app join]. by rewrite rsplit_once_absent by apply Hc.
  - rewrite join_app by done. change (join slash [c]) with c.
    pose proof (rsplit_once_last slash (join slash (l :: ls)) c (co_no_slash _ Hc)) as Hr.
    cbn [app] in Hr. by rewrite Hr.
Qed.

Lemma check_components_ok ls :
  check_components ls = Ok tt ↔ Forall (λ c, c ≠ [] ∧ c ≠ dot_name ∧ c ≠ dotdot_name) ls.
Proof.
  induction ls as [|c ls IH]; [done|]. cbn [check_components]. rewrite Forall_cons, <-IH.
  repeat case_bool_decide; cbn [orb]; intuition congruence.
Qed.

Lemma wire_path_ok path :
  validate_wire_path path = Ok tt ↔ str_len path ≤ MAX_SYNC_PATH_BYTES ∧ 0 ∉ path.
Proof.
  unfold validate_wire_path. rewrite <-contains_char_false.
  destruct (Z.ltb_spec MAX_SYNC_PATH_BYTES (str_len path)), (contains_char 0 path); split;
    try done; intros [? ?]; try done; lia.
Qed.

Lemma relative_path_spec path :
  validate_relative_path path = Ok tt ↔
  path = [] ∨ str_len path ≤ MAX_SYNC_PATH_BYTES ∧ (0 ∉ path) ∧
    (∃ components, components ≠ [] ∧ Forall component_ok components ∧ path = join slash components).
Proof.
  unfold validate_relative_path. case_bool_decide as Hp; [naive_solver|].
  rewrite bind_Ok. split.
  - intros ([] & [Hl Hn]%wire_path_ok & Hc%check_components_ok). right. split_and!; [done|done|]. exists (split slash path).
    split_and!; [apply split_nonempty| |by rewrite join_split].
    apply Forall_forall. intros c Hin. pose proof (split_free slash path) as Hf.
    rewrite Forall_forall in Hf, Hc. destruct (Hc c Hin) as (? & ? & ?). split; auto.
  - intros [?|(Hl & Hn & ls & Hne & Hls & ->)]; [done|]. exists tt. split; [by apply wire_path_ok|].
    apply check_components_ok. rewrite split_join by (try done; by apply components_free).
    eapply Forall_impl; [exact Hls|]. by intros c [? ? ? ?].
Qed.

(** A path is accepted on the wire exactly when it is the root, or at most
    4096 bytes without NUL, made of one or more components separated by single
    slashes, none of them empty, a dot or a double dot: so it names an entry
    strictly below the root and is spelled in one way. *)
Theorem relative_path_exact path :
  validate_relative_path path = Ok tt ↔
  path = [] ∨ str_len path ≤ MAX_SYNC_PATH_BYTES ∧ (0 ∉ path) ∧
    (∃ components, components ≠ [] ∧ Forall component_ok components ∧ path = join slash components).
Proof. apply relative_path_spec. Qed.

(** ** Manifests are trees *)

Record manifest_ok (m : btree SyncEntry) : Prop := {
  mo_paths : ∀ p e, bt_get p m = Some e → relative_path e = p;
  mo_valid : ∀ p e, bt_get p m = Some e → validate_relative_path p = Ok tt;
  mo_sizes : ∀ p e size, bt_get p m = Some e → kind e = File size → size ≤ MAX_SYNC_FILE_BYTES;
  mo_parents : ∀ p e, bt_get p m = Some e → p ≠ [] →
    match bt_get (parent_of p) m with
    | Some d => kind d = Directory
    | None => parent_of p = []
    end;
}.

Lemma validate_entries_Forall m todo :
  validate_entries m todo = Ok tt ↔ Forall (λ '(p, e), validate_entry m p e = Ok tt) todo.
Proof.
  induction todo as [|[p e] todo IH]; [done|]. cbn [validate_entries]. rewrite Forall_cons, <-IH.
  destruct (validate_entry m p e) as [[]|]; cbn; intuition congruence.
Qed.

Lemma validate_entry_ok m p e :
  validate_entry m p e = Ok tt →
  validate_relative_path p = Ok tt ∧ relative_path e = p ∧
  (∀ size, kind e = File size → size ≤ MAX_SYNC_FILE_BYTES) ∧
  (p ≠ [] → match bt_get (parent_of p) m with
            | Some d => kind d = Directory
            | None => parent_of p = []
            end).
Proof.
  unfold validate_entry, validate_host_relative_path. rewrite bind_Ok. intros ([] & Hv & H).
  rewrite bind_Ok in H. destruct H as ([] & Hr%require_Ok & H). apply bool_decide_eq_true in Hr.
  rewrite bind_Ok in H. destruct H as ([] & Hk & H).
  split_and!; [done|done| |].
  - intros size Hs. rewrite Hs in Hk. apply require_Ok in Hk. by apply Z.leb_le.
  - intros Hne. rewrite bool_decide_eq_false_2 in H by done. apply require_Ok in H. unfold is_dir in H.
    destruct (bt_get (parent_of p) m); by apply bool_decide_eq_true in H.
Qed.

Lemma validate_manifest_ok m : validate_manifest m = Ok tt → manifest_ok m.
Proof.
  unfold validate_manifest. rewrite validate_entries_Forall, Forall_forall. intros Hm.
  assert (Hg : ∀ p e, bt_get p m = Some e → validate_entry m p e = Ok tt).
  { intros p e He. by apply (Hm (p, e)), bt_get_elem. }
  split; intros p e; [intros He|intros He|intros size He|intros He];
    apply Hg, validate_entry_ok in He as (? & ? & ? & ?); auto.
Qed.

(** Every proper ancestor of an entry is a listed directory; the root, if it is
    listed. *)
Lemma manifest_ancestor m ls ks e :
  manifest_ok m → Forall component_ok (ls ++ ks) → ks ≠ [] →
  bt_get (join slash (ls ++ ks)) m = Some e →
  match bt_get (join slash ls) m with Some d => kind d = Directory | None => ls = [] end.
Proof.
  intros Hm. revert e. induction ks as [|c ks IH] using rev_ind; [done|]. intros e Hok _ He.
  rewrite app_assoc in He, Hok. apply Forall_app in Hok as [Hok Hc]. rewrite Forall_singleton in Hc.
  pose proof (mo_parents m Hm _ _ He) as Hp.
  rewrite parent_of_join in Hp by done.
  specialize (Hp ltac:(apply join_nonempty; [by destruct (ls ++ ks)|by apply Forall_app; split; [|apply Forall_singleton]])).
  destruct ks as [|k ks].
  - rewrite app_nil_r in *. destruct (bt_get (join slash ls) m); [done|].
    destruct ls as [|l ls]; [done|]. by apply join_nonempty in Hp.
  - destruct (bt_get (join slash (ls ++ k :: ks)) m) as [d|] eqn:Hd; [by eapply IH|].
    apply join_nonempty in Hp; [done| |done]. by destruct ls.
Qed.

(** ** The budget *)

Definition entry_cost (x : str * SyncEntry) : Z :=
  str_len x.1 + match link_target (kind x.2) with Some t => str_len t | None => 0 end
  + ENTRY_METADATA_OVERHEAD_BYTES.

Section ScanSpec.
Context (usize_max : Z).

Lemma checked_add_Some a b c : checked_add_usize usize_max a b = Some c → c = a + b.
Proof. unfold checked_add_usize. destruct (_ <=? _); [by intros [= <-]|done]. Qed.

Lemma add_entry_spec p t b b' :
  add_entry usize_max p t b = Ok b' →
  entries b' = entries b + 1 ∧ entries b' ≤ MAX_SYNC_ENTRIES ∧
  metadata_bytes b' = metadata_bytes b
    + (str_len p + match t with Some t => str_len t | None => 0 end + ENTRY_METADATA_OVERHEAD_BYTES) ∧
  metadata_bytes b' ≤ MAX_SYNC_METADATA_BYTES.
Proof.
  unfold add_entry. rewrite bind_Ok. intros (n & Hn%ok_or_Ok%checked_add_Some & H).
  destruct (Z.ltb_spec MAX_SYNC_ENTRIES n); [done|]. rewrite bind_Ok in H.
  destruct H as (cost & Hc%ok_or_Ok & H). apply bind_Some in Hc as (x & Hx%checked_add_Some & Hy%checked_add_Some).
  rewrite bind_Ok in H. destruct H as (total & Ht%ok_or_Ok%checked_add_Some & H).
  destruct (Z.ltb_spec MAX_SYNC_METADATA_BYTES total); [done|]. injection H as <-.
  cbn [entries metadata_bytes]. lia.
Qed.

(** What the loop keeps. *)
Record scanned (b : SyncManifestBudget) (m : btree SyncEntry) : Prop := {
  sn_wf : bt_wf m;
  sn_entries : zlen m = entries b ∧ entries b ≤ MAX_SYNC_ENTRIES;
  sn_bytes : sumZ (entry_cost <$> m) = metadata_bytes b ∧ metadata_bytes b ≤ MAX_SYNC_METADATA_BYTES;
}.

Lemma scan_loop_spec input b m m' :
  scanned b m → scan_loop usize_max input b m = Ok m' → ∃ b', scanned b' m'.
Proof.
  revert b m. induction input as [|[in_time w] input IH]; intros b m Hs; [done|]. cbn [scan_loop].
  destruct in_time; cbn [negb]; [|done]. destruct (read_reply w) as [reply|]; [|done]. rsimpl.
  destruct reply as [st|e| | | | | | |]; try done; [|by intros [= <-]; exists b].
  destruct (validate_relative_path _) as [[]|]; [|done]. rsimpl.
  destruct (add_entry _ _ _ b) as [b1|] eqn:Ha; [|done]. rsimpl.
  destruct (bt_get (relative_path e) m) eqn:Hg; [done|]. apply IH.
  apply add_entry_spec in Ha as (H1 & H2 & H3 & H4). destruct Hs as [W [N1 N2] [B1 B2]]. split.
  - by apply bt_insert_wf.
  - split; [|done]. unfold zlen in *. rewrite bt_insert_length by done. lia.
  - split; [|done]. rewrite bt_sum_insert by done. unfold entry_cost at 1. cbn [fst snd]. lia.
Qed.

Lemma scan_spec input m :
  scan_guest_entries usize_max input = Ok m → manifest_ok m ∧ ∃ b, scanned b m.
Proof.
  unfold scan_guest_entries. rewrite bind_Ok. intros (m0 & Hl & H).
  rewrite bind_Ok in H. destruct H as ([] & Hv & [= ->]). split; [by apply validate_manifest_ok|].
  eapply scan_loop_spec; [|exact Hl]. by split; [constructor|..].
Qed.

(** Whatever a guest sends, an accepted manifest is a tree within budget: at
    most 100000 entries and 16 MiB of names and link targets, each path once and
    in order, every path well formed and equal to the one inside the entry, no
    file over 16 GiB, and every proper ancestor of an entry listed as a
    directory, with the root as the only one that may be missing. So no entry is
    placed below a file or a link of the same manifest. *)
Theorem guest_manifest_tree input m :
  scan_guest_entries usize_max input = Ok m →
  bt_wf m ∧ zlen m ≤ MAX_SYNC_ENTRIES ∧ sumZ (entry_cost <$> m) ≤ MAX_SYNC_METADATA_BYTES ∧
  (∀ p e, bt_get p m = Some e →
     relative_path e = p ∧ validate_relative_path p = Ok tt ∧
     (∀ size, kind e = File size → size ≤ MAX_SYNC_FILE_BYTES)) ∧
  (∀ ls ks e, Forall component_ok (ls ++ ks) → ks ≠ [] →
     bt_get (join slash (ls ++ ks)) m = Some e →
     match bt_get (join slash ls) m with Some d => kind d = Directory | None => ls = [] end).
Proof.
  intros H. apply scan_spec in H as [Hm [b [W [N1 N2] [B1 B2]]]].
  split_and!; [done|lia|lia| |].
  - intros p e He. split_and!; [by eapply mo_paths|by eapply mo_valid|].
    intros size. by eapply mo_sizes.
  - intros ls ks e. by apply manifest_ancestor.
Qed.
End ScanSpec.

Definition demo_tree : list (bool * wire) :=
  (λ e, (true, WFrame (Entry e))) <$>
    [mkEntry (lit "b/link") (Symlink (lit "../a")) 0x1ff 5 0;
     mkEntry (lit "a") (File 3) 0x1a4 5 0;
     mkEntry (lit "b") Directory 0x1ed 5 0;
     mkEntry [] Directory 0x1ed 5 0].
Definition demo_input : list (bool * wire) := demo_tree ++ [(true, WFrame ScanComplete)].

Lemma guest_manifest_tree_witness :
  ∃ m, scan_guest_entries U32_MAX demo_input = Ok m ∧
    m.*1 = [[]; lit "a"; lit "b"; lit "b/link"] ∧
    (∃ d, bt_get (lit "b") m = Some d ∧ kind d = Directory).
Proof.
  eexists. split; [vm_compute; reflexivity|]. split; [vm_compute; reflexivity|].
  destruct (guest_manifest_tree U32_MAX demo_input _ ltac:(vm_compute; reflexivity))
    as (_ & _ & _ & _ & Hanc).
  specialize (Hanc [lit "b"] [lit "link"]). eexists. split; [vm_compute; reflexivity|].
  specialize (Hanc _ ltac:(repeat constructor; try discriminate; apply (bool_decide_unpack _); vm_compute; exact I)
    ltac:(discriminate) ltac:(vm_compute; reflexivity)).
  vm_compute in Hanc. exact Hanc.
Defined.

End Sync.
