(* ===== verification/SyncLinks.v ===== *)
(** * Symbolic links of a download

    [validate_download_links] of [crates/terra/src/cmd/sync/security.rs]: before
    a tree of the guest is copied to the host, every way a link of the result
    can resolve is walked, through the guest's and the host's side of every link
    on the way. How the destination file system folds names is the parameter
    [resolve_component]. *)

From stdpp Require Import strings sorting relations.
From S2P Require Import Prelude PolicyRules SyncTree.

Local Open Scope Z_scope.

Module SyncLinks.
Import Sync.

Definition MAX_SYNC_LINK_WORK_BYTES : Z := 64 * 1024 * 1024.
Definition MAX_SYMLINK_FOLLOWS : Z := 40.

Inductive LinkAuthor : Type := AuthorGuest | AuthorHost.
#[export] Instance LinkAuthor_eq_dec : EqDecision LinkAuthor.
Proof. solve_decision. Defined.

Record LinkSide := mkSide { target : option str; author : LinkAuthor }.

Definition link_sides (guest host : option SyncEntry) : list LinkSide :=
  let guest := (λ entry, mkSide (link_target (kind entry)) AuthorGuest) <$> guest in
  let host := t ← entry ← host; link_target (kind entry);
              if match guest with
                 | Some guest => bool_decide (target guest = Some t)
                 | None => false
                 end then None else Some (mkSide (Some t) AuthorHost) in
  option_list guest ++ option_list host.

Definition is_link (e : SyncEntry) : bool :=
  match link_target (kind e) with Some _ => true | None => false end.

(** The [collect] of [validate_download_links]. *)
Definition collect_links (source destination : btree SyncEntry) : btree (list LinkSide) :=
  foldl (λ m x, bt_insert x.1 (link_sides (bt_get x.1 source) (bt_get x.1 destination)) m) []
    (filter (λ x, is_link x.2 = true) (source ++ destination)).

Definition spend_link_work (remaining bytes : Z) : result SyncError Z :=
  ok_or LinkWork (checked_sub remaining bytes).

Record Branch := mkBranch {
  resolved : list str;
  pending : list str;
  followed : Z;
  is_guest_influenced : bool;
}.

Fixpoint depth_walk (depth : Z) (components : list str) : result SyncError unit :=
  match components with
  | [] => Ok tt
  | c :: components =>
      if bool_decide (c = []) || bool_decide (c = [46]) then depth_walk depth components else
      if bool_decide (c = [46; 46]) then
        _ ← require (0 <? depth) LinkEscapes; depth_walk (depth - 1) components
      else depth_walk (depth + 1) components
  end.

Definition validate_download_symlink_target (entry_rel_path target : str) : result SyncError unit :=
  _ ← require (negb (bool_decide (target = []))) EmptyTarget;
  _ ← require (str_len target <=? MAX_SYNC_PATH_BYTES) TargetTooLong;
  _ ← require (negb (contains_char 0 target)) TargetHasNul;
  _ ← require (negb (starts_with 47 target)) TargetAbsolute;
  depth_walk (zlen (filter (λ c, c = 47) entry_rel_path)) (split 47 target).

(** [Component::RootDir] comes first. *)
Definition is_rooted (link : str) : bool := starts_with 47 link.

Definition follows_link (name link : str) (followed : Z) (is_guest_influenced : bool)
    : result SyncError bool :=
  if negb is_guest_influenced then Ok ((followed <=? MAX_SYMLINK_FOLLOWS) && negb (is_rooted link)) else
  _ ← require (followed <=? MAX_SYMLINK_FOLLOWS) LinkTooDeep;
  _ ← validate_download_symlink_target name link;
  Ok true.

(** [Vec::pop] without the element. *)
Definition vec_pop {A} (l : list A) : option (list A) :=
  match rev l with [] => None | _ :: l => Some (rev l) end.

Section Walk.
Context (resolve_component : str → str → result SyncError str).

(** The body of [for side in sides]; a branch is pushed on the stack. *)
Definition fork_side (name : str) (here resolved pending : list str) (followed : Z) (guest : bool)
    (side : LinkSide) (w : Z * list Branch) : result SyncError (Z * list Branch) :=
  let '(remaining, branches) := w in
  remaining ← spend_link_work remaining
    (str_len name + sumZ ((λ part, str_len part + 1) <$> pending)
     + match target side with Some t => str_len t | None => 0 end + 1);
  let guest := guest || bool_decide (author side = AuthorGuest) in
  match target side with
  | None => Ok (remaining, mkBranch here pending followed guest :: branches)
  | Some link =>
      follow ← follows_link name link (followed + 1) guest;
      Ok (remaining, if follow : bool
                     then mkBranch resolved (split 47 link ++ pending) (followed + 1) guest :: branches
                     else branches)
  end.

Fixpoint fork_sides (name : str) (here resolved pending : list str) (followed : Z) (guest : bool)
    (sides : list LinkSide) (w : Z * list Branch) : result SyncError (Z * list Branch) :=
  match sides with
  | [] => Ok w
  | side :: sides =>
      w ← fork_side name here resolved pending followed guest side w;
      fork_sides name here resolved pending followed guest sides w
  end.

Context (links : btree (list LinkSide)).

(** [walk_branch] on the fields of the branch. *)
Fixpoint walk (resolved pending : list str) (followed : Z) (guest : bool) (w : Z * list Branch)
    : result SyncError (Z * list Branch) :=
  match pending with
  | [] => Ok w
  | c :: pending =>
      let '(remaining, branches) := w in
      remaining ← spend_link_work remaining (str_len c + 1);
      if bool_decide (c = []) || bool_decide (c = [46])
      then walk resolved pending followed guest (remaining, branches) else
      if bool_decide (c = [46; 46]) then
        match vec_pop resolved with
        | Some resolved => walk resolved pending followed guest (remaining, branches)
        | None => _ ← require (negb guest) LinkEscapes; Ok (remaining, branches)
        end
      else
        let parent := join 47 resolved in
        remaining ← spend_link_work remaining (str_len parent);
        c ← resolve_component parent c;
        let here := resolved ++ [c] in
        let name := join 47 here in
        remaining ← spend_link_work remaining (str_len name);
        match bt_get name links with
        | None => walk here pending followed guest (remaining, branches)
        | Some sides => fork_sides name here resolved pending followed guest sides (remaining, branches)
        end
  end.

Definition walk_branch (b : Branch) (w : Z * list Branch) : result SyncError (Z * list Branch) :=
  walk (resolved b) (pending b) (followed b) (is_guest_influenced b) w.

(** The [while let] loop; [None] is out of fuel. *)
Fixpoint drain (fuel : nat) (w : Z * list Branch) : option (result SyncError Z) :=
  match w.2 with
  | [] => Some (Ok w.1)
  | b :: branches =>
      match fuel with
      | O => None
      | S fuel =>
          match walk_branch b (w.1, branches) with
          | Err e => Some (Err e)
          | Ok w => drain fuel w
          end
      end
  end.

Definition start_branch (path : str) : Branch :=
  let resolved := split 47 path in
  mkBranch (default [] (vec_pop resolved)) [default [] (last resolved)] 0 false.

Definition validate_link_resolutions (fuel : nat) (path : str) (remaining : Z)
    : option (result SyncError Z) :=
  drain fuel (remaining, [start_branch path]).

Fixpoint validate_links (fuel : nat) (paths : list str) (remaining : Z)
    : option (result SyncError unit) :=
  match paths with
  | [] => Some (Ok tt)
  | path :: paths =>
      r ← validate_link_resolutions fuel path remaining;
      match r with
      | Err e => Some (Err e)
      | Ok remaining => validate_links fuel paths remaining
      end
  end.
End Walk.

Definition validate_download_links (resolve_component : str → str → result SyncError str)
    (fuel : nat) (source destination : btree SyncEntry) : option (result SyncError unit) :=
  let links := collect_links source destination in
  validate_links resolve_component links fuel links.*1 MAX_SYNC_LINK_WORK_BYTES.

(** ** How a link can resolve

    Independently of the walk: at a path that is a link on either side, a
    resolution meets the guest's entry or a host link the guest does not repeat. *)

Definition sides_at (source destination : btree SyncEntry) (p : str) : option (list LinkSide) :=
  let linked o := match o with Some e => is_link e | None => false end in
  if linked (bt_get p source) || linked (bt_get p destination)
  then Some (link_sides (bt_get p source) (bt_get p destination)) else None.

Definition plain (c : str) : Prop := c ≠ [] ∧ c ≠ [46] ∧ c ≠ [46; 46].

Section Resolution.
Context (resolve_component : str → str → result SyncError str).
Context (sides : str → option (list LinkSide)).

(** The name [c] in the directory [r] is the entry [c']. *)
Definition names (r : list str) (c c' : str) : Prop :=
  plain c ∧ resolve_component (join 47 r) c = Ok c'.

Definition by_guest (g : bool) (side : LinkSide) : bool :=
  g || bool_decide (author side = AuthorGuest).

(** One component of a resolution. *)
Inductive step : Branch → Branch → Prop :=
| step_skip r c p f g : c = [] ∨ c = [46] → step (mkBranch r (c :: p) f g) (mkBranch r p f g)
| step_up r x p f g : step (mkBranch (r ++ [x]) ([46; 46] :: p) f g) (mkBranch r p f g)
| step_name r c c' p f g :
    names r c c' → sides (join 47 (r ++ [c'])) = None →
    step (mkBranch r (c :: p) f g) (mkBranch (r ++ [c']) p f g)
| step_entry r c c' p f g ss side :
    names r c c' → sides (join 47 (r ++ [c'])) = Some ss → side ∈ ss → target side = None →
    step (mkBranch r (c :: p) f g) (mkBranch (r ++ [c']) p f (by_guest g side))
| step_link r c c' p f g ss side link :
    names r c c' → sides (join 47 (r ++ [c'])) = Some ss → side ∈ ss → target side = Some link →
    is_rooted link = false → f + 1 ≤ MAX_SYMLINK_FOLLOWS →
    step (mkBranch r (c :: p) f g) (mkBranch r (split 47 link ++ p) (f + 1) (by_guest g side)).

(** The next component leaves the root, or follows more links than the system
    does; [g] tells whether the guest had a part in the chain. *)
Inductive leaves : Branch → bool → Prop :=
| leaves_up p f g : leaves (mkBranch [] ([46; 46] :: p) f g) g
| leaves_link r c c' p f g ss side link :
    names r c c' → sides (join 47 (r ++ [c'])) = Some ss → side ∈ ss → target side = Some link →
    is_rooted link = true ∨ MAX_SYMLINK_FOLLOWS < f + 1 →
    leaves (mkBranch r (c :: p) f g) (by_guest g side).

Definition confined (b : Branch) : Prop := ∀ b' g, rtc step b b' → leaves b' g → g = false.

Lemma confined_intro b :
  (∀ g, leaves b g → g = false) → (∀ b', step b b' → confined b') → confined b.
Proof.
  intros Hl Hs b' g Hr. inversion Hr as [|? b1 ? H1 H2]; subst; [by apply Hl|]. by apply (Hs b1 H1).
Qed.

Lemma confined_done r f g : confined (mkBranch r [] f g).
Proof. apply confined_intro; intros ? H; inversion H. Qed.

(** A component that is not a name moves one way. *)
Local Ltac not_plain := match goal with H : names _ _ _ |- _ => destruct H as [(? & ? & ?) _] end.

Lemma confined_skip r c p f g :
  c = [] ∨ c = [46] → confined (mkBranch r p f g) → confined (mkBranch r (c :: p) f g).
Proof.
  intros Hc Hn. apply confined_intro.
  - intros g' H. inversion H; subst; [by destruct Hc|].
    not_plain. by destruct Hc.
  - intros b' H. inversion H; subst; try done; [by destruct Hc|..];
      not_plain; by destruct Hc.
Qed.

Lemma confined_up r x p f g :
  confined (mkBranch r p f g) → confined (mkBranch (r ++ [x]) ([46; 46] :: p) f g).
Proof.
  intros Hn. apply confined_intro.
  - intros g' H. inversion H as [? ? ? Hr|]; subst; [by destruct r|].
    by not_plain.
  - intros b' H. inversion H as [? ? ? ? ? [?|?]|? ? ? ? ? Hr| | |]; subst; try done; try by not_plain.
    by apply app_inj_tail in Hr as [-> _].
Qed.

Lemma confined_root p f : confined (mkBranch [] ([46; 46] :: p) f false).
Proof.
  apply confined_intro.
  - intros g' H. inversion H; subst; [done|].
    by not_plain.
  - intros b' H. inversion H as [? ? ? ? ? [?|?]|? ? ? ? ? Hr| | |]; subst; try done; try by not_plain.
    by destruct r.
Qed.

Definition rules (f : Z) (g : bool) (side : LinkSide) (here r p : list str) (b : Branch) : Prop :=
  match target side with
  | None => b = mkBranch here p f (by_guest g side)
  | Some link =>
      is_rooted link = false ∧ f + 1 ≤ MAX_SYMLINK_FOLLOWS ∧
      b = mkBranch r (split 47 link ++ p) (f + 1) (by_guest g side)
  end.

(** A name: confined if every side it may be is. *)
Lemma confined_sides r c c' p f g ss :
  names r c c' → sides (join 47 (r ++ [c'])) = Some ss →
  (∀ side link, side ∈ ss → target side = Some link →
     is_rooted link = true ∨ MAX_SYMLINK_FOLLOWS < f + 1 → by_guest g side = false) →
  (∀ side b, side ∈ ss → rules f g side (r ++ [c']) r p b → confined b) →
  confined (mkBranch r (c :: p) f g).
Proof.
  intros [Hc Hn] Hs Hl Hb. apply confined_intro.
  - intros g' H. inversion H as [|? ? c1 ? ? ? ss1 side link [_ Hn1] Hs1 Hin Ht Hr]; subst.
    { by destruct Hc as (_ & _ & ?). }
    rewrite Hn in Hn1. injection Hn1 as <-. rewrite Hs in Hs1. injection Hs1 as <-. by eapply Hl.
  - intros b' H.
    inversion H as [? ? ? ? ? Hx| |? ? c1 ? ? ? [_ Hn1] Hs1
      |? ? c1 ? ? ? ss1 side [_ Hn1] Hs1 Hin Ht|? ? c1 ? ? ? ss1 side link [_ Hn1] Hs1 Hin Ht Hr Hf];
      subst; [by destruct Hc as (? & ? & ?), Hx|by destruct Hc as (_ & _ & ?)|..];
      rewrite Hn in Hn1; injection Hn1 as <-; rewrite Hs in Hs1; [done|..]; injection Hs1 as <-.
    + apply (Hb side); [done|]. unfold rules. by rewrite Ht.
    + apply (Hb side); [done|]. unfold rules. by rewrite Ht.
Qed.

Lemma confined_name r c c' p f g :
  names r c c' → sides (join 47 (r ++ [c'])) = None →
  confined (mkBranch (r ++ [c']) p f g) → confined (mkBranch r (c :: p) f g).
Proof.
  intros [Hc Hn] Hs Hb. apply confined_intro.
  - intros g' H. inversion H as [|? ? c1 ? ? ? ss1 side link [_ Hn1] Hs1 Hin Ht Hr]; subst.
    { by destruct Hc as (_ & _ & ?). }
    rewrite Hn in Hn1. injection Hn1 as <-. by rewrite Hs in Hs1.
  - intros b' H.
    inversion H as [? ? ? ? ? Hx| |? ? c1 ? ? ? [_ Hn1] Hs1
      |? ? c1 ? ? ? ss1 side [_ Hn1] Hs1 Hin Ht|? ? c1 ? ? ? ss1 side link [_ Hn1] Hs1 Hin Ht Hr Hf];
      subst; [by destruct Hc as (? & ? & ?), Hx|by destruct Hc as (_ & _ & ?)|..];
      rewrite Hn in Hn1; injection Hn1 as <-; by rewrite Hs in Hs1.
Qed.
End Resolution.

(** ** The walk covers every resolution, within its budget *)

Lemma str_len_nonneg s : 0 ≤ str_len s.
Proof. apply sumZ_fmap_nonneg. intros c. pose proof (utf8_len_pos c). lia. Qed.

Lemma spend_Ok w n w' : spend_link_work w n = Ok w' → w' = w - n ∧ n ≤ w.
Proof. intros H%ok_or_Ok. by apply checked_sub_Some in H. Qed.

Lemma follows_link_Ok name link f g b :
  follows_link name link f g = Ok b →
  (is_rooted link = true ∨ MAX_SYMLINK_FOLLOWS < f → g = false) ∧
  (is_rooted link = false → f ≤ MAX_SYMLINK_FOLLOWS → b = true).
Proof.
  unfold follows_link. destruct g; cbn [negb].
  - rewrite bind_Ok. intros ([] & Hf%require_Ok & H). apply Z.leb_le in Hf. rewrite bind_Ok in H.
    destruct H as ([] & Ht & [= <-]). split; [|done]. unfold validate_download_symlink_target in Ht.
    do 3 (rewrite bind_Ok in Ht; destruct Ht as ([] & _ & Ht)). rewrite bind_Ok in Ht.
    destruct Ht as ([] & Hr%require_Ok & _). unfold is_rooted.
    destruct (starts_with 47 link); [done|]. intros [?|?]; [done|lia].
  - intros [= <-]. split; [done|]. intros -> Hf. apply Z.leb_le in Hf. by rewrite Hf.
Qed.

Section Spec.
Context (resolve_component : str → str → result SyncError str) (links : btree (list LinkSide)).
Let sides p := bt_get p links.

(** What one turn leaves on the stack: branches paid for, that cover what it was
    asked to walk. *)
Definition covers (goal : list Branch → Prop) (w : Z * list Branch) (w' : Z * list Branch) : Prop :=
  ∃ new, w'.2 = new ++ w.2 ∧ 0 ≤ w'.1 ∧ w'.1 + zlen new ≤ w.1 ∧ goal new.

Lemma fork_sides_spec name here r p f g ss w w' :
  0 ≤ w.1 → fork_sides name here r p f g ss w = Ok w' →
  covers (λ new,
    (∀ side link, side ∈ ss → target side = Some link →
       is_rooted link = true ∨ MAX_SYMLINK_FOLLOWS < f + 1 → by_guest g side = false) ∧
    (∀ side b, side ∈ ss → rules f g side here r p b → b ∈ new)) w w'.
Proof.
  revert w. induction ss as [|side ss IH]; intros [n bs] Hn; cbn [fork_sides].
  { intros [= <-]. exists []. cbn. split_and!; [done|done|unfold zlen; cbn; lia|..];
      intros ? ? ?%not_elem_of_nil; done. }
  rewrite bind_Ok. intros ([n1 bs1] & Hf & Hrest). unfold fork_side in Hf.
  rewrite bind_Ok in Hf. destruct Hf as (n0 & Hs%spend_Ok & Hf). destruct Hs as [-> Hle].
  cbn [fst snd] in *.
  set (cost := str_len name + _ + _ + 1) in *.
  assert (Hcost : 1 ≤ cost).
  { unfold cost. pose proof (str_len_nonneg name).
    pose proof (sumZ_fmap_nonneg (λ part, str_len part + 1) p
      ltac:(intros x; pose proof (str_len_nonneg x); lia)).
    destruct (target side) as [t|]; [pose proof (str_len_nonneg t)|]; lia. }
  clearbody cost. fold (by_guest g side) in Hf.
  assert (Hone : ∃ one, bs1 = one ++ bs ∧ n1 = n - cost ∧ zlen one ≤ 1 ∧
    (∀ link, target side = Some link → is_rooted link = true ∨ MAX_SYMLINK_FOLLOWS < f + 1 →
       by_guest g side = false) ∧
    (∀ b, rules f g side here r p b → b ∈ one)).
  { destruct (target side) as [link|] eqn:Ht.
    - rewrite bind_Ok in Hf. destruct Hf as (follow & Hl%follows_link_Ok & [= <- <-]).
      destruct Hl as [Hl1 Hl2]. exists (if follow then [mkBranch r (split 47 link ++ p) (f + 1) (by_guest g side)] else []).
      split_and!; [by destruct follow|done|by destruct follow|by intros ? [= <-]|].
      unfold rules. rewrite Ht. intros b (Hr & Hf & ->). rewrite Hl2 by done. by left.
    - injection Hf as <- <-. eexists [_]. split_and!; [done|done|done|done|].
      unfold rules. rewrite Ht. intros b ->. by left. }
  destruct Hone as (one & -> & -> & Hz & Hroot & Hin).
  destruct (IH (n - cost, one ++ bs) ltac:(cbn; lia) Hrest) as (new & Hnew & Hpos & Hm & H1 & H2). cbn [fst snd] in *.
  exists (new ++ one). rewrite <-app_assoc, zlen_app. cbn [fst snd]. split_and!; [done|done|lia|..].
  - intros s0 link [->|Hs0]%elem_of_cons; [by apply Hroot|by apply H1].
  - intros s0 b [->|Hs0]%elem_of_cons Hr; apply elem_of_app; [right; by apply Hin|left; by eapply H2].
Qed.

Lemma vec_pop_Some {A} (l k : list A) : vec_pop l = Some k → ∃ x, l = k ++ [x].
Proof.
  unfold vec_pop. destruct (rev l) as [|x t] eqn:Hl; [done|]. intros [= <-]. exists x.
  by rewrite <-(rev_involutive l), Hl.
Qed.
Lemma vec_pop_None {A} (l : list A) : vec_pop l = None → l = [].
Proof. unfold vec_pop. destruct (rev l) eqn:Hl; [|done]. by rewrite <-(rev_involutive l), Hl. Qed.

Lemma walk_spec r p f g w w' :
  0 ≤ w.1 → walk resolve_component links r p f g w = Ok w' →
  covers (λ new, (∀ b, b ∈ new → confined resolve_component sides b) →
                 confined resolve_component sides (mkBranch r p f g)) w w'.
Proof.
  revert r w. induction p as [|c p IH]; intros r [n bs] Hn; cbn [walk].
  { intros [= <-]. exists []. cbn. split_and!; [done|done|unfold zlen; cbn; lia|].
    intros _. apply confined_done. }
  rewrite bind_Ok. intros (n1 & [-> Hle]%spend_Ok & H). cbn [fst] in Hn.
  pose proof (str_len_nonneg c) as Hc.
  assert (Hgo : ∀ r1 n2, 0 ≤ n2 ≤ n → walk resolve_component links r1 p f g (n2, bs) = Ok w' →
    (confined resolve_component sides (mkBranch r1 p f g) →
     confined resolve_component sides (mkBranch r (c :: p) f g)) →
    covers (λ new, (∀ b, b ∈ new → confined resolve_component sides b) →
      confined resolve_component sides (mkBranch r (c :: p) f g)) (n, bs) w').
  { intros r1 n2 Hn2 Hw Himp. destruct (IH r1 (n2, bs) ltac:(cbn; lia) Hw) as (new & H1 & H2 & H3 & H4).
    exists new. cbn [fst snd] in *. split_and!; [done|done|lia|auto]. }
  destruct (bool_decide (c = []) || bool_decide (c = [46])) eqn:Hskip.
  { eapply Hgo; [|exact H|]; [lia|]. apply confined_skip. apply orb_true_iff in Hskip.
    by rewrite !bool_decide_eq_true in Hskip. }
  apply orb_false_iff in Hskip as [?%bool_decide_eq_false ?%bool_decide_eq_false].
  case_bool_decide as Hup.
  { subst c. destruct (vec_pop r) as [r1|] eqn:Hpop.
    - apply vec_pop_Some in Hpop as [x ->]. eapply Hgo; [|exact H|]; [lia|]. apply confined_up.
    - apply vec_pop_None in Hpop as ->. rewrite bind_Ok in H. destruct H as ([] & Hg%require_Ok & [= <-]).
      exists []. cbn [fst snd]. split_and!; [done|lia|unfold zlen; cbn [length]; lia|].
      intros _. destruct g; [done|]. apply confined_root. }
  rewrite bind_Ok in H. destruct H as (n2 & [-> Hle2]%spend_Ok & H). rewrite bind_Ok in H.
  destruct H as (c' & Hres & H). rewrite bind_Ok in H. destruct H as (n3 & [-> Hle3]%spend_Ok & H).
  pose proof (str_len_nonneg (join 47 r)). pose proof (str_len_nonneg (join 47 (r ++ [c']))).
  assert (Hnames : names resolve_component r c c') by (split; [done|exact Hres]).
  destruct (bt_get (join 47 (r ++ [c'])) links) as [ss|] eqn:Hlink.
  - apply fork_sides_spec in H as (new & F1 & F2 & F3 & F4 & F5); [|cbn; lia]. cbn [fst snd] in *.
    exists new. cbn [fst snd]. split_and!; [done|done|lia|]. intros Hnew.
    apply (confined_sides _ _ r c c' p f g ss Hnames Hlink); [done|].
    intros side b Hside Hrules. apply Hnew. by eapply F5.
  - eapply Hgo; [|exact H|]; [lia|]. by apply (confined_name _ _ r c c').
Qed.

Lemma drain_confined fuel w n :
  0 ≤ w.1 → drain resolve_component links fuel w = Some (Ok n) →
  0 ≤ n ∧ ∀ b, b ∈ w.2 → confined resolve_component sides b.
Proof.
  revert w. induction fuel as [|fuel IH]; intros [m bs] Hm; cbn [drain fst snd];
    destruct bs as [|b bs]; try done; try (intros [= <-]; split; [done|by intros ? ?%not_elem_of_nil]).
  destruct (walk_branch resolve_component links b (m, bs)) as [w|] eqn:Hw; [|done]. intros Hd.
  apply walk_spec in Hw as (new & H1 & H2 & H3 & H4); [|done]. cbn [fst snd] in *.
  destruct (IH w H2 Hd) as [Hn Hall]. split; [done|].
  rewrite H1 in Hall. intros b' [->|Hb']%elem_of_cons; [|by apply Hall, elem_of_app; right].
  destruct b. apply H4. intros b' Hb'. by apply Hall, elem_of_app; left.
Qed.

Lemma drain_total fuel w :
  0 ≤ w.1 → (Z.to_nat w.1 + length w.2 ≤ fuel)%nat → is_Some (drain resolve_component links fuel w).
Proof.
  revert w. induction fuel as [|fuel IH]; intros [m bs] Hm Hf; cbn [drain fst snd] in *;
    destruct bs as [|b bs]; try done; [cbn [length] in Hf; lia|].
  destruct (walk_branch resolve_component links b (m, bs)) as [w|] eqn:Hw; [|done].
  apply walk_spec in Hw as (new & H1 & H2 & H3 & _); [|done]. cbn [fst snd length] in *.
  apply IH; [done|]. rewrite H1, length_app. unfold zlen in H3. lia.
Qed.

Lemma drain_bound fuel w n :
  0 ≤ w.1 → drain resolve_component links fuel w = Some (Ok n) → 0 ≤ n ≤ w.1.
Proof.
  revert w. induction fuel as [|fuel IH]; intros [m bs] Hm; cbn [drain fst snd];
    destruct bs as [|b bs]; try done; try (intros [= <-]; cbn [fst] in Hm; lia).
  destruct (walk_branch resolve_component links b (m, bs)) as [w|] eqn:Hw; [|done]. intros Hd.
  apply walk_spec in Hw as (new & H1 & H2 & H3 & _); [|done]. cbn [fst snd] in *.
  destruct (IH w H2 Hd). pose proof (zlen_nonneg new). lia.
Qed.

Lemma drain_mono fuel fuel' w r :
  (fuel ≤ fuel')%nat → drain resolve_component links fuel w = Some r →
  drain resolve_component links fuel' w = Some r.
Proof.
  revert fuel' w. induction fuel as [|fuel IH]; intros [|fuel'] w Hle; cbn [drain];
    destruct w.2; try done; [lia|].
  destruct (walk_branch _ _ _ _) as [w1|]; [|done]. apply IH. lia.
Qed.
End Spec.

(** ** The links of the two manifests *)

Section Collect.
Context (source destination : btree SyncEntry).

Let sides_of (p : str) : list LinkSide := link_sides (bt_get p source) (bt_get p destination).

Lemma fold_links (xs : btree SyncEntry) m p :
  bt_get p (foldl (λ m x, bt_insert x.1 (sides_of x.1) m) m xs) =
  if bool_decide (p ∈ xs.*1) then Some (sides_of p) else bt_get p m.
Proof.
  revert m. induction xs as [|[k v] xs IH]; intros m; cbn [foldl fst fmap list_fmap].
  { rewrite bool_decide_eq_false_2; [done|]. apply not_elem_of_nil. }
  rewrite IH, bt_get_insert. destruct (decide (p ∈ xs.*1)) as [Hin|Hin].
  - rewrite !bool_decide_eq_true_2; [done|by right|done].
  - rewrite (bool_decide_eq_false_2 (p ∈ xs.*1)) by done. destruct (decide (p = k)) as [->|Hne].
    + rewrite !bool_decide_eq_true_2; [done|by left|done].
    + rewrite !bool_decide_eq_false_2; [done| |done].
      intros [?|?]%elem_of_cons; done.
Qed.

Definition linked_in (m : btree SyncEntry) (p : str) : bool :=
  match bt_get p m with Some e => is_link e | None => false end.

Lemma linked_elem m p :
  bt_wf m → linked_in m p = true ↔ ∃ e, (p, e) ∈ m ∧ is_link e = true.
Proof.
  intros Hm. unfold linked_in. split.
  - destruct (bt_get p m) as [e|] eqn:He; [|done]. intros Hl. exists e. split; [|done]. by apply bt_get_elem.
  - intros (e & He & Hl). by rewrite (bt_elem_get _ _ _ Hm He).
Qed.

Lemma collect_links_get p :
  bt_wf source → bt_wf destination →
  bt_get p (collect_links source destination) = sides_at source destination p.
Proof.
  intros Hs Hd. unfold collect_links. rewrite fold_links. unfold sides_at.
  fold (linked_in source p) (linked_in destination p).
  assert (Hiff : p ∈ (filter (λ x, is_link x.2 = true) (source ++ destination)).*1 ↔
    linked_in source p || linked_in destination p = true).
  { rewrite list_elem_of_fmap, orb_true_iff, !linked_elem by done. split.
    - intros ([k e] & -> & Hin). apply list_elem_of_filter in Hin as [Hl [Hin|Hin]%elem_of_app];
        [left|right]; by exists e.
    - intros [(e & Hin & Hl)|(e & Hin & Hl)]; exists (p, e); (split; [done|]);
        apply list_elem_of_filter; (split; [done|]); apply elem_of_app; [by left|by right]. }
  destruct (linked_in source p || linked_in destination p).
  - by rewrite bool_decide_eq_true_2 by by apply Hiff.
  - rewrite bool_decide_eq_false_2; [done|]. by intros H%Hiff.
Qed.
End Collect.

Lemma step_ext rc (s1 s2 : str → option (list LinkSide)) b b' :
  (∀ p, s1 p = s2 p) → step rc s1 b b' → step rc s2 b b'.
Proof.
  intros He H. inversion H; subst; try by constructor.
  - apply step_name; [done|by rewrite <-He].
  - eapply step_entry; [done|by rewrite <-He|done|done].
  - eapply step_link; [done|by rewrite <-He|done..].
Qed.

Lemma leaves_ext rc (s1 s2 : str → option (list LinkSide)) b g :
  (∀ p, s1 p = s2 p) → leaves rc s1 b g → leaves rc s2 b g.
Proof.
  intros He H. inversion H; subst; [constructor|]. eapply leaves_link; [done|by rewrite <-He|done..].
Qed.

Lemma confined_ext rc (s1 s2 : str → option (list LinkSide)) b :
  (∀ p, s1 p = s2 p) → confined rc s1 b → confined rc s2 b.
Proof.
  intros He Hc b' g Hr Hl. apply (Hc b').
  - eapply rtc_subrel; [|exact Hr]. intros x y. by apply step_ext.
  - eapply leaves_ext; [|exact Hl]. done.
Qed.

Lemma start_branch_join r name :
  Forall component_ok (r ++ [name]) → start_branch (join 47 (r ++ [name])) = mkBranch r [name] 0 false.
Proof.
  intros Hc. unfold start_branch. rewrite split_join; [|by destruct r|by apply components_free].
  unfold vec_pop. rewrite rev_app_distr. cbn [rev app]. rewrite rev_involutive, last_snoc. done.
Qed.

Lemma validate_links_confined rc links fuel paths n :
  0 ≤ n → validate_links rc links fuel paths n = Some (Ok tt) →
  ∀ p, p ∈ paths → confined rc (λ p, bt_get p links) (start_branch p).
Proof.
  revert n. induction paths as [|p paths IH]; intros n Hn Hv q Hq; [by apply not_elem_of_nil in Hq|].
  cbn [validate_links] in Hv. destruct (validate_link_resolutions rc links fuel p n) as [[n'|]|] eqn:Hd; try done.
  cbn [mbind option_bind] in Hv. apply drain_confined in Hd as [Hn' Hc]; [|done].
  apply elem_of_cons in Hq as [->|Hq]; [apply Hc; by left|by eapply IH].
Qed.

(** C9. A downloaded tree cannot lead out of the destination. If the check
    accepts the two manifests, then for every path that is a link on either side,
    every resolution of it, in which each link on the way is the guest's entry or
    a host link the guest does not repeat, in any mixture, stays below the
    destination root and follows at most 40 links, unless no entry of the guest
    had a part in it: only the host's own links may lead elsewhere. *)
Theorem download_links_confined rc fuel source destination :
  bt_wf source → bt_wf destination →
  validate_download_links rc fuel source destination = Some (Ok tt) →
  ∀ r name, Forall component_ok (r ++ [name]) →
    is_Some (sides_at source destination (join 47 (r ++ [name]))) →
    confined rc (sides_at source destination) (mkBranch r [name] 0 false).
Proof.
  intros Hs Hd Hv r name Hc [ss Hss]. rewrite <-start_branch_join by done.
  eapply (confined_ext _ (λ p, bt_get p (collect_links source destination)));
    [intros p; by apply collect_links_get|].
  eapply validate_links_confined; [|exact Hv|]; [done|].
  rewrite <-collect_links_get in Hss by done. apply bt_get_elem in Hss.
  apply list_elem_of_fmap. by eexists (_, _).
Qed.

Lemma validate_links_total rc links fuel paths n :
  0 ≤ n → (Z.to_nat n < fuel)%nat → is_Some (validate_links rc links fuel paths n).
Proof.
  revert n. induction paths as [|p paths IH]; intros n Hn Hf; [done|]. cbn [validate_links].
  assert (is_Some (validate_link_resolutions rc links fuel p n)) as [r Hr]
    by (apply drain_total; cbn [fst snd length]; lia).
  rewrite Hr. cbn [mbind option_bind]. destruct r as [n'|]; [|done].
  destruct (drain_bound rc links fuel (n, [start_branch p]) n' Hn Hr) as [? Hle]. cbn [fst] in Hle.
  apply IH; lia.
Qed.

Lemma validate_links_mono rc links fuel fuel' paths n r :
  (fuel ≤ fuel')%nat → validate_links rc links fuel paths n = Some r →
  validate_links rc links fuel' paths n = Some r.
Proof.
  intros Hle. revert n. induction paths as [|p paths IH]; intros n; [done|]. cbn [validate_links].
  destruct (validate_link_resolutions rc links fuel p n) as [x|] eqn:Hx; [|done].
  unfold validate_link_resolutions in *. rewrite (drain_mono _ _ _ _ _ _ Hle Hx). cbn [mbind option_bind].
  destruct x; [apply IH|done].
Qed.

(** C38. The check ends: the walk over all resolutions is cut off by its work
    budget, so a bound of one turn per unit of the budget is never reached,
    whatever the two manifests and the file system answer; and whenever a smaller
    bound gives an answer, it is the same one. *)
Theorem download_links_total rc fuel source destination :
  (Z.to_nat MAX_SYNC_LINK_WORK_BYTES < fuel)%nat →
  ∃ r, validate_download_links rc fuel source destination = Some r ∧
    ∀ fuel' r', validate_download_links rc fuel' source destination = Some r' → r' = r.
Proof.
  intros Hf. unfold validate_download_links.
  destruct (validate_links_total rc (collect_links source destination) fuel
    (collect_links source destination).*1 MAX_SYNC_LINK_WORK_BYTES) as [r Hr]; [done|done|].
  exists r. split; [done|]. intros fuel' r' Hr'. destruct (Nat.le_ge_cases fuel fuel') as [Hle|Hle].
  - apply (validate_links_mono _ _ _ _ _ _ _ Hle) in Hr. congruence.
  - apply (validate_links_mono _ _ _ _ _ _ _ Hle) in Hr'. congruence.
Qed.

(** ** A guest link through a host directory

    The host has [d/up -> ..]; the guest sends a link [a -> d/x] and a directory
    [d]. The file system does not fold names. *)

Definition demo_source : btree SyncEntry :=
  [([], mkEntry [] Directory 0x1ed 1 0);
   (lit "a", mkEntry (lit "a") (Symlink (lit "d/x")) 0x1ff 1 0);
   (lit "d", mkEntry (lit "d") Directory 0x1ed 1 0)].
Definition demo_destination : btree SyncEntry :=
  [([], mkEntry [] Directory 0x1ed 1 0);
   (lit "d", mkEntry (lit "d") Directory 0x1ed 1 0);
   (lit "d/up", mkEntry (lit "d/up") (Symlink (lit "..")) 0x1ff 1 0)].
Definition demo_escape : btree SyncEntry :=
  [(lit "a", mkEntry (lit "a") (Symlink (lit "d/up/../x")) 0x1ff 1 0)].
Definition demo_resolve (parent component : str) : result SyncError str := Ok component.

Lemma demo_wf : bt_wf demo_source ∧ bt_wf demo_destination.
Proof. split; repeat constructor; vm_compute; reflexivity. Qed.

Lemma download_links_confined_witness :
  confined demo_resolve (sides_at demo_source demo_destination) (mkBranch [] [lit "a"] 0 false) ∧
  validate_download_links demo_resolve 9 demo_escape demo_destination = Some (Err LinkEscapes).
Proof.
  split; [|vm_compute; reflexivity].
  apply (download_links_confined demo_resolve 9 demo_source demo_destination
           (proj1 demo_wf) (proj2 demo_wf) ltac:(vm_compute; reflexivity) [] (lit "a")).
  - apply Forall_singleton. split; try discriminate. apply (bool_decide_unpack _). vm_compute. exact I.
  - vm_compute. eexists. reflexivity.
Defined.

Lemma download_links_total_witness :
  validate_download_links demo_resolve (S (Z.to_nat MAX_SYNC_LINK_WORK_BYTES))
    demo_source demo_destination = Some (Ok tt).
Proof.
  destruct (download_links_total demo_resolve (S (Z.to_nat MAX_SYNC_LINK_WORK_BYTES))
              demo_source demo_destination (Nat.lt_succ_diag_r _)) as (r & Hr & Hsame).
  assert (Hsmall : validate_download_links demo_resolve 9 demo_source demo_destination = Some (Ok tt))
    by (vm_compute; reflexivity).
  rewrite (Hsame 9%nat _ Hsmall). exact Hr.
Defined.

End SyncLinks.
