(* ===== verification/SyncPlan.v ===== *)
(** * The plan of a synchronisation

    [crates/terra/src/cmd/sync/plan.rs]: the actions that turn the destination into
    the source, and the phases [exec.rs] sorts them into. The digests, the host's
    name folding and the directory around a link destination are parameters. *)

From stdpp Require Import strings sorting gmap.
From S2P Require Import Prelude PolicyRules SyncTree SyncLinks.

Local Open Scope Z_scope.

Module SyncPlan.
Import Sync SyncLinks.

Inductive PlanAction : Type :=
| CreateDir (rel_path : str) (mode : Z)
| TransferFile (rel_path : str) (size mode mtime_secs mtime_nanos : Z)
| CreateSymlink (rel_path target : str)
| UpdateFileMetadata (rel_path : str) (mode mtime_secs mtime_nanos : Z)
| UpdateDirMetadata (rel_path : str) (mode mtime_secs mtime_nanos : Z)
| RemoveEntry (rel_path : str) (is_dir : bool)
| Skip (rel_path : str).

Fixpoint check_conflicts (target_entries todo : btree SyncEntry) : result SyncError unit :=
  match todo with
  | [] => Ok tt
  | (path, src) :: todo =>
      _ ← match bt_get path target_entries with
          | Some dst =>
              if is_dir src && negb (is_dir dst) then Err DirectoryOverFile else
              if negb (is_dir src) && is_dir dst then Err FileOverDirectory else Ok tt
          | None => Ok tt
          end;
      check_conflicts target_entries todo
  end.

Definition validate_plan_conflicts (source_entries target_entries : btree SyncEntry)
    : result SyncError unit :=
  _ ← validate_manifest source_entries;
  _ ← validate_manifest target_entries;
  check_conflicts target_entries source_entries.

Definition transfer (rel_path : str) (size : Z) (src : SyncEntry) : PlanAction :=
  TransferFile rel_path size (mode src) (mtime_secs src) (mtime_nanos src).
Definition update_dir (rel_path : str) (src : SyncEntry) : PlanAction :=
  UpdateDirMetadata rel_path (mode src) (mtime_secs src) (mtime_nanos src).

Definition mtime_differs (src dst : SyncEntry) : bool :=
  negb (mtime_secs src =? mtime_secs dst) || negb (mtime_nanos src =? mtime_nanos dst).
Definition mode_differs (direction : Direction) (src dst : SyncEntry) : bool :=
  negb (effective_mode (mode src) direction =? mode dst).

Section Plan.
(** [compute_checksum_pair]: the digests of the source and the destination. *)
Context (compute_checksum_pair : str → result SyncError (list Z * list Z)).

Definition plan_file_update (rel_path : str) (src : SyncEntry) (src_size : Z) (dst : SyncEntry)
    (is_checksum : bool) (direction : Direction) : result SyncError PlanAction :=
  if negb (bool_decide (kind dst = File src_size)) then Ok (transfer rel_path src_size src) else
  is_identical ←
    (if is_checksum then
       '(src_sha, dst_sha) ← compute_checksum_pair rel_path; Ok (bool_decide (src_sha = dst_sha))
     else Ok (negb (mtime_differs src dst)));
  Ok (if is_identical : bool then
        if mode_differs direction src dst || mtime_differs src dst
        then UpdateFileMetadata rel_path (mode src) (mtime_secs src) (mtime_nanos src)
        else Skip rel_path
      else transfer rel_path src_size src).

Definition find_changed_parent (action : PlanAction) : option str :=
  match action with
  | CreateDir path _ | TransferFile path _ _ _ _ | CreateSymlink path _ | RemoveEntry path _ =>
      if bool_decide (path = []) then None else Some (parent_of path)
  | UpdateFileMetadata _ _ _ _ | UpdateDirMetadata _ _ _ _ | Skip _ => None
  end.

(** The body of the loop over the source. *)
Definition plan_entry (target_entries : btree SyncEntry) (is_checksum : bool) (direction : Direction)
    (rel_path : str) (src : SyncEntry) : result SyncError (list PlanAction) :=
  match bt_get rel_path target_entries with
  | None =>
      Ok match kind src with
         | Directory => [CreateDir rel_path (mode src); update_dir rel_path src]
         | File size => [transfer rel_path size src]
         | Symlink target => [CreateSymlink rel_path target]
         end
  | Some dst =>
      match kind src with
      | Directory =>
          Ok [if mode_differs direction src dst || mtime_differs src dst
              then update_dir rel_path src else Skip rel_path]
      | Symlink target =>
          Ok [if bool_decide (kind dst = kind src) then Skip rel_path
              else CreateSymlink rel_path target]
      | File size =>
          a ← plan_file_update rel_path src size dst is_checksum direction; Ok [a]
      end
  end.

Fixpoint plan_entries (target_entries : btree SyncEntry) (is_checksum : bool) (direction : Direction)
    (todo : btree SyncEntry) : result SyncError (list PlanAction) :=
  match todo with
  | [] => Ok []
  | (rel_path, src) :: todo =>
      a ← plan_entry target_entries is_checksum direction rel_path src;
      rest ← plan_entries target_entries is_checksum direction todo;
      Ok (a ++ rest)
  end.

Definition is_extra (source_entries : btree SyncEntry) (rel_path : str) : bool :=
  negb (bool_decide (rel_path = []))
  && match bt_get rel_path source_entries with Some _ => false | None => true end.

Definition plan_extras (source_entries target_entries : btree SyncEntry) (is_delete : bool)
    : list PlanAction :=
  (λ x, if is_delete : bool then RemoveEntry x.1 (is_dir x.2) else Skip x.1) <$>
    filter (λ x, is_extra source_entries x.1 = true) target_entries.

(** A directory that would be skipped is restored when a child of it changes. *)
Definition restore_parent (source_entries : btree SyncEntry) (changed_parents : list str)
    (action : PlanAction) : PlanAction :=
  match action with
  | Skip rel_path =>
      if bool_decide (rel_path ∈ changed_parents) then
        match bt_get rel_path source_entries with
        | Some source => if is_dir source then update_dir rel_path source else action
        | None => action
        end
      else action
  | _ => action
  end.

Definition plan_actions (source_entries target_entries : btree SyncEntry)
    (is_checksum is_delete : bool) (direction : Direction) : result SyncError (list PlanAction) :=
  updates ← plan_entries target_entries is_checksum direction source_entries;
  let actions := updates ++ plan_extras source_entries target_entries is_delete in
  let changed_parents := omap find_changed_parent actions in
  Ok (restore_parent source_entries changed_parents <$> actions).

(** *** The link check of a download *)

(** [HostNames::new]: how names resolve, and the outcome of [close]. *)
Context (host_names : btree SyncEntry → btree SyncEntry →
                      result SyncError ((str → str → result SyncError str) * result SyncError unit)).
(** The name of the destination, and the entries of the directory around it. *)
Context (target_name : option str) (sibling_entries : result SyncError (btree SyncEntry)).

Definition link_inputs (source_entries target_entries : btree SyncEntry)
    : result SyncError (btree SyncEntry * btree SyncEntry) :=
  match bt_get [] source_entries with
  | Some entry =>
      if is_link entry then
        name ← ok_or NotUtf8 target_name;
        siblings ← sibling_entries;
        Ok ([(name, mkEntry name (kind entry) (mode entry) (mtime_secs entry) (mtime_nanos entry))],
            siblings)
      else Ok (source_entries, target_entries)
  | None => Ok (source_entries, target_entries)
  end.

(** [None]: the walk over the links ran out of fuel. *)
Definition check_links (fuel : nat) (source_entries target_entries : btree SyncEntry)
    : option (result SyncError unit) :=
  match link_inputs source_entries target_entries with
  | Err e => Some (Err e)
  | Ok (link_source, link_target) =>
      match host_names link_source link_target with
      | Err e => Some (Err e)
      | Ok (resolve_component, cleanup) =>
          validation ← validate_download_links resolve_component fuel link_source link_target;
          Some (_ ← validation; cleanup)
      end
  end.

Definition build_plan (fuel : nat) (source_entries target_entries : btree SyncEntry)
    (is_checksum is_delete : bool) (direction : Direction)
    : option (result SyncError (list PlanAction)) :=
  match validate_plan_conflicts source_entries target_entries with
  | Err e => Some (Err e)
  | Ok _ =>
      checked ← match direction with
                | GuestToHost => check_links fuel source_entries target_entries
                | HostToGuest => Some (Ok tt)
                end;
      Some (_ ← checked;
            plan_actions source_entries target_entries is_checksum is_delete direction)
  end.
End Plan.

(** ** Execution: [exec.rs] *)

Record SyncStats := mkStats {
  copied_count : Z;
  metadata_updated_count : Z;
  deleted_count : Z;
  skipped_count : Z;
  transferred_bytes : Z;
}.
#[export] Instance SyncStats_eq_dec : EqDecision SyncStats.
Proof. solve_decision. Defined.

Inductive TransferItem : Type :=
| TFile (rel_path : str) (size mode mtime_secs mtime_nanos : Z)
| TSymlink (rel_path target : str).

Record MetadataUpdate := mkUpdate { u_path : str; u_mode : Z; u_secs : Z; u_nanos : Z }.

(** The five lists [execute_plan] sorts the actions into. *)
Definition create_dirs_of (actions : list PlanAction) : list (str * Z) :=
  omap (λ a, match a with CreateDir p m => Some (p, m) | _ => None end) actions.
Definition transfers_of (actions : list PlanAction) : list TransferItem :=
  omap (λ a, match a with
             | TransferFile p size m s n => Some (TFile p size m s n)
             | CreateSymlink p t => Some (TSymlink p t)
             | _ => None
             end) actions.
Definition file_updates_of (actions : list PlanAction) : list MetadataUpdate :=
  omap (λ a, match a with UpdateFileMetadata p m s n => Some (mkUpdate p m s n) | _ => None end) actions.
Definition deletions_of (actions : list PlanAction) : list (str * bool) :=
  omap (λ a, match a with RemoveEntry p d => Some (p, d) | _ => None end) actions.
Definition dir_updates_of (actions : list PlanAction) : list MetadataUpdate :=
  omap (λ a, match a with UpdateDirMetadata p m s n => Some (mkUpdate p m s n) | _ => None end) actions.
Definition skipped_of (actions : list PlanAction) : list str :=
  omap (λ a, match a with Skip p => Some p | _ => None end) actions.

End SyncPlan.
