(* ===== verification/PackedImage.v ===== *)
(** * Packed guest images

    [crates/terra-protocol/src/packed_image.rs] and [guest_image.rs]: the chunked
    container of the guest kernel and boot disk, how it is packed, how it is
    checked, and how it is read through a cache of one chunk; and the read-only
    disk over it, [PackedDisk] of
    [crates/terra-runtime/src/component/block/backing.rs].

    The [lz4_flex] calls are parameters: [max_output] is
    [get_maximum_output_size], [decompress_into] writes a prefix of the output
    slice and returns how much it decoded. [None] is a panic. *)

From stdpp Require Import list.
From S2P Require Import Prelude.

Local Open Scope Z_scope.

Module PackedImage.

(** ** Markers: [guest_image.rs] *)

Inductive GuestImage : Type := Boot | Kernel.

Definition AGENT_PROTOCOL_VERSION : Z := 2.
Definition KERNEL_ABI_VERSION : Z := 1.
Definition MARKER_DATA_BYTES : Z := 3.
Definition MARKER_BYTES : Z := 4 + MARKER_DATA_BYTES.

Definition marker (kind : GuestImage) : list Z :=
  let '(id0, id1, agent_version) :=
    match kind with Boot => (84, 66, AGENT_PROTOCOL_VERSION) | Kernel => (84, 75, 0) end in
  [id0; id1; MARKER_DATA_BYTES; 0; agent_version] ++ le_bytes 2 KERNEL_ABI_VERSION.

(** The loop over the bytes; the lengths are equal. *)
Fixpoint same_bytes (a b : list Z) : bool :=
  match a, b with
  | x :: a, y :: b => if negb (x =? y) then false else same_bytes a b
  | _, _ => true
  end.
Definition is_marker (kind : GuestImage) (bs : list Z) : bool :=
  if negb (zlen bs =? MARKER_BYTES) then false else same_bytes bs (marker kind).

Inductive PackError : Type :=
| HeaderTruncated | WrongVersion | BadMarker | EmptyImage | TableOverflow | TableTruncated
| InvalidCompressedSize | PayloadOverflow | PayloadMismatch | OutsideImage | IndexOverflow
| DecodeFailed | WrongLength | EmptyInput | InvalidBlock | BlockOverflow | Compressor.
#[export] Instance PackError_eq_dec : EqDecision PackError.
Proof. solve_decision. Defined.

Definition validate (kind : GuestImage) (extra : option (list Z)) : result PackError unit :=
  if match extra with Some e => is_marker kind e | None => false end then Ok tt else Err BadMarker.

(** ** The container *)

Definition MAGIC : list Z := [84; 69; 82; 82; 65; 76; 90; 2].
Definition KERNEL_CHUNK_BYTES : Z := 1024 * 1024.
Definition BOOT_CHUNK_BYTES : Z := 64 * 1024.
Definition MAGIC_END : Z := zlen MAGIC.
Definition MARKER_END : Z := MAGIC_END + MARKER_BYTES.
Definition HEADER_BYTES : Z := MARKER_END + 8.
Definition TABLE_ENTRY_BYTES : Z := 4.

Definition chunk_bytes (kind : GuestImage) : Z :=
  match kind with Kernel => KERNEL_CHUNK_BYTES | Boot => BOOT_CHUNK_BYTES end.

(** [l[a..b]] where the range is known to be inside. *)
Definition sub (l : list Z) (a b : Z) : list Z := take (Z.to_nat (b - a)) (drop (Z.to_nat a) l).

Definition has_marker (bs : list Z) (kind : GuestImage) : bool :=
  if zlen bs <? MARKER_END then false else is_marker kind (sub bs MAGIC_END MARKER_END).

Definition div_ceil (a b : Z) : Z := (a + b - 1) / b.

Record Packed := mkPacked {
  image_bytes : Z;
  p_chunk_bytes : Z;
  blocks : list (Z * Z);
  payload : list Z;
  cached_index : option Z;
  cached_bytes : list Z;
}.

Section Container.
Context (usize_max : Z) (max_output : Z → Z).
Context (decompress_into : list Z → list Z → result unit Z * list Z).

Definition to_usize (z : Z) : option Z := if z <=? usize_max then Some z else None.
Definition checked_usize (z : Z) : option Z := to_usize z.

(** The loop over the chunk table. *)
Fixpoint read_table (max_compressed : Z) (entries : list (list Z)) (payload_bytes : Z)
    : result PackError (list (Z * Z) * Z) :=
  match entries with
  | [] => Ok ([], payload_bytes)
  | entry :: entries =>
      let compressed_bytes := from_le entry in
      if (compressed_bytes =? 0) || (max_compressed <? compressed_bytes)
      then Err InvalidCompressedSize else
      e ← ok_or PayloadOverflow (checked_usize (payload_bytes + compressed_bytes));
      '(rest, total) ← read_table max_compressed entries e;
      Ok ((payload_bytes, e) :: rest, total)
  end.

Definition parse (bs : list Z) (kind : GuestImage) : result PackError Packed :=
  header ← ok_or HeaderTruncated (slice bs 0 HEADER_BYTES);
  if negb (bool_decide (sub header 0 MAGIC_END = MAGIC)) then Err WrongVersion else
  _ ← validate kind (Some (sub header MAGIC_END MARKER_END));
  let image := from_le (sub header MARKER_END HEADER_BYTES) in
  if image =? 0 then Err EmptyImage else
  let chunk_size := chunk_bytes kind in
  table_end ← ok_or TableOverflow
    (chunk_count ← to_usize (div_ceil image chunk_size);
     table ← checked_usize (chunk_count * TABLE_ENTRY_BYTES);
     checked_usize (table + HEADER_BYTES));
  table ← ok_or TableTruncated (slice bs HEADER_BYTES table_end);
  '(bl, payload_bytes) ← read_table (max_output chunk_size) (chunks 4 table) 0;
  let pay := drop (Z.to_nat table_end) bs in
  if negb (zlen pay =? payload_bytes) then Err PayloadMismatch else
  Ok (mkPacked image chunk_size bl pay None []).

(** ** Reading *)

(** [None]: the subtraction underflows. *)
Definition chunk_len (p : Packed) (index : Z) : option Z :=
  remaining ← checked_sub (image_bytes p) (index * p_chunk_bytes p);
  Some (match to_usize remaining with
        | Some r => Z.min r (p_chunk_bytes p)
        | None => p_chunk_bytes p
        end).

Definition decode_block (block out : list Z) : result PackError unit * list Z :=
  let '(r, out) := decompress_into block out in
  (match r with
   | Err _ => Err DecodeFailed
   | Ok decoded => if negb (decoded =? zlen out) then Err WrongLength else Ok tt
   end, out).

(** Overwrite [l] from [at_] on, the slice known to be inside. *)
Definition splice (l : list Z) (at_ : Z) (bs : list Z) : list Z :=
  take (Z.to_nat at_) l ++ bs ++ drop (Z.to_nat at_ + length bs) l.

Definition resize (l : list Z) (n : Z) : list Z :=
  take (Z.to_nat n) l ++ replicate (Z.to_nat n - length l) 0.

(** The decoded chunk [index] in the cache. *)
Definition fill_cache (p : Packed) (index len : Z) (block : list Z) : result PackError unit * Packed :=
  if bool_decide (cached_index p = Some index) then (Ok tt, p) else
  let cache := resize (cached_bytes p) (p_chunk_bytes p) in
  let '(r, out) := decode_block block (sub cache 0 len) in
  (r, mkPacked (image_bytes p) (p_chunk_bytes p) (blocks p) (payload p)
        (match r with Ok _ => Some index | Err _ => None end) (splice cache 0 out)).

(** [None]: a panic, or no fuel. *)
Fixpoint read_loop (fuel : nat) (p : Packed) (buf : list Z) (position copied : Z)
    : option (result PackError unit * (Packed * list Z)) :=
  if negb (copied <? zlen buf) then Some (Ok tt, (p, buf)) else
  match fuel with
  | O => None
  | S fuel =>
      match to_usize (position / p_chunk_bytes p) with
      | None => Some (Err IndexOverflow, (p, buf))
      | Some index =>
          let within := position mod p_chunk_bytes p in
          len ← chunk_len p index;
          range ← blocks p !! Z.to_nat index;
          block ← slice (payload p) range.1 range.2;
          let wanted := zlen buf - copied in
          if (within =? 0) && (len <=? wanted) then
            let '(r, out) := decode_block block (sub buf copied (copied + len)) in
            let buf := splice buf copied out in
            match r with
            | Err e => Some (Err e, (p, buf))
            | Ok _ => read_loop fuel p buf (position + len) (copied + len)
            end
          else
            let '(r, p) := fill_cache p index len block in
            match r with
            | Err e => Some (Err e, (p, buf))
            | Ok _ =>
                left ← checked_sub len within;
                let n := Z.min left wanted in
                data ← slice (cached_bytes p) within (within + n);
                read_loop fuel p (splice buf copied data) (position + n) (copied + n)
            end
      end
  end.

Definition read_at (p : Packed) (offset : Z) (buf : list Z)
    : option (result PackError unit * (Packed * list Z)) :=
  let in_range :=
    match checked_add64 offset (zlen buf) with Some e => e <=? image_bytes p | None => false end in
  if negb in_range then Some (Err OutsideImage, (p, buf)) else
  read_loop (length buf) p buf offset 0.

(** ** Packing *)

Section Pack.
Context {S : Type} (compress_block : list Z → stM S PackError (list Z)).

Fixpoint pack_chunks (max_compressed : Z) (todo : list (list Z)) (table pay : list Z)
    : stM S PackError (list Z * list Z) :=
  match todo with
  | [] => st_ret (table, pay)
  | chunk :: todo =>
      (block <- compress_block chunk;;
       _ <- st_lift (require (negb (zlen block =? 0) && (zlen block <=? max_compressed)) InvalidBlock);;
       _ <- st_lift (require (zlen block <=? U32_MAX) BlockOverflow);;
       pack_chunks max_compressed todo (table ++ le_bytes 4 (zlen block)) (pay ++ block))%st
  end.

Definition pack (image : list Z) (kind : GuestImage) : stM S PackError (list Z) :=
  (_ <- st_lift (require (negb (zlen image =? 0)) EmptyInput);;
   parts <- pack_chunks (max_output (chunk_bytes kind))
                      (chunks (Z.to_nat (chunk_bytes kind)) image) [] [];;
   st_ret (MAGIC ++ marker kind ++ le_bytes 8 (zlen image) ++ parts.1 ++ parts.2))%st.
End Pack.

(** ** The disk over a packed image *)

Inductive BackingError : Type := OutOfRange | ReadOnly | Io.

Definition check_range (capacity offset len : Z) : result BackingError unit :=
  e ← ok_or OutOfRange (checked_add64 offset len);
  if capacity <? e then Err OutOfRange else Ok tt.

Record PackedDisk := mkDisk { capacity : Z; image : Packed }.
Definition new_disk (p : Packed) : PackedDisk := mkDisk (image_bytes p) p.

Definition disk_read_at (d : PackedDisk) (offset : Z) (buf : list Z)
    : option (result BackingError unit * (PackedDisk * list Z)) :=
  match check_range (capacity d) offset (zlen buf) with
  | Err e => Some (Err e, (d, buf))
  | Ok _ =>
      '(r, (p, buf)) ← read_at (image d) offset buf;
      Some (map_err (λ _, Io) r, (mkDisk (capacity d) p, buf))
  end.
Definition disk_write_at (offset : Z) (buf : list Z) : result BackingError unit := Err ReadOnly.
Definition disk_discard (offset len : Z) : result BackingError unit := Err ReadOnly.
Definition disk_sync : result BackingError unit := Ok tt.
End Container.

(** ** Slices *)

Lemma sub_zlen l a b : 0 ≤ a ≤ b → b ≤ zlen l → zlen (sub l a b) = b - a.
Proof. intros. unfold sub, zlen in *. rewrite length_take, length_drop. lia. Qed.

Lemma sub_split l a b c : 0 ≤ a ≤ b → b ≤ c → sub l a b ++ sub l b c = sub l a c.
Proof.
  intros Ha Hb. unfold sub. replace (Z.to_nat b) with (Z.to_nat a + Z.to_nat (b - a))%nat by lia.
  rewrite <-drop_drop, take_take_drop. f_equal. lia.
Qed.

Lemma sub_sub l a b c d : 0 ≤ a → 0 ≤ c ≤ d → a + d ≤ b → sub (sub l a b) c d = sub l (a + c) (a + d).
Proof.
  intros. unfold sub. rewrite skipn_firstn_comm, take_take, drop_drop. f_equal; [lia|f_equal; lia].
Qed.

Lemma sub_all l : sub l 0 (zlen l) = l.
Proof. unfold sub. rewrite Z.sub_0_r, to_nat_zlen. change (Z.to_nat 0) with 0%nat. rewrite drop_0. apply firstn_all. Qed.

Lemma slice_sub l a b : 0 ≤ a ≤ b → b ≤ zlen l → slice l a b = Some (sub l a b).
Proof. intros. unfold slice. by rewrite !(proj2 (Z.leb_le _ _)) by lia. Qed.

Lemma splice_zlen l at_ bs :
  0 ≤ at_ → at_ + zlen bs ≤ zlen l → zlen (splice l at_ bs) = zlen l.
Proof. intros. unfold splice, zlen in *. rewrite !length_app, length_take, length_drop. lia. Qed.

Lemma splice_take l at_ bs :
  0 ≤ at_ → at_ + zlen bs ≤ zlen l →
  take (Z.to_nat (at_ + zlen bs)) (splice l at_ bs) = take (Z.to_nat at_) l ++ bs.
Proof.
  intros. unfold splice. rewrite (assoc_L (++)). apply take_app_length'.
  unfold zlen in *. rewrite length_app, length_take. lia.
Qed.

Lemma resize_zlen l n : 0 ≤ n → zlen (resize l n) = n.
Proof. intros. unfold resize, zlen. rewrite length_app, length_take, length_replicate. lia. Qed.

Lemma zlen_length {A B} (l : list A) (k : list B) : length l = length k ↔ zlen l = zlen k.
Proof. unfold zlen. lia. Qed.

Lemma div_ceil_index a b p : 0 < b → 0 ≤ p < a → 0 ≤ p / b < div_ceil a b.
Proof.
  intros Hb Hp. unfold div_ceil. split; [apply Z.div_pos; lia|].
  apply Z.lt_le_trans with ((p + b) / b); [|apply Z.div_le_mono; lia].
  replace (p + b) with (p + 1 * b) by lia. rewrite Z.div_add by lia. lia.
Qed.

(** The same container, whatever is in the cache. *)
Definition same_container (p q : Packed) : Prop :=
  image_bytes p = image_bytes q ∧ p_chunk_bytes p = p_chunk_bytes q ∧
  blocks p = blocks q ∧ payload p = payload q.

#[export] Instance same_container_equiv : Equivalence same_container.
Proof.
  split; unfold same_container; [intros ?|intros ? ?|intros ? ? ?]; intuition congruence.
Qed.

(** ** Every accepted container can be read *)

Section Reading.
Context (usize_max : Z).
Context (decompress_into : list Z → list Z → result unit Z * list Z).
Hypothesis usize_ok : U32_MAX ≤ usize_max ≤ U64_MAX.
(** The output slice keeps its length. *)
Hypothesis decompress_length : ∀ block out, zlen (decompress_into block out).2 = zlen out.

Record parsed (p : Packed) : Prop := {
  pa_image : 0 < image_bytes p ≤ U64_MAX;
  pa_chunk : 0 < p_chunk_bytes p ≤ U32_MAX;
  pa_blocks : zlen (blocks p) = div_ceil (image_bytes p) (p_chunk_bytes p);
  pa_count : zlen (blocks p) ≤ usize_max;
  pa_ranges : Forall (λ r, 0 ≤ r.1 < r.2 ∧ r.2 ≤ zlen (payload p)) (blocks p);
  pa_cache : ∀ i, cached_index p = Some i → zlen (cached_bytes p) = p_chunk_bytes p;
}.

(** The chunk [i] of an image. *)
Definition chunk_of (p : Packed) (im : list Z) (i : Z) : list Z :=
  sub im (i * p_chunk_bytes p) (Z.min ((i + 1) * p_chunk_bytes p) (zlen im)).

(** The container holds the image [im]. *)
Record serves (p : Packed) (im : list Z) : Prop := {
  sv_length : image_bytes p = zlen im;
  sv_blocks : ∀ i range out, 0 ≤ i → blocks p !! Z.to_nat i = Some range →
    zlen out = zlen (chunk_of p im i) →
    decompress_into (sub (payload p) range.1 range.2) out = (Ok (zlen out), chunk_of p im i);
  sv_cache : ∀ i, cached_index p = Some i →
    sub (cached_bytes p) 0 (zlen (chunk_of p im i)) = chunk_of p im i;
}.

Lemma decode_block_zlen block out : zlen (decode_block decompress_into block out).2 = zlen out.
Proof.
  unfold decode_block. pose proof (decompress_length block out).
  by destruct (decompress_into block out) as [[]].
Qed.

(** What one turn of the loop finds. *)
Lemma turn p position :
  parsed p → 0 ≤ position < image_bytes p →
  ∃ range len, to_usize usize_max (position / p_chunk_bytes p) = Some (position / p_chunk_bytes p) ∧
    chunk_len usize_max p (position / p_chunk_bytes p) = Some len ∧
    blocks p !! Z.to_nat (position / p_chunk_bytes p) = Some range ∧
    slice (payload p) range.1 range.2 = Some (sub (payload p) range.1 range.2) ∧
    position mod p_chunk_bytes p < len ≤ p_chunk_bytes p ∧
    len = Z.min ((position / p_chunk_bytes p + 1) * p_chunk_bytes p) (image_bytes p)
          - position / p_chunk_bytes p * p_chunk_bytes p.
Proof.
  intros [Hi Hc Hb Hn Hr _] Hp. set (cb := p_chunk_bytes p) in *. set (index := position / cb).
  pose proof (div_ceil_index (image_bytes p) cb position ltac:(lia) Hp) as Hx. fold index in Hx.
  pose proof (Z.div_mod position cb ltac:(lia)) as Hdm. fold index in Hdm.
  pose proof (Z.mod_pos_bound position cb ltac:(lia)) as Hm.
  destruct (lookup_lt_is_Some_2 (blocks p) (Z.to_nat index)) as [range Hrange];
    [unfold zlen in Hb; lia|].
  pose proof (Forall_lookup_1 _ _ _ _ Hr Hrange) as [Ha Hz].
  exists range, (Z.min ((index + 1) * cb) (image_bytes p) - index * cb). split_and!.
  - unfold to_usize. by rewrite (proj2 (Z.leb_le _ _)) by lia.
  - unfold chunk_len, checked_sub. fold cb. rewrite (proj2 (Z.leb_le (index * cb) _)) by lia. rsimpl.
    f_equal. unfold to_usize. destruct (_ <=? usize_max) eqn:E; breflect; lia.
  - done.
  - apply slice_sub; lia.
  - lia.
  - lia.
  - lia.
Qed.

Lemma fill_cache_spec p index len range r p' :
  parsed p → 0 ≤ index → 0 < len ≤ p_chunk_bytes p → blocks p !! Z.to_nat index = Some range →
  fill_cache decompress_into p index len (sub (payload p) range.1 range.2) = (r, p') →
  parsed p' ∧ same_container p p' ∧ (r = Ok tt → zlen (cached_bytes p') = p_chunk_bytes p) ∧
  (∀ im, serves p im → len = zlen (chunk_of p im index) →
     r = Ok tt ∧ serves p' im ∧ sub (cached_bytes p') 0 len = chunk_of p im index).
Proof.
  intros Hp Hix Hlen Hrange. unfold fill_cache. case_bool_decide as Hc.
  { intros [= <- <-]. split_and!; [done|done|intros _; by eapply pa_cache|].
    intros im Hs ->. split_and!; [done|done|by eapply sv_cache]. }
  destruct (decode_block _ _ _) as [r0 out] eqn:Hd. intros [= <- <-].
  set (cache := resize _ _) in *.
  assert (Hcache : zlen cache = p_chunk_bytes p) by (apply resize_zlen; lia).
  assert (Hout : zlen out = len).
  { pose proof (decode_block_zlen (sub (payload p) range.1 range.2) (sub cache 0 len)) as H.
    rewrite Hd in H. rewrite sub_zlen in H by lia. cbn in H. lia. }
  assert (Hsp : zlen (splice cache 0 out) = p_chunk_bytes p) by (rewrite splice_zlen; lia).
  destruct Hp as [Hp1 Hp2 Hp3 Hp4 Hp5 Hp6]. split_and!.
  - by split.
  - done.
  - done.
  - intros im Hs Hl. unfold decode_block in Hd.
    rewrite (sv_blocks p im Hs index range (sub cache 0 len) Hix Hrange) in Hd
      by (rewrite sub_zlen by lia; lia).
    rewrite Hl, sub_zlen in Hd by lia. rewrite Z.sub_0_r, Z.eqb_refl in Hd. cbn in Hd.
    injection Hd as <- <-.
    assert (Hsub : sub (splice cache 0 (chunk_of p im index)) 0 len = chunk_of p im index).
    { pose proof (splice_take cache 0 (chunk_of p im index) ltac:(lia) ltac:(lia)) as H.
      rewrite Hl. unfold sub at 1. rewrite Z.sub_0_r. exact H. }
    split_and!; [done| |done]. destruct Hs as [Hs1 Hs2 Hs3].
    split; [exact Hs1|exact Hs2|]. cbn. intros i [= <-]. rewrite Hl in Hsub. exact Hsub.
Qed.
(** The chunk the position is in, against the image. *)
Lemma chunk_position p im position :
  parsed p → image_bytes p = zlen im → 0 ≤ position < image_bytes p →
  let index := position / p_chunk_bytes p in
  let len := Z.min ((index + 1) * p_chunk_bytes p) (image_bytes p) - index * p_chunk_bytes p in
  zlen (chunk_of p im index) = len ∧
  ∀ n, 0 ≤ n → position mod p_chunk_bytes p + n ≤ len →
    sub (chunk_of p im index) (position mod p_chunk_bytes p) (position mod p_chunk_bytes p + n) =
    sub im position (position + n).
Proof.
  intros [Hi Hc _ _ _ _] Him Hp index len. unfold chunk_of. rewrite <-Him.
  pose proof (Z.div_mod position (p_chunk_bytes p) ltac:(lia)) as Hdm. fold index in Hdm.
  pose proof (Z.mod_pos_bound position (p_chunk_bytes p) ltac:(lia)).
  assert (0 ≤ index) by (apply Z.div_pos; lia).
  assert (0 ≤ index * p_chunk_bytes p ≤ position) by lia. split.
  - rewrite sub_zlen by lia. done.
  - intros n Hn Hle. rewrite sub_sub by lia. f_equal; lia.
Qed.

(** A whole chunk decoded into the buffer of the caller. *)
Lemma decode_turn p position range len out r out' :
  parsed p → 0 ≤ position < image_bytes p →
  blocks p !! Z.to_nat (position / p_chunk_bytes p) = Some range →
  len = Z.min ((position / p_chunk_bytes p + 1) * p_chunk_bytes p) (image_bytes p)
        - position / p_chunk_bytes p * p_chunk_bytes p →
  position mod p_chunk_bytes p = 0 → zlen out = len →
  decode_block decompress_into (sub (payload p) range.1 range.2) out = (r, out') →
  zlen out' = len ∧ ∀ im, serves p im → r = Ok tt ∧ out' = sub im position (position + len).
Proof.
  intros Hp Hin Hrange Hleq Hw Hl Hd. split.
  { pose proof (decode_block_zlen (sub (payload p) range.1 range.2) out) as H1. by rewrite Hd, Hl in H1. }
  intros im Hs. destruct (chunk_position p im position Hp (sv_length p im Hs) Hin) as [Hcl Hsub].
  rewrite <-Hleq in Hcl, Hsub. unfold decode_block in Hd.
  assert (Hix : 0 ≤ position / p_chunk_bytes p) by (apply Z.div_pos; [lia|apply Hp]).
  rewrite (sv_blocks p im Hs _ range _ Hix Hrange) in Hd by congruence.
  rewrite Hcl, Hl, Z.eqb_refl in Hd. injection Hd as <- <-. split; [done|].
  assert (0 ≤ len) by (rewrite <-Hl; apply zlen_nonneg).
  rewrite <-(Hsub len) by lia. rewrite Hw. rewrite <-(sub_all (chunk_of p im _)) at 1. by rewrite Hcl.
Qed.

Definition loop_ok (p : Packed) (buf : list Z) (position copied : Z)
    (o : option (result PackError unit * (Packed * list Z))) : Prop :=
  ∃ r p' buf', o = Some (r, (p', buf')) ∧ parsed p' ∧ same_container p p' ∧ zlen buf' = zlen buf ∧
    ∀ im, serves p im → r = Ok tt ∧ serves p' im ∧
      buf' = take (Z.to_nat copied) buf ++ sub im position (position + (zlen buf - copied)).

(** The rest of the loop after [n] bytes. *)
Lemma loop_step p p1 buf position copied data o :
  0 ≤ copied → 0 ≤ position → copied + zlen data ≤ zlen buf → same_container p p1 →
  (∀ im, serves p im → serves p1 im ∧ data = sub im position (position + zlen data)) →
  loop_ok p1 (splice buf copied data) (position + zlen data) (copied + zlen data) o →
  loop_ok p buf position copied o.
Proof.
  intros Hc Hp Hle Hsame Hdata (r & p' & buf' & -> & Hpa & Hs' & Hl & Him).
  rewrite splice_zlen in Hl, Him by done. exists r, p', buf'. split_and!; [done|done|by etrans|done|].
  intros im Hs. destruct (Hdata im Hs) as [Hs1 Hd]. destruct (Him im Hs1) as (-> & Hs2 & ->).
  split_and!; [done|done|]. rewrite splice_take by done. rewrite <-(assoc_L (++)). f_equal.
  rewrite Hd at 1. pose proof (zlen_nonneg data). rewrite sub_split by lia. f_equal. lia.
Qed.

Lemma read_loop_spec fuel p buf position copied :
  parsed p → 0 ≤ copied ≤ zlen buf → 0 ≤ position → position + (zlen buf - copied) ≤ image_bytes p →
  zlen buf - copied ≤ Z.of_nat fuel →
  loop_ok p buf position copied
    (read_loop usize_max decompress_into fuel p buf position copied).
Proof.
  revert p buf position copied. induction fuel as [|fuel IH]; intros p buf position copied Hp Hc Hpos Him Hf;
    cbn [read_loop]; destruct (Z.ltb_spec copied (zlen buf)) as [Hlt|Hge]; cbn [negb]; try lia.
  1,3: exists (Ok tt), p, buf; split_and!; [done|done|done|done|]; intros im Hs; split_and!; [done|done|];
    replace (zlen buf - copied) with 0 by lia; unfold sub; rewrite Z.add_0_r, Z.sub_diag, app_nil_r;
    rewrite firstn_all2; [done|unfold zlen in *; lia].
  assert (Hin : 0 ≤ position < image_bytes p) by lia.
  destruct (turn p position Hp Hin) as (range & len & -> & Hlen & Hrange & Hslice & Hw & Hleq).
  set (index := position / p_chunk_bytes p) in *. set (within := position mod p_chunk_bytes p) in *.
  rewrite Hlen. cbn [mbind option_bind]. rewrite Hrange. cbn [mbind option_bind]. rewrite Hslice. cbn [mbind option_bind].
  assert (Hix : 0 ≤ index) by (apply Z.div_pos; [lia|apply Hp]).
  assert (Hw0 : 0 ≤ within) by (apply Z.mod_pos_bound, Hp).
  destruct ((within =? 0) && (len <=? zlen buf - copied)) eqn:Hdirect.
  - breflect. destruct (decode_block _ _ _) as [r out] eqn:Hd.
    destruct (decode_turn p position range len (sub buf copied (copied + len)) r out Hp Hin Hrange Hleq)
      as [Hout Hserve]; [done|by rewrite sub_zlen; lia|done|].
    destruct r as [[]|e].
    + rewrite <-Hout in *. eapply (loop_step p p buf position copied out); [lia|lia|lia|done| |].
      * intros im Hs. split; [done|]. by apply (Hserve im Hs).
      * apply IH; rewrite ?splice_zlen by lia; try done; lia.
    + exists (Err e), p, (splice buf copied out). split_and!; [done|done|done|apply splice_zlen; lia|].
      intros im Hs. by destruct (Hserve im Hs).
  - destruct (fill_cache _ _ _ _ _) as [r p1] eqn:Hfill.
    destruct (fill_cache_spec p index len range r p1 Hp Hix ltac:(lia) Hrange Hfill)
      as (Hp1 & Hsame & Hcache & Hserve).
    assert (Hchunk : ∀ im, serves p im → len = zlen (chunk_of p im index)).
    { intros im Hs. destruct (chunk_position p im position Hp (sv_length p im Hs) Hin) as [Hcl _].
      fold index in Hcl. lia. }
    destruct r as [[]|e].
    + unfold checked_sub. rewrite (proj2 (Z.leb_le within len)) by lia. cbn [mbind option_bind].
      set (n := Z.min (len - within) (zlen buf - copied)).
      specialize (Hcache eq_refl). rewrite slice_sub by lia. cbn [mbind option_bind].
      assert (Hdl : zlen (sub (cached_bytes p1) within (within + n)) = n) by (rewrite sub_zlen; lia).
      pose proof (loop_step p p1 buf position copied (sub (cached_bytes p1) within (within + n))) as Hstep.
      rewrite Hdl in Hstep. apply Hstep; [lia|lia|lia|done| |].
      * intros im Hs. destruct (Hserve im Hs (Hchunk im Hs)) as (_ & Hs1 & Hc1). split; [done|].
        destruct (chunk_position p im position Hp (sv_length p im Hs) Hin) as [Hcl Hsub].
        fold index within in Hcl, Hsub. rewrite <-(Hsub n) by lia. rewrite <-Hc1.
        rewrite sub_sub by lia. f_equal; lia.
      * destruct Hsame as (Hi & _). apply IH; rewrite ?splice_zlen by (rewrite ?Hdl; lia); try done; lia.
    + exists (Err e), p1, buf. split_and!; [done|done|done|done|].
      intros im Hs. by destruct (Hserve im Hs (Hchunk im Hs)).
Qed.
(** The result of a read, in full. *)
Lemma read_at_spec p offset buf :
  parsed p → 0 ≤ offset →
  if offset + zlen buf <=? image_bytes p
  then loop_ok p buf offset 0 (read_at usize_max decompress_into p offset buf)
  else read_at usize_max decompress_into p offset buf = Some (Err OutsideImage, (p, buf)).
Proof.
  intros Hp Ho. unfold read_at, checked_add64. pose proof (pa_image p Hp).
  pose proof (zlen_nonneg buf). destruct (Z.leb_spec (offset + zlen buf) (image_bytes p)).
  - rewrite (proj2 (Z.leb_le _ U64_MAX)), (proj2 (Z.leb_le _ (image_bytes p))) by lia. cbn [negb].
    apply read_loop_spec; [done|lia|lia|lia|unfold zlen; lia].
  - destruct (_ <=? U64_MAX); [|done]. by rewrite (proj2 (Z.leb_gt _ _)) by lia.
Qed.

(** *** What [parse] accepts *)

Lemma chunks_zlen {A} n (l : list A) :
  0 < n → zlen (chunks (Z.to_nat n) l) = div_ceil (zlen l) n.
Proof.
  intros Hn. apply (chunks_ind (Z.to_nat n) (λ l cs, zlen cs = div_ceil (zlen l) n)); [lia|..].
  { unfold div_ceil, zlen. cbn. rewrite Z.div_small; lia. }
  intros k Hk IH.
  assert (Hz : zlen (take (Z.to_nat n) k :: chunks (Z.to_nat n) (drop (Z.to_nat n) k)) =
    1 + zlen (chunks (Z.to_nat n) (drop (Z.to_nat n) k))) by (unfold zlen; cbn [length]; lia).
  rewrite Hz, IH. unfold div_ceil.
  assert (0 < zlen k) by (destruct k; [done|unfold zlen; cbn [length]; lia]).
  unfold zlen in *. rewrite length_drop.
  destruct (Z.le_gt_cases n (Z.of_nat (length k))).
  - replace (Z.of_nat (length k - Z.to_nat n)) with (Z.of_nat (length k) - n) by lia.
    replace (Z.of_nat (length k) + n - 1) with (Z.of_nat (length k) - n + n - 1 + 1 * n) by lia.
    rewrite Z.div_add by lia. lia.
  - replace (length k - Z.to_nat n)%nat with 0%nat by lia.
    rewrite (Z.div_small (Z.of_nat 0 + n - 1)) by lia.
    replace (Z.of_nat (length k) + n - 1) with (Z.of_nat (length k) - 1 + 1 * n) by lia.
    rewrite Z.div_add, Z.div_small by lia. lia.
Qed.

Lemma read_table_spec mc entries start bl total :
  Forall bytes entries → 0 ≤ start → read_table usize_max mc entries start = Ok (bl, total) →
  zlen bl = zlen entries ∧ start ≤ total ∧ Forall (λ r, start ≤ r.1 < r.2 ∧ r.2 ≤ total) bl.
Proof.
  intros Hb. revert start bl total. induction Hb as [|entry entries He _ IH]; intros start bl total Hs;
    cbn [read_table]; [intros [= <- <-]; split_and!; [done|lia|constructor]|].
  destruct ((_ =? 0) || _) eqn:Hc; [done|]. apply orb_false_iff in Hc as [Hz _]. breflect.
  pose proof (from_le_bound entry He). unfold checked_usize, to_usize.
  destruct (_ <=? usize_max); [|done]. rsimpl.
  destruct (read_table _ _ _ _) as [[rest t]|] eqn:Hr; [|done]. intros [= <- <-].
  destruct (IH (start + from_le entry) rest t ltac:(lia) Hr) as (Hl & Ht & Hf). split_and!.
  - unfold zlen in *. cbn [length]. lia.
  - lia.
  - constructor; [cbn; lia|]. eapply Forall_impl; [exact Hf|]. cbn. intros ? ?. lia.
Qed.

Lemma chunks_bytes n l : (0 < n)%nat → bytes l → Forall bytes (chunks n l).
Proof.
  intros Hn. apply (chunks_ind n (λ l cs, bytes l → Forall bytes cs)); [done|by intros; constructor|].
  intros k _ IH Hk. constructor; [by apply Forall_take|]. by apply IH, Forall_drop.
Qed.

Lemma kind_chunk kind : 0 < chunk_bytes kind ≤ U32_MAX.
Proof. by destruct kind. Qed.

Lemma parse_parsed max_output bs kind p :
  bytes bs → parse usize_max max_output bs kind = Ok p → parsed p.
Proof.
  intros Hb. unfold parse. destruct (slice bs 0 HEADER_BYTES) as [header|] eqn:Hh; [|done]. rsimpl.
  destruct (negb _); [done|]. destruct (validate _ _); [|done]. rsimpl.
  set (im := from_le _). destruct (Z.eqb_spec im 0) as [|Hz]; [done|].
  assert (Hhb : bytes header).
  { unfold slice in Hh. destruct (_ && _); [|done]. injection Hh as <-. by apply Forall_take, Forall_drop. }
  assert (Him : 0 ≤ im ≤ U64_MAX).
  { pose proof (from_le_bound (sub header MARKER_END HEADER_BYTES)
      ltac:(unfold sub; by apply Forall_take, Forall_drop)) as Hfb. fold im in Hfb.
    assert (zlen (sub header MARKER_END HEADER_BYTES) ≤ 8)
      by (unfold sub, zlen; rewrite length_take; change (Z.to_nat (HEADER_BYTES - MARKER_END)) with 8%nat; lia).
    assert (256 ^ zlen (sub header MARKER_END HEADER_BYTES) ≤ 256 ^ 8) by (apply Z.pow_le_mono_r; lia).
    unfold U64_MAX. lia. }
  unfold checked_usize, to_usize. destruct (_ <=? usize_max) eqn:Hcount; [|done]. cbn [mbind option_bind].
  destruct (_ * _ <=? usize_max); [|done]. cbn [mbind option_bind].
  destruct (_ + _ <=? usize_max) eqn:Hend; [|done]. rsimpl.
  destruct (slice bs HEADER_BYTES _) as [table|] eqn:Ht; [|done]. rsimpl.
  destruct (read_table _ _ _ _) as [[bl total]|] eqn:Hr; [|done]. rsimpl.
  destruct (Z.eqb_spec (zlen (drop (Z.to_nat (div_ceil im (chunk_bytes kind) * TABLE_ENTRY_BYTES + HEADER_BYTES)) bs)) total) as [Hpay|]; [|done].
  intros [= <-]. breflect.
  assert (Htb : bytes table).
  { unfold slice in Ht. destruct (_ && _); [|done]. injection Ht as <-. by apply Forall_take, Forall_drop. }
  destruct (read_table_spec _ _ 0 _ _ (chunks_bytes 4 table ltac:(lia) Htb) ltac:(lia) Hr) as (Hl & _ & Hf).
  pose proof (slice_length _ HEADER_BYTES _ _ ltac:(done) Ht) as Htl. pose proof (kind_chunk kind).
  assert (Hcnt : zlen (chunks 4 table) = div_ceil im (chunk_bytes kind)).
  { change 4%nat with (Z.to_nat 4). rewrite chunks_zlen, Htl by lia. unfold div_ceil at 1.
    unfold TABLE_ENTRY_BYTES. rewrite Z.add_simpl_r.
    replace (div_ceil im (chunk_bytes kind) * 4 + 4 - 1) with (3 + div_ceil im (chunk_bytes kind) * 4) by lia.
    rewrite Z.div_add by lia. change (3 / 4) with 0. lia. }
  split; cbn [image_bytes p_chunk_bytes blocks payload cached_index]; [lia|done|lia|lia| |done].
  rewrite Hpay. eapply Forall_impl; [exact Hf|]. cbn. intros ? ?. lia.
Qed.
End Reading.

(** ** What was packed is what is read *)

Lemma chunks_concat {A} n (ls : list (list A)) :
  (0 < n)%nat → Forall (λ l, length l = n) ls → chunks n (concat ls) = ls.
Proof.
  intros Hn. induction 1 as [|l ls Hl _ IH]; [done|]. cbn [concat].
  assert (l ++ concat ls ≠ []) by (destruct l; [cbn in Hl; lia|done]). rewrite chunks_cons by done.
  by rewrite take_app_length', drop_app_length', IH.
Qed.

Lemma chunks_lookup n (l : list Z) i c :
  0 < n → chunks (Z.to_nat n) l !! i = Some c →
  c = sub l (Z.of_nat i * n) (Z.min ((Z.of_nat i + 1) * n) (zlen l)).
Proof.
  intros Hn. revert i c.
  apply (chunks_ind (Z.to_nat n) (λ l cs, ∀ i c, cs !! i = Some c →
    c = sub l (Z.of_nat i * n) (Z.min ((Z.of_nat i + 1) * n) (zlen l)))); [lia|done|].
  intros k Hk IH [|i] c.
  - cbn. intros [= <-]. unfold sub, zlen. change (Z.to_nat 0) with 0%nat. rewrite drop_0, Z.sub_0_r.
    destruct (Z.le_gt_cases n (Z.of_nat (length k))).
    + rewrite Z.min_l by lia. f_equal. lia.
    + rewrite Z.min_r by lia. rewrite !firstn_all2; [done|lia|lia].
  - cbn. intros Hc. rewrite (IH i c Hc). unfold sub. rewrite drop_drop.
    assert (Hik : (i < length (chunks (Z.to_nat n) (drop (Z.to_nat n) k)))%nat) by (by eapply lookup_lt_Some).
    pose proof (chunks_zlen n (drop (Z.to_nat n) k) Hn) as Hz. unfold div_ceil, zlen in *.
    rewrite length_drop in *.
    assert (Z.of_nat i * n < Z.of_nat (length k) - n).
    { assert (Hi1 : Z.of_nat i + 1 ≤ (Z.of_nat (length k - Z.to_nat n) + n - 1) / n) by lia.
      apply (Z.mul_le_mono_nonneg_r _ _ n) in Hi1; [|lia].
      pose proof (Z.mul_div_le (Z.of_nat (length k - Z.to_nat n) + n - 1) n Hn). lia. }
    f_equal; [lia|]. f_equal. lia.
Qed.

(** Consecutive ranges for a list of blocks. *)
Fixpoint ranges_from (start : Z) (bl : list (list Z)) : list (Z * Z) :=
  match bl with
  | [] => []
  | b :: bl => (start, start + zlen b) :: ranges_from (start + zlen b) bl
  end.

Lemma ranges_lookup pre bl i r :
  ranges_from (zlen pre) bl !! i = Some r →
  ∃ b, bl !! i = Some b ∧ sub (pre ++ concat bl) r.1 r.2 = b.
Proof.
  revert pre i. induction bl as [|b bl IH]; intros pre i; [done|]. cbn [ranges_from concat].
  destruct i as [|i]; cbn.
  - intros [= <-]. exists b. split; [done|]. unfold sub. cbn [fst snd].
    rewrite Z.add_simpl_l, !to_nat_zlen, drop_app_length. by rewrite take_app_length.
  - intros H. rewrite <-zlen_app in H. destruct (IH _ _ H) as (b' & Hb & Hs). exists b'. split; [done|].
    by rewrite <-(assoc_L (++)) in Hs.
Qed.

Section RoundTrip.
Context (usize_max : Z) (max_output : Z → Z).
Context (decompress_into : list Z → list Z → result unit Z * list Z).
Context {S : Type} (compress_block : list Z → stM S PackError (list Z)).
Hypothesis usize_ok : U32_MAX ≤ usize_max ≤ U64_MAX.
(** A compressed chunk decodes to itself. *)
Hypothesis compress_ok : ∀ s s' chunk block out,
  compress_block chunk s = (Ok block, s') → zlen out = zlen chunk →
  decompress_into block out = (Ok (zlen out), chunk).

(** A block that [pack] accepts for a chunk. *)
Definition packs (mc : Z) (chunk block : list Z) : Prop :=
  (0 < zlen block ≤ mc ∧ zlen block ≤ U32_MAX) ∧
  ∀ out, zlen out = zlen chunk → decompress_into block out = (Ok (zlen out), chunk).

Definition size_entry (block : list Z) : list Z := le_bytes 4 (zlen block).

Lemma pack_chunks_spec mc todo table pay s r s' :
  pack_chunks compress_block mc todo table pay s = (Ok r, s') →
  ∃ bl, Forall2 (packs mc) todo bl ∧ r = (table ++ concat (size_entry <$> bl), pay ++ concat bl).
Proof.
  revert table pay s. induction todo as [|chunk todo IH]; intros table pay s; cbn [pack_chunks].
  { unfold st_ret. intros [= <- <-]. exists []. split; [constructor|]. by rewrite !app_nil_r. }
  unfold st_bind, st_lift. destruct (compress_block chunk s) as [[block|] s1] eqn:Hb; [|done].
  unfold require. destruct (negb _ && _) eqn:Hsz; [|done]. destruct (_ <=? U32_MAX) eqn:H32; [|done].
  breflect. intros (bl & Hbl & ->)%IH. pose proof (zlen_nonneg block). exists (block :: bl). split.
  - constructor; [|done]. split; [lia|]. intros out. by eapply compress_ok.
  - cbn [fmap list_fmap concat]. by rewrite <-!(assoc_L (++)).
Qed.

Lemma read_table_blocks mc bl start :
  0 ≤ start → Forall (λ b, 0 < zlen b ≤ mc ∧ zlen b ≤ U32_MAX) bl →
  start + zlen (concat bl) ≤ usize_max →
  read_table usize_max mc (size_entry <$> bl) start = Ok (ranges_from start bl, start + zlen (concat bl)).
Proof.
  intros Hs Hbl. revert start Hs. induction Hbl as [|b bl Hb _ IH]; intros start Hs Hmax.
  { cbn. by rewrite Z.add_0_r. }
  cbn [fmap list_fmap read_table concat ranges_from] in *. rewrite zlen_app in *.
  pose proof (zlen_nonneg (concat bl)).
  assert (He : from_le (size_entry b) = zlen b).
  { apply from_le_le_bytes. change (256 ^ Z.of_nat 4) with 4294967296. unfold U32_MAX in *. lia. }
  rewrite He.
  rewrite (proj2 (Z.eqb_neq _ _)), (proj2 (Z.ltb_ge _ _)) by lia. cbn [orb].
  unfold checked_usize, to_usize. rewrite (proj2 (Z.leb_le _ _)) by lia. rsimpl.
  rewrite IH by lia. cbn. do 2 f_equal. lia.
Qed.
Lemma ranges_from_ok bl start :
  Forall (λ b, 0 < zlen b) bl →
  zlen (ranges_from start bl) = zlen bl ∧
  Forall (λ r, start ≤ r.1 < r.2 ∧ r.2 ≤ start + zlen (concat bl)) (ranges_from start bl).
Proof.
  intros Hbl. revert start. induction Hbl as [|b bl Hb _ IH]; intros start; [by split|].
  cbn [ranges_from concat]. rewrite zlen_app. destruct (IH (start + zlen b)) as [Hl Hf].
  pose proof (zlen_nonneg (concat bl)). split; [unfold zlen in *; cbn [length]; lia|].
  constructor; [cbn; lia|]. eapply Forall_impl; [exact Hf|]. cbn. intros ? ?. lia.
Qed.

Lemma header_parts kind n :
  0 ≤ n ≤ U64_MAX →
  let header := MAGIC ++ marker kind ++ le_bytes 8 n in
  zlen header = HEADER_BYTES ∧ sub header 0 MAGIC_END = MAGIC ∧
  validate kind (Some (sub header MAGIC_END MARKER_END)) = Ok tt ∧
  from_le (sub header MARKER_END HEADER_BYTES) = n.
Proof.
  intros Hn header. unfold header.
  assert (Hs : sub (MAGIC ++ marker kind ++ le_bytes 8 n) MARKER_END HEADER_BYTES = le_bytes 8 n)
    by (by destruct kind).
  rewrite Hs, from_le_le_bytes by (change (256 ^ Z.of_nat 8) with 18446744073709551616; unfold U64_MAX in Hn; lia).
  by destruct kind.
Qed.

Lemma size_entries_zlen bl : zlen (concat (size_entry <$> bl)) = 4 * zlen bl.
Proof.
  induction bl as [|b bl IH]; [done|]. cbn [fmap list_fmap concat]. rewrite zlen_app, IH.
  unfold zlen. cbn [length]. unfold size_entry. rewrite le_bytes_length. lia.
Qed.

(** [parse] on the parts that [pack] wrote. *)
Lemma parse_parts kind im bl :
  0 < zlen im ≤ U64_MAX →
  Forall2 (packs (max_output (chunk_bytes kind))) (chunks (Z.to_nat (chunk_bytes kind)) im) bl →
  let packed := MAGIC ++ marker kind ++ le_bytes 8 (zlen im) ++ concat (size_entry <$> bl) ++ concat bl in
  zlen packed ≤ usize_max →
  parse usize_max max_output packed kind =
    Ok (mkPacked (zlen im) (chunk_bytes kind) (ranges_from 0 bl) (concat bl) None []).
Proof.
  intros Him Hbl packed Hmax. unfold packed in *. clear packed.
  destruct (header_parts kind (zlen im) ltac:(lia)) as (Hhl & Hmagic & Hmark & Hsize).
  pose proof (kind_chunk kind) as Hk. pose proof (Forall2_length _ _ _ Hbl) as Hlen.
  apply zlen_length in Hlen. rewrite chunks_zlen in Hlen by lia.
  set (header := MAGIC ++ marker kind ++ le_bytes 8 (zlen im)) in *.
  assert (Heq : MAGIC ++ marker kind ++ le_bytes 8 (zlen im) ++ concat (size_entry <$> bl) ++ concat bl =
                header ++ concat (size_entry <$> bl) ++ concat bl)
    by (unfold header; by rewrite <-!(assoc_L (++))).
  rewrite Heq in *. clear Heq. pose proof (size_entries_zlen bl) as Hte.
  rewrite !zlen_app, Hhl, Hte in Hmax. pose proof (zlen_nonneg (concat bl)). pose proof (zlen_nonneg bl).
  assert (0 < HEADER_BYTES) by done.
  assert (Hhead : slice (header ++ concat (size_entry <$> bl) ++ concat bl) 0 HEADER_BYTES = Some header)
    by (rewrite <-Hhl; exact (slice_mid [] header _)).
  unfold parse. rewrite Hhead. rsimpl.
  rewrite Hmagic, bool_decide_eq_true_2 by done. cbn [negb]. rewrite Hmark. rsimpl. rewrite Hsize.
  rewrite (proj2 (Z.eqb_neq (zlen im) 0)) by lia. unfold checked_usize, to_usize, TABLE_ENTRY_BYTES.
  rewrite Hlen. rewrite (proj2 (Z.leb_le (zlen bl) usize_max)) by lia. cbn [mbind option_bind].
  rewrite (proj2 (Z.leb_le (zlen bl * 4) usize_max)) by lia. cbn [mbind option_bind].
  rewrite (proj2 (Z.leb_le (zlen bl * 4 + HEADER_BYTES) usize_max)) by lia. rsimpl.
  assert (Hslice : slice (header ++ concat (size_entry <$> bl) ++ concat bl) HEADER_BYTES
    (zlen bl * 4 + HEADER_BYTES) = Some (concat (size_entry <$> bl))).
  { rewrite <-Hhl. replace (zlen bl * 4 + zlen header) with (zlen header + zlen (concat (size_entry <$> bl))) by lia.
    apply slice_mid. }
  rewrite Hslice. rsimpl. rewrite chunks_concat by
    (try lia; apply Forall_fmap, Forall_true; intros; apply le_bytes_length).
  rewrite read_table_blocks; [|lia| |lia].
  - rsimpl. assert (Hdrop : drop (Z.to_nat (zlen bl * 4 + HEADER_BYTES))
      (header ++ concat (size_entry <$> bl) ++ concat bl) = concat bl).
    { rewrite (assoc_L (++)). apply drop_app_length'. rewrite length_app. unfold zlen in *. lia. }
    by rewrite Hdrop, Z.eqb_refl.
  - eapply Forall2_Forall_r; [exact Hbl|]. apply Forall_true. by intros ? ? [? _].
Qed.

Lemma packed_serves kind im bl :
  0 < zlen im ≤ U64_MAX → zlen bl ≤ usize_max →
  Forall2 (packs (max_output (chunk_bytes kind))) (chunks (Z.to_nat (chunk_bytes kind)) im) bl →
  let p := mkPacked (zlen im) (chunk_bytes kind) (ranges_from 0 bl) (concat bl) None [] in
  parsed usize_max p ∧ serves decompress_into p im.
Proof.
  intros Him Hcount Hbl p. pose proof (kind_chunk kind) as Hk.
  pose proof (Forall2_length _ _ _ Hbl) as Hlen. apply zlen_length in Hlen. rewrite chunks_zlen in Hlen by lia.
  assert (Hpos : Forall (λ b, 0 < zlen b) bl).
  { eapply Forall2_Forall_r; [exact Hbl|]. apply Forall_true. by intros ? ? [[[? _] _] _]. }
  destruct (ranges_from_ok bl 0 Hpos) as [Hl Hf]. split.
  - split; cbn; [lia|lia|lia|lia|done|done].
  - split; cbn; [done| |done]. intros i range out Hi Hr Hout.
    destruct (ranges_lookup [] bl (Z.to_nat i) range Hr) as (b & Hb & Hsub). cbn [app] in Hsub. rewrite Hsub.
    destruct (Forall2_lookup_r _ _ _ _ _ Hbl Hb) as (chunk & Hchunk & _ & Hdec).
    apply chunks_lookup in Hchunk; [|lia].
    assert (Hc : chunk_of p im i = chunk)
      by (rewrite Hchunk; unfold chunk_of; cbn; by rewrite Z2Nat.id).
    rewrite Hc in *. by apply Hdec.
Qed.

Lemma pack_parse kind im s packed s' :
  pack max_output compress_block im kind s = (Ok packed, s') →
  zlen im ≤ U64_MAX → zlen packed ≤ usize_max →
  ∃ p, parse usize_max max_output packed kind = Ok p ∧ parsed usize_max p ∧ serves decompress_into p im.
Proof.
  intros Hpack Him Hmax. unfold pack, st_bind, st_lift, st_ret, require in Hpack.
  destruct (Z.eqb_spec (zlen im) 0) as [|Hne]; [done|]. cbn [negb] in Hpack.
  destruct (pack_chunks _ _ _ _ _ _) as [[parts|] s1] eqn:Hc; [|done].
  assert (Hp : packed = MAGIC ++ marker kind ++ le_bytes 8 (zlen im) ++ parts.1 ++ parts.2) by congruence.
  clear Hpack. subst packed. destruct (pack_chunks_spec _ _ _ _ _ _ _ Hc) as (bl & Hbl & ->). cbn [fst snd] in *.
  rewrite !app_nil_l in *.
  pose proof (zlen_nonneg im). eexists. split; [by apply parse_parts; [lia|..]|].
  apply packed_serves; [lia| |done]. pose proof (size_entries_zlen bl) as Hte.
  rewrite !zlen_app, Hte in Hmax.
  pose proof (zlen_nonneg MAGIC). pose proof (zlen_nonneg (marker kind)).
  pose proof (zlen_nonneg (le_bytes 8 (zlen im))). pose proof (zlen_nonneg (concat bl)).
  pose proof (zlen_nonneg bl). lia.
Qed.
End RoundTrip.

(** ** Sequences of reads *)

(** Reads one after the other, each with its buffer. *)
Fixpoint read_all usize_max decompress_into (p : Packed) (reads : list (Z * list Z))
    : option (list (result PackError unit * list Z) * Packed) :=
  match reads with
  | [] => Some ([], p)
  | (offset, buf) :: reads =>
      '(r, (p, buf)) ← read_at usize_max decompress_into p offset buf;
      '(rs, p) ← read_all usize_max decompress_into p reads;
      Some ((r, buf) :: rs, p)
  end.

(** The answer of a plain array. *)
Definition array_read (im : list Z) (read : Z * list Z) : result PackError unit * list Z :=
  let '(offset, buf) := read in
  if offset + zlen buf <=? zlen im then (Ok tt, sub im offset (offset + zlen buf))
  else (Err OutsideImage, buf).

Lemma read_all_array usize_max decompress_into p im reads :
  U32_MAX ≤ usize_max ≤ U64_MAX → (∀ block out, zlen (decompress_into block out).2 = zlen out) →
  parsed usize_max p → serves decompress_into p im → Forall (λ r, 0 ≤ r.1) reads →
  ∃ p', read_all usize_max decompress_into p reads = Some (array_read im <$> reads, p').
Proof.
  intros Hu Hd Hp Hs Hr. revert p Hp Hs.
  induction Hr as [|[offset buf] reads Ho _ IH]; intros p Hp Hs; [by exists p|]. cbn in Ho.
  pose proof (read_at_spec _ _ Hu Hd p offset buf Hp Ho) as H. rewrite (sv_length _ _ _ Hs) in H.
  cbn [read_all fmap list_fmap array_read]. destruct (_ <=? _) eqn:Hle.
  - destruct H as (r & p' & buf' & -> & Hp' & _ & _ & Him). destruct (Him im Hs) as (-> & Hs' & ->).
    cbn [mbind option_bind]. destruct (IH p' Hp' Hs') as [p2 ->]. cbn [mbind option_bind]. exists p2.
    rewrite Z.sub_0_r. by replace (Z.to_nat 0) with 0%nat by lia.
  - rewrite H. cbn [mbind option_bind]. destruct (IH p Hp Hs) as [p2 ->]. by exists p2.
Qed.

(** C40. A packed image reads as the image it was packed from: whenever [pack]
    succeeds, [parse] accepts its output, and any sequence of reads, through
    whole chunks and through the cache, at any offset and length, returns what
    reads of a plain array of the image return, out-of-range reads refused
    with their buffer unchanged. *)
Theorem packed_image_roundtrip {S} usize_max max_output decompress_into
    (compress_block : list Z → stM S PackError (list Z)) kind im s packed s' reads :
  U32_MAX ≤ usize_max ≤ U64_MAX →
  (∀ block out, zlen (decompress_into block out).2 = zlen out) →
  (∀ s s' chunk block out, compress_block chunk s = (Ok block, s') → zlen out = zlen chunk →
     decompress_into block out = (Ok (zlen out), chunk)) →
  pack max_output compress_block im kind s = (Ok packed, s') →
  zlen im ≤ U64_MAX → zlen packed ≤ usize_max → Forall (λ r, 0 ≤ r.1) reads →
  ∃ p p', parse usize_max max_output packed kind = Ok p ∧ image_bytes p = zlen im ∧
    read_all usize_max decompress_into p reads = Some (array_read im <$> reads, p').
Proof.
  intros Hu Hd Hc Hpack Him Hmax Hr.
  destruct (pack_parse _ _ _ _ Hu Hc _ _ _ _ _ Hpack Him Hmax) as (p & Hparse & Hp & Hs).
  destruct (read_all_array _ _ _ _ _ Hu Hd Hp Hs Hr) as [p' Hall]. exists p, p'.
  split_and!; [done|apply Hs|done].
Qed.

(** A container from anywhere that [parse] accepts can be read with any
    decompressor: no read panics, indexes outside the table or the payload, or
    loops; a read that is out of range is refused with the buffer unchanged;
    and a chunk that failed to decode is never taken from the cache later. *)
Theorem packed_reads_safe usize_max max_output decompress_into bs kind p reads :
  U32_MAX ≤ usize_max ≤ U64_MAX →
  (∀ block out, zlen (decompress_into block out).2 = zlen out) →
  bytes bs → parse usize_max max_output bs kind = Ok p → Forall (λ r, 0 ≤ r.1) reads →
  ∃ answers p', read_all usize_max decompress_into p reads = Some (answers, p') ∧
    parsed usize_max p' ∧ same_container p p' ∧
    Forall2 (λ read answer, zlen answer.2 = zlen read.2 ∧
      (image_bytes p < read.1 + zlen read.2 → answer = (Err OutsideImage, read.2))) reads answers.
Proof.
  intros Hu Hd Hb Hparse%parse_parsed Hr; [|done..]. revert p Hparse.
  induction Hr as [|[offset buf] reads Ho _ IH]; intros p Hp.
  { exists [], p. split_and!; [done|done|done|constructor]. }
  cbn in Ho. pose proof (read_at_spec _ _ Hu Hd p offset buf Hp Ho) as H. cbn [read_all].
  destruct (Z.leb_spec (offset + zlen buf) (image_bytes p)) as [Hle|Hgt].
  - destruct H as (r & p1 & buf' & -> & Hp1 & Hsame & Hl & _). cbn [mbind option_bind].
    destruct (IH p1 Hp1) as (rs & p2 & -> & Hp2 & Hsame2 & Hf). exists ((r, buf') :: rs), p2.
    split_and!; [done|done|by etrans|]. constructor; [cbn; split; [done|lia]|].
    destruct Hsame as (Hi & _). by rewrite Hi.
  - rewrite H. cbn [mbind option_bind]. destruct (IH p Hp) as (rs & p2 & -> & Hp2 & Hsame2 & Hf).
    exists ((Err OutsideImage, buf) :: rs), p2. split_and!; [done|done|done|by constructor].
Qed.

(** ** A container with stored chunks *)

Definition demo_compress (chunk : list Z) : stM Z PackError (list Z) := λ n, (Ok (1 :: chunk), n + 1).
Definition demo_decompress (block out : list Z) : result unit Z * list Z :=
  match block with
  | _ :: chunk => if zlen chunk =? zlen out then (Ok (zlen out), chunk) else (Err tt, out)
  | [] => (Err tt, out)
  end.
Definition demo_image : list Z := [10; 20; 30; 40; 50].
Definition demo_packed : list Z :=
  MAGIC ++ marker Boot ++ le_bytes 8 5 ++ le_bytes 4 6 ++ [1; 10; 20; 30; 40; 50].
Definition demo_reads : list (Z * list Z) := [(1, [0; 0; 0]); (0, [7; 7; 7; 7; 7]); (3, [9; 9; 9]); (4, [0])].

Lemma demo_decompress_length block out : zlen (demo_decompress block out).2 = zlen out.
Proof. destruct block as [|b block]; [done|]. cbn. destruct (Z.eqb_spec (zlen block) (zlen out)); done. Qed.

Lemma demo_compress_ok s s' chunk block out :
  demo_compress chunk s = (Ok block, s') → zlen out = zlen chunk →
  demo_decompress block out = (Ok (zlen out), chunk).
Proof. intros [= <- <-] Ho. cbn. by rewrite Ho, Z.eqb_refl. Qed.

Lemma packed_image_roundtrip_witness :
  ∃ p p', parse U32_MAX (λ n, n + 20) demo_packed Boot = Ok p ∧ image_bytes p = 5 ∧
    read_all U32_MAX demo_decompress p demo_reads =
      Some ([(Ok tt, [20; 30; 40]); (Ok tt, demo_image); (Err OutsideImage, [9; 9; 9]); (Ok tt, [50])], p').
Proof.
  exact (packed_image_roundtrip U32_MAX (λ n, n + 20) demo_decompress demo_compress Boot demo_image 0
    demo_packed 1 demo_reads ltac:(done) demo_decompress_length demo_compress_ok ltac:(vm_compute; reflexivity)
    ltac:(done) ltac:(done) ltac:(repeat constructor; done)).
Defined.

Lemma packed_reads_safe_witness :
  ∃ p answers p', parse U32_MAX (λ n, n + 20) demo_packed Boot = Ok p ∧
    read_all U32_MAX (λ _ out, (Err tt, out)) p demo_reads = Some (answers, p') ∧ same_container p p'.
Proof.
  destruct (parse U32_MAX (λ n, n + 20) demo_packed Boot) as [p|] eqn:Hp; [|vm_compute in Hp; discriminate].
  destruct (packed_reads_safe U32_MAX (λ n, n + 20) (λ _ out, (Err tt, out)) demo_packed Boot p demo_reads
    ltac:(done) ltac:(done) ltac:(apply (bool_decide_unpack _); vm_compute; exact I) Hp
    ltac:(repeat constructor; done)) as (answers & p' & Hall & _ & Hsame & _).
  exists p, answers, p'. split; [reflexivity|]. by split.
Defined.

End PackedImage.
