(* ===== verification/BootPlan.v ===== *)
(** * The boot plan

    [components/boot/src/boot.rs], the component that turns a kernel image, the
    RAM size, the number of virtual processors and the device list into a plan:
    which parts of the kernel go where, and which tables are written around it.

    Strings are their UTF-8 bytes. The build checks overflow, so an addition or
    subtraction that does not fit is a trap: [None]. [usize] has 32 bits in the
    component and is a parameter. The device tree blob is written by the [vm-fdt]
    crate: the calls on it are data, their effect is the parameter [write_fdt]. *)

From stdpp Require Import list strings.
From S2P Require Import Prelude Limits MemoryApi PolicyRules PackedImage.

Local Open Scope Z_scope.

Module BootPlan.
Import PackedImage (sub, splice).

(** ** The interface *)

Inductive DeviceKind : Type := Block | Vsock | Fs | Memory.
#[export] Instance DeviceKind_eq_dec : EqDecision DeviceKind.
Proof. solve_decision. Defined.

Record Device := mkDevice { d_kind : DeviceKind; mmio_base : Z; irq : Z }.
Record KernelSegment := mkSegment {
  source_offset : Z;
  guest_address : Z;
  file_length : Z;
  memory_length : Z;
}.
Record GuestWrite := mkWrite { w_address : Z; w_bytes : list Z }.
Record Plan := mkPlan {
  entry : Z;
  boot_argument : Z;
  kernel_segments : list KernelSegment;
  writes : list GuestWrite;
}.

Inductive Error : Type :=
| InvalidRam | InvalidVcpus | InvalidDevice | CommandLineTooLong | InvalidKernel
| KernelArchitecture | KernelLayout | KernelTooLarge | BootDataTooLarge.
#[export] Instance Error_eq_dec : EqDecision Error.
Proof. solve_decision. Defined.

(** ** Constants *)

Definition X86_GDT_ADDR : Z := X86_RAM_BASE + 0x500.
Definition X86_PML4_ADDR : Z := X86_RAM_BASE + 0x9000.
Definition X86_STACK_TOP : Z := X86_RAM_BASE + 0x8ff0.
Definition X86_ZERO_PAGE : Z := X86_RAM_BASE + 0x7000.
Definition MAX_BOOT_KERNEL_BYTES : Z := 64 * 1024 * 1024.
Definition MAX_BOOT_KERNEL_PREFIX_BYTES : Z := 64 * 1024.
Definition MAX_BOOT_COMMAND_LINE_BYTES : Z := 2048.
Definition MAX_BOOT_WRITE_BYTES : Z := 2 * 1024 * 1024.
Definition ARM_VIRTIO_IRQ_BASE : Z := 16.

Definition X86_HIMEM_START : Z := 0x100000.
Definition X86_CMDLINE : Z := X86_RAM_BASE + 0x20000.
Definition X86_MP_TABLE : Z := 0x9fc00.
Definition X86_PDPT : Z := X86_RAM_BASE + 0xa000.
Definition X86_PAGE_DIRECTORY : Z := X86_RAM_BASE + 0xb000.
Definition X86_MMIO_SIZE : Z := 0x200.
Definition X86_IRQ_BASE : Z := 11.
Definition X86_VOLUME_IRQS : list Z := [20; 21; 22].
Definition X86_MOUNT_IRQS : list Z := [17; 18; 19].
Definition X86_PAGE_2M : Z := 2 * 1024 * 1024.
Definition X86_ENTRIES_PER_TABLE : Z := 512.
Definition X86_PAGE_TABLE_ENTRY : Z := 0x03.
Definition X86_PAGE_2M_ENTRY : Z := 0x83.
Definition X86_GDT_CODE : Z := 0x00af9b000000ffff.
Definition X86_GDT_DATA : Z := 0x00cf93000000ffff.
Definition ARM_FDT_ALIGNMENT : Z := 0x00200000.

(** ** Ranges and fields *)

(** [None] is a trap. *)
Definition trap (A : Type) : Type := option (result Error A).
Definition t_ret {A} (r : result Error A) : trap A := Some r.
Definition t_bind {A B} (m : trap A) (k : A → trap B) : trap B :=
  match m with
  | None => None
  | Some (Err e) => Some (Err e)
  | Some (Ok a) => k a
  end.
#[local] Notation "x <-- m ;; k" := (t_bind m (λ x, k)) (at level 100, m at next level, right associativity).

Definition end_of (base size : Z) : result Error Z := ok_or KernelLayout (checked_add64 base size).

Definition x86_ram_regions (ram_bytes : Z) : result Error (list (Z * Z)) :=
  ok_or InvalidRam ((λ l, (λ r, (rr_base r, rr_size r)) <$> regions l) <$> x86_ram_layout ram_bytes).

Definition range_in_regions (base size : Z) (regions : list (Z * Z)) : result Error unit :=
  e ← end_of base size;
  require (existsb (λ r, (r.1 <=? base)
                         && match checked_add64 r.1 r.2 with Some re => e <=? re | None => false end) regions)
    KernelLayout.

Definition checked_source (kernel_bytes offset len : Z) : result Error unit :=
  e ← end_of offset len; require (e <=? kernel_bytes) InvalidKernel.

Definition validate_kernel_prefix (prefix : list Z) (kernel_bytes : Z) : result Error unit :=
  if (MAX_BOOT_KERNEL_PREFIX_BYTES <? zlen prefix) || (MAX_BOOT_KERNEL_BYTES <? kernel_bytes)
     || (kernel_bytes <? zlen prefix)
  then Err KernelTooLarge else Ok tt.

Definition u16_at (bs : list Z) (offset : Z) : option Z := from_le <$> slice bs offset (offset + 2).
Definition u32_at (bs : list Z) (offset : Z) : option Z := from_le <$> slice bs offset (offset + 4).
Definition u64_at (bs : list Z) (offset : Z) : option Z := from_le <$> slice bs offset (offset + 8).

(** ** The command line *)

Definition is_ascii_whitespace (c : Z) : bool :=
  (c =? 32) || (c =? 9) || (c =? 10) || (c =? 12) || (c =? 13).

(** [split_ascii_whitespace]; [word] is the word read so far, reversed. *)
Fixpoint split_words (s word : list Z) : list (list Z) :=
  let flush rest := match word with [] => rest | _ => rev word :: rest end in
  match s with
  | [] => flush []
  | c :: s => if is_ascii_whitespace c then flush (split_words s []) else split_words s (c :: word)
  end.

(** [{:#x}] and [{}] on integers of at most 64 bits. *)
Definition hex_prefixed (z : Z) : list Z := lit "0x" ++ (digit_char <$> digits 16 16 z).
Definition decimal (z : Z) : list Z := digit_char <$> digits 10 20 z.

Definition device_argument (d : Device) : list Z :=
  lit " virtio_mmio.device=" ++ hex_prefixed X86_MMIO_SIZE ++ lit "@" ++ hex_prefixed (mmio_base d)
  ++ lit ":" ++ decimal (irq d).

Definition command_line (kernel_command_line : list Z) (devices : list Device) : result Error (list Z) :=
  let base := join 32 (split_words
    (kernel_command_line ++
     lit " init_on_alloc=1 init_on_free=0 initcall_blacklist=print_s5_reset_status_mmio") []) in
  let line := base ++ mjoin (device_argument <$> devices) in
  if MAX_BOOT_COMMAND_LINE_BYTES <=? zlen line then Err CommandLineTooLong else Ok line.

(** ** Devices *)

Definition x86_irq (kind : DeviceKind) (ordinal : Z) : Z :=
  match kind with
  | Block =>
      if ordinal =? 0 then X86_IRQ_BASE else
      if ordinal =? 1 then X86_IRQ_BASE + 1 else
      X86_VOLUME_IRQS !!! Z.to_nat ((ordinal - 2) mod zlen X86_VOLUME_IRQS)
  | Vsock => 13
  | Fs => X86_MOUNT_IRQS !!! Z.to_nat (ordinal mod zlen X86_MOUNT_IRQS)
  | Memory => 15
  end.

Definition count_of (devices : list Device) (kind : DeviceKind) : Z :=
  zlen (filter (λ d, d_kind d = kind) devices).

(** [windows(2)] with the ranks in order. *)
Fixpoint is_ordered (rank : DeviceKind → Z) (devices : list Device) : bool :=
  match devices with
  | a :: ((b :: _) as rest) => (rank (d_kind a) <=? rank (d_kind b)) && is_ordered rank rest
  | _ => true
  end.

Definition validate_device_order (devices : list Device) (rank : DeviceKind → Z) : result Error unit :=
  require (is_ordered rank devices && (count_of devices Vsock =? 1) && (count_of devices Memory =? 1))
    InvalidDevice.

Definition x86_rank (kind : DeviceKind) : Z :=
  match kind with Block => 0 | Vsock => 1 | Fs => 2 | Memory => 3 end.
Definition arm_rank (kind : DeviceKind) : Z :=
  match kind with Block => 0 | Fs => 1 | Memory => 2 | Vsock => 3 end.

(** The loop over the slots; [earlier] are the devices before. *)
Fixpoint check_x86_slots (earlier devices : list Device) : result Error unit :=
  match devices with
  | [] => Ok tt
  | d :: rest =>
      expected_base ← ok_or InvalidDevice
        (checked_add64 X86_MMIO_BASE (zlen earlier * X86_MMIO_STRIDE));
      if negb (mmio_base d =? expected_base)
         || negb (irq d =? x86_irq (d_kind d) (count_of earlier (d_kind d)))
      then Err InvalidDevice else check_x86_slots (earlier ++ [d]) rest
  end.

Definition validate_x86_devices (devices : list Device) : result Error unit :=
  if X86_MAX_DEVICES <? zlen devices then Err InvalidDevice else
  _ ← validate_device_order devices x86_rank;
  check_x86_slots [] devices.

Fixpoint check_arm_slots (slot : Z) (devices : list Device) : result Error unit :=
  match devices with
  | [] => Ok tt
  | d :: rest =>
      expected_base ← ok_or InvalidDevice
        (checked_add64 ARM_VIRTIO_MMIO_BASE (slot * ARM_VIRTIO_MMIO_STRIDE));
      let expected_irq := ARM_VIRTIO_IRQ_BASE + slot in
      if U32_MAX <? expected_irq then Err InvalidDevice else
      if negb (mmio_base d =? expected_base) || negb (irq d =? expected_irq)
      then Err InvalidDevice else check_arm_slots (slot + 1) rest
  end.

Definition validate_arm_devices (devices : list Device) : result Error unit :=
  if ARM_MAX_DEVICES <? zlen devices then Err InvalidDevice else
  _ ← validate_device_order devices arm_rank;
  check_arm_slots 0 devices.

(** ** The tables of an x86 machine *)

Definition zeros (n : Z) : list Z := replicate (Z.to_nat n) 0.

(** The [e820] map: RAM without the hole between the MP table and 1 MiB. *)
Definition e820_map (regions : list (Z * Z)) : trap (list (Z * Z)) :=
  match regions with
  | [] => None
  | first :: rest =>
      low_end <-- t_ret (end_of first.1 first.2);;
      below <-- option_map Ok (checked_sub X86_MP_TABLE first.1);;
      above <-- option_map Ok (checked_sub low_end X86_HIMEM_START);;
      t_ret (Ok ((first.1, below) :: (X86_HIMEM_START, above) :: rest))
  end.

Definition e820_entry (r : Z * Z) : list Z := le_bytes 8 r.1 ++ le_bytes 8 r.2 ++ le_bytes 4 1.

Fixpoint write_e820 (page : list Z) (index : Z) (e820 : list (Z * Z)) : list Z :=
  match e820 with
  | [] => page
  | r :: e820 => write_e820 (splice page (0x2d0 + index * 20) (e820_entry r)) (index + 1) e820
  end.

(** The boot protocol fields: the number of map entries, the boot flag, the
    header magic, the loader type, the command line and its length. *)
Definition zero_page_fields (count cmdline len : Z) : list Z :=
  let page := zeros RAM_PAGE_SIZE in
  let page := splice page 0x1e8 [count] in
  let page := splice page 0x1fe (le_bytes 2 0xaa55) in
  let page := splice page 0x202 (le_bytes 4 0x53726448) in
  let page := splice page 0x210 [0xff] in
  let page := splice page 0x228 (le_bytes 4 cmdline) in
  splice page 0x238 (le_bytes 4 len).

Definition x86_zero_page (regions : list (Z * Z)) (command_line_len : Z) : trap (list Z) :=
  len <-- t_ret (if command_line_len <=? U32_MAX then Ok command_line_len else Err CommandLineTooLong);;
  e820 <-- e820_map regions;;
  count <-- t_ret (if zlen e820 <=? 255 then Ok (zlen e820) else Err BootDataTooLarge);;
  cmdline <-- t_ret (if X86_CMDLINE <=? U32_MAX then Ok X86_CMDLINE else Err BootDataTooLarge);;
  t_ret (Ok (write_e820 (zero_page_fields count cmdline len) 0 e820)).

(** A page whose first entries are [entries] and whose others are zero. *)
Definition table_page (entries : list Z) : list Z :=
  let bs := mjoin (le_bytes 8 <$> entries) in bs ++ zeros (4096 - zlen bs).

Definition directory_address (directory : Z) : Z := X86_PAGE_DIRECTORY + directory * RAM_PAGE_SIZE.
Definition pdpt_entries : list Z :=
  (λ directory, Z.lor (directory_address directory) X86_PAGE_TABLE_ENTRY) <$> seqZ 0 4.
Definition directory_entries (directory : Z) : list Z :=
  (λ page, Z.lor ((directory * X86_ENTRIES_PER_TABLE + page) * X86_PAGE_2M) X86_PAGE_2M_ENTRY)
    <$> seqZ 0 X86_ENTRIES_PER_TABLE.

Definition x86_page_tables : list GuestWrite :=
  [mkWrite (X86_GDT_ADDR + 8) (le_bytes 8 X86_GDT_CODE ++ le_bytes 8 X86_GDT_DATA);
   mkWrite X86_PML4_ADDR (table_page [Z.lor X86_PDPT X86_PAGE_TABLE_ENTRY]);
   mkWrite X86_PDPT (table_page pdpt_entries)]
  ++ ((λ directory, mkWrite (directory_address directory) (table_page (directory_entries directory)))
        <$> seqZ 0 4).

Definition validate_x86_writes (ws : list GuestWrite) (low_ram : list (Z * Z)) : result Error unit :=
  if existsb (λ w, negb (is_ok (range_in_regions (w_address w) (zlen (w_bytes w)) low_ram))) ws
  then Err KernelLayout else
  range_in_regions (X86_STACK_TOP - RAM_PAGE_SIZE) RAM_PAGE_SIZE low_ram.

(** The byte that makes a sum of bytes a multiple of 256. *)
Definition checksum (bs : list Z) : Z := (- sumZ bs) mod 256.

Definition mp_processors (vcpus : Z) : list Z :=
  mjoin ((λ cpu, [0; cpu; 0x14; if cpu =? 0 then 3 else 1] ++ le_bytes 4 0x600 ++ zeros 12)
           <$> seqZ 0 vcpus).
Definition mp_interrupts : list Z :=
  mjoin ((λ irq, [3; 0; 0; 0; 0; irq; 0xff; irq]) <$> seqZ 0 X86_IRQ_BASE)
  ++ mjoin ((λ irq, [3; 0; 0x0d; 0; 0; irq; 0xff; irq]) <$> seqZ X86_IRQ_BASE (24 - X86_IRQ_BASE)).
Definition mp_local_interrupts : list Z := [4; 3; 0; 0; 0; 0; 0xff; 0] ++ [4; 1; 0; 0; 0; 1; 0xff; 1].

Definition mp_table (vcpus : Z) : result Error (list Z) :=
  if (vcpus =? 0) || (X86_MAX_VCPUS <? vcpus) then Err InvalidVcpus else
  let floating := lit "_MP_" ++ le_bytes 4 (X86_MP_TABLE + 16) ++ [1; 4; 0; 0; 0; 0; 0; 0] in
  let base := zlen floating in
  let bs := floating ++ lit "PCMP" in
  let length_at := zlen bs in
  let bs := bs ++ zeros 2 ++ [4; 0] ++ lit "TERRA   TERRA-VM    " ++ le_bytes 4 0 ++ le_bytes 2 0
              ++ le_bytes 2 (vcpus + 28) ++ le_bytes 4 0xfee00000 ++ [0; 0; 0; 0]
              ++ mp_processors vcpus
              ++ [1; 0] ++ lit "ISA   " ++ [2; vcpus; 0x11; 1] ++ le_bytes 4 0xfec00000
              ++ mp_interrupts ++ mp_local_interrupts in
  length_value ← (if zlen bs - base <=? U16_MAX then Ok (zlen bs - base) else Err BootDataTooLarge);
  let bs := splice bs length_at (le_bytes 2 length_value) in
  let bs := splice bs (base + 7) [checksum (drop (Z.to_nat base) bs)] in
  Ok (splice bs 10 [checksum (take 16 bs)]).

(** ** The x86 plan *)

Section Planner.
Context (usize_max : Z).

(** One program header: [None] when it describes nothing to load. *)
Definition read_segment (header : list Z) (kernel_bytes : Z) (low_ram : list (Z * Z))
    : result Error (option KernelSegment) :=
  if negb (bool_decide (u32_at header 0 = Some 1)) then Ok None else
  source_offset ← ok_or InvalidKernel (u64_at header 8);
  guest_address ← ok_or InvalidKernel (u64_at header 24);
  file_length ← ok_or InvalidKernel (u64_at header 32);
  memory_length ← ok_or InvalidKernel (u64_at header 40);
  if file_length =? 0 then Ok None else
  if (guest_address <? X86_HIMEM_START) || (memory_length <? file_length) then Err KernelLayout else
  _ ← checked_source kernel_bytes source_offset file_length;
  _ ← range_in_regions guest_address memory_length low_ram;
  Ok (Some (mkSegment source_offset guest_address file_length memory_length)).

Definition checked_usize (z : Z) : option Z := if z <=? usize_max then Some z else None.

Fixpoint read_segments (prefix : list Z) (kernel_bytes : Z) (low_ram : list (Z * Z)) (program_headers : Z)
    (indexes : list Z) : trap (list KernelSegment) :=
  match indexes with
  | [] => t_ret (Ok [])
  | index :: indexes =>
      offset <-- t_ret (
        step ← ok_or InvalidKernel (checked_usize (index * 56));
        ok_or InvalidKernel (checked_usize (program_headers + step)));;
      header_end <-- option_map Ok (checked_usize (offset + 56));;
      header <-- t_ret (ok_or InvalidKernel (slice prefix offset header_end));;
      segment <-- t_ret (read_segment header kernel_bytes low_ram);;
      rest <-- read_segments prefix kernel_bytes low_ram program_headers indexes;;
      t_ret (Ok (match segment with Some s => s :: rest | None => rest end))
  end.

Definition in_segment (entry : Z) (s : KernelSegment) : bool :=
  match end_of (guest_address s) (memory_length s) with
  | Ok e => (guest_address s <=? entry) && (entry <? e)
  | Err _ => false
  end.

Definition segments_meet (s other : KernelSegment) : bool :=
  (guest_address s <? guest_address other + memory_length other)
  && (guest_address other <? guest_address s + memory_length s).

Fixpoint any_overlap (segments : list KernelSegment) : bool :=
  match segments with
  | [] => false
  | s :: rest => existsb (segments_meet s) rest || any_overlap rest
  end.

Definition is_elf64 (prefix : list Z) : bool :=
  negb ((zlen prefix <? 64) || negb (bool_decide (take 4 prefix = [0x7f; 69; 76; 70]))
        || negb (bool_decide (prefix !! 4%nat = Some 2)) || negb (bool_decide (prefix !! 5%nat = Some 1))).

Definition plan_x86 (kernel_prefix : list Z) (kernel_bytes ram_bytes vcpus : Z)
    (kernel_command_line : list Z) (devices : list Device) : trap Plan :=
  ram_regions <-- t_ret (x86_ram_regions ram_bytes);;
  _ <-- t_ret (validate_kernel_prefix kernel_prefix kernel_bytes);;
  _ <-- t_ret (validate_x86_devices devices);;
  _ <-- t_ret (require (is_elf64 kernel_prefix) InvalidKernel);;
  _ <-- t_ret (require (bool_decide (u16_at kernel_prefix 18 = Some 62)) KernelArchitecture);;
  entry <-- t_ret (ok_or InvalidKernel (u64_at kernel_prefix 24));;
  program_headers <-- t_ret (
    phoff ← ok_or InvalidKernel (u64_at kernel_prefix 32);
    ok_or InvalidKernel (checked_usize phoff));;
  count <-- t_ret (ok_or InvalidKernel (u16_at kernel_prefix 56));;
  segments <-- read_segments kernel_prefix kernel_bytes (take 1 ram_regions) program_headers (seqZ 0 count);;
  _ <-- t_ret (require (existsb (in_segment entry) segments) KernelLayout);;
  _ <-- t_ret (require (negb (any_overlap segments)) KernelLayout);;
  line <-- t_ret (command_line kernel_command_line devices);;
  let line := line ++ [0] in
  table <-- t_ret (mp_table vcpus);;
  zero_page <-- x86_zero_page ram_regions (zlen line);;
  let ws := x86_page_tables ++ [mkWrite X86_CMDLINE line; mkWrite X86_ZERO_PAGE zero_page;
                                mkWrite X86_MP_TABLE table] in
  _ <-- t_ret (validate_x86_writes ws (take 1 ram_regions));;
  t_ret (Ok (mkPlan entry X86_ZERO_PAGE segments ws)).
End Planner.

(** ** The Arm plan *)

(** The calls on the device tree writer. *)
Inductive FdtOp : Type :=
| BeginNode (name : list Z)
| EndNode
| PropertyString (name value : list Z)
| PropertyU32 (name : list Z) (value : Z)
| PropertyU64 (name : list Z) (value : Z)
| PropertyArrayU32 (name : list Z) (values : list Z)
| PropertyArrayU64 (name : list Z) (values : list Z)
| PropertyNull (name : list Z)
| PropertyPhandle (value : Z).

(** [{:x}] *)
Definition hex_plain (z : Z) : list Z := digit_char <$> digits 16 16 z.

Definition cpu_node (vcpus cpu : Z) : list FdtOp :=
  [BeginNode (lit "cpu@" ++ hex_plain cpu); PropertyString (lit "device_type") (lit "cpu");
   PropertyString (lit "compatible") (lit "arm,arm-v8")]
  ++ (if 1 <? vcpus then [PropertyString (lit "enable-method") (lit "psci")] else [])
  ++ [PropertyU64 (lit "reg") cpu; EndNode].

Definition device_node (d : Device) : list FdtOp :=
  [BeginNode (lit "virtio_mmio@" ++ hex_plain (mmio_base d));
   PropertyString (lit "compatible") (lit "virtio,mmio");
   PropertyArrayU64 (lit "reg") [mmio_base d; ARM_VIRTIO_MMIO_STRIDE];
   PropertyArrayU32 (lit "interrupts") [0; irq d; 4]; EndNode].

Definition arm_fdt (ram_bytes vcpus : Z) (devices : list Device) (bootargs : list Z) : list FdtOp :=
  [BeginNode []; PropertyString (lit "compatible") (lit "terra,arm64-virt");
   PropertyU32 (lit "#address-cells") 2; PropertyU32 (lit "#size-cells") 2;
   PropertyU32 (lit "interrupt-parent") 1;
   BeginNode (lit "chosen"); PropertyString (lit "bootargs") bootargs; EndNode;
   BeginNode (lit "cpus"); PropertyU32 (lit "#address-cells") 2; PropertyU32 (lit "#size-cells") 0]
  ++ mjoin (cpu_node vcpus <$> seqZ 0 vcpus)
  ++ [EndNode;
      BeginNode (lit "memory@" ++ hex_plain ARM_RAM_BASE); PropertyString (lit "device_type") (lit "memory");
      PropertyArrayU64 (lit "reg") [ARM_RAM_BASE; ram_bytes]; EndNode;
      BeginNode (lit "intc@" ++ hex_plain ARM_GIC_DIST_BASE);
      PropertyString (lit "compatible") (lit "arm,gic-v3");
      PropertyNull (lit "interrupt-controller"); PropertyU32 (lit "#interrupt-cells") 3;
      PropertyArrayU64 (lit "reg")
        [ARM_GIC_DIST_BASE; ARM_GIC_DIST_SIZE; ARM_GIC_REDIST_BASE; ARM_GIC_REDIST_SIZE];
      PropertyPhandle 1; EndNode;
      BeginNode (lit "timer"); PropertyString (lit "compatible") (lit "arm,armv8-timer");
      PropertyNull (lit "always-on");
      PropertyArrayU32 (lit "interrupts") [1; 13; 4; 1; 14; 4; 1; 11; 4; 1; 10; 4]; EndNode;
      BeginNode (lit "psci"); PropertyString (lit "compatible") (lit "arm,psci-0.2");
      PropertyString (lit "method") (lit "hvc"); EndNode]
  ++ mjoin (device_node <$> devices)
  ++ [EndNode].

Section ArmPlanner.
Context (write_fdt : list FdtOp → option (list Z)).

Definition plan_arm (kernel_prefix : list Z) (kernel_bytes ram_bytes vcpus : Z)
    (kernel_command_line : list Z) (devices : list Device) : result Error Plan :=
  layout ← ok_or InvalidRam (arm_ram_layout ram_bytes);
  ram ← ok_or InvalidRam (head (regions layout));
  if rr_size ram <? ARM_FDT_ALIGNMENT then Err InvalidRam else
  if (vcpus =? 0) || (ARM_MAX_VCPUS <? vcpus) then Err InvalidVcpus else
  _ ← validate_kernel_prefix kernel_prefix kernel_bytes;
  _ ← validate_arm_devices devices;
  if (zlen kernel_prefix <? 64) || negb (bool_decide (sub kernel_prefix 56 60 = lit "ARMd"))
  then Err InvalidKernel else
  text_offset ← ok_or InvalidKernel (u64_at kernel_prefix 8);
  memory_length ← ok_or InvalidKernel (u64_at kernel_prefix 16);
  let file_length := kernel_bytes in
  if (memory_length =? 0) || (memory_length <? file_length) then Err KernelLayout else
  guest_address ← ok_or KernelLayout (checked_add64 (rr_base ram) text_offset);
  ram_end ← ok_or InvalidRam (checked_add64 (rr_base ram) (rr_size ram));
  fdt_address ← ok_or InvalidRam
    ((λ a, Z.land a (not64 (ARM_FDT_ALIGNMENT - 1))) <$> checked_sub ram_end ARM_FDT_ALIGNMENT);
  kernel_end ← end_of guest_address memory_length;
  if fdt_address <? kernel_end then Err KernelLayout else
  line ← command_line kernel_command_line [];
  fdt ← ok_or BootDataTooLarge (write_fdt (arm_fdt ram_bytes vcpus devices line));
  if MAX_BOOT_WRITE_BYTES <? zlen fdt then Err BootDataTooLarge else
  Ok (mkPlan guest_address fdt_address [mkSegment 0 guest_address file_length memory_length]
        [mkWrite fdt_address fdt]).
End ArmPlanner.

(** ** Splices and tables *)

Lemma sub_splice_same l a bs :
  0 ≤ a → a + zlen bs ≤ zlen l → sub (splice l a bs) a (a + zlen bs) = bs.
Proof.
  intros Ha Hl. unfold sub, splice. rewrite drop_app_length' by (rewrite length_take; unfold zlen in *; lia).
  rewrite Z.add_simpl_l, to_nat_zlen. by rewrite take_app_length.
Qed.

Lemma splice_lookup l a bs i :
  0 ≤ a → a + zlen bs ≤ zlen l → ¬ (a ≤ Z.of_nat i < a + zlen bs) → splice l a bs !! i = l !! i.
Proof.
  intros Ha Hl Hi. unfold splice, zlen in *. destruct (decide (Z.of_nat i < a)).
  - rewrite lookup_app_l by (rewrite length_take; lia). apply lookup_take_lt. lia.
  - rewrite lookup_app_r by (rewrite length_take; lia). rewrite length_take, lookup_app_r by lia.
    rewrite lookup_drop. f_equal. lia.
Qed.

Lemma sub_ext l k a b :
  0 ≤ a → (∀ i, a ≤ Z.of_nat i < b → l !! i = k !! i) → sub l a b = sub k a b.
Proof.
  intros Ha Hlk. unfold sub. apply list_eq. intros i.
  destruct (decide (i < Z.to_nat (b - a))%nat).
  - rewrite !lookup_take_lt, !lookup_drop by lia. apply Hlk. lia.
  - rewrite !(lookup_ge_None_2 (take _ _)) by (rewrite length_take; lia). done.
Qed.

Lemma sub_splice_other l a bs c d :
  0 ≤ a → a + zlen bs ≤ zlen l → 0 ≤ c → d ≤ a ∨ a + zlen bs ≤ c → sub (splice l a bs) c d = sub l c d.
Proof. intros Ha Hl Hc Hd. apply sub_ext; [done|]. intros i Hi. apply splice_lookup; [done|done|lia]. Qed.

Lemma put_zlen l a bs n : zlen l = n → 0 ≤ a → a + zlen bs ≤ n → zlen (splice l a bs) = n.
Proof. intros <-. apply PackedImage.splice_zlen. Qed.

Lemma put_other l a bs n c d :
  zlen l = n → 0 ≤ a → a + zlen bs ≤ n → 0 ≤ c → d ≤ a ∨ a + zlen bs ≤ c →
  sub (splice l a bs) c d = sub l c d.
Proof. intros <-. apply sub_splice_other. Qed.

Lemma zeros_zlen n : 0 ≤ n → zlen (zeros n) = n.
Proof. intros. unfold zeros, zlen. rewrite length_replicate. lia. Qed.

Lemma le_bytes_zlen n z : zlen (le_bytes n z) = Z.of_nat n.
Proof. unfold zlen. by rewrite le_bytes_length. Qed.

Lemma entries_zlen entries : zlen (mjoin (le_bytes 8 <$> entries)) = 8 * zlen entries.
Proof.
  induction entries as [|e entries IH]; [done|].
  change (mjoin (le_bytes 8 <$> e :: entries)) with (le_bytes 8 e ++ mjoin (le_bytes 8 <$> entries)).
  rewrite zlen_app, IH, le_bytes_zlen. unfold zlen. cbn [length]. lia.
Qed.

Lemma table_page_zlen entries : zlen entries ≤ 512 → zlen (table_page entries) = 4096.
Proof.
  intros. unfold table_page. rewrite zlen_app, zeros_zlen by (rewrite entries_zlen; lia). lia.
Qed.

(** The entry [i] of a table. *)
Lemma table_page_entry entries i e :
  entries !! i = Some e → u64 e → from_le (sub (table_page entries) (8 * Z.of_nat i) (8 * Z.of_nat i + 8)) = e.
Proof.
  intros Hi He. unfold table_page. set (rest := zeros _). clearbody rest.
  rewrite <-(from_le_le_bytes 8 e) by (change (256 ^ Z.of_nat 8) with 18446744073709551616; unfold u64 in He; lia).
  f_equal. revert i Hi. induction entries as [|x entries IH]; intros i Hi; [done|].
  change (mjoin (le_bytes 8 <$> x :: entries)) with (le_bytes 8 x ++ mjoin (le_bytes 8 <$> entries)).
  rewrite <-(assoc_L (++)). destruct i as [|i].
  - cbn in Hi. injection Hi as ->. unfold sub. change (Z.to_nat (8 * Z.of_nat 0)) with 0%nat.
    rewrite drop_0. apply take_app_length'. by rewrite le_bytes_length.
  - cbn in Hi. rewrite <-(IH i Hi). unfold sub.
    replace (Z.to_nat (8 * Z.of_nat (S i))) with (length (le_bytes 8 x) + Z.to_nat (8 * Z.of_nat i))%nat
      by (rewrite le_bytes_length; lia).
    rewrite <-drop_drop, drop_app_length. f_equal. lia.
Qed.

(** Bits below [2^n] next to a multiple of it. *)
Lemma lor_low k b n : 0 ≤ n → 0 ≤ b < 2 ^ n → Z.lor (k * 2 ^ n) b = k * 2 ^ n + b.
Proof.
  intros Hn Hb. pose proof (Z.add_lor_land (k * 2 ^ n) b) as H.
  assert (Hl : Z.land (k * 2 ^ n) b = 0).
  { apply Z.bits_inj'. intros i Hi. rewrite Z.land_spec, Z.bits_0.
    destruct (Z.lt_ge_cases i n).
    - by rewrite Z.mul_pow2_bits_low.
    - destruct (Z.eq_dec b 0) as [->|]; [by rewrite Z.bits_0, andb_false_r|].
      rewrite (Z.bits_above_log2 b i), andb_false_r; [done|lia|].
      eapply Z.lt_le_trans; [|exact H0]. apply Z.log2_lt_pow2; lia. }
  lia.
Qed.

(** ** The parts of an x86 plan *)

Lemma t_bind_Ok {A B} (m : trap A) (k : A → trap B) b :
  t_bind m k = Some (Ok b) ↔ ∃ a, m = Some (Ok a) ∧ k a = Some (Ok b).
Proof.
  destruct m as [[a|e]|]; cbn; (split; [|intros (x & [=] & Hk); by subst]); try done. by exists a.
Qed.

Lemma t_ret_Ok {A} (r : result Error A) a : t_ret r = Some (Ok a) ↔ r = Ok a.
Proof. unfold t_ret. split; [by intros [= ->]|by intros ->]. Qed.

Lemma range_in_regions_Ok b n rs u :
  range_in_regions b n rs = Ok u →
  b + n ≤ U64_MAX ∧ ∃ r, r ∈ rs ∧ r.1 ≤ b ∧ b + n ≤ r.1 + r.2.
Proof.
  unfold range_in_regions, end_of. destruct (checked_add64 b n) as [e|] eqn:He; [|done]. rsimpl.
  intros H%require_tt. apply checked_add64_Some in He as [-> He]. split; [done|].
  apply existsb_exists in H as (r & Hr & H). apply list_elem_of_In in Hr. exists r.
  destruct (checked_add64 r.1 r.2) as [re|] eqn:Hre; [|by rewrite andb_false_r in H].
  apply checked_add64_Some in Hre as [-> _]. breflect. done.
Qed.

Lemma u64_at_nonneg bs o z : bytes bs → u64_at bs o = Some z → 0 ≤ z.
Proof.
  unfold u64_at. intros Hb (s & Hs & ->)%fmap_Some. eapply from_le_nonneg, slice_bytes; [exact Hb|exact Hs].
Qed.

(** A segment of the plan. *)
Record segment_ok (kernel_bytes : Z) (low_ram : Z * Z) (s : KernelSegment) : Prop := {
  sg_source : 0 ≤ source_offset s ∧ source_offset s + file_length s ≤ kernel_bytes;
  sg_file : 0 < file_length s ≤ memory_length s;
  sg_high : X86_HIMEM_START ≤ guest_address s;
  sg_ram : low_ram.1 ≤ guest_address s ∧ guest_address s + memory_length s ≤ low_ram.1 + low_ram.2;
  sg_end : guest_address s + memory_length s ≤ U64_MAX;
}.

Lemma read_segment_ok header kernel_bytes low_ram s :
  bytes header → read_segment header kernel_bytes [low_ram] = Ok (Some s) →
  segment_ok kernel_bytes low_ram s.
Proof.
  intros Hb. unfold read_segment. destruct (negb _); [done|].
  destruct (u64_at header 8) as [so|] eqn:H8; [|done]. rsimpl.
  destruct (u64_at header 24) as [ga|] eqn:H24; [|done]. rsimpl.
  destruct (u64_at header 32) as [fl|] eqn:H32; [|done]. rsimpl.
  destruct (u64_at header 40) as [ml|] eqn:H40; [|done]. rsimpl.
  destruct (Z.eqb_spec fl 0); [done|]. destruct (_ || _) eqn:Hl; [done|]. breflect.
  unfold checked_source, end_of. destruct (checked_add64 so fl) as [e|] eqn:He; [|done]. rsimpl.
  apply checked_add64_Some in He as [-> He]. unfold require. destruct (_ <=? kernel_bytes) eqn:Hk; [|done].
  rsimpl. destruct (range_in_regions ga ml [low_ram]) as [u|] eqn:Hr; [|done]. rsimpl. intros [= <-].
  apply range_in_regions_Ok in Hr as (Hu & r & ->%list_elem_of_singleton & Hr1 & Hr2). breflect.
  apply u64_at_nonneg in H8, H32; [|done..]. split; cbn; lia.
Qed.

Lemma read_segments_ok usize_max prefix kernel_bytes low_ram ph ixs segs :
  bytes prefix → read_segments usize_max prefix kernel_bytes [low_ram] ph ixs = Some (Ok segs) →
  Forall (segment_ok kernel_bytes low_ram) segs.
Proof.
  intros Hb. revert segs. induction ixs as [|i ixs IH]; intros segs; cbn [read_segments].
  { by intros [= <-]. }
  rewrite t_bind_Ok. intros (offset & _ & H). rewrite t_bind_Ok in H. destruct H as (he & _ & H).
  rewrite t_bind_Ok in H. destruct H as (header & Hh & H). rewrite t_bind_Ok in H.
  destruct H as (seg & Hseg & H). rewrite t_bind_Ok in H. destruct H as (rest & Hrest & [= <-]).
  apply t_ret_Ok in Hseg. apply t_ret_Ok in Hh.
  destruct (slice prefix offset he) as [h|] eqn:Hs; [|done]. injection Hh as ->.
  destruct seg as [seg|]; [|by apply IH]. constructor; [|by apply IH].
  eapply read_segment_ok; [|exact Hseg]. by eapply slice_bytes.
Qed.

Definition segments_disjoint (s t : KernelSegment) : Prop :=
  guest_address s + memory_length s ≤ guest_address t ∨
  guest_address t + memory_length t ≤ guest_address s.

Lemma any_overlap_disjoint segs :
  any_overlap segs = false → ForallOrdPairs segments_disjoint segs.
Proof.
  induction segs as [|s segs IH]; [constructor|]. cbn. intros [H1 H2]%orb_false_iff.
  constructor; [|by apply IH]. apply Forall_forall. intros t Ht. unfold segments_disjoint.
  assert (Hm : segments_meet s t = false).
  { destruct (segments_meet s t) eqn:Hm; [|done]. exfalso.
    assert (existsb (segments_meet s) segs = true); [|congruence].
    apply existsb_exists. exists t. split; [by apply list_elem_of_In|done]. }
  unfold segments_meet in Hm. apply andb_false_iff in Hm as [Hm|Hm]; breflect; lia.
Qed.

(** *** Where the tables go *)

(** Address and room of each write, in the order of the plan. *)
Definition x86_slots : list (Z * Z) :=
  [(X86_GDT_ADDR + 8, 16); (X86_PML4_ADDR, 4096); (X86_PDPT, 4096); (directory_address 0, 4096);
   (directory_address 1, 4096); (directory_address 2, 4096); (directory_address 3, 4096);
   (X86_CMDLINE, MAX_BOOT_COMMAND_LINE_BYTES); (X86_ZERO_PAGE, 4096); (X86_MP_TABLE, 1024)].

Definition fits (w : GuestWrite) (slot : Z * Z) : Prop :=
  w_address w = slot.1 ∧ zlen (w_bytes w) ≤ slot.2.

Definition slots_apart (a b : Z * Z) : Prop := a.1 + a.2 ≤ b.1 ∨ b.1 + b.2 ≤ a.1.
Definition slots_apart_test (a b : Z * Z) : bool := (a.1 + a.2 <=? b.1) || (b.1 + b.2 <=? a.1).

Lemma x86_slots_apart i j a b :
  i ≠ j → x86_slots !! i = Some a → x86_slots !! j = Some b → slots_apart a b.
Proof.
  assert (H : forallb (λ i, forallb (λ j, (i =? j)%nat ||
    match x86_slots !! i, x86_slots !! j with Some a, Some b => slots_apart_test a b | _, _ => true end)
    (seq 0 10)) (seq 0 10) = true) by (vm_compute; reflexivity).
  intros Hij Ha Hb. pose proof (lookup_lt_Some _ _ _ Ha) as Hi. pose proof (lookup_lt_Some _ _ _ Hb) as Hj.
  rewrite forallb_forall in H. specialize (H i ltac:(apply in_seq; cbn in Hi; lia)).
  rewrite forallb_forall in H. specialize (H j ltac:(apply in_seq; cbn in Hj; lia)).
  rewrite Ha, Hb, (proj2 (Nat.eqb_neq i j) Hij) in H. unfold slots_apart_test in H. cbn [orb] in H.
  apply orb_true_iff in H as [H|H]; breflect; [by left|by right].
Qed.

Lemma write_e820_zlen page i e820 :
  0 ≤ i → i + zlen e820 ≤ 8 → zlen page = 4096 → zlen (write_e820 page i e820) = 4096.
Proof.
  revert page i. induction e820 as [|r e820 IH]; intros page i Hi Hn Hp; [done|]. cbn [write_e820].
  assert (He : zlen (e820_entry r) = 20) by (unfold e820_entry; rewrite !zlen_app, !le_bytes_zlen; lia).
  unfold zlen in Hn. cbn [length] in Hn.
  apply IH; [lia|unfold zlen; lia|]. rewrite PackedImage.splice_zlen; lia.
Qed.

(** What holds of the [MP] table of every allowed number of processors. *)
Lemma mp_table_all (P : Z → list Z → bool) vcpus table :
  forallb (λ v, match mp_table v with Ok t => P v t | Err _ => false end) (seqZ 1 32) = true →
  0 ≤ vcpus → mp_table vcpus = Ok table → 1 ≤ vcpus ≤ 32 ∧ P vcpus table = true.
Proof.
  intros H Hpos Ht. assert (Hv : 1 ≤ vcpus ≤ 32).
  { unfold mp_table in Ht. destruct (_ || _) eqn:Hv; [done|]. breflect. unfold X86_MAX_VCPUS in *. lia. }
  split; [done|]. rewrite forallb_forall in H.
  specialize (H vcpus ltac:(apply list_elem_of_In, elem_of_seqZ; lia)). by rewrite Ht in H.
Qed.

Lemma mp_table_size vcpus table : 0 ≤ vcpus → mp_table vcpus = Ok table → zlen table ≤ 1024.
Proof.
  intros Hv Ht. destruct (mp_table_all (λ _ t, zlen t <=? 1024) vcpus table) as [_ H];
    [vm_compute; reflexivity|done|done|]. by breflect.
Qed.

(** What an accepted plan was made from. *)
Record x86_parts (kernel_bytes ram_bytes vcpus : Z) (cmdline : list Z) (devices : list Device)
    (plan : Plan) (low : Z * Z) (rest : list (Z * Z)) (line table zero_page : list Z) : Prop := {
  xp_regions : x86_ram_regions ram_bytes = Ok (low :: rest);
  xp_devices : validate_x86_devices devices = Ok tt;
  xp_segments : Forall (segment_ok kernel_bytes low) (kernel_segments plan);
  xp_entry : existsb (in_segment (entry plan)) (kernel_segments plan) = true;
  xp_apart : ForallOrdPairs segments_disjoint (kernel_segments plan);
  xp_line : command_line cmdline devices = Ok line;
  xp_table : mp_table vcpus = Ok table;
  xp_zero_page : x86_zero_page (low :: rest) (zlen (line ++ [0])) = Some (Ok zero_page);
  xp_writes : writes plan = x86_page_tables ++ [mkWrite X86_CMDLINE (line ++ [0]);
                mkWrite X86_ZERO_PAGE zero_page; mkWrite X86_MP_TABLE table];
  xp_validated : validate_x86_writes (writes plan) [low] = Ok tt;
  xp_argument : boot_argument plan = X86_ZERO_PAGE;
}.

Lemma regions_nonempty ram_bytes rs : x86_ram_regions ram_bytes = Ok rs → ∃ low rest, rs = low :: rest.
Proof.
  unfold x86_ram_regions. destruct (x86_ram_layout ram_bytes) as [l|]; [|done]. cbn.
  intros [= <-]. destruct l; cbn; by eexists _, _.
Qed.

Lemma plan_x86_inv usize_max prefix kernel_bytes ram_bytes vcpus cmdline devices plan :
  bytes prefix →
  plan_x86 usize_max prefix kernel_bytes ram_bytes vcpus cmdline devices = Some (Ok plan) →
  ∃ low rest line table zero_page,
    x86_parts kernel_bytes ram_bytes vcpus cmdline devices plan low rest line table zero_page.
Proof.
  intros Hb H. unfold plan_x86 in H.
  repeat match type of H with
  | t_bind _ _ = Some (Ok _) => rewrite t_bind_Ok in H; destruct H as (? & ? & H)
  | (let _ := _ in _) = _ => cbv zeta in H
  end.
  repeat match goal with H : t_ret _ = Some (Ok _) |- _ => apply t_ret_Ok in H end.
  destruct (regions_nonempty _ _ H0) as (low & rest & ->). injection H as <-.
  repeat match goal with u : unit |- _ => destruct u end.
  match goal with H : require (negb _) _ = _ |- _ => apply require_tt, negb_true_iff in H end.
  eexists low, rest, _, _, _. split; cbn; try done.
  - by eapply read_segments_ok.
  - by eapply require_tt.
  - by apply any_overlap_disjoint.
Qed.

Lemma command_line_zlen cmdline devices line :
  command_line cmdline devices = Ok line → zlen line < MAX_BOOT_COMMAND_LINE_BYTES.
Proof. unfold command_line. destruct (_ <=? _) eqn:Hl; [done|]. intros [= <-]. by breflect. Qed.

Lemma zero_page_fields_spec count cmdline len :
  zlen (zero_page_fields count cmdline len) = 4096 ∧
  sub (zero_page_fields count cmdline len) 0x1e8 0x1e9 = [count].
Proof.
  unfold zero_page_fields. cbv zeta. assert (Hz : zlen (zeros RAM_PAGE_SIZE) = 4096) by (by apply zeros_zlen).
  assert (H1 : ∀ x : Z, zlen [x] = 1) by done.
  assert (Hlen : ∀ l a bs, zlen l = 4096 → 0 ≤ a → a + zlen bs ≤ 4096 → zlen (splice l a bs) = 4096)
    by (intros; by apply put_zlen).
  split.
  - repeat (apply Hlen; [|lia|rewrite ?le_bytes_zlen, ?H1; lia]). done.
  - repeat (rewrite (put_other _ _ _ 4096); [|repeat (apply Hlen; [|lia|rewrite ?le_bytes_zlen, ?H1; lia]); exact Hz
      |lia|rewrite ?le_bytes_zlen, ?H1; lia|lia|rewrite ?le_bytes_zlen, ?H1; lia]).
    apply (sub_splice_same (zeros RAM_PAGE_SIZE) 0x1e8 [count]); [lia|rewrite Hz, H1; lia].
Qed.
Lemma zero_page_fields_zlen count cmdline len : zlen (zero_page_fields count cmdline len) = 4096.
Proof. apply zero_page_fields_spec. Qed.

Lemma zero_page_zlen low rest n page :
  zlen rest ≤ 1 → x86_zero_page (low :: rest) n = Some (Ok page) → zlen page = 4096.
Proof.
  intros Hr. unfold x86_zero_page. rewrite t_bind_Ok. intros (len & _ & H). rewrite t_bind_Ok in H.
  destruct H as (e820 & He & H). rewrite t_bind_Ok in H. destruct H as (count & _ & H).
  rewrite t_bind_Ok in H. destruct H as (c & _ & [= <-]).
  assert (Hn : zlen e820 ≤ 3).
  { unfold e820_map in He. rewrite !t_bind_Ok in He. destruct He as (? & _ & He).
    rewrite t_bind_Ok in He. destruct He as (? & _ & He). rewrite t_bind_Ok in He.
    destruct He as (? & _ & [= <-]). unfold zlen in *. cbn [length]. lia. }
  apply write_e820_zlen; [lia|lia|]. apply zero_page_fields_zlen.
Qed.

Section Layout.
Context (kernel_bytes ram_bytes vcpus : Z) (cmdline : list Z) (devices : list Device) (plan : Plan).
Context (low : Z * Z) (rest : list (Z * Z)) (line table zero_page : list Z).
Context (X : x86_parts kernel_bytes ram_bytes vcpus cmdline devices plan low rest line table zero_page).
Context (Hvcpus : 0 ≤ vcpus).

Lemma rest_short : zlen rest ≤ 1.
Proof.
  pose proof (xp_regions _ _ _ _ _ _ _ _ _ _ _ X) as H. unfold x86_ram_regions in H.
  destruct (x86_ram_layout ram_bytes) as [l|]; [|done]. cbn in H. injection H as H.
  destruct l; cbn in H; injection H as <- <-; unfold zlen; cbn; lia.
Qed.

Lemma plan_fits : Forall2 fits (writes plan) x86_slots.
Proof.
  rewrite (xp_writes _ _ _ _ _ _ _ _ _ _ _ X). unfold x86_page_tables. cbn [fmap list_fmap seqZ app].
  pose proof (command_line_zlen _ _ _ (xp_line _ _ _ _ _ _ _ _ _ _ _ X)) as Hl.
  pose proof (mp_table_size _ _ Hvcpus (xp_table _ _ _ _ _ _ _ _ _ _ _ X)) as Ht.
  pose proof (zero_page_zlen _ _ _ _ rest_short (xp_zero_page _ _ _ _ _ _ _ _ _ _ _ X)) as Hz.
  assert (Hd : ∀ d, zlen (table_page (directory_entries d)) ≤ 4096).
  { intros d. rewrite table_page_zlen; [lia|]. unfold directory_entries, zlen.
    rewrite length_fmap, length_seqZ. unfold X86_ENTRIES_PER_TABLE. lia. }
  assert (Hp : ∀ e, zlen e ≤ 4 → zlen (table_page e) ≤ 4096) by (intros; rewrite table_page_zlen; lia).
  change (seqZ 0 4) with [0; 1; 2; 3]. cbn [fmap list_fmap app]. unfold x86_slots.
  assert (Hc : ∀ w a n ws slots, w_address w = a → zlen (w_bytes w) ≤ n → Forall2 fits ws slots →
    Forall2 fits (w :: ws) ((a, n) :: slots)) by (intros; by constructor).
  apply Hc; [reflexivity|vm_compute; discriminate|].
  apply Hc; [reflexivity|apply Hp; unfold zlen; cbn; lia|].
  apply Hc; [reflexivity|apply Hp; unfold zlen, pdpt_entries; rewrite length_fmap, length_seqZ; lia|].
  do 4 (apply Hc; [reflexivity|apply Hd|]).
  apply Hc; [reflexivity|change (zlen (line ++ [0]) ≤ MAX_BOOT_COMMAND_LINE_BYTES); rewrite zlen_app; change (zlen [0]) with 1; lia|].
  apply Hc; [reflexivity|exact (Z.eq_le_incl _ _ Hz)|].
  apply Hc; [reflexivity|exact Ht|]. constructor.
Qed.
End Layout.

(** ** The memory a plan leaves *)

Definition write_pair (w : GuestWrite) : Z * list Z := (w_address w, w_bytes w).

(** Guest memory [f] after the writes of the plan. *)
Definition loaded (f : Z → Z) (plan : Plan) : Z → Z := patches f (write_pair <$> writes plan).

Definition writes_apart (w v : GuestWrite) : Prop :=
  w_address w + zlen (w_bytes w) ≤ w_address v ∨ w_address v + zlen (w_bytes v) ≤ w_address w.

Lemma peek_patches f (ws : list GuestWrite) i w :
  (∀ j v, j ≠ i → ws !! j = Some v → writes_apart w v) → ws !! i = Some w →
  peek (patches f (write_pair <$> ws)) (w_address w) (zlen (w_bytes w)) = w_bytes w.
Proof.
  intros Hd Hw. pose proof (take_drop_middle _ _ _ Hw) as Hsplit. rewrite <-Hsplit at 1.
  rewrite fmap_app. cbn [fmap list_fmap]. rewrite <-(peek_patch_same (patches f (write_pair <$> take i ws))
    (w_address w) (w_bytes w)) at 2.
  apply peek_ext. intros x Hx. rewrite patches_app.
  change (patches ?g (?p :: ?l)) with (patches (patch g p.1 p.2) l). rewrite patches_out; [done|].
  apply Forall_fmap, Forall_forall. intros v [j Hv]%list_elem_of_lookup. rewrite lookup_drop in Hv.
  destruct (Hd (S i + j)%nat v ltac:(lia) Hv); cbn; lia.
Qed.

Definition load64 (mem : Z → Z) (a : Z) : Z := from_le (peek mem a 8).

Section Loaded.
Context (kernel_bytes ram_bytes vcpus : Z) (cmdline : list Z) (devices : list Device) (plan : Plan).
Context (low : Z * Z) (rest : list (Z * Z)) (line table zero_page : list Z).
Context (X : x86_parts kernel_bytes ram_bytes vcpus cmdline devices plan low rest line table zero_page).
Context (Hvcpus : 0 ≤ vcpus).

Lemma x86_writes_apart i j w v :
  i ≠ j → writes plan !! i = Some w → writes plan !! j = Some v → writes_apart w v.
Proof.
  intros Hij Hw Hv. pose proof (plan_fits _ _ _ _ _ _ _ _ _ _ _ X Hvcpus) as Hf.
  destruct (Forall2_lookup_l _ _ _ _ _ Hf Hw) as (a & Ha & Hwa & Hla).
  destruct (Forall2_lookup_l _ _ _ _ _ Hf Hv) as (b & Hb & Hvb & Hlb).
  pose proof (x86_slots_apart i j a b Hij Ha Hb). unfold slots_apart in *. unfold writes_apart. lia.
Qed.

Lemma loaded_write f i w :
  writes plan !! i = Some w → peek (loaded f plan) (w_address w) (zlen (w_bytes w)) = w_bytes w.
Proof.
  intros Hw. unfold loaded. eapply peek_patches; [|exact Hw]. intros j v Hj Hv.
  eapply x86_writes_apart; [|exact Hw|exact Hv]. done.
Qed.

Lemma load64_write f i w off :
  writes plan !! i = Some w → 0 ≤ off → off + 8 ≤ zlen (w_bytes w) →
  load64 (loaded f plan) (w_address w + off) = from_le (sub (w_bytes w) off (off + 8)).
Proof.
  intros Hw Ho Hl. unfold load64. f_equal. rewrite <-(loaded_write f i w Hw) at 1. unfold sub.
  rewrite Z.add_simpl_l. symmetry. apply peek_part; lia.
Qed.

(** An entry of a table page. *)
Lemma load_entry f i a entries k e :
  writes plan !! i = Some (mkWrite a (table_page entries)) → zlen entries ≤ 512 →
  entries !! k = Some e → u64 e → load64 (loaded f plan) (a + 8 * Z.of_nat k) = e.
Proof.
  intros Hw Hn Hk He. pose proof (lookup_lt_Some _ _ _ Hk) as Hlt.
  change a with (w_address (mkWrite a (table_page entries))).
  rewrite (load64_write f i _ _ Hw); cbn [w_bytes].
  - by apply table_page_entry.
  - lia.
  - rewrite table_page_zlen by done. unfold zlen in Hn. lia.
Qed.
End Loaded.

(** *** The page walk of the processor, with 4-level paging and 2 MiB pages *)

Definition present (e : Z) : bool := Z.testbit e 0.
Definition large (e : Z) : bool := Z.testbit e 7.
Definition frame (bits e : Z) : Z := (e mod 2 ^ 52) / 2 ^ bits * 2 ^ bits.

Definition translate (mem : Z → Z) (cr3 a : Z) : option Z :=
  let e4 := load64 mem (frame 12 cr3 + 8 * ((a / 2 ^ 39) mod 512)) in
  if negb (present e4) || large e4 then None else
  let e3 := load64 mem (frame 12 e4 + 8 * ((a / 2 ^ 30) mod 512)) in
  if negb (present e3) || large e3 then None else
  let e2 := load64 mem (frame 12 e3 + 8 * ((a / 2 ^ 21) mod 512)) in
  if negb (present e2) || negb (large e2) then None else
  Some (frame 21 e2 + a mod 2 ^ 21).

Lemma testbit_sum k b n m :
  0 ≤ m < n → 0 ≤ k → 0 ≤ b < 2 ^ n → Z.testbit (k * 2 ^ n + b) m = Z.testbit b m.
Proof.
  intros Hm Hk Hb. rewrite <-lor_low by lia. rewrite Z.lor_spec, Z.mul_pow2_bits_low by lia. done.
Qed.

Lemma frame_sum bits k b :
  0 ≤ bits ≤ 52 → 0 ≤ k → 0 ≤ b < 2 ^ bits → (k + 1) * 2 ^ bits ≤ 2 ^ 52 →
  frame bits (k * 2 ^ bits + b) = k * 2 ^ bits.
Proof.
  intros Hbits Hk Hb Hmax. unfold frame. rewrite Z.mod_small by nia.
  rewrite Z.div_add_l, (Z.div_small b) by lia. lia.
Qed.

Lemma pdpt_lookup d :
  0 ≤ d < 4 → pdpt_entries !! Z.to_nat d = Some ((0xb + d) * 2 ^ 12 + 3).
Proof.
  intros Hd. unfold pdpt_entries. rewrite list_lookup_fmap, lookup_seqZ_lt by lia. cbn [fmap option_fmap option_map].
  f_equal. rewrite Z2Nat.id, Z.add_0_l by lia. unfold directory_address, X86_PAGE_TABLE_ENTRY.
  replace (X86_PAGE_DIRECTORY + d * RAM_PAGE_SIZE) with ((0xb + d) * 2 ^ 12)
    by (unfold X86_PAGE_DIRECTORY, X86_RAM_BASE, RAM_PAGE_SIZE; lia).
  by apply lor_low.
Qed.

Lemma directory_lookup d k :
  0 ≤ k < 512 → directory_entries d !! Z.to_nat k = Some ((d * 512 + k) * 2 ^ 21 + 0x83).
Proof.
  intros Hk. unfold directory_entries, X86_ENTRIES_PER_TABLE.
  rewrite list_lookup_fmap, lookup_seqZ_lt by lia. cbn [fmap option_fmap option_map]. f_equal.
  rewrite Z2Nat.id, Z.add_0_l by lia. unfold X86_PAGE_2M, X86_PAGE_2M_ENTRY.
  change (2 * 1024 * 1024) with (2 ^ 21). by apply lor_low.
Qed.

Lemma directory_write plan d :
  writes plan = x86_page_tables ++ drop 7 (writes plan) → 0 ≤ d < 4 →
  writes plan !! Z.to_nat (3 + d) = Some (mkWrite (directory_address d) (table_page (directory_entries d))).
Proof.
  intros -> Hd. assert (Hc : d = 0 ∨ d = 1 ∨ d = 2 ∨ d = 3) by lia.
  destruct Hc as [->|[->|[->| ->]]]; reflexivity.
Qed.

Lemma walk_entry_sum k b n :
  12 ≤ n → 0 ≤ k → 0 ≤ b < 2 ^ 12 → present b = true →
  present (k * 2 ^ n + b) = true ∧ large (k * 2 ^ n + b) = large b.
Proof.
  intros Hn Hk Hb Hp. unfold present, large in *.
  assert (2 ^ 12 ≤ 2 ^ n) by (apply Z.pow_le_mono_r; lia). rewrite !testbit_sum by lia. done.
Qed.

Lemma identity_walk kernel_bytes ram_bytes vcpus cmdline devices plan low rest line table zero_page f a :
  x86_parts kernel_bytes ram_bytes vcpus cmdline devices plan low rest line table zero_page →
  0 ≤ vcpus → 0 ≤ a < 2 ^ 32 → translate (loaded f plan) X86_PML4_ADDR a = Some a.
Proof.
  intros X Hv Ha. pose proof (xp_writes _ _ _ _ _ _ _ _ _ _ _ X) as Hw.
  assert (Htables : writes plan = x86_page_tables ++ drop 7 (writes plan)) by (by rewrite Hw).
  pose proof (load_entry _ _ _ _ _ _ _ _ _ _ _ X Hv f) as Hload.
  set (d := a / 2 ^ 30). set (k := (a / 2 ^ 21) mod 512).
  assert (Hd : 0 ≤ d < 4)
    by (split; [apply Z.div_pos; lia|apply Z.div_lt_upper_bound; [lia|]; change (2 ^ 30 * 4) with (2 ^ 32); lia]).
  assert (Hk : 0 ≤ k < 512) by (apply Z.mod_pos_bound; lia).
  assert (He4 : load64 (loaded f plan) (frame 12 X86_PML4_ADDR + 8 * ((a / 2 ^ 39) mod 512)) = 0xa * 2 ^ 12 + 3).
  { change (frame 12 X86_PML4_ADDR) with X86_PML4_ADDR. rewrite (Z.div_small a) by lia.
    apply (Hload 1%nat _ [Z.lor X86_PDPT X86_PAGE_TABLE_ENTRY] 0%nat); [by rewrite Htables|done|done|done]. }
  assert (He3 : load64 (loaded f plan) (X86_PDPT + 8 * d) = (0xb + d) * 2 ^ 12 + 3).
  { rewrite <-(Z2Nat.id d) at 1 by lia.
    apply (Hload 2%nat _ pdpt_entries); [by rewrite Htables|done|by apply pdpt_lookup|unfold u64; lia]. }
  assert (He2 : load64 (loaded f plan) (directory_address d + 8 * k) = (d * 512 + k) * 2 ^ 21 + 0x83).
  { rewrite <-(Z2Nat.id k) at 1 by lia.
    apply (Hload (Z.to_nat (3 + d)) _ (directory_entries d)); [by apply directory_write| |by apply directory_lookup|unfold u64; lia].
    unfold zlen, directory_entries. rewrite length_fmap, length_seqZ. done. }
  unfold translate. rewrite He4.
  destruct (walk_entry_sum 0xa 3 12) as [-> ->]; [lia|lia|lia|done|]. change (large 3) with false. cbn [negb orb].
  rewrite frame_sum by lia. rewrite (Z.mod_small (a / 2 ^ 30) 512) by (fold d; lia). fold d.
  change (0xa * 2 ^ 12) with X86_PDPT. rewrite He3.
  destruct (walk_entry_sum (0xb + d) 3 12) as [-> ->]; [lia|lia|lia|done|]. change (large 3) with false. cbn [negb orb].
  rewrite frame_sum by lia. fold k.
  replace ((0xb + d) * 2 ^ 12) with (directory_address d)
    by (unfold directory_address, X86_PAGE_DIRECTORY, X86_RAM_BASE, RAM_PAGE_SIZE; lia).
  rewrite He2. destruct (walk_entry_sum (d * 512 + k) 0x83 21) as [-> ->]; [lia|lia|lia|done|].
  change (large 0x83) with true. cbn [negb orb]. rewrite frame_sum by lia. f_equal.
  assert (Hq : a / 2 ^ 21 = d * 512 + k).
  { unfold k, d. pose proof (Z.div_mod (a / 2 ^ 21) 512). rewrite Z.div_div in H by lia.
    change (2 ^ 21 * 512) with (2 ^ 30) in H. lia. }
  rewrite <-Hq. pose proof (Z.div_mod a (2 ^ 21)). lia.
Qed.

(** ** The memory map in the zero page *)

(** How the kernel reads it: a count, then entries of a base, a length and a type. *)
Definition read_e820 (page : list Z) : list (Z * Z * Z) :=
  (λ i, let at_ := 0x2d0 + i * 20 in
        (from_le (sub page at_ (at_ + 8)), from_le (sub page (at_ + 8) (at_ + 16)),
         from_le (sub page (at_ + 16) (at_ + 20))))
    <$> seqZ 0 (from_le (sub page 0x1e8 0x1e9)).

Lemma e820_entry_zlen r : zlen (e820_entry r) = 20.
Proof. unfold e820_entry. rewrite !zlen_app, !le_bytes_zlen. lia. Qed.

Lemma write_e820_other page i e820 c d :
  0 ≤ i → i + zlen e820 ≤ 8 → zlen page = 4096 → 0 ≤ c → d ≤ 0x2d0 + i * 20 →
  sub (write_e820 page i e820) c d = sub page c d.
Proof.
  revert page i. induction e820 as [|r e820 IH]; intros page i Hi Hn Hp Hc Hd; [done|]. cbn [write_e820].
  pose proof (e820_entry_zlen r). unfold zlen in Hn. cbn [length] in Hn.
  rewrite IH; [|lia|unfold zlen; lia|apply put_zlen; lia|lia|lia]. apply sub_splice_other; lia.
Qed.

Lemma write_e820_entry page i e820 j r :
  0 ≤ i → i + zlen e820 ≤ 8 → zlen page = 4096 → e820 !! j = Some r →
  sub (write_e820 page i e820) (0x2d0 + (i + Z.of_nat j) * 20) (0x2d0 + (i + Z.of_nat j) * 20 + 20) =
  e820_entry r.
Proof.
  revert page i j. induction e820 as [|x e820 IH]; intros page i j Hi Hn Hp Hj; [done|]. cbn [write_e820].
  pose proof (e820_entry_zlen x). unfold zlen in Hn. cbn [length] in Hn. destruct j as [|j].
  - cbn in Hj. injection Hj as ->. rewrite Z.add_0_r, write_e820_other;
      [|lia|unfold zlen; lia|apply put_zlen; lia|lia|lia].
    pose proof (sub_splice_same page (0x2d0 + i * 20) (e820_entry r)) as Hs.
    rewrite e820_entry_zlen in Hs. apply Hs; lia.
  - replace (i + Z.of_nat (S j)) with (i + 1 + Z.of_nat j) by lia.
    apply IH; [lia|unfold zlen; lia|apply put_zlen; lia|done].
Qed.

Lemma e820_entry_fields r :
  u64 r.1 → u64 r.2 →
  from_le (sub (e820_entry r) 0 8) = r.1 ∧ from_le (sub (e820_entry r) 8 16) = r.2 ∧
  from_le (sub (e820_entry r) 16 20) = 1.
Proof.
  intros H1 H2. change (sub (e820_entry r) 0 8) with (le_bytes 8 r.1).
  change (sub (e820_entry r) 8 16) with (le_bytes 8 r.2). change (sub (e820_entry r) 16 20) with (le_bytes 4 1).
  rewrite !from_le_le_bytes; [done|..]; change (256 ^ Z.of_nat 8) with 18446744073709551616;
    change (256 ^ Z.of_nat 4) with 4294967296; unfold u64 in *; lia.
Qed.

Lemma zero_page_map regions n page :
  zlen regions ≤ 2 → x86_zero_page regions n = Some (Ok page) →
  ∃ e820, e820_map regions = Some (Ok e820) ∧
    (Forall (λ r, u64 r.1 ∧ u64 r.2) e820 → read_e820 page = (λ r, (r.1, r.2, 1)) <$> e820).
Proof.
  intros Hr. unfold x86_zero_page. rewrite t_bind_Ok. intros (len & _ & H). rewrite t_bind_Ok in H.
  destruct H as (e820 & He & H). rewrite t_bind_Ok in H. destruct H as (count & Hcount & H).
  rewrite t_bind_Ok in H. destruct H as (c & _ & [= <-]). exists e820. split; [done|]. intros Hu.
  assert (Hce : count = zlen e820).
  { clear -Hcount. apply t_ret_Ok in Hcount. destruct (zlen e820 <=? 255); [congruence|discriminate]. }
  assert (Hn : zlen e820 ≤ 3).
  { unfold e820_map in He. destruct regions as [|low rest]; [done|]. rewrite !t_bind_Ok in He.
    destruct He as (? & _ & He). rewrite t_bind_Ok in He. destruct He as (? & _ & He).
    rewrite t_bind_Ok in He. destruct He as (? & _ & [= <-]). unfold zlen in *. cbn [length] in *. lia. }
  pose proof (zero_page_fields_zlen count c len) as Hpage.
  set (page := zero_page_fields count c len) in *.
  assert (Hc : from_le (sub (write_e820 page 0 e820) 0x1e8 0x1e9) = zlen e820).
  { rewrite write_e820_other by lia. unfold page. rewrite (proj2 (zero_page_fields_spec _ _ _)).
    rewrite Hce. cbn [from_le]. lia. }
  unfold read_e820. rewrite Hc. apply list_eq. intros j. rewrite !list_lookup_fmap.
  destruct (e820 !! j) as [r|] eqn:Hj.
  - pose proof (lookup_lt_Some _ _ _ Hj). rewrite lookup_seqZ_lt by (unfold zlen; lia). cbn [fmap option_fmap option_map].
    f_equal. rewrite Forall_forall in Hu. destruct (Hu r) as [Hu1 Hu2]; [by eapply list_elem_of_lookup_2|].
    destruct (e820_entry_fields r Hu1 Hu2) as (F1 & F2 & F3).
    pose proof (write_e820_entry page 0 e820 j r ltac:(lia) ltac:(lia) Hpage Hj) as He8.
    rewrite Z.add_0_l in He8 |- *. rewrite <-He8 in F1, F2, F3. rewrite PackedImage.sub_sub in F1, F2, F3 by lia.
    rewrite Z.add_0_r in F1. by rewrite F1, F2, F3.
  - rewrite lookup_seqZ_ge; [done|]. apply lookup_ge_None in Hj. unfold zlen. lia.
Qed.

(** ** An x86 machine starts from its plan *)

Definition in_ram (l : RamLayout) (a n : Z) : Prop :=
  Exists (λ r, rr_base r ≤ a ∧ a + n ≤ region_end r) (regions l).

(** *** The [MP] table as the kernel checks it *)

(** The types of the entries: a processor has 20 bytes, everything else 8. *)
Fixpoint mp_entries (fuel : nat) (bs : list Z) : option (list Z) :=
  match fuel, bs with
  | _, [] => Some []
  | O, _ => None
  | S fuel, kind :: _ =>
      let size := if kind =? 0 then 20%nat else 8%nat in
      if (length bs <? size)%nat then None else
      cons kind <$> mp_entries fuel (drop size bs)
  end.

Definition mp_valid (vcpus : Z) (table : list Z) : bool :=
  let floating := take 16 table in
  let config := drop 16 table in
  bool_decide (take 4 floating = lit "_MP_") && (from_le (sub floating 4 8) =? X86_MP_TABLE + 16)
  && (sumZ floating mod 256 =? 0)
  && bool_decide (take 4 config = lit "PCMP") && (from_le (sub config 4 6) =? zlen config)
  && (sumZ config mod 256 =? 0)
  && match mp_entries (length config) (drop 44 config) with
     | Some kinds => (from_le (sub config 34 36) =? zlen kinds)
                     && (zlen (filter (λ k, k = 0) kinds) =? vcpus)
     | None => false
     end.

Lemma mp_table_valid vcpus table : 0 ≤ vcpus → mp_table vcpus = Ok table → mp_valid vcpus table = true.
Proof.
  intros Hv Ht. destruct (mp_table_all mp_valid vcpus table) as [_ H]; [vm_compute; reflexivity|done|done|done].
Qed.

(** *** The regions behind the plan *)

Lemma x86_parts_layout kernel_bytes ram_bytes vcpus cmdline devices plan low rest line table zero_page :
  x86_parts kernel_bytes ram_bytes vcpus cmdline devices plan low rest line table zero_page →
  ∃ l, x86_ram_layout ram_bytes = Some l ∧ low :: rest = (λ r, (rr_base r, rr_size r)) <$> regions l ∧
    ∀ a n, low.1 ≤ a → a + n ≤ low.1 + low.2 → in_ram l a n.
Proof.
  intros X. pose proof (xp_regions _ _ _ _ _ _ _ _ _ _ _ X) as H. unfold x86_ram_regions in H.
  destruct (x86_ram_layout ram_bytes) as [l|]; [|done]. exists l. cbn in H. injection H as H.
  split_and!; [done|done|]. intros a n Ha Hn. unfold in_ram, region_end.
  destruct l; cbn in *; injection H as <- <-; cbn in *; by left.
Qed.

Lemma validated_writes ws low :
  validate_x86_writes ws [low] = Ok tt →
  Forall (λ w, low.1 ≤ w_address w ∧ w_address w + zlen (w_bytes w) ≤ low.1 + low.2) ws.
Proof.
  unfold validate_x86_writes. destruct (existsb _ ws) eqn:He; [done|]. intros _.
  apply Forall_forall. intros w Hw.
  destruct (range_in_regions (w_address w) (zlen (w_bytes w)) [low]) as [u|] eqn:Hr.
  - apply range_in_regions_Ok in Hr as (_ & r & ->%list_elem_of_singleton & ?). done.
  - exfalso. assert (Ht : existsb (λ w, negb (is_ok (range_in_regions (w_address w) (zlen (w_bytes w)) [low]))) ws = true);
      [|congruence]. apply existsb_exists. exists w. split; [by apply list_elem_of_In|]. by rewrite Hr.
Qed.

Record x86_plan_ok (kernel_bytes ram_bytes : Z) (plan : Plan) (l : RamLayout) : Prop := {
  (** The kernel starts inside one of its segments. *)
  bp_entry : ∃ s, s ∈ kernel_segments plan ∧ guest_address s ≤ entry plan < guest_address s + memory_length s;
  (** The segments come from the image and lie apart, in RAM above 1 MiB. *)
  bp_segments : Forall (λ s, 0 ≤ source_offset s ∧ source_offset s + file_length s ≤ kernel_bytes ∧
    0 < file_length s ≤ memory_length s ∧ X86_HIMEM_START ≤ guest_address s ∧
    in_ram l (guest_address s) (memory_length s)) (kernel_segments plan);
  bp_segments_apart : ForallOrdPairs segments_disjoint (kernel_segments plan);
  (** The tables lie apart, in RAM below 1 MiB, so also apart from the kernel. *)
  bp_writes : Forall (λ w, in_ram l (w_address w) (zlen (w_bytes w)) ∧
    w_address w + zlen (w_bytes w) ≤ X86_HIMEM_START) (writes plan);
  bp_writes_apart : ∀ i j w v, i ≠ j → writes plan !! i = Some w → writes plan !! j = Some v →
    writes_apart w v;
}.

Lemma x86_parts_ok kernel_bytes ram_bytes vcpus cmdline devices plan low rest line table zero_page :
  x86_parts kernel_bytes ram_bytes vcpus cmdline devices plan low rest line table zero_page → 0 ≤ vcpus →
  ∃ l, x86_ram_layout ram_bytes = Some l ∧ x86_plan_ok kernel_bytes ram_bytes plan l.
Proof.
  intros X Hv. destruct (x86_parts_layout _ _ _ _ _ _ _ _ _ _ _ X) as (l & Hl & _ & Hram).
  exists l. split; [done|]. split.
  - pose proof (xp_entry _ _ _ _ _ _ _ _ _ _ _ X) as He. apply existsb_exists in He as (s & Hs & He).
    exists s. split; [by apply list_elem_of_In|]. unfold in_segment, end_of in He.
    destruct (checked_add64 _ _) as [e|] eqn:Ha; [|done]. apply checked_add64_Some in Ha as [-> _].
    cbn in He. breflect. lia.
  - eapply Forall_impl; [exact (xp_segments _ _ _ _ _ _ _ _ _ _ _ X)|]. intros s [].
    split_and!; try tauto; try lia. apply Hram; lia.
  - apply X.
  - pose proof (validated_writes _ _ (xp_validated _ _ _ _ _ _ _ _ _ _ _ X)) as Hw.
    pose proof (plan_fits _ _ _ _ _ _ _ _ _ _ _ X Hv) as Hf.
    apply Forall_lookup. intros i w Hi. rewrite Forall_lookup in Hw. destruct (Hw i w Hi). split; [by apply Hram|].
    destruct (Forall2_lookup_l _ _ _ _ _ Hf Hi) as (slot & Hslot & Ha & Hn).
    assert (Hs : forallb (λ s, s.1 + s.2 <=? X86_HIMEM_START) x86_slots = true) by (vm_compute; reflexivity).
    rewrite forallb_forall in Hs. specialize (Hs slot ltac:(apply list_elem_of_In; by eapply list_elem_of_lookup_2)).
    breflect. lia.
  - intros i j w v. by eapply x86_writes_apart.
Qed.

(** The map lists exactly the RAM outside the hole below 1 MiB. *)
Definition usable (map : list (Z * Z * Z)) (x : Z) : Prop :=
  Exists (λ e, e.2 = 1 ∧ e.1.1 ≤ x < e.1.1 + e.1.2) map.

Definition x86_ram_usable (l : RamLayout) (x : Z) : Prop :=
  in_ram l x 1 ∧ ¬ (X86_MP_TABLE ≤ x < X86_HIMEM_START).

Lemma e820_usable l e820 :
  (∀ r, r ∈ regions l → 0 < rr_size r ∧ 0 ≤ rr_base r ∧ region_end r ≤ U64_MAX) →
  match l with One r => rr_base r = 0 | Two r r' => rr_base r = 0 ∧ X86_HIMEM_START ≤ rr_base r' end →
  e820_map ((λ r, (rr_base r, rr_size r)) <$> regions l) = Some (Ok e820) →
  Forall (λ r, u64 r.1 ∧ u64 r.2) e820 ∧
  ∀ x, usable ((λ r, (r.1, r.2, 1)) <$> e820) x ↔ x86_ram_usable l x.
Proof.
  intros Hr Hbase He. unfold e820_map in He.
  destruct (regions l) as [|r rest] eqn:Hreg; [by destruct l|]. cbn [fmap list_fmap] in He.
  rewrite t_bind_Ok in He. destruct He as (le & Hle & He). rewrite t_bind_Ok in He.
  destruct He as (below & Hbelow & He). rewrite t_bind_Ok in He. destruct He as (above & Habove & [= <-]).
  assert (Hr0 : rr_base r = 0) by (destruct l; cbn in Hreg; injection Hreg as <- <-; tauto).
  apply t_ret_Ok in Hle. unfold end_of in Hle. cbn [fst snd] in *.
  destruct (checked_add64 _ _) as [e|] eqn:Hadd; [|done]. injection Hle as <-.
  apply checked_add64_Some in Hadd as [-> Hadd].
  destruct (checked_sub X86_MP_TABLE _) as [b|] eqn:Hb; [|done]. injection Hbelow as <-.
  apply checked_sub_Some in Hb as [-> Hb].
  destruct (checked_sub _ X86_HIMEM_START) as [c|] eqn:Hc; [|done]. injection Habove as <-.
  apply checked_sub_Some in Hc as [-> Hc].
  pose proof (Hr r ltac:(by left)) as (Hr1 & Hr2 & Hr3). unfold region_end in *. rewrite Hr0 in *.
  assert (Hmp : X86_MP_TABLE < X86_HIMEM_START) by done.
  assert (0 < X86_MP_TABLE) by done. assert (0 < X86_HIMEM_START) by done.
  assert (Hrest : Forall (λ r', X86_HIMEM_START ≤ rr_base r' ∧ 0 < rr_size r' ∧ rr_base r' + rr_size r' ≤ U64_MAX) rest).
  { destruct l as [a|a a']; cbn in Hreg; injection Hreg as <- <-; repeat constructor; try tauto;
      destruct (Hr a' ltac:(right; by left)); tauto. }
  split.
  - constructor; [cbn; unfold_ints; lia|]. constructor; [cbn; unfold_ints; lia|].
    apply Forall_fmap. eapply Forall_impl; [exact Hrest|]. cbn. unfold_ints. lia.
  - intros x. unfold usable, x86_ram_usable, in_ram. rewrite Hreg. cbn [fmap list_fmap]. rewrite !Exists_cons.
    assert (Hx : Exists (λ e, e.2 = 1 ∧ e.1.1 ≤ x < e.1.1 + e.1.2)
        ((λ r, (r.1, r.2, 1)) <$> ((λ r, (rr_base r, rr_size r)) <$> rest)) ↔
      Exists (λ r, rr_base r ≤ x ∧ x + 1 ≤ region_end r) rest ∧ X86_HIMEM_START ≤ x).
    { clear -Hrest. induction Hrest as [|r' rest (H1 & H2 & H3) _ IH];
        [rewrite !Exists_nil; tauto|]. cbn [fmap list_fmap]. rewrite !Exists_cons, IH. unfold region_end. cbn.
      intuition lia. }
    rewrite Hx. unfold region_end. cbn [fst snd]. rewrite Hr0.
    assert (Hhi : Exists (λ r, rr_base r ≤ x ∧ x + 1 ≤ rr_base r + rr_size r) rest → X86_HIMEM_START ≤ x).
    { clear -Hrest. induction Hrest as [|r' rest (H1 & H2 & H3) _ IH]; [by intros ?%Exists_nil|].
      rewrite Exists_cons. intros [?|?]; [lia|by apply IH]. }
    intuition lia.
Qed.

Lemma layout_bases ram_bytes l :
  u64 ram_bytes → x86_ram_layout ram_bytes = Some l →
  (∀ r, r ∈ regions l → 0 < rr_size r ∧ 0 ≤ rr_base r ∧ region_end r ≤ U64_MAX) ∧
  match l with One r => rr_base r = 0 | Two r r' => rr_base r = 0 ∧ X86_HIMEM_START ≤ rr_base r' end.
Proof.
  intros Hu Hl. pose proof (x86_ram_layout_ok _ _ Hu Hl) as [_ Hr _ _].
  assert (Hb : match l with One r => rr_base r = 0 | Two r r' => rr_base r = 0 ∧ rr_base r' = X86_HIGH_RAM_BASE end).
  { unfold x86_ram_layout in Hl. destruct (_ || _); [done|]. destruct (_ - _ =? 0); [by injection Hl as <-|].
    destruct (checked_add64 _ _); [|done]. by injection Hl as <-. }
  split.
  - intros r Hin. destruct (Hr r Hin) as (? & _ & _ & ?). split_and!; [done| |done].
    destruct l; cbn in Hin; [apply list_elem_of_singleton in Hin as ->|
      apply elem_of_cons in Hin as [->|Hin]; [|apply list_elem_of_singleton in Hin as ->]];
      unfold X86_HIGH_RAM_BASE in Hb; lia.
  - destruct l; [done|]. destruct Hb as [? ->]. split; [done|]. by vm_compute.
Qed.

(** The plan of an x86 machine is safe to load: every kernel segment comes
    from inside the image and lands in RAM above 1 MiB, apart from the others;
    the tables land in RAM below 1 MiB, apart from each other and so from the
    kernel; and the entry point is inside a segment. *)
Theorem x86_plan_layout usize_max prefix kernel_bytes ram_bytes vcpus cmdline devices plan :
  bytes prefix → 0 ≤ vcpus →
  plan_x86 usize_max prefix kernel_bytes ram_bytes vcpus cmdline devices = Some (Ok plan) →
  ∃ l, x86_ram_layout ram_bytes = Some l ∧ x86_plan_ok kernel_bytes ram_bytes plan l.
Proof.
  intros Hb Hv Hp. destruct (plan_x86_inv _ _ _ _ _ _ _ _ Hb Hp) as (? & ? & ? & ? & ? & X).
  by eapply x86_parts_ok.
Qed.

(** What the processor and the kernel find in memory after the writes of the
    plan, whatever was there before: the page walk from the table root is the
    identity on the first 4 GiB; the memory map of the zero page, read as the
    boot protocol says, lists exactly the RAM of the machine outside the hole
    below 1 MiB; and the [MP] table has its signatures, lengths and checksums
    and one processor entry per virtual processor. *)
Lemma x86_boot_memory usize_max prefix kernel_bytes ram_bytes vcpus cmdline devices plan f :
  u64 ram_bytes → bytes prefix → 0 ≤ vcpus →
  plan_x86 usize_max prefix kernel_bytes ram_bytes vcpus cmdline devices = Some (Ok plan) →
  (∀ a, 0 ≤ a < 2 ^ 32 → translate (loaded f plan) X86_PML4_ADDR a = Some a) ∧
  (∃ l, x86_ram_layout ram_bytes = Some l ∧
    ∀ x, usable (read_e820 (peek (loaded f plan) (boot_argument plan) 4096)) x ↔ x86_ram_usable l x) ∧
  (∃ n, mp_valid vcpus (peek (loaded f plan) X86_MP_TABLE n) = true).
Proof.
  intros Hu Hb Hv Hp. destruct (plan_x86_inv _ _ _ _ _ _ _ _ Hb Hp) as (low & rest & line & table & page & X).
  pose proof (xp_writes _ _ _ _ _ _ _ _ _ _ _ X) as Hw.
  pose proof (loaded_write _ _ _ _ _ _ _ _ _ _ _ X Hv f) as Hload. split_and!.
  - intros a Ha. by eapply identity_walk.
  - destruct (x86_parts_layout _ _ _ _ _ _ _ _ _ _ _ X) as (l & Hl & Hlow & _). exists l. split; [done|].
    pose proof (xp_zero_page _ _ _ _ _ _ _ _ _ _ _ X) as Hz.
    pose proof (rest_short _ _ _ _ _ _ _ _ _ _ _ X) as Hrest.
    pose proof (zero_page_zlen _ _ _ _ Hrest Hz) as Hzl.
    assert (Hshort : zlen (low :: rest) ≤ 2) by (unfold zlen in *; cbn [length]; lia).
    destruct (zero_page_map _ _ _ Hshort Hz) as (e820 & He & Hread).
    destruct (layout_bases _ _ Hu Hl) as [Hr Hbase]. rewrite Hlow in He.
    destruct (e820_usable l e820 Hr Hbase He) as [Hu64 Huse].
    assert (Hpeek : peek (loaded f plan) (boot_argument plan) 4096 = page).
    { rewrite (xp_argument _ _ _ _ _ _ _ _ _ _ _ X), <-Hzl.
      apply (Hload 8%nat (mkWrite X86_ZERO_PAGE page)). by rewrite Hw. }
    by rewrite Hpeek, (Hread Hu64).
  - pose proof (Hload 9%nat (mkWrite X86_MP_TABLE table) ltac:(by rewrite Hw)) as Hm.
    cbn [w_address w_bytes] in Hm. exists (zlen table). rewrite Hm.
    apply mp_table_valid; [done|]. apply X.
Qed.

(** *** The tables are bytes *)

Lemma splice_bytes l a bs : bytes l → bytes bs → bytes (splice l a bs).
Proof.
  intros. unfold splice. apply Forall_app. split; [by apply Forall_take|].
  apply Forall_app. split; [done|by apply Forall_drop].
Qed.

Lemma zeros_bytes n : bytes (zeros n).
Proof. apply Forall_replicate. unfold_ints. lia. Qed.

Lemma write_e820_bytes e820 : ∀ page i, bytes page → bytes (write_e820 page i e820).
Proof.
  induction e820 as [|r e820 IH]; intros page i Hp; [done|]. cbn [write_e820]. apply IH, splice_bytes; [done|].
  unfold e820_entry, bytes. rewrite !Forall_app. split_and!; apply le_bytes_bytes.
Qed.

Lemma zero_page_bytes regions n page : x86_zero_page regions n = Some (Ok page) → bytes page.
Proof.
  unfold x86_zero_page. rewrite t_bind_Ok. intros (len & _ & H). rewrite t_bind_Ok in H.
  destruct H as (e820 & He & H). rewrite t_bind_Ok in H. destruct H as (count & Hcount & H).
  rewrite t_bind_Ok in H. destruct H as (c & _ & [= <-]). apply write_e820_bytes.
  assert (u8 count).
  { clear -Hcount. apply t_ret_Ok in Hcount. pose proof (zlen_nonneg e820).
    destruct (Z.leb_spec (zlen e820) 255); [|done]. injection Hcount as <-. unfold_ints. lia. }
  unfold zero_page_fields. repeat apply splice_bytes; auto using le_bytes_bytes, zeros_bytes;
    repeat constructor; unfold_ints; lia.
Qed.

Lemma split_words_bytes s : ∀ word, bytes s → bytes word → Forall bytes (split_words s word).
Proof.
  assert (Hflush : ∀ word rest, bytes word → Forall bytes rest →
    Forall bytes (match word with [] => rest | _ => rev word :: rest end)).
  { intros word rest Hw Hr. destruct word; [done|]. constructor; [|done]. by apply Forall_rev. }
  induction s as [|c s IH]; intros word Hs Hw; cbn [split_words]; [by apply Hflush|].
  apply Forall_cons in Hs as [Hc Hs]. destruct (is_ascii_whitespace c).
  - apply Hflush; [done|]. apply IH; [done|constructor].
  - apply IH; [done|]. by constructor.
Qed.

Lemma join_bytes c ls : u8 c → Forall bytes ls → bytes (join c ls).
Proof.
  intros Hc. induction 1 as [|l ls Hl Hls IH]; [constructor|]. cbn [join]. destruct ls; [done|].
  apply Forall_app. split; [done|]. by constructor.
Qed.

Lemma digits_bytes radix fuel z : 2 ≤ radix ≤ 16 → 0 ≤ z → bytes (digit_char <$> digits radix fuel z).
Proof.
  intros Hr. assert (Hd : ∀ d, 0 ≤ d < radix → u8 (digit_char d)).
  { intros d Hd. unfold digit_char. destruct (d <? 10); unfold_ints; lia. }
  revert z. induction fuel as [|fuel IH]; intros z Hz; cbn [digits]; [constructor|].
  destruct (Z.ltb_spec z radix); [constructor; [by apply Hd|constructor]|].
  rewrite fmap_app. apply Forall_app. split; [apply IH, Z.div_pos; lia|].
  constructor; [|constructor]. apply Hd, Z.mod_pos_bound. lia.
Qed.

Lemma lit_bytes s : bytes (lit s).
Proof.
  induction s as [|c s IH]; [constructor|]. cbn [lit]. constructor; [|done].
  pose proof (Ascii.nat_ascii_bounded c). unfold_ints. lia.
Qed.

Definition typed_device (d : Device) : Prop := u64 (mmio_base d) ∧ u32 (irq d).

Lemma command_line_bytes cmdline devices line :
  bytes cmdline → Forall typed_device devices → command_line cmdline devices = Ok line → bytes line.
Proof.
  intros Hc Hd Hl. unfold command_line in Hl. destruct (_ <=? _); [done|].
  assert (Hx : ∀ a b : list Z, Ok (E := Error) a = Ok b → bytes a → bytes b) by congruence.
  apply (Hx _ _ Hl). clear Hl Hx. apply Forall_app. split.
  - apply join_bytes; [unfold_ints; lia|]. apply split_words_bytes; [|constructor]. apply Forall_app.
    split; [done|apply lit_bytes].
  - apply list.Forall_join, Forall_fmap. eapply Forall_impl; [exact Hd|]. intros d [[? _] [? _]].
    unfold compose, device_argument, hex_prefixed, decimal, bytes. rewrite !Forall_app.
    split_and!; try apply lit_bytes; apply digits_bytes; lia || done.
Qed.

Lemma x86_writes_bytes kernel_bytes ram_bytes vcpus cmdline devices plan low rest line table zero_page :
  x86_parts kernel_bytes ram_bytes vcpus cmdline devices plan low rest line table zero_page →
  0 ≤ vcpus → bytes cmdline → Forall typed_device devices →
  Forall (λ w, u64 (w_address w) ∧ bytes (w_bytes w)) (writes plan).
Proof.
  intros X Hv Hc Hd. rewrite (xp_writes _ _ _ _ _ _ _ _ _ _ _ X). apply Forall_app. split.
  { apply (bool_decide_unpack _). vm_compute. exact I. }
  constructor; [|constructor; [|constructor; [|constructor]]]; cbn [w_address w_bytes].
  - split; [by vm_compute|]. apply Forall_app. split; [|constructor; [by vm_compute|constructor]].
    eapply command_line_bytes; [exact Hc|exact Hd|apply X].
  - split; [by vm_compute|]. eapply zero_page_bytes, X.
  - split; [by vm_compute|]. pose proof (xp_table _ _ _ _ _ _ _ _ _ _ _ X) as Ht.
    destruct (mp_table_all (λ _ t, bool_decide (bytes t)) vcpus table) as [_ H]; [vm_compute; reflexivity|done|done|].
    by apply bool_decide_eq_true in H.
Qed.

(** ** The planner does not trap *)

Lemma slice_within {A} (l : list A) a b : is_Some (slice l a b) ↔ a ≤ b ≤ zlen l.
Proof.
  unfold slice. split.
  - intros [s H]. destruct (_ && _) eqn:E; [|done]. breflect. lia.
  - intros [H1 H2]. rewrite (proj2 (Z.leb_le a b)), (proj2 (Z.leb_le b _)) by lia. by eexists.
Qed.

(** A header is only looked at when the one before it lies in the prefix. *)
Lemma read_segments_total usize_max prefix kernel_bytes low_ram ph n : ∀ start,
  0 ≤ ph → 0 ≤ start → (start + Z.of_nat n) * 56 ≤ usize_max → zlen prefix + 56 ≤ usize_max →
  (n ≠ 0%nat → ph + start * 56 + 56 ≤ usize_max) →
  read_segments usize_max prefix kernel_bytes low_ram ph (seqZ start (Z.of_nat n)) ≠ None.
Proof.
  induction n as [|n IH]; intros start Hph Hst Hmul Hlen Hfit; [done|].
  specialize (Hfit ltac:(done)). rewrite seqZ_cons by lia. cbn [read_segments].
  unfold checked_usize. rewrite (proj2 (Z.leb_le (start * 56) _)) by lia. rsimpl.
  rewrite (proj2 (Z.leb_le (ph + start * 56) _)) by lia. cbn [ok_or t_bind t_ret].
  rewrite (proj2 (Z.leb_le (ph + start * 56 + 56) _)) by lia. cbn [option_map t_bind].
  destruct (slice prefix _ _) as [h|] eqn:Hs; [|done]. cbn [ok_or t_bind t_ret].
  pose proof (proj1 (slice_within prefix _ _) ltac:(by eexists)) as Hin.
  destruct (read_segment h kernel_bytes low_ram) as [seg|]; [|done]. cbn [t_bind t_ret].
  replace (Z.pred (Z.of_nat (S n))) with (Z.of_nat n) by lia.
  specialize (IH (Z.succ start) ltac:(lia) ltac:(lia) ltac:(lia) ltac:(lia) ltac:(lia)).
  by destruct (read_segments _ _ _ _ _ _) as [[]|].
Qed.

(** The first header is looked at in any case. *)
Lemma read_segments_trap usize_max prefix kernel_bytes low_ram ph n :
  0 ≤ ph ≤ usize_max → usize_max < ph + 56 → 0 < n →
  read_segments usize_max prefix kernel_bytes low_ram ph (seqZ 0 n) = None.
Proof.
  intros Hph Hend Hn. rewrite seqZ_cons by lia. cbn [read_segments]. unfold checked_usize.
  rewrite (proj2 (Z.leb_le (0 * 56) _)) by lia. rsimpl. rewrite Z.add_0_r, (proj2 (Z.leb_le ph _)) by lia.
  cbn [ok_or t_bind t_ret]. by rewrite (proj2 (Z.leb_gt (ph + 56) _)) by lia.
Qed.

Lemma zero_page_total kernel_bytes low rest segs entry n :
  low.1 = 0 → Forall (segment_ok kernel_bytes low) segs → existsb (in_segment entry) segs = true →
  x86_zero_page (low :: rest) n ≠ None.
Proof.
  intros H0 Hs He. apply existsb_exists in He as (s & Hin & _). apply list_elem_of_In in Hin.
  rewrite Forall_forall in Hs. destruct (Hs s Hin) as [_ Hf Hh Hr Hend].
  assert (Hmap : e820_map (low :: rest) ≠ None).
  { cbn [e820_map]. unfold end_of, checked_add64, checked_sub. rewrite H0.
    destruct (_ <=? U64_MAX); [|done]. cbn [ok_or t_ret t_bind].
    rewrite (proj2 (Z.leb_le 0 X86_MP_TABLE)) by done. cbn [option_map t_bind].
    by rewrite (proj2 (Z.leb_le _ _)) by lia. }
  unfold x86_zero_page. destruct (n <=? U32_MAX); [|done]. cbn [t_ret t_bind].
  destruct (e820_map (low :: rest)) as [[e820|]|]; [|done|done]. cbn [t_bind].
  by destruct (zlen e820 <=? 255).
Qed.

(** A kernel that passes every check before its program headers, has at least one of them,
    and says that the first begins less than 56 bytes before the end of the address space. *)
Definition header_crosses (usize_max : Z) (prefix : list Z) (kernel_bytes ram_bytes : Z) (devices : list Device) : Prop :=
  (∃ rs, x86_ram_regions ram_bytes = Ok rs) ∧ validate_kernel_prefix prefix kernel_bytes = Ok tt
  ∧ validate_x86_devices devices = Ok tt ∧ is_elf64 prefix = true ∧ u16_at prefix 18 = Some 62
  ∧ ∃ ph count, u64_at prefix 32 = Some ph ∧ u16_at prefix 56 = Some count ∧ 0 < count ∧ ph ≤ usize_max < ph + 56.

Lemma u16_at_bound prefix i n : 0 ≤ i → bytes prefix → u16_at prefix i = Some n → 0 ≤ n < 65536.
Proof.
  intros Hi Hb H. unfold u16_at in H. apply fmap_Some in H as (b & Hs & ->).
  pose proof (from_le_bound b (slice_bytes _ _ _ _ Hb Hs)) as Hbd.
  rewrite (slice_length prefix i (i + 2) b) in Hbd by done. replace (i + 2 - i) with 2 in Hbd by lia. exact Hbd.
Qed.

Lemma validate_prefix_bound prefix kernel_bytes :
  validate_kernel_prefix prefix kernel_bytes = Ok tt → zlen prefix ≤ MAX_BOOT_KERNEL_PREFIX_BYTES.
Proof. unfold validate_kernel_prefix. destruct (_ || _) eqn:E; [done|]. intros _. breflect. lia. Qed.

Lemma regions_low ram_bytes low rest : x86_ram_regions ram_bytes = Ok (low :: rest) → low.1 = 0.
Proof.
  unfold x86_ram_regions. destruct (x86_ram_layout ram_bytes) as [l|] eqn:Hl; [|done]. cbn. intros Hrs.
  unfold x86_ram_layout in Hl. destruct (_ || _); [done|]. destruct (_ - _ =? 0).
  - injection Hl as <-. by injection Hrs as <- <-.
  - destruct (checked_add64 _ _); [|done]. injection Hl as <-. by injection Hrs as <- <-.
Qed.

(** What follows the program headers does not trap. *)
Lemma after_segments_total usize_max prefix kernel_bytes ram_bytes rs ph ixs segs en cmdline devices :
  bytes prefix → x86_ram_regions ram_bytes = Ok rs →
  read_segments usize_max prefix kernel_bytes (take 1 rs) ph ixs = Some (Ok segs) →
  existsb (in_segment en) segs = true →
  match command_line cmdline devices with
  | Ok line => x86_zero_page rs (zlen (line ++ [0])) ≠ None
  | Err _ => True
  end.
Proof.
  intros Hb Hrs Hsegs Hen. destruct (command_line _ _) as [line|]; [|done].
  destruct (regions_nonempty _ _ Hrs) as (low & rest & ->). cbn [take] in *.
  apply (zero_page_total kernel_bytes low rest segs en); [by eapply regions_low|by eapply read_segments_ok|done].
Qed.

(** C39. The x86 planner answers for every kernel, RAM size, number of processors, command
    line and device list, with a plan or an error, and traps in exactly one case: when a
    kernel that passed the checks before has a program header and says that the first one
    begins less than 56 bytes before the end of the address space. In particular neither a
    later header nor a subtraction of the memory map traps. *)
Theorem plan_x86_total usize_max prefix kernel_bytes ram_bytes vcpus cmdline devices :
  bytes prefix → U32_MAX ≤ usize_max →
  plan_x86 usize_max prefix kernel_bytes ram_bytes vcpus cmdline devices = None
    ↔ header_crosses usize_max prefix kernel_bytes ram_bytes devices.
Proof.
  intros Hb Hmax. unfold plan_x86, t_ret, header_crosses.
  destruct (x86_ram_regions ram_bytes) as [rs|] eqn:Hrs; cbn [t_bind]; [|naive_solver].
  destruct (validate_kernel_prefix _ _) as [[]|] eqn:Hv; cbn [t_bind]; [|naive_solver].
  destruct (validate_x86_devices _) as [[]|]; cbn [t_bind]; [|naive_solver].
  destruct (is_elf64 prefix); cbn [require t_bind]; [|naive_solver].
  destruct (decide (u16_at prefix 18 = Some 62)) as [Hm|Hm];
    [rewrite bool_decide_eq_true_2 by done|rewrite bool_decide_eq_false_2 by done; cbn [require t_bind]; naive_solver].
  cbn [require t_bind].
  destruct (ok_or InvalidKernel (u64_at prefix 24)) as [en|] eqn:Hen24; cbn [t_bind].
  2:{ split; [done|]. intros (_ & _ & _ & _ & _ & ph & count & Hph & _). exfalso.
      unfold u64_at in *. apply fmap_Some in Hph as (b & Hs & _).
      pose proof (proj1 (slice_within prefix _ _) ltac:(by eexists)) as Hin.
      destruct (proj2 (slice_within prefix 24 (24 + 8)) ltac:(lia)) as [x Hx]. by rewrite Hx in Hen24. }
  destruct (u64_at prefix 32) as [ph|] eqn:Hph; rsimpl; cbn [t_bind]; [|naive_solver].
  unfold checked_usize at 1. destruct (Z.leb_spec ph usize_max) as [Hle|Hgt]; cbn [ok_or t_bind].
  2:{ split; [done|]. intros (_ & _ & _ & _ & _ & ? & ? & [= <-] & _ & _ & ? & _). lia. }
  destruct (u16_at prefix 56) as [count|] eqn:Hcount; cbn [ok_or t_bind]; [|naive_solver].
  pose proof (u64_at_nonneg _ _ _ Hb Hph) as H0. pose proof (u16_at_bound _ 56 _ ltac:(lia) Hb Hcount) as Hc.
  destruct (decide (0 < count ∧ usize_max < ph + 56)) as [[Hpos Hend]|Hfit].
  { rewrite read_segments_trap by lia. split; [intros _|done]. split_and!; try done; [by eexists|]. exists ph, count. split_and!; done || lia. }
  assert (Hnot : ¬ ∃ ph' count', Some ph = Some ph' ∧ Some count = Some count' ∧ 0 < count' ∧ ph' ≤ usize_max < ph' + 56)
    by (intros (? & ? & [= <-] & [= <-] & ?); lia).
  split; [|intros (_ & _ & _ & _ & _ & ?); done]. intros Hnone. exfalso. revert Hnone.
  apply validate_prefix_bound in Hv. unfold MAX_BOOT_KERNEL_PREFIX_BYTES, U32_MAX in *.
  pose proof (read_segments_total usize_max prefix kernel_bytes (take 1 rs) ph (Z.to_nat count) 0
    ltac:(lia) ltac:(lia) ltac:(lia) ltac:(lia) ltac:(lia)) as Hseg. rewrite Z2Nat.id in Hseg by lia.
  destruct (read_segments _ _ _ _ _ _) as [[segs|]|] eqn:Hsegs; [|done|done]. cbn [t_bind]. clear Hseg.
  destruct (existsb (in_segment en) segs) eqn:Hen; [|done]. cbn [require t_bind].
  destruct (require (negb _) _); [|done]. cbn [t_bind].
  pose proof (after_segments_total _ _ _ _ _ _ _ _ _ cmdline devices Hb Hrs Hsegs Hen) as Hz.
  destruct (command_line _ _) as [line|]; [|done]. cbn [t_bind]. destruct (mp_table _) as [t|]; [|done]. cbn [t_bind].
  destruct (x86_zero_page _ _) as [[page|]|]; [|done|done]. cbn [t_bind]. by destruct (validate_x86_writes _ _).
Qed.

(** ** The Arm plan *)

Lemma land_align a k : 0 ≤ k ≤ 64 → u64 a → Z.land a (not64 (2 ^ k - 1)) = a / 2 ^ k * 2 ^ k.
Proof.
  intros Hk Ha. rewrite <-(land_ones_shifted 64 k a) by (unfold_ints; lia). f_equal.
  rewrite Z.land_ones, Z.shiftl_mul_pow2, Z.ones_equiv by lia. unfold not64, U64_MAX.
  assert (0 < 2 ^ k ≤ 2 ^ 64) by (split; [apply Z.pow_pos_nonneg|apply Z.pow_le_mono_r]; lia).
  apply (Z.mod_unique _ _ (2 ^ k - 1)); lia.
Qed.

(** What the Arm plan promises: one segment, the kernel, and one write, the
    device tree, in RAM, in this order, the tree at a 2 MiB boundary. *)
Record arm_plan_ok (kernel_bytes : Z) (plan : Plan) (r : RamRegion) (s : KernelSegment) (w : GuestWrite) : Prop := {
  ap_segments : kernel_segments plan = [s];
  ap_writes : writes plan = [w];
  ap_source : source_offset s = 0 ∧ file_length s = kernel_bytes ∧ kernel_bytes ≤ memory_length s;
  ap_entry : entry plan = guest_address s ∧ 0 < memory_length s;
  ap_argument : boot_argument plan = w_address w;
  ap_order : rr_base r ≤ guest_address s ∧ guest_address s + memory_length s ≤ w_address w ∧
             w_address w + zlen (w_bytes w) ≤ region_end r;
  ap_aligned : w_address w mod ARM_FDT_ALIGNMENT = 0;
}.

(** The plan of an Arm machine: the kernel runs from its first byte, whole
    and inside RAM; the device tree lies behind it, at a 2 MiB boundary and
    inside RAM with its full length, at the address the kernel gets. *)
Theorem arm_plan_layout write_fdt prefix kernel_bytes ram_bytes vcpus cmdline devices plan :
  u64 ram_bytes → bytes prefix →
  plan_arm write_fdt prefix kernel_bytes ram_bytes vcpus cmdline devices = Ok plan →
  ∃ r s w, arm_ram_layout ram_bytes = Some (One r) ∧ arm_plan_ok kernel_bytes plan r s w.
Proof.
  intros Hu Hb Hp. unfold plan_arm in Hp.
  destruct (arm_ram_layout ram_bytes) as [l|] eqn:Hl; [|done]. rsimpl_in Hp.
  pose proof (arm_ram_layout_ok _ _ Hu Hl) as [_ Hr _ _].
  assert (∃ r, l = One r) as [r ->].
  { unfold arm_ram_layout in Hl. destruct (_ || _); [done|]. destruct (checked_add64 _ _); [|done].
    injection Hl as <-. by eexists. }
  destruct (Hr r ltac:(by left)) as (? & _ & _ & Hend). unfold region_end in Hend.
  cbn [regions head] in Hp. rsimpl_in Hp.
  destruct (rr_size r <? _) eqn:Hsize; [done|]. destruct (_ || _) in Hp; [done|].
  destruct (validate_kernel_prefix _ _); [|done]. rsimpl_in Hp. destruct (validate_arm_devices _); [|done]. rsimpl_in Hp.
  destruct (_ || _) in Hp; [done|].
  destruct (u64_at prefix 8) as [text|] eqn:Htext; [|done]. rsimpl_in Hp.
  destruct (u64_at prefix 16) as [mem|] eqn:Hmem; [|done]. rsimpl_in Hp.
  destruct (_ || _) eqn:Hlen in Hp; [done|]. apply orb_false_iff in Hlen as [Hm0 Hmk].
  destruct (checked_add64 (rr_base r) text) as [ga|] eqn:Hga; [|done]. rsimpl_in Hp.
  destruct (checked_add64 (rr_base r) (rr_size r)) as [re|] eqn:Hre; [|done]. rsimpl_in Hp.
  destruct (checked_sub re ARM_FDT_ALIGNMENT) as [fa|] eqn:Hfa; [|done]. cbn [fmap option_fmap option_map] in Hp. rsimpl_in Hp.
  unfold end_of in Hp. destruct (checked_add64 ga mem) as [ke|] eqn:Hke; [|done]. rsimpl_in Hp.
  destruct (_ <? ke) eqn:Hfit; [done|]. destruct (command_line _ _); [|done]. rsimpl_in Hp.
  destruct (write_fdt _) as [fdt|]; [|done]. rsimpl_in Hp. destruct (_ <? zlen fdt) eqn:Hfdt; [done|].
  apply checked_add64_Some in Hga as [-> _], Hre as [-> _], Hke as [-> _]. apply checked_sub_Some in Hfa as [-> Hfa].
  pose proof (u64_at_nonneg _ _ _ Hb Htext). pose proof (u64_at_nonneg _ _ _ Hb Hmem). breflect.
  assert (Hbase : rr_base r = ARM_RAM_BASE).
  { unfold arm_ram_layout in Hl. destruct (_ || _); [done|]. destruct (checked_add64 _ _); [|done]. by injection Hl as <-. }
  change (ARM_FDT_ALIGNMENT - 1) with (2 ^ 21 - 1) in *.
  assert (0 < ARM_RAM_BASE ∧ ARM_FDT_ALIGNMENT = 2 ^ 21 ∧ MAX_BOOT_WRITE_BYTES = 2 ^ 21) as (? & Halign & Hmax) by done.
  rewrite (land_align _ 21) in * by (unfold_ints; lia). injection Hp as <-.
  pose proof (Z.mul_div_le (rr_base r + rr_size r - ARM_FDT_ALIGNMENT) (2 ^ 21) ltac:(lia)).
  exists r. do 2 eexists. split; [done|].
  split; [reflexivity|reflexivity|..]; unfold region_end;
    cbn [source_offset guest_address file_length memory_length entry boot_argument w_address w_bytes]; try lia.
  rewrite Halign. apply Z.mod_mul. lia.
Qed.

(** ** Witnesses *)

(** A kernel of one segment at 1 MiB, with its program header behind the ELF
    header, and the smallest device list. *)
Definition demo_elf (phoff count : Z) : list Z :=
  [0x7f; 69; 76; 70; 2; 1] ++ zeros 12 ++ le_bytes 2 62 ++ zeros 4 ++ le_bytes 8 0x100000
  ++ le_bytes 8 phoff ++ zeros 16 ++ le_bytes 2 count ++ zeros 6.
Definition demo_kernel : list Z :=
  demo_elf 64 1 ++ le_bytes 4 1 ++ zeros 4 ++ le_bytes 8 0 ++ zeros 8 ++ le_bytes 8 0x100000
  ++ le_bytes 8 120 ++ le_bytes 8 4096 ++ zeros 8.
Definition demo_x86_devices : list Device :=
  [mkDevice Vsock X86_MMIO_BASE 13; mkDevice Memory (X86_MMIO_BASE + X86_MMIO_STRIDE) 15].
Definition demo_ram : Z := 0x400000.
Definition demo_plan : Plan :=
  match plan_x86 U32_MAX demo_kernel 120 demo_ram 1 (lit "quiet") demo_x86_devices with
  | Some (Ok plan) => plan
  | _ => mkPlan 0 0 [] []
  end.

Lemma demo_plan_ok : plan_x86 U32_MAX demo_kernel 120 demo_ram 1 (lit "quiet") demo_x86_devices = Some (Ok demo_plan).
Proof. vm_compute. reflexivity. Qed.

Lemma demo_kernel_bytes : bytes demo_kernel.
Proof. apply (bool_decide_unpack _). vm_compute. exact I. Qed.

Lemma x86_plan_layout_witness :
  ∃ l, x86_ram_layout demo_ram = Some l ∧ x86_plan_ok 120 demo_ram demo_plan l.
Proof.
  apply (x86_plan_layout U32_MAX demo_kernel 120 demo_ram 1 (lit "quiet") demo_x86_devices demo_plan).
  - exact demo_kernel_bytes.
  - lia.
  - exact demo_plan_ok.
Defined.

Lemma plan_x86_total_witness :
  (plan_x86 U32_MAX demo_kernel 120 demo_ram 2 (lit "quiet") demo_x86_devices = None
     ↔ header_crosses U32_MAX demo_kernel 120 demo_ram demo_x86_devices)
  ∧ header_crosses U32_MAX (demo_elf U32_MAX 1) 64 demo_ram demo_x86_devices.
Proof.
  split.
  - apply (plan_x86_total U32_MAX demo_kernel 120 demo_ram 2 (lit "quiet") demo_x86_devices); [exact demo_kernel_bytes|lia].
  - apply (plan_x86_total U32_MAX (demo_elf U32_MAX 1) 64 demo_ram 1 (lit "quiet") demo_x86_devices); [|lia|vm_compute; reflexivity].
    apply (bool_decide_unpack _). vm_compute. exact I.
Defined.

Definition demo_arm_kernel : list Z :=
  zeros 16 ++ le_bytes 8 0x10000 ++ zeros 32 ++ lit "ARMd" ++ zeros 4.
Definition demo_arm_devices : list Device :=
  [mkDevice Memory ARM_VIRTIO_MMIO_BASE 16; mkDevice Vsock (ARM_VIRTIO_MMIO_BASE + ARM_VIRTIO_MMIO_STRIDE) 17].
(** The parameter [write_fdt] at a writer that counts the calls. *)
Definition demo_arm_plan : result Error Plan :=
  plan_arm (λ ops, Some [zlen ops]) demo_arm_kernel 64 demo_ram 1 (lit "quiet") demo_arm_devices.

Lemma arm_plan_layout_witness :
  ∃ plan, demo_arm_plan = Ok plan ∧
  ∃ r s w, arm_ram_layout demo_ram = Some (One r) ∧ arm_plan_ok 64 plan r s w.
Proof.
  eexists. split; [vm_compute; reflexivity|].
  apply (arm_plan_layout (λ ops, Some [zlen ops]) demo_arm_kernel 64 demo_ram 1 (lit "quiet") demo_arm_devices).
  - unfold demo_ram. unfold_ints. lia.
  - apply (bool_decide_unpack _). vm_compute. exact I.
  - vm_compute. reflexivity.
Defined.

End BootPlan.
