(* ===== verification/Machine.v ===== *)
(** * Machine layouts

    [crates/terra-runtime/src/machine.rs]: which devices a machine has and where
    they sit, the checked machine configuration, and the configuration handed to
    the hypervisor ([crates/terra-hypervisor/src/vm.rs]); and how the device list
    is shown to the boot component ([render_machine_config] of
    [component/vmm/boot.rs]).

    [wasmtime::ensure!] errors carry only a message and are one constructor per
    message. The host is 64-bit: [usize] is [u64]. *)

From stdpp Require Import list.
From S2P Require Import Prelude Limits BootPlan.

Local Open Scope Z_scope.

Module Machine.

Inductive Architecture : Type := X86 | Arm.
Inductive DeviceKind : Type := Block | Fs | Memory | Vsock.
#[export] Instance DeviceKind_eq_dec : EqDecision DeviceKind.
Proof. solve_decision. Defined.

Record Device := mkDevice { kind : DeviceKind; mmio_base : Z; irq : Z }.

(** ** [MachineConfig] *)

Record MachineConfig := mkConfig {
  c_architecture : Architecture;
  c_ram_bytes : Z;
  c_vcpus : Z;
  c_devices : list Device;
}.

Inductive ConfigError : Type :=
| VcpuCount | RamSize | DeviceCount | UnknownDevice | IntegerConversion.

Definition max_vcpus (a : Architecture) : Z := match a with X86 => X86_MAX_VCPUS | Arm => ARM_MAX_VCPUS end.
Definition max_devices (a : Architecture) : Z :=
  match a with X86 => X86_MAX_DEVICES | Arm => ARM_MAX_DEVICES end.

Definition new_config (architecture : Architecture) (ram_bytes vcpus : Z) (devices : list Device)
    : result ConfigError MachineConfig :=
  _ ← require (negb (vcpus =? 0) && (vcpus <=? max_vcpus architecture)) VcpuCount;
  _ ← require (negb (ram_bytes =? 0) && is_multiple_of ram_bytes 4096) RamSize;
  _ ← require (zlen devices <=? max_devices architecture) DeviceCount;
  Ok (mkConfig architecture ram_bytes vcpus devices).

Definition irq_routes (c : MachineConfig) : list Z := irq <$> c_devices c.

(** [enumerate] with the indexes from [i] on. *)
Fixpoint enumerate_from (i : Z) (devices : list Device) : list (Z * Device) :=
  match devices with [] => [] | d :: devices => (i, d) :: enumerate_from (i + 1) devices end.

Definition find_device (devices : list Device) (k : DeviceKind) (ordinal : Z)
    : result ConfigError (Z * Device) :=
  ok_or UnknownDevice (filter (λ d, kind d.2 = k) (enumerate_from 0 devices) !! Z.to_nat ordinal).

Definition device_slot (c : MachineConfig) (k : DeviceKind) (ordinal : Z) : result ConfigError Z :=
  '(slot, _) ← find_device (c_devices c) k ordinal;
  if slot <=? 255 then Ok slot else Err IntegerConversion.

(** ** The hypervisor's configuration *)

Record GicConfig := mkGic {
  distributor_base : Z;
  distributor_size : Z;
  redistributor_base : Z;
  redistributor_size : Z;
}.
Inductive InterruptControllerConfig : Type := ControllerX86 | ControllerArm (gic : GicConfig).
Record VmConfig := mkVmConfig {
  ram_base : Z;
  v_ram_bytes : Z;
  v_vcpus : Z;
  interrupt_controller : InterruptControllerConfig;
  v_irq_routes : list Z;
}.

Definition to_native_config (c : MachineConfig) : VmConfig :=
  mkVmConfig
    (match c_architecture c with X86 => X86_RAM_BASE | Arm => ARM_RAM_BASE end)
    (c_ram_bytes c)
    (c_vcpus c)
    (match c_architecture c with
     | X86 => ControllerX86
     | Arm => ControllerArm (mkGic ARM_GIC_DIST_BASE ARM_GIC_DIST_SIZE ARM_GIC_REDIST_BASE ARM_GIC_REDIST_SIZE)
     end)
    (irq_routes c).

(** ** [Layout] *)

Record Layout := mkLayout { l_architecture : Architecture; ram_size : Z; l_devices : list Device }.
Inductive LayoutError : Type := Unaligned | ZeroSized | RamOverflow | TooManyDevices | Overlap.
#[export] Instance LayoutError_eq_dec : EqDecision LayoutError.
Proof. solve_decision. Defined.

Definition PAGE_SIZE : Z := 4096.

Definition to_machine_config (l : Layout) (vcpus : Z) : result ConfigError MachineConfig :=
  vcpus ← (if vcpus <=? 255 then Ok vcpus else Err IntegerConversion);
  new_config (l_architecture l) (ram_size l) vcpus (l_devices l).

Definition MOUNT_IRQS : list Z := [17; 18; 19].
Definition VOLUME_IRQS : list Z := [20; 21; 22].

(** The device of a slot, the body of the closures. *)
Definition x86_device (block_count share_count slot : Z) : Device :=
  let base_count := block_count + 1 in
  let k := if slot <? block_count then Block
           else if slot =? block_count then Vsock
           else if slot <? base_count + share_count then Fs
           else Memory in
  let irq := match k with
             | Block => if slot =? 0 then 11 else if slot =? 1 then 12
                        else VOLUME_IRQS !!! Z.to_nat ((slot - 2) mod zlen VOLUME_IRQS)
             | Vsock => 13
             | Memory => 15
             | Fs => MOUNT_IRQS !!! Z.to_nat ((slot - base_count) mod zlen MOUNT_IRQS)
             end in
  mkDevice k (X86_MMIO_BASE + slot * X86_MMIO_STRIDE) irq.

Definition arm_device (block_count share_count slot : Z) : Device :=
  let k := if slot <? block_count then Block
           else if slot <? block_count + share_count then Fs
           else if slot =? block_count + share_count then Memory
           else Vsock in
  mkDevice k (ARM_VIRTIO_MMIO_BASE + slot * ARM_VIRTIO_MMIO_STRIDE) (BootPlan.ARM_VIRTIO_IRQ_BASE + slot).

Definition x86_layout (ram_size block_count share_count : Z) : result LayoutError Layout :=
  if bool_decide (x86_ram_layout ram_size = None) then Err RamOverflow else
  base_count ← ok_or TooManyDevices (checked_add64 block_count 1);
  count ← ok_or TooManyDevices
    (count ← checked_add64 base_count share_count;
     count ← checked_add64 count 1;
     if count <=? X86_MAX_DEVICES then Some count else None);
  Ok (mkLayout X86 ram_size (x86_device block_count share_count <$> seqZ 0 count)).

Definition arm_layout (ram_size block_count share_count : Z) : result LayoutError Layout :=
  count ← ok_or TooManyDevices
    (count ← checked_add64 block_count share_count;
     count ← checked_add64 count 2;
     if count <=? ARM_MAX_DEVICES then Some count else None);
  if bool_decide (arm_ram_layout ram_size = None) then Err RamOverflow else
  Ok (mkLayout Arm ram_size (arm_device block_count share_count <$> seqZ 0 count)).

Definition build_machine_layout_for (architecture : Architecture) (ram_size block_count share_count : Z)
    : result LayoutError Layout :=
  if ram_size =? 0 then Err ZeroSized else
  if negb (is_multiple_of ram_size PAGE_SIZE) then Err Unaligned else
  match architecture with
  | X86 => x86_layout ram_size block_count share_count
  | Arm => arm_layout ram_size block_count share_count
  end.

(** ** The boot component's view: [render_machine_config] *)

Definition render_kind (k : DeviceKind) : BootPlan.DeviceKind :=
  match k with
  | Block => BootPlan.Block | Vsock => BootPlan.Vsock | Fs => BootPlan.Fs | Memory => BootPlan.Memory
  end.
Record BootMachine := mkBootMachine {
  bm_architecture : Architecture;
  bm_ram_bytes : Z;
  bm_vcpus : Z;
  bm_devices : list BootPlan.Device;
}.
Definition render_device (d : Device) : BootPlan.Device :=
  BootPlan.mkDevice (render_kind (kind d)) (mmio_base d) (irq d).
Definition render_machine_config (c : MachineConfig) : BootMachine :=
  mkBootMachine (c_architecture c) (c_ram_bytes c) (c_vcpus c) (render_device <$> c_devices c).

(** The check of the device list by the planner of the architecture. *)
Definition accepts_devices (a : Architecture) (devices : list BootPlan.Device) : result BootPlan.Error unit :=
  match a with X86 => BootPlan.validate_x86_devices devices | Arm => BootPlan.validate_arm_devices devices end.

(** ** Finding a device *)

Definition before (ds : list Device) (k : DeviceKind) (slot : nat) : nat :=
  length (filter (λ d, kind d = k) (take slot ds)).

Lemma enumerate_filter k ds i n s d :
  filter (λ d, kind d.2 = k) (enumerate_from i ds) !! n = Some (s, d) ↔
  ∃ j : nat, s = i + Z.of_nat j ∧ ds !! j = Some d ∧ kind d = k ∧ before ds k j = n.
Proof.
  revert i n. unfold before. induction ds as [|x ds IH]; intros i n.
  { cbn [enumerate_from]. rewrite filter_nil, lookup_nil. split; [done|]. intros (j & _ & Hj & _). by rewrite lookup_nil in Hj. }
  cbn [enumerate_from]. rewrite filter_cons. cbn [snd]. destruct (decide (kind x = k)) as [Hk|Hk].
  - destruct n as [|n]; cbn [lookup list_lookup].
    + split.
      * intros [= <- <-]. exists 0%nat. by split_and!; [lia|..].
      * intros ([|j] & -> & Hj & Hd & Hb); cbn in Hj; [simplify_eq; by rewrite Z.add_0_r|].
        cbn [take] in Hb. rewrite filter_cons, decide_True in Hb by done. done.
    + change (list_lookup n _) with (filter (λ d, kind d.2 = k) (enumerate_from (i + 1) ds) !! n).
      rewrite IH. split.
      * intros (j & -> & Hj & Hd & Hb). exists (S j). split_and!; [lia|done|done|].
        cbn [take]. rewrite filter_cons, decide_True by done. cbn [length]. by rewrite Hb.
      * intros ([|j] & -> & Hj & Hd & Hb); [done|]. exists j. split_and!; [lia|done|done|].
        cbn [take] in Hb. rewrite filter_cons, decide_True in Hb by done. cbn [length] in Hb. lia.
  - rewrite IH. split.
    + intros (j & -> & Hj & Hd & Hb). exists (S j). split_and!; [lia|done|done|].
      cbn [take]. by rewrite filter_cons, decide_False.
    + intros ([|j] & -> & Hj & Hd & Hb); [by simplify_eq/=|]. exists j. split_and!; [lia|done|done|].
      cbn [take] in Hb. by rewrite filter_cons, decide_False in Hb.
Qed.

Lemma find_device_spec ds k ordinal slot d :
  0 ≤ ordinal →
  find_device ds k ordinal = Ok (slot, d) ↔
  0 ≤ slot ∧ ds !! Z.to_nat slot = Some d ∧ kind d = k ∧ Z.of_nat (before ds k (Z.to_nat slot)) = ordinal.
Proof.
  intros Ho. unfold find_device.
  assert (Hiff : ∀ o : option (Z * Device), ok_or UnknownDevice o = Ok (slot, d) ↔ o = Some (slot, d)).
  { intros [[]|]; cbn; split; congruence. }
  rewrite Hiff, enumerate_filter. split.
  - intros (j & -> & Hj & Hd & Hb). rewrite Z.add_0_l, Nat2Z.id. split_and!; [lia|done|done|lia].
  - intros (Hs & Hd & Hk & Hb). exists (Z.to_nat slot). split_and!; [lia|done|done|lia].
Qed.

(** ** The layouts *)

Definition built_devices (a : Architecture) (block_count share_count : Z) : list Device :=
  match a with X86 => x86_device | Arm => arm_device end block_count share_count
    <$> seqZ 0 (block_count + share_count + 2).

Definition ram_layout_of (a : Architecture) : Z → option RamLayout :=
  match a with X86 => x86_ram_layout | Arm => arm_ram_layout end.

Lemma has_ram_aligned a ram : is_Some (ram_layout_of a ram) → ram ≠ 0 ∧ is_multiple_of ram PAGE_SIZE = true.
Proof.
  unfold ram_layout_of, x86_ram_layout, arm_ram_layout. change RAM_PAGE_SIZE with PAGE_SIZE.
  destruct a, (Z.eqb_spec ram 0), (is_multiple_of ram PAGE_SIZE); cbn [orb negb]; intros [? ?]; done.
Qed.

Lemma x86_layout_spec ram block_count share_count l :
  u64 block_count → u64 share_count →
  x86_layout ram block_count share_count = Ok l ↔
  is_Some (x86_ram_layout ram) ∧ block_count + share_count + 2 ≤ X86_MAX_DEVICES ∧
  l = mkLayout X86 ram (built_devices X86 block_count share_count).
Proof.
  intros Hb Hs. unfold x86_layout. destruct (x86_ram_layout ram) as [r|].
  2:{ rewrite bool_decide_eq_true_2 by done. split; [done|]. by intros ([? ?] & _). }
  rewrite bool_decide_eq_false_2 by done. unfold built_devices.
  destruct (decide (block_count + share_count + 2 ≤ X86_MAX_DEVICES)) as [Hle|Hgt].
  - assert (X86_MAX_DEVICES ≤ U64_MAX) by done. destruct Hb, Hs. unfold checked_add64.
    rewrite (proj2 (Z.leb_le (block_count + 1) _)) by lia. rsimpl.
    rewrite (proj2 (Z.leb_le (block_count + 1 + share_count) _)) by lia. rsimpl.
    rewrite (proj2 (Z.leb_le (block_count + 1 + share_count + 1) U64_MAX)) by lia. rsimpl.
    rewrite (proj2 (Z.leb_le (block_count + 1 + share_count + 1) _)) by lia. rsimpl.
    replace (block_count + 1 + share_count + 1) with (block_count + share_count + 2) by lia.
    split; [intros [= <-]; by split_and!|]. by intros (_ & _ & ->).
  - split; [|by intros (_ & ? & _)]. intros H. exfalso. apply Hgt.
    destruct (checked_add64 block_count 1) as [b|] eqn:E1; [|done]. rsimpl_in H.
    destruct (checked_add64 b share_count) as [c|] eqn:E2; [|done]. rsimpl_in H.
    destruct (checked_add64 c 1) as [n|] eqn:E3; [|done]. rsimpl_in H.
    destruct (n <=? X86_MAX_DEVICES) eqn:E4; [|done].
    apply checked_add64_Some in E1 as [-> _], E2 as [-> _], E3 as [-> _]. breflect. lia.
Qed.

Lemma arm_layout_spec ram block_count share_count l :
  u64 block_count → u64 share_count →
  arm_layout ram block_count share_count = Ok l ↔
  is_Some (arm_ram_layout ram) ∧ block_count + share_count + 2 ≤ ARM_MAX_DEVICES ∧
  l = mkLayout Arm ram (built_devices Arm block_count share_count).
Proof.
  intros Hb Hs. unfold arm_layout, built_devices.
  destruct (decide (block_count + share_count + 2 ≤ ARM_MAX_DEVICES)) as [Hle|Hgt].
  - assert (ARM_MAX_DEVICES ≤ U64_MAX) by done. destruct Hb, Hs. unfold checked_add64.
    rewrite (proj2 (Z.leb_le (block_count + share_count) _)) by lia. rsimpl.
    rewrite (proj2 (Z.leb_le (block_count + share_count + 2) U64_MAX)) by lia. rsimpl.
    rewrite (proj2 (Z.leb_le (block_count + share_count + 2) _)) by lia. rsimpl.
    destruct (arm_ram_layout ram) as [r|].
    + rewrite bool_decide_eq_false_2 by done. split; [intros [= <-]; by split_and!|]. by intros (_ & _ & ->).
    + rewrite bool_decide_eq_true_2 by done. split; [done|]. by intros ([? ?] & _).
  - split; [|by intros (_ & ? & _)]. intros H. exfalso. apply Hgt.
    destruct (checked_add64 block_count share_count) as [c|] eqn:E2; [|done]. rsimpl_in H.
    destruct (checked_add64 c 2) as [n|] eqn:E3; [|done]. rsimpl_in H.
    destruct (n <=? ARM_MAX_DEVICES) eqn:E4; [|done].
    apply checked_add64_Some in E2 as [-> _], E3 as [-> _]. by breflect.
Qed.

Lemma build_layout_spec a ram block_count share_count l :
  u64 block_count → u64 share_count →
  build_machine_layout_for a ram block_count share_count = Ok l ↔
  is_Some (ram_layout_of a ram) ∧ block_count + share_count + 2 ≤ max_devices a ∧
  l = mkLayout a ram (built_devices a block_count share_count).
Proof.
  intros Hb Hs. unfold build_machine_layout_for. destruct (decide (is_Some (ram_layout_of a ram))) as [Hram|Hram].
  - destruct (has_ram_aligned _ _ Hram) as [H0 ->]. rewrite (proj2 (Z.eqb_neq ram 0)) by done. cbn [negb].
    destruct a; [by apply x86_layout_spec|by apply arm_layout_spec].
  - split; [|by intros (? & _)]. destruct (ram =? 0); [done|]. destruct (negb _); [done|].
    destruct a; [rewrite x86_layout_spec by done|rewrite arm_layout_spec by done]; by intros (? & _).
Qed.

(** Every device list the layouts can hold, checked against the planners. *)
Definition list_ok (a : Architecture) (block_count share_count : Z) : bool :=
  let ds := built_devices a block_count share_count in
  let count k := zlen (filter (λ d, kind d = k) ds) in
  is_ok (accepts_devices a (render_device <$> ds))
  && (count Block =? block_count) && (count Fs =? share_count) && (count Vsock =? 1) && (count Memory =? 1)
  && forallb (λ d, irq d <=? 255) ds.

Lemma all_lists_ok :
  forallb (λ a, forallb (λ b, forallb (λ s, (max_devices a <? b + s + 2) || list_ok a b s)
    (seqZ 0 (max_devices a))) (seqZ 0 (max_devices a))) [X86; Arm] = true.
Proof. vm_compute. reflexivity. Qed.

Lemma built_ok a b s : 0 ≤ b → 0 ≤ s → b + s + 2 ≤ max_devices a → list_ok a b s = true.
Proof.
  intros Hb Hs Hle. pose proof all_lists_ok as H. rewrite forallb_forall in H.
  specialize (H a ltac:(destruct a; cbn; tauto)). rewrite forallb_forall in H.
  specialize (H b ltac:(apply list_elem_of_In, elem_of_seqZ; lia)). rewrite forallb_forall in H.
  specialize (H s ltac:(apply list_elem_of_In, elem_of_seqZ; lia)). apply orb_true_iff in H as [H|H]; [breflect; lia|done].
Qed.

Lemma built_lookup a b s (i : nat) d :
  built_devices a b s !! i = Some d →
  Z.of_nat i < b + s + 2 ∧
  d = match a with X86 => x86_device | Arm => arm_device end b s (Z.of_nat i).
Proof.
  unfold built_devices. intros (z & -> & Hz)%list_lookup_fmap_Some. apply lookup_seqZ in Hz as [-> ?].
  by rewrite Z.add_0_l.
Qed.

Definition mmio_stride (a : Architecture) : Z :=
  match a with X86 => X86_MMIO_STRIDE | Arm => ARM_VIRTIO_MMIO_STRIDE end.
(** The register window of a device. *)
Definition window (a : Architecture) (d : Device) : Z * Z := (mmio_base d, mmio_base d + mmio_stride a).

Lemma built_base a b s (i : nat) d :
  built_devices a b s !! i = Some d →
  mmio_base d = match a with X86 => X86_MMIO_BASE | Arm => ARM_VIRTIO_MMIO_BASE end + Z.of_nat i * mmio_stride a.
Proof. intros [_ ->]%built_lookup. by destruct a. Qed.

(** The registers of the devices are apart from each other and from RAM. *)
Definition windows_ok (a : Architecture) (ram : Z) (ds : list Device) : Prop :=
  (∀ i j d e, i ≠ j → ds !! i = Some d → ds !! j = Some e →
     disjoint (window a d).1 (window a d).2 (window a e).1 (window a e).2) ∧
  (∀ l d r, ram_layout_of a ram = Some l → d ∈ ds → r ∈ regions l →
     disjoint (rr_base r) (region_end r) (window a d).1 (window a d).2).

Lemma built_windows a ram b s :
  u64 ram → b + s + 2 ≤ max_devices a → windows_ok a ram (built_devices a b s).
Proof.
  intros Hu Hle. assert (0 < mmio_stride a) by (by destruct a). split.
  - intros i j d e Hij Hd%built_base He%built_base. unfold window, disjoint. cbn [fst snd]. rewrite Hd, He. nia.
  - intros l d r Hl (i & Hd)%list_elem_of_lookup Hr. destruct (built_lookup _ _ _ _ _ Hd) as [Hi _].
    apply built_base in Hd. unfold window, disjoint. cbn [fst snd]. rewrite Hd. destruct a; cbn in *.
    + pose proof (lo_devices _ _ _ (x86_ram_layout_ok _ _ Hu Hl) r (X86_MMIO_BASE, x86_mmio_end) Hr ltac:(by left)) as Hw.
      unfold disjoint, x86_mmio_end in Hw. cbn [fst snd] in Hw. nia.
    + pose proof (lo_devices _ _ _ (arm_ram_layout_ok _ _ Hu Hl) r (ARM_VIRTIO_MMIO_BASE, arm_mmio_end) Hr
        ltac:(right; right; by left)) as Hw.
      unfold disjoint, arm_mmio_end in Hw. cbn [fst snd] in Hw. nia.
Qed.

(** A device found by kind and ordinal has its own interrupt in the routes. *)
Definition routed (c : MachineConfig) (k : DeviceKind) (ordinal : Z) : Prop :=
  ∃ slot d, device_slot c k ordinal = Ok slot ∧ c_devices c !! Z.to_nat slot = Some d ∧ kind d = k ∧
    v_irq_routes (to_native_config c) !! Z.to_nat slot = Some (irq d) ∧ irq d ≤ 255.

Lemma device_routed c k ordinal :
  zlen (c_devices c) ≤ 256 → Forall (λ d, irq d ≤ 255) (c_devices c) →
  0 ≤ ordinal < zlen (filter (λ d, kind d = k) (c_devices c)) → routed c k ordinal.
Proof.
  intros Hlen Hirq Ho. unfold routed, device_slot.
  destruct (find_device (c_devices c) k ordinal) as [[slot d]|e] eqn:Hf.
  - apply find_device_spec in Hf as (Hs & Hd & Hk & Hb); [|lia]. pose proof (lookup_lt_Some _ _ _ Hd).
    rsimpl. rewrite (proj2 (Z.leb_le slot 255)) by (unfold zlen in *; lia). exists slot, d.
    split_and!; [done|done|done| |by eapply (Forall_lookup_1 (λ d, irq d ≤ 255))].
    cbn. unfold irq_routes. by rewrite list_lookup_fmap, Hd.
  - exfalso. unfold find_device in Hf. destruct (_ !! Z.to_nat ordinal) eqn:Hn; [done|].
    apply lookup_ge_None in Hn. destruct Ho as [? Ho]. revert Ho.
    assert (Hl : ∀ ds i, length (filter (λ d : Z * Device, kind d.2 = k) (enumerate_from i ds))
                         = length (filter (λ d, kind d = k) ds)).
    { induction ds as [|x ds IH]; intros i; [done|]. cbn [enumerate_from]. rewrite !filter_cons. cbn [snd].
      destruct (decide _); cbn [length]; by rewrite IH. }
    rewrite Hl in Hn. unfold zlen. lia.
Qed.

(** A layout exists exactly when the RAM size has a layout and the devices fit;
    for every allowed number of processors it becomes a machine whose devices
    are the requested ones: the boot component accepts the list for the
    architecture, the register windows are apart from each other and from RAM,
    and the device of each kind and ordinal is routed to its own interrupt. *)
Theorem machine_layout_bootable a ram block_count share_count vcpus :
  u64 ram → u64 block_count → u64 share_count → 1 ≤ vcpus ≤ max_vcpus a →
  (is_ok (build_machine_layout_for a ram block_count share_count) = true ↔
   is_Some (ram_layout_of a ram) ∧ block_count + share_count + 2 ≤ max_devices a) ∧
  ∀ l, build_machine_layout_for a ram block_count share_count = Ok l →
  ∃ c, to_machine_config l vcpus = Ok c ∧
    c_architecture c = a ∧ c_ram_bytes c = ram ∧ c_vcpus c = vcpus ∧
    accepts_devices a (bm_devices (render_machine_config c)) = Ok tt ∧
    windows_ok a ram (c_devices c) ∧
    (∀ k n, (k, n) ∈ [(Block, block_count); (Fs, share_count); (Vsock, 1); (Memory, 1)] →
       ∀ ordinal, 0 ≤ ordinal < n → routed c k ordinal).
Proof.
  intros Hu Hb Hs Hv. split.
  { destruct (build_machine_layout_for a ram block_count share_count) as [l|e] eqn:Hl.
    - apply build_layout_spec in Hl as (? & ? & _); [|done..]. by cbn.
    - cbn. split; [done|]. intros [Hr Hn].
      by rewrite (proj2 (build_layout_spec a ram block_count share_count _ Hb Hs) (conj Hr (conj Hn eq_refl))) in Hl. }
  intros l (Hr & Hn & ->)%build_layout_spec; [|done..].
  pose proof (has_ram_aligned _ _ Hr) as [H0 Hal]. pose proof (built_ok a _ _ (proj1 Hb) (proj1 Hs) Hn) as Hok.
  unfold list_ok in Hok. rewrite !andb_true_iff, !Z.eqb_eq in Hok.
  destruct Hok as (((((Hacc & HB) & HF) & HV) & HM) & Hirq).
  assert (Hlen : zlen (built_devices a block_count share_count) = block_count + share_count + 2).
  { unfold built_devices, zlen. rewrite length_fmap, length_seqZ. destruct Hb, Hs. lia. }
  exists (mkConfig a ram vcpus (built_devices a block_count share_count)). unfold to_machine_config, new_config.
  cbn [l_architecture ram_size l_devices c_architecture c_ram_bytes c_vcpus c_devices].
  assert (max_vcpus a ≤ 255 ∧ max_devices a ≤ 256) as [] by (by destruct a).
  rewrite (proj2 (Z.leb_le vcpus 255)) by lia. rsimpl.
  rewrite (proj2 (Z.eqb_neq vcpus 0)), (proj2 (Z.leb_le vcpus _)) by lia.
  rewrite (proj2 (Z.eqb_neq ram 0)) by done. change 4096 with PAGE_SIZE. rewrite Hal.
  rewrite (proj2 (Z.leb_le (zlen _) _)) by lia. split_and!; try done.
  - cbn. by destruct (accepts_devices a _) as [[]|].
  - by apply built_windows.
  - intros k n Hk ordinal Ho. apply device_routed; cbn [c_devices]; [lia| |].
    + apply Forall_forall. intros d Hd%list_elem_of_In. rewrite forallb_forall in Hirq. by apply Z.leb_le, Hirq.
    + rewrite !elem_of_cons, elem_of_nil in Hk. destruct Hk as [[= -> ->]|[[= -> ->]|[[= -> ->]|[[= -> ->]|[]]]]]; lia.
Qed.

Lemma machine_layout_bootable_witness :
  ∃ c, to_machine_config (mkLayout X86 0x400000 (built_devices X86 2 1)) 4 = Ok c ∧ routed c Fs 0.
Proof.
  assert (H : ∃ c, to_machine_config (mkLayout X86 0x400000 (built_devices X86 2 1)) 4 = Ok c ∧
    c_architecture c = X86 ∧ c_ram_bytes c = 0x400000 ∧ c_vcpus c = 4 ∧
    accepts_devices X86 (bm_devices (render_machine_config c)) = Ok tt ∧
    windows_ok X86 0x400000 (c_devices c) ∧
    (∀ k n, (k, n) ∈ [(Block, 2); (Fs, 1); (Vsock, 1); (Memory, 1)] →
       ∀ ordinal, 0 ≤ ordinal < n → routed c k ordinal)).
  { apply (machine_layout_bootable X86 0x400000 2 1 4); [..|vm_compute; reflexivity];
      try (unfold_ints; cbn; lia). vm_compute. by split. }
  destruct H as (c & Hc & _ & _ & _ & _ & _ & Hr). exists c. split; [exact Hc|].
  apply (Hr Fs 1); [by right; left|lia].
Defined.

End Machine.
