(* ===== verification/BootApply.v ===== *)
(** * Applying a boot plan

    [crates/terra-runtime/src/component/vmm/boot.rs]: the host asks the boot
    component for a plan, checks it whole against guest RAM and the kernel image,
    and copies the kernel and the boot data through the bounded copies.

    The component runs in a sandbox of its own and may answer anything, so its
    answer is a parameter: [None] is a trap or the five-second timeout. With the
    parameter at [stage] ([components/boot/src/lib.rs]) the planner is the one
    modelled in [BootPlan]. The host is 64-bit. [None] of a host function is a
    panic. *)

From stdpp Require Import list strings.
From S2P Require Import Prelude Limits MemoryApi HostMemory PolicyRules PackedImage BootPlan Machine.

Local Open Scope Z_scope.

Module BootApply.
Import PackedImage (Packed, PackError, read_at, image_bytes, sub, splice).
Import BootPlan (Plan, KernelSegment, GuestWrite, kernel_segments, writes, entry, boot_argument,
  source_offset, guest_address, file_length, memory_length, w_address, w_bytes, zeros, splice_bytes).
Import Machine (BootMachine, MachineConfig, render_machine_config).

Definition MAX_BOOT_KERNEL_SEGMENTS : Z := 128.
Definition MAX_BOOT_WRITES : Z := 16.

Inductive BootError : Type :=
| SegmentLimit | WriteLimit | SegmentExceedsMemory | SourceOverflows | SourceExceedsImage
| BudgetOverflows | BudgetExceedsImage | SegmentRange (e : PlatformMemoryError) | WriteBudget
| WriteRange (e : PlatformMemoryError) | EntryOutside | ArgumentRange (e : PlatformMemoryError)
| WriteAddressOverflows | MemoryCopy (e : MemoryError) | ReadingKernel (e : PackError)
| KernelSize | CommandLineLimit | ComponentTrap | WasmBoot (e : BootPlan.Error).

Record BootEntry := mkEntry { b_entry : Z; b_argument : Z }.

(** ** The planner behind the component interface *)

Definition stage (usize_max : Z) (write_fdt : list BootPlan.FdtOp → option (list Z))
    (machine : BootMachine) (kernel_prefix : list Z) (kernel_size : Z) (kernel_command_line : list Z)
    : BootPlan.trap Plan :=
  match Machine.bm_architecture machine with
  | Machine.X86 =>
      BootPlan.plan_x86 usize_max kernel_prefix kernel_size (Machine.bm_ram_bytes machine)
        (Machine.bm_vcpus machine) kernel_command_line (Machine.bm_devices machine)
  | Machine.Arm =>
      Some (BootPlan.plan_arm write_fdt kernel_prefix kernel_size (Machine.bm_ram_bytes machine)
        (Machine.bm_vcpus machine) kernel_command_line (Machine.bm_devices machine))
  end.

Section Apply.
Context {B : Type} `{!Backing B}.
Context (decompress_into : list Z → list Z → result unit Z * list Z).

(** ** Checking a plan *)

Fixpoint validate_segments (m : GuestMem B) (kernel_bytes copied : Z) (segments : list KernelSegment)
    : result BootError unit :=
  match segments with
  | [] => Ok tt
  | s :: segments =>
      _ ← require (file_length s <=? memory_length s) SegmentExceedsMemory;
      source_end ← ok_or SourceOverflows (checked_add64 (source_offset s) (file_length s));
      _ ← require (source_end <=? kernel_bytes) SourceExceedsImage;
      copied ← ok_or BudgetOverflows (checked_add64 copied (file_length s));
      _ ← require (copied <=? kernel_bytes) BudgetExceedsImage;
      _ ← map_err SegmentRange (validate_range m (guest_address s) (memory_length s));
      validate_segments m kernel_bytes copied segments
  end.

Fixpoint validate_writes (m : GuestMem B) (ws : list GuestWrite) : result BootError unit :=
  match ws with
  | [] => Ok tt
  | w :: ws =>
      _ ← require (zlen (w_bytes w) <=? BootPlan.MAX_BOOT_WRITE_BYTES) WriteBudget;
      _ ← map_err WriteRange (validate_range m (w_address w) (zlen (w_bytes w)));
      validate_writes m ws
  end.

Definition entry_in (e : Z) (s : KernelSegment) : bool :=
  (guest_address s <=? e)
  && match checked_add64 (guest_address s) (memory_length s) with Some e' => e <? e' | None => false end.

Definition validate_plan (plan : Plan) (m : GuestMem B) (kernel_bytes : Z) : result BootError unit :=
  _ ← require (negb (bool_decide (kernel_segments plan = []))
               && (zlen (kernel_segments plan) <=? MAX_BOOT_KERNEL_SEGMENTS)) SegmentLimit;
  _ ← require (zlen (writes plan) <=? MAX_BOOT_WRITES) WriteLimit;
  _ ← validate_segments m kernel_bytes 0 (kernel_segments plan);
  _ ← validate_writes m (writes plan);
  _ ← require (existsb (entry_in (entry plan)) (kernel_segments plan)) EntryOutside;
  map_err ArgumentRange (validate_range m (boot_argument plan) 1).

(** ** Copying *)

(** The loop over the chunks; [offset] is the index of the next one. *)
Fixpoint write_chunks (address offset : Z) (cs : list (list Z)) : stM (GuestMem B) BootError unit :=
  match cs with
  | [] => st_ret tt
  | chunk :: cs =>
      λ m, match checked_add64 address (offset * MAX_SINGLE_GUEST_COPY_BYTES) with
           | None => (Err WriteAddressOverflows, m)
           | Some at_ =>
               match bounded_write at_ chunk m with
               | (Err e, m) => (Err (MemoryCopy e), m)
               | (Ok _, m) => write_chunks address (offset + 1) cs m
               end
           end
  end.

Definition write_boot_bytes (address : Z) (bs : list Z) : stM (GuestMem B) BootError unit :=
  write_chunks address 0 (chunks (Z.to_nat MAX_SINGLE_GUEST_COPY_BYTES) bs).

(** Guest RAM, the kernel image with its cache, and the copy buffer. *)
Record Copier := mkCopier { ram : GuestMem B; kernel : Packed; buffer : list Z }.

Fixpoint copy_segment (fuel : nat) (s : KernelSegment) (copied : Z) (c : Copier)
    : option (result BootError unit * Copier) :=
  if negb (copied <? file_length s) then Some (Ok tt, c) else
  match fuel with
  | O => None
  | S fuel =>
      let len := Z.min (file_length s - copied) MAX_SINGLE_GUEST_COPY_BYTES in
      source ← checked_add64 (source_offset s) copied;
      '(r, (k, piece)) ← read_at U64_MAX decompress_into (kernel c) source (sub (buffer c) 0 len);
      let c := mkCopier (ram c) k (splice (buffer c) 0 piece) in
      match r with
      | Err e => Some (Err (ReadingKernel e), c)
      | Ok _ =>
          destination ← checked_add64 (guest_address s) copied;
          let '(r, m) := write_boot_bytes destination piece (ram c) in
          let c := mkCopier m (kernel c) (buffer c) in
          match r with
          | Err e => Some (Err e, c)
          | Ok _ => copy_segment fuel s (copied + len) c
          end
      end
  end.

(** Turns of the copy loop for a segment. *)
Definition turns (n : Z) : nat := Z.to_nat (PackedImage.div_ceil n MAX_SINGLE_GUEST_COPY_BYTES).

Fixpoint copy_segments (segments : list KernelSegment) (c : Copier) : option (result BootError unit * Copier) :=
  match segments with
  | [] => Some (Ok tt, c)
  | s :: segments =>
      '(r, c) ← copy_segment (turns (file_length s)) s 0 c;
      match r with Err e => Some (Err e, c) | Ok _ => copy_segments segments c end
  end.

Fixpoint write_all (ws : list GuestWrite) : stM (GuestMem B) BootError unit :=
  match ws with
  | [] => st_ret tt
  | w :: ws => (write_boot_bytes (w_address w) (w_bytes w);;; write_all ws)%st
  end.

Definition apply_plan (plan : Plan) (m : GuestMem B) (k : Packed)
    : option (result BootError BootEntry * (GuestMem B * Packed)) :=
  match validate_plan plan m (image_bytes k) with
  | Err e => Some (Err e, (m, k))
  | Ok _ =>
      '(r, c) ← copy_segments (kernel_segments plan) (mkCopier m k (zeros MAX_SINGLE_GUEST_COPY_BYTES));
      match r with
      | Err e => Some (Err e, (ram c, kernel c))
      | Ok _ =>
          let '(r, m) := write_all (writes plan) (ram c) in
          Some (match r with Err e => Err e | Ok _ => Ok (mkEntry (entry plan) (boot_argument plan)) end,
                (m, kernel c))
      end
  end.

(** ** [boot_prepared_machine] *)

Section Component.
(** The answer of the component. *)
Context (call_stage : BootMachine → list Z → Z → list Z → option (result BootPlan.Error Plan)).

Definition boot_prepared_machine (config : MachineConfig) (m : GuestMem B) (k : Packed) (command_line : list Z)
    : option (result BootError BootEntry * (GuestMem B * Packed)) :=
  let kernel_bytes := image_bytes k in
  if negb ((1 <=? kernel_bytes) && (kernel_bytes <=? BootPlan.MAX_BOOT_KERNEL_BYTES))
  then Some (Err KernelSize, (m, k)) else
  if BootPlan.MAX_BOOT_COMMAND_LINE_BYTES <? zlen command_line then Some (Err CommandLineLimit, (m, k)) else
  let prefix := zeros (Z.min kernel_bytes BootPlan.MAX_BOOT_KERNEL_PREFIX_BYTES) in
  '(r, (k, prefix)) ← read_at U64_MAX decompress_into k 0 prefix;
  match r with
  | Err e => Some (Err (ReadingKernel e), (m, k))
  | Ok _ =>
      match call_stage (render_machine_config config) prefix kernel_bytes command_line with
      | None => Some (Err ComponentTrap, (m, k))
      | Some (Err e) => Some (Err (WasmBoot e), (m, k))
      | Some (Ok plan) => apply_plan plan m k
      end
  end.
End Component.
End Apply.

(** ** Bytes stay bytes *)

Lemma sub_bytes l a b : bytes l → bytes (sub l a b).
Proof. intros. unfold sub. by apply Forall_take, Forall_drop. Qed.

Definition byte_image (k : Packed) : Prop := bytes (PackedImage.payload k) ∧ bytes (PackedImage.cached_bytes k).

Lemma read_at_bytes (decompress_into : list Z → list Z → result unit Z * list Z) k offset buf r k' buf' :
  (∀ block out, bytes block → bytes out → bytes (decompress_into block out).2) →
  byte_image k → bytes buf → read_at U64_MAX decompress_into k offset buf = Some (r, (k', buf')) →
  byte_image k' ∧ bytes buf'.
Proof.
  intros Hdec Hk Hb. unfold read_at. destruct (negb _); [by intros [= <- <- <-]|].
  generalize (length buf) 0 offset. intros fuel. revert k buf Hk Hb. induction fuel as [|fuel IH]; intros k buf Hk Hb copied position;
    cbn [PackedImage.read_loop]; destruct (negb (copied <? zlen buf)); try by intros [= <- <- <-].
  assert (Hdb : ∀ block out, bytes block → bytes out → bytes (PackedImage.decode_block decompress_into block out).2).
  { intros block out H1 H2. unfold PackedImage.decode_block. pose proof (Hdec block out H1 H2).
    by destruct (decompress_into block out) as [[] ?]. }
  destruct (PackedImage.to_usize _ _) as [index|]; [|by intros [= <- <- <-]].
  destruct (PackedImage.chunk_len _ k index) as [len|]; [|done]. cbn [mbind option_bind].
  destruct (PackedImage.blocks k !! _) as [range|]; [|done]. cbn [mbind option_bind].
  destruct (slice (PackedImage.payload k) _ _) as [block|] eqn:Hs; [|done]. cbn [mbind option_bind].
  assert (Hblock : bytes block) by exact (slice_bytes _ _ _ _ (proj1 Hk) Hs).
  destruct (_ && _).
  - specialize (Hdb block (sub buf copied (copied + len)) Hblock (sub_bytes _ _ _ Hb)).
    destruct (PackedImage.decode_block _ _ _) as [[u|e] out]; cbn [snd] in Hdb.
    + apply IH; [done|by apply splice_bytes].
    + intros [= <- <- <-]. split; [done|by apply splice_bytes].
  - assert (Hf : byte_image (PackedImage.fill_cache decompress_into k index len block).2).
    { unfold PackedImage.fill_cache. destruct (bool_decide _); [done|].
      assert (Hc : bytes (PackedImage.resize (PackedImage.cached_bytes k) (PackedImage.p_chunk_bytes k))).
      { unfold PackedImage.resize. apply Forall_app. split; [apply Forall_take, Hk|].
        apply Forall_replicate. unfold_ints. lia. }
      specialize (Hdb block (sub (PackedImage.resize (PackedImage.cached_bytes k) (PackedImage.p_chunk_bytes k)) 0 len)
        Hblock (sub_bytes _ _ _ Hc)).
      destruct (PackedImage.decode_block _ _ _) as [r1 out]. cbn [snd] in *. split; cbn; [apply Hk|by apply splice_bytes]. }
    destruct (PackedImage.fill_cache _ _ _ _ _) as [[u|e] k1]; cbn [snd] in Hf; [|by intros [= <- <- <-]].
    destruct (checked_sub _ _) as [left|]; [|done]. cbn [mbind option_bind].
    destruct (slice (PackedImage.cached_bytes k1) _ _) as [data|] eqn:Hd; [|done]. cbn [mbind option_bind].
    apply IH; [done|]. apply splice_bytes; [done|]. exact (slice_bytes _ _ _ _ (proj2 Hf) Hd).
Qed.

(** ** Stores *)

Lemma single_copy_pos : 0 < MAX_SINGLE_GUEST_COPY_BYTES.
Proof. reflexivity. Qed.
#[local] Opaque MAX_SINGLE_GUEST_COPY_BYTES.

Section Stores.
Context {B : Type} `{!Backing B}.
Implicit Type m : GuestMem B.

Lemma stored_nil m : stored m [] m.
Proof. by repeat split. Qed.

Lemma stored_app m ws m' ws' m'' : stored m ws m' → stored m' ws' m'' → stored m (ws ++ ws') m''.
Proof.
  intros (? & Hc & ? & Hx) (? & Hc' & ? & Hx'). unfold stored. split_and!; try congruence.
  intros x. rewrite Hx', patches_app. by apply patches_ext.
Qed.

Lemma stored_ext m ws ws' m' :
  stored m ws m' → (∀ f x, patches f ws x = patches f ws' x) → stored m ws' m'.
Proof. intros (? & ? & ? & Hx) He. unfold stored. split_and!; try done. intros x. by rewrite Hx, He. Qed.

Lemma contains_sub m a n a' n' :
  contains_range m a n = true → a ≤ a' → 0 < n' → a' + n' ≤ a + n → contains_range m a' n' = true.
Proof.
  rewrite !contains_range_spec. intros (? & ? & Hx) ? ? ?. split_and!; [lia|lia|]. by eapply b_contains_sub.
Qed.

Lemma zlen_pos {A} (l : list A) : l ≠ [] → 0 < zlen l.
Proof. destruct l; unfold zlen; cbn; [done|lia]. Qed.

(** The store at the chunk [offset]. *)
Definition store_at (address offset : Z) (bs : list Z) : Z * list Z :=
  (address + offset * MAX_SINGLE_GUEST_COPY_BYTES, bs).

Lemma write_chunks_spec bs :
  ∀ m address offset, 0 ≤ address → 0 ≤ offset → bytes bs →
  (bs ≠ [] → contains_range m (store_at address offset bs).1 (zlen bs) = true) →
  ∃ m', write_chunks address offset (chunks (Z.to_nat MAX_SINGLE_GUEST_COPY_BYTES) bs) m = (Ok tt, m') ∧
        stored m [store_at address offset bs] m'.
Proof.
  pose proof single_copy_pos as Hpos.
  apply (chunks_ind (Z.to_nat MAX_SINGLE_GUEST_COPY_BYTES) (λ bs cs, ∀ m address offset, 0 ≤ address → 0 ≤ offset → bytes bs →
    (bs ≠ [] → contains_range m (store_at address offset bs).1 (zlen bs) = true) →
    ∃ m', write_chunks address offset cs m = (Ok tt, m') ∧ stored m [store_at address offset bs] m')); [lia| |].
  { intros m address offset _ _ _ _. exists m. split; [done|]. eapply stored_ext; [apply stored_nil|].
    intros f x. cbn. by rewrite patch_nil. }
  clear bs. intros bs Hne IH m address offset Ha Ho Hb Hc. specialize (Hc Hne). cbn [store_at fst] in Hc.
  pose proof (zlen_pos _ Hne) as Hl. pose proof (proj1 (contains_range_spec _ _ _) Hc) as (Hu & _ & _).
  cbn [write_chunks]. unfold checked_add64. rewrite (proj2 (Z.leb_le _ U64_MAX)) by lia.
  set (hd := take (Z.to_nat MAX_SINGLE_GUEST_COPY_BYTES) bs).
  set (tl := drop (Z.to_nat MAX_SINGLE_GUEST_COPY_BYTES) bs) in *.
  assert (Hhd : zlen hd = Z.min MAX_SINGLE_GUEST_COPY_BYTES (zlen bs)) by (unfold hd, zlen; rewrite length_take; lia).
  assert (Hsum : zlen bs = zlen hd + zlen tl) by (rewrite <-zlen_app; unfold hd, tl; by rewrite take_drop).
  pose proof (zlen_nonneg tl).
  destruct (bounded_write_mapped m (address + offset * MAX_SINGLE_GUEST_COPY_BYTES) hd) as (m1 & -> & Hs1);
    [lia|by apply Forall_take|eapply contains_sub; [done|lia..]|].
  destruct (IH m1 address (offset + 1)) as (m2 & Hw & Hs2); [done|lia|by apply Forall_drop| |].
  { intros Htl%zlen_pos. rewrite (stored_contains _ _ _ _ _ Hs1). eapply contains_sub; [exact Hc|cbn [store_at fst]; lia..]. }
  rewrite Hw. exists m2. split; [done|].
  eapply stored_ext; [eapply stored_app; [exact Hs1|exact Hs2]|]. intros f x. cbn [app patches foldl fst snd store_at].
  rewrite <-(take_drop (Z.to_nat MAX_SINGLE_GUEST_COPY_BYTES) bs). fold hd tl.
  destruct (decide (tl = [])) as [->|Htl%zlen_pos]; [by rewrite app_nil_r, patch_nil|].
  rewrite <-patch_app. f_equal. lia.
Qed.

Lemma write_boot_bytes_spec m address bs :
  0 ≤ address → bytes bs → (bs ≠ [] → contains_range m address (zlen bs) = true) →
  ∃ m', write_boot_bytes address bs m = (Ok tt, m') ∧ stored m [(address, bs)] m'.
Proof.
  intros Ha Hb Hc. unfold write_boot_bytes.
  destruct (write_chunks_spec bs m address 0) as (m' & Hw & Hs); [done|lia|done| |].
  - cbn [store_at fst]. by rewrite Z.mul_0_l, Z.add_0_r.
  - exists m'. split; [done|]. unfold store_at in Hs. by rewrite Z.mul_0_l, Z.add_0_r in Hs.
Qed.

Lemma write_all_spec ws m :
  Forall (λ w, 0 ≤ w_address w ∧ bytes (w_bytes w) ∧ contains_range m (w_address w) (zlen (w_bytes w)) = true) ws →
  ∃ m', write_all ws m = (Ok tt, m') ∧ stored m ((λ w, (w_address w, w_bytes w)) <$> ws) m'.
Proof.
  revert m. induction ws as [|w ws IH]; intros m Hws; [exists m; split; [done|apply stored_nil]|].
  apply Forall_cons in Hws as [(Ha & Hb & Hc) Hws]. cbn [write_all]. unfold st_bind.
  destruct (write_boot_bytes_spec m _ _ Ha Hb (λ _, Hc)) as (m1 & -> & Hs1).
  destruct (IH m1) as (m2 & -> & Hs2).
  { eapply Forall_impl; [exact Hws|]. intros v. by rewrite (stored_contains _ _ _ _ _ Hs1). }
  exists m2. split; [done|]. exact (stored_app _ [_] _ _ _ Hs1 Hs2).
Qed.
End Stores.

(** ** Copying the kernel *)

#[local] Existing Instance PackedImage.same_container_equiv.

Section Copies.
Context {B : Type} `{!Backing B}.
Context (decompress_into : list Z → list Z → result unit Z * list Z).
(** The output slice keeps its length, and holds bytes. *)
Hypothesis decompress_length : ∀ block out, zlen (decompress_into block out).2 = zlen out.
Hypothesis decompress_bytes : ∀ block out, bytes block → bytes out → bytes (decompress_into block out).2.

(** What every step keeps of the image and the buffer. *)
Record readable (k : Packed) (buf : list Z) : Prop := {
  rd_parsed : PackedImage.parsed U64_MAX k;
  rd_image : byte_image k;
  rd_buffer : bytes buf ∧ zlen buf = MAX_SINGLE_GUEST_COPY_BYTES;
}.

Implicit Type c : Copier (B := B).
#[local] Notation serves := (PackedImage.serves decompress_into).
#[local] Notation same_container := PackedImage.same_container.

(** A store inside a range. *)
Definition within (t : Z * Z) (w : Z * list Z) : Prop := t.1 ≤ w.1 ∧ w.1 + zlen w.2 ≤ t.1 + t.2.

(** A copy that may stop at a chunk it cannot decode: stores inside the ranges
    [ts] only, and all of [ws im] when the container holds [im]. *)
Definition copied_to (c : Copier) (ts : list (Z * Z)) (ws : list Z → list (Z * list Z))
    (o : option (result BootError unit * Copier)) : Prop :=
  ∃ r c' done, o = Some (r, c') ∧ readable (kernel c') (buffer c') ∧ same_container (kernel c) (kernel c') ∧
    stored (ram c) done (ram c') ∧ Forall (λ w, Exists (λ t, within t w) ts) done ∧
    (∀ e, r = Err e → ∃ e', e = ReadingKernel e') ∧
    (∀ im, serves (kernel c) im → r = Ok tt ∧ serves (kernel c') im ∧ stored (ram c) (ws im) (ram c')).

Lemma div_ceil_step (n c : Z) : 0 < c → 0 < n →
  Z.to_nat (PackedImage.div_ceil n c) = S (Z.to_nat (PackedImage.div_ceil (n - Z.min n c) c)).
Proof.
  intros Hc Hn. unfold PackedImage.div_ceil. destruct (Z.min_spec n c) as [[Hlt ->]|[Hge ->]].
  - rewrite Z.sub_diag, (Z.div_small (0 + c - 1)) by lia.
    replace ((n + c - 1) / c) with 1; [done|]. apply (Z.div_unique _ _ _ (n - 1)); lia.
  - replace (n + c - 1) with (n - c + c - 1 + 1 * c) by lia. rewrite Z.div_add by lia.
    rewrite Z2Nat.inj_add, Nat.add_comm by (try apply Z.div_pos; lia). done.
Qed.

Lemma copied_done c ts ws :
  readable (kernel c) (buffer c) → (∀ im f x, patches f (ws im) x = f x) →
  copied_to c ts ws (Some (Ok tt, c)).
Proof.
  intros Hr Hw. exists (Ok tt), c, []. split_and!; [done|done|done|apply stored_nil|constructor|done|].
  intros im Hs. split_and!; [done|done|]. eapply stored_ext; [apply stored_nil|]. intros f x. by rewrite Hw.
Qed.

(** One piece of a segment. *)
Lemma piece_read c source len :
  readable (kernel c) (buffer c) → 0 ≤ source → 0 ≤ len ≤ MAX_SINGLE_GUEST_COPY_BYTES →
  source + len ≤ image_bytes (kernel c) →
  ∃ r k piece, read_at U64_MAX decompress_into (kernel c) source (sub (buffer c) 0 len) = Some (r, (k, piece)) ∧
    readable k (splice (buffer c) 0 piece) ∧ same_container (kernel c) k ∧ bytes piece ∧ zlen piece = len ∧
    (∀ im, serves (kernel c) im → r = Ok tt ∧ serves k im ∧ piece = sub im source (source + len)).
Proof.
  intros [Hp Hi [Hb Hl]] Hs Hn Hend.
  assert (Hz : zlen (sub (buffer c) 0 len) = len) by (rewrite PackedImage.sub_zlen; lia).
  pose proof (PackedImage.read_at_spec U64_MAX decompress_into ltac:(by vm_compute) decompress_length
    (kernel c) source (sub (buffer c) 0 len) Hp Hs) as Hread.
  rewrite Hz, (proj2 (Z.leb_le _ _)) in Hread by lia.
  destruct Hread as (r & k & piece & Hr & Hpk & Hsame & Hpl & Him). rewrite Hz in Hpl, Him.
  destruct (read_at_bytes _ _ _ _ _ _ _ decompress_bytes Hi (sub_bytes _ _ _ Hb) Hr) as [Hik Hpb].
  exists r, k, piece. split_and!; [done| |done|done|done|].
  - split; [done|done|]. split; [by apply splice_bytes|]. rewrite PackedImage.splice_zlen; [done|lia|lia].
  - intros im Hserve. destruct (Him im Hserve) as (? & ? & ->). split_and!; [done|done|].
    rewrite Z.sub_0_r. by rewrite take_0.
Qed.

Lemma copy_segment_spec s fuel : ∀ copied c,
  readable (kernel c) (buffer c) → 0 ≤ copied ≤ file_length s →
  0 ≤ source_offset s → source_offset s + file_length s ≤ image_bytes (kernel c) →
  0 ≤ guest_address s → file_length s ≤ memory_length s →
  contains_range (ram c) (guest_address s) (memory_length s) = true →
  fuel = turns (file_length s - copied) →
  copied_to c [(guest_address s, file_length s)]
    (λ im, [(guest_address s + copied, sub im (source_offset s + copied) (source_offset s + file_length s))])
    (copy_segment decompress_into fuel s copied c).
Proof.
  pose proof single_copy_pos as Hpos.
  induction fuel as [|fuel IH]; intros copied c Hr Hc Hso Hse Hga Hml Hcont Hfuel;
    cbn [copy_segment]; destruct (Z.ltb_spec copied (file_length s)) as [Hlt|Hge]; cbn [negb].
  1: { exfalso. unfold turns in Hfuel. rewrite div_ceil_step in Hfuel by lia. done. }
  1,3: apply copied_done; [done|]; intros im f x; cbn; apply patch_out;
    unfold sub, zlen; rewrite length_take; lia.
  unfold turns in Hfuel. rewrite div_ceil_step in Hfuel by lia. injection Hfuel as Hfuel.
  set (len := Z.min (file_length s - copied) MAX_SINGLE_GUEST_COPY_BYTES) in *.
  pose proof (PackedImage.pa_image _ _ (rd_parsed _ _ Hr)) as Hi.
  pose proof (proj1 (contains_range_spec _ _ _) Hcont) as (Hu & _ & _).
  unfold checked_add64. rewrite (proj2 (Z.leb_le (source_offset s + copied) _)) by lia. cbn [mbind option_bind].
  destruct (piece_read c (source_offset s + copied) len) as (r & k & piece & -> & Hrk & Hsame & Hpb & Hpl & Him);
    [done|lia|lia|lia|]. cbn [mbind option_bind ram kernel buffer].
  destruct r as [u|e].
  2:{ exists (Err (ReadingKernel e)), (mkCopier (ram c) k (splice (buffer c) 0 piece)), [].
      split_and!; [done|done|done|apply stored_nil|constructor|intros ? [= <-]; by eexists|].
      intros im Hs. by destruct (Him im Hs). }
  rewrite (proj2 (Z.leb_le (guest_address s + copied) _)) by lia. cbn [mbind option_bind].
  destruct (write_boot_bytes_spec (ram c) (guest_address s + copied) piece) as (m1 & -> & Hs1); [lia|done| |].
  { intros _. rewrite Hpl. eapply contains_sub; [exact Hcont|lia..]. }
  destruct (IH (copied + len) (mkCopier m1 k (splice (buffer c) 0 piece)))
    as (r' & c' & done' & -> & Hrc & Hsc & Hst & Hin & Herr & Hall);
    cbn [ram kernel buffer] in *; try done; try lia.
  { destruct Hsame as [<- _]. done. }
  { by rewrite (stored_contains _ _ _ _ _ Hs1). }
  { rewrite Hfuel. unfold turns. f_equal. f_equal. lia. }
  exists r', c', ((guest_address s + copied, piece) :: done').
  split_and!; [done|done|by etrans| |constructor; [|done]|done|].
  - exact (stored_app _ [_] _ _ _ Hs1 Hst).
  - apply Exists_cons. left. unfold within. cbn [fst snd]. lia.
  - intros im Hs. destruct (Him im Hs) as (_ & Hsk & Hp). destruct (Hall im Hsk) as (-> & Hs' & Hst').
    split_and!; [done|done|]. eapply stored_ext; [exact (stored_app _ [_] _ _ _ Hs1 Hst')|].
    intros f x. cbn [app patches foldl fst snd].
    rewrite <-(PackedImage.sub_split im (source_offset s + copied) (source_offset s + copied + len)) by lia.
    by rewrite <-patch_app, <-Hp, Hpl, !Z.add_assoc.
Qed.

Definition segment_store (im : list Z) (s : KernelSegment) : Z * list Z :=
  (guest_address s, sub im (source_offset s) (source_offset s + file_length s)).
Definition segment_target (s : KernelSegment) : Z * Z := (guest_address s, file_length s).

(** What the checks establish of a segment. *)
Record segment_fits (m : GuestMem B) (kernel_bytes : Z) (s : KernelSegment) : Prop := {
  sf_fields : 0 ≤ source_offset s ∧ 0 ≤ guest_address s ∧ 0 ≤ file_length s;
  sf_source : source_offset s + file_length s ≤ kernel_bytes;
  sf_length : file_length s ≤ memory_length s;
  sf_range : contains_range m (guest_address s) (memory_length s) = true;
}.

Lemma copy_segments_spec segs : ∀ c,
  readable (kernel c) (buffer c) → Forall (segment_fits (ram c) (image_bytes (kernel c))) segs →
  copied_to c (segment_target <$> segs) (λ im, segment_store im <$> segs) (copy_segments decompress_into segs c).
Proof.
  induction segs as [|s segs IH]; intros c Hr Hs; [by apply copied_done|].
  apply Forall_cons in Hs as [[(? & ? & ?) ? ? ?] Hs]. cbn [copy_segments].
  destruct (copy_segment_spec s (turns (file_length s)) 0 c)
    as (r & c1 & d1 & -> & Hr1 & Hsame & Hst1 & Hin1 & Herr & Hall); try done; try lia; [by rewrite Z.sub_0_r|].
  cbn [mbind option_bind]. assert (Hin1' : Forall (λ w, Exists (λ t, within t w) (segment_target <$> s :: segs)) d1).
  { eapply Forall_impl; [exact Hin1|]. intros w. rewrite Exists_cons, Exists_nil. cbn [fmap list_fmap].
    rewrite Exists_cons. tauto. }
  destruct r as [[]|e].
  2:{ exists (Err e), c1, d1. split_and!; try done. intros im Him. by destruct (Hall im Him). }
  destruct (IH c1 Hr1) as (r & c2 & d2 & -> & Hr2 & Hsame2 & Hst2 & Hin2 & Herr2 & Hall2).
  { destruct Hsame as [<- _]. eapply Forall_impl; [exact Hs|]. intros s' []. split; try done.
    by rewrite (stored_contains _ _ _ _ _ Hst1). }
  exists r, c2, (d1 ++ d2). split_and!; [done|done|by etrans|by eapply stored_app| |done|].
  - apply Forall_app. split; [done|]. eapply Forall_impl; [exact Hin2|]. intros w Hw. cbn [fmap list_fmap].
    apply Exists_cons. by right.
  - intros im Him. destruct (Hall im Him) as (_ & Him1 & Hw1). destruct (Hall2 im Him1) as (-> & Him2 & Hw2).
    rewrite !Z.add_0_r in Hw1. split_and!; [done|done|]. exact (stored_app _ [_] _ _ _ Hw1 Hw2).
Qed.

(** ** The checks *)

(** The fields have their widths. *)
Definition typed_segment (s : KernelSegment) : Prop :=
  u64 (source_offset s) ∧ u64 (guest_address s) ∧ u64 (file_length s) ∧ u64 (memory_length s).
Definition typed_plan (plan : Plan) : Prop :=
  Forall typed_segment (kernel_segments plan) ∧
  Forall (λ w, u64 (w_address w) ∧ bytes (w_bytes w)) (writes plan).

Definition write_fits (m : GuestMem B) (w : GuestWrite) : Prop :=
  zlen (w_bytes w) ≤ BootPlan.MAX_BOOT_WRITE_BYTES ∧ contains_range m (w_address w) (zlen (w_bytes w)) = true.

Lemma validate_range_ok m a n : validate_range (B := B) m a n = Ok tt ↔ contains_range m a n = true.
Proof. unfold validate_range. by destruct (contains_range m a n). Qed.

Lemma map_err_ok {E F A} (f : E → F) (r : result E A) a : map_err f r = Ok a ↔ r = Ok a.
Proof. destruct r; cbn; split; congruence. Qed.

Lemma validate_segments_spec m kernel_bytes segs : ∀ copied,
  kernel_bytes ≤ U64_MAX → 0 ≤ copied → Forall typed_segment segs →
  validate_segments m kernel_bytes copied segs = Ok tt ↔
  Forall (segment_fits m kernel_bytes) segs ∧ (segs ≠ [] → copied + sumZ (file_length <$> segs) ≤ kernel_bytes).
Proof.
  induction segs as [|s segs IH]; intros copied Hk Hc Ht; [by split|].
  apply Forall_cons in Ht as [(Hs1 & Hs2 & Hs3 & Hs4) Ht]. cbn [validate_segments].
  rewrite Forall_cons. change (sumZ (file_length <$> s :: segs)) with (file_length s + sumZ (file_length <$> segs)).
  assert (Hsum : 0 ≤ sumZ (file_length <$> segs)).
  { clear -Ht. induction Ht as [|x segs (_ & _ & ? & _) _ IH]; [done|].
    change (sumZ (file_length <$> x :: segs)) with (file_length x + sumZ (file_length <$> segs)). unfold_ints. lia. }
  unfold require, checked_add64. split.
  - destruct (file_length s <=? memory_length s) eqn:H1; [|done]. rsimpl.
    destruct (source_offset s + file_length s <=? U64_MAX) eqn:H2; [|done]. rsimpl.
    destruct (source_offset s + file_length s <=? kernel_bytes) eqn:H3; [|done]. rsimpl.
    destruct (copied + file_length s <=? U64_MAX) eqn:H4; [|done]. rsimpl.
    destruct (copied + file_length s <=? kernel_bytes) eqn:H5; [|done]. rsimpl.
    destruct (validate_range m (guest_address s) (memory_length s)) as [[]|] eqn:H6; [|done]. rsimpl.
    apply validate_range_ok in H6. breflect. intros H. apply IH in H as [Hf Hb]; [|done|unfold_ints; lia|done].
    split; [split; [|done]; split; try done; unfold_ints; lia|]. intros _.
    destruct segs; [change (sumZ (file_length <$> [])) with 0; lia|]. specialize (Hb ltac:(done)). lia.
  - intros [[[_ Hsrc Hlen Hrange] Hf] Hb]. specialize (Hb ltac:(done)). destruct Hs1, Hs2, Hs3, Hs4.
    rewrite (proj2 (Z.leb_le (file_length s) _)) by lia. rsimpl.
    rewrite (proj2 (Z.leb_le (source_offset s + file_length s) U64_MAX)) by lia. rsimpl.
    rewrite (proj2 (Z.leb_le (source_offset s + file_length s) _)) by lia. rsimpl.
    rewrite (proj2 (Z.leb_le (copied + file_length s) U64_MAX)) by lia. rsimpl.
    rewrite (proj2 (Z.leb_le (copied + file_length s) _)) by lia. rsimpl.
    rewrite (proj2 (validate_range_ok _ _ _)) by done. rsimpl. apply IH; [done|lia|done|]. split; [done|]. lia.
Qed.

Lemma validate_writes_spec m ws : validate_writes m ws = Ok tt ↔ Forall (write_fits m) ws.
Proof.
  induction ws as [|w ws IH]; [by split|]. rewrite Forall_cons, <-IH. cbn [validate_writes]. unfold require, write_fits.
  destruct (zlen (w_bytes w) <=? _) eqn:H1; rsimpl; breflect.
  - rewrite <-validate_range_ok. destruct (validate_range m _ _) as [[]|]; rsimpl; [tauto|]. split; [done|]. by intros ((_ & ?) & _).
  - split; [done|]. intros ((? & _) & _). lia.
Qed.

Record plan_fits (plan : Plan) (m : GuestMem B) (kernel_bytes : Z) : Prop := {
  pf_count : kernel_segments plan ≠ [] ∧ zlen (kernel_segments plan) ≤ MAX_BOOT_KERNEL_SEGMENTS ∧
             zlen (writes plan) ≤ MAX_BOOT_WRITES;
  pf_segments : Forall (segment_fits m kernel_bytes) (kernel_segments plan);
  pf_budget : sumZ (file_length <$> kernel_segments plan) ≤ kernel_bytes;
  pf_writes : Forall (write_fits m) (writes plan);
  pf_entry : Exists (λ s, guest_address s ≤ entry plan < guest_address s + memory_length s) (kernel_segments plan);
  pf_argument : contains_range m (boot_argument plan) 1 = true;
}.

Lemma entry_in_spec m kernel_bytes e segs :
  Forall (segment_fits m kernel_bytes) segs →
  existsb (entry_in e) segs = true ↔ Exists (λ s, guest_address s ≤ e < guest_address s + memory_length s) segs.
Proof.
  induction 1 as [|s segs [_ _ _ Hr] _ IH]; [rewrite Exists_nil; done|]. cbn [existsb].
  rewrite orb_true_iff, Exists_cons, IH. apply or_iff_compat_r. unfold entry_in, checked_add64.
  apply contains_range_spec in Hr as (Hu & _ & _). rewrite (proj2 (Z.leb_le _ _) Hu).
  rewrite andb_true_iff, Z.leb_le, Z.ltb_lt. done.
Qed.

Lemma validate_plan_spec plan m kernel_bytes :
  kernel_bytes ≤ U64_MAX → typed_plan plan →
  validate_plan plan m kernel_bytes = Ok tt ↔ plan_fits plan m kernel_bytes.
Proof.
  intros Hk [Hts Htw]. unfold validate_plan, require. split.
  - destruct (_ && _) eqn:H1; [|done]. apply andb_true_iff in H1 as [H1 H1']. rsimpl.
    destruct (zlen (writes plan) <=? _) eqn:H2; [|done]. rsimpl.
    destruct (validate_segments _ _ _ _) as [[]|] eqn:H3; [|done]. rsimpl.
    destruct (validate_writes _ _) as [[]|] eqn:H4; [|done]. rsimpl.
    destruct (existsb _ _) eqn:H5; [|done]. rsimpl. rewrite map_err_ok, validate_range_ok. intros H6.
    apply negb_true_iff, bool_decide_eq_false in H1.
    apply validate_segments_spec in H3 as [H3 H3']; [|done|done|done]. apply validate_writes_spec in H4.
    breflect. split; [done|done|by apply H3'|done|by eapply entry_in_spec|done].
  - intros [(H1 & H1' & H2) H3 H3' H4 H5 H6].
    rewrite bool_decide_eq_false_2 by done. rewrite (proj2 (Z.leb_le (zlen (kernel_segments plan)) _)) by done. rsimpl.
    rewrite (proj2 (Z.leb_le (zlen (writes plan)) _)) by done. rsimpl.
    rewrite (proj2 (validate_segments_spec m kernel_bytes _ 0 Hk ltac:(done) Hts)) by (split; [done|by intros _]). rsimpl.
    rewrite (proj2 (validate_writes_spec _ _)) by done. rsimpl.
    rewrite (proj2 (entry_in_spec m kernel_bytes _ _ H3)) by done. rsimpl.
    by rewrite map_err_ok, validate_range_ok.
Qed.
(** ** The whole boot *)

Definition plan_stores (im : list Z) (plan : Plan) : list (Z * list Z) :=
  (segment_store im <$> kernel_segments plan) ++ ((λ w, (w_address w, w_bytes w)) <$> writes plan).
Definition plan_targets (plan : Plan) : list (Z * Z) :=
  (segment_target <$> kernel_segments plan) ++ ((λ w, (w_address w, zlen (w_bytes w))) <$> writes plan).

Lemma apply_plan_spec plan m k :
  PackedImage.parsed U64_MAX k → byte_image k → typed_plan plan → plan_fits plan m (image_bytes k) →
  ∃ r m' k' done, apply_plan decompress_into plan m k = Some (r, (m', k')) ∧ stored m done m' ∧
    Forall (λ w, Exists (λ t, within t w) (plan_targets plan)) done ∧
    (r = Ok (mkEntry (entry plan) (boot_argument plan)) ∨ ∃ e, r = Err (ReadingKernel e)) ∧
    (∀ im, serves k im →
       r = Ok (mkEntry (entry plan) (boot_argument plan)) ∧ stored m (plan_stores im plan) m').
Proof.
  intros Hp Hb Ht Hf. unfold apply_plan. pose proof (PackedImage.pa_image _ _ Hp) as [_ Hu].
  rewrite (proj2 (validate_plan_spec plan m (image_bytes k) Hu Ht) Hf).
  destruct Hf as [_ Hs _ Hw _ _]. destruct Ht as [_ Htw].
  destruct (copy_segments_spec (kernel_segments plan) (mkCopier m k (zeros MAX_SINGLE_GUEST_COPY_BYTES)))
    as (r & c & d & -> & _ & _ & Hst & Hin & Herr & Hall); cbn [ram kernel buffer] in *.
  { split; [done|done|]. split; [apply Forall_replicate; by vm_compute|].
    apply BootPlan.zeros_zlen. pose proof single_copy_pos. lia. }
  { done. }
  assert (Hin' : Forall (λ w, Exists (λ t, within t w) (plan_targets plan)) d).
  { eapply Forall_impl; [exact Hin|]. intros w Hx. apply Exists_app. by left. }
  cbn [mbind option_bind]. destruct r as [[]|e].
  2:{ exists (Err e), (ram c), (kernel c), d. split_and!; [done|done|done| |].
      - right. destruct (Herr e eq_refl) as [e' ->]. by exists e'.
      - intros im Him. by destruct (Hall im Him). }
  destruct (write_all_spec (writes plan) (ram c)) as (m' & -> & Hst').
  { apply Forall_forall. intros w Hi. rewrite Forall_forall in Hw, Htw. destruct (Hw w Hi), (Htw w Hi) as [[? _] ?].
    by rewrite (stored_contains _ _ _ _ _ Hst). }
  eexists _, m', (kernel c), _. split_and!; [done|by eapply stored_app| |by left|].
  - apply Forall_app. split; [done|]. apply Forall_fmap, Forall_forall. intros w Hi. apply Exists_app. right.
    apply Exists_exists. eexists. split; [apply list_elem_of_fmap; by eexists|]. unfold within. cbn. lia.
  - intros im Him. destruct (Hall im Him) as (_ & _ & Hst1). split; [done|]. by eapply stored_app.
Qed.

Definition prefix_of (im : list Z) : list Z :=
  sub im 0 (Z.min (zlen im) BootPlan.MAX_BOOT_KERNEL_PREFIX_BYTES).

Lemma prefix_read k :
  PackedImage.parsed U64_MAX k → byte_image k →
  ∃ r k' prefix,
    read_at U64_MAX decompress_into k 0 (zeros (Z.min (image_bytes k) BootPlan.MAX_BOOT_KERNEL_PREFIX_BYTES))
      = Some (r, (k', prefix)) ∧
    PackedImage.parsed U64_MAX k' ∧ byte_image k' ∧ same_container k k' ∧ bytes prefix ∧
    (∀ im, serves k im → r = Ok tt ∧ serves k' im ∧ prefix = prefix_of im).
Proof.
  intros Hp Hb. pose proof (PackedImage.pa_image _ _ Hp) as [Hi _].
  set (n := Z.min (image_bytes k) BootPlan.MAX_BOOT_KERNEL_PREFIX_BYTES).
  assert (0 < BootPlan.MAX_BOOT_KERNEL_PREFIX_BYTES) by reflexivity.
  assert (Hz : zlen (zeros n) = n) by (apply BootPlan.zeros_zlen; lia).
  pose proof (PackedImage.read_at_spec U64_MAX decompress_into ltac:(by vm_compute) decompress_length
    k 0 (zeros n) Hp ltac:(lia)) as Hread.
  rewrite Hz, (proj2 (Z.leb_le _ _)) in Hread by lia.
  destruct Hread as (r & k' & prefix & Hr & Hpk & Hsame & Hl & Him).
  assert (Hzb : bytes (zeros n)) by (apply Forall_replicate; by vm_compute).
  destruct (read_at_bytes _ _ _ _ _ _ _ decompress_bytes Hb Hzb Hr) as [Hbk Hpb].
  exists r, k', prefix. split_and!; [done|done|done|done|done|].
  intros im Hs. destruct (Him im Hs) as (? & ? & ->). split_and!; [done|done|].
  rewrite Hz, take_0. cbn [app]. unfold prefix_of, n. rewrite (PackedImage.sv_length _ _ _ Hs). f_equal. lia.
Qed.
End Copies.

(** ** A plan from outside *)

Section Confined.
Context {B : Type} `{!Backing B}.
Implicit Type m : GuestMem B.

(** A byte of RAM that belongs to a range of the plan. *)
Definition plan_byte (plan : Plan) m (x : Z) : Prop :=
  contains_range m x 1 = true ∧ Exists (λ t, t.1 ≤ x < t.1 + t.2) (plan_targets plan).

Lemma target_contained plan m kernel_bytes t x :
  plan_fits plan m kernel_bytes → t ∈ plan_targets plan → t.1 ≤ x < t.1 + t.2 → contains_range m x 1 = true.
Proof.
  intros [_ Hs _ Hw _ _] [(s & -> & Hi)%list_elem_of_fmap|(w & -> & Hi)%list_elem_of_fmap]%elem_of_app Hx;
    cbn in Hx; rewrite Forall_forall in Hs; rewrite Forall_forall in Hw.
  - destruct (Hs s Hi) as [_ _ ? Hc]. eapply contains_sub; [exact Hc|lia..].
  - destruct (Hw w Hi) as [_ Hc]. eapply contains_sub; [exact Hc|lia..].
Qed.

Lemma stored_changed m ws m' x :
  stored m ws m' → b_byte (backing m') x ≠ b_byte (backing m) x → Exists (λ w, w.1 ≤ x < w.1 + zlen w.2) ws.
Proof.
  intros (_ & _ & _ & Hx) Hne. destruct (decide (Exists (λ w, w.1 ≤ x < w.1 + zlen w.2) ws)) as [|Hno]; [done|].
  exfalso. apply Hne. rewrite Hx. apply patches_out. by apply not_Exists_Forall in Hno; [|apply _].
Qed.

Lemma parse_bytes usize_max max_output packed kind k :
  bytes packed → PackedImage.parse usize_max max_output packed kind = Ok k → byte_image k.
Proof.
  intros Hb H. unfold PackedImage.parse in H.
  destruct (slice packed 0 PackedImage.HEADER_BYTES); [|done]. rsimpl_in H. destruct (negb _); [done|].
  destruct (PackedImage.validate _ _); [|done]. rsimpl_in H. destruct (_ =? 0); [done|].
  destruct (ok_or PackedImage.TableOverflow _) as [te|]; [|done]. rsimpl_in H.
  destruct (slice packed _ te); [|done]. rsimpl_in H. destruct (PackedImage.read_table _ _ _ _) as [[]|]; [|done].
  rsimpl_in H. destruct (negb _); [done|]. injection H as <-. split; cbn; [by apply Forall_drop|constructor].
Qed.

(** Refused with RAM as it was, or a plan that fits was applied. *)
Definition boot_outcome (answer : option (result BootPlan.Error Plan) → Prop) m (kernel_bytes : Z)
    (r : result BootError BootEntry) (m' : GuestMem B) : Prop :=
  (m' = m ∧ ∃ e, r = Err e) ∨
  ∃ plan, answer (Some (Ok plan)) ∧ plan_fits plan m kernel_bytes ∧
    (r = Ok (mkEntry (entry plan) (boot_argument plan)) ∨ ∃ e, r = Err (ReadingKernel e)) ∧
    (∀ a n, contains_range m' a n = contains_range m a n) ∧
    ∀ x, b_byte (backing m') x ≠ b_byte (backing m) x → plan_byte plan m x.

Lemma refused answer m kernel_bytes e k :
  ∃ r m' k', Some (Err e, (m, k)) = Some (r, (m', k' : Packed)) ∧ boot_outcome answer m kernel_bytes r m'.
Proof. exists (Err e), m, k. split; [done|]. left. split; [done|by eexists]. Qed.

(** C13. Whatever the boot component answers, and whatever the kernel container
    holds, the boot returns; if the plan does not fit RAM and the image nothing
    is written; and if it does, only bytes of guest RAM in the ranges the plan
    names change, and the boot succeeds unless a chunk of the container cannot
    be decoded. *)
Theorem boot_stores_confined decompress_into call_stage max_output packed config m k line :
  (∀ block out, zlen (decompress_into block out).2 = zlen out) →
  (∀ block out, bytes block → bytes out → bytes (decompress_into block out).2) →
  (∀ machine prefix n text plan, call_stage machine prefix n text = Some (Ok plan) → typed_plan plan) →
  bytes packed → PackedImage.parse U64_MAX max_output packed PackedImage.Kernel = Ok k →
  ∃ r m' k', boot_prepared_machine decompress_into call_stage config m k line = Some (r, (m', k')) ∧
    boot_outcome (λ o, ∃ prefix, call_stage (render_machine_config config) prefix (image_bytes k) line = o)
      m (image_bytes k) r m'.
Proof.
  intros Hdl Hdb Hty Hb Hparse. pose proof (parse_bytes _ _ _ _ _ Hb Hparse) as Hbk.
  apply (PackedImage.parse_parsed U64_MAX ltac:(by vm_compute)) in Hparse; [|done].
  unfold boot_prepared_machine. destruct (negb _); [apply refused|]. destruct (_ <? zlen line); [apply refused|].
  destruct (prefix_read decompress_into Hdl Hdb k Hparse Hbk) as (r & k1 & prefix & -> & Hp1 & Hb1 & Hsame & _ & _).
  cbn [mbind option_bind]. destruct r as [u|e]; [|apply refused].
  destruct (call_stage _ _ _ _) as [[plan|e]|] eqn:Hcall; [|apply refused..].
  pose proof (Hty _ _ _ _ _ Hcall) as Htp. destruct Hsame as [Himg _]. rewrite Himg in Hcall |- *.
  pose proof (validate_plan_spec plan m (image_bytes k1) (proj2 (PackedImage.pa_image _ _ Hp1)) Htp) as Hv.
  destruct (validate_plan plan m (image_bytes k1)) as [[]|e] eqn:Hval.
  2:{ unfold apply_plan. rewrite Hval. apply refused. }
  pose proof (proj1 Hv eq_refl) as Hfits.
  destruct (apply_plan_spec decompress_into Hdl Hdb plan m k1 Hp1 Hb1 Htp Hfits)
    as (r & m' & k' & d & -> & Hst & Hin & Hres & _).
  exists r, m', k'. split; [done|]. right. exists plan.
  split_and!; [by exists prefix|done|done|by intros; eapply stored_contains|].
  intros x Hx. apply (stored_changed _ _ _ _ Hst), Exists_exists in Hx as (w & Hw & Hxw).
  rewrite Forall_forall in Hin. destruct (proj1 (Exists_exists _ _) (Hin w Hw)) as (t & Ht & Hwt1 & Hwt2).
  assert (Hxt : t.1 ≤ x < t.1 + t.2) by lia. split; [by eapply target_contained|].
  apply Exists_exists. by exists t.
Qed.
End Confined.

(** ** An x86 machine boots *)

Section X86.
Context {B : Type} `{!Backing B}.
Implicit Type m : GuestMem B.

Lemma layout_contains ram_bytes l m a n :
  u64 ram_bytes → x86_ram_layout ram_bytes = Some l → from_layout l = Some m →
  BootPlan.in_ram l a n → 0 < n → contains_range m a n = true.
Proof.
  intros Hu Hl Hm Hin Hn. destruct (BootPlan.layout_bases _ _ Hu Hl) as [Hr _]. unfold from_layout in Hm.
  destruct (from_ranges_correct (B := B) ((λ r, (rr_base r, rr_size r)) <$> regions l)) as [Hc _].
  { apply Forall_fmap, Forall_forall. intros r Hi. destruct (Hr r Hi). cbn. lia. }
  destruct (Hc m Hm) as (Hp & _ & _ & Hlim & _). apply Exists_exists in Hin as (r & Hi & Ha & Hb).
  destruct (Hr r Hi) as (_ & _ & Hend). unfold region_end in *.
  rewrite Forall_fmap, Forall_forall in Hlim. specialize (Hlim r Hi). cbn in Hlim.
  apply contains_range_spec. split_and!; [lia|lia|].
  apply (b_contains_region _ _ _ (rr_base r, rr_size r)); [|done|done|cbn; lia].
  rewrite Hp. apply list_elem_of_fmap. by exists r.
Qed.

Lemma ForallOrdPairs_lookup {A} (R : A → A → Prop) l i j a b :
  (∀ a b, R a b → R b a) → ForallOrdPairs R l → i ≠ j → l !! i = Some a → l !! j = Some b → R a b.
Proof.
  intros Hsym Hl. revert i j. induction Hl as [|x l Hx Hl IH]; intros i j Hij Ha Hb; [done|].
  rewrite Forall_forall in Hx. destruct i as [|i], j as [|j]; cbn in Ha, Hb; [done|..]; simplify_eq.
  - by apply Hx; eapply list_elem_of_lookup_2.
  - by apply Hsym, Hx; eapply list_elem_of_lookup_2.
  - eapply IH; [|done|done]. congruence.
Qed.

(** The kernel in RAM, with the boot data around it. *)
Lemma segments_loaded im plan f s :
  ForallOrdPairs BootPlan.segments_disjoint (kernel_segments plan) →
  Forall (λ s, 0 ≤ source_offset s ∧ source_offset s + file_length s ≤ zlen im ∧
               0 < file_length s ≤ memory_length s ∧ BootPlan.X86_HIMEM_START ≤ guest_address s) (kernel_segments plan) →
  Forall (λ w, w_address w + zlen (w_bytes w) ≤ BootPlan.X86_HIMEM_START) (writes plan) →
  s ∈ kernel_segments plan →
  peek (patches f (plan_stores im plan)) (guest_address s) (file_length s)
  = sub im (source_offset s) (source_offset s + file_length s).
Proof.
  intros Hdis Hok Hw [i Hi]%list_elem_of_lookup. pose proof Hok as Hok'. rewrite Forall_forall in Hok.
  assert (Hlen : ∀ s, s ∈ kernel_segments plan → zlen (segment_store im s).2 = file_length s).
  { intros t Ht. destruct (Hok t Ht) as (? & ? & ? & ?). cbn. rewrite PackedImage.sub_zlen; lia. }
  pose proof (list_elem_of_lookup_2 _ _ _ Hi) as Hin. destruct (Hok s Hin) as (? & ? & ? & ?).
  set (ws := (λ s, BootPlan.mkWrite (guest_address s) (segment_store im s).2) <$> kernel_segments plan).
  assert (Hws : BootPlan.write_pair <$> ws = segment_store im <$> kernel_segments plan).
  { unfold ws. rewrite <-list_fmap_compose. apply list_fmap_ext. by intros. }
  rewrite <-(Hlen s Hin) at 1.
  rewrite (peek_ext _ (patches f (BootPlan.write_pair <$> ws))).
  - apply (BootPlan.peek_patches f ws i (BootPlan.mkWrite (guest_address s) (segment_store im s).2)).
    + intros j v Hj (t & -> & Ht)%list_lookup_fmap_Some. unfold BootPlan.writes_apart. cbn [w_address w_bytes].
      rewrite (Hlen s Hin), (Hlen t) by (by eapply list_elem_of_lookup_2).
      destruct (Hok t) as (_ & _ & ? & _); [by eapply list_elem_of_lookup_2|].
      assert (BootPlan.segments_disjoint s t) as [|]; [|lia..].
      eapply (ForallOrdPairs_lookup BootPlan.segments_disjoint); [|exact Hdis|exact (not_eq_sym Hj)|done|done].
      unfold BootPlan.segments_disjoint. tauto.
    + unfold ws. by rewrite list_lookup_fmap, Hi.
  - intros x Hx. unfold plan_stores. rewrite patches_app, Hws. apply patches_out, Forall_fmap.
    eapply Forall_impl; [exact Hw|]. cbn. lia.
Qed.

Lemma translate_ext f g root a : (∀ x, f x = g x) → BootPlan.translate f root a = BootPlan.translate g root a.
Proof.
  intros Hfg. assert (Hl : ∀ a, BootPlan.load64 f a = BootPlan.load64 g a).
  { intros b. unfold BootPlan.load64. f_equal. by apply peek_ext. }
  unfold BootPlan.translate. by rewrite !Hl.
Qed.

Lemma x86_writes_sized kernel_bytes ram_bytes vcpus cmdline devices plan low rest line table zero_page :
  BootPlan.x86_parts kernel_bytes ram_bytes vcpus cmdline devices plan low rest line table zero_page → 0 ≤ vcpus →
  zlen (writes plan) = 10 ∧ Forall (λ w, 0 < zlen (w_bytes w) ≤ BootPlan.MAX_BOOT_WRITE_BYTES) (writes plan).
Proof.
  intros X Hv. pose proof (BootPlan.plan_fits _ _ _ _ _ _ _ _ _ _ _ X Hv) as Hf.
  pose proof (BootPlan.xp_writes _ _ _ _ _ _ _ _ _ _ _ X) as Hw.
  split; [rewrite Hw; reflexivity|]. apply Forall_lookup. intros i w Hi. split.
  - assert (Hne : Forall (λ w, w_bytes w ≠ []) (writes plan)).
    { rewrite Hw. apply Forall_app. split; [apply (bool_decide_unpack _); vm_compute; exact I|].
      repeat constructor; cbn [w_bytes].
      - by destruct line.
      - pose proof (BootPlan.xp_zero_page _ _ _ _ _ _ _ _ _ _ _ X) as Hz.
        apply BootPlan.zero_page_zlen in Hz; [|by eapply BootPlan.rest_short]. by destruct zero_page.
      - destruct (BootPlan.mp_table_all (λ _ t, negb (bool_decide (t = []))) vcpus table) as [_ H];
          [vm_compute; reflexivity|done|apply X|]. by apply negb_true_iff, bool_decide_eq_false in H. }
    apply zlen_pos. exact (Forall_lookup_1 (λ w, w_bytes w ≠ []) _ _ _ Hne Hi).
  - destruct (Forall2_lookup_l _ _ _ _ _ Hf Hi) as (slot & Hslot & _ & Hn).
    assert (Hs : forallb (λ s, s.2 <=? BootPlan.MAX_BOOT_WRITE_BYTES) BootPlan.x86_slots = true) by (vm_compute; reflexivity).
    rewrite forallb_forall in Hs. specialize (Hs slot ltac:(apply list_elem_of_In; by eapply list_elem_of_lookup_2)).
    breflect. lia.
Qed.

Lemma x86_plan_fits usize_max prefix kernel_bytes ram_bytes vcpus cmdline devices plan l m :
  bytes prefix → bytes cmdline → 0 ≤ vcpus → u64 ram_bytes → u64 kernel_bytes → Forall BootPlan.typed_device devices →
  BootPlan.plan_x86 usize_max prefix kernel_bytes ram_bytes vcpus cmdline devices = Some (Ok plan) →
  x86_ram_layout ram_bytes = Some l → from_layout l = Some m →
  typed_plan plan ∧
  (zlen (kernel_segments plan) ≤ MAX_BOOT_KERNEL_SEGMENTS →
   sumZ (file_length <$> kernel_segments plan) ≤ kernel_bytes → plan_fits plan m kernel_bytes).
Proof.
  intros Hb Hc Hv Hu Hk Hd Hp Hl Hm.
  destruct (BootPlan.plan_x86_inv _ _ _ _ _ _ _ _ Hb Hp) as (low & rest & line & table & page & X).
  destruct (BootPlan.x86_parts_ok _ _ _ _ _ _ _ _ _ _ _ X Hv) as (l' & Hl' & [He Hs _ Hw _]).
  assert (l' = l) as -> by congruence. destruct (x86_writes_sized _ _ _ _ _ _ _ _ _ _ _ X Hv) as [Hten Hsize].
  assert (Hcont : ∀ a n, BootPlan.in_ram l a n → 0 < n → contains_range m a n = true) by (intros a n; exact (layout_contains ram_bytes l m a n Hu Hl Hm)).
  destruct (BootPlan.layout_bases _ _ Hu Hl) as [Hreg _].
  split; [split; [|by eapply BootPlan.x86_writes_bytes]|].
  - eapply Forall_impl; [exact Hs|]. intros s (? & ? & ? & ? & (r & Hr & ? & ?)%Exists_exists).
    destruct (Hreg r Hr) as (_ & _ & ?). assert (0 < BootPlan.X86_HIMEM_START) by done. destruct Hk.
    unfold typed_segment. unfold_ints. lia.
  - intros Hcount Hsum. split.
    + destruct He as (s & Hin & _). split_and!; [by intros Hn; rewrite Hn in Hin; apply elem_of_nil in Hin|done|].
      rewrite Hten. by vm_compute.
    + eapply Forall_impl; [exact Hs|]. intros s (? & ? & ? & ? & ?).
      assert (0 < BootPlan.X86_HIMEM_START) by done. split; [lia|lia|lia|apply Hcont; [done|lia]].
    + done.
    + apply Forall_forall. intros w Hi. rewrite Forall_forall in Hw. rewrite Forall_forall in Hsize.
      destruct (Hw w Hi), (Hsize w Hi). split; [done|]. by apply Hcont.
    + apply Exists_exists. destruct He as (s & ? & ?). by exists s.
    + rewrite (BootPlan.xp_argument _ _ _ _ _ _ _ _ _ _ _ X).
      assert (Hz : writes plan !! 8%nat = Some (BootPlan.mkWrite BootPlan.X86_ZERO_PAGE page))
        by (by rewrite (BootPlan.xp_writes _ _ _ _ _ _ _ _ _ _ _ X)).
      apply list_elem_of_lookup_2 in Hz. rewrite Forall_forall in Hw. rewrite Forall_forall in Hsize.
      destruct (Hw _ Hz) as [Hin _], (Hsize _ Hz) as [Hpos _]. cbn [w_address w_bytes] in *.
      eapply contains_sub; [exact (Hcont _ _ Hin Hpos)|lia..].
Qed.
End X86.

(** *** The machine, the kernel and its container *)

Record x86_machine (config : MachineConfig) (line : list Z) : Prop := {
  xm_x86 : Machine.c_architecture config = Machine.X86;
  xm_ram : u64 (Machine.c_ram_bytes config);
  xm_vcpus : 0 ≤ Machine.c_vcpus config;
  xm_devices : Forall (λ d, u64 (Machine.mmio_base d) ∧ u32 (Machine.irq d)) (Machine.c_devices config);
  xm_line : bytes line ∧ zlen line ≤ BootPlan.MAX_BOOT_COMMAND_LINE_BYTES;
}.

(** What the processor finds in memory at its first instruction. *)
Record x86_booted (l : RamLayout) (vcpus : Z) (im : list Z) (plan : Plan) (mem : Z → Z) : Prop := {
  xb_kernel : ∀ s, s ∈ kernel_segments plan →
    peek mem (guest_address s) (file_length s) = sub im (source_offset s) (source_offset s + file_length s);
  xb_entry : ∃ s, s ∈ kernel_segments plan ∧ guest_address s ≤ entry plan < guest_address s + memory_length s;
  xb_paging : ∀ a, 0 ≤ a < 2 ^ 32 → BootPlan.translate mem BootPlan.X86_PML4_ADDR a = Some a;
  xb_memory_map : ∀ x, BootPlan.usable (BootPlan.read_e820 (peek mem (boot_argument plan) 4096)) x
                       ↔ BootPlan.x86_ram_usable l x;
  xb_processors : ∃ n, BootPlan.mp_valid vcpus (peek mem BootPlan.X86_MP_TABLE n) = true;
}.

Section Boots.
Context {B : Type} `{!Backing B}.
Context (decompress_into : list Z → list Z → result unit Z * list Z).
Hypothesis decompress_length : ∀ block out, zlen (decompress_into block out).2 = zlen out.
Hypothesis decompress_bytes : ∀ block out, bytes block → bytes out → bytes (decompress_into block out).2.

Lemma prefix_of_bytes im : bytes im → bytes (prefix_of im).
Proof. apply sub_bytes. Qed.

(** The memory after an accepted plan. *)
Lemma plan_booted usize_max im config line plan l (m m' : GuestMem B) :
  x86_machine config line → bytes im →
  x86_ram_layout (Machine.c_ram_bytes config) = Some l →
  BootPlan.plan_x86 usize_max (prefix_of im) (zlen im) (Machine.c_ram_bytes config) (Machine.c_vcpus config) line
    (Machine.render_device <$> Machine.c_devices config) = Some (Ok plan) →
  stored m (plan_stores im plan) m' →
  x86_booted l (Machine.c_vcpus config) im plan (b_byte (backing m')).
Proof.
  intros [_ Hu Hv _ _] Hb Hl Hp (_ & _ & _ & Hx). pose proof (prefix_of_bytes im Hb) as Hpb.
  destruct (BootPlan.plan_x86_inv _ _ _ _ _ _ _ _ Hpb Hp) as (low & rest & text & table & page & X).
  destruct (BootPlan.x86_parts_ok _ _ _ _ _ _ _ _ _ _ _ X Hv) as (l' & Hl' & [He Hs Hdis Hw _]).
  assert (l' = l) as -> by congruence.
  set (f := patches (b_byte (backing m)) (segment_store im <$> kernel_segments plan)).
  assert (Hload : ∀ x, b_byte (backing m') x = BootPlan.loaded f plan x).
  { intros x. rewrite Hx. unfold plan_stores, BootPlan.loaded, f. by rewrite patches_app. }
  destruct (BootPlan.x86_boot_memory _ _ _ _ _ _ _ _ f Hu Hpb Hv Hp) as (Hwalk & (l' & Hl2 & Hmap) & [n Hmp]).
  assert (l' = l) as -> by congruence. split.
  - intros s Hin. rewrite (peek_ext _ (patches (b_byte (backing m)) (plan_stores im plan))) by (intros; apply Hx).
    apply segments_loaded; [done| | |done].
    + eapply Forall_impl; [exact Hs|]. intros t (? & ? & ? & ? & _). done.
    + eapply Forall_impl; [exact Hw|]. by intros w [_ ?].
  - done.
  - intros a Ha. rewrite (translate_ext _ _ _ _ Hload). by apply Hwalk.
  - intros x. rewrite (peek_ext _ (BootPlan.loaded f plan)) by (intros; apply Hload). apply Hmap.
  - exists n. by rewrite (peek_ext _ (BootPlan.loaded f plan)) by (intros; apply Hload).
Qed.

(** A plan that no limit of the host refuses. *)
Definition within_limits (im : list Z) (plan : Plan) : bool :=
  (zlen (kernel_segments plan) <=? MAX_BOOT_KERNEL_SEGMENTS)
  && (sumZ (file_length <$> kernel_segments plan) <=? zlen im).

Lemma apply_refused plan (m : GuestMem B) k :
  PackedImage.parsed U64_MAX k → typed_plan plan →
  (zlen (kernel_segments plan) <=? MAX_BOOT_KERNEL_SEGMENTS)
    && (sumZ (file_length <$> kernel_segments plan) <=? image_bytes k) = false →
  ∃ e, apply_plan decompress_into plan m k = Some (Err e, (m, k)).
Proof.
  intros Hp Ht Hlim. pose proof (validate_plan_spec plan m (image_bytes k) (proj2 (PackedImage.pa_image _ _ Hp)) Ht) as Hv.
  unfold apply_plan. destruct (validate_plan plan m (image_bytes k)) as [[]|e]; [|by eexists].
  destruct (proj1 Hv eq_refl) as [(_ & Hc & _) _ Hs _ _ _].
  apply andb_false_iff in Hlim as [Hlim|Hlim]; apply Z.leb_gt in Hlim; lia.
Qed.

Lemma x86_stage usize_max write_fdt config prefix n line :
  Machine.c_architecture config = Machine.X86 →
  stage usize_max write_fdt (render_machine_config config) prefix n line
  = BootPlan.plan_x86 usize_max prefix n (Machine.c_ram_bytes config) (Machine.c_vcpus config) line
      (Machine.render_device <$> Machine.c_devices config).
Proof. intros Hx. unfold stage. cbn. by rewrite Hx. Qed.

End Boots.

(** ** Witnesses *)

Definition demo_packed : list Z :=
  PackedImage.MAGIC ++ PackedImage.marker PackedImage.Kernel ++ le_bytes 8 120 ++ le_bytes 4 121
  ++ 1 :: BootPlan.demo_kernel.
Definition demo_config : MachineConfig :=
  Machine.mkConfig Machine.X86 BootPlan.demo_ram 1 (Machine.built_devices Machine.X86 0 0).
Definition demo_memory : GuestMem Flat.t := mkMem (Flat.mk [(0, BootPlan.demo_ram)] ∅) BootPlan.demo_ram.

Lemma demo_decompress_bytes block out :
  bytes block → bytes out → bytes (PackedImage.demo_decompress block out).2.
Proof.
  intros Hb Ho. destruct block as [|b block]; [done|]. apply Forall_cons in Hb as [_ Hb]. cbn.
  by destruct (zlen block =? zlen out).
Qed.

Lemma demo_packed_bytes : bytes demo_packed.
Proof. apply (bool_decide_unpack _). vm_compute. exact I. Qed.

(** A plan that writes over its own kernel. *)
Definition hostile_plan : Plan :=
  BootPlan.mkPlan 0 0 [BootPlan.mkSegment 0 0 8 8] [BootPlan.mkWrite 4 [255]].

Lemma boot_stores_confined_witness :
  ∃ k r m' k', PackedImage.parse U64_MAX (λ n, n + 20) demo_packed PackedImage.Kernel = Ok k ∧
    boot_prepared_machine PackedImage.demo_decompress (λ _ _ _ _, Some (Ok hostile_plan)) demo_config demo_memory k []
      = Some (r, (m', k')) ∧
    boot_outcome (λ o, ∃ prefix : list Z, Some (Ok hostile_plan) = o) demo_memory (image_bytes k) r m'.
Proof.
  destruct (PackedImage.parse U64_MAX (λ n, n + 20) demo_packed PackedImage.Kernel) as [k|] eqn:Hk;
    [|vm_compute in Hk; discriminate].
  exists k.
  destruct (boot_stores_confined PackedImage.demo_decompress (λ _ _ _ _, Some (Ok hostile_plan)) (λ n, n + 20)
    demo_packed demo_config demo_memory k []) as (r & m' & k' & Hboot & Hout).
  - exact PackedImage.demo_decompress_length.
  - exact demo_decompress_bytes.
  - intros _ _ _ _ plan [= <-]. split; repeat constructor; cbn; unfold_ints; lia.
  - exact demo_packed_bytes.
  - exact Hk.
  - exists r, m', k'. split; [reflexivity|]. split; [exact Hboot|exact Hout].
Defined.


End BootApply.
