(* ===== verification/FsWire.v ===== *)
(** * The FUSE messages of the file system device

    [components/fs/src/wire.rs] and the pure encoders and decoders of
    [components/fs/src/transport.rs]: requests and replies, names inside a
    request, attributes, entries, directory listings and open flags.

    Byte strings are lists of [Z]; an error is its [errno]. *)

From stdpp Require Import list.
From S2P Require Import Prelude Dns PackedImage.

Local Open Scope Z_scope.

Module Wire.
Import PackedImage (sub, splice).
Import Dns (is_utf8).

(** ** Constants *)

Definition HEADER : Z := 40.
Definition OUT_HEADER : Z := 16.
Definition INIT : Z := 26.
Definition RECEIVE_EVENT : Z := 4096.
Definition CANCEL_EVENTS : Z := 4097.
Definition EVENT_SAME_INODE : Z := 0x200.
Definition FORGET : Z := 2.
Definition LOOKUP : Z := 1.
Definition GETATTR : Z := 3.
Definition SETATTR : Z := 4.
Definition READLINK : Z := 5.
Definition SYMLINK : Z := 6.
Definition MKDIR : Z := 9.
Definition UNLINK : Z := 10.
Definition RMDIR : Z := 11.
Definition RENAME : Z := 12.
Definition LINK : Z := 13.
Definition OPEN : Z := 14.
Definition READ : Z := 15.
Definition WRITE : Z := 16.
Definition STATFS : Z := 17.
Definition RELEASE : Z := 18.
Definition FSYNC : Z := 20.
Definition SETXATTR : Z := 21.
Definition REMOVEXATTR : Z := 24.
Definition FLUSH : Z := 25.
Definition OPENDIR : Z := 27.
Definition READDIR : Z := 28.
Definition RELEASEDIR : Z := 29.
Definition FSYNCDIR : Z := 30.
Definition GETLK : Z := 31.
Definition SETLKW : Z := 33.
Definition CREATE : Z := 35.
Definition FORGET_MULTI : Z := 42.
Definition FALLOCATE : Z := 43.
Definition RENAME2 : Z := 45.
Definition LSEEK : Z := 46.
Definition SYNCFS : Z := 50.
Definition INIT_OUT : Z := 64.
Definition EPERM : Z := 1.
Definition ENOENT : Z := 2.
Definition EINTR : Z := 4.
Definition EIO : Z := 5.
Definition ENXIO : Z := 6.
Definition EBADF : Z := 9.
Definition ENOMEM : Z := 12.
Definition EACCES : Z := 13.
Definition EBUSY : Z := 16.
Definition EEXIST : Z := 17.
Definition EXDEV : Z := 18.
Definition ENODEV : Z := 19.
Definition ENOTDIR : Z := 20.
Definition EISDIR : Z := 21.
Definition EINVAL : Z := 22.
Definition EMFILE : Z := 24.
Definition ENOTTY : Z := 25.
Definition ETXTBSY : Z := 26.
Definition EFBIG : Z := 27.
Definition ENOSPC : Z := 28.
Definition ESPIPE : Z := 29.
Definition EROFS : Z := 30.
Definition EMLINK : Z := 31.
Definition EPIPE : Z := 32.
Definition EDEADLK : Z := 35.
Definition ENAMETOOLONG : Z := 36.
Definition ENOLCK : Z := 37.
Definition ENOSYS : Z := 38.
Definition ENOTEMPTY : Z := 39.
Definition ELOOP : Z := 40.
Definition EOVERFLOW : Z := 75.
Definition EILSEQ : Z := 84.
Definition EMSGSIZE : Z := 90.
Definition EOPNOTSUPP : Z := 95.
Definition EALREADY : Z := 114.
Definition EINPROGRESS : Z := 115.
Definition EDQUOT : Z := 122.
Definition ENOTRECOVERABLE : Z := 131.
Definition FILE_EVENTS : Z := Z.shiftl 1 31.
Definition INIT_EXT : Z := Z.shiftl 1 30.
Definition BIG_WRITES : Z := Z.shiftl 1 5.
Definition MAX_PAGES : Z := Z.shiftl 1 22.
Definition GUEST_PAGE_BYTES : Z := 4096.
Definition MAX_READ_PAGES : Z := 16.
Definition MAX_READ : Z := MAX_READ_PAGES * GUEST_PAGE_BYTES.

(** ** Requests and replies *)

Record Request := mkRequest { opcode : Z; unique : Z; node : Z; body : list Z }.

Definition u32_at (bs : list Z) (start : Z) : result Z Z :=
  ok_or EINVAL (from_le <$> slice bs start (start + 4)).
Definition u64_at (bs : list Z) (start : Z) : result Z Z :=
  ok_or EINVAL (from_le <$> slice bs start (start + 8)).

Definition request (bs : list Z) : result Z Request :=
  if zlen bs <? HEADER then Err EINVAL else
  len ← u32_at bs 0;
  if (len <? HEADER) || (zlen bs <? len) then Err EINVAL else
  opcode ← u32_at bs 4;
  unique ← u64_at bs 8;
  node ← u64_at bs 16;
  Ok (mkRequest opcode unique node (sub bs HEADER len)).

(** [u32::try_from(n).unwrap_or(u32::MAX)] *)
Definition clamp32 (n : Z) : Z := if n <=? U32_MAX then n else U32_MAX.

(** [-error] is an [i32] in two's complement. *)
Definition reply (unique error : Z) (body : list Z) : list Z :=
  let len := OUT_HEADER + zlen body in
  le_bytes 4 (clamp32 len) ++ le_bytes 4 ((- error) mod 2 ^ 32) ++ le_bytes 8 unique ++ body.

Definition zeros (n : Z) : list Z := replicate (Z.to_nat n) 0.

Definition init (body : list Z) : result Z (list Z) :=
  if zlen body <? 16 then Err EINVAL else
  major ← u32_at body 0;
  if negb (major =? 7) then Err EINVAL else
  minor ← u32_at body 4;
  flags ← u32_at body 12;
  let extended := negb (Z.land flags INIT_EXT =? 0) in
  let out := zeros INIT_OUT in
  let out := splice out 0 (le_bytes 4 7) in
  let out := splice out 4 (le_bytes 4 (Z.min minor 40)) in
  let out := splice out 8 (le_bytes 4 (64 * 1024)) in
  let out := splice out 12 (le_bytes 4 (Z.land flags (Z.lor (Z.lor INIT_EXT BIG_WRITES) MAX_PAGES))) in
  let out := splice out 16 (le_bytes 2 64) in
  let out := splice out 18 (le_bytes 2 48) in
  let out := splice out 20 (le_bytes 4 (64 * 1024)) in
  let out := splice out 24 (le_bytes 4 1) in
  let out := splice out 28 (le_bytes 2 MAX_READ_PAGES) in
  Ok (if extended
      then splice out 32 (le_bytes 4 (Z.land (match u32_at body 16 with Ok f => f | Err _ => 0 end) FILE_EVENTS))
      else out).

(** ** Names *)

Fixpoint take_until_nul (bs : list Z) : list Z :=
  match bs with [] => [] | c :: bs => if c =? 0 then [] else c :: take_until_nul bs end.

(** Slash, backslash and colon. *)
Definition is_separator (c : Z) : bool := (c =? 47) || (c =? 92) || (c =? 58).

Definition name (bs : list Z) : result Z (list Z) :=
  let n := take_until_nul bs in
  if bool_decide (n = []) || (zlen n =? zlen bs) || existsb is_separator n then Err EINVAL else Ok n.

(** [iter().position(|byte| *byte == 0)] *)
Definition position_nul (bs : list Z) : option Z :=
  let n := zlen (take_until_nul bs) in if n <? zlen bs then Some n else None.

Definition names (bs : list Z) : result Z (list Z * list Z) :=
  split ← ok_or EINVAL (position_nul bs);
  a ← name (sub bs 0 (split + 1));
  b ← name (sub bs (split + 1) (zlen bs));
  Ok (a, b).

(** [strip_suffix(&[0])] *)
Definition strip_nul (bs : list Z) : option (list Z) :=
  match rev bs with c :: r => if c =? 0 then Some (rev r) else None | [] => None end.

Definition symlink_parts (bs : list Z) : result Z (list Z * list Z) :=
  split ← ok_or EINVAL (position_nul bs);
  target ← ok_or EINVAL (slice bs (split + 1) (zlen bs));
  target ← ok_or EINVAL (strip_nul target);
  if existsb (λ c, c =? 0) target then Err EINVAL else
  n ← name (sub bs 0 (split + 1));
  Ok (n, target).

(** [text] of [host.rs]: what is handed to the host as one path component. *)
Definition dot : list Z := [46].
Definition dotdot : list Z := [46; 46].
Definition text (bs : list Z) : result Z (list Z) :=
  if bool_decide (bs = []) || existsb (λ c, c =? 0) bs || existsb (λ c, c =? 47) bs
     || bool_decide (bs = dot) || bool_decide (bs = dotdot)
  then Err EINVAL else
  if is_utf8 bs then Ok bs else Err EILSEQ.

(** ** Host types *)

Inductive DescriptorType : Type :=
| BlockDevice | CharacterDevice | Directory | Fifo | SymbolicLink | RegularFile | Socket | OtherType.
#[export] Instance DescriptorType_eq_dec : EqDecision DescriptorType.
Proof. solve_decision. Defined.

Inductive ErrorCode : Type :=
| Access | Already | BadDescriptor | Busy | Deadlock | Quota | Exist | FileTooLarge
| IllegalByteSequence | InProgress | Interrupted | Invalid | Io | IsDirectory | Loop | TooManyLinks
| MessageSize | NameTooLong | NoDevice | NoEntry | NoLock | InsufficientMemory | InsufficientSpace
| NotDirectory | NotEmpty | NotRecoverable | Unsupported | NoTty | NoSuchDevice | Overflow
| NotPermitted | Pipe | ReadOnly | InvalidSeek | TextFileBusy | CrossDevice | OtherError.
#[export] Instance ErrorCode_eq_dec : EqDecision ErrorCode.
Proof. solve_decision. Defined.

Definition wasi_error (e : ErrorCode) : Z :=
  match e with
  | Access => EACCES | Already => EALREADY | BadDescriptor => EBADF | Busy => EBUSY
  | Deadlock => EDEADLK | Quota => EDQUOT | Exist => EEXIST | FileTooLarge => EFBIG
  | IllegalByteSequence => EILSEQ | InProgress => EINPROGRESS | Interrupted => EINTR
  | Invalid => EINVAL | Io | OtherError => EIO | IsDirectory => EISDIR | Loop => ELOOP
  | TooManyLinks => EMLINK | MessageSize => EMSGSIZE | NameTooLong => ENAMETOOLONG
  | NoDevice => ENODEV | NoEntry => ENOENT | NoLock => ENOLCK | InsufficientMemory => ENOMEM
  | InsufficientSpace => ENOSPC | NotDirectory => ENOTDIR | NotEmpty => ENOTEMPTY
  | NotRecoverable => ENOTRECOVERABLE | Unsupported => EOPNOTSUPP | NoTty => ENOTTY
  | NoSuchDevice => ENXIO | Overflow => EOVERFLOW | NotPermitted => EPERM | Pipe => EPIPE
  | ReadOnly => EROFS | InvalidSeek => ESPIPE | TextFileBusy => ETXTBSY | CrossDevice => EXDEV
  end.

Record Instant := mkInstant { seconds : Z; nanoseconds : Z }.
Record Stat := mkStat {
  dev : Z; ino : Z; mode : Z; nlink : Z; uid : Z; gid : Z; size : Z; blocks : Z;
  atime : Instant; mtime : Instant; ctime : Instant;
}.
Record FilesystemStat := mkFsStat {
  fs_blocks : Z; blocks_free : Z; blocks_available : Z; files : Z; files_free : Z;
  block_size : Z; name_max : Z;
}.

(** ** Reply bodies *)

(** [u64::try_from(seconds).unwrap_or_default()] on an [i64]. *)
Definition epoch_seconds (t : Instant) : Z := if seconds t <? 0 then 0 else seconds t.

Fixpoint put_times (out : list Z) (index : Z) (times : list Instant) : list Z :=
  match times with
  | [] => out
  | t :: times =>
      let out := splice out (24 + 8 * index) (le_bytes 8 (epoch_seconds t)) in
      put_times (splice out (48 + 4 * index) (le_bytes 4 (nanoseconds t))) (index + 1) times
  end.

Definition attr (s : Stat) : list Z :=
  let out := zeros 88 in
  let out := splice out 0 (le_bytes 8 (ino s)) in
  let out := splice out 8 (le_bytes 8 (size s)) in
  let out := splice out 16 (le_bytes 8 (blocks s)) in
  let out := put_times out 0 [atime s; mtime s; ctime s] in
  let out := splice out 60 (le_bytes 4 (mode s)) in
  let out := splice out 64 (le_bytes 4 (clamp32 (nlink s))) in
  let out := splice out 68 (le_bytes 4 (uid s)) in
  splice out 72 (le_bytes 4 (gid s)).

Definition attr_out (s : Stat) : list Z := zeros 16 ++ attr s.

Definition entry_out (s : Stat) (node : Z) : list Z :=
  splice (splice (zeros 128) 0 (le_bytes 8 node)) 40 (attr s).

Definition dirent_type (t : DescriptorType) : Z :=
  match t with
  | Directory => 4 | SymbolicLink => 10 | RegularFile => 8 | BlockDevice => 6
  | CharacterDevice => 2 | Fifo => 1 | Socket => 12 | OtherType => 0
  end.

Definition I64_MAX : Z := 2 ^ 63 - 1.
Definition timestamp (seconds nanoseconds : Z) : Instant :=
  mkInstant (if seconds <=? I64_MAX then seconds else I64_MAX) nanoseconds.

Record DirectoryEntry := mkEntry { e_name : list Z; e_inode : Z; e_type : DescriptorType; e_next : Z }.

(** [(size + 7) & !7] *)
Definition pad8 (n : Z) : Z := Z.land (n + 7) (Z.lnot 7).

Definition dirent (e : DirectoryEntry) : list Z :=
  let size := 24 + zlen (e_name e) in
  le_bytes 8 (e_inode e) ++ le_bytes 8 (e_next e) ++ le_bytes 4 (clamp32 (zlen (e_name e)))
  ++ le_bytes 4 (dirent_type (e_type e)) ++ e_name e ++ zeros (pad8 size - size).

Fixpoint dirents_loop (entries : list DirectoryEntry) (max : Z) (out : list Z) : list Z :=
  match entries with
  | [] => out
  | e :: entries =>
      if sat_sub max (zlen out) <? pad8 (24 + zlen (e_name e)) then out
      else dirents_loop entries max (out ++ dirent e)
  end.
Definition dirents_out (entries : list DirectoryEntry) (max : Z) : list Z := dirents_loop entries max [].

Definition open_out (inode : Z) : list Z := splice (zeros 16) 0 (le_bytes 8 inode).
Definition write_out (size : Z) : list Z := splice (zeros 8) 0 (le_bytes 4 size).

Definition statfs_out (s : FilesystemStat) : list Z :=
  let out := zeros 80 in
  let out := splice out 0 (le_bytes 8 (fs_blocks s)) in
  let out := splice out 8 (le_bytes 8 (blocks_free s)) in
  let out := splice out 16 (le_bytes 8 (blocks_available s)) in
  let out := splice out 24 (le_bytes 8 (files s)) in
  let out := splice out 32 (le_bytes 8 (files_free s)) in
  let out := splice out 40 (le_bytes 4 (block_size s)) in
  let out := splice out 44 (le_bytes 4 (name_max s)) in
  splice out 48 (le_bytes 4 (block_size s)).

Definition flush_body (body : list Z) : result Z unit := require (zlen body =? 24) EINVAL.

Definition encode_response (unique : Z) (r : result Z (list Z)) : list Z :=
  match r with Ok body => reply unique 0 body | Err errno => reply unique errno [] end.

(** ** Open flags *)

Definition O_ACCMODE : Z := 3.
Definition O_CREAT : Z := 0x40.
Definition O_EXCL : Z := 0x80.
Definition O_TRUNC : Z := 0x200.
Definition O_APPEND : Z := 0x400.
Definition O_NONBLOCK : Z := 0x800.
Definition O_LARGEFILE : Z := 0x8000.
Definition O_NOFOLLOW : Z := 0x20000.
Definition O_CLOEXEC : Z := 0x80000.
Definition FMODE_EXEC : Z := 0x20.
Definition ACCEPTED_OPEN_FLAGS : Z :=
  foldl Z.lor O_ACCMODE [O_TRUNC; O_APPEND; O_NONBLOCK; O_LARGEFILE; O_NOFOLLOW; O_CLOEXEC; FMODE_EXEC].

Definition validate_flags (flags accepted : Z) : result Z unit :=
  if negb (Z.land flags (not32 accepted) =? 0) || (Z.land flags O_ACCMODE =? O_ACCMODE)
  then Err EINVAL else Ok tt.

(** The WASI flag sets as records of booleans. *)
Record OpenFlags := mkOpenFlags { f_create : bool; f_directory : bool; f_exclusive : bool; f_truncate : bool }.
Record DescriptorFlags := mkDescriptorFlags { f_read : bool; f_write : bool; f_mutate_directory : bool }.

Definition create_flags (flags : Z) : result Z OpenFlags :=
  _ ← validate_flags flags (Z.lor (Z.lor ACCEPTED_OPEN_FLAGS O_CREAT) O_EXCL);
  Ok (mkOpenFlags true false (negb (Z.land flags O_EXCL =? 0)) (negb (Z.land flags O_TRUNC =? 0))).

Definition open_flags (flags : Z) : result Z (DescriptorFlags * bool * bool) :=
  _ ← validate_flags flags ACCEPTED_OPEN_FLAGS;
  let access :=
    if Z.land flags O_ACCMODE =? 0 then mkDescriptorFlags true false false
    else if Z.land flags O_ACCMODE =? 1 then mkDescriptorFlags false true false
    else mkDescriptorFlags true true false in
  Ok (access, negb (Z.land flags O_ACCMODE =? 0), negb (Z.land flags O_TRUNC =? 0)).

(** ** Names *)

(** A byte of a name: not the terminator and no separator. *)
Definition name_byte (c : Z) : Prop := c ≠ 0 ∧ c ≠ 47 ∧ c ≠ 92 ∧ c ≠ 58.

Lemma take_until_nul_split bs n :
  take_until_nul bs = n ↔
  Forall (λ c, c ≠ 0) n ∧ (bs = n ∨ ∃ rest, bs = n ++ 0 :: rest).
Proof.
  revert n. induction bs as [|c bs IH]; intros n; cbn [take_until_nul].
  - split; [intros <-; split; [constructor|by left]|]. intros [_ [->|(rest & H)]]; [done|].
    by destruct n.
  - destruct (Z.eqb_spec c 0) as [->|Hc].
    + split.
      * intros <-. split; [constructor|]. right. by exists bs.
      * intros [Hn H]. destruct n as [|d n]; [done|]. apply Forall_cons in Hn as [Hd _].
        destruct H as [[= <- _]|(rest & [= <- _])]; done.
    + split.
      * intros <-. destruct (proj1 (IH _) eq_refl) as [Hf H]. split; [by constructor|].
        destruct H as [<-|(rest & H)]; [by left|]. right. exists rest. cbn. by rewrite <-H.
      * intros [Hn H]. destruct n as [|d n].
        { destruct H as [?|(rest & [= -> _])]; done. }
        apply Forall_cons in Hn as [_ Hn].
        destruct H as [[= <- ->]|(rest & [= <- ->])]; f_equal; apply IH; (split; [done|]); [by left|right; by eexists].
Qed.

Lemma is_separator_spec n : existsb is_separator n = false ↔ Forall (λ c, c ≠ 47 ∧ c ≠ 92 ∧ c ≠ 58) n.
Proof.
  induction n as [|c n IH]; [by split|]. cbn [existsb]. rewrite orb_false_iff, Forall_cons, IH. unfold is_separator.
  rewrite !orb_false_iff, !Z.eqb_neq. tauto.
Qed.

Lemma name_exact bs n :
  name bs = Ok n ↔ n ≠ [] ∧ Forall name_byte n ∧ ∃ rest, bs = n ++ 0 :: rest.
Proof.
  unfold name. assert (Hb : Forall name_byte n ↔ Forall (λ c, c ≠ 0) n ∧ existsb is_separator n = false).
  { rewrite is_separator_spec, <-Forall_and. unfold name_byte. done. }
  rewrite Hb. clear Hb. split.
  - destruct (bool_decide (take_until_nul bs = [])) eqn:H1; [done|].
    destruct (zlen (take_until_nul bs) =? zlen bs) eqn:H2; [done|].
    destruct (existsb is_separator (take_until_nul bs)) eqn:H3; [done|]. cbn [orb]. intros [= <-].
    apply bool_decide_eq_false in H1. apply Z.eqb_neq in H2.
    destruct (proj1 (take_until_nul_split bs _) eq_refl) as [Hn [Hbs|Hbs]]; [by rewrite <-Hbs in H2|]. done.
  - intros (Hne & [Hn Hs] & rest & ->).
    assert (Ht : take_until_nul (n ++ 0 :: rest) = n) by (apply take_until_nul_split; split; [done|right; by eexists]).
    rewrite Ht, bool_decide_eq_false_2, Hs by done. rewrite zlen_app.
    rewrite (proj2 (Z.eqb_neq _ _)); [done|]. unfold zlen. cbn [length]. lia.
Qed.

Lemma names_exact bs a b :
  names bs = Ok (a, b) →
  ∃ rest, bs = a ++ 0 :: b ++ 0 :: rest ∧ Forall name_byte (a ++ b) ∧ a ≠ [] ∧ b ≠ [].
Proof.
  unfold names, position_nul. destruct (Z.ltb_spec (zlen (take_until_nul bs)) (zlen bs)) as [Hlt|]; [|done]. rsimpl.
  destruct (name (sub bs 0 _)) as [a'|] eqn:Ha; [|done]. rsimpl.
  destruct (name (sub bs _ (zlen bs))) as [b'|] eqn:Hb; [|done]. rsimpl. intros [= -> ->].
  apply name_exact in Ha as (Hane & Haf & ra & Ha). apply name_exact in Hb as (Hbne & Hbf & rb & Hb).
  set (n := zlen (take_until_nul bs)) in *. assert (0 ≤ n) by apply zlen_nonneg.
  assert (Hsplit : bs = sub bs 0 (n + 1) ++ sub bs (n + 1) (zlen bs)).
  { rewrite PackedImage.sub_split by lia. by rewrite PackedImage.sub_all. }
  assert (Hra : ra = []).
  { destruct (proj1 (take_until_nul_split bs _) eq_refl) as [Hn [Hbs|(rest & Hbs)]].
    - unfold n in Hlt. rewrite <-Hbs in Hlt. lia.
    - assert (Hz : zlen (sub bs 0 (n + 1)) = n + 1) by (rewrite PackedImage.sub_zlen; lia).
      assert (Hat : take_until_nul bs = a).
      { apply take_until_nul_split. split; [eapply Forall_impl; [exact Haf|]; by intros c []|]. right.
        exists (ra ++ sub bs (n + 1) (zlen bs)). rewrite Hsplit at 1. rewrite Ha. by rewrite <-(assoc_L (++)). }
      rewrite Ha, zlen_app in Hz. unfold n in Hz. rewrite Hat in Hz. unfold zlen in Hz. cbn [length] in Hz.
      destruct ra; [done|]. cbn [length] in Hz. lia. }
  subst ra. exists rb. rewrite Hsplit, Ha, Hb, <-(assoc_L (++)). split_and!; [done|by apply Forall_app|done|done].
Qed.

Lemma text_plain bs n :
  text bs = Ok n → n = bs ∧ n ≠ [] ∧ (0 ∉ n) ∧ (47 ∉ n) ∧ n ≠ dot ∧ n ≠ dotdot ∧ is_utf8 n = true.
Proof.
  unfold text. destruct (bool_decide (bs = [])) eqn:H1; [done|].
  destruct (existsb _ bs) eqn:H2; [done|]. destruct (existsb (λ c, c =? 47) bs) eqn:H3; [done|].
  destruct (bool_decide (bs = dot)) eqn:H4; [done|]. destruct (bool_decide (bs = dotdot)) eqn:H5; [done|].
  cbn [orb]. destruct (is_utf8 bs) eqn:H6; [|done]. intros [= <-].
  apply bool_decide_eq_false in H1, H4, H5.
  assert (Hno : ∀ x l, existsb (λ c, c =? x) l = false → x ∉ l).
  { intros x l Hl Hin. assert (existsb (λ c, c =? x) l = true); [|congruence].
    apply existsb_exists. exists x. split; [by apply list_elem_of_In|apply Z.eqb_refl]. }
  split_and!; try done; by apply Hno.
Qed.

(** ** Listings *)

Lemma pad8_spec n : 0 ≤ n → pad8 n = (n + 7) / 8 * 8.
Proof.
  intros Hn. unfold pad8. rewrite <-Z.ldiff_land. change 7 with (Z.ones 3) at 2.
  rewrite Z.ldiff_ones_r, Z.shiftl_mul_pow2, Z.shiftr_div_pow2 by lia. done.
Qed.

Lemma pad8_bounds n : 0 ≤ n → n ≤ pad8 n < n + 8 ∧ pad8 n mod 8 = 0.
Proof.
  intros Hn. rewrite pad8_spec by done. split; [|apply Z.mod_mul; lia].
  pose proof (Z.div_mod (n + 7) 8 ltac:(lia)). pose proof (Z.mod_pos_bound (n + 7) 8 ltac:(lia)). lia.
Qed.

(** How the kernel reads a listing: the records one after the other. *)
Fixpoint read_dirents (fuel : nat) (bs : list Z) : list (Z * Z * Z * list Z) :=
  match fuel with
  | O => []
  | S fuel =>
      if zlen bs <? 24 then [] else
      let n := from_le (sub bs 16 20) in
      let len := pad8 (24 + n) in
      if zlen bs <? len then [] else
      (from_le (sub bs 0 8), from_le (sub bs 8 16), from_le (sub bs 20 24), sub bs 24 (24 + n))
        :: read_dirents fuel (drop (Z.to_nat len) bs)
  end.

Definition seen (e : DirectoryEntry) : Z * Z * Z * list Z :=
  (e_inode e, e_next e, dirent_type (e_type e), e_name e).

Definition entry_typed (e : DirectoryEntry) : Prop :=
  u64 (e_inode e) ∧ u64 (e_next e) ∧ zlen (e_name e) ≤ U32_MAX.

Lemma sub_head a l n : zlen a = n → sub (a ++ l) 0 n = a.
Proof.
  intros <-. unfold sub. rewrite Z.sub_0_r. change (Z.to_nat 0) with 0%nat. unfold zlen. rewrite Nat2Z.id, drop_0.
  by rewrite take_app_length.
Qed.

Lemma sub_skip a l n i j : zlen a = n → 0 ≤ i → sub (a ++ l) (n + i) (n + j) = sub l i j.
Proof.
  intros <- Hi. unfold sub. replace (zlen a + j - (zlen a + i)) with (j - i) by lia.
  rewrite Z2Nat.inj_add by (try apply zlen_nonneg; lia). unfold zlen. rewrite Nat2Z.id.
  by rewrite drop_app_add'.
Qed.

Lemma le_zlen n z : zlen (le_bytes n z) = Z.of_nat n.
Proof. unfold zlen. by rewrite le_bytes_length. Qed.

(** The fields of a record header. *)
Lemma header_fields p1 p2 p3 p4 l :
  zlen p1 = 8 → zlen p2 = 8 → zlen p3 = 4 → zlen p4 = 4 →
  let bs := p1 ++ p2 ++ p3 ++ p4 ++ l in
  sub bs 0 8 = p1 ∧ sub bs 8 16 = p2 ∧ sub bs 16 20 = p3 ∧ sub bs 20 24 = p4 ∧
  ∀ n, sub bs 24 (24 + n) = sub l 0 n.
Proof.
  intros H1 H2 H3 H4 bs. unfold bs. split_and!.
  - by apply sub_head.
  - rewrite (sub_skip p1 _ 8 0 8) by done. by apply sub_head.
  - rewrite (sub_skip p1 _ 8 8 12) by done. rewrite (sub_skip p2 _ 8 0 4) by done. by apply sub_head.
  - rewrite (sub_skip p1 _ 8 12 16), (sub_skip p2 _ 8 4 8), (sub_skip p3 _ 4 0 4) by done. by apply sub_head.
  - intros n. replace (24 + n) with (8 + (8 + (4 + (4 + n)))) by lia. rewrite (sub_skip p1 _ 8 16) by done.
    rewrite (sub_skip p2 _ 8 8), (sub_skip p3 _ 4 4), (sub_skip p4 _ 4 0) by done. done.
Qed.

Lemma dirent_zlen e : zlen (dirent e) = pad8 (24 + zlen (e_name e)).
Proof.
  pose proof (zlen_nonneg (e_name e)). destruct (pad8_bounds (24 + zlen (e_name e))) as [Hp _]; [lia|].
  unfold dirent. rewrite !zlen_app, !le_zlen. unfold zeros. unfold zlen at 2. rewrite length_replicate. lia.
Qed.

Lemma dirent_read fuel e rest :
  entry_typed e → read_dirents (S fuel) (dirent e ++ rest) = seen e :: read_dirents fuel rest.
Proof.
  intros (Hi & Hn & Hl). pose proof (zlen_nonneg (e_name e)). pose proof (zlen_nonneg rest).
  pose proof (dirent_zlen e) as Hd. destruct (pad8_bounds (24 + zlen (e_name e))) as [Hp _]; [lia|].
  cbn [read_dirents]. rewrite (proj2 (Z.ltb_ge _ _)) by (rewrite zlen_app; lia).
  set (tail := e_name e ++ zeros (pad8 (24 + zlen (e_name e)) - (24 + zlen (e_name e))) ++ rest).
  assert (Hbs : dirent e ++ rest = le_bytes 8 (e_inode e) ++ le_bytes 8 (e_next e)
    ++ le_bytes 4 (clamp32 (zlen (e_name e))) ++ le_bytes 4 (dirent_type (e_type e)) ++ tail).
  { unfold dirent, tail. by rewrite <-!(assoc_L (++)). }
  destruct (header_fields (le_bytes 8 (e_inode e)) (le_bytes 8 (e_next e)) (le_bytes 4 (clamp32 (zlen (e_name e))))
    (le_bytes 4 (dirent_type (e_type e))) tail) as (F1 & F2 & F3 & F4 & F5); [by rewrite le_zlen..|].
  rewrite <-Hbs in F1, F2, F3, F4, F5. rewrite F1, F2, F3, F4.
  assert (Hc : clamp32 (zlen (e_name e)) = zlen (e_name e)).
  { unfold clamp32. by rewrite (proj2 (Z.leb_le _ _)). }
  rewrite Hc. rewrite !from_le_le_bytes by (unfold U32_MAX in *; unfold_ints; lia).
  rewrite F5, <-Hd, (proj2 (Z.ltb_ge _ _)) by (rewrite zlen_app; lia).
  replace (drop (Z.to_nat (zlen (dirent e))) (dirent e ++ rest)) with rest
    by (unfold zlen; by rewrite Nat2Z.id, drop_app_length). unfold tail. rewrite sub_head by done.
  unfold seen. by destruct (e_type e).
Qed.

Lemma dirents_loop_spec entries max out :
  ∃ k, dirents_loop entries max out = out ++ concat (dirent <$> take k entries) ∧
    (zlen out ≤ max → zlen (dirents_loop entries max out) ≤ max) ∧
    match entries !! k with
    | Some e => max < zlen (dirents_loop entries max out) + zlen (dirent e)
    | None => take k entries = entries
    end.
Proof.
  revert out. induction entries as [|e entries IH]; intros out.
  { exists 0%nat. split_and!; [by rewrite app_nil_r|done|done]. }
  cbn [dirents_loop]. unfold sat_sub. rewrite <-dirent_zlen. pose proof (zlen_nonneg (dirent e)).
  assert (Hpos : 0 < zlen (dirent e)).
  { rewrite dirent_zlen. pose proof (zlen_nonneg (e_name e)). destruct (pad8_bounds (24 + zlen (e_name e))); lia. }
  destruct (_ <? zlen (dirent e)) eqn:Hfit.
  - exists 0%nat. cbn [take fmap list_fmap concat lookup list_lookup]. rewrite app_nil_r. split_and!; [done|done|].
    destruct (Z.leb_spec max (zlen out)); breflect; lia.
  - destruct (IH (out ++ dirent e)) as (k & Hk & Hle & Hmax). exists (S k).
    cbn [take fmap list_fmap concat lookup list_lookup]. split_and!.
    + by rewrite Hk, <-(assoc_L (++)).
    + intros Hout. apply Hle. rewrite zlen_app. destruct (Z.leb_spec max (zlen out)); breflect; lia.
    + change (list_lookup k entries) with (entries !! k). destruct (entries !! k); [done|]. by rewrite Hmax.
Qed.

Lemma read_all_dirents entries fuel :
  Forall entry_typed entries → (length (concat (dirent <$> entries)) ≤ fuel)%nat →
  read_dirents fuel (concat (dirent <$> entries)) = seen <$> entries.
Proof.
  intros He. revert fuel. induction He as [|e entries Ht _ IH]; intros fuel Hf; [by destruct fuel|].
  cbn [fmap list_fmap concat] in *. rewrite length_app in Hf.
  pose proof (dirent_zlen e) as Hd. pose proof (zlen_nonneg (e_name e)).
  destruct (pad8_bounds (24 + zlen (e_name e))) as [Hp _]; [lia|].
  destruct fuel as [|fuel]; [unfold zlen in *; lia|]. rewrite dirent_read by done. f_equal. apply IH.
  unfold zlen in *. lia.
Qed.

(** A directory listing holds as many entries as fit, whole and in order, and the
    kernel reads exactly those back: number, cookie, type and name; the next
    entry would not have fit. *)
Theorem listing_roundtrip entries max :
  0 ≤ max → Forall entry_typed entries →
  ∃ k, read_dirents (length (dirents_out entries max)) (dirents_out entries max) = seen <$> take k entries ∧
    zlen (dirents_out entries max) ≤ max ∧
    match entries !! k with
    | Some e => max < zlen (dirents_out entries max) + zlen (dirent e)
    | None => take k entries = entries
    end.
Proof.
  intros Hm He. unfold dirents_out. destruct (dirents_loop_spec entries max []) as (k & Hk & Hle & Hmax).
  exists k. split_and!; [|by apply Hle|done]. rewrite Hk. cbn [app].
  apply read_all_dirents; [by apply Forall_take|done].
Qed.

Lemma listing_roundtrip_witness :
  ∃ k, read_dirents 80 (dirents_out [mkEntry [97] 7 RegularFile 1; mkEntry [98; 99] 8 Directory 2;
      mkEntry [100] 9 RegularFile 3] 80)
    = seen <$> take k [mkEntry [97] 7 RegularFile 1; mkEntry [98; 99] 8 Directory 2; mkEntry [100] 9 RegularFile 3].
Proof.
  destruct (listing_roundtrip [mkEntry [97] 7 RegularFile 1; mkEntry [98; 99] 8 Directory 2;
    mkEntry [100] 9 RegularFile 3] 80) as (k & Hk & _); [lia|repeat constructor; vm_compute; done|].
  exists k. exact Hk.
Defined.

End Wire.
