(* ===== verification/FsNodes.v ===== *)
(** * The node and handle tables of the file system device

    [State] of [components/fs/src/transport.rs] with the functions on it: the
    numbers the guest has for files, how often it has looked each one up, which
    nodes may be dropped when the table is full, the open files and directories,
    and the names that file events refer to; and [release_file],
    [release_directory] and [file_identity] of [transport/requests.rs].

    A WASI descriptor is named by its resource handle, and an open directory with
    its cached listing by the handle the guest has for it. Numbers are [u64]. *)

From stdpp Require Import gmap.
From S2P Require Import Prelude SplitRing FsWire.

Local Open Scope Z_scope.

Module Nodes.
Import Wire (Request, Stat, dev, ino, body, u32_at, u64_at, EINVAL, EIO, EMFILE, ENOENT, EBADF, EOPNOTSUPP,
  FORGET, FORGET_MULTI, text).

Definition MAX_NODES : Z := 8192.
Definition MAX_HANDLES : Z := 2048.
Definition MAX_DIRECTORIES : Z := 2048.

(** ** State *)

(** [host::Node]: a cached descriptor, where it was found, and what was there. *)
Record Node := mkNode {
  descriptor : option Z;
  path : option (Z * list Z);
  path_identity : option (Z * Z);
}.
Record NodeRecord := mkRecord { r_dev : Z; r_ino : Z; lookups : Z; r_node : Node }.
Record OpenHandle := mkHandle { h_node : Z; writable : bool; h_descriptor : Z }.
Record OpenDirectory := mkDirectory { d_node : Z; d_descriptor : Z }.
Record PendingReply := mkPending {
  p_queue : Z;
  p_head : Z;
  p_output : list SplitRingDescriptor;
  p_unique : Z;
  p_reset_count : Z;
}.
(** [er_waiting]: the cancellation was not taken yet. *)
Record EventRequest := mkEventRequest { er_reply : PendingReply; er_waiting : bool }.

Record State := mkState {
  event_request : option EventRequest;
  event_entries : gmap (Z * list Z) Z;
  events_enabled : bool;
  max_nodes : Z;
  nodes : gmap Z NodeRecord;
  node_id_by_identity : gmap (Z * Z) Z;
  unused_nodes : gset Z;
  handles : gmap Z OpenHandle;
  directories : gmap Z OpenDirectory;
  next_handle : Z;
  next_node : Z;
}.

Definition set_events (r : option EventRequest) (e : bool) (s : State) : State :=
  mkState r (event_entries s) e (max_nodes s) (nodes s) (node_id_by_identity s) (unused_nodes s)
    (handles s) (directories s) (next_handle s) (next_node s).
Definition set_entries (e : gmap (Z * list Z) Z) (s : State) : State :=
  mkState (event_request s) e (events_enabled s) (max_nodes s) (nodes s) (node_id_by_identity s)
    (unused_nodes s) (handles s) (directories s) (next_handle s) (next_node s).
Definition set_nodes (n : gmap Z NodeRecord) (i : gmap (Z * Z) Z) (u : gset Z) (next : Z) (s : State) : State :=
  mkState (event_request s) (event_entries s) (events_enabled s) (max_nodes s) n i u
    (handles s) (directories s) (next_handle s) next.
Definition set_handles (u : gset Z) (h : gmap Z OpenHandle) (d : gmap Z OpenDirectory) (next : Z) (s : State) : State :=
  mkState (event_request s) (event_entries s) (events_enabled s) (max_nodes s) (nodes s)
    (node_id_by_identity s) u h d next (next_node s).
Definition set_unused (u : gset Z) (s : State) : State := set_nodes (nodes s) (node_id_by_identity s) u (next_node s) s.

Definition len {K A} `{Countable K} (m : gmap K A) : Z := Z.of_nat (size m).

Definition new (max_nodes : Z) (root : option NodeRecord) : State :=
  mkState None ∅ false max_nodes
    (match root with Some r => {[1 := r]} | None => ∅ end)
    (match root with Some r => {[(r_dev r, r_ino r) := 1]} | None => ∅ end)
    ∅ ∅ ∅ 2 2.

(** ** Nodes *)

Definition node (s : State) (inode : Z) : option Node := r_node <$> nodes s !! inode.

(** [BTreeSet::pop_first] *)
Definition set_min (u : gset Z) : option Z :=
  foldr (λ x acc, Some (match acc with Some y => Z.min x y | None => x end)) None (elements u).

Definition evict_unused_node (s : State) : State :=
  match set_min (unused_nodes s) with
  | None => s
  | Some id =>
      let u := unused_nodes s ∖ {[id]} in
      match nodes s !! id with
      | None => set_unused u s
      | Some r => set_nodes (delete id (nodes s)) (delete (r_dev r, r_ino r) (node_id_by_identity s)) u (next_node s) s
      end
  end.

(** [wrapping_add(1).max(2)] *)
Definition next_id (id : Z) : Z := Z.max ((id + 1) mod 2 ^ 64) 2.

Definition with_lookups (r : NodeRecord) (n : Z) : NodeRecord := mkRecord (r_dev r) (r_ino r) n (r_node r).
Definition with_node (r : NodeRecord) (n : Node) : NodeRecord := mkRecord (r_dev r) (r_ino r) (lookups r) n.

Definition node_id (n : Node) (st : Stat) (s : State) : result Z Z * State :=
  match node_id_by_identity s !! (dev st, ino st) with
  | Some id =>
      match nodes s !! id with
      | None => (Err EIO, s)
      | Some r =>
          let r := with_lookups (with_node r n) (sat_add64 (lookups r) 1) in
          (Ok id, set_nodes (<[id := r]> (nodes s)) (node_id_by_identity s) (unused_nodes s ∖ {[id]}) (next_node s) s)
      end
  | None =>
      let s := if len (nodes s) =? max_nodes s then evict_unused_node s else s in
      if len (nodes s) =? max_nodes s then (Err EMFILE, s) else
      let id := next_node s in
      (Ok id,
       set_nodes (<[id := mkRecord (dev st) (ino st) 1 n]> (nodes s))
         (<[(dev st, ino st) := id]> (node_id_by_identity s)) (unused_nodes s) (next_id id) s)
  end.

Definition node_is_held (s : State) (id : Z) : bool :=
  existsb (λ h, h_node h.2 =? id) (map_to_list (handles s))
  || existsb (λ d, d_node d.2 =? id) (map_to_list (directories s)).

Definition mark_unused_if_unheld (id : Z) (s : State) : State :=
  if negb (id =? 1)
     && match nodes s !! id with Some r => lookups r =? 0 | None => false end
     && negb (node_is_held s id)
  then set_unused ({[id]} ∪ unused_nodes s) s else s.

Definition forget (id count : Z) (s : State) : State :=
  if id =? 1 then s else
  let s := match nodes s !! id with
           | Some r => set_nodes (<[id := with_lookups r (sat_sub (lookups r) count)]> (nodes s))
                         (node_id_by_identity s) (unused_nodes s) (next_node s) s
           | None => s
           end in
  mark_unused_if_unheld id s.

(** [Node::repoint] *)
Definition repoint (parent : Z) (n : list Z) (x : Node) : Node :=
  match text n with
  | Ok n => mkNode (descriptor x) (Some (parent, n)) (path_identity x)
  | Err _ => x
  end.

Definition repoint_node (st : Stat) (parent : Z) (n : list Z) (s : State) : State :=
  match node_id_by_identity s !! (dev st, ino st) with
  | None => s
  | Some id =>
      match nodes s !! id with
      | None => s
      | Some r => set_nodes (<[id := with_node r (repoint parent n (r_node r))]> (nodes s))
                    (node_id_by_identity s) (unused_nodes s) (next_node s) s
      end
  end.

Definition increment_lookup (id : Z) (s : State) : State :=
  match nodes s !! id with
  | None => s
  | Some r => set_nodes (<[id := with_lookups r (sat_add64 (lookups r) 1)]> (nodes s))
                (node_id_by_identity s) (unused_nodes s ∖ {[id]}) (next_node s) s
  end.

Definition file_identity (s : State) (id : Z) : result Z (Z * Z) :=
  r ← ok_or EBADF (nodes s !! id);
  Ok (r_dev r, r_ino r).

(** [FORGET] and [FORGET_MULTI]. *)
Fixpoint forget_pairs (bs : list Z) (offsets : list Z) (s : State) : result Z unit * State :=
  match offsets with
  | [] => (Ok tt, s)
  | o :: offsets =>
      match u64_at bs o, u64_at bs (o + 8) with
      | Ok id, Ok count => forget_pairs bs offsets (forget id count s)
      | Err e, _ | _, Err e => (Err e, s)
      end
  end.

Definition forget_request (r : Request) (s : State) : result Z unit * State :=
  if Wire.opcode r =? FORGET then
    (Ok tt, forget (Wire.node r) (match u64_at (body r) 0 with Ok n => n | Err _ => 0 end) s)
  else if Wire.opcode r =? FORGET_MULTI then
    match u32_at (body r) 0 with
    | Err e => (Err e, s)
    | Ok count =>
        if (MAX_NODES <? count) || negb (zlen (body r) =? 8 + count * 16) then (Err EINVAL, s) else
        forget_pairs (body r) ((λ i, 8 + 16 * i) <$> seqZ 0 count) s
    end
  else (Err EINVAL, s).

(** [Node::release_cached_directory]; [sole]: nothing else has the descriptor
    ([Arc::try_unwrap]). *)
Definition release_cached_directory (sole : bool) (parent : Z) (n : list Z) (identity : Z * Z) (x : Node) : option Z * Node :=
  match descriptor x with
  | Some d => if sole then (Some d, mkNode None (Some (parent, n)) (Some identity)) else (None, x)
  | None => (None, x)
  end.

(** The closure of [remove_entry]. *)
Definition release_cached (sole : bool) (parent : Z) (n : list Z) (identity : Z * Z) (s : State) : option Z * State :=
  match node_id_by_identity s !! identity with
  | Some id =>
      if id =? 1 then (None, s) else
      match nodes s !! id with
      | Some r =>
          let '(d, x) := release_cached_directory sole parent n identity (r_node r) in
          (d, set_nodes (<[id := with_node r x]> (nodes s)) (node_id_by_identity s) (unused_nodes s) (next_node s) s)
      | None => (None, s)
      end
  | None => (None, s)
  end.

(** The closures of [encode_event]: the name an event refers to, and forgetting
    it when the file there is another one. *)
Definition event_target (parent : Z * Z) (n : list Z) (s : State) : result Z (Z * Z) :=
  id ← ok_or ENOENT (node_id_by_identity s !! parent);
  Ok (id, default 0 (event_entries s !! (id, n))).
Definition event_same_inode (identity : option (Z * Z)) (id child : Z) (n : list Z) (s : State) : bool * State :=
  let same := match identity with
              | Some i => bool_decide (node_id_by_identity s !! i = Some child)
              | None => false
              end in
  (same, if same then s else set_entries (delete (id, n) (event_entries s)) s).

(** ** Handles *)

Definition directory (s : State) (h : Z) : option OpenDirectory := directories s !! h.
Definition handle (s : State) (id : Z) : option OpenHandle := handles s !! id.

Definition store_handle (n descriptor : Z) (w : bool) (s : State) : result Z Z * State :=
  if len (handles s) =? MAX_HANDLES then (Err EMFILE, s) else
  let id := next_handle s in
  (Ok id, set_handles (unused_nodes s ∖ {[n]}) (<[id := mkHandle n w descriptor]> (handles s))
            (directories s) (next_id id) s).

(** The closure of [open_directory]. *)
Definition store_directory (n descriptor : Z) (s : State) : result Z Z * State :=
  if len (directories s) =? MAX_DIRECTORIES then (Err EMFILE, s) else
  let id := next_handle s in
  (Ok id, set_handles (unused_nodes s ∖ {[n]}) (handles s)
            (<[id := mkDirectory n descriptor]> (directories s)) (next_id id) s).

Definition release_file (r : Request) (s : State) : result Z (list Z) * State :=
  match u64_at (body r) 0, u32_at (body r) 12, u64_at (body r) 16 with
  | Ok id, Ok flags, Ok _ =>
      match handles s !! id with
      | None => (Ok [], s)
      | Some h =>
          let s := set_handles (unused_nodes s) (delete id (handles s)) (directories s) (next_handle s) s in
          let s := mark_unused_if_unheld (h_node h) s in
          (if negb (Z.land flags 2 =? 0) && bool_decide (is_Some (node s (h_node h)))
           then Err EOPNOTSUPP else Ok [], s)
      end
  | _, _, _ => (Ok [], s)
  end.

Definition release_directory (r : Request) (s : State) : list Z * State :=
  match u64_at (body r) 0 with
  | Err _ => ([], s)
  | Ok id =>
      match directories s !! id with
      | None => ([], s)
      | Some d =>
          ([], mark_unused_if_unheld (d_node d)
                 (set_handles (unused_nodes s) (handles s) (delete id (directories s)) (next_handle s) s))
      end
  end.

(** ** Events *)

(** The order of [(u64, Vec<u8>)]. *)
Fixpoint bytes_le (a b : list Z) : bool :=
  match a, b with
  | [], _ => true
  | _ :: _, [] => false
  | x :: a, y :: b => if x =? y then bytes_le a b else x <? y
  end.
Definition key_le (a b : Z * list Z) : bool := if a.1 =? b.1 then bytes_le a.2 b.2 else a.1 <? b.1.

(** [BTreeMap::pop_first] *)
Definition pop_first (m : gmap (Z * list Z) Z) : gmap (Z * list Z) Z :=
  match foldr (λ k acc, Some (match acc with Some y => if key_le k y then k else y | None => k end)) None
          (map_to_list m).*1 with
  | Some k => delete k m
  | None => m
  end.

Definition remember_lookup (r : Request) (response : list Z) (s : State) : State :=
  match Wire.name (body r), u64_at response 0 with
  | Ok n, Ok child =>
      let entries := if len (event_entries s) =? MAX_NODES then pop_first (event_entries s) else event_entries s in
      let s := set_entries entries s in
      let key := (Wire.node r, n) in
      if match event_entries s !! key with
         | None => true
         | Some id => match nodes s !! id with None => true | Some rec => lookups rec =? 0 end
         end
      then set_entries (<[key := child]> (event_entries s)) s else s
  | _, _ => s
  end.

(** [clear_runtime]; the abort of the event task is seen by that task only. *)
Definition clear_runtime (s : State) : State := new (max_nodes s) (nodes s !! 1).

(** ** Well-formed tables *)

(** An open file or directory refers to the node. *)
Definition held (s : State) (id : Z) : Prop :=
  (∃ k h, handles s !! k = Some h ∧ h_node h = id) ∨ (∃ k d, directories s !! k = Some d ∧ d_node d = id).

Record wf (s : State) : Prop := {
  wf_root : is_Some (nodes s !! 1);
  wf_size : len (nodes s) ≤ max_nodes s;
  (** A file has one number, and a number one file. *)
  wf_identity : ∀ k id, node_id_by_identity s !! k = Some id ↔
    ∃ r, nodes s !! id = Some r ∧ (r_dev r, r_ino r) = k;
  (** The nodes that may be dropped are those nobody refers to. *)
  wf_unused : ∀ id, id ∈ unused_nodes s ↔
    id ≠ 1 ∧ (∃ r, nodes s !! id = Some r ∧ lookups r = 0) ∧ ¬ held s id;
  wf_lookups : ∀ id r, nodes s !! id = Some r → 0 ≤ lookups r;
  wf_ids : 2 ≤ next_node s ∧ ∀ id, is_Some (nodes s !! id) → 1 ≤ id < next_node s;
  wf_handles : len (handles s) ≤ MAX_HANDLES ∧ len (directories s) ≤ MAX_DIRECTORIES;
  wf_handle_ids : 2 ≤ next_handle s ∧ (∀ k, is_Some (handles s !! k) → 2 ≤ k < next_handle s)
    ∧ (∀ k, is_Some (directories s !! k) → 2 ≤ k < next_handle s);
  wf_events : len (event_entries s) ≤ MAX_NODES;
}.

Lemma node_is_held_spec s id : node_is_held s id = true ↔ held s id.
Proof.
  unfold node_is_held, held. rewrite orb_true_iff, !existsb_exists. f_equiv.
  - split.
    + intros ([k h] & Hin%list_elem_of_In%elem_of_map_to_list & Hh). exists k, h. by breflect.
    + intros (k & h & Hk & Hh). exists (k, h). split; [by apply list_elem_of_In, elem_of_map_to_list|].
      by apply Z.eqb_eq.
  - split.
    + intros ([k h] & Hin%list_elem_of_In%elem_of_map_to_list & Hh). exists k, h. by breflect.
    + intros (k & h & Hk & Hh). exists (k, h). split; [by apply list_elem_of_In, elem_of_map_to_list|].
      by apply Z.eqb_eq.
Qed.

#[export] Instance held_dec s id : Decision (held s id).
Proof. destruct (node_is_held s id) eqn:H; [left|right; intros ?%node_is_held_spec; congruence]. by apply node_is_held_spec. Defined.

Lemma set_min_spec u : match set_min u with Some id => id ∈ u | None => u = ∅ end.
Proof.
  unfold set_min.
  assert (H : ∀ l : list Z, match foldr (λ x acc, Some (match acc with Some y => Z.min x y | None => x end)) None l with
    | Some id => id ∈ l | None => l = [] end).
  { induction l as [|x l IH]; [done|]. cbn [foldr]. destruct (foldr _ None l) as [y|].
    - destruct (Z.min_spec x y) as [[_ ->]|[_ ->]]; [left|by right].
    - subst. by left. }
  specialize (H (elements u)). destruct (foldr _ None (elements u)) as [id|]; [by apply elem_of_elements|].
  by apply elements_empty_inv, leibniz_equiv in H.
Qed.

Lemma len_insert_new {K A} `{Countable K} (m : gmap K A) k x : m !! k = None → len (<[k := x]> m) = len m + 1.
Proof. intros. unfold len. rewrite map_size_insert_None by done. lia. Qed.

Lemma len_insert_old {K A} `{Countable K} (m : gmap K A) k x : is_Some (m !! k) → len (<[k := x]> m) = len m.
Proof. intros. unfold len. by rewrite map_size_insert_Some. Qed.

Lemma len_delete {K A} `{Countable K} (m : gmap K A) k : is_Some (m !! k) → len (delete k m) = len m - 1.
Proof.
  intros [x Hx]. unfold len. rewrite map_size_delete_Some by done.
  assert (size m ≠ 0%nat); [|lia]. intros Hz. apply map_size_empty_inv in Hz. subst. done.
Qed.

Lemma len_delete_le {K A} `{Countable K} (m : gmap K A) k : len (delete k m) ≤ len m.
Proof.
  destruct (m !! k) eqn:Hk; [rewrite len_delete by done; lia|]. by rewrite delete_id.
Qed.

(** A record changed in place. *)
Lemma wf_update s id r r' u :
  wf s → nodes s !! id = Some r → r_dev r' = r_dev r → r_ino r' = r_ino r → 0 ≤ lookups r' →
  (∀ x, x ∈ u ↔ if decide (x = id) then id ≠ 1 ∧ lookups r' = 0 ∧ ¬ held s id else x ∈ unused_nodes s) →
  wf (set_nodes (<[id := r']> (nodes s)) (node_id_by_identity s) u (next_node s) s).
Proof.
  intros W Hr Hd Hi Hl Hu. destruct W as [W1 W2 W3 W4 W5 W6 W7 W8 W9].
  split; cbn; try done.
  - destruct (decide (id = 1)) as [->|]; [by rewrite lookup_insert_eq|by rewrite lookup_insert_ne].
  - by rewrite len_insert_old by done.
  - intros k x. rewrite W3. destruct (decide (x = id)) as [->|Hx].
    + rewrite lookup_insert_eq, Hr. split; intros (y & [= <-] & <-); eexists; (split; [done|]); congruence.
    + by rewrite lookup_insert_ne by done.
  - intros x. rewrite Hu. destruct (decide (x = id)) as [->|Hx].
    + rewrite lookup_insert_eq. change (held _ id) with (held s id). naive_solver.
    + rewrite lookup_insert_ne by done. apply W4.
  - intros x y. destruct (decide (x = id)) as [->|Hx]; [rewrite lookup_insert_eq; by intros [= <-]|].
    rewrite lookup_insert_ne by done. apply W5.
  - split; [apply W6|]. intros x. destruct (decide (x = id)) as [->|Hx]; [|rewrite lookup_insert_ne by done; apply W6].
    intros _. apply W6. by rewrite Hr.
Qed.

(** The set of unused nodes, and the open files and directories, changed. *)
Lemma wf_reheld s u h d next :
  wf s → let s' := set_handles u h d next s in
  (∀ x, x ∈ u ↔ x ≠ 1 ∧ (∃ r, nodes s !! x = Some r ∧ lookups r = 0) ∧ ¬ held s' x) →
  len h ≤ MAX_HANDLES → len d ≤ MAX_DIRECTORIES → 2 ≤ next →
  (∀ k, is_Some (h !! k) → 2 ≤ k < next) → (∀ k, is_Some (d !! k) → 2 ≤ k < next) → wf s'.
Proof. intros [W1 W2 W3 W4 W5 W6 W7 W8 W9] s' Hu Hh Hd Hn Hhk Hdk. by split. Qed.

(** *** Dropping a node *)

(** What an eviction does: nothing when every node is in use, otherwise it drops
    one node that nobody refers to. *)
Inductive evicted (s : State) : State → Prop :=
  | evict_none : unused_nodes s = ∅ → evicted s s
  | evict_one id r : id ∈ unused_nodes s → nodes s !! id = Some r →
      evicted s (set_nodes (delete id (nodes s)) (delete (r_dev r, r_ino r) (node_id_by_identity s))
        (unused_nodes s ∖ {[id]}) (next_node s) s).

Lemma evict_spec s : wf s → evicted s (evict_unused_node s).
Proof.
  intros W. unfold evict_unused_node. pose proof (set_min_spec (unused_nodes s)) as Hm.
  destruct (set_min _) as [id|]; [|by constructor].
  destruct (proj1 (wf_unused s W id) Hm) as (_ & (r & Hr & _) & _). rewrite Hr. by constructor.
Qed.

Lemma evicted_wf s s' : wf s → evicted s s' → wf s'.
Proof.
  intros W He. destruct He as [Hn|id r Hin Hr]; [done|]. destruct W as [W1 W2 W3 W4 W5 W6 W7 W8 W9].
  destruct (proj1 (W4 id) Hin) as (Hone & _ & Hheld).
  split; cbn; try done.
  - by rewrite lookup_delete_ne.
  - pose proof (len_delete_le (nodes s) id). lia.
  - intros k x. rewrite lookup_delete_Some, W3. split.
    + intros (Hk & r' & Hr' & <-). exists r'. split; [|done]. rewrite lookup_delete_ne; [done|]. congruence.
    + intros (r' & [Hx Hr']%lookup_delete_Some & <-). split; [|eauto].
      intros Heq. apply Hx. assert (H1 := proj2 (W3 _ _) (ex_intro _ r (conj Hr eq_refl))).
      assert (H2 := proj2 (W3 _ _) (ex_intro _ r' (conj Hr' eq_refl))). rewrite Heq in H1. congruence.
  - intros x. rewrite elem_of_difference, elem_of_singleton, W4. split.
    + intros ((? & (r' & ? & ?) & ?) & Hx). repeat split; try done. exists r'. by rewrite lookup_delete_ne.
    + intros (? & (r' & [? ?]%lookup_delete_Some & ?) & ?). repeat split; eauto.
  - intros x y [_ Hy]%lookup_delete_Some. eauto.
  - split; [apply W6|]. intros x [y [_ Hy]%lookup_delete_Some]. apply W6. by rewrite Hy.
Qed.

Lemma evicted_room s s' : wf s → len (nodes s) = max_nodes s → evicted s s' →
  len (nodes s') = max_nodes s' ↔ unused_nodes s = ∅.
Proof.
  intros W Hl [Hn|id r Hin Hr]; [done|]. cbn. rewrite len_delete by done.
  split; [lia|]. intros H. rewrite H in Hin. set_solver.
Qed.

Lemma evicted_keeps s s' id : wf s → evicted s s' → id ∉ unused_nodes s → nodes s' !! id = nodes s !! id.
Proof. intros W [Hn|id' r Hin Hr] Hid; [done|]. cbn. apply lookup_delete_ne. by intros ->. Qed.

(** *** Operations *)

Lemma set_unused_id s : set_unused (unused_nodes s) s = s.
Proof. by destruct s. Qed.

Lemma mark_eq id s : ∃ u, mark_unused_if_unheld id s = set_unused u s ∧
  ∀ x, x ∈ u ↔ x ∈ unused_nodes s
    ∨ (x = id ∧ id ≠ 1 ∧ (∃ r, nodes s !! id = Some r ∧ lookups r = 0) ∧ ¬ held s id).
Proof.
  unfold mark_unused_if_unheld. setoid_rewrite <- node_is_held_spec. case_match eqn:Hc.
  - apply andb_true_iff in Hc as [[H1 H2]%andb_true_iff H3]. breflect.
    exists ({[id]} ∪ unused_nodes s). split; [done|]. intros x. rewrite elem_of_union, elem_of_singleton.
    destruct (nodes s !! id) as [r|] eqn:Hr; [|done]. breflect. destruct (node_is_held s id); [done|].
    naive_solver.
  - exists (unused_nodes s). split; [by rewrite set_unused_id|]. intros x. split; [by left|].
    intros [|(-> & H1 & (r & Hr & Hl) & H3)]; [done|]. exfalso.
    rewrite Hr in Hc. cbn in Hc. rewrite Hl, (proj2 (Z.eqb_neq id 1)) in Hc by done.
    destruct (node_is_held s id); [by apply H3|done].
Qed.

(** Something that held [n] is closed. *)
Lemma wf_closed s h d n :
  wf s → let s0 := set_handles (unused_nodes s) h d (next_handle s) s in
  h ⊆ handles s → d ⊆ directories s → (∀ x, x ≠ n → held s x → held s0 x) →
  wf (mark_unused_if_unheld n s0).
Proof.
  intros W s0 Hh Hd Hx. destruct (mark_eq n s0) as (u & -> & Hu).
  assert (Hsub : ∀ x, held s0 x → held s x).
  { intros x [(k & y & Hk & Hy)|(k & y & Hk & Hy)]; [left|right]; exists k, y; (split; [|done]); by eapply lookup_weaken. }
  assert (Hlen : ∀ A (m1 m2 : gmap Z A), m1 ⊆ m2 → len m1 ≤ len m2).
  { intros A m1 m2 Hm%map_subseteq_size. unfold len. lia. }
  assert (W' := W). destruct W' as [W1 W2 W3 W4 W5 W6 [W7 W7'] (W8 & W8' & W8'') W9].
  apply (wf_reheld s u h d (next_handle s)); try done.
  - intros x. change (held _ x) with (held s0 x). rewrite Hu. change (unused_nodes s0) with (unused_nodes s).
    change (nodes s0) with (nodes s). rewrite W4. destruct (decide (x = n)) as [->|Hn]; [|naive_solver].
    specialize (Hsub n). naive_solver.
  - specialize (Hlen _ _ _ Hh). lia.
  - specialize (Hlen _ _ _ Hd). lia.
  - intros k [y Hy]. apply W8'. by rewrite (lookup_weaken _ _ _ _ Hy Hh).
  - intros k [y Hy]. apply W8''. by rewrite (lookup_weaken _ _ _ _ Hy Hd).
Qed.

Lemma release_file_wf r s : wf s → wf (release_file r s).2.
Proof.
  intros W. unfold release_file. do 4 (case_match; try done). cbn.
  apply (wf_closed s); [done|apply delete_subseteq|done|].
  intros x Hx [(k & y & Hk & Hy)|Hd]; [left|by right]. exists k, y. split; [|done]. cbn.
  rewrite lookup_delete_ne; [done|]. congruence.
Qed.

Lemma release_directory_wf r s : wf s → wf (release_directory r s).2.
Proof.
  intros W. unfold release_directory. repeat case_match; try done. cbn.
  apply (wf_closed s); [done|done|apply delete_subseteq|].
  intros x Hx [Hd|(k & y & Hk & Hy)]; [by left|right]. exists k, y. split; [|done]. cbn.
  rewrite lookup_delete_ne; [done|]. congruence.
Qed.

Lemma next_id_succ id : 2 ≤ id → id + 1 < 2 ^ 64 → next_id id = id + 1.
Proof. intros. unfold next_id. rewrite Z.mod_small by lia. lia. Qed.

Lemma set_nodes_record s id r u : set_nodes (<[id := r]> (nodes s)) (node_id_by_identity s) u (next_node s) s
  = set_unused u (set_nodes (<[id := r]> (nodes s)) (node_id_by_identity s) (unused_nodes s) (next_node s) s).
Proof. done. Qed.

(** [forget] as one change of the record. *)
Lemma forget_eq id count s r : id ≠ 1 → nodes s !! id = Some r →
  ∃ u, forget id count s
       = set_nodes (<[id := with_lookups r (sat_sub (lookups r) count)]> (nodes s)) (node_id_by_identity s) u (next_node s) s
     ∧ ∀ x, x ∈ u ↔ x ∈ unused_nodes s ∨ (x = id ∧ sat_sub (lookups r) count = 0 ∧ ¬ held s id).
Proof.
  intros Hid Hr. unfold forget. rewrite (proj2 (Z.eqb_neq id 1)), Hr by done.
  destruct (mark_eq id (set_nodes (<[id := with_lookups r (sat_sub (lookups r) count)]> (nodes s))
    (node_id_by_identity s) (unused_nodes s) (next_node s) s)) as (u & -> & Hu).
  exists u. split; [done|]. intros x. rewrite Hu. cbn [nodes unused_nodes set_nodes]. rewrite lookup_insert_eq.
  change (held (set_nodes _ _ _ _ _) id) with (held s id). split; naive_solver.
Qed.

Lemma forget_none id count s : id = 1 ∨ nodes s !! id = None → forget id count s = s.
Proof.
  unfold forget. intros [->|Hn]; [done|]. case_match; [done|]. rewrite Hn.
  destruct (mark_eq id s) as (u & Hm & Hu). rewrite Hm. rewrite <- (set_unused_id s) at 2. f_equal.
  apply leibniz_equiv. intros x. rewrite Hu. split; [|by left]. intros [|(-> & _ & (r & ? & _) & _)]; [done|congruence].
Qed.

Lemma forget_wf id count s : 0 ≤ count → wf s → wf (forget id count s).
Proof.
  intros Hcount W. destruct (decide (id = 1)) as [->|Hid]; [by rewrite forget_none by tauto|].
  destruct (nodes s !! id) as [r|] eqn:Hr; [|by rewrite forget_none by tauto].
  destruct (forget_eq id count s r Hid Hr) as (u & -> & Hu).
  apply (wf_update s id r); try done.
  - cbn. unfold sat_sub. case_match; breflect; lia.
  - intros x. rewrite Hu. cbn. pose proof (wf_unused s W x) as Wx. case_decide as Hx.
    + subst x. split; [|naive_solver]. intros [Hin|?]; [|naive_solver].
      apply Wx in Hin as (_ & (r0 & ? & Hl) & ?). split; [done|]. split; [|done].
      assert (r0 = r) as -> by congruence. unfold sat_sub. rewrite Hl. by rewrite (proj2 (Z.leb_le 0 count)).
    + naive_solver.
Qed.


(** What is cached for a node changed, and not what refers to it. *)
Lemma recache_wf s id r n :
  wf s → nodes s !! id = Some r →
  wf (set_nodes (<[id := with_node r n]> (nodes s)) (node_id_by_identity s) (unused_nodes s) (next_node s) s).
Proof.
  intros W Hr. apply (wf_update s id r); try done; [by apply (wf_lookups s W id r)|].
  intros x. cbn. case_decide as Hx; [|done]. subst x. rewrite (wf_unused s W). naive_solver.
Qed.

Lemma repoint_node_wf st parent n s : wf s → wf (repoint_node st parent n s).
Proof. intros W. unfold repoint_node. repeat case_match; try done. by apply recache_wf. Qed.

Lemma known_node_wf s id r n :
  wf s → nodes s !! id = Some r →
  wf (set_nodes (<[id := with_lookups (with_node r n) (sat_add64 (lookups r) 1)]> (nodes s))
        (node_id_by_identity s) (unused_nodes s ∖ {[id]}) (next_node s) s).
Proof.
  intros W Hr. pose proof (wf_lookups s W id r Hr).
  assert (0 < sat_add64 (lookups r) 1) by (unfold sat_add64, U64_MAX; case_match; lia).
  apply (wf_update s id r); try done; [cbn; lia|]. intros x.
  rewrite elem_of_difference, elem_of_singleton. case_decide; [|naive_solver]. cbn. split; [naive_solver|lia].
Qed.

Lemma increment_lookup_wf id s : wf s → wf (increment_lookup id s).
Proof.
  intros W. unfold increment_lookup. destruct (nodes s !! id) as [r|] eqn:Hr; [|done].
  exact (known_node_wf s id r (r_node r) W Hr).
Qed.

Lemma fresh_node s : wf s → nodes s !! next_node s = None.
Proof.
  intros W. destruct (nodes s !! next_node s) as [r|] eqn:Hr; [|done].
  destruct (wf_ids s W) as [_ Hid]. specialize (Hid (next_node s)). rewrite Hr in Hid.
  specialize (Hid ltac:(done)). lia.
Qed.

Lemma new_node_wf s d i n :
  wf s → len (nodes s) ≠ max_nodes s → node_id_by_identity s !! (d, i) = None → next_node s + 1 < 2 ^ 64 →
  wf (set_nodes (<[next_node s := mkRecord d i 1 n]> (nodes s)) (<[(d, i) := next_node s]> (node_id_by_identity s))
        (unused_nodes s) (next_id (next_node s)) s).
Proof.
  intros W Hl Hi Hn. pose proof (fresh_node s W) as Hf. assert (W' := W). destruct W' as [W1 W2 W3 W4 W5 W6 W7 W8 W9].
  rewrite next_id_succ by (lia || apply W6). split; cbn; try done.
  - destruct (decide (next_node s = 1)) as [->|]; [by rewrite lookup_insert_eq|by rewrite lookup_insert_ne].
  - rewrite len_insert_new by done. lia.
  - intros k x. destruct (decide (k = (d, i))) as [->|Hk].
    + rewrite lookup_insert_eq. split.
      * intros H. assert (x = next_node s) as -> by congruence. rewrite lookup_insert_eq. eauto.
      * intros (r & Hr & Hk). destruct (decide (x = next_node s)) as [->|Hx]; [done|].
        rewrite lookup_insert_ne in Hr by done. rewrite (proj2 (W3 (d, i) x)) in Hi by eauto. done.
    + rewrite lookup_insert_ne by done. rewrite W3. destruct (decide (x = next_node s)) as [->|Hx].
      * rewrite lookup_insert_eq, Hf. split; intros (r & Hr & Hk'); [done|]. assert (r = mkRecord d i 1 n) as -> by congruence.
        cbn in Hk'. congruence.
      * by rewrite lookup_insert_ne by done.
  - intros x. rewrite W4. change (held _ x) with (held s x). destruct (decide (x = next_node s)) as [->|Hx].
    + rewrite lookup_insert_eq, Hf. split; intros (_ & (r & Hr & Hl0) & _); [done|].
      assert (r = mkRecord d i 1 n) as -> by congruence. done.
    + by rewrite lookup_insert_ne by done.
  - intros x r. destruct (decide (x = next_node s)) as [->|Hx].
    + rewrite lookup_insert_eq. intros H. assert (r = mkRecord d i 1 n) as -> by congruence. cbn. lia.
    + rewrite lookup_insert_ne by done. apply W5.
  - split; [lia|]. intros x. destruct (decide (x = next_node s)) as [->|Hx]; [lia|].
    rewrite lookup_insert_ne by done. intros Hx'. apply W6 in Hx'. lia.
Qed.

(** What [node_id] does. *)
Inductive numbered (n : Node) (st : Stat) (s : State) : result Z Z → State → Prop :=
  | num_known id r : node_id_by_identity s !! (dev st, ino st) = Some id → nodes s !! id = Some r →
      numbered n st s (Ok id)
        (set_nodes (<[id := with_lookups (with_node r n) (sat_add64 (lookups r) 1)]> (nodes s))
           (node_id_by_identity s) (unused_nodes s ∖ {[id]}) (next_node s) s)
  | num_full : node_id_by_identity s !! (dev st, ino st) = None → len (nodes s) = max_nodes s →
      unused_nodes s = ∅ → numbered n st s (Err EMFILE) s
  | num_new s0 : node_id_by_identity s !! (dev st, ino st) = None →
      (s0 = s ∧ len (nodes s) < max_nodes s ∨ len (nodes s) = max_nodes s ∧ unused_nodes s ≠ ∅ ∧ evicted s s0) →
      len (nodes s0) ≠ max_nodes s0 → node_id_by_identity s0 !! (dev st, ino st) = None → wf s0 →
      next_node s0 = next_node s →
      numbered n st s (Ok (next_node s))
        (set_nodes (<[next_node s := mkRecord (dev st) (ino st) 1 n]> (nodes s0))
           (<[(dev st, ino st) := next_node s]> (node_id_by_identity s0)) (unused_nodes s0) (next_id (next_node s)) s0).

Lemma node_id_spec n st s : wf s → numbered n st s (node_id n st s).1 (node_id n st s).2.
Proof.
  intros W. unfold node_id. destruct (node_id_by_identity s !! _) as [id|] eqn:Hi.
  { destruct (proj1 (wf_identity s W _ _) Hi) as (r & Hr & _). rewrite Hr. by apply num_known. }
  destruct (Z.eqb_spec (len (nodes s)) (max_nodes s)) as [Hl|Hl].
  - pose proof (evict_spec s W) as He. pose proof (evicted_wf s _ W He) as W0.
    pose proof (evicted_room s _ W Hl He) as Hroom.
    destruct (Z.eqb_spec (len (nodes (evict_unused_node s))) (max_nodes (evict_unused_node s))) as [Hl0|Hl0]; cbn.
    + assert (Hu : unused_nodes s = ∅) by tauto.
      assert (evict_unused_node s = s) as -> by (destruct He as [|id r Hin]; [done|]; rewrite Hu in Hin; set_solver).
      by apply num_full.
    + assert (next_node (evict_unused_node s) = next_node s) as Hn by (destruct He; done). rewrite Hn.
      apply num_new; try done.
      * right. split; [done|]. split; [tauto|done].
      * destruct He; [done|]. cbn. by rewrite lookup_delete_None; right.
  - rewrite (proj2 (Z.eqb_neq _ _) Hl). cbn. apply num_new; try done. left. split; [done|].
    pose proof (wf_size s W). lia.
Qed.

Lemma numbered_wf n st s o s' : wf s → next_node s + 1 < 2 ^ 64 → numbered n st s o s' → wf s'.
Proof.
  intros W Hn [id r Hi Hr|Hi Hl Hu|s0 Hi Hs Hl Hi0 W0 Hn0]; [by apply known_node_wf|done|].
  rewrite <- Hn0 in Hn |- *. by apply new_node_wf.
Qed.

(** Something that holds [n] is opened. *)
Lemma wf_opened s h d n :
  wf s → next_handle s + 1 < 2 ^ 64 → let s0 := set_handles (unused_nodes s ∖ {[n]}) h d (next_id (next_handle s)) s in
  (∀ x, held s0 x ↔ x = n ∨ held s x) → len h ≤ MAX_HANDLES → len d ≤ MAX_DIRECTORIES →
  (∀ k, is_Some (h !! k) → k = next_handle s ∨ is_Some (handles s !! k)) →
  (∀ k, is_Some (d !! k) → k = next_handle s ∨ is_Some (directories s !! k)) → wf s0.
Proof.
  intros W Hn s0 Hx Hh Hd Hhk Hdk. destruct (wf_handle_ids s W) as (W8 & W8' & W8'').
  apply (wf_reheld s); try done; fold s0; rewrite ?next_id_succ by lia.
  - intros x. rewrite elem_of_difference, elem_of_singleton, (wf_unused s W), Hx. naive_solver.
  - lia.
  - intros k [->|Hk]%Hhk; [lia|]. apply W8' in Hk. lia.
  - intros k [->|Hk]%Hdk; [lia|]. apply W8'' in Hk. lia.
Qed.

Lemma is_Some_insert {A} (m : gmap Z A) k x y : is_Some (<[k := x]> m !! y) → y = k ∨ is_Some (m !! y).
Proof. rewrite lookup_insert_is_Some. naive_solver. Qed.

Lemma fresh_handle s : wf s → handles s !! next_handle s = None ∧ directories s !! next_handle s = None.
Proof.
  intros W. destruct (wf_handle_ids s W) as (_ & H1 & H2). split; apply eq_None_not_Some; intros H.
  - apply H1 in H. lia.
  - apply H2 in H. lia.
Qed.

Lemma store_handle_wf n d w s : wf s → next_handle s + 1 < 2 ^ 64 → wf (store_handle n d w s).2.
Proof.
  intros W Hn. unfold store_handle. case_match eqn:Hl; [done|]. breflect. destruct (fresh_handle s W) as [Hf _].
  destruct (wf_handles s W) as [Hh Hd]. cbn. apply (wf_opened s); try done; [| |apply is_Some_insert|tauto].
  - intros x. unfold held. cbn. split.
    + intros [(k & h & [[<- <-]|[_ Hk]]%lookup_insert_Some & <-)|Hdir]; naive_solver.
    + intros [->|[(k & h & Hk & <-)|Hdir]]; [left|left|by right].
      * eexists _, _. by rewrite lookup_insert_eq.
      * exists k, h. rewrite lookup_insert_ne; [done|]. congruence.
  - rewrite len_insert_new by done. lia.
Qed.

Lemma store_directory_wf n d s : wf s → next_handle s + 1 < 2 ^ 64 → wf (store_directory n d s).2.
Proof.
  intros W Hn. unfold store_directory. case_match eqn:Hl; [done|]. breflect. destruct (fresh_handle s W) as [_ Hf].
  destruct (wf_handles s W) as [Hh Hd]. cbn. apply (wf_opened s); try done; [| |tauto|apply is_Some_insert].
  - intros x. unfold held. cbn. split.
    + intros [Hh'|(k & h & [[<- <-]|[_ Hk]]%lookup_insert_Some & <-)]; naive_solver.
    + intros [->|[Hh'|(k & h & Hk & <-)]]; [right|by left|right].
      * eexists _, _. by rewrite lookup_insert_eq.
      * exists k, h. rewrite lookup_insert_ne; [done|]. congruence.
  - rewrite len_insert_new by done. lia.
Qed.

Lemma set_entries_wf e s : wf s → len e ≤ MAX_NODES → wf (set_entries e s).
Proof. intros [] ?. by split. Qed.

Lemma len_pop_first m : len m = MAX_NODES → len (pop_first m) < MAX_NODES.
Proof.
  intros Hl. unfold pop_first.
  assert (H : ∀ l : list (Z * list Z),
    match foldr (λ k acc, Some (match acc with Some y => if key_le k y then k else y | None => k end)) None l with
    | Some k => k ∈ l | None => l = [] end).
  { induction l as [|x l IH]; [done|]. cbn [foldr]. destruct (foldr _ None l) as [y|].
    - destruct (key_le x y); [left|by right].
    - subst. by left. }
  specialize (H (map_to_list m).*1). destruct (foldr _ _ _) as [k|].
  - apply list_elem_of_fmap in H as ([k' v] & -> & Hk%elem_of_map_to_list). cbn. rewrite len_delete by done. lia.
  - apply fmap_nil_inv in H. apply map_to_list_empty_iff in H. subst m. by vm_compute in Hl.
Qed.

Lemma remember_lookup_wf r resp s : wf s → wf (remember_lookup r resp s).
Proof.
  intros W. unfold remember_lookup. destruct (Wire.name (body r)) as [n|]; [|done].
  destruct (u64_at resp 0) as [child|]; [|done].
  set (e := if len (event_entries s) =? MAX_NODES then _ else _).
  assert (He : len e < MAX_NODES).
  { subst e. pose proof (wf_events s W). case_match; breflect; [by apply len_pop_first|lia]. }
  case_match; [|apply set_entries_wf; [done|lia]]. cbn. apply (set_entries_wf _ s); [done|].
  destruct (e !! (Wire.node r, n)) eqn:Hk; [rewrite len_insert_old by done; lia|]. rewrite len_insert_new by done. lia.
Qed.

Lemma new_wf r m : 0 ≤ lookups r → 1 ≤ m → wf (new m (Some r)).
Proof.
  intros Hl Hm. split; cbn.
  - by rewrite lookup_singleton_eq.
  - unfold len. rewrite map_size_singleton. lia.
  - intros k id. rewrite !lookup_singleton_Some. split.
    + intros [<- <-]. exists r. by rewrite lookup_singleton_eq.
    + intros (r' & [<- <-]%lookup_singleton_Some & <-). done.
  - intros id. split; [set_solver|]. intros (Hid & (r' & [<- _]%lookup_singleton_Some & _) & _). done.
  - by intros id r' [_ <-]%lookup_singleton_Some.
  - split; [done|]. intros id [r' [<- _]%lookup_singleton_Some]. lia.
  - done.
  - split; [done|]. split; by intros k [? ?%lookup_empty_Some].
  - done.
Qed.

Lemma clear_runtime_wf s : wf s → wf (clear_runtime s).
Proof.
  intros W. destruct (wf_root s W) as [r Hr]. unfold clear_runtime. rewrite Hr.
  apply new_wf; [by apply (wf_lookups s W 1)|]. pose proof (wf_size s W).
  assert (0 < len (nodes s)); [|lia]. unfold len. assert (size (nodes s) ≠ 0%nat); [|lia].
  intros Hz%map_size_empty_inv. rewrite Hz in Hr. done.
Qed.

(** ** Every sequence of operations *)

(** An operation of a request or of the event worker on the locked state. *)
Inductive Op :=
  | ONodeId (n : Node) (st : Stat)
  | OForget (r : Request)
  | ORepoint (st : Stat) (parent : Z) (n : list Z)
  | OIncrement (id : Z)
  | OStoreHandle (n descriptor : Z) (w : bool)
  | OStoreDirectory (n descriptor : Z)
  | OReleaseFile (r : Request)
  | OReleaseDirectory (r : Request)
  | OReleaseCached (sole : bool) (parent : Z) (n : list Z) (identity : Z * Z)
  | ORemember (r : Request) (response : list Z)
  | OEventTarget (identity : option (Z * Z)) (id child : Z) (n : list Z)
  | OEvents (r : option EventRequest) (enabled : bool)
  | OClear.

Definition op_ok (o : Op) : Prop := match o with OForget r => bytes (body r) | _ => True end.

(** What the guest learns and says about node numbers. *)
Inductive Ev := Acquired (id : Z) | Forgot (id count : Z) | Restarted.

(** The pairs of a [FORGET] or [FORGET_MULTI] request. *)
Definition forgotten (r : Request) : list (Z * Z) :=
  let at_ o := match u64_at (body r) o with Ok n => n | Err _ => 0 end in
  if Wire.opcode r =? FORGET then [(Wire.node r, at_ 0)]
  else match u32_at (body r) 0 with
       | Ok count =>
           if (Wire.opcode r =? FORGET_MULTI) && (count <=? MAX_NODES) && (zlen (body r) =? 8 + count * 16)
           then (λ i, (at_ (8 + 16 * i), at_ (16 + 16 * i))) <$> seqZ 0 count else []
       | Err _ => []
       end.

Definition step (o : Op) (s : State) : list Ev * State :=
  match o with
  | ONodeId n st => let '(r, s) := node_id n st s in (match r with Ok id => [Acquired id] | Err _ => [] end, s)
  | OForget r => ((λ p, Forgot p.1 p.2) <$> forgotten r, (forget_request r s).2)
  | ORepoint st parent n => ([], repoint_node st parent n s)
  | OIncrement id => (if nodes s !! id is Some _ then [Acquired id] else [], increment_lookup id s)
  | OStoreHandle n d w => ([], (store_handle n d w s).2)
  | OStoreDirectory n d => ([], (store_directory n d s).2)
  | OReleaseFile r => ([], (release_file r s).2)
  | OReleaseDirectory r => ([], (release_directory r s).2)
  | OReleaseCached sole parent n identity => ([], (release_cached sole parent n identity s).2)
  | ORemember r response => ([], remember_lookup r response s)
  | OEventTarget identity id child n => ([], (event_same_inode identity id child n s).2)
  | OEvents r e => ([], set_events r e s)
  | OClear => ([Restarted], clear_runtime s)
  end.

Fixpoint run (os : list Op) (s : State) : list Ev * State :=
  match os with
  | [] => ([], s)
  | o :: os => let '(e, s) := step o s in let '(es, s) := run os s in (e ++ es, s)
  end.

(** The references the guest has to each node, by its own account. *)
Definition ledger1 (g : Z → Z) (e : Ev) : Z → Z :=
  match e with
  | Acquired id => λ x, if x =? id then g x + 1 else g x
  | Forgot id count => λ x, if (x =? id) && negb (x =? 1) then sat_sub (g x) count else g x
  | Restarted => λ x, if x =? 1 then g x else 0
  end.
Definition ledger (g : Z → Z) (es : list Ev) : Z → Z := foldl ledger1 g es.

Definition counted (s : State) (g : Z → Z) : Prop :=
  ∀ id, g id = match nodes s !! id with Some r => lookups r | None => 0 end.

(** There are numbers left for [n] more operations. *)
Definition room (n : Z) (s : State) : Prop :=
  next_node s + n < 2 ^ 64 ∧ next_handle s + n < 2 ^ 64 ∧ ∀ id r, nodes s !! id = Some r → lookups r + n < 2 ^ 64.

Definition foldl_forget (ps : list (Z * Z)) (s : State) : State := foldl (λ s p, forget p.1 p.2 s) s ps.

Lemma u64_at_ok bs o : 0 ≤ o → o + 8 ≤ zlen bs → ∃ n, u64_at bs o = Ok n.
Proof.
  intros Ho Hl. unfold u64_at, slice. rewrite !(proj2 (Z.leb_le _ _)) by lia. cbn. eauto.
Qed.

Lemma u64_at_value_nonneg bs o n : bytes bs → u64_at bs o = Ok n → 0 ≤ n.
Proof.
  intros Hb. unfold u64_at. destruct (slice _ _ _) as [s|] eqn:Hs; [|done].
  intros H. assert (n = from_le s) as -> by (cbn in H; congruence). apply from_le_nonneg. by eapply slice_bytes.
Qed.

Lemma forget_pairs_eq bs l s :
  Forall (λ i, 0 ≤ i ∧ 24 + 16 * i ≤ zlen bs) l →
  (forget_pairs bs ((λ i, 8 + 16 * i) <$> l) s).2
  = foldl_forget ((λ i, (match u64_at bs (8 + 16 * i) with Ok n => n | Err _ => 0 end,
                         match u64_at bs (16 + 16 * i) with Ok n => n | Err _ => 0 end)) <$> l) s.
Proof.
  intros Hl. revert s. induction Hl as [|i l [Hi Hi'] _ IH]; intros s; [done|].
  unfold foldl_forget in *. rewrite !fmap_cons. cbn [forget_pairs foldl]. replace (8 + 16 * i + 8) with (16 + 16 * i) by lia.
  destruct (u64_at_ok bs (8 + 16 * i)) as [a ->]; [lia|lia|].
  destruct (u64_at_ok bs (16 + 16 * i)) as [b ->]; [lia|lia|]. apply IH.
Qed.

Lemma forget_request_eq r s : (forget_request r s).2 = foldl_forget (forgotten r) s.
Proof.
  unfold forget_request, forgotten. case_match; [done|]. destruct (Wire.opcode r =? FORGET_MULTI); [|by case_match].
  destruct (u32_at (body r) 0) as [count|]; [|done]. cbn [andb]. rewrite Z.ltb_antisym.
  destruct (count <=? MAX_NODES); [|done]. destruct (zlen (body r) =? 8 + count * 16) eqn:Hz; [|done]. breflect. cbn [orb negb andb].
  apply forget_pairs_eq. apply Forall_forall. intros i ?%elem_of_seqZ. lia.
Qed.

Lemma forgotten_nonneg r : bytes (body r) → Forall (λ p, 0 ≤ p.2) (forgotten r).
Proof.
  intros Hb. assert (H : ∀ o, 0 ≤ match u64_at (body r) o with Ok n => n | Err _ => 0 end).
  { intros o. destruct (u64_at _ o) eqn:Ho; [by eapply u64_at_value_nonneg|done]. }
  unfold forgotten. case_match; [constructor; [apply H|done]|]. destruct (u32_at _ 0); [|done]. case_match; [|done].
  apply Forall_fmap, Forall_true. intros i. apply H.
Qed.

(** *** One operation *)

(** What an operation may do to the records: it keeps those that something
    refers to, with the file they stand for, and the counts follow the ledger. *)
Definition referenced (s : State) (id : Z) : Prop :=
  id = 1 ∨ (∃ r, nodes s !! id = Some r ∧ 0 < lookups r) ∨ held s id.

Lemma referenced_used s id : wf s → referenced s id → id ∉ unused_nodes s.
Proof. intros W H Hu. apply (wf_unused s W) in Hu as (? & (r & Hr & Hl) & ?). destruct H as [?|[(r' & ? & ?)|?]]; [done| |done]. assert (r' = r) by congruence. subst. lia. Qed.

Definition same_file (r r' : NodeRecord) : Prop := r_dev r' = r_dev r ∧ r_ino r' = r_ino r.
(** Every record stays, for the same file. *)
Definition stays (s s' : State) : Prop := ∀ id r, nodes s !! id = Some r → ∃ r', nodes s' !! id = Some r' ∧ same_file r r'.

Lemma stays_same s s' : nodes s' = nodes s → stays s s'.
Proof. intros H id r Hr. exists r. by rewrite H. Qed.

Lemma stays_update s id r r' i u next :
  nodes s !! id = Some r → same_file r r' → stays s (set_nodes (<[id := r']> (nodes s)) i u next s).
Proof.
  intros Hr Hs x y Hy. cbn. destruct (decide (x = id)) as [->|Hx]; [|rewrite lookup_insert_ne by done; by exists y].
  rewrite lookup_insert_eq. exists r'. by assert (y = r) as -> by congruence.
Qed.

Lemma stays_trans s1 s2 s3 : stays s1 s2 → stays s2 s3 → stays s1 s3.
Proof.
  intros H1 H2 id r Hr. destruct (H1 id r Hr) as (r2 & Hr2 & ? & ?). destruct (H2 id r2 Hr2) as (r3 & ? & ? & ?).
  exists r3. unfold same_file. split; [done|]. split; congruence.
Qed.

(** The numbers an operation uses up, and the counts. *)
Definition follows (n : Z) (g : Z → Z) (s : State) : Prop := wf s ∧ room n s ∧ counted s g.

Lemma follows_same n g s s' :
  follows (n + 1) g s → wf s' → nodes s' = nodes s → next_node s' = next_node s → next_handle s' ≤ next_handle s + 1 →
  follows n g s'.
Proof.
  intros (W & (R1 & R2 & R3) & C) W' Hn Hnn Hh. split; [done|]. split.
  - split; [lia|]. split; [lia|]. rewrite Hn. intros id r Hr. specialize (R3 id r Hr). lia.
  - intros id. rewrite Hn. apply C.
Qed.

Lemma follows_update m n g g' s id r r' u :
  follows m g s → n ≤ m → wf (set_nodes (<[id := r']> (nodes s)) (node_id_by_identity s) u (next_node s) s) →
  nodes s !! id = Some r → lookups r' + n ≤ lookups r + m →
  (∀ x, g' x = if decide (x = id) then lookups r' else g x) →
  follows n g' (set_nodes (<[id := r']> (nodes s)) (node_id_by_identity s) u (next_node s) s).
Proof.
  intros (W & (R1 & R2 & R3) & C) Hm W' Hr Hl Hg. split; [done|]. split.
  - split; cbn; [lia|]. split; [lia|]. intros x y. destruct (decide (x = id)) as [->|Hx].
    + rewrite lookup_insert_eq. intros H. assert (y = r') as -> by congruence. specialize (R3 id r Hr). lia.
    + rewrite lookup_insert_ne by done. intros H. specialize (R3 x y H). lia.
  - intros x. cbn. rewrite Hg. case_decide as Hx; [by rewrite Hx, lookup_insert_eq|]. rewrite lookup_insert_ne by done. apply C.
Qed.

Lemma forget_follows n g s id count :
  0 ≤ count → follows n g s → follows n (ledger1 g (Forgot id count)) (forget id count s) ∧ stays s (forget id count s).
Proof.
  intros Hc (W & R & C). pose proof (forget_wf id count s Hc W) as W'. pose proof (C id) as Cid.
  destruct (decide (id = 1)) as [->|Hid]; [|destruct (nodes s !! id) as [r|] eqn:Hr].
  - rewrite forget_none by tauto. split; [|by apply stays_same]. split; [done|]. split; [done|]. intros x.
    rewrite <- C. cbn. destruct (Z.eqb_spec x 1); done.
  - destruct (forget_eq id count s r Hid Hr) as (u & Hf & _). rewrite Hf in W' |- *.
    pose proof (wf_lookups s W id r Hr). split; [|by apply (stays_update s id r)].
    assert (Hs : sat_sub (lookups r) count ≤ lookups r) by (unfold sat_sub; case_match; lia).
    apply (follows_update n n g _ s id r); try done.
    + cbn. lia.
    + intros x. cbn. destruct (Z.eqb_spec x id) as [->|Hx]; [|by rewrite decide_False].
      rewrite decide_True, Cid by done. by rewrite (proj2 (Z.eqb_neq id 1)).
  - rewrite forget_none by tauto. split; [|by apply stays_same]. split; [done|]. split; [done|]. intros x.
    rewrite <- C. cbn. destruct (Z.eqb_spec x id) as [->|]; [|done]. destruct (_ =? 1); [done|]. cbn.
    rewrite Cid. unfold sat_sub. by rewrite (proj2 (Z.leb_le 0 count)).
Qed.

Lemma foldl_forget_follows n g s ps :
  Forall (λ p, 0 ≤ p.2) ps → follows n g s →
  follows n (ledger g ((λ p, Forgot p.1 p.2) <$> ps)) (foldl_forget ps s) ∧ stays s (foldl_forget ps s).
Proof.
  intros Hps. revert g s. induction Hps as [|p ps Hp _ IH]; intros g s F; [by split; [|apply stays_same]|].
  destruct (forget_follows n g s p.1 p.2 Hp F) as [F1 S1]. destruct (IH _ _ F1) as [F2 S2].
  split; [done|]. by eapply stays_trans.
Qed.

Lemma node_id_follows n g s x st :
  0 ≤ n → follows (n + 1) g s → let '(e, s') := step (ONodeId x st) s in
  follows n (ledger g e) s' ∧ (∀ id r, nodes s !! id = Some r → id ∉ unused_nodes s →
    ∃ r', nodes s' !! id = Some r' ∧ same_file r r').
Proof.
  intros Hn F. assert (F' := F). destruct F' as (W & (R1 & R2 & R3) & C). cbn [step].
  pose proof (node_id_spec x st s W) as Hs. destruct (node_id x st s) as [o s']. cbn in Hs.
  assert (W' : wf s') by (eapply numbered_wf; [done| |done]; lia).
  destruct Hs as [id r Hi Hr|Hi Hl Hu|s0 Hi Ho Hl Hi0 W0 Hn0].
  - split.
    + pose proof (R3 id r Hr). pose proof (wf_lookups s W id r Hr).
      assert (Hs : sat_add64 (lookups r) 1 = lookups r + 1) by (unfold sat_add64, U64_MAX; case_match; breflect; lia).
      eapply (follows_update (n + 1) n g); [done|lia|done|done|cbn; lia|]. intros y. cbn.
      destruct (Z.eqb_spec y id) as [->|]; [|by rewrite decide_False]. rewrite decide_True by done. rewrite C, Hr. lia.
    + intros y ry Hy _. by eapply stays_update.
  - split; [|by intros id r Hr _; exists r]. apply (follows_same n g s); try done; lia.
  - assert (Hev : evicted s s0 ∨ s0 = s) by naive_solver.
    assert (Hsub : ∀ y, nodes s0 !! y = nodes s !! y ∨ nodes s0 !! y = None ∧ y ∈ unused_nodes s).
    { intros y. destruct Hev as [[|z r Hz Hr]| ->]; [by left| |by left]. cbn. destruct (decide (y = z)) as [->|Hyz].
      - right. by rewrite lookup_delete_eq. - left. by rewrite lookup_delete_ne. }
    assert (Hh0 : next_handle s0 = next_handle s) by (destruct Hev as [[]| ->]; done).
    assert (Hfresh : nodes s0 !! next_node s = None) by (rewrite <- Hn0; by apply fresh_node).
    pose proof (fresh_node s W) as Hf. destruct (wf_ids s W) as [H2 _]. split; [split; [done|split]|].
    + split; cbn; [rewrite next_id_succ by lia; lia|]. split; [lia|]. intros y ry [[<- <-]|[Hy Hry]]%lookup_insert_Some; [cbn; lia|].
      destruct (Hsub y) as [Hs|[Hs _]]; [|congruence]. rewrite Hs in Hry. specialize (R3 y ry Hry). lia.
    + intros y. cbn. destruct (Z.eqb_spec y (next_node s)) as [->|Hy].
      * rewrite lookup_insert_eq, C, Hf. done.
      * rewrite lookup_insert_ne by done. rewrite C. destruct (Hsub y) as [-> |[-> Hu]]; [done|].
        apply (wf_unused s W) in Hu as (_ & (r & -> & Hr) & _). done.
    + intros y ry Hy Hu. exists ry. cbn. rewrite lookup_insert_ne by congruence. destruct (Hsub y) as [-> |[_ ?]]; done.
Qed.

(** The records that are in use stay, unless the guest starts over. *)
Definition used_stay (e : list Ev) (s s' : State) : Prop :=
  Restarted ∉ e → ∀ id r, nodes s !! id = Some r → id ∉ unused_nodes s → ∃ r', nodes s' !! id = Some r' ∧ same_file r r'.

Lemma stays_used e s s' : stays s s' → used_stay e s s'.
Proof. intros H _ id r Hr _. by apply H. Qed.

Lemma same_nodes_step n g s s' :
  follows (n + 1) g s → wf s' → nodes s' = nodes s → next_node s' = next_node s → next_handle s' ≤ next_handle s + 1 →
  follows n (ledger g []) s' ∧ used_stay [] s s'.
Proof. intros. split; [by apply (follows_same n g s)|]. by apply stays_used, stays_same. Qed.

Lemma recache_step n g s id r x :
  follows (n + 1) g s → nodes s !! id = Some r →
  let s' := set_nodes (<[id := with_node r x]> (nodes s)) (node_id_by_identity s) (unused_nodes s) (next_node s) s in
  follows n (ledger g []) s' ∧ used_stay [] s s'.
Proof.
  intros F Hr s'. assert (F' := F). destruct F' as (W & R & C). split; [|by apply stays_used, (stays_update s id r)].
  apply (follows_update (n + 1) n g _ s id r); [done|lia|by apply recache_wf|done|cbn; lia|].
  intros y. cbn. case_decide as Hy; [|done]. by rewrite Hy, C, Hr.
Qed.

Lemma mark_same id s : nodes (mark_unused_if_unheld id s) = nodes s
  ∧ next_node (mark_unused_if_unheld id s) = next_node s ∧ next_handle (mark_unused_if_unheld id s) = next_handle s.
Proof. by destruct (mark_eq id s) as (u & -> & _). Qed.

Lemma release_file_same r s : let s' := (release_file r s).2 in
  nodes s' = nodes s ∧ next_node s' = next_node s ∧ next_handle s' = next_handle s.
Proof. unfold release_file. repeat case_match; cbn; try done; edestruct mark_same as (-> & -> & ->); done. Qed.

Lemma release_directory_same r s : let s' := (release_directory r s).2 in
  nodes s' = nodes s ∧ next_node s' = next_node s ∧ next_handle s' = next_handle s.
Proof. unfold release_directory. repeat case_match; cbn; try done; edestruct mark_same as (-> & -> & ->); done. Qed.

Lemma increment_step n g s id :
  0 ≤ n → follows (n + 1) g s → let '(e, s') := step (OIncrement id) s in follows n (ledger g e) s' ∧ used_stay e s s'.
Proof.
  intros Hn F. assert (F' := F). destruct F' as (W & (R1 & R2 & R3) & C). cbn [step].
  pose proof (increment_lookup_wf id s W) as W'. unfold increment_lookup in *. destruct (nodes s !! id) as [r|] eqn:Hr.
  - pose proof (R3 id r Hr). pose proof (wf_lookups s W id r Hr).
    assert (Hs : sat_add64 (lookups r) 1 = lookups r + 1) by (unfold sat_add64, U64_MAX; case_match; breflect; lia).
    split; [|by apply stays_used, (stays_update s id r)].
    eapply (follows_update (n + 1) n g); [done|lia|done|done|cbn; lia|]. intros y. cbn.
    destruct (Z.eqb_spec y id) as [->|]; [|by rewrite decide_False]. rewrite decide_True by done. rewrite C, Hr. lia.
  - apply (same_nodes_step n g s); try done; lia.
Qed.

Lemma clear_step n g s : 0 ≤ n → follows (n + 1) g s →
  let '(e, s') := step OClear s in follows n (ledger g e) s' ∧ used_stay e s s'.
Proof.
  intros Hn (W & (R1 & R2 & R3) & C). cbn [step]. split; [|by intros []; left].
  destruct (wf_root s W) as [r Hr]. destruct (wf_ids s W) as [W6 _]. destruct (wf_handle_ids s W) as [W8 _].
  split; [by apply clear_runtime_wf|]. unfold clear_runtime. rewrite Hr. split; cbn.
  - split; cbn; [lia|]. split; [lia|]. intros id r' [_ <-]%lookup_singleton_Some. specialize (R3 1 r Hr). lia.
  - intros id. cbn. destruct (Z.eqb_spec id 1) as [->|Hid]; [by rewrite lookup_singleton_eq, C, Hr|].
    by rewrite lookup_singleton_ne.
Qed.

Lemma step_follows n g s o :
  0 ≤ n → op_ok o → follows (n + 1) g s →
  let '(e, s') := step o s in follows n (ledger g e) s' ∧ used_stay e s s'.
Proof.
  intros Hn Ho F. assert (F' := F). destruct F' as (W & (R1 & R2 & R3) & C). destruct (wf_handle_ids s W) as [W8 _].
  destruct o as [x st|r|st parent x|id|x d w|x d|r|r|sole parent x i|r resp|i id child x|r e|].
  - pose proof (node_id_follows n g s x st Hn F) as H. cbn in *. destruct (node_id x st s) as [o s'].
    destruct H as [H1 H2]. split; [done|]. intros _. exact H2.
  - cbn. rewrite forget_request_eq. destruct (foldl_forget_follows n g s (forgotten r)) as [H1 H2].
    + by apply forgotten_nonneg.
    + split; [done|]. split; [|done]. split; [lia|]. split; [lia|]. intros id y Hy. specialize (R3 id y Hy). lia.
    + split; [done|]. by apply stays_used.
  - cbn. unfold repoint_node. repeat case_match; [by apply recache_step| |]; apply (same_nodes_step n g s); try done; cbn; lia.
  - by apply increment_step.
  - cbn [step]. pose proof (store_handle_wf x d w s W ltac:(lia)) as W'. unfold store_handle in *.
    case_match; apply (same_nodes_step n g s); try done; cbn; rewrite ?next_id_succ by lia; lia.
  - cbn [step]. pose proof (store_directory_wf x d s W ltac:(lia)) as W'. unfold store_directory in *.
    case_match; apply (same_nodes_step n g s); try done; cbn; rewrite ?next_id_succ by lia; lia.
  - cbn [step]. destruct (release_file_same r s) as (H1 & H2 & H3).
    apply (same_nodes_step n g s); try done; [by apply release_file_wf|lia].
  - cbn [step]. destruct (release_directory_same r s) as (H1 & H2 & H3).
    apply (same_nodes_step n g s); try done; [by apply release_directory_wf|lia].
  - cbn. unfold release_cached. destruct (node_id_by_identity s !! i) as [id|]; [|apply (same_nodes_step n g s); try done; cbn; lia].
    case_match; [apply (same_nodes_step n g s); try done; cbn; lia|]. destruct (nodes s !! id) as [r|] eqn:Hr.
    + destruct (release_cached_directory sole parent x i (r_node r)) as [d y]. by apply recache_step.
    + apply (same_nodes_step n g s); try done; cbn; lia.
  - cbn [step]. pose proof (remember_lookup_wf r resp s W) as W'.
    apply (same_nodes_step n g s); try done; unfold remember_lookup; repeat case_match; cbn; try done; lia.
  - cbn. unfold event_same_inode. case_match; cbn; [apply (same_nodes_step n g s); try done; cbn; lia|].
    apply (same_nodes_step n g s); try done; [|cbn; lia]. apply set_entries_wf; [done|].
    pose proof (wf_events s W). pose proof (len_delete_le (event_entries s) (id, x)). lia.
  - apply (same_nodes_step n g s); try done; [|cbn; lia]. destruct W. by split.
  - by apply clear_step.
Qed.

(** *** Sequences of operations *)

Lemma tables_run_app a b s : run (a ++ b) s = let '(e1, s1) := run a s in let '(e2, s2) := run b s1 in (e1 ++ e2, s2).
Proof.
  revert s. induction a as [|o a IH]; intros s; cbn [run app]; [by destruct (run b s)|].
  destruct (step o s) as [e s0]. rewrite IH. destruct (run a s0) as [e1 s1]. destruct (run b s1). by rewrite app_assoc.
Qed.

Lemma run_follows os : ∀ n g s,
  0 ≤ n → Forall op_ok os → follows (zlen os + n) g s → let '(es, s') := run os s in follows n (ledger g es) s'.
Proof.
  induction os as [|o os IH]; intros n g s Hn Ho F; [done|]. apply Forall_cons in Ho as [Ho Hos]. cbn [run].
  pose proof (step_follows (zlen os + n) g s o) as Hs. replace (zlen (o :: os) + n) with (zlen os + n + 1) in F by (unfold zlen; cbn; lia). pose proof (zlen_nonneg os).
  destruct (step o s) as [e s1]. destruct Hs as [F1 _]; [lia|done|done|].
  specialize (IH n _ s1 Hn Hos F1). destruct (run os s1) as [es s']. unfold ledger in *. by rewrite foldl_app.
Qed.

(** The state [configure] leaves. *)
Definition configured (m : Z) (st : Stat) (root : Node) : State := new m (Some (mkRecord (dev st) (ino st) 1 root)).
Definition opening (id : Z) : Z := if id =? 1 then 1 else 0.

Lemma configured_follows m st root n : 1 ≤ m → n < 2 ^ 63 → follows n opening (configured m st root).
Proof.
  intros Hm Hn. split; [by apply new_wf|]. split.
  - split; cbn; [lia|]. split; [lia|]. intros id r [_ <-]%lookup_singleton_Some. cbn. lia.
  - intros id. unfold opening. cbn. destruct (Z.eqb_spec id 1) as [->|Hid]; [by rewrite lookup_singleton_eq|].
    by rewrite lookup_singleton_ne.
Qed.

(** Each use of a number, while something refers to it, is of the same file. *)
Lemma tables_run_keeps os : ∀ n g s id r,
  0 ≤ n → Forall op_ok os → follows (zlen os + n) g s → nodes s !! id = Some r → Restarted ∉ (run os s).1 →
  (∀ k, (k < length os)%nat → let '(es, s') := run (take k os) s in id = 1 ∨ 0 < ledger g es id ∨ held s' id) →
  ∃ r', nodes (run os s).2 !! id = Some r' ∧ same_file r r'.
Proof.
  induction os as [|o os IH]; intros n g s id r Hn Ho F Hr Hre Href; [by exists r|].
  apply Forall_cons in Ho as [Ho Hos]. cbn [run] in Hre |- *.
  pose proof (step_follows (zlen os + n) g s o) as Hs. replace (zlen (o :: os) + n) with (zlen os + n + 1) in F by (unfold zlen; cbn; lia). pose proof (zlen_nonneg os).
  destruct (step o s) as [e s1] eqn:Hst. destruct Hs as [F1 Hk]; [lia|done|done|].
  specialize (IH n (ledger g e) s1 id). destruct (run os s1) as [es s'] eqn:Hrun. cbn in Hre |- *.
  destruct (Hk ltac:(set_solver) id r Hr) as (r1 & Hr1 & Hs1).
  - apply referenced_used; [apply F|]. assert (H0 := Href 0%nat ltac:(cbn; lia)). cbn in H0. unfold referenced.
    destruct H0 as [|[Hg|]]; [by left| |by right; right]. right. left. exists r. split; [done|].
    destruct F as (_ & _ & C). rewrite C, Hr in Hg. done.
  - destruct (IH r1) as (r2 & Hr2 & Hs2); try done; [set_solver| |].
    + intros k Hlt. specialize (Href (S k) ltac:(cbn; lia)). cbn [take run] in Href. rewrite Hst in Href.
      destruct (run (take k os) s1) as [es1 s2]. unfold ledger in *. by rewrite foldl_app in Href.
    + exists r2. split; [done|]. destruct Hs1, Hs2. unfold same_file. split; congruence.
Qed.

(** C15. The table of file numbers: from the state [configure] leaves, after any
    sequence of fewer than 2^63 operations of requests and of the event worker (new
    numbers, forgetting, renames, opened and closed files and directories, released
    descriptors, events, a new INIT), a file has one number and a number one file,
    the table is no larger than configured, the nodes that may be dropped are
    exactly those without a lookup or an open file or directory, and the number of
    lookups of every node is what the guest has from its replies and has not
    forgotten. And a node in use stays: through any further operations with no new
    INIT among them, a number stands for the same file as long as before each of
    them it is the root, the guest has a lookup of it that it has not forgotten, or a
    file or directory of it is open. *)
Theorem node_table_sound os1 os2 m st root :
  1 ≤ m → Forall op_ok (os1 ++ os2) → zlen (os1 ++ os2) < 2 ^ 63 →
  let '(es, s) := run os1 (configured m st root) in
  wf s ∧ counted s (ledger opening es) ∧
  (∀ id r, nodes s !! id = Some r → Restarted ∉ (run os2 s).1 →
     (∀ k, (k < length os2)%nat →
        id = 1 ∨ 0 < ledger opening (es ++ (run (take k os2) s).1) id ∨ held (run (take k os2) s).2 id) →
     ∃ r', nodes (run os2 s).2 !! id = Some r' ∧ same_file r r').
Proof.
  intros Hm [Ho1 Ho2]%Forall_app Hn. rewrite zlen_app in Hn. pose proof (zlen_nonneg os2).
  pose proof (run_follows os1 (zlen os2) opening (configured m st root) ltac:(lia) Ho1 (configured_follows m st root _ Hm Hn)) as F.
  destruct (run os1 _) as [es s]. split_and!; [apply F..|]. intros id r Hr Hre Href.
  apply (tables_run_keeps os2 0 (ledger opening es)); try done; [by rewrite Z.add_0_r|].
  intros k Hk. specialize (Href k Hk). destruct (run (take k os2) s). unfold ledger in *. by rewrite foldl_app in Href.
Qed.

#[local] Definition wit_stat (i : Z) : Stat :=
  Wire.mkStat 1 i 16877 1 1000 1000 0 0 (Wire.mkInstant 0 0) (Wire.mkInstant 0 0) (Wire.mkInstant 0 0).
#[local] Definition wit_node : Node := mkNode (Some 3) None None.
(** Two files in a table for two nodes: the first is forgotten and dropped for the
    second, which stays while its file is open. *)
#[local] Definition wit_ops : list Op :=
  [ONodeId wit_node (wit_stat 5); OForget (Wire.mkRequest FORGET 7 2 (le_bytes 8 1));
   ONodeId wit_node (wit_stat 6); OStoreHandle 3 9 false].
#[local] Definition wit_more : list Op :=
  [OForget (Wire.mkRequest FORGET 8 3 (le_bytes 8 1)); ONodeId wit_node (wit_stat 5)].

#[local] Lemma wit_ops_ok : Forall op_ok (wit_ops ++ wit_more).
Proof. unfold wit_ops, wit_more. cbn [app]. repeat constructor; try done; apply le_bytes_bytes. Qed.

Lemma node_table_sound_witness :
  let '(es, s) := run wit_ops (configured 2 (wit_stat 1) wit_node) in
  wf s ∧ counted s (ledger opening es) ∧
  ∃ r', nodes (run wit_more s).2 !! 3 = Some r' ∧ same_file (mkRecord 1 6 1 wit_node) r'.
Proof.
  pose proof (node_table_sound wit_ops wit_more 2 (wit_stat 1) wit_node ltac:(lia) wit_ops_ok eq_refl) as H.
  destruct (run wit_ops _) as [es s] eqn:Hr. vm_compute in Hr. injection Hr as <- <-. destruct H as (H1 & H2 & H3).
  split; [exact H1|]. split; [exact H2|]. apply H3.
  - vm_compute. reflexivity.
  - vm_compute. intros H. repeat (apply elem_of_cons in H as [H|H]; [done|]). by apply elem_of_nil in H.
  - intros k Hk. destruct k as [|[|k]]; [| |cbn in Hk; lia].
    + right; left. vm_compute. reflexivity.
    + right; right. left. exists 2, (mkHandle 3 false 9). split; vm_compute; reflexivity.
Defined.

End Nodes.
