(* ===== verification/FsIo.v ===== *)
(** * The requests of the file system device that wait for the host

    [IoScheduler] of [components/fs/src/transport/io.rs]: requests wait in one
    queue, at most [MAX_ACTIVE_IO] of them are worked on at a time, and of the
    requests on one file at most one. What a request does ([work], a future) is
    named by a value of a type [Work]; which of the futures that are being worked on
    is ready first is up to the host, an argument of [poll_complete]. *)

From stdpp Require Import gmap.
From S2P Require Import Prelude FsWire FsNodes.

Local Open Scope Z_scope.

Module Io.
Import Wire (EBUSY).
Import Nodes (PendingReply, p_reset_count).

Definition MAX_ACTIVE_IO : Z := 32.
Definition MAX_PENDING_IO : Z := 256.

(** [position] and [VecDeque::remove]: the first entry with [P], and the others. *)
Fixpoint take_first {A} (P : A → bool) (l : list A) : option (A * list A) :=
  match l with
  | [] => None
  | x :: l => if P x then Some (x, l) else (λ '(y, k), (y, x :: k)) <$> take_first P l
  end.

Lemma take_first_spec {A} (P : A → bool) l :
  match take_first P l with
  | Some (x, k) => P x = true ∧ ∃ a b, l = a ++ x :: b ∧ k = a ++ b ∧ Forall (λ y, P y = false) a
  | None => Forall (λ y, P y = false) l
  end.
Proof.
  induction l as [|x l IH]; [by constructor|]. cbn [take_first]. destruct (P x) eqn:Hx; [by split; [|exists [], l; repeat split; constructor]|].
  destruct (take_first P l) as [[y k]|]; cbn; [|by constructor]. destruct IH as (Hy & a & b & -> & -> & Ha).
  split; [done|]. exists (x :: a), b. repeat split; try done. by constructor.
Qed.

Lemma zlen_cons {A} (x : A) l : zlen (x :: l) = 1 + zlen l.
Proof. unfold zlen. cbn. lia. Qed.

Lemma zlen_filter_app {A} (P : A → Prop) `{∀ x, Decision (P x)} l k :
  zlen (filter P (l ++ k)) = zlen (filter P l) + zlen (filter P k).
Proof. by rewrite filter_app, zlen_app. Qed.

Lemma zlen_one {A} (P : A → Prop) `{∀ x, Decision (P x)} x : zlen (filter P [x]) = if decide (P x) then 1 else 0.
Proof. rewrite filter_cons. by case_decide. Qed.

Lemma filter_none {A} (P : A → Prop) `{∀ x, Decision (P x)} l : (∀ x, x ∈ l → ¬ P x) → filter P l = [].
Proof.
  induction l as [|x l IH]; intros Hl; [done|]. rewrite filter_cons_False by (apply Hl; left).
  apply IH. intros y Hy. apply Hl. by right.
Qed.

Section Scheduler.
Context {Work : Type}.

Record PreparedIo := mkIo { identity : option (Z * Z); work : Work }.
Local Notation Entry := (PreparedIo * PendingReply)%type.
Record CompletedIo := mkCompleted {
  c_identity : option (Z * Z);
  c_reply : PendingReply;
  c_result : result Z (list Z);
}.

Record IoScheduler := mkScheduler {
  pending : list Entry;
  active : list Entry;
  active_files : gmap (Z * Z) Z;
  active_reset_counts : gmap Z Z;
}.

Definition default_scheduler : IoScheduler := mkScheduler [] [] ∅ ∅.

Definition discard_pending (s : IoScheduler) : IoScheduler :=
  mkScheduler [] (active s) (active_files s) (active_reset_counts s).

Definition has_work_from_reset_count (s : IoScheduler) (reset_count : Z) : bool :=
  bool_decide (is_Some (active_reset_counts s !! reset_count))
  || existsb (λ e, p_reset_count e.2 =? reset_count) (pending s).

Definition enqueue (operation : PreparedIo) (reply : PendingReply) (s : IoScheduler) : result Z unit * IoScheduler :=
  if zlen (pending s) + zlen (active s) =? MAX_PENDING_IO then (Err EBUSY, s)
  else (Ok tt, mkScheduler (pending s ++ [(operation, reply)]) (active s) (active_files s) (active_reset_counts s)).

(** The predicate of [position]. *)
Definition startable (s : IoScheduler) (e : Entry) : bool :=
  match identity e.1 with Some i => negb (bool_decide (is_Some (active_files s !! i))) | None => true end.

(** One round of the loop of [poll_complete]. *)
Definition start (s : IoScheduler) : option IoScheduler :=
  match take_first (startable s) (pending s) with
  | None => None
  | Some (e, rest) =>
      let c := p_reset_count e.2 in
      Some (mkScheduler rest (active s ++ [e])
        (match identity e.1 with Some i => <[i := c]> (active_files s) | None => active_files s end)
        (<[c := default 0 (active_reset_counts s !! c) + 1]> (active_reset_counts s)))
  end.

(** Every round adds one to [active], so the rounds left are known. *)
Fixpoint start_loop (rounds : nat) (s : IoScheduler) : IoScheduler :=
  match rounds with
  | O => s
  | S rounds => match start s with Some s => start_loop rounds s | None => s end
  end.
Definition start_all (s : IoScheduler) : IoScheduler := start_loop (Z.to_nat (MAX_ACTIVE_IO - zlen (active s))) s.

Definition finish (e : Entry) (rest : list Entry) (s : IoScheduler) : IoScheduler :=
  let c := p_reset_count e.2 in
  mkScheduler (pending s) rest
    (match identity e.1 with Some i => delete i (active_files s) | None => active_files s end)
    (match active_reset_counts s !! c with
     | Some n => if n - 1 =? 0 then delete c (active_reset_counts s) else <[c := n - 1]> (active_reset_counts s)
     | None => active_reset_counts s
     end).

(** [ready]: the future that is ready, by its place among the active ones, with
    its result; [None] when none is. *)
Definition poll_complete (ready : option (nat * result Z (list Z))) (s : IoScheduler) : option CompletedIo * IoScheduler :=
  let s := start_all s in
  match ready with
  | Some (k, result) =>
      match active s !! k with
      | Some e => (Some (mkCompleted (identity e.1) e.2 result), finish e (delete k (active s)) s)
      | None => (None, s)
      end
  | None => (None, s)
  end.

(** ** Invariant *)

Definition of_file (i : Z * Z) (l : list Entry) : list Entry := filter (λ e, identity e.1 = Some i) l.
(** The requests on one file, the one that is worked on first. *)
Definition file_queue (i : Z * Z) (s : IoScheduler) : list Entry := of_file i (active s) ++ of_file i (pending s).

Definition of_reset (c : Z) (l : list Entry) : Z := zlen (filter (λ e, p_reset_count e.2 = c) l).

Lemma of_file_app i l k : of_file i (l ++ k) = of_file i l ++ of_file i k.
Proof. apply filter_app. Qed.

Lemma of_file_cons i e l : of_file i (e :: l) = (if decide (identity e.1 = Some i) then [e] else []) ++ of_file i l.
Proof. unfold of_file. rewrite filter_cons. by case_decide. Qed.

Lemma of_file_none i l : (∀ x, x ∈ l → identity x.1 ≠ Some i) → of_file i l = [].
Proof. apply filter_none. Qed.

Lemma elem_of_file i l x : x ∈ of_file i l ↔ identity x.1 = Some i ∧ x ∈ l.
Proof. unfold of_file. by rewrite list_elem_of_filter. Qed.

Lemma of_reset_nonneg c l : 0 ≤ of_reset c l.
Proof. apply zlen_nonneg. Qed.

Lemma of_reset_app c l k : of_reset c (l ++ k) = of_reset c l + of_reset c k.
Proof. apply zlen_filter_app. Qed.

Lemma of_reset_snoc c l e : of_reset c (l ++ [e]) = of_reset c l + if decide (c = p_reset_count e.2) then 1 else 0.
Proof. rewrite of_reset_app. unfold of_reset at 2. rewrite zlen_one. by do 2 case_decide; subst. Qed.

Record wf (s : IoScheduler) : Prop := {
  wf_active : zlen (active s) ≤ MAX_ACTIVE_IO;
  wf_total : zlen (pending s) + zlen (active s) ≤ MAX_PENDING_IO;
  wf_files : ∀ i, is_Some (active_files s !! i) ↔ ∃ e, e ∈ active s ∧ identity e.1 = Some i;
  wf_alone : ∀ i, zlen (of_file i (active s)) ≤ 1;
  wf_counts : ∀ c, active_reset_counts s !! c =
    if of_reset c (active s) =? 0 then None else Some (of_reset c (active s));
}.

(** A request that is started was the first of its file. *)
Lemma start_spec s s' : wf s → start s = Some s' →
  ∃ e a b, pending s = a ++ e :: b ∧ pending s' = a ++ b ∧ active s' = active s ++ [e]
    ∧ (∀ i, identity e.1 = Some i → ∀ x, x ∈ active s ++ a → identity x.1 ≠ Some i)
    ∧ (∀ i, is_Some (active_files s' !! i) ↔ identity e.1 = Some i ∨ is_Some (active_files s !! i))
    ∧ (∀ c, active_reset_counts s' !! c =
         if decide (c = p_reset_count e.2) then Some (default 0 (active_reset_counts s !! c) + 1) else active_reset_counts s !! c).
Proof.
  intros W. unfold start. pose proof (take_first_spec (startable s) (pending s)) as Ht.
  destruct (take_first _ _) as [[e rest]|]; [|done]. destruct Ht as (He & a & b & Hp & -> & Ha).
  intros [= <-]. exists e, a, b. cbn. split; [done|]. split; [done|]. split; [done|]. split; [|split].
  - intros i Hi x Hx Hxi. unfold startable in He. rewrite Hi in He. apply negb_true_iff, bool_decide_eq_false in He.
    apply elem_of_app in Hx as [Hx|Hx]; [apply He, (wf_files s W); eauto|].
    rewrite Forall_forall in Ha. apply Ha in Hx. unfold startable in Hx. rewrite Hxi in Hx.
    by apply negb_false_iff, bool_decide_eq_true in Hx.
  - intros i. destruct (identity e.1) as [j|]; [|naive_solver]. rewrite lookup_insert_is_Some. split; [|intros [[= ->]|?]; [by left|]].
    + intros [->|[_ ?]]; [by left|by right].
    + destruct (decide (j = i)); [by left|by right].
  - intros c. case_decide as Hc; [by rewrite Hc, lookup_insert_eq|]. by rewrite lookup_insert_ne by done.
Qed.

Lemma start_wf s s' : wf s → start s = Some s' → zlen (active s) < MAX_ACTIVE_IO → wf s'.
Proof.
  intros W Hs Hl. destruct (start_spec s s' W Hs) as (e & a & b & Hp & Hp' & Ha & Hfirst & Hf & Hc).
  destruct W as [W1 W2 W3 W4 W5]. split.
  - rewrite Ha, zlen_app. change (zlen [e]) with 1. lia.
  - rewrite Ha, Hp', !zlen_app. rewrite Hp, zlen_app, zlen_cons in W2. change (zlen [e]) with 1. lia.
  - intros i. rewrite Hf, W3, Ha. setoid_rewrite elem_of_app. setoid_rewrite list_elem_of_singleton. split.
    + intros [He|(x & Hx & Hi)]; eauto.
    + intros (x & [Hx|Hx] & Hi); [right; eauto|left]. by subst.
  - intros i. rewrite Ha, of_file_app, of_file_cons, zlen_app. change (of_file i []) with (@nil Entry). specialize (W4 i).
    case_decide as Hi; [|unfold zlen in *; cbn; lia]. rewrite (of_file_none i (active s)); [done|].
    intros x Hx. apply (Hfirst i Hi). apply elem_of_app. by left.
  - intros c. rewrite Hc, Ha, of_reset_snoc, W5. pose proof (of_reset_nonneg c (active s)).
    case_decide; [|by rewrite Z.add_0_r]. destruct (Z.eqb_spec (of_reset c (active s)) 0) as [->|Hz]; [done|].
    rewrite (proj2 (Z.eqb_neq _ _)) by lia. done.
Qed.

Lemma start_queue s s' i : wf s → start s = Some s' → file_queue i s' = file_queue i s.
Proof.
  intros W Hs. destruct (start_spec s s' W Hs) as (e & a & b & Hp & Hp' & Ha & Hfirst & _).
  unfold file_queue. rewrite Hp, Hp', Ha, !of_file_app, !of_file_cons. change (of_file i []) with (@nil Entry).
  case_decide as Hi; [|by rewrite !app_nil_r]. rewrite (of_file_none i a); [by rewrite <- app_assoc|].
  intros x Hx. apply (Hfirst i Hi). apply elem_of_app. by right.
Qed.

(** *** The loop *)

Lemma start_active s s' : start s = Some s' → zlen (active s') = zlen (active s) + 1.
Proof.
  unfold start. destruct (take_first _ _) as [[e rest]|]; [|done]. intros [= <-]. cbn. by rewrite zlen_app.
Qed.

Lemma start_loop_spec n s : wf s → zlen (active s) + Z.of_nat n ≤ MAX_ACTIVE_IO →
  let s' := start_loop n s in
  wf s' ∧ (∀ i, file_queue i s' = file_queue i s) ∧ active s `prefix_of` active s'
  ∧ pending s' ⊆+ pending s
  ∧ zlen (pending s') + zlen (active s') = zlen (pending s) + zlen (active s)
  ∧ (start s' = None ∨ zlen (active s') = zlen (active s) + Z.of_nat n).
Proof.
  revert s. induction n as [|n IH]; intros s W Hn; cbn [start_loop].
  { repeat split; try done; [apply W..|]. right. lia. }
  destruct (start s) as [s1|] eqn:Hs; [|repeat split; try done; [apply W..|]; by left].
  pose proof (start_active s s1 Hs) as Ha1. pose proof (start_wf s s1 W Hs ltac:(lia)) as W1.
  destruct (start_spec s s1 W Hs) as (e & a & b & Hp & Hp' & Ha & _).
  destruct (IH s1 W1 ltac:(lia)) as (H1 & H2 & H3 & H4 & H5 & H6). split; [done|]. split; [|split; [|split; [|split]]].
  - intros i. rewrite H2. by apply start_queue.
  - etrans; [|exact H3]. rewrite Ha. by eexists.
  - etrans; [exact H4|]. rewrite Hp, Hp'. apply submseteq_app; [done|]. by apply submseteq_cons.
  - rewrite H5, Ha, Hp, Hp', !zlen_app, !zlen_cons. change (zlen []) with 0. lia.
  - destruct H6 as [?|H6]; [by left|right]. lia.
Qed.

Lemma start_all_spec s : wf s → let s' := start_all s in
  wf s' ∧ (∀ i, file_queue i s' = file_queue i s) ∧ active s `prefix_of` active s'
  ∧ zlen (pending s') + zlen (active s') = zlen (pending s) + zlen (active s)
  ∧ (zlen (active s') = MAX_ACTIVE_IO ∨ Forall (λ e, startable s' e = false) (pending s')).
Proof.
  intros W. pose proof (wf_active s W) as Hl. pose proof (zlen_nonneg (active s)).
  destruct (start_loop_spec (Z.to_nat (MAX_ACTIVE_IO - zlen (active s))) s W ltac:(lia)) as (H1 & H2 & H3 & H4 & H5 & H6).
  split; [done|]. split; [done|]. split; [done|]. split; [done|]. destruct H6 as [H6|H6]; [right|left; unfold start_all; lia].
  fold (start_all s) in *. unfold start in H6. pose proof (take_first_spec (startable (start_all s)) (pending (start_all s))) as Ht.
  destruct (take_first _ _) as [[]|]; [done|]. exact Ht.
Qed.

(** *** Completion *)

Lemma finish_spec s k e : wf s → active s !! k = Some e → let s' := finish e (delete k (active s)) s in
  wf s' ∧ ∀ i, file_queue i s = (if decide (identity e.1 = Some i) then [e] else []) ++ file_queue i s'.
Proof.
  intros W Hk. assert (W' := W). destruct W' as [W1 W2 W3 W4 W5].
  assert (Hsplit := take_drop_middle (active s) k e Hk). set (a := take k (active s)) in *. set (b := drop (S k) (active s)) in *.
  assert (Hdel : delete k (active s) = a ++ b) by (subst a b; apply delete_take_drop). rewrite Hdel.
  assert (Halone : ∀ i x, identity e.1 = Some i → x ∈ a ++ b → identity x.1 ≠ Some i).
  { intros i x Hi Hx Hxi. specialize (W4 i). rewrite <- Hsplit, of_file_app, of_file_cons, decide_True, !zlen_app in W4 by done.
    assert (Hin : x ∈ of_file i (a ++ b)) by by apply elem_of_file. rewrite of_file_app in Hin.
    change (zlen [e]) with 1 in W4. apply list_elem_of_In, in_split in Hin as (l1 & l2 & Hl).
    apply (f_equal zlen) in Hl. rewrite !zlen_app in Hl. rewrite zlen_cons in Hl. pose proof (zlen_nonneg l1). pose proof (zlen_nonneg l2). lia. }
  assert (Hmem : ∀ x, x ∈ active s ↔ x = e ∨ x ∈ a ++ b).
  { intros x. rewrite <- Hsplit, !elem_of_app, elem_of_cons. tauto. }
  unfold finish. split; [split; cbn [pending active active_files active_reset_counts]|].
  - rewrite <- Hsplit, zlen_app, zlen_cons in W1. rewrite zlen_app. lia.
  - rewrite <- Hsplit, zlen_app, zlen_cons in W2. rewrite zlen_app. lia.
  - intros i. specialize (W3 i). destruct (identity e.1) as [j|] eqn:Hj.
    + rewrite lookup_delete_is_Some, W3. setoid_rewrite Hmem. split.
      * intros (Hne & x & [->|Hx] & Hi); [congruence|eauto].
      * intros (x & Hx & Hi). split; [|eauto]. intros ->. by eapply Halone.
    + rewrite W3. setoid_rewrite Hmem. split; [|naive_solver]. intros (x & [->|Hx] & Hi); [congruence|eauto].
  - intros i. specialize (W4 i). rewrite <- Hsplit, of_file_app, of_file_cons, !zlen_app in W4. rewrite of_file_app, zlen_app.
    pose proof (zlen_nonneg (if decide (identity e.1 = Some i) then [e] else [])). lia.
  - intros c. assert (Hc : ∀ c, of_reset c (active s) = of_reset c (a ++ b) + if decide (c = p_reset_count e.2) then 1 else 0).
    { intros c'. rewrite <- Hsplit. change (e :: b) with ([e] ++ b). rewrite !of_reset_app.
      pose proof (of_reset_snoc c' [] e) as Hs. change ([] ++ [e]) with [e] in Hs. rewrite Hs. change (of_reset c' []) with 0. lia. }
    pose proof (of_reset_nonneg c (a ++ b)). pose proof (W5 (p_reset_count e.2)) as W5e. pose proof (Hc (p_reset_count e.2)) as Hce.
    rewrite decide_True in Hce by done. pose proof (of_reset_nonneg (p_reset_count e.2) (a ++ b)).
    rewrite (proj2 (Z.eqb_neq _ 0)) in W5e by lia. rewrite W5e. destruct (decide (c = p_reset_count e.2)) as [->|Hne].
    + destruct (Z.eqb_spec (of_reset (p_reset_count e.2) (active s) - 1) 0) as [Hz|Hz].
      * rewrite lookup_delete_eq, (proj2 (Z.eqb_eq _ 0)) by lia. done.
      * rewrite lookup_insert_eq, (proj2 (Z.eqb_neq _ 0)) by lia. f_equal. lia.
    + specialize (Hc c). rewrite decide_False, Z.add_0_r in Hc by done. rewrite <- Hc.
      case_match; [rewrite lookup_delete_ne by done|rewrite lookup_insert_ne by done]; apply W5.
  - intros i. unfold file_queue. cbn [pending active]. rewrite <- Hsplit, !of_file_app, of_file_cons. case_decide as Hi; [|done].
    rewrite !(of_file_none i a), !(of_file_none i b); [done|..]; intros x Hx; apply (Halone i x Hi), elem_of_app; tauto.
Qed.

(** *** What is kept *)

(** The requests the scheduler has. *)
Definition entries (s : IoScheduler) : list Entry := pending s ++ active s.

Lemma start_entries s s' : start s = Some s' → entries s' ≡ₚ entries s.
Proof.
  unfold start. pose proof (take_first_spec (startable s) (pending s)) as Ht.
  destruct (take_first _ _) as [[e rest]|]; [|done]. destruct Ht as (_ & a & b & Hp & -> & _).
  intros [= <-]. unfold entries. cbn. rewrite Hp. rewrite <- !app_assoc. f_equiv. cbn. rewrite app_assoc.
  by rewrite (Permutation_app_comm (b ++ active s) [e]).
Qed.

Lemma start_all_entries s : entries (start_all s) ≡ₚ entries s.
Proof.
  unfold start_all. generalize (Z.to_nat (MAX_ACTIVE_IO - zlen (active s))). intros n. revert s.
  induction n as [|n IH]; intros s; cbn [start_loop]; [done|]. destruct (start s) as [s1|] eqn:Hs; [|done].
  rewrite IH. by apply start_entries.
Qed.

Lemma poll_entries ready s : let '(c, s') := poll_complete ready s in
  match c with
  | Some c => ∃ e, entries s ≡ₚ e :: entries s' ∧ c_reply c = e.2
  | None => entries s' ≡ₚ entries s
  end.
Proof.
  unfold poll_complete. pose proof (start_all_entries s) as Hs.
  destruct ready as [[k result]|]; [destruct (active _ !! k) as [e|] eqn:Hk|]; [|done|done].
  exists e. split; [|done]. rewrite <- Hs. unfold entries. cbn. rewrite <- (take_drop_middle _ _ _ Hk) at 1.
  rewrite delete_take_drop. by rewrite !Permutation_middle.
Qed.

(** ** Every use of the scheduler *)

Inductive Op :=
  | Enqueue (operation : PreparedIo) (reply : PendingReply)
  | Poll (ready : option (nat * result Z (list Z)))
  | Discard.

Inductive Ev := Accepted (e : Entry) | Refused (e : Entry) | Completed (c : CompletedIo) | Discarded.

Definition step (o : Op) (s : IoScheduler) : list Ev * IoScheduler :=
  match o with
  | Enqueue operation reply =>
      let '(r, s) := enqueue operation reply s in
      ([if r is Ok _ then Accepted (operation, reply) else Refused (operation, reply)], s)
  | Poll ready => let '(c, s) := poll_complete ready s in (match c with Some c => [Completed c] | None => [] end, s)
  | Discard => ([Discarded], discard_pending s)
  end.

Fixpoint run (os : list Op) (s : IoScheduler) : list Ev * IoScheduler :=
  match os with
  | [] => ([], s)
  | o :: os => let '(e, s) := step o s in let '(es, s) := run os s in (e ++ es, s)
  end.

(** The requests on file [i] that were accepted, and those that were answered, by
    the replies they are for, in order. *)
Definition accepted (i : Z * Z) (es : list Ev) : list PendingReply :=
  omap (λ e, match e with Accepted e => if decide (identity e.1 = Some i) then Some e.2 else None | _ => None end) es.
Definition completed (i : Z * Z) (es : list Ev) : list PendingReply :=
  omap (λ e, match e with Completed c => if decide (c_identity c = Some i) then Some (c_reply c) else None | _ => None end) es.

Lemma default_wf : wf default_scheduler.
Proof. split; try done. intros i. cbn. split; [by intros [? ?%lookup_empty_Some]|]. by intros (e & ?%elem_of_nil & _). Qed.

Lemma enqueue_spec operation reply s : wf s → let '(r, s') := enqueue operation reply s in
  wf s' ∧ (∀ i, file_queue i s' = file_queue i s
             ++ if r is Ok _ then if decide (identity operation = Some i) then [(operation, reply)] else [] else [])
  ∧ (r = Err EBUSY ↔ zlen (pending s) + zlen (active s) = MAX_PENDING_IO).
Proof.
  intros W. unfold enqueue. destruct (Z.eqb_spec (zlen (pending s) + zlen (active s)) MAX_PENDING_IO) as [H|H].
  - split; [done|]. split; [|done]. intros i. by rewrite app_nil_r.
  - destruct W as [W1 W2 W3 W4 W5]. split; [split; cbn [pending active active_files active_reset_counts]; try done|split; [|done]].
    + rewrite zlen_app, zlen_cons. change (zlen []) with 0. lia.
    + intros i. unfold file_queue. cbn [pending active]. rewrite of_file_app, of_file_cons, app_assoc.
      change (of_file i []) with (@nil Entry). by rewrite (app_nil_r (if decide _ then _ else _)).
Qed.

Lemma poll_spec ready s : wf s → let '(c, s') := poll_complete ready s in
  wf s' ∧ ∀ i, (file_queue i s).*2
    = match c with Some c => if decide (c_identity c = Some i) then [c_reply c] else [] | None => [] end
      ++ (file_queue i s').*2.
Proof.
  intros W. unfold poll_complete. destruct (start_all_spec s W) as (W' & Hq & _).
  destruct ready as [[k result]|]; [destruct (active _ !! k) as [e|] eqn:Hk|]; [|by split; [|intros i; rewrite Hq]..].
  destruct (finish_spec _ k e W' Hk) as [W'' Hf]. split; [done|]. intros i. rewrite <- Hq, Hf, fmap_app. cbn. by case_decide.
Qed.

Lemma discard_spec s : wf s → wf (discard_pending s) ∧ ∀ i, file_queue i (discard_pending s) `prefix_of` file_queue i s.
Proof.
  intros [W1 W2 W3 W4 W5]. split; [split; cbn; try done; pose proof (zlen_nonneg (pending s)); unfold zlen in *; cbn; lia|].
  intros i. unfold file_queue. cbn. rewrite app_nil_r. by eexists.
Qed.

Lemma step_order o s i : wf s → let '(e, s') := step o s in
  wf s' ∧ (completed i e ++ (file_queue i s').*2 `sublist_of` (file_queue i s).*2 ++ accepted i e)
  ∧ (Discarded ∉ e → completed i e ++ (file_queue i s').*2 = (file_queue i s).*2 ++ accepted i e).
Proof.
  intros W. destruct o as [operation reply|ready|]; cbn [step].
  - pose proof (enqueue_spec operation reply s W) as H. destruct (enqueue _ _ s) as [r s']. destruct H as (W' & Hq & _).
    split; [done|]. assert (Heq : completed i [if r is Ok _ then Accepted (operation, reply) else Refused (operation, reply)]
      ++ (file_queue i s').*2 = (file_queue i s).*2 ++ accepted i [if r is Ok _ then Accepted (operation, reply) else Refused (operation, reply)]).
    { rewrite Hq, fmap_app. destruct r; cbn; [|by rewrite !app_nil_r]. by case_decide; cbn; rewrite ?app_nil_r. }
    by rewrite Heq.
  - pose proof (poll_spec ready s W) as H. destruct (poll_complete ready s) as [c s']. destruct H as (W' & Hq).
    split; [done|]. rewrite Hq. destruct c as [c|]; cbn; [case_decide; cbn|]; by rewrite !app_nil_r.
  - destruct (discard_spec s W) as [W' Hq]. split; [done|]. split; [|intros Hd; exfalso; apply Hd; left]. destruct (Hq i) as [k ->].
    change (accepted i [Discarded]) with (@nil PendingReply). rewrite fmap_app, app_nil_r. apply sublist_inserts_r. reflexivity.
Qed.

Lemma run_order os : ∀ s i, wf s → let '(es, s') := run os s in
  wf s' ∧ (completed i es ++ (file_queue i s').*2 `sublist_of` (file_queue i s).*2 ++ accepted i es)
  ∧ (Discarded ∉ es → completed i es ++ (file_queue i s').*2 = (file_queue i s).*2 ++ accepted i es).
Proof.
  induction os as [|o os IH]; intros s i W; cbn [run].
  { cbn. rewrite app_nil_r. by split; [|split]. }
  pose proof (step_order o s i W) as Hs. destruct (step o s) as [e s1]. destruct Hs as (W1 & Hs1 & He1).
  specialize (IH s1 i W1). destruct (run os s1) as [es s2]. destruct IH as (W2 & Hs2 & He2). unfold completed, accepted in *.
  split; [done|]. rewrite !omap_app, <- !app_assoc. split.
  - etrans; [by apply sublist_app|]. rewrite !app_assoc. by apply sublist_app.
  - intros Hd. rewrite He2 by set_solver. rewrite !app_assoc, He1 by set_solver. done.
Qed.

Lemma has_work_spec s c : wf s →
  has_work_from_reset_count s c = true ↔ ∃ e, e ∈ active s ++ pending s ∧ p_reset_count e.2 = c.
Proof.
  intros W. unfold has_work_from_reset_count. rewrite orb_true_iff, bool_decide_eq_true, (wf_counts s W), existsb_exists.
  assert (Ha : is_Some (if of_reset c (active s) =? 0 then None else Some (of_reset c (active s)))
    ↔ ∃ e, e ∈ active s ∧ p_reset_count e.2 = c).
  { unfold of_reset. destruct (filter _ (active s)) as [|e l] eqn:Hf.
    - cbn. split; [by intros []|]. intros (e & He & Hc).
      assert (Hin : e ∈ filter (λ e : Entry, p_reset_count e.2 = c) (active s)) by by apply list_elem_of_filter.
      rewrite Hf in Hin. by apply elem_of_nil in Hin.
    - assert (Hin : e ∈ filter (λ e : Entry, p_reset_count e.2 = c) (active s)) by (rewrite Hf; left).
      apply list_elem_of_filter in Hin as [Hc He]. split; [by exists e|done]. }
  rewrite Ha. setoid_rewrite elem_of_app. setoid_rewrite <- list_elem_of_In. setoid_rewrite Z.eqb_eq. naive_solver.
Qed.

(** C27. The requests that wait for the host: however requests arrive, in whatever
    order the host finishes them and whenever the waiting ones are discarded, at most
    32 are worked on and at most 256 are kept, at most one request on a file is
    worked on at a time, and the requests on a file are answered in the order they
    were accepted: what was answered followed by what is kept is what was accepted,
    with nothing lost but by a discard. A queue generation has work exactly when a
    request of it is kept. *)
Theorem file_requests_in_order os i :
  let '(es, s) := run os default_scheduler in
  zlen (active s) ≤ MAX_ACTIVE_IO ∧ zlen (pending s) + zlen (active s) ≤ MAX_PENDING_IO
  ∧ zlen (of_file i (active s)) ≤ 1
  ∧ completed i es ++ (file_queue i s).*2 `sublist_of` accepted i es
  ∧ (Discarded ∉ es → completed i es ++ (file_queue i s).*2 = accepted i es)
  ∧ ∀ c, has_work_from_reset_count s c = true ↔ ∃ e, e ∈ active s ++ pending s ∧ p_reset_count e.2 = c.
Proof.
  pose proof (run_order os default_scheduler i default_wf) as H. destruct (run os _) as [es s]. destruct H as (W & Hs & He).
  split; [apply W|]. split; [apply W|]. split; [apply W|]. split; [done|]. split; [done|]. intros c. by apply has_work_spec.
Qed.

(** No request waits without a reason: whenever the scheduler is polled, a
    request is left waiting only when 32 requests are being worked on or one on the
    same file is. *)
Theorem waiting_has_reason os :
  let s := (poll_complete None (run os default_scheduler).2).2 in
  ∀ e, e ∈ pending s → zlen (active s) = MAX_ACTIVE_IO
    ∨ ∃ i e', identity e.1 = Some i ∧ e' ∈ active s ∧ identity e'.1 = Some i.
Proof.
  intros s e He. pose proof (run_order os default_scheduler (0, 0) default_wf) as H. subst s.
  destruct (run os _) as [es s]. destruct H as (W & _). cbn [poll_complete snd] in *.
  destruct (start_all_spec s W) as (W' & _ & _ & _ & [Hfull|Hnone]); [by left|right].
  rewrite Forall_forall in Hnone. apply Hnone in He. unfold startable in He. destruct (identity e.1) as [i|]; [|done].
  apply negb_false_iff, bool_decide_eq_true, (wf_files _ W') in He as (e' & He' & Hi). by exists i, e'.
Qed.

End Scheduler.

(** Two requests on one file: the second waits for the first. *)
#[local] Definition wit_entry (unique : Z) : PreparedIo (Work := unit) * PendingReply :=
  (mkIo (Some (1, 2)) tt, Nodes.mkPending 1 unique [] unique 0).

Lemma waiting_has_reason_witness :
  let s := (poll_complete None (run [Enqueue (wit_entry 0).1 (wit_entry 0).2; Enqueue (wit_entry 1).1 (wit_entry 1).2]
                                 (default_scheduler (Work := unit))).2).2 in
  pending s = [wit_entry 1]
  ∧ (zlen (active s) = MAX_ACTIVE_IO ∨ ∃ i e', identity (wit_entry 1).1 = Some i ∧ e' ∈ active s ∧ identity e'.1 = Some i).
Proof.
  split; [vm_compute; reflexivity|].
  apply (waiting_has_reason [Enqueue (wit_entry 0).1 (wit_entry 0).2; Enqueue (wit_entry 1).1 (wit_entry 1).2] (wit_entry 1)).
  vm_compute. left.
Defined.
End Io.
