(* ===== verification/FsHost.v ===== *)
(** * What the file system device asks of the host

    [components/fs/src/host.rs] and the asynchronous half of
    [transport/requests.rs] and [transport.rs]: a request of the guest as a
    program of calls to the host's file system (WASI and [terra:fs/host]) and of
    operations on the locked tables of [Nodes]. The host is outside code: a call
    is a value of [call], and its answer is any value of the type it has.

    Calls that are made at once ([try_join!], [join_all]) are made one after the
    other, in an order that is an answer of the host ([Race]) where it can be seen.
    A stream is what it delivers until it ends. An async lock, the count of the
    references to a descriptor ([Arc::try_unwrap]) and the budget that all cached
    listings share are calls too: other requests decide what they answer.
    [usize] has 32 bits. *)

From stdpp Require Import gmap.
From S2P Require Import Prelude SplitRing Dns FsWire FsNodes FsIo.

Local Open Scope Z_scope.

Module Host.
Import Wire Nodes.

(** ** Calls *)

(** [types::DescriptorStat] *)
Record DescriptorStat := mkDescriptorStat {
  ds_type : DescriptorType;
  link_count : Z;
  ds_size : Z;
  data_access_timestamp : option Instant;
  data_modification_timestamp : option Instant;
  status_change_timestamp : option Instant;
}.
(** [terra::fs::host::Error] *)
Inductive Error := EAccess | EIo | EUnsupported.
(** [types::DirectoryEntry], with the capacity of its name. *)
Record HostEntry := mkHostEntry { he_name : list Z; he_type : DescriptorType; he_capacity : Z }.
Inductive StreamResult := Complete (n : Z) | Dropped | Cancelled.
(** [Directory]: its descriptor, and the listing with the bytes it has reserved. *)
Record OpenListing := mkListing { l_descriptor : Z; l_entries : option (list HostEntry * Z) }.

Inductive call : Type → Type :=
  | StatAt (d : Z) (follow : bool) (p : list Z) : call (result ErrorCode DescriptorStat)
  | MetadataHashAt (d : Z) (follow : bool) (p : list Z) : call (result ErrorCode (Z * Z))
  | OpenAt (d : Z) (follow : bool) (p : list Z) (flags : OpenFlags) (access : DescriptorFlags) : call (result ErrorCode Z)
  | ReadlinkAt (d : Z) (p : list Z) : call (result ErrorCode (list Z))
  | SetTimesAt (d : Z) (follow : bool) (p : list Z) (atime mtime : option Instant) : call (result ErrorCode unit)
  | CreateDirectoryAt (d : Z) (p : list Z) : call (result ErrorCode unit)
  | RemoveDirectoryAt (d : Z) (p : list Z) : call (result ErrorCode unit)
  | UnlinkFileAt (d : Z) (p : list Z) : call (result ErrorCode unit)
  | RenameAt (d : Z) (p : list Z) (d' : Z) (p' : list Z) : call (result ErrorCode unit)
  | LinkAt (d : Z) (follow : bool) (p : list Z) (d' : Z) (p' : list Z) : call (result ErrorCode unit)
  | SymlinkAt (d : Z) (target p : list Z) : call (result ErrorCode unit)
  | GetModeAt (d : Z) (p : list Z) : call (result Error (option Z))
  | SetModeAt (d : Z) (p : list Z) (mode : Z) : call (result Error unit)
  | OpenMetadataAt (d : Z) (p : list Z) : call (result Error Z)
  | DescStat (d : Z) : call (result ErrorCode DescriptorStat)
  | MetadataHash (d : Z) : call (result ErrorCode (Z * Z))
  | GetType (d : Z) : call (result ErrorCode DescriptorType)
  | GetFlags (d : Z) : call (result ErrorCode DescriptorFlags)
  | SetSize (d size : Z) : call (result ErrorCode unit)
  | SetTimes (d : Z) (atime mtime : option Instant) : call (result ErrorCode unit)
  | Sync (d : Z) : call (result ErrorCode unit)
  | SyncData (d : Z) : call (result ErrorCode unit)
  | GetMode (d : Z) : call (result Error (option Z))
  | SetMode (d mode : Z) : call (result Error unit)
  | Statfs (d : Z) : call (result Error FilesystemStat)
  | ReleaseDescriptor (d : Z) : call (result Error unit)
  (** The batches of a directory stream, and its completion. *)
  | ReadDirectory (d : Z) : call (list (list HostEntry) * result ErrorCode unit)
  (** The reads of a file stream, and its completion. *)
  | ReadViaStream (d offset : Z) : call (list (StreamResult * list Z) * result ErrorCode unit)
  (** What is not written of the bytes, and the completion. *)
  | WriteViaStream (d offset : Z) (bs : list Z) : call (list Z * result ErrorCode unit)
  | GetDirectories : call (list Z)
  | Race : call bool
  | SoleOwner : call bool
  | GrowReservation (bytes : Z) : call bool
  | DropReservation (bytes : Z) : call unit
  | LockDirectory (handle : Z) : call OpenListing
  | UnlockDirectory (handle : Z) (l : OpenListing) : call unit.

(** The closures given to [RequestState::with]. *)
Inductive query : Type → Type :=
  | QNode (id : Z) : query Node
  | QNodeId (n : Node) (st : Stat) : query Z
  | QOpenFile (handle node : Z) : query (option Z)
  | QStoreHandle (node d : Z) (writable : bool) : query Z
  | QStoreDirectory (node d : Z) : query Z
  | QDirectory (handle : Z) : query Z
  | QReleaseCached (sole : bool) (parent : Z) (n : list Z) (identity : Z * Z) : query (option Z)
  | QRepoint (st : Stat) (parent : Z) (n : list Z) : query unit
  | QIncrement (id : Z) : query unit
  | QRemember (r : Request) (response : list Z) : query unit
  | QEventTarget (parent : Z * Z) (n : list Z) : query (Z * Z)
  | QSameInode (identity : option (Z * Z)) (id child : Z) (n : list Z) : query bool.

Definition exec {X} (q : query X) (s : State) : result Z X * State :=
  match q in query X return result Z X * State with
  | QNode id => (ok_or ENOENT (Nodes.node s id), s)
  | QNodeId n st => node_id n st s
  | QOpenFile h n =>
      (Ok (match handles s !! h with
           | Some o => if writable o && (h_node o =? n) then Some (h_descriptor o) else None
           | None => None
           end), s)
  | QStoreHandle n d w => store_handle n d w s
  | QStoreDirectory n d => store_directory n d s
  | QDirectory h => (_ ← ok_or ENOENT (directory s h); Ok h, s)
  | QReleaseCached sole parent n identity => let '(d, s) := release_cached sole parent n identity s in (Ok d, s)
  | QRepoint st parent n => (Ok tt, repoint_node st parent n s)
  | QIncrement id => (Ok tt, increment_lookup id s)
  | QRemember r response => (Ok tt, remember_lookup r response s)
  | QEventTarget parent n => (event_target parent n s, s)
  | QSameInode identity id child n => let '(b, s) := event_same_inode identity id child n s in (Ok b, s)
  end.

(** [RequestState::with] *)
Definition request_with {X} (current : option Z) (reset_count : Z) (q : query X) (state : option State) : result Z X * option State :=
  if negb (bool_decide (current = Some reset_count)) then (Err EIO, state) else
  match state with
  | None => (Err EIO, state)
  | Some s => let '(r, s) := exec q s in (r, Some s)
  end.

(** ** Programs *)

Inductive prog (A : Type) : Type :=
  | Ret (a : A)
  | Call {X} (c : call X) (k : X → prog A)
  | With {X} (q : query X) (k : result Z X → prog A).
Arguments Ret {A} a.
Arguments Call {A X} c k.
Arguments With {A X} q k.

Fixpoint bind {A B} (p : prog A) (f : A → prog B) : prog B :=
  match p with
  | Ret a => f a
  | Call c k => Call c (λ x, bind (k x) f)
  | With q k => With q (λ x, bind (k x) f)
  end.
(** [?] on what a program and on what a value has. *)
Definition and_then {A B} (p : prog (result Z A)) (f : A → prog (result Z B)) : prog (result Z B) :=
  bind p (λ r, match r with Ok a => f a | Err e => Ret (Err e) end).
Definition on_ok {A B} (r : result Z A) (f : A → prog (result Z B)) : prog (result Z B) :=
  match r with Ok a => f a | Err e => Ret (Err e) end.
Notation "x ⇐ p ; k" := (bind p (λ x, k)) (at level 20, p at level 100, k at level 200, right associativity).
Notation "x ←! p ; k" := (and_then p (λ x, k)) (at level 20, p at level 100, k at level 200, right associativity).
Notation "' x ←! p ; k" := (and_then p (λ x, match x with x => k end))
  (at level 20, x strict pattern, p at level 100, k at level 200, right associativity, only parsing).
Notation "x ←? r ; k" := (on_ok r (λ x, k)) (at level 20, r at level 100, k at level 200, right associativity).

Definition ok {A} (a : A) : prog (result Z A) := Ret (Ok a).
Definition err {A} (e : Z) : prog (result Z A) := Ret (Err e).
Definition ask {X} (c : call X) : prog X := Call c Ret.
Definition with_ {X} (q : query X) : prog (result Z X) := With q Ret.

Definition extension_error (e : Error) : Z :=
  match e with EAccess => EACCES | EIo => EIO | EUnsupported => EOPNOTSUPP end.

(** [.await.map_err(wasi_error)] and [.await.map_err(extension_error)] *)
Definition wasi {X} (c : call (result ErrorCode X)) : prog (result Z X) := Call c (λ r, Ret (map_err wasi_error r)).
Definition ext {X} (c : call (result Error X)) : prog (result Z X) := Call c (λ r, Ret (map_err extension_error r)).

(** [try_join!]: the first error there is. *)
Definition try_join {A B} (a : prog (result Z A)) (b : prog (result Z B)) : prog (result Z (A * B)) :=
  first ⇐ ask Race;
  if first : bool then x ←! a; y ←! b; ok (x, y) else y ←! b; x ←! a; ok (x, y).
Definition try_join3 {A B C} (a : prog (result Z A)) (b : prog (result Z B)) (c : prog (result Z C))
  : prog (result Z (A * B * C)) :=
  first ⇐ ask Race;
  if first : bool then x ←! a; '(y, z) ←! try_join b c; ok (x, y, z) else
  second ⇐ ask Race;
  if second : bool then y ←! b; '(x, z) ←! try_join a c; ok (x, y, z)
  else z ←! c; '(x, y) ←! try_join a b; ok (x, y, z).

(** ** Attributes *)

Definition FIXED_OWNER : Z := 1000.
Definition fixed_owner (uid gid : option Z) : bool :=
  match uid with Some v => v =? FIXED_OWNER | None => true end
  && match gid with Some v => v =? FIXED_OWNER | None => true end.

Definition instant_or_epoch (t : option Instant) : Instant := default (mkInstant 0 0) t.

Definition type_mode (t : DescriptorType) : Z :=
  match t with
  | Wire.Directory => 16877 | SymbolicLink => 41471 | RegularFile => 33261 | BlockDevice => 24576
  | CharacterDevice => 8192 | Fifo => 4096 | Socket => 49152 | OtherType => 0
  end.

Definition div_ceil_512 (n : Z) : Z := (n + 511) / 512.

Definition stat (v : DescriptorStat) (identity : Z * Z) : Stat :=
  mkStat identity.1 identity.2 (type_mode (ds_type v)) (link_count v) FIXED_OWNER FIXED_OWNER (ds_size v)
    (div_ceil_512 (ds_size v)) (instant_or_epoch (data_access_timestamp v))
    (instant_or_epoch (data_modification_timestamp v)) (instant_or_epoch (status_change_timestamp v)).

Definition set_stat_size (st : Stat) (n : Z) : Stat :=
  mkStat (dev st) (ino st) (mode st) (nlink st) (uid st) (gid st) n (div_ceil_512 n) (atime st) (mtime st) (ctime st).
Definition set_stat_mode (st : Stat) (m : Z) : Stat :=
  mkStat (dev st) (ino st) m (nlink st) (uid st) (gid st) (Wire.size st) (blocks st) (atime st) (mtime st) (ctime st).

(** A link the host reports as empty has the size of its target. *)
Definition path_stat (d : Z) (n : list Z) : prog (result Z Stat) :=
  '(metadata, identity) ←! try_join (wasi (StatAt d false n)) (wasi (MetadataHashAt d false n));
  if bool_decide (ds_type metadata = SymbolicLink) && (ds_size metadata =? 0) then
    target ←! wasi (ReadlinkAt d n);
    ok (set_stat_size (stat metadata identity) (zlen target))
  else ok (stat metadata identity).

Definition verify_identity (expected actual : Z * Z) : result Z unit :=
  if bool_decide (expected = actual) then Ok tt else Err ENOENT.

(** ** Nodes *)

Definition expected_identity (n : Node) : prog (result Z (option (Z * Z))) :=
  match descriptor n with
  | Some d => h ←! wasi (MetadataHash d); ok (Some h)
  | None => ok (path_identity n)
  end.

Definition checked_path (n : Node) : prog (result Z (Z * list Z)) :=
  path ←? ok_or ENOENT (path n);
  expected ←! expected_identity n;
  match expected with
  | Some expected =>
      actual ←! wasi (MetadataHashAt path.1 false path.2);
      _ ←? verify_identity expected actual;
      ok path
  | None => ok path
  end.

Definition no_flags : OpenFlags := mkOpenFlags false false false false.
Definition DIRECTORY : OpenFlags := mkOpenFlags false true false false.
Definition READ_ONLY : DescriptorFlags := mkDescriptorFlags true false false.
Definition WRITE_ONLY : DescriptorFlags := mkDescriptorFlags false true false.
Definition READ_WRITE : DescriptorFlags := mkDescriptorFlags true true false.
Definition READ_MUTATE : DescriptorFlags := mkDescriptorFlags true false true.

Definition contains (f access : DescriptorFlags) : bool :=
  (f_read f || negb (f_read access)) && (f_write f || negb (f_write access))
  && (f_mutate_directory f || negb (f_mutate_directory access)).

Definition open_path (n : Node) (flags : OpenFlags) (access : DescriptorFlags) : prog (result Z Z) :=
  '(parent, nm) ←! (if descriptor n is Some _ then Ret (ok_or EACCES (path n)) else checked_path n);
  opened ←! wasi (OpenAt parent false nm flags access);
  expected ←! expected_identity n;
  match expected with
  | Some expected =>
      actual ←! wasi (MetadataHash opened);
      _ ←? verify_identity expected actual;
      ok opened
  | None => ok opened
  end.

Definition resolve_descriptor (n : Node) : prog (result Z Z) :=
  match descriptor n with
  | Some d => ok d
  | None => open_path n DIRECTORY READ_ONLY
  end.

Definition child_identity (n : Node) (nm : list Z) : prog (result Z (Z * Z)) :=
  d ←! resolve_descriptor n;
  wasi (MetadataHashAt d false nm).

Definition node_stat (n : Node) : prog (result Z Stat) :=
  '(st, m) ←!
    (match descriptor n with
     | Some d =>
         '(metadata, identity, m) ←! try_join3 (wasi (DescStat d)) (wasi (MetadataHash d)) (ext (GetMode d));
         ok (stat metadata identity, m)
     | None =>
         '(parent, nm) ←! checked_path n;
         try_join (path_stat parent nm) (ext (GetModeAt parent nm))
     end);
  ok (match m with Some m => set_stat_mode st m | None => st end).

Definition is_regular (t : DescriptorType) : bool := bool_decide (t = RegularFile).

Definition open (n : Node) (access : DescriptorFlags) (truncate : bool) : prog (result Z Z) :=
  d ←!
    (match descriptor n with
     | Some d => ok d
     | None =>
         '(parent, nm) ←! checked_path n;
         metadata ←! wasi (StatAt parent false nm);
         if negb (is_regular (ds_type metadata)) then err EOPNOTSUPP else
         open_path n no_flags access
     end);
  t ←! wasi (GetType d);
  if negb (is_regular t) then err EOPNOTSUPP else
  f ←! wasi (GetFlags d);
  d ←! (if negb (contains f access) then open_path n no_flags access else ok d);
  if truncate then _ ←! wasi (SetSize d 0); ok d else ok d.

Definition set_node_mode (n : Node) (m : Z) : prog (result Z unit) :=
  match descriptor n with
  | Some d => ext (SetMode d m)
  | None => '(parent, nm) ←! checked_path n; ext (SetModeAt parent nm m)
  end.

Definition set_node_size (n : Node) (open_file : option Z) (size : Z) : prog (result Z unit) :=
  w ←! (match open_file with Some d => ok d | None => open n WRITE_ONLY false end);
  wasi (SetSize w size).

(** [NewTimestamp]: [None] is [NoChange]. *)
Definition set_node_times (n : Node) (open_file : option Z) (a m : option Instant) : prog (result Z unit) :=
  match descriptor n with
  | Some d =>
      result ⇐ ask (SetTimes (default d open_file) a m);
      match open_file, result with
      | None, Err Access =>
          w ⇐ open n WRITE_ONLY false;
          match w with
          | Ok w => wasi (SetTimes w a m)
          | Err _ => err (wasi_error Access)
          end
      | _, _ => Ret (map_err wasi_error result)
      end
  | None =>
      '(parent, nm) ←! checked_path n;
      wasi (SetTimesAt parent false nm a m)
  end.

Definition setattr (n : Node) (open_file : option Z) (mode size : option Z) (a m : option Instant) : prog (result Z unit) :=
  _ ←! (match mode with Some mode => set_node_mode n mode | None => ok tt end);
  _ ←! (match size with Some size => set_node_size n open_file size | None => ok tt end);
  match a, m with
  | None, None => ok tt
  | _, _ => set_node_times n open_file a m
  end.

Definition readlink (n : Node) : prog (result Z (list Z)) :=
  '(parent, nm) ←! checked_path n;
  wasi (ReadlinkAt parent nm).

(** The listing is empty; the descriptor is the one the guest has a handle for. *)
Definition open_directory (n : Node) : prog (result Z Z) :=
  d ←! resolve_descriptor n;
  t ←! wasi (GetType d);
  if bool_decide (t = Wire.Directory) then ok d else err ENOTDIR.

Definition statfs (n : Node) : prog (result Z FilesystemStat) :=
  d ←! resolve_descriptor n;
  ext (Statfs d).

Definition release_descriptor (d : Z) : prog (result Z unit) := ext (ReleaseDescriptor d).

(** ** Listings *)

Definition MAX_DIRECTORY_CACHE_BYTES : Z := Z.shiftl 4 20.

Definition checked_add32 (a b : Z) : option Z := if a + b <=? U32_MAX then Some (a + b) else None.

Section Listing.
(** [size_of_val] of a directory entry. *)
Context (entry_size : Z).

(** The bytes of the names of a batch, and the bytes it takes in the cache. *)
Fixpoint batch_bytes (batch : list HostEntry) (name_bytes cache_bytes : Z) : option (Z * Z) :=
  match batch with
  | [] => Some (name_bytes, cache_bytes)
  | e :: batch =>
      n ← checked_add32 name_bytes (zlen (he_name e));
      c ← checked_add32 cache_bytes (he_capacity e);
      c ← checked_add32 c (2 * entry_size);
      batch_bytes batch n c
  end.

(** The reservation is dropped with an error. *)
Definition give_up_cache {A} (reserved e : Z) : prog (result Z A) := _ ⇐ ask (DropReservation reserved); err e.

Fixpoint cache_loop (batches : list (list HostEntry)) (completion : result ErrorCode unit)
    (entries : list HostEntry) (name_bytes reserved : Z) : prog (result Z (list HostEntry * Z)) :=
  match batches with
  | [] =>
      match completion with
      | Ok _ => ok (entries, reserved)
      | Err e => give_up_cache reserved (wasi_error e)
      end
  | batch :: batches =>
      match batch_bytes batch 0 0 with
      | None => give_up_cache reserved EMFILE
      | Some (batch_name_bytes, cache_bytes) =>
          match checked_add32 name_bytes batch_name_bytes with
          | None => give_up_cache reserved EMFILE
          | Some name_bytes =>
              grown ⇐ ask (GrowReservation cache_bytes);
              if negb grown then give_up_cache reserved EMFILE else
              let reserved := reserved + cache_bytes in
              if (65536 <? zlen entries + zlen batch) || (Z.shiftl 8 20 <? name_bytes)
              then give_up_cache reserved EMFILE
              else cache_loop batches completion (entries ++ batch) name_bytes reserved
          end
      end
  end.

Definition cache_entries (l : OpenListing) : prog (result Z OpenListing) :=
  stream ⇐ ask (ReadDirectory (l_descriptor l));
  entries ←! cache_loop stream.1 stream.2 [] 0 0;
  ok (mkListing (l_descriptor l) (Some entries)).

(** The entries to ask for in one round, with their sizes, and the others. *)
Fixpoint gather (rest : list (Z * HostEntry)) (slots : nat) (bytes max : Z) : list (Z * HostEntry * Z) * list (Z * HostEntry) :=
  match slots, rest with
  | S slots, (index, e) :: rest' =>
      let size := pad8 (24 + zlen (he_name e)) in
      if max <? bytes + size then ([], rest)
      else let '(c, rest) := gather rest' slots (bytes + size) max in ((index, e, size) :: c, rest)
  | _, _ => ([], rest)
  end.

(** [join_all] of the candidates. *)
Fixpoint identities (d : Z) (candidates : list (Z * HostEntry * Z)) : prog (list (result Z (DirectoryEntry * Z))) :=
  match candidates with
  | [] => Ret []
  | (index, e, size) :: candidates =>
      identity ⇐ wasi (MetadataHashAt d false (he_name e));
      rest ⇐ identities d candidates;
      Ret ((identity ← identity; Ok (mkEntry (he_name e) identity.2 (he_type e) (index + 1), size)) :: rest)
  end.

(** Entries that are gone are left out. *)
Fixpoint collect (rs : list (result Z (DirectoryEntry * Z))) (entries : list DirectoryEntry) (bytes : Z)
  : result Z (list DirectoryEntry * Z) :=
  match rs with
  | [] => Ok (entries, bytes)
  | Ok (e, size) :: rs => collect rs (entries ++ [e]) (bytes + size)
  | Err errno :: rs => if errno =? ENOENT then collect rs entries bytes else Err errno
  end.

(** A round that asks for nothing is the last one, so there are no more rounds
    than entries. *)
Fixpoint readdir_loop (rounds : nat) (d : Z) (rest : list (Z * HostEntry)) (limit max : Z)
    (entries : list DirectoryEntry) (bytes : Z) : prog (result Z (list DirectoryEntry)) :=
  match rounds with
  | O => ok entries
  | S rounds =>
      if negb (zlen entries <? limit) then ok entries else
      let '(candidates, rest) := gather rest (Z.to_nat (limit - zlen entries)) bytes max in
      if bool_decide (candidates = []) then ok entries else
      rs ⇐ identities d candidates;
      collected ←? collect rs entries bytes;
      readdir_loop rounds d rest limit max collected.1 collected.2
  end.

Definition drop_listing (l : OpenListing) : prog OpenListing :=
  match l_entries l with
  | Some (_, reserved) => _ ⇐ ask (DropReservation reserved); Ret (mkListing (l_descriptor l) None)
  | None => Ret l
  end.

(** The entries with their places, from [offset]. *)
Definition enumerate_from (offset : Z) (es : list HostEntry) : list (Z * HostEntry) :=
  drop (Z.to_nat offset) (zip (seqZ 0 (zlen es)) es).

Definition readdir (l : OpenListing) (cookie max_entries max_bytes : Z)
  : prog (result Z (list DirectoryEntry) * OpenListing) :=
  l ⇐ (if cookie =? 0 then drop_listing l else Ret l);
  cached ⇐ (match l_entries l with Some _ => ok l | None => cache_entries l end);
  match cached with
  | Err e => Ret (Err e, l)
  | Ok l =>
      if U32_MAX <? cookie then Ret (Err EINVAL, l) else
      match l_entries l with
      | None => Ret (Err EIO, l)
      | Some (es, _) =>
          let rest := enumerate_from cookie es in
          r ⇐ readdir_loop (S (length rest)) (l_descriptor l) rest (Z.min max_entries 64) max_bytes [] 0;
          Ret (r, l)
      end
  end.

End Listing.

(** ** Operations *)

Definition root : prog (result Z Node) :=
  directories ⇐ ask GetDirectories;
  match directories with
  | [d] => ok (mkNode (Some d) None None)
  | _ => err EACCES
  end.

(** The access a cached descriptor is opened with; [None]: it is not opened. *)
Definition cache_access (t : DescriptorType) : option DescriptorFlags :=
  match t with
  | RegularFile => Some READ_ONLY
  | Wire.Directory => Some READ_MUTATE
  | _ => None
  end.

Fixpoint open_first (d : Z) (nm : list Z) (accesses : list DescriptorFlags) : prog (result Z (option Z)) :=
  match accesses with
  | [] => ok None
  | access :: accesses =>
      opened ⇐ ask (OpenAt d false nm no_flags access);
      match opened with
      | Ok d => ok (Some d)
      | Err (ReadOnly | NotPermitted | Access) => open_first d nm accesses
      | Err code => err (wasi_error code)
      end
  end.

Definition lookup (parent : Node) (nm : list Z) : prog (result Z Node) :=
  nm ←? text nm;
  d ←! resolve_descriptor parent;
  metadata ←! wasi (StatAt d false nm);
  desc ←!
    (match cache_access (ds_type metadata) with
     | None => ok None
     | Some flags =>
         opened ←! open_first d nm [flags; READ_ONLY];
         match opened with
         | Some o => ok (Some o)
         | None =>
             o ⇐ ask (OpenMetadataAt d nm);
             match o with
             | Ok o => ok (Some o)
             | Err EUnsupported => ok None
             | Err e => err (extension_error e)
             end
         end
     end);
  path_identity ←!
    (match desc with
     | None => h ←! wasi (MetadataHashAt d false nm); ok (Some h)
     | Some _ => ok None
     end);
  ok (mkNode desc (Some (d, nm)) path_identity).

Definition apply_create_mode (d mode : Z) : prog (result Z unit) :=
  r ⇐ ask (SetMode d mode);
  match r with
  | Ok _ | Err EUnsupported => ok tt
  | Err e => err (extension_error e)
  end.

Definition create (parent : Node) (nm : list Z) (flags : OpenFlags) (mode : Z) : prog (result Z (Node * Z)) :=
  nm ←? text nm;
  d ←! resolve_descriptor parent;
  found ⇐ ask (StatAt d false nm);
  created ←?
    (match found with
     | Ok metadata => if negb (is_regular (ds_type metadata)) then Err EOPNOTSUPP else Ok false
     | Err NoEntry => Ok true
     | Err code => Err (wasi_error code)
     end);
  desc ←! wasi (OpenAt d false nm flags READ_WRITE);
  _ ←! (if created : bool then apply_create_mode desc mode else ok tt);
  cached ⇐ ask (OpenAt d false nm no_flags READ_ONLY);
  cached ←!
    (match cached with
     | Ok cached =>
         expected ←! wasi (MetadataHash desc);
         actual ←! wasi (MetadataHash cached);
         _ ←? verify_identity expected actual;
         ok cached
     | Err (NotPermitted | Access) => ok desc
     | Err code => err (wasi_error code)
     end);
  ok (mkNode (Some cached) (Some (d, nm)) None, desc).

Definition mkdir (parent : Node) (nm : list Z) (mode : Z) : prog (result Z Node) :=
  d ←! resolve_descriptor parent;
  t ←? text nm;
  _ ←! wasi (CreateDirectoryAt d t);
  n ←! lookup parent nm;
  c ←! resolve_descriptor n;
  _ ←! apply_create_mode c mode;
  ok n.

Definition unlink (parent : Node) (nm : list Z) (is_directory : bool) : prog (result Z unit) :=
  d ←! resolve_descriptor parent;
  nm ←? text nm;
  if is_directory then wasi (RemoveDirectoryAt d nm) else wasi (UnlinkFileAt d nm).

Definition rename (old_parent : Node) (old_name : list Z) (new_parent : Node) (new_name : list Z) : prog (result Z unit) :=
  d ←! resolve_descriptor old_parent;
  old_name ←? text old_name;
  d' ←! resolve_descriptor new_parent;
  new_name ←? text new_name;
  wasi (RenameAt d old_name d' new_name).

Definition link (old parent : Node) (nm : list Z) : prog (result Z unit) :=
  '(source, source_name) ←! checked_path old;
  d ←! resolve_descriptor parent;
  nm ←? text nm;
  wasi (LinkAt source false source_name d nm).

Definition symlink (parent : Node) (nm target : list Z) : prog (result Z Node) :=
  d ←! resolve_descriptor parent;
  target ←? (if Dns.is_utf8 target then Ok target else Err EILSEQ);
  t ←? text nm;
  _ ←! wasi (SymlinkAt d target t);
  lookup parent nm.

End Host.
