(* ===== verification/FsRequests.v ===== *)
(** * The requests of the guest to the file system device

    [components/fs/src/transport/requests.rs], and [read_file], [write_file] and
    [encode_event] of [transport.rs]: which host calls and which operations on the
    tables a request is, and what is answered. *)

From stdpp Require Import gmap.
From S2P Require Import Prelude SplitRing Dns PackedImage FsWire FsNodes FsIo FsHost.

Local Open Scope Z_scope.

Module Requests.
Import Wire Nodes Host.
Import Io (PreparedIo, mkIo).

Section Requests.
(** [size_of_val] of a directory entry. *)
Context (entry_size : Z).

Definition Work : Type := prog (result Z (list Z)).

(** ** Requests that need no host call *)

Definition execute_immediate (r : Request) (s : State) : option (result Z (list Z) * State) :=
  let op := opcode r in
  if op =? INIT then
    Some (match init (body r) with
          | Ok out =>
              let flags := match u32_at out 32 with Ok f => f | Err _ => 0 end in
              let s := clear_runtime s in
              (Ok out, set_events (event_request s) (negb (Z.land flags FILE_EVENTS =? 0)) s)
          | Err e => (Err e, s)
          end)
  else if op =? CANCEL_EVENTS then Some (Ok [], s)
  else if op =? RELEASE then Some (release_file r s)
  else if op =? RELEASEDIR then Some (let '(out, s) := release_directory r s in (Ok out, s))
  else if op =? FLUSH then Some (_ ← flush_body (body r); Ok [], s)
  else if (SETXATTR <=? op) && (op <=? REMOVEXATTR) then Some (Err ENOSYS, s)
  else if (GETLK <=? op) && (op <=? SETLKW) || existsb (Z.eqb op) [FALLOCATE; LSEEK; SYNCFS]
  then Some (Err EOPNOTSUPP, s)
  else if existsb (Z.eqb op) [GETATTR; LOOKUP; READLINK; SETATTR; MKDIR; CREATE; UNLINK; RMDIR; RENAME; RENAME2;
            LINK; SYMLINK; OPEN; OPENDIR; READDIR; STATFS; READ; WRITE; FSYNC; FSYNCDIR]
  then None
  else Some (Err ENOSYS, s).

(** ** Requests that are answered later *)

Definition request_node (id : Z) : prog (result Z Node) := with_ (QNode id).

Definition insert_entry (child : Node) : Work :=
  st ←! node_stat child;
  inode ←! with_ (QNodeId child st);
  ok (entry_out st inode).

Definition lookup_entry (r : Request) : Work :=
  n ←? name (body r);
  parent ←! request_node (Wire.node r);
  child ←! Host.lookup parent n;
  insert_entry child.

(** [(valid & bit != 0).then_some(value)] *)
Definition field {A} (valid bit : Z) (v : A) : option A := if negb (Z.land valid bit =? 0) then Some v else None.

Definition set_attributes (r : Request) : Work :=
  let b := body r in
  valid ←? u32_at b 0;
  size ←? u64_at b 16;
  atime_s ←? u64_at b 32;
  atime_n ←? u32_at b 56;
  mtime_s ←? u64_at b 40;
  mtime_n ←? u32_at b 60;
  mode ←? u32_at b 68;
  uid ←? u32_at b 76;
  gid ←? u32_at b 80;
  if negb (fixed_owner (field valid 2 uid) (field valid 4 gid)) then err EOPNOTSUPP else
  n ←! request_node (Wire.node r);
  open_file ←!
    (if negb (Z.land valid 64 =? 0) then handle ←? u64_at b 8; with_ (QOpenFile handle (Wire.node r)) else ok None);
  _ ←! setattr n open_file (field valid 1 mode) (field valid 8 size)
         (field valid 16 (timestamp atime_s atime_n)) (field valid 32 (timestamp mtime_s mtime_n));
  st ←! node_stat n;
  ok (attr_out st).

(** [body.get(n..).unwrap_or_default()] *)
Definition body_from (r : Request) (n : Z) : list Z := drop (Z.to_nat n) (body r).

Definition create_directory (r : Request) : Work :=
  mode ←? u32_at (body r) 0;
  n ←? name (body_from r 8);
  parent ←! request_node (Wire.node r);
  child ←! mkdir parent n mode;
  insert_entry child.

Definition create_file (r : Request) : Work :=
  flags ←? u32_at (body r) 0;
  mode ←? u32_at (body r) 4;
  n ←? name (body_from r 16);
  parent ←! request_node (Wire.node r);
  oflags ←? create_flags flags;
  created ←! create parent n oflags mode;
  let '(child, d) := created in
  st ←! node_stat child;
  inode ←! with_ (QNodeId child st);
  handle ←! with_ (QStoreHandle inode d (negb (Z.land flags O_ACCMODE =? 0)));
  ok (entry_out st inode ++ open_out handle).

(** A cached descriptor of the directory keeps some hosts from removing it. *)
Definition released_descriptor (parent : Node) (n : list Z) : prog (result Z (option Z)) :=
  d ←! resolve_descriptor parent;
  n ←? (if Dns.is_utf8 n then Ok n else Err EILSEQ);
  st ⇐ ask (StatAt d false n);
  match st with
  | Ok st =>
      if negb (bool_decide (ds_type st = Wire.Directory)) then ok None else
      identity ⇐ ask (MetadataHashAt d false n);
      match identity with
      | Ok identity => sole ⇐ ask SoleOwner; with_ (QReleaseCached sole d n identity)
      | Err _ => ok None
      end
  | Err _ => ok None
  end.

Definition remove_entry (r : Request) : Work :=
  n ←? name (body r);
  parent ←! request_node (Wire.node r);
  let is_directory := opcode r =? RMDIR in
  removed ⇐ unlink parent n is_directory;
  match removed with
  | Ok _ => ok []
  | Err e =>
      if negb ((e =? EACCES) && is_directory) then err e else
      released ←! released_descriptor parent n;
      d ←? ok_or EACCES released;
      _ ←! release_descriptor d;
      _ ←! unlink parent n is_directory;
      ok []
  end.

Definition rename_entry (r : Request) : Work :=
  new_parent_id ←? u64_at (body r) 0;
  let second := opcode r =? RENAME2 in
  ns ←? names (body_from r (if second then 16 else 8));
  let '(old_name, new_name) := ns in
  flags ←? (if second then u32_at (body r) 8 else Ok 0);
  if negb (flags =? 0) then err (if flags <=? 2 then EOPNOTSUPP else ENOSYS) else
  old_parent ←! request_node (Wire.node r);
  new_parent ←! request_node new_parent_id;
  d ←! resolve_descriptor new_parent;
  renamed ←! Host.lookup old_parent old_name;
  st ←! node_stat renamed;
  _ ←! rename old_parent old_name new_parent new_name;
  _ ←! with_ (QRepoint st d new_name);
  ok [].

Definition link_entry (r : Request) : Work :=
  old_inode ←? u64_at (body r) 0;
  n ←? name (body_from r 8);
  old ←! request_node old_inode;
  parent ←! request_node (Wire.node r);
  _ ←! link old parent n;
  st ←! node_stat old;
  _ ←! with_ (QIncrement old_inode);
  ok (entry_out st old_inode).

Definition create_symlink (r : Request) : Work :=
  parts ←? symlink_parts (body r);
  let '(n, target) := parts in
  parent ←! request_node (Wire.node r);
  child ←! symlink parent n target;
  insert_entry child.

Definition open_file (r : Request) : Work :=
  flags ←? u32_at (body r) 0;
  opened ←? open_flags flags;
  let '(access, writable, truncate) := opened in
  n ←! request_node (Wire.node r);
  d ←! open n access truncate;
  handle ←! with_ (QStoreHandle (Wire.node r) d writable);
  ok (open_out handle).

Definition open_directory_entry (r : Request) : Work :=
  n ←! request_node (Wire.node r);
  d ←! open_directory n;
  handle ←! with_ (QStoreDirectory (Wire.node r) d);
  ok (open_out handle).

Definition read_directory (r : Request) : Work :=
  handle ←? u64_at (body r) 0;
  cookie ←? u64_at (body r) 8;
  size ←? u32_at (body r) 16;
  directory ←! with_ (QDirectory handle);
  l ⇐ ask (LockDirectory directory);
  entries ⇐ readdir entry_size l cookie 256 size;
  _ ⇐ ask (UnlockDirectory directory entries.2);
  entries ←? entries.1;
  ok (dirents_out entries size).

Definition execute (r : Request) : Work :=
  let op := opcode r in
  if op =? GETATTR then n ←! request_node (Wire.node r); st ←! node_stat n; ok (attr_out st)
  else if op =? LOOKUP then lookup_entry r
  else if op =? READLINK then n ←! request_node (Wire.node r); readlink n
  else if op =? SETATTR then set_attributes r
  else if op =? MKDIR then create_directory r
  else if op =? CREATE then create_file r
  else if (op =? UNLINK) || (op =? RMDIR) then remove_entry r
  else if (op =? RENAME) || (op =? RENAME2) then rename_entry r
  else if op =? LINK then link_entry r
  else if op =? SYMLINK then create_symlink r
  else if op =? OPEN then open_file r
  else if op =? OPENDIR then open_directory_entry r
  else if op =? READDIR then read_directory r
  else if op =? STATFS then n ←! request_node (Wire.node r); st ←! statfs n; ok (statfs_out st)
  else err ENOSYS.

(** ** File contents *)

Definition read_progressed (before after read : Z) : result Z bool :=
  if read =? 0 then Ok false
  else if bool_decide (checked_sub after before = Some read) then Ok true else Err EIO.

Fixpoint read_loop (reads : list (StreamResult * list Z)) (bs : list Z) (size : Z) : result Z (list Z) :=
  if negb (zlen bs <? size) then Ok bs else
  match reads with
  | [] => Ok bs
  | (result, chunk) :: reads =>
      let next := bs ++ chunk in
      match result with
      | Complete read =>
          more ← read_progressed (zlen bs) (zlen next) read;
          if more : bool then read_loop reads next size else Ok next
      | Dropped => Ok next
      | Cancelled => Err EIO
      end
  end.

Definition read_file (d offset size : Z) : Work :=
  stream ⇐ ask (ReadViaStream d offset);
  bs ←? read_loop stream.1 [] size;
  match stream.2 with Ok _ => ok bs | Err _ => err EIO end.

Definition write_file (d offset : Z) (bs : list Z) : prog (result Z unit) :=
  written ⇐ ask (WriteViaStream d offset bs);
  if bool_decide (written.1 = []) && is_ok written.2 then ok tt else err EIO.

(** ** What is scheduled *)

Definition read_size (r : Request) : result Z Z :=
  size ← u32_at (body r) 16;
  if MAX_READ <? size then Err EINVAL else Ok size.

(** The payload of a write, out of the whole request. *)
Definition take_write_payload (request_bytes : list Z) (payload_len : Z) : list Z :=
  PackedImage.sub request_bytes (HEADER + 40) (HEADER + 40 + payload_len).

Definition file_work (request_bytes : list Z) (r : Request) (h : OpenHandle) : result Z Work :=
  let d := h_descriptor h in
  if opcode r =? READ then
    offset ← u64_at (body r) 8;
    size ← read_size r;
    Ok (read_file d offset size)
  else if opcode r =? WRITE then
    offset ← u64_at (body r) 8;
    size ← u32_at (body r) 16;
    bs ← ok_or EINVAL (slice (body r) 40 (zlen (body r)));
    if negb (zlen bs =? size) then Err EINVAL else
    if negb (writable h) then Err EBADF else
    Ok (_ ←! write_file d offset (take_write_payload request_bytes (zlen bs)); ok (write_out size))
  else if opcode r =? FSYNC then Ok (_ ←! wasi (SyncData d); ok [])
  else Err ENOSYS.

Definition prepare_file_io (request_bytes : list Z) (r : Request) (s : State) : result Z (PreparedIo (Work := Work)) :=
  id ← u64_at (body r) 0;
  if opcode r =? FSYNCDIR then
    dir ← ok_or EBADF (directory s id);
    identity ← file_identity s (d_node dir);
    Ok (mkIo (Some identity) (_ ←! wasi (Sync (d_descriptor dir)); ok []))
  else
    h ← ok_or EBADF (handle s id);
    work ← file_work request_bytes r h;
    identity ← file_identity s (h_node h);
    Ok (mkIo (Some identity) work).

(** The wrapper of [execute] in [prepare_io]. *)
Definition entry_work (r : Request) : Work :=
  result ⇐ execute r;
  match result with
  | Ok response => if opcode r =? LOOKUP then _ ←! with_ (QRemember r response); Ret result else Ret result
  | Err _ => Ret result
  end.

Definition prepare_io (request_bytes : list Z) (r : Request) (s : State) : result Z (PreparedIo (Work := Work)) :=
  if existsb (Z.eqb (opcode r)) [READ; WRITE; FSYNC; FSYNCDIR] then prepare_file_io request_bytes r s else
  identity ←
    (if existsb (Z.eqb (opcode r)) [GETATTR; LOOKUP; READLINK; STATFS; READDIR] then Ok None
     else i ← file_identity s (Wire.node r); Ok (Some i));
  Ok (mkIo identity (entry_work r)).

(** ** File events *)

Inductive EventKind := Create | Remove | Modify | Metadata.
Record FileEvent := mkEvent { fe_path : list Z; fe_kind : EventKind; fe_is_directory : bool }.

(** [str::split('/')] *)
Fixpoint split_slash (bs : list Z) : list (list Z) :=
  match bs with
  | [] => [[]]
  | c :: bs =>
      if c =? 47 then [] :: split_slash bs
      else match split_slash bs with part :: parts => (c :: part) :: parts | [] => [[c]] end
  end.
(** [join("/")] *)
Fixpoint join_slash (parts : list (list Z)) : list Z :=
  match parts with
  | [] => []
  | [part] => part
  | part :: parts => part ++ 47 :: join_slash parts
  end.

Definition bad_part (part : list Z) : bool :=
  bool_decide (part = []) || bool_decide (part = dot) || bool_decide (part = dotdot) || existsb (λ c, c =? 0) part.

Definition kind_code (k : EventKind) : Z :=
  match k with Create => 1 | Remove => 2 | Modify => 3 | Metadata => 4 end.

Definition event_payload (id child : Z) (e : FileEvent) (same_inode : bool) (n : list Z) : list Z :=
  let kind := Z.lor (Z.lor (kind_code (fe_kind e)) (if fe_is_directory e then 0x100 else 0))
                (if same_inode then EVENT_SAME_INODE else 0) in
  let out := zeros 280 in
  let out := PackedImage.splice out 0 (le_bytes 8 id) in
  let out := PackedImage.splice out 8 (le_bytes 8 child) in
  let out := PackedImage.splice out 16 (le_bytes 4 kind) in
  let out := PackedImage.splice out 20 (le_bytes 4 (zlen n)) in
  PackedImage.splice out 24 n.

(** [Err]: the event is not for the guest ([None] in the source). *)
Definition encode_event (e : FileEvent) : Work :=
  let parts := split_slash (fe_path e) in
  if existsb bad_part parts then err 0 else
  let n := List.last parts [] in
  if 255 <? zlen n then err 0 else
  root ←! root;
  let parent_path := join_slash (removelast parts) in
  parent_identity ←!
    (if bool_decide (parent_path = []) then d ←! resolve_descriptor root; wasi (MetadataHash d)
     else child_identity root parent_path);
  target ←! with_ (QEventTarget parent_identity n);
  let '(id, child) := target in
  identity ⇐
    (match fe_kind e with
     | Modify | Metadata =>
         if child =? 0 then Ret None
         else h ⇐ child_identity root (fe_path e); Ret (match h with Ok h => Some h | Err _ => None end)
     | _ => Ret None
     end);
  same_inode ←! with_ (QSameInode identity id child n);
  ok (event_payload id child e same_inode n).

End Requests.
End Requests.
