(* ===== verification/FsConfine.v ===== *)
(** * No request of the guest names a file outside a directory

    Whatever the guest sends, whatever the host answers and however the requests
    that are worked on interleave, with one another and with the operations under
    the lock, every call is on a descriptor the host gave the device and every path
    is one component (or the path of a reported event). The components [.] and [..]
    can reach the host only after an [RMDIR] of that name, whose fallback does not
    check it. *)

From stdpp Require Import gmap.
From S2P Require Import Prelude SplitRing Dns PackedImage FsWire FsNodes FsIo FsHost FsRequests.

Local Open Scope Z_scope.

Module Confine.
Import Wire Nodes Host Requests.

(** ** Names *)

(** A name in a directory. *)
Definition plain_name (p : list Z) : Prop := p ≠ [] ∧ (0 ∉ p) ∧ (47 ∉ p) ∧ p ≠ dot ∧ p ≠ dotdot.

(** What the host and the guest have said so far: the descriptors the host gave
    the device, the names the guest sent in [RMDIR] requests, and the paths of the
    file events the host reported. *)
Record World := mkWorld { given : Z → Prop; removed : list Z → Prop; reported : list Z → Prop }.

Section Confine.
Context (w : World).

(** A name, or [.] or [..] of an [RMDIR] request. *)
Definition component (p : list Z) : Prop := plain_name p ∨ removed w p ∧ (p = dot ∨ p = dotdot).

(** The path of a reported event, or the path of its directory. *)
Definition event_path (p : list Z) : Prop :=
  ∃ e, reported w e ∧ Forall plain_name (split_slash e) ∧ (p = e ∨ p = join_slash (removelast (split_slash e))).

Definition entries_ok (es : list HostEntry) : Prop := Forall (λ e, plain_name (he_name e)) es.
Definition listing_ok (l : OpenListing) : Prop :=
  given w (l_descriptor l) ∧ match l_entries l with Some (es, _) => entries_ok es | None => True end.
Definition given_if (o : option Z) : Prop := match o with Some d => given w d | None => True end.

(** What the device may ask: every descriptor is one the host gave it, no symbolic
    link is followed, and a path is one component. Entries are made, removed and
    renamed by plain names. Only the identity of a file an event is about is asked
    for with a longer path. *)
Definition call_ok {X} (c : call X) : Prop :=
  match c with
  | MetadataHashAt d follow p => given w d ∧ follow = false ∧ (component p ∨ event_path p)
  | StatAt d follow p | SetTimesAt d follow p _ _ => given w d ∧ follow = false ∧ component p
  | OpenAt d follow p flags _ => given w d ∧ follow = false ∧ component p ∧ (f_create flags = true → plain_name p)
  | ReadlinkAt d p | GetModeAt d p | SetModeAt d p _ => given w d ∧ component p
  | CreateDirectoryAt d p | RemoveDirectoryAt d p | UnlinkFileAt d p | SymlinkAt d _ p | OpenMetadataAt d p =>
      given w d ∧ plain_name p
  | RenameAt d p d' p' => given w d ∧ given w d' ∧ plain_name p ∧ plain_name p'
  | LinkAt d follow p d' p' => given w d ∧ given w d' ∧ follow = false ∧ component p ∧ plain_name p'
  | DescStat d | MetadataHash d | GetType d | GetFlags d | SetSize d _ | SetTimes d _ _ | Sync d | SyncData d
  | GetMode d | SetMode d _ | Statfs d | ReleaseDescriptor d | ReadDirectory d | ReadViaStream d _
  | WriteViaStream d _ _ => given w d
  | UnlockDirectory _ l => listing_ok l
  | GetDirectories | Race | SoleOwner | GrowReservation _ | DropReservation _ | LockDirectory _ => True
  end.

(** The descriptors of an answer are given by it; the names of a listing are names
    (WASI leaves out the entries for the directory and its parent); a listing is as
    it was left. *)
Definition answer_ok {X} (c : call X) : X → Prop :=
  match c in call X return X → Prop with
  | OpenAt _ _ _ _ _ => λ a, match a with Ok d => given w d | Err _ => True end
  | OpenMetadataAt _ _ => λ a, match a with Ok d => given w d | Err _ => True end
  | GetDirectories => Forall (given w)
  | ReadDirectory _ => λ a, Forall entries_ok a.1
  | LockDirectory _ => listing_ok
  | _ => λ _, True
  end.

Definition node_ok (n : Node) : Prop :=
  given_if (descriptor n) ∧ match path n with Some (d, p) => given w d ∧ component p | None => True end.
Record state_ok (s : State) : Prop := {
  s_nodes : ∀ id r, nodes s !! id = Some r → node_ok (r_node r);
  s_handles : ∀ id h, handles s !! id = Some h → given w (h_descriptor h);
  s_directories : ∀ id d, directories s !! id = Some d → given w (d_descriptor d);
}.

Definition query_ok {X} (q : query X) : Prop :=
  match q with
  | QNodeId n _ => node_ok n
  | QStoreHandle _ d _ | QStoreDirectory _ d | QRepoint _ d _ => given w d
  | QReleaseCached _ d n _ => given w d ∧ component n
  | _ => True
  end.
Definition sat {A} (R : A → Prop) (r : result Z A) : Prop := match r with Ok a => R a | Err _ => True end.
Definition query_answer_ok {X} (q : query X) : result Z X → Prop :=
  match q in query X return result Z X → Prop with
  | QNode _ => sat node_ok
  | QOpenFile _ _ => sat given_if
  | QReleaseCached _ _ _ _ => sat given_if
  | _ => λ _, True
  end.

(** Every call of the program may be asked, and its result has [Q]. *)
Fixpoint safe {A} (p : prog A) (Q : A → Prop) : Prop :=
  match p with
  | Ret a => Q a
  | Call c k => call_ok c ∧ ∀ x, answer_ok c x → safe (k x) Q
  | With q k => query_ok q ∧ ∀ x, query_answer_ok q x → safe (k x) Q
  end.

(** ** Names from the guest *)

Lemma text_name n t : text n = Ok t → plain_name t ∧ t = n.
Proof. by intros (-> & H1 & H2 & H3 & H4 & H5 & _)%text_plain. Qed.

Lemma plain_component p : plain_name p → component p.
Proof. by left. Qed.

Lemma name_component n bs : name bs = Ok n → removed w n → component n.
Proof.
  intros (Hne & Hb & _)%name_exact Hs. rewrite Forall_forall in Hb.
  destruct (decide (n = dot)) as [->|]; [by right; auto|]. destruct (decide (n = dotdot)) as [->|]; [by right; auto|].
  left. split; [done|]. split; [|split; [|done]]; intros Hin; by destruct (Hb _ Hin) as (? & ? & _).
Qed.

(** ** Programs *)

Lemma safe_impl {A} (p : prog A) (Q Q' : A → Prop) : safe p Q → (∀ a, Q a → Q' a) → safe p Q'.
Proof. intros Hp HQ. induction p as [a|X c k IH|X q k IH]; cbn in *; [by apply HQ|..]; destruct Hp as [H1 H2]; split; auto. Qed.

Lemma safe_bind {A B} (p : prog A) (f : A → prog B) Q R : safe p Q → (∀ a, Q a → safe (f a) R) → safe (bind p f) R.
Proof. intros Hp Hf. induction p as [a|X c k IH|X q k IH]; cbn in *; [by apply Hf|..]; destruct Hp as [H1 H2]; split; auto. Qed.

Lemma safe_and_then {A B} (p : prog (result Z A)) (f : A → prog (result Z B)) R S :
  safe p (sat R) → (∀ a, R a → safe (f a) (sat S)) → safe (and_then p f) (sat S).
Proof. intros Hp Hf. eapply safe_bind; [done|]. intros [a|e] Ha; [by apply Hf|done]. Qed.

Lemma safe_on_ok {A B} (r : result Z A) (f : A → prog (result Z B)) S :
  (∀ a, r = Ok a → safe (f a) (sat S)) → safe (on_ok r f) (sat S).
Proof. intros Hf. destruct r; [by apply Hf|done]. Qed.

Definition any {A} (a : A) : Prop := True.

Lemma safe_wasi {X} (c : call (result ErrorCode X)) : call_ok c → safe (wasi c) (sat (λ x, answer_ok c (Ok x))).
Proof. intros Hc. split; [done|]. by intros [] ?. Qed.
Lemma safe_wasi_any {X} (c : call (result ErrorCode X)) : call_ok c → safe (wasi c) (sat any).
Proof. intros Hc. split; [done|]. intros [] _; done. Qed.
Lemma safe_ext {X} (c : call (result Error X)) : call_ok c → safe (ext c) (sat any).
Proof. intros Hc. split; [done|]. intros [] _; done. Qed.
Lemma safe_ask {X} (c : call X) : call_ok c → safe (ask c) (answer_ok c).
Proof. by split. Qed.
Lemma safe_with {X} (q : query X) : query_ok q → safe (with_ q) (query_answer_ok q).
Proof. by split. Qed.
Lemma safe_with_any {X} (q : query X) : query_ok q → safe (with_ q) (sat any).
Proof. intros Hq. split; [done|]. intros [] _; done. Qed.
Lemma safe_ok {A} (a : A) (R : A → Prop) : R a → safe (ok a) (sat R).
Proof. done. Qed.
Lemma safe_err {A} e (R : A → Prop) : safe (err e) (sat R).
Proof. done. Qed.

Lemma safe_race {A} (f : bool → prog A) Q : (∀ b, safe (f b) Q) → safe (bind (ask Race) f) Q.
Proof. intros Hf. split; [done|]. intros b _. apply Hf. Qed.

Lemma try_join_safe {A B} (a : prog (result Z A)) (b : prog (result Z B)) :
  safe a (sat any) → safe b (sat any) → safe (try_join a b) (sat any).
Proof.
  intros Ha Hb. apply safe_race. intros [];
    (eapply safe_and_then; [done|]; intros ? _; eapply safe_and_then; [done|]; by intros).
Qed.

Lemma try_join3_safe {A B C} (a : prog (result Z A)) (b : prog (result Z B)) (c : prog (result Z C)) :
  safe a (sat any) → safe b (sat any) → safe c (sat any) → safe (try_join3 a b c) (sat any).
Proof.
  intros Ha Hb Hc. apply safe_race. intros []; [|apply safe_race; intros []];
    (eapply safe_and_then; [done|]; intros ? _; eapply safe_and_then; [by apply try_join_safe|]; by intros [] _).
Qed.

End Confine.

Create HintDb confine.
#[export] Hint Resolve safe_wasi | 1 : confine.
#[export] Hint Resolve safe_wasi_any | 2 : confine.
#[export] Hint Resolve safe_ext safe_with_any try_join_safe try_join3_safe safe_err : confine.
Ltac call_tac :=
  cbn [call_ok query_ok f_create]; unfold no_flags, DIRECTORY; cbn [f_create];
  split_and?; first [done | by apply plain_component | by left | by left; apply plain_component].
#[export] Hint Extern 1 (call_ok _ _) => call_tac : confine.
#[export] Hint Extern 1 (query_ok _ _) => call_tac : confine.
#[export] Hint Extern 1 (any _) => exact I : confine.
#[export] Hint Extern 1 (safe _ (ok _) (sat _)) => apply safe_ok : confine.

(** One step through a program: what it waits for by the lemmas of what it calls. *)
Ltac safe_step :=
  lazymatch goal with
  | |- ∀ _, _ => intro
  | |- safe _ (and_then _ _) _ =>
      eapply safe_and_then; [solve [eauto 6 with confine]|cbn beta; cbn [answer_ok]; intros ? ?]
  | |- safe _ (on_ok _ _) _ => apply safe_on_ok; intros ? _
  | |- safe _ (bind (ask _) _) _ =>
      eapply safe_bind; [apply safe_ask; solve [eauto with confine]|cbn beta; cbn [answer_ok]; intros ? ?]
  | |- safe _ (bind _ _) _ => eapply safe_bind; [solve [eauto 6 with confine]|intros ? ?]
  | |- safe _ (let '_ := ?x in _) _ => destruct x
  | |- safe _ _ _ => solve [eauto 6 with confine]
  end.
Ltac safe_go := repeat (safe_step || case_match); eauto with confine.

Section Host.
Context (w : World).
#[local] Notation safe := (safe w).
#[local] Notation node_ok := (node_ok w).
#[local] Notation component := (component w).
#[local] Notation given := (given w).
#[local] Notation given_if := (given_if w).

Lemma expected_identity_safe n : node_ok n → safe (expected_identity n) (sat any).
Proof. intros [Hd _]. unfold expected_identity. destruct (descriptor n); [|done]. cbn in Hd. safe_go. Qed.
#[local] Hint Resolve expected_identity_safe : confine.

(** Where a node was found. *)
Definition place (p : Z * list Z) : Prop := given p.1 ∧ component p.2.

Lemma node_place n p : node_ok n → path n = Some p → place p.
Proof. intros [_ Hn] Hp. rewrite Hp in Hn. by destruct p. Qed.

Lemma checked_path_safe n : node_ok n → safe (checked_path n) (sat place).
Proof.
  intros Hn. unfold checked_path. apply safe_on_ok. intros p Hp.
  assert (place p) as [Hg Hc]. { apply (node_place n); [done|]. destruct (path n); [|done]. by injection Hp as <-. }
  assert (place p) by done. safe_go.
Qed.
#[local] Hint Resolve checked_path_safe : confine.

Lemma open_path_safe n flags access : node_ok n → f_create flags = false → safe (open_path n flags access) (sat given).
Proof.
  intros Hn Hf. unfold open_path. eapply safe_and_then with (R := place).
  - destruct (descriptor n); [|by apply checked_path_safe]. cbn. destruct (path n) as [p|] eqn:Hp; [|done]. by apply (node_place n).
  - intros [d p] [Hd Hp]. cbn in Hd, Hp. eapply safe_and_then; [apply safe_wasi; cbn; by rewrite Hf|].
    cbn [answer_ok]. intros o Ho. safe_go.
Qed.
#[local] Hint Resolve open_path_safe : confine.

Lemma resolve_descriptor_safe n : node_ok n → safe (resolve_descriptor n) (sat given).
Proof. intros Hn. unfold resolve_descriptor. destruct (descriptor n) eqn:Hd; [|by apply open_path_safe]. destruct Hn as [Hn _]. by rewrite Hd in Hn. Qed.
#[local] Hint Resolve resolve_descriptor_safe : confine.

(** The result is a node that may be kept. *)
#[local] Notation gives_node p := (safe p (sat node_ok)).

Lemma path_stat_safe d p : given d → component p → safe (path_stat d p) (sat any).
Proof. intros Hd Hp. unfold path_stat. safe_go. Qed.
#[local] Hint Resolve path_stat_safe : confine.

Lemma node_stat_safe n : node_ok n → safe (node_stat n) (sat any).
Proof.
  intros Hn. unfold node_stat. eapply safe_and_then with (R := any); [|intros [] _; by safe_go].
  destruct (descriptor n) as [d|] eqn:Hd.
  - assert (given d) by (destruct Hn as [Hn _]; by rewrite Hd in Hn).
    eapply safe_and_then; [eauto 6 with confine|]. by intros [[]] _.
  - eapply safe_and_then; [by apply checked_path_safe|]. intros [d p] [Hg Hp]. eauto with confine.
Qed.
#[local] Hint Resolve node_stat_safe : confine.

Lemma open_safe n access truncate : node_ok n → safe (Host.open n access truncate) (sat given).
Proof.
  intros Hn. unfold Host.open. eapply safe_and_then with (R := given).
  - destruct (descriptor n) as [d|] eqn:Hd; [destruct Hn as [Hn _]; by rewrite Hd in Hn|].
    eapply safe_and_then; [by apply checked_path_safe|]. intros [d p] [Hg Hp]. cbn in Hg, Hp. safe_go.
  - intros d Hd. safe_step. case_match; [done|]. safe_step. eapply safe_and_then with (R := given); safe_go.
Qed.
#[local] Hint Resolve open_safe : confine.

Lemma set_node_times_safe n o a m : node_ok n → given_if o → safe (set_node_times n o a m) (sat any).
Proof.
  intros Hn Ho. unfold set_node_times. destruct (descriptor n) as [d|] eqn:Hd.
  - assert (given d) by (destruct Hn as [Hn _]; by rewrite Hd in Hn).
    assert (given (default d o)) by by destruct o. safe_step. destruct o as [o|]; [by destruct a0|].
    destruct a0 as [|[]]; try done. eapply safe_bind; [by apply open_safe|]. intros [x|] Hx; [|done]. cbn in Hx. safe_go.
  - eapply safe_and_then; [by apply checked_path_safe|]. intros [d p] [Hg Hp]. cbn in Hg, Hp. safe_go.
Qed.

Lemma setattr_safe n o mode size a m : node_ok n → given_if o → safe (setattr n o mode size a m) (sat any).
Proof.
  intros Hn Ho. unfold setattr. eapply safe_and_then with (R := any).
  { unfold set_node_mode. destruct mode; [|done]. case_match eqn:Hd.
    - assert (given z0) by (destruct Hn as [Hn _]; by rewrite Hd in Hn). eauto with confine.
    - eapply safe_and_then; [by apply checked_path_safe|]. intros [d p] [Hg Hp]. cbn in Hg, Hp. safe_go. }
  intros _ _. eapply safe_and_then with (R := any).
  { unfold set_node_size. destruct size; [|done]. eapply safe_and_then with (R := given); [|safe_go].
    destruct o; [done|]. by apply open_safe. }
  intros _ _. pose proof (set_node_times_safe n o a m Hn Ho). by destruct a, m.
Qed.

Lemma readlink_safe n : node_ok n → safe (readlink n) (sat any).
Proof.
  intros Hn. unfold readlink. eapply safe_and_then; [by apply checked_path_safe|]. intros [d p] [Hg Hp]. cbn in Hg, Hp. safe_go.
Qed.

Lemma open_directory_safe n : node_ok n → safe (Host.open_directory n) (sat given).
Proof. intros Hn. unfold Host.open_directory. safe_go. Qed.

Lemma statfs_safe n : node_ok n → safe (statfs n) (sat any).
Proof. intros Hn. unfold statfs. safe_go. Qed.

Lemma open_first_safe d p l : given d → plain_name p → safe (open_first d p l) (sat given_if).
Proof.
  intros Hd Hp. induction l as [|access l IH]; [done|]. cbn [open_first]. safe_step.
  destruct a as [|[]]; try done; apply IH.
Qed.
#[local] Hint Resolve open_first_safe : confine.

Lemma lookup_safe parent p : node_ok parent → gives_node (Host.lookup parent p).
Proof.
  intros Hn. unfold Host.lookup. apply safe_on_ok. intros t [Hc _]%text_name.
  safe_step. safe_step. eapply safe_and_then with (R := given_if).
  { case_match; [|done]. safe_step. case_match; [done|]. safe_step. by case_match; [|case_match]. }
  intros desc Hd. eapply safe_and_then with (R := any); [safe_go|]. intros i _. split; [done|]. cbn. by split; [|left].
Qed.
#[local] Hint Resolve lookup_safe : confine.

Lemma apply_create_mode_safe d m : given d → safe (apply_create_mode d m) (sat any).
Proof. intros Hd. unfold apply_create_mode. safe_step. by case_match; [|case_match]. Qed.
#[local] Hint Resolve apply_create_mode_safe : confine.

Lemma create_safe parent p flags m : node_ok parent → safe (create parent p flags m) (sat (λ r, node_ok r.1 ∧ given r.2)).
Proof.
  intros Hn. unfold create. apply safe_on_ok. intros t [Hc _]%text_name.
  safe_step. safe_step. apply safe_on_ok. intros created _. safe_step.
  eapply safe_and_then with (R := any); [safe_go|]. intros _ _. safe_step.
  eapply safe_and_then with (R := given); [safe_go|]. intros i Hi. split; [|done]. split; [done|]. cbn. by split; [|left].
Qed.

Lemma mkdir_safe parent p m : node_ok parent → gives_node (mkdir parent p m).
Proof.
  intros Hn. unfold mkdir. safe_step. apply safe_on_ok. intros t [Hc _]%text_name.
  safe_step. eapply safe_and_then; [by apply lookup_safe|]. intros n Hn'. safe_go.
Qed.

Lemma unlink_safe parent p b : node_ok parent → safe (unlink parent p b) (sat any).
Proof. intros Hn. unfold unlink. safe_step. apply safe_on_ok. intros t [Hc _]%text_name. safe_go. Qed.

Lemma rename_safe n p n' p' : node_ok n → node_ok n' → safe (rename n p n' p') (sat any).
Proof.
  intros Hn Hn'. unfold rename. safe_step. apply safe_on_ok. intros t [Hc _]%text_name.
  safe_step. apply safe_on_ok. intros t' [Hc' _]%text_name. by apply safe_wasi_any.
Qed.

Lemma link_safe n n' p : node_ok n → node_ok n' → safe (link n n' p) (sat any).
Proof.
  intros Hn Hn'. unfold link. eapply safe_and_then; [by apply checked_path_safe|]. intros [d q] [Hg Hq]. cbn in Hg, Hq. safe_step.
  apply safe_on_ok. intros t [Hc _]%text_name. by apply safe_wasi_any.
Qed.

Lemma symlink_safe parent p target : node_ok parent → gives_node (symlink parent p target).
Proof.
  intros Hn. unfold symlink. safe_step. safe_step. apply safe_on_ok. intros t [Hc _]%text_name. safe_step. by apply lookup_safe.
Qed.

(** *** Listings *)

Lemma give_up_cache_safe {A} r e : safe (give_up_cache (A := A) r e) (sat (λ _, False)).
Proof. by split. Qed.

Lemma cache_loop_safe sz batches completion : ∀ es nb r,
  Forall entries_ok batches → entries_ok es →
  safe (cache_loop sz batches completion es nb r) (sat (λ x, entries_ok x.1)).
Proof.
  assert (Hgive : ∀ r e, safe (give_up_cache (A := list HostEntry * Z) r e) (sat (λ x, entries_ok x.1))).
  { intros r e. eapply safe_impl; [apply give_up_cache_safe|]. by intros []. }
  induction batches as [|batch batches IH]; intros es nb r Hb He; cbn [cache_loop].
  { case_match; [done|apply Hgive]. }
  apply Forall_cons in Hb as [Hb Hbs]. destruct (batch_bytes sz batch 0 0) as [[bn bc]|]; [|apply Hgive].
  case_match; [|apply Hgive]. safe_step. case_match; [apply Hgive|]. case_match; [apply Hgive|].
  apply IH; [done|]. by apply Forall_app.
Qed.

Lemma cache_entries_safe sz l : given (l_descriptor l) → safe (cache_entries sz l) (sat (listing_ok w)).
Proof.
  intros Hl. unfold cache_entries. eapply safe_bind; [by apply safe_ask|]. intros [batches completion] Hb.
  eapply safe_and_then; [apply cache_loop_safe; [exact Hb|by constructor]|]. by intros [es r] He.
Qed.

Lemma gather_sub rest : ∀ slots b m, Forall (λ e, plain_name (he_name e.2)) rest →
  Forall (λ c, plain_name (he_name c.1.2)) (gather rest slots b m).1
  ∧ Forall (λ e, plain_name (he_name e.2)) (gather rest slots b m).2.
Proof.
  induction rest as [|[i e] rest IH]; intros slots b m Hr; destruct slots as [|slots]; cbn;
    try (by split; [constructor|]).
  assert (Hr' := Hr). apply Forall_cons in Hr' as [He Hr']. case_match; cbn; [by split; [constructor|]|].
  specialize (IH slots (b + pad8 (24 + zlen (he_name e))) m Hr'). destruct (gather _ _ _ _). cbn in *.
  destruct IH. by split; [constructor|].
Qed.

Lemma identities_safe d cs : given d → Forall (λ c, plain_name (he_name c.1.2)) cs → safe (identities d cs) any.
Proof.
  intros Hd. induction 1 as [|[[i e] n] cs Hc _ IH]; [done|]. cbn [identities]. cbn in Hc. safe_step.
  eapply safe_bind; [exact IH|]. done.
Qed.

Lemma readdir_loop_safe rounds d limit m : given d → ∀ rest es b, Forall (λ e, plain_name (he_name e.2)) rest →
  safe (readdir_loop rounds d rest limit m es b) (sat any).
Proof.
  intros Hd. induction rounds as [|rounds IH]; intros rest es b Hr; [done|]. cbn [readdir_loop]. case_match; [done|].
  destruct (gather_sub rest (Z.to_nat (limit - zlen es)) b m Hr) as [H1 H2]. destruct (gather _ _ _ _) as [cs rest'].
  case_match; [done|]. eapply safe_bind; [by apply identities_safe|]. intros rs _. apply safe_on_ok. intros c _. by apply IH.
Qed.

Lemma enumerate_ok o es : entries_ok es → Forall (λ e, plain_name (he_name e.2)) (enumerate_from o es).
Proof.
  intros He. apply Forall_drop, Forall_forall. intros [i e] Hin%elem_of_zip_r. unfold entries_ok in He.
  rewrite Forall_forall in He. by apply He.
Qed.

Lemma readdir_safe sz l cookie n m : listing_ok w l → safe (readdir sz l cookie n m) (λ r, listing_ok w r.2).
Proof.
  intros Hl. unfold readdir. eapply safe_bind with (Q := listing_ok w).
  { case_match; [|done]. unfold drop_listing. case_match; [|done]. case_match. split; [done|]. intros ? _. by split; [apply Hl|]. }
  intros l1 Hl1. eapply safe_bind with (Q := sat (listing_ok w)).
  { case_match; [done|]. apply cache_entries_safe, Hl1. }
  intros [l2|e] Hl2; [|done]. case_match; [done|]. destruct (l_entries l2) as [[es r]|] eqn:He; [|done].
  cbn in Hl2. eapply safe_bind; [apply readdir_loop_safe; [apply Hl2|apply enumerate_ok]|done].
  destruct Hl2 as [_ Hl2]. by rewrite He in Hl2.
Qed.

(** *** Requests *)

Lemma request_node_safe id : gives_node (request_node id).
Proof. by apply (safe_with w (QNode id)). Qed.
#[local] Hint Resolve request_node_safe readlink_safe statfs_safe setattr_safe unlink_safe rename_safe link_safe symlink_safe
  mkdir_safe create_safe open_directory_safe readdir_safe : confine.

Lemma insert_entry_safe child : node_ok child → safe (insert_entry child) (sat any).
Proof. intros Hn. unfold insert_entry. safe_go. Qed.
#[local] Hint Resolve insert_entry_safe : confine.

Lemma lookup_entry_safe r : safe (lookup_entry r) (sat any).
Proof. unfold lookup_entry. safe_go. Qed.

Lemma set_attributes_safe r : safe (set_attributes r) (sat any).
Proof.
  unfold set_attributes. do 9 safe_step. case_match; [done|]. safe_step. eapply safe_and_then with (R := given_if).
  { case_match; [|done]. safe_step. by apply (safe_with w (QOpenFile _ _)). }
  intros o Ho. safe_go.
Qed.

Lemma create_directory_safe r : safe (create_directory r) (sat any).
Proof. unfold create_directory. safe_go. Qed.

Lemma create_file_safe r : safe (create_file r) (sat any).
Proof.
  unfold create_file. do 5 safe_step. eapply safe_and_then; [by apply create_safe|]. intros [c d] [Hc Hd]. cbn in Hc, Hd. safe_go.
Qed.

Lemma released_descriptor_safe parent n : node_ok parent → component n → safe (released_descriptor parent n) (sat given_if).
Proof.
  intros Hp Hn. unfold released_descriptor. safe_step. apply safe_on_ok. intros n' Hn'.
  assert (n' = n) as -> by (destruct (Dns.is_utf8 n); congruence). clear Hn'. safe_step. destruct a0 as [st|]; [|done].
  case_match; [done|]. safe_step. destruct a0 as [i|]; [|done]. safe_step. by apply (safe_with w (QReleaseCached _ _ _ _)).
Qed.

(** The name of an [RMDIR] request, which its fallback uses unchecked. *)
Definition rmdir_ok (r : Request) : Prop := ∀ n, opcode r = RMDIR → name (body r) = Ok n → removed w n.

Lemma remove_entry_safe r : rmdir_ok r → safe (remove_entry r) (sat any).
Proof.
  intros Hr. unfold remove_entry. apply safe_on_ok. intros n Hn. safe_step. safe_step. case_match; [done|].
  case_match eqn:He; [done|]. apply negb_false_iff, andb_true_iff in He as [_ Ho]. breflect.
  assert (component n) by (eapply name_component; eauto).
  eapply safe_and_then; [by apply released_descriptor_safe|]. intros [d|] Hd; [|done]. cbn in Hd. unfold release_descriptor.
  apply safe_on_ok. intros ? [= <-]. safe_go.
Qed.

Lemma rename_entry_safe r : safe (rename_entry r) (sat any).
Proof. unfold rename_entry. safe_step. safe_step. case_match. safe_go. Qed.

Lemma link_entry_safe r : safe (link_entry r) (sat any).
Proof. unfold link_entry. safe_go. Qed.

Lemma create_symlink_safe r : safe (create_symlink r) (sat any).
Proof. unfold create_symlink. safe_step. case_match. safe_go. Qed.

Lemma open_file_safe r : safe (open_file r) (sat any).
Proof. unfold open_file. do 2 safe_step. case_match. case_match. safe_go. Qed.

Lemma open_directory_entry_safe r : safe (open_directory_entry r) (sat any).
Proof. unfold open_directory_entry. safe_go. Qed.

Lemma read_directory_safe sz r : safe (read_directory sz r) (sat any).
Proof.
  unfold read_directory. do 4 safe_step. eapply safe_bind; [by apply safe_ask|]. intros l Hl.
  eapply safe_bind; [by apply readdir_safe|]. intros [es l'] Hl'. eapply safe_bind; [by apply safe_ask|]. intros _ _. safe_go.
Qed.
#[local] Hint Resolve lookup_entry_safe set_attributes_safe create_directory_safe create_file_safe remove_entry_safe
  rename_entry_safe link_entry_safe create_symlink_safe open_file_safe open_directory_entry_safe read_directory_safe : confine.

Lemma execute_safe sz r : rmdir_ok r → safe (execute sz r) (sat any).
Proof. intros Hr. unfold execute. repeat (case_match; [safe_go|]). done. Qed.

Lemma entry_work_safe sz r : rmdir_ok r → safe (entry_work sz r) (sat any).
Proof. intros Hr. unfold entry_work. eapply safe_bind; [by apply execute_safe|]. intros [] _; [|done]. case_match; [|done]. safe_go. Qed.

Lemma file_work_safe bs r h x : given (h_descriptor h) → file_work bs r h = Ok x → safe x (sat any).
Proof.
  intros Hh. unfold file_work. case_match; [|case_match; [|case_match; [|done]]].
  - destruct (u64_at _ 8); [|done]. rsimpl. destruct (read_size r); [|done]. rsimpl. intros [= <-]. unfold read_file. safe_go.
  - destruct (u64_at _ 8); [|done]. rsimpl. destruct (u32_at _ 16); [|done]. rsimpl. destruct (slice _ _ _); [|done]. rsimpl.
    do 2 (case_match; [done|]). intros [= <-]. unfold write_file. eapply safe_and_then with (R := any); safe_go.
  - intros [= <-]. safe_go.
Qed.

Lemma prepare_io_safe sz bs r s io : state_ok w s → rmdir_ok r → prepare_io sz bs r s = Ok io → safe (Io.work io) (sat any).
Proof.
  intros Hs Hr. unfold prepare_io. case_match.
  - unfold prepare_file_io. destruct (u64_at _ 0); [|done]. rsimpl. case_match.
    + destruct (directory s a) as [d|] eqn:Hd; [|done]. apply (s_directories w s Hs) in Hd. rsimpl.
      destruct (file_identity s _); [|done]. rsimpl. intros [= <-]. cbn [Io.work]. safe_go.
    + destruct (handle s a) as [h|] eqn:Hh; [|done]. apply (s_handles w s Hs) in Hh. rsimpl.
      destruct (file_work bs r h) as [x|] eqn:Hw; [|done]. rsimpl. destruct (file_identity s _); [|done]. rsimpl.
      intros [= <-]. cbn [Io.work]. by eapply file_work_safe.
  - destruct (if existsb _ _ then _ else _); [|done]. rsimpl. intros [= <-]. by apply entry_work_safe.
Qed.

(** *** Events *)

Lemma split_slash_parts bs : Forall (λ p, 47 ∉ p) (split_slash bs).
Proof.
  induction bs as [|c bs IH]; cbn [split_slash]; [constructor; [set_solver|done]|].
  destruct (Z.eqb_spec c 47) as [->|Hc]; [constructor; [set_solver|done]|].
  destruct (split_slash bs) as [|part parts]; [constructor; [set_solver|done]|].
  apply Forall_cons in IH as [H1 H2]. constructor; [set_solver|done].
Qed.

Lemma good_parts bs : existsb bad_part (split_slash bs) = false → Forall plain_name (split_slash bs).
Proof.
  intros Hb. pose proof (split_slash_parts bs) as Hs. rewrite Forall_forall in Hs. apply Forall_forall. intros p Hp.
  assert (Hbad : bad_part p = false).
  { destruct (bad_part p) eqn:H; [|done]. assert (existsb bad_part (split_slash bs) = true); [|congruence].
    apply existsb_exists. exists p. by rewrite <- list_elem_of_In. }
  unfold bad_part in Hbad. rewrite !orb_false_iff, !bool_decide_eq_false in Hbad. destruct Hbad as [[[H1 H2] H3] H4].
  split; [done|]. split; [|split; [by apply Hs|done]]. intros H0. assert (existsb (λ c, c =? 0) p = true); [|congruence].
  apply existsb_exists. exists 0. by rewrite <- list_elem_of_In.
Qed.

Lemma child_identity_safe n p : node_ok n → event_path w p → safe (child_identity n p) (sat any).
Proof. intros Hn Hp. unfold child_identity. safe_step. apply safe_wasi_any. cbn. by split_and?; [| |right]. Qed.

Lemma encode_event_safe e : reported w (fe_path e) → safe (encode_event e) (sat any).
Proof.
  intros Hr. unfold encode_event. case_match eqn:Hb; [done|]. case_match; [done|].
  assert (He : ∀ p, p = fe_path e ∨ p = join_slash (removelast (split_slash (fe_path e))) → event_path w p)
    by (intros p Hp; exists (fe_path e); split_and!; [done|by apply good_parts|done]).
  eapply safe_and_then with (R := node_ok).
  { unfold root. safe_step. destruct a as [|d []]; try done. apply Forall_cons in H0 as [Hd _]. by split. }
  intros rt Hrt. eapply safe_and_then with (R := any).
  { case_match eqn:Hp; [safe_go|]. apply child_identity_safe; auto. }
  intros i _. safe_step. case_match. eapply safe_bind with (Q := any).
  { pose proof (child_identity_safe rt (fe_path e) Hrt (He _ (or_introl eq_refl))).
    repeat case_match; try done; (eapply safe_bind; [done|done]). }
  intros same _. safe_go.
Qed.

(** ** The tables *)

Lemma insert_ok s id r i u n : state_ok w s → node_ok (r_node r) → state_ok w (set_nodes (<[id := r]> (nodes s)) i u n s).
Proof. intros [H1 H2 H3] Hr. split; [|done|done]. intros x y Hy. cbn in Hy. apply lookup_insert_Some in Hy as [[_ <-]|[_ Hy]]; [done|]. by apply (H1 x). Qed.

(** The tables of [s'] are parts of those of [s]. *)
Lemma sub_ok s s' : nodes s' ⊆ nodes s → handles s' ⊆ handles s → directories s' ⊆ directories s →
  state_ok w s → state_ok w s'.
Proof.
  intros S1 S2 S3 [H1 H2 H3]. split; intros id x Hx; [apply (H1 id)|apply (H2 id)|apply (H3 id)]; by eapply lookup_weaken.
Qed.

Lemma mark_ok id s : state_ok w s → state_ok w (mark_unused_if_unheld id s).
Proof. unfold mark_unused_if_unheld. case_match; [|done]. by apply sub_ok. Qed.

Lemma evict_ok s : state_ok w s → state_ok w (evict_unused_node s).
Proof. unfold evict_unused_node. case_match; [|done]. case_match; apply sub_ok; cbn; try done. apply delete_subseteq. Qed.

Lemma forget_ok id n s : state_ok w s → state_ok w (forget id n s).
Proof.
  intros Hs. unfold forget. case_match; [done|]. destruct (nodes s !! id) as [r|] eqn:Hr; apply mark_ok; [|done].
  apply insert_ok; [done|]. exact (s_nodes w s Hs id r Hr).
Qed.

(** What the operations put in the tables. *)
Definition op_paths (o : Op) : Prop :=
  match o with
  | ONodeId n _ => node_ok n
  | OStoreHandle _ d _ | OStoreDirectory _ d | ORepoint _ d _ => given d
  | OReleaseCached _ d n _ => given d ∧ component n
  | _ => True
  end.

Lemma node_id_ok n st s : node_ok n → state_ok w s → state_ok w (node_id n st s).2.
Proof.
  intros Hn Hs. unfold node_id. destruct (node_id_by_identity s !! _) as [id|].
  - destruct (nodes s !! id) as [r|]; [|done]. by apply insert_ok.
  - set (s0 := if len (nodes s) =? max_nodes s then evict_unused_node s else s).
    assert (state_ok w s0) by (subst s0; case_match; [by apply evict_ok|done]). clearbody s0.
    destruct (len (nodes s0) =? max_nodes s0); [done|]. by apply insert_ok.
Qed.

Lemma repoint_ok st d n s : given d → state_ok w s → state_ok w (repoint_node st d n s).
Proof.
  intros Hd Hs. unfold repoint_node. destruct (node_id_by_identity s !! _) as [z|]; [|done].
  destruct (nodes s !! z) as [r|] eqn:Hr; [|done]. apply (s_nodes w s Hs) in Hr. apply insert_ok; [done|]. cbn. unfold repoint.
  destruct (text n) as [t|] eqn:Ht; [|done]. apply text_name in Ht as [Ht _]. split; [apply Hr|]. by split; [|left].
Qed.

Lemma release_cached_ok sole d n i s : given d → component n → state_ok w s →
  given_if (release_cached sole d n i s).1 ∧ state_ok w (release_cached sole d n i s).2.
Proof.
  intros Hd Hn Hs. unfold release_cached. destruct (node_id_by_identity s !! i) as [z|]; [|done]. case_match; [done|].
  destruct (nodes s !! z) as [r|] eqn:Hr; [|done]. apply (s_nodes w s Hs) in Hr. assert (Hr' := Hr). destruct Hr' as [Hr' _].
  unfold release_cached_directory. destruct (descriptor (r_node r)); [destruct sole|]; (split; [done|]); by apply insert_ok.
Qed.

Lemma store_ok s n d u : given d → state_ok w s →
  state_ok w (store_handle n d u s).2 ∧ state_ok w (store_directory n d s).2.
Proof.
  intros Hd [H1 H2 H3]. unfold store_handle, store_directory. split; case_match; try done; (split; [done|..]); try done;
    intros x y Hy; cbn in Hy; apply lookup_insert_Some in Hy as [[_ <-]|[_ Hy]]; eauto.
Qed.

Lemma release_file_ok r s : state_ok w s → state_ok w (release_file r s).2.
Proof.
  intros Hs. unfold release_file. repeat case_match; cbn; try done;
    (apply mark_ok; revert Hs; apply sub_ok; cbn; try done; apply delete_subseteq).
Qed.

Lemma release_directory_ok r s : state_ok w s → state_ok w (release_directory r s).2.
Proof.
  intros Hs. unfold release_directory. repeat case_match; cbn; try done.
  apply mark_ok. revert Hs. apply sub_ok; cbn; try done. apply delete_subseteq.
Qed.

Lemma step_ok o s : op_paths o → state_ok w s → state_ok w (Nodes.step o s).2.
Proof.
  intros Ho Hs.
  destruct o as [x st|r|st parent x|id|x d u|x d|r|r|sole parent x i|r resp|i id child x|r e|]; cbn [Nodes.step snd].
  - pose proof (node_id_ok x st s Ho Hs). by destruct (node_id x st s).
  - rewrite forget_request_eq. generalize (forgotten r). intros l. revert s Hs. induction l as [|p l IH]; intros s Hs; [done|].
    apply IH. by apply forget_ok.
  - by apply repoint_ok.
  - unfold increment_lookup. destruct (nodes s !! id) as [r|] eqn:Hr; [|done]. apply insert_ok; [done|]. exact (s_nodes w s Hs id r Hr).
  - by apply store_ok.
  - by apply (store_ok s x d false).
  - by apply release_file_ok.
  - by apply release_directory_ok.
  - by apply release_cached_ok; [destruct Ho| destruct Ho|].
  - revert Hs. apply sub_ok; unfold remember_lookup; by repeat case_match.
  - revert Hs. apply sub_ok; unfold event_same_inode; cbn; by case_match.
  - revert Hs. by apply sub_ok.
  - unfold clear_runtime. split; [|intros id y; cbn; by rewrite lookup_empty..]. intros id y.
    destruct (nodes s !! 1) as [r|] eqn:Hr; cbn; [|by rewrite lookup_empty].
    intros [<- <-]%lookup_singleton_Some. by apply (s_nodes w s Hs 1).
Qed.

(** The operation a query is. *)
Definition query_op {X} (q : query X) : option Op :=
  match q with
  | QNodeId n st => Some (ONodeId n st)
  | QStoreHandle n d w => Some (OStoreHandle n d w)
  | QStoreDirectory n d => Some (OStoreDirectory n d)
  | QReleaseCached sole parent n i => Some (OReleaseCached sole parent n i)
  | QRepoint st parent n => Some (ORepoint st parent n)
  | QIncrement id => Some (OIncrement id)
  | QRemember r resp => Some (ORemember r resp)
  | QSameInode i id child n => Some (OEventTarget i id child n)
  | QNode _ | QOpenFile _ _ | QDirectory _ | QEventTarget _ _ => None
  end.

Lemma exec_op {X} (q : query X) s : (exec q s).2 = match query_op q with Some o => (Nodes.step o s).2 | None => s end.
Proof.
  destruct q; cbn; try done; [by destruct (node_id n st s)|by destruct (release_cached _ _ _ _ s)].
Qed.

Lemma query_op_ok {X} (q : query X) o : query_op q = Some o → query_ok w q → op_ok o ∧ op_paths o.
Proof. destruct q; cbn; try done; intros [= <-]; done. Qed.

Lemma exec_answer {X} (q : query X) s : state_ok w s → query_ok w q → query_answer_ok w q (exec q s).1.
Proof.
  intros Hs Hq. destruct q as [id| |h n| | | |sole d n i| | | | |]; try done.
  - cbn. unfold Nodes.node. destruct (nodes s !! id) as [r|] eqn:Hr; [|done]. by apply (s_nodes w s Hs id).
  - cbn. destruct (handles s !! h) as [o|] eqn:Ho; [|done]. apply (s_handles w s Hs) in Ho. by case_match.
  - cbn. destruct Hq as [Hd Hn]. destruct (release_cached_ok sole d n i s Hd Hn Hs) as [H _]. by destruct (release_cached _ _ _ _ _).
Qed.

End Host.

(** ** The device at work *)

(** What the device hears, in order: requests of the guest, events and descriptors
    of the host. *)
Inductive Heard := Received (r : Request) | Reported (e : FileEvent) | Given (d : Z).

(** What has been said, [d] being the preopened directory [configure] found. *)
Definition world (d : Z) (hs : list Heard) : World :=
  mkWorld (λ x, x = d ∨ Given x ∈ hs)
    (λ n, ∃ r, Received r ∈ hs ∧ opcode r = RMDIR ∧ name (body r) = Ok n)
    (λ p, ∃ e, Reported e ∈ hs ∧ fe_path e = p).

(** The descriptors of an answer. *)
Definition gives {X} (c : call X) : X → list Z :=
  match c in call X return X → list Z with
  | OpenAt _ _ _ _ _ => λ a, match a with Ok d => [d] | Err _ => [] end
  | OpenMetadataAt _ _ => λ a, match a with Ok d => [d] | Err _ => [] end
  | GetDirectories => λ a, a
  | _ => λ _, []
  end.

(** The locked tables, the listings of the open directories as they were left, and
    the requests and events that are being worked on. *)
Record Config := mkConfig { c_state : State; c_left : list OpenListing; c_work : list Work }.

(** A directory that is opened has an empty listing; an unlocked one is left as it
    is. *)
Definition opens {X} (q : query X) : list OpenListing := match q with QStoreDirectory _ d => [mkListing d None] | _ => [] end.
Definition leaves {X} (c : call X) : list OpenListing := match c with UnlockDirectory _ l => [l] | _ => [] end.

(** What the host may answer: anything, but that the names of a directory stream
    are names of files, and that a lock has what was left there. *)
Definition answers (ls : list OpenListing) {X} (c : call X) : X → Prop :=
  match c in call X return X → Prop with
  | ReadDirectory _ => λ a, Forall entries_ok a.1
  | LockDirectory _ => λ l, l ∈ ls
  | _ => λ _, True
  end.

(** What the device does to the tables itself. *)
Definition device_op (o : Op) : Prop :=
  match o with OForget _ | OReleaseFile _ | OReleaseDirectory _ | OEvents _ _ | OClear => op_ok o | _ => False end.

(** The configurations reached, with what was heard and the operations on the
    tables that were made. A program whose queue generation is over is told so
    ([Stale]). *)
Inductive reach (sz : Z) (s0 : State) : list Heard → list Op → Config → Prop :=
  | Begin : reach sz s0 [] [] (mkConfig s0 [] [])
  | StartRequest hs os s ls ws bs r io : reach sz s0 hs os (mkConfig s ls ws) → prepare_io sz bs r s = Ok io →
      reach sz s0 (hs ++ [Received r]) os (mkConfig s ls (ws ++ [Io.work io]))
  | StartEvent hs os s ls ws e : reach sz s0 hs os (mkConfig s ls ws) →
      reach sz s0 (hs ++ [Reported e]) os (mkConfig s ls (ws ++ [encode_event e]))
  | Answer hs os s ls ws i X (c : call X) k x : reach sz s0 hs os (mkConfig s ls ws) → ws !! i = Some (Call c k) →
      answers ls c x → reach sz s0 (hs ++ (Given <$> gives c x)) os (mkConfig s (ls ++ leaves c) (<[i := k x]> ws))
  | Locked hs os s ls ws i X (q : query X) k : reach sz s0 hs os (mkConfig s ls ws) → ws !! i = Some (With q k) →
      reach sz s0 hs (os ++ option_list (query_op q))
        (mkConfig (exec q s).2 (ls ++ opens q) (<[i := k (exec q s).1]> ws))
  | Stale hs os s ls ws i X (q : query X) k : reach sz s0 hs os (mkConfig s ls ws) → ws !! i = Some (With q k) →
      reach sz s0 hs os (mkConfig s ls (<[i := k (Err EIO)]> ws))
  | Operation hs os s ls ws o : reach sz s0 hs os (mkConfig s ls ws) → device_op o →
      reach sz s0 hs (os ++ [o]) (mkConfig (Nodes.step o s).2 ls ws)
  | Finished hs os s ls ws i : reach sz s0 hs os (mkConfig s ls ws) → reach sz s0 hs os (mkConfig s ls (delete i ws)).

Lemma run_snoc os o s : (Nodes.run (os ++ [o]) s).2 = (Nodes.step o (Nodes.run os s).2).2.
Proof. rewrite tables_run_app. destruct (Nodes.run os s) as [e s1]. cbn. by destruct (Nodes.step o s1). Qed.

(** [w] has everything that was heard. *)
Definition includes (w : World) (hs : list Heard) : Prop :=
  Forall (λ h, match h with
               | Received r => rmdir_ok w r
               | Reported e => reported w (fe_path e)
               | Given d => given w d
               end) hs.

Lemma world_includes d hs : includes (world d hs) hs.
Proof. apply Forall_forall. intros [r|e|x] H; cbn; [intros n Ho Hn; by exists r|by exists e|by right]. Qed.

Lemma answers_ok w ls {X} (c : call X) x : includes w (Given <$> gives c x) → Forall (listing_ok w) ls →
  answers ls c x → answer_ok w c x.
Proof.
  intros Hi Hl Ha. unfold includes in Hi. rewrite Forall_fmap in Hi. destruct c; try done; cbn in *.
  - destruct x; [|done]. by inversion_clear Hi.
  - destruct x; [|done]. by inversion_clear Hi.
  - rewrite Forall_forall in Hl. by apply Hl.
Qed.

Record inv (w : World) (s0 : State) (os : list Op) (c : Config) : Prop := {
  i_ops : Forall op_ok os;
  i_state : c_state c = (Nodes.run os s0).2;
  i_tables : state_ok w (c_state c);
  i_left : Forall (listing_ok w) (c_left c);
  i_work : Forall (λ p, safe w p (sat any)) (c_work c);
}.

Lemma locked_inv w s0 os s ls ws i X (q : query X) k : inv w s0 os (mkConfig s ls ws) → ws !! i = Some (With q k) →
  inv w s0 (os ++ option_list (query_op q)) (mkConfig (exec q s).2 (ls ++ opens q) (<[i := k (exec q s).1]> ws)).
Proof.
  intros [Hok Hst Hs Hl Hw] Hi. cbn in *. subst s. destruct (Forall_lookup_1 _ _ _ _ Hw Hi) as [Hq Hk]. split; cbn.
  - apply Forall_app. split; [done|]. destruct (query_op q) as [o|] eqn:Ho; [|done]. constructor; [by eapply query_op_ok|done].
  - rewrite exec_op. destruct (query_op q) as [o|]; cbn; [by rewrite run_snoc|by rewrite app_nil_r].
  - rewrite exec_op. destruct (query_op q) as [o|] eqn:Ho; [|done]. apply step_ok; [by eapply query_op_ok|done].
  - apply Forall_app. split; [done|]. destruct q; try done. by constructor.
  - apply Forall_insert; [done|]. by apply Hk, exec_answer.
Qed.

Lemma reach_inv w sz s0 hs os c : state_ok w s0 → reach sz s0 hs os c → includes w hs → inv w s0 os c.
Proof.
  intros H0. induction 1 as [|hs os s ls ws bs r io _ IH Hio|hs os s ls ws e _ IH|hs os s ls ws i X c k x _ IH Hi Hx
    |hs os s ls ws i X q k _ IH Hi|hs os s ls ws i X q k _ IH Hi|hs os s ls ws o _ IH Ho|hs os s ls ws i _ IH];
    intros Hh; [by split|..]; try (apply Forall_app in Hh as [Hh Hn]); specialize (IH Hh); [| | |by apply locked_inv|..];
    destruct IH as [Hok Hs Ht Hl Hw]; cbn in *; split; cbn; try done.
  - apply Forall_app. split; [done|]. constructor; [|done]. eapply prepare_io_safe; [done| |done]. by inversion_clear Hn.
  - apply Forall_app. split; [done|]. constructor; [|done]. apply encode_event_safe. by inversion_clear Hn.
  - apply Forall_app. split; [done|]. destruct (Forall_lookup_1 _ _ _ _ Hw Hi) as [Hc _]. destruct c; try done. by constructor.
  - apply Forall_insert; [done|]. destruct (Forall_lookup_1 _ _ _ _ Hw Hi) as [_ Hk]. by eapply Hk, answers_ok.
  - apply Forall_insert; [done|]. destruct (Forall_lookup_1 _ _ _ _ Hw Hi) as [_ Hk]. apply Hk. by destruct q.
  - apply Forall_app. split; [done|]. constructor; [by destruct o|done].
  - by rewrite run_snoc, <- Hs.
  - apply step_ok; [by destruct o|done].
  - by apply Forall_delete.
Qed.

(** The root node [configure] puts in the table has the preopened descriptor. *)
Definition root_node (d : Z) : Node := mkNode (Some d) None None.

(** C12. Confinement: from the state [configure] leaves with the preopened directory
    [d], whatever requests and file events arrive, whatever the host answers and
    however the work on them and the operations under the lock interleave, every
    host call the device is about to make is on descriptors the host gave it
    before, follows no symbolic link, and names a file by one component without a
    slash or NUL byte; the identity asked for on an event is by the path of that
    event or of its directory. The components [.] and [..] are never used to make,
    remove or rename an entry, and are used at all only if the guest sent an
    [RMDIR] of that name before. And the tables are those left by the sequence of
    operations made, so that they are well-formed. *)
Theorem host_paths_confined sz m st d hs os c :
  1 ≤ m → reach sz (configured m st (root_node d)) hs os c →
  (∀ i X (q : call X) k, c_work c !! i = Some (Call q k) → call_ok (world d hs) q)
  ∧ c_state c = (Nodes.run os (configured m st (root_node d))).2
  ∧ (zlen os < 2 ^ 63 → wf (c_state c)).
Proof.
  intros Hm Hr. assert (H0 : state_ok (world d hs) (configured m st (root_node d))).
  { split; [|intros id y; cbn; by rewrite lookup_empty..]. intros id r Hid. cbn in Hid.
    apply lookup_singleton_Some in Hid as [_ <-]. split; [by left|done]. }
  destruct (reach_inv (world d hs) sz _ hs os c H0 Hr (world_includes d hs)) as [Hok Hs _ _ Hw].
  split; [|split; [done|]].
  - intros i X q k Hi. by destruct (Forall_lookup_1 _ _ _ _ Hw Hi) as [Hq _].
  - intros Hl. rewrite Hs. pose proof (run_follows os 0 opening (configured m st (root_node d))) as H.
    rewrite Z.add_0_r in H. specialize (H ltac:(lia) Hok (configured_follows m st _ _ Hm Hl)). by destruct (Nodes.run os _), H.
Qed.

#[local] Definition wit_root : State :=
  configured 2 (mkStat 1 1 16877 1 1000 1000 0 0 (mkInstant 0 0) (mkInstant 0 0) (mkInstant 0 0)) (root_node 3).
(** LOOKUP of [a] in the root directory. *)
#[local] Definition wit_lookup : Request := mkRequest LOOKUP 7 1 [97; 0].
#[local] Lemma wit_reach :
  ∃ k, reach 24 wit_root [Received wit_lookup] [] (mkConfig wit_root [] [Call (StatAt 3 false [97]) k]).
Proof.
  eexists. refine (Locked 24 wit_root _ [] wit_root [] [entry_work 24 wit_lookup] 0 _ (QNode 1) _ _ eq_refl).
  refine (StartRequest 24 wit_root [] [] wit_root [] [] [] wit_lookup (Io.mkIo None (entry_work 24 wit_lookup)) _ eq_refl).
  constructor.
Defined.

Lemma host_paths_confined_witness : plain_name [97] ∧ wf wit_root.
Proof.
  destruct wit_reach as [k Hk].
  pose proof (host_paths_confined 24 2 _ 3 _ [] _ ltac:(lia) Hk) as (H1 & _ & H3).
  split; [|apply H3; reflexivity].
  destruct (H1 0%nat _ (StatAt 3 false [97]) k eq_refl) as (_ & _ & [H|[_ [H|H]]]); [exact H|discriminate H..].
Defined.

End Confine.
