(* ===== verification/FsListing.v ===== *)
(** * Reading a directory, page by page

    [Directory::readdir] of [components/fs/src/host.rs] asks the host for the
    identities of a round of entries at once, keeps those that are still there and
    goes on until the page is full. Here the page is shown to be what asking for one
    entry after the other gives, the cache to be what the host's stream of batches
    holds, and the guest that reads the pages of a directory by the cookies in them to
    see every entry once, in order. *)

From stdpp Require Import gmap.
From S2P Require Import Prelude SplitRing Dns PackedImage FsWire FsNodes FsIo FsHost FsRequests.

Local Open Scope Z_scope.

Module Listing.
Import Wire Host.

(** A host whose answers are fixed, but for the listing of the open directory, which one
    request leaves to the next. *)
Definition Oracle : Type := ∀ X, call X → X.
Definition Memory : Type := Nodes.State * OpenListing.

Definition answer {X} (h : Oracle) (c : call X) (m : Memory) : X * Memory :=
  match c in call X return call X → X * Memory with
  | LockDirectory _ => λ _, (m.2, m)
  | UnlockDirectory _ l => λ _, (tt, (m.1, l))
  | _ => λ c, (h _ c, m)
  end c.

Fixpoint eval {A} (h : Oracle) (p : prog A) (m : Memory) : A * Memory :=
  match p with
  | Ret a => (a, m)
  | Call c k => let '(x, m) := answer h c m in eval h (k x) m
  | With q k => let '(r, s) := exec q m.1 in eval h (k r) (s, m.2)
  end.

Lemma eval_bind {A B} h (p : prog A) (f : A → prog B) m :
  eval h (bind p f) m = let '(a, m) := eval h p m in eval h (f a) m.
Proof.
  revert m. induction p as [a|X c k IH|X q k IH]; intros m; cbn; [done| |].
  - destruct (answer h c m). apply IH.
  - destruct (exec q m.1). apply IH.
Qed.

Section Directory.
Context (h : Oracle) (d : Z).

Definition identity_of (e : HostEntry) : result Z (Z * Z) :=
  map_err wasi_error (h _ (MetadataHashAt d false (he_name e))).
Definition entry_size (e : HostEntry) : Z := pad8 (24 + zlen (he_name e)).
Definition listed (x : Z * HostEntry) (identity : Z * Z) : DirectoryEntry :=
  mkEntry (he_name x.2) identity.2 (he_type x.2) (x.1 + 1).

(** One entry after the other. *)
Fixpoint greedy (rest : list (Z * HostEntry)) (limit max : Z) (entries : list DirectoryEntry) (bytes : Z)
  : result Z (list DirectoryEntry) :=
  match rest with
  | [] => Ok entries
  | x :: rest =>
      if negb (zlen entries <? limit) || (max <? bytes + entry_size x.2) then Ok entries else
      match identity_of x.2 with
      | Ok i => greedy rest limit max (entries ++ [listed x i]) (bytes + entry_size x.2)
      | Err e => if e =? ENOENT then greedy rest limit max entries bytes else Err e
      end
  end.

Lemma identities_cons i e size cs s :
  (eval h (identities d ((i, e, size) :: cs)) s).1
  = (identity ← identity_of e; Ok (listed (i, e) identity, size)) :: (eval h (identities d cs) s).1
  ∧ (eval h (identities d cs) s).2 = s.
Proof.
  assert (Hs : ∀ cs, (eval h (identities d cs) s).2 = s).
  { clear. intros cs. induction cs as [|[[i e] size] cs IH]; [done|]. cbn [identities]. rewrite eval_bind. cbn [eval wasi answer].
    rewrite eval_bind. by destruct (eval h (identities d cs) s). }
  split; [|apply Hs]. cbn [identities]. rewrite eval_bind. cbn [eval wasi answer]. rewrite eval_bind.
  destruct (eval h (identities d cs) s). done.
Qed.

(** A round is a part of it. *)
Lemma greedy_round limit max s : ∀ rest slots gathered entries bytes,
  Z.of_nat slots ≤ limit - zlen entries → bytes ≤ gathered →
  greedy rest limit max entries bytes
  = (let '(cs, rest') := gather rest slots gathered max in
     c ← collect (eval h (identities d cs) s).1 entries bytes; greedy rest' limit max c.1 c.2).
Proof.
  induction rest as [|[i e] rest IH]; intros slots gathered entries bytes Hs Hb; [by destruct slots|].
  destruct slots as [|slots]; [done|]. cbn [gather]. fold (entry_size e).
  destruct (Z.ltb_spec max (gathered + entry_size e)) as [Hm|Hm]; [done|].
  cbn [greedy fst snd]. rewrite (proj2 (Z.ltb_lt _ _)), (proj2 (Z.ltb_ge _ _)) by lia. cbn [negb orb].
  destruct (identity_of e) as [id|er] eqn:Hi.
  - rewrite (IH slots (gathered + entry_size e)); [|rewrite zlen_app; unfold zlen in *; cbn; lia|lia].
    destruct (gather rest slots _ max) as [cs rest']. destruct (identities_cons i e (entry_size e) cs s) as [-> _].
    by rewrite Hi.
  - destruct (Z.eqb_spec er ENOENT) as [->|Her].
    + rewrite (IH slots (gathered + entry_size e)); [|lia|unfold entry_size; pose proof (zlen_nonneg (he_name e));
        destruct (pad8_bounds (24 + zlen (he_name e))); lia].
      destruct (gather rest slots _ max) as [cs rest']. destruct (identities_cons i e (entry_size e) cs s) as [-> _].
      by rewrite Hi.
    + destruct (gather rest slots _ max) as [cs rest']. destruct (identities_cons i e (entry_size e) cs s) as [-> _].
      rewrite Hi. cbn. by rewrite (proj2 (Z.eqb_neq er ENOENT)).
Qed.

Lemma gather_progress rest : ∀ slots b max, let '(cs, rest') := gather rest slots b max in
  (length rest = length cs + length rest')%nat
  ∧ (cs = [] → slots = 0%nat ∨ rest = [] ∨ ∃ x rest'', rest = x :: rest'' ∧ max < b + entry_size x.2).
Proof.
  induction rest as [|[i e] rest IH]; intros slots b max; destruct slots as [|slots]; cbn [gather];
    [by split; [|tauto]..|by split; [|tauto]|].
  fold (entry_size e). destruct (Z.ltb_spec max (b + entry_size e)) as [Hm|Hm].
  - split; [done|]. intros _. right. right. by exists (i, e), rest.
  - specialize (IH slots (b + entry_size e) max). destruct (gather rest slots _ max) as [cs rest']. destruct IH as [IH _].
    split; [cbn; lia|done].
Qed.

Lemma readdir_loop_greedy limit max s : ∀ rounds rest entries bytes,
  (length rest < rounds)%nat →
  eval h (readdir_loop rounds d rest limit max entries bytes) s = (greedy rest limit max entries bytes, s).
Proof.
  induction rounds as [|rounds IH]; intros rest entries bytes Hr; [lia|]. cbn [readdir_loop].
  destruct (Z.ltb_spec (zlen entries) limit) as [Hl|Hl]; cbn [negb].
  - pose proof (greedy_round limit max s rest (Z.to_nat (limit - zlen entries)) bytes entries bytes ltac:(lia) ltac:(lia)) as Hg.
    pose proof (gather_progress rest (Z.to_nat (limit - zlen entries)) bytes max) as Hp.
    destruct (gather rest _ bytes max) as [cs rest']. destruct Hp as [Hlen Hnil].
    destruct (decide (cs = [])) as [->|Hcs].
    + rewrite bool_decide_eq_true_2 by done. cbn [eval ok]. f_equal. destruct Hnil as [?|[->|(x & rest'' & -> & Hx)]]; [done|lia|done|].
      cbn [greedy]. by rewrite (proj2 (Z.ltb_lt max _)), orb_true_r.
    + rewrite bool_decide_eq_false_2 by done. rewrite eval_bind.
      assert (Hs : (eval h (identities d cs) s).2 = s) by (destruct cs as [|[[i e] z] cs]; [done|]; apply (identities_cons i e z)).
      destruct (eval h (identities d cs) s) as [rs s']. cbn in Hs, Hg. subst s'. rewrite Hg.
      destruct (collect rs entries bytes) as [[es b]|er]; cbn [on_ok mbind result_bind fst snd]; [|done].
      apply IH. destruct cs; [done|]. cbn in Hlen. lia.
  - cbn [eval ok]. f_equal. destruct rest; [done|]. cbn [greedy]. by rewrite (proj2 (Z.ltb_ge _ _)).
Qed.

(** The entries that are still there. *)
Definition present (rest : list (Z * HostEntry)) : list DirectoryEntry :=
  omap (λ x, match identity_of x.2 with Ok i => Some (listed x i) | Err _ => None end) rest.

Lemma present_app a b : present (a ++ b) = present a ++ present b.
Proof. apply omap_app. Qed.

(** An entry the host can still identify, or one that is gone. *)
Definition settled (e : HostEntry) : Prop :=
  match identity_of e with Ok i => u64 i.2 | Err er => er = ENOENT end.

Definition page_bytes (p : list DirectoryEntry) : Z := zlen (concat (dirent <$> p)).

Lemma page_bytes_app p q : page_bytes (p ++ q) = page_bytes p + page_bytes q.
Proof. unfold page_bytes. by rewrite fmap_app, concat_app, zlen_app. Qed.

Lemma page_bytes_listed x i : page_bytes [listed x i] = entry_size x.2.
Proof. unfold page_bytes. rewrite fmap_cons, fmap_nil. cbn [concat]. rewrite app_nil_r. exact (dirent_zlen (listed x i)). Qed.

Lemma greedy_spec limit max rest : ∀ entries,
  Forall (λ x, settled x.2 ∧ entry_size x.2 ≤ max) rest → page_bytes entries ≤ max → 0 < limit →
  ∃ a b, rest = a ++ b ∧ greedy rest limit max entries (page_bytes entries) = Ok (entries ++ present a)
    ∧ page_bytes (entries ++ present a) ≤ max ∧ (entries ++ present a = [] → b = []).
Proof.
  induction rest as [|x rest IH]; intros entries Hr Hb Hl.
  { exists [], []. cbn. by rewrite app_nil_r. }
  apply Forall_cons in Hr as [[Hx Hsz] Hr]. cbn [greedy].
  destruct (negb (zlen entries <? limit) || (max <? page_bytes entries + entry_size x.2)) eqn:Hstop.
  { exists [], (x :: rest). cbn. rewrite app_nil_r. split_and!; try done. intros ->. exfalso. revert Hstop.
    change (page_bytes []) with 0. change (zlen []) with 0.
    rewrite (proj2 (Z.ltb_lt 0 limit)), (proj2 (Z.ltb_ge _ _)) by lia. done. }
  apply orb_false_iff in Hstop as [_ Hfit]. breflect. unfold settled in Hx.
  destruct (identity_of x.2) as [i|er] eqn:Hi.
  - destruct (IH (entries ++ [listed x i])) as (a & b & -> & Hg & Hp & Hn); [done| |done|].
    { rewrite page_bytes_app, page_bytes_listed. lia. }
    rewrite page_bytes_app, page_bytes_listed in Hg. exists (x :: a), b.
    assert (Hpres : present (x :: a) = listed x i :: present a) by (unfold present; cbn; by rewrite Hi).
    rewrite Hpres. rewrite <- app_assoc in Hg, Hp, Hn. split_and!; done.
  - subst er. rewrite Z.eqb_refl. destruct (IH entries) as (a & b & -> & Hg & Hp & Hn); [done..|].
    exists (x :: a), b. assert (Hpres : present (x :: a) = present a) by (unfold present; cbn; by rewrite Hi).
    by rewrite Hpres.
Qed.

(** The last entry of a page is where the next one starts. *)
Lemma present_last a : present a ≠ [] →
  ∃ a1 x a2 i, a = a1 ++ x :: a2 ∧ present a = present a1 ++ [listed x i] ∧ present a2 = [].
Proof.
  induction a as [|y a IH] using rev_ind; intros Ha; [done|]. rewrite present_app in Ha |- *. unfold present in Ha at 2. unfold present at 2. cbn in *.
  destruct (identity_of y.2) as [i|er] eqn:Hi.
  - exists a, y, [], i. done.
  - rewrite app_nil_r in Ha |- *. destruct (IH Ha) as (a1 & x & a2 & i & -> & Hp & H2).
    exists a1, x, (a2 ++ [y]), i. split; [by rewrite <- app_assoc|]. split; [done|]. rewrite present_app, H2. cbn. by rewrite Hi.
Qed.

Lemma dirents_all p max : page_bytes p ≤ max → dirents_out p max = concat (dirent <$> p).
Proof.
  intros Hp. unfold dirents_out. destruct (dirents_loop_spec p max []) as (k & Hk & _ & Hm). rewrite Hk in Hm |- *. cbn [app] in *.
  destruct (p !! k) as [e|] eqn:He; [|by rewrite Hm]. exfalso.
  rewrite <- (take_drop_middle p k e He), page_bytes_app in Hp. unfold page_bytes in Hp at 2.
  rewrite fmap_cons in Hp. cbn [concat] in Hp. rewrite zlen_app in Hp. unfold page_bytes in Hp.
  pose proof (zlen_nonneg (concat (dirent <$> drop (S k) p))). lia.
Qed.

(** ** The cache *)

Context (sz : Z).

Definition name_bytes (es : list HostEntry) : Z := sumZ ((λ e, zlen (he_name e)) <$> es).
Definition cache_bytes (es : list HostEntry) : Z := sumZ ((λ e, he_capacity e + 2 * sz) <$> es).

(** Entries within the limits of the cache. *)
Record cacheable (es : list HostEntry) : Prop := {
  ca_count : zlen es ≤ 65536;
  ca_names : name_bytes es ≤ Z.shiftl 8 20;
  ca_bytes : 0 ≤ sz ∧ Forall (λ e, 0 ≤ he_capacity e) es ∧ cache_bytes es ≤ MAX_DIRECTORY_CACHE_BYTES;
}.

Lemma name_bytes_app a b : name_bytes (a ++ b) = name_bytes a + name_bytes b.
Proof. unfold name_bytes. by rewrite fmap_app, sumZ_app. Qed.
Lemma cache_bytes_app a b : cache_bytes (a ++ b) = cache_bytes a + cache_bytes b.
Proof. unfold cache_bytes. by rewrite fmap_app, sumZ_app. Qed.

Lemma name_bytes_nonneg es : 0 ≤ name_bytes es.
Proof. apply sumZ_nonneg, Forall_fmap, Forall_true. intros e. apply zlen_nonneg. Qed.
Lemma cache_bytes_nonneg es : 0 ≤ sz → Forall (λ e, 0 ≤ he_capacity e) es → 0 ≤ cache_bytes es.
Proof. intros Hz He. apply sumZ_nonneg, Forall_fmap. eapply Forall_impl; [exact He|]. cbn. lia. Qed.

Lemma batch_bytes_sum batch : ∀ n c, 0 ≤ sz → Forall (λ e, 0 ≤ he_capacity e) batch → 0 ≤ n → 0 ≤ c →
  n + name_bytes batch ≤ U32_MAX → c + cache_bytes batch ≤ U32_MAX →
  batch_bytes sz batch n c = Some (n + name_bytes batch, c + cache_bytes batch).
Proof.
  induction batch as [|e batch IH]; intros n c Hz He Hn Hc Hnb Hcb.
  { cbn. unfold name_bytes, cache_bytes. change (sumZ []) with 0. by rewrite !Z.add_0_r. }
  apply Forall_cons in He as [He Hbatch]. unfold name_bytes in Hnb. unfold cache_bytes in Hcb. rewrite !fmap_cons, !sumZ_cons in *.
  fold (name_bytes batch) in *. fold (cache_bytes batch) in *.
  pose proof (zlen_nonneg (he_name e)). pose proof (name_bytes_nonneg batch). pose proof (cache_bytes_nonneg batch Hz Hbatch).
  cbn [batch_bytes]. unfold checked_add32. repeat (rewrite (proj2 (Z.leb_le _ U32_MAX)) by lia; cbn [mbind option_bind]).
  rewrite IH by (done || lia).
  unfold name_bytes at 2, cache_bytes at 2. rewrite !fmap_cons, !sumZ_cons. fold (name_bytes batch). fold (cache_bytes batch). do 2 f_equal; lia.
Qed.

(** The loop keeps every batch. *)
Lemma cache_loop_all batches m : ∀ es n res,
  (∀ k, h _ (GrowReservation k) = true) → cacheable (es ++ concat batches) → n = name_bytes es →
  ∃ res', eval h (cache_loop sz batches (Ok tt) es n res) m = (Ok (es ++ concat batches, res'), m).
Proof.
  induction batches as [|batch batches IH]; intros es n res Hg Hc ->; cbn [cache_loop concat] in *.
  { exists res. by rewrite app_nil_r. }
  rewrite app_assoc in Hc |- *. pose proof Hc as [Hcount Hnames (Hz & Hcap & Hbytes)].
  rewrite !name_bytes_app in Hnames. rewrite !cache_bytes_app in Hbytes. rewrite !zlen_app in Hcount.
  rewrite !Forall_app in Hcap. destruct Hcap as [[Hc1 Hc2] Hc3].
  pose proof (name_bytes_nonneg es). pose proof (name_bytes_nonneg batch). pose proof (name_bytes_nonneg (concat batches)).
  pose proof (cache_bytes_nonneg es Hz Hc1). pose proof (cache_bytes_nonneg batch Hz Hc2). pose proof (cache_bytes_nonneg _ Hz Hc3).
  pose proof (zlen_nonneg (concat batches)). assert (HM : MAX_DIRECTORY_CACHE_BYTES ≤ U32_MAX) by done. assert (HN : Z.shiftl 8 20 ≤ U32_MAX) by done.
  rewrite batch_bytes_sum by (done || lia). cbn [mbind]. rewrite !Z.add_0_l. unfold checked_add32.
  rewrite (proj2 (Z.leb_le (name_bytes es + _) U32_MAX)) by lia. cbn [bind ask eval answer]. rewrite Hg. cbn [negb].
  rewrite (proj2 (Z.ltb_ge 65536 _)), (proj2 (Z.ltb_ge (Z.shiftl 8 20) _)) by lia. cbn [orb].
  apply IH; [done|done|]. by rewrite name_bytes_app.
Qed.

(** ** A directory that does not change *)

Context (handle size : Z) (batches : list (list HostEntry)) (s : Nodes.State).

(** The entries of the host's stream. *)
Definition es : list HostEntry := concat batches.

(** The guest has [handle] for it; the host's stream of its entries ends well, and they fit
    in the cache, for which there is room; each entry fits in a reply of [size] bytes; and
    the host identifies the entries or says they are gone. *)
Record stable : Prop := {
  st_handle : u64 handle ∧ is_Some (Nodes.directories s !! handle);
  st_stream : h _ (ReadDirectory d) = (batches, Ok tt);
  st_cache : cacheable es ∧ ∀ k, h _ (GrowReservation k) = true;
  st_entries : Forall (λ e, settled e ∧ entry_size e ≤ size) es;
  st_bounds : 0 ≤ size < 2 ^ 32;
}.

(** The listing has been read. *)
Definition cached (l : OpenListing) : Prop := ∃ reserved, l = mkListing d (Some (es, reserved)).

Lemma stable_count : stable → zlen es ≤ U32_MAX.
Proof. intros S. destruct (st_cache S) as [[Hc _ _] _]. unfold U32_MAX. lia. Qed.

Lemma cache_entries_all l s' : stable → l_descriptor l = d →
  ∃ l', eval h (cache_entries sz l) (s, s') = (Ok l', (s, s')) ∧ cached l'.
Proof.
  intros S Hl. destruct (st_cache S) as [Hc Hg]. destruct (cache_loop_all batches (s, s') [] 0 0 Hg Hc eq_refl) as [res Hr].
  unfold cache_entries. cbn [bind ask eval answer]. rewrite Hl, (st_stream S). unfold and_then. cbn [fst snd].
  rewrite eval_bind, Hr. cbn [eval ok]. eexists. split; [done|]. by exists res.
Qed.

Lemma readdir_eval cookie l s' : stable → 0 ≤ cookie ≤ U32_MAX → l_descriptor l = d → cookie = 0 ∨ cached l →
  ∃ l', eval h (readdir sz l cookie 256 size) (s, s') = (greedy (enumerate_from cookie es) 64 size [] 0, l', (s, s')) ∧ cached l'.
Proof.
  intros S Hc Hd Hl.
  assert (Hloop : ∀ l', cached l' → eval h (if U32_MAX <? cookie then Ret (Err EINVAL, l') else
      match l_entries l' with
      | None => Ret (Err EIO, l')
      | Some (es, _) => r ⇐ readdir_loop (Datatypes.S (length (enumerate_from cookie es))) (l_descriptor l') (enumerate_from cookie es)
                              (Z.min 256 64) size [] 0; Ret (r, l')
      end) (s, s') = (greedy (enumerate_from cookie es) 64 size [] 0, l', (s, s'))).
  { intros l' [res ->]. rewrite (proj2 (Z.ltb_ge U32_MAX cookie)) by lia. cbn [l_entries l_descriptor].
    rewrite eval_bind, readdir_loop_greedy by lia. done. }
  unfold readdir. rewrite eval_bind. destruct (Z.eqb_spec cookie 0) as [->|Hz].
  - assert (Hdrop : eval h (drop_listing l) (s, s') = (mkListing d None, (s, s'))).
    { unfold drop_listing. destruct l as [d' [[es' res]|]]; cbn in Hd |- *; by rewrite Hd. }
    rewrite Hdrop. cbn [fst snd]. rewrite eval_bind. cbn [l_entries].
    destruct (cache_entries_all (mkListing d None) s' S eq_refl) as (l' & -> & Hl'). cbn [eval]. exists l'. split; [|done]. by apply Hloop.
  - destruct Hl as [|Hl]; [done|]. exists l. split; [|done]. cbn [eval]. rewrite eval_bind. pose proof Hl as [res ->]. cbn [l_entries eval ok].
    by apply Hloop.
Qed.

(** The READDIR request for the page at [cookie]. *)
Definition readdir_request (cookie : Z) : Request :=
  mkRequest READDIR 1 1 (le_bytes 8 handle ++ le_bytes 8 cookie ++ le_bytes 4 size ++ zeros 20).

Lemma readdir_fields cookie : u64 handle → u64 cookie → 0 ≤ size < 2 ^ 32 →
  let b := body (readdir_request cookie) in
  u64_at b 0 = Ok handle ∧ u64_at b 8 = Ok cookie ∧ u32_at b 16 = Ok size.
Proof.
  intros Hh Hc Hs b. unfold u64_at, u32_at.
  assert (H1 : slice b 0 (0 + 8) = Some (le_bytes 8 handle)) by (apply (slice_mid [] (le_bytes 8 handle))).
  assert (H2 : slice b 8 (8 + 8) = Some (le_bytes 8 cookie)) by (apply (slice_mid (le_bytes 8 handle) (le_bytes 8 cookie))).
  assert (H3 : slice b 16 (16 + 4) = Some (le_bytes 4 size)).
  { subst b. cbn [body readdir_request]. rewrite app_assoc.
    apply (slice_mid (le_bytes 8 handle ++ le_bytes 8 cookie) (le_bytes 4 size)). }
  rewrite H1, H2, H3. cbn [fmap option_fmap option_map ok_or]. unfold u64 in *. rewrite !from_le_le_bytes by (cbn; lia). done.
Qed.

(** What the request is answered with, and the listing it leaves. *)
Definition reply_page (cookie : Z) (l : OpenListing) : result Z (list Z) * OpenListing :=
  let '(r, m) := eval h (Requests.execute sz (readdir_request cookie)) (s, l) in (r, m.2).

Lemma reply_page_eval cookie l : stable → 0 ≤ cookie ≤ U32_MAX → l_descriptor l = d → cookie = 0 ∨ cached l →
  ∃ l', reply_page cookie l = ((p ← greedy (enumerate_from cookie es) 64 size [] 0; Ok (dirents_out p size)), l') ∧ cached l'.
Proof.
  intros S Hc Hd Hl. destruct (st_handle S) as [Hh [dir Hdir]]. pose proof (st_bounds S) as Hs.
  assert (Hc' : u64 cookie) by (unfold u64, U32_MAX in *; lia).
  destruct (readdir_fields cookie Hh Hc' Hs) as (F1 & F2 & F3). cbn zeta in F1, F2, F3.
  destruct (readdir_eval cookie l l S Hc Hd Hl) as (l' & Hr & Hl'). exists l'. split; [|done]. unfold reply_page.
  change (Requests.execute sz (readdir_request cookie)) with (Requests.read_directory sz (readdir_request cookie)).
  unfold Requests.read_directory. rewrite F1, F2, F3. cbn [on_ok].
  unfold and_then. rewrite eval_bind. cbn [eval with_ exec fst snd]. unfold Nodes.directory. rewrite Hdir. cbn [mbind result_bind ok_or].
  cbn [eval]. rewrite eval_bind. cbn [eval ask answer fst snd]. rewrite eval_bind, Hr.
  rewrite eval_bind. cbn [eval ask answer fst snd]. by destruct (greedy _ _ _ _ _).
Qed.

(** The guest: it reads the pages one after the other, each from the cookie of the
    last entry it has seen, until one is empty. *)
Fixpoint guest_reads (pages : nat) (cookie : Z) (l : OpenListing) : list (Z * Z * Z * list Z) :=
  match pages with
  | O => []
  | S pages =>
      let '(r, l) := reply_page cookie l in
      match r with
      | Err _ => []
      | Ok out =>
          let seen := read_dirents (length out) out in
          match last seen with
          | None => []
          | Some (_, next, _, _) => seen ++ guest_reads pages next l
          end
      end
  end.

Lemma enumerate_index i x : enumerate_from 0 es !! i = Some x → x.1 = Z.of_nat i ∧ es !! i = Some x.2.
Proof.
  unfold enumerate_from. rewrite drop_0. rewrite lookup_zip_with_Some. intros (a & b & -> & Ha & Hb).
  apply lookup_seqZ in Ha as [-> ?]. cbn. by rewrite Z.add_0_l.
Qed.

Lemma enumerate_drop cookie : enumerate_from cookie es = drop (Z.to_nat cookie) (enumerate_from 0 es).
Proof. unfold enumerate_from. by rewrite drop_0. Qed.
Lemma rest_ok cookie : stable → Forall (λ x, settled x.2 ∧ entry_size x.2 ≤ size) (enumerate_from cookie es).
Proof.
  intros S. rewrite enumerate_drop. apply Forall_drop, Forall_lookup_2. intros i x Hx%enumerate_index.
  exact (Forall_lookup_1 _ _ _ _ (st_entries S) (proj2 Hx)).
Qed.

Lemma present_typed cookie a b : stable → enumerate_from cookie es = a ++ b → Forall entry_typed (present a).
Proof.
  intros S Ha. assert (Hrest := rest_ok cookie S). rewrite Ha in Hrest. apply Forall_app in Hrest as [Hrest _].
  apply Forall_forall. intros e He. apply list_elem_of_omap in He as (x & Hx & Hi).
  rewrite Forall_forall in Hrest. destruct (Hrest x Hx) as [Hset Hsize]. unfold settled in Hset.
  destruct (identity_of x.2) as [i|]; [|done]. injection Hi as <-.
  assert (Hin : x ∈ enumerate_from 0 es).
  { assert (Hd : x ∈ enumerate_from cookie es) by (rewrite Ha; apply elem_of_app; by left).
    rewrite enumerate_drop in Hd. rewrite <- (take_drop (Z.to_nat cookie) (enumerate_from 0 es)). apply elem_of_app. by right. }
  apply list_elem_of_lookup in Hin as (k & Hk). destruct (enumerate_index k x Hk) as [Hk1 Hk2].
  apply lookup_lt_Some in Hk2. pose proof (st_bounds S) as Hs. pose proof (stable_count S) as Hes. unfold U32_MAX, zlen in *.
  destruct (pad8_bounds (24 + zlen (he_name x.2))) as [Hpad _]; [pose proof (zlen_nonneg (he_name x.2)); unfold zlen in *; lia|].
  unfold entry_size in Hsize. unfold entry_typed, u64, U32_MAX, zlen in *. cbn [listed e_inode e_next e_name]. lia.
Qed.

Lemma page_read cookie a b : stable → enumerate_from cookie es = a ++ b → page_bytes (present a) ≤ size →
  let out := dirents_out (present a) size in read_dirents (length out) out = seen <$> present a.
Proof.
  intros S Ha Hp out. subst out. rewrite dirents_all by done. apply read_all_dirents; [|done]. by eapply present_typed.
Qed.

Lemma guest_reads_rest pages : ∀ cookie l, stable → 0 ≤ cookie ≤ zlen es → l_descriptor l = d → cookie = 0 ∨ cached l →
  (length (enumerate_from cookie es) < pages)%nat → guest_reads pages cookie l = seen <$> present (enumerate_from cookie es).
Proof.
  induction pages as [|pages IH]; intros cookie l S Hc Hd Hl Hlen; [lia|]. cbn [guest_reads].
  pose proof (st_bounds S) as Hs. pose proof (stable_count S) as Hes.
  destruct (reply_page_eval cookie l S ltac:(lia) Hd Hl) as (l' & -> & Hl').
  destruct (greedy_spec 64 size (enumerate_from cookie es) []) as (a & b & Hab & Hg & Hp & Hn);
    [by apply rest_ok|change (page_bytes []) with 0; lia|done|].
  change (page_bytes []) with 0 in Hg. rewrite Hg. cbn [app mbind result_bind] in *.
  rewrite (page_read cookie a b S Hab Hp). destruct (decide (present a = [])) as [Hnil|Hne].
  { rewrite Hnil. cbn. rewrite (Hn Hnil), app_nil_r in Hab. by rewrite Hab, Hnil. }
  destruct (present_last a Hne) as (a1 & x & a2 & i & Ha & Hpa & Hp2). rewrite Hpa, fmap_app, fmap_cons, fmap_nil, last_snoc.
  assert (Hx : x.1 = cookie + Z.of_nat (length a1)).
  { assert (Hlk : enumerate_from cookie es !! length a1 = Some x).
    { rewrite Hab, Ha, <- app_assoc. by rewrite lookup_app_r, Nat.sub_diag by done. }
    rewrite enumerate_drop, lookup_drop in Hlk. apply enumerate_index in Hlk as [-> _]. lia. }
  assert (Hnext : enumerate_from (x.1 + 1) es = a2 ++ b).
  { rewrite enumerate_drop, Hx. replace (Z.to_nat (cookie + Z.of_nat (length a1) + 1)) with (Z.to_nat cookie + (length a1 + 1))%nat by lia.
    rewrite <- drop_drop, <- enumerate_drop, Hab, Ha, <- app_assoc.
    rewrite <- drop_drop, drop_app_length. done. }
  assert (Hlast : (x.1 + 1 ≤ zlen es)%Z).
  { assert (Hle : (length (enumerate_from cookie es) ≤ length es - Z.to_nat cookie)%nat).
    { unfold enumerate_from. rewrite length_drop, length_zip_with. lia. }
    rewrite Hab, Ha, !length_app in Hle. cbn [length] in Hle. unfold zlen in *. lia. }
  change (seen (listed x i)) with (i.2, x.1 + 1, dirent_type (he_type x.2), he_name x.2). cbv iota beta.
  rewrite IH; [|done|lia|by destruct Hl' as [res ->]|by right|].
  - rewrite Hnext, Hab, !present_app, Hpa, Hp2, !fmap_app. done.
  - rewrite Hnext. rewrite Hab, Ha, !length_app in Hlen. cbn [length] in Hlen. rewrite length_app. lia.
Qed.
End Directory.


(** A host with the files [a], [b] and [c], of which [b] is removed while they are
    listed. *)
#[local] Definition wit_entry (c : Z) : HostEntry := mkHostEntry [c] RegularFile 1.
#[local] Definition wit_batches : list (list HostEntry) := [[wit_entry 97; wit_entry 98]; [wit_entry 99]].
#[local] Definition wit_time : Instant := mkInstant 0 0.
#[local] Definition wit_host : Oracle := λ X c,
  match c in call X return X with
  | StatAt _ _ _ | DescStat _ => Ok (mkDescriptorStat RegularFile 1 0 None None None)
  | MetadataHashAt _ _ p => if bool_decide (p = [98]) then Err NoEntry else Ok (1, 10 + zlen p)
  | MetadataHash _ => Ok (1, 1)
  | OpenAt _ _ _ _ _ => Ok 4
  | ReadlinkAt _ _ => Ok []
  | SetTimesAt _ _ _ _ _ | CreateDirectoryAt _ _ | RemoveDirectoryAt _ _ | UnlinkFileAt _ _ | RenameAt _ _ _ _
  | LinkAt _ _ _ _ _ | SymlinkAt _ _ _ | SetSize _ _ | SetTimes _ _ _ | Sync _ | SyncData _ => Ok tt
  | GetModeAt _ _ | GetMode _ => Ok None
  | SetModeAt _ _ _ | SetMode _ _ | ReleaseDescriptor _ => Ok tt
  | OpenMetadataAt _ _ => Err EUnsupported
  | GetType _ => Ok Wire.Directory
  | GetFlags _ => Ok READ_ONLY
  | Statfs _ => Err EUnsupported
  | ReadDirectory _ => (wit_batches, Ok tt)
  | ReadViaStream _ _ => ([], Ok tt)
  | WriteViaStream _ _ _ => ([], Ok tt)
  | GetDirectories => [3]
  | Race | SoleOwner | GrowReservation _ => true
  | DropReservation _ | UnlockDirectory _ _ => tt
  | LockDirectory _ => mkListing 3 None
  end.
#[local] Definition wit_state : Nodes.State :=
  (Nodes.store_directory 1 3 (Nodes.configured 2 (mkStat 1 1 16877 1 1000 1000 0 0 wit_time wit_time wit_time)
    (Nodes.mkNode (Some 3) None None))).2.

End Listing.
