(* ===== verification/FsDevice.v ===== *)
(** * The file system device on its queues

    [components/fs/src/transport.rs]: requests are taken from the two virtqueues,
    answered at once or given to the scheduler, and completed; a reset of the device
    starts a new generation of the queues, and what was taken in an older one is not
    answered any more.

    The state [world] has the device's statics, guest memory, the interrupt line, the
    scheduler of [run] and a log of what was taken from a queue and of what was
    completed. One operation is what runs between two [await]s; the work on requests
    is what the scheduler polls, and changes the tables by the operations of [Nodes]
    ([FsConfine]). *)

From stdpp Require Import gmap.
From S2P Require Import Prelude Limits MemoryApi HostMemory SplitRing GuestCopy Mmio Doorbell Device Dns PackedImage FsWire FsNodes FsIo FsHost FsRequests.

Local Open Scope Z_scope.

Module FsDevice.
Import Device.
Import Wire (u32_at, u64_at).
Import Nodes (PendingReply, mkPending, p_queue, p_head, p_output, p_unique, p_reset_count,
  EventRequest, mkEventRequest, er_reply, er_waiting, event_request, events_enabled).
Import Io (CompletedIo, c_reply, c_result).

Definition HIPRIO_QUEUE : Z := 0.
Definition REQUEST_QUEUE : Z := 1.
Definition STATUS : Z := 0x70.
Definition QUEUE_SIZE : Z := 256.
Definition DEVICE_ID : Z := 26.
Definition MAX_CHAIN : Z := 32.
Definition MAX_REQUEST : Z := 128 * 1024.

Record Transport := mkTransport {
  mmio : Transport.MmioTransport;
  next : list Z;
  reset_count : Z;
}.

Definition next_of (queue : Z) (t : Transport) : Z := default 0 (next t !! Z.to_nat queue).
Definition set_next (queue n : Z) (t : Transport) : Transport :=
  mkTransport (mmio t) (<[Z.to_nat queue := n]> (next t)) (reset_count t).
Definition set_mmio (m : Transport.MmioTransport) (t : Transport) : Transport := mkTransport m (next t) (reset_count t).

Definition invalidate_queues (t : Transport) : Transport := mkTransport (mmio t) [0; 0] ((reset_count t + 1) mod 2 ^ 64).

(** A request taken from a queue, or one completed there, in a generation. *)
Inductive event :=
  | Taken (generation queue head : Z)
  | Finished (generation queue head len : Z).

Section FsDevice.
Context {H E W : Type} `{GM : !GuestMemory H E} `{!AtomicWaker W}.
(** [usize] on the component's target, its allocator, the RAM limit, and
    [size_of_val] of a directory entry. *)
Context (usize_max : Z) (try_reserve : Z → bool) (address_limit entry_size : Z).

Record world := mkWorld {
  mem : H;
  line : bool;
  bell : Doorbell.t W;
  next_queue : Z;
  st : option Transport;
  tables : option Nodes.State;
  sched : Io.IoScheduler (Work := Requests.Work);
  known : Z;
  log : list event;
}.

Definition set_mem x w := mkWorld x (line w) (bell w) (next_queue w) (st w) (tables w) (sched w) (known w) (log w).
Definition set_line x w := mkWorld (mem w) x (bell w) (next_queue w) (st w) (tables w) (sched w) (known w) (log w).
Definition set_bell x w := mkWorld (mem w) (line w) x (next_queue w) (st w) (tables w) (sched w) (known w) (log w).
Definition set_next_queue x w := mkWorld (mem w) (line w) (bell w) x (st w) (tables w) (sched w) (known w) (log w).
Definition set_st x w := mkWorld (mem w) (line w) (bell w) (next_queue w) x (tables w) (sched w) (known w) (log w).
Definition set_tables x w := mkWorld (mem w) (line w) (bell w) (next_queue w) (st w) x (sched w) (known w) (log w).
Definition set_sched x w := mkWorld (mem w) (line w) (bell w) (next_queue w) (st w) (tables w) x (known w) (log w).
Definition set_known x w := mkWorld (mem w) (line w) (bell w) (next_queue w) (st w) (tables w) (sched w) x (log w).
Definition add_log x w := mkWorld (mem w) (line w) (bell w) (next_queue w) (st w) (tables w) (sched w) (known w) (log w ++ [x]).

(** ** The transport *)

Definition transport {A} (f : stM Transport DeviceError A) : stM world DeviceError A :=
  λ w,
  match st w with
  | None => (Err NotReady, w)
  | Some t =>
    let '(result, t) := f t in
    let '(irq, m) := Transport.take_irq (mmio t) in
    let w := set_st (Some (set_mmio m t)) w in
    (result, match irq with Some asserted => set_line asserted w | None => w end)
  end.

Definition current_reset_count : stM world DeviceError Z := transport (λ t, (Ok (reset_count t), t)).

Definition queue_work (queue : Z) (w : world) : world :=
  if (queue =? HIPRIO_QUEUE) || (queue =? REQUEST_QUEUE)
  then set_bell (Doorbell.ring (Z.shiftl 1 queue) (bell w)).1 w else w.

Definition queue_work_if_current (queue expected : Z) : stM world DeviceError unit :=
  (c <- current_reset_count;; λ w, (Ok tt, if c =? expected then queue_work queue w else w))%st.

(** The queues in turn, from the one after the last that had work. *)
Definition take_work (w : world) : option Z * world :=
  let '(pending, b) := Doorbell.take (bell w) in
  let w := set_bell b w in
  let try_queue queue w :=
    if negb (Z.land pending (Z.shiftl 1 queue) =? 0)
    then Some (set_next_queue ((queue + 1) mod 2)
                 (set_bell (Doorbell.ring (Z.land pending (not32 (Z.shiftl 1 queue))) (bell w)).1 w))
    else None in
  let first := next_queue w mod 2 in
  let second := (next_queue w + 1) mod 2 in
  match try_queue first w with
  | Some w => (Some first, w)
  | None => match try_queue second w with Some w => (Some second, w) | None => (None, w) end
  end.

Definition clear_work (w : world) : world := set_next_queue 0 (set_bell (Doorbell.clear (bell w)) w).

(** ** Guest memory and rings *)

Definition read_guest_memory (ranges : list (Z * Z)) : stM H DeviceError (list Z) :=
  @read_guest_ranges H DeviceError host_memory from_copy usize_max try_reserve ranges.
Definition write_guest_memory (ranges : list (Z * list Z)) : stM H DeviceError unit :=
  @GuestCopy.write_guest_ranges H DeviceError host_memory from_copy usize_max ranges.

Definition read (addr len : Z) : stM H DeviceError (list Z) :=
  if MAX_REQUEST <? len then st_err TooLarge else read_guest_memory [(addr, len)].
Definition write (addr : Z) (bs : list Z) : stM H DeviceError unit :=
  if MAX_REQUEST <? zlen bs then st_err TooLarge else write_guest_memory [(addr, bs)].

Definition on_memory {A} (f : stM H DeviceError A) : stM world DeviceError A :=
  λ w, let '(r, h) := f (mem w) in (r, set_mem h w).

(** The head, the descriptor table, the used ring and the size of the queue. *)
Definition available (queue : Z) : stM world DeviceError (option (Z * Z * Z * Z)) :=
  (q <- transport (λ t,
     (if Z.land (Transport.negotiated (mmio t)) Transport.VIRTIO_F_VERSION_1 =? 0 then Err NotReady else
      addrs ← ok_or NotReady (Transport.queue_addrs_for queue (mmio t));
      Ok (addrs, next_of queue t, reset_count t), t));;
   let '(desc, avail, used, size, n, generation) := q in
   λ w,
   let '(r, h, n) := read_split_ring_available from_mmio read avail size n (mem w) in
   let w := set_mem h w in
   match r with
   | Err e => (Err e, w)
   | Ok (_, head) =>
     (current <- transport (λ t,
        if negb (generation =? reset_count t) then (Ok false, t) else (Ok true, set_next queue n t));;
      st_ret (if current : bool then (λ head, (head, desc, used, size)) <$> head else None))%st w
   end)%st.

Definition complete (queue head used : Z) : stM world DeviceError unit :=
  (q <- transport (λ t,
     (addrs ← ok_or NotReady (Transport.queue_addrs_for queue (mmio t)); Ok (addrs.1.2, addrs.2, reset_count t), t));;
   let '(used_ring, size, generation) := q in
   on_memory (complete_split_ring_entry from_mmio read write used_ring size head used);;;
   (λ w, (Ok tt, add_log (Finished generation queue head used) w));;;
   transport (λ t, (Ok tt, set_mmio (Transport.signal Transport.INT_USED_BUFFER (mmio t)) t)))%st.

(** The payload cut along the descriptors, and the bytes that have a place. *)
Fixpoint reply_ranges (output : list SplitRingDescriptor) (payload : list Z) : list (Z * list Z) * list Z :=
  match output, payload with
  | [], _ => ([], payload)
  | _, [] => ([], [])
  | d :: output, _ =>
      let n := Z.to_nat (d_len d) in
      let '(ranges, rest) := reply_ranges output (drop n payload) in
      ((d_addr d, take n payload) :: ranges, rest)
  end.

Definition send_reply (queue head : Z) (output : list SplitRingDescriptor) (payload : list Z) : stM world DeviceError unit :=
  let '(ranges, rest) := reply_ranges output payload in
  if negb (bool_decide (rest = [])) then st_err TooLarge else
  (on_memory (write_guest_memory ranges);;;
   _ <- st_lift (if U32_MAX <? zlen payload then Err TooLarge else Ok tt);;
   complete queue head (zlen payload))%st.

Record RequestBuffers := mkBuffers { input : list Z; output : list SplitRingDescriptor }.

Definition is_write (d : SplitRingDescriptor) : bool := negb (Z.land (d_flags d) SPLIT_RING_DESC_F_WRITE =? 0).

(** [chain.split_at(position of the first writable descriptor)] *)
Fixpoint split_chain (chain : list SplitRingDescriptor) : list SplitRingDescriptor * list SplitRingDescriptor :=
  match chain with
  | [] => ([], [])
  | d :: chain' => if is_write d then ([], chain) else let '(i, o) := split_chain chain' in (d :: i, o)
  end.

Fixpoint total_len (ranges : list (Z * Z)) (total : Z) : result DeviceError Z :=
  match ranges with
  | [] => Ok total
  | (_, len) :: ranges => total ← ok_or TooLarge (checked_add64 total len); total_len ranges total
  end.

Definition read_request_buffers (desc head size : Z) : stM H DeviceError RequestBuffers :=
  (table <- read desc (size * SPLIT_RING_DESCRIPTOR_BYTES);;
   chain <- st_lift (map_err from_ring (split_ring_chain table head size (Z.to_nat MAX_CHAIN)
                      (Z.lor SPLIT_RING_DESC_F_NEXT SPLIT_RING_DESC_F_WRITE)));;
   let '(input, output) := split_chain chain in
   if bool_decide (input = []) || existsb (λ d, negb (is_write d)) output then st_err BadLen else
   let ranges := (λ d, (d_addr d, d_len d)) <$> input in
   total <- st_lift (total_len ranges 0);;
   if MAX_REQUEST <? total then st_err TooLarge else
   bs <- read_guest_memory ranges;;
   st_ret (mkBuffers bs output))%st.

(** ** Events *)

(** [state.event_request] is taken, whatever comes of the reply. *)
Definition reply_to_event_request (errno : Z) (payload : list Z) : stM world DeviceError unit :=
  λ w,
  match tables w with
  | Some s =>
    match event_request s with
    | None => (Ok tt, w)
    | Some request =>
      let w := set_tables (Some (Nodes.set_events None (events_enabled s) s)) w in
      let pending := er_reply request in
      (c <- current_reset_count;;
       if c =? p_reset_count pending
       then send_reply (p_queue pending) (p_head pending) (p_output pending)
              (Wire.reply (p_unique pending) errno payload)
       else st_ret tt)%st w
    end
  | None => (Ok tt, w)
  end.

Definition cancel_event_request : stM world DeviceError unit :=
  λ w,
  reply_to_event_request Wire.ENODEV []
    (match tables w with
     | Some s => set_tables (Some (Nodes.set_events (event_request s) false s)) w
     | None => w
     end).

(** ** Requests *)

Definition with_tables {A} (f : Nodes.State → A * Nodes.State) (w : world) : option A * world :=
  match tables w with
  | Some s => let '(a, s) := f s in (Some a, set_tables (Some s) w)
  | None => (None, w)
  end.

(** [None]: the request is answered later. *)
Definition execute_request (bs : list Z) (r : Wire.Request) (target : PendingReply) (w : world) : option (list Z) * world :=
  match tables w with
  | None => (None, w)
  | Some s =>
    let unique := Wire.unique r in
    if (Wire.opcode r =? Wire.INIT) && Io.has_work_from_reset_count (sched w) (p_reset_count target)
    then (Some (Wire.reply unique Wire.EBUSY []), w) else
    match Requests.execute_immediate r s with
    | Some (result, s) => (Some (Wire.encode_response unique result), set_tables (Some s) w)
    | None =>
      match Requests.prepare_io entry_size bs r s with
      | Err errno => (Some (Wire.encode_response unique (Err errno)), w)
      | Ok operation =>
        match Io.enqueue operation target (sched w) with
        | (Ok _, q) => (None, set_sched q w)
        | (Err errno, q) => (Some (Wire.encode_response unique (Err errno)), set_sched q w)
        end
      end
    end
  end.

(** Whether the queue has more. *)
Definition more (queue : Z) : stM world DeviceError bool :=
  (n <- available queue;; st_ret (bool_decide (is_Some n)))%st.

Definition malformed (queue head : Z) : stM world DeviceError bool :=
  (complete queue head 0;;; more queue)%st.

Definition is_event_request (r : Wire.Request) (output : list SplitRingDescriptor) (s : Nodes.State) : bool :=
  (Wire.opcode r =? Wire.RECEIVE_EVENT) && events_enabled s && negb (bool_decide (is_Some (event_request s)))
  && (Wire.node r =? 1) && bool_decide (Wire.body r = []) && (296 <=? sumZ (d_len <$> output)).

Definition event_task (target : PendingReply) (s : Nodes.State) : Nodes.State :=
  Nodes.set_events (Some (mkEventRequest target true)) (events_enabled s) s.

(** A request with a reply: what is answered now is sent. *)
Definition answer (queue head generation : Z) (output : list SplitRingDescriptor) (response : list Z) : stM world DeviceError bool :=
  (c <- current_reset_count;;
   if negb (generation =? c)
   then λ w, (Ok false, (with_tables (λ s, (tt, Nodes.clear_runtime s)) w).2)
   else λ w,
     match send_reply queue head output response w with
     | (Ok _, w) => more queue w
     | (Err _, w) => malformed queue head w
     end)%st.

Definition process_parsed (queue head generation : Z) (request : list Z) (r : Wire.Request)
    (output : list SplitRingDescriptor) : stM world DeviceError bool :=
  ((if Wire.opcode r =? Wire.CANCEL_EVENTS then cancel_event_request else st_ret tt);;;
   λ w,
   let target := mkPending queue head output (Wire.unique r) generation in
   match execute_request (take (Z.to_nat (Wire.HEADER + zlen (Wire.body r))) request) r target w with
   | (None, w) => more queue w
   | (Some response, w) => answer queue head generation output response w
   end)%st.

(** The request at the head of the queue; whether there is another. *)
Definition process_request (queue : Z) : stM world DeviceError bool :=
  (generation <- current_reset_count;;
   n <- available queue;;
   match n with
   | None => st_ret false
   | Some (head, desc, _, size) =>
     transport (λ t, (Ok tt, set_next queue (wrapping_add16 (next_of queue t) 1) t));;;
     (λ w, (Ok tt, add_log (Taken generation queue head) w));;;
     λ w,
     let '(r, h) := read_request_buffers desc head size (mem w) in
     let w := set_mem h w in
     match r with
     | Err _ => malformed queue head w
     | Ok buffers =>
       let request := input buffers in
       match Wire.request request with
       | Ok r =>
         if (Wire.opcode r =? Wire.FORGET) || (Wire.opcode r =? Wire.FORGET_MULTI) then
           match with_tables (Nodes.forget_request r) w with
           | (Some (Ok _), w) => (complete queue head 0;;; more queue)%st w
           | (_, w) => malformed queue head w
           end
         else if bool_decide (output buffers = []) then malformed queue head w
         else if match tables w with Some s => is_event_request r (output buffers) s | None => false end then
           more queue (with_tables (λ s, (tt, event_task (mkPending queue head (output buffers) (Wire.unique r) generation) s)) w).2
         else process_parsed queue head generation request r (output buffers) w
       | Err errno =>
         if bool_decide (output buffers = []) then malformed queue head w
         else answer queue head generation (output buffers) (Wire.reply 0 errno []) w
       end
     end
   end)%st.

(** ** The worker *)

Definition complete_io (completed : CompletedIo) (w : world) : world :=
  let target := c_reply completed in
  match current_reset_count w with
  | (Ok c, w) =>
    if negb (c =? p_reset_count target) then w else
    match send_reply (p_queue target) (p_head target) (p_output target)
            (Wire.encode_response (p_unique target) (c_result completed)) w with
    | (Ok _, w) => w
    | (Err _, w) => (complete (p_queue target) (p_head target) 0 w).2
    end
  | (Err _, w) => w
  end.

(** The start of a turn of [run]: a new generation discards what waits. *)
Definition notice_reset (observed : Z) (w : world) : world :=
  if observed =? known w then w else
  let w := set_sched (Io.discard_pending (sched w)) w in
  let w := (with_tables (λ s, (tt, Nodes.clear_runtime s)) w).2 in
  set_known observed w.

Definition is_known (w : world) : bool * world :=
  let '(c, w) := current_reset_count w in (match c with Ok c => c =? known w | Err _ => false end, w).

(** [poll_work]; [None]: nothing to do. [ready]: which work the host has
    finished. *)
Definition poll_work (ready : option (nat * result Z (list Z))) (w : world) : option (option CompletedIo * option Z) * world :=
  let w := set_bell (Doorbell.register (bell w)) w in
  let '(completed, q) := Io.poll_complete ready (sched w) in
  let w := set_sched q w in
  let '(queue, w) := take_work w in
  if bool_decide (is_Some completed) || bool_decide (is_Some queue) || Doorbell.is_closed (bell w)
  then (Some (completed, queue), w) else
  let '(current, w) := is_known w in
  (if current then None else Some (completed, queue), w).

(** The requests of a queue that has work. *)
Definition serve_queue (queue : Z) (w : world) : world :=
  match tables w with
  | None => w
  | Some _ =>
    match process_request queue w with
    | (Ok true, w) => (queue_work_if_current queue (known w) w).2
    | (_, w) => w
    end
  end.

(** A poll of [run] and, if it is ready, the rest of the turn. *)
Definition poll (ready : option (nat * result Z (list Z))) (w : world) : world :=
  match poll_work ready w with
  | (None, w) => w
  | (Some (completed, queue), w) =>
    let w := match completed with Some c => complete_io c w | None => w end in
    if Doorbell.is_closed (bell w) then w else
    let '(current, w) := is_known w in
    match queue with
    | None => w
    | Some q => if current then serve_queue q w else queue_work q w
    end
  end.

(** A turn of [run] up to its next [yield], or to where it waits. *)
Definition turn (ready : option (nat * result Z (list Z))) (w : world) : world :=
  if Doorbell.is_closed (bell w) then w else
  match current_reset_count w with
  | (Err _, w) => w
  | (Ok observed, w) => poll ready (notice_reset observed w)
  end.

(** [receive_events]: the worker takes the request up, and replies when an event is
    encoded, if the request is still the one. *)
Definition take_event_request (w : world) : option (Z * Z) * world :=
  match tables w with
  | Some s =>
    match event_request s with
    | Some r =>
      if er_waiting r
      then (Some (p_reset_count (er_reply r), p_unique (er_reply r)),
            set_tables (Some (Nodes.set_events (Some (mkEventRequest (er_reply r) false)) (events_enabled s) s)) w)
      else (None, w)
    | None => (None, w)
    end
  | None => (None, w)
  end.

Definition send_event (generation unique : Z) (payload : list Z) (w : world) : world :=
  match current_reset_count w with
  | (Ok c, w) =>
    if negb (c =? generation) then w else
    match tables w with
    | Some s =>
      match event_request s with
      | Some r => if p_unique (er_reply r) =? unique then (reply_to_event_request 0 payload w).2 else w
      | None => w
      end
    | None => w
    end
  | (Err _, w) => w
  end.

(** ** Registers, reset and close *)

Definition mmio_read (addr width : Z) : stM world DeviceError Z :=
  transport (λ t, (map_err from_mmio (Transport.read addr width (mmio t)), t)).

Definition mmio_write (addr width value : Z) : stM world DeviceError unit :=
  λ w,
  let '(r, w) := transport (λ t,
    match Transport.write addr width value (mmio t) with
    | (Err e, m) => (Err (from_mmio e), set_mmio m t)
    | (Ok Transport.Reset, m) => (Ok (Some None), invalidate_queues (set_mmio m t))
    | (Ok Transport.NoOutcome, m) => (Ok None, set_mmio m t)
    | (Ok (Transport.QueueNotify queue), m) => (Ok (Some (Some queue)), set_mmio m t)
    end) w in
  match r with
  | Err e => (Err e, w)
  | Ok None => (Ok tt, w)
  | Ok (Some None) => (Ok tt, let w := clear_work w in set_bell (Doorbell.ring 0 (bell w)).1 w)
  | Ok (Some (Some queue)) => if 2 <=? queue then (Err BadQueue, w) else (Ok tt, queue_work queue w)
  end.

Definition reset_transport : stM Transport DeviceError unit :=
  λ t,
  let t := invalidate_queues t in
  match Transport.write STATUS 4 0 (mmio t) with
  | (Err e, m) => (Err (from_mmio e), set_mmio m t)
  | (Ok _, m) => (Ok tt, set_mmio m t)
  end.

Definition reset (w : world) : world :=
  let w := (transport reset_transport w).2 in
  let w := clear_work w in
  set_bell (Doorbell.ring 0 (bell w)).1 w.

(** [close], with the handles whose data is flushed. *)
Definition close (w : world) : list Z * world :=
  let w := (transport reset_transport w).2 in
  let w := set_bell (Doorbell.close (bell w)).2.1 w in
  let w := clear_work w in
  let w := set_bell (Doorbell.ring 0 (bell w)).1 w in
  let w := set_st None w in
  match tables w with
  | None => ([], w)
  | Some s =>
    (Nodes.h_descriptor ∘ snd <$> filter (λ h, Nodes.writable h.2 = true) (map_to_list (Nodes.handles s)), set_tables None w)
  end.

Definition new_transport (ram_size : Z) (config : list Z) : Transport :=
  mkTransport (Transport.with_queue_count 2 (Transport.new ram_size DEVICE_ID Transport.VIRTIO_F_VERSION_1 QUEUE_SIZE config))
    [0; 0] 0.

(** [root]: the root node and its attributes, or the host's refusal. *)
Definition configure (tag : list Z) (max_nodes : Z) (root : option (Nodes.Node * Wire.Stat)) : stM world DeviceError unit :=
  λ w,
  if bool_decide (tag = []) || (36 <? zlen tag) || (max_nodes <? 1) || (Nodes.MAX_NODES <? max_nodes) then (Err BadLen, w) else
  let config := PackedImage.splice (PackedImage.splice (Wire.zeros 40) 0 tag) 36 (le_bytes 4 1) in
  match root with
  | None => (Err Io, w)
  | Some (n, st) =>
    let w := set_tables (Some (Nodes.configured max_nodes st n)) w in
    let w := set_st (Some (new_transport address_limit config)) w in
    let w := set_line false w in
    let w := clear_work w in
    (Ok tt, set_bell (Doorbell.reset (bell w)) w)
  end.

(** ** Every sequence of operations *)

Inductive op :=
  | DWrite (addr width value : Z)
  | DReset
  | DTurn (ready : option (nat * result Z (list Z)))
  | DPoll (ready : option (nat * result Z (list Z)))
  | DTakeEvent
  | DSendEvent (generation unique : Z) (payload : list Z)
  | DWork {X} (q : Host.query X)
  | DGuest (h : H)
  | DConfigure (tag : list Z) (max_nodes : Z) (root : option (Nodes.Node * Wire.Stat))
  | DClose.

(** Work on a request, under the lock. *)
Definition work_step {X} (q : Host.query X) (w : world) : world := (with_tables (Host.exec q) w).2.

Definition step (w : world) (o : op) : world :=
  match o with
  | DWrite addr width value => (mmio_write addr width value w).2
  | DReset => reset w
  | DTurn ready => turn ready w
  | DPoll ready => poll ready w
  | DTakeEvent => (take_event_request w).2
  | DSendEvent generation unique payload => send_event generation unique payload w
  | DWork q => work_step q w
  | DGuest h => set_mem h w
  | DConfigure tag max_nodes root => (configure tag max_nodes root w).2
  | DClose => (close w).2
  end.

(** Before anything was configured. *)
Definition initial (h : H) (b : Doorbell.t W) : world := mkWorld h false b 0 None None Io.default_scheduler 0 [].

(** ** Accounts *)

Definition count (x : Z * Z) (l : list (Z * Z)) : Z := zlen (filter (λ y, y = x) l).

Definition taken (g : Z) (l : list event) : list (Z * Z) :=
  omap (λ e, match e with Taken g' q h => if g' =? g then Some (q, h) else None | _ => None end) l.
Definition finished (g : Z) (l : list event) : list (Z * Z) :=
  omap (λ e, match e with Finished g' q h _ => if g' =? g then Some (q, h) else None | _ => None end) l.

Definition reply_of (g : Z) (p : PendingReply) : list (Z * Z) :=
  if p_reset_count p =? g then [(p_queue p, p_head p)] else [].

(** What is still to be answered: by the scheduler and by the event worker. *)
Definition scheduled (g : Z) (q : Io.IoScheduler (Work := Requests.Work)) : list (Z * Z) :=
  (Io.pending q ++ Io.active q).*2 ≫= reply_of g.
Definition awaiting_event (g : Z) (s : option Nodes.State) : list (Z * Z) :=
  match s with
  | Some s => match event_request s with Some r => reply_of g (er_reply r) | None => [] end
  | None => []
  end.
Definition outstanding (g : Z) (w : world) : list (Z * Z) := scheduled g (sched w) ++ awaiting_event g (tables w).

(** [extra]: taken, and not yet answered or handed on. *)
Definition accounted (extra : Z → Z * Z → Z) (w : world) : Prop :=
  ∀ g x, count x (finished g (log w)) + count x (outstanding g w) + extra g x ≤ count x (taken g (log w)).
Definition nothing (g : Z) (x : Z * Z) : Z := 0.
Definition credit (p : PendingReply) (g : Z) (x : Z * Z) : Z := count x (reply_of g p).

Definition generation (w : world) : option Z := reset_count <$> st w.

(** The same but for memory, the line, the bell and the transport, whose generation
    is the same. *)
Record quiet (w w' : world) : Prop := {
  q_log : log w' = log w;
  q_sched : sched w' = sched w;
  q_tables : tables w' = tables w;
  q_known : known w' = known w;
  q_generation : generation w' = generation w;
}.
#[local] Instance quiet_preorder : PreOrder quiet.
Proof.
  split; [by intros w|]. intros w1 w2 w3 [] []. split; congruence.
Qed.

Lemma count_app x l k : count x (l ++ k) = count x l + count x k.
Proof. unfold count. by rewrite filter_app, zlen_app. Qed.

Lemma count_nonneg x l : 0 ≤ count x l.
Proof. apply zlen_nonneg. Qed.

Lemma count_perm x l k : l ≡ₚ k → count x l = count x k.
Proof. intros Hl. unfold count, zlen. by rewrite Hl. Qed.

Lemma scheduled_perm g x (q q' : Io.IoScheduler (Work := Requests.Work)) :
  Io.entries q ≡ₚ Io.entries q' → count x (scheduled g q) = count x (scheduled g q').
Proof. intros Hq. apply count_perm. unfold scheduled, Io.entries in *. by rewrite Hq. Qed.

Lemma taken_app g l k : taken g (l ++ k) = taken g l ++ taken g k.
Proof. apply omap_app. Qed.
Lemma finished_app g l k : finished g (l ++ k) = finished g l ++ finished g k.
Proof. apply omap_app. Qed.

Lemma quiet_outstanding w w' g : quiet w w' → outstanding g w' = outstanding g w.
Proof. intros []. unfold outstanding. congruence. Qed.

Lemma quiet_accounted extra w w' : quiet w w' → accounted extra w → accounted extra w'.
Proof. intros Hq Ha g x. rewrite (quiet_outstanding w w') by done. rewrite (q_log _ _ Hq). apply Ha. Qed.

Lemma forget_extra p w : accounted (credit p) w → accounted nothing w.
Proof. intros Ha g x. specialize (Ha g x). unfold credit, nothing in *. pose proof (count_nonneg x (reply_of g p)). lia. Qed.

(** *** The transport *)

Lemma transport_quiet {A} (f : stM Transport DeviceError A) w :
  (∀ t, reset_count (f t).2 = reset_count t) → quiet w (transport f w).2.
Proof.
  intros Hf. unfold transport. destruct (st w) as [t|] eqn:Ht; [|done]. specialize (Hf t).
  destruct (f t) as [r t']. destruct (Transport.take_irq _) as [irq m]. cbn in *.
  destruct irq; (split; try done; unfold generation; cbn; rewrite Ht; cbn; by f_equal).
Qed.

Lemma transport_ok {A} (f : stM Transport DeviceError A) w a w' :
  transport f w = (Ok a, w') → ∃ t, st w = Some t ∧ (f t).1 = Ok a ∧ is_Some (st w').
Proof.
  unfold transport. destruct (st w) as [t|]; [|done]. destruct (f t) as [r t'] eqn:Hf.
  destruct (Transport.take_irq _) as [irq m]. intros Heq. exists t. rewrite Hf.
  split; [done|]. split; [by injection Heq|]. injection Heq as _ <-. by destruct irq.
Qed.

Lemma transport_some {A} (f : stM Transport DeviceError A) w : is_Some (st w) → ∃ t, st w = Some t ∧ (transport f w).1 = (f t).1.
Proof.
  intros [t Ht]. exists t. split; [done|]. unfold transport. rewrite Ht. destruct (f t) as [r t'].
  by destruct (Transport.take_irq _) as [irq m].
Qed.

Lemma current_spec w : let '(r, w') := current_reset_count w in quiet w w' ∧ ∀ c, r = Ok c → generation w = Some c.
Proof.
  unfold current_reset_count. destruct (transport _ w) as [r w'] eqn:Ht. split.
  - replace w' with ((transport (λ t, (Ok (reset_count t), t)) w).2) by by rewrite Ht. by apply transport_quiet.
  - intros c ->. apply transport_ok in Ht as (t & Hs & [= Hc] & _). unfold generation. rewrite Hs. cbn. by f_equal.
Qed.

Lemma mem_quiet h w : quiet w (set_mem h w).
Proof. done. Qed.

Lemma on_memory_quiet {A} (f : stM H DeviceError A) w : quiet w (on_memory f w).2.
Proof. unfold on_memory. by destruct (f (mem w)). Qed.

Lemma available_quiet queue w : quiet w (available queue w).2.
Proof.
  unfold available, st_bind at 1. destruct (transport _ w) as [r w1] eqn:Ht.
  assert (Q1 : quiet w w1).
  { match type of Ht with transport ?f _ = _ => pose proof (transport_quiet f w) as Hq; rewrite Ht in Hq end. by apply Hq. }
  destruct r as [[[[[[desc avail] used] size] n] gen]|]; [|done].
  destruct (read_split_ring_available _ _ _ _ _ _) as [[r h] n']. 
  assert (Q2 : quiet w (set_mem h w1)) by (etrans; [exact Q1|apply mem_quiet]). destruct r as [[a head]|]; [|done].
  etrans; [exact Q2|]. unfold st_bind at 1. cbv zeta.
  match goal with |- context [transport ?f ?x] => pose proof (transport_quiet f x) as Hq; destruct (transport f x) as [r2 w2] end.
  specialize (Hq ltac:(intros t; by case_match)). by destruct r2.
Qed.
(** *** Completion *)

(** The request at [head] of [queue] was completed, in the generation there is. *)
Definition finished_one (queue head : Z) (w w' : world) : Prop :=
  ∃ g u, generation w = Some g ∧ quiet (add_log (Finished g queue head u) w) w'.

Lemma quiet_finished queue head w w1 w' : quiet w w1 → finished_one queue head w1 w' → finished_one queue head w w'.
Proof.
  intros [Q1 Q2 Q3 Q4 Q5] (g & u & Hg & [R1 R2 R3 R4 R5]). exists g, u. split; [congruence|].
  split; cbn in *; [congruence..|]. unfold generation in *. cbn in *. congruence.
Qed.

Lemma finished_quiet queue head w w1 w' : finished_one queue head w w1 → quiet w1 w' → finished_one queue head w w'.
Proof. intros (g & u & Hg & Q) Q'. exists g, u. split; [done|]. by etrans. Qed.

Lemma complete_spec queue head u w : let '(r, w') := complete queue head u w in
  match r with Ok _ => finished_one queue head w w' | Err _ => quiet w w' end.
Proof.
  unfold complete, st_bind at 1. destruct (transport _ w) as [r w1] eqn:Ht.
  assert (Q1 : quiet w w1).
  { match type of Ht with transport ?f _ = _ => pose proof (transport_quiet f w) as Hq; rewrite Ht in Hq end. by apply Hq. }
  destruct r as [[[used size] g]|]; [|done]. apply transport_ok in Ht as (t & Hs & Hf & Hs1). cbn in Hf.
  assert (Hg : reset_count t = g) by (destruct (Transport.queue_addrs_for queue (mmio t)); [|done]; cbn in Hf; congruence).
  unfold st_bind at 1. pose proof (on_memory_quiet (complete_split_ring_entry from_mmio read write used size head u) w1) as Q2.
  assert (Hs2 : st (on_memory (complete_split_ring_entry from_mmio read write used size head u) w1).2 = st w1).
  { unfold on_memory. by destruct (complete_split_ring_entry _ _ _ _ _ _ _ _). }
  destruct (on_memory _ w1) as [r2 w2]. cbn [snd] in *. destruct r2; [|by etrans].
  unfold st_bind at 1. set (w3 := add_log _ w2).
  match goal with |- context [transport ?f w3] => destruct (transport_some f w3) as (t3 & Ht3 & Hok); [by subst w3; cbn; rewrite Hs2|];
    pose proof (transport_quiet f w3) as Q3; destruct (transport f w3) as [r3 w4] end.
  cbn in Hok. subst r3. specialize (Q3 ltac:(done)). cbn [snd] in Q3.
  apply (quiet_finished queue head w w2); [by etrans|]. exists g, u. split; [|exact Q3].
  rewrite (q_generation _ _ Q2), (q_generation _ _ Q1). unfold generation. rewrite Hs. cbn. by rewrite Hg.
Qed.

Lemma send_reply_spec queue head out payload w : let '(r, w') := send_reply queue head out payload w in
  match r with Ok _ => finished_one queue head w w' | Err _ => quiet w w' end.
Proof.
  unfold send_reply. destruct (reply_ranges out payload) as [ranges rest].
  destruct (negb (bool_decide (rest = []))); [done|].
  unfold st_bind at 1. pose proof (on_memory_quiet (write_guest_memory ranges) w) as Q1.
  destruct (on_memory _ w) as [r1 w1]. cbn [snd] in Q1. destruct r1; [|done].
  unfold st_bind, st_lift. destruct (U32_MAX <? zlen payload); [done|].
  pose proof (complete_spec queue head (zlen payload) w1) as Hc.
  destruct (complete queue head (zlen payload) w1) as [[]]; [by eapply quiet_finished|by etrans].
Qed.

Lemma more_quiet queue w : quiet w (more queue w).2.
Proof. unfold more, st_bind. pose proof (available_quiet queue w). by destruct (available queue w) as [[]]. Qed.

(** At most one completion. *)
Definition answered (queue head : Z) (w w' : world) : Prop := quiet w w' ∨ finished_one queue head w w'.

Lemma quiet_answered queue head w w1 w' : quiet w w1 → answered queue head w1 w' → answered queue head w w'.
Proof. intros Q [R|R]; [left; by etrans|right; by eapply quiet_finished]. Qed.

Lemma malformed_answered queue head w : answered queue head w (malformed queue head w).2.
Proof.
  unfold malformed, st_bind. pose proof (complete_spec queue head 0 w) as Hc. destruct (complete queue head 0 w) as [[] w1]; [|by left].
  right. eapply finished_quiet; [done|]. apply more_quiet.
Qed.

Lemma answer_answered queue head g out response w :
  generation w = Some g → answered queue head w (answer queue head g out response w).2.
Proof.
  intros Hg. unfold answer, st_bind at 1. pose proof (current_spec w) as Hc. destruct (current_reset_count w) as [[c|] w1];
    destruct Hc as [Q1 Hc]; [|by left]. specialize (Hc c eq_refl). assert (g = c) as -> by congruence. rewrite Z.eqb_refl. cbn [negb].
  apply (quiet_answered _ _ _ w1); [done|]. pose proof (send_reply_spec queue head out response w1) as Hs.
  destruct (send_reply _ _ _ _ w1) as [[] w2].
  - right. eapply finished_quiet; [done|]. apply more_quiet.
  - apply (quiet_answered _ _ _ w2); [done|]. apply malformed_answered.
Qed.

(** The completion is of what was taken. *)
Lemma finished_accounted extra p w w' :
  generation w = Some (p_reset_count p) → finished_one (p_queue p) (p_head p) w w' →
  accounted (λ g x, extra g x + credit p g x) w → accounted extra w'.
Proof.
  intros Hg (g & u & Hg' & Q) Ha. apply (quiet_accounted extra _ _ Q). assert (g = p_reset_count p) as -> by congruence.
  intros g x. specialize (Ha g x). cbn [log add_log]. rewrite finished_app, taken_app, !count_app. cbn [taken finished omap list_omap].
  change (outstanding g (add_log _ w)) with (outstanding g w). unfold credit, reply_of in Ha.
  destruct (p_reset_count p =? g); cbn in *; change (count x []) with 0 in *; lia.
Qed.

Lemma answered_accounted extra p w w' :
  generation w = Some (p_reset_count p) → answered (p_queue p) (p_head p) w w' →
  accounted (λ g x, extra g x + credit p g x) w → accounted extra w'.
Proof.
  intros Hg [Q|Q] Ha; [|by eapply finished_accounted]. apply (quiet_accounted _ w w'); [done|].
  intros g x. specialize (Ha g x). unfold credit in Ha. pose proof (count_nonneg x (reply_of g p)). lia.
Qed.

Lemma finished_generation queue head w w' : finished_one queue head w w' → generation w' = generation w.
Proof. intros (g & u & Hg & Q). by rewrite (q_generation _ _ Q). Qed.

Lemma answered_generation queue head w w' : answered queue head w w' → generation w' = generation w.
Proof. intros [Q|Q]; [apply Q|by eapply finished_generation]. Qed.
(** *** The event request in the tables *)

Lemma mark_event id s : event_request (Nodes.mark_unused_if_unheld id s) = event_request s.
Proof. by destruct (Nodes.mark_eq id s) as (u & -> & _). Qed.

Lemma forget_event id n s : event_request (Nodes.forget id n s) = event_request s.
Proof. unfold Nodes.forget. case_match; [done|]. rewrite mark_event. by case_match. Qed.

Lemma forget_request_event r s : event_request (Nodes.forget_request r s).2 = event_request s.
Proof.
  rewrite Nodes.forget_request_eq. generalize (Nodes.forgotten r). intros l. revert s.
  induction l as [|p l IH]; intros s; [done|]. cbn. unfold Nodes.foldl_forget in IH. rewrite IH. apply forget_event.
Qed.

Lemma immediate_event r s res s' : Requests.execute_immediate r s = Some (res, s') →
  event_request s' = event_request s ∨ event_request s' = None.
Proof.
  unfold Requests.execute_immediate. case_match.
  { case_match; intros [= _ <-]; [by right|by left]. }
  case_match; [intros [= _ <-]; by left|]. case_match.
  { intros Heq. left. assert (s' = (Nodes.release_file r s).2) as -> by (destruct (Nodes.release_file r s); by injection Heq).
    unfold Nodes.release_file. repeat case_match; cbn; rewrite ?mark_event; done. }
  case_match.
  { intros Heq. left. assert (s' = (Nodes.release_directory r s).2) as -> by (destruct (Nodes.release_directory r s); by injection Heq).
    unfold Nodes.release_directory. repeat case_match; cbn; rewrite ?mark_event; done. }
  repeat (case_match; [intros [= _ <-]; by left|]). intros [= _ <-]. by left.
Qed.

Lemma exec_event {X} (q : Host.query X) s : event_request (Host.exec q s).2 = event_request s.
Proof.
  destruct q; cbn; try done.
  - unfold Nodes.node_id, Nodes.evict_unused_node. repeat case_match; done.
  - unfold Nodes.store_handle. by case_match.
  - unfold Nodes.store_directory. by case_match.
  - unfold Nodes.release_cached. repeat case_match; simplify_eq; done.
  - unfold Nodes.repoint_node. by repeat case_match.
  - unfold Nodes.increment_lookup. by case_match.
  - unfold Nodes.remember_lookup. by repeat case_match.
  - by case_match.
Qed.

Lemma tables_accounted extra s s' w : tables w = Some s →
  event_request s' = event_request s ∨ event_request s' = None → accounted extra w → accounted extra (set_tables (Some s') w).
Proof.
  intros Hs He Ha g x. specialize (Ha g x). unfold outstanding in *. cbn [tables sched log set_tables]. rewrite Hs in Ha.
  rewrite count_app in *. unfold awaiting_event in *. destruct He as [-> | ->]; [done|]. change (count x []) with 0.
  destruct (event_request s); [pose proof (count_nonneg x (reply_of g (er_reply e))); lia|done].
Qed.

Lemma event_taken extra s r w : tables w = Some s → event_request s = Some r → accounted extra w →
  accounted (λ g x, extra g x + credit (er_reply r) g x) (set_tables (Some (Nodes.set_events None (events_enabled s) s)) w).
Proof.
  intros Hs He Ha g x. specialize (Ha g x). unfold outstanding, credit in *. cbn [tables sched log set_tables]. rewrite Hs in Ha.
  rewrite count_app in *. cbn [awaiting_event event_request Nodes.set_events] in *. rewrite He in Ha. change (count x []) with 0. lia.
Qed.

(** An operation keeps the accounts, and the generation. *)
Definition keeps (extra : Z → Z * Z → Z) (w w' : world) : Prop :=
  (accounted extra w → accounted extra w') ∧ generation w' = generation w.

#[local] Instance keeps_preorder extra : PreOrder (keeps extra).
Proof. split; [by intros w|]. intros w1 w2 w3 [H1 H2] [H3 H4]. split; [auto|congruence]. Qed.

Lemma quiet_keeps extra w w' : quiet w w' → keeps extra w w'.
Proof. intros Q. split; [by apply quiet_accounted|apply Q]. Qed.

Lemma tables_keeps extra s s' w : tables w = Some s →
  event_request s' = event_request s ∨ event_request s' = None → keeps extra w (set_tables (Some s') w).
Proof. intros Hs He. split; [by eapply tables_accounted|done]. Qed.

Lemma reply_to_event_keeps extra errno payload w : keeps extra w (reply_to_event_request errno payload w).2.
Proof.
  unfold reply_to_event_request. destruct (tables w) as [s|] eqn:Hs; [|done]. destruct (event_request s) as [r|] eqn:He; [|done].
  set (w1 := set_tables _ w). assert (Hgen : generation w1 = generation w) by done.
  pose proof (current_spec w1) as Hc. unfold st_bind at 1. destruct (current_reset_count w1) as [[c|] w2]; destruct Hc as [Q Hc].
  - specialize (Hc c eq_refl). destruct (Z.eqb_spec c (p_reset_count (er_reply r))) as [->|Hne].
    + match goal with |- context [send_reply ?q ?h ?o ?p w2] => pose proof (send_reply_spec q h o p w2) as Hsend;
        destruct (send_reply q h o p w2) as [res w3] end.
      assert (Hans : answered (p_queue (er_reply r)) (p_head (er_reply r)) w2 w3) by (destruct res; [by right|by left]).
      split.
      * intros Ha. eapply (answered_accounted extra (er_reply r) w2); [by rewrite (q_generation _ _ Q)|done|].
        apply (quiet_accounted _ w1); [done|]. by apply (event_taken extra s).
      * cbn [snd]. by rewrite (answered_generation _ _ _ _ Hans), (q_generation _ _ Q).
    + cbn [snd st_ret]. etrans; [exact (tables_keeps extra s (Nodes.set_events None (events_enabled s) s) w Hs (or_intror eq_refl))|by apply quiet_keeps].
  - cbn [snd]. etrans; [exact (tables_keeps extra s (Nodes.set_events None (events_enabled s) s) w Hs (or_intror eq_refl))|by apply quiet_keeps].
Qed.

Lemma cancel_keeps extra w : keeps extra w (cancel_event_request w).2.
Proof.
  unfold cancel_event_request. etrans; [|apply reply_to_event_keeps].
  destruct (tables w) as [s|] eqn:Hs; [|done]. apply (tables_keeps extra s); [done|by left].
Qed.

Lemma with_tables_keeps {A} extra (f : Nodes.State → A * Nodes.State) w :
  (∀ s, event_request (f s).2 = event_request s ∨ event_request (f s).2 = None) → keeps extra w (with_tables f w).2.
Proof.
  intros Hf. unfold with_tables. destruct (tables w) as [s|] eqn:Hs; [|done]. specialize (Hf s). destruct (f s) as [a s'].
  by apply (tables_keeps extra s).
Qed.
(** *** Requests *)

Lemma enqueue_accounted operation target (q : Io.IoScheduler (Work := Requests.Work)) w :
  (Io.enqueue operation target (sched w)).1 = Ok tt → accounted (credit target) w →
  accounted nothing (set_sched (Io.enqueue operation target (sched w)).2 w).
Proof.
  unfold Io.enqueue. case_match; [done|]. intros _ Ha g x. specialize (Ha g x). unfold outstanding, scheduled, credit, nothing in *.
  cbn [sched tables log set_sched Io.pending Io.active snd]. rewrite !fmap_app, !bind_app, !count_app in *. cbn [fmap list_fmap snd].
  cbn [mbind list_bind]. rewrite app_nil_r. lia.
Qed.

Lemma execute_accounted bs r target w : accounted (credit target) w →
  let '(o, w') := execute_request bs r target w in
  generation w' = generation w ∧ accounted (match o with Some _ => credit target | None => nothing end) w'.
Proof.
  intros Ha. unfold execute_request. destruct (tables w) as [s|] eqn:Hs; [|split; [done|]; by eapply forget_extra].
  destruct (_ && _); [done|]. destruct (Requests.execute_immediate r s) as [[res s']|] eqn:Hi.
  { split; [done|]. eapply (tables_accounted _ s); [done|by eapply immediate_event|done]. }
  destruct (Requests.prepare_io entry_size bs r s) as [operation|]; [|done].
  pose proof (enqueue_accounted operation target (sched w) w) as He.
  assert (Hq : ∀ e, (Io.enqueue operation target (sched w)).1 = Err e → (Io.enqueue operation target (sched w)).2 = sched w).
  { unfold Io.enqueue. by case_match. }
  destruct (Io.enqueue operation target (sched w)) as [[[]|e] q]; cbn in *; (split; [done|]); [by apply He|].
  rewrite (Hq e eq_refl). exact Ha.
Qed.

Lemma taken_accounted p w : accounted nothing w →
  accounted (credit p) (add_log (Taken (p_reset_count p) (p_queue p) (p_head p)) w).
Proof.
  intros Ha g x. specialize (Ha g x). cbn [log add_log]. rewrite finished_app, taken_app, !count_app.
  change (outstanding g (add_log _ w)) with (outstanding g w). cbn [taken finished omap list_omap].
  unfold credit, reply_of, nothing in *. destruct (p_reset_count p =? g); change (count x []) with 0 in *; lia.
Qed.

Lemma answered_settles p w w' : generation w = Some (p_reset_count p) → answered (p_queue p) (p_head p) w w' →
  accounted (credit p) w → accounted nothing w' ∧ generation w' = generation w.
Proof.
  intros Hg Hw Ha. split; [|by eapply answered_generation]. eapply (answered_accounted nothing p); [done|done|].
  intros g x. specialize (Ha g x). unfold nothing. lia.
Qed.

Lemma process_parsed_ok p request r w :
  generation w = Some (p_reset_count p) → p_unique p = Wire.unique r → accounted (credit p) w →
  let w' := (process_parsed (p_queue p) (p_head p) (p_reset_count p) request r (p_output p) w).2 in
  accounted nothing w' ∧ generation w' = generation w.
Proof.
  intros Hg Hu Ha. unfold process_parsed. set (m := if _ : bool then cancel_event_request else _).
  assert (Hm : keeps (credit p) w (m w).2) by (subst m; case_match; [apply cancel_keeps|done]).
  unfold st_bind. destruct (m w) as [[] w1]; destruct Hm as [Hm1 Hm2]; cbn [snd] in *;
    [|split; [by eapply forget_extra, Hm1|done]].
  specialize (Hm1 Ha). replace (mkPending _ _ _ _ _) with p by (destruct p; cbn in *; congruence).
  pose proof (execute_accounted (take (Z.to_nat (Wire.HEADER + zlen (Wire.body r))) request) r p w1 Hm1) as He.
  destruct (execute_request _ r p w1) as [[response|] w2]; destruct He as [Hg2 Ha2].
  - rewrite <- Hm2, <- Hg2. apply (answered_settles p); [congruence| |done]. apply answer_answered. congruence.
  - pose proof (more_quiet (p_queue p) w2) as Q. split; [by eapply quiet_accounted|]. rewrite (q_generation _ _ Q). congruence.
Qed.

Definition settles (w w' : world) : Prop := accounted nothing w' ∧ generation w' = generation w.

Lemma process_request_ok queue w : accounted nothing w → settles w (process_request queue w).2.
Proof.
  intros Ha. unfold process_request, st_bind at 1. pose proof (current_spec w) as Hc.
  destruct (current_reset_count w) as [[g|] w1]; destruct Hc as [Q1 Hc]; [|by split; [eapply quiet_accounted|apply Q1]].
  specialize (Hc g eq_refl). unfold st_bind at 1. pose proof (available_quiet queue w1) as Q2.
  destruct (available queue w1) as [[n|] w2]; cbn [snd] in Q2; assert (Q : quiet w w2) by (by etrans);
    apply (quiet_keeps nothing) in Q as [K1 K2]; specialize (K1 Ha); [|by split].
  destruct n as [[[[head desc] used] size]|]; [|by split]. unfold st_bind at 1.
  match goal with |- context [transport ?f w2] => pose proof (transport_quiet f w2 ltac:(done)) as Q3;
    destruct (transport f w2) as [[[]|] w3] end; cbn [snd] in Q3; apply (quiet_keeps nothing) in Q3 as [K3 K4];
    specialize (K3 K1); [|by split; [|cbn [snd]; congruence]].
  unfold st_bind at 1. set (w4 := add_log _ w3). destruct (read_request_buffers desc head size (mem w4)) as [rb h].
  set (w5 := set_mem h w4). assert (Hg5 : generation w5 = Some g) by (change (generation w5) with (generation w3); congruence).
  assert (Ha5 : ∀ out u, accounted (credit (mkPending queue head out u g)) w5).
  { intros out u. apply (quiet_accounted _ w4); [done|]. exact (taken_accounted (mkPending queue head out u g) w3 K3). }
  assert (Hmal : ∀ w6, keeps (credit (mkPending queue head [] 0 g)) w5 w6 →
    settles w5 (malformed queue head w6).2).
  { intros w6 [K5 K6]. unfold settles. rewrite <- K6. apply (answered_settles (mkPending queue head [] 0 g)); [cbn; congruence| |by apply K5].
    apply malformed_answered. }
  assert (Hset : ∀ w', settles w5 w' → settles w w') by (intros w' []; split; [done|congruence]). apply Hset. clear Hset.
  destruct rb as [buffers|]; [|by apply Hmal].
  destruct (Wire.request (input buffers)) as [r|errno].
  - case_match.
    { pose proof (with_tables_keeps (credit (mkPending queue head [] 0 g)) (Nodes.forget_request r) w5) as Hk.
      specialize (Hk ltac:(intros s; left; apply forget_request_event)).
      destruct (with_tables _ w5) as [[[]|] w6]; by apply Hmal. }
    case_match; [by apply Hmal|]. case_match.
    + set (w6 := (with_tables _ w5).2). destruct (quiet_keeps nothing _ _ (more_quiet queue w6)) as [K7 K8].
      split; [apply K7|rewrite K8]; subst w6; unfold with_tables; destruct (tables w5) as [s|] eqn:Hs; try done.
      * cbn [snd]. intros gg x. specialize (Ha5 (output buffers) (Wire.unique r) gg x). unfold outstanding, credit, nothing in *.
        cbn [sched tables log set_tables]. rewrite count_app in *. rewrite Hs in Ha5.
        cbn [awaiting_event event_request Nodes.set_events event_task er_reply] in *.
        pose proof (count_nonneg x (match event_request s with Some r0 => reply_of gg (er_reply r0) | None => [] end)). lia.
    + apply (process_parsed_ok (mkPending queue head (output buffers) (Wire.unique r) g)); [done|done|apply Ha5].
  - case_match; [by apply Hmal|].
    apply (answered_settles (mkPending queue head (output buffers) 0 g)); [done| |apply Ha5]. by apply answer_answered.
Qed.
(** *** The worker *)

Lemma complete_io_ok c w : accounted (credit (c_reply c)) w → settles w (complete_io c w).
Proof.
  intros Ha. unfold complete_io. pose proof (current_spec w) as Hc.
  destruct (current_reset_count w) as [[g|] w1]; destruct Hc as [Q1 Hc]; pose proof (quiet_accounted _ _ _ Q1 Ha) as Ha1;
    [|split; [by eapply forget_extra|apply Q1]].
  specialize (Hc g eq_refl). destruct (Z.eqb_spec g (p_reset_count (c_reply c))) as [->|Hg]; cbn [negb];
    [|split; [by eapply forget_extra|apply Q1]].
  assert (Hg1 : generation w1 = Some (p_reset_count (c_reply c))) by (rewrite (q_generation _ _ Q1); done).
  unfold settles. rewrite <- (q_generation _ _ Q1). apply (answered_settles (c_reply c)); [done| |done].
  match goal with |- context [send_reply ?q ?h ?o ?p w1] => pose proof (send_reply_spec q h o p w1) as Hs;
    destruct (send_reply q h o p w1) as [[] w2] end; [by right|].
  apply (quiet_answered _ _ _ w2); [done|]. pose proof (complete_spec (p_queue (c_reply c)) (p_head (c_reply c)) 0 w2) as Hc2.
  destruct (complete _ _ 0 w2) as [[] w3]; [by right|by left].
Qed.

(** Only the bell and whose turn it is. *)
Lemma bell_quiet b w : quiet w (set_bell b w).
Proof. done. Qed.

Lemma take_work_quiet w : quiet w (take_work w).2.
Proof.
  unfold take_work. destruct (Doorbell.take (bell w)) as [p b]. cbv zeta.
  destruct (negb _); [done|]. by destruct (negb _).
Qed.

Lemma queue_work_quiet queue w : quiet w (queue_work queue w).
Proof. unfold queue_work. by case_match. Qed.

Lemma queue_work_if_current_quiet queue g w : quiet w (queue_work_if_current queue g w).2.
Proof.
  unfold queue_work_if_current, st_bind. pose proof (current_spec w) as Hc. destruct (current_reset_count w) as [[] w1];
    destruct Hc as [Q _]; [|done]. cbn [snd]. case_match; [|done]. etrans; [done|]. apply queue_work_quiet.
Qed.

Lemma is_known_quiet w : quiet w (is_known w).2.
Proof. unfold is_known. pose proof (current_spec w) as Hc. destruct (current_reset_count w). apply Hc. Qed.

Lemma settles_refl w : accounted nothing w → settles w w.
Proof. by split. Qed.

Lemma settles_trans w1 w2 w3 : settles w1 w2 → settles w2 w3 → settles w1 w3.
Proof. intros [_ H1] [H2 H3]. split; [done|congruence]. Qed.

Lemma quiet_settles w w' : accounted nothing w → quiet w w' → settles w w'.
Proof. intros Ha Q. split; [by eapply quiet_accounted|apply Q]. Qed.

(** The completed request is taken out of the scheduler. *)
Lemma poll_work_ok ready w : accounted nothing w → let '(r, w') := poll_work ready w in
  generation w' = generation w
  ∧ match r with
    | Some (Some c, _) => accounted (credit (c_reply c)) w'
    | _ => accounted nothing w'
    end.
Proof.
  intros Ha. unfold poll_work. set (w0 := set_bell _ w). change (sched w0) with (sched w).
  pose proof (Io.poll_entries ready (sched w)) as Hp. destruct (Io.poll_complete ready (sched w)) as [c q].
  assert (Ha1 : accounted (match c with Some c => credit (c_reply c) | None => nothing end) (set_sched q w0)).
  { intros g x. specialize (Ha g x). unfold outstanding, nothing, credit in *. cbn [sched tables log set_sched set_bell w0].
    rewrite count_app in *. destruct c as [c|].
    - destruct Hp as (e & Hperm & ->). assert (Hs : count x (scheduled g (sched w)) = count x (reply_of g e.2) + count x (scheduled g q)).
      { rewrite <- count_app. apply count_perm. unfold scheduled, Io.entries in *. by rewrite Hperm. }
      lia.
    - rewrite (scheduled_perm g x q (sched w)) by done. lia. }
  pose proof (take_work_quiet (set_sched q w0)) as Q1. destruct (take_work (set_sched q w0)) as [queue w1]. cbn [snd] in Q1.
  pose proof (quiet_accounted _ _ _ Q1 Ha1) as Ha2. assert (Hg : generation w1 = generation w) by apply Q1.
  destruct (_ || _); [split; [done|]; by destruct c|]. pose proof (is_known_quiet w1) as Q2. destruct (is_known w1) as [cur w2]. cbn [snd] in Q2.
  pose proof (quiet_accounted _ _ _ Q2 Ha2) as Ha3. split; [rewrite (q_generation _ _ Q2); done|].
  destruct c as [c|]; destruct cur; try done. by eapply forget_extra.
Qed.

Lemma serve_queue_ok queue w : accounted nothing w → settles w (serve_queue queue w).
Proof.
  intros Ha. unfold serve_queue. destruct (tables w); [|by apply settles_refl].
  pose proof (process_request_ok queue w Ha) as Hp. destruct (process_request queue w) as [[[]|] w1]; try done.
  cbn [snd] in Hp. eapply settles_trans; [done|]. apply quiet_settles; [apply Hp|]. apply queue_work_if_current_quiet.
Qed.

Lemma poll_ok ready w : accounted nothing w → settles w (poll ready w).
Proof.
  intros Ha. unfold poll. pose proof (poll_work_ok ready w Ha) as Hp.
  destruct (poll_work ready w) as [[[completed queue]|] w1]; destruct Hp as [Hg Ha1]; [|by split].
  set (w2 := match completed with Some c => _ | None => _ end).
  assert (S2 : settles w w2).
  { subst w2. destruct completed as [c|]; [|by split]. destruct (complete_io_ok c w1 Ha1) as [? ?]. split; [done|congruence]. }
  eapply settles_trans; [exact S2|]. clearbody w2. destruct S2 as [Ha2 _].
  destruct (Doorbell.is_closed (bell w2)); [by apply settles_refl|].
  pose proof (is_known_quiet w2) as Q. destruct (is_known w2) as [cur w3]. cbn [snd] in Q.
  pose proof (quiet_settles _ _ Ha2 Q) as S3. destruct queue as [q|]; [|done]. destruct cur.
  - eapply settles_trans; [done|]. apply serve_queue_ok, S3.
  - eapply settles_trans; [done|]. apply quiet_settles; [apply S3|]. apply queue_work_quiet.
Qed.

Lemma notice_reset_ok observed w : accounted nothing w → settles w (notice_reset observed w).
Proof.
  intros Ha. unfold notice_reset. destruct (observed =? known w); [by apply settles_refl|].
  set (w1 := set_sched _ w). assert (Ha1 : accounted nothing w1).
  { intros g x. specialize (Ha g x). unfold outstanding, nothing in *. cbn [sched tables log set_sched w1].
    rewrite count_app in *. unfold scheduled, Io.discard_pending in *. cbn [Io.pending Io.active app]. rewrite fmap_app, bind_app, count_app in Ha.
    pose proof (count_nonneg x ((Io.pending (sched w)).*2 ≫= reply_of g)). lia. }
  destruct (with_tables_keeps nothing (λ s, (tt, Nodes.clear_runtime s)) w1) as [K1 K2]; [by intros s; right|].
  split; [|done]. intros g x. exact (K1 Ha1 g x).
Qed.

Lemma fs_turn_ok ready w : accounted nothing w → settles w (turn ready w).
Proof.
  intros Ha. unfold turn. destruct (Doorbell.is_closed (bell w)); [by apply settles_refl|]. pose proof (current_spec w) as Hc.
  destruct (current_reset_count w) as [[g|] w1]; destruct Hc as [Q _]; [|by apply quiet_settles].
  eapply settles_trans; [by apply quiet_settles|]. pose proof (quiet_accounted _ _ _ Q Ha) as Ha1.
  eapply settles_trans; [by apply notice_reset_ok|]. by apply poll_ok, notice_reset_ok.
Qed.
(** *** Any operation *)

(** What does not touch the log, the scheduler or the tables. *)
Lemma accounted_same extra w w' : log w' = log w → sched w' = sched w → tables w' = tables w → accounted extra w → accounted extra w'.
Proof. intros H1 H2 H3 Ha g x. unfold outstanding. rewrite H1, H2, H3. apply Ha. Qed.

Lemma transport_accounted {A} (f : stM Transport DeviceError A) w : accounted nothing w → accounted nothing (transport f w).2.
Proof.
  apply accounted_same; unfold transport; destruct (st w); try done; destruct (f _); destruct (Transport.take_irq _) as [[] ?]; done.
Qed.

Lemma take_event_ok w : accounted nothing w → accounted nothing (take_event_request w).2.
Proof.
  intros Ha. unfold take_event_request. destruct (tables w) as [s|] eqn:Hs; [|done]. destruct (event_request s) as [r|] eqn:He; [|done].
  destruct (er_waiting r); [|done]. intros g x. specialize (Ha g x). unfold outstanding in *. cbn [snd sched tables log set_tables].
  rewrite Hs in Ha. cbn [awaiting_event event_request Nodes.set_events er_reply] in *. by rewrite He in Ha.
Qed.

Lemma send_event_ok g u payload w : accounted nothing w → accounted nothing (send_event g u payload w).
Proof.
  intros Ha. unfold send_event. pose proof (current_spec w) as Hc. destruct (current_reset_count w) as [[c|] w1];
    destruct Hc as [Q _]; pose proof (quiet_accounted _ _ _ Q Ha) as Ha1; [|done]. destruct (negb _); [done|].
  destruct (tables w1) as [s|]; [|done]. destruct (event_request s) as [r|]; [|done]. destruct (_ =? u); [|done].
  by apply (reply_to_event_keeps nothing).
Qed.

Lemma step_accounted o w : accounted nothing w → accounted nothing (step w o).
Proof.
  intros Ha. destruct o as [addr width value| |ready|ready| |g u payload|X q|h|tag n root|]; cbn [step].
  - unfold mmio_write. match goal with |- context [transport ?f w] => pose proof (transport_accounted f w Ha) as Ha1;
      destruct (transport f w) as [[[[queue|]|]|] w1] end; cbn [snd] in *; try done.
    destruct (2 <=? queue); cbn [snd]; [done|]. by eapply quiet_accounted; [apply queue_work_quiet|].
  - unfold reset. by apply (accounted_same _ (transport reset_transport w).2); [..|apply transport_accounted].
  - by apply fs_turn_ok.
  - by apply poll_ok.
  - by apply take_event_ok.
  - by apply send_event_ok.
  - apply (with_tables_keeps nothing); [|done]. intros s. left. apply exec_event.
  - done.
  - unfold configure. destruct (_ || _); [done|]. destruct root as [[x stt]|]; [|done]. intros g x'. specialize (Ha g x').
    unfold outstanding in *. cbn [snd sched tables log set_tables set_st set_line set_bell set_next_queue clear_work].
    rewrite !count_app in *. change (awaiting_event g (Some (Nodes.configured n stt x))) with (@nil (Z * Z)).
    change (count x' []) with 0. pose proof (count_nonneg x' (awaiting_event g (tables w))). lia.
  - unfold close. set (w1 := set_st None _). assert (Ha1 : accounted nothing w1).
    { by apply (accounted_same _ (transport reset_transport w).2); [..|apply transport_accounted]. }
    clearbody w1. destruct (tables w1) as [s|] eqn:Hs; [|done]. intros g x. specialize (Ha1 g x). unfold outstanding in *.
    cbn [snd sched tables log set_tables]. rewrite Hs in Ha1. rewrite !count_app in *. change (count x (awaiting_event g None)) with 0.
    pose proof (count_nonneg x (awaiting_event g (Some s))). lia.
Qed.
(** ** Where a reply is stored *)

Lemma reply_ranges_spec out payload ranges rest : reply_ranges out payload = (ranges, rest) →
  concat ranges.*2 ++ rest = payload
  ∧ ∃ k, Forall2 (λ r d, r.1 = d_addr d ∧ (length r.2 ≤ Z.to_nat (d_len d))%nat) ranges (take k out).
Proof.
  revert payload ranges rest. induction out as [|d out IH]; intros payload ranges rest; cbn [reply_ranges].
  { intros [= <- <-]. split; [done|]. by exists 0%nat. }
  destruct payload as [|c payload]; [intros [= <- <-]; split; [done|]; by exists 0%nat|].
  destruct (reply_ranges out (drop (Z.to_nat (d_len d)) (c :: payload))) as [ranges' rest'] eqn:Hr.
  intros [= <- <-]. destruct (IH _ _ _ Hr) as [Hc (k & Hk)]. split.
  - rewrite fmap_cons. cbn [concat snd]. rewrite <- app_assoc, Hc. apply take_drop.
  - exists (S k). cbn [take]. constructor; [|done]. split; [done|]. cbn [snd]. rewrite length_take. lia.
Qed.

Definition buffers_of (out : list SplitRingDescriptor) : list (Z * Z) := (λ d, (d_addr d, d_len d)) <$> out.

Lemma only_in_sub rs rs' (h h' : H) :
  (∀ x, Forall (λ r, ¬ (r.1 ≤ x < r.1 + r.2)) rs' → Forall (λ r, ¬ (r.1 ≤ x < r.1 + r.2)) rs) → only_in rs h h' → only_in rs' h h'.
Proof. intros Hs [H1 H2]. split; [|done]. intros x Hx. by apply H1, Hs. Qed.

Lemma only_in_then rs (h1 h2 h3 : H) : only_in rs h1 h2 → only_in rs h2 h3 → only_in rs h1 h3.
Proof. intros [H1 M1] [H2 M2]. split; [|intros; by rewrite M2]. intros x Hx. by rewrite H2, H1. Qed.

Lemma fs_read_pure a n h : (read a n h).2 = h.
Proof.
  unfold read. destruct (_ <? _); [done|]. apply (@read_guest_ranges_pure H DeviceError host_memory).
Qed.

Lemma write_only a bs h r h' : bytes bs → write a bs h = (r, h') → only_in [(a, zlen bs)] h h'.
Proof.
  intros Hb. unfold write. destruct (_ <? _); [by intros [= _ <-]|]. intros Hw.
  apply (@write_guest_ranges_inv H DeviceError host_memory) in Hw as [Hw _]; [exact Hw|]. by apply Forall_singleton.
Qed.

Lemma fs_index_pure a h : (read_ring_index from_mmio read a h).2 = h.
Proof.
  unfold read_ring_index, st_bind. pose proof (fs_read_pure a 2 h) as Hp. destruct (read a 2 h) as [[bs|] h1]; cbn in *; [|done].
  by destruct (_ =? 2).
Qed.

Lemma complete_ring_only used size head len h : 0 < size →
  only_in [(used, 4 + 8 * size)] h (complete_split_ring_entry from_mmio read write used size head len h).2.
Proof.
  intros Hs.
  unfold complete_split_ring_entry. destruct (size =? 0); [done|]. unfold st_bind at 1, ring_address, st_lift.
  destruct (checked_add64 used 2) as [a|] eqn:H2; [|done]. cbn [ok_or map_err].
  unfold st_bind at 1. pose proof (fs_index_pure a h) as Hp. destruct (read_ring_index from_mmio read a h) as [[i|] h1]; cbn [snd] in Hp;
    subst h1; [|done].
  unfold st_bind at 1. destruct (checked_add64 used (4 + i mod size * 8)) as [slot|] eqn:Hslot; [|done]. cbn [ok_or map_err].
  unfold st_bind at 1. destruct (write slot (le_bytes 4 head ++ le_bytes 4 len) h) as [r h1] eqn:Hw.
  apply checked_add64_Some in Hslot as [-> _]. apply checked_add64_Some in H2 as [-> _]. pose proof (Z.mod_pos_bound i size Hs) as Hi.
  apply write_only in Hw; [|by apply Forall_app; split; apply le_bytes_bytes].
  assert (O1 : only_in [(used, 4 + 8 * size)] h h1).
  { eapply only_in_sub; [|exact Hw]. intros x Hx. rewrite Forall_singleton in Hx |- *. cbn [fst snd] in *.
    unfold zlen. rewrite length_app, !le_bytes_length. lia. }
  destruct r; [|done]. unfold st_bind at 1. cbn [ok_or map_err].
  destruct (write (used + 2) (le_bytes 2 (wrapping_add16 i 1)) h1) as [r2 h2] eqn:Hw2.
  apply write_only in Hw2; [|apply le_bytes_bytes]. eapply only_in_then; [exact O1|]. cbn [snd].
  eapply only_in_sub; [|exact Hw2]. intros x Hx. rewrite Forall_singleton in Hx |- *. cbn [fst snd] in *.
  unfold zlen. rewrite le_bytes_length. lia.
Qed.

Lemma transport_mem {A} (f : stM Transport DeviceError A) w : mem (transport f w).2 = mem w.
Proof. unfold transport. destruct (st w); [|done]. destruct (f _). by destruct (Transport.take_irq _) as [[] ?]. Qed.

Lemma complete_only queue head len w t d a u n : st w = Some t →
  Transport.queue_addrs_for queue (mmio t) = Some (d, a, u, n) → 0 < n →
  only_in [(u, 4 + 8 * n)] (mem w) (mem (complete queue head len w).2).
Proof.
  intros Ht Hq Hn. unfold complete, st_bind at 1.
  match goal with |- context [transport ?f w] => destruct (transport_some f w ltac:(by eauto)) as (t' & Ht' & Hr);
    pose proof (transport_mem f w) as Hm; destruct (transport f w) as [r w1] end.
  assert (t' = t) as -> by congruence. cbn [fst snd] in *. rewrite Hq in Hr. cbn in Hr. subst r. rewrite <- Hm.
  unfold st_bind at 1. pose proof (complete_ring_only u n head len (mem w1) Hn) as Ho. unfold on_memory.
  destruct (complete_split_ring_entry _ _ _ _ _ _ _ (mem w1)) as [[] h]; cbn [snd mem set_mem] in *; [|done].
  unfold st_bind at 1. by rewrite transport_mem.
Qed.

End FsDevice.

(** C14. Each request is answered once: from a device that is not configured, after any
    sequence of register accesses, resets, turns of the worker, finished work, file
    events and changes of guest memory, in each generation of the queues no request
    was completed more often than it was taken, counting what the scheduler and the
    event worker still have to answer: a request is completed at most once, and
    not while it is still being worked on; and what was taken before a reset is not
    completed after it. *)
Theorem requests_answered_once {H E W} `{!GuestMemory H E} `{!AtomicWaker W} usize_max try_reserve address_limit entry_size
    (h : H) (b : Doorbell.t W) ops g x :
  let w := foldl (step usize_max try_reserve address_limit entry_size) (initial h b) ops in
  count x (finished g (log w)) + count x (outstanding g w) ≤ count x (taken g (log w)).
Proof.
  intros w. assert (Ha : accounted nothing w).
  { subst w. induction ops as [|o ops IH] using rev_ind; [by intros g' x'|]. rewrite foldl_app. by apply step_accounted. }
  specialize (Ha g x). unfold nothing in Ha. lia.
Qed.

(** Where a reply goes: sending one changes guest memory only inside the buffers
    the guest gave for it and inside the used ring of its queue; and when the reply
    is sent, its bytes were stored one after the other over the first of those
    buffers, none longer than its buffer, before the used ring was written. *)
Theorem reply_stored_in_buffers {H E W} `{!GuestMemory H E} `{!AtomicWaker W} usize_max try_reserve
    queue head out payload (w : world (H := H) (W := W)) t d a u n :
  bytes payload → Forall (λ x, 0 ≤ d_len x) out → st w = Some t →
  Transport.queue_addrs_for queue (mmio t) = Some (d, a, u, n) → 0 < n →
  let '(r, w') := send_reply usize_max try_reserve queue head out payload w in
  only_in (buffers_of out ++ [(u, 4 + 8 * n)]) (mem w) (mem w')
  ∧ (r = Ok tt → ∃ ranges k h, concat ranges.*2 = payload
       ∧ Forall2 (λ r x, r.1 = d_addr x ∧ zlen r.2 ≤ d_len x) ranges (take k out)
       ∧ after_stores (mem w) ranges h ∧ only_in [(u, 4 + 8 * n)] h (mem w')).
Proof.
  intros Hb Hout Ht Hq Hn. unfold send_reply. destruct (reply_ranges out payload) as [ranges rest] eqn:Hr.
  destruct (reply_ranges_spec out payload ranges rest Hr) as [Hc (k & Hk)].
  destruct (decide (rest = [])) as [->|Hrest]; [|rewrite bool_decide_eq_false_2 by done; by split].
  rewrite bool_decide_eq_true_2 by done. cbn [negb]. rewrite app_nil_r in Hc. unfold st_bind at 1, on_memory.
  assert (Hk' : Forall2 (λ r x, r.1 = d_addr x ∧ zlen r.2 ≤ d_len x) ranges (take k out)).
  { apply Forall2_same_length_lookup in Hk as [Hl Hk]. apply Forall2_same_length_lookup. split; [done|]. intros i r x Hi Hx.
    destruct (Hk i r x Hi Hx) as [? Hlen]. split; [done|]. pose proof (Forall_lookup_1 _ _ _ _ (Forall_take _ k _ Hout) Hx). cbn in *. unfold zlen. lia. }
  assert (Hbr : Forall (λ r : Z * list Z, bytes r.2) ranges).
  { rewrite <- Hc in Hb. clear -Hb. induction ranges as [|r ranges IH]; [done|]. rewrite fmap_cons in Hb. cbn in Hb.
    apply Forall_app in Hb as [H1 H2]. constructor; [done|by apply IH]. }
  destruct (write_guest_memory usize_max ranges (mem w)) as [rw h] eqn:Hw.
  apply (@write_guest_ranges_inv H DeviceError host_memory) in Hw as [Hin Hst]; [|done].
  assert (O1 : only_in (buffers_of out ++ [(u, 4 + 8 * n)]) (mem w) h).
  { eapply only_in_sub; [|exact Hin]. intros x [Hx _]%Forall_app. apply Forall_fmap, Forall_lookup_2. intros i r Hi.
    destruct (Forall2_lookup_l _ _ _ _ _ Hk' Hi) as (y & Hy & Hr1 & Hr2). cbn.
    assert (Hyo : buffers_of out !! i = Some (d_addr y, d_len y)).
    { unfold buffers_of. rewrite list_lookup_fmap. apply lookup_take_Some in Hy as [-> _]. done. }
    pose proof (Forall_lookup_1 _ _ _ _ Hx Hyo) as Hno. cbn in Hno. lia. }
  destruct rw as [[]|]; [|by split]. unfold st_bind at 1, st_lift. destruct (U32_MAX <? zlen payload); [by split|].
  pose proof (complete_only usize_max try_reserve queue head (zlen payload) (set_mem h w) t d a u n Ht Hq Hn) as Hcm.
  destruct (complete _ _ queue head (zlen payload) (set_mem h w)) as [r w2]. cbn [snd mem set_mem] in Hcm. split.
  - eapply only_in_then; [exact O1|]. eapply only_in_sub; [|exact Hcm]. intros x [_ Hx]%Forall_app. done.
  - intros _. exists ranges, k, h. split; [done|]. split; [done|]. split; [by apply Hst|done].
Qed.

(** ** A guest that initialises the file system *)

(** Descriptor 0 at 0x4000 is the INIT request at 0x1000, descriptor 1 the buffer for
    the reply at 0x1800; the rings are at 0x4100 and 0x4200. *)
#[local] Definition demo_request : list Z :=
  le_bytes 4 56 ++ le_bytes 4 26 ++ le_bytes 8 9 ++ le_bytes 8 0 ++ Wire.zeros 16
  ++ le_bytes 4 7 ++ le_bytes 4 38 ++ le_bytes 4 0 ++ le_bytes 4 0.
#[local] Definition demo_memory : GuestMem Flat.t :=
  (bounded_write 0x1000 demo_request (bounded_write 0x4102 (le_bytes 2 1)
    (bounded_write 0x4000 (le_bytes 8 0x1000 ++ le_bytes 4 56 ++ le_bytes 2 1 ++ le_bytes 2 1
                           ++ le_bytes 8 0x1800 ++ le_bytes 4 96 ++ le_bytes 2 2 ++ le_bytes 2 0)
       flat_memory).2).2).2.
#[local] Definition demo_time : Wire.Instant := Wire.mkInstant 0 0.
#[local] Definition demo_ops : list (op (H := GuestMem Flat.t)) :=
  [DConfigure [115] 16 (Some (Nodes.mkNode (Some 3) None None,
     Wire.mkStat 1 1 16877 1 1000 1000 0 0 demo_time demo_time demo_time));
   DWrite 0x70 4 1; DWrite 0x70 4 3; DWrite 0x24 4 1; DWrite 0x20 4 1; DWrite 0x70 4 11] ++
  ((λ w, DWrite w.1 4 w.2) <$> Transport.configure 1 4 0x4000 0x4100 0x4200) ++ [DWrite 0x70 4 15; DWrite 0x50 4 1].
#[local] Definition demo_world : world (H := GuestMem Flat.t) (W := bool) :=
  foldl (step U32_MAX (λ _, true) 0x5000 40) (initial demo_memory Doorbell.new) demo_ops.

(** The request is taken and completed with a reply of 80 bytes. *)
Lemma demo_init_served :
  log (step U32_MAX (λ _, true) 0x5000 40 demo_world (DTurn None)) = [Taken 0 1 0; Finished 0 1 0 80].
Proof. vm_compute. reflexivity. Qed.

#[local] Definition demo_transport : Transport := default (new_transport 0 []) (st demo_world).

Lemma reply_stored_in_buffers_witness :
  let out := [mkDesc 0x1800 10 2 0; mkDesc 0x1900 86 2 0] in
  let '(r, w') := send_reply U32_MAX (λ _, true) 1 0 out (Wire.reply 9 0 [1; 2; 3]) demo_world in
  r = Ok tt ∧ only_in (buffers_of out ++ [(0x4200, 36)]) (mem demo_world) (mem w').
Proof.
  intros out. pose proof (reply_stored_in_buffers U32_MAX (λ _, true) 1 0 out (Wire.reply 9 0 [1; 2; 3]) demo_world
    demo_transport 0x4000 0x4100 0x4200 4) as H.
  assert (Hok : (send_reply U32_MAX (λ _, true) 1 0 out (Wire.reply 9 0 [1; 2; 3]) demo_world).1 = Ok tt) by (vm_compute; reflexivity).
  destruct (send_reply _ _ 1 0 out _ demo_world) as [r w']. split; [exact Hok|]. apply H.
  - apply (bool_decide_unpack _). vm_compute. exact I.
  - repeat constructor; discriminate.
  - vm_compute. reflexivity.
  - vm_compute. reflexivity.
  - reflexivity.
Defined.
End FsDevice.
