(* ===== verification/MmioBridge.v ===== *)
(** * The MMIO bridge

    How a register access of the guest reaches its device:
    [crates/terra-runtime/src/component/mmio.rs], [mmio/device.rs], [mmio/bridge.rs]
    and the device setup of [box_runtime/setup.rs]. Clients put commands into a
    bounded queue; the bridge takes them, finds the device of each by its address,
    and works on at most one command of a device at a time, by a numbered request and
    reply on the streams of the device.

    [World] has what the tasks share and the variables of [run_bridge]. A step is
    what runs between two awaits. What the streams and the clock do is an argument
    of the step that observes it: when a request is taken, which reply comes next,
    when the timeout is over. A ticket names the channel of a reply; an error of
    [wasmtime] carries only a message and is a constructor of [Failure]. *)

From stdpp Require Import list gmap.
From S2P Require Import Prelude Limits Device BootPlan Machine.

Local Open Scope Z_scope.

Module Bridge.
Import Machine (DeviceKind, Architecture, X86, Arm, MachineConfig, c_architecture, c_devices, mmio_base).
Import Device (Operation, Read, Write, Reset, Close, Request, mkRequest, sequence, operation, offset, width, value,
  Reply, mkReply, reply_sequence, reply_value, reply_error, DeviceError).

#[local] Existing Instance Machine.DeviceKind_eq_dec.

(** ** Errors *)

Inductive Error := InvalidSlot | Unmapped | BadWidth | Overflow | Closed | Device.
#[export] Instance Error_eq_dec : EqDecision Error.
Proof. solve_decision. Defined.

Inductive Failure :=
  | FRouter (e : Error)
  | FDevice (k : DeviceKind) (e : DeviceError)
  | FReplySlot | FStreamClosed | FTimedOut
  | FStopped | FClosed | FRouterFailed (f : Failure)
  | FStopping | FNoPermit | FQueueFull
  | FDeviceUnavailable | FWidth | FAddressOverflow | FResponse
  | FMapping | FNoMapping | FOtherBox | FTooManyComponents | FOutsideBox | FOverlap | FMappingOverflow | FSetup
  | FRecorded.

Inductive QueueError := Router (e : Error) | Failed (f : Failure).
Definition router_error (e : Error) : Failure := FRouter e.
Definition into_error (e : QueueError) : Failure :=
  match e with Router e => router_error e | Failed f => f end.

Definition router_failure (e : Error) : QueueError :=
  match e with
  | Unmapped | BadWidth | Overflow => Router e
  | InvalidSlot | Closed | Device => Failed (router_error e)
  end.

(** ** Devices *)

Definition DEVICE_SPAN : Z := 0x1000.
Definition QUEUE_NOTIFY : Z := 0x050.
Definition COMMAND_CAPACITY : Z := 64.
Definition CONTROL_CAPACITY : Z := 64.
Definition MAX_BOX_COMPONENTS : Z := MAX_DEVICES.

Inductive DeviceState := Open | Resetting | Closing | ClosedState.
#[export] Instance DeviceState_eq_dec : EqDecision DeviceState.
Proof. solve_decision. Defined.
Inductive ControlOperation := CReset | CClose.
Definition from_control (o : ControlOperation) : Operation := match o with CReset => Reset | CClose => Close end.

(** [DeviceRegistration], with the state its [MmioDevice] handles share. *)
Record DeviceRegistration := mkDevice {
  kind : DeviceKind;
  slot : Z;
  base : Z;
  size : Z;
  closing : bool;
  closed : bool;
  completed : Z;
  failed : Z;
  state : DeviceState;
}.
Record DevicePlan := mkPlan { device : DeviceRegistration; mapping : option (Z * Z) }.

Definition set_state (cl : bool) (c : bool) (s : DeviceState) (d : DeviceRegistration) : DeviceRegistration :=
  mkDevice (kind d) (slot d) (base d) (size d) cl c (completed d) (failed d) s.
Definition set_window (b n : Z) (d : DeviceRegistration) : DeviceRegistration :=
  mkDevice (kind d) (slot d) b n (closing d) (closed d) (completed d) (failed d) (state d).
Definition set_counts (c f : Z) (d : DeviceRegistration) : DeviceRegistration :=
  mkDevice (kind d) (slot d) (base d) (size d) (closing d) (closed d) c f (state d).

Definition owns_access (d : DeviceRegistration) (address w : Z) : bool :=
  match checked_add64 (base d) (size d) with
  | None => false
  | Some end_ =>
      negb (closed d) && (base d <=? address)
      && match checked_add64 address w with Some access_end => access_end <=? end_ | None => false end
  end.

(** *** Setup *)

Definition window_of (config : MachineConfig) (k : DeviceKind) (ordinal : nat) : option (Z * Z) :=
  (λ d, (mmio_base d, match c_architecture config with X86 => DEVICE_SPAN | Arm => 0x200 end))
    <$> filter (λ d, Machine.kind d = k) (c_devices config) !! ordinal.

(** The new slot, and the plan with it. *)
Definition grant_worker (component_count : Z) (config : option MachineConfig) (k : DeviceKind) (plan : list DevicePlan)
    : result Failure (Z * list DevicePlan) :=
  _ ← require (component_count <? MAX_BOX_COMPONENTS) FTooManyComponents;
  let s := zlen plan in
  _ ← require (s <=? U32_MAX) FOutsideBox;
  let mapping :=
    match config with
    | Some config => window_of config k (length (filter (λ p, kind (device p) = k) plan))
    | None => Some (s * DEVICE_SPAN, DEVICE_SPAN)
    end in
  let d := mkDevice k s (from_option fst (s * DEVICE_SPAN) mapping) (from_option snd DEVICE_SPAN mapping)
             false false 0 0 Open in
  Ok (s, plan ++ [mkPlan d mapping]).

(** The latest grant is taken back. *)
Definition revoke_worker (s : Z) (plan : list DevicePlan) : result Failure (list DevicePlan) :=
  match last plan with
  | Some p => if slot (device p) =? s then Ok (removelast plan) else Err FOtherBox
  | None => Err FOtherBox
  end.

Definition map_mmio (s b n : Z) (plan : list DevicePlan) : result Failure (list DevicePlan) :=
  _ ← require (negb (n =? 0) && bool_decide (is_Some (checked_add64 b n))) FMapping;
  match plan !! Z.to_nat s with
  | Some p => if slot (device p) =? s
              then Ok (<[Z.to_nat s := mkPlan (set_window b n (device p)) (Some (b, n))]> plan)
              else Err FOtherBox
  | None => Err FOtherBox
  end.

(** [mapping] against the window of a device with a smaller slot. *)
Definition check_apart (m : Z * Z) (earlier : DeviceRegistration) : result Failure unit :=
  end_ ← ok_or FMappingOverflow (checked_add64 (base earlier) (size earlier));
  require ((end_ <=? m.1) || (m.1 + m.2 <=? base earlier)) FOverlap.

Fixpoint check_all_apart (m : Z * Z) (earlier : list DeviceRegistration) : result Failure unit :=
  match earlier with
  | [] => Ok tt
  | d :: earlier => _ ← check_apart m d; check_all_apart m earlier
  end.

(** [setup]: whether the component of a slot comes up. [channels]: how many have
    come up. *)
Fixpoint prepare_loop (setup : Z → bool) (devices : list DeviceRegistration) (channels : Z) (plans : list DevicePlan)
    : result Failure unit :=
  match plans with
  | [] => Ok tt
  | p :: plans =>
      m ← ok_or FNoMapping (mapping p);
      let s := slot (device p) in
      _ ← require ((channels =? s) && negb (m.2 =? 0) && bool_decide (is_Some (checked_add64 m.1 m.2))) FOutsideBox;
      _ ← check_all_apart m (take (Z.to_nat s) devices);
      _ ← require (setup s) FSetup;
      prepare_loop setup devices (channels + 1) plans
  end.

(** The registry that is published. *)
Definition prepare_devices (setup : Z → bool) (plans : list DevicePlan) : result Failure (list DeviceRegistration) :=
  let devices := device <$> plans in
  _ ← prepare_loop setup devices 0 plans;
  Ok devices.

(** ** Commands *)

Inductive Command := Access (address w v : Z) (write : bool) | Control (s : Z) (o : Operation).
Definition is_control (c : Command) : bool := match c with Control _ _ => true | Access _ _ _ _ => false end.

(** [ReplyOwner]: its channel, and the device whose control guard it holds. *)
Record ReplyOwner := mkReplyOwner { ticket : Z; control : option Z }.
(** [Pending]; its queue permit is one for its kind of command. *)
Record Pending := mkPending { command : Command; reply : ReplyOwner }.

Record RoutedReply := mkRouted { routed_slot : Z; routed_reply : Reply }.
Definition Outcome : Type := result QueueError RoutedReply.

Inductive Event :=
  | Accepted (t : Z) (c : Command)
  | Refused (t : Z)
  | Sent (s t : Z) (r : Request)
  | Answered (t : Z) (o : Outcome).

(** A dispatched command: [dispatch_pending] up to its next await. [op_channel] is the
    sequence of the device channel it was given. *)
Inductive Phase := Fresh | Sending (r : Request) | Waiting (seq : Z).
Record Op := mkOp {
  op_command : Command;
  op_reply : ReplyOwner;
  op_slot : option Z;
  op_channel : option Z;
  op_phase : Phase;
}.

Inductive Status := Running | Draining | Returned (r : result Failure unit).

Record World := mkWorld {
  devices : list DeviceRegistration;
  admission : option Failure;
  failure : option Failure;
  data_permits : Z;
  control_permits : Z;
  queue : list Pending;
  status : Status;
  control_operations : list Op;
  data_operations : list Op;
  active_slots : gset Z;
  pending : list (Pending * option Z);
  channels : list (option Z);
  next_ticket : Z;
  log : list Event;
}.

Definition set_devices x w := mkWorld x (admission w) (failure w) (data_permits w) (control_permits w) (queue w) (status w)
  (control_operations w) (data_operations w) (active_slots w) (pending w) (channels w) (next_ticket w) (log w).
Definition set_admission x w := mkWorld (devices w) x (failure w) (data_permits w) (control_permits w) (queue w) (status w)
  (control_operations w) (data_operations w) (active_slots w) (pending w) (channels w) (next_ticket w) (log w).
Definition set_failure x w := mkWorld (devices w) (admission w) x (data_permits w) (control_permits w) (queue w) (status w)
  (control_operations w) (data_operations w) (active_slots w) (pending w) (channels w) (next_ticket w) (log w).
Definition set_permits x y w := mkWorld (devices w) (admission w) (failure w) x y (queue w) (status w)
  (control_operations w) (data_operations w) (active_slots w) (pending w) (channels w) (next_ticket w) (log w).
Definition set_queue x w := mkWorld (devices w) (admission w) (failure w) (data_permits w) (control_permits w) x (status w)
  (control_operations w) (data_operations w) (active_slots w) (pending w) (channels w) (next_ticket w) (log w).
Definition set_status x w := mkWorld (devices w) (admission w) (failure w) (data_permits w) (control_permits w) (queue w) x
  (control_operations w) (data_operations w) (active_slots w) (pending w) (channels w) (next_ticket w) (log w).
Definition set_operations x y w := mkWorld (devices w) (admission w) (failure w) (data_permits w) (control_permits w) (queue w)
  (status w) x y (active_slots w) (pending w) (channels w) (next_ticket w) (log w).
Definition set_slots x y w := mkWorld (devices w) (admission w) (failure w) (data_permits w) (control_permits w) (queue w)
  (status w) (control_operations w) (data_operations w) x (pending w) y (next_ticket w) (log w).
Definition set_pending x w := mkWorld (devices w) (admission w) (failure w) (data_permits w) (control_permits w) (queue w)
  (status w) (control_operations w) (data_operations w) (active_slots w) x (channels w) (next_ticket w) (log w).
Definition take_ticket w := mkWorld (devices w) (admission w) (failure w) (data_permits w) (control_permits w) (queue w)
  (status w) (control_operations w) (data_operations w) (active_slots w) (pending w) (channels w) (next_ticket w + 1) (log w).
Definition add_log x w := mkWorld (devices w) (admission w) (failure w) (data_permits w) (control_permits w) (queue w)
  (status w) (control_operations w) (data_operations w) (active_slots w) (pending w) (channels w) (next_ticket w) (log w ++ x).

(** [Queue::new] and [run_bridge] before its first turn. *)
Definition start (ds : list DeviceRegistration) : World :=
  mkWorld ds None None COMMAND_CAPACITY CONTROL_CAPACITY [] Running [] [] ∅ [] (replicate (length ds) (Some 0)) 0 [].

(** ** Control guards and replies *)

Definition dev_alter (f : DeviceRegistration → DeviceRegistration) (s : Z) (ds : list DeviceRegistration)
    : list DeviceRegistration := alter f (Z.to_nat s) ds.

(** [ControlGuard::drop] *)
Definition drop_guard (succeeded : bool) (s : Z) (w : World) : World :=
  set_devices (dev_alter (λ d,
    let st := match state d with Resetting => if succeeded then Open else ClosedState | _ => ClosedState end in
    set_state (closing d) (bool_decide (st = ClosedState)) st d) s (devices w)) w.

Definition drop_control (succeeded : bool) (c : option Z) (w : World) : World :=
  match c with Some s => drop_guard succeeded s w | None => w end.

(** [ReplyOwner::complete] *)
Definition complete (r : ReplyOwner) (o : Outcome) (w : World) : World :=
  add_log [Answered (ticket r) o] (drop_control (is_ok o) (control r) w).

(** [ReplyOwner::drop] of a reply that was not sent. *)
Definition drop_reply (r : ReplyOwner) (w : World) : World :=
  complete r (Err (Failed (default FStopped (admission w)))) w.

Definition release_permit (c : Command) (w : World) : World :=
  if is_control c then set_permits (data_permits w) (control_permits w + 1) w
  else set_permits (data_permits w + 1) (control_permits w) w.
Definition drop_pending (p : Pending) (w : World) : World := release_permit (command p) (drop_reply (reply p) w).

(** ** Clients *)

(** [try_acquire_owned] *)
Definition try_acquire (c : Command) (w : World) : result Failure World :=
  if is_control c
  then if 0 <? control_permits w then Ok (set_permits (data_permits w) (control_permits w - 1) w) else Err FNoPermit
  else if 0 <? data_permits w then Ok (set_permits (data_permits w - 1) (control_permits w) w) else Err FNoPermit.

(** What [tokio]'s channel does: it is closed once the bridge has returned, and full
    with as many commands as the two kinds of permits. *)
Definition try_send (p : Pending) (w : World) : result Failure World :=
  if match status w with Returned _ => true | _ => false end then Err FClosed
  else if COMMAND_CAPACITY + CONTROL_CAPACITY <=? zlen (queue w) then Err FQueueFull
  else Ok (set_queue (queue w ++ [p]) w).

(** A refused command is dropped with its guard and its permit; nobody has the other end
    of its reply then. *)
Definition enqueue_reply (c : Command) (control : option Z) (w : World) : result Failure Z * World :=
  let t := next_ticket w in
  let w := take_ticket w in
  let refuse f w := (Err f, add_log [Refused t] (drop_control false control w)) in
  match try_acquire c w with
  | Err f => refuse f w
  | Ok w =>
      match admission w with
      | Some _ => refuse FStopping (release_permit c w)
      | None =>
          match try_send (mkPending c (mkReplyOwner t control)) w with
          | Err f => refuse f (release_permit c w)
          | Ok w => (Ok t, add_log [Accepted t c] w)
          end
      end
  end.

(** [submit] and [submit_async] up to the wait for the reply. A recorded failure drops
    the guard. *)
Definition submit (c : Command) (control : option Z) (w : World) : result Failure Z * World :=
  match failure w with
  | Some f => (Err f, drop_control false control w)
  | None => enqueue_reply c control w
  end.

(** [wait_for_reply] with what has come: [None] is the timeout. *)
Definition wait_for_reply (w : World) (response : option Outcome) : result Failure RoutedReply :=
  r ← ok_or FResponse response;
  map_err (λ e, default (into_error e) (failure w)) r.

Definition guest_access_value (r : result QueueError Z) : result Failure Z :=
  match r with
  | Ok v => Ok v
  | Err (Router _) => Ok 0
  | Err (Failed f) => Err f
  end.

(** [Client::await_value] *)
Definition await_value (w : World) (response : option Outcome) : result Failure Z :=
  r ← ok_or FResponse response;
  guest_access_value (map_err (λ e, match failure w with Some f => Failed f | None => e end)
                        ((λ r, reply_value (routed_reply r)) <$> r)).

(** [Client::access_from_vcpu] up to the wait. *)
Definition access_from_vcpu (address width value : Z) (write : bool) (w : World) : result Failure Z * World :=
  submit (Access address width value write) None w.

Definition is_queue_notify (ds : list DeviceRegistration) (address w : Z) : bool :=
  (w =? 4) && existsb (λ d, owns_access d address w && (address - base d =? QUEUE_NOTIFY)) ds.

(** [Client::post_queue_notify]: [Ok None] is not a notification. *)
Definition post_queue_notify (address width value : Z) (w : World) : result Failure (option Z) * World :=
  if negb (is_queue_notify (devices w) address width) then (Ok None, w) else
  let '(r, w) := submit (Access address width value true) None w in (Some <$> r, w).

(** ** Handles *)

Definition validate_width (n : Z) : result Failure unit :=
  require ((n =? 1) || (n =? 2) || (n =? 4) || (n =? 8)) FWidth.

Definition device_address (d : DeviceRegistration) (off : Z) : result Failure Z :=
  ok_or FAddressOverflow (checked_add64 (base d) off).

(** [MmioDevice::request] up to the wait. *)
Definition request (s : Z) (c : Command) (w : World) : result Failure Z * World :=
  match failure w, devices w !! Z.to_nat s with
  | Some f, _ => (Err f, w)
  | None, None => (Err FDeviceUnavailable, w)
  | None, Some d =>
      if bool_decide (state d = Open) then enqueue_reply c None w else (Err FDeviceUnavailable, w)
  end.

(** [MmioDevice::read] and [write] up to the wait. *)
Definition device_read (s off len : Z) (w : World) : result Failure Z * World :=
  match (_ ← validate_width len; d ← ok_or FDeviceUnavailable (devices w !! Z.to_nat s); device_address d off) with
  | Ok address => request s (Access address len 0 false) w
  | Err f => (Err f, w)
  end.
Definition device_write (s off : Z) (bs : list Z) (w : World) : result Failure Z * World :=
  match (_ ← validate_width (zlen bs); d ← ok_or FDeviceUnavailable (devices w !! Z.to_nat s); device_address d off) with
  | Ok address => request s (Access address (zlen bs) (from_le bs) true) w
  | Err f => (Err f, w)
  end.

(** [MmioDevice::begin_control]: [Ok false] when there is nothing to do. *)
Definition begin_control (o : ControlOperation) (s : Z) (w : World) : result Failure bool * World :=
  match devices w !! Z.to_nat s with
  | None => (Err FDeviceUnavailable, w)
  | Some d =>
      match state d, o with
      | Open, CReset => (Ok true, set_devices (dev_alter (λ d, set_state (closing d) (closed d) Resetting d) s (devices w)) w)
      | Open, CClose => (Ok true, set_devices (dev_alter (λ d, set_state true (closed d) Closing d) s (devices w)) w)
      | ClosedState, CClose => (Ok false, w)
      | _, _ => (Err FDeviceUnavailable, w)
      end
  end.

(** [MmioDevice::control] and [close_async] up to the wait. *)
Definition device_control (o : ControlOperation) (s : Z) (w : World) : result Failure (option Z) * World :=
  match begin_control o s w with
  | (Err f, w) => (Err f, w)
  | (Ok false, w) => (Ok None, w)
  | (Ok true, w) => let '(r, w) := submit (Control s (from_control o)) (Some s) w in (Some <$> r, w)
  end.

(** ** Dispatched commands *)

Definition command_slot (ds : list DeviceRegistration) (c : Command) : option Z :=
  match c with
  | Control s _ => Some s
  | Access address w _ _ => slot <$> List.find (λ d, owns_access d address w) ds
  end.

Definition request_fields (ds : list DeviceRegistration) (c : Command) (s : option Z)
    : result QueueError (Operation * Z * Z * Z) :=
  match c with
  | Access address w v write =>
      if negb ((w =? 1) || (w =? 2) || (w =? 4) || (w =? 8)) then Err (router_failure BadWidth) else
      if negb (bool_decide (is_Some (checked_add64 address w))) then Err (router_failure Overflow) else
      match s ≫= λ s, ds !! Z.to_nat s with
      | Some d => if closed d then Err (router_failure Unmapped)
                  else Ok (if write then Write else Read, address - base d, w, v)
      | None => Err (router_failure Unmapped)
      end
  | Control _ o => Ok (o, 0, 0, 0)
  end.

(** [fetch_add] wraps. *)
Definition count_up (n : Z) : Z := (n + 1) mod 2 ^ 64.

Definition complete_device (ds : list DeviceRegistration) (r : RoutedReply) : result Failure unit * list DeviceRegistration :=
  match ds !! Z.to_nat (routed_slot r) with
  | None => (Err FReplySlot, ds)
  | Some d =>
      match reply_error (routed_reply r) with
      | Some e => (Err (FDevice (kind d) e),
                   dev_alter (λ d, set_counts (completed d) (count_up (failed d)) d) (routed_slot r) ds)
      | None => (Ok tt, dev_alter (λ d, set_counts (count_up (completed d)) (failed d) d) (routed_slot r) ds)
      end
  end.

(** What a poll observes of the streams of the device: that the request was taken or
    that the stream is closed, and the next reply or the end of the replies. *)
Inductive Io := Taken (ok : bool) | Replied (r : option Reply).
Inductive Poll := Ready (o : Outcome) | NotReady (p : Phase).

Definition await_reply (s seq : Z) (ios : list Io) (ds : list DeviceRegistration) : Poll * list DeviceRegistration :=
  match ios with
  | Replied None :: _ => (Ready (Err (router_failure Closed)), ds)
  | Replied (Some r) :: _ =>
      if negb (reply_sequence r =? seq) then (Ready (Err (router_failure Device)), ds) else
      let routed := mkRouted s r in
      match complete_device ds routed with
      | (Ok _, ds) => (Ready (Ok routed), ds)
      | (Err f, ds) => (Ready (Err (Failed f)), ds)
      end
  | _ => (NotReady (Waiting seq), ds)
  end.

Definition await_send (s t : Z) (r : Request) (ios : list Io) (ds : list DeviceRegistration)
    : Poll * list Event * list DeviceRegistration :=
  match ios with
  | Taken false :: _ => (Ready (Err (Failed FStreamClosed)), [], ds)
  | Taken true :: ios => let '(p, ds) := await_reply s (sequence r) ios ds in (p, [Sent s t r], ds)
  | _ => (NotReady (Sending r), [], ds)
  end.

(** The future of [dispatch_pending] polled once, without its timeout. The sequence of the
    channel is advanced before the request is sent. *)
Definition poll_inner (o : Op) (ios : list Io) (ds : list DeviceRegistration)
    : Poll * option Z * list Event * list DeviceRegistration :=
  let t := ticket (op_reply o) in
  match op_phase o, op_slot o, op_channel o with
  | Fresh, s, ch =>
      match request_fields ds (op_command o) s with
      | Err e => (Ready (Err e), ch, [], ds)
      | Ok (operation, off, w, v) =>
          match s, ch with
          | Some s, Some seq =>
              match checked_add64 seq 1 with
              | None => (Ready (Err (router_failure Device)), ch, [], ds)
              | Some next => let '(p, l, ds) := await_send s t (mkRequest seq operation off w v) ios ds in (p, Some next, l, ds)
              end
          | _, _ => (Ready (Err (router_failure InvalidSlot)), ch, [], ds)
          end
      end
  | Sending r, Some s, ch => let '(p, l, ds) := await_send s t r ios ds in (p, ch, l, ds)
  | Waiting seq, Some s, ch => let '(p, ds) := await_reply s seq ios ds in (p, ch, [], ds)
  | ph, None, ch => (NotReady ph, ch, [], ds)
  end.

(** With [tokio::time::timeout]. *)
Definition poll_op (o : Op) (ios : list Io) (expired : bool) (ds : list DeviceRegistration)
    : Poll * option Z * list Event * list DeviceRegistration :=
  let '(p, ch, l, ds) := poll_inner o ios ds in
  (match p with NotReady _ => if expired then Ready (Err (Failed FTimedOut)) else p | Ready _ => p end, ch, l, ds).

(** ** The bridge *)

Definition has_capacity (c : Command) (controls datas : Z) : bool :=
  if is_control c then controls <? CONTROL_CAPACITY else datas <? COMMAND_CAPACITY.

Definition eligible (active : gset Z) (controls datas : Z) (before : list (Pending * option Z)) (x : Pending * option Z) : bool :=
  let predecessor := existsb (λ y, bool_decide (y.2 = x.2 ∧ is_Some x.2)) before in
  has_capacity (command x.1) controls datas && negb predecessor
  && match x.2 with Some s => negb (bool_decide (s ∈ active)) | None => true end.

Fixpoint find_pending (active : gset Z) (controls datas : Z) (before rest : list (Pending * option Z)) : option nat :=
  match rest with
  | [] => None
  | x :: rest => if eligible active controls datas before x then Some (length before)
                 else find_pending active controls datas (before ++ [x]) rest
  end.

Definition next_pending (pending : list (Pending * option Z)) (active : gset Z) (controls datas : Z) : option nat :=
  find_pending active controls datas [] pending.

Definition next (w : World) : option nat :=
  next_pending (pending w) (active_slots w) (zlen (control_operations w)) (zlen (data_operations w)).

(** One turn of the loop that dispatches; [None] when there is nothing to dispatch. *)
Definition dispatch (w : World) : option World :=
  i ← next w;
  x ← pending w !! i;
  let '(p, s) := x in
  let w := set_pending (delete i (pending w)) w in
  let '(ch, w) := match s with
                  | Some s => (mjoin (channels w !! Z.to_nat s),
                               set_slots ({[s]} ∪ active_slots w) (<[Z.to_nat s := None]> (channels w)) w)
                  | None => (None, w)
                  end in
  let o := mkOp (command p) (reply p) s ch Fresh in
  let w := release_permit (command p) w in
  Some (if is_control (command p) then set_operations (control_operations w ++ [o]) (data_operations w) w
        else set_operations (control_operations w) (data_operations w ++ [o]) w).

Definition all_devices_closed (ds : list DeviceRegistration) : bool :=
  negb (bool_decide (ds = [])) && forallb closed ds.

(** [stop_bridge]: what is queued is dropped. *)
Definition stop_bridge (reason : Failure) (w : World) : World :=
  let w := set_admission (Some reason) w in
  foldl (λ w p, drop_pending p w) (set_queue [] w) (queue w).

(** [run_bridge] returns: its variables are dropped, the latest first, then the receiver. *)
Definition return_bridge (r : result Failure unit) (w : World) : World :=
  let held := pending w in
  let ops := data_operations w ++ control_operations w in
  let queued := queue w in
  let w := set_queue [] (set_pending [] (set_operations [] [] w)) in
  let w := foldl (λ w x, drop_pending x.1 w) w held in
  let w := foldl (λ w o, drop_reply (op_reply o) w) w ops in
  let w := foldl (λ w p, drop_pending p w) w queued in
  set_status (Returned r) w.

(** [BridgeEvent::Pending] *)
Definition receive (w : World) : World :=
  match queue w with
  | [] => w
  | p :: queue => set_pending (pending w ++ [(p, command_slot (devices w) (command p))]) (set_queue queue w)
  end.

(** The channel of a completed command goes back to its device. *)
Definition give_back (s ch : option Z) (w : World) : World :=
  match s, ch with
  | Some s, Some ch => set_slots (active_slots w ∖ {[s]}) (<[Z.to_nat s := Some ch]> (channels w)) w
  | _, _ => w
  end.

(** [drain_operations] is done when no operation is left. *)
Definition drained (w : World) : World :=
  match control_operations w ++ data_operations w with
  | [] => return_bridge (Ok tt) w
  | _ => w
  end.

(** [BridgeEvent::Completion] *)
Definition completed_op (o : Op) (ch : option Z) (outcome : Outcome) (w : World) : World :=
  let w := give_back (op_slot o) ch w in
  let w := complete (op_reply o) outcome w in
  match outcome with
  | Err (Failed f) =>
      let reason := FRouterFailed f in
      return_bridge (Err reason) (stop_bridge reason w)
  | _ =>
      if all_devices_closed (devices w) then drained (set_status Draining (stop_bridge FStopped w)) else w
  end.

Definition operation_set (controls : bool) (w : World) : list Op :=
  if controls then control_operations w else data_operations w.
Definition put_operations (controls : bool) (ops : list Op) (w : World) : World :=
  if controls then set_operations ops (data_operations w) w else set_operations (control_operations w) ops w.

(** One operation of one of the two sets is polled. *)
Definition poll (controls : bool) (i : nat) (ios : list Io) (expired : bool) (w : World) : World :=
  let ops := operation_set controls w in
  match ops !! i with
  | None => w
  | Some o =>
      let '(p, ch, l, ds) := poll_op o ios expired (devices w) in
      let w := add_log l (set_devices ds w) in
      match p with
      | NotReady ph => put_operations controls (<[i := mkOp (op_command o) (op_reply o) (op_slot o) ch ph]> ops) w
      | Ready outcome =>
          let w := put_operations controls (delete i ops) w in
          match status w with
          | Draining => drained (complete (op_reply o) outcome w)
          | _ => completed_op o ch outcome w
          end
      end
  end.

(** ** Every use *)

(** A handle is named by the slot of its device. *)
Inductive op :=
  | AccessVcpu (address width value : Z) (write : bool)
  | PostNotify (address width value : Z)
  | DeviceRead (h : nat) (off len : Z)
  | DeviceWrite (h : nat) (off : Z) (bs : list Z)
  | DeviceControl (o : ControlOperation) (h : nat)
  | RecordFailure (f : Failure)
  | Dispatch
  | Receive
  | PollOp (controls : bool) (i : nat) (ios : list Io) (expired : bool)
  | SendersGone.

(** The bridge waits for events only when there is nothing to dispatch. *)
Definition waits (w : World) : bool :=
  match status w with Running => bool_decide (next w = None) | _ => false end.

Definition is_draining (w : World) : bool := match status w with Draining => true | _ => false end.

Definition step (w : World) (o : op) : World :=
  match o with
  | AccessVcpu address width value write => (access_from_vcpu address width value write w).2
  | PostNotify address width value => (post_queue_notify address width value w).2
  | DeviceRead h off len => (device_read (Z.of_nat h) off len w).2
  | DeviceWrite h off bs => (device_write (Z.of_nat h) off bs w).2
  | DeviceControl o h => (device_control o (Z.of_nat h) w).2
  | RecordFailure f => set_failure (Some f) w
  | Dispatch => match status w with Running => default w (dispatch w) | _ => w end
  | Receive => if waits w then receive w else w
  | PollOp controls i ios expired =>
      if waits w || is_draining w then poll controls i ios expired w else w
  | SendersGone => if waits w then return_bridge (Err FClosed) (stop_bridge FClosed w) else w
  end.

Definition run (w : World) (os : list op) : World := foldl step w os.
End Bridge.
