(* ===== verification/MmioRouting.v ===== *)
(** * Routing and order of MMIO accesses

    Over every history of the MMIO bridge ([MmioBridge]): each command is answered
    once, requests reach the device that owns the address, in the order in which
    they were accepted and numbered without gaps, one at a time; and no command
    waits without a reason. *)

From stdpp Require Import list gmap sorting.
From S2P Require Import Prelude Limits Device BootPlan Machine MmioBridge.

Local Open Scope Z_scope.

Module Routing.
Import Bridge.
Import Machine (DeviceKind).
Import Device (Operation, Read, Write, Request, mkRequest, sequence, operation, offset, width, value, reply_sequence).

(** ** What a history says *)

Definition accepted (l : list Event) : list (Z * Command) :=
  omap (λ e, match e with Accepted t c => Some (t, c) | _ => None end) l.
Definition answered (l : list Event) : list Z :=
  omap (λ e, match e with Answered t _ => Some t | _ => None end) l.
(** The requests sent to a device, with their tickets. *)
Definition sent (s : Z) (l : list Event) : list (Z * Request) :=
  omap (λ e, match e with Sent s' t r => if s' =? s then Some (t, r) else None | _ => None end) l.

Definition operations (w : World) : list Op := control_operations w ++ data_operations w.
Definition p_entry (p : Pending) : Z * Command := (ticket (reply p), command p).
Definition o_entry (o : Op) : Z * Command := (ticket (op_reply o), op_command o).
(** The commands that are accepted and not answered. *)
Definition held (w : World) : list (Z * Command) :=
  (o_entry <$> operations w) ++ (p_entry ∘ fst <$> pending w) ++ (p_entry <$> queue w).

(** What never changes of a device. *)
Definition window (d : DeviceRegistration) : DeviceKind * Z * Z * Z := (kind d, slot d, base d, size d).

#[local] Arguments accepted l : simpl never.
#[local] Arguments answered l : simpl never.
#[local] Arguments sent s l : simpl never.
#[local] Arguments operations w : simpl never.
#[local] Arguments held w : simpl never.

Lemma accepted_app l k : accepted (l ++ k) = accepted l ++ accepted k.
Proof. apply omap_app. Qed.
Lemma answered_app l k : answered (l ++ k) = answered l ++ answered k.
Proof. apply omap_app. Qed.
Lemma sent_app s l k : sent s (l ++ k) = sent s l ++ sent s k.
Proof. apply omap_app. Qed.

Lemma windows_alter f s ds : (∀ d, window (f d) = window d) → window <$> dev_alter f s ds = window <$> ds.
Proof.
  intros Hf. apply list_eq. intros i. rewrite !list_lookup_fmap. unfold dev_alter.
  destruct (decide (i = Z.to_nat s)) as [->|Hi].
  - rewrite list_lookup_alter_eq. destruct (ds !! _); cbn; by rewrite ?Hf.
  - by rewrite list_lookup_alter_ne by done.
Qed.

(** ** Dropping commands *)

Definition answers (ts : list Z) (l : list Event) : Prop :=
  Forall2 (λ t e, ∃ f, e = Answered t (Err f)) ts l.

Lemma answers_log ts l : answers ts l → accepted l = [] ∧ answered l = ts ∧ ∀ s, sent s l = [].
Proof. induction 1 as [|t e ts l (f & ->) _ (IH1 & IH2 & IH3)]; [done|]. split_and!; [exact IH1|exact (f_equal (cons t) IH2)|exact IH3]. Qed.

(** [w'] is [w] with the replies [ts] dropped and their guards, but for the permits. *)
Record shed (ts : list Z) (w w' : World) : Prop := {
  shed_windows : window <$> devices w' = window <$> devices w;
  shed_admission : admission w' = admission w;
  shed_failure : failure w' = failure w;
  shed_queue : queue w' = queue w;
  shed_status : status w' = status w;
  shed_controls : control_operations w' = control_operations w;
  shed_datas : data_operations w' = data_operations w;
  shed_active : active_slots w' = active_slots w;
  shed_pending : pending w' = pending w;
  shed_channels : channels w' = channels w;
  shed_ticket : next_ticket w' = next_ticket w;
  shed_log : ∃ l, log w' = log w ++ l ∧ answers ts l;
}.

Lemma shed_nil w : shed [] w w.
Proof. split; try done. exists []. rewrite app_nil_r. split; [done|constructor]. Qed.

Lemma shed_trans ts us w w' w'' : shed ts w w' → shed us w' w'' → shed (ts ++ us) w w''.
Proof.
  intros [] []. split; try congruence.
  destruct shed_log0 as (l & El & Hl), shed_log1 as (k & Ek & Hk). exists (l ++ k). split; [by rewrite Ek, El, app_assoc|by apply Forall2_app].
Qed.

Lemma drop_control_windows b c w : window <$> devices (drop_control b c w) = window <$> devices w.
Proof. destruct c as [s|]; [|done]. cbn. apply windows_alter. done. Qed.

Lemma shed_reply r w : shed [ticket r] w (drop_reply r w).
Proof.
  unfold drop_reply, complete. pose proof (drop_control_windows (is_ok (E:=QueueError) (A:=RoutedReply) (Err (Failed (default FStopped (admission w))))) (control r) w) as Hw.
  destruct r as [t [s|]]; cbn in *; (split; cbn; try done).
  all: eexists; split; [done|]; repeat constructor; by eexists.
Qed.

Lemma shed_permit ts c w w' : shed ts w w' → shed ts w (release_permit c w').
Proof. intros []. unfold release_permit. destruct (is_control c); split; done. Qed.

Lemma shed_pendings ps w : shed (ticket ∘ reply <$> ps) w (foldl (λ w p, drop_pending p w) w ps).
Proof.
  revert w. induction ps as [|p ps IH]; intros w; [apply shed_nil|].
  cbn [foldl fmap list_fmap]. apply (shed_trans [_] _ _ (drop_pending p w)); [|apply IH]. apply shed_permit, shed_reply.
Qed.

Lemma shed_held xs w :
  shed (ticket ∘ reply ∘ fst <$> xs) w (foldl (λ w (x : Pending * option Z), drop_pending x.1 w) w xs).
Proof.
  revert w. induction xs as [|p ps IH]; intros w; [apply shed_nil|].
  cbn [foldl fmap list_fmap]. apply (shed_trans [_] _ _ (drop_pending p.1 w)); [|apply IH]. apply shed_permit, shed_reply.
Qed.

Lemma shed_ops os w : shed (ticket ∘ op_reply <$> os) w (foldl (λ w o, drop_reply (op_reply o) w) w os).
Proof.
  revert w. induction os as [|o os IH]; intros w; [apply shed_nil|].
  cbn [foldl fmap list_fmap]. apply (shed_trans [_] _ _ (drop_reply (op_reply o) w)); [|apply IH]. apply shed_reply.
Qed.

(** ** The invariant *)

Definition Windows : Type := list (DeviceKind * Z * Z * Z).
Definition in_window (W : Windows) (s a n : Z) : Prop :=
  0 ≤ s ∧ ∃ k i b m, W !! Z.to_nat s = Some (k, i, b, m) ∧ b ≤ a ∧ a + n ≤ b + m.

(** The device a command was found to be for. *)
Definition slot_ok (W : Windows) (c : Command) (s : option Z) : Prop :=
  match c, s with
  | Control s' _, _ => s = Some s'
  | Access a n _ _, Some s => in_window W s a n
  | Access _ _ _ _, None => True
  end.

(** The request a device gets for a command. *)
Definition routed (W : Windows) (s : Z) (c : Command) (r : Request) : Prop :=
  match c with
  | Control s' o => s' = s ∧ r = mkRequest (sequence r) o 0 0 0
  | Access a n v wr =>
      n ∈ [1; 2; 4; 8] ∧ in_window W s a n
      ∧ ∃ k i b m, W !! Z.to_nat s = Some (k, i, b, m)
        ∧ r = mkRequest (sequence r) (if wr then Write else Read) (a - b) n v
  end.

Definition nsent (s : Z) (l : list Event) : Z := zlen (sent s l).

Definition op_ok (W : Windows) (l : list Event) (o : Op) : Prop :=
  slot_ok W (op_command o) (op_slot o) ∧
  match op_slot o, op_phase o with
  | None, ph => ph = Fresh ∧ op_channel o = None
  | Some s, Fresh => op_channel o = Some (nsent s l)
  | Some s, Sending r => op_channel o = Some (nsent s l + 1) ∧ sequence r = nsent s l ∧ routed W s (op_command o) r
  | Some s, Waiting seq => op_channel o = Some (nsent s l) ∧ ∃ r, Sent s (ticket (op_reply o)) r ∈ l ∧ sequence r = seq
  end.

Definition is_sent (o : Op) : bool := match op_phase o with Waiting _ => true | _ => false end.
Definition unsent (s : Z) (o : Op) : option Z :=
  if bool_decide (op_slot o = Some s) && negb (is_sent o) then Some (ticket (op_reply o)) else None.
Definition waiting (s : Z) (x : Pending * option Z) : option Z :=
  if bool_decide (x.2 = Some s) then Some (ticket (reply x.1)) else None.
(** The tickets that go to a device, from the first that was sent to those that may
    still be sent to it. *)
Definition lane (s : Z) (w : World) : list Z :=
  (sent s (log w)).*1 ++ omap (unsent s) (operations w) ++ omap (waiting s) (pending w) ++ (ticket ∘ reply <$> queue w).

Definition increasing (l : list Z) : Prop := StronglySorted Z.lt l.

(** How many commands of a kind hold a permit. *)
Definition n_commands (k : bool) (w : World) : Z :=
  zlen (filter (λ p, is_control (command p) = k) (queue w ++ (pending w).*1)).

Record inv0 (W : Windows) (w : World) : Prop := {
  i_windows : window <$> devices w = W;
  i_accepted : increasing ((accepted (log w)).*1 ++ [next_ticket w]);
  i_balance : (accepted (log w)).*1 ≡ₚ answered (log w) ++ (held w).*1;
  i_held : ∀ e, e ∈ held w → e ∈ accepted (log w);
  i_control : ∀ t s o, (t, Control s o) ∈ accepted (log w) → 0 ≤ s < zlen W;
  i_lane : ∀ s, increasing (lane s w ++ [next_ticket w]);
  i_slots : NoDup (omap op_slot (operations w));
  i_operations : Forall (op_ok W (log w)) (operations w);
  i_pending : Forall (λ x, slot_ok W (command x.1) x.2) (pending w);
  i_sequence : ∀ s, sequence ∘ snd <$> sent s (log w) = seqZ 0 (nsent s (log w));
  i_sent : ∀ s t r, Sent s t r ∈ log w → ∃ c, (t, c) ∈ accepted (log w) ∧ routed W s c r;
  i_reply : ∀ t r, Answered t (Ok r) ∈ log w →
            ∃ q, Sent (routed_slot r) t q ∈ log w ∧ reply_sequence (routed_reply r) = sequence q;
  i_bounded : zlen (control_operations w) ≤ CONTROL_CAPACITY ∧ zlen (data_operations w) ≤ COMMAND_CAPACITY;
}.

(** What holds while the bridge runs. *)
Record running (W : Windows) (w : World) : Prop := {
  i_active : ∀ s, s ∈ active_slots w ↔ s ∈ omap op_slot (operations w);
  i_length : length (channels w) = length W;
  i_channels : ∀ s, 0 ≤ s < zlen W → s ∉ active_slots w → channels w !! Z.to_nat s = Some (Some (nsent s (log w)));
  i_data : 0 ≤ data_permits w ∧ data_permits w + n_commands false w = COMMAND_CAPACITY;
  i_controls : 0 ≤ control_permits w ∧ control_permits w + n_commands true w = CONTROL_CAPACITY;
}.

Definition inv (W : Windows) (w : World) : Prop :=
  inv0 W w ∧
  match status w with
  | Running => running W w
  | Draining => is_Some (admission w) ∧ queue w = []
  | Returned _ => is_Some (admission w) ∧ held w = []
  end.

Lemma start_inv ds : inv (window <$> ds) (start ds).
Proof.
  split; split; cbn; try done; try (by intros; repeat match goal with H : _ ∈ [] |- _ => apply elem_of_nil in H end);
    try (intros; repeat constructor; fail).
  - intros t s o H. by apply elem_of_nil in H.
  - unfold operations. set_solver.
  - by rewrite length_replicate, length_fmap.
  - intros s Hs _. apply lookup_replicate_2. unfold zlen in Hs. rewrite length_fmap in Hs. lia.
Qed.

(** *** Ordered lists *)

Lemma increasing_sublist l k : l `sublist_of` k → increasing k → increasing l.
Proof.
  induction 1 as [|x l k Hs IH|x l k Hs IH]; intros Hk; [done| |]; apply StronglySorted_cons in Hk as [Hx Hk].
  - apply StronglySorted_cons. split; [|by apply IH]. rewrite Forall_forall in *. intros y Hy. apply Hx.
    by apply (elem_of_sublist _ _ _ Hy Hs).
  - by apply IH.
Qed.

Lemma increasing_next l t : increasing (l ++ [t]) → increasing ((l ++ [t]) ++ [t + 1]).
Proof.
  intros Hl. apply StronglySorted_app. split_and!; [|done|repeat constructor].
  intros x y Hx Hy%list_elem_of_singleton. subst. apply StronglySorted_app in Hl as (Hl & _ & _).
  apply elem_of_app in Hx as [Hx| ->%list_elem_of_singleton]; [|lia]. specialize (Hl x t Hx (list_elem_of_here _ _)). lia.
Qed.

Lemma increasing_skip l t : increasing (l ++ [t]) → increasing (l ++ [t + 1]).
Proof.
  intros Hl. apply increasing_next in Hl. eapply increasing_sublist; [|exact Hl].
  apply sublist_app; [|done]. by apply sublist_inserts_r.
Qed.

Lemma increasing_NoDup l : increasing l → NoDup l.
Proof.
  induction 1 as [|x l Hl IH Hx]; constructor; [|done]. intros Hin. rewrite Forall_forall in Hx.
  specialize (Hx x Hin). lia.
Qed.

(** *** Fewer commands *)

(** Commands leave with an answer: an answer that is not an error is one to a request
    that was sent. *)
Definition settled (l : list Event) (t : Z) (e : Event) : Prop :=
  ∃ o, e = Answered t o
  ∧ ∀ r, o = Ok r → ∃ q, Sent (routed_slot r) t q ∈ l ∧ reply_sequence (routed_reply r) = sequence q.

Lemma answers_settled l ts k : answers ts k → Forall2 (settled l) ts k.
Proof. intros H. eapply Forall2_impl; [exact H|]. intros t e (f & ->). exists (Err f). by split. Qed.

Lemma settled_log l ts k : Forall2 (settled l) ts k → accepted k = [] ∧ answered k = ts ∧ ∀ s, sent s k = [].
Proof.
  induction 1 as [|t e ts k (o & -> & _) _ (IH1 & IH2 & IH3)]; [done|].
  split_and!; [exact IH1|exact (f_equal (cons t) IH2)|exact IH3].
Qed.

Lemma settled_not_sent l ts k s t r : Forall2 (settled l) ts k → Sent s t r ∉ k.
Proof.
  induction 1 as [|u e ts k (o & -> & _) _ IH]; [apply not_elem_of_nil|]. apply not_elem_of_cons. by split.
Qed.

Lemma settled_answer l ts k t r : Forall2 (settled l) ts k → Answered t (Ok r) ∈ k →
  ∃ q, Sent (routed_slot r) t q ∈ l ∧ reply_sequence (routed_reply r) = sequence q.
Proof.
  induction 1 as [|u e ts k (o & -> & Ho) _ IH]; intros Hin; [by apply elem_of_nil in Hin|].
  apply elem_of_cons in Hin as [[= <- <-]|Hin]; [by apply Ho|by apply IH].
Qed.

Lemma op_ok_ext W l k o : (∀ s, sent s k = []) → op_ok W l o → op_ok W (l ++ k) o.
Proof.
  intros Hk [Hs Ho]. split; [done|]. unfold nsent in *. destruct (op_slot o) as [s|]; [|done].
  rewrite sent_app, Hk, app_nil_r. destruct (op_phase o); try done.
  destruct Ho as (? & r & ? & ?). split; [done|]. exists r. split; [|done]. apply elem_of_app. by left.
Qed.

Lemma omap_of_sublist {A B} (f : A → option B) l k : l `sublist_of` k → omap f l `sublist_of` omap f k.
Proof.
  induction 1 as [|x l k _ IH|x l k _ IH]; [done| |]; cbn; destruct (f x); try done; by constructor.
Qed.

Lemma fmap_sublist {A B} (f : A → B) l k : l `sublist_of` k → f <$> l `sublist_of` f <$> k.
Proof. induction 1; cbn; by constructor. Qed.

Lemma inv0_shrink W w w' ts k :
  inv0 W w → window <$> devices w' = W → next_ticket w' = next_ticket w →
  log w' = log w ++ k → Forall2 (settled (log w)) ts k →
  (held w).*1 ≡ₚ ts ++ (held w').*1 →
  control_operations w' `sublist_of` control_operations w → data_operations w' `sublist_of` data_operations w →
  pending w' `sublist_of` pending w → queue w' `sublist_of` queue w →
  inv0 W w'.
Proof.
  intros I Hw Ht Hl Hk Hh Hco Hda Hp Hq. destruct (settled_log _ _ _ Hk) as (Ka & Kn & Ks).
  assert (Ho : operations w' `sublist_of` operations w) by by apply sublist_app.
  assert (Ea : accepted (log w') = accepted (log w)) by by rewrite Hl, accepted_app, Ka, app_nil_r.
  assert (Es : ∀ s, sent s (log w') = sent s (log w)) by (intros s; by rewrite Hl, sent_app, Ks, app_nil_r).
  split.
  - done.
  - rewrite Ea, Ht. apply I.
  - rewrite Ea, (i_balance _ _ I), Hl, answered_app, Kn, Hh. by rewrite <- app_assoc.
  - intros e He. rewrite Ea. apply (i_held _ _ I). revert e He. apply sublist_subseteq.
    unfold held. repeat apply sublist_app; by apply fmap_sublist.
  - intros t s o. rewrite Ea. apply I.
  - intros s. rewrite Ht. eapply increasing_sublist; [|apply (i_lane _ _ I s)]. apply sublist_app; [|done].
    unfold lane. rewrite Es. repeat apply sublist_app; try done; [by apply omap_of_sublist|by apply omap_of_sublist|by apply fmap_sublist].
  - eapply sublist_NoDup; [apply (i_slots _ _ I)|by apply omap_of_sublist].
  - rewrite Hl. apply Forall_forall. intros o Hin. apply op_ok_ext; [done|].
    pose proof (i_operations _ _ I) as HO. rewrite Forall_forall in HO. apply HO. by eapply elem_of_sublist.
  - apply Forall_forall. intros x Hin. pose proof (i_pending _ _ I) as HO. rewrite Forall_forall in HO. apply HO. by eapply elem_of_sublist.
  - intros s. unfold nsent. rewrite Es. apply I.
  - intros s t r. rewrite Hl, elem_of_app, accepted_app, Ka, app_nil_r. intros [H|H]; [by apply I|].
    by apply (settled_not_sent _ _ _ _ _ _ Hk) in H.
  - intros t r. rewrite Hl, elem_of_app. setoid_rewrite elem_of_app. intros [H|H].
    + destruct (i_reply _ _ I t r H) as (q & Hq1 & Hq2). eauto.
    + destruct (settled_answer _ _ _ _ _ Hk H) as (q & Hq1 & Hq2). eauto.
  - destruct (i_bounded _ _ I). apply sublist_length in Hco, Hda. unfold zlen in *. lia.
Qed.

Lemma held_tickets w :
  (held w).*1 = (ticket ∘ op_reply <$> operations w) ++ (ticket ∘ reply ∘ fst <$> pending w) ++ (ticket ∘ reply <$> queue w).
Proof. unfold held. by rewrite !fmap_app, <- !list_fmap_compose. Qed.

Lemma stop_inv0 W w f : inv0 W w →
  inv0 W (stop_bridge f w) ∧ queue (stop_bridge f w) = [] ∧ admission (stop_bridge f w) = Some f
  ∧ status (stop_bridge f w) = status w ∧ pending (stop_bridge f w) = pending w
  ∧ control_operations (stop_bridge f w) = control_operations w ∧ data_operations (stop_bridge f w) = data_operations w.
Proof.
  intros I. unfold stop_bridge. pose proof (shed_pendings (queue w) (set_queue [] (set_admission (Some f) w))) as S.
  destruct S as [Sw Sa Sf Sq Ss Sc Sd Sv Sp Sch St (l & Sl & Hl)]. cbn in *. split_and!; try done.
  eapply (inv0_shrink W w _ (ticket ∘ reply <$> queue w) l); try done.
  - rewrite Sw. apply I.
  - by apply answers_settled.
  - rewrite !held_tickets. unfold operations. rewrite Sc, Sd, Sp, Sq. cbn. rewrite app_nil_r. solve_Permutation.
  - by rewrite Sc.
  - by rewrite Sd.
  - by rewrite Sp.
  - rewrite Sq. apply sublist_nil_l.
Qed.

Lemma return_inv W w r : inv0 W w → is_Some (admission w) →
  inv W (return_bridge r w) ∧ status (return_bridge r w) = Returned r.
Proof.
  intros I Ha. unfold return_bridge.
  set (w0 := set_queue [] (set_pending [] (set_operations [] [] w))).
  pose proof (shed_held (pending w) w0) as S1. set (w1 := foldl _ w0 _) in *.
  pose proof (shed_ops (data_operations w ++ control_operations w) w1) as S2. set (w2 := foldl _ w1 _) in *.
  pose proof (shed_pendings (queue w) w2) as S3. set (w3 := foldl _ w2 _) in *.
  pose proof (shed_trans _ _ _ _ _ (shed_trans _ _ _ _ _ S1 S2) S3) as S. clear S1 S2 S3.
  destruct S as [Sw Sa Sf Sq Ss Sc Sd Sv Sp Sch St (l & Sl & Hl)]. cbn in *.
  assert (Hh : held (set_status (Returned r) w3) = []).
  { unfold held, operations. cbn. by rewrite Sc, Sd, Sp, Sq. }
  split; [|done]. split; [|cbn; by rewrite Sa].
  eapply (inv0_shrink W w _ _ l); try done.
  - cbn. rewrite Sw. apply I.
  - by apply answers_settled.
  - rewrite Hh, held_tickets. cbn. rewrite app_nil_r. unfold operations. rewrite !fmap_app. solve_Permutation.
  - cbn. rewrite Sc. apply sublist_nil_l.
  - cbn. rewrite Sd. apply sublist_nil_l.
  - cbn. rewrite Sp. apply sublist_nil_l.
  - cbn. rewrite Sq. apply sublist_nil_l.
Qed.

(** *** Clients *)

Record quiet (w w' : World) : Prop := {
  q_shed : shed [] w w';
  q_data : data_permits w' = data_permits w;
  q_controls : control_permits w' = control_permits w;
}.

Lemma quiet_inv W w w' : quiet w w' → inv W w → inv W w'.
Proof.
  intros [[Sw Sa Sf Sq Ss Sc Sd Sv Sp Sch St (l & Sl & Hl)] Qd Qc] [I J].
  apply Forall2_nil_inv_l in Hl as ->. rewrite app_nil_r in Sl.
  assert (Ho : operations w' = operations w) by (unfold operations; congruence).
  assert (Hh : held w' = held w) by (unfold held; congruence).
  split.
  - eapply (inv0_shrink W w w' [] []); try done; rewrite ?Sc, ?Sd, ?Sp, ?Sq, ?Hh; try done; [rewrite Sw; apply I|by rewrite app_nil_r].
  - rewrite Ss. destruct (status w); rewrite ?Sa, ?Sq, ?Hh; [|done|done]. destruct J as [].
    split; unfold n_commands; rewrite ?Sv, ?Ho, ?Sch, ?Sl, ?Qd, ?Qc, ?Sq, ?Sp; done.
Qed.

Lemma quiet_devices w ds : window <$> ds = window <$> devices w → quiet w (set_devices ds w).
Proof. intros H. split; [|done|done]. split; try done. exists []. cbn. rewrite app_nil_r. split; [done|constructor]. Qed.

Lemma quiet_control b c w : quiet w (drop_control b c w).
Proof.
  destruct c as [s|]; [|split; [apply shed_nil|done|done]]. apply quiet_devices, windows_alter. done.
Qed.

Lemma elem_of_log_snoc (l : list Event) e x : x ∈ l ++ [e] ↔ x ∈ l ∨ x = e.
Proof. rewrite elem_of_app, list_elem_of_singleton. done. Qed.

(** A ticket is used for nothing. *)
Lemma refuse_inv W w t : inv W w → inv W (add_log [Refused t] (take_ticket w)).
Proof.
  intros [I J]. split.
  - destruct I. split; cbn; rewrite ?accepted_app, ?answered_app; cbn; rewrite ?app_nil_r; try done.
    + by apply increasing_skip.
    + intros s. unfold lane. cbn. rewrite sent_app, app_nil_r. apply increasing_skip, i_lane0.
    + eapply Forall_impl; [done|]. intros o. by apply op_ok_ext.
    + intros s. unfold nsent. rewrite sent_app, app_nil_r. apply i_sequence0.
    + intros s u r [?|[=]]%elem_of_log_snoc. by apply i_sent0.
    + intros u r [?|[=]]%elem_of_log_snoc. destruct (i_reply0 u r) as (q & ? & ?); [done|]. exists q. rewrite elem_of_log_snoc. by split; [left|].
  - cbn. destruct (status w); [|done|done]. destruct J as []. split; try done. intros s. cbn. unfold nsent.
    rewrite sent_app, app_nil_r. apply i_channels0.
Qed.

Definition take_permit (c : Command) (w : World) : World :=
  if is_control c then set_permits (data_permits w) (control_permits w - 1) w
  else set_permits (data_permits w - 1) (control_permits w) w.

Lemma try_acquire_spec c w w' : try_acquire c w = Ok w' →
  w' = take_permit c w ∧ if is_control c then 0 < control_permits w else 0 < data_permits w.
Proof.
  unfold try_acquire, take_permit. destruct (is_control c).
  all: destruct (0 <? _) eqn:H; [|done]; intros [= <-]; split; [done|]; by apply Z.ltb_lt in H.
Qed.

Lemma n_commands_snoc k p w :
  n_commands k (set_queue (queue w ++ [p]) w) = n_commands k w + if Bool.eqb (is_control (command p)) k then 1 else 0.
Proof.
  unfold n_commands, zlen. cbn. rewrite <- app_assoc, !filter_app, !length_app, filter_cons. cbn.
  destruct (is_control (command p)), k; case_decide; try done; cbn; lia.
Qed.

Lemma accept_inv W w c ctl :
  inv W w → status w = Running → (∀ s o, c = Control s o → 0 ≤ s < zlen W) →
  (if is_control c then 0 < control_permits w else 0 < data_permits w) →
  let p := mkPending c (mkReplyOwner (next_ticket w) ctl) in
  inv W (add_log [Accepted (next_ticket w) c] (set_queue (queue w ++ [p]) (take_permit c (take_ticket w)))).
Proof.
  intros [I J] HR Hc Hn p. rewrite HR in J.
  set (w' := add_log _ _).
  assert (F : devices w' = devices w ∧ log w' = log w ++ [Accepted (next_ticket w) c] ∧ next_ticket w' = next_ticket w + 1
    ∧ control_operations w' = control_operations w ∧ data_operations w' = data_operations w ∧ pending w' = pending w
    ∧ queue w' = queue w ++ [p] ∧ active_slots w' = active_slots w ∧ channels w' = channels w ∧ status w' = Running).
  { subst w'. unfold take_permit. destruct (is_control c); by rewrite <- HR. }
  destruct F as (Fd & Fl & Ft & Fc & Fa & Fp & Fq & Fv & Fch & Fs).
  assert (Ho : operations w' = operations w) by (unfold operations; congruence).
  assert (Hs : ∀ s, sent s (log w') = sent s (log w)) by (intros s; by rewrite Fl, sent_app, app_nil_r).
  assert (Ha : accepted (log w') = accepted (log w) ++ [(next_ticket w, c)]) by by rewrite Fl, accepted_app.
  assert (Hh : held w' = held w ++ [(next_ticket w, c)]).
  { unfold held. rewrite Ho, Fp, Fq, fmap_app, !app_assoc. done. }
  split.
  - destruct I. split; rewrite ?Fd, ?Ft, ?Ha, ?Ho, ?Fp, ?Fc, ?Fa; try done.
    + rewrite fmap_app. by apply increasing_next.
    + rewrite Hh, !fmap_app, i_balance0, Fl, answered_app. change (answered [Accepted (next_ticket w) c]) with (@nil Z). by rewrite app_nil_r, app_assoc.
    + rewrite Hh. intros e [He|He]%elem_of_app; apply elem_of_app; [left; by apply i_held0|by right].
    + intros t s o [H|[= _ Hco]%list_elem_of_singleton]%elem_of_app; [by eapply i_control0|]. by eapply Hc.
    + intros s. replace (lane s w') with (lane s w ++ [next_ticket w]); [by apply increasing_next|].
      unfold lane. rewrite Hs, Ho, Fp, Fq, fmap_app, !app_assoc. done.
    + rewrite Fl. eapply Forall_impl; [done|]. intros o. by apply op_ok_ext.
    + intros s. unfold nsent. rewrite Hs. apply i_sequence0.
    + intros s t r. rewrite Fl. intros [H|[=]]%elem_of_log_snoc. destruct (i_sent0 _ _ _ H) as (c' & ? & ?).
      exists c'. rewrite elem_of_app. by split; [left|].
    + intros t r. rewrite Fl. intros [H|[=]]%elem_of_log_snoc. destruct (i_reply0 _ _ H) as (q & ? & ?).
      exists q. rewrite elem_of_log_snoc. by split; [left|].
  - rewrite Fs. destruct J. split; rewrite ?Fv, ?Ho, ?Fch; try done.
    + intros s. unfold nsent. rewrite Hs. apply i_channels0.
    + replace (n_commands false w') with (n_commands false (set_queue (queue w ++ [p]) w)) by (unfold n_commands; by rewrite Fq, Fp).
      rewrite n_commands_snoc. subst w'. unfold take_permit. cbn [p command]. destruct (is_control c); cbn in *; lia.
    + replace (n_commands true w') with (n_commands true (set_queue (queue w ++ [p]) w)) by (unfold n_commands; by rewrite Fq, Fp).
      rewrite n_commands_snoc. subst w'. unfold take_permit. cbn [p command]. destruct (is_control c); cbn in *; lia.
Qed.

Lemma quiet_trans w w' w'' : quiet w w' → quiet w' w'' → quiet w w''.
Proof. intros [? ? ?] [? ? ?]. split; [by apply (shed_trans [] [] _ w')|congruence|congruence]. Qed.

Lemma quiet_return c w : quiet w (release_permit c (take_permit c w)).
Proof.
  unfold release_permit, take_permit. destruct (is_control c); (split; [|cbn; lia|cbn; lia]); (split; try done).
  all: exists []; cbn; rewrite app_nil_r; split; [done|constructor].
Qed.

Lemma refuse_quiet_inv W w w' t ctl : inv W w → quiet (take_ticket w) w' → inv W (add_log [Refused t] (drop_control false ctl w')).
Proof.
  intros I Q. pose proof (quiet_trans _ _ _ Q (quiet_control false ctl w')) as [[] ? ?].
  eapply quiet_inv; [|apply (refuse_inv W w t I)]. split; [|done|done].
  split; try done. destruct shed_log0 as (l & El & ->%Forall2_nil_inv_l). rewrite app_nil_r in El.
  exists []. cbn in *. rewrite El, app_nil_r. split; [done|constructor].
Qed.

Lemma quiet_refl w : quiet w w.
Proof. split; [apply shed_nil|done|done]. Qed.

Lemma enqueue_inv W w c ctl : inv W w → (∀ s o, c = Control s o → 0 ≤ s < zlen W) → inv W (enqueue_reply c ctl w).2.
Proof.
  intros I Hc. unfold enqueue_reply. destruct (try_acquire c (take_ticket w)) as [w1|f] eqn:Hq.
  2:{ apply (refuse_quiet_inv W w); [done|]. apply quiet_refl. }
  apply try_acquire_spec in Hq as [-> Hn].
  assert (Fa : admission (take_permit c (take_ticket w)) = admission w) by (unfold take_permit; by destruct (is_control c)).
  assert (Fs : status (take_permit c (take_ticket w)) = status w) by (unfold take_permit; by destruct (is_control c)).
  assert (Fq : queue (take_permit c (take_ticket w)) = queue w) by (unfold take_permit; by destruct (is_control c)).
  rewrite Fa. destruct (admission w) eqn:Ha.
  { apply (refuse_quiet_inv W w); [done|]. apply quiet_return. }
  destruct (try_send _ _) as [w2|f] eqn:Hs.
  2:{ apply (refuse_quiet_inv W w); [done|]. apply quiet_return. }
  unfold try_send in Hs. rewrite Fs, Fq in Hs. destruct (status w) eqn:HS.
  - destruct (_ <=? _); [done|]. injection Hs as <-. apply accept_inv; try done.
  - destruct I as [_ J]. rewrite HS, Ha in J. by destruct J as [[? ?] _].
  - done.
Qed.

Lemma submit_inv W w c ctl : inv W w → (∀ s o, c = Control s o → 0 ≤ s < zlen W) → inv W (submit c ctl w).2.
Proof.
  intros I Hc. unfold submit. destruct (failure w); [|by apply enqueue_inv]. eapply quiet_inv; [apply quiet_control|done].
Qed.

Lemma request_inv W w s a n v b : inv W w → inv W (request s (Access a n v b) w).2.
Proof.
  intros I. unfold request. destruct (failure w), (devices w !! Z.to_nat s) as [d|]; try done.
  destruct (bool_decide _); [|done]. by apply enqueue_inv.
Qed.

Lemma device_read_inv W w s off len : inv W w → inv W (device_read s off len w).2.
Proof.
  intros I. unfold device_read. destruct (_ ← _; _); [|done]. by apply request_inv.
Qed.

Lemma device_write_inv W w s off bs : inv W w → inv W (device_write s off bs w).2.
Proof. intros I. unfold device_write. destruct (_ ← _; _); [|done]. by apply request_inv. Qed.

Lemma post_inv W w a n v : inv W w → inv W (post_queue_notify a n v w).2.
Proof.
  intros I. unfold post_queue_notify. destruct (negb _); [done|].
  pose proof (submit_inv W w (Access a n v true) None I) as H. destruct (submit _ _ w) as [r w']. by apply H.
Qed.

Lemma begin_control_spec o s w r w' : begin_control o s w = (r, w') →
  quiet w w' ∧ (r = Ok true → is_Some (devices w !! Z.to_nat s)).
Proof.
  unfold begin_control. destruct (devices w !! Z.to_nat s) as [d|] eqn:Hd; [|intros [= <- <-]; split; [apply quiet_refl|done]].
  destruct (state d), o; intros [= <- <-]; (split; [|done || eauto]); try apply quiet_refl.
  all: apply quiet_devices, windows_alter; done.
Qed.

Lemma device_control_inv W w o h : inv W w → inv W (device_control o (Z.of_nat h) w).2.
Proof.
  intros I. unfold device_control. destruct (begin_control o (Z.of_nat h) w) as [r w1] eqn:Hb.
  apply begin_control_spec in Hb as [Q Hr]. apply (quiet_inv W) in Q; [|done].
  destruct r as [[]|f]; [|done|done].
  pose proof (submit_inv W w1 (Control (Z.of_nat h) (from_control o)) (Some (Z.of_nat h)) Q) as H.
  destruct (submit _ _ w1) as [r w2]. apply H. intros s o' [= <- _]. destruct (Hr eq_refl) as [d Hd%lookup_lt_Some].
  rewrite Nat2Z.id in Hd. destruct I as [I _]. rewrite <- (i_windows _ _ I). unfold zlen. rewrite length_fmap. lia.
Qed.

(** *** The bridge takes commands *)

Definition slots_ok (W : Windows) : Prop := ∀ i k s b n, W !! i = Some (k, s, b, n) → s = Z.of_nat i.

Lemma owns_access_inv d a n : owns_access d a n = true → base d ≤ a ∧ a + n ≤ base d + size d.
Proof.
  unfold owns_access. destruct (checked_add64 (base d) (size d)) as [e|] eqn:He; [|done].
  destruct (checked_add64 a n) as [ae|] eqn:Ha; [|by rewrite andb_false_r].
  apply checked_add64_Some in He as [-> _]. apply checked_add64_Some in Ha as [-> _]. intros H. breflect. lia.
Qed.

Lemma command_slot_ok W ds c : window <$> ds = W → slots_ok W → slot_ok W c (command_slot ds c).
Proof.
  intros <- HW. destruct c as [a n v b|s o]; [|done]. cbn. destruct (List.find _ ds) as [d|] eqn:Hd; [|done].
  apply find_some in Hd as [Hin Ho]. apply list_elem_of_In, list_elem_of_lookup in Hin as [i Hi]. cbn.
  assert (Hw : (window <$> ds) !! i = Some (kind d, slot d, base d, size d)) by by rewrite list_lookup_fmap, Hi.
  pose proof (HW _ _ _ _ _ Hw) as Hs. split; [lia|]. exists (kind d), (slot d), (base d), (size d).
  rewrite Hs at 1. rewrite Nat2Z.id. split; [done|]. by apply owns_access_inv.
Qed.

Lemma n_commands_Permutation k w w' :
  queue w' ++ (pending w').*1 ≡ₚ queue w ++ (pending w).*1 → n_commands k w' = n_commands k w.
Proof. intros H. unfold n_commands, zlen. by rewrite H. Qed.

Lemma receive_inv W w : slots_ok W → inv W w → status w = Running → inv W (receive w).
Proof.
  intros HW [I J] HR. rewrite HR in J. unfold receive. destruct (queue w) as [|p q] eqn:Hq; [by split; [|rewrite HR]|].
  set (s := command_slot (devices w) (command p)). set (w' := set_pending _ _).
  assert (Ho : operations w' = operations w) by done.
  assert (Hh : held w' = held w).
  { unfold held. rewrite Ho, Hq. cbn. rewrite fmap_app, <- app_assoc. done. }
  split; [|cbn; rewrite HR].
  - destruct I. split; rewrite ?Hh, ?Ho; try done.
    + intros s'. cbn. eapply increasing_sublist; [|apply (i_lane0 s')]. apply sublist_app; [|done].
      unfold lane. rewrite Ho, Hq. cbn. rewrite omap_app, <- app_assoc. do 3 (apply sublist_app; [done|]).
      unfold waiting at 1. cbn. destruct (bool_decide _); cbn; [done|]. by constructor.
    + cbn. apply Forall_app. split; [done|]. constructor; [|constructor]. by apply command_slot_ok.
  - destruct J. split; try done.
    all: rewrite (n_commands_Permutation _ w w'); [done|]; rewrite Hq; cbn; rewrite fmap_app; cbn; solve_Permutation.
Qed.

Lemma find_pending_spec active nc nd before rest :
  match find_pending active nc nd before rest with
  | Some i => ∃ a x b, rest = a ++ x :: b ∧ i = length (before ++ a) ∧ eligible active nc nd (before ++ a) x = true
  | None => ∀ a x b, rest = a ++ x :: b → eligible active nc nd (before ++ a) x = false
  end.
Proof.
  revert before. induction rest as [|x rest IH]; intros before; cbn; [by intros []|].
  destruct (eligible active nc nd before x) eqn:Hx.
  { exists [], x, rest. rewrite app_nil_r. done. }
  specialize (IH (before ++ [x])). destruct (find_pending _ _ _ _ rest) as [i|].
  - destruct IH as (a & y & b & -> & -> & Hy). exists (x :: a), y, b. rewrite <- app_assoc in *. done.
  - intros [|z a] y b Heq; cbn in Heq; injection Heq as -> ->.
    + by rewrite app_nil_r.
    + specialize (IH a y b eq_refl). by rewrite <- app_assoc in IH.
Qed.

Lemma eligible_inv active nc nd before x : eligible active nc nd before x = true →
  has_capacity (command x.1) nc nd = true
  ∧ ∀ s, x.2 = Some s → s ∉ active ∧ Forall (λ y, y.2 ≠ Some s) before.
Proof.
  unfold eligible. intros H. breflect. split; [done|]. intros s Hs. rewrite Hs in *. breflect. split; [done|].
  apply Forall_forall. intros y Hy Hys. assert (Ht : existsb (λ y : Pending * option Z, bool_decide (y.2 = Some s ∧ is_Some (Some s))) before = true).
  { apply existsb_exists. exists y. split; [by apply list_elem_of_In|]. apply bool_decide_eq_true. eauto. }
  congruence.
Qed.

Lemma slot_range W w c s t : inv0 W w → slot_ok W c (Some s) → (t, c) ∈ held w → 0 ≤ s < zlen W.
Proof.
  intros I Hs Hin. destruct c as [a n v b|s' o]; cbn in Hs.
  - destruct Hs as (? & k & i & b' & m & Hl%lookup_lt_Some & _). unfold zlen. lia.
  - injection Hs as <-. eapply (i_control _ _ I). by apply (i_held _ _ I).
Qed.

Lemma omap_unsent_none s os : s ∉ omap op_slot os → omap (unsent s) os = [].
Proof.
  induction os as [|o os IH]; [done|]. cbn. unfold unsent at 1. destruct (op_slot o) as [s'|]; cbn.
  - intros [Hn Hs]%not_elem_of_cons. rewrite bool_decide_eq_false_2 by congruence. by apply IH.
  - intros Hs. by apply IH.
Qed.

Lemma omap_waiting_none s xs : Forall (λ x : Pending * option Z, x.2 ≠ Some s) xs → omap (waiting s) xs = [].
Proof. induction 1 as [|x xs Hx _ IH]; [done|]. cbn. unfold waiting at 1. by rewrite bool_decide_eq_false_2. Qed.

(** What [dispatch] does, told with the lists it cuts. *)
Lemma dispatch_spec W w w' : inv W w → status w = Running → dispatch w = Some w' →
  ∃ a p s b x y o,
    pending w = a ++ (p, s) :: b ∧ operations w = x ++ y
    ∧ o = mkOp (command p) (reply p) s (if s is Some s then Some (nsent s (log w)) else None) Fresh
    ∧ (∀ s', s = Some s' → s' ∉ active_slots w ∧ Forall (λ y, y.2 ≠ Some s') a ∧ 0 ≤ s' < zlen W)
    ∧ pending w' = a ++ b ∧ operations w' = x ++ o :: y
    ∧ zlen (control_operations w') ≤ CONTROL_CAPACITY ∧ zlen (data_operations w') ≤ COMMAND_CAPACITY
    ∧ devices w' = devices w ∧ log w' = log w ∧ next_ticket w' = next_ticket w ∧ queue w' = queue w ∧ status w' = Running
    ∧ active_slots w' = (if s is Some s then {[s]} ∪ active_slots w else active_slots w)
    ∧ channels w' = (if s is Some s then <[Z.to_nat s := None]> (channels w) else channels w)
    ∧ data_permits w' = data_permits w + (if is_control (command p) then 0 else 1)
    ∧ control_permits w' = control_permits w + (if is_control (command p) then 1 else 0).
Proof.
  intros [I J] HR. rewrite HR in J. unfold dispatch, next, next_pending.
  pose proof (find_pending_spec (active_slots w) (zlen (control_operations w)) (zlen (data_operations w)) [] (pending w)) as Hf.
  destruct (find_pending _ _ _ [] _) as [i|]; [|done]. destruct Hf as (a & [p s] & b & Hp & -> & He).
  cbn [app mbind option_bind]. rewrite Hp, list_lookup_middle by done. cbn.
  apply eligible_inv in He as [Hcap Hs]. cbn [fst snd app] in Hcap, Hs.
  assert (Hr : ∀ s', s = Some s' → 0 ≤ s' < zlen W).
  { intros s' ->. pose proof (i_pending _ _ I) as HP. rewrite Hp, Forall_app, Forall_cons in HP. destruct HP as (_ & HP & _).
    eapply (slot_range W w _ s' (ticket (reply p)) I HP). unfold held. rewrite Hp, !elem_of_app, fmap_app. right; left.
    apply elem_of_app. right. left. }
  assert (Hd : delete (length a) (a ++ (p, s) :: b) = a ++ b).
  { by rewrite delete_middle. }
  assert (Hch : ∀ s', s = Some s' → mjoin (channels w !! Z.to_nat s') = Some (nsent s' (log w))).
  { intros s' ->. destruct (Hs s' eq_refl) as [Hn _]. by rewrite (i_channels _ _ J s' (Hr s' eq_refl) Hn). }
  pose proof (i_bounded _ _ I) as [Bc Bd].
  intros Heq. exists a, p, s, b. unfold has_capacity in Hcap. unfold release_permit in Heq.
  destruct (is_control (command p)) eqn:Hk; [exists (control_operations w), (data_operations w)|exists (operations w), []];
    eexists; (split; [done|]); (split; [by rewrite ?app_nil_r|]); (split; [done|]); (split; [intros s' Hs'; destruct (Hs s' Hs'); auto|]).
  all: destruct s as [s'|]; injection Heq as <-; cbn; rewrite ?Hch by done; rewrite ?Hd; unfold operations; cbn; rewrite <- ?app_assoc;
    (split_and!; try done; try lia; unfold zlen in *; rewrite ?length_app in *; cbn; breflect; lia).
Qed.

Lemma n_commands_middle k w w' a p s b :
  pending w = a ++ (p, s) :: b → pending w' = a ++ b → queue w' = queue w →
  n_commands k w = n_commands k w' + if Bool.eqb (is_control (command p)) k then 1 else 0.
Proof.
  intros Hp Hp' Hq. unfold n_commands, zlen. rewrite Hp, Hp', Hq, !fmap_app. cbn. rewrite !filter_app, !length_app, filter_cons.
  destruct (is_control (command p)), k; case_decide; try done; cbn; lia.
Qed.

Lemma dispatch_inv W w w' : inv W w → status w = Running → dispatch w = Some w' → inv W w'.
Proof.
  intros [I J] HR Hd. destruct (dispatch_spec W w w' (conj I J) HR Hd)
    as (a & p & s & b & x & y & o & Hp & Ho & Hoe & Hs & Hp' & Ho' & Bc & Bd & Fd & Fl & Ft & Fq & FR & Fa & Fc & Pd & Pc).
  rewrite HR in J.
  assert (Hh : held w' ≡ₚ held w).
  { unfold held. rewrite Ho', Ho, Hp, Hp', Fq, !fmap_app, Hoe. cbn. solve_Permutation. }
  assert (Hn : ∀ s', s = Some s' → s' ∉ omap op_slot (x ++ y)).
  { intros s' Hs'. destruct (Hs s' Hs') as (Hs1 & _). by rewrite <- Ho, <- (i_active _ _ J). }
  split; [|rewrite FR].
  - destruct I. split; rewrite ?Fd, ?Fl, ?Ft, ?Hp', ?Ho'; try done.
    + by rewrite Hh.
    + intros e. rewrite Hh. by apply i_held0.
    + intros s'. replace (lane s' w') with (lane s' w); [done|]. unfold lane. rewrite Fl, Fq, Ho', Ho, Hp, Hp', !omap_app.
      f_equal. rewrite !app_assoc. f_equal. cbn. unfold unsent at 4, waiting at 2. rewrite Hoe. cbn. rewrite andb_true_r.
      destruct (bool_decide (s = Some s')) eqn:E; breflect; [|done].
      destruct (Hs s' E) as (_ & Ha & _). specialize (Hn s' E). rewrite omap_app in Hn. apply not_elem_of_app in Hn as [Hx Hy].
      rewrite (omap_unsent_none s' x), (omap_unsent_none s' y), (omap_waiting_none s' a) by done. done.
    + rewrite omap_app. cbn. rewrite Ho, omap_app in i_slots0. rewrite Hoe. cbn. destruct s as [s'|]; [|done].
      specialize (Hn s' eq_refl). rewrite omap_app in Hn. rewrite <- Permutation_middle. by constructor.
    + rewrite Ho in i_operations0. apply Forall_app in i_operations0 as [Hx Hy]. apply Forall_app. split; [done|]. constructor; [|done].
      rewrite Hp in i_pending0. apply Forall_app in i_pending0 as [_ [Hps _]%Forall_cons]. rewrite Hoe. split; [done|]. cbn. by destruct s.
    + rewrite Hp in i_pending0. apply Forall_app in i_pending0 as [? [_ ?]%Forall_cons]. by apply Forall_app.
  - destruct J. split.
    + intros s'. rewrite Fa, Ho', omap_app. cbn. rewrite Hoe. cbn. destruct s as [s''|].
      * rewrite elem_of_union, elem_of_singleton, i_active0, Ho, omap_app, !elem_of_app, elem_of_cons. naive_solver.
      * by rewrite i_active0, Ho, omap_app.
    + rewrite Fc. destruct s; [by rewrite length_insert|done].
    + intros s' Hr. rewrite Fa, Fc, Fl. destruct s as [s''|]; [|by apply i_channels0].
      intros [Hne Hna]%not_elem_of_union. rewrite not_elem_of_singleton in Hne. destruct (Hs s'' eq_refl) as (_ & _ & ?).
      rewrite list_lookup_insert_ne by lia. by apply i_channels0.
    + pose proof (n_commands_middle false w w' a p s b Hp Hp' Fq). rewrite Pd. destruct (is_control (command p)); cbn in *; lia.
    + pose proof (n_commands_middle true w w' a p s b Hp Hp' Fq). rewrite Pc. destruct (is_control (command p)); cbn in *; lia.
Qed.

(** *** An operation advances *)

Lemma sent_one s t r s' : sent s' [Sent s t r] = if s =? s' then [(t, r)] else [].
Proof. unfold sent. cbn. by destruct (s =? s'). Qed.

Lemma op_ok_other W l s t r o : op_ok W l o → op_slot o ≠ Some s → op_ok W (l ++ [Sent s t r]) o.
Proof.
  intros [Hs Ho] Hn. split; [done|]. unfold nsent in *. destruct (op_slot o) as [s'|]; [|done].
  rewrite sent_app, sent_one. destruct (Z.eqb_spec s s') as [->|]; [done|]. rewrite app_nil_r.
  destruct (op_phase o); try done. destruct Ho as (? & q & ? & ?). split; [done|]. exists q. split; [|done]. apply elem_of_app. by left.
Qed.

(** What a poll may add to the log. *)
Definition progress (W : Windows) (l : list Event) (o o' : Op) (k : list Event) : Prop :=
  k = [] ∧ is_sent o' = is_sent o
  ∨ ∃ s r, k = [Sent s (ticket (op_reply o)) r] ∧ op_slot o = Some s ∧ is_sent o = false ∧ is_sent o' = true
     ∧ sequence r = nsent s l ∧ routed W s (op_command o) r.

Lemma advance_inv0 W w w' x o y o' k :
  inv0 W w → operations w = x ++ o :: y → operations w' = x ++ o' :: y →
  zlen (control_operations w') = zlen (control_operations w) → zlen (data_operations w') = zlen (data_operations w) →
  op_reply o' = op_reply o → op_command o' = op_command o → op_slot o' = op_slot o →
  log w' = log w ++ k → op_ok W (log w ++ k) o' → progress W (log w) o o' k →
  window <$> devices w' = W → next_ticket w' = next_ticket w → pending w' = pending w → queue w' = queue w →
  inv0 W w'.
Proof.
  intros I Ho Ho' Hlc Hld Er Ec Es Hl Hok Hk Hw Ht Hp Hq.
  assert (Hh : held w' = held w) by (unfold held, o_entry; by rewrite Ho, Ho', Hp, Hq, !fmap_app; cbn; rewrite Er, Ec).
  assert (Ha : accepted (log w') = accepted (log w)).
  { rewrite Hl, accepted_app. destruct Hk as [[-> _]|(s & r & -> & _)]; by rewrite app_nil_r. }
  assert (Hn : answered (log w') = answered (log w)).
  { rewrite Hl, answered_app. destruct Hk as [[-> _]|(s & r & -> & _)]; by rewrite app_nil_r. }
  assert (Hin : (ticket (op_reply o), op_command o) ∈ held w).
  { unfold held. rewrite Ho, fmap_app, !elem_of_app. left. right. left. }
  assert (Hxy : ∀ s, op_slot o = Some s → s ∉ omap op_slot x ∧ s ∉ omap op_slot y).
  { intros s Hs. pose proof (i_slots _ _ I) as HN. rewrite Ho, omap_app in HN. cbn in HN. rewrite Hs in HN.
    rewrite <- Permutation_middle in HN. apply NoDup_cons in HN as [HN _]. by apply not_elem_of_app in HN. }
  destruct I. split; rewrite ?Hh, ?Ha, ?Hn, ?Ht, ?Hp, ?Hlc, ?Hld; try done.
  - intros s. replace (lane s w') with (lane s w); [done|]. unfold lane. rewrite Hl, Ho, Ho', Hp, Hq, !omap_app, sent_app, fmap_app.
    assert (Hu : unsent s o = if bool_decide (op_slot o = Some s) && negb (is_sent o) then Some (ticket (op_reply o)) else None) by done.
    assert (Hu' : unsent s o' = if bool_decide (op_slot o = Some s) && negb (is_sent o') then Some (ticket (op_reply o)) else None)
      by (unfold unsent; by rewrite Es, Er).
    cbn. rewrite Hu, Hu'. destruct Hk as [[-> Hk]|(s' & r & -> & Hs & Hk & Hk' & _)].
    + by rewrite Hk, app_nil_r.
    + rewrite Hk, Hk', Hs, andb_false_r, andb_true_r, sent_one. destruct (Z.eqb_spec s' s) as [->|Hne].
      * rewrite bool_decide_eq_true_2 by done. destruct (Hxy s Hs) as [Hx Hy].
        rewrite (omap_unsent_none s x), (omap_unsent_none s y) by done. cbn. by rewrite <- app_assoc.
      * rewrite bool_decide_eq_false_2 by congruence. by rewrite app_nil_r.
  - rewrite Ho' , omap_app. cbn. rewrite Es. by rewrite Ho, omap_app in i_slots0.
  - rewrite Hl, Ho'. rewrite Ho in i_operations0. apply Forall_app in i_operations0 as [Hx [_ Hy]%Forall_cons].
    assert (HF : ∀ os, Forall (op_ok W (log w)) os → (∀ s, op_slot o = Some s → s ∉ omap op_slot os) → Forall (op_ok W (log w ++ k)) os).
    { intros os Hos Hs. apply Forall_forall. intros o'' Hin''. rewrite Forall_forall in Hos. specialize (Hos _ Hin'').
      destruct Hk as [[-> _]|(s & r & -> & Hs1 & _)]; [by rewrite app_nil_r|]. apply op_ok_other; [done|]. intros Hs2.
      apply (Hs s Hs1). apply list_elem_of_omap. eauto. }
    apply Forall_app. split; [apply HF; [done|]; intros s Hs; by apply Hxy|]. constructor; [done|].
    apply HF; [done|]. intros s Hs. by apply Hxy.
  - intros s. unfold nsent. rewrite Hl, sent_app, fmap_app. destruct Hk as [[-> _]|(s' & r & -> & Hs & _ & _ & Hseq & _)].
    + by rewrite !app_nil_r.
    + rewrite sent_one. destruct (Z.eqb_spec s' s) as [->|]; [|by rewrite !app_nil_r]. rewrite i_sequence0. cbn.
      rewrite zlen_app. cbn. rewrite Hseq. unfold nsent. rewrite seqZ_app by (unfold zlen; lia). done.
  - intros s t r. rewrite Hl, elem_of_app. intros [H|H]; [by apply i_sent0|].
    destruct Hk as [[-> _]|(s' & q & -> & Hs & _ & _ & _ & Hro)]; [by apply elem_of_nil in H|].
    apply list_elem_of_singleton in H as [= -> -> ->]. exists (op_command o). split; [|done]. by apply i_held0.
  - intros t r. rewrite Hl, elem_of_app. intros [H|H].
    + destruct (i_reply0 t r H) as (q & ? & ?). exists q. rewrite elem_of_app. by split; [left|].
    + destruct Hk as [[-> _]|(s' & q & -> & _)]; [by apply elem_of_nil in H|]. by apply list_elem_of_singleton in H.
Qed.

Lemma complete_device_windows ds r f ds' : complete_device ds r = (f, ds') → window <$> ds' = window <$> ds.
Proof.
  unfold complete_device. destruct (ds !! _) as [d|]; [|by intros [= _ <-]].
  destruct (Device.reply_error _); intros [= _ <-]; by apply windows_alter.
Qed.

Lemma await_reply_spec s seq ios ds p ds' : await_reply s seq ios ds = (p, ds') →
  window <$> ds' = window <$> ds ∧
  match p with
  | NotReady ph => ph = Waiting seq
  | Ready (Ok r) => routed_slot r = s ∧ reply_sequence (routed_reply r) = seq
  | Ready (Err (Router _)) => False
  | Ready (Err (Failed _)) => True
  end.
Proof.
  unfold await_reply. destruct ios as [|[b|[r|]] ios]; try (by intros [= <- <-]).
  destruct (reply_sequence r =? seq) eqn:Hr; cbn; [|by intros [= <- <-]]. breflect.
  destruct (complete_device ds _) as [[]] eqn:Hc; apply complete_device_windows in Hc; by intros [= <- <-].
Qed.

Lemma await_send_spec s t r ios ds p k ds' : await_send s t r ios ds = (p, k, ds') →
  window <$> ds' = window <$> ds ∧
  (k = [] ∧ match p with NotReady ph => ph = Sending r | Ready (Err (Failed _)) => True | _ => False end
   ∨ k = [Sent s t r] ∧ match p with
                        | NotReady ph => ph = Waiting (sequence r)
                        | Ready (Ok x) => routed_slot x = s ∧ reply_sequence (routed_reply x) = sequence r
                        | Ready (Err (Router _)) => False
                        | Ready (Err (Failed _)) => True
                        end).
Proof.
  unfold await_send. destruct ios as [|[[]|r'] ios]; try (intros [= <- <- <-]; split; [done|by left]).
  destruct (await_reply _ _ _ _) as [p' ds1] eqn:Ha. apply await_reply_spec in Ha as [Hw Hp]. intros [= <- <- <-].
  split; [done|]. by right.
Qed.

Lemma request_fields_spec W ds c s q r : window <$> ds = W → slot_ok W c s → request_fields ds c s = r →
  match r with
  | Ok (op, off, n, v) => ∃ s', s = Some s' ∧ routed W s' c (mkRequest q op off n v)
  | Err e => ∃ f, e = Router f
  end.
Proof.
  intros <- Hs <-. destruct c as [a n v b|s' o]; cbn in *; [|subst s; by exists s'].
  destruct (negb _) eqn:Hn; [by eexists|]. destruct (negb (bool_decide _)); [by eexists|].
  destruct s as [s|]; cbn; [|by eexists]. destruct (ds !! Z.to_nat s) as [d|] eqn:Hd; [|by eexists].
  destruct (closed d); [by eexists|]. exists s. split; [done|]. cbn. split.
  - apply negb_false_iff in Hn. rewrite !orb_true_iff, !Z.eqb_eq in Hn. set_solver.
  - split; [done|]. assert (Hw : (window <$> ds) !! Z.to_nat s = Some (window d)) by by rewrite list_lookup_fmap, Hd.
    by exists (kind d), (slot d), (base d), (size d).
Qed.

Lemma nsent_one s t r l : nsent s (l ++ [Sent s t r]) = nsent s l + 1.
Proof. unfold nsent. rewrite sent_app, sent_one, Z.eqb_refl. by rewrite zlen_app. Qed.

(** A poll leaves a well-formed operation, whether it is kept or not. *)
Definition polled (W : Windows) (l : list Event) (o : Op) (p : Poll) (ch : option Z) (k : list Event) : Prop :=
  ∃ o', op_reply o' = op_reply o ∧ op_command o' = op_command o ∧ op_slot o' = op_slot o
    ∧ op_ok W (l ++ k) o' ∧ progress W l o o' k
    ∧ match p with
      | NotReady ph => o' = mkOp (op_command o) (op_reply o) (op_slot o) ch ph
      | Ready (Ok r) =>
          ∃ q, op_slot o = Some (routed_slot r) ∧ Sent (routed_slot r) (ticket (op_reply o)) q ∈ l ++ k
            ∧ reply_sequence (routed_reply r) = sequence q ∧ ch = Some (nsent (routed_slot r) (l ++ k))
      | Ready (Err (Router _)) => ∀ s, op_slot o = Some s → ch = Some (nsent s (l ++ k))
      | Ready (Err (Failed _)) => True
      end.

Lemma polled_same W l o p ch : op_ok W l o →
  match p with
  | NotReady ph => o = mkOp (op_command o) (op_reply o) (op_slot o) ch ph
  | Ready (Ok r) => ∃ q, op_slot o = Some (routed_slot r) ∧ Sent (routed_slot r) (ticket (op_reply o)) q ∈ l
      ∧ reply_sequence (routed_reply r) = sequence q ∧ ch = Some (nsent (routed_slot r) l)
  | Ready (Err (Router _)) => ∀ s, op_slot o = Some s → ch = Some (nsent s l)
  | Ready (Err (Failed _)) => True
  end → polled W l o p ch [].
Proof. intros Ho Hp. exists o. rewrite app_nil_r. split_and!; try done. by left. Qed.

(** The request is on its way: [o] has not sent it before. *)
Lemma polled_send W l o s r ios ds p k ds' :
  op_slot o = Some s → is_sent o = false → slot_ok W (op_command o) (Some s) →
  sequence r = nsent s l → routed W s (op_command o) r → window <$> ds = W →
  await_send s (ticket (op_reply o)) r ios ds = (p, k, ds') →
  window <$> ds' = W ∧ polled W l o p (Some (nsent s l + 1)) k.
Proof.
  intros Hs Hn Hok Hr Hro Hw Ha. apply await_send_spec in Ha as [Hw' Hp]. split; [congruence|].
  destruct Hp as [[-> Hp]|[-> Hp]].
  - exists (mkOp (op_command o) (op_reply o) (op_slot o) (Some (nsent s l + 1)) (Sending r)). rewrite app_nil_r.
    split_and!; try done; [split; cbn; by rewrite Hs|by left|]. destruct p as [[|[]]|ph]; try done. by subst.
  - exists (mkOp (op_command o) (op_reply o) (op_slot o) (Some (nsent s l + 1)) (Waiting (sequence r))).
    split_and!; try done.
    + split; cbn; rewrite Hs; [done|]. rewrite nsent_one. split; [done|]. exists r. split; [|done]. apply elem_of_app. right. left.
    + right. by exists s, r.
    + destruct p as [[x|[]]|ph]; try done; [|by subst]. destruct Hp as [-> Hx]. exists r. rewrite nsent_one.
      split_and!; try done. apply elem_of_app. right. left.
Qed.

Lemma poll_inner_spec W l o ios ds p ch k ds' : window <$> ds = W → op_ok W l o →
  poll_inner o ios ds = (p, ch, k, ds') → window <$> ds' = W ∧ polled W l o p ch k.
Proof.
  intros Hw Hok. pose proof Hok as [Hs Ho]. unfold poll_inner.
  destruct (op_slot o) as [s|] eqn:Hslot.
  2:{ destruct Ho as [-> Hc]. destruct (request_fields ds (op_command o) None) as [[[[op off] n] v]|e] eqn:Hf.
      - apply (request_fields_spec W _ _ _ 0) in Hf as (s' & [=] & _); done.
      - apply (request_fields_spec W _ _ _ 0) in Hf as (f & ->); [|done|done]. intros [= <- <- <- <-]. split; [done|].
        apply polled_same; [done|]. by rewrite Hslot. }
  destruct (op_phase o) as [|r|seq] eqn:Hph.
  - rewrite Ho. destruct (request_fields ds (op_command o) (Some s)) as [[[[op off] n] v]|e] eqn:Hf.
    + apply (request_fields_spec W _ _ _ (nsent s l)) in Hf as (s' & [= <-] & Hro); [|done|done].
      destruct (checked_add64 _ 1) as [next|] eqn:Hn.
      * apply checked_add64_Some in Hn as [-> _]. destruct (await_send _ _ _ _ _) as [[p' k'] ds1] eqn:Ha.
        intros [= <- <- <- <-]. eapply polled_send; try done; unfold is_sent; by rewrite ?Hph.
      * intros [= <- <- <- <-]. split; [done|]. by apply polled_same.
    + apply (request_fields_spec W _ _ _ 0) in Hf as (f & ->); [|done|done]. intros [= <- <- <- <-]. split; [done|].
      apply polled_same; [done|]. rewrite Hslot. by intros s' [= <-].
  - destruct Ho as (Hc & Hseq & Hro). rewrite Hc. destruct (await_send _ _ _ _ _) as [[p' k'] ds1] eqn:Ha.
    intros [= <- <- <- <-]. eapply polled_send; try done; unfold is_sent; by rewrite ?Hph.
  - destruct Ho as (Hc & q & Hq & Hsq). rewrite Hc. destruct (await_reply _ _ _ _) as [p' ds1] eqn:Ha.
    apply await_reply_spec in Ha as [Hw' Hp]. intros [= <- <- <- <-]. split; [congruence|].
    apply polled_same; [done|]. destruct p' as [[x|[]]|ph]; try done.
    + destruct Hp as [<- Hx]. exists q. split_and!; try done. congruence.
    + subst ph. destruct o. cbn in *. congruence.
Qed.

Lemma poll_op_spec W l o ios expired ds p ch k ds' : window <$> ds = W → op_ok W l o →
  poll_op o ios expired ds = (p, ch, k, ds') → window <$> ds' = W ∧ polled W l o p ch k.
Proof.
  intros Hw Ho. unfold poll_op. destruct (poll_inner o ios ds) as [[[p' ch'] k'] ds1] eqn:Hp.
  apply (poll_inner_spec W l) in Hp as [Hw' Hpo]; [|done|done]. intros [= <- <- <- <-]. split; [done|].
  destruct p' as [out|ph]; [done|]. destruct expired; [|done]. destruct Hpo as (o' & ? & ? & ? & ? & ? & _). by exists o'.
Qed.

(** *** Polls *)

(** An operation of one of the sets, in the list of both. *)
Lemma operation_cut controls i o w w1 :
  operation_set controls w !! i = Some o →
  control_operations w1 = control_operations w → data_operations w1 = data_operations w →
  ∃ x y, operations w = x ++ o :: y
    ∧ (∀ o', let w' := put_operations controls (<[i := o']> (operation_set controls w)) w1 in
        operations w' = x ++ o' :: y
        ∧ zlen (control_operations w') = zlen (control_operations w) ∧ zlen (data_operations w') = zlen (data_operations w))
    ∧ let w' := put_operations controls (delete i (operation_set controls w)) w1 in
      operations w' = x ++ y.
Proof.
  intros Hi Hc Hd. destruct (list_elem_of_split_length _ _ _ Hi) as (a & b & Hab & ->).
  unfold operation_set in *. destruct controls; unfold operations; cbn.
  - exists a, (b ++ data_operations w). rewrite Hab, Hd, <- app_assoc. split_and!; [done| |by rewrite delete_middle, app_assoc].
    intros o'. rewrite insert_app_r_alt by lia. rewrite Nat.sub_diag. cbn. rewrite <- app_assoc. unfold zlen. rewrite !length_app. cbn. split_and!; [done|lia|done].
  - exists (control_operations w ++ a), b. rewrite Hab, Hc, <- app_assoc. split_and!; [done| |by rewrite delete_middle, app_assoc].
    intros o'. rewrite insert_app_r_alt by lia. rewrite Nat.sub_diag. cbn. rewrite app_assoc. unfold zlen. rewrite !length_app. cbn. split_and!; [done|done|lia].
Qed.

Lemma nsent_progress W l o o' k s : progress W l o o' k → op_slot o ≠ Some s → nsent s (l ++ k) = nsent s l.
Proof.
  unfold nsent. rewrite sent_app. intros [[-> _]|(s' & r & -> & Hs & _)] Hn; [by rewrite app_nil_r|].
  rewrite sent_one. destruct (Z.eqb_spec s' s) as [->|]; [done|]. by rewrite app_nil_r.
Qed.

Lemma put_fields controls ops w : let w' := put_operations controls ops w in
  devices w' = devices w ∧ admission w' = admission w ∧ queue w' = queue w ∧ status w' = status w
  ∧ active_slots w' = active_slots w ∧ pending w' = pending w ∧ channels w' = channels w
  ∧ next_ticket w' = next_ticket w ∧ log w' = log w ∧ data_permits w' = data_permits w ∧ control_permits w' = control_permits w.
Proof. by destruct controls. Qed.

Lemma running_advance W w w' x o y o' k :
  running W w → operations w = x ++ o :: y → operations w' = x ++ o' :: y → op_slot o' = op_slot o →
  progress W (log w) o o' k → log w' = log w ++ k →
  active_slots w' = active_slots w → channels w' = channels w → queue w' = queue w → pending w' = pending w →
  data_permits w' = data_permits w → control_permits w' = control_permits w → running W w'.
Proof.
  intros [] Ho Ho' Es Hk Hl Ha Hc Hq Hp Hd Hn. split; unfold n_commands; rewrite ?Ha, ?Hc, ?Hd, ?Hn, ?Hq, ?Hp; try done.
  - intros s. rewrite i_active0, Ho, Ho', !omap_app. cbn. by rewrite Es.
  - intros s Hr Hna. rewrite i_channels0 by done. rewrite Hl, (nsent_progress _ _ _ _ _ s Hk); [done|].
    intros Hs. apply Hna. apply i_active0. rewrite Ho, omap_app, elem_of_app. right. cbn. rewrite Hs. left.
Qed.

(** An operation leaves with its answer, and its device is free again. *)
Lemma running_finish W w w' x o y o' k ch out :
  running W w → NoDup (omap op_slot (x ++ o :: y)) → operations w = x ++ o :: y → operations w' = x ++ y →
  progress W (log w) o o' k → log w' = (log w ++ k) ++ [Answered (ticket (op_reply o)) out] →
  (∀ s, op_slot o = Some s → ch = Some (nsent s (log w ++ k))) → (∀ s, op_slot o = Some s → 0 ≤ s < zlen W) →
  active_slots w' = active_slots (give_back (op_slot o) ch w) → channels w' = channels (give_back (op_slot o) ch w) →
  queue w' = queue w → pending w' = pending w →
  data_permits w' = data_permits w → control_permits w' = control_permits w → running W w'.
Proof.
  intros [] Hnd Ho Ho' Hk Hl Hch Hrange Ha Hc Hq Hp Hd Hn.
  assert (Hse : ∀ s, nsent s (log w') = nsent s (log w ++ k)).
  { intros s. unfold nsent. rewrite Hl, (sent_app s (log w ++ k)). by rewrite app_nil_r. }
  unfold give_back in Ha, Hc. rewrite Ho in i_active0. rewrite omap_app in Hnd, i_active0. cbn in Hnd, i_active0.
  destruct (op_slot o) as [s|] eqn:Hs.
  - rewrite (Hch s eq_refl) in Ha, Hc. cbn in Ha, Hc. rewrite <- Permutation_middle in Hnd. apply NoDup_cons in Hnd as [Hnx _].
    split; unfold n_commands; rewrite ?Hd, ?Hn, ?Hq, ?Hp; try done.
    + intros s'. rewrite Ha, Ho', omap_app, elem_of_difference, elem_of_singleton, i_active0, !elem_of_app, elem_of_cons.
      rewrite elem_of_app in Hnx. destruct (decide (s' = s)) as [->|]; tauto.
    + by rewrite Hc, length_insert.
    + intros s' Hr. rewrite Ha, Hc, Hse. intros Hna. destruct (decide (s' = s)) as [->|Hne].
      * rewrite list_lookup_insert_eq; [done|]. unfold zlen in Hr. lia.
      * assert (s' ∉ active_slots w) by set_solver. specialize (Hrange s eq_refl).
        rewrite list_lookup_insert_ne by lia. rewrite i_channels0 by done. by rewrite (nsent_progress _ _ _ _ _ s' Hk) by congruence.
  - split; unfold n_commands; rewrite ?Hd, ?Hn, ?Hq, ?Hp; try done.
    + intros s'. by rewrite Ha, Ho', omap_app.
    + by rewrite Hc.
    + intros s' Hr. rewrite Ha, Hc, Hse. intros Hna. rewrite i_channels0 by done.
      by rewrite (nsent_progress _ _ _ _ _ s' Hk) by congruence.
Qed.

Lemma delete_insert_sublist {A} (l : list A) i x : delete i l `sublist_of` <[i := x]> l.
Proof.
  revert i. induction l as [|y l IH]; intros [|i]; cbn; try done; [by constructor|]. constructor. apply IH.
Qed.

Lemma status_inv0 W w st : inv0 W w → inv0 W (set_status st w).
Proof. intros []. by split. Qed.

(** The answer of an operation that is done: [w2] is the world with the operation as the
    poll has left it. *)
Lemma finish_inv0 W w w1 w4 controls i o o' out x y k :
  operation_set controls w !! i = Some o →
  let w2 := put_operations controls (<[i := o']> (operation_set controls w)) w1 in
  let w3 := put_operations controls (delete i (operation_set controls w)) w1 in
  inv0 W w2 → operations w2 = x ++ o' :: y → operations w3 = x ++ y → op_reply o' = op_reply o → log w1 = log w ++ k →
  match out with
  | Ok r => ∃ q, Sent (routed_slot r) (ticket (op_reply o)) q ∈ log w ++ k ∧ reply_sequence (routed_reply r) = sequence q
  | Err _ => True
  end →
  window <$> devices w4 = window <$> devices w1 → next_ticket w4 = next_ticket w1 →
  log w4 = log w1 ++ [Answered (ticket (op_reply o)) out] →
  control_operations w4 = control_operations w3 → data_operations w4 = data_operations w3 →
  pending w4 = pending w1 → queue w4 = queue w1 → inv0 W w4.
Proof.
  intros Hi w2 w3 I2 Ho2 Ho3 Er Hl1 Hout Hw Ht Hl Hc Hd Hp Hq.
  destruct (put_fields controls (<[i := o']> (operation_set controls w)) w1) as (Fd & _ & Fq & _ & _ & Fp & _ & Ft & Fl & _).
  fold w2 in Fd, Fq, Fp, Ft, Fl.
  assert (Ho4 : operations w4 = x ++ y) by (rewrite <- Ho3; unfold operations; congruence).
  eapply (inv0_shrink W w2 w4 [ticket (op_reply o)] [Answered (ticket (op_reply o)) out] I2).
  - rewrite Hw, <- Fd. apply I2.
  - by rewrite Ht, Ft.
  - by rewrite Hl, Fl.
  - constructor; [|constructor]. exists out. split; [done|]. intros r ->. rewrite Fl, Hl1. done.
  - rewrite !held_tickets, Ho2, Ho4, Hp, Hq. rewrite Fp, Fq, !fmap_app. cbn. rewrite Er. solve_Permutation.
  - rewrite Hc. unfold w2, w3, operation_set. destruct controls; cbn; [apply delete_insert_sublist|done].
  - rewrite Hd. unfold w2, w3, operation_set. destruct controls; cbn; [done|apply delete_insert_sublist].
  - rewrite Hp. by rewrite Fp.
  - rewrite Hq. by rewrite Fq.
Qed.

Lemma drained_inv W w : inv0 W w → status w = Draining → is_Some (admission w) → queue w = [] → inv W (drained w).
Proof.
  intros I Hs Ha Hq. unfold drained. destruct (control_operations w ++ data_operations w); [by apply return_inv|].
  split; [done|]. by rewrite Hs.
Qed.

Lemma closed_inv W w : inv0 W w → inv W (drained (set_status Draining (stop_bridge FStopped w))).
Proof.
  intros I. destruct (stop_inv0 W w FStopped I) as (I' & Hq & Ha & _). apply drained_inv; try done. by apply status_inv0.
Qed.

Lemma failed_inv W w f : inv0 W w → inv W (return_bridge (Err f) (stop_bridge f w)).
Proof.
  intros I. destruct (stop_inv0 W w f I) as (I' & _ & Ha & _). apply return_inv; [done|]. by rewrite Ha.
Qed.

Lemma polled_out W l o out ch k : polled W l o (Ready out) ch k →
  match out with
  | Ok r => ∃ q, Sent (routed_slot r) (ticket (op_reply o)) q ∈ l ++ k ∧ reply_sequence (routed_reply r) = sequence q
  | Err _ => True
  end
  ∧ (match out with Err (Failed _) => False | _ => True end → ∀ s, op_slot o = Some s → ch = Some (nsent s (l ++ k))).
Proof.
  intros (o' & _ & _ & _ & _ & _ & H). destruct out as [r|[e|f]]; try done.
  destruct H as (q & Hs & Hq & Hr & Hc). split; [by exists q|]. intros _ s. rewrite Hs. by intros [= <-].
Qed.

(** What the answer to an operation changes. *)
Lemma answer_fields r out s ch w :
  let w' := complete r out (give_back s ch w) in
  window <$> devices w' = window <$> devices w ∧ next_ticket w' = next_ticket w
  ∧ log w' = log w ++ [Answered (ticket r) out]
  ∧ control_operations w' = control_operations w ∧ data_operations w' = data_operations w
  ∧ pending w' = pending w ∧ queue w' = queue w ∧ status w' = status w ∧ admission w' = admission w
  ∧ data_permits w' = data_permits w ∧ control_permits w' = control_permits w
  ∧ active_slots w' = active_slots (give_back s ch w) ∧ channels w' = channels (give_back s ch w).
Proof.
  cbn. rewrite drop_control_windows. unfold give_back, drop_control.
  destruct (control r), s as [s|], ch as [c|]; split_and!; done.
Qed.

(** An operation as a poll has left it: [w1] is the world with what the poll has done to
    the devices and the log, [o'] the operation, if it were kept. *)
Record turn (W : Windows) (w w1 : World) (controls : bool) (i : nat) (o o' : Op) (x y : list Op) (k : list Event) : Prop := {
  t_operation : operation_set controls w !! i = Some o;
  t_before : operations w = x ++ o :: y;
  t_after : operations (put_operations controls (<[i := o']> (operation_set controls w)) w1) = x ++ o' :: y;
  t_removed : operations (put_operations controls (delete i (operation_set controls w)) w1) = x ++ y;
  t_reply : op_reply o' = op_reply o;
  t_slot : op_slot o' = op_slot o;
  t_progress : progress W (log w) o o' k;
  t_world : ∃ ds, w1 = add_log k (set_devices ds w);
  t_inv0 : inv0 W (put_operations controls (<[i := o']> (operation_set controls w)) w1);
}.

Lemma poll_turn W w controls i o ios expired p ch k ds :
  inv0 W w → operation_set controls w !! i = Some o → poll_op o ios expired (devices w) = (p, ch, k, ds) →
  ∃ o' x y, turn W w (add_log k (set_devices ds w)) controls i o o' x y k ∧ polled W (log w) o p ch k
    ∧ ∀ ph, p = NotReady ph → o' = mkOp (op_command o) (op_reply o) (op_slot o) ch ph.
Proof.
  intros I Hi Hp. set (w1 := add_log k (set_devices ds w)).
  destruct (operation_cut controls i o w w1 Hi eq_refl eq_refl) as (x & y & Ho & Hput & Hdel).
  assert (Hok : op_ok W (log w) o).
  { pose proof (i_operations _ _ I) as H. rewrite Ho, Forall_app, Forall_cons in H. tauto. }
  apply (poll_op_spec W (log w)) in Hp as [Hw Hpo]; [|apply I|done].
  pose proof Hpo as (o' & Er & Ec & Es & Hok' & Hk & Hph).
  destruct (Hput o') as (Ho2 & Hlc & Hld). exists o', x, y.
  split_and!; [|done|intros ph ->; done]. split; try done; [by exists ds|].
  destruct (put_fields controls (<[i := o']> (operation_set controls w)) w1) as (Fd & _ & Fq & _ & _ & Fp & _ & Ft & Fl & _).
  eapply (advance_inv0 W w _ x o y o' k); try done.
  by rewrite Fd.
Qed.

Lemma turn_answer W w w1 controls i o o' x y k out s ch : turn W w w1 controls i o o' x y k →
  match out with
  | Ok r => ∃ q, Sent (routed_slot r) (ticket (op_reply o)) q ∈ log w ++ k ∧ reply_sequence (routed_reply r) = sequence q
  | Err _ => True
  end →
  inv0 W (complete (op_reply o) out (give_back s ch (put_operations controls (delete i (operation_set controls w)) w1))).
Proof.
  intros T Hout. pose proof T as []. destruct t_world0 as [ds Hw1].
  destruct (put_fields controls (delete i (operation_set controls w)) w1) as (Fd & _ & Fq & _ & _ & Fp & _ & Ft & Fl & _).
  destruct (answer_fields (op_reply o) out s ch (put_operations controls (delete i (operation_set controls w)) w1))
    as (Gd & Gt & Gl & Gc & Gdt & Gp & Gq & _).
  eapply (finish_inv0 W w w1 _ controls i o o' out x y k); try done; try congruence. by rewrite Hw1.
Qed.

Lemma turn_kept W w w1 controls i o o' x y k : turn W w w1 controls i o o' x y k → inv W w →
  inv W (put_operations controls (<[i := o']> (operation_set controls w)) w1).
Proof.
  intros [] [I J]. destruct t_world0 as [ds ->]. split; [done|].
  destruct (put_fields controls (<[i := o']> (operation_set controls w)) (add_log k (set_devices ds w)))
    as (Fd & Fa & Fq & Fs & Fv & Fp & Fc & Ft & Fl & Fdp & Fcp).
  rewrite Fs. cbn [status add_log set_devices]. destruct (status w) eqn:HS.
  - eapply (running_advance W w _ x o y o' k); done.
  - by rewrite Fa, Fq.
  - rewrite Fa. split; [apply J|]. destruct J as [_ J]. unfold held in J. rewrite t_before0, fmap_app in J. cbn in J.
    by destruct (o_entry <$> x).
Qed.

Lemma turn_running W w w1 controls i o o' x y k out ch : turn W w w1 controls i o o' x y k → inv W w → status w = Running →
  (∀ s, op_slot o = Some s → ch = Some (nsent s (log w ++ k))) →
  let w4 := complete (op_reply o) out (give_back (op_slot o) ch (put_operations controls (delete i (operation_set controls w)) w1)) in
  running W w4 ∧ status w4 = Running.
Proof.
  intros T [I J] HR Hch w4. rewrite HR in J. pose proof T as []. destruct t_world0 as [ds ->].
  destruct (put_fields controls (delete i (operation_set controls w)) (add_log k (set_devices ds w)))
    as (Fd & Fa & Fq & Fs & Fv & Fp & Fc & Ft & Fl & Fdp & Fcp).
  destruct (answer_fields (op_reply o) out (op_slot o) ch (put_operations controls (delete i (operation_set controls w)) (add_log k (set_devices ds w))))
    as (Gd & Gt & Gl & Gc & Gdt & Gp & Gq & Gs & Ga & Gdp & Gcp & Gv & Gch). fold w4 in Gd, Gt, Gl, Gc, Gdt, Gp, Gq, Gs, Ga, Gdp, Gcp, Gv, Gch.
  split; [|rewrite Gs, Fs; done].
  assert (Hb : active_slots (give_back (op_slot o) ch (put_operations controls (delete i (operation_set controls w)) (add_log k (set_devices ds w))))
      = active_slots (give_back (op_slot o) ch w)
    ∧ channels (give_back (op_slot o) ch (put_operations controls (delete i (operation_set controls w)) (add_log k (set_devices ds w))))
      = channels (give_back (op_slot o) ch w)).
  { unfold give_back. destruct (op_slot o), ch; cbn; by rewrite ?Fv, ?Fc. }
  destruct Hb as [Hb1 Hb2]. rewrite Hb1 in Gv. rewrite Hb2 in Gch.
  pose proof (i_slots _ _ I) as HN. rewrite t_before0 in HN.
  eapply (running_finish W w w4 x o y o' k ch out); try done; try congruence.
  - unfold operations. rewrite Gc, Gdt. done.
  - rewrite Gl, Fl. done.
  - intros s Hs. pose proof (i_operations _ _ I) as HO. rewrite t_before0, Forall_app, Forall_cons in HO. destruct HO as (_ & [Hok _] & _).
    rewrite Hs in Hok. eapply (slot_range W w (op_command o) s (ticket (op_reply o)) I Hok).
    unfold held. rewrite t_before0, fmap_app, !elem_of_app. left. right. left.
  - rewrite Gq, Fq. done.
  - rewrite Gp, Fp. done.
  - rewrite Gdp, Fdp. done.
  - rewrite Gcp, Fcp. done.
Qed.

Lemma poll_inv W w controls i ios expired : inv W w → inv W (poll controls i ios expired w).
Proof.
  intros H. pose proof H as [I J]. unfold poll. destruct (operation_set controls w !! i) as [o|] eqn:Hi; [|done].
  destruct (poll_op o ios expired (devices w)) as [[[p ch] k] ds] eqn:Hp.
  destruct (poll_turn W w controls i o ios expired p ch k ds I Hi Hp) as (o' & x & y & T & Hpo & Hph).
  destruct p as [out|ph]; [|rewrite <- (Hph ph eq_refl); by apply (turn_kept W w _ controls i o _ x y k)].
  apply polled_out in Hpo as [Hout Hch].
  set (w3 := put_operations controls (delete i (operation_set controls w)) _).
  assert (Hs : status w3 = status w ∧ admission w3 = admission w ∧ queue w3 = queue w) by (subst w3; by destruct controls).
  destruct Hs as (Fs & Fa & Fq). rewrite Fs. destruct (status w) eqn:HS.
  - unfold completed_op. pose proof (turn_answer W w _ controls i o o' x y k out (op_slot o) ch T Hout) as I4. fold w3 in I4.
    destruct out as [r|[e|f]]; [| |by apply failed_inv].
    all: destruct (all_devices_closed _); [by apply closed_inv|]; split; [done|].
    all: rewrite (proj2 (turn_running W w _ controls i o o' x y k _ ch T H HS (Hch Logic.I))).
    all: apply (turn_running W w _ controls i o o' x y k _ ch T H HS (Hch Logic.I)).
  - pose proof (turn_answer W w _ controls i o o' x y k out None None T Hout) as I4.
    destruct (answer_fields (op_reply o) out None None w3) as (_ & _ & _ & _ & _ & _ & Gq & Gs & Ga & _).
    change (give_back None None w3) with w3 in Gq, Gs, Ga.
    apply drained_inv; [done|by rewrite Gs, Fs|by rewrite Ga, Fa; apply J|by rewrite Gq, Fq; apply J].
  - destruct J as [_ J]. unfold held in J. rewrite (t_before _ _ _ _ _ _ _ _ _ _ T), fmap_app in J. cbn in J.
    by destruct (o_entry <$> x).
Qed.

(** ** Histories *)

Lemma record_inv W w f : inv W w → inv W (set_failure f w).
Proof. intros [[] J]. split; [by split|]. cbn. destruct (status w); [|done|done]. destruct J. by split. Qed.

Lemma waits_running w : waits w = true → status w = Running.
Proof. unfold waits. by destruct (status w). Qed.

Lemma step_inv W w o : slots_ok W → inv W w → inv W (step w o).
Proof.
  intros HW I. destruct o as [a n v b|a n v|h off len|h off bs|o h|f| | |controls i ios e|]; cbn [step].
  - apply submit_inv; [done|]. intros s o [=].
  - by apply post_inv.
  - by apply device_read_inv.
  - by apply device_write_inv.
  - by apply device_control_inv.
  - by apply record_inv.
  - destruct (status w) eqn:HS; [|done|done]. destruct (dispatch w) as [w'|] eqn:Hd; [|done]. by apply (dispatch_inv W w).
  - destruct (waits w) eqn:Hw; [|done]. apply receive_inv; [done|done|by apply waits_running].
  - destruct (waits w || is_draining w); [|done]. by apply poll_inv.
  - destruct (waits w); [|done]. apply failed_inv. apply I.
Qed.

Lemma run_inv W w os : slots_ok W → inv W w → inv W (run w os).
Proof. intros HW. revert w. induction os as [|o os IH]; intros w I; [done|]. apply IH. by apply step_inv. Qed.
End Routing.
