(* ===== verification/MmioComplete.v ===== *)
(** * No access is lost on its way to a device

    The other half of the routes of [MmioRouting]: while the bridge has not been stopped,
    a command that was answered and is for a device (an access in its window, or a
    control of it) was sent to that device, unless the device is closed. *)

From stdpp Require Import list gmap sorting.
From S2P Require Import Prelude Limits Device BootPlan Machine MmioBridge MmioRouting.

Local Open Scope Z_scope.

Module Complete.
Import Bridge Routing.
Import Machine (DeviceKind).
Import Device (Request).

#[local] Arguments accepted l : simpl never.
#[local] Arguments answered l : simpl never.
#[local] Arguments sent s l : simpl never.
#[local] Arguments operations w : simpl never.

(** ** Commands of a device *)

(** The command is for the device: a control of it, or an access of a valid width that
    lies in its window. *)
Definition is_for (d : DeviceRegistration) (c : Command) : Prop :=
  match c with
  | Access a n _ _ => base d ≤ a ∧ a + n ≤ base d + size d ∧ n ∈ [1; 2; 4; 8]
  | Control s _ => s = slot d
  end.

(** The slot that was found for a command is that of its device. *)
Definition aimed (ds : list DeviceRegistration) (c : Command) (s : option Z) : Prop :=
  ∀ i d, ds !! i = Some d → is_for d c → s = Some (Z.of_nat i) ∨ closed d = true.

Definition served (ds : list DeviceRegistration) (l : list Event) (t : Z) (c : Command) : Prop :=
  ∀ i d, ds !! i = Some d → is_for d c → (∃ r, (t, r) ∈ sent (Z.of_nat i) l) ∨ closed d = true.

(** ** Devices over time *)

Definition device_ok (d : DeviceRegistration) : Prop := closed d = true → state d = ClosedState.

(** Windows stay, and what is closed stays closed. *)
Definition later (ds ds' : list DeviceRegistration) : Prop :=
  ∀ i d', ds' !! i = Some d' → ∃ d, ds !! i = Some d ∧ window d' = window d ∧ (closed d = true → closed d' = true).
Definition evolves (ds ds' : list DeviceRegistration) : Prop := Forall device_ok ds → Forall device_ok ds' ∧ later ds ds'.

#[local] Instance evolves_preorder : PreOrder evolves.
Proof.
  split.
  - intros ds H. split; [done|]. intros i d Hd. by exists d.
  - intros a b c Hab Hbc Ha. destruct (Hab Ha) as [Hb Lab]. destruct (Hbc Hb) as [Hc Lbc]. split; [done|].
    intros i d'' H. destruct (Lbc i d'' H) as (d' & H' & W' & C'). destruct (Lab i d' H') as (d & Hd & W & C).
    exists d. split_and!; [done|congruence|auto].
Qed.

Lemma is_for_window d d' c : window d' = window d → is_for d' c → is_for d c.
Proof. unfold window. intros [= _ Hs Hb Hn]. destruct c; cbn; by rewrite Hs || rewrite Hb, Hn. Qed.

Lemma aimed_later ds ds' c s : later ds ds' → aimed ds c s → aimed ds' c s.
Proof.
  intros L H i d' Hd Hf. destruct (L i d' Hd) as (d & Hi & Hw & Hc). destruct (H i d Hi) as [?|?]; [by eapply is_for_window|by left|right; auto].
Qed.

Lemma served_later ds ds' l k t c : later ds ds' → served ds l t c → served ds' (l ++ k) t c.
Proof.
  intros L H i d' Hd Hf. destruct (L i d' Hd) as (d & Hi & Hw & Hc).
  destruct (H i d Hi) as [[r Hr]|?]; [by eapply is_for_window| |right; auto]. left. exists r. rewrite sent_app. apply elem_of_app. by left.
Qed.

Lemma evolves_alter f s ds :
  (∀ d, ds !! Z.to_nat s = Some d →
     window (f d) = window d ∧ (device_ok d → device_ok (f d) ∧ (closed d = true → closed (f d) = true))) →
  evolves ds (dev_alter f s ds).
Proof.
  intros Hf Hok. assert (H : ∀ i d', dev_alter f s ds !! i = Some d' → ∃ d, ds !! i = Some d ∧ (d' = d ∨ i = Z.to_nat s ∧ d' = f d)).
  { intros i d'. unfold dev_alter. destruct (decide (i = Z.to_nat s)) as [->|Hi].
    - rewrite list_lookup_alter_eq. destruct (ds !! _) as [d|]; [|done]. intros [= <-]. exists d. auto.
    - rewrite list_lookup_alter_ne by done. intros ->. exists d'. auto. }
  rewrite Forall_lookup in Hok. split.
  - apply Forall_lookup. intros i d' (d & Hd & [->|[-> ->]])%H; [by eapply Hok|]. apply Hf; [done|]. by eapply Hok.
  - intros i d' (d & Hd & [->|[-> ->]])%H; exists d; [done|]. destruct (Hf d Hd) as [Hw Hd']. split_and!; [done|done|]. apply Hd'. by eapply Hok.
Qed.

Lemma drop_control_evolves b c w : evolves (devices w) (devices (drop_control b c w)).
Proof.
  destruct c as [s|]; [|done]. cbn. apply evolves_alter. intros d _. split; [done|]. unfold device_ok. cbn. intros Hd. split.
  - intros H%bool_decide_eq_true. exact H.
  - intros Hc. rewrite (Hd Hc). done.
Qed.

Lemma complete_evolves r out w : evolves (devices w) (devices (complete r out w)).
Proof. exact (drop_control_evolves (is_ok out) (control r) w). Qed.

Lemma give_back_devices s ch w : devices (give_back s ch w) = devices w.
Proof. by destruct s, ch. Qed.

Lemma release_devices c w : devices (release_permit c w) = devices w.
Proof. unfold release_permit. by destruct (is_control c). Qed.

Lemma drop_pending_evolves p w : evolves (devices w) (devices (drop_pending p w)).
Proof. unfold drop_pending. rewrite release_devices. apply complete_evolves. Qed.

Lemma foldl_evolves {A} (f : World → A → World) l w :
  (∀ w x, evolves (devices w) (devices (f w x))) → evolves (devices w) (devices (foldl f w l)).
Proof. intros Hf. revert w. induction l as [|x l IH]; intros w; [done|]. cbn. etransitivity; [apply Hf|apply IH]. Qed.

Lemma stop_evolves f w : evolves (devices w) (devices (stop_bridge f w)).
Proof.
  unfold stop_bridge. apply (foldl_evolves (λ w p, drop_pending p w) (queue w) (set_queue [] (set_admission (Some f) w))).
  intros. apply drop_pending_evolves.
Qed.

Lemma return_evolves r w : evolves (devices w) (devices (return_bridge r w)).
Proof.
  unfold return_bridge. cbv zeta. cbn [devices set_status].
  etransitivity; [|apply foldl_evolves; intros; apply drop_pending_evolves].
  etransitivity; [|apply foldl_evolves; intros; apply complete_evolves].
  etransitivity; [|apply foldl_evolves; intros; apply drop_pending_evolves]. done.
Qed.

Lemma drained_evolves w : evolves (devices w) (devices (drained w)).
Proof. unfold drained. destruct (_ ++ _); [apply return_evolves|done]. Qed.

(** Admission, once it is over, is over. *)
Lemma stop_admission f w : is_Some (admission (stop_bridge f w)).
Proof.
  unfold stop_bridge. cbv zeta. rewrite (shed_admission _ _ _ (shed_pendings _ _)). by eexists.
Qed.

Lemma return_admission r w : admission (return_bridge r w) = admission w.
Proof.
  unfold return_bridge. cbv zeta. cbn [admission set_status].
  rewrite (shed_admission _ _ _ (shed_pendings _ _)), (shed_admission _ _ _ (shed_ops _ _)), (shed_admission _ _ _ (shed_held _ _)). done.
Qed.

Lemma drained_admission w : admission (drained w) = admission w.
Proof. unfold drained. destruct (_ ++ _); [apply return_admission|done]. Qed.

(** ** The invariant *)

Definition all_served (w : World) : Prop :=
  ∀ t out c, Answered t out ∈ log w → (t, c) ∈ accepted (log w) → served (devices w) (log w) t c.

Record routes (w : World) : Prop := {
  r_pending : ∀ x, x ∈ pending w → aimed (devices w) (command x.1) x.2;
  r_operations : ∀ o, o ∈ operations w → aimed (devices w) (op_command o) (op_slot o);
  r_answered : all_served w;
}.

Record lossless (w : World) : Prop := {
  l_devices : Forall device_ok (devices w);
  l_routes : admission w = None → routes w;
}.

(** A bridge that has been stopped promises nothing. *)
Lemma lossless_stopped w w' : lossless w → evolves (devices w) (devices w') → is_Some (admission w') → lossless w'.
Proof. intros [Hd _] He [f Hf]. split; [by apply He|]. by rewrite Hf. Qed.

(** Steps that add to the log only what [k] is: no answers, and no new command under a
    ticket that was answered. *)
Lemma lossless_frame w w' k :
  lossless w → evolves (devices w) (devices w') → admission w' = admission w →
  log w' = log w ++ k → (∀ t out, Answered t out ∉ k) → (∀ t c, (t, c) ∈ accepted k → t ∉ answered (log w)) →
  (∀ x, x ∈ pending w' → x ∈ pending w ∨ aimed (devices w') (command x.1) x.2) →
  (∀ o, o ∈ operations w' → aimed (devices w) (op_command o) (op_slot o) ∨
     (∃ o', o' ∈ operations w ∧ op_command o' = op_command o ∧ op_slot o' = op_slot o)) → lossless w'.
Proof.
  intros [Hd Hr] He Ha Hl Hk Hn Hp Ho. destruct (He Hd) as [Hd' L]. split; [done|]. rewrite Ha. intros Hadm.
  destruct (Hr Hadm) as [R1 R2 R3]. split.
  - intros x [Hx|?]%Hp; [|done]. eapply aimed_later; [exact L|]. by apply R1.
  - intros o [Hx|(o' & Hin & <- & <-)]%Ho; (eapply aimed_later; [exact L|]); [done|by apply R2].
  - intros t out c. rewrite Hl, accepted_app. intros [Hans|Hans]%elem_of_app [Hacc|Hacc]%elem_of_app;
      try (by destruct (Hk _ _ Hans)); [eapply served_later; [exact L|by eapply R3]|].
    destruct (Hn _ _ Hacc). apply list_elem_of_omap. by exists (Answered t out).
Qed.

(** ** Clients *)

Lemma ticket_unused W w : inv W w → next_ticket w ∉ answered (log w).
Proof.
  intros [I _] H. pose proof (i_accepted _ _ I) as Hi. apply increasing_NoDup, NoDup_app in Hi as (_ & Hd & _).
  apply (Hd (next_ticket w)); [|left]. rewrite (i_balance _ _ I). apply elem_of_app. by left.
Qed.

Lemma enqueue_fields c ctl w :
  let w' := (enqueue_reply c ctl w).2 in
  evolves (devices w) (devices w') ∧ admission w' = admission w ∧ pending w' = pending w ∧ operations w' = operations w
  ∧ ∃ e, log w' = log w ++ [e] ∧ (e = Refused (next_ticket w) ∨ e = Accepted (next_ticket w) c).
Proof.
  assert (F : ∀ w1, devices w1 = devices w → admission w1 = admission w → pending w1 = pending w → operations w1 = operations w → log w1 = log w →
    let w' := add_log [Refused (next_ticket w)] (drop_control false ctl w1) in
    evolves (devices w) (devices w') ∧ admission w' = admission w ∧ pending w' = pending w ∧ operations w' = operations w
    ∧ ∃ e, log w' = log w ++ [e] ∧ (e = Refused (next_ticket w) ∨ e = Accepted (next_ticket w) c)).
  { intros w1 Fd Fa Fp Fo Fl. split_and!.
    - rewrite <- Fd. apply (drop_control_evolves false ctl w1).
    - destruct ctl; exact Fa.
    - destruct ctl; exact Fp.
    - destruct ctl; exact Fo.
    - eexists. split; [|by left]. destruct ctl; cbn; by rewrite Fl. }
  unfold enqueue_reply. cbv zeta. destruct (try_acquire c (take_ticket w)) as [w1|f] eqn:Hq; [|by apply F].
  apply try_acquire_spec in Hq as [-> _].
  assert (G : ∀ w2, w2 = take_permit c (take_ticket w) ∨ w2 = release_permit c (take_permit c (take_ticket w)) →
    devices w2 = devices w ∧ admission w2 = admission w ∧ pending w2 = pending w ∧ operations w2 = operations w ∧ log w2 = log w).
  { intros w2. unfold take_permit, release_permit, operations. destruct (is_control c); intros [->| ->]; done. }
  destruct (admission (take_permit c (take_ticket w))) eqn:Ha; [apply F; by apply G; right|].
  unfold try_send. destruct (G _ (or_introl eq_refl)) as (Gd & Ga & Gp & Go & Gl).
  destruct (match status (take_permit c (take_ticket w)) with Returned _ => true | _ => false end); [apply F; by apply G; right|].
  destruct (COMMAND_CAPACITY + CONTROL_CAPACITY <=? zlen (queue (take_permit c (take_ticket w)))); [apply F; by apply G; right|]. cbn. split_and!; [by rewrite Gd|done|done|done|].
  eexists. rewrite Gl. split; [done|by right].
Qed.

Lemma enqueue_lossless W c ctl w : inv W w → lossless w → lossless (enqueue_reply c ctl w).2.
Proof.
  intros I L. destruct (enqueue_fields c ctl w) as (He & Ha & Hp & Ho & e & Hl & Hcase).
  eapply (lossless_frame w _ [e]); try done.
  - intros t out Hin%list_elem_of_singleton. destruct Hcase; congruence.
  - intros t c' Hin. destruct Hcase as [-> | ->]; [by apply elem_of_nil in Hin|].
    apply list_elem_of_singleton in Hin as [= -> _]. by eapply ticket_unused.
  - intros x. rewrite Hp. by left.
  - intros o. rewrite Ho. intros Hin. right. by exists o.
Qed.

Lemma devices_lossless ds w : lossless w → evolves (devices w) ds → lossless (set_devices ds w).
Proof.
  intros L He. apply (lossless_frame w _ []); cbn; try done.
  - by rewrite app_nil_r.
  - intros t out. apply not_elem_of_nil.
  - intros t c H. by apply elem_of_nil in H.
  - by left.
  - intros o Hin. right. by exists o.
Qed.

Lemma drop_control_lossless b c w : lossless w → lossless (drop_control b c w).
Proof. intros L. destruct c as [s|]; [|done]. apply devices_lossless; [done|]. apply (drop_control_evolves b (Some s) w). Qed.

Lemma submit_lossless W c ctl w : inv W w → lossless w → lossless (submit c ctl w).2.
Proof. intros I L. unfold submit. destruct (failure w); [by apply drop_control_lossless|by eapply enqueue_lossless]. Qed.

Lemma request_lossless W s c w : inv W w → lossless w → lossless (request s c w).2.
Proof.
  intros I L. unfold request. destruct (failure w), (devices w !! Z.to_nat s) as [d|]; try done.
  destruct (bool_decide _); [by eapply enqueue_lossless|done].
Qed.

Lemma begin_control_evolves o s w r w' : begin_control o s w = (r, w') → ∃ ds, w' = set_devices ds w ∧ evolves (devices w) ds ∧ window <$> ds = window <$> devices w.
Proof.
  assert (K : ∃ ds, w = set_devices ds w ∧ evolves (devices w) ds ∧ window <$> ds = window <$> devices w) by (exists (devices w); by destruct w).
  unfold begin_control. destruct (devices w !! Z.to_nat s) as [d|] eqn:Hd; [|by intros [= _ <-]].
  destruct (state d) eqn:Hs, o; intros [= _ <-]; try done.
  all: eexists; split; [done|]; split; [|by apply windows_alter]; apply evolves_alter; intros e; rewrite Hd; intros [= <-]; split; [done|].
  all: unfold device_ok; cbn; rewrite Hs; intros H; split; [intros Hc|done]; by specialize (H Hc).
Qed.

Lemma control_lossless W o s w : inv W w → lossless w → lossless (device_control o s w).2.
Proof.
  intros I L. unfold device_control. destruct (begin_control o s w) as [r w'] eqn:Hb.
  apply begin_control_evolves in Hb as (ds & -> & He & Hw). pose proof (devices_lossless ds w L He) as L'.
  destruct r as [[]|]; [|done..]. pose proof (quiet_inv W _ _ (quiet_devices w ds Hw) I) as I'.
  pose proof (submit_lossless W (Control s (from_control o)) (Some s) _ I' L') as H. by destruct (submit _ _ _).
Qed.

(** ** The bridge takes commands *)

(** Windows that can be told apart. *)
Record windows_ok (W : Windows) : Prop := {
  w_slots : slots_ok W;
  w_size : ∀ i k s b n, W !! i = Some (k, s, b, n) → b + n ≤ U64_MAX;
  w_apart : ∀ i j k s b n k' s' b' n', W !! i = Some (k, s, b, n) → W !! j = Some (k', s', b', n') → i ≠ j →
    b + n ≤ b' ∨ b' + n' ≤ b;
}.

Lemma window_lookup (W : Windows) (ds : list DeviceRegistration) (i : nat) d : window <$> ds = W → ds !! i = Some d → W !! i = Some (kind d, slot d, base d, size d).
Proof.
  intros <- Hd. assert (H : (window <$> ds) !! i = Some (kind d, slot d, base d, size d)) by by rewrite list_lookup_fmap, Hd.
  exact H.
Qed.

Lemma owns_access_intro d a n :
  base d + size d ≤ U64_MAX → base d ≤ a → a + n ≤ base d + size d → closed d = false → owns_access d a n = true.
Proof.
  intros Hu Ha Hn Hc. unfold owns_access. rewrite (proj2 (checked_add64_Some (base d) (size d) _)) by done.
  rewrite (proj2 (checked_add64_Some a n _)) by (split; [done|lia]). rewrite Hc, !andb_true_iff, !Z.leb_le. done.
Qed.

Lemma command_slot_aimed W ds c : window <$> ds = W → windows_ok W → aimed ds c (command_slot ds c).
Proof.
  intros Hw [Hs Hu Ha] i d Hd Hf. pose proof (window_lookup _ _ _ _ Hw Hd) as Hi.
  destruct c as [a n v b|s o]; cbn [command_slot is_for] in *.
  2:{ left. by rewrite Hf, (Hs _ _ _ _ _ Hi). }
  destruct (closed d) eqn:Hc; [by right|]. left. destruct Hf as (H1 & H2 & H3).
  assert (Ho : owns_access d a n = true) by (apply owns_access_intro; try done; by eapply Hu).
  destruct (List.find _ ds) as [e|] eqn:He.
  2:{ assert (Hin : In d ds) by (apply list_elem_of_In; by eapply list_elem_of_lookup_2).
      pose proof (find_none _ _ He d Hin) as Hn. cbn beta in Hn. congruence. }
  apply find_some in He as [Hin Hoe]. apply list_elem_of_In, list_elem_of_lookup in Hin as [j Hj].
  pose proof (window_lookup _ _ _ _ Hw Hj) as Hj'. apply owns_access_inv in Hoe as [G1 G2]. cbn. f_equal.
  rewrite (Hs _ _ _ _ _ Hj'). destruct (decide (i = j)) as [->|Hne]; [done|]. assert (0 < n) by set_solver by lia.
  destruct (Ha _ _ _ _ _ _ _ _ _ _ Hi Hj' Hne); lia.
Qed.

Lemma receive_lossless W w : windows_ok W → inv W w → lossless w → lossless (receive w).
Proof.
  intros HW [I _] L. unfold receive. destruct (queue w) as [|p q]; [done|]. apply (lossless_frame w _ []); cbn; try done.
  - by rewrite app_nil_r.
  - intros t out. apply not_elem_of_nil.
  - intros t c H. by apply elem_of_nil in H.
  - intros x [Hx| ->%list_elem_of_singleton]%elem_of_app; [by left|right]. eapply command_slot_aimed; [apply I|done].
  - intros o Hin. right. by exists o.
Qed.

Lemma dispatch_admission w w' : dispatch w = Some w' → admission w' = admission w.
Proof.
  unfold dispatch. destruct (next w) as [i|]; [|done]. cbn. destruct (pending w !! i) as [[p s]|]; [|done]. cbn.
  unfold release_permit. destruct s, (is_control (command p)); by intros [= <-].
Qed.

Lemma dispatch_lossless W w w' : inv W w → status w = Running → dispatch w = Some w' → lossless w → lossless w'.
Proof.
  intros I HR Hd L. pose proof (dispatch_admission _ _ Hd) as Ha.
  destruct (dispatch_spec W w w' I HR Hd) as (a & p & s & b & x & y & o & Hp & Ho & -> & _ & Hp' & Ho' & _ & _ & Hdev & Hl & _).
  destruct (admission w) as [f|] eqn:Hadm; [apply (lossless_stopped w); [done|by rewrite Hdev|by rewrite Ha]|].
  pose proof (l_routes w L Hadm) as [R _ _].
  apply (lossless_frame w _ []); rewrite ?Hdev, ?Hl, ?app_nil_r; try done.
  - congruence.
  - intros t out. apply not_elem_of_nil.
  - intros t c H. by apply elem_of_nil in H.
  - intros z. rewrite Hp, Hp'. intros Hz. left. set_solver.
  - intros z. rewrite Ho'. intros [Hz|[-> |Hz]%elem_of_cons]%elem_of_app; [right|left|right].
    + exists z. rewrite Ho. set_solver.
    + apply (R (p, s)). rewrite Hp. set_solver.
    + exists z. rewrite Ho. set_solver.
Qed.

(** ** Polls *)

Lemma complete_device_evolves ds r f ds' : complete_device ds r = (f, ds') → evolves ds ds'.
Proof.
  unfold complete_device. destruct (ds !! _) as [d|]; [|by intros [= _ <-]].
  destruct (Device.reply_error _); intros [= _ <-]; apply evolves_alter; intros e _; by split.
Qed.

Lemma await_reply_evolves s seq ios ds p ds' : await_reply s seq ios ds = (p, ds') → evolves ds ds'.
Proof.
  unfold await_reply. destruct ios as [|[b|[r|]] ios]; try (by intros [= _ <-]). destruct (negb _); [by intros [= _ <-]|].
  destruct (complete_device ds _) as [[]] eqn:Hc; apply complete_device_evolves in Hc; by intros [= _ <-].
Qed.

Lemma await_send_evolves s t r ios ds p k ds' : await_send s t r ios ds = (p, k, ds') →
  evolves ds ds' ∧ (k = [] ∨ k = [Sent s t r]).
Proof.
  unfold await_send. destruct ios as [|[[]|r'] ios]; try (intros [= _ <- <-]; split; [reflexivity|by left]).
  destruct (await_reply s (Device.sequence r) ios ds) as [p' ds1] eqn:Ha. apply await_reply_evolves in Ha. intros [= _ <- <-]. auto.
Qed.

(** An access that is refused by the router without a request. *)
Definition refused (o : Op) (p : Poll) (ds : list DeviceRegistration) : Prop :=
  match p with
  | Ready (Err (Router e)) => request_fields ds (op_command o) (op_slot o) = Err (Router e)
  | _ => True
  end.

Lemma await_send_refused s t r ios ds p k ds' o ds0 : await_send s t r ios ds = (p, k, ds') → refused o p ds0.
Proof. intros H%await_send_spec. destruct H as [_ [[_ H]|[_ H]]]; by destruct p as [[|[]]|]. Qed.

Lemma poll_inner_evolves o ios ds p ch k ds' : poll_inner o ios ds = (p, ch, k, ds') →
  evolves ds ds' ∧ (k = [] ∨ ∃ s r, k = [Sent s (ticket (op_reply o)) r]) ∧ refused o p ds.
Proof.
  assert (S : ∀ s r p1 k1 ds1, await_send s (ticket (op_reply o)) r ios ds = (p1, k1, ds1) →
    evolves ds ds1 ∧ (k1 = [] ∨ ∃ s r, k1 = [Sent s (ticket (op_reply o)) r]) ∧ refused o p1 ds).
  { intros s r p1 k1 ds1 Ha. pose proof (await_send_evolves _ _ _ _ _ _ _ _ Ha) as [He Hk].
    split_and!; [done|destruct Hk; eauto|by eapply await_send_refused]. }
  unfold poll_inner. destruct (op_phase o) as [|r|seq].
  - destruct (request_fields _ _ _) as [[[[op off] n] v]|e] eqn:Hf.
    2:{ intros [= <- _ <- <-]. split_and!; [done|by left|]. unfold refused. by destruct e. }
    destruct (op_slot o) as [s|]; [|by intros [= <- _ <- <-]; split_and!; [|left|]].
    destruct (op_channel o) as [seq|]; [|by intros [= <- _ <- <-]; split_and!; [|left|]].
    destruct (checked_add64 _ _); [|by intros [= <- _ <- <-]; split_and!; [|left|]].
    destruct (await_send _ _ _ _ _) as [[p1 k1] ds1] eqn:Ha. intros [= <- _ <- <-]. by eapply S.
  - destruct (op_slot o) as [s|]; [|by intros [= <- _ <- <-]; split_and!; [|left|]].
    destruct (await_send _ _ _ _ _) as [[p1 k1] ds1] eqn:Ha. intros [= <- _ <- <-]. by eapply S.
  - destruct (op_slot o) as [s|]; [|by intros [= <- _ <- <-]; split_and!; [|left|]].
    destruct (await_reply _ _ _ _) as [p1 ds1] eqn:Ha. intros [= <- _ <- <-]. split_and!; [by eapply await_reply_evolves|by left|].
    apply await_reply_spec in Ha as [_ Ha]. by destruct p1 as [[|[]]|].
Qed.

Lemma poll_op_evolves o ios expired ds p ch k ds' : poll_op o ios expired ds = (p, ch, k, ds') →
  evolves ds ds' ∧ (k = [] ∨ ∃ s r, k = [Sent s (ticket (op_reply o)) r]) ∧ refused o p ds.
Proof.
  unfold poll_op. destruct (poll_inner o ios ds) as [[[p1 ch1] k1] ds1] eqn:Hp. apply poll_inner_evolves in Hp as (H1 & H2 & H3).
  intros [= <- _ <- <-]. split_and!; [done|done|]. destruct p1 as [|ph]; [done|]. by destruct expired.
Qed.

(** The router refuses an access for a device only when the device is closed. *)
Lemma refused_closed W ds c s e i d : window <$> ds = W → windows_ok W → ds !! i = Some d → is_for d c → s = Some (Z.of_nat i) →
  request_fields ds c s = Err (Router e) → closed d = true.
Proof.
  intros Hw HW Hd Hf -> Hr. destruct c as [a n v b|s o]; [|done]. cbn in Hf, Hr. destruct Hf as (H1 & H2 & H3).
  assert (Hn : negb ((n =? 1) || (n =? 2) || (n =? 4) || (n =? 8)) = false).
  { apply negb_false_iff. rewrite !orb_true_iff, !Z.eqb_eq. set_solver. }
  pose proof (w_size W HW _ _ _ _ _ (window_lookup _ _ _ _ Hw Hd)) as Hu.
  rewrite Hn, bool_decide_eq_true_2 in Hr by (eexists; apply checked_add64_Some; split; [done|lia]).
  cbn in Hr. rewrite Nat2Z.id, Hd in Hr. by destruct (closed d).
Qed.

(** The command of a ticket. *)
Lemma ticket_command W w t c c' : inv0 W w → (t, c) ∈ accepted (log w) → (t, c') ∈ accepted (log w) → c = c'.
Proof.
  intros I [i Hi]%list_elem_of_lookup [j Hj]%list_elem_of_lookup.
  assert (Hn : NoDup (accepted (log w)).*1).
  { pose proof (increasing_NoDup _ (i_accepted _ _ I)) as H. by apply NoDup_app in H as [? _]. }
  assert (i = j) as <-; [|congruence].
  eapply (NoDup_lookup _ i j t Hn); rewrite list_lookup_fmap, ?Hi, ?Hj; done.
Qed.

(** The answer to an operation that neither fails nor stops the bridge. *)
Lemma answer_served W w o ios expired out ch k ds :
  windows_ok W → inv0 W w → o ∈ operations w → aimed (devices w) (op_command o) (op_slot o) →
  poll_op o ios expired (devices w) = (Ready out, ch, k, ds) → later (devices w) ds →
  match out with Err (Failed _) => False | _ => True end →
  served ds (log w ++ k) (ticket (op_reply o)) (op_command o).
Proof.
  intros HW I Hin Ha Hp L Hout i d' Hd Hf. destruct (L i d' Hd) as (d & Hi & Hw & Hc).
  pose proof (is_for_window _ _ _ Hw Hf) as Hf'. destruct (Ha i d Hi Hf') as [Hs|?]; [|right; auto].
  pose proof (poll_op_evolves _ _ _ _ _ _ _ _ Hp) as (_ & _ & Hr).
  assert (Hok : op_ok W (log w) o) by (pose proof (i_operations _ _ I) as H; rewrite Forall_forall in H; by apply H).
  apply (poll_op_spec W (log w)) in Hp as [_ (o' & _ & _ & _ & _ & _ & Hpo)]; [|apply I|done].
  destruct out as [r|[e|f]]; [|right|done].
  - destruct Hpo as (q & Hsl & Hq & _). rewrite Hs in Hsl. injection Hsl as Hsl. left. exists q. rewrite Hsl.
    apply list_elem_of_omap. eexists. split; [exact Hq|]. cbn. by rewrite Z.eqb_refl.
  - apply Hc. eapply (refused_closed W (devices w)); try done. apply I.
Qed.

(** [w4]: an operation is answered and taken out. *)
Lemma answered_lossless w w4 k t out c :
  lossless w → evolves (devices w) (devices w4) → admission w4 = admission w →
  log w4 = log w ++ k ++ [Answered t out] → (∀ u out, Answered u out ∉ k) → accepted k = [] →
  (∀ c', (t, c') ∈ accepted (log w) → c' = c) →
  (∀ x, x ∈ pending w4 → x ∈ pending w) → (∀ o, o ∈ operations w4 → o ∈ operations w) →
  (admission w = None → served (devices w4) (log w4) t c) → lossless w4.
Proof.
  intros [Hd Hr] He Ha Hl Hk Hkn Hu Hp Ho Hs. destruct (He Hd) as [Hd' L]. split; [done|]. rewrite Ha. intros Hadm.
  destruct (Hr Hadm) as [R1 R2 R3]. split.
  - intros x Hx. eapply aimed_later; [exact L|]. by apply R1, Hp.
  - intros o Hx. eapply aimed_later; [exact L|]. by apply R2, Ho.
  - intros u out' c' Hans Hacc. rewrite Hl, !accepted_app, Hkn in Hacc. change (accepted [Answered t out]) with (@nil (Z * Command)) in Hacc.
    rewrite !app_nil_r in Hacc. rewrite Hl, !elem_of_app in Hans. destruct Hans as [Hans|[Hans|Hans]].
    + rewrite Hl. eapply served_later; [exact L|by eapply R3].
    + by destruct (Hk u out').
    + apply list_elem_of_singleton in Hans as [= -> ->]. rewrite (Hu c' Hacc). by apply Hs.
Qed.

Lemma sent_only k t : (k = [] ∨ ∃ s r, k = [Sent s t r]) → (∀ u out, Answered u out ∉ k) ∧ accepted k = [].
Proof.
  intros [->|(s & r & ->)]; (split; [|done]); intros u out H; [by apply elem_of_nil in H|by apply list_elem_of_singleton in H].
Qed.

(** A poll after which the operation is still in work. *)
Lemma poll_kept W o ch ph w controls i k ds :
  inv W w → lossless w → operation_set controls w !! i = Some o → evolves (devices w) ds →
  (∀ u out, Answered u out ∉ k) → accepted k = [] →
  lossless (put_operations controls (<[i := mkOp (op_command o) (op_reply o) (op_slot o) ch ph]> (operation_set controls w))
              (add_log k (set_devices ds w))).
Proof.
  intros I L Hi He Hk1 Hk2. set (w1 := add_log k (set_devices ds w)). set (o' := mkOp _ _ _ ch ph).
  destruct (operation_cut controls i o w w1 Hi eq_refl eq_refl) as (x & y & Ho & Hput & _).
  destruct (put_fields controls (<[i := o']> (operation_set controls w)) w1) as (Fd & Fa & _ & _ & _ & Fp & _ & _ & Fl & _).
  destruct (Hput o') as [Hops _]. apply (lossless_frame w _ k); rewrite ?Fd, ?Fa, ?Fl, ?Fp, ?Hops; try done.
  - intros t c. rewrite Hk2. intros Hx. by apply elem_of_nil in Hx.
  - by left.
  - intros z Hz. right. rewrite elem_of_app, elem_of_cons in Hz. destruct Hz as [Hz|[-> |Hz]]; [exists z|exists o|exists z]; rewrite ?Ho; set_solver.
Qed.

Lemma poll_lossless W w controls i ios expired : windows_ok W → inv W w → lossless w → lossless (poll controls i ios expired w).
Proof.
  intros HW H L. pose proof H as [I J]. unfold poll. destruct (operation_set controls w !! i) as [o|] eqn:Hi; [|done].
  destruct (poll_op o ios expired (devices w)) as [[[p ch] k] ds] eqn:Hp.
  pose proof (poll_op_evolves _ _ _ _ _ _ _ _ Hp) as (He & Hk & _). apply sent_only in Hk as [Hk1 Hk2].
  set (w1 := add_log k (set_devices ds w)).
  destruct (operation_cut controls i o w w1 Hi eq_refl eq_refl) as (x & y & Ho & Hput & Hdel).
  assert (Hin : o ∈ operations w) by (rewrite Ho; set_solver).
  destruct p as [out|ph]; [|by apply (poll_kept W o ch ph)].
  set (w3 := put_operations controls (delete i (operation_set controls w)) w1).
  destruct (put_fields controls (delete i (operation_set controls w)) w1) as (Fd & Fa & _ & Fs & _ & Fp & _ & _ & Fl & _). fold w3 in Fd, Fa, Fs, Fp, Fl, Hdel.
  assert (E3 : ∀ s ch, evolves (devices w) (devices (complete (op_reply o) out (give_back s ch w3)))).
  { intros s c. etransitivity; [|apply complete_evolves]. by rewrite give_back_devices, Fd. }
  change (status w1) with (status w) in Fs. rewrite <- Fs in J. destruct (status w3) eqn:HS.
  - unfold completed_op. set (w4 := complete _ _ _).
    destruct (answer_fields (op_reply o) out (op_slot o) ch w3) as (_ & _ & Gl & Gc & Gd & Gp & _ & _ & Ga & _).
    fold w4 in Gl, Gc, Gd, Gp, Ga.
    assert (Hstop : ∀ f w', evolves (devices (stop_bridge f w4)) (devices w') → admission w' = admission (stop_bridge f w4) → lossless w').
    { intros f w' Hev Hadm. apply (lossless_stopped w); [done| |rewrite Hadm; apply stop_admission].
      etransitivity; [apply E3|]. etransitivity; [apply (stop_evolves f)|done]. }
    assert (Hok : match out with Err (Failed _) => False | _ => True end → lossless w4).
    { intros Hout. apply (answered_lossless w w4 k (ticket (op_reply o)) out (op_command o)); try done.
      - apply E3.
      - by rewrite Ga, Fa.
      - rewrite Gl, Fl. cbn. by rewrite <- app_assoc.
      - intros c' Hc'. eapply (ticket_command W w); [done|exact Hc'|]. apply (i_held _ _ I). unfold held.
        apply elem_of_app. left. apply list_elem_of_fmap. by exists o.
      - intros z. by rewrite Gp, Fp.
      - intros z. assert (H4 : operations w4 = operations w3) by (unfold operations; by rewrite Gc, Gd).
        cbn in Hdel. rewrite H4, Hdel, Ho. set_solver.
      - intros Hadm. destruct (l_routes w L Hadm) as [_ R _]. destruct (He (l_devices w L)) as [Hd1 L1].
        pose proof (answer_served W w o ios expired out ch k ds HW I Hin (R o Hin) Hp L1 Hout) as Hsv.
        replace (log w4) with ((log w ++ k) ++ [Answered (ticket (op_reply o)) out]) by (rewrite Gl, Fl; done).
        eapply served_later; [|exact Hsv]. assert (Hev : evolves ds (devices w4)).
        { etransitivity; [|apply complete_evolves]. by rewrite give_back_devices, Fd. }
        by destruct (Hev Hd1). }
    destruct out as [r|[e|f]].
    + destruct (all_devices_closed _); [|by apply Hok].
      apply (Hstop FStopped); [apply (drained_evolves (set_status Draining (stop_bridge FStopped w4)))|apply (drained_admission (set_status Draining (stop_bridge FStopped w4)))].
    + destruct (all_devices_closed _); [|by apply Hok].
      apply (Hstop FStopped); [apply (drained_evolves (set_status Draining (stop_bridge FStopped w4)))|apply (drained_admission (set_status Draining (stop_bridge FStopped w4)))].
    + apply (Hstop (FRouterFailed f)); [apply return_evolves|apply return_admission].
  - destruct (answer_fields (op_reply o) out None None w3) as (_ & _ & _ & _ & _ & _ & _ & _ & Ga & _). change (give_back None None w3) with w3 in Ga.
    apply (lossless_stopped w); [done| |rewrite drained_admission, Ga, Fa; apply J].
    etransitivity; [apply (E3 None None)|apply drained_evolves].
  - destruct J as [_ J]. unfold held in J. rewrite Ho, fmap_app in J. cbn in J. by destruct (o_entry <$> x).
Qed.

(** ** Histories *)

Lemma failed_lossless f w : lossless w → lossless (return_bridge (Err f) (stop_bridge f w)).
Proof.
  intros L. apply (lossless_stopped w); [done| |rewrite return_admission; apply stop_admission].
  etransitivity; [apply (stop_evolves f)|apply return_evolves].
Qed.

Lemma step_lossless W w o : windows_ok W → inv W w → lossless w → lossless (step w o).
Proof.
  intros HW I L. destruct o as [a n v b|a n v|h off len|h off bs|o h|f| | |controls i ios e|]; cbn [step].
  - by eapply submit_lossless.
  - unfold post_queue_notify. destruct (negb _); [done|].
    pose proof (submit_lossless W (Access a n v true) None w I L) as H. by destruct (submit _ _ w).
  - unfold device_read. destruct (_ ← validate_width len; _); [by eapply request_lossless|done].
  - unfold device_write. destruct (_ ← validate_width (zlen bs); _); [by eapply request_lossless|done].
  - by eapply control_lossless.
  - destruct L as [H1 H2]. split; [done|]. intros Ha. by destruct (H2 Ha).
  - destruct (status w) eqn:HS; [|done|done]. destruct (dispatch w) as [w'|] eqn:Hd; [|done]. by eapply dispatch_lossless.
  - destruct (waits w); [|done]. by eapply receive_lossless.
  - destruct (waits w || is_draining w); [|done]. by eapply poll_lossless.
  - destruct (waits w); [|done]. by apply failed_lossless.
Qed.

Lemma start_lossless ds : Forall device_ok ds → lossless (start ds).
Proof.
  intros H. split; [done|]. intros _. split; cbn.
  - intros x Hx. by apply elem_of_nil in Hx.
  - intros o Ho. by apply elem_of_nil in Ho.
  - intros t out c Hx. by apply elem_of_nil in Hx.
Qed.

Lemma run_lossless W os w : windows_ok W → inv W w → lossless w → lossless (run w os).
Proof.
  intros HW. revert w. induction os as [|o os IH]; intros w I L; [done|].
  apply IH; [by apply step_inv; [apply HW|]|by eapply step_lossless].
Qed.

End Complete.
