(* ===== verification/MmioService.v ===== *)
(** * What the MMIO bridge promises

    The devices of a box as their setup grants and maps them ([device.rs] and
    [prepare_devices] of [setup.rs]) have windows that do not meet; over such devices,
    the properties of every history of the bridge. *)

From stdpp Require Import list gmap sorting.
From S2P Require Import Prelude Limits Device BootPlan Machine MmioBridge MmioRouting MmioComplete.

Local Open Scope Z_scope.

Module Service.
Import Bridge Routing Complete.
Import Machine (DeviceKind, MachineConfig).
Import Device (Operation, Read, Write, Request, mkRequest, sequence, reply_sequence).

(** ** Setup *)

(** What is done to the plan of a box before its devices start. *)
Inductive plan_op :=
  | Grant (component_count : Z) (config : option MachineConfig) (k : DeviceKind)
  | Revoke (s : Z)
  | MapMmio (s b n : Z).

Definition plan_step (plan : list DevicePlan) (o : plan_op) : list DevicePlan :=
  match o with
  | Grant c config k => match grant_worker c config k plan with Ok (_, plan) => plan | Err _ => plan end
  | Revoke s => match revoke_worker s plan with Ok plan => plan | Err _ => plan end
  | MapMmio s b n => match map_mmio s b n plan with Ok plan => plan | Err _ => plan end
  end.
Definition plan_run (os : list plan_op) : list DevicePlan := foldl plan_step [] os.

(** A device has the slot of its place, is not closed, and has the window that its
    mapping says. *)
Definition plan_ok (plan : list DevicePlan) : Prop :=
  ∀ i p, plan !! i = Some p →
    slot (device p) = Z.of_nat i ∧ closed (device p) = false ∧ ∀ m, mapping p = Some m → m = (base (device p), size (device p)).

Lemma plan_step_ok plan o : plan_ok plan → plan_ok (plan_step plan o).
Proof.
  intros H. destruct o as [c config k|s|s b n]; cbn.
  - destruct (grant_worker c config k plan) as [[s plan']|] eqn:Hg; [|done]. unfold grant_worker in Hg.
    apply bind_Ok in Hg as (_ & _ & Hg). apply bind_Ok in Hg as (_ & _ & Hg). injection Hg as <- <-.
    intros i p [Hp|[Hl Hp]]%lookup_app_Some; [by apply H|]. apply list_lookup_singleton_Some in Hp as [Hi <-]. cbn. split_and!; [unfold zlen; lia|done|].
    intros [b n] Hm. by rewrite Hm.
  - unfold revoke_worker. destruct (last plan) as [p|] eqn:Hl; [|done]. destruct (_ =? _); [|done].
    apply last_Some in Hl as [l ->]. rewrite removelast_last. intros i q Hq. apply H. by apply lookup_app_l_Some.
  - destruct (map_mmio s b n plan) as [plan'|] eqn:Hm; [|done]. unfold map_mmio in Hm.
    apply bind_Ok in Hm as (_ & _ & Hm). destruct (plan !! Z.to_nat s) as [p|] eqn:Hp; [|done].
    destruct (_ =? s); [|done]. injection Hm as <-. intros i q [(<- & <- & _)|[_ Hq]]%list_lookup_insert_Some; [|by apply H].
    cbn. split_and!; [by apply H|by eapply H|]. by intros m [= <-].
Qed.

Lemma plan_run_ok os : plan_ok (plan_run os).
Proof.
  unfold plan_run. assert (H : plan_ok []) by done. revert H. generalize (@nil DevicePlan).
  induction os as [|o os IH]; intros plan H; [done|]. by apply IH, plan_step_ok.
Qed.

(** Two windows that do not meet. *)
Definition apart (d e : DeviceRegistration) : Prop := base d + size d ≤ base e ∨ base e + size e ≤ base d.

Lemma check_all_apart_Ok b n ds : check_all_apart (b, n) ds = Ok tt →
  Forall (λ d, base d + size d ≤ U64_MAX ∧ (base d + size d ≤ b ∨ b + n ≤ base d)) ds.
Proof.
  induction ds as [|d ds IH]; intros H; [constructor|]. cbn [check_all_apart] in H.
  apply bind_Ok in H as ([] & Hd & H). constructor; [|by apply IH]. unfold check_apart in Hd.
  apply bind_Ok in Hd as (e & He & Hd). apply ok_or_Ok, checked_add64_Some in He as [-> Hu].
  apply require_tt in Hd. cbn in Hd. split; [done|]. apply orb_true_iff in Hd as [?%Z.leb_le|?%Z.leb_le]; lia.
Qed.

(** [prepare_loop] from slot [length done] on. *)
Lemma prepare_loop_Ok setup donep plans : plan_ok (donep ++ plans) →
  prepare_loop setup (device <$> donep ++ plans) (zlen donep) plans = Ok tt →
  ∀ i p, plans !! i = Some p →
    size (device p) ≠ 0 ∧ base (device p) + size (device p) ≤ U64_MAX
    ∧ ∀ j q, (donep ++ plans) !! j = Some q → (j < length donep + i)%nat → apart (device q) (device p).
Proof.
  revert donep. induction plans as [|p plans IH]; intros donep Hok H; [by intros []|]. cbn [prepare_loop] in H.
  apply bind_Ok in H as ([b n] & Hm%ok_or_Ok & H). apply bind_Ok in H as ([] & Hr%require_tt & H).
  apply bind_Ok in H as ([] & Ha%check_all_apart_Ok & H). apply bind_Ok in H as ([] & _ & H).
  assert (Hp : (donep ++ p :: plans) !! length donep = Some p) by by apply list_lookup_middle.
  destruct (Hok _ _ Hp) as (Hs & _ & Hw). specialize (Hw _ Hm). injection Hw as -> ->. rewrite Hs, Nat2Z.id in Ha. cbn [fst snd] in Hr.
  rewrite !andb_true_iff, bool_decide_eq_true, negb_true_iff, Z.eqb_neq in Hr. destruct Hr as [[_ Hn] [c [-> Hc]%checked_add64_Some]].
  intros [|i] q Hq.
  - injection Hq as <-. split_and!; [done|done|]. intros j q' Hj Hlt. rewrite Forall_forall in Ha. apply Ha. apply list_elem_of_lookup. exists j.
    rewrite lookup_take_lt by lia. by rewrite list_lookup_fmap, Hj.
  - assert (E : donep ++ p :: plans = (donep ++ [p]) ++ plans) by by rewrite <- app_assoc. rewrite E in *.
    assert (El : zlen donep + 1 = zlen (donep ++ [p])) by by rewrite zlen_app. rewrite El in H.
    destruct (IH (donep ++ [p]) Hok H i q Hq) as (H1 & H2 & H3). split_and!; [done|done|]. intros j q' Hj Hlt.
    apply (H3 j q' Hj). rewrite length_app. cbn. lia.
Qed.

(** The devices that a box publishes. *)
Record registry (ds : list DeviceRegistration) : Prop := {
  r_slots : ∀ i d, ds !! i = Some d → slot d = Z.of_nat i;
  r_open : ∀ i d, ds !! i = Some d → closed d = false;
  r_size : ∀ i d, ds !! i = Some d → size d ≠ 0 ∧ base d + size d ≤ U64_MAX;
  r_apart : ∀ i j d e, ds !! i = Some d → ds !! j = Some e → i ≠ j → apart d e;
}.

Lemma prepare_registry setup os ds : prepare_devices setup (plan_run os) = Ok ds → registry ds.
Proof.
  intros H. unfold prepare_devices in H. apply bind_Ok in H as ([] & H & [= <-]).
  pose proof (plan_run_ok os) as Hok. pose proof (prepare_loop_Ok setup [] (plan_run os) Hok H) as HL. clear H.
  assert (Hg : ∀ i d, (device <$> plan_run os) !! i = Some d → ∃ p, plan_run os !! i = Some p ∧ d = device p).
  { intros i d Hd. rewrite list_lookup_fmap in Hd. destruct (plan_run os !! i) as [p|]; [|done]. injection Hd as <-. by exists p. }
  split.
  - intros i d (p & Hp & ->)%Hg. by apply Hok.
  - intros i d (p & Hp & ->)%Hg. by eapply Hok.
  - intros i d (p & Hp & ->)%Hg. destruct (HL i p Hp) as (? & ? & _). done.
  - intros i j d e (p & Hp & ->)%Hg (q & Hq & ->)%Hg Hne. destruct (decide (i < j)%nat) as [Hlt|Hge].
    + destruct (HL j q Hq) as (_ & _ & HA). by apply (HA i p).
    + destruct (HL i p Hp) as (_ & _ & HA). destruct (HA j q Hq) as [?|?]; [cbn; lia|by right|by left].
Qed.

Lemma registry_slots ds : registry ds → slots_ok (window <$> ds).
Proof.
  intros R i k s b n H. assert (Hl : (window <$> ds) !! i = Some (k, s, b, n)) by exact H. rewrite list_lookup_fmap in Hl.
  destruct (ds !! i) as [d|] eqn:Hd; [|done]. injection Hl as <- <- <- <-. by apply (r_slots _ R).
Qed.

Lemma registry_windows ds : registry ds → windows_ok (window <$> ds).
Proof.
  intros R. assert (Hg : ∀ i x, (window <$> ds) !! i = Some x → ∃ d, ds !! i = Some d ∧ x = window d).
  { intros i x H. rewrite list_lookup_fmap in H. destruct (ds !! i) as [d|]; [|done]. injection H as <-. by exists d. }
  split; [by apply registry_slots| |].
  - intros i k s b n (d & Hd & [= _ _ -> ->])%Hg. by eapply (r_size _ R).
  - intros i j k s b n k' s' b' n' (d & Hd & [= _ _ -> ->])%Hg (e & He & [= _ _ -> ->])%Hg Hne. by apply (r_apart _ R i j d e).
Qed.

Lemma registry_open ds : registry ds → Forall device_ok ds.
Proof. intros R. apply Forall_lookup. intros i d Hd Hc. by rewrite (r_open _ R i d Hd) in Hc. Qed.

Lemma history_lossless setup pos ds os : prepare_devices setup (plan_run pos) = Ok ds → lossless (run (start ds) os).
Proof.
  intros H%prepare_registry. apply (run_lossless (window <$> ds)); [by apply registry_windows|apply start_inv|].
  by apply start_lossless, registry_open.
Qed.

(** Every history keeps the invariant of [MmioRouting]. *)
Lemma history_inv setup pos ds os : prepare_devices setup (plan_run pos) = Ok ds → inv (window <$> ds) (run (start ds) os).
Proof. intros H. apply run_inv; [by eapply registry_slots, prepare_registry|apply start_inv]. Qed.
(** ** Answers *)

(** C11. Every register access, notification, reset and close that the bridge has
    accepted is answered exactly once, whatever the clients, the devices, their streams
    and the timeouts do: the tickets accepted are, each once, those answered and those
    still held by the bridge; nothing is held when the bridge has returned. An answer that
    is not an error is the reply of the device to the request that was sent for that very
    ticket. *)
Theorem mmio_answered_once (setup : Z → bool) (pos : list plan_op) (ds : list DeviceRegistration) (os : list op) :
  prepare_devices setup (plan_run pos) = Ok ds →
  let w := run (start ds) os in
  NoDup (accepted (log w)).*1
  ∧ (accepted (log w)).*1 ≡ₚ answered (log w) ++ (held w).*1
  ∧ (∀ r, status w = Returned r → held w = [])
  ∧ (∀ t r, Answered t (Ok r) ∈ log w →
       ∃ q, Sent (routed_slot r) t q ∈ log w ∧ reply_sequence (routed_reply r) = sequence q).
Proof.
  intros H w. destruct (history_inv setup pos ds os H) as [I J]. fold w in I, J. split_and!.
  - eapply sublist_NoDup; [apply increasing_NoDup, (i_accepted _ _ I)|]. by apply sublist_inserts_r.
  - apply I.
  - intros r Hr. rewrite Hr in J. apply J.
  - apply I.
Qed.

(** ** Routes *)

(** The request that the device at [s] gets for a command: of the device whose window has
    the access, and no other window meets it. *)
Definition to_device (ds : list DeviceRegistration) (s : Z) (c : Command) (r : Request) : Prop :=
  match c with
  | Control s' o => s' = s ∧ r = mkRequest (sequence r) o 0 0 0
  | Access a n v wr =>
      ∃ d, ds !! Z.to_nat s = Some d ∧ slot d = s ∧ base d ≤ a ∧ a + n ≤ base d + size d ∧ n ∈ [1; 2; 4; 8]
        ∧ r = mkRequest (sequence r) (if wr then Write else Read) (a - base d) n v
        ∧ ∀ j e, ds !! j = Some e → a < base e + size e → base e < a + n → e = d
  end.

Lemma routed_to_device ds s c r : registry ds → routed (window <$> ds) s c r → to_device ds s c r.
Proof.
  intros R. destruct c as [a n v wr|s' o]; [|done]. cbn. intros (Hn & (Hs & k & i & b & m & Hl & Ha & Hb) & k' & i' & b' & m' & Hl' & Hr).
  rewrite Hl in Hl'. injection Hl' as <- <- <- <-. change ((window <$> ds) !! Z.to_nat s = Some (k, i, b, m)) in Hl.
  rewrite list_lookup_fmap in Hl. destruct (ds !! Z.to_nat s) as [d|] eqn:Hd; [|done]. injection Hl as <- <- <- <-.
  exists d. split_and!; try done; [rewrite (r_slots _ R _ _ Hd); lia|].
  intros j e He H1 H2. destruct (decide (j = Z.to_nat s)) as [->|Hne]; [congruence|].
  assert (0 < n) by set_solver by lia. destruct (r_apart _ R _ _ _ _ He Hd Hne); lia.
Qed.

(** C10. The requests that reach a device are those of the accepted commands for it:
    an access goes to the device whose window contains it, which no other window meets,
    as a request with the offset into that window, the width and the value of the access.
    And none is lost: while the bridge has not been stopped, a command for the device (an
    access of a valid width in its window, or a control of it) that was answered has been
    sent to it, unless the device has been closed. A device gets the requests of its commands in the order in which these were accepted,
    numbered 0, 1, 2 and so on without a gap, and no device has two commands in work at
    the same time. *)
Theorem mmio_requests_routed (setup : Z → bool) (pos : list plan_op) (ds : list DeviceRegistration) (os : list op) (s : Z) :
  prepare_devices setup (plan_run pos) = Ok ds →
  let w := run (start ds) os in
  increasing (accepted (log w)).*1
  ∧ increasing (sent s (log w)).*1
  ∧ sequence ∘ snd <$> sent s (log w) = seqZ 0 (zlen (sent s (log w)))
  ∧ (∀ t r, (t, r) ∈ sent s (log w) → ∃ c, (t, c) ∈ accepted (log w) ∧ to_device ds s c r)
  ∧ (∀ t c o i d, (t, c) ∈ accepted (log w) → Answered t o ∈ log w → admission w = None →
       ds !! i = Some d → s = Z.of_nat i → is_for d c →
       (∃ r, (t, r) ∈ sent s (log w)) ∨ ∃ d', devices w !! i = Some d' ∧ closed d' = true)
  ∧ NoDup (omap op_slot (control_operations w ++ data_operations w)).
Proof.
  intros H w. destruct (history_inv setup pos ds os H) as [I J]. pose proof (history_lossless setup pos ds os H) as L.
  fold w in I, J, L. apply prepare_registry in H. split_and!.
  - eapply increasing_sublist; [|apply (i_accepted _ _ I)]. by apply sublist_inserts_r.
  - eapply increasing_sublist; [|apply (i_lane _ _ I s)]. unfold lane. rewrite <- app_assoc. by apply sublist_inserts_r.
  - apply I.
  - intros t r Hin. unfold sent in Hin. apply list_elem_of_omap in Hin as (e & He & Hr).
    destruct e as [| |s' t' r'|]; try done. destruct (Z.eqb_spec s' s) as [->|]; [|done]. injection Hr as -> ->.
    destruct (i_sent _ _ I _ _ _ He) as (c & Hc & Hro). exists c. split; [done|]. by apply routed_to_device.
  - intros t c o i d Hacc Hans Hadm Hd -> Hf. pose proof (i_windows _ _ I) as Hw. apply (f_equal (.!! i)) in Hw.
    rewrite !list_lookup_fmap, Hd in Hw. destruct (devices w !! i) as [d'|] eqn:Hd'; [|done]. injection Hw as Hk Hs Hb Hz.
    destruct (r_answered w (l_routes w L Hadm) t o c Hans Hacc i d' Hd') as [?|?]; [|by left|right; by exists d'].
    eapply is_for_window; [|exact Hf]. unfold window. congruence.
  - apply I.
Qed.

(** ** Waiting *)

Lemma eligible_false active nc nd before x : eligible active nc nd before x = false →
  has_capacity (command x.1) nc nd = false
  ∨ ∃ s, x.2 = Some s ∧ (s ∈ active ∨ ∃ y, y ∈ before ∧ y.2 = Some s).
Proof.
  unfold eligible. destruct (has_capacity _ _ _); [|by left]. intros H. right. cbn in H.
  destruct (existsb _ before) eqn:He; cbn in H.
  - apply existsb_exists in He as (y & Hy & Hd). apply bool_decide_eq_true in Hd as [Hy2 [s Hs]]. exists s. split; [done|]. right.
    exists y. split; [by apply list_elem_of_In|congruence].
  - destruct x as [p [s|]]; [|done]. cbn in *. apply negb_false_iff, bool_decide_eq_true in H. exists s. split; [done|by left].
Qed.

(** The log only grows. *)
Lemma shed_grows ts w w' : shed ts w w' → log w `prefix_of` log w'.
Proof. intros []. destruct shed_log0 as (l & -> & _). by exists l. Qed.

Lemma stop_grows f w : log w `prefix_of` log (stop_bridge f w).
Proof. apply (shed_grows _ _ _ (shed_pendings (queue w) (set_queue [] (set_admission (Some f) w)))). Qed.

Lemma return_grows r w : log w `prefix_of` log (return_bridge r w).
Proof.
  unfold return_bridge. cbn. etrans; [|eapply shed_grows, shed_pendings].
  etrans; [|eapply shed_grows, shed_ops]. apply (shed_grows _ _ _ (shed_held (pending w) (set_queue [] (set_pending [] (set_operations [] [] w))))).
Qed.

Lemma drained_grows w : log w `prefix_of` log (drained w).
Proof. unfold drained. destruct (_ ++ _); [apply return_grows|done]. Qed.

Lemma completed_grows o ch out w : log w ++ [Answered (ticket (op_reply o)) out] `prefix_of` log (completed_op o ch out w).
Proof.
  unfold completed_op. destruct (answer_fields (op_reply o) out (op_slot o) ch w) as (_ & _ & <- & _).
  set (w' := complete _ _ _). assert (Hc : log w' `prefix_of` log (drained (set_status Draining (stop_bridge FStopped w')))).
  { etrans; [apply (stop_grows FStopped)|]. apply (drained_grows (set_status Draining (stop_bridge FStopped w'))). }
  destruct out as [r|[e|f]]; try (by destruct (all_devices_closed _)).
  etrans; [apply stop_grows|apply return_grows].
Qed.

Lemma answered_in t out l : Answered t out ∈ l → t ∈ answered l.
Proof. intros H. apply list_elem_of_omap. by exists (Answered t out). Qed.

(** An operation in work whose time is over is answered. *)
Lemma expired_answered controls i o ios w : operation_set controls w !! i = Some o →
  ticket (op_reply o) ∈ answered (log (poll controls i ios true w)).
Proof.
  intros Hi. unfold poll. rewrite Hi. destruct (poll_op o ios true (devices w)) as [[[p ch] k] ds] eqn:Hp.
  assert (Hr : ∃ out, p = Ready out).
  { unfold poll_op in Hp. destruct (poll_inner o ios (devices w)) as [[[[] ?] ?] ?]; injection Hp as <- _ _ _; eauto. }
  destruct Hr as [out ->]. set (w3 := put_operations _ _ _).
  assert (Ho : ∀ l, log w3 ++ [Answered (ticket (op_reply o)) out] `prefix_of` l → ticket (op_reply o) ∈ answered l).
  { intros l [m ->]. apply (answered_in _ out). set_solver. }
  destruct (status w3); apply Ho; try apply completed_grows.
  etrans; [|apply drained_grows]. destruct (answer_fields (op_reply o) out None None w3) as (_ & _ & <- & _). done.
Qed.

(** Why the command at place [i] of those taken waits. *)
Definition reason (w : World) (i : nat) (p : Pending) (s : option Z) : Prop :=
  has_capacity (command p) (zlen (control_operations w)) (zlen (data_operations w)) = false
  ∨ ∃ s', s = Some s' ∧ ((∃ o, o ∈ operations w ∧ op_slot o = Some s')
                         ∨ ∃ j q, (j < i)%nat ∧ pending w !! j = Some (q, Some s')).

Lemma waiting_reason W w i p s : running W w → next w = None → pending w !! i = Some (p, s) → reason w i p s.
Proof.
  intros J Hn Hi. unfold next, next_pending in Hn.
  pose proof (find_pending_spec (active_slots w) (zlen (control_operations w)) (zlen (data_operations w)) [] (pending w)) as Hf.
  rewrite Hn in Hf. destruct (list_elem_of_split_length _ _ _ Hi) as (a & b & Hab & ->).
  apply Hf in Hab as He. apply eligible_false in He as [Hc|(s' & Hs & [Ha|([q x] & Hy & Hq)])]; [by left| |]; right; exists s'; (split; [done|]).
  - left. apply (i_active _ _ J), list_elem_of_omap in Ha. done.
  - right. cbn in Hq. subst x. apply list_elem_of_lookup in Hy as [j Hj]. exists j, q. pose proof (lookup_lt_Some _ _ _ Hj) as Hlt. split; [done|].
    rewrite Hab. by apply lookup_app_l_Some.
Qed.

Lemma some_work w : (∀ i p s, pending w !! i = Some (p, s) → reason w i p s) → held w ≠ [] → queue w ≠ [] ∨ operations w ≠ [].
Proof.
  intros HP Hh. destruct (operations w) as [|o ops] eqn:Ho; [|by right]. left. intros Hq. apply Hh. unfold held. rewrite Ho, Hq.
  destruct (pending w) as [|[p s] rest] eqn:Hp; [done|]. exfalso.
  destruct (HP 0%nat p s eq_refl) as [Hc|(s' & _ & [(o & Hin & _)|(j & q & Hj & _)])]; [|by rewrite Ho in Hin; apply elem_of_nil in Hin|lia].
  unfold operations in Ho. apply app_nil in Ho as [Hc1 Hc2]. rewrite Hc1, Hc2 in Hc. unfold has_capacity in Hc. by destruct (is_control _).
Qed.

Lemma queue_bound W w : running W w → zlen (queue w) + zlen (pending w) ≤ 128.
Proof.
  intros []. destruct i_data0 as [? Hd], i_controls0 as [? Hc]. unfold n_commands, COMMAND_CAPACITY, CONTROL_CAPACITY in *.
  assert (HL : ∀ l : list Pending, zlen (filter (λ p, is_control (command p) = false) l) + zlen (filter (λ p, is_control (command p) = true) l) = zlen l).
  { induction l as [|x l IH]; [done|]. rewrite !filter_cons. unfold zlen in *. destruct (is_control (command x)); repeat case_decide; try done; cbn [length]; lia. }
  specialize (HL (queue w ++ (pending w).*1)). rewrite zlen_app in HL. unfold zlen in *. rewrite length_fmap in HL. lia.
Qed.

(** When the bridge waits for events, a command that it has taken and not dispatched
    waits for a reason: as many operations of its kind as there may be are in work, or one
    of its device is, or an earlier command of its device waits too. So while any command
    is unanswered, there is a command to take from the queue or an operation in work, and
    one in work is answered at the latest when its time is over, whatever its device does.
    There are never more than 64 operations of a kind, and never more commands than
    the queue has room for. *)
Theorem mmio_waiting_has_reason (setup : Z → bool) (pos : list plan_op) (ds : list DeviceRegistration) (os : list op) :
  prepare_devices setup (plan_run pos) = Ok ds →
  let w := run (start ds) os in
  waits w = true →
  (∀ i p s, pending w !! i = Some (p, s) → reason w i p s)
  ∧ (held w ≠ [] → queue w ≠ [] ∨ operations w ≠ [])
  ∧ (∀ controls i o ios, operation_set controls w !! i = Some o →
       ticket (op_reply o) ∈ answered (log (step w (PollOp controls i ios true))))
  ∧ zlen (control_operations w) ≤ 64 ∧ zlen (data_operations w) ≤ 64
  ∧ zlen (queue w) + zlen (pending w) ≤ 128.
Proof.
  intros H w Hw. destruct (history_inv setup pos ds os H) as [I J]. fold w in I, J. rewrite (waits_running w Hw) in J.
  assert (HP : ∀ i p s, pending w !! i = Some (p, s) → reason w i p s).
  { intros i p s. apply (waiting_reason (window <$> ds)); [done|]. unfold waits in Hw. destruct (status w); [|done|done]. by apply bool_decide_eq_true in Hw. }
  split_and!; [done|by apply some_work| |apply I|apply I|by eapply queue_bound].
  intros controls i o ios Hi. cbn [step]. rewrite Hw. by apply expired_answered.
Qed.

(** ** A box with two devices *)

#[local] Definition demo_plan : list plan_op := [Grant 0 None Machine.Block; Grant 1 None Machine.Vsock].
#[local] Definition demo_devices : list DeviceRegistration :=
  match prepare_devices (λ _, true) (plan_run demo_plan) with Ok ds => ds | Err _ => [] end.

(** A notification and a read of the first device and a read of the second; the first
    device answers its first request, then the bridge waits. *)
#[local] Definition demo_history : list op :=
  [PostNotify 0x50 4 1; AccessVcpu 0x70 4 0 false; AccessVcpu 0x1070 4 0 false;
   Receive; Dispatch; Receive; Receive; Dispatch;
   PollOp false 0 [Bridge.Taken true] false; PollOp false 1 [Bridge.Taken true] false].
#[local] Definition demo_answer : op := PollOp false 0 [Replied (Some (Device.mkReply 0 7 None))] false.

Lemma demo_prepared : prepare_devices (λ _, true) (plan_run demo_plan) = Ok demo_devices.
Proof. vm_compute. reflexivity. Qed.

Lemma demo_log : log (run (start demo_devices) (demo_history ++ [demo_answer])) =
  [Accepted 0 (Access 0x50 4 1 true); Accepted 1 (Access 0x70 4 0 false); Accepted 2 (Access 0x1070 4 0 false);
   Sent 0 0 (mkRequest 0 Write 0x50 4 1); Sent 1 2 (mkRequest 0 Read 0x70 4 0);
   Answered 0 (Ok (mkRouted 0 (Device.mkReply 0 7 None)))].
Proof. vm_compute. reflexivity. Qed.

Lemma mmio_answered_once_witness : NoDup (accepted (log (run (start demo_devices) (demo_history ++ [demo_answer])))).*1.
Proof. apply (mmio_answered_once (λ _, true) demo_plan demo_devices (demo_history ++ [demo_answer])). exact demo_prepared. Defined.

(** The notification was answered, so it was sent to the first device. *)
Lemma mmio_requests_routed_witness :
  let w := run (start demo_devices) (demo_history ++ [demo_answer]) in
  increasing (sent 0 (log w)).*1
  ∧ ((∃ r, (0, r) ∈ sent 0 (log w)) ∨ ∃ d', devices w !! 0%nat = Some d' ∧ closed d' = true).
Proof.
  intros w. destruct (mmio_requests_routed (λ _, true) demo_plan demo_devices (demo_history ++ [demo_answer]) 0 demo_prepared)
    as (_ & H1 & _ & _ & H2 & _).
  split; [exact H1|]. eapply (H2 0 (Access 0x50 4 1 true)).
  - rewrite demo_log. left.
  - rewrite demo_log. do 5 apply list_elem_of_further. left.
  - vm_compute. reflexivity.
  - vm_compute. reflexivity.
  - reflexivity.
  - cbn. split; [lia|]. split; [lia|]. do 2 apply list_elem_of_further. left.
Defined.

Lemma mmio_waiting_has_reason_witness :
  let w := run (start demo_devices) demo_history in
  waits w = true ∧ (∀ i p s, pending w !! i = Some (p, s) → reason w i p s).
Proof.
  intros w. assert (Hw : waits w = true) by (vm_compute; reflexivity). split; [exact Hw|].
  exact (proj1 (mmio_waiting_has_reason (λ _, true) demo_plan demo_devices demo_history demo_prepared Hw)).
Defined.
End Service.
