(* ===== verification/MmioVcpu.v ===== *)
(** * Register accesses of the virtual processors

    [RuntimeVcpu] of [crates/terra-runtime/src/orchestration.rs]: a register access of a
    processor goes to the MMIO bridge ([MmioBridge]) and waits for its answer, but the
    notification of a queue does not: the processor goes on and collects the answer before
    its next access. A step of a processor is what [exchange] does between two waits. *)

From stdpp Require Import list gmap sorting.
From S2P Require Import Prelude Limits Device BootPlan Machine MmioBridge MmioRouting MmioService.

Local Open Scope Z_scope.

Module Vcpu.
Import Bridge Routing Service.
Import Device (Reply, reply_value).

(** ** Processors *)

Inductive VcpuExit := MmioRead (address width : Z) | MmioWrite (address width value : Z).
Inductive VcpuAction := ReadValue (v : Z) | Reenter.

(** Where [exchange] waits. *)
Inductive Stage := Idle | Settling (t : Z) (exit : VcpuExit) | Awaiting (t : Z) (exit : VcpuExit).

(** [issued], [returned] and [values] are a record of what has happened: the tickets of its
    commands, what [exchange] has returned, and the values of its reads. *)
Record RuntimeVcpu := mkVcpu {
  posted_write : option Z;
  stage : Stage;
  issued : list Z;
  returned : list (result Failure VcpuAction);
  values : list (Z * Z);
}.

Definition return_ (r : result Failure VcpuAction) (v : RuntimeVcpu) : RuntimeVcpu :=
  mkVcpu (posted_write v) Idle (issued v) (returned v ++ [r]) (values v).
Definition await_ (t : Z) (exit : VcpuExit) (v : RuntimeVcpu) : RuntimeVcpu :=
  mkVcpu (posted_write v) (Awaiting t exit) (issued v ++ [t]) (returned v) (values v).
Definition record_value (t x : Z) (v : RuntimeVcpu) : RuntimeVcpu :=
  mkVcpu (posted_write v) (stage v) (issued v) (returned v) (values v ++ [(t, x)]).

Definition access (address width value : Z) (write : bool) (exit : VcpuExit) (v : RuntimeVcpu) (w : World) : RuntimeVcpu * World :=
  match access_from_vcpu address width value write w with
  | (Ok t, w) => (await_ t exit v, w)
  | (Err f, w) => (return_ (Err f) v, w)
  end.

(** The access itself, once the kick before it is settled. *)
Definition issue (exit : VcpuExit) (v : RuntimeVcpu) (w : World) : RuntimeVcpu * World :=
  match exit with
  | MmioRead address width => access address width 0 false exit v w
  | MmioWrite address width value =>
      match post_queue_notify address width value w with
      | (Ok (Some t), w) => (return_ (Ok Reenter) (mkVcpu (Some t) Idle (issued v ++ [t]) (returned v) (values v)), w)
      | (Ok None, w) => access address width value true exit v w
      | (Err f, w) => (return_ (Err f) v, w)
      end
  end.

(** [exchange] up to its first wait. *)
Definition exchange (exit : VcpuExit) (v : RuntimeVcpu) (w : World) : RuntimeVcpu * World :=
  match posted_write v with
  | Some t => (mkVcpu None (Settling t exit) (issued v) (returned v) (values v), w)
  | None => issue exit v w
  end.

Definition answer (w : World) (t : Z) : option Outcome :=
  head (omap (λ e, match e with Answered t' o => if t' =? t then Some o else None | _ => None end) (log w)).

(** A wait ends: with the answer, or without one when its time is over. *)
Definition resume (timed_out : bool) (v : RuntimeVcpu) (w : World) : RuntimeVcpu * World :=
  match stage v with
  | Idle => (v, w)
  | Settling t exit =>
      match answer w t, timed_out with
      | None, false => (v, w)
      | o, _ => match await_value w o with
                | Ok _ => issue exit v w
                | Err f => (return_ (Err f) v, w)
                end
      end
  | Awaiting t exit =>
      match answer w t, timed_out with
      | None, false => (v, w)
      | o, _ => match await_value w o with
                | Ok x => (match exit with
                           | MmioRead _ _ => return_ (Ok (ReadValue x)) (record_value t x v)
                           | MmioWrite _ _ _ => return_ (Ok Reenter) v
                           end, w)
                | Err f => (return_ (Err f) v, w)
                end
      end
  end.

(** ** A box *)

Record Box := mkBox { world : World; vcpus : list RuntimeVcpu }.
Definition new_vcpu : RuntimeVcpu := mkVcpu None Idle [] [] [].
Definition box_start (ds : list DeviceRegistration) (n : nat) : Box := mkBox (start ds) (replicate n new_vcpu).

Inductive box_op := BridgeStep (o : op) | Exit (i : nat) (exit : VcpuExit) | Resume (i : nat) (timed_out : bool).

Definition on_vcpu (i : nat) (f : RuntimeVcpu → World → RuntimeVcpu * World) (b : Box) : Box :=
  match vcpus b !! i with
  | Some v => let '(v, w) := f v (world b) in mkBox w (<[i := v]> (vcpus b))
  | None => b
  end.

Definition box_step (b : Box) (o : box_op) : Box :=
  match o with
  | BridgeStep o => mkBox (step (world b) o) (vcpus b)
  | Exit i exit => on_vcpu i (λ v w, match stage v with Idle => exchange exit v w | _ => (v, w) end) b
  | Resume i timed_out => on_vcpu i (resume timed_out) b
  end.
Definition box_run (b : Box) (os : list box_op) : Box := foldl box_step b os.

(** ** Program order *)

(** The command that a processor has not seen the answer of. *)
Definition outstanding (v : RuntimeVcpu) : list Z :=
  match stage v with
  | Idle => option_list (posted_write v)
  | Settling t _ | Awaiting t _ => [t]
  end.

Definition read_value (l : list Event) (t x : Z) : Prop :=
  (∃ r, Answered t (Ok r) ∈ l ∧ x = reply_value (routed_reply r)) ∨ (∃ e, Answered t (Err (Router e)) ∈ l ∧ x = 0).

Record vcpu_ok (l : list Event) (v : RuntimeVcpu) : Prop := {
  v_posted : stage v ≠ Idle → posted_write v = None;
  v_increasing : increasing (issued v);
  v_accepted : ∀ t, t ∈ issued v → t ∈ (accepted l).*1;
  v_answered : (∀ f, Err f ∉ returned v) → ∃ a, issued v = a ++ outstanding v ∧ ∀ t, t ∈ a → t ∈ answered l;
  v_values : ∀ t x, (t, x) ∈ values v → read_value l t x;
}.
(** *** The log of the bridge grows *)

Lemma prefix_more {A} (l k : list A) : l `prefix_of` l ++ k.
Proof. by exists k. Qed.

Lemma enqueue_log c ctl w : let '(r, w') := enqueue_reply c ctl w in
  log w `prefix_of` log w' ∧ ∀ t, r = Ok t → log w' = log w ++ [Accepted t c] ∧ t = next_ticket w.
Proof.
  assert (Hd : ∀ b c w, log (drop_control b c w) = log w) by (by intros b []).
  assert (Hr : ∀ c w, log (release_permit c w) = log w) by (intros c' w'; unfold release_permit; by destruct (is_control c')).
  unfold enqueue_reply. destruct (try_acquire c (take_ticket w)) as [w1|f] eqn:Ha.
  2:{ cbn. rewrite Hd. split; [apply prefix_more|done]. }
  apply try_acquire_spec in Ha as [-> _].
  assert (Ht : log (take_permit c (take_ticket w)) = log w) by (unfold take_permit; by destruct (is_control c)).
  destruct (admission _). { cbn. rewrite Hd, Hr, Ht. split; [apply prefix_more|done]. }
  destruct (try_send _ _) as [w2|f] eqn:Hs; cbn.
  2:{ rewrite Hd, Hr, Ht. split; [apply prefix_more|done]. }
  unfold try_send in Hs. destruct (match status _ with Returned _ => true | _ => false end); [done|]. destruct (_ <=? _); [done|].
  injection Hs as <-. cbn. rewrite Ht. split; [apply prefix_more|]. by intros t [= <-].
Qed.

Lemma submit_log c ctl w : let '(r, w') := submit c ctl w in
  log w `prefix_of` log w' ∧ ∀ t, r = Ok t → log w' = log w ++ [Accepted t c] ∧ t = next_ticket w.
Proof.
  unfold submit. destruct (failure w); [|apply enqueue_log]. split; [|done]. by destruct ctl.
Qed.

Lemma submit_grows c ctl w : log w `prefix_of` log (submit c ctl w).2.
Proof. pose proof (submit_log c ctl w) as H. destruct (submit c ctl w). apply H. Qed.

Lemma post_log a n v w : let '(r, w') := post_queue_notify a n v w in
  log w `prefix_of` log w'
  ∧ ∀ o, r = Ok o → match o with
                    | Some t => log w' = log w ++ [Accepted t (Access a n v true)] ∧ t = next_ticket w
                    | None => w' = w
                    end.
Proof.
  unfold post_queue_notify. destruct (negb _); [split; [done|by intros o [= <-]]|].
  pose proof (submit_log (Access a n v true) None w) as H. destruct (submit _ None w) as [r w']. destruct H as [H1 H2].
  split; [done|]. destruct r as [t|f]; [|done]. intros o [= <-]. by apply H2.
Qed.

Lemma request_grows s c w : log w `prefix_of` log (request s c w).2.
Proof.
  unfold request. destruct (failure w), (devices w !! Z.to_nat s) as [d|]; try done. destruct (bool_decide _); [|done].
  pose proof (enqueue_log c None w) as H. destruct (enqueue_reply c None w). apply H.
Qed.

Lemma control_grows o s w : log w `prefix_of` log (device_control o s w).2.
Proof.
  unfold device_control. destruct (begin_control o s w) as [r w1] eqn:Hb.
  assert (Hl : log w1 = log w).
  { unfold begin_control in Hb. destruct (devices w !! Z.to_nat s) as [d|]; [|by injection Hb as _ <-]. by destruct (state d), o; injection Hb as _ <-. }
  destruct r as [[]|]; cbn; rewrite <- Hl; try done. pose proof (submit_grows (Control s (from_control o)) (Some s) w1).
  by destruct (submit _ _ w1).
Qed.

Lemma dispatch_log w w' : dispatch w = Some w' → log w' = log w.
Proof.
  unfold dispatch. destruct (next w) as [i|]; [|done]. cbn. destruct (pending w !! i) as [[p [s|]]|]; [| |done]; cbn; unfold release_permit.
  all: destruct (is_control _); by intros [= <-].
Qed.

Lemma poll_grows controls i ios expired w : log w `prefix_of` log (poll controls i ios expired w).
Proof.
  unfold poll. destruct (operation_set controls w !! i) as [o|]; [|done].
  destruct (poll_op o ios expired (devices w)) as [[[p ch] k] ds]. set (w1 := add_log k (set_devices ds w)).
  assert (H1 : ∀ ops, log w `prefix_of` log (put_operations controls ops w1)) by (intros ops; by destruct controls; exists k).
  destruct p as [out|ph]; [|apply H1]. set (w3 := put_operations _ _ w1).
  assert (H3 : log w `prefix_of` log w3 ++ [Answered (ticket (op_reply o)) out]) by (etrans; [apply H1|apply prefix_more]).
  destruct (status w3); (etrans; [exact H3|]); try apply completed_grows.
  etrans; [|apply drained_grows]. destruct (answer_fields (op_reply o) out None None w3) as (_ & _ & <- & _). done.
Qed.

Lemma step_grows w o : log w `prefix_of` log (step w o).
Proof.
  destruct o as [a n v b|a n v|h off len|h off bs|o h|f| | |controls i ios e|]; cbn [step]; try done.
  - apply submit_grows.
  - pose proof (post_log a n v w) as H. destruct (post_queue_notify a n v w). apply H.
  - unfold device_read. destruct (_ ← _; _); [|done]. apply request_grows.
  - unfold device_write. destruct (_ ← _; _); [|done]. apply request_grows.
  - apply control_grows.
  - destruct (status w); [|done|done]. destruct (dispatch w) as [w'|] eqn:Hd; [|done]. cbn. by rewrite (dispatch_log _ _ Hd).
  - destruct (waits w); [|done]. unfold receive. by destruct (queue w).
  - destruct (waits w || is_draining w); [|done]. apply poll_grows.
  - destruct (waits w); [|done]. etrans; [apply (stop_grows FClosed)|apply return_grows].
Qed.

(** *** Processors keep their order *)

Lemma vcpu_ok_grows l l' v : l `prefix_of` l' → vcpu_ok l v → vcpu_ok l' v.
Proof.
  intros [k ->] []. split; try done.
  - intros t Ht. rewrite accepted_app, fmap_app, elem_of_app. left. by apply v_accepted0.
  - intros Hf. destruct (v_answered0 Hf) as (a & Ha & Hin). exists a. split; [done|]. intros t Ht. rewrite answered_app, elem_of_app. left. by apply Hin.
  - intros t x Ht. destruct (v_values0 t x Ht) as [(r & Hr & ->)|(e & He & ->)].
    + left. exists r. split; [apply elem_of_app; by left|done].
    + right. exists e. split; [apply elem_of_app; by left|done].
Qed.

(** The processor when it has seen all its answers. *)
Definition idle (v : RuntimeVcpu) : RuntimeVcpu := mkVcpu None Idle (issued v) (returned v) (values v).

Lemma failed_ok l v f : posted_write v = None → vcpu_ok l (idle v) → vcpu_ok l (return_ (Err f) v).
Proof. intros Hp []. split; try done. cbn. intros Hf. destruct (Hf f). apply elem_of_app. right. left. Qed.

Lemma issued_ok W w c t l' v v' : inv W w → vcpu_ok (log w) (idle v) → t = next_ticket w → l' = log w ++ [Accepted t c] →
  issued v' = issued v ++ [t] → outstanding v' = [t] → (stage v' ≠ Idle → posted_write v' = None) →
  (∀ f, Err f ∈ returned v → Err f ∈ returned v') → values v' = values v → vcpu_ok l' v'.
Proof.
  intros [I _] V -> -> Hi Ho Hs Hr Hv. apply (vcpu_ok_grows _ (log w ++ [Accepted (next_ticket w) c])) in V as V'; [|apply prefix_more].
  destruct V' as [_ _ Va Vb Vv]. destruct V as [_ Vi Vc _ _]. cbn in *. split; [done|..].
  - rewrite Hi. apply StronglySorted_app. split_and!; [|done|repeat constructor].
    intros x y Hx Hy%list_elem_of_singleton. subst y. pose proof (i_accepted _ _ I) as HI.
    apply StronglySorted_app in HI as (HI & _ & _). apply HI; [by apply Vc|left].
  - intros t. rewrite Hi. intros [Ht|Ht%list_elem_of_singleton]%elem_of_app; [by apply Va|].
    subst t. rewrite accepted_app, fmap_app, elem_of_app. right. left.
  - intros Hf. exists (issued v). rewrite Ho. split; [done|].
    destruct Vb as (a & Ha & Hin); [intros f Hf'; by apply (Hf f), Hr|]. rewrite app_nil_r in Ha. by subst a.
  - by rewrite Hv.
Qed.

(** What a step of a processor keeps. *)
Definition kept (W : Windows) (w : World) (x : RuntimeVcpu * World) : Prop :=
  inv W x.2 ∧ log w `prefix_of` log x.2 ∧ vcpu_ok (log x.2) x.1.

Lemma vcpu_access_ok W a n x b exit v w : inv W w → posted_write v = None → vcpu_ok (log w) (idle v) → kept W w (access a n x b exit v w).
Proof.
  intros I Hp V. unfold access, access_from_vcpu. pose proof (submit_inv W w (Access a n x b) None I) as Hi.
  pose proof (submit_log (Access a n x b) None w) as Hl. destruct (submit _ None w) as [[t|f] w']; destruct Hl as [Hg Hl].
  - destruct (Hl t eq_refl) as [Hlog Ht]. split_and!; [by apply Hi|done|].
    by eapply (issued_ok W w).
  - split_and!; [by apply Hi|done|]. apply failed_ok; [done|]. by eapply vcpu_ok_grows.
Qed.

Lemma issue_ok W exit v w : inv W w → posted_write v = None → vcpu_ok (log w) (idle v) → kept W w (issue exit v w).
Proof.
  intros I Hp V. destruct exit as [a n|a n x]; cbn [issue]; [by apply vcpu_access_ok|].
  pose proof (post_inv W w a n x I) as Hi. pose proof (post_log a n x w) as Hl.
  destruct (post_queue_notify a n x w) as [[[t|]|f] w']; destruct Hl as [Hg Hl]; cbn in Hi.
  - destruct (Hl _ eq_refl) as [Hlog Ht]. split_and!; [done|done|].
    eapply (issued_ok W w); try done. cbn. intros f Hf. apply elem_of_app. by left.
  - specialize (Hl _ eq_refl) as ->. by apply vcpu_access_ok.
  - split_and!; [done|done|]. apply failed_ok; [done|]. by eapply vcpu_ok_grows.
Qed.

Lemma answer_in w t o : answer w t = Some o → Answered t o ∈ log w.
Proof.
  unfold answer. intros H%head_Some_elem_of. apply list_elem_of_omap in H as (e & He & Hx).
  destruct e as [| | |t' o']; try done. destruct (Z.eqb_spec t' t) as [->|]; [|done]. by injection Hx as ->.
Qed.

(** A wait that ends with a value has seen the answer. *)
Lemma await_value_Ok w t o x : answer w t = o → await_value w o = Ok x → t ∈ answered (log w) ∧ read_value (log w) t x.
Proof.
  intros Ha Hv. destruct o as [o|]; [|done]. apply answer_in in Ha. split; [by eapply answered_in|].
  unfold await_value in Hv. cbn in Hv. destruct o as [r|[e|f]]; cbn in Hv.
  - injection Hv as <-. left. by exists r.
  - destruct (failure w); [done|]. injection Hv as <-. right. by exists e.
  - by destruct (failure w).
Qed.

(** A processor that has seen the answer to its outstanding command. *)
Lemma seen_ok l v t : vcpu_ok l v → outstanding v = [t] → t ∈ answered l → vcpu_ok l (idle v).
Proof.
  intros [] Ho Ht. split; try done. cbn. intros Hf. destruct (v_answered0 Hf) as (a & Ha & Hin). exists (issued v). rewrite app_nil_r.
  split; [done|]. intros u. rewrite Ha, Ho. intros [Hu|Hu%list_elem_of_singleton]%elem_of_app; [by apply Hin|by subst].
Qed.

Lemma seen_failed l v f : vcpu_ok l v → posted_write v = None → vcpu_ok l (return_ (Err f) v).
Proof. intros [] Hp. split; try done. cbn. intros Hf. destruct (Hf f). apply elem_of_app. right. left. Qed.

Lemma exchange_ok W exit v w : inv W w → stage v = Idle → vcpu_ok (log w) v → kept W w (exchange exit v w).
Proof.
  intros I Hs V. unfold exchange. destruct (posted_write v) as [t|] eqn:Hp.
  - split_and!; [done|done|]. destruct V. split; try done. cbn. intros Hf. destruct (v_answered0 Hf) as (a & Ha & Hin).
    exists a. unfold outstanding in Ha. rewrite Hs, Hp in Ha. done.
  - apply issue_ok; [done|done|]. destruct v. cbn in *. by subst.
Qed.

Lemma resume_ok W timed_out v w : inv W w → vcpu_ok (log w) v → kept W w (resume timed_out v w).
Proof.
  intros I V. assert (K : kept W w (v, w)) by by split_and!.
  unfold resume. destruct (stage v) as [|t exit|t exit] eqn:Hs; [done| |]; pose proof (v_posted _ _ V) as Hp; rewrite Hs in Hp; specialize (Hp ltac:(done)).
  all: assert (Ho : outstanding v = [t]) by (unfold outstanding; by rewrite Hs).
  all: assert (H : ∀ x, await_value w (answer w t) = Ok x → t ∈ answered (log w) ∧ read_value (log w) t x) by (intros x; by apply await_value_Ok).
  all: assert (F : ∀ f, kept W w (return_ (Err f) v, w)) by (intros f; split_and!; [done|done|by apply seen_failed]).
  - assert (G : kept W w match await_value w (answer w t) with Ok _ => issue exit v w | Err f => (return_ (Err f) v, w) end).
    { destruct (await_value w (answer w t)) as [x|f]; [|done]. apply issue_ok; [done|done|]. eapply seen_ok; [done|done|]. by eapply H. }
    by destruct (answer w t), timed_out.
  - assert (G : kept W w match await_value w (answer w t) with
                         | Ok x => (match exit with MmioRead _ _ => return_ (Ok (ReadValue x)) (record_value t x v)
                                                  | MmioWrite _ _ _ => return_ (Ok Reenter) v end, w)
                         | Err f => (return_ (Err f) v, w) end).
    { destruct (await_value w (answer w t)) as [x|f]; [|done]. destruct (H x eq_refl) as [Ht Hx].
      destruct (seen_ok _ _ _ V Ho Ht) as [_ Vi Va Vb Vv]. cbn in *.
      assert (Vb' : (∀ f, Err f ∉ returned v ++ [Ok Reenter]) → (∀ f, Err f ∉ returned v)) by set_solver.
      split_and!; [done|done|]. destruct exit; (split; cbn; [done|done|done| |]).
      - intros Hf. rewrite Hp. apply Vb. set_solver.
      - intros u y [Hu|[= -> ->]%list_elem_of_singleton]%elem_of_app; [by apply Vv|done].
      - intros Hf. rewrite Hp. apply Vb. set_solver.
      - done. }
    by destruct (answer w t), timed_out.
Qed.

Definition box_inv (W : Windows) (b : Box) : Prop := inv W (world b) ∧ Forall (vcpu_ok (log (world b))) (vcpus b).

Lemma on_vcpu_inv W i f b : (∀ v, inv W (world b) → vcpu_ok (log (world b)) v → kept W (world b) (f v (world b))) →
  box_inv W b → box_inv W (on_vcpu i f b).
Proof.
  intros Hf [I V]. unfold on_vcpu. destruct (vcpus b !! i) as [v|] eqn:Hi; [|done].
  destruct (Hf v I (Forall_lookup_1 _ _ _ _ V Hi)) as (I' & Hg & Hv). destruct (f v (world b)) as [v' w']. split; [done|]. cbn in *.
  apply Forall_insert; [|done]. eapply Forall_impl; [exact V|]. intros u. by apply vcpu_ok_grows.
Qed.

Lemma box_step_inv W b o : slots_ok W → box_inv W b → box_inv W (box_step b o).
Proof.
  intros HW B. destruct o as [o|i exit|i timed_out]; cbn [box_step].
  - destruct B as [I V]. split; [by apply step_inv|]. eapply Forall_impl; [exact V|]. intros v. cbn. apply vcpu_ok_grows, step_grows.
  - apply on_vcpu_inv; [|done]. intros v I V. destruct (stage v) eqn:Hs; [by apply exchange_ok|by split_and!|by split_and!].
  - apply on_vcpu_inv; [|done]. intros v. apply resume_ok.
Qed.

Lemma box_run_inv W b os : slots_ok W → box_inv W b → box_inv W (box_run b os).
Proof. intros HW. revert b. induction os as [|o os IH]; intros b B; [done|]. by apply IH, box_step_inv. Qed.

Lemma box_start_inv ds n : box_inv (window <$> ds) (box_start ds n).
Proof.
  split; [apply start_inv|]. cbn. apply Forall_replicate. split; cbn; try done; try set_solver.
  - constructor.
  - intros _. exists []. set_solver.
Qed.

(** C36. Register accesses of a processor keep its program order, across all devices
    and although notifications of queues are not waited for: the commands of a
    processor are accepted in the order of its accesses, and as long as no access of it
    has failed, every one but the last has been answered when the next is issued; at most
    one is outstanding. What a read returns is the value that the device has replied to the
    request for that very access, or zero when no open device owns the address. *)
Theorem vcpu_program_order (setup : Z → bool) (pos : list plan_op) (ds : list DeviceRegistration) (n : nat)
    (os : list box_op) (i : nat) (v : RuntimeVcpu) :
  prepare_devices setup (plan_run pos) = Ok ds →
  let b := box_run (box_start ds n) os in
  vcpus b !! i = Some v →
  increasing (issued v)
  ∧ (∀ t, t ∈ issued v → t ∈ (accepted (log (world b))).*1)
  ∧ ((∀ f, Err f ∉ returned v) →
       ∃ a, issued v = a ++ outstanding v ∧ (length (outstanding v) ≤ 1)%nat ∧ ∀ t, t ∈ a → t ∈ answered (log (world b)))
  ∧ (∀ t x, (t, x) ∈ values v → read_value (log (world b)) t x).
Proof.
  intros H b Hv. destruct (box_run_inv (window <$> ds) (box_start ds n) os) as [_ V];
    [by eapply registry_slots, prepare_registry|apply box_start_inv|].
  fold b in V. destruct (Forall_lookup_1 _ _ _ _ V Hv). split_and!; [done|done| |done].
  intros Hf. destruct (v_answered0 Hf) as (a & Ha & Hin). exists a. split_and!; [done| |done].
  unfold outstanding. destruct (stage v); [destruct (posted_write v)|..]; cbn; lia.
Qed.

(** ** Two processors *)

(** The first notifies the first device and then reads a register of it; the second reads
    where no device is. *)
#[local] Definition demo_plan : list plan_op := [Grant 0 None Machine.Block; Grant 1 None Machine.Vsock].
#[local] Definition demo_devices : list DeviceRegistration :=
  match prepare_devices (λ _, true) (plan_run demo_plan) with Ok ds => ds | Err _ => [] end.
#[local] Definition turn : list box_op := [BridgeStep Receive; BridgeStep Dispatch].
#[local] Definition reply (seq x : Z) : list Io := [Bridge.Taken true; Replied (Some (Device.mkReply seq x None))].
#[local] Definition demo_ops : list box_op :=
  [Exit 0 (MmioWrite 0x50 4 0); Exit 0 (MmioRead 0x70 4); Exit 1 (MmioRead 0x9000 4)] ++ turn ++ turn
  ++ [BridgeStep (PollOp false 0 (reply 0 0) false); Resume 0 false] ++ turn
  ++ [BridgeStep (PollOp false 0 [] false); BridgeStep (PollOp false 0 (reply 1 15) false); Resume 0 false; Resume 1 false].
#[local] Definition demo_box : Box := box_run (box_start demo_devices 2) demo_ops.

Lemma demo_returned : returned <$> vcpus demo_box = [[Ok Reenter; Ok (ReadValue 15)]; [Ok (ReadValue 0)]].
Proof. vm_compute. reflexivity. Qed.

#[local] Definition demo_vcpu : RuntimeVcpu := mkVcpu None Idle [0; 2] [Ok Reenter; Ok (ReadValue 15)] [(2, 15)].

Lemma vcpu_program_order_witness :
  vcpus (box_run (box_start demo_devices 2) demo_ops) !! 0%nat = Some demo_vcpu ∧ increasing (issued demo_vcpu).
Proof.
  assert (Hv : vcpus (box_run (box_start demo_devices 2) demo_ops) !! 0%nat = Some demo_vcpu) by (vm_compute; reflexivity).
  assert (Hd : prepare_devices (λ _, true) (plan_run demo_plan) = Ok demo_devices) by (vm_compute; reflexivity).
  split; [exact Hv|]. exact (proj1 (vcpu_program_order (λ _, true) demo_plan demo_devices 2 demo_ops 0 demo_vcpu Hd Hv)).
Defined.
End Vcpu.
