(* ===== verification/VmmVcpu.v ===== *)
(** * The rendezvous of a virtual processor

    A native processor thread stops at an exit and waits for what to do about it; the
    virtual machine component runs one task per processor that takes the exits and
    completes them. [NativeVcpu], [resume] and [accepts_completion] of
    [crates/terra-runtime/src/component/vmm/vcpu.rs], [run_vcpu] of
    [components/vmm/src/lib.rs] and the exits of [crates/terra-hypervisor/src/vm.rs].

    [Cpu] has both sides of one processor. A step of a side is what it does between two
    waits; the timeout of the thread and the end of its handle are steps of their own. *)

From stdpp Require Import list sorting.
From S2P Require Import Prelude.

Local Open Scope Z_scope.

Module VmmVcpu.

(** ** Exits and completions *)

Inductive VcpuExit :=
  | XHalt | XShutdown | XInterrupted
  | XMmioRead (address width : Z) | XMmioWrite (address width value : Z)
  | XPioRead (port length : Z) | XPioWrite (port length : Z)
  | XIoApicAccess (offset width : Z) (write : bool) (value : Z) | XIoApicEoi (vector : Z)
  | XStopped.
Inductive VcpuAction := AStart | AReenter | AMmioRead (v : Z) | APioZero | AIoApicValue (v : Z).
Inductive VcpuOutcome := OShutdown | OStopped.

Inductive Exit := Halt | Shutdown | Interrupted | PioRead (port length : Z) | PioWrite (port length : Z) | Stopped.
Inductive Completion := Start | Reenter | PioZero.
Inductive PlatformError := Unavailable | BadExit | Cancelled.
Inductive Error := InvalidVcpu | Platform (e : PlatformError).

Definition native_exit (exit : VcpuExit) : option Exit :=
  match exit with
  | XHalt => Some Halt
  | XShutdown => Some Shutdown
  | XInterrupted => Some Interrupted
  | XPioRead port length => Some (PioRead port length)
  | XPioWrite port length => Some (PioWrite port length)
  | XMmioRead _ _ | XMmioWrite _ _ _ | XIoApicAccess _ _ _ _ | XIoApicEoi _ => None
  | XStopped => Some Stopped
  end.

Definition native_action (c : Completion) : VcpuAction :=
  match c with Start => AStart | Reenter => AReenter | PioZero => APioZero end.

Definition accepts_completion (exit : Exit) (c : Completion) : bool :=
  match exit with
  | Halt | Interrupted | PioWrite _ _ => match c with Reenter => true | _ => false end
  | PioRead _ _ => match c with PioZero => true | _ => false end
  | Shutdown | Stopped => false
  end.

(** ** One processor *)

(** A reply channel is named by its ticket. *)
Record Pending := mkPending { exit : Exit; reply : Z }.
Inductive VcpuState := AwaitingStart | AwaitingCompletion (p : Pending).

(** The thread: in the guest, or in [exchange]. *)
Inductive Native := InGuest | Waiting (t : Z).
(** The task: before a call of [resume], in it, or returned. *)
Inductive Task := Calling (c : Completion) | Resuming | Finished (r : result Error unit).

(** [exits] is [None] once the receiver is dropped; [rendezvous] is [None] while a call of
    [resume] has it. [sends], [answers] and [returned] record what has happened. *)
Record Cpu := mkCpu {
  has_sender : bool;
  exits : option (list Pending);
  rendezvous : option VcpuState;
  native : Native;
  task : Task;
  next_ticket : Z;
  sends : list (Z * Exit);
  answers : list (Z * Completion);
  returned : list (Z * Completion);
}.

Definition set_native n c := mkCpu (has_sender c) (exits c) (rendezvous c) n (task c) (next_ticket c) (sends c) (answers c) (returned c).
Definition set_task t c := mkCpu (has_sender c) (exits c) (rendezvous c) (native c) t (next_ticket c) (sends c) (answers c) (returned c).
Definition set_host e r c := mkCpu (has_sender c) e r (native c) (task c) (next_ticket c) (sends c) (answers c) (returned c).
Definition drop_sender c := mkCpu false (exits c) (rendezvous c) (native c) (task c) (next_ticket c) (sends c) (answers c) (returned c).
Definition add_answer t x c := mkCpu (has_sender c) (exits c) (rendezvous c) (native c) (task c) (next_ticket c) (sends c) (answers c ++ [(t, x)]) (returned c).
Definition add_returned t x c := mkCpu (has_sender c) (exits c) (rendezvous c) (native c) (task c) (next_ticket c) (sends c) (answers c) (returned c ++ [(t, x)]).
Definition push e c := mkCpu (has_sender c)
  (match exits c with Some q => Some (q ++ [mkPending e (next_ticket c)]) | None => None end)
  (rendezvous c) (native c) (task c) (next_ticket c + 1) (sends c ++ [(next_ticket c, e)]) (answers c) (returned c).

(** [vcpu_channel], and the task of [run_vcpus] before its first turn. *)
Definition vcpu_channel : Cpu := mkCpu true (Some []) (Some AwaitingStart) InGuest (Calling Start) 0 [] [] [].

(** [try_send] on a channel for one exit. *)
Definition can_send (c : Cpu) : bool :=
  has_sender c && match exits c with Some [] => true | _ => false end.

(** *** The thread *)

(** [VcpuHandler::exchange] up to its wait; [false] is an error. *)
Definition exchange (x : VcpuExit) (c : Cpu) : bool * Cpu :=
  match native_exit x with
  | None => (false, c)
  | Some e => if can_send c then (true, set_native (Waiting (next_ticket c)) (push e c)) else (false, c)
  end.

Definition answer (t : Z) (c : Cpu) : option Completion :=
  snd <$> head (filter (λ a, a.1 = t) (answers c)).

(** The wait of [exchange] ends with its completion. *)
Definition receive (c : Cpu) : Cpu :=
  match native c with
  | Waiting t => match answer t c with
                 | Some x => add_returned t x (set_native InGuest c)
                 | None => c
                 end
  | InGuest => c
  end.

(** It ends without: its time is over, or the reply was dropped. *)
Definition expire (c : Cpu) : Cpu :=
  match native c with Waiting _ => set_native InGuest c | InGuest => c end.

(** [VcpuHandler::finished]: nobody waits for the reply. *)
Definition finished (o : VcpuOutcome) (c : Cpu) : Cpu :=
  let e := match o with OShutdown => Shutdown | OStopped => Stopped end in
  if can_send c then push e c else c.

(** *** The component *)

(** [resume] up to its wait: [Ok] is the wait. The error of a resume that is pending ends the
    component. What [resume] has taken is dropped with it. *)
Inductive Trap := AlreadyPending.
Definition resume (x : Completion) (c : Cpu) : result Trap (result PlatformError unit) * Cpu :=
  match rendezvous c with
  | None => (Err AlreadyPending, c)
  | Some st =>
      let taken := set_host (exits c) None c in
      let dropped := set_host None None c in
      match st with
      | AwaitingCompletion p =>
          if negb (accepts_completion (exit p) x) then (Ok (Err BadExit), dropped) else
          match native c with
          | Waiting t => if t =? reply p then (Ok (Ok tt), add_answer (reply p) x taken) else (Ok (Err Cancelled), dropped)
          | InGuest => (Ok (Err Cancelled), dropped)
          end
      | AwaitingStart =>
          match x with
          | Start => (Ok (Ok tt), taken)
          | _ => (Ok (Err BadExit), dropped)
          end
      end
  end.

(** [resume] when an exit is there, or none will come. *)
Definition resumed (c : Cpu) : option (Exit * Cpu) :=
  match exits c with
  | Some (p :: q) => Some (exit p, set_host (Some q) (Some (AwaitingCompletion p)) c)
  | Some [] => if has_sender c then None else Some (Stopped, set_host None None c)
  | None => None
  end.

(** [run_vcpu] ends and drops its processor. *)
Definition finish (r : result Error unit) (c : Cpu) : Cpu := set_task (Finished r) (set_host None None c).

(** One turn of [run_vcpu]. *)
Definition run_vcpu (c : Cpu) : Cpu :=
  match task c with
  | Calling x =>
      match resume x c with
      | (Ok (Ok _), c) => set_task Resuming c
      | (Ok (Err Cancelled), c) => finish (Ok tt) c
      | (Ok (Err e), c) => finish (Err (Platform e)) c
      | (Err _, c) => finish (Err (Platform Unavailable)) c
      end
  | Resuming =>
      match resumed c with
      | None => c
      | Some (e, c) =>
          match e with
          | Halt | Interrupted | PioWrite _ _ => set_task (Calling Reenter) c
          | Shutdown | Stopped => finish (Ok tt) c
          | PioRead _ _ => set_task (Calling PioZero) c
          end
      end
  | Finished _ => c
  end.

(** *** Histories *)

Inductive op := NExchange (x : VcpuExit) | NReceive | NGiveUp | NFinished (o : VcpuOutcome) | NDrop | Component.

Definition step (c : Cpu) (o : op) : Cpu :=
  match o with
  | NExchange x => match native c with InGuest => (exchange x c).2 | Waiting _ => c end
  | NReceive => receive c
  | NGiveUp => expire c
  | NFinished o => match native c with InGuest => finished o c | Waiting _ => c end
  | NDrop => match native c with InGuest => drop_sender c | Waiting _ => c end
  | Component => run_vcpu c
  end.
Definition run (c : Cpu) (os : list op) : Cpu := foldl step c os.

(** ** The invariant *)

(** The exits that the component has not completed. *)
Definition open_exits (c : Cpu) : list Pending :=
  default [] (exits c) ++ match rendezvous c with Some (AwaitingCompletion p) => [p] | _ => [] end.

Record inv (c : Cpu) : Prop := {
  i_sends : ∀ t e, (t, e) ∈ sends c → t < next_ticket c;
  i_open : ∀ p, p ∈ open_exits c → (reply p, exit p) ∈ sends c ∧ reply p ∉ (answers c).*1;
  i_unique : NoDup (reply <$> open_exits c);
  i_channel : (length (default [] (exits c)) ≤ 1)%nat;
  i_answers : ∀ t x, (t, x) ∈ answers c → ∃ e, (t, e) ∈ sends c ∧ accepts_completion e x = true;
  i_once : NoDup (answers c).*1;
  i_returned : ∀ t x, (t, x) ∈ returned c → (t, x) ∈ answers c;
  i_order : StronglySorted Z.lt ((returned c).*1 ++ match native c with Waiting t => [t] | InGuest => [] end ++ [next_ticket c]);
  i_waiting : ∀ t, native c = Waiting t → task c = Finished (Ok tt) ∨ t ∈ reply <$> open_exits c ∨ t ∈ (answers c).*1;
  i_task : match task c with
           | Calling x => is_Some (exits c) ∧ ∃ st, rendezvous c = Some st ∧
               match st with AwaitingStart => x = Start | AwaitingCompletion p => accepts_completion (exit p) x = true end
           | Resuming => is_Some (exits c) ∧ rendezvous c = None
           | Finished r => r = Ok tt ∧ exits c = None ∧ rendezvous c = None
           end;
}.

Lemma rv_start_inv : inv vcpu_channel.
Proof.
  split; cbn; try done; try (intros; by match goal with H : _ ∈ [] |- _ => apply elem_of_nil in H end).
  - constructor.
  - lia.
  - constructor.
  - repeat constructor.
  - split; [by eexists|by exists AwaitingStart].
Qed.

Lemma push_open c e q : exits c = Some q → open_exits (push e c) ≡ₚ mkPending e (next_ticket c) :: open_exits c.
Proof. intros Hq. unfold open_exits, push. cbn. rewrite Hq. cbn. solve_Permutation. Qed.

Lemma sorted_skip l m n : StronglySorted Z.lt (l ++ m ++ [n]) → StronglySorted Z.lt (l ++ [n]).
Proof.
  intros H. apply StronglySorted_app in H as (H1 & H2 & H3). apply StronglySorted_app. split_and!; [|done|repeat constructor].
  intros x y Hx Hy. apply H1; [done|]. apply elem_of_app. by right.
Qed.

Lemma sorted_grow l n m : n < m → StronglySorted Z.lt (l ++ [n]) → StronglySorted Z.lt (l ++ [m]).
Proof.
  intros Hm H. apply StronglySorted_app in H as (H1 & H2 & _). apply StronglySorted_app. split_and!; [|done|repeat constructor].
  intros x y Hx Hy%list_elem_of_singleton. subst y. specialize (H1 x n Hx (list_elem_of_here _ _)). lia.
Qed.

Lemma sorted_next l n : StronglySorted Z.lt (l ++ [n]) → StronglySorted Z.lt (l ++ [n] ++ [n + 1]).
Proof.
  intros H. rewrite app_assoc. apply StronglySorted_app. split_and!; [|done|repeat constructor].
  intros x y Hx Hy%list_elem_of_singleton. subst y. apply elem_of_app in Hx as [Hx|Hx%list_elem_of_singleton]; [|lia].
  apply StronglySorted_app in H as (H & _). specialize (H x n Hx (list_elem_of_here _ _)). lia.
Qed.

(** An exit is sent, and [n] is what the thread does then. *)
Lemma push_inv c e n : inv c → can_send c = true → native c = InGuest → n = InGuest ∨ n = Waiting (next_ticket c) →
  inv (set_native n (push e c)).
Proof.
  intros [] Hs Hg Hn. unfold can_send in Hs. apply andb_true_iff in Hs as [_ Hs].
  destruct (exits c) as [[|]|] eqn:Hq; [|done|done]. clear Hs.
  assert (Hp : open_exits (set_native n (push e c)) ≡ₚ mkPending e (next_ticket c) :: open_exits c) by by apply (push_open c e []).
  assert (Hf : next_ticket c ∉ reply <$> open_exits c).
  { intros (p & Ht & Hin)%list_elem_of_fmap. apply i_open0 in Hin as [Hin _]. apply i_sends0 in Hin. lia. }
  rewrite Hg in i_order0. cbn in i_order0. split; cbn [sends answers next_ticket returned native task set_native push rendezvous exits]; try done.
  - intros t e' [Ht|Ht%list_elem_of_singleton]%elem_of_app; [apply i_sends0 in Ht; lia|]. injection Ht as -> ->. lia.
  - intros p. rewrite Hp, elem_of_cons. intros [->|Hin]; cbn.
    + split; [apply elem_of_app; right; left|]. intros (x & Ht & Hx)%list_elem_of_fmap. destruct x as [t x]. cbn in Ht. subst t.
      apply i_answers0 in Hx as (e' & He & _). apply i_sends0 in He. lia.
    + destruct (i_open0 p Hin). split; [|done]. apply elem_of_app. by left.
  - rewrite Hp. cbn. by constructor.
  - rewrite Hq. cbn. lia.
  - intros t x Hx. destruct (i_answers0 t x Hx) as (e' & ? & ?). exists e'. split; [|done]. apply elem_of_app. by left.
  - destruct Hn as [-> | ->]; cbn; [|by apply sorted_next]. eapply sorted_grow; [|exact i_order0]. lia.
  - intros t Ht. right. left. destruct Hn as [-> | ->]; [done|]. injection Ht as <-. rewrite Hp. left.
  - rewrite Hq. destruct (task c); naive_solver.
Qed.

Lemma give_up_inv c : inv c → inv (set_native InGuest c).
Proof. intros []. split; try done. cbn. by eapply sorted_skip. Qed.

Lemma answer_elem t c x : answer t c = Some x → (t, x) ∈ answers c.
Proof.
  unfold answer. intros ([t' y] & Hh & ->)%fmap_Some. apply head_Some_elem_of in Hh. by apply list_elem_of_filter in Hh as [<- Hh].
Qed.

Lemma rv_receive_inv c : inv c → inv (receive c).
Proof.
  intros I. unfold receive. destruct (native c) as [|t] eqn:Hn; [done|]. destruct (answer t c) as [x|] eqn:Ha; [|done].
  apply answer_elem in Ha. destruct I. rewrite Hn in i_order0. split; try done; cbn.
  - intros t' y [Hy|[= -> ->]%list_elem_of_singleton]%elem_of_app; [by apply i_returned0|done].
  - by rewrite fmap_app, <- app_assoc.
Qed.

Lemma rv_finish_inv c : inv c → inv (finish (Ok tt) c).
Proof.
  intros []. split; try done; cbn; try lia; try (by left); try (intros; by match goal with H : _ ∈ [] |- _ => apply elem_of_nil in H end).
Qed.

(** The processor is given to the task and back: nothing changes of the exits. *)
Lemma host_inv c tk e r : inv c → open_exits (set_host e r c) ≡ₚ open_exits c → (length (default [] e) ≤ 1)%nat →
  task c ≠ Finished (Ok tt) →
  match tk with
  | Calling x => is_Some e ∧ ∃ st, r = Some st ∧
      match st with AwaitingStart => x = Start | AwaitingCompletion p => accepts_completion (exit p) x = true end
  | Resuming => is_Some e ∧ r = None
  | Finished _ => False
  end → inv (set_task tk (set_host e r c)).
Proof.
  intros [] Hp Hl Hf Ht. assert (Ho : open_exits (set_task tk (set_host e r c)) ≡ₚ open_exits c) by done.
  split; try done; cbn.
  - intros p. rewrite Ho. apply i_open0.
  - by rewrite Ho.
  - intros t Hn. rewrite Ho. destruct (i_waiting0 t Hn) as [?|?]; [done|by right].
  - by destruct tk.
Qed.

Lemma complete_inv c p x : inv c → rendezvous c = Some (AwaitingCompletion p) → is_Some (exits c) → native c = Waiting (reply p) →
  accepts_completion (exit p) x = true → inv (set_task Resuming (add_answer (reply p) x (set_host (exits c) None c))).
Proof.
  intros [] Hr [q Hq] Hn Hx. set (c' := set_task _ _).
  assert (Ho : open_exits c ≡ₚ p :: open_exits c') by (unfold open_exits; cbn; rewrite Hr; solve_Permutation).
  assert (Hp : p ∈ open_exits c) by (rewrite Ho; left). destruct (i_open0 p Hp) as [Hs Ha].
  rewrite Ho in i_unique0. cbn in i_unique0. apply NoDup_cons in i_unique0 as [Hu1 Hu2]. split; try done; cbn.
  - intros p' Hp'. destruct (i_open0 p') as [? ?]; [rewrite Ho; by right|]. split; [done|]. rewrite fmap_app. apply not_elem_of_app. split; [done|].
    cbn. intros Hin%list_elem_of_singleton. apply Hu1. rewrite <- Hin. by apply list_elem_of_fmap_2.
  - intros t y [Hy|[= -> ->]%list_elem_of_singleton]%elem_of_app; [by apply i_answers0|]. by exists (exit p).
  - rewrite fmap_app. apply NoDup_app. split_and!; [done| |repeat constructor; apply not_elem_of_nil]. intros t Ht Ht'%list_elem_of_singleton. by subst.
  - intros t y Hy. apply elem_of_app. left. by apply i_returned0.
  - intros t Ht. right. right. rewrite Hn in Ht. injection Ht as <-. rewrite fmap_app. apply elem_of_app. right. left.
Qed.

Lemma run_vcpu_inv c : inv c → inv (run_vcpu c).
Proof.
  intros I. pose proof (i_task c I) as HT. unfold run_vcpu. destruct (task c) as [x| |r] eqn:Ht; [| |done].
  - destruct HT as ([q Hq] & st & Hr & Hst). unfold resume. rewrite Hr. destruct st as [|p].
    + subst x. apply host_inv; [done|unfold open_exits; cbn; by rewrite Hr|apply I|by rewrite Ht|by rewrite Hq].
    + rewrite Hst. cbn [negb]. assert (F : inv (finish (Ok tt) (set_host None None c))) by exact (rv_finish_inv c I).
      destruct (native c) as [|t] eqn:Hn; [done|]. destruct (Z.eqb_spec t (reply p)) as [->|]; [|done].
      by apply complete_inv.
  - destruct HT as ([q Hq] & Hr). unfold resumed. rewrite Hq. destruct q as [|p q].
    + destruct (has_sender c); [done|]. exact (rv_finish_inv c I).
    + assert (F : inv (finish (Ok tt) (set_host (Some q) (Some (AwaitingCompletion p)) c))) by exact (rv_finish_inv c I).
      assert (G : ∀ x, accepts_completion (exit p) x = true → inv (set_task (Calling x) (set_host (Some q) (Some (AwaitingCompletion p)) c))).
      { intros x Hx. pose proof (i_channel c I) as HL. rewrite Hq in HL. cbn in HL. apply host_inv; [done| |cbn; lia|by rewrite Ht|].
        - unfold open_exits. cbn. rewrite Hq, Hr. cbn. solve_Permutation.
        - split; [done|]. by exists (AwaitingCompletion p). }
      destruct (exit p); try done; by apply G.
Qed.

Lemma rv_step_inv c o : inv c → inv (step c o).
Proof.
  intros I. destruct o as [x| | |o| |]; cbn [step].
  - destruct (native c) eqn:Hn; [|done]. unfold exchange. destruct (native_exit x) as [e|]; [|done].
    destruct (can_send c) eqn:Hs; [|done]. apply push_inv; try done. by right.
  - by apply rv_receive_inv.
  - unfold expire. destruct (native c); [done|]. by apply give_up_inv.
  - destruct (native c) eqn:Hn; [|done]. unfold finished. destruct (can_send c) eqn:Hs; [|done].
    pose proof (push_inv c (match o with OShutdown => Shutdown | OStopped => Stopped end) InGuest I Hs Hn (or_introl eq_refl)) as H.
    unfold set_native, push in *. cbn in *. by rewrite Hn.
  - destruct (native c) eqn:Hn; [|done]. destruct I. by split.
  - by apply run_vcpu_inv.
Qed.

Lemma rv_run_inv c os : inv c → inv (run c os).
Proof. revert c. induction os as [|o os IH]; intros c I; [done|]. by apply IH, rv_step_inv. Qed.

(** ** Progress *)

Definition served (t : Z) (c : Cpu) : Prop := is_Some (answer t c) ∨ task c = Finished (Ok tt).

Lemma answered_served t c : t ∈ (answers c).*1 → served t c.
Proof.
  intros ([t' x] & Ht & Hx)%list_elem_of_fmap. cbn in Ht. subst t'. left. unfold answer.
  destruct (filter (λ a : Z * Completion, a.1 = t) (answers c)) as [|a l] eqn:Hf; [|by eexists].
  assert (Hin : (t, x) ∈ filter (λ a : Z * Completion, a.1 = t) (answers c)) by by apply list_elem_of_filter.
  rewrite Hf in Hin. by apply elem_of_nil in Hin.
Qed.

(** The task is about to complete an exit. *)
Lemma calling_served t c x p : inv c → native c = Waiting t → task c = Calling x → rendezvous c = Some (AwaitingCompletion p) →
  served t (run_vcpu c).
Proof.
  intros I Hn Ht Hr. pose proof (i_task c I) as HT. rewrite Ht in HT. destruct HT as (_ & st & Hst & Hx).
  rewrite Hr in Hst. injection Hst as <-. unfold run_vcpu, resume. rewrite Ht, Hr, Hx, Hn. cbn.
  destruct (Z.eqb_spec t (reply p)) as [->|]; [|by right]. apply answered_served. cbn. rewrite fmap_app. apply elem_of_app. right. left.
Qed.

(** The task is in [resume], and the exit is there. *)
Lemma resuming_served t c : inv c → native c = Waiting t → task c = Resuming → t ∈ reply <$> open_exits c →
  ∃ n, (n ≤ 2)%nat ∧ served t (run c (replicate n Component)).
Proof.
  intros I Hn Ht Hin. pose proof (i_task c I) as HT. rewrite Ht in HT. destruct HT as ([q Hq] & Hr).
  unfold open_exits in Hin. rewrite Hq, Hr, app_nil_r in Hin. cbn in Hin. destruct q as [|p q]; [by apply elem_of_nil in Hin|].
  set (c1 := set_host (Some q) (Some (AwaitingCompletion p)) c).
  assert (H1 : (∃ x, run_vcpu c = set_task (Calling x) c1) ∨ run_vcpu c = finish (Ok tt) c1).
  { unfold run_vcpu, resumed. rewrite Ht, Hq. destruct (exit p); eauto. }
  destruct H1 as [[x H1]|H1].
  - exists 2%nat. split; [done|]. cbn. rewrite H1. apply (calling_served t _ x p); try done. rewrite <- H1. by apply run_vcpu_inv.
  - exists 1%nat. split; [lia|]. cbn. rewrite H1. by right.
Qed.

Lemma waiting_served t c : inv c → native c = Waiting t → ∃ n, (n ≤ 3)%nat ∧ served t (run c (replicate n Component)).
Proof.
  intros I Hn. destruct (i_waiting c I t Hn) as [Hf|[Hin|Ha]].
  - exists 0%nat. split; [lia|by right].
  - pose proof (i_task c I) as HT. destruct (task c) as [x| |r] eqn:Ht.
    + destruct HT as ([q Hq] & [|p] & Hr & Hx).
      * subst x. set (c1 := run_vcpu c). assert (H1 : c1 = set_task Resuming (set_host (exits c) None c)).
        { unfold c1, run_vcpu, resume. by rewrite Ht, Hr. }
        destruct (resuming_served t c1) as (n & Hle & Hs); [by apply run_vcpu_inv|by rewrite H1|by rewrite H1| |].
        { rewrite H1. unfold open_exits in *. cbn in *. by rewrite Hr in Hin. }
        exists (S n). split; [lia|exact Hs].
      * exists 1%nat. split; [lia|]. cbn. by apply (calling_served t c x p).
    + destruct (resuming_served t c) as (n & Hle & Hs); try done. exists n. split; [lia|done].
    + destruct HT as (-> & _). exists 0%nat. split; [lia|by right].
  - exists 0%nat. split; [lia|]. by apply answered_served.
Qed.

(** C23. The rendezvous of a virtual processor is sound under every interleaving of the
    thread, its timeouts and its end with the task of the component: the task never ends
    with an error, so no completion is refused and no call of [resume] meets another; a
    completion that reaches the guest is one that its exit accepts; exits are completed
    at most once and their completions returned in the order of the exits; at most one
    exit is queued. A waiting thread is served by at most three turns of the component, or
    the task of its processor has ended. *)
Theorem vcpu_rendezvous (os : list op) :
  let c := run vcpu_channel os in
  (∀ r, task c = Finished r → r = Ok tt)
  ∧ (∀ t x, (t, x) ∈ returned c → ∃ e, (t, e) ∈ sends c ∧ accepts_completion e x = true)
  ∧ NoDup (answers c).*1
  ∧ StronglySorted Z.lt (returned c).*1
  ∧ (length (default [] (exits c)) ≤ 1)%nat
  ∧ (∀ t, native c = Waiting t → ∃ n, (n ≤ 3)%nat ∧ served t (run c (replicate n Component))).
Proof.
  intros c. assert (I : inv c) by apply rv_run_inv, rv_start_inv. split_and!.
  - intros r Hr. pose proof (i_task c I) as HT. rewrite Hr in HT. apply HT.
  - intros t x Hx. by apply (i_answers c I), (i_returned c I).
  - apply I.
  - pose proof (i_order c I) as HO. by apply StronglySorted_app in HO as (_ & HO & _).
  - apply I.
  - intros t. by apply waiting_served.
Qed.

(** The thread halts, reads a port and shuts down. *)
Lemma demo_rendezvous :
  let c := run vcpu_channel [Component; NExchange XHalt; Component; Component; NReceive; NExchange (XPioRead 0x64 1);
             Component; Component; NReceive; NFinished OShutdown; NDrop; Component] in
  returned c = [(0, Reenter); (1, PioZero)] ∧ task c = Finished (Ok tt).
Proof. vm_compute. split; reflexivity. Qed.
End VmmVcpu.
