(* ===== verification/VmmMachine.v ===== *)
(** * The life of a virtual machine

    How a machine is started, ends and is cleaned up: the component
    ([components/vmm/src/machine.rs] and [lifecycle.rs]), and on the host
    [crates/terra-runtime/src/component/vmm/lifecycle.rs] (the events that end a machine),
    [teardown.rs] with [native_task.rs] (the cleanup of native resources) and the
    machine states of [virtualization.rs].

    [World] has the state of both. A step is what runs between two waits; what the
    processors, the clock and the cleanup futures do is an argument of the step that
    observes it. A close future is named by a number, an error string is a [Text]. *)

From stdpp Require Import list strings sorting.
From S2P Require Import Prelude Limits Device BootPlan Machine MmioBridge VmmVcpu.

Local Open Scope Z_scope.

Module VmmMachine.
Import Machine (DeviceKind, Block, Fs, Memory, Vsock, Architecture, X86, Arm).

Inductive Text :=
  | TNative (s : string) | TComponentFailed | TVcpuExit (e : VmmVcpu.Error) | TRuntime.

(** ** The first event wins *)

Inductive Event := GuestExit (code : Z) | ComponentFailed | Deadline.
Inductive Outcome := OGuestExit (code : Z) | OComponentFailed | OVcpuFinished | ODeadline.
(** [lifecycle_platform::Event] *)
Inductive PlatformEvent := PGuestExit (code : Z) | PComponentFailed (t : Text) | PVcpuFinished | PDeadline.

Definition BOX_SHUTDOWN_TIMEOUT : Z := 5.

(** [shutdown_deadline] is [ShutdownDeadline]. *)
Record LifecycleNotifier := mkNotifier {
  event : option Event;
  ready : bool;
  native_failure : option Text;
  outcome : option Outcome;
  shutdown_deadline : option Z;
}.

(** [ShutdownDeadline::start] at the time [now]. *)
Definition start_deadline (now : Z) (d : option Z) : option Z :=
  match d with Some d => Some d | None => Some (now + BOX_SHUTDOWN_TIMEOUT) end.

(** [publish], and [publish_outcome]: whether this is the first one. *)
Definition publish (now : Z) (e : Event) (n : LifecycleNotifier) : bool * LifecycleNotifier :=
  match event n with
  | Some _ => (false, n)
  | None => (true, mkNotifier (Some e) (ready n) (native_failure n) (outcome n) (start_deadline now (shutdown_deadline n)))
  end.
Definition publish_outcome (now : Z) (o : Outcome) (n : LifecycleNotifier) : LifecycleNotifier :=
  match outcome n with
  | Some _ => n
  | None => mkNotifier (event n) (ready n) (native_failure n) (Some o) (start_deadline now (shutdown_deadline n))
  end.

(** [agent_ready] and [agent_disconnected] *)
Definition set_ready (b : bool) (n : LifecycleNotifier) : LifecycleNotifier :=
  mkNotifier (event n) b (native_failure n) (outcome n) (shutdown_deadline n).
Definition expire_boot_deadline (now : Z) (n : LifecycleNotifier) : bool * LifecycleNotifier :=
  if ready n then (false, n) else publish now Deadline n.
Definition guest_exit (now code : Z) (n : LifecycleNotifier) : LifecycleNotifier := (publish now (GuestExit code) n).2.
Definition component_failed (now : Z) (n : LifecycleNotifier) : LifecycleNotifier := (publish now ComponentFailed n).2.
Definition deadline (now : Z) (n : LifecycleNotifier) : LifecycleNotifier := (publish now Deadline n).2.
Definition native_failed (now : Z) (t : Text) (n : LifecycleNotifier) : LifecycleNotifier :=
  component_failed now (mkNotifier (event n) (ready n)
    (match native_failure n with Some f => Some f | None => Some t end) (outcome n) (shutdown_deadline n)).
Definition begin_shutdown (now : Z) (n : LifecycleNotifier) : LifecycleNotifier :=
  mkNotifier (event n) (ready n) (native_failure n) (outcome n) (start_deadline now (shutdown_deadline n)).

(** [LifecycleHost::next_event] when there is one. *)
Definition next_event (n : LifecycleNotifier) : option PlatformEvent :=
  match event n with
  | None => None
  | Some (GuestExit code) => Some (PGuestExit code)
  | Some ComponentFailed => Some (PComponentFailed (default TComponentFailed (native_failure n)))
  | Some Deadline => Some PDeadline
  end.

(** ** Teardown *)

Inductive ShutdownKind := KDevice (k : DeviceKind) | KAgent.
Record DeviceShutdown := mkShutdown { kind : ShutdownKind; close : Z }.
Definition order (d : DeviceShutdown) : Z :=
  match kind d with
  | KDevice Memory => 0
  | KDevice Fs => 1
  | KAgent => 2
  | KDevice Vsock => 3
  | KDevice Block => 4
  end.

Record TeardownGrants := mkGrants {
  g_machine : bool;
  g_devices : list DeviceShutdown;
  g_interrupts : option Z;
}.
Definition has_work (g : TeardownGrants) : bool :=
  g_machine g || negb (bool_decide (g_devices g = [])) || bool_decide (is_Some (g_interrupts g)).

(** What [run_teardown] waits for. *)
Inductive Cleanup :=
  | Reaping (g : TeardownGrants)
  | Closing (d : DeviceShutdown) (rest : list DeviceShutdown) (interrupts : option Z) (first_error : option Text)
  | ClosingInterrupts (i : Z) (first_error : option Text)
  | Cleaned (o : result Text unit).
Inductive TeardownState := Collecting (g : TeardownGrants) | Running (c : Cleanup).

Definition closing (rest : list DeviceShutdown) (interrupts : option Z) (first_error : option Text) : Cleanup :=
  match rest with
  | d :: rest => Closing d rest interrupts first_error
  | [] => match interrupts with
          | Some i => ClosingInterrupts i first_error
          | None => Cleaned (match first_error with None => Ok tt | Some e => Err e end)
          end
  end.
Definition close_devices (g : TeardownGrants) : Cleanup :=
  closing (sort_by_key order (g_devices g)) (g_interrupts g) None.

(** [run_teardown] up to its first wait; [built]: its runtime could be built. *)
Definition run_teardown (built : bool) (g : TeardownGrants) : Cleanup :=
  if negb built then Cleaned (Err TRuntime)
  else if g_machine g then Reaping g else close_devices g.

(** [get_or_insert] *)
Definition keep_first (first_error : option Text) (r : result Text unit) : option Text :=
  match first_error, r with
  | None, Err e => Some e
  | _, _ => first_error
  end.

(** What was waited for, and the rest of the cleanup. The grants of a machine that cannot be
    reaped are forgotten. *)
Inductive Item := IMachine | IDevice (d : DeviceShutdown) | IInterrupts (i : Z).
Definition cleanup_step (r : result Text unit) (c : Cleanup) : option Item * Cleanup :=
  match c with
  | Reaping g => (Some IMachine, match r with Ok _ => close_devices g | Err e => Cleaned (Err e) end)
  | Closing d rest interrupts fe => (Some (IDevice d), closing rest interrupts (keep_first fe r))
  | ClosingInterrupts i fe => (Some (IInterrupts i), closing [] None (keep_first fe r))
  | Cleaned _ => (None, c)
  end.

(** [TeardownState::task], which starts. *)
Definition task (built : bool) (t : TeardownState) : TeardownState :=
  match t with
  | Collecting g => Running (run_teardown built g)
  | Running c => Running c
  end.

(** [TeardownState::drop] *)
Definition drop_teardown (built : bool) (t : TeardownState) : TeardownState :=
  match t with
  | Collecting g => if has_work g then task built t else t
  | Running c => Running c
  end.

Inductive Failure := AlreadyStarted | AlreadyInstalled | TooManyDevices | NotBootReady | StartFailed | AlreadyAttached.

Definition install_machine (t : TeardownState) : result Failure TeardownState :=
  match t with
  | Collecting g => if g_machine g then Err AlreadyInstalled else Ok (Collecting (mkGrants true (g_devices g) (g_interrupts g)))
  | Running _ => Err AlreadyStarted
  end.
Definition install_device (d : DeviceShutdown) (t : TeardownState) : result Failure TeardownState :=
  match t with
  | Collecting g => if zlen (g_devices g) <? Bridge.MAX_BOX_COMPONENTS + 1
                    then Ok (Collecting (mkGrants (g_machine g) (g_devices g ++ [d]) (g_interrupts g)))
                    else Err TooManyDevices
  | Running _ => Err AlreadyStarted
  end.
Definition install_interrupts (i : Z) (t : TeardownState) : result Failure TeardownState :=
  match t with
  | Collecting g => match g_interrupts g with
                    | Some _ => Err AlreadyInstalled
                    | None => Ok (Collecting (mkGrants (g_machine g) (g_devices g) (Some i)))
                    end
  | Running _ => Err AlreadyStarted
  end.
(** ** The machine *)

(** [MachineState] of the host, without what it retains. *)
Inductive MachineState := Detached | BootReady | MRunning.

(** [Machine] of the component: its processors until [run_vcpus] takes them. *)
Record Machine := mkMachine { is_running : bool; vcpus : option Z }.
Inductive MachineError := InvalidVcpus | Platform | AlreadyCreated | InvalidState.

(** [Guest::initialize] *)
Definition initialize (a : Architecture) (n : Z) (m : option Machine) : result MachineError (option Machine) :=
  match m with
  | Some _ => Err AlreadyCreated
  | None =>
      let max_vcpus := match a with X86 => X86_MAX_VCPUS | Arm => ARM_MAX_VCPUS end in
      if (n =? 0) || (max_vcpus <? n) then Err InvalidVcpus else Ok (Some (mkMachine false (Some n)))
  end.

Definition mark_stopped (m : option Machine) : option Machine := (λ m, mkMachine false (vcpus m)) <$> m.

Definition release (m : option Machine) : result MachineError (option Machine) :=
  match m with
  | Some m => if is_running m then Err InvalidState else Ok None
  | None => Ok None
  end.

(** [run_vcpus] up to its wait. *)
Definition run_vcpus (m : option Machine) : result VmmVcpu.Error (option Machine) :=
  match m with
  | Some (mkMachine _ (Some _)) => Ok (Some (mkMachine true None))
  | _ => Err VmmVcpu.InvalidVcpu
  end.

(** ** The lifecycle *)

(** [completed_vcpus_event] *)
Definition completed_vcpus_event (r : result VmmVcpu.Error unit) (external : option PlatformEvent) : PlatformEvent :=
  match r with
  | Err e => PComponentFailed (TVcpuExit e)
  | Ok _ => default PVcpuFinished external
  end.

(** Where [wait_for_shutdown] waits. [started]: whether [finish_shutdown] has been polled. *)
Inductive Life :=
  | LStart
  | LSelect
  | LFinish (ev : PlatformEvent)
  | LBoth (ev : PlatformEvent) (started : bool)
  | LStopping (r : result VmmVcpu.Error unit) (ev : PlatformEvent) (started : bool)
  | LReturned (r : result unit PlatformEvent).

(** [cleaned] and [granted] record what the cleanup has done and what it was given;
    [vcpus_result] what the processors have returned to the lifecycle. *)
Record World := mkWorld {
  notifier : LifecycleNotifier;
  teardown : TeardownState;
  host : MachineState;
  machine : option Machine;
  life : Life;
  granted : list Item;
  cleaned : list (Item * result Text unit);
  vcpus_result : option (result VmmVcpu.Error unit);
}.

Definition set_notifier x w := mkWorld x (teardown w) (host w) (machine w) (life w) (granted w) (cleaned w) (vcpus_result w).
Definition set_teardown x w := mkWorld (notifier w) x (host w) (machine w) (life w) (granted w) (cleaned w) (vcpus_result w).
Definition set_host x w := mkWorld (notifier w) (teardown w) x (machine w) (life w) (granted w) (cleaned w) (vcpus_result w).
Definition set_machine x w := mkWorld (notifier w) (teardown w) (host w) x (life w) (granted w) (cleaned w) (vcpus_result w).
Definition set_life x w := mkWorld (notifier w) (teardown w) (host w) (machine w) x (granted w) (cleaned w) (vcpus_result w).
Definition add_granted x w := mkWorld (notifier w) (teardown w) (host w) (machine w) (life w) (granted w ++ [x]) (cleaned w) (vcpus_result w).
Definition add_cleaned x w := mkWorld (notifier w) (teardown w) (host w) (machine w) (life w) (granted w) (cleaned w ++ x) (vcpus_result w).
Definition set_result x w := mkWorld (notifier w) (teardown w) (host w) (machine w) (life w) (granted w) (cleaned w) (Some x).

Definition initial : World :=
  mkWorld (mkNotifier None false None None None) (Collecting (mkGrants false [] None)) Detached None LStart [] [] None.

(** [Vm::request_stop] of the host, when the machine of the component runs. *)
Definition request_stop (built : bool) (w : World) : result unit World :=
  match machine w with
  | Some m =>
      if is_running m then
        match host w with
        | MRunning => Ok (set_teardown (task built (teardown w)) w)
        | _ => Err tt
        end
      else Ok w
  | None => Ok w
  end.

(** [finish_shutdown] up to its wait: the stop, then [lifecycle_platform::shutdown]. *)
Definition begin_finish (now : Z) (built : bool) (w : World) : result unit World :=
  w ← request_stop built w;
  Ok (set_teardown (task built (teardown w)) (set_notifier (begin_shutdown now (notifier w)) w)).

(** The wait of [shutdown]; [expired]: its deadline is over. *)
Definition shutdown_poll (expired : bool) (w : World) : option (result unit unit) :=
  match teardown w with
  | Running (Cleaned (Ok _)) => Some (Ok tt)
  | Running (Cleaned (Err _)) => Some (Err tt)
  | _ => if expired then Some (Err tt) else None
  end.

(** [create_component_loop], with what [run] has returned. *)
Definition component_loop (now : Z) (r : result unit PlatformEvent) (w : World) : World :=
  let n := notifier w in
  set_notifier (match r with
                | Ok (PGuestExit code) => publish_outcome now (OGuestExit code) n
                | Ok (PComponentFailed t) => publish_outcome now OComponentFailed (native_failed now t n)
                | Ok PVcpuFinished => publish_outcome now OVcpuFinished n
                | Ok PDeadline => publish_outcome now ODeadline n
                | Err _ => n
                end) w.

(** The end of [Guest::run]. *)
Definition returned (now : Z) (outcome : result unit PlatformEvent) (w : World) : World :=
  let '(released, m) := match release (machine w) with Ok m => (true, m) | Err _ => (false, machine w) end in
  let r := match outcome with Ok ev => if released then Ok ev else Err tt | Err _ => Err tt end in
  component_loop now r (set_life (LReturned r) (set_machine m w)).

Definition begin_or_fail (now : Z) (built : bool) (next : Life) (w : World) : World :=
  match begin_finish now built w with
  | Ok w => set_life next w
  | Err _ => returned now (Err tt) w
  end.

(** The wait of a [finish_shutdown] that has been polled; [ev] is what is returned then. *)
Definition finish (now : Z) (expired : bool) (ev : PlatformEvent) (w : World) : World :=
  match shutdown_poll expired w with
  | None => w
  | Some (Ok _) => returned now (Ok ev) (set_machine (mark_stopped (machine w)) w)
  | Some (Err _) => returned now (Err tt) w
  end.

(** The processors have returned first. *)
Definition vcpus_first (now : Z) (built : bool) (r : result VmmVcpu.Error unit) (w : World) : World :=
  let ev := completed_vcpus_event r (next_event (notifier w)) in
  begin_or_fail now built (LFinish ev) (set_result r w).

Definition select (now : Z) (built : bool) (vcpus : option (result VmmVcpu.Error unit)) (w : World) : World :=
  match vcpus, next_event (notifier w) with
  | Some r, _ => vcpus_first now built r w
  | None, Some ev => set_life (LBoth ev false) w
  | None, None => set_life LSelect w
  end.

(** One poll of [Guest::run]. [vcpus]: what the processors have returned, if they have. *)
Definition life_poll (now : Z) (built expired : bool) (vcpus : option (result VmmVcpu.Error unit)) (w : World) : World :=
  match life w with
  | LStart =>
      match run_vcpus (machine w) with
      | Err e => vcpus_first now built (Err e) w
      | Ok m => select now built vcpus (set_machine m w)
      end
  | LSelect => select now built vcpus w
  | LFinish ev => finish now expired ev w
  | LBoth ev started =>
      match vcpus with
      | Some r => set_life (LStopping r ev started) (set_result r w)
      | None => if started then finish now expired ev w else begin_or_fail now built (LBoth ev true) w
      end
  | LStopping r ev started =>
      if started then finish now expired (completed_vcpus_event r (Some ev)) w
      else begin_or_fail now built (LStopping r ev true) w
  | LReturned _ => w
  end.

(** ** Histories *)

(** [attach_machine] of a machine with a boot entry; [in_time]: the component has
    answered in time. *)
Definition attach_machine (a : Architecture) (n : Z) (in_time : bool) (w : World) : result Failure World :=
  match host w with
  | Detached =>
      let w := set_host BootReady w in
      Ok (if in_time then match initialize a n (machine w) with Ok m => set_machine m w | Err _ => w end else w)
  | _ => Err AlreadyAttached
  end.

(** [start_native_vcpus]; [started]: the back end has started them. *)
Definition start_native_vcpus (started : bool) (w : World) : result Failure unit * World :=
  match host w with
  | BootReady =>
      let w := set_host Detached w in
      if negb started then (Err StartFailed, w) else
      match install_machine (teardown w) with
      | Ok t => (Ok tt, set_host MRunning (add_granted IMachine (set_teardown t w)))
      | Err f => (Err f, w)
      end
  | _ => (Err NotBootReady, w)
  end.

Definition grant_device (d : DeviceShutdown) (w : World) : result Failure unit * World :=
  match install_device d (teardown w) with
  | Ok t => (Ok tt, add_granted (IDevice d) (set_teardown t w))
  | Err f => (Err f, w)
  end.
Definition grant_interrupts (i : Z) (w : World) : result Failure unit * World :=
  match install_interrupts i (teardown w) with
  | Ok t => (Ok tt, add_granted (IInterrupts i) (set_teardown t w))
  | Err f => (Err f, w)
  end.

(** The cleanup thread; [r] is what it has waited for. *)
Definition clean (r : result Text unit) (w : World) : World :=
  match teardown w with
  | Running c =>
      let '(i, c) := cleanup_step r c in
      add_cleaned (match i with Some i => [(i, r)] | None => [] end) (set_teardown (Running c) w)
  | Collecting _ => w
  end.

Inductive op :=
  | GuestExits (now code : Z) | ComponentFails (now : Z) | NativeFails (now : Z) (s : string)
  | DeadlineOver (now : Z) | BootDeadline (now : Z) | AgentReady (b : bool)
  | BoxFails (now : Z) | BeginShutdown (now : Z)
  | Attach (a : Architecture) (n : Z) (in_time : bool) | StartVcpus (started : bool)
  | GrantDevice (d : DeviceShutdown) | GrantInterrupts (i : Z)
  | StartTeardown (built : bool) | DropTeardown (built : bool)
  | Clean (r : result Text unit)
  | PollLife (now : Z) (built expired : bool) (vcpus : option (result VmmVcpu.Error unit)).

Definition step (w : World) (o : op) : World :=
  match o with
  | GuestExits now code => set_notifier (guest_exit now code (notifier w)) w
  | ComponentFails now => set_notifier (component_failed now (notifier w)) w
  | NativeFails now s => set_notifier (native_failed now (TNative s) (notifier w)) w
  | DeadlineOver now => set_notifier (deadline now (notifier w)) w
  | BootDeadline now => set_notifier (expire_boot_deadline now (notifier w)).2 w
  | AgentReady b => set_notifier (set_ready b (notifier w)) w
  | BoxFails now => set_notifier (publish_outcome now OComponentFailed (component_failed now (notifier w))) w
  | BeginShutdown now => set_notifier (begin_shutdown now (notifier w)) w
  | Attach a n in_time => match attach_machine a n in_time w with Ok w => w | Err _ => w end
  | StartVcpus started => (start_native_vcpus started w).2
  | GrantDevice d => (grant_device d w).2
  | GrantInterrupts i => (grant_interrupts i w).2
  | StartTeardown built => set_teardown (task built (teardown w)) w
  | DropTeardown built => set_teardown (drop_teardown built (teardown w)) w
  | Clean r => clean r w
  | PollLife now built expired vcpus => life_poll now built expired vcpus w
  end.
Definition run (w : World) (os : list op) : World := foldl step w os.

(** ** Cleanup in order *)

Definition machines (l : list Item) : list Item := omap (λ i, match i with IMachine => Some IMachine | _ => None end) l.
Definition devices (l : list Item) : list DeviceShutdown := omap (λ i, match i with IDevice d => Some d | _ => None end) l.
Definition lines (l : list Item) : list Z := omap (λ i, match i with IInterrupts i => Some i | _ => None end) l.

(** The order in which grants are cleaned up. *)
Definition plan (l : list Item) : list Item :=
  machines l ++ (IDevice <$> sort_by_key order (devices l)) ++ (IInterrupts <$> lines l).

Definition rank (i : Item) : Z :=
  match i with IMachine => -1 | IDevice d => order d | IInterrupts _ => 5 end.

Definition first_error (l : list (result Text unit)) : option Text :=
  head (omap (λ r, match r with Err e => Some e | Ok _ => None end) l).
Definition verdict (fe : option Text) : result Text unit := match fe with Some e => Err e | None => Ok tt end.

#[local] Arguments plan l : simpl never.
#[local] Arguments machines l : simpl never.
#[local] Arguments devices l : simpl never.
#[local] Arguments lines l : simpl never.
#[local] Arguments first_error l : simpl never.
#[local] Arguments sort_by_key {_} _ _ : simpl never.

Lemma plan_perm l : plan l ≡ₚ l.
Proof.
  unfold plan. rewrite sort_by_key_perm. induction l as [|[|d|i] l IH]; [done| | |]; unfold machines, devices, lines in *; cbn.
  - by rewrite IH.
  - rewrite <- Permutation_middle. by rewrite IH.
  - rewrite app_assoc, <- Permutation_middle, <- app_assoc. by rewrite IH.
Qed.

Lemma devices_plan l : devices (plan l) = sort_by_key order (devices l).
Proof.
  assert (Ha : ∀ l k, devices (l ++ k) = devices l ++ devices k) by (intros; apply omap_app).
  assert (H1 : devices (machines l) = []) by (unfold machines, devices; by induction l as [|[] l IH]).
  assert (H2 : ∀ ds : list DeviceShutdown, devices (IDevice <$> ds) = ds).
  { unfold devices. induction ds as [|d ds IH]; [done|]. cbn. f_equal. exact IH. }
  assert (H3 : ∀ js : list Z, devices (IInterrupts <$> js) = []) by (unfold devices; by induction js).
  unfold plan. by rewrite !Ha, H1, H2, H3, app_nil_r.
Qed.

Lemma machine_first l : IMachine ∈ l → [IMachine] `prefix_of` plan l.
Proof.
  intros H. unfold plan. assert (Hm : ∃ k, machines l = IMachine :: k).
  { unfold machines. induction l as [|[] l IH]; cbn; [by apply elem_of_nil in H|by eexists| |]; apply IH; by apply elem_of_cons in H as [[=]|H]. }
  destruct Hm as [k ->]. by eexists.
Qed.

Lemma order_range d : 0 ≤ order d < 5.
Proof. unfold order. destruct (kind d) as [[]|]; lia. Qed.

Lemma plan_sorted l : StronglySorted (λ i j, rank i ≤ rank j) (plan l).
Proof.
  unfold plan. apply StronglySorted_app. split_and!.
  - intros x y (z & _ & Hz)%list_elem_of_omap Hy. destruct z; try done. injection Hz as <-. cbn.
    apply elem_of_app in Hy as [(d & -> & _)%list_elem_of_fmap|(i & -> & _)%list_elem_of_fmap]; cbn; [pose proof (order_range d)|]; lia.
  - unfold machines. induction l as [|[] l IH]; cbn; try done; [constructor|]. constructor; [done|]. apply Forall_forall. intros y (z & _ & Hz)%list_elem_of_omap.
    destruct z; try done. by injection Hz as <-.
  - apply StronglySorted_app. split_and!.
    + intros x y (d & -> & _)%list_elem_of_fmap (i & -> & _)%list_elem_of_fmap. cbn. pose proof (order_range d). lia.
    + pose proof (sort_by_key_sorted order (devices l)) as H. induction H as [|d ds Hs IH Hd]; cbn; [constructor|]. constructor; [done|].
      apply Forall_fmap. eapply Forall_impl; [exact Hd|]. done.
    + induction (lines l) as [|i js IH]; cbn; [constructor|]. constructor; [done|]. apply Forall_fmap. by apply Forall_forall.
Qed.

Lemma first_error_app l k : first_error (l ++ k) = match first_error l with Some e => Some e | None => first_error k end.
Proof. unfold first_error. rewrite omap_app. by destruct (omap _ l). Qed.

Lemma keep_first_error l r : keep_first (first_error l) r = first_error (l ++ [r]).
Proof. rewrite first_error_app. unfold keep_first. by destruct (first_error l), r. Qed.

(** What a cleanup still has to do, and the error it has kept. *)
Definition left_items (c : Cleanup) : list Item :=
  match c with
  | Reaping g => IMachine :: (IDevice <$> sort_by_key order (g_devices g)) ++ (IInterrupts <$> option_list (g_interrupts g))
  | Closing d rest interrupts _ => IDevice d :: (IDevice <$> rest) ++ (IInterrupts <$> option_list interrupts)
  | ClosingInterrupts i _ => [IInterrupts i]
  | Cleaned _ => []
  end.
Definition error_ok (c : Cleanup) (l : list (result Text unit)) : Prop :=
  match c with
  | Reaping _ => l = []
  | Closing _ _ _ fe | ClosingInterrupts _ fe => fe = first_error l
  | Cleaned o => o = verdict (first_error l)
  end.

Lemma closing_spec rest interrupts fe l : fe = first_error l →
  left_items (closing rest interrupts fe) = (IDevice <$> rest) ++ (IInterrupts <$> option_list interrupts)
  ∧ error_ok (closing rest interrupts fe) l.
Proof. intros ->. destruct rest as [|d rest], interrupts as [i|]; cbn; try done. Qed.

(** The grants that have been collected. *)
Definition grants_ok (l : list Item) (g : TeardownGrants) : Prop :=
  machines l = (if g_machine g then [IMachine] else []) ∧ devices l = g_devices g ∧ lines l = option_list (g_interrupts g).

Definition stopped_early (w : World) (o : result Text unit) : Prop :=
  o = Err TRuntime ∧ cleaned w = [] ∨ ∃ e, cleaned w = [(IMachine, Err e)] ∧ o = Err e ∧ IMachine ∈ granted w.

(** The wait for the machine has not failed. *)
Definition reaped (l : list (Item * result Text unit)) : Prop := ∀ e, (IMachine, Err e) ∉ l.

Lemma reaped_app l i r : reaped l → (∀ e, (i, r) ≠ (IMachine, Err e)) → reaped (l ++ [(i, r)]).
Proof. intros Hl Hi e [H|H%list_elem_of_singleton]%elem_of_app; [by apply (Hl e)|by apply (Hi e)]. Qed.

Definition clean_inv (w : World) : Prop :=
  match teardown w with
  | Collecting g => cleaned w = [] ∧ grants_ok (granted w) g
  | Running c =>
      ((cleaned w).*1 ++ left_items c = plan (granted w) ∧ error_ok c (cleaned w).*2 ∧ reaped (cleaned w))
      ∨ ∃ o, c = Cleaned o ∧ stopped_early w o
  end.

Lemma close_devices_spec l g : grants_ok l g →
  left_items (close_devices g) = (IDevice <$> sort_by_key order (devices l)) ++ (IInterrupts <$> lines l)
  ∧ ∀ k, first_error k = None → error_ok (close_devices g) k.
Proof.
  intros (_ & -> & ->). split.
  - by apply (closing_spec _ _ None []).
  - intros k Hk. by apply closing_spec.
Qed.

Lemma task_clean_inv built w : clean_inv w → clean_inv (set_teardown (task built (teardown w)) w).
Proof.
  unfold clean_inv. destruct (teardown w) as [g|c]; [|done]. intros [Hc Hg]. cbn. unfold run_teardown. rewrite Hc.
  destruct built; cbn; [|right; eexists; split; [done|by left]]. left. destruct (close_devices_spec _ _ Hg) as [Hl He].
  pose proof Hg as (Hm & Hd & Hi). assert (Hr : reaped []) by by intros e ?%not_elem_of_nil.
  unfold plan. rewrite Hm. destruct (g_machine g); cbn.
  - by rewrite Hd, Hi.
  - rewrite Hl. split_and!; [done|by apply He|done].
Qed.

Lemma grants_snoc l i :
  machines (l ++ [i]) = machines l ++ machines [i] ∧ devices (l ++ [i]) = devices l ++ devices [i] ∧ lines (l ++ [i]) = lines l ++ lines [i].
Proof. unfold machines, devices, lines. by rewrite !omap_app. Qed.

Lemma clean_clean_inv r w : clean_inv w → clean_inv (clean r w).
Proof.
  unfold clean_inv, clean. destruct (teardown w) as [g|c] eqn:Ht; [by rewrite Ht|]. intros [(Hl & He & Hr)|(o & -> & Hs)].
  2:{ right. exists o. unfold stopped_early in *. cbn. by rewrite app_nil_r. }
  destruct c as [g|d rest interrupts fe|i fe|o]; cbn in *; rewrite ?fmap_app; cbn.
  - destruct (cleaned w) as [|x l] eqn:Hc; [|done]. cbn in Hl. destruct r as [[]|e].
    + left. destruct (closing_spec (sort_by_key order (g_devices g)) (g_interrupts g) None [Ok tt] eq_refl) as [Hcl Hce]. unfold close_devices. rewrite Hcl.
      split_and!; [done|done|]. by intros e ?%list_elem_of_singleton.
    + right. eexists. split; [done|]. right. exists e. cbn. rewrite Hc. split_and!; [done|done|].
      rewrite <- (plan_perm (granted w)), <- Hl. left.
  - left. subst fe. rewrite keep_first_error. destruct (closing_spec rest interrupts (first_error ((cleaned w).*2 ++ [r])) _ eq_refl) as [Hcl Hce].
    rewrite Hcl, <- app_assoc. split_and!; [done|done|by apply reaped_app].
  - left. subst fe. rewrite keep_first_error, app_nil_r. split_and!; [done|by destruct (first_error _)|by apply reaped_app].
  - left. by rewrite !app_nil_r in *.
Qed.

Lemma install_clean_inv i w g g' : clean_inv w → teardown w = Collecting g → grants_ok (granted w ++ [i]) g' →
  clean_inv (add_granted i (set_teardown (Collecting g') w)).
Proof. unfold clean_inv. intros H Ht Hg. rewrite Ht in H. cbn. split; [|done]. apply H. Qed.

Lemma frame_clean_inv w w' : clean_inv w → teardown w' = teardown w → cleaned w' = cleaned w → granted w' = granted w → clean_inv w'.
Proof. unfold clean_inv, stopped_early. by intros H -> -> ->. Qed.

Lemma begin_finish_frame now built w w' : begin_finish now built w = Ok w' →
  teardown w' = task built (teardown w) ∧ cleaned w' = cleaned w ∧ granted w' = granted w
  ∧ machine w' = machine w ∧ notifier w' = begin_shutdown now (notifier w) ∧ vcpus_result w' = vcpus_result w ∧ host w' = host w.
Proof.
  unfold begin_finish, request_stop. assert (Ht : ∀ t, task built (task built t) = task built t) by by intros [].
  destruct (machine w) as [m|] eqn:Hm; [destruct (is_running m); [destruct (host w) eqn:Hh|]|]; cbn; try done; intros [= <-]; cbn; by rewrite ?Ht.
Qed.

Lemma returned_frame now r w : let w' := returned now r w in
  teardown w' = teardown w ∧ cleaned w' = cleaned w ∧ granted w' = granted w ∧ vcpus_result w' = vcpus_result w ∧ host w' = host w.
Proof. unfold returned. by destruct (release (machine w)). Qed.

Lemma returned_clean now r w : clean_inv w → clean_inv (returned now r w).
Proof. intros H. destruct (returned_frame now r w) as (Ht & Hc & Hg & _). by eapply frame_clean_inv. Qed.

Lemma begin_or_fail_clean now built l w : clean_inv w → clean_inv (begin_or_fail now built l w).
Proof.
  intros H. unfold begin_or_fail. destruct (begin_finish now built w) as [w'|] eqn:Hb.
  - apply begin_finish_frame in Hb as (Ht & Hc & Hg & _). eapply frame_clean_inv; [exact (task_clean_inv built w H)|done..].
  - by apply returned_clean.
Qed.

Lemma life_clean_inv now built expired v w : clean_inv w → clean_inv (life_poll now built expired v w).
Proof.
  intros H.
  assert (F : ∀ ev, clean_inv (finish now expired ev w)).
  { intros ev. unfold finish. destruct (shutdown_poll expired w) as [[]|]; [| |done]; by apply returned_clean. }
  assert (V : ∀ r m, clean_inv (vcpus_first now built r (set_machine m w))) by (intros r m; by apply begin_or_fail_clean).
  assert (V' : ∀ r, clean_inv (vcpus_first now built r w)) by (intros r; by apply begin_or_fail_clean).
  unfold life_poll, select. destruct (life w) as [| |ev|ev []|r ev []|r]; try done; try apply F.
  - destruct (run_vcpus (machine w)) as [m|e]; [|done]. destruct v; [done|]. by destruct (next_event _).
  - destruct v; [done|]. by destruct (next_event _).
  - destruct v; [done|apply F].
  - destruct v; [done|by apply begin_or_fail_clean].
  - by apply begin_or_fail_clean.
Qed.

Lemma step_clean_inv w o : clean_inv w → clean_inv (step w o).
Proof.
  intros H. destruct o; cbn [step]; try done; try by (eapply frame_clean_inv; [exact H|done..]).
  - unfold attach_machine. destruct (host w); [|done|done]. destruct in_time; [|done]. by destruct (initialize _ _ _).
  - unfold start_native_vcpus. destruct (host w); [done| |done]. destruct started; [|done]. cbn [negb].
    unfold install_machine. cbn. destruct (teardown w) as [g|c] eqn:Ht; [|done]. destruct (g_machine g) eqn:Hm; [done|].
    apply (install_clean_inv IMachine w g); [done|done|]. unfold clean_inv in H. rewrite Ht in H. destruct H as (_ & H1 & H2 & H3).
    destruct (grants_snoc (granted w) IMachine) as (S1 & S2 & S3). unfold grants_ok. rewrite S1, S2, S3. rewrite H1, H2, H3, Hm. cbn. by rewrite !app_nil_r.
  - unfold grant_device, install_device. destruct (teardown w) as [g|c] eqn:Ht; [|done]. destruct (_ <? _); [|done].
    apply (install_clean_inv (IDevice d) w g); [done|done|]. unfold clean_inv in H. rewrite Ht in H. destruct H as (_ & H1 & H2 & H3).
    destruct (grants_snoc (granted w) (IDevice d)) as (S1 & S2 & S3). unfold grants_ok. rewrite S1, S2, S3. rewrite H1, H2, H3. cbn. by rewrite !app_nil_r.
  - unfold grant_interrupts, install_interrupts. destruct (teardown w) as [g|c] eqn:Ht; [|done]. destruct (g_interrupts g) eqn:Hi; [done|].
    apply (install_clean_inv (IInterrupts i) w g); [done|done|]. unfold clean_inv in H. rewrite Ht in H. destruct H as (_ & H1 & H2 & H3).
    destruct (grants_snoc (granted w) (IInterrupts i)) as (S1 & S2 & S3). unfold grants_ok. rewrite S1, S2, S3. rewrite H1, H2, H3, Hi. cbn. by rewrite !app_nil_r.
  - by apply task_clean_inv.
  - unfold drop_teardown. destruct (teardown w) as [g|c] eqn:Ht; [|by eapply frame_clean_inv]. destruct (has_work g); [|by eapply frame_clean_inv].
    rewrite <- Ht. by apply task_clean_inv.
  - by apply clean_clean_inv.
  - by apply life_clean_inv.
Qed.

Lemma run_clean_inv os : clean_inv (run initial os).
Proof.
  unfold run. assert (H : clean_inv initial) by by split. revert H. generalize initial.
  induction os as [|o os IH]; intros w H; [done|]. by apply IH, step_clean_inv.
Qed.

(** C22. Whatever ends the machine and however often cleanup is asked for, native
    resources are cleaned up once and in order: the cleanup waits for the machine, then
    closes the devices (memory, file systems, agent, vsock, block; those of a kind in the
    order of their grants), then the interrupts. Each accepted grant is in that order
    exactly once and nothing is cleaned up before the cleanup starts. A machine that could
    not be reaped ends the cleanup: nothing is closed under it, then or later. When the
    cleanup is over, either all of it was done after the machine was reaped, errors of
    the closes included, and its outcome is the first error; or the machine could not be
    reaped; or the cleanup could not start. *)
Theorem teardown_in_order (os : list op) :
  let w := run initial os in
  plan (granted w) ≡ₚ granted w
  ∧ StronglySorted (λ i j, rank i ≤ rank j) (plan (granted w))
  ∧ (∀ k, filter (λ d, order d = k) (devices (plan (granted w))) = filter (λ d, order d = k) (devices (granted w)))
  ∧ (cleaned w).*1 `prefix_of` plan (granted w)
  ∧ (∀ g, teardown w = Collecting g → cleaned w = [])
  ∧ (∀ e, (IMachine, Err e) ∈ cleaned w → cleaned w = [(IMachine, Err e)] ∧ teardown w = Running (Cleaned (Err e)))
  ∧ (∀ o, teardown w = Running (Cleaned o) →
       (cleaned w).*1 = plan (granted w) ∧ o = verdict (first_error (cleaned w).*2) ∧ reaped (cleaned w)
       ∨ o = Err TRuntime ∧ cleaned w = []
       ∨ ∃ e, cleaned w = [(IMachine, Err e)] ∧ o = Err e).
Proof.
  intros w. pose proof (run_clean_inv os) as H. fold w in H. unfold clean_inv in H. split_and!.
  - apply plan_perm.
  - apply plan_sorted.
  - intros k. by rewrite devices_plan, sort_by_key_stable.
  - destruct (teardown w) as [g|c]; [destruct H as [-> _]; apply prefix_nil|].
    destruct H as [(Hl & _)|(o & -> & [[_ ->]|(e & -> & _ & Hm)])]; [by exists (left_items c)|apply prefix_nil|]. by apply machine_first.
  - intros g Hg. rewrite Hg in H. apply H.
  - intros e He. destruct (teardown w) as [g|c]; [destruct H as [H _]; rewrite H in He; by apply not_elem_of_nil in He|].
    destruct H as [(_ & _ & Hr)|(o & -> & [[_ H]|(e' & H & -> & _)])]; [by destruct (Hr e)|..]; rewrite H in He |- *; [by apply not_elem_of_nil in He|].
    apply list_elem_of_singleton in He as [= ->]. done.
  - intros o Ho. rewrite Ho in H. destruct H as [(Hl & He & Hr)|(o' & [= <-] & [[-> Hc]|(e & Hc & -> & _)])].
    + left. by rewrite app_nil_r in Hl.
    + right. by left.
    + right. right. by exists e.
Qed.

(** ** What the lifecycle reports *)

(** [ev] is the event that was published first. *)
Definition from_event (w : World) (ev : PlatformEvent) : Prop :=
  match event (notifier w) with
  | Some (GuestExit code) => ev = PGuestExit code
  | Some ComponentFailed => ∃ t, ev = PComponentFailed t
  | Some Deadline => ev = PDeadline
  | None => False
  end.

(** An error of the processors, else the first event, else that they have returned. *)
Definition reported (w : World) (ev : PlatformEvent) : Prop :=
  match vcpus_result w with
  | Some (Err e) => ev = PComponentFailed (TVcpuExit e)
  | Some (Ok _) => from_event w ev ∨ ev = PVcpuFinished
  | None => from_event w ev
  end.

Definition is_started (l : Life) : bool :=
  match l with LFinish _ | LBoth _ true | LStopping _ _ true => true | _ => false end.

(** Whence the event of each wait comes. *)
Definition event_ok (w : World) (l : Life) : Prop :=
  match l with
  | LStart | LSelect => vcpus_result w = None
  | LFinish ev => reported w ev
  | LBoth ev _ => vcpus_result w = None ∧ from_event w ev
  | LStopping r ev _ => vcpus_result w = Some r ∧ from_event w ev
  | LReturned (Ok ev) => reported w ev ∧ teardown w = Running (Cleaned (Ok tt)) ∧ is_Some (outcome (notifier w))
  | LReturned (Err _) => True
  end.

Record life_inv (w : World) : Prop := {
  l_started : is_started (life w) = true → ∃ c, teardown w = Running c;
  l_event : event_ok w (life w);
  l_deadline : is_Some (event (notifier w)) ∨ is_Some (outcome (notifier w)) → is_Some (shutdown_deadline (notifier w));
}.

(** What is published stays. *)
Definition final {A} (x y : option A) : Prop := ∀ a, x = Some a → y = Some a.
Definition settles (n n' : LifecycleNotifier) : Prop :=
  final (event n) (event n') ∧ final (outcome n) (outcome n') ∧ final (shutdown_deadline n) (shutdown_deadline n')
  ∧ final (native_failure n) (native_failure n').

Definition deadline_ok (n : LifecycleNotifier) : Prop :=
  is_Some (event n) ∨ is_Some (outcome n) → is_Some (shutdown_deadline n).
(** A notifier goes on well. *)
Definition onward (n n' : LifecycleNotifier) : Prop := settles n n' ∧ (deadline_ok n → deadline_ok n').

Lemma onward_refl n : onward n n.
Proof. split; [|done]. unfold settles, final. by split_and!. Qed.
Lemma onward_trans n n' n'' : onward n n' → onward n' n'' → onward n n''.
Proof. unfold onward, settles, final. intros [(? & ? & ? & ?) ?] [(? & ? & ? & ?) ?]. split_and!; auto. Qed.

Lemma start_deadline_final now d : final d (start_deadline now d) ∧ is_Some (start_deadline now d).
Proof. unfold final. destruct d; cbn; split; [by intros|by eexists|done|by eexists]. Qed.

Lemma publish_onward now e n : onward n (publish now e n).2.
Proof.
  unfold publish. destruct (event n) eqn:He; [apply onward_refl|]. destruct (start_deadline_final now (shutdown_deadline n)) as [H1 H2].
  split; [|by intros _ _]. unfold settles, final in *. cbn. rewrite He. by split_and!.
Qed.
Lemma publish_outcome_onward now o n : onward n (publish_outcome now o n).
Proof.
  unfold publish_outcome. destruct (outcome n) eqn:He; [apply onward_refl|]. destruct (start_deadline_final now (shutdown_deadline n)) as [H1 H2].
  split; [|by intros _ _]. unfold settles, final in *. cbn. rewrite He. by split_and!.
Qed.
Lemma begin_shutdown_onward now n : onward n (begin_shutdown now n).
Proof. destruct (start_deadline_final now (shutdown_deadline n)) as [H1 H2]. split; [|by intros _ _]. unfold settles, final in *. by split_and!. Qed.
Lemma native_failed_onward now t n : onward n (native_failed now t n).
Proof.
  eapply onward_trans; [|apply publish_onward]. split; [|done]. unfold settles, final. cbn. split_and!; try done. by destruct (native_failure n).
Qed.
Lemma set_ready_onward b n : onward n (set_ready b n).
Proof. exact (onward_refl n). Qed.

Lemma component_loop_onward now r w : onward (notifier w) (notifier (component_loop now r w)).
Proof.
  destruct r as [[code|t| |]|]; cbn; try apply publish_outcome_onward; [|apply onward_refl].
  eapply onward_trans; [apply native_failed_onward|apply publish_outcome_onward].
Qed.

Lemma from_event_onward w w' ev : onward (notifier w) (notifier w') → from_event w ev → from_event w' ev.
Proof. unfold from_event. intros [[H _] _] He. destruct (event (notifier w)) eqn:E; [|done]. by rewrite (H _ eq_refl). Qed.

Lemma reported_onward w w' ev : onward (notifier w) (notifier w') → vcpus_result w' = vcpus_result w → reported w ev → reported w' ev.
Proof.
  unfold reported. intros Hn ->. destruct (vcpus_result w) as [[[]|e]|]; [|done|by apply from_event_onward].
  intros [H|H]; [left; by eapply from_event_onward|by right].
Qed.

(** What other parties do to a cleanup: one that runs goes on, one that is done stays. *)
Definition cleans (t t' : TeardownState) : Prop :=
  (∀ c, t = Running c → ∃ c', t' = Running c') ∧ (∀ o, t = Running (Cleaned o) → t' = Running (Cleaned o)).

Lemma cleans_refl t : cleans t t.
Proof. split; [by eauto|done]. Qed.
Lemma task_cleans built t : cleans t (task built t).
Proof. split; [by intros c ->; eexists|by intros o ->]. Qed.

Lemma event_frame w w' l : vcpus_result w' = vcpus_result w → onward (notifier w) (notifier w') →
  cleans (teardown w) (teardown w') → event_ok w l → event_ok w' l.
Proof.
  intros Hr Hn [_ Hc] L. destruct l as [| |ev|ev s|r ev s|[ev|]]; cbn in *; rewrite ?Hr; try done.
  - by eapply reported_onward.
  - split; [apply L|]. eapply from_event_onward; [done|apply L].
  - split; [apply L|]. eapply from_event_onward; [done|apply L].
  - destruct L as (H1 & H2 & [o Ho]). split_and!; [by eapply reported_onward|by apply Hc|].
    destruct Hn as [(_ & Hn & _) _]. exists o. by apply Hn.
Qed.

Lemma life_frame w w' : life_inv w → life w' = life w → vcpus_result w' = vcpus_result w →
  onward (notifier w) (notifier w') → cleans (teardown w) (teardown w') → life_inv w'.
Proof.
  intros [L1 L2 L3] Hl Hr Hn Hc. split; [|rewrite Hl; by eapply event_frame|by apply Hn].
  rewrite Hl. intros Hs. destruct (L1 Hs) as [c Ht]. by eapply Hc.
Qed.

Lemma next_event_from w ev : next_event (notifier w) = Some ev → from_event w ev.
Proof. unfold next_event, from_event. destruct (event (notifier w)) as [[]|]; try done; intros [= <-]; try done. by eexists. Qed.

Lemma completed_reported w r ev : vcpus_result w = Some r → (ev = None ∨ ∃ x, ev = Some x ∧ from_event w x) →
  reported w (completed_vcpus_event r ev).
Proof.
  unfold reported. intros -> Hev. destruct r as [[]|e]; cbn; [|done]. destruct Hev as [->|(x & -> & Hx)]; [by right|by left].
Qed.

Lemma publish_outcome_Some now o n : is_Some (outcome (publish_outcome now o n)).
Proof. unfold publish_outcome. destruct (outcome n) eqn:Ho; [rewrite Ho|]; by eexists. Qed.

Definition outcome_of (ev : PlatformEvent) : Outcome :=
  match ev with
  | PGuestExit code => OGuestExit code
  | PComponentFailed _ => OComponentFailed
  | PVcpuFinished => OVcpuFinished
  | PDeadline => ODeadline
  end.

Lemma publish_outcome_first now o n : outcome n = None → outcome (publish_outcome now o n) = Some o.
Proof. unfold publish_outcome. by intros ->. Qed.
Lemma native_failed_outcome now t n : outcome (native_failed now t n) = outcome n.
Proof. unfold native_failed, component_failed, publish. cbn. by destruct (event n). Qed.

(** What [returned] does, [released] saying whether the machine could be released. *)
Lemma returned_spec now r w : let w' := returned now r w in
  onward (notifier w) (notifier w')
  ∧ match life w' with
     LReturned (Ok ev) => r = Ok ev ∧ machine w' = None ∧ is_Some (outcome (notifier w'))
       ∧ (outcome (notifier w) = None → outcome (notifier w') = Some (outcome_of ev))
     | LReturned (Err _) => True
     | _ => False
     end.
Proof.
  unfold returned. set (p := match release (machine w) with Ok m => (true, m) | Err _ => (false, machine w) end).
  assert (Hp : p.1 = true → p.2 = None).
  { unfold p, release. destruct (machine w) as [m|]; [destruct (is_running m)|]; done. }
  destruct p as [released m]. cbn in Hp. cbn zeta.
  set (r' := match r with Ok ev => if released then Ok ev else Err tt | Err _ => Err tt end).
  pose proof (component_loop_onward now r' (set_life (LReturned r') (set_machine m w))) as Hn. split; [exact Hn|].
  cbn [life component_loop set_notifier set_life]. destruct r' as [ev|] eqn:Hr'; [|done]. subst r'.
  destruct r as [ev'|]; [|done]. destruct released; [|done]. injection Hr' as ->. split_and!; [done|by apply Hp| |].
  - destruct ev; apply publish_outcome_Some.
  - intros Ho. destruct ev; apply publish_outcome_first; [done| |done|done]. by rewrite native_failed_outcome.
Qed.

Lemma returned_inv now r w : deadline_ok (notifier w) →
  (∀ ev, r = Ok ev → reported w ev ∧ teardown w = Running (Cleaned (Ok tt))) → life_inv (returned now r w).
Proof.
  intros Hd Hr. destruct (returned_spec now r w) as [Hn Hl]. destruct (returned_frame now r w) as (Ht & _ & _ & Hv & _).
  destruct (life (returned now r w)) as [| | | | |[ev|]] eqn:El; try done; (split; [by rewrite El|rewrite El|by apply Hn]); [|done].
  destruct Hl as (Hl & _ & Ho & _). destruct (Hr ev Hl) as [H1 H2]. split_and!; [by eapply reported_onward|by rewrite Ht|done].
Qed.

Lemma begin_inv now built next w : deadline_ok (notifier w) → event_ok w next → life_inv (begin_or_fail now built next w).
Proof.
  intros Hd He. unfold begin_or_fail. destruct (begin_finish now built w) as [w'|] eqn:Hb; [|by apply returned_inv].
  apply begin_finish_frame in Hb as (Ht & _ & _ & _ & Hn & Hv & _).
  pose proof (begin_shutdown_onward now (notifier w)) as Ho. split; cbn [life set_life teardown notifier].
  - intros _. rewrite Ht. destruct (teardown w); by eexists.
  - eapply (event_frame w); [done|cbn; by rewrite Hn|cbn; rewrite Ht; apply task_cleans|done].
  - rewrite Hn. by apply Ho.
Qed.

Lemma vm_finish_inv now expired ev w : life_inv w → reported w ev → life_inv (finish now expired ev w).
Proof.
  intros L Hr. unfold finish, shutdown_poll.
  assert (F : life_inv (returned now (Err tt) w)) by (apply returned_inv; [exact (l_deadline w L)|done]).
  assert (E : ∀ b : bool, life_inv match (if b then Some (Err tt) else None : option (result unit unit)) with
    | None => w | Some (Ok _) => returned now (Ok ev) (set_machine (mark_stopped (machine w)) w) | Some (Err _) => returned now (Err tt) w end)
    by by intros [].
  destruct (teardown w) as [g|[g|d rest i fe|i fe|[[]|e]]] eqn:Ht; try apply E; [|done].
  apply returned_inv; [exact (l_deadline w L)|]. intros ev' [= <-]. done.
Qed.

Lemma vcpus_first_inv now built r w : deadline_ok (notifier w) → life_inv (vcpus_first now built r w).
Proof.
  intros Hd. apply begin_inv; [done|]. cbn [event_ok]. apply completed_reported; [done|].
  destruct (next_event (notifier w)) as [ev|] eqn:He; [right|by left]. exists ev. split; [done|]. by apply next_event_from in He.
Qed.

Lemma select_inv now built v w : deadline_ok (notifier w) → vcpus_result w = None → life_inv (select now built v w).
Proof.
  intros Hd Hv. unfold select. destruct v as [r|]; [by apply vcpus_first_inv|].
  destruct (next_event (notifier w)) as [ev|] eqn:He; [|by split]. split; [done| |done]. split; [done|]. by apply next_event_from in He.
Qed.

Lemma life_poll_inv now built expired v w : life_inv w → life_inv (life_poll now built expired v w).
Proof.
  intros L. pose proof L as [_ L2 L3]. unfold life_poll. destruct (life w) as [| |ev|ev st|r ev st|r] eqn:El; cbn in L2.
  - destruct (run_vcpus (machine w)) as [m|e]; [by apply select_inv|by apply vcpus_first_inv].
  - by apply select_inv.
  - by apply vm_finish_inv.
  - destruct L2 as [Hv He]. destruct v as [r|].
    + split; [|done|done]. destruct st; [|done]. intros _. apply L. by rewrite El.
    + destruct st; [|by apply begin_inv]. apply vm_finish_inv; [done|]. unfold reported. by rewrite Hv.
  - destruct L2 as [Hv He]. destruct st; [|by apply begin_inv]. apply vm_finish_inv; [done|]. apply completed_reported; [done|]. right. by exists ev.
  - done.
Qed.

(** Steps of the others. *)
Lemma begin_or_fail_onward now built next w : onward (notifier w) (notifier (begin_or_fail now built next w)).
Proof.
  unfold begin_or_fail. destruct (begin_finish now built w) as [w'|] eqn:Hb; [|apply returned_spec].
  apply begin_finish_frame in Hb as (_ & _ & _ & _ & Hn & _). cbn. rewrite Hn. apply begin_shutdown_onward.
Qed.

Lemma finish_onward now expired ev w : onward (notifier w) (notifier (finish now expired ev w)).
Proof.
  unfold finish. destruct (shutdown_poll expired w) as [[]|]; [|apply returned_spec|apply onward_refl].
  apply (returned_spec now (Ok ev) (set_machine (mark_stopped (machine w)) w)).
Qed.

Lemma life_poll_onward now built expired v w : onward (notifier w) (notifier (life_poll now built expired v w)).
Proof.
  assert (S : ∀ m, onward (notifier w) (notifier (select now built v (set_machine m w)))).
  { intros m. unfold select. destruct v; [apply (begin_or_fail_onward now built _ (set_result r (set_machine m w)))|].
    destruct (next_event _); apply onward_refl. }
  unfold life_poll. destruct (life w) as [| |ev|ev []|r ev []|r].
  - destruct (run_vcpus (machine w)) as [m|e]; [apply S|]. apply (begin_or_fail_onward now built _ (set_result (Err e) w)).
  - specialize (S (machine w)). by destruct w.
  - apply finish_onward.
  - destruct v; [apply onward_refl|apply finish_onward].
  - destruct v; [apply onward_refl|apply begin_or_fail_onward].
  - apply finish_onward.
  - apply begin_or_fail_onward.
  - apply onward_refl.
Qed.

Lemma step_onward w o : onward (notifier w) (notifier (step w o)).
Proof.
  destruct o; cbn [step set_notifier notifier set_teardown]; try apply publish_onward; try apply onward_refl.
  - apply native_failed_onward.
  - unfold expire_boot_deadline. destruct (ready (notifier w)); [apply onward_refl|apply publish_onward].
  - apply set_ready_onward.
  - eapply onward_trans; [apply publish_onward|apply publish_outcome_onward].
  - apply begin_shutdown_onward.
  - unfold attach_machine. destruct (host w); [|apply onward_refl..]. destruct in_time; [|apply onward_refl].
    destruct (initialize _ _ _); apply onward_refl.
  - unfold start_native_vcpus. destruct (host w); try apply onward_refl. destruct started; [|apply onward_refl]. cbn [negb].
    destruct (install_machine _); apply onward_refl.
  - unfold grant_device. destruct (install_device _ _); apply onward_refl.
  - unfold grant_interrupts. destruct (install_interrupts _ _); apply onward_refl.
  - unfold clean. destruct (teardown w); [apply onward_refl|]. destruct (cleanup_step r c). apply onward_refl.
  - apply life_poll_onward.
Qed.

Lemma clean_cleans r w : cleans (teardown w) (teardown (clean r w)).
Proof.
  unfold clean. destruct (teardown w) as [g|c] eqn:Ht; [rewrite Ht; apply cleans_refl|].
  destruct c; cbn; (split; [by intros; eexists|]); intros o' [=]; by subst.
Qed.

Lemma step_life_inv w o : life_inv w → life_inv (step w o).
Proof.
  intros L. pose proof (step_onward w o) as Hn. destruct o; cbn [step] in *; try (by apply life_poll_inv);
    try (eapply life_frame; [exact L|done|done|exact Hn|apply cleans_refl || apply task_cleans]; fail).
  - unfold attach_machine in *. destruct (host w); [|done..]. destruct in_time; [|by eapply life_frame; [exact L|..|apply cleans_refl]].
    destruct (initialize _ _ _); by eapply life_frame; [exact L|..|apply cleans_refl].
  - unfold start_native_vcpus in *. destruct (host w); try done. destruct started; [|by eapply life_frame; [exact L|..|apply cleans_refl]]. cbn [negb] in *.
    unfold install_machine in *. cbn in *. destruct (teardown w) as [g|c] eqn:Ht; [|by eapply life_frame; [exact L|..|cbn; rewrite Ht; apply cleans_refl]].
    destruct (g_machine g); eapply life_frame; try done; cbn; rewrite Ht; try apply cleans_refl. done.
  - unfold grant_device, install_device in *. destruct (teardown w) as [g|c] eqn:Ht; [|done]. destruct (_ <? _); [|done].
    eapply life_frame; try done. cbn. by rewrite Ht.
  - unfold grant_interrupts, install_interrupts in *. destruct (teardown w) as [g|c] eqn:Ht; [|done]. destruct (g_interrupts g); [done|].
    eapply life_frame; try done. cbn. by rewrite Ht.
  - unfold drop_teardown in *. eapply life_frame; try done. cbn. destruct (teardown w) as [g|c]; [|apply cleans_refl].
    destruct (has_work g); [apply task_cleans|apply cleans_refl].
  - eapply life_frame; [exact L| | |exact Hn|apply clean_cleans]; unfold clean; destruct (teardown w); try done; by destruct (cleanup_step r c).
Qed.

Lemma run_life_inv os : life_inv (run initial os).
Proof.
  unfold run. assert (H : life_inv initial) by (split; [done|done|]; intros [[? [=]]|[? [=]]]). revert H. generalize initial.
  induction os as [|o os IH]; intros w H; [done|]. by apply IH, step_life_inv.
Qed.

(** Only a poll of the lifecycle returns. *)
Lemma step_life w o : life (step w o) = life w ∨ ∃ now built expired v, o = PollLife now built expired v.
Proof.
  destruct o; try (by left); cbn [step].
  - left. unfold attach_machine. destruct (host w); try done. destruct in_time; [|done]. by destruct (initialize _ _ _).
  - left. unfold start_native_vcpus. destruct (host w); try done. destruct started; [|done]. cbn [negb]. by destruct (install_machine _).
  - left. unfold grant_device. by destruct (install_device _ _).
  - left. unfold grant_interrupts. by destruct (install_interrupts _ _).
  - left. unfold clean. destruct (teardown w); [done|]. by destruct (cleanup_step r c).
  - right. eauto.
Qed.

(** A poll that ends the lifecycle with an event. *)
Definition ends_well (w w' : World) (ev : PlatformEvent) : Prop :=
  machine w' = None ∧ (outcome (notifier w) = None → outcome (notifier w') = Some (outcome_of ev)).

Lemma returned_ends now r w w0 ev : life (returned now r w0) = LReturned (Ok ev) → outcome (notifier w0) = outcome (notifier w) →
  ends_well w (returned now r w0) ev.
Proof.
  intros Hl Ho. destruct (returned_spec now r w0) as [_ H]. rewrite Hl in H. destruct H as (_ & Hm & _ & Hf). split; [done|]. by rewrite <- Ho.
Qed.

Lemma begin_or_fail_ends now built next w w0 ev : life (begin_or_fail now built next w0) = LReturned (Ok ev) →
  (∀ r, next ≠ LReturned r) → outcome (notifier w0) = outcome (notifier w) → ends_well w (begin_or_fail now built next w0) ev.
Proof.
  unfold begin_or_fail. destruct (begin_finish now built w0) as [w'|]; intros Hl Hn Ho; [|by apply returned_ends]. by destruct (Hn _ Hl).
Qed.

Lemma finish_ends now expired ev' w ev : life (finish now expired ev' w) = LReturned (Ok ev) → (∀ r, life w ≠ LReturned r) →
  ends_well w (finish now expired ev' w) ev.
Proof.
  unfold finish. destruct (shutdown_poll expired w) as [[]|]; intros Hl Hn; [by apply returned_ends|by apply returned_ends|]. by destruct (Hn _ Hl).
Qed.

Lemma life_poll_ends now built expired v w ev : life (life_poll now built expired v w) = LReturned (Ok ev) →
  (∀ r, life w ≠ LReturned r) → ends_well w (life_poll now built expired v w) ev.
Proof.
  unfold life_poll, select, vcpus_first. destruct (life w) as [| |ev'|ev' []|r ev' []|r] eqn:El; intros Hl Hn; try (by apply finish_ends; rewrite ?El); try (by destruct (Hn r)).
  - destruct (run_vcpus (machine w)) as [m|e]; [|by apply begin_or_fail_ends]. destruct v; [by apply begin_or_fail_ends|]. by destruct (next_event _).
  - destruct v; [by apply begin_or_fail_ends|]. by destruct (next_event _).
  - destruct v; [done|by apply finish_ends; rewrite ?El].
  - destruct v; [done|by apply begin_or_fail_ends].
  - by apply begin_or_fail_ends.
Qed.

Lemma all_cleaned w : clean_inv w → teardown w = Running (Cleaned (Ok tt)) →
  (cleaned w).*1 = plan (granted w) ∧ Forall (λ r, r = Ok tt) (cleaned w).*2.
Proof.
  unfold clean_inv. intros H Ht. rewrite Ht in H. destruct H as [(Hl & He & _)|(o & [= <-] & [[[=] _]|(e & _ & [=] & _)])].
  cbn in Hl. rewrite app_nil_r in Hl. split; [done|]. cbn in He. induction (cleaned w).*2 as [|r l IH]; [constructor|].
  unfold first_error in He. destruct r as [[]|e]; [|done]. constructor; [done|by apply IH].
Qed.

(** C21. The lifecycle of a machine ends with an event only when the machine is gone: every
    native resource that was granted has been cleaned up without an error, among them the
    machine, whose processors are stopped, and the component has released it. The event
    is an error of the processors, or else the event that was published first, or
    else that the processors have returned; it becomes the outcome of the box unless one
    was published before. The first event, the first outcome and the shutdown deadline
    that the first of them starts never change. *)
Theorem lifecycle_reports_after_teardown (os : list op) (o : op) :
  let w := run initial os in
  let w' := step w o in
  settles (notifier w) (notifier w')
  ∧ deadline_ok (notifier w)
  ∧ ∀ ev, life w' = LReturned (Ok ev) →
      reported w' ev
      ∧ (cleaned w').*1 = plan (granted w') ∧ Forall (λ r, r = Ok tt) (cleaned w').*2
      ∧ is_Some (outcome (notifier w'))
      ∧ (life w ≠ life w' → machine w' = None ∧ (outcome (notifier w) = None → outcome (notifier w') = Some (outcome_of ev))).
Proof.
  intros w w'. split; [apply step_onward|]. split; [exact (l_deadline w (run_life_inv os))|].
  intros ev Hl. pose proof (step_life_inv w o (run_life_inv os)) as L. pose proof (step_clean_inv w o (run_clean_inv os)) as C. fold w' in L, C.
  pose proof (l_event w' L) as E. rewrite Hl in E. destruct E as (Hr & Ht & Ho). destruct (all_cleaned w' C Ht) as [H1 H2].
  split_and!; [done|done|done|done|]. intros Hne. destruct (step_life w o) as [Hs|(now & built & expired & v & ->)]; [by destruct Hne|].
  apply life_poll_ends; [done|]. intros r Hw. apply Hne. unfold w'. cbn [step]. unfold life_poll. by rewrite Hw.
Qed.

(** ** A machine that shuts down *)

#[local] Definition demo_history : list op :=
  [GrantDevice (mkShutdown (KDevice Block) 1); GrantDevice (mkShutdown (KDevice Memory) 2); GrantInterrupts 3;
   Attach X86 1 true; StartVcpus true; PollLife 0 true false None; GuestExits 1 7; PollLife 2 true false None;
   PollLife 2 true false None; Clean (Ok tt); Clean (Ok tt); PollLife 3 true false (Some (Ok tt)); Clean (Ok tt); Clean (Ok tt);
   PollLife 4 true false None].

Lemma demo_shutdown :
  let w := run initial demo_history in
  life w = LReturned (Ok (PGuestExit 7)) ∧ outcome (notifier w) = Some (OGuestExit 7) ∧ machine w = None
  ∧ (cleaned w).*1 = [IMachine; IDevice (mkShutdown (KDevice Memory) 2); IDevice (mkShutdown (KDevice Block) 1); IInterrupts 3].
Proof. vm_compute. repeat split; reflexivity. Qed.
End VmmMachine.
