(* ===== verification/ArmExit.v ===== *)
(** * Exits of ARM processors

    [crates/terra-hypervisor/src/arm.rs]: the decoding of data aborts into register
    accesses and their completion, and the trapped debug registers; with the registers
    of a processor of [hvf/aarch64.rs] ([run_one]). *)

From stdpp Require Import list sets.
From S2P Require Import Prelude VmmVcpu.

Local Open Scope Z_scope.

Module ArmExit.
Import VmmVcpu (VcpuExit, XMmioRead, XMmioWrite, VcpuAction, AStart, AReenter, AMmioRead, APioZero, AIoApicValue).

(** ** Data aborts *)

Inductive Failure := Unexpected | Undecodable | BadCompletion | BadRegister | PcOverflow | Handler.

Record ArmMmioAccess := mkAccess {
  width : Z;
  register : Z;
  is_write : bool;
  is_sign_extended : bool;
  is_64_bit_register : bool;
}.
Record ArmRegisterWrite := mkWrite { target : option Z; value : Z }.

Definition EC : Z := Z.shiftl 63 26.
Definition DATA_ABORT_LOWER : Z := Z.shiftl 0x24 26.
Definition DATA_ABORT_SAME : Z := Z.shiftl 0x25 26.
Definition HVC64 : Z := Z.shiftl 0x16 26.
Definition ISV : Z := Z.shiftl 1 24.
Definition SAS : Z := Z.shiftl 3 22.
Definition SSE : Z := Z.shiftl 1 21.
Definition SRT : Z := Z.shiftl 31 16.
Definition SF : Z := Z.shiftl 1 15.
Definition WNR : Z := Z.shiftl 1 6.

(** [ArmMmioAccess::decode]: [None] is an HVC call. *)
Definition decode (syndrome : Z) : result Failure (option ArmMmioAccess) :=
  if Z.land syndrome EC =? HVC64 then Ok None else
  if negb ((Z.land syndrome EC =? DATA_ABORT_LOWER) || (Z.land syndrome EC =? DATA_ABORT_SAME)) then Err Unexpected else
  let width := Z.shiftl 1 (Z.shiftr (Z.land syndrome SAS) 22) in
  let is_64_bit_register := negb (Z.land syndrome SF =? 0) in
  if (Z.land syndrome ISV =? 0) || (negb is_64_bit_register && (width =? 8)) then Err Undecodable else
  Ok (Some (mkAccess width (Z.shiftr (Z.land syndrome SRT) 16) (negb (Z.land syndrome WNR =? 0))
              (negb (Z.land syndrome SSE =? 0)) is_64_bit_register)).

Definition width_mask (a : ArmMmioAccess) : Z := Z.shiftr U64_MAX (64 - width a * 8).

(** [exit]: [read_register] reads a general register. *)
Definition exit (a : ArmMmioAccess) (address : Z) (read_register : Z → result Failure Z) : result Failure VcpuExit :=
  if negb (is_write a) then Ok (XMmioRead address (width a)) else
  v ← (if register a =? 31 then Ok 0 else read_register (register a));
  Ok (XMmioWrite address (width a) (Z.land v (width_mask a))).

(** The bits of a [u64] as an [i64], and back. *)
Definition cast_signed (x : Z) : Z := if x <? 2 ^ 63 then x else x - 2 ^ 64.
Definition cast_unsigned (x : Z) : Z := x mod 2 ^ 64.

Definition load_value (a : ArmMmioAccess) (v : Z) : Z :=
  let v := Z.land v (width_mask a) in
  let v := if is_sign_extended a
           then let shift := 64 - width a * 8 in
                cast_unsigned (Z.shiftr (cast_signed (Z.shiftl v shift mod 2 ^ 64)) shift)
           else v in
  if is_64_bit_register a then v else Z.land v U32_MAX.

Definition complete (a : ArmMmioAccess) (action : VcpuAction) : result Failure ArmRegisterWrite :=
  match action with
  | AReenter => if is_write a then Ok (mkWrite None 0) else Err BadCompletion
  | AMmioRead v => if negb (is_write a)
                   then Ok (mkWrite (if negb (register a =? 31) then Some (register a) else None) (load_value a v))
                   else Err BadCompletion
  | AStart | APioZero | AIoApicValue _ => Err BadCompletion
  end.

(** ** Trapped debug registers *)

(** [ArmDebugOsAccess::decode]: the register that a read writes. *)
Definition debug_decode (syndrome : Z) : option (option Z) :=
  let SYS64_TRAP := Z.shiftl 0x18 26 in
  if negb (Z.land syndrome EC =? SYS64_TRAP) then None else
  let op0 := Z.land (Z.shiftr syndrome 20) 3 in
  let op1 := Z.land (Z.shiftr syndrome 14) 7 in
  let op2 := Z.land (Z.shiftr syndrome 17) 7 in
  let crn := Z.land (Z.shiftr syndrome 10) 15 in
  let crm := Z.land (Z.shiftr syndrome 1) 15 in
  if negb ((op0 =? 2) && (op1 =? 0) && (crn =? 1) && (op2 =? 4) && ((crm =? 0) || (crm =? 1) || (crm =? 3) || (crm =? 4)))
  then None else
  let is_read := negb (Z.land syndrome 1 =? 0) in
  let destination := Z.land (Z.shiftr syndrome 5) 31 in
  Some (if is_read && negb (destination =? 31) then Some destination else None).
Definition debug_complete (read_register : option Z) : ArmRegisterWrite := mkWrite read_register 0.

(** ** A processor *)

(** The general registers x0 to x30, and the program counter. *)
Record Cpu := mkCpu { x : list Z; pc : Z }.

Definition arm_register_value (c : Cpu) (r : Z) : result Failure Z :=
  if r =? 31 then Ok 0 else ok_or BadRegister (x c !! Z.to_nat r).
Definition set_arm_general_register (w : ArmRegisterWrite) (c : Cpu) : result Failure Cpu :=
  match target w with
  | Some r => if r <? 31 then Ok (mkCpu (<[Z.to_nat r := value w]> (x c)) (pc c)) else Err BadRegister
  | None => Ok c
  end.
Definition advance_pc (c : Cpu) : result Failure Cpu :=
  p ← ok_or PcOverflow (checked_add64 (pc c) 4);
  Ok (mkCpu (x c) p).

(** [run_one] at an exception: [Ok None] is an HVC call for PSCI. [exchange] is the handler. *)
Definition run_exception (exchange : VcpuExit → result Failure VcpuAction) (syndrome address : Z) (c : Cpu)
    : result Failure (option Cpu) :=
  match debug_decode syndrome with
  | Some r =>
      c ← set_arm_general_register (debug_complete r) c;
      c ← advance_pc c;
      Ok (Some c)
  | None =>
      a ← decode syndrome;
      match a with
      | Some a =>
          e ← exit a address (arm_register_value c);
          action ← exchange e;
          w ← complete a action;
          c ← set_arm_general_register w c;
          c ← advance_pc c;
          Ok (Some c)
      | None => Ok None
      end
  end.

(** ** The architecture *)

Definition bits (k n s : Z) : Z := (s / 2 ^ k) mod 2 ^ n.
Definition sign_extend (n v : Z) : Z := if v mod 2 ^ n <? 2 ^ (n - 1) then v mod 2 ^ n else v mod 2 ^ n - 2 ^ n.

(** What a load of [w] bytes leaves in its register, when the device has answered [v]. *)
Definition loaded (sse sf : bool) (w v : Z) : Z :=
  (if sse then sign_extend (8 * w) v else v mod 2 ^ (8 * w)) mod 2 ^ (if sf then 64 else 32).

Definition read_x (r : Z) (c : Cpu) : Z := if r =? 31 then 0 else default 0 (x c !! Z.to_nat r).
Definition write_x (r v : Z) (c : Cpu) : Cpu := if r =? 31 then c else mkCpu (<[Z.to_nat r := v]> (x c)) (pc c).

(** A data abort as the ARM architecture describes its syndrome: a load or store of
    [w] bytes with the register [r]. *)
Definition arm_reference (exchange : VcpuExit → result Failure VcpuAction) (s address : Z) (c : Cpu) : result Failure (option Cpu) :=
  let class := bits 26 6 s in
  let w := 2 ^ bits 22 2 s in
  let r := bits 16 5 s in
  let sse := Z.testbit s 21 in
  let sf := Z.testbit s 15 in
  if class =? 0x16 then Ok None else
  if negb ((class =? 0x24) || (class =? 0x25)) then Err Unexpected else
  if negb (Z.testbit s 24) || (negb sf && (w =? 8)) then Err Undecodable else
  c ← (if Z.testbit s 6 then
         action ← exchange (XMmioWrite address w (read_x r c mod 2 ^ (8 * w)));
         match action with AReenter => Ok c | _ => Err BadCompletion end
       else
         action ← exchange (XMmioRead address w);
         match action with AMmioRead v => Ok (write_x r (loaded sse sf w v) c) | _ => Err BadCompletion end);
  Some <$> advance_pc c.

Lemma bits_range k n s : 0 ≤ n → 0 ≤ bits k n s < 2 ^ n.
Proof. intros. unfold bits. apply Z.mod_pos_bound, Z.pow_pos_nonneg; lia. Qed.

Lemma land_field s k n : 0 ≤ k → 0 ≤ n → Z.land s (Z.shiftl (Z.ones n) k) = Z.shiftl (bits k n s) k.
Proof.
  intros Hk Hn. unfold bits. rewrite <- Z.land_ones, <- Z.shiftr_div_pow2 by lia. apply Z.bits_inj'. intros i Hi.
  rewrite Z.land_spec, !Z.shiftl_spec by lia. destruct (Z.lt_ge_cases i k).
  - rewrite !(Z.testbit_neg_r _ (i - k)) by lia. by rewrite andb_false_r.
  - rewrite Z.land_spec, Z.shiftr_spec by lia. by replace (i - k + k) with i by lia.
Qed.

Lemma shiftl_eqb a b k : 0 ≤ k → (Z.shiftl a k =? Z.shiftl b k) = (a =? b).
Proof.
  intros Hk. rewrite !Z.shiftl_mul_pow2 by lia. pose proof (Z.pow_pos_nonneg 2 k). destruct (Z.eqb_spec a b) as [->|]; [apply Z.eqb_refl|].
  apply Z.eqb_neq. nia.
Qed.

Lemma land_bit s k : 0 ≤ k → negb (Z.land s (Z.shiftl 1 k) =? 0) = Z.testbit s k.
Proof.
  intros Hk. change 1 with (Z.ones 1). rewrite land_field by lia. replace 0 with (Z.shiftl 0 k) by apply Z.shiftl_0_l.
  rewrite shiftl_eqb by lia. unfold bits. change (2 ^ 1) with 2. rewrite <- Z.testbit_spec' by lia. by destruct (Z.testbit s k).
Qed.

Lemma shiftr_field s k n : 0 ≤ k → 0 ≤ n → Z.shiftr (Z.land s (Z.shiftl (Z.ones n) k)) k = bits k n s.
Proof. intros. rewrite land_field, Z.shiftr_shiftl_l, Z.sub_diag by lia. apply Z.shiftl_0_r. Qed.

Lemma decode_fields s :
  decode s =
    if bits 26 6 s =? 0x16 then Ok None else
    if negb ((bits 26 6 s =? 0x24) || (bits 26 6 s =? 0x25)) then Err Unexpected else
    if negb (Z.testbit s 24) || (negb (Z.testbit s 15) && (2 ^ bits 22 2 s =? 8)) then Err Undecodable else
    Ok (Some (mkAccess (2 ^ bits 22 2 s) (bits 16 5 s) (Z.testbit s 6) (Z.testbit s 21) (Z.testbit s 15))).
Proof.
  unfold decode, EC, HVC64, DATA_ABORT_LOWER, DATA_ABORT_SAME, SAS, SRT, SF, SSE, WNR, ISV.
  change 63 with (Z.ones 6). change 3 with (Z.ones 2). change 31 with (Z.ones 5).
  rewrite !shiftr_field, land_field, !shiftl_eqb, !land_bit by lia.
  rewrite <- (negb_involutive (Z.land s (Z.shiftl 1 24) =? 0)), land_bit by lia.
  by rewrite Z.shiftl_mul_pow2, Z.mul_1_l by (apply bits_range; lia).
Qed.

Lemma width_cases s : 2 ^ bits 22 2 s ∈ [1; 2; 4; 8].
Proof.
  pose proof (bits_range 22 2 s ltac:(lia)) as H. change (2 ^ 2) with 4 in H.
  assert (E : bits 22 2 s = 0 ∨ bits 22 2 s = 1 ∨ bits 22 2 s = 2 ∨ bits 22 2 s = 3) by lia.
  destruct E as [->|[->|[->| ->]]]; cbn; set_solver.
Qed.

Lemma land_width_mask a v : width a ∈ [1; 2; 4; 8] → Z.land v (width_mask a) = v mod 2 ^ (8 * width a).
Proof.
  intros H. assert (E : width_mask a = Z.ones (8 * width a)).
  { unfold width_mask. repeat (apply elem_of_cons in H as [->|H]; [reflexivity|]). by apply elem_of_nil in H. }
  rewrite E, Z.land_ones; [done|]. repeat (apply elem_of_cons in H as [->|H]; [lia|]). by apply elem_of_nil in H.
Qed.

(** The shift up and down of [load_value] extends the sign. *)
Lemma sign_shift n v : 0 < n ≤ 64 →
  cast_unsigned (Z.shiftr (cast_signed (Z.shiftl (v mod 2 ^ n) (64 - n) mod 2 ^ 64)) (64 - n)) = sign_extend n v mod 2 ^ 64.
Proof.
  intros Hn. unfold cast_unsigned, cast_signed, sign_extend. set (y := v mod 2 ^ n).
  pose proof (Z.pow_pos_nonneg 2 n ltac:(lia) ltac:(lia)) as Hp. pose proof (Z.mod_pos_bound v (2 ^ n) Hp) as Hy. fold y in Hy.
  assert (E64 : 2 ^ 64 = 2 ^ n * 2 ^ (64 - n)) by (rewrite <- Z.pow_add_r by lia; f_equal; lia).
  assert (E63 : 2 ^ 63 = 2 ^ (n - 1) * 2 ^ (64 - n)) by (rewrite <- Z.pow_add_r by lia; f_equal; lia).
  pose proof (Z.pow_pos_nonneg 2 (64 - n) ltac:(lia) ltac:(lia)) as Hq.
  rewrite Z.shiftl_mul_pow2, (Z.mod_small (y * _)) by (lia || nia). rewrite Z.shiftr_div_pow2 by lia.
  assert (Hb : (y * 2 ^ (64 - n) <? 2 ^ 63) = (y <? 2 ^ (n - 1))).
  { rewrite E63. destruct (Z.ltb_spec y (2 ^ (n - 1))); [apply Z.ltb_lt|apply Z.ltb_ge]; nia. }
  rewrite Hb. destruct (y <? 2 ^ (n - 1)); [by rewrite Z.div_mul by lia|].
  rewrite E64 at 1. replace (y * 2 ^ (64 - n) - 2 ^ n * 2 ^ (64 - n)) with ((y - 2 ^ n) * 2 ^ (64 - n)) by ring.
  by rewrite Z.div_mul by lia.
Qed.

Lemma load_value_loaded a v : width a ∈ [1; 2; 4; 8] →
  load_value a v = loaded (is_sign_extended a) (is_64_bit_register a) (width a) v.
Proof.
  intros H. assert (Hw : 0 < 8 * width a ≤ 64).
  { repeat (apply elem_of_cons in H as [->|H]; [lia|]). by apply elem_of_nil in H. }
  unfold load_value, loaded. rewrite land_width_mask by done. replace (64 - width a * 8) with (64 - 8 * width a) by lia.
  assert (Hs : ∀ b : bool, (if b then cast_unsigned (Z.shiftr (cast_signed (Z.shiftl (v mod 2 ^ (8 * width a)) (64 - 8 * width a) mod 2 ^ 64)) (64 - 8 * width a))
                   else v mod 2 ^ (8 * width a))
               = (if b then sign_extend (8 * width a) v else v mod 2 ^ (8 * width a)) mod 2 ^ 64).
  { intros []; [by apply sign_shift|]. symmetry. apply Z.mod_small. pose proof (Z.mod_pos_bound v (2 ^ (8 * width a)) ltac:(apply Z.pow_pos_nonneg; lia)).
    pose proof (Z.pow_le_mono_r 2 (8 * width a) 64 ltac:(lia) ltac:(lia)). lia. }
  rewrite Hs. destruct (is_64_bit_register a); [done|]. change U32_MAX with (Z.ones 32). rewrite Z.land_ones by lia.
  apply Z.mod_mod_divide. by exists (2 ^ 32).
Qed.

(** C25. A data abort that reaches user space is carried out as the ARM architecture
    defines the load or store behind it, for every 64-bit syndrome and handler: the access
    has the width of the syndrome, a store passes the low bytes of its register, a load
    leaves the answer in its register, cut to the width, extended by its sign if the
    instruction says so and cut to 32 bits in a 32-bit register; register 31 reads as zero
    and is not written; the instruction is stepped over. What is not such an
    access is refused, and an HVC call is left to PSCI. *)
Theorem arm_abort_semantics (exchange : VcpuExit → result Failure VcpuAction) (s address : Z) (c : Cpu) :
  length (x c) = 31%nat → debug_decode s = None →
  run_exception exchange s address c = arm_reference exchange s address c.
Proof.
  intros Hx Hd. unfold run_exception, arm_reference. rewrite Hd, decode_fields. cbv zeta.
  destruct (bits 26 6 s =? 0x16); [done|]. destruct (negb _); [done|]. destruct (negb (Z.testbit s 24) || _); [done|].
  pose proof (width_cases s) as Hw. pose proof (bits_range 16 5 s ltac:(lia)) as Hr. change (2 ^ 5) with 32 in Hr.
  cbn [mbind result_bind]. unfold exit, complete. cbn [is_write width register].
  set (w := 2 ^ bits 22 2 s) in *. set (r := bits 16 5 s) in *.
  set (a := mkAccess w r (Z.testbit s 6) (Z.testbit s 21) (Z.testbit s 15)). destruct (Z.testbit s 6) eqn:Hwr; cbn [negb].
  - assert (Hv : (if r =? 31 then Ok 0 else arm_register_value c r) = Ok (read_x r c)).
    { unfold arm_register_value, read_x. destruct (Z.eqb_spec r 31); [done|].
      destruct (lookup_lt_is_Some_2 (x c) (Z.to_nat r)) as [v ->]; [lia|done]. }
    rewrite Hv. cbn [mbind result_bind]. rewrite land_width_mask by done. cbn [width a].
    destruct (exchange _) as [action|]; [|done]. cbn. destruct action; try done.
  - cbn [mbind result_bind]. destruct (exchange _) as [action|]; [|done]. destruct action as [| |v| |]; try done. cbn [mbind result_bind].
    rewrite load_value_loaded by done. cbn [is_sign_extended is_64_bit_register width a].
    unfold set_arm_general_register, write_x. cbn [target value]. destruct (Z.eqb_spec r 31); cbn [negb]; cbn [mbind result_bind].
    + by destruct (advance_pc c).
    + assert (Hlt : (r <? 31) = true) by (apply Z.ltb_lt; lia). rewrite Hlt. cbn [mbind result_bind]. by destruct (advance_pc _).
Qed.

(** A byte 0x80 that is loaded with its sign into w3. *)
#[local] Definition demo_syndrome : Z := 0x24 * 2 ^ 26 + 2 ^ 24 + 2 ^ 21 + 3 * 2 ^ 16.
#[local] Definition demo_cpu : Cpu := mkCpu (replicate 31 7) 0x1000.

Lemma arm_abort_semantics_witness :
  run_exception (λ _, Ok (AMmioRead 0x1280)) demo_syndrome 0xd0000070 demo_cpu
  = Ok (Some (mkCpu (<[3%nat := 0xffffff80]> (replicate 31 7)) 0x1004)).
Proof.
  rewrite (arm_abort_semantics (λ _, Ok (AMmioRead 0x1280)) demo_syndrome 0xd0000070 demo_cpu); [|vm_compute; reflexivity|vm_compute; reflexivity].
  vm_compute. reflexivity.
Defined.
End ArmExit.
