(* ===== verification/ArmPower.v ===== *)
(** * Power states of ARM processors

    PSCI calls ([psci] of [crates/terra-hypervisor/src/arm.rs]) and the processors of
    [hvf/aarch64.rs] that they turn on and off: [run_psci], [power_on], [power_off],
    [run_cpu] and the stop request of [vcpus.rs]. A call is decided on a copy of the power
    states and carried out later, so calls of several processors interleave. *)

From stdpp Require Import list.
From S2P Require Import Prelude.

Local Open Scope Z_scope.

Module ArmPower.

(** ** PSCI *)

Definition VERSION : Z := 0x84000000.
Definition CPU_OFF : Z := 0x84000002.
Definition CPU_ON_32 : Z := 0x84000003.
Definition CPU_ON : Z := 0xc4000003.
Definition AFFINITY_INFO_32 : Z := 0x84000004.
Definition AFFINITY_INFO : Z := 0xc4000004.
Definition SYSTEM_OFF : Z := 0x84000008.
Definition SYSTEM_RESET : Z := 0x84000009.
Definition FEATURES : Z := 0x8400000a.

Definition VERSION_1_0 : Z := 0x00010000.
Definition SUCCESS : Z := 0.
Definition NOT_SUPPORTED : Z := -1.
Definition INVALID_PARAMETERS : Z := -2.
Definition DENIED : Z := -3.
Definition ALREADY_ON : Z := -4.

Record PsciCall := mkCall { function : Z; argument0 : Z; argument1 : Z; argument2 : Z }.
Inductive PsciAction :=
  | Return (status : Z)
  | StartCpu (target : nat) (entry context : Z)
  | PowerOffCaller
  | StopMachine.

Definition features (f : Z) : Z :=
  if bool_decide (f ∈ [VERSION; FEATURES; CPU_OFF; CPU_ON; CPU_ON_32; AFFINITY_INFO; AFFINITY_INFO_32; SYSTEM_OFF; SYSTEM_RESET])
  then SUCCESS else NOT_SUPPORTED.

Definition decide_call (call : PsciCall) (powered : list bool) (is_entry_valid : Z → bool) : PsciAction :=
  let target : option (nat * bool) := if (0 <=? argument0 call) && (argument0 call <=? 255)
                then (λ p : bool, (Z.to_nat (argument0 call), p)) <$> powered !! Z.to_nat (argument0 call)
                else None in
  let f := function call in
  if f =? VERSION then Return VERSION_1_0
  else if f =? FEATURES then Return (features (argument0 call))
  else if (f =? AFFINITY_INFO) || (f =? AFFINITY_INFO_32) then
    Return (if negb (argument1 call =? 0) then INVALID_PARAMETERS
            else match target with Some (_, on) => if on then 0 else 1 | None => DENIED end)
  else if (f =? CPU_ON) || (f =? CPU_ON_32) then
    match target with
    | Some (_, true) => Return ALREADY_ON
    | Some (t, false) => if is_entry_valid (argument1 call) then StartCpu t (argument1 call) (argument2 call)
                         else Return INVALID_PARAMETERS
    | None => Return DENIED
    end
  else if f =? CPU_OFF then PowerOffCaller
  else if (f =? SYSTEM_OFF) || (f =? SYSTEM_RESET) then StopMachine
  else Return NOT_SUPPORTED.

(** ** The processors *)

Inductive CpuCommand := PowerOn (entry context : Z) | Stop.
(** A thread runs its processor, carries out a call, or waits for a command. *)
Inductive Phase := InGuest | InCall (a : PsciAction) | Waiting | Ended.

Inductive Event := Accepted (cpu : nat) (entry context : Z) | Started (cpu : nat) (entry context : Z) | Returned (cpu : nat) (status : Z).

Record Cpus := mkCpus {
  powered : list bool;
  commands : list (list CpuCommand);
  phases : list Phase;
  stopping : bool;
  log : list Event;
}.
Definition set_phase i p c := mkCpus (powered c) (commands c) (<[i := p]> (phases c)) (stopping c) (log c).
Definition add_log e c := mkCpus (powered c) (commands c) (phases c) (stopping c) (log c ++ [e]).

(** The boot processor is on. *)
Definition create (count : nat) : Cpus :=
  mkCpus (true :: replicate (count - 1) false) (replicate count []) (InGuest :: replicate (count - 1) Waiting) false [].

Definition is_ended (p : option Phase) : bool := match p with Some Ended | None => true | _ => false end.

(** [Cpus::power_on]: the status, and the processors. The receiver of an ended thread is gone. *)
Definition power_on (cpu : nat) (entry context : Z) (c : Cpus) : Z * Cpus :=
  if stopping c then (DENIED, c) else
  match commands c !! cpu with
  | None => (INVALID_PARAMETERS, c)
  | Some q =>
      if default true (powered c !! cpu) then (ALREADY_ON, c) else
      if is_ended (phases c !! cpu) then (DENIED, c) else
      (SUCCESS, mkCpus (<[cpu := true]> (powered c)) (<[cpu := q ++ [PowerOn entry context]]> (commands c)) (phases c) (stopping c)
                  (log c ++ [Accepted cpu entry context]))
  end.

Definition power_off (cpu : nat) (c : Cpus) : Cpus :=
  mkCpus (<[cpu := false]> (powered c)) (commands c) (phases c) (stopping c) (log c).

(** [Stop::request], whose kick sends a command to every thread. *)
Definition request_stop (c : Cpus) : Cpus :=
  mkCpus (powered c) ((λ q, q ++ [Stop]) <$> commands c) (phases c) true (log c).

(** [run_psci] up to the decision. *)
Definition call (is_entry_valid : Z → bool) (i : nat) (k : PsciCall) (c : Cpus) : Cpus :=
  match phases c !! i with
  | Some InGuest => set_phase i (InCall (decide_call k (powered c) is_entry_valid)) c
  | _ => c
  end.

(** The rest of [run_psci], and of [run_until_off]. *)
Definition carry_out (i : nat) (c : Cpus) : Cpus :=
  match phases c !! i with
  | Some (InCall a) =>
      match a with
      | Return status => add_log (Returned i status) (set_phase i InGuest c)
      | StartCpu target entry context =>
          let '(status, c) := power_on target entry context c in
          add_log (Returned i status) (set_phase i InGuest c)
      | PowerOffCaller => set_phase i Waiting (power_off i c)
      | StopMachine => set_phase i Ended (request_stop c)
      end
  | _ => c
  end.

(** [run_cpu] takes a command. *)
Definition receive (i : nat) (c : Cpus) : Cpus :=
  match phases c !! i, commands c !! i with
  | Some Waiting, Some (PowerOn entry context :: q) =>
      add_log (Started i entry context)
        (set_phase i InGuest (mkCpus (powered c) (<[i := q]> (commands c)) (phases c) (stopping c) (log c)))
  | Some Waiting, Some (Stop :: q) =>
      set_phase i Ended (mkCpus (powered c) (<[i := q]> (commands c)) (phases c) (stopping c) (log c))
  | _, _ => c
  end.

(** [run_one] sees that the machine stops, or fails; a failure stops the others. *)
Definition leave (failed : bool) (i : nat) (c : Cpus) : Cpus :=
  match phases c !! i with
  | Some InGuest => if failed then set_phase i Ended (request_stop c)
                    else if stopping c then set_phase i Ended c else c
  | _ => c
  end.

Inductive op := Hvc (i : nat) (k : PsciCall) | CarryOut (i : nat) | Receive (i : nat) | Leave (failed : bool) (i : nat) | RequestStop.

Definition step (is_entry_valid : Z → bool) (c : Cpus) (o : op) : Cpus :=
  match o with
  | Hvc i k => call is_entry_valid i k c
  | CarryOut i => carry_out i c
  | Receive i => receive i c
  | Leave failed i => leave failed i c
  | RequestStop => request_stop c
  end.
Definition run (is_entry_valid : Z → bool) (c : Cpus) (os : list op) : Cpus := foldl (step is_entry_valid) c os.

(** ** The invariant *)

Definition accepted (i : nat) (l : list Event) : list (Z * Z) :=
  omap (λ e, match e with Accepted j a b => if decide (j = i) then Some (a, b) else None | _ => None end) l.
Definition started (i : nat) (l : list Event) : list (Z * Z) :=
  omap (λ e, match e with Started j a b => if decide (j = i) then Some (a, b) else None | _ => None end) l.
Definition queued (q : list CpuCommand) : list (Z * Z) :=
  omap (λ k, match k with PowerOn a b => Some (a, b) | Stop => None end) q.
Definition is_active (p : Phase) : bool := match p with InGuest | InCall _ => true | _ => false end.

Record cpu_ok (c : Cpus) (i : nat) (on : bool) (q : list CpuCommand) (p : Phase) : Prop := {
  c_order : accepted i (log c) = started i (log c) ++ queued q;
  c_state : p ≠ Ended → length (queued q) = if on && negb (is_active p) then 1%nat else 0%nat;
  c_active : is_active p = true → on = true;
}.

Record inv (valid : Z → bool) (n : nat) (c : Cpus) : Prop := {
  i_powered : length (powered c) = n;
  i_commands : length (commands c) = n;
  i_phases : length (phases c) = n;
  i_cpu : ∀ i on q p, powered c !! i = Some on → commands c !! i = Some q → phases c !! i = Some p → cpu_ok c i on q p;
  i_valid : ∀ i a b, Accepted i a b ∈ log c → valid a = true;
  i_call : ∀ i t a b, phases c !! i = Some (InCall (StartCpu t a b)) → valid a = true;
}.

Lemma power_accepted_app i l k : accepted i (l ++ k) = accepted i l ++ accepted i k.
Proof. apply omap_app. Qed.
Lemma started_app i l k : started i (l ++ k) = started i l ++ started i k.
Proof. apply omap_app. Qed.
Lemma queued_app q k : queued (q ++ k) = queued q ++ queued k.
Proof. apply omap_app. Qed.

Lemma accepted_one j t a b : accepted j [Accepted t a b] = if decide (t = j) then [(a, b)] else [].
Proof. unfold accepted. cbn. by destruct (decide (t = j)). Qed.
Lemma started_one j t a b : started j [Started t a b] = if decide (t = j) then [(a, b)] else [].
Proof. unfold started. cbn. by destruct (decide (t = j)). Qed.
Lemma accepted_other j t a b : accepted j [Started t a b] = [].
Proof. done. Qed.
Lemma started_other j t a b : started j [Accepted t a b] = [].
Proof. done. Qed.

#[local] Arguments accepted i l : simpl never.
#[local] Arguments started i l : simpl never.
#[local] Arguments queued q : simpl never.

Lemma queued_cons a b q : queued (PowerOn a b :: q) = (a, b) :: queued q.
Proof. done. Qed.

Lemma decide_call_valid valid k on t a b : decide_call k on valid = StartCpu t a b → valid a = true.
Proof.
  unfold decide_call. set (target := if _ && _ then _ else _). repeat (destruct (_ =? _); cbn [orb negb]; try done).
  all: destruct target as [[u []]|]; try done; destruct (valid (argument1 k)) eqn:Hv; intros [= <- <- <-] || intros [=]; done.
Qed.

(** One processor changes, and the log says only what it does. *)
Lemma cpu_inv valid n c c' i on q p :
  inv valid n c → powered c !! i = Some on → commands c !! i = Some q → phases c !! i = Some p → cpu_ok c i on q p →
  length (powered c') = n → length (commands c') = n → length (phases c') = n →
  (∀ j, j ≠ i → powered c' !! j = powered c !! j ∧ commands c' !! j = commands c !! j ∧ phases c' !! j = phases c !! j
     ∧ accepted j (log c') = accepted j (log c) ∧ started j (log c') = started j (log c)) →
  (∀ on' q' p', powered c' !! i = Some on' → commands c' !! i = Some q' → phases c' !! i = Some p' → cpu_ok c' i on' q' p') →
  (∀ j a b, Accepted j a b ∈ log c' → Accepted j a b ∈ log c ∨ valid a = true) →
  (∀ t a b, phases c' !! i = Some (InCall (StartCpu t a b)) → valid a = true) →
  inv valid n c'.
Proof.
  intros [] _ _ _ _ H1 H2 H3 Ho Hi Ha Hc. split; try done.
  - intros j on' q' p' Hp Hq Hph. destruct (decide (j = i)) as [->|Hne]; [by apply Hi|].
    destruct (Ho j Hne) as (E1 & E2 & E3 & E4 & E5). rewrite E1 in Hp. rewrite E2 in Hq. rewrite E3 in Hph.
    destruct (i_cpu0 j on' q' p' Hp Hq Hph). split; [|done|done]. by rewrite E4, E5.
  - intros j a b Hin. destruct (Ha j a b Hin) as [?|?]; [by eapply i_valid0|done].
  - intros j t a b Hph. destruct (decide (j = i)) as [->|Hne]; [by eapply Hc|]. destruct (Ho j Hne) as (_ & _ & E3 & _).
    rewrite E3 in Hph. by eapply i_call0.
Qed.

(** The three lists have an entry for every processor. *)
Lemma cpu_lookup valid n c i p : inv valid n c → phases c !! i = Some p →
  ∃ on q, powered c !! i = Some on ∧ commands c !! i = Some q ∧ cpu_ok c i on q p.
Proof.
  intros I Hp. pose proof (lookup_lt_Some _ _ _ Hp) as Hl. rewrite (i_phases _ _ _ I) in Hl.
  destruct (lookup_lt_is_Some_2 (powered c) i) as [on Hon]; [by rewrite (i_powered _ _ _ I)|].
  destruct (lookup_lt_is_Some_2 (commands c) i) as [q Hq]; [by rewrite (i_commands _ _ _ I)|].
  exists on, q. split_and!; try done. by apply (i_cpu _ _ _ I).
Qed.

Lemma set_phase_inv valid n c i p p' :
  inv valid n c → phases c !! i = Some p →
  (∀ on q, cpu_ok c i on q p → cpu_ok c i on q p') → (∀ t a b, p' = InCall (StartCpu t a b) → valid a = true) →
  inv valid n (set_phase i p' c).
Proof.
  intros I Hp Hok Hc. destruct (cpu_lookup _ _ _ _ _ I Hp) as (on & q & Hon & Hq & Hcpu).
  eapply (cpu_inv valid n c _ i); try done; cbn; try apply I.
  - rewrite length_insert. apply I.
  - intros j Hne. by rewrite list_lookup_insert_ne.
  - intros on' q' p'' Hon' Hq' Hp''. rewrite list_lookup_insert_eq in Hp'' by (by eapply lookup_lt_Some). injection Hp'' as <-.
    rewrite Hon in Hon'. rewrite Hq in Hq'. injection Hon' as <-. injection Hq' as <-. destruct (Hok _ _ Hcpu). by split.
  - auto.
  - intros t a b. rewrite list_lookup_insert_eq by (by eapply lookup_lt_Some). intros [= ->]. by eapply Hc.
Qed.

Lemma active_ok c i on q p p' : is_active p = true → is_active p' = true → cpu_ok c i on q p → cpu_ok c i on q p'.
Proof.
  intros Hp Hp' []. rewrite Hp in *. assert (p ≠ Ended) by (by intros ->). split; [done| |auto]. rewrite Hp'. auto.
Qed.

Lemma ended_ok c i on q p : cpu_ok c i on q p → cpu_ok c i on q Ended.
Proof. intros []. by split. Qed.

Lemma power_returned_inv valid n c i st : inv valid n c → inv valid n (add_log (Returned i st) c).
Proof.
  intros []. split; try done; cbn.
  - intros j on q p H1 H2 H3. destruct (i_cpu0 j on q p H1 H2 H3). split; try done. cbn. rewrite power_accepted_app, started_app. by rewrite !app_nil_r.
  - intros j a b [H|H%list_elem_of_singleton]%elem_of_app; [by eapply i_valid0|done].
Qed.

Lemma request_stop_inv valid n c : inv valid n c → inv valid n (request_stop c).
Proof.
  intros []. split; try done; cbn; [by rewrite length_fmap|].
  intros j on q p H1 H2 H3. rewrite list_lookup_fmap in H2. destruct (commands c !! j) as [q0|] eqn:Hq; [|done]. injection H2 as <-.
  destruct (i_cpu0 j on q0 p H1 Hq H3). split; try done; cbn; by rewrite queued_app, app_nil_r.
Qed.

(** An end needs nothing but the order. *)
Lemma end_inv valid n c i p : inv valid n c → phases c !! i = Some p → inv valid n (set_phase i Ended c).
Proof. intros I Hp. eapply set_phase_inv; try done. intros on q. apply ended_ok. Qed.

Lemma power_on_inv valid n c t a b : inv valid n c → valid a = true →
  inv valid n (power_on t a b c).2 ∧ phases (power_on t a b c).2 = phases c.
Proof.
  intros I Hv. unfold power_on. destruct (stopping c); [done|]. destruct (commands c !! t) as [q|] eqn:Hq; [|done].
  destruct (powered c !! t) as [[]|] eqn:Hon; [done| |done]. cbn [default]. destruct (phases c !! t) as [p|] eqn:Hp; [|done].
  destruct (is_ended (Some p)) eqn:He; [done|]. split; [|done].
  pose proof (i_cpu _ _ _ I t false q p Hon Hq Hp) as Hok. pose proof Hok as [Ho Hs Ha].
  assert (Hw : p = Waiting) by (destruct p; try done; by specialize (Ha eq_refl)). subst p.
  eapply (cpu_inv valid n c _ t); try done; cbn; rewrite ?length_insert; try apply I.
  - intros j Hne. rewrite !list_lookup_insert_ne by done. rewrite power_accepted_app, started_app, accepted_one, started_other. rewrite decide_False by done. by rewrite !app_nil_r.
  - intros on' q' p' Hon' Hq' Hp'. rewrite list_lookup_insert_eq in Hon' by (by eapply lookup_lt_Some).
    rewrite list_lookup_insert_eq in Hq' by (by eapply lookup_lt_Some). rewrite Hp in Hp'. injection Hon' as <-. injection Hq' as <-. injection Hp' as <-.
    split; cbn; [|intros _|done].
    + rewrite power_accepted_app, started_app, queued_app, Ho, accepted_one, started_other. rewrite decide_True by done. by rewrite app_nil_r, app_assoc.
    + rewrite queued_app, length_app, Hs by done. done.
  - intros j a' b' [H|[= -> -> ->]%list_elem_of_singleton]%elem_of_app; [by left|by right].
Qed.

Lemma call_inv valid n c i k : inv valid n c → inv valid n (call valid i k c).
Proof.
  intros I. unfold call. destruct (phases c !! i) as [[]|] eqn:Hp; try done. eapply set_phase_inv; try done.
  - intros on q. by apply active_ok.
  - intros t a b [= H]. by apply decide_call_valid in H.
Qed.

Lemma carry_out_inv valid n c i : inv valid n c → inv valid n (carry_out i c).
Proof.
  intros I. unfold carry_out. destruct (phases c !! i) as [[|a| |]|] eqn:Hp; try done.
  assert (R : ∀ c', inv valid n c' → phases c' = phases c → ∀ st, inv valid n (add_log (Returned i st) (set_phase i InGuest c'))).
  { intros c' I' Hc' st. apply power_returned_inv. eapply set_phase_inv; [done|by rewrite Hc'|intros on q; by apply active_ok|done]. }
  destruct a as [st|t entry context| |].
  - by apply R.
  - pose proof (power_on_inv valid n c t entry context I (i_call _ _ _ I _ _ _ _ Hp)) as [I' Hph].
    destruct (power_on t entry context c) as [st c']. by apply R.
  - destruct (cpu_lookup _ _ _ _ _ I Hp) as (on & q & Hon & Hq & Hok). pose proof Hok as [Ho Hs Ha].
    eapply (cpu_inv valid n c _ i); try done; cbn; rewrite ?length_insert; try apply I.
    + intros j Hne. by rewrite !list_lookup_insert_ne.
    + intros on' q' p' Hon' Hq' Hp'. rewrite list_lookup_insert_eq in Hon' by (by eapply lookup_lt_Some).
      rewrite list_lookup_insert_eq in Hp' by (by eapply lookup_lt_Some). rewrite Hq in Hq'. injection Hon' as <-. injection Hq' as <-. injection Hp' as <-.
      split; [done| |done]. intros _. rewrite Hs by done. by destruct on.
    + auto.
    + intros t a b. rewrite list_lookup_insert_eq by (by eapply lookup_lt_Some). done.
  - eapply end_inv; [by apply request_stop_inv|exact Hp].
Qed.

Lemma power_receive_inv valid n c i : inv valid n c → inv valid n (receive i c).
Proof.
  intros I. unfold receive. destruct (phases c !! i) as [[]|] eqn:Hp; try done. destruct (commands c !! i) as [[|[entry context|] q]|] eqn:Hq; try done.
  all: destruct (cpu_lookup _ _ _ _ _ I Hp) as (on & q0 & Hon & Hq0 & Hok); rewrite Hq in Hq0; injection Hq0 as <-; pose proof Hok as [Ho Hs Ha].
  all: eapply (cpu_inv valid n c _ i); try done; cbn; rewrite ?length_insert; try apply I.
  - intros j Hne. rewrite !list_lookup_insert_ne by done. rewrite power_accepted_app, started_app, accepted_other, started_one. rewrite decide_False by done. by rewrite !app_nil_r.
  - intros on' q' p' Hon' Hq' Hp'. rewrite list_lookup_insert_eq in Hq' by (by eapply lookup_lt_Some).
    rewrite list_lookup_insert_eq in Hp' by (by eapply lookup_lt_Some). rewrite Hon in Hon'. injection Hon' as <-. injection Hq' as <-. injection Hp' as <-.
    specialize (Hs ltac:(done)). rewrite queued_cons in Hs, Ho. destruct on; [|done]. cbn in Hs. split; cbn; [|intros _; lia|done].
    rewrite power_accepted_app, started_app, Ho, accepted_other, started_one. rewrite decide_True by done. by rewrite app_nil_r, <- app_assoc.
  - intros j a b [H|H%list_elem_of_singleton]%elem_of_app; [by left|done].
  - intros t a b. rewrite list_lookup_insert_eq by (by eapply lookup_lt_Some). done.
  - intros j Hne. by rewrite !list_lookup_insert_ne by done.
  - intros on' q' p' Hon' Hq' Hp'. rewrite list_lookup_insert_eq in Hq' by (by eapply lookup_lt_Some).
    rewrite list_lookup_insert_eq in Hp' by (by eapply lookup_lt_Some). rewrite Hon in Hon'. injection Hon' as <-. injection Hq' as <-. injection Hp' as <-.
    by split.
  - auto.
  - intros t a b. rewrite list_lookup_insert_eq by (by eapply lookup_lt_Some). done.
Qed.

Lemma leave_inv valid n c f i : inv valid n c → inv valid n (leave f i c).
Proof.
  intros I. unfold leave. destruct (phases c !! i) as [[]|] eqn:Hp; try done. destruct f.
  - eapply end_inv; [by apply request_stop_inv|exact Hp].
  - destruct (stopping c); [|done]. by eapply end_inv.
Qed.

Lemma power_step_inv valid n c o : inv valid n c → inv valid n (step valid c o).
Proof.
  intros I. destruct o; cbn [step]; [by apply call_inv|by apply carry_out_inv|by apply power_receive_inv|by apply leave_inv|by apply request_stop_inv].
Qed.

Lemma create_inv valid n : inv valid (S n) (create (S n)).
Proof.
  unfold create. replace (S n - 1)%nat with n by lia. split; cbn; rewrite ?length_replicate; try done.
  - intros [|i] on q p; cbn; intros Hon Hq Hp.
    + injection Hon as <-. injection Hq as <-. injection Hp as <-. by split.
    + apply lookup_replicate in Hon as [-> _], Hq as [-> _], Hp as [-> _]. by split.
  - intros i a b H. by apply elem_of_nil in H.
  - intros [|i] t a b; cbn; [done|]. intros [? _]%lookup_replicate. done.
Qed.

Lemma power_run_inv valid n os : inv valid (S n) (run valid (create (S n)) os).
Proof.
  unfold run. pose proof (create_inv valid n) as H. revert H. generalize (create (S n)).
  induction os as [|o os IH]; intros c H; [done|]. by apply IH, power_step_inv.
Qed.

(** C24. Whatever PSCI calls the processors of a machine make at the same time, power states
    are consistent: a processor that is off neither runs nor has an order to start, and one that
    is on runs or has exactly one such order, until it ends. The starts of a processor are those
    that [CPU_ON] has accepted for it, each once and in order, at an entry point that is
    valid, with the context given. *)
Theorem psci_power_states (valid : Z → bool) (n : nat) (os : list op) (i : nat) (on : bool) (q : list CpuCommand) (p : Phase) :
  let c := run valid (create (S n)) os in
  powered c !! i = Some on → commands c !! i = Some q → phases c !! i = Some p →
  accepted i (log c) = started i (log c) ++ queued q
  ∧ Forall (λ x, valid x.1 = true) (started i (log c))
  ∧ (p ≠ Ended → if on then is_active p = true ∧ queued q = [] ∨ p = Waiting ∧ (∃ x, queued q = [x])
                 else p = Waiting ∧ queued q = []).
Proof.
  intros c Hon Hq Hp. pose proof (power_run_inv valid n os) as I. fold c in I. destruct (i_cpu _ _ _ I i on q p Hon Hq Hp) as [Ho Hs Ha].
  split_and!; [done| |].
  - apply Forall_forall. intros [a b] Hin. cbn. assert (H : (a, b) ∈ accepted i (log c)) by (rewrite Ho; apply elem_of_app; by left).
    unfold accepted in H. apply list_elem_of_omap in H as (e & He & Hx). destruct e as [j a' b'| |]; try done. destruct (decide (j = i)); [|done].
    injection Hx as -> ->. by eapply (i_valid _ _ _ I).
  - intros Hne. specialize (Hs Hne). destruct p; cbn in *; try done.
    + rewrite (Ha eq_refl) in *. left. split; [done|by apply nil_length_inv].
    + rewrite (Ha eq_refl) in *. left. split; [done|by apply nil_length_inv].
    + destruct on; cbn in Hs; [right|]; (split; [done|]); [|by apply nil_length_inv].
      destruct (queued q) as [|y [|]]; try done. by exists y.
Qed.

(** Processor 0 starts processor 1, which turns itself off. *)
#[local] Definition demo_valid (entry : Z) : bool := entry mod 4 =? 0.
#[local] Definition demo_ops : list op :=
  [Hvc 0 (mkCall CPU_ON 1 0x8000 7); CarryOut 0; Receive 1; Hvc 0 (mkCall CPU_ON 1 0x8000 7); CarryOut 0;
   Hvc 1 (mkCall CPU_OFF 0 0 0); CarryOut 1].

Lemma power_demo_log : log (run demo_valid (create 2) demo_ops)
  = [Accepted 1 0x8000 7; Returned 0 SUCCESS; Started 1 0x8000 7; Returned 0 ALREADY_ON].
Proof. vm_compute. reflexivity. Qed.

Lemma psci_power_states_witness :
  let c := run demo_valid (create 2) demo_ops in
  accepted 1 (log c) = started 1 (log c) ++ queued [].
Proof. apply (psci_power_states demo_valid 1 demo_ops 1 false [] Waiting); vm_compute; reflexivity. Defined.
End ArmPower.
