(* ===== verification/Frames.v ===== *)
(** * Framed messages

    [crates/terra-protocol/src/frames.rs]: the length-prefixed messages of the channels
    between host and guest. A reader is a program of [read_exact] calls, so that the one
    body of [read_frame], [read_frame_async] and [read_frame_futures] can be run on a byte
    string here and on a connection elsewhere. [postcard] is outside code: its two functions
    are fields of [Message], and [MessageLaws] says what they do. *)

From stdpp Require Import list.
From S2P Require Import Prelude PolicyRules.

Local Open Scope Z_scope.

Module Frames.

(** ** [std::io::Error] *)

Inductive ErrorKind := UnexpectedEof | InvalidData | NotFound | Interrupted | OtherKind.
#[export] Instance ErrorKind_eq_dec : EqDecision ErrorKind.
Proof. solve_decision. Defined.

(** The texts of the errors of this file, and any other text. *)
Inductive Msg := PayloadTooLong (len max : Z) | BadPostcard | TrailingBytes | EndOfStream | Text (s : str).
Inductive IoError := Os (errno : Z) | Custom (k : ErrorKind) (m : Msg).
#[export] Instance Msg_eq_dec : EqDecision Msg.
Proof. solve_decision. Defined.
#[export] Instance IoError_eq_dec : EqDecision IoError.
Proof. solve_decision. Defined.

Definition ENOENT : Z := 2.
Definition EINTR : Z := 4.
Definition error_kind (e : IoError) : ErrorKind :=
  match e with
  | Custom k _ => k
  | Os n => if n =? ENOENT then NotFound else if n =? EINTR then Interrupted else OtherKind
  end.

(** ** Messages *)

Class Message (T : Type) := {
  MAX_PAYLOAD_BYTES : Z;
  (** [postcard::to_extend] and [postcard::take_from_bytes] *)
  to_bytes : T → option (list Z);
  take_from_bytes : list Z → option (T * list Z);
}.
Arguments MAX_PAYLOAD_BYTES T {_}.

Section Codec.
Context {T : Type} `{!Message T}.

Definition payload_len_within_limit (len : Z) : result IoError Z :=
  if MAX_PAYLOAD_BYTES T <? len then Err (Custom InvalidData (PayloadTooLong len (MAX_PAYLOAD_BYTES T))) else Ok len.

Definition frame_payload_len (prefix : list Z) : result IoError Z := payload_len_within_limit (from_le prefix).

Definition encode_frame (v : T) : result IoError (list Z) :=
  payload ← ok_or (Custom OtherKind BadPostcard) (to_bytes v);
  len ← payload_len_within_limit (zlen payload);
  _ ← require (len <=? U32_MAX) (Custom OtherKind BadPostcard);
  Ok (le_bytes 4 len ++ payload).

Definition decode_frame_payload (payload : list Z) : result IoError T :=
  _ ← payload_len_within_limit (zlen payload);
  vr ← ok_or (Custom InvalidData BadPostcard) (take_from_bytes payload);
  if bool_decide (vr.2 = []) then Ok vr.1 else Err (Custom InvalidData TrailingBytes).
End Codec.

(** ** Reading *)

Inductive reading (A : Type) : Type :=
  | Got (a : A)
  | ReadExact (n : Z) (k : result IoError (list Z) → reading A).
Arguments Got {A}.
Arguments ReadExact {A}.

Section Reading.
Context {T : Type} `{!Message T}.

Definition read_payload (len : Z) : reading (result IoError (option T)) :=
  ReadExact len (λ r, Got (payload ← r; v ← decode_frame_payload payload; Ok (Some v))).

Definition read_frame : reading (result IoError (option T)) :=
  ReadExact 1 (λ r,
    match r with
    | Err e => if decide (error_kind e = UnexpectedEof) then Got (Ok None) else Got (Err e)
    | Ok first =>
        ReadExact 3 (λ r,
          match (rest ← r; frame_payload_len (first ++ rest)) with
          | Err e => Got (Err e)
          | Ok len => read_payload len
          end)
    end).
End Reading.

(** [read_exact] of a byte slice, which takes everything when it fails. *)
Definition read_exact (n : Z) (s : list Z) : result IoError (list Z) * list Z :=
  if zlen s <? n then (Err (Custom UnexpectedEof EndOfStream), []) else (Ok (take (Z.to_nat n) s), drop (Z.to_nat n) s).
Fixpoint read_from {A} (p : reading A) (s : list Z) : A * list Z :=
  match p with
  | Got a => (a, s)
  | ReadExact n k => let '(r, s) := read_exact n s in read_from (k r) s
  end.

(** Every read of the program is of at most [n] bytes. *)
Fixpoint reads_within {A} (n : Z) (p : reading A) : Prop :=
  match p with
  | Got _ => True
  | ReadExact m k => 0 ≤ m ≤ n ∧ ∀ r, (∀ bs, r = Ok bs → zlen bs = m ∧ bytes bs) → reads_within n (k r)
  end.

(** ** Laws *)

(** [received v] is what the deserializer makes of a value that was sent; the checks of the
    fields can refuse it. *)
Class MessageLaws (T : Type) `{!Message T} := {
  received : T → option T;
  max_payload_u32 : 0 ≤ MAX_PAYLOAD_BYTES T ≤ U32_MAX;
  to_bytes_bytes (v : T) bs : to_bytes v = Some bs → bytes bs;
  take_to_bytes (v : T) bs rest : to_bytes v = Some bs → take_from_bytes (bs ++ rest) = (λ v', (v', rest)) <$> received v;
}.

Section Laws.
Context {T : Type} `{!Message T, !MessageLaws T}.

Lemma read_exact_app bs s : read_exact (zlen bs) (bs ++ s) = (Ok bs, s).
Proof.
  unfold read_exact. rewrite zlen_app, (proj2 (Z.ltb_ge _ _)) by (pose proof (zlen_nonneg s); lia).
  by rewrite to_nat_zlen, take_app_length, drop_app_length.
Qed.

Lemma encode_frame_ok (v : T) f :
  encode_frame v = Ok f →
  ∃ payload, to_bytes v = Some payload ∧ f = le_bytes 4 (zlen payload) ++ payload ∧ zlen payload ≤ MAX_PAYLOAD_BYTES T.
Proof.
  unfold encode_frame, payload_len_within_limit. destruct (to_bytes v) as [payload|]; rsimpl; [|done].
  destruct (Z.ltb_spec (MAX_PAYLOAD_BYTES T) (zlen payload)); rsimpl; [done|].
  destruct (_ <=? U32_MAX); rsimpl; [|done]. intros [= <-]. eauto.
Qed.

Lemma decode_payload (v : T) payload :
  to_bytes v = Some payload → zlen payload ≤ MAX_PAYLOAD_BYTES T →
  decode_frame_payload payload = ok_or (Custom InvalidData BadPostcard) (received v).
Proof.
  intros Hv Hl. unfold decode_frame_payload, payload_len_within_limit.
  rewrite (proj2 (Z.ltb_ge _ _)) by done. rsimpl.
  pose proof (take_to_bytes v payload [] Hv) as Ht. rewrite app_nil_r in Ht. rewrite Ht.
  by destruct (received v).
Qed.

Lemma frame_payload_len_ok n : 0 ≤ n ≤ MAX_PAYLOAD_BYTES T → frame_payload_len (T := T) (le_bytes 4 n) = Ok n.
Proof.
  intros Hn. unfold frame_payload_len, payload_len_within_limit. pose proof max_payload_u32 (T := T) as Hm.
  rewrite from_le_le_bytes by (unfold U32_MAX in Hm; lia). by rewrite (proj2 (Z.ltb_ge _ _)) by lia.
Qed.

Lemma read_exact_split n (l r s : list Z) : zlen l = n → read_exact n (l ++ r ++ s) = (Ok l, r ++ s).
Proof. intros <-. apply read_exact_app. Qed.

(** One frame, whatever follows it. *)
Lemma read_frame_encoded (v : T) f rest :
  encode_frame v = Ok f →
  read_from read_frame (f ++ rest) = (Some <$> ok_or (Custom InvalidData BadPostcard) (received v), rest).
Proof.
  intros (payload & Hv & -> & Hl)%encode_frame_ok.
  pose proof (frame_payload_len_ok (zlen payload)) as Hp. pose proof (zlen_nonneg payload).
  pose proof (le_bytes_length 4 (zlen payload)) as Hb.
  destruct (le_bytes 4 (zlen payload)) as [|a prefix] eqn:E; [done|].
  assert (H3 : zlen prefix = 3) by (unfold zlen; cbn in Hb; lia).
  unfold read_frame. cbn [read_from]. change ((a :: prefix) ++ payload) with ([a] ++ prefix ++ payload).
  rewrite <- !app_assoc. rewrite (read_exact_split 1 [a]) by done. cbn [read_from].
  rewrite (read_exact_split 3) by done. rsimpl. cbn [app]. rewrite Hp by lia.
  unfold read_payload. cbn [read_from]. rewrite read_exact_app. cbn [read_from]. rsimpl.
  rewrite (decode_payload v) by done. by destruct (received v).
Qed.

Lemma read_frame_end : read_from (read_frame (T := T)) [] = (Ok None, []).
Proof. done. Qed.

(** Only the limit of the message is ever allocated, whatever length the peer claims. *)
Lemma read_frame_bounded : reads_within (Z.max 3 (MAX_PAYLOAD_BYTES T)) (read_frame (T := T)).
Proof.
  cbn. split; [lia|]. intros [first|e] H1; [|by case_decide].
  cbn. split; [lia|]. intros [rest|e] H2; rsimpl; [|done].
  destruct (H1 _ eq_refl) as [_ B1], (H2 _ eq_refl) as [_ B2].
  unfold frame_payload_len, payload_len_within_limit.
  destruct (Z.ltb_spec (MAX_PAYLOAD_BYTES T) (from_le (first ++ rest))); [done|]. cbn.
  split; [|done]. pose proof (from_le_nonneg (first ++ rest) (Forall_app_2 _ _ _ B1 B2)). lia.
Qed.

(** Frames sent one after another are read one by one, and then the end. *)
Fixpoint read_all (fuel : nat) (s : list Z) : list (result IoError T) :=
  match fuel with
  | O => []
  | S fuel => match read_from read_frame s with
              | (Ok (Some v), s) => Ok v :: read_all fuel s
              | (Ok None, _) => []
              | (Err e, _) => [Err e]
              end
  end.

Lemma read_all_encoded (vs : list T) fs :
  Forall2 (λ v f, encode_frame v = Ok f ∧ received v = Some v) vs fs →
  read_all (S (length vs)) (concat fs) = Ok <$> vs.
Proof.
  induction 1 as [|v f vs fs [Hf Hr] _ IH]; [done|].
  cbn [length]. remember (S (length vs)) as n eqn:En. cbn [read_all concat].
  rewrite (read_frame_encoded v) by done. rewrite Hr. cbn [ok_or result_fmap fmap list_fmap]. by f_equal.
Qed.
End Laws.
End Frames.
