(* ===== verification/SyncAgent.v ===== *)
(** * The agent's side of a synchronisation

    [crates/terra-agent/src/sync.rs], the service that carries out the requests of a
    synchronisation in the guest, with [hand_over] of [workload.rs] and the checks of
    [SyncRequest] in [crates/terra-protocol/src/sync.rs].

    The service is a program of calls: on the connection (whole frames, and the raw bytes
    of files), on the file system, for random numbers, time and cancellation. What a call
    answers is up to the outside, within [possible]. A loop takes a number of turns and is
    [Unfinished] after them. *)

From stdpp Require Import gmap strings.
From S2P Require Import Prelude PolicyRules SyncTree Frames.

Local Open Scope Z_scope.

Module SyncAgent.
Import Sync Frames.

Definition other (s : string) : IoError := Custom OtherKind (Text (lit s)).

(** ** Requests as they are deserialized *)

Definition deserialize_request (r : SyncRequest) : result SyncError SyncRequest :=
  match r with
  | BeginSession root => BeginSession <$> deserialize_abs_path root
  | ComputeDigest p => ComputeDigest <$> deserialize_relative_path p
  | WriteFile p size m s n =>
      p ← deserialize_relative_path p; size ← deserialize_sync_file_size size; n ← deserialize_nanos n;
      Ok (WriteFile p size m s n)
  | ReadFile p => ReadFile <$> deserialize_relative_path p
  | RCreateDir p m => p ← deserialize_relative_path p; Ok (RCreateDir p m)
  | RCreateSymlink p t => p ← deserialize_relative_path p; Ok (RCreateSymlink p t)
  | UpdateMetadata p m s n =>
      p ← deserialize_relative_path p; n ← deserialize_nanos n; Ok (UpdateMetadata p m s n)
  | RRemoveEntry p => RRemoveEntry <$> deserialize_relative_path p
  | ScanEntries | CommitFile | EndSession => Ok r
  end.
(** What a request that was read is: its fields have their types and passed the checks. *)
Definition request_ok (r : SyncRequest) : Prop :=
  ∃ r0, deserialize_request r0 = Ok r ∧
    match r0 with WriteFile _ size _ _ nanos => 0 ≤ size ∧ 0 ≤ nanos | UpdateMetadata _ _ _ nanos => 0 ≤ nanos | _ => True end.

(** Requests on the wire, with [postcard]'s reading of the fields before their checks. *)
Definition request_message (to_raw : SyncRequest → option (list Z)) (from_raw : list Z → option (SyncRequest * list Z))
    : Message SyncRequest := {|
  MAX_PAYLOAD_BYTES := 2 * MAX_SYNC_PATH_BYTES + 64;
  to_bytes := to_raw;
  take_from_bytes bs :=
    match from_raw bs with
    | Some (r, rest) => match deserialize_request r with Ok r => Some (r, rest) | Err _ => None end
    | None => None
    end;
|}.

(** ** Calls *)

Inductive FileType := TFile | TDir | TSymlink | TOther.
#[export] Instance FileType_eq_dec : EqDecision FileType.
Proof. solve_decision. Defined.
Record Metadata := mkMeta { m_type : FileType; m_len : Z; m_mode : Z; m_mtime : Z; m_nsec : Z }.

(** A handle stands for one open file. An [OpenDirectory] without a base is relative to the working
    directory; an [OpenEntry] does not follow a link; [CreateAt] is exclusive. *)
Inductive call : Type → Type :=
  | IsCancelled : call bool
  | Now : call Z
  | GetRandom : call (result IoError Z)
  | Lstat (p : str) : call (result IoError Metadata)
  | OpenDirectory (base : option Z) (p : str) (nofollow : bool) : call (result IoError Z)
  | OpenEntry (p : str) : call (result IoError Z)
  | Fstat (h : Z) : call (result IoError Metadata)
  | CreateAt (dir : Z) (name : str) (mode : Z) : call (result IoError Z)
  | SymlinkAt (target : str) (dir : Z) (name : str) : call (result IoError unit)
  | MkdirAt (dir : Z) (name : str) (mode : Z) : call (result IoError unit)
  | RenameAt (dir : Z) (old : str) (dir' : Z) (new : str) : call (result IoError unit)
  | UnlinkAt (dir : Z) (name : str) : call (result IoError unit)
  | Fchown (h : Z) : call (result IoError unit)
  | SetPermissions (h mode : Z) : call (result IoError unit)
  | SetTimes (h secs nanos : Z) : call (result IoError unit)
  | SetLen (h len : Z) : call (result IoError unit)
  | SyncAll (h : Z) : call (result IoError unit)
  | ReadHandle (h want : Z) : call (result IoError (list Z))
  | WriteHandle (h : Z) (bs : list Z) : call (result IoError unit)
  | ReadDir (p : str) : call (result IoError Z)
  | NextEntry (h : Z) : call (option (result IoError (option str)))
  | ReadLink (p : str) : call (result IoError (option str))
  | RemoveDir (p : str) : call (result IoError unit)
  | RemoveFile (p : str) : call (result IoError unit)
  | ReadRequest : call (result IoError (option SyncRequest))
  | SendReply (r : SyncReply) : call (result IoError unit)
  | ConnRead (want : Z) : call (result IoError (list Z))
  | ConnWrite (bs : list Z) : call (result IoError unit).

Definition read_some (want : Z) (r : result IoError (list Z)) : Prop :=
  match r with Ok bs => zlen bs ≤ Z.max 0 want ∧ bytes bs | Err _ => True end.
Definition possible {X} (c : call X) : X → Prop :=
  match c in call X return X → Prop with
  | ReadHandle _ want | ConnRead want => read_some want
  | ReadRequest => λ r, match r with Ok (Some q) => request_ok q | _ => True end
  | GetRandom => λ r, match r with Ok n => 0 ≤ n < 2 ^ 128 | Err _ => True end
  | Fstat _ | Lstat _ => λ r, match r with Ok m => 0 ≤ m_len m | Err _ => True end
  | NextEntry _ => λ r, match r with Some (Ok (Some name)) => component_ok name | _ => True end
  | _ => λ _, True
  end.

(** ** Programs *)

Inductive prog (A : Type) : Type :=
  | Ret (a : A)
  | Call {X} (c : call X) (k : X → prog A)
  | Unfinished.
Arguments Ret {A} a.
Arguments Call {A X} c k.
Arguments Unfinished {A}.

Fixpoint bind {A B} (p : prog A) (f : A → prog B) : prog B :=
  match p with
  | Ret a => f a
  | Call c k => Call c (λ x, bind (k x) f)
  | Unfinished => Unfinished
  end.
Definition ask {X} (c : call X) : prog X := Call c Ret.
Definition ok {E A} (a : A) : prog (result E A) := Ret (Ok a).
Definition err {E A} (e : E) : prog (result E A) := Ret (Err e).
(** [?] where the error is of the same type. *)
Definition and_then {E A B} (p : prog (result E A)) (f : A → prog (result E B)) : prog (result E B) :=
  bind p (λ r, match r with Ok a => f a | Err e => err e end).
Definition on_ok {E A B} (r : result E A) (f : A → prog (result E B)) : prog (result E B) :=
  match r with Ok a => f a | Err e => err e end.
Definition mapped {E F A} (f : E → F) (p : prog (result E A)) : prog (result F A) := bind p (λ r, Ret (map_err f r)).

Notation "x ⇐ p ; k" := (bind p (λ x, k)) (at level 20, p at level 100, k at level 200, right associativity).
Notation "x ←! p ; k" := (and_then p (λ x, k)) (at level 20, p at level 100, k at level 200, right associativity).
Notation "' x ←! p ; k" := (and_then p (λ x, match x with x => k end))
  (at level 20, x strict pattern, p at level 100, k at level 200, right associativity, only parsing).
Notation "x ←? r ; k" := (on_ok r (λ x, k)) (at level 20, r at level 100, k at level 200, right associativity).

(** ** [std::path] on absolute paths *)

(** The components from the end, without what [Path::components] leaves out there. *)
Fixpoint trim (parts : list str) : list str :=
  match parts with
  | c :: rest => if bool_decide (c = []) || bool_decide (c = dot_name) then trim rest else parts
  | [] => []
  end.
Definition back (p : str) : list str := trim (rev (split slash p)).
Definition parent (p : str) : option str :=
  match back p with
  | [] => None
  | _ :: rest => Some (match trim rest with [] => [slash] | parts => join slash (rev parts) end)
  end.
Definition file_name (p : str) : option str :=
  match back p with
  | [] => None
  | c :: _ => if bool_decide (c = dotdot_name) then None else Some c
  end.
Definition push (p c : str) : str :=
  if starts_with slash c then c else if bool_decide (p = []) || ends_with slash p then p ++ c else p ++ slash :: c.
Fixpoint ancestors_fuel (fuel : nat) (p : str) : list str :=
  match fuel with
  | O => []
  | S fuel => p :: match parent p with Some q => ancestors_fuel fuel q | None => [] end
  end.
Definition ancestors (p : str) : list str := ancestors_fuel (S (length p)) p.

(** ** Files *)

Inductive GuestUser := Root | Workload.

Definition PERMISSION_BITS : Z := 0x1ff.
Definition EEXIST : Z := 17.
Definition ELOOP : Z := 40.

Section Service.
(** What [fmt::Display] prints, the digest of [sha2], whom new entries belong to, and how
    many turns the loops take. *)
Context (display : IoError → str) (sha256 : list Z → list Z) (owner : GuestUser) (fuel : nat).

Definition ensure_not_cancelled : prog (result IoError unit) :=
  cancelled ⇐ ask IsCancelled;
  if cancelled : bool then err (Custom Interrupted (Text (lit "file transfer cancelled"))) else ok tt.

Definition open_directory (base : option Z) (p : str) (nofollow : bool) : prog (result IoError Z) :=
  ask (OpenDirectory base p nofollow).

Definition hand_over (h : Z) : prog (result IoError unit) :=
  match owner with Root => ok tt | Workload => ask (Fchown h) end.

(** [{:032x}] *)
Definition hex_digit (d : Z) : Z := if d <? 10 then 48 + d else 87 + d.
Fixpoint hex (digits : nat) (n : Z) : str :=
  match digits with
  | O => []
  | S digits => hex digits (n / 16) ++ [hex_digit (n mod 16)]
  end.
Definition temp_name (random : Z) : str := lit ".terra-put-" ++ hex 32 random.
Definition generate_random_temp_name : prog (result IoError str) :=
  random ←! ask GetRandom; ok (temp_name random).

(** *** [PendingRename] *)

Record PendingRename := mkPending { p_parent : Z; p_temp_name : str; p_destination_name : str }.

Definition create {T} (destination : str) (create_at : Z → str → prog (result IoError T))
    : prog (result IoError (PendingRename * T)) :=
  parent_path ←? ok_or (other "destination has no parent directory") (parent destination);
  destination_name ←? ok_or (other "destination has no file name") (file_name destination);
  parent ←! open_directory None parent_path true;
  temp_name ←! generate_random_temp_name;
  created ←! create_at parent temp_name;
  ok (mkPending parent temp_name destination_name, created).

(** [PendingRename::drop] of one that is not committed *)
Definition drop_pending (u : PendingRename) : prog unit :=
  _ ⇐ ask (UnlinkAt (p_parent u) (p_temp_name u)); Ret tt.

Definition commit (u : PendingRename) : prog (result IoError unit) :=
  r ⇐ ask (RenameAt (p_parent u) (p_temp_name u) (p_parent u) (p_destination_name u));
  match r with
  | Ok _ => ok tt
  | Err e => _ ⇐ drop_pending u; err e
  end.

(** *** Directories and entries *)

(** The first ancestor that exists, and the names that are missing below it. *)
Fixpoint existing_ancestor (nofollow : bool) (as_ : list str) (missing : list str) : prog (result IoError (Z * list str)) :=
  match as_ with
  | [] => err (other "no existing parent directory")
  | a :: as_ =>
      r ⇐ open_directory None a nofollow;
      match r with
      | Ok h => ok (h, missing)
      | Err e =>
          if decide (error_kind e = NotFound)
          then name ←? ok_or (other "missing parent has no name") (file_name a);
               existing_ancestor nofollow as_ (missing ++ [name])
          else err e
      end
  end.

Fixpoint create_missing (parent : Z) (names : list str) : prog (result IoError Z) :=
  match names with
  | [] => ok parent
  | name :: names =>
      r ⇐ ask (MkdirAt parent name 0x1ed);
      _ ←? match r with
           | Err e => if decide (e = Os EEXIST) then Ok tt else Err e
           | Ok _ => Ok tt
           end;
      child ←! open_directory (Some parent) name true;
      _ ←! hand_over child;
      create_missing child names
  end.

Definition open_or_create_directory (path : str) (nofollow : bool) : prog (result IoError Z) :=
  '(h, missing) ←! existing_ancestor nofollow (ancestors path) [];
  create_missing h (rev missing).

Definition ensure_directory (path : str) : prog (result IoError unit) :=
  _ ←! open_or_create_directory path false; ok tt.

Definition open_entry (p : str) : prog (result IoError Z) := ask (OpenEntry p).

Definition open_regular_file (p : str) : prog (result IoError (Z * Metadata)) :=
  file ←! open_entry p;
  meta ←! ask (Fstat file);
  if bool_decide (m_type meta = TDir) then err (other "is a directory") else
  if negb (bool_decide (m_type meta = TFile)) then err (other "not a regular file") else
  if MAX_SYNC_FILE_BYTES <? m_len meta then err (other "file is larger than the 16 GiB sync limit") else
  ok (file, meta).

(** [SystemTime::checked_add] and [checked_sub] on 64-bit seconds *)
Definition sync_file_times (seconds nanos : Z) : result IoError (Z * Z) :=
  if (- 2 ^ 63 <=? seconds) && (seconds + nanos / 1000000000 <? 2 ^ 63)
  then Ok (seconds + nanos / 1000000000, nanos mod 1000000000)
  else Err (other "modification time is outside the supported range").

Definition apply_attributes (file mode mtime_secs mtime_nanos : Z) : prog (result IoError unit) :=
  _ ←! ask (SetPermissions file (Z.land mode PERMISSION_BITS));
  times ←? sync_file_times mtime_secs mtime_nanos;
  ask (SetTimes file times.1 times.2).

Definition is_unchanged_since (file : Z) (before : Metadata) : prog bool :=
  r ⇐ ask (Fstat file);
  Ret (match r with
       | Ok after => (m_len before =? m_len after) && (m_mtime before =? m_mtime after) && (m_nsec before =? m_nsec after)
       | Err _ => false
       end).

Fixpoint stream_loop (from : Z → call (result IoError (list Z))) (to : list Z → call (result IoError unit))
    (turns : nat) (remaining : Z) : prog (result IoError unit) :=
  if remaining <=? 0 then ok tt else
  match turns with
  | O => Unfinished
  | S turns =>
      _ ←! ensure_not_cancelled;
      r ⇐ ask (from (Z.min 8192 remaining));
      match r with
      | Ok [] => err (Custom UnexpectedEof (Text (lit "premature end of file transfer stream")))
      | Ok bs =>
          _ ←! ensure_not_cancelled;
          _ ←! ask (to bs);
          stream_loop from to turns (remaining - zlen bs)
      | Err e => if decide (error_kind e = Interrupted) then stream_loop from to turns remaining else err e
      end
  end.
Definition stream_exact (from : Z → call (result IoError (list Z))) (to : list Z → call (result IoError unit)) (size : Z)
    : prog (result IoError unit) := stream_loop from to fuel size.

(** [u32::try_from(..).unwrap_or(0)] *)
Definition truncated_mtime_nanos (m : Metadata) : Z :=
  truncate_nanos (if (0 <=? m_nsec m) && (m_nsec m <=? U32_MAX) then m_nsec m else 0).

Definition read_link_target (p : str) : prog (result IoError str) :=
  target ←! ask (ReadLink p);
  on_ok (ok_or (other "non-UTF-8 symlink target") target) ok.

Definition too_large (relative_path : str) : IoError :=
  Custom OtherKind (Text (lit "file is larger than the 16 GiB sync limit: "
    ++ (if bool_decide (relative_path = []) then lit "the sync root" else relative_path))).

Definition entry_at (full relative_path : str) : prog (result IoError SyncEntry) :=
  meta ←! ask (Lstat full);
  kind ←! match m_type meta with
          | TDir => ok Directory
          | TSymlink => target ←! read_link_target full; ok (Symlink target)
          | TFile => if MAX_SYNC_FILE_BYTES <? m_len meta then err (too_large relative_path) else ok (File (m_len meta))
          | TOther => err (Custom OtherKind (Text (lit "unsupported special file: " ++ relative_path)))
          end;
  ok (mkEntry relative_path kind (Z.land (m_mode meta) PERMISSION_BITS) (m_mtime meta) (truncated_mtime_nanos meta)).

Definition inspect_root (p : str) : prog (result IoError RootStatus) :=
  r ⇐ ask (Lstat p);
  match r with
  | Ok meta =>
      match m_type meta with
      | TDir => ok ExistingDirectory
      | TSymlink => ok ExistingSymlink
      | TFile => ok ExistingFile
      | TOther => err (Custom OtherKind (Text (lit "root " ++ p ++ lit " is an unsupported file type")))
      end
  | Err e =>
      if decide (error_kind e = NotFound) then ok Missing
      else err (Custom (error_kind e) (Text (lit "inspecting root " ++ p ++ lit ": " ++ display e)))
  end.

(** ** Sessions *)

Inductive Failure := Request (e : IoError) | Session_ (e : IoError).
Record Session := mkSession { root : str; root_status : RootStatus }.

(** [?] in a function that fails with [Failure] *)
Definition try_ {A} (p : prog (result IoError A)) : prog (result Failure A) := mapped Request p.
Definition send_partial (r : SyncReply) : prog (result Failure unit) := mapped Session_ (ask (SendReply r)).

Definition begin (root : str) : prog (result IoError Session) :=
  status ←! inspect_root root; ok (mkSession root status).

Fixpoint resolve_loop (path : str) (components : list str) : prog (result IoError str) :=
  match components with
  | [] => ok path
  | component :: components =>
      r ⇐ ask (Lstat path);
      _ ←? match r with
           | Ok meta => if bool_decide (m_type meta = TDir) then Ok tt else Err (other "sync parent is not a directory")
           | Err e => if decide (error_kind e = NotFound) then Ok tt else Err e
           end;
      resolve_loop (push path component) components
  end.
Definition resolve (s : Session) (relative_path : str) : prog (result IoError str) :=
  resolve_loop (root s) (if bool_decide (relative_path = []) then [] else split slash relative_path).

Definition resolve_creating_parent (s : Session) (relative_path : str) : prog (result IoError str) :=
  path ←! resolve s relative_path;
  _ ←! match parent path with Some p => ensure_directory p | None => ok tt end;
  ok path.

(** *** Scanning *)

Definition child_path (parent_rel name : str) : str :=
  if bool_decide (parent_rel = []) then name else parent_rel ++ slash :: name.
Definition child_entry (s : Session) (parent_rel : str) (name : option str) : prog (result IoError SyncEntry) :=
  name ←? ok_or (other "non-utf8 filename encountered") name;
  let rel := child_path parent_rel name in
  entry_at (push (root s) rel) rel.

Fixpoint scan_directory (s : Session) (rel : str) (h : Z) (turns : nat) (pending : list str)
    : prog (result Failure (list str)) :=
  match turns with
  | O => Unfinished
  | S turns =>
      next ⇐ ask (NextEntry h);
      match next with
      | None => ok pending
      | Some name =>
          _ ←! try_ ensure_not_cancelled;
          name ←! try_ (Ret name);
          child ←! try_ (child_entry s rel name);
          _ ←! send_partial (Entry child);
          scan_directory s rel h turns
            (if bool_decide (kind child = Directory) then pending ++ [relative_path child] else pending)
      end
  end.

Fixpoint scan_tree (s : Session) (turns : nat) (pending : list str) : prog (result Failure unit) :=
  match pending with
  | [] => ok tt
  | rel :: pending =>
      match turns with
      | O => Unfinished
      | S turns =>
          _ ←! try_ ensure_not_cancelled;
          let full := push (root s) rel in
          h ←! mapped (λ e, Request (Custom (error_kind e) (Text (lit "reading directory " ++ full ++ lit ": " ++ display e))))
                 (ask (ReadDir full));
          pending ←! scan_directory s rel h fuel pending;
          scan_tree s turns pending
      end
  end.

Definition scan (s : Session) : prog (result Failure SyncReply) :=
  _ ←! try_ ensure_not_cancelled;
  if bool_decide (root_status s = Missing) then ok ScanComplete else
  entry ←! try_ (entry_at (root s) []);
  _ ←! send_partial (Entry entry);
  _ ←! (if bool_decide (kind entry = Directory) then scan_tree s fuel [[]] else ok tt);
  ok ScanComplete.

(** *** Digests, in milliseconds *)

Definition HASH_TIME_LIMIT : Z := 3600000.
Definition DIGEST_PROGRESS_INTERVAL : Z := 1500.

Fixpoint digest_loop (file deadline : Z) (turns : nat) (hashed : list Z) (last_report : Z)
    : prog (result Failure (list Z)) :=
  match turns with
  | O => Unfinished
  | S turns =>
      _ ←! try_ ensure_not_cancelled;
      now ⇐ ask Now;
      if (deadline <=? now) || (MAX_SYNC_FILE_BYTES <? zlen hashed)
      then err (Request (other "hashing exceeded its limit")) else
      r ⇐ ask (ReadHandle file 8192);
      match r with
      | Ok [] => ok hashed
      | Ok bs =>
          let hashed := hashed ++ bs in
          now ⇐ ask Now;
          if DIGEST_PROGRESS_INTERVAL <=? now - last_report
          then _ ←! send_partial (DigestProgress (zlen hashed));
               last_report ⇐ ask Now;
               digest_loop file deadline turns hashed last_report
          else digest_loop file deadline turns hashed last_report
      | Err e =>
          if decide (error_kind e = Interrupted) then digest_loop file deadline turns hashed last_report
          else err (Request e)
      end
  end.

Definition digest (s : Session) (relative_path : str) : prog (result Failure SyncReply) :=
  path ←! try_ (resolve s relative_path);
  '(file, before) ←! try_ (open_regular_file path);
  start ⇐ ask Now;
  last_report ⇐ ask Now;
  hashed ←! digest_loop file (start + HASH_TIME_LIMIT) fuel [] last_report;
  unchanged ⇐ is_unchanged_since file before;
  if unchanged : bool then ok (Digest (sha256 hashed)) else err (Request (other "source changed while hashing")).

(** *** Files *)

Record WriteFileMeta := mkWriteMeta { w_size : Z; w_mode : Z; w_secs : Z; w_nanos : Z }.

(** [write_file] between the creation of the temporary file and its commit. *)
Definition upload_body (file : Z) (meta : WriteFileMeta) : prog (result Failure unit) :=
  _ ←! send_partial WriteFileReady;
  _ ←! try_ (stream_exact ConnRead (WriteHandle file) (w_size meta));
  _ ←! try_ ensure_not_cancelled;
  next ←! try_ (ask ReadRequest);
  match next with
  | Some CommitFile =>
      try_ (_ ←! ensure_not_cancelled;
            _ ←! ask (SetLen file (w_size meta));
            _ ←! hand_over file;
            _ ←! apply_attributes file (w_mode meta) (w_secs meta) (w_nanos meta);
            _ ←! ask (SyncAll file);
            ensure_not_cancelled)
  | _ => err (Request (other "upload was not committed by sender"))
  end.

Definition write_file (s : Session) (relative_path : str) (meta : WriteFileMeta) : prog (result Failure SyncReply) :=
  path ←! try_ (resolve_creating_parent s relative_path);
  '(upload, file) ←! try_ (create path (λ parent name, ask (CreateAt parent name 0x180)));
  r ⇐ upload_body file meta;
  match r with
  | Ok _ => _ ←! try_ (commit upload); ok Success
  | Err f => _ ⇐ drop_pending upload; err f
  end.

Definition read_file (s : Session) (relative_path : str) : prog (result Failure SyncReply) :=
  path ←! try_ (resolve s relative_path);
  '(file, before) ←! try_ (open_regular_file path);
  _ ←! send_partial (ReadFileReady (m_len before) (Z.land (m_mode before) PERMISSION_BITS) (m_mtime before)
                      (truncated_mtime_nanos before));
  _ ←! mapped Session_ (stream_exact (ReadHandle file) ConnWrite (m_len before));
  unchanged ⇐ is_unchanged_since file before;
  if unchanged : bool then ok Success else err (Request (other "source changed while transferring")).

Definition create_directory (s : Session) (relative_path : str) (mode : Z) : prog (result Failure SyncReply) :=
  try_ (path ←! resolve_creating_parent s relative_path;
        directory ←! open_or_create_directory path true;
        _ ←! ask (SetPermissions directory (Z.lor (Z.land mode PERMISSION_BITS) 0x1c0));
        ok Success).

Definition create_symlink (s : Session) (relative_path target : str) : prog (result Failure SyncReply) :=
  try_ (path ←! resolve_creating_parent s relative_path;
        link ←! create path (λ parent name, ask (SymlinkAt target parent name));
        _ ←! commit link.1;
        ok Success).

Definition update_metadata (s : Session) (relative_path : str) (mode mtime_secs mtime_nanos : Z)
    : prog (result Failure SyncReply) :=
  try_ (path ←! resolve s relative_path;
        entry ←! mapped (λ e, if decide (e = Os ELOOP) then other "cannot update symlink metadata" else e) (open_entry path);
        _ ←! apply_attributes entry mode mtime_secs mtime_nanos;
        ok Success).

Definition remove_entry (s : Session) (relative_path : str) : prog (result Failure SyncReply) :=
  if bool_decide (relative_path = []) then err (Request (other "cannot remove session root itself")) else
  try_ (target ←! resolve s relative_path;
        meta ←! ask (Lstat target);
        _ ←! ask (if bool_decide (m_type meta = TDir) then RemoveDir target else RemoveFile target);
        ok Success).

(** ** The service *)

Definition active (session : option Session) : result IoError Session :=
  ok_or (other "sync request before BeginSession") session.

(** What a request of a session asks for. *)
Definition handle (s : Session) (request : SyncRequest) : prog (result Failure SyncReply) :=
  match request with
  | ScanEntries => scan s
  | ComputeDigest p => digest s p
  | WriteFile p size mode secs nanos => write_file s p (mkWriteMeta size mode secs nanos)
  | ReadFile p => read_file s p
  | RCreateDir p mode => create_directory s p mode
  | RCreateSymlink p target => create_symlink s p target
  | UpdateMetadata p mode secs nanos => update_metadata s p mode secs nanos
  | RRemoveEntry p => remove_entry s p
  | BeginSession _ | EndSession | CommitFile => ok Success
  end.

(** The answer to a request; the requests that need a session end the service without one. *)
Definition answer (session : option Session) (request : SyncRequest)
    : prog (result IoError (result Failure SyncReply * option Session)) :=
  match request with
  | BeginSession guest_root =>
      begun ⇐ begin guest_root;
      match begun with
      | Ok s => ok (Ok (SessionReady (root_status s)), Some s)
      | Err e => ok (Err (Request e), None)
      end
  | _ => s ←? active session;
         reply ⇐ handle s request;
         ok (reply, session)
  end.

Fixpoint serve_loop (turns : nat) (session : option Session) : prog (result IoError unit) :=
  match turns with
  | O => Unfinished
  | S turns =>
      next ←! ask ReadRequest;
      match next with
      | None => ok tt
      | Some request =>
          _ ←! ensure_not_cancelled;
          match request with
          | EndSession => ask (SendReply Success)
          | CommitFile => err (other "unexpected file commit")
          | _ =>
              '(reply, session) ←! answer session request;
              match reply with
              | Ok reply => _ ←! ask (SendReply reply); serve_loop turns session
              | Err (Request e) => _ ←! ask (SendReply (ErrReply (display e))); serve_loop turns session
              | Err (Session_ e) => err e
              end
          end
      end
  end.
Definition serve_sync_session (turns : nat) : prog (result IoError unit) :=
  _ ←! ensure_not_cancelled; serve_loop turns None.
End Service.
End SyncAgent.
