(* ===== verification/SyncService.v ===== *)
(** * What the agent's side of a synchronisation promises

    Every run of [SyncAgent.serve_sync_session] is followed by a monitor: which request is
    worked on, which paths its handles stand for, which temporary entry is pending, what
    was received and what was done. The theorems say what the service asks for in each of
    its states, whatever the outside answers. *)

From stdpp Require Import gmap strings.
From S2P Require Import Prelude PolicyRules SyncTree Frames SyncAgent.

Local Open Scope Z_scope.

Module SyncService.
Import Sync Frames SyncAgent.

(** ** Runs *)

Inductive event : Type := Ev (X : Type) (c : call X) (x : X).
Arguments Ev {X} c x.

(** A run that was observed for a while, with the result if there is one. *)
Inductive runs {A} : prog A → list event → option A → Prop :=
  | runs_stop p : runs p [] None
  | runs_ret a : runs (Ret a) [] (Some a)
  | runs_call {X} (c : call X) k x t r : possible c x → runs (k x) t r → runs (Call c k) (Ev c x :: t) r.

(** ** Paths as components *)

Definition plain (c : str) : Prop := c ≠ [] ∧ c ≠ dot_name.
#[export] Instance plain_dec c : Decision (plain c).
Proof. unfold plain. apply _. Defined.
Definition comps (p : str) : list str := filter plain (split slash p).

Lemma component_plain c : component_ok c → plain c.
Proof. intros [H1 _ H2 _]. by split. Qed.

Lemma comps_component c : component_ok c → comps c = [c].
Proof.
  intros H. unfold comps. rewrite split_absent by apply H. rewrite filter_cons_True by by apply component_plain. done.
Qed.

Lemma comps_push_any p q : starts_with slash q = false → comps (push p q) = comps p ++ comps q.
Proof.
  intros Hc. unfold push. rewrite Hc. case_bool_decide as Hp; cbn [orb]; [by subst|].
  destruct (ends_with slash p) eqn:He.
  - apply ends_with_snoc in He as [t ->]. rewrite <- app_assoc. cbn [app].
    change [slash] with (slash :: []). unfold comps. rewrite !split_app, !filter_app. cbn. by rewrite app_nil_r.
  - unfold comps. by rewrite split_app, filter_app.
Qed.
Lemma component_start c : component_ok c → starts_with slash c = false.
Proof. intros [Hn Hs _ _]. destruct c as [|a c]; [done|]. cbn. apply Z.eqb_neq. intros ->. apply Hs. left. Qed.
Lemma comps_push p c : component_ok c → comps (push p c) = comps p ++ [c].
Proof. intros Hc. rewrite comps_push_any by by apply component_start. by rewrite (comps_component c). Qed.

Lemma plain_test c : (bool_decide (c = []) || bool_decide (c = dot_name)) = bool_decide (¬ plain c).
Proof. unfold plain. repeat case_bool_decide; naive_solver. Qed.

Lemma trim_filter l : filter plain (trim l) = filter plain l.
Proof.
  induction l as [|c l IH]; [done|]. cbn [trim]. rewrite plain_test. case_bool_decide as Hc; [|done].
  by rewrite IH, filter_cons_False.
Qed.
Lemma trim_plain l c rest : trim l = c :: rest → plain c.
Proof.
  induction l as [|d l IH]; [done|]. cbn [trim]. rewrite plain_test. case_bool_decide as Hd; [done|].
  intros [= -> _]. destruct (decide (plain c)); [done|]. by destruct Hd.
Qed.
Lemma trim_Forall (P : str → Prop) l : Forall P l → Forall P (trim l).
Proof. induction 1 as [|c l Hc Hl IH]; [constructor|]. cbn [trim]. by case_match; [|constructor]. Qed.

Lemma filter_rev (l : list str) : filter plain (rev l) = rev (filter plain l).
Proof.
  induction l as [|c l IH]; [done|]. cbn [rev]. rewrite filter_app, IH, !filter_cons. cbn.
  case_decide; cbn; [done|]. by rewrite app_nil_r.
Qed.

Lemma back_comps p : filter plain (back p) = rev (comps p).
Proof. unfold back. by rewrite trim_filter, filter_rev. Qed.

Lemma comps_join ls : ls ≠ [] → Forall (λ l, slash ∉ l) ls → comps (join slash ls) = filter plain ls.
Proof. intros. unfold comps. by rewrite split_join. Qed.

Lemma back_cons p c rest : back p = c :: rest → Forall (λ l, slash ∉ l) rest ∧ rev (comps p) = c :: filter plain rest.
Proof.
  intros Hb. assert (Hf : Forall (λ l, slash ∉ l) (back p)).
  { apply trim_Forall. apply Forall_rev, split_free. }
  rewrite Hb in Hf. split; [by inversion Hf|]. rewrite <- back_comps, Hb. apply trim_plain in Hb.
  by rewrite filter_cons_True.
Qed.

Lemma parent_back p q : parent p = Some q → ∃ c rest, back p = c :: rest ∧ comps p = comps q ++ [c].
Proof.
  unfold parent. destruct (back p) as [|c rest] eqn:Hb; [done|]. intros [= <-]. exists c, rest. split; [done|].
  destruct (back_cons _ _ _ Hb) as [Hf Hc]. apply (f_equal (rev (A := str))) in Hc. rewrite rev_involutive in Hc.
  rewrite Hc. cbn [rev]. f_equal. rewrite <- trim_filter. apply trim_Forall in Hf.
  destruct (trim rest) as [|d rest'] eqn:Ht; [done|].
  change (rev rest' ++ [d]) with (rev (d :: rest')).
  rewrite comps_join; [by rewrite filter_rev| |by apply Forall_rev]. cbn [rev]. by destruct (rev rest').
Qed.

Lemma parent_comps p q : parent p = Some q → ∃ c, comps p = comps q ++ [c].
Proof. intros (c & _ & _ & H)%parent_back. eauto. Qed.

Lemma file_name_comps p c q : file_name p = Some c → parent p = Some q → comps p = comps q ++ [c].
Proof.
  intros Hf (d & rest & Hb & Hc)%parent_back. unfold file_name in Hf. rewrite Hb in Hf. by case_bool_decide; simplify_eq.
Qed.

Lemma file_name_parent p c : file_name p = Some c → is_Some (parent p).
Proof. unfold file_name, parent. destruct (back p); [done|]. eauto. Qed.

(** ** The monitor *)

(** What was done to the temporary file since it was written. *)
Inductive FileOp := OLen (n : Z) | OChown | OMode (m : Z) | OTimes (s n : Z) | OSync.

Record Temp := mkTemp { t_dir : Z; t_name : str; t_file : option Z; t_written : list Z; t_ops : list FileOp }.

(** [Receiving]: [WriteFileReady] was sent, and these bytes came. [Committing]: they are all
    there, and [CommitFile] was read. [Sending]: [ReadFileReady] was sent for so many bytes,
    and so many are out. [Refusing]: only an error can be replied. [Over]: the connection is
    done with. *)
Inductive Phase :=
  | Idle | Working | Receiving (got : list Z) | Committing (got : list Z) | Refusing
  | Sending (size sent : Z) | Over.

(** The paths of the handles say whether they were opened without following a link. *)
Record M := mkM {
  m_root : str;
  m_request : option SyncRequest;
  m_paths : list (Z * (list str * bool));
  m_checked : list (list str);
  m_temp : option Temp;
  m_mode : option Z;
  m_done : bool;
  m_phase : Phase;
}.
Definition init : M := mkM [] None [] [] None None false Idle.

Definition set_paths v σ := mkM (m_root σ) (m_request σ) v (m_checked σ) (m_temp σ) (m_mode σ) (m_done σ) (m_phase σ).
Definition set_checked v σ := mkM (m_root σ) (m_request σ) (m_paths σ) v (m_temp σ) (m_mode σ) (m_done σ) (m_phase σ).
Definition set_temp v σ := mkM (m_root σ) (m_request σ) (m_paths σ) (m_checked σ) v (m_mode σ) (m_done σ) (m_phase σ).
Definition set_mode v σ := mkM (m_root σ) (m_request σ) (m_paths σ) (m_checked σ) (m_temp σ) v (m_done σ) (m_phase σ).
Definition set_done σ := mkM (m_root σ) (m_request σ) (m_paths σ) (m_checked σ) (m_temp σ) (m_mode σ) true (m_phase σ).
Definition set_phase v σ := mkM (m_root σ) (m_request σ) (m_paths σ) (m_checked σ) (m_temp σ) (m_mode σ) (m_done σ) v.

Fixpoint assoc {V} (h : Z) (l : list (Z * V)) : option V :=
  match l with [] => None | (h', v) :: l => if h =? h' then Some v else assoc h l end.
Definition path_of (σ : M) (h : Z) : option (list str * bool) := assoc h (m_paths σ).
Definition dir_of (σ : M) (h : Z) : list str := match path_of σ h with Some (cs, _) => cs | None => [] end.

Definition relative (r : SyncRequest) : str :=
  match r with
  | ComputeDigest p | WriteFile p _ _ _ _ | ReadFile p | RCreateDir p _ | RCreateSymlink p _
  | UpdateMetadata p _ _ _ | RRemoveEntry p => p
  | BeginSession _ | ScanEntries | CommitFile | EndSession => []
  end.
Definition rel_comps (p : str) : list str := if bool_decide (p = []) then [] else split slash p.
Definition wanted (σ : M) : list str := match m_request σ with Some r => rel_comps (relative r) | None => [] end.
Definition target (σ : M) : list str := comps (m_root σ) ++ wanted σ.

(** A request that was read, to work on. *)
Definition start_request (r : SyncRequest) (σ : M) : M :=
  mkM (match r with BeginSession root => root | _ => m_root σ end) (Some r) (m_paths σ) [] None None false Working.

(** What is done to a file that is not yet in place, and to an entry. *)
Definition file_op (h : Z) (o : FileOp) (σ : M) : M :=
  match m_temp σ with
  | Some t => if bool_decide (t_file t = Some h)
              then set_temp (Some (mkTemp (t_dir t) (t_name t) (t_file t) (t_written t) (t_ops t ++ [o]))) σ else σ
  | None => match o with
            | OMode m => match m_request σ with Some (RCreateDir _ _) => set_done (set_mode (Some m) σ) | _ => set_mode (Some m) σ end
            | OTimes _ _ => set_done σ
            | _ => σ
            end
  end.

Definition replied (r : SyncReply) (σ : M) : M :=
  match r with
  | Entry _ | DigestProgress _ => σ
  | WriteFileReady => set_phase (Receiving []) σ
  | ReadFileReady size _ _ _ => set_phase (Sending size 0) σ
  | _ => set_phase Idle σ
  end.

Definition when_ok {A} (r : result IoError A) (f : A → M → M) (σ : M) : M := match r with Ok a => f a σ | Err _ => σ end.

Definition mstep {X} (c : call X) : X → M → M :=
  match c in call X return X → M → M with
  | Lstat p => λ r σ,
      if match r with Ok m => bool_decide (m_type m = TDir) | Err e => bool_decide (error_kind e = NotFound) end
      then set_checked (comps p :: m_checked σ) σ else σ
  | OpenDirectory base p nofollow => λ r σ,
      when_ok r (λ h σ, set_paths ((h, (match base with Some d => dir_of σ d ++ [p] | None => comps p end, nofollow)) :: m_paths σ) σ) σ
  | OpenEntry p => λ r σ, when_ok r (λ h σ, set_paths ((h, (comps p, true)) :: m_paths σ) σ) σ
  | CreateAt d n _ => λ r σ,
      when_ok r (λ h σ, set_temp (Some (mkTemp d n (Some h) [] [])) (set_paths ((h, (dir_of σ d ++ [n], true)) :: m_paths σ) σ)) σ
  | SymlinkAt _ d n => λ r σ, when_ok r (λ _ σ, set_temp (Some (mkTemp d n None [] [])) σ) σ
  | RenameAt _ _ _ _ => λ r σ, when_ok r (λ _ σ, set_done (set_temp None σ)) σ
  | UnlinkAt _ _ => λ _ σ, set_temp None σ
  | WriteHandle h bs => λ r σ, when_ok r (λ _ σ,
      match m_temp σ with
      | Some t => set_temp (Some (mkTemp (t_dir t) (t_name t) (t_file t) (t_written t ++ bs) (t_ops t))) σ
      | None => σ
      end) σ
  | SetLen h n => λ r σ, when_ok r (λ _, file_op h (OLen n)) σ
  | Fchown h => λ r σ, when_ok r (λ _, file_op h OChown) σ
  | SetPermissions h m => λ r σ, when_ok r (λ _, file_op h (OMode m)) σ
  | SetTimes h s n => λ r σ, when_ok r (λ _, file_op h (OTimes s n)) σ
  | SyncAll h => λ r σ, when_ok r (λ _, file_op h OSync) σ
  | RemoveDir _ | RemoveFile _ => λ r σ, when_ok r (λ _, set_done) σ
  | ReadRequest => λ r σ,
      match m_phase σ, r with
      | Idle, Ok (Some q) => start_request q σ
      | Idle, _ => set_phase Over σ
      | Receiving got, Ok (Some CommitFile) => set_phase (Committing got) σ
      | Receiving _, _ => set_phase Refusing σ
      | _, _ => σ
      end
  | SendReply r => λ x σ, match x with Ok _ => replied r σ | Err _ => set_phase Over σ end
  | ConnRead _ => λ r σ,
      match m_phase σ, r with Receiving got, Ok bs => set_phase (Receiving (got ++ bs)) σ | _, _ => σ end
  | ConnWrite bs => λ r σ,
      match m_phase σ, r with
      | Sending size sent, Ok _ => set_phase (Sending size (sent + zlen bs)) σ
      | _, Err _ => set_phase Over σ
      | _, _ => σ
      end
  | _ => λ _ σ, σ
  end.

(** *** What may be asked *)

(** The target is below the root, by names of entries, and the root and every entry
    between them were seen to be directories, or missing. *)
Definition checked (σ : M) : Prop :=
  Forall component_ok (wanted σ) ∧
  ∀ k, (k < length (wanted σ))%nat → comps (m_root σ) ++ take k (wanted σ) ∈ m_checked σ.
(** The root, or an entry below it. *)
Definition below (σ : M) (cs : list str) : Prop := ∃ rest, cs = comps (m_root σ) ++ rest ∧ Forall component_ok rest.

Definition is_temp (n : str) : Prop := ∃ r, 0 ≤ r < 2 ^ 128 ∧ n = temp_name r.
(** A directory that holds the target. *)
Definition around (σ : M) (cs : list str) : Prop := ∃ x, cs ++ [x] = target σ.
(** A handle of the target, or of a temporary entry beside it. *)
Definition own_handle (σ : M) (h : Z) : Prop :=
  ∃ cs, path_of σ h = Some (cs, true) ∧
    (cs = target σ ∨ ∃ ds n, cs = ds ++ [n] ∧ is_temp n ∧ around σ ds).
Definition temp_handle (σ : M) (h : Z) : Prop := ∃ t, m_temp σ = Some t ∧ t_file t = Some h.

(** Where the service looks and what it changes. A link is followed, if at all, when a
    directory above the target is opened by its path; the handle then serves only to make
    the directories that are missing on the way to the target. *)
Definition confined (σ : M) {X} (c : call X) : Prop :=
  match c with
  | Lstat p | ReadLink p => below σ (comps p)
  | ReadDir p => below σ (comps p) ∧ comps p ∈ m_checked σ
  | ReadHandle h _ => own_handle σ h
  | OpenDirectory None p nofollow =>
      checked σ ∧ comps p `prefix_of` target σ ∧ (nofollow = false → comps p ≠ target σ)
  | OpenDirectory (Some d) n nofollow => nofollow = true ∧ dir_of σ d ++ [n] `prefix_of` target σ
  | OpenEntry p => checked σ ∧ comps p = target σ
  | CreateAt d n _ | SymlinkAt _ d n =>
      checked σ ∧ is_temp n ∧ ∃ cs, path_of σ d = Some (cs, true) ∧ around σ cs
  | MkdirAt d n _ => checked σ ∧ dir_of σ d ++ [n] `prefix_of` target σ
  | RenameAt d o d' n => d' = d ∧ is_temp o ∧ ∃ cs, path_of σ d = Some (cs, true) ∧ cs ++ [n] = target σ
  | UnlinkAt d n => is_temp n ∧ ∃ cs, path_of σ d = Some (cs, true) ∧ around σ cs
  | Fchown h => own_handle σ h ∨ ∃ cs, path_of σ h = Some (cs, true) ∧ cs `prefix_of` target σ
  | SetPermissions h _ | SetTimes h _ _ => own_handle σ h
  | SetLen h _ | SyncAll h | WriteHandle h _ => own_handle σ h ∧ temp_handle σ h
  | RemoveDir p | RemoveFile p => checked σ ∧ comps p = target σ ∧ wanted σ ≠ []
  | _ => True
  end.

Section Guards.
Context (owner : GuestUser).

(** What was done to an uploaded file before it is put in place. *)
Definition finished (size mode secs nanos : Z) : list FileOp :=
  [OLen size] ++ match owner with Root => [] | Workload => [OChown] end ++ [OMode (Z.land mode 0x1ff); OTimes secs nanos; OSync].

Definition is_partial (r : SyncReply) : Prop :=
  match r with Entry _ | DigestProgress _ | WriteFileReady | ReadFileReady _ _ _ _ => True | _ => False end.

(** Temporary entries: made for the request, filled with what was received, put in place
    when they are complete, and otherwise removed before the request is answered. *)
Definition whole (σ : M) {X} (c : call X) : Prop :=
  match c with
  | CreateAt _ _ mode => mode = 0x180 ∧ m_temp σ = None ∧ ∃ p size m s n, m_request σ = Some (WriteFile p size m s n)
  | SymlinkAt target _ _ => m_temp σ = None ∧ ∃ p, m_request σ = Some (RCreateSymlink p target)
  | WriteHandle h bs => ∃ t got, m_temp σ = Some t ∧ t_file t = Some h ∧ t_ops t = [] ∧
      m_phase σ = Receiving got ∧ t_written t ++ bs = got
  | RenameAt d o _ _ => ∃ t, m_temp σ = Some t ∧ t_dir t = d ∧ t_name t = o ∧
      match m_request σ with
      | Some (WriteFile _ size mode secs nanos) =>
          m_phase σ = Committing (t_written t) ∧ zlen (t_written t) = size ∧ t_ops t = finished size mode secs nanos
      | Some (RCreateSymlink _ _) => t_file t = None
      | _ => False
      end
  | UnlinkAt d n => ∃ t, m_temp σ = Some t ∧ t_dir t = d ∧ t_name t = n
  | SetPermissions _ m =>
      match m_request σ with
      | Some (WriteFile _ _ mode _ _) | Some (UpdateMetadata _ mode _ _) => m = Z.land mode 0x1ff
      | Some (RCreateDir _ mode) => m = Z.lor (Z.land mode 0x1ff) 0x1c0
      | _ => False
      end
  | SetTimes _ s n =>
      match m_request σ with
      | Some (WriteFile _ _ _ secs nanos) | Some (UpdateMetadata _ _ secs nanos) => s = secs ∧ n = nanos
      | _ => False
      end
  | ReadRequest => m_phase σ = Idle → m_temp σ = None
  | SendReply r => is_partial r ∨ m_temp σ = None
  | _ => True
  end.

Definition upload_size (σ : M) : Z := match m_request σ with Some (WriteFile _ size _ _ _) => size | _ => 0 end.

(** The replies a request may get at this point. *)
Definition reply_ok (σ : M) (r : SyncReply) : Prop :=
  match m_phase σ, m_request σ with
  | Working, Some q =>
      match q, r with
      | BeginSession _, SessionReady _ | ScanEntries, (Entry _ | ScanComplete) | ComputeDigest _, (DigestProgress _ | Digest _)
      | EndSession, Success | ReadFile _, ReadFileReady _ _ _ _ => True
      | WriteFile _ _ _ _ _, WriteFileReady => ∃ t, m_temp σ = Some t
      | RCreateDir _ mode, Success => m_done σ = true ∧ m_mode σ = Some (Z.lor (Z.land mode 0x1ff) 0x1c0)
      | UpdateMetadata _ mode _ _, Success => m_done σ = true ∧ m_mode σ = Some (Z.land mode 0x1ff)
      | (RCreateSymlink _ _ | RRemoveEntry _), Success => m_done σ = true
      | (EndSession | CommitFile), ErrReply _ => False
      | _, ErrReply _ => True
      | _, _ => False
      end
  | (Receiving _ | Refusing), Some (WriteFile _ _ _ _ _) => ∃ m, r = ErrReply m
  | Committing _, Some (WriteFile _ _ _ _ _) => (∃ m, r = ErrReply m) ∨ r = Success ∧ m_done σ = true
  | Sending size sent, Some (ReadFile _) => sent = size ∧ (r = Success ∨ ∃ m, r = ErrReply m)
  | _, _ => False
  end.

(** The connection: requests are read one at a time, raw bytes only as many as were agreed
    on. *)
Definition framed (σ : M) {X} (c : call X) : Prop :=
  match c with
  | ReadRequest => m_phase σ = Idle ∨ ∃ got, m_phase σ = Receiving got ∧ zlen got = upload_size σ
  | ConnRead want => ∃ got, m_phase σ = Receiving got ∧ 0 < want ≤ upload_size σ - zlen got
  | ConnWrite bs => ∃ size sent, m_phase σ = Sending size sent ∧ sent + zlen bs ≤ size
  | SendReply r => reply_ok σ r
  | _ => True
  end.

Definition allowed (σ : M) {X} (c : call X) : Prop := confined σ c ∧ whole σ c ∧ framed σ c.

Definition opened {X} (c : call X) : X → option Z :=
  match c in call X return X → option Z with
  | OpenDirectory _ _ _ | OpenEntry _ | CreateAt _ _ _ => λ r, match r with Ok h => Some h | Err _ => None end
  | _ => λ _, None
  end.
Definition opened_by (e : event) : option Z := match e with Ev c x => opened c x end.

(** Every call of the program is allowed when it is made, and the result has [Q]. *)
Fixpoint guarded {A} (p : prog A) (σ : M) (Q : A → M → Prop) : Prop :=
  match p with
  | Ret a => Q a σ
  | Unfinished => True
  | Call c k => allowed σ c ∧
      ∀ x, possible c x → (∀ h, opened c x = Some h → path_of σ h = None) → guarded (k x) (mstep c x σ) Q
  end.

(** The guard [G] held before each event of the run. *)
Fixpoint follows (G : M → ∀ X, call X → Prop) (σ : M) (t : list event) : Prop :=
  match t with
  | [] => True
  | Ev c x :: t => G σ _ c ∧ follows G (mstep c x σ) t
  end.
Definition after (σ : M) (t : list event) : M := foldl (λ σ e, match e with Ev c x => mstep c x σ end) σ t.

Lemma guarded_impl {A} (p : prog A) σ (Q Q' : A → M → Prop) : guarded p σ Q → (∀ a σ', Q a σ' → Q' a σ') → guarded p σ Q'.
Proof. intros Hp HQ. revert σ Hp. induction p as [a|X c k IH|]; intros σ; cbn; [apply HQ| |done]. intros [H1 H2]. auto. Qed.

Lemma guarded_bind {A B} (p : prog A) (f : A → prog B) σ Q R :
  guarded p σ Q → (∀ a σ', Q a σ' → guarded (f a) σ' R) → guarded (bind p f) σ R.
Proof. intros Hp Hf. revert σ Hp. induction p as [a|X c k IH|]; intros σ; cbn; [apply Hf| |done]. intros [H1 H2]. auto. Qed.

Lemma guarded_then {E A B} (p : prog (result E A)) (f : A → prog (result E B)) σ Q R :
  guarded p σ Q → (∀ a σ', Q (Ok a) σ' → guarded (f a) σ' R) → (∀ e σ', Q (Err e) σ' → R (Err e) σ') →
  guarded (and_then p f) σ R.
Proof. intros Hp Hf He. eapply guarded_bind; [done|]. intros [a|e] σ'; [apply Hf|apply He]. Qed.

Lemma guarded_mapped {E F A} (f : E → F) (p : prog (result E A)) σ Q :
  guarded p σ (λ r, Q (map_err f r)) → guarded (mapped f p) σ Q.
Proof. intros Hp. eapply guarded_bind; [exact Hp|]. done. Qed.

Lemma guarded_mapped_then {E F A B} (f : E → F) (p : prog (result E A)) (g : A → prog (result F B)) σ Q R :
  guarded p σ Q → (∀ a σ', Q (Ok a) σ' → guarded (g a) σ' R) → (∀ e σ', Q (Err e) σ' → R (Err (f e)) σ') →
  guarded (and_then (mapped f p) g) σ R.
Proof.
  intros Hp Hg He. eapply guarded_then.
  - apply (guarded_mapped f p σ (λ r σ', ∃ r0, r = map_err f r0 ∧ Q r0 σ')). eapply guarded_impl; [done|]. eauto.
  - intros a σ' ([a'|e] & [= ->] & H). by apply Hg.
  - intros e σ' ([a'|e'] & [= ->] & H). by apply He.
Qed.

Lemma guarded_on_ok {E A B} (r : result E A) (f : A → prog (result E B)) σ (Q : result E B → M → Prop) :
  (∀ a, r = Ok a → guarded (f a) σ Q) → (∀ e, r = Err e → Q (Err e) σ) → guarded (on_ok r f) σ Q.
Proof. destruct r; cbn; auto. Qed.

(** ** What looking around leaves as it is *)

Record keeps (σ σ' : M) : Prop := {
  k_root : m_root σ' = m_root σ;
  k_request : m_request σ' = m_request σ;
  k_temp : m_temp σ' = m_temp σ;
  k_mode : m_mode σ' = m_mode σ;
  k_done : m_done σ' = m_done σ;
  k_phase : m_phase σ' = m_phase σ;
  k_checked : ∀ x, x ∈ m_checked σ → x ∈ m_checked σ';
  k_paths : ∀ h v, path_of σ h = Some v → path_of σ' h = Some v;
}.

#[local] Instance keeps_refl : Reflexive keeps.
Proof. by constructor. Qed.
#[local] Instance keeps_trans : Transitive keeps.
Proof. intros σ1 σ2 σ3 [] []. constructor; try congruence; auto. Qed.

Lemma keeps_wanted σ σ' : keeps σ σ' → wanted σ' = wanted σ.
Proof. intros K. unfold wanted. by rewrite (k_request _ _ K). Qed.
Lemma keeps_target σ σ' : keeps σ σ' → target σ' = target σ.
Proof. intros K. unfold target. by rewrite (keeps_wanted _ _ K), (k_root _ _ K). Qed.
Lemma keeps_is_checked σ σ' : keeps σ σ' → checked σ → checked σ'.
Proof.
  intros K [Hw H]. split; [by rewrite (keeps_wanted _ _ K)|]. intros k Hk.
  rewrite (keeps_wanted _ _ K), (k_root _ _ K) in *. by apply (k_checked _ _ K), H.
Qed.

Lemma keeps_set_checked σ x : keeps σ (set_checked (x :: m_checked σ) σ).
Proof. constructor; try done. cbn. intros y Hy. by right. Qed.
Lemma keeps_open σ h v : path_of σ h = None → keeps σ (set_paths ((h, v) :: m_paths σ) σ).
Proof.
  intros Hf. constructor; try done. intros h' v' Hv. unfold path_of in *. cbn.
  destruct (Z.eqb_spec h' h) as [->|]; congruence.
Qed.
Lemma path_of_open σ h v : path_of (set_paths ((h, v) :: m_paths σ) σ) h = Some v.
Proof. unfold path_of. cbn. by rewrite Z.eqb_refl. Qed.

Lemma lstat_checked σ p r :
  match r with Ok m => bool_decide (m_type m = TDir) | Err e => bool_decide (error_kind e = NotFound) end = true →
  comps p ∈ m_checked (mstep (Lstat p) r σ).
Proof. intros H. cbn. rewrite H. by left. Qed.
Lemma keeps_lstat σ p r : keeps σ (mstep (Lstat p) r σ).
Proof. cbn. case_match; [apply keeps_set_checked|reflexivity]. Qed.

(** ** Finding the target *)

#[local] Arguments mstep : simpl never.
#[local] Arguments allowed : simpl never.
#[local] Arguments drop_pending : simpl never.
#[local] Arguments ensure_not_cancelled : simpl never.
#[local] Arguments send_partial : simpl never.
#[local] Arguments is_unchanged_since : simpl never.

Lemma not_cancelled_guarded σ : guarded ensure_not_cancelled σ (λ _ σ', σ' = σ).
Proof. unfold ensure_not_cancelled. cbn. split; [done|]. by intros [] _ _. Qed.

Lemma request_components q : request_ok q → Forall component_ok (rel_comps (relative q)).
Proof.
  assert (Hv : ∀ p p', deserialize_relative_path p = Ok p' → Forall component_ok (rel_comps p')).
  { intros p p'. unfold deserialize_relative_path. rewrite bind_Ok. intros ([] & Hp & [= <-]).
    apply relative_path_spec in Hp as [->|(_ & _ & ls & Hne & Hls & ->)]; [constructor|].
    unfold rel_comps. rewrite bool_decide_eq_false_2 by by apply join_nonempty.
    by rewrite split_join by (try done; by apply components_free). }
  intros (q0 & Hq & _). destruct q0; cbn in Hq; unfold fmap, result_fmap in Hq;
    repeat match type of Hq with
      | (_ ← _; _) = Ok _ => apply bind_Ok in Hq as (? & ? & Hq)
      | match ?r with _ => _ end = Ok _ => destruct r eqn:?
      end; simplify_eq; cbn; eauto; constructor.
Qed.

Lemma resolve_loop_guarded σ0 σ path k cs :
  keeps σ0 σ → drop k (wanted σ0) = cs → Forall component_ok (wanted σ0) →
  comps path = comps (m_root σ0) ++ take k (wanted σ0) →
  (∀ j, (j < k)%nat → comps (m_root σ0) ++ take j (wanted σ0) ∈ m_checked σ) →
  guarded (resolve_loop path cs) σ
    (λ r σ', keeps σ0 σ' ∧ ∀ p, r = Ok p → checked σ' ∧ comps p = target σ0).
Proof.
  revert σ path k. induction cs as [|c cs IH]; intros σ path k K Hd Hc Hp Hch.
  { cbn. split; [done|]. intros p [= <-].
    assert (Hk : (length (wanted σ0) ≤ k)%nat).
    { apply (f_equal length) in Hd. rewrite length_drop in Hd. cbn in Hd. lia. }
    split; [|unfold target; rewrite Hp, take_ge by done; done]. split; [by rewrite (keeps_wanted _ _ K)|].
    intros j Hj. rewrite (keeps_wanted _ _ K), (k_root _ _ K) in *. apply Hch. lia. }
  assert (Hc1 : component_ok c). { pose proof (Forall_drop _ k _ Hc) as Hc'. rewrite Hd in Hc'. by inversion Hc'. }
  assert (Hl : wanted σ0 !! k = Some c). { rewrite <- (Nat.add_0_r k), <- lookup_drop, Hd. done. }
  cbn. split; [split_and!; [|done|done]|].
  { cbn. eexists. rewrite (k_root _ _ K). split; [exact Hp|by apply Forall_take]. }
  intros r _ _. set (σ1 := mstep (Lstat path) r σ).
  assert (K' : keeps σ σ1) by apply keeps_lstat.
  assert (K1 : keeps σ0 σ1) by by etrans.
  assert (Hstep : comps path ∈ m_checked σ1 →
    guarded (resolve_loop (push path c) cs) σ1 (λ r σ', keeps σ0 σ' ∧ ∀ p, r = Ok p → checked σ' ∧ comps p = target σ0)).
  { intros Hin. apply (IH _ _ (S k)); [done| |done| |].
    - by rewrite <- (Nat.add_1_r k), <- drop_drop, Hd.
    - rewrite comps_push, Hp by done. rewrite (take_S_r _ _ c) by done. by rewrite app_assoc.
    - intros j Hj. destruct (decide (j = k)) as [->|]; [by rewrite <- Hp|].
      apply (k_checked σ); [done|]. apply Hch. lia. }
  destruct r as [m|e]; cbn.
  - case_bool_decide as Hm; cbn; [|by split]. apply Hstep, lstat_checked. by apply bool_decide_eq_true_2.
  - case_decide as He; cbn; [|by split]. apply Hstep, lstat_checked. by apply bool_decide_eq_true_2.
Qed.

Lemma resolve_guarded s p σ :
  root s = m_root σ → wanted σ = rel_comps p → Forall component_ok (rel_comps p) →
  guarded (resolve s p) σ (λ r σ', keeps σ σ' ∧ ∀ path, r = Ok path → checked σ' ∧ comps path = target σ').
Proof.
  intros Hr Hw Hc. unfold resolve. fold (rel_comps p). eapply guarded_impl.
  - apply (resolve_loop_guarded σ σ (root s) 0); [reflexivity|by rewrite drop_0, Hw|by rewrite Hw| |lia].
    by rewrite Hr, take_0, app_nil_r.
  - intros r σ' [K H]. split; [done|]. rewrite (keeps_target _ _ K). done.
Qed.

(** ** Directories *)

Lemma open_directory_guarded p nofollow σ :
  checked σ → comps p `prefix_of` target σ → (nofollow = false → comps p ≠ target σ) →
  guarded (open_directory None p nofollow) σ
    (λ r σ', keeps σ σ' ∧ ∀ h, r = Ok h → path_of σ' h = Some (comps p, nofollow)).
Proof.
  intros Hc Hp Hn. cbn. split; [by split_and!|]. intros [h|e] _ Hf; cbn; [|by split].
  split; [by apply keeps_open, Hf|]. intros h' [= <-]. apply path_of_open.
Qed.

Lemma existing_ancestor_guarded nofollow f a missing T σ :
  checked σ → comps a ++ rev missing = T → T `prefix_of` target σ → (nofollow = false → T ≠ target σ) →
  guarded (existing_ancestor nofollow (ancestors_fuel f a) missing) σ
    (λ r σ', keeps σ σ' ∧ ∀ h ms, r = Ok (h, ms) → ∃ cs, path_of σ' h = Some (cs, nofollow) ∧ cs ++ rev ms = T).
Proof.
  revert a missing σ. induction f as [|f IH]; intros a missing σ Hc HT Hpre Hnf; [by split|].
  cbn [ancestors_fuel existing_ancestor]. eapply guarded_bind.
  { apply open_directory_guarded; [done|rewrite <- HT in Hpre; eapply prefix_app_l, Hpre|].
    intros Hf Ha. apply (Hnf Hf). destruct Hpre as [r Hr]. rewrite <- HT, Ha in Hr. rewrite <- app_assoc in Hr.
    rewrite <- (app_nil_r (target σ)) in Hr at 1. apply app_inv_head in Hr. symmetry in Hr. apply app_nil in Hr as [Hr _].
    by rewrite <- HT, Ha, Hr, app_nil_r. }
  intros r σ1 [K1 H1]. destruct r as [h|e]; cbn.
  { split; [done|]. intros h' ms [= <- <-]. eauto. }
  case_decide; [|by split]. apply guarded_on_ok; [|by split].
  intros name Hn%ok_or_Ok. destruct (file_name_parent _ _ Hn) as [q Hq]. rewrite Hq.
  eapply guarded_impl.
  - apply (IH q (missing ++ [name])); [by eapply keeps_is_checked| |by rewrite (keeps_target _ _ K1)..].
    rewrite rev_app_distr. cbn. rewrite cons_middle, app_assoc, <- (file_name_comps _ _ _ Hn Hq). done.
  - intros r σ2 [K2 H2]. split; [by etrans|done].
Qed.

Lemma hand_over_guarded h σ :
  (own_handle σ h ∨ ∃ cs, path_of σ h = Some (cs, true) ∧ cs `prefix_of` target σ) → m_temp σ = None →
  guarded (hand_over owner h) σ (λ _ σ', σ' = σ).
Proof.
  intros Hh Ht. unfold hand_over. destruct owner; cbn; [done|]. split; [by split_and!|].
  intros [|] _ _; cbn; [|done]. unfold mstep, when_ok, file_op. by rewrite Ht.
Qed.

Lemma create_missing_guarded names h cs b T σ :
  checked σ → m_temp σ = None → path_of σ h = Some (cs, b) → cs ++ names = T → T `prefix_of` target σ →
  guarded (create_missing owner h names) σ
    (λ r σ', keeps σ σ' ∧ ∀ h', r = Ok h' → ∃ b', path_of σ' h' = Some (T, b') ∧ (b = true → b' = true)).
Proof.
  revert h cs b σ. induction names as [|name names IH]; intros h cs b σ Hc Ht Hp HT Hpre; cbn [create_missing].
  { cbn. split; [reflexivity|]. intros h' [= <-]. rewrite app_nil_r in HT. subst. eauto. }
  assert (Hd : dir_of σ h = cs) by (unfold dir_of; by rewrite Hp).
  assert (Hn : cs ++ [name] `prefix_of` target σ).
  { rewrite <- HT, cons_middle, app_assoc in Hpre. by eapply prefix_app_l. }
  cbn. split; [split_and!; [split; [done|by rewrite Hd]|done|done]|]. intros r _ _.
  replace (mstep (MkdirAt h name 493) r σ) with σ by done.
  apply guarded_on_ok; [intros _ _|by split].
  cbn. split; [split_and!; [split; [done|by rewrite Hd]|done|done]|]. intros [h1|e] _ Hf; cbn; [|by split].
  unfold mstep, when_ok. rewrite Hd. set (σ1 := set_paths _ σ).
  assert (K1 : keeps σ σ1) by by apply keeps_open, Hf.
  assert (P1 : path_of σ1 h1 = Some (cs ++ [name], true)) by apply path_of_open.
  eapply guarded_then.
  { apply hand_over_guarded; [right; eexists; split; [exact P1|by rewrite (keeps_target _ _ K1)]|done]. }
  2: { intros e ? ->. by split. }
  intros _ ? ->. eapply guarded_impl.
  - apply (IH h1 (cs ++ [name]) true σ1); [by eapply keeps_is_checked|done|done| |by rewrite (keeps_target _ _ K1)].
    by rewrite <- app_assoc.
  - intros r' σ2 [K2 H2]. split; [by etrans|]. intros h' (b' & ? & ?)%H2. exists b'. auto.
Qed.

Lemma open_or_create_guarded p nofollow σ :
  checked σ → m_temp σ = None → comps p `prefix_of` target σ → (nofollow = false → comps p ≠ target σ) →
  guarded (open_or_create_directory owner p nofollow) σ
    (λ r σ', keeps σ σ' ∧ ∀ h, r = Ok h → ∃ b, path_of σ' h = Some (comps p, b) ∧ (nofollow = true → b = true)).
Proof.
  intros Hc Ht Hp Hn. unfold open_or_create_directory. eapply guarded_then.
  { apply (existing_ancestor_guarded nofollow _ p [] (comps p)); [done|by rewrite app_nil_r|done|done]. }
  2: { intros e σ' [K _]. by split. }
  intros [h ms] σ1 [K1 (cs & P1 & Hcs)%(λ H, H h ms eq_refl)]. eapply guarded_impl.
  - apply (create_missing_guarded _ _ cs nofollow (comps p));
      [by eapply keeps_is_checked|by rewrite (k_temp _ _ K1)|done|done|by rewrite (keeps_target _ _ K1)].
  - intros r σ2 [K2 H2]. split; [by etrans|done].
Qed.

Lemma ensure_directory_guarded p σ :
  checked σ → m_temp σ = None → comps p `prefix_of` target σ → comps p ≠ target σ →
  guarded (ensure_directory owner p) σ (λ _ σ', keeps σ σ').
Proof.
  intros Hc Ht Hp Hn. eapply guarded_then; [by apply open_or_create_guarded| |]; by intros ? ? [K _].
Qed.

Lemma resolve_creating_guarded s p σ :
  root s = m_root σ → wanted σ = rel_comps p → Forall component_ok (rel_comps p) → m_temp σ = None →
  guarded (resolve_creating_parent owner s p) σ
    (λ r σ', keeps σ σ' ∧ ∀ path, r = Ok path → checked σ' ∧ comps path = target σ').
Proof.
  intros Hr Hw Hc Ht. eapply guarded_then; [by apply resolve_guarded| |by intros e σ' [K _]; split].
  intros path σ1 [K1 [Hch Hp]%(λ H, H path eq_refl)].
  eapply (guarded_then _ _ _ (λ _ σ2, keeps σ1 σ2)); [|intros ? σ2 K2|intros e σ2 K2; split; [by etrans|done]].
  - destruct (parent path) as [q|] eqn:Hq; [|cbn; reflexivity].
    destruct (parent_comps _ _ Hq) as [c Hpc].
    apply ensure_directory_guarded; [done|by rewrite (k_temp _ _ K1)|rewrite <- Hp, Hpc; by apply prefix_app_r|].
    rewrite <- Hp, Hpc. intros H%(f_equal length). rewrite length_app in H. cbn in H. lia.
  - cbn. split; [by etrans|]. intros path' [= <-]. rewrite (keeps_target _ _ K2). split; [by eapply keeps_is_checked|done].
Qed.

(** ** Temporary entries *)

Record made (σ : M) (u : PendingRename) : Prop := {
  mk_temp : is_temp (p_temp_name u);
  mk_dir : ∃ cs, path_of σ (p_parent u) = Some (cs, true) ∧ cs ++ [p_destination_name u] = target σ;
}.

Lemma create_guarded {T} dest (create_at : Z → str → prog (result IoError T)) σ R :
  checked σ → comps dest = target σ →
  (∀ e σ', keeps σ σ' → R (Err e) σ') →
  (∀ u σ1, keeps σ σ1 → made σ1 u →
     guarded (create_at (p_parent u) (p_temp_name u)) σ1
       (λ r σ2, R (match r with Ok t => Ok (u, t) | Err e => Err e end) σ2)) →
  guarded (create dest create_at) σ R.
Proof.
  intros Hc Hd He Hr. unfold create. apply guarded_on_ok; [|intros; by apply He].
  intros q Hq%ok_or_Ok. apply guarded_on_ok; [|intros; by apply He]. intros name Hn%ok_or_Ok.
  pose proof (file_name_comps _ _ _ Hn Hq) as Hcs.
  eapply guarded_then; [apply open_directory_guarded; [done|rewrite <- Hd, Hcs; by apply prefix_app_r|done]| |].
  2: { intros e σ' [K _]. by apply He. }
  intros h σ1 [K1 P1%(λ H, H h eq_refl)]. cbn. split; [by split_and!|]. intros [rnd|e] Hrnd _; cbn; [|by apply He].
  change (mstep GetRandom (Ok rnd) σ1) with σ1.
  eapply guarded_then; [apply (Hr (mkPending h (temp_name rnd) name)); [done|]| |].
  - split; [by exists rnd|]. cbn. exists (comps q). split; [done|]. by rewrite (keeps_target _ _ K1), <- Hd.
  - by intros t σ2.
  - by intros e σ2.
Qed.

(** The state with a temporary entry, in a phase. *)
Definition up (σ : M) (u : PendingRename) (file : option Z) (w : list Z) (ops : list FileOp) (ph : Phase) : M :=
  set_phase ph (set_temp (Some (mkTemp (p_parent u) (p_temp_name u) file w ops)) σ).

Lemma drop_pending_guarded σ u file w ops ph :
  made σ u → guarded (drop_pending u) (up σ u file w ops ph) (λ _ σ', σ' = set_phase ph (set_temp None σ)).
Proof.
  intros [Ht (cs & Hp & Htg)]. unfold drop_pending. cbn. split; [|done]. split_and!; [|by eexists|done].
  split; [done|]. exists cs. split; [done|]. by exists (p_destination_name u).
Qed.

Lemma commit_guarded σ u file w ops ph :
  made σ u →
  match m_request σ with
  | Some (WriteFile _ size mode secs nanos) => ph = Committing w ∧ zlen w = size ∧ ops = finished size mode secs nanos
  | Some (RCreateSymlink _ _) => file = None
  | _ => False
  end →
  guarded (commit u) (up σ u file w ops ph)
    (λ r σ', match r with
             | Ok _ => σ' = set_done (set_phase ph (set_temp None σ))
             | Err _ => σ' = set_phase ph (set_temp None σ)
             end).
Proof.
  intros Hm Hw. pose proof Hm as [Ht (cs & Hp & Htg)]. unfold commit. cbn. split.
  { split_and!; [split_and!; [done|done|by exists cs]|by eexists|done]. }
  intros [[]|e] _ _; [done|]. eapply guarded_bind; [by apply drop_pending_guarded|]. by intros [] σ' ->.
Qed.

(** ** Uploads *)

Section Upload.
Context (σ : M) (u : PendingRename) (file : Z) (path : str) (size mode secs nanos : Z).
Hypothesis Hmade : made σ u.
Hypothesis Hreq : m_request σ = Some (WriteFile path size mode secs nanos).
Hypothesis Hfile : ∃ cs, path_of σ file = Some (cs ++ [p_temp_name u], true) ∧ around σ cs.

#[local] Abbreviation ups := (up σ u (Some file)).

Lemma own_file w ops ph : own_handle (ups w ops ph) file.
Proof.
  destruct Hfile as (cs & Hp & Ha). eexists. split; [exact Hp|]. right. exists cs, (p_temp_name u).
  split_and!; [done|apply Hmade|done].
Qed.
Lemma temp_file w ops ph : temp_handle (ups w ops ph) file.
Proof. by eexists. Qed.
Lemma file_op_up o w ops ph : file_op file o (ups w ops ph) = ups w (ops ++ [o]) ph.
Proof. unfold file_op. cbn. by rewrite bool_decide_eq_true_2. Qed.

(** A file operation that is allowed takes its place in the log. *)
Lemma file_op_guarded (c : call (result IoError unit)) o w ops ph :
  (∀ r σ', mstep c r σ' = when_ok r (λ _, file_op file o) σ') →
  allowed (ups w ops ph) c → (∀ x, opened c x = None) →
  guarded (ask c) (ups w ops ph) (λ r σ', match r with Ok _ => σ' = ups w (ops ++ [o]) ph | Err _ => σ' = ups w ops ph end).
Proof.
  intros Hs Ha Ho. cbn. split; [done|]. intros [a|e] _ _; rewrite Hs; [apply file_op_up|done].
Qed.

Lemma stream_upload turns w remaining :
  zlen w + remaining = size → 0 ≤ remaining →
  guarded (stream_loop ConnRead (WriteHandle file) turns remaining) (ups w [] (Receiving w))
    (λ r σ', match r with
             | Ok _ => ∃ w', zlen w' = size ∧ σ' = ups w' [] (Receiving w')
             | Err _ => ∃ w' got, σ' = ups w' [] (Receiving got)
             end).
Proof.
  revert w remaining. induction turns as [|turns IH]; intros w remaining Hs Hr; cbn [stream_loop].
  { destruct (Z.leb_spec remaining 0); cbn; [|done]. exists w. split; [lia|done]. }
  destruct (Z.leb_spec remaining 0); cbn [ok]; [exists w; split; [lia|done]|].
  eapply guarded_then; [apply not_cancelled_guarded| |intros e ? ->; by eexists _, _].
  intros _ ? ->. cbn. split.
  { split_and!; [done|done|]. exists w. split; [done|]. unfold upload_size. cbn. rewrite Hreq. lia. }
  intros [bs|e] Hbs _; cbn; [|].
  2: { case_decide; [by apply IH|]. by eexists _, _. }
  destruct bs as [|b bs]; [by eexists _, _|]. cbn in Hbs. set (c := b :: bs) in *. destruct Hbs as [Hbs _].
  eapply guarded_then; [apply not_cancelled_guarded| |intros e ? ->; by eexists _, _].
  intros _ ? ->. cbn. split.
  { split_and!; [split; [apply own_file|apply temp_file]|by eexists _, _|done]. }
  intros [[]|e] _ _; cbn; [|by eexists _, _]. apply (IH (w ++ c)); [rewrite zlen_app; lia|lia].
Qed.

Hypothesis Hnanos : 0 ≤ nanos < 1000000000.
Hypothesis Hsize : 0 ≤ size.

Lemma times_kept s n t : 0 ≤ n < 1000000000 → sync_file_times s n = Ok t → t = (s, n).
Proof.
  intros Hn. unfold sync_file_times. case_match; [|done]. intros [= <-].
  by rewrite Z.div_small, Z.mod_small, Z.add_0_r.
Qed.

(** What follows [CommitFile]. *)
Lemma finish_upload_guarded w :
  guarded (_ ←! ensure_not_cancelled; _ ←! ask (SetLen file size); _ ←! hand_over owner file;
           _ ←! apply_attributes file mode secs nanos; _ ←! ask (SyncAll file); ensure_not_cancelled)
    (ups w [] (Committing w))
    (λ r σ', match r with
             | Ok _ => σ' = ups w (finished size mode secs nanos) (Committing w)
             | Err _ => ∃ ops, σ' = ups w ops (Committing w)
             end).
Proof.
  eapply guarded_then; [apply not_cancelled_guarded| |intros e ? ->; by eexists]. intros _ ? ->.
  eapply guarded_then; [apply (file_op_guarded _ (OLen size)); [done| |done]| |intros e ? ->; by eexists].
  { split_and!; [split; [apply own_file|apply temp_file]|done|done]. }
  intros _ ? ->.
  eapply (guarded_then _ _ _ (λ r σ', match r with
    | Ok _ => σ' = ups w ([OLen size] ++ match owner with Root => [] | Workload => [OChown] end) (Committing w)
    | Err _ => σ' = ups w [OLen size] (Committing w) end)); [| |intros e ? ->; by eexists].
  { unfold hand_over. destruct owner; [done|]. apply (file_op_guarded _ OChown); [done| |done].
    split_and!; [left; apply own_file|done|done]. }
  intros _ ? ->. set (ops := [OLen size] ++ _).
  eapply (guarded_then _ _ _ (λ r σ', match r with
    | Ok _ => σ' = ups w (ops ++ [OMode (Z.land mode PERMISSION_BITS); OTimes secs nanos]) (Committing w)
    | Err _ => ∃ ops, σ' = ups w ops (Committing w) end)); [| |by intros e ? H].
  { unfold apply_attributes. eapply guarded_then; [apply (file_op_guarded _ (OMode (Z.land mode PERMISSION_BITS))); [done| |done]| |].
    - split_and!; [apply own_file|cbn; by rewrite Hreq|done].
    - intros _ ? ->. apply guarded_on_ok; [|by eexists]. intros t Ht. apply times_kept in Ht as ->; [|done].
      eapply guarded_impl; [apply (file_op_guarded _ (OTimes secs nanos)); [done| |done]|].
      + split_and!; [apply own_file|cbn; by rewrite Hreq|done].
      + intros [a|e] ? ->; [by rewrite <- app_assoc|by eexists].
    - intros e ? ->. by eexists. }
  intros _ ? ->. eapply guarded_then; [apply (file_op_guarded _ OSync); [done| |done]| |intros e ? ->; by eexists].
  { split_and!; [split; [apply own_file|apply temp_file]|done|done]. }
  intros _ ? ->. eapply guarded_impl; [apply not_cancelled_guarded|].
  intros [a|e] ? ->; [|by eexists]. unfold finished. subst ops. by rewrite <- !app_assoc.
Qed.

Lemma upload_body_guarded fuel :
  m_phase σ = Working →
  guarded (upload_body owner fuel file (mkWriteMeta size mode secs nanos)) (ups [] [] Working)
    (λ r σ', match r with
             | Ok _ => ∃ w, zlen w = size ∧ σ' = ups w (finished size mode secs nanos) (Committing w)
             | Err f => ∃ w ops ph, σ' = ups w ops ph ∧
                 (∀ e, f = Request e → (∃ got, ph = Receiving got) ∨ (∃ got, ph = Committing got) ∨ ph = Refusing)
             end).
Proof.
  intros Hph. unfold upload_body.
  eapply (guarded_mapped_then _ _ _ _ (λ r σ', σ' = ups [] [] (match r with Ok _ => Receiving [] | Err _ => Over end))).
  { cbn. split; [|by intros [[]|e] _ _].
    split_and!; [done|by left|]. unfold reply_ok. cbn. rewrite Hreq. by eexists. }
  2: { intros e ? ->. by eexists _, _, _. }
  intros _ ? ->. eapply guarded_mapped_then; [apply (stream_upload fuel [] size); done| |].
  2: { intros e ? (w & got & ->). eexists _, _, _. split; [done|]. naive_solver. }
  intros _ ? (w & Hw & ->). eapply guarded_mapped_then; [apply not_cancelled_guarded| |].
  2: { intros e ? ->. eexists _, _, _. split; [done|]. naive_solver. }
  intros _ ? ->.
  eapply (guarded_mapped_then _ _ _ _ (λ r σ', σ' = ups w [] (match r with Ok (Some CommitFile) => Committing w | _ => Refusing end))).
  { cbn. split; [|by intros [[[]|]|] _ _].
    split_and!; [done|done|]. right. exists w. split; [done|]. unfold upload_size. cbn. by rewrite Hreq. }
  2: { intros e ? ->. eexists _, _, _. split; [done|]. naive_solver. }
  intros next ? ->. destruct next as [[]|]; try (eexists _, _, _; split; [done|]; naive_solver).
  apply guarded_mapped. eapply guarded_impl; [apply finish_upload_guarded|].
  intros [a|e] σ' H; cbn; [by exists w|]. destruct H as [ops ->]. eexists _, _, _. split; [done|]. naive_solver.
Qed.
End Upload.

(** ** Requests *)

(** What a handler leaves: nothing pending, and a reply that may be sent. *)
Definition answered (σ : M) (r : result Failure SyncReply) (σ' : M) : Prop :=
  m_root σ' = m_root σ ∧ m_temp σ' = None ∧
  match r with
  | Ok reply => ¬ is_partial reply ∧ reply_ok σ' reply
  | Err (Request _) => ∀ m, reply_ok σ' (ErrReply m)
  | Err (Session_ _) => True
  end.

Record ready (σ : M) (q : SyncRequest) : Prop := {
  rd_request : m_request σ = Some q;
  rd_temp : m_temp σ = None;
  rd_phase : m_phase σ = Working;
}.
Lemma ready_keeps σ σ' q : keeps σ σ' → ready σ q → ready σ' q.
Proof. intros K []. constructor; by rewrite ?(k_request _ _ K), ?(k_temp _ _ K), ?(k_phase _ _ K). Qed.
Lemma ready_wanted σ q : ready σ q → wanted σ = rel_comps (relative q).
Proof. intros R. unfold wanted. by rewrite (rd_request _ _ R). Qed.

Definition session_request (q : SyncRequest) : Prop :=
  match q with EndSession | CommitFile => False | _ => True end.
Lemma ready_error σ q e : ready σ q → session_request q → reply_ok σ (ErrReply e).
Proof. intros [H1 _ H2] Hq. unfold reply_ok. rewrite H1, H2. by destruct q. Qed.
Lemma answered_error σ σ' q e : keeps σ σ' → ready σ q → session_request q → answered σ (Err (Request e)) σ'.
Proof.
  intros K R Hq. pose proof (ready_keeps _ _ _ K R) as R'. split_and!; [apply K|apply R'|].
  intros m. by eapply ready_error.
Qed.

Lemma made_keeps σ σ' u : keeps σ σ' → made σ u → made σ' u.
Proof.
  intros K [Ht (cs & Hp & Hd)]. split; [done|]. exists cs. rewrite (keeps_target _ _ K). split; [by apply K|done].
Qed.
Lemma up_intro σ u file w ops : set_temp (Some (mkTemp (p_parent u) (p_temp_name u) file w ops)) σ = up σ u file w ops (m_phase σ).
Proof. done. Qed.

(** A symbolic link or an empty file made in the place of [u]. *)
Lemma create_file_guarded σ u path size mode secs nanos :
  checked σ → made σ u → ready σ (WriteFile path size mode secs nanos) →
  guarded (ask (CreateAt (p_parent u) (p_temp_name u) 0x180)) σ
    (λ r σ', match r with
             | Ok h => ∃ σ2, keeps σ σ2 ∧ σ' = up σ2 u (Some h) [] [] Working ∧
                 (∃ cs, path_of σ2 h = Some (cs ++ [p_temp_name u], true) ∧ around σ2 cs)
             | Err _ => σ' = σ
             end).
Proof.
  intros Hc [Ht (cs & Hp & Hd)] R. cbn. split.
  { split_and!; [split_and!; [done|done|]|split_and!; [done|apply R|]|done].
    - exists cs. split; [done|]. by eexists.
    - rewrite (rd_request _ _ R). by eexists _, _, _, _, _. }
  intros [h|e] _ Hf; [|done]. unfold mstep, when_ok, dir_of. rewrite Hp, (up_intro _ u).
  eexists. split; [by apply keeps_open, Hf|]. split; [by rewrite <- (rd_phase _ _ R)|].
  exists cs. split; [apply path_of_open|]. by eexists.
Qed.

Lemma write_request_ok p size mode secs nanos :
  request_ok (WriteFile p size mode secs nanos) → 0 ≤ size ∧ 0 ≤ nanos < 1000000000.
Proof.
  intros (q0 & Hq & Hn). destruct q0; cbn in Hq; unfold fmap, result_fmap in Hq; try (repeat case_match; simplify_eq; done).
  - apply bind_Ok in Hq as (p' & _ & Hq). apply bind_Ok in Hq as (sz & Hsz & Hq).
    apply bind_Ok in Hq as (n & Hnn & [= <- <- <- <- <-]).
    unfold deserialize_sync_file_size in Hsz. case_match; simplify_eq.
    unfold deserialize_nanos, truncate_nanos, SYNC_TIMESTAMP_PRECISION_NANOS in Hnn.
    case_match eqn:Hl; simplify_eq. apply Z.leb_gt in Hl. split; [lia|].
    Z.to_euclidean_division_equations; lia.
  - by apply bind_Ok in Hq as (? & _ & ?).
  - by apply bind_Ok in Hq as (? & _ & ?).
  - apply bind_Ok in Hq as (? & _ & Hq). by apply bind_Ok in Hq as (? & _ & ?).
Qed.

Lemma write_file_guarded fuel s p size mode secs nanos σ :
  request_ok (WriteFile p size mode secs nanos) → ready σ (WriteFile p size mode secs nanos) → root s = m_root σ →
  guarded (write_file owner fuel s p (mkWriteMeta size mode secs nanos)) σ (answered σ).
Proof.
  intros Hok R Hroot. pose proof (request_components _ Hok) as Hc. cbn in Hc. apply write_request_ok in Hok as [Hsz Hn].
  unfold write_file. eapply guarded_mapped_then.
  { apply resolve_creating_guarded; [done|by rewrite (ready_wanted _ _ R)|done|apply R]. }
  2: { intros e σ1 [K _]. by eapply answered_error. }
  intros path σ1 [K1 [Hch Hp]%(λ H, H path eq_refl)]. pose proof (ready_keeps _ _ _ K1 R) as R1.
  eapply (guarded_mapped_then _ _ _ _ (λ r σ', match r with
    | Ok (u, h) => ∃ σ2, keeps σ σ2 ∧ made σ2 u ∧ σ' = up σ2 u (Some h) [] [] Working ∧
        (∃ cs, path_of σ2 h = Some (cs ++ [p_temp_name u], true) ∧ around σ2 cs)
    | Err _ => keeps σ σ' end)).
  { apply create_guarded; [done|done|by intros e σ' K; etrans|]. intros u σ2 K2 Hm.
    eapply guarded_impl; [eapply create_file_guarded; [by eapply keeps_is_checked|done|by eapply ready_keeps]|].
    intros [h|e] σ'.
    - intros (σ3 & K3 & -> & Hf). exists σ3. split_and!; [by do 2 (etrans; [done|])|by eapply made_keeps|done|done].
    - intros ->. by etrans. }
  2: { intros e σ' K. by eapply answered_error. }
  intros [u h] ? (σ2 & K2 & Hm & -> & Hf). pose proof (ready_keeps _ _ _ K2 R) as R2.
  assert (Hlast : ∀ ph m, (∃ got, ph = Receiving got) ∨ (∃ got, ph = Committing got) ∨ ph = Refusing →
    reply_ok (set_phase ph (set_temp None σ2)) (ErrReply m)).
  { intros ph m. unfold reply_ok. cbn. rewrite (rd_request _ _ R2). intros [[? ->]|[[? ->]| ->]]; eauto. }
  eapply guarded_bind.
  { eapply upload_body_guarded; [done|apply R2|done|done|done|apply R2]. }
  intros [[]|f] ?; cbn beta iota.
  - intros (w & Hw & ->). eapply guarded_mapped_then.
    { apply commit_guarded; [done|]. by rewrite (rd_request _ _ R2). }
    + intros _ ? ->. cbn. split_and!; [apply K2|done|by intros []|]. unfold reply_ok. cbn. rewrite (rd_request _ _ R2). eauto.
    + intros e ? ->. split_and!; [apply K2|done|]. intros m. apply Hlast. eauto.
  - intros (w & ops & ph & -> & Hph). eapply guarded_bind; [by apply drop_pending_guarded|].
    intros [] ? ->. split_and!; [apply K2|done|]. destruct f as [e|e]; [|done]. intros m. by apply Hlast, (Hph e).
Qed.

(** *** Reading *)

Lemma open_entry_guarded p σ :
  checked σ → comps p = target σ →
  guarded (open_entry p) σ (λ r σ', keeps σ σ' ∧ ∀ h, r = Ok h → path_of σ' h = Some (target σ, true)).
Proof.
  intros Hc Hp. cbn. split; [by split_and!|]. intros [h|e] _ Hf; cbn; [|by split].
  split; [by apply keeps_open, Hf|]. intros h' [= <-]. rewrite <- Hp. apply path_of_open.
Qed.

Lemma open_regular_guarded p σ :
  checked σ → comps p = target σ →
  guarded (open_regular_file p) σ (λ r σ', keeps σ σ' ∧ ∀ file m, r = Ok (file, m) → 0 ≤ m_len m ∧ own_handle σ' file).
Proof.
  intros Hc Hp. unfold open_regular_file. eapply guarded_then; [by apply open_entry_guarded| |by intros e σ' [K _]; split].
  intros h σ1 [K1 H1%(λ H, H h eq_refl)]. cbn. split; [by split_and!|]. intros [m|e] Hm _; cbn; [|by split].
  change (mstep (Fstat h) (Ok m) σ1) with σ1. cbn in Hm.
  repeat case_match; cbn; (split; [done|]); intros file m' [= <- <-]; try done.
  split; [done|]. exists (target σ). split; [done|]. left. by rewrite (keeps_target _ _ K1).
Qed.

Lemma unchanged_guarded file before σ : guarded (is_unchanged_since file before) σ (λ _ σ', σ' = σ).
Proof. unfold is_unchanged_since. cbn. split; [by split_and!|done]. Qed.

Lemma partial_guarded r σ :
  match r with Entry _ | DigestProgress _ => True | _ => False end → reply_ok σ r →
  guarded (ask (SendReply r)) σ (λ res σ', match res with Ok _ => σ' = σ | Err _ => σ' = set_phase Over σ end).
Proof. intros Hr Ho. cbn. split; [split_and!; [done|left; by destruct r|done]|]. intros [[]|e] _ _; [|done]. by destruct r. Qed.

(** What a program that only looks and reports leaves. *)
Definition quiet {A} (σ : M) (r : result Failure A) (σ' : M) : Prop :=
  match r with
  | Ok _ | Err (Request _) => keeps σ σ'
  | Err (Session_ _) => m_root σ' = m_root σ ∧ m_temp σ' = m_temp σ
  end.
Lemma quiet_after {A} σ σ1 (r : result Failure A) σ' : keeps σ σ1 → quiet σ1 r σ' → quiet σ r σ'.
Proof.
  intros K. destruct r as [a|[e|e]]; cbn; [by etrans|by etrans|]. by rewrite (k_root _ _ K), (k_temp _ _ K).
Qed.
Lemma quiet_over {A} σ e : quiet σ (Err (Session_ e) : result Failure A) (set_phase Over σ).
Proof. done. Qed.

Lemma digest_loop_guarded file deadline turns hashed last p σ :
  ready σ (ComputeDigest p) → own_handle σ file → guarded (digest_loop file deadline turns hashed last) σ (quiet σ).
Proof.
  intros R Ho. revert hashed last. induction turns as [|turns IH]; intros hashed last; cbn [digest_loop]; [done|].
  eapply guarded_mapped_then; [apply not_cancelled_guarded| |intros e ? ->; exact (keeps_refl σ)]. intros _ ? ->.
  cbn. split; [by split_and!|]. intros now _ _. change (mstep Now now σ) with σ. case_match; [exact (keeps_refl σ)|].
  cbn. split; [by split_and!|]. intros [bs|e] _ _; change (mstep (ReadHandle file 8192) _ σ) with σ.
  2: { case_decide; [apply IH|exact (keeps_refl σ)]. }
  destruct bs as [|b bs]; [exact (keeps_refl σ)|]. cbn. split; [by split_and!|]. intros now' _ _. change (mstep Now now' σ) with σ.
  case_match; [|apply IH]. eapply guarded_mapped_then.
  { apply partial_guarded; [done|]. unfold reply_ok. by rewrite (rd_phase _ _ R), (rd_request _ _ R). }
  2: { intros e ? ->. apply quiet_over. }
  intros _ ? ->. cbn. split; [by split_and!|]. intros now'' _ _. apply IH.
Qed.

Lemma answered_quiet {A} σ σ1 q e (f : Failure) :
  keeps σ σ1 → ready σ q → session_request q → quiet σ1 (Err f : result Failure A) e → answered σ (Err f) e.
Proof.
  intros K R Hq Hr. destruct f as [m|m]; cbn in Hr.
  - eapply answered_error; [by etrans|done|done].
  - destruct Hr as [H1 H2]. split_and!; [by rewrite H1; apply K|rewrite H2, (k_temp _ _ K); apply R|done].
Qed.

Lemma digest_guarded sha256 fuel s p σ :
  request_ok (ComputeDigest p) → ready σ (ComputeDigest p) → root s = m_root σ →
  guarded (digest sha256 fuel s p) σ (answered σ).
Proof.
  intros Hok R Hroot. pose proof (request_components _ Hok) as Hc. cbn in Hc. unfold digest.
  eapply guarded_mapped_then; [apply resolve_guarded; [done|by rewrite (ready_wanted _ _ R)|done]| |].
  2: { intros e σ1 [K _]. by eapply answered_error. }
  intros path σ1 [K1 [Hch Hp]%(λ H, H path eq_refl)].
  eapply guarded_mapped_then; [by apply open_regular_guarded| |].
  2: { intros e σ2 [K _]. eapply answered_error; [by etrans|done|done]. }
  intros [file before] σ2 [K2 [_ Ho]%(λ H, H file before eq_refl)]. assert (K : keeps σ σ2) by by etrans. pose proof (ready_keeps _ _ _ K R) as R2.
  cbn. split; [by split_and!|]. intros start _ _. split; [by split_and!|]. intros last _ _. cbn.
  change (mstep Now last (mstep Now start σ2)) with σ2.
  eapply guarded_then; [by eapply digest_loop_guarded| |intros f σ3 H; by eapply answered_quiet].
  intros hashed σ3 K3. cbn in K3. assert (K' : keeps σ σ3) by by etrans.
  eapply guarded_bind; [apply unchanged_guarded|]. intros b ? ->. pose proof (ready_keeps _ _ _ K' R) as R3.
  destruct b; cbn; [|by eapply answered_error]. split_and!; [apply K'|apply R3|by intros []|].
  unfold reply_ok. by rewrite (rd_phase _ _ R3), (rd_request _ _ R3).
Qed.

Lemma stream_download turns file size sent remaining σ :
  m_phase σ = Sending size sent → own_handle σ file → 0 ≤ remaining → sent + remaining = size →
  guarded (stream_loop (ReadHandle file) ConnWrite turns remaining) σ
    (λ r σ', m_root σ' = m_root σ ∧ m_temp σ' = m_temp σ ∧ m_request σ' = m_request σ ∧
             (∀ a, r = Ok a → m_phase σ' = Sending size size)).
Proof.
  revert sent remaining σ. induction turns as [|turns IH]; intros sent remaining σ Hph Ho Hr Hs; cbn [stream_loop].
  { destruct (Z.leb_spec remaining 0); cbn; [|done]. split_and!; try done. intros _ _. rewrite Hph. f_equal. lia. }
  destruct (Z.leb_spec remaining 0); cbn [ok].
  { split_and!; try done. intros _ _. rewrite Hph. f_equal. lia. }
  eapply guarded_then; [apply not_cancelled_guarded| |by intros e ? ->]. intros _ ? ->.
  cbn. split; [by split_and!|]. intros [bs|e] Hbs _; change (mstep (ReadHandle file _) _ σ) with σ.
  2: { case_decide; [by apply (IH sent)|done]. }
  destruct bs as [|b bs]; [done|]. set (c := b :: bs) in *. destruct Hbs as [Hbs _].
  eapply guarded_then; [apply not_cancelled_guarded| |by intros e ? ->]. intros _ ? ->.
  cbn. split; [split_and!; [done|done|eexists _, _; split; [exact Hph|lia]]|].
  intros [[]|e] _ _; cbn; unfold mstep; rewrite Hph; [|done].
  eapply guarded_impl; [apply (IH (sent + zlen c)); [done|exact Ho|lia|lia]|done].
Qed.

Lemma read_file_guarded fuel s p σ :
  request_ok (ReadFile p) → ready σ (ReadFile p) → root s = m_root σ → guarded (read_file fuel s p) σ (answered σ).
Proof.
  intros Hok R Hroot. pose proof (request_components _ Hok) as Hc. cbn in Hc. unfold read_file.
  eapply guarded_mapped_then; [apply resolve_guarded; [done|by rewrite (ready_wanted _ _ R)|done]| |].
  2: { intros e σ1 [K _]. by eapply answered_error. }
  intros path σ1 [K1 [Hch Hp]%(λ H, H path eq_refl)].
  eapply guarded_mapped_then; [by apply open_regular_guarded| |].
  2: { intros e σ2 [K _]. eapply answered_error; [by etrans|done|done]. }
  intros [file before] σ2 [K2 [Hlen Ho]%(λ H, H file before eq_refl)]. assert (K : keeps σ σ2) by by etrans.
  pose proof (ready_keeps _ _ _ K R) as R2. set (size := m_len before) in *.
  eapply (guarded_mapped_then _ _ _ _ (λ r σ', σ' = set_phase (match r with Ok _ => Sending size 0 | Err _ => Over end) σ2)).
  { cbn. split; [|by intros [[]|e] _ _]. split_and!; [done|by left|].
    cbn. unfold reply_ok. by rewrite (rd_phase _ _ R2), (rd_request _ _ R2). }
  2: { intros e ? ->. split_and!; [apply K|apply R2|done]. }
  intros _ ? ->. unfold stream_exact.
  eapply guarded_mapped_then; [by apply (stream_download fuel file size 0 size)| |].
  2: { cbn. intros e σ3 (H1 & H2 & _). split_and!; [rewrite H1; apply K|rewrite H2; apply R2|done]. }
  cbn. intros [] σ3 (H1 & H2 & H3 & H4%(λ H, H tt eq_refl)). eapply guarded_bind; [apply unchanged_guarded|].
  intros b ? ->. destruct b; cbn; (split; [rewrite H1; apply K|split; [rewrite H2; apply R2|]]).
  - split; [by intros []|]. unfold reply_ok. rewrite H4, H3, (rd_request _ _ R2). auto.
  - intros m. unfold reply_ok. rewrite H4, H3, (rd_request _ _ R2). eauto.
Qed.

(** *** Changing entries *)

Lemma create_directory_guarded s p mode σ :
  request_ok (RCreateDir p mode) → ready σ (RCreateDir p mode) → root s = m_root σ →
  guarded (create_directory owner s p mode) σ (answered σ).
Proof.
  intros Hok R Hroot. pose proof (request_components _ Hok) as Hc. cbn in Hc. apply guarded_mapped.
  eapply guarded_then; [apply resolve_creating_guarded; [done|by rewrite (ready_wanted _ _ R)|done|apply R]| |].
  2: { intros e σ1 [K _]. by eapply answered_error. }
  intros path σ1 [K1 [Hch Hp]%(λ H, H path eq_refl)].
  eapply guarded_then; [apply open_or_create_guarded; [done|rewrite (k_temp _ _ K1); apply R|by rewrite Hp|done]| |].
  2: { intros e σ2 [K _]. eapply answered_error; [by etrans|done|done]. }
  intros h σ2 [K2 (b & Hh & Hb)%(λ H, H h eq_refl)]. rewrite Hb, Hp in Hh by done.
  assert (K : keeps σ σ2) by by etrans. pose proof (ready_keeps _ _ _ K R) as R2. cbn. split.
  { split_and!; [|cbn; by rewrite (rd_request _ _ R2)|done]. exists (target σ2). rewrite (keeps_target _ _ K2). auto. }
  intros [[]|e] _ _; cbn; [|by eapply answered_error].
  unfold mstep, when_ok, file_op. rewrite (rd_temp _ _ R2), (rd_request _ _ R2).
  split_and!; [apply K|apply R2|by intros []|]. unfold reply_ok. cbn. by rewrite (rd_phase _ _ R2), (rd_request _ _ R2).
Qed.

Lemma create_symlink_guarded s p tg σ :
  request_ok (RCreateSymlink p tg) → ready σ (RCreateSymlink p tg) → root s = m_root σ →
  guarded (create_symlink owner s p tg) σ (answered σ).
Proof.
  intros Hok R Hroot. pose proof (request_components _ Hok) as Hc. cbn in Hc. apply guarded_mapped.
  eapply guarded_then; [apply resolve_creating_guarded; [done|by rewrite (ready_wanted _ _ R)|done|apply R]| |].
  2: { intros e σ1 [K _]. by eapply answered_error. }
  intros path σ1 [K1 [Hch Hp]%(λ H, H path eq_refl)].
  eapply (guarded_then _ _ _ (λ r σ', match r with
    | Ok (u, _) => ∃ σ2, keeps σ σ2 ∧ made σ2 u ∧ σ' = up σ2 u None [] [] Working
    | Err _ => keeps σ σ' end)).
  { apply create_guarded; [done|done|by intros e σ' K; etrans|]. intros u σ2 K2 Hm.
    assert (K : keeps σ σ2) by by etrans. pose proof (ready_keeps _ _ _ K R) as R2. pose proof Hm as [Ht (cs & Hd & Hx)].
    cbn. split; [split_and!; [split_and!; [by apply (keeps_is_checked σ1)|done|]|split; [apply R2|]|done]|].
    - exists cs. split; [done|]. by eexists.
    - rewrite (rd_request _ _ R2). by eexists.
    - intros [[]|e] _ _; [|done]. exists σ2. split_and!; [done|done|]. by rewrite <- (rd_phase _ _ R2). }
  2: { intros e σ' K. by eapply answered_error. }
  intros [u []] ? (σ2 & K2 & Hm & ->). pose proof (ready_keeps _ _ _ K2 R) as R2.
  eapply guarded_then; [apply commit_guarded; [done|by rewrite (rd_request _ _ R2)]|intros _ ? ->|intros e ? ->].
  - cbn. split_and!; [apply K2|done|by intros []|]. unfold reply_ok. cbn. by rewrite (rd_request _ _ R2).
  - split_and!; [apply K2|done|]. intros m. unfold reply_ok. cbn. by rewrite (rd_request _ _ R2).
Qed.

Lemma update_request_ok p mode secs nanos : request_ok (UpdateMetadata p mode secs nanos) → 0 ≤ nanos < 1000000000.
Proof.
  intros (q0 & Hq & Hn). destruct q0; cbn in Hq; unfold fmap, result_fmap in Hq; try (repeat case_match; simplify_eq; done).
  - apply bind_Ok in Hq as (? & _ & Hq). apply bind_Ok in Hq as (? & _ & Hq). by apply bind_Ok in Hq as (? & _ & ?).
  - by apply bind_Ok in Hq as (? & _ & ?).
  - by apply bind_Ok in Hq as (? & _ & ?).
  - apply bind_Ok in Hq as (p' & _ & Hq). apply bind_Ok in Hq as (n & Hnn & [= <- <- <- <-]).
    unfold deserialize_nanos, truncate_nanos, SYNC_TIMESTAMP_PRECISION_NANOS in Hnn.
    case_match eqn:Hl; simplify_eq. apply Z.leb_gt in Hl. Z.to_euclidean_division_equations; lia.
Qed.

Lemma update_metadata_guarded s p mode secs nanos σ :
  request_ok (UpdateMetadata p mode secs nanos) → ready σ (UpdateMetadata p mode secs nanos) → root s = m_root σ →
  guarded (update_metadata s p mode secs nanos) σ (answered σ).
Proof.
  intros Hok R Hroot. pose proof (request_components _ Hok) as Hc. cbn in Hc. apply update_request_ok in Hok.
  apply guarded_mapped. eapply guarded_then; [apply resolve_guarded; [done|by rewrite (ready_wanted _ _ R)|done]| |].
  2: { intros e σ1 [K _]. by eapply answered_error. }
  intros path σ1 [K1 [Hch Hp]%(λ H, H path eq_refl)].
  eapply guarded_mapped_then; [by apply open_entry_guarded| |].
  2: { intros e σ2 [K _]. eapply answered_error; [by etrans|done|done]. }
  intros h σ2 [K2 Hh%(λ H, H h eq_refl)]. assert (K : keeps σ σ2) by by etrans. pose proof (ready_keeps _ _ _ K R) as R2.
  assert (Hown : ∀ σ', path_of σ' h = path_of σ2 h → target σ' = target σ2 → own_handle σ' h).
  { intros σ' H1 H2. exists (target σ2). rewrite H1, H2, (keeps_target _ _ K2). auto. }
  unfold apply_attributes. cbn. split; [split_and!; [by apply Hown|cbn; by rewrite (rd_request _ _ R2)|done]|].
  intros [[]|e] _ _; cbn; [|by eapply answered_error].
  unfold mstep, when_ok, file_op. rewrite (rd_temp _ _ R2), (rd_request _ _ R2). set (σ3 := set_mode _ σ2).
  assert (Herr : ∀ e, answered σ (Err (Request e)) σ3).
  { intros e. split_and!; [apply K|apply R2|]. intros m. unfold reply_ok. cbn. by rewrite (rd_phase _ _ R2), (rd_request _ _ R2). }
  destruct (sync_file_times secs nanos) as [t|e] eqn:Ht; cbn; [|apply Herr]. apply times_kept in Ht as ->; [|done].
  split; [split_and!; [by apply Hown|cbn; by rewrite (rd_request _ _ R2)|done]|].
  intros [[]|e] _ _; cbn; [|apply Herr].
  unfold mstep, when_ok, file_op. cbn [m_temp m_request set_mode]. unfold σ3 at 1. cbn. rewrite (rd_temp _ _ R2).
  split_and!; [apply K|apply R2|by intros []|]. unfold reply_ok. cbn. by rewrite (rd_phase _ _ R2), (rd_request _ _ R2).
Qed.

Lemma remove_entry_guarded s p σ :
  request_ok (RRemoveEntry p) → ready σ (RRemoveEntry p) → root s = m_root σ → guarded (remove_entry s p) σ (answered σ).
Proof.
  intros Hok R Hroot. pose proof (request_components _ Hok) as Hc. cbn in Hc. unfold remove_entry.
  case_bool_decide as Hne; [eapply answered_error; [reflexivity|done|done]|]. apply guarded_mapped.
  eapply guarded_then; [apply resolve_guarded; [done|by rewrite (ready_wanted _ _ R)|done]| |].
  2: { intros e σ1 [K _]. by eapply answered_error. }
  intros path σ1 [K1 [Hch Hp]%(λ H, H path eq_refl)]. cbn. split; [split_and!; [|done|done]|].
  { cbn. exists (wanted σ1). split; [done|apply Hch]. }
  intros [m|e] _ _; cbn; [|eapply answered_error; [etrans; [done|apply keeps_lstat]|done|done]].
  set (σ2 := mstep (Lstat path) (Ok m) σ1). assert (K2 : keeps σ1 σ2) by apply keeps_lstat.
  assert (K : keeps σ σ2) by by etrans. pose proof (ready_keeps _ _ _ K R) as R2.
  assert (Hguard : checked σ2 ∧ comps path = target σ2 ∧ wanted σ2 ≠ []).
  { split_and!; [by apply (keeps_is_checked σ1)|by rewrite (keeps_target _ _ K2)|].
    rewrite (ready_wanted _ _ R2). cbn. unfold rel_comps. rewrite bool_decide_eq_false_2 by done. apply split_nonempty. }
  case_bool_decide; (split; [by split_and!|]); intros [[]|e] _ _; cbn; try by eapply answered_error.
  all: unfold mstep; cbn [when_ok]; split_and!; [apply K|apply R2|by intros []|]; unfold reply_ok; cbn; by rewrite (rd_phase _ _ R2), (rd_request _ _ R2).
Qed.

(** *** Scanning *)

Lemma entry_at_guarded full rel σ :
  below σ (comps full) →
  guarded (entry_at full rel) σ (λ r σ', keeps σ σ' ∧ ∀ e, r = Ok e →
    relative_path e = rel ∧ (kind e = Directory → comps full ∈ m_checked σ')).
Proof.
  intros Hp. unfold entry_at. cbn. split; [by split_and!|]. intros [m|e] _ _; cbn; [|by split; [apply keeps_lstat|]].
  set (σ1 := mstep (Lstat full) (Ok m) σ). assert (K1 : keeps σ σ1) by apply keeps_lstat.
  eapply (guarded_then _ _ _ (λ r σ', keeps σ σ' ∧ (r = Ok Directory → comps full ∈ m_checked σ'))).
  2: { intros k σ' [K H]. split; [done|]. intros e [= <-]. split; [done|]. cbn. intros ->. by apply H. }
  2: { by intros e σ' [K _]. }
  destruct (m_type m) eqn:Hm; [case_match; by split| |..]; cbn; [|..|by split].
  - split; [done|]. intros _. apply lstat_checked. by apply bool_decide_eq_true_2.
  - split; [split_and!; [|done|done]|by intros [[t|]|e] _ _].
    cbn. destruct Hp as (rest & Hp & Hr). exists rest. by rewrite (k_root _ _ K1).
Qed.

Lemma child_path_start parent name : starts_with slash parent = false → component_ok name → starts_with slash (child_path parent name) = false.
Proof.
  intros Hp Hn. unfold child_path. case_bool_decide; [by apply component_start|]. by destruct parent.
Qed.

Lemma child_path_comps parent name : component_ok name → comps (child_path parent name) = comps parent ++ [name].
Proof.
  intros Hn. unfold child_path. case_bool_decide as Hp; [subst; by rewrite comps_component|].
  unfold comps at 1. rewrite split_app, filter_app. by rewrite <- (comps_component name Hn).
Qed.

(** The directories that are still to be listed: below the root, and seen to be directories. *)
Definition scan_dirs (σ : M) (l : list str) : Prop :=
  Forall (λ rel, starts_with slash rel = false ∧ Forall component_ok (comps rel) ∧
                 comps (push (m_root σ) rel) ∈ m_checked σ) l.

Lemma scan_dirs_keeps σ σ' l : keeps σ σ' → scan_dirs σ l → scan_dirs σ' l.
Proof.
  intros K Hl. eapply Forall_impl; [exact Hl|]. intros rel (H1 & H2 & H3). split_and!; [done|done|]. rewrite (k_root _ _ K). by apply (k_checked _ _ K).
Qed.

Lemma child_entry_guarded s rel name σ :
  root s = m_root σ → starts_with slash rel = false → Forall component_ok (comps rel) →
  (∀ n, name = Some n → component_ok n) →
  guarded (child_entry s rel name) σ (λ r σ', keeps σ σ' ∧ ∀ e, r = Ok e → kind e = Directory → scan_dirs σ' [relative_path e]).
Proof.
  intros Hr Hrel Hcs Hname. unfold child_entry. apply guarded_on_ok; [|by split]. intros n Hn%ok_or_Ok. specialize (Hname n Hn).
  pose proof (child_path_start rel n Hrel Hname) as Hst.
  assert (Hcc : Forall component_ok (comps (child_path rel n))).
  { rewrite child_path_comps by done. apply Forall_app. by split; [|constructor]. }
  eapply guarded_impl.
  - apply entry_at_guarded. rewrite comps_push_any, Hr by done. by eexists.
  - intros r σ' [K H]. split; [done|]. intros e He Hk. destruct (H e He) as [-> Hd]. constructor; [|done].
    split_and!; [done|done|]. rewrite (k_root _ _ K), <- Hr. by apply Hd.
Qed.

Lemma scan_directory_guarded s rel h turns pending σ :
  root s = m_root σ → ready σ ScanEntries → starts_with slash rel = false → Forall component_ok (comps rel) → scan_dirs σ pending →
  guarded (scan_directory s rel h turns pending) σ (λ r σ', quiet σ r σ' ∧ ∀ l, r = Ok l → scan_dirs σ' l).
Proof.
  intros Hr R Hrel Hcs. revert pending σ Hr R. induction turns as [|turns IH]; intros pending σ Hr R Hd; [done|].
  cbn [scan_directory]. cbn. split; [by split_and!|]. intros next Hnext _. change (mstep (NextEntry h) next σ) with σ.
  destruct next as [name|]; cbn; [|split; [exact (keeps_refl σ)|by intros l [= <-]]].
  eapply guarded_mapped_then; [apply not_cancelled_guarded| |intros e ? ->; split; [exact (keeps_refl σ)|done]]. intros _ ? ->.
  destruct name as [name|e]; cbn; [|by split; [exact (keeps_refl σ)|]].
  eapply guarded_mapped_then; [apply child_entry_guarded; [done|done|done|intros n ->; exact Hnext]| |].
  2: { intros e σ' [K _]. by split. }
  intros child σ1 [K1 Hst%(λ H, H child eq_refl)]. pose proof (ready_keeps _ _ _ K1 R) as R1.
  eapply guarded_mapped_then.
  { apply partial_guarded; [done|]. unfold reply_ok. by rewrite (rd_phase _ _ R1), (rd_request _ _ R1). }
  2: { intros e ? ->. split; [by eapply quiet_after|done]. }
  intros _ ? ->. eapply guarded_impl.
  - apply IH; [by rewrite (k_root _ _ K1)|done|]. apply (scan_dirs_keeps _ _ _ K1) in Hd.
    case_bool_decide; [|done]. apply Forall_app. split; [done|by apply Hst].
  - intros r σ' [Hq Hl]. split; [by eapply quiet_after|done].
Qed.

Lemma scan_tree_guarded display fuel s turns pending σ :
  root s = m_root σ → ready σ ScanEntries → scan_dirs σ pending →
  guarded (scan_tree display fuel s turns pending) σ (quiet σ).
Proof.
  revert pending σ. induction turns as [|turns IH]; intros [|rel pending] σ Hr R Hd; cbn [scan_tree]; try exact (keeps_refl σ); [done|].
  inversion Hd as [|? ? (Hrel & Hcs & Hin) Hpend]; subst.
  eapply guarded_mapped_then; [apply not_cancelled_guarded| |intros e ? ->; exact (keeps_refl σ)]. intros _ ? ->. cbn zeta.
  eapply (guarded_mapped_then _ _ _ _ (λ _ σ', σ' = σ)).
  { cbn. split; [|done]. split_and!; [|done|done]. cbn. rewrite <- Hr in Hin. split; [|done].
    rewrite comps_push_any, Hr by done. by eexists. }
  2: { intros e ? ->. exact (keeps_refl σ). }
  intros h ? ->. eapply guarded_then; [by apply scan_directory_guarded| |intros e σ' [H _]; by destruct e].
  intros l σ1 [K1 Hl%(λ H, H l eq_refl)]. cbn in K1. eapply guarded_impl.
  - apply IH; [by rewrite (k_root _ _ K1)|by eapply ready_keeps|done].
  - intros r σ' Hq. by eapply quiet_after.
Qed.

Lemma scan_guarded display fuel s σ :
  ready σ ScanEntries → root s = m_root σ → guarded (scan display fuel s) σ (answered σ).
Proof.
  intros R Hroot. unfold scan.
  assert (Hdone : ∀ σ', keeps σ σ' → answered σ (Ok ScanComplete) σ').
  { intros σ' K. pose proof (ready_keeps _ _ _ K R) as R'. split_and!; [apply K|apply R'|by intros []|].
    unfold reply_ok. by rewrite (rd_phase _ _ R'), (rd_request _ _ R'). }
  eapply guarded_mapped_then; [apply not_cancelled_guarded| |intros e ? ->; by eapply answered_error]. intros _ ? ->.
  case_bool_decide; [by apply Hdone|].
  eapply guarded_mapped_then; [apply entry_at_guarded; exists []; by rewrite Hroot, app_nil_r| |intros e σ' [K _]; by eapply answered_error].
  intros entry σ1 [K1 [_ Hdir]%(λ H, H entry eq_refl)]. pose proof (ready_keeps _ _ _ K1 R) as R1. eapply guarded_mapped_then.
  { apply partial_guarded; [done|]. unfold reply_ok. by rewrite (rd_phase _ _ R1), (rd_request _ _ R1). }
  2: { intros e ? ->. split_and!; [apply K1|apply R1|done]. }
  intros _ ? ->. eapply (guarded_then _ _ _ (quiet σ1)).
  - case_bool_decide as Hk; [|exact (keeps_refl σ1)].
    apply scan_tree_guarded; [by rewrite (k_root _ _ K1)|done|]. constructor; [|done]. split_and!; [done|constructor|].
    rewrite (k_root _ _ K1), <- Hroot, comps_push_any by done. cbn. rewrite app_nil_r. by apply Hdir.
  - intros [] σ2 K2. apply Hdone. by etrans.
  - intros f σ2 Hq. by eapply answered_quiet.
Qed.

(** ** The service *)

Section Serve.
Context (display : IoError → str) (sha256 : list Z → list Z) (fuel : nat).

Definition is_session (q : SyncRequest) : Prop :=
  match q with BeginSession _ | EndSession | CommitFile => False | _ => True end.

Lemma handle_guarded s q σ :
  request_ok q → is_session q → ready σ q → root s = m_root σ →
  guarded (handle display sha256 owner fuel s q) σ (answered σ).
Proof.
  intros Hok Hs R Hr. destruct q; try done; cbn [handle].
  - by apply scan_guarded.
  - by apply digest_guarded.
  - by apply write_file_guarded.
  - by apply read_file_guarded.
  - by apply create_directory_guarded.
  - by apply create_symlink_guarded.
  - by apply update_metadata_guarded.
  - by apply remove_entry_guarded.
Qed.

Lemma begin_guarded root_ σ :
  ready σ (BeginSession root_) → m_root σ = root_ →
  guarded (begin display root_) σ (λ r σ', keeps σ σ' ∧ ∀ s, r = Ok s → root s = root_).
Proof.
  intros R Hr. unfold begin, inspect_root. cbn. split; [split_and!; [exists []; by rewrite Hr, app_nil_r|done|done]|].
  intros [m|e] _ _; cbn.
  - destruct (m_type m); cbn; (split; [apply keeps_lstat|]); by intros s [= <-].
  - case_decide; cbn; (split; [apply (keeps_lstat _ root_ (Err e))|]); by intros s [= <-].
Qed.

(** Between two requests. *)
Record between (σ : M) (session : option Session) : Prop := {
  bt_phase : m_phase σ = Idle;
  bt_temp : m_temp σ = None;
  bt_root : ∀ s, session = Some s → root s = m_root σ;
}.

Lemma answer_guarded σ q session :
  request_ok q → session_request q → ready σ q →
  (∀ s, session = Some s → is_session q → root s = m_root σ) →
  (∀ root_, q = BeginSession root_ → m_root σ = root_) →
  guarded (answer display sha256 owner fuel session q) σ
    (λ r σ', m_temp σ' = None ∧ ∀ reply session', r = Ok (reply, session') →
       answered σ reply σ' ∧ ∀ s, session' = Some s → root s = m_root σ).
Proof.
  intros Hok Hq R Hs Hb. assert (Hplain : is_session q →
    guarded (s ←? active session; reply ⇐ handle display sha256 owner fuel s q; ok (reply, session)) σ
      (λ r σ', m_temp σ' = None ∧ ∀ reply session', r = Ok (reply, session') →
         answered σ reply σ' ∧ ∀ s, session' = Some s → root s = m_root σ)).
  { intros Hi. apply guarded_on_ok; [|intros e _; split; [apply R|done]]. intros s ->%ok_or_Ok.
    eapply guarded_bind; [apply handle_guarded; auto|]. intros reply σ' Ha. split; [apply Ha|].
    intros reply' session' [= <- <-]. split; [done|]. intros s' [= <-]. auto. }
  destruct q; try done; try (by apply Hplain). cbn [answer].
  eapply guarded_bind; [apply begin_guarded; [done|by apply Hb]|]. intros r σ' [K Hroot].
  pose proof (ready_keeps _ _ _ K R) as R'. destruct r as [s|e]; (split; [apply R'|]); intros reply session' [= <- <-].
  - split; [|intros s' [= <-]; rewrite (Hroot s) by done; symmetry; by apply Hb].
    split_and!; [apply K|apply R'|by intros []|]. unfold reply_ok. by rewrite (rd_phase _ _ R'), (rd_request _ _ R').
  - split; [|done]. by eapply answered_error.
Qed.

Lemma reply_guarded σ r :
  m_temp σ = None → ¬ is_partial r → reply_ok σ r →
  guarded (ask (SendReply r)) σ (λ x σ', m_temp σ' = None ∧ m_root σ' = m_root σ ∧ ∀ a, x = Ok a → m_phase σ' = Idle).
Proof.
  intros Ht Hp Hr. cbn. split; [split_and!; [done|by right|done]|]. intros [[]|e] _ _; unfold mstep; cbn.
  - destruct r; cbn in *; try tauto; done.
  - split_and!; done.
Qed.

Lemma serve_loop_guarded turns σ session :
  between σ session →
  guarded (serve_loop display sha256 owner fuel turns session) σ (λ _ σ', m_temp σ' = None).
Proof.
  revert σ session. induction turns as [|turns IH]; intros σ session [Hph Ht Hroot]; cbn [serve_loop]; [done|].
  eapply (guarded_then _ _ _ (λ r σ', m_temp σ' = None ∧ ∀ q, r = Ok (Some q) → request_ok q ∧ σ' = start_request q σ));
    [| |by intros e σ' [H _]].
  { cbn. split; [split_and!; [done|by intros _|by left]|]. intros r Hr _. unfold mstep. rewrite Hph.
    destruct r as [[q|]|e]; cbn in *; (split; [done|]); intros q' [= <-]; done. }
  intros [q|] σ1 [Ht1 Hq]; [|done]. destruct (Hq q eq_refl) as [Hok ->]. clear Hq.
  eapply guarded_then; [apply not_cancelled_guarded| |by intros e ? ->]. intros _ ? ->.
  assert (R : ready (start_request q σ) q) by done.
  assert (Hfin : session_request q → guarded
    (x ←! answer display sha256 owner fuel session q;
     match x with (reply, session) =>
       match reply with
       | Ok reply => _ ←! ask (SendReply reply); serve_loop display sha256 owner fuel turns session
       | Err (Request e) => _ ←! ask (SendReply (ErrReply (display e))); serve_loop display sha256 owner fuel turns session
       | Err (Session_ e) => err e
       end
     end) (start_request q σ) (λ _ σ', m_temp σ' = None)).
  { intros Hs. eapply guarded_then; [apply answer_guarded; [done|done|done| |]| |by intros e σ' [H _]].
    - intros s -> Hi. rewrite (Hroot s) by done. by destruct q.
    - by intros root_ ->.
    - intros [reply session'] σ2 [Ht2 Ha]. destruct (Ha _ _ eq_refl) as [(Hr2 & _ & Hrep) Hs']. clear Ha.
      destruct reply as [reply|[e|e]]; [destruct Hrep as [Hnp Hrep]| |done].
      all: eapply guarded_then; [apply reply_guarded; [done|by try intros []|done || apply Hrep]| |by intros e' σ' (H & _)].
      all: intros a3 σ3 (Ht3 & Hr3 & Hp3); apply IH; split; [by eapply Hp3|done|].
      all: intros s Hs''; rewrite Hr3, Hr2; by apply Hs'. }
  destruct q; try (by apply Hfin).
  - done.
  - eapply guarded_impl; [apply reply_guarded; [done|by intros []|done]|by intros r σ' (H & _)].
Qed.

Lemma serve_guarded turns :
  guarded (serve_sync_session display sha256 owner fuel turns) init (λ _ σ', m_temp σ' = None).
Proof.
  eapply guarded_then; [apply not_cancelled_guarded| |by intros e ? ->]. intros _ ? ->. by apply serve_loop_guarded.
Qed.
End Serve.
End Guards.

(** ** From programs to runs *)

Lemma mstep_path {X} (c : call X) x σ h : path_of σ h = None → opened c x ≠ Some h → path_of (mstep c x σ) h = None.
Proof.
  intros Hp Ho.
  assert (Hopen : ∀ h' v, h ≠ h' → assoc h ((h', v) :: m_paths σ) = None).
  { intros h' v Hn. cbn. by rewrite (proj2 (Z.eqb_neq _ _) Hn). }
  unfold path_of in *. destruct c; cbn in *; unfold mstep, when_ok, file_op, replied, start_request; repeat case_match;
    simplify_eq; cbn; try done; apply Hopen; congruence.
Qed.

Lemma guarded_runs {A} owner (p : prog A) σ Q t r :
  guarded owner p σ Q → runs p t r → NoDup (omap opened_by t) → (∀ h, h ∈ omap opened_by t → path_of σ h = None) →
  follows (@allowed owner) σ t ∧ ∀ a, r = Some a → Q a (after σ t).
Proof.
  intros Hg Hr. revert σ Hg. induction Hr as [p|a|X c k x t r Hx Hr IH]; intros σ Hg Hn Hf.
  - done.
  - split; [done|]. by intros a' [= <-].
  - destruct Hg as [Ha Hg]. assert (Hfresh : ∀ h, opened c x = Some h → path_of σ h = None).
    { intros h Hh. apply Hf. cbn. rewrite Hh. by left. }
    destruct (IH _ (Hg x Hx Hfresh)) as [H1 H2]; [| |split; [by split|exact H2]].
    + cbn in Hn. destruct (opened c x); [by inversion Hn|done].
    + intros h Hh. apply mstep_path.
      * apply Hf. cbn. destruct (opened c x); [by right|done].
      * intros Ho. cbn in Hn. rewrite Ho in Hn. by inversion Hn.
Qed.

Lemma follows_impl (G G' : M → ∀ X, call X → Prop) σ t :
  (∀ σ X c, G σ X c → G' σ X c) → follows G σ t → follows G' σ t.
Proof. intros HG. revert σ. induction t as [|[X c x] t IH]; intros σ; [done|]. cbn. intros [H1 H2]. auto. Qed.

Lemma serve_follows display sha256 owner fuel turns t r :
  runs (serve_sync_session display sha256 owner fuel turns) t r → NoDup (omap opened_by t) →
  follows (@allowed owner) init t ∧ ∀ a, r = Some a → m_temp (after init t) = None.
Proof.
  intros Hr Hn. eapply (guarded_runs owner (serve_sync_session display sha256 owner fuel turns) init (λ _ σ', m_temp σ' = None));
    [apply serve_guarded|done|done|done].
Qed.

(** ** A host that answers *)

Fixpoint interp {S A} (h : ∀ X, call X → S → X * S) (p : prog A) (s : S) : list event * option A :=
  match p with
  | Ret a => ([], Some a)
  | Unfinished => ([], None)
  | Call c k =>
      let '(x, s) := h _ c s in
      let '(t, r) := interp h (k x) s in
      (Ev c x :: t, r)
  end.

Lemma interp_runs {S A} (h : ∀ X, call X → S → X * S) (p : prog A) s :
  (∀ X (c : call X) s, possible c (h X c s).1) → runs p (interp h p s).1 (interp h p s).2.
Proof.
  intros Hh. revert s. induction p as [a|X c k IH|]; intros s; cbn; [constructor| |constructor].
  pose proof (Hh X c s) as Hx. destruct (h X c s) as [x s'] eqn:E. specialize (IH x s'). cbn in Hx.
  destruct (interp h (k x) s') as [t r]. by constructor.
Qed.

(** Frames of small requests as [postcard] writes them: a variant, texts with their length,
    numbers below 64, the signed one doubled. *)
Definition demo_text (s : str) : list Z := zlen s :: s.
Definition demo_to (r : SyncRequest) : option (list Z) :=
  match r with
  | BeginSession p => Some (0 :: demo_text p)
  | WriteFile p size m s n => Some (3 :: demo_text p ++ [size; m; 2 * s; n])
  | CommitFile => Some [4]
  | RRemoveEntry p => Some (9 :: demo_text p)
  | _ => None
  end.
Definition demo_take_text (bs : list Z) : option (str * list Z) :=
  match bs with n :: bs => if zlen bs <? n then None else Some (take (Z.to_nat n) bs, drop (Z.to_nat n) bs) | [] => None end.
Definition demo_from (bs : list Z) : option (SyncRequest * list Z) :=
  match bs with
  | 0 :: bs => match demo_take_text bs with Some (p, rest) => Some (BeginSession p, rest) | None => None end
  | 3 :: bs =>
      match demo_take_text bs with
      | Some (p, size :: m :: s :: n :: rest) =>
          if (0 <=? size) && (0 <=? n) then Some (WriteFile p size m (s / 2) n, rest) else None
      | _ => None
      end
  | 4 :: rest => Some (CommitFile, rest)
  | 9 :: bs => match demo_take_text bs with Some (p, rest) => Some (RRemoveEntry p, rest) | None => None end
  | _ => None
  end.
#[local] Instance demo_message : Message SyncRequest := request_message demo_to demo_from.

Lemma demo_request_ok bs q rest : take_from_bytes bs = Some (q, rest) → request_ok q.
Proof.
  cbn. destruct (demo_from bs) as [[q0 r0]|] eqn:E; [|done]. destruct (deserialize_request q0) as [q1|] eqn:D; [|done].
  intros [= -> ->]. exists q0. split; [done|]. destruct q0; try done.
  - unfold demo_from in E. repeat case_match; simplify_eq. lia.
  - unfold demo_from in E. repeat case_match; simplify_eq.
Qed.

Lemma read_frame_request s q rest : read_from read_frame s = (Ok (Some q), rest) → request_ok q.
Proof.
  unfold read_frame. cbn [read_from]. destruct (read_exact 1 s) as [[f|e] s1]; cbn [read_from]; [|by case_decide].
  destruct (read_exact 3 s1) as [r s2]; cbn [read_from].
  destruct (rest0 ← r; frame_payload_len (f ++ rest0)) as [len|e]; cbn [read_from read_payload]; [|done].
  destruct (read_exact len s2) as [[payload|e] s3]; cbn [read_from]; rsimpl; [|done].
  destruct (decode_frame_payload payload) as [v|] eqn:E; rsimpl; [|done]. intros [= <- _].
  unfold decode_frame_payload in E. apply bind_Ok in E as (? & _ & E). apply bind_Ok in E as ([v' rest'] & Hv%ok_or_Ok & E).
  case_bool_decide; simplify_eq. by eapply demo_request_ok.
Qed.

Record Demo := mkDemo { d_input : list Z; d_next : Z }.
Definition demo_opens (s : Demo) : result IoError Z * Demo := (Ok (d_next s), mkDemo (d_input s) (d_next s + 1)).
Definition demo_done (s : Demo) : result IoError unit * Demo := (Ok tt, s).

(** A file system with directories everywhere but at names that end in [x], with a full disk
    where [full], and a connection that delivers the bytes of files one by one. *)
Definition demo_os (full : bool) (X : Type) (c : call X) : Demo → X * Demo :=
  match c in call X return Demo → X * Demo with
  | IsCancelled => λ s, (false, s)
  | Now => λ s, (0, s)
  | GetRandom => λ s, (Ok 7, s)
  | Lstat p => λ s, (Ok (mkMeta (if ends_with 120 p then TFile else TDir) 0 0x1ed 0 0), s)
  | OpenDirectory _ _ _ => demo_opens
  | OpenEntry _ => demo_opens
  | CreateAt _ _ _ => demo_opens
  | ReadDir _ => demo_opens
  | Fstat _ => λ s, (Ok (mkMeta TFile 0 0x1ed 0 0), s)
  | SymlinkAt _ _ _ => demo_done
  | MkdirAt _ _ _ => demo_done
  | RenameAt _ _ _ _ => demo_done
  | UnlinkAt _ _ => demo_done
  | Fchown _ => demo_done
  | SetPermissions _ _ => demo_done
  | SetTimes _ _ _ => demo_done
  | SetLen _ _ => demo_done
  | SyncAll _ => demo_done
  | RemoveDir _ => demo_done
  | RemoveFile _ => demo_done
  | SendReply _ => demo_done
  | ConnWrite _ => demo_done
  | ReadHandle _ _ => λ s, (Ok [], s)
  | WriteHandle _ _ => λ s, if full then (Err (Os 28), s) else demo_done s
  | NextEntry _ => λ s, (None, s)
  | ReadLink _ => λ s, (Ok None, s)
  | ReadRequest => λ s, let '(r, rest) := read_from read_frame (d_input s) in (r, mkDemo rest (d_next s))
  | ConnRead want => λ s,
      let n := Z.to_nat (Z.min 1 want) in
      if bool_decide (bytes (take n (d_input s)))
      then (Ok (take n (d_input s)), mkDemo (drop n (d_input s)) (d_next s)) else (Err (Os 5), s)
  end.

Lemma demo_possible full X (c : call X) s : possible c (demo_os full X c s).1.
Proof.
  destruct c; cbn -[read_from read_frame]; try done; try lia.
  - split; [unfold zlen; cbn; lia|constructor].
  - destruct (read_from read_frame (d_input s)) as [[[q|]|e] rest] eqn:E; cbn; try done. by eapply read_frame_request.
  - case_bool_decide as Hb; cbn; [|done]. split; [|done]. unfold zlen. rewrite length_take. lia.
Qed.

Definition demo_frame (r : SyncRequest) : list Z := match encode_frame r with Ok f => f | Err _ => [] end.
Definition demo_trace (full : bool) (input : list Z) : list event :=
  (interp (demo_os full) (serve_sync_session (λ _, []) (λ bs, bs) Workload 10 10) (mkDemo input 1)).1.
Lemma demo_service_runs full input : ∃ r, runs (serve_sync_session (λ _, []) (λ bs, bs) Workload 10 10) (demo_trace full input) r.
Proof. eexists. apply interp_runs. apply demo_possible. Qed.

(** An upload of three bytes to [f] below [/r]. *)
Definition demo_upload : list Z :=
  demo_frame (BeginSession (lit "/r")) ++ demo_frame (WriteFile (lit "f") 3 63 1 0) ++ [1; 2; 3] ++ demo_frame CommitFile.
Definition is_rename (e : event) : bool := match e with Ev (RenameAt _ _ _ _) _ => true | _ => false end.
Definition removes (p : str) (e : event) : bool :=
  match e with Ev (RemoveFile q) _ => bool_decide (p = q) | _ => false end.
Example demo_upload_renames : existsb is_rename (demo_trace false demo_upload) = true.
Proof. vm_compute. reflexivity. Qed.

(** ** What the service promises *)



(** C6. An uploaded file appears at its place at once and whole: it is renamed there only
    when it holds exactly the promised number of bytes, those that were received, in order,
    after the sender committed it, its length, owner, permission bits and times were set and
    it was flushed; a symbolic link is renamed to its place with the asked target. A
    temporary entry that is not put in place is removed before the request is answered or
    the service ends. *)
Theorem sync_uploads_whole display sha256 owner fuel turns t r :
  runs (serve_sync_session display sha256 owner fuel turns) t r → NoDup (omap opened_by t) →
  follows (λ σ X c, whole owner σ c) init t ∧ ∀ a, r = Some a → m_temp (after init t) = None.
Proof.
  intros Hr Hn. destruct (serve_follows _ _ _ _ _ _ _ Hr Hn) as [H1 H2]. split; [|done].
  eapply follows_impl; [|exact H1]. by intros σ X c (_ & H & _).
Qed.

Lemma sync_uploads_whole_witness :
  existsb is_rename (demo_trace false demo_upload) = true ∧
  follows (λ σ X c, whole Workload σ c) init (demo_trace false demo_upload).
Proof.
  split; [vm_compute; reflexivity|]. destruct (demo_service_runs false demo_upload) as [r Hr].
  apply (sync_uploads_whole _ _ _ _ _ _ _ Hr). apply (bool_decide_unpack _). vm_compute. exact I.
Defined.

(** C20. The service keeps to the protocol: it reads the next request only after it closed
    the last one with exactly one reply of its kind; it reports success only after the
    change took place with the asked mode and times; it receives raw bytes only after
    [WriteFileReady] and at most as many as were announced, sends them only after
    [ReadFileReady] and closes that request only after exactly as many as it announced. *)
Theorem sync_replies_framed display sha256 owner fuel turns t r :
  runs (serve_sync_session display sha256 owner fuel turns) t r → NoDup (omap opened_by t) →
  follows (λ σ X c, framed σ c) init t.
Proof. intros Hr Hn. eapply follows_impl; [|by eapply serve_follows]. by intros σ X c (_ & _ & H). Qed.

Lemma sync_replies_framed_witness : follows (λ σ X c, framed σ c) init (demo_trace false demo_upload).
Proof.
  destruct (demo_service_runs false demo_upload) as [r Hr]. apply (sync_replies_framed _ _ _ _ _ _ _ Hr).
  apply (bool_decide_unpack _). vm_compute. exact I.
Defined.

(** An upload that fails in the guest, here because its disk is full, is refused by a reply
    and the session goes on, although the rest of the file is still on the connection: what
    the file contains is then read as requests. Here the host sends one file whose contents
    are the bytes of a [RemoveEntry] request, and the service removes an entry. *)
Theorem failed_upload_runs_file_data :
  let file := 0 :: demo_frame (RRemoveEntry (lit "x")) in
  let sent := demo_frame (BeginSession (lit "/r")) ++ demo_frame (WriteFile (lit "f") (zlen file) 63 1 0) ++ file in
  existsb (removes (lit "/r/x")) (demo_trace true sent) = true ∧ existsb (removes (lit "/r/x")) (demo_trace false sent) = false.
Proof. vm_compute. by split. Qed.
End SyncService.
