(* ===== verification/SyncScan.v ===== *)
(** * The manifest of a guest tree

    A scan from end to end: [scan] of [crates/terra-agent/src/sync.rs] walks a tree of the
    guest, and [scan_guest_entries] of [crates/terra/src/cmd/sync/scan.rs] makes a manifest
    of what it sends. The file system is any tree that does not change meanwhile. *)

From stdpp Require Import gmap strings sorting.
From S2P Require Import Prelude PolicyRules SyncTree Frames SyncAgent SyncService.

Local Open Scope Z_scope.

Module SyncScan.
Import Sync Frames SyncAgent.
Import SyncService (comps, comps_push_any, comps_component, component_start).

(** ** Trees *)

Inductive tree : Type := Node (m : Metadata) (link : str) (ch : list (str * tree)).
Definition meta (T : tree) : Metadata := match T with Node m _ _ => m end.
Definition link (T : tree) : str := match T with Node _ l _ => l end.
Definition children (T : tree) : list (str * tree) := match T with Node _ _ ch => ch end.

Lemma tree_rect' (P : tree → Prop) :
  (∀ m l ch, Forall (λ nc, P nc.2) ch → P (Node m l ch)) → ∀ T, P T.
Proof.
  intros H. fix IH 1. intros [m l ch]. apply H. induction ch as [|[n c] ch IHch]; constructor; [apply IH|exact IHch].
Qed.

Fixpoint child (n : str) (ch : list (str * tree)) : option tree :=
  match ch with [] => None | (n', c) :: ch => if bool_decide (n = n') then Some c else child n ch end.
Fixpoint find (T : tree) (cs : list str) : option tree :=
  match cs with
  | [] => Some T
  | c :: cs => match child c (children T) with Some T => find T cs | None => None end
  end.

(** All entries with their paths. *)
Fixpoint nodes (cs : list str) (T : tree) : list (list str * tree) :=
  match T with
  | Node m l ch => (cs, T) :: (fix go ch := match ch with [] => [] | (n, c) :: ch => nodes (cs ++ [n]) c ++ go ch end) ch
  end.
Definition below (x : list str * tree) : list (list str * tree) :=
  concat ((λ nc, nodes (x.1 ++ [nc.1]) nc.2) <$> children x.2).
Definition level (x : list str * tree) : list (list str * tree) := (λ nc, (x.1 ++ [nc.1], nc.2)) <$> children x.2.

(** What a file system can hold, with the limits of a synchronisation. *)
Inductive wf : tree → Prop :=
  | wf_node m l ch :
      m_type m ≠ TOther → 0 ≤ m_len m → (m_type m = TFile → m_len m ≤ MAX_SYNC_FILE_BYTES) →
      0 ≤ m_nsec m < 1000000000 → (m_type m ≠ TDir → ch = []) → NoDup ch.*1 →
      Forall (λ nc, component_ok nc.1 ∧ (0 ∉ nc.1) ∧ wf nc.2) ch → wf (Node m l ch).

Definition kind_of (T : tree) : SyncEntryKind :=
  match m_type (meta T) with TFile => File (m_len (meta T)) | TSymlink => Symlink (link T) | _ => Directory end.
Definition entry_of (x : list str * tree) : SyncEntry :=
  let m := meta x.2 in
  mkEntry (join slash x.1) (kind_of x.2) (Z.land (m_mode m) PERMISSION_BITS) (m_mtime m) (truncated_mtime_nanos m).

(** *** The file system of a tree *)

Record Disk := mkDisk { o_next : Z; o_dirs : list (Z * list str); o_sent : list SyncReply }.

Section Tree.
Context (root_ : str) (T : tree).

Definition at_path (p : str) : option tree :=
  let rc := comps root_ in
  if bool_decide (take (length rc) (comps p) = rc) then find T (drop (length rc) (comps p)) else None.
Definition on_path {A} (p : str) (f : tree → A) : result IoError A :=
  match at_path p with Some N => Ok (f N) | None => Err (Os ENOENT) end.

Definition next_name (h : Z) (s : Disk) : option (result IoError (option str)) * Disk :=
  match SyncService.assoc h (o_dirs s) with
  | Some (n :: ns) => (Some (Ok (Some n)), mkDisk (o_next s) ((h, ns) :: o_dirs s) (o_sent s))
  | _ => (None, s)
  end.

Definition tree_os (X : Type) (c : call X) : Disk → X * Disk :=
  match c in call X return Disk → X * Disk with
  | IsCancelled => λ s, (false, s)
  | Now => λ s, (0, s)
  | GetRandom => λ s, (Ok 0, s)
  | Lstat p => λ s, (on_path p meta, s)
  | ReadLink p => λ s, (on_path p (λ N, Some (link N)), s)
  | ReadDir p => λ s,
      match at_path p with
      | Some N => (Ok (o_next s), mkDisk (o_next s + 1) ((o_next s, (children N).*1) :: o_dirs s) (o_sent s))
      | None => (Err (Os ENOENT), s)
      end
  | NextEntry h => next_name h
  | SendReply r => λ s, (Ok tt, mkDisk (o_next s) (o_dirs s) (o_sent s ++ [r]))
  | OpenDirectory _ _ _ => λ s, (Err (Os ENOENT), s)
  | OpenEntry _ => λ s, (Err (Os ENOENT), s)
  | Fstat _ => λ s, (Err (Os ENOENT), s)
  | CreateAt _ _ _ => λ s, (Err (Os ENOENT), s)
  | SymlinkAt _ _ _ => λ s, (Err (Os ENOENT), s)
  | MkdirAt _ _ _ => λ s, (Err (Os ENOENT), s)
  | RenameAt _ _ _ _ => λ s, (Err (Os ENOENT), s)
  | UnlinkAt _ _ => λ s, (Err (Os ENOENT), s)
  | Fchown _ => λ s, (Err (Os ENOENT), s)
  | SetPermissions _ _ => λ s, (Err (Os ENOENT), s)
  | SetTimes _ _ _ => λ s, (Err (Os ENOENT), s)
  | SetLen _ _ => λ s, (Err (Os ENOENT), s)
  | SyncAll _ => λ s, (Err (Os ENOENT), s)
  | ReadHandle _ _ => λ s, (Ok [], s)
  | WriteHandle _ _ => λ s, (Err (Os ENOENT), s)
  | RemoveDir _ => λ s, (Err (Os ENOENT), s)
  | RemoveFile _ => λ s, (Err (Os ENOENT), s)
  | ReadRequest => λ s, (Ok None, s)
  | ConnRead _ => λ s, (Ok [], s)
  | ConnWrite _ => λ s, (Err (Os ENOENT), s)
  end.

Fixpoint exec {A} (p : prog A) (s : Disk) : option A * Disk :=
  match p with
  | Ret a => (Some a, s)
  | Unfinished => (None, s)
  | Call c k => let '(x, s) := tree_os _ c s in exec (k x) s
  end.

Lemma exec_bind {A B} (p : prog A) (f : A → prog B) s :
  exec (bind p f) s = match exec p s with (Some a, s') => exec (f a) s' | (None, s') => (None, s') end.
Proof.
  revert s. induction p as [a|X c k IH|]; intros s; cbn; [done| |done]. destruct (tree_os X c s) as [x s']. apply IH.
Qed.

Lemma exec_then {E A B} (p : prog (result E A)) (f : A → prog (result E B)) s a s' :
  exec p s = (Some (Ok a), s') → exec (and_then p f) s = exec (f a) s'.
Proof. intros H. unfold and_then. by rewrite exec_bind, H. Qed.
Lemma exec_mapped {E F A} (g : E → F) (p : prog (result E A)) s a s' :
  exec p s = (Some (Ok a), s') → exec (mapped g p) s = (Some (Ok a), s').
Proof. intros H. unfold mapped. by rewrite exec_bind, H. Qed.

(** ** Walking *)

Lemma at_path_found p cs : comps p = comps root_ ++ cs → at_path p = find T cs.
Proof.
  intros Hp. unfold at_path. rewrite Hp, take_app_length, drop_app_length. by rewrite bool_decide_eq_true_2.
Qed.

Lemma child_elem n c ch : NoDup ch.*1 → (n, c) ∈ ch → child n ch = Some c.
Proof.
  induction ch as [|[n' c'] ch IH]; [by intros _ ?%not_elem_of_nil|]. cbn. rewrite NoDup_cons. intros [Hn Hd] Hin.
  apply elem_of_cons in Hin as [[= <- <-]|Hin]; [by rewrite bool_decide_eq_true_2|].
  rewrite bool_decide_eq_false_2; [by apply IH|]. intros ->. apply Hn. apply list_elem_of_fmap. by exists (n', c).
Qed.

Lemma find_app (N : tree) cs ds : find N (cs ++ ds) = match find N cs with Some N' => find N' ds | None => None end.
Proof. revert N. induction cs as [|c cs IH]; intros N; [done|]. cbn. destruct (child c (children N)); [apply IH|done]. Qed.

Lemma comps_join_path cs : Forall component_ok cs → comps (join slash cs) = cs.
Proof.
  intros Hc. destruct cs as [|c cs]; [done|]. unfold comps.
  rewrite split_join by (try done; by apply components_free).
  induction Hc as [|d ds Hd Hds IH]; [done|]. rewrite filter_cons_True by by apply SyncService.component_plain. by rewrite IH.
Qed.
Lemma join_start cs : Forall component_ok cs → starts_with slash (join slash cs) = false.
Proof.
  intros Hc. destruct cs as [|c cs]; [done|]. inversion Hc as [|? ? H _]; subst.
  pose proof (component_start _ H) as Hs. destruct H as [Hn _ _ _].
  destruct cs as [|d cs]; [done|]. rewrite join_cons by done. by destruct c.
Qed.
Lemma child_path_join cs n : Forall component_ok cs → child_path (join slash cs) n = join slash (cs ++ [n]).
Proof.
  intros Hc. unfold child_path. case_bool_decide as Hj.
  - destruct cs as [|c cs]; [done|]. by apply join_nonempty in Hj.
  - destruct cs as [|c cs]; [done|]. by rewrite join_app.
Qed.
Lemma full_path cs : Forall component_ok cs → comps (push root_ (join slash cs)) = comps root_ ++ cs.
Proof. intros Hc. rewrite comps_push_any by by apply join_start. by rewrite comps_join_path. Qed.

Lemma exec_entry_at full rel cs N s :
  comps full = comps root_ ++ cs → find T cs = Some N → wf N →
  exec (entry_at full rel) s = (Some (Ok (mkEntry rel (kind_of N) (Z.land (m_mode (meta N)) PERMISSION_BITS) (m_mtime (meta N))
    (truncated_mtime_nanos (meta N)))), s).
Proof.
  intros Hp Hf Hw. pose proof (at_path_found _ _ Hp) as Ha. rewrite Hf in Ha. unfold entry_at.
  rewrite (exec_then _ _ _ (meta N) s) by (cbn; unfold on_path; by rewrite Ha).
  inversion Hw as [m l ch Ht Hl Hs _ _ _ _]; subst. cbn beta. cbn [meta] in *. unfold kind_of. cbn [meta link].
  destruct (m_type m) eqn:Em; [|done| |done].
  - rewrite (proj2 (Z.ltb_ge _ _)) by auto. done.
  - assert (Hlink : exec (ask (ReadLink full)) s = (Some (Ok (Some l)), s)) by (cbn; unfold on_path; by rewrite Ha).
    etrans; [apply (exec_then _ _ _ (Symlink l) s)|done]. etrans; [apply (exec_then _ _ _ l s)|done].
    by etrans; [apply (exec_then _ _ _ (Some l) s)|].
Qed.

Lemma wf_children N : wf N → Forall (λ nc, component_ok nc.1 ∧ (0 ∉ nc.1) ∧ wf nc.2) (children N) ∧ NoDup (children N).*1.
Proof. by inversion 1. Qed.

Definition is_directory (x : list str * tree) : Prop := kind_of x.2 = Directory.
#[local] Instance is_directory_dec x : Decision (is_directory x).
Proof. unfold is_directory. apply _. Defined.

Lemma exec_scan_directory s cs h ch turns pending st :
  root s = root_ → Forall component_ok cs →
  Forall (λ nc, component_ok nc.1 ∧ wf nc.2 ∧ find T (cs ++ [nc.1]) = Some nc.2) ch →
  SyncService.assoc h (o_dirs st) = Some ch.*1 → (length ch < turns)%nat →
  let l := (λ nc, (cs ++ [nc.1], nc.2)) <$> ch in
  ∃ st', exec (scan_directory s (join slash cs) h turns pending) st
         = (Some (Ok (pending ++ ((λ x, join slash x.1) <$> filter is_directory l))), st') ∧
       o_sent st' = o_sent st ++ ((λ x, Entry (entry_of x)) <$> l).
Proof.
  intros Hr Hcs. revert ch pending st. induction turns as [|turns IH]; intros ch pending st Hch Hd Hl l; [lia|].
  cbn [scan_directory]. destruct ch as [|[n c] ch].
  { exists st. cbn. unfold next_name. rewrite Hd. cbn. by rewrite !app_nil_r. }
  inversion Hch as [|? ? (Hn & Hw & Hf) Hch']; subst. cbn [fst snd fmap list_fmap] in *.
  rewrite exec_bind. cbn [exec ask tree_os]. unfold next_name at 1. rewrite Hd. cbn [exec].
  set (st1 := mkDisk _ _ _).
  erewrite exec_then by by apply exec_mapped. erewrite exec_then by by apply exec_mapped.
  erewrite exec_then.
  2: { apply exec_mapped. unfold child_entry. cbn [ok_or on_ok]. rewrite child_path_join by done. rewrite Hr.
       eapply exec_entry_at; [|done|done]. apply full_path, Forall_app. split; [done|by constructor]. }
  erewrite exec_then by by apply exec_mapped. set (st2 := mkDisk _ _ _).
  set (x := (cs ++ [n], c)).
  destruct (IH ch (if bool_decide (kind_of c = Directory) then pending ++ [join slash (cs ++ [n])] else pending) st2)
    as (st' & E & Hsent); [done| |cbn in Hl; lia|].
  { cbn. by rewrite Z.eqb_refl. }
  exists st'. cbn [kind relative_path]. rewrite E. split.
  - subst l. do 3 f_equal. change (kind_of c = Directory) with (is_directory x). rewrite filter_cons.
    destruct (decide (is_directory x)).
    + rewrite bool_decide_eq_true_2, decide_True by done. by rewrite <- app_assoc.
    + by rewrite bool_decide_eq_false_2, decide_False.
  - rewrite Hsent. subst st2 st1 l. cbn. by rewrite <- app_assoc.
Qed.

Lemma nodes_below cs N : nodes cs N = (cs, N) :: below (cs, N).
Proof.
  destruct N as [m l ch]. unfold below. cbn [nodes fst snd children]. f_equal.
  induction ch as [|[n c] ch IH]; [done|]. rewrite fmap_cons. cbn [concat fst snd]. by rewrite <- IH.
Qed.

Lemma concat_heads {A} (f : A → list A) l : concat ((λ y, y :: f y) <$> l) ≡ₚ l ++ concat (f <$> l).
Proof.
  induction l as [|y l IH]; [done|]. rewrite !fmap_cons. cbn [concat app]. rewrite IH. solve_Permutation.
Qed.

Lemma below_level x : below x ≡ₚ level x ++ concat (below <$> level x).
Proof.
  assert (H : below x = concat ((λ y, y :: below y) <$> level x)).
  { unfold below at 1, level. rewrite <- list_fmap_compose. f_equal. apply list_fmap_ext. intros i [n c] _. apply nodes_below. }
  rewrite H. apply concat_heads.
Qed.

Lemma leaf_below x : wf x.2 → ¬ is_directory x → below x = [].
Proof.
  destruct x as [cs N]. cbn. inversion 1 as [m l ch Ht _ _ _ Hch _ _]; subst. unfold is_directory, kind_of, below.
  cbn. intros Hk. rewrite Hch; [done|]. intros E. by rewrite E in Hk.
Qed.

Lemma below_dirs l : Forall (λ x, wf x.2) l → concat (below <$> filter is_directory l) = concat (below <$> l).
Proof.
  induction 1 as [|x l Hx Hl IH]; [done|]. rewrite filter_cons, fmap_cons. cbn [concat].
  case_decide; [by rewrite fmap_cons; cbn [concat]; rewrite IH|]. by rewrite leaf_below.
Qed.

(** A place of the tree. *)
Record placed (x : list str * tree) : Prop := {
  pl_path : Forall component_ok x.1;
  pl_wf : wf x.2;
  pl_found : find T x.1 = Some x.2;
}.

Lemma level_placed x : placed x → Forall placed (level x).
Proof.
  intros [Hp Hw Hf]. unfold level. apply Forall_fmap, Forall_forall. intros [n c] Hin.
  destruct (wf_children _ Hw) as [Hch Hnd]. rewrite Forall_forall in Hch. destruct (Hch _ Hin) as (Hn & _ & Hc).
  split; cbn; [apply Forall_app; split; [done|by constructor]|done|].
  rewrite find_app, Hf. cbn. by rewrite (child_elem n c).
Qed.

Lemma level_children x : placed x →
  Forall (λ nc, component_ok nc.1 ∧ wf nc.2 ∧ find T (x.1 ++ [nc.1]) = Some nc.2) (children x.2).
Proof.
  intros H%level_placed. unfold level in H. rewrite Forall_fmap in H. eapply Forall_impl; [exact H|].
  intros [n c] [H1 H2 H3]. cbn in *. apply Forall_app in H1 as [_ H1]. by inversion H1.
Qed.

Section Walk.
Context (display : IoError → str) (fuel : nat) (s : Session).
Hypothesis Hroot : root s = root_.
Hypothesis Hfuel : ∀ cs N, find T cs = Some N → (length (children N) < fuel)%nat.

Lemma exec_scan_tree pend turns st :
  Forall placed pend → (length pend + length (concat (below <$> pend)) ≤ turns)%nat →
  ∃ st' es, exec (scan_tree display fuel s turns ((λ x, join slash x.1) <$> pend)) st = (Some (Ok tt), st') ∧
    o_sent st' = o_sent st ++ ((λ x, Entry (entry_of x)) <$> es) ∧ es ≡ₚ concat (below <$> pend).
Proof.
  revert pend st. induction turns as [|turns IH]; intros [|x pend] st Hp Hl; cbn [fmap list_fmap scan_tree].
  { exists st, []. cbn. by rewrite app_nil_r. } { cbn in Hl. lia. } { exists st, []. cbn. by rewrite app_nil_r. }
  inversion Hp as [|? ? Hx Hp']; subst. pose proof Hx as [Hx1 Hx2 Hx3].
  erewrite exec_then by by apply exec_mapped. cbn zeta.
  erewrite exec_then.
  2: { apply exec_mapped. cbn. rewrite (at_path_found _ x.1) by (rewrite Hroot; by apply full_path). rewrite Hx3. done. }
  set (st1 := mkDisk _ _ _).
  destruct (exec_scan_directory s x.1 (o_next st) (children x.2) fuel ((λ x, join slash x.1) <$> pend) st1)
    as (st2 & E2 & H2); [done|done|by apply level_children|cbn; by rewrite Z.eqb_refl|by eapply Hfuel|].
  fold (level x) in E2, H2. erewrite exec_then by exact E2. rewrite <- fmap_app.
  pose proof (level_placed _ Hx) as Hlv.
  assert (Hw : Forall (λ x, wf x.2) (level x)) by (eapply Forall_impl; [exact Hlv|]; apply pl_wf).
  destruct (IH (pend ++ filter is_directory (level x)) st2) as (st3 & es & E3 & H3 & Hes).
  - apply Forall_app. split; [done|]. rewrite Forall_forall in Hlv |- *. intros y [_ Hy]%list_elem_of_filter. auto.
  - rewrite fmap_app, concat_app, below_dirs, !length_app by done. cbn [fmap list_fmap concat length] in Hl.
    rewrite length_app, (Permutation_length (below_level x)), length_app in Hl.
    pose proof (length_filter is_directory (level x)). lia.
  - exists st3, (level x ++ es). split_and!; [done| |].
    + rewrite H3, H2. subst st1. cbn [o_sent]. by rewrite fmap_app, <- app_assoc.
    + rewrite Hes, fmap_app, concat_app, below_dirs by done. cbn [concat]. rewrite below_level. solve_Permutation.
Qed.

(** The whole scan of a tree. *)
Lemma exec_scan st :
  root_status s ≠ Missing → wf T → (length (nodes [] T) ≤ fuel)%nat →
  ∃ st' es, exec (scan display fuel s) st = (Some (Ok ScanComplete), st') ∧
    o_sent st' = o_sent st ++ ((λ x, Entry (entry_of x)) <$> es) ∧ es ≡ₚ nodes [] T.
Proof.
  intros Hs Hw Hl. unfold scan. erewrite exec_then by by apply exec_mapped. rewrite bool_decide_eq_false_2 by done.
  erewrite exec_then.
  2: { apply exec_mapped. apply (exec_entry_at _ _ [] T); [|done|done]. by rewrite Hroot, app_nil_r. }
  erewrite exec_then by by apply exec_mapped. set (st1 := mkDisk _ _ _). cbn [kind].
  rewrite nodes_below in *. destruct (decide (is_directory ([], T))) as [Hd|Hd].
  - rewrite bool_decide_eq_true_2 by done. destruct (exec_scan_tree [([], T)] fuel st1) as (st2 & es & E & Hsent & Hes).
    { by constructor. } { cbn [fmap list_fmap concat length] in *. rewrite app_nil_r. lia. }
    erewrite exec_then by exact E. exists st2, (([], T) :: es). split_and!; [done| |].
    + rewrite Hsent. subst st1. cbn. by rewrite <- app_assoc.
    + rewrite Hes. cbn [fmap list_fmap concat]. by rewrite app_nil_r.
  - rewrite bool_decide_eq_false_2 by done. erewrite exec_then by done. exists st1, [([], T)]. split_and!; [done|done|].
    by rewrite leaf_below.
Qed.
End Walk.

(** ** The places of a tree *)

Lemma nodes_placed x : placed x → Forall placed (nodes x.1 x.2).
Proof.
  destruct x as [cs N]. cbn. revert cs. induction N as [m l ch IH] using tree_rect'. intros cs Hx.
  rewrite nodes_below. constructor; [done|]. apply level_placed in Hx. unfold below, level in *. cbn in *.
  rewrite Forall_fmap in Hx. induction IH as [|[n c] ch Hc _ IHch]; [constructor|].
  inversion Hx; subst. rewrite fmap_cons. cbn [concat]. apply Forall_app. split; [by apply Hc|by apply IHch].
Qed.

Lemma child_in n c ch : child n ch = Some c → (n, c) ∈ ch.
Proof.
  induction ch as [|[n' c'] ch IH]; [done|]. cbn. case_bool_decide; [intros [= <-]; subst; by left|]. right. auto.
Qed.
Lemma nodes_child cs N n c x : (n, c) ∈ children N → x ∈ nodes (cs ++ [n]) c → x ∈ nodes cs N.
Proof.
  intros Hin Hx. rewrite nodes_below. right. unfold below. cbn. apply list_elem_of_In, in_concat.
  exists (nodes (cs ++ [n]) c). split; apply list_elem_of_In; [|done]. apply list_elem_of_fmap. by exists (n, c).
Qed.
Lemma find_nodes N ds ks N' : find N ks = Some N' → (ds ++ ks, N') ∈ nodes ds N.
Proof.
  revert N ds. induction ks as [|n ks IH]; intros N ds; cbn.
  { intros [= <-]. rewrite app_nil_r, nodes_below. by left. }
  destruct (child n (children N)) as [c|] eqn:Hc; [|done]. intros Hf. eapply nodes_child; [by apply child_in|].
  rewrite cons_middle, app_assoc. by apply IH.
Qed.

Lemma nodes_prefix cs N x : x ∈ nodes cs N → cs `prefix_of` x.1.
Proof.
  revert cs. induction N as [m l ch IH] using tree_rect'. intros cs. rewrite nodes_below. intros [->|Hx]%elem_of_cons; [done|].
  unfold below in Hx. cbn in Hx. induction IH as [|[n c] ch Hc _ IHch]; [by apply not_elem_of_nil in Hx|].
  rewrite fmap_cons in Hx. cbn [concat] in Hx. apply elem_of_app in Hx as [Hx|Hx]; [|by apply IHch].
  etrans; [|by apply Hc]. by apply prefix_app_r.
Qed.

Lemma nodes_nodup cs N : wf N → NoDup (nodes cs N).*1.
Proof.
  revert cs. induction N as [m l ch IH] using tree_rect'. intros cs Hw. apply wf_children in Hw as [Hch Hnd]. cbn [children] in *.
  rewrite nodes_below. unfold below. cbn [fst snd children fmap list_fmap]. rewrite NoDup_cons.
  assert (Hpre : ∀ ch x, x ∈ concat ((λ nc, nodes (cs ++ [nc.1]) nc.2) <$> ch) → ∃ n, n ∈ ch.*1 ∧ cs ++ [n] `prefix_of` x.1).
  { clear. intros ch x Hx. apply list_elem_of_In, in_concat in Hx as (l & Hl & Hx). apply list_elem_of_In in Hl, Hx.
    apply list_elem_of_fmap in Hl as ([n c] & -> & Hin). exists n. split; [apply list_elem_of_fmap; by exists (n, c)|].
    by apply nodes_prefix in Hx. }
  split.
  { intros (x & Hx & Hin)%list_elem_of_fmap. apply Hpre in Hin as (n & _ & Hp). rewrite <- Hx in Hp.
    apply prefix_length in Hp. rewrite length_app in Hp. cbn in Hp. lia. }
  clear m l. induction IH as [|[n c] ch Hc _ IHch]; [constructor|].
  inversion Hch as [|? ? (_ & _ & Hw) Hch']; subst. cbn in Hnd, Hw. apply NoDup_cons in Hnd as [Hn Hnd].
  rewrite fmap_cons. cbn [concat fst snd]. rewrite fmap_app. apply NoDup_app. split_and!; [by apply Hc| |by apply IHch].
  intros k (x & -> & Hx)%list_elem_of_fmap (y & E & Hy)%list_elem_of_fmap. apply nodes_prefix in Hx.
  apply Hpre in Hy as (n' & Hn' & Hp). rewrite <- E in Hp. destruct Hx as [k1 E1], Hp as [k2 E2].
  rewrite E1, <- !app_assoc in E2. apply app_inv_head in E2. cbn in E2. simplify_eq. by destruct Hn.
Qed.

Lemma nodes_children cs N x : x ∈ nodes cs N → (length (children x.2) < length (nodes cs N))%nat.
Proof.
  revert cs. induction N as [m l ch IH] using tree_rect'. intros cs. rewrite nodes_below. intros [->|Hx]%elem_of_cons.
  - cbn [length snd children]. rewrite (Permutation_length (below_level _)), length_app. unfold level. rewrite length_fmap.
    cbn [snd children]. lia.
  - cbn [length]. unfold below in *. cbn in *. induction IH as [|[n c] ch Hc _ IHch]; [by apply not_elem_of_nil in Hx|].
    rewrite fmap_cons in Hx |- *. cbn [concat] in *. rewrite length_app. apply elem_of_app in Hx as [Hx|Hx].
    + apply Hc in Hx. cbn in Hx |- *. lia.
    + apply IHch in Hx. lia.
Qed.

Lemma find_fuel cs N : find T cs = Some N → (length (children N) < length (nodes [] T))%nat.
Proof. intros H. apply (find_nodes _ []) in H. by apply nodes_children in H. Qed.
End Tree.

(** ** The manifest on the host *)

(** A reply as the host reads it in time. *)
Definition deliver (r : SyncReply) : bool * wire :=
  (true, match r with
         | Entry e => match deserialize_entry e with Ok e => WFrame (Entry e) | Err _ => WBroken end
         | r => WFrame r
         end).

Definition cost (e : SyncEntry) : Z := entry_cost (relative_path e, e).

Lemma sumZ_perm l k : l ≡ₚ k → sumZ l = sumZ k.
Proof. induction 1; rewrite ?sumZ_cons; lia. Qed.
Lemma path_len_nonneg s : 0 ≤ str_len s.
Proof. destruct s as [|c s]; [done|]. pose proof (str_len_pos (c :: s) ltac:(done)). lia. Qed.
Lemma cost_pos e : 32 ≤ cost e.
Proof.
  unfold cost, entry_cost, ENTRY_METADATA_OVERHEAD_BYTES. cbn. pose proof (path_len_nonneg (relative_path e)).
  destruct (link_target (kind e)) as [t|]; [pose proof (path_len_nonneg t)|]; lia.
Qed.

Section Manifest.
Context (usize_max : Z).
Hypothesis Husize : MAX_SYNC_METADATA_BYTES ≤ usize_max.

Lemma add_entry_ok e b :
  0 ≤ entries b → 0 ≤ metadata_bytes b → entries b + 1 ≤ MAX_SYNC_ENTRIES → metadata_bytes b + cost e ≤ MAX_SYNC_METADATA_BYTES →
  add_entry usize_max (relative_path e) (link_target (kind e)) b = Ok (mkBudget (entries b + 1) (metadata_bytes b + cost e)).
Proof.
  intros He Hm Hn Hc. unfold MAX_SYNC_ENTRIES, MAX_SYNC_METADATA_BYTES in *. pose proof (path_len_nonneg (relative_path e)).
  assert (Ht : 0 ≤ match link_target (kind e) with Some t => str_len t | None => 0 end).
  { destruct (link_target (kind e)); [apply path_len_nonneg|lia]. }
  unfold cost, entry_cost in *. cbn in Hc |- *. set (t := match link_target (kind e) with Some t => str_len t | None => 0 end) in *.
  unfold add_entry, checked_add_usize, ENTRY_METADATA_OVERHEAD_BYTES in *.
  fold t. rewrite (proj2 (Z.leb_le (entries b + 1) usize_max)) by lia. rsimpl.
  rewrite (proj2 (Z.ltb_ge MAX_SYNC_ENTRIES _)) by (unfold MAX_SYNC_ENTRIES; lia).
  rewrite (proj2 (Z.leb_le (str_len (relative_path e) + t) usize_max)) by lia. rsimpl.
  rewrite (proj2 (Z.leb_le (str_len (relative_path e) + t + 32) usize_max)) by lia. rsimpl.
  rewrite (proj2 (Z.leb_le (metadata_bytes b + _) usize_max)) by lia. rsimpl.
  by rewrite (proj2 (Z.ltb_ge MAX_SYNC_METADATA_BYTES _)) by (unfold MAX_SYNC_METADATA_BYTES; lia).
Qed.

Lemma scan_loop_ok es b m :
  Forall (λ e, validate_relative_path (relative_path e) = Ok tt) es → NoDup (relative_path <$> es) →
  (∀ e, e ∈ es → bt_get (relative_path e) m = None) → 0 ≤ entries b → 0 ≤ metadata_bytes b →
  entries b + zlen es ≤ MAX_SYNC_ENTRIES → metadata_bytes b + sumZ (cost <$> es) ≤ MAX_SYNC_METADATA_BYTES →
  ∃ m', scan_loop usize_max (((λ e, (true, WFrame (Entry e))) <$> es) ++ [(true, WFrame ScanComplete)]) b m = Ok m' ∧
    ∀ p e, bt_get p m' = Some e ↔ bt_get p m = Some e ∨ e ∈ es ∧ relative_path e = p.
Proof.
  revert b m. induction es as [|e es IH]; intros b m Hv Hnd Hm Hb1 Hb2 Hn Hc.
  { exists m. split; [done|]. intros p e. split; [auto|]. intros [?|[[]%not_elem_of_nil _]]; done. }
  inversion Hv as [|? ? He Hv']; subst. rewrite fmap_cons in Hnd. apply NoDup_cons in Hnd as [Hne Hnd].
  rewrite !fmap_cons, sumZ_cons in Hc. pose proof (zlen_nonneg es). unfold zlen in Hn. cbn [length] in Hn.
  pose proof (sumZ_nonneg (cost <$> es)) as Hs. rewrite Forall_fmap in Hs.
  specialize (Hs ltac:(apply Forall_forall; intros x _; cbn; pose proof (cost_pos x); lia)). pose proof (cost_pos e).
  rewrite fmap_cons. cbn [app scan_loop negb read_reply]. rsimpl. rewrite He. rsimpl. rewrite add_entry_ok by lia. rsimpl.
  rewrite Hm by by left.
  destruct (IH (mkBudget (entries b + 1) (metadata_bytes b + cost e)) (bt_insert (relative_path e) e m)) as (m' & E & Hm');
    [done|done| |cbn; lia|cbn; lia|cbn; unfold zlen; lia|cbn; lia|].
  { intros e' He'. rewrite bt_get_insert. rewrite bool_decide_eq_false_2; [apply Hm; by right|].
    intros Heq. apply Hne. rewrite <- Heq. apply list_elem_of_fmap. eauto. }
  exists m'. split; [exact E|]. intros p e'. rewrite Hm', bt_get_insert, elem_of_cons.
  assert (bt_get (relative_path e) m = None) by (apply Hm; by left). case_bool_decide; subst; naive_solver congruence.
Qed.
End Manifest.

Section Roundtrip.
Context (T : tree).
Hypothesis HT : wf T.
Hypothesis Hlen : ∀ x, x ∈ nodes [] T → str_len (join slash x.1) ≤ MAX_SYNC_PATH_BYTES.

Lemma all_placed x : x ∈ nodes [] T → placed T x.
Proof. pose proof (nodes_placed T ([], T)) as H. rewrite Forall_forall in H. apply H. by constructor. Qed.

Lemma no_nul N ks N' : wf N → find N ks = Some N' → Forall (λ c, 0 ∉ c) ks.
Proof.
  revert N. induction ks as [|n ks IH]; intros N Hw; [constructor|]. cbn. destruct (child n (children N)) as [c|] eqn:Hc; [|done].
  intros Hf. apply child_in in Hc. apply wf_children in Hw as [Hch _]. rewrite Forall_forall in Hch.
  destruct (Hch _ Hc) as (_ & H0 & Hw). constructor; [done|]. by eapply IH.
Qed.
Lemma join_no_nul ks : Forall (λ c, 0 ∉ c) ks → 0 ∉ join slash ks.
Proof.
  induction 1 as [|c ks Hc Hks IH]; [apply not_elem_of_nil|]. destruct ks as [|d ks]; [done|].
  rewrite join_cons by done. rewrite not_elem_of_app, not_elem_of_cons. done.
Qed.

Lemma entry_path_valid x : x ∈ nodes [] T → validate_relative_path (relative_path (entry_of x)) = Ok tt.
Proof.
  intros Hx. pose proof (all_placed _ Hx) as [Hc _ Hf]. apply relative_path_spec. cbn.
  destruct x as [[|c cs] N]; cbn [fst snd] in *; [by left|]. right.
  split_and!; [by apply (Hlen (c :: cs, N))|by eapply join_no_nul, no_nul|]. by exists (c :: cs).
Qed.

Lemma entry_received x : x ∈ nodes [] T → deserialize_entry (entry_of x) = Ok (entry_of x).
Proof.
  intros Hx. pose proof (entry_path_valid _ Hx) as Hp. pose proof (all_placed _ Hx) as [_ Hw _].
  destruct x as [cs [m l ch]]. cbn [snd] in Hw. inversion Hw as [? ? ? Ht Hl Hs Hn _ _ _]; subst.
  unfold deserialize_entry, deserialize_relative_path. rewrite Hp. rsimpl.
  assert (Hk : match kind (entry_of (cs, Node m l ch)) with
    | File size => File <$> deserialize_sync_file_size size | k => Ok k end = Ok (kind (entry_of (cs, Node m l ch)))).
  { cbn. unfold kind_of. cbn. destruct (m_type m) eqn:E; try done. cbn. unfold deserialize_sync_file_size.
    by rewrite (proj2 (Z.ltb_ge _ _)) by auto. }
  rewrite Hk. rsimpl. set (x := entry_of (cs, Node m l ch)).
  assert (Hx2 : ∃ k, mtime_nanos x = k * 1000 ∧ 0 ≤ k * 1000 < 1000000000).
  { cbn. unfold truncated_mtime_nanos, truncate_nanos, SYNC_TIMESTAMP_PRECISION_NANOS.
    rewrite (proj2 (Z.leb_le 0 _)), (proj2 (Z.leb_le _ U32_MAX)) by (unfold U32_MAX; lia). cbn [andb].
    eexists. split; [done|]. Z.to_euclidean_division_equations; lia. }
  destruct Hx2 as (k & Hk1 & Hk2). unfold deserialize_nanos. rewrite (proj2 (Z.leb_gt _ _)) by lia. rsimpl.
  unfold truncate_nanos, SYNC_TIMESTAMP_PRECISION_NANOS. rewrite Hk1, Z.div_mul, <- Hk1 by done. by destruct x.
Qed.

Lemma paths_nodup es : es ≡ₚ nodes [] T → NoDup (relative_path <$> (entry_of <$> es)).
Proof.
  intros Hes. rewrite Hes, <- list_fmap_compose. pose proof (nodes_nodup [] T HT) as Hn.
  assert (Hp : ∀ x, x ∈ nodes [] T → Forall component_ok x.1) by (intros x Hx; exact (pl_path _ _ (all_placed _ Hx))).
  clear Hlen Hes. induction (nodes [] T) as [|x l IH]; [constructor|]. rewrite !fmap_cons in *.
  apply NoDup_cons in Hn as [Hx Hn]. apply NoDup_cons. split; [|apply IH; [done|]; intros y Hy; apply Hp; by right].
  intros (y & E & Hy)%list_elem_of_fmap. cbn in E. apply Hx. apply list_elem_of_fmap. exists y. split; [|done].
  rewrite <- (comps_join_path x.1), <- (comps_join_path y.1) by (apply Hp; by constructor). by rewrite E.
Qed.

(** A place below the root has its directory in the tree. *)
Lemma parent_directory cs c N :
  find T (cs ++ [c]) = Some N → ∃ N0, find T cs = Some N0 ∧ kind_of N0 = Directory.
Proof.
  rewrite find_app. destruct (find T cs) as [N0|] eqn:Hf; [|done]. cbn. destruct (child c (children N0)) as [c'|] eqn:Hc; [|done].
  intros _. exists N0. split; [done|]. apply (find_nodes _ []) in Hf. apply all_placed in Hf as [_ Hw _]. cbn in Hw.
  destruct N0 as [m l ch]. inversion Hw as [? ? ? Ht _ _ _ Hch _ _]; subst. unfold kind_of. cbn.
  destruct (m_type m) eqn:E; try done; rewrite Hch in Hc by done; done.
Qed.

Definition manifest_of (m : btree SyncEntry) : Prop :=
  ∀ p e, bt_get p m = Some e ↔ ∃ cs N, find T cs = Some N ∧ p = join slash cs ∧ e = entry_of (cs, N).

Lemma manifest_valid m : bt_wf m → manifest_of m → validate_manifest m = Ok tt.
Proof.
  intros Hw Hm. apply validate_entries_Forall, Forall_forall. intros [p e] Hin.
  apply bt_elem_get in Hin as Hg; [|done]. apply Hm in Hg as (cs & N & Hf & -> & ->).
  pose proof (find_nodes _ [] _ _ Hf) as Hx. cbn in Hx. pose proof (entry_path_valid _ Hx) as Hp.
  pose proof (all_placed _ Hx) as [Hc HwN _]. cbn in Hp, Hc, HwN.
  unfold validate_entry, validate_host_relative_path. rewrite Hp. rsimpl.
  rewrite (bool_decide_eq_true_2 (relative_path (entry_of (cs, N)) = join slash cs)) by done. cbn [require]. rsimpl.
  assert (Hk : match kind (entry_of (cs, N)) with File size => require (size <=? MAX_SYNC_FILE_BYTES) FileTooLarge | _ => Ok tt end = Ok tt).
  { cbn. unfold kind_of. inversion HwN as [m0 l ch Ht Hl Hs _ _ _ _]; subst. cbn. destruct (m_type m0); try done.
    by rewrite (proj2 (Z.leb_le _ _)) by auto. }
  rewrite Hk. rsimpl. case_bool_decide as Hne; [done|]. apply require_Ok.
  destruct cs as [|c cs] using rev_ind; [done|]. clear IHcs. apply Forall_app in Hc as [Hcs Hc]. rewrite Forall_singleton in Hc.
  rewrite parent_of_join by done. destruct (parent_directory _ _ _ Hf) as (N0 & Hf0 & Hk0).
  assert (Hg : bt_get (join slash cs) m = Some (entry_of (cs, N0))) by (apply Hm; eauto).
  rewrite Hg. unfold is_dir. cbn. by rewrite bool_decide_eq_true_2.
Qed.

Lemma deliver_entries (es : list (list str * tree)) : (∀ x, x ∈ es → x ∈ nodes [] T) →
  deliver <$> ((λ x, Entry (entry_of x)) <$> es) = (λ e, (true, WFrame (Entry e))) <$> (entry_of <$> es).
Proof.
  intros Hes. rewrite <- !list_fmap_compose. apply list_fmap_ext. intros i x Hx. unfold compose, deliver.
  rewrite entry_received; [done|]. apply Hes. by eapply list_elem_of_lookup_2.
Qed.

Lemma scan_manifest usize_max (es : list (list str * tree)) :
  MAX_SYNC_METADATA_BYTES ≤ usize_max → es ≡ₚ nodes [] T → zlen (nodes [] T) ≤ MAX_SYNC_ENTRIES →
  sumZ (cost <$> (entry_of <$> nodes [] T)) ≤ MAX_SYNC_METADATA_BYTES →
  ∃ m, scan_guest_entries usize_max (deliver <$> ((λ x, Entry (entry_of x)) <$> es) ++ [ScanComplete]) = Ok m ∧ manifest_of m.
Proof.
  intros Hu Hes Hn Hc. assert (Hin : ∀ x, x ∈ es ↔ x ∈ nodes [] T) by (intros x; by rewrite Hes).
  rewrite fmap_app, deliver_entries by (intros x; by rewrite Hin).
  change (deliver <$> [ScanComplete]) with [(true, WFrame ScanComplete)].
  destruct (scan_loop_ok usize_max Hu (entry_of <$> es) (mkBudget 0 0) []) as (m & E & Hm).
  - apply Forall_fmap, Forall_forall. intros x Hx%Hin. by apply entry_path_valid.
  - by apply paths_nodup.
  - done.
  - cbn; lia.
  - cbn; lia.
  - cbn. unfold zlen in *. rewrite length_fmap, Hes. lia.
  - cbn. rewrite (sumZ_perm _ (cost <$> (entry_of <$> nodes [] T))); [lia|]. by rewrite Hes.
  - assert (Hmf : manifest_of m).
    { intros p e. rewrite Hm. split.
      - intros [?|[(x & -> & Hx%Hin)%list_elem_of_fmap <-]]; [done|]. pose proof (all_placed _ Hx) as [_ _ Hf].
        destruct x as [cs N]. by exists cs, N.
      - intros (cs & N & Hf & -> & ->). right. split; [|done]. apply list_elem_of_fmap. exists (cs, N). split; [done|].
        apply Hin. apply (find_nodes _ []) in Hf. done. }
    exists m. split; [|done]. unfold scan_guest_entries. rewrite E. rsimpl.
    assert (Hs0 : scanned (mkBudget 0 0) []) by (by split; [constructor|..]).
    destruct (scan_loop_spec usize_max _ _ _ _ Hs0 E) as [b Hb].
    rewrite manifest_valid by (try done; apply Hb). done.
Qed.
End Roundtrip.

(** C8. A scan carries the tree of the guest to the host: whatever tree the root of a
    session is, of at most 100000 entries, 16 MiB of names and targets and files of at most
    16 GiB, the service walks it to the end, and from its replies the host makes a manifest
    that has exactly one entry for each place of the tree, with its path, kind, size or
    target, permission bits and modification time, and nothing else. *)
Theorem scan_roundtrip display usize_max fuel s T :
  wf T → root_status s ≠ Missing → (length (nodes [] T) ≤ fuel)%nat → MAX_SYNC_METADATA_BYTES ≤ usize_max →
  (∀ x, x ∈ nodes [] T → str_len (join slash x.1) ≤ MAX_SYNC_PATH_BYTES) → zlen (nodes [] T) ≤ MAX_SYNC_ENTRIES →
  sumZ (cost <$> (entry_of <$> nodes [] T)) ≤ MAX_SYNC_METADATA_BYTES →
  ∃ st m, exec (root s) T (scan display fuel s) (mkDisk 0 [] []) = (Some (Ok ScanComplete), st) ∧
    scan_guest_entries usize_max (deliver <$> o_sent st ++ [ScanComplete]) = Ok m ∧
    ∀ p e, bt_get p m = Some e ↔ ∃ cs N, find T cs = Some N ∧ p = join slash cs ∧ e = entry_of (cs, N).
Proof.
  intros Hw Hs Hf Hu Hl Hn Hc.
  destruct (exec_scan (root s) T display fuel s eq_refl) with (st := mkDisk 0 [] []) as (st & es & E & Hsent & Hes); [|done|done|done|].
  { intros cs N H%find_fuel. lia. }
  destruct (scan_manifest T Hw Hl usize_max es Hu Hes Hn Hc) as (m & Em & Hm). exists st, m. by rewrite Hsent.
Qed.

(** A directory with a file, a link and an empty directory. *)
Definition demo_tree : tree :=
  Node (mkMeta TDir 0 0x1ed 5 0) []
    [(lit "a", Node (mkMeta TFile 3 0x1a4 7 1999) [] []);
     (lit "d", Node (mkMeta TDir 0 0x1ed 6 0) [] [(lit "l", Node (mkMeta TSymlink 0 0x1ff 1 0) (lit "a") [])])].

Lemma demo_tree_wf : wf demo_tree.
Proof.
  repeat match goal with
  | |- wf _ => constructor
  | |- Forall _ _ => constructor
  | |- _ ∧ _ => split
  | |- component_ok _ => constructor
  | |- NoDup _ => apply (bool_decide_unpack _); vm_compute; exact I
  | |- _ ∉ _ => apply (bool_decide_unpack _); vm_compute; exact I
  | _ => done || (cbn; lia)
  end.
Qed.

Lemma scan_roundtrip_witness :
  ∃ st m, exec (lit "/r") demo_tree (scan (λ _, []) 10 (mkSession (lit "/r") ExistingDirectory)) (mkDisk 0 [] [])
            = (Some (Ok ScanComplete), st) ∧
    scan_guest_entries U64_MAX (deliver <$> o_sent st ++ [ScanComplete]) = Ok m ∧
    ∀ p e, bt_get p m = Some e ↔ ∃ cs N, find demo_tree cs = Some N ∧ p = join slash cs ∧ e = entry_of (cs, N).
Proof.
  apply (scan_roundtrip (λ _, []) U64_MAX 10 (mkSession (lit "/r") ExistingDirectory) demo_tree).
  - exact demo_tree_wf.
  - done.
  - vm_compute. lia.
  - vm_compute. done.
  - intros x Hx. apply list_elem_of_In in Hx. vm_compute in Hx.
    repeat (destruct Hx as [<-|Hx]; [vm_compute; done|]). destruct Hx.
  - vm_compute. done.
  - vm_compute. done.
Defined.
End SyncScan.
