(* ===== verification/SyncExec.v ===== *)
(** * The execution of a plan on the host

    [crates/terra/src/cmd/sync/exec.rs], with [checked_host_path] of [scan.rs],
    [StagedFile] and [write_sparse_chunk] of [vm/image.rs]: what each action does
    to the host's tree and which frames it exchanges with the agent.

    The guest is any function from what it was sent to what it sends back. A frame
    and raw data are told apart as the host reads them. The host's system calls
    work on the tree of the sync root, by relative path, and may be refused at any
    time ([answers]); nothing else changes the tree while a plan runs. A refusal
    also stands for a deadline that is over. A staging entry whose removal is
    refused stays behind, beside the tree ([left_over]). *)

From stdpp Require Import strings sorting gmap.
From S2P Require Import Prelude PolicyRules SyncTree SyncLinks PackedImage SyncPlan Frames SyncAgent.

Local Open Scope Z_scope.

Module SyncExec.
Import Sync SyncLinks SyncPlan.

(** ** The host *)

Record node := mkNode {
  nd_kind : SyncEntryKind;
  nd_mode : Z;
  nd_secs : Z;
  nd_nanos : Z;
  nd_data : list Z;
}.

(** [Count]: the number of links of a file, or of bytes a read gives. *)
Inductive Answer := Fine | Refused (code : Z) | Count (n : Z).
Inductive Outgoing := ORequest (q : SyncRequest) | OData (bs : list Z).
Inductive Incoming := IFrame (w : wire) | IData (bs : list Z).

(** [stamps]: the times directories get when their entries change. [delivered]: the
    files that were fetched, with the bytes that were received. *)
Record Host := mkHost {
  tree : gmap str node;
  left_over : list str;
  answers : list Answer;
  stamps : list (Z * Z);
  incoming : list Incoming;
  sent : list Outgoing;
  delivered : list (str * list Z);
}.

Definition set_tree t h := mkHost t (left_over h) (answers h) (stamps h) (incoming h) (sent h) (delivered h).
Definition set_left_over l h := mkHost (tree h) l (answers h) (stamps h) (incoming h) (sent h) (delivered h).
Definition set_answers l h := mkHost (tree h) (left_over h) l (stamps h) (incoming h) (sent h) (delivered h).
Definition set_stamps l h := mkHost (tree h) (left_over h) (answers h) l (incoming h) (sent h) (delivered h).
Definition set_incoming l h := mkHost (tree h) (left_over h) (answers h) (stamps h) l (sent h) (delivered h).
Definition set_sent l h := mkHost (tree h) (left_over h) (answers h) (stamps h) (incoming h) l (delivered h).
Definition set_delivered l h := mkHost (tree h) (left_over h) (answers h) (stamps h) (incoming h) (sent h) l.

Definition act : Type → Type := stM Host SyncError.

(** ** System calls *)

Definition pop (h : Host) : Answer * Host :=
  match answers h with [] => (Fine, h) | a :: l => (a, set_answers l h) end.

Definition sys_call : act unit := λ h,
  let '(a, h) := pop h in (match a with Refused c => Err (HostFailure c) | _ => Ok tt end, h).

(** A call that gives a number. *)
Definition sys_count (usual : Z) : act Z := λ h,
  let '(a, h) := pop h in
  (match a with Fine => Ok usual | Count n => Ok n | Refused c => Err (HostFailure c) end, h).

(** A call whose failure is ignored: whether it was refused. *)
Definition sys_try (h : Host) : bool * Host :=
  let '(a, h) := pop h in (match a with Refused _ => true | _ => false end, h).

Definition get_tree : act (gmap str node) := λ h, (Ok (tree h), h).
Definition require_ (b : bool) (e : SyncError) : act unit := if b then st_ret tt else st_err e.

(** The directory around [p] gets a new time. *)
Definition touch (p : str) (h : Host) : Host :=
  let '((s, n), h) := match stamps h with [] => ((0, 0), h) | t :: l => (t, set_stamps l h) end in
  if bool_decide (p = []) then h
  else set_tree (alter (λ x, mkNode (nd_kind x) (nd_mode x) s n (nd_data x)) (parent_of p) (tree h)) h.

Definition put (p : str) (x : node) : act unit := λ h, let h := touch p h in (Ok tt, set_tree (<[p := x]> (tree h)) h).

Definition is_directory (n : node) : bool := bool_decide (nd_kind n = Directory).

(** ** Frames and data *)

Section Guest.
Context (guest : list Outgoing → list Incoming).
(** The mask of the process for new entries. *)
Context (umask : Z).

(** What is sent is answered. *)
Definition emit (o : Outgoing) : act unit := λ h,
  let out := sent h ++ [o] in (Ok tt, set_incoming (incoming h ++ guest out) (set_sent out h)).

Definition send_request (q : SyncRequest) : act unit := (sys_call;;; emit (ORequest q))%st.
Definition write_file_data (bs : list Z) : act unit := (sys_call;;; emit (OData bs))%st.

Definition read_reply : act SyncReply := λ h,
  match incoming h with
  | IFrame w :: l => (Sync.read_reply w, set_incoming l h)
  | [] | IData _ :: _ => (Err Disconnected, h)
  end.

(** At most [want] bytes, from the next piece that arrives. *)
Definition read_file_data (want : Z) : act (list Z) := λ h,
  match incoming h with
  | IData bs :: l =>
      let rest := drop (Z.to_nat want) bs in
      (Ok (take (Z.to_nat want) bs), set_incoming (if bool_decide (rest = []) then l else IData rest :: l) h)
  | [] | IFrame _ :: _ => (Err Disconnected, h)
  end.

Definition expect_success (q : SyncRequest) : act unit :=
  (send_request q;;;
   reply <- read_reply;;
   match reply with Success => st_ret tt | _ => st_err UnexpectedReply end)%st.

(** ** Paths *)

(** [symlink_metadata], a missing entry being no error *)
Definition optional_metadata (p : str) : act (option node) :=
  (sys_call;;; t <- get_tree;; st_ret (t !! p))%st.

(** [PathBuf::push] *)
Definition push (path component : str) : str :=
  if bool_decide (path = []) then component else path ++ slash :: component.

Fixpoint check_parents (path : str) (components : list str) : act str :=
  match components with
  | [] => st_ret path
  | component :: components =>
      (meta <- optional_metadata path;;
       require_ (match meta with Some n => is_directory n | None => true end) BadParent;;;
       check_parents (push path component) components)%st
  end.

Definition checked_host_path (relative : str) : act str :=
  (st_lift (validate_host_relative_path relative);;;
   check_parents [] (if bool_decide (relative = []) then [] else split slash relative))%st.

(** ** Directories *)

Definition make_directory (p : str) : act unit :=
  (t <- get_tree;;
   match t !! p with
   | Some n => require_ (is_directory n) BadParent
   | None => sys_call;;; put p (mkNode Directory (Z.land 0x1ff (Z.lnot umask)) 0 0 [])
   end)%st.

Fixpoint make_directories (path : str) (components : list str) : act unit :=
  (make_directory path;;;
   match components with
   | [] => st_ret tt
   | component :: components => make_directories (push path component) components
   end)%st.

(** [std::fs::create_dir_all], from the sync root on *)
Definition create_dir_all (p : str) : act unit :=
  (sys_call;;; make_directories [] (if bool_decide (p = []) then [] else split slash p))%st.

(** [create_dir_all] of the directory around [p] *)
Definition create_parent (p : str) : act unit := if bool_decide (p = []) then sys_call else create_dir_all (parent_of p).

(** ** Staged entries *)

Definition keep_staging (p : str) (h : Host) : Host := set_left_over (left_over h ++ [p]) h.

(** [std::fs::rename] of a staged entry onto [p] *)
Definition install (p : str) (x : node) : act unit :=
  (sys_call;;; t <- get_tree;;
   require_ (match t !! p with Some n => negb (is_directory n) | None => true end) BadParent;;;
   put p x)%st.

Definition install_host_symlink (target p : str) : act unit :=
  (sys_call;;;
   λ h, let '(result, h) := (sys_call;;; install p (mkNode (Symlink target) 0x1ff 0 0 []))%st (touch p h) in
        let '(link_stays, h) := sys_try h in
        let '(directory_stays, h) := sys_try h in
        let h := touch p h in
        (result, if (negb (is_ok result) && link_stays) || directory_stays then keep_staging p h else h))%st.

(** A file that is written, with its position. *)
Record Staged := mkStaged { s_bytes : list Z; s_pos : Z }.

Definition write_sparse_chunk (chunk : list Z) (f : Staged) : Staged :=
  if forallb (λ byte, byte =? 0) chunk then mkStaged (s_bytes f) (s_pos f + zlen chunk)
  else mkStaged (PackedImage.splice (PackedImage.resize (s_bytes f) (Z.max (s_pos f) (zlen (s_bytes f)))) (s_pos f) chunk)
         (s_pos f + zlen chunk).

(** [StagedFile::new]: the directory is opened and a free name beside the
    destination is made. *)
Definition staged_new (p : str) : act unit := (sys_call;;; sys_call;;; λ h, (Ok tt, touch p h))%st.

(** A staged file that is not installed is removed when it is dropped. *)
Definition or_drop {A} (p : str) (m : act A) : act A := λ h,
  match m h with
  | (Ok a, h) => (Ok a, h)
  | (Err e, h) => let '(stays, h) := sys_try h in (Err e, if stays : bool then keep_staging p h else h)
  end.

(** ** Transfers *)

Definition CHUNK : Z := 16 * 1024.

(** [got] is what was received. A turn receives a byte at least, so there are no more
    turns than bytes. *)
Fixpoint receive_loop (turns : nat) (size : Z) (got : list Z) (f : Staged) : act (list Z * Staged) :=
  if size <=? zlen got then st_ret (got, f) else
  match turns with
  | O => st_err TimedOut
  | S turns =>
      (sys_call;;;
       bs <- read_file_data (Z.min CHUNK (size - zlen got));;
       require_ (negb (bool_decide (bs = []))) Disconnected;;;
       sys_call;;;
       receive_loop turns size (got ++ bs) (write_sparse_chunk bs f))%st
  end.

Definition file_times (secs nanos : Z) : result SyncError (Z * Z) :=
  match SyncAgent.sync_file_times secs nanos with Ok t => Ok t | Err _ => Err (HostFailure 0) end.

(** The staged file until it is complete: the bytes received and what the file has. *)
Definition receive_file (size mode secs nanos : Z) : act (list Z * node) :=
  (received <- receive_loop (Z.to_nat size) size [] (mkStaged [] 0);;
   sys_call;;;
   sys_call;;;
   reply <- read_reply;;
   require_ (match reply with Success => true | _ => false end) UnexpectedReply;;;
   times <- st_lift (file_times secs nanos);;
   sys_call;;;
   sys_call;;;
   st_ret (received.1, mkNode (File size) (to_safe_mode mode) times.1 times.2
                         (PackedImage.resize (s_bytes received.2) size)))%st.

Definition deliver (p : str) (bs : list Z) : act unit := λ h, (Ok tt, set_delivered (delivered h ++ [(p, bs)]) h).

Definition fetch_file_from_guest (rel_path : str) (p : str) (expected : Z * Z * Z * Z) : act Z :=
  (send_request (ReadFile rel_path);;;
   reply <- read_reply;;
   match reply with
   | ReadFileReady size mode secs nanos =>
       require_ (bool_decide ((size, Z.land mode 0x1ff, secs, nanos) = expected)) UnexpectedReply;;;
       create_parent p;;;
       staged_new p;;;
       file <- or_drop p (file <- receive_file size mode secs nanos;; install p file.2;;; st_ret file);;
       deliver p file.1;;;
       sys_call;;;
       st_ret size
   | _ => st_err UnexpectedReply
   end)%st.

(** A read gives a byte at least until the end of the file; an interrupted one is
    repeated and is no turn. *)
Fixpoint send_loop (turns : nat) (data : list Z) (size sent : Z) : act Z :=
  if size <=? sent then st_ret sent else
  match turns with
  | O => st_err TimedOut
  | S turns =>
      let want := Z.min CHUNK (size - sent) in
      (sys_call;;;
       n <- sys_count want;;
       let bs := take (Z.to_nat (Z.max 1 (Z.min n want))) (drop (Z.to_nat sent) data) in
       require_ (negb (bool_decide (bs = []))) (HostFailure 0);;;
       write_file_data bs;;;
       send_loop turns data size (sent + zlen bs))%st
  end.

Definition send_file_into_guest (rel_path : str) (meta : node) (size : Z) : act Z :=
  (require_ (size <=? MAX_SYNC_FILE_BYTES) FileTooLarge;;;
   send_request (WriteFile rel_path size (Z.land (nd_mode meta) 0x1ff) (nd_secs meta) (truncate_nanos (nd_nanos meta)));;;
   reply <- read_reply;;
   require_ (match reply with WriteFileReady => true | _ => false end) UnexpectedReply;;;
   sys_call;;;
   n <- send_loop (Z.to_nat size) (nd_data meta) size 0;;
   sys_call;;;
   expect_success CommitFile;;;
   st_ret n)%st.

(** ** Metadata and removal *)

Definition set_node (p : str) (f : node → node) : act unit := λ h, (Ok tt, set_tree (alter f p (tree h)) h).

Definition update_host_metadata (p : str) (mode secs nanos : Z) : act unit :=
  (sys_call;;; t <- get_tree;;
   match t !! p with
   | None => st_err (HostFailure 0)
   | Some n =>
       require_ (match nd_kind n with Symlink _ => false | _ => true end) BadParent;;;
       sys_call;;;
       links <- (match nd_kind n with File _ => sys_count 1 | _ => st_ret 1 end);;
       require_ (links <=? 1) (HostFailure 1);;;
       sys_call;;;
       set_node p (λ x, mkNode (nd_kind x) (to_safe_mode mode) (nd_secs x) (nd_nanos x) (nd_data x));;;
       times <- st_lift (file_times secs nanos);;
       sys_call;;;
       set_node p (λ x, mkNode (nd_kind x) (nd_mode x) times.1 times.2 (nd_data x))
   end)%st.

(** An entry, or what was left of a staged one, is in the directory. *)
Definition has_entries (p : str) (h : Host) : bool :=
  existsb (λ q, negb (bool_decide (q = [])) && bool_decide (parent_of q = p)) ((map_to_list (tree h)).*1 ++ left_over h).

Definition delete_entry (p : str) : act unit := λ h, let h := touch p h in (Ok tt, set_tree (delete p (tree h)) h).

Definition remove_dir (p : str) : act unit :=
  (sys_call;;; t <- get_tree;;
   require_ (match t !! p with Some n => is_directory n | None => false end) BadParent;;;
   λ h, if has_entries p h then (Err BadParent, h) else delete_entry p h)%st.

Definition remove_file (p : str) : act unit :=
  (sys_call;;; t <- get_tree;;
   require_ (match t !! p with Some n => negb (is_directory n) | None => false end) BadParent;;;
   delete_entry p)%st.

(** ** The phases *)

Section Execute.
Context (direction : Direction).

Definition create_dir_step (rel_path : str) (mode : Z) : act unit :=
  match direction with
  | HostToGuest => expect_success (RCreateDir rel_path mode)
  | GuestToHost =>
      (p <- checked_host_path rel_path;;
       meta <- optional_metadata p;;
       require_ (match meta with Some n => is_directory n | None => true end) BadParent;;;
       create_dir_all p)%st
  end.

Fixpoint execute_create_dirs (dirs : list (str * Z)) : act unit :=
  match dirs with
  | [] => st_ret tt
  | (p, m) :: dirs => (create_dir_step p m;;; execute_create_dirs dirs)%st
  end.

Definition transfer_step (rel_path : str) (expected : Z * Z * Z * Z) : act Z :=
  match direction with
  | HostToGuest =>
      (sys_call;;; t <- get_tree;;
       match t !! rel_path with
       | Some meta =>
           match nd_kind meta with
           | File size =>
               require_ (bool_decide ((size, Z.land (nd_mode meta) 0x1ff, nd_secs meta, truncate_nanos (nd_nanos meta)) = expected)) UnexpectedReply;;;
               send_file_into_guest rel_path meta size
           | _ => st_err UnexpectedReply
           end
       | None => st_err (HostFailure 0)
       end)%st
  | GuestToHost => (p <- checked_host_path rel_path;; fetch_file_from_guest rel_path p expected)%st
  end.

Definition symlink_step (rel_path target : str) : act unit :=
  match direction with
  | HostToGuest => expect_success (RCreateSymlink rel_path target)
  | GuestToHost =>
      (st_lift (validate_download_symlink_target rel_path target);;;
       p <- checked_host_path rel_path;;
       create_parent p;;;
       install_host_symlink target p)%st
  end.

Definition count_copy (s : SyncStats) : SyncStats :=
  mkStats (copied_count s + 1) (metadata_updated_count s) (deleted_count s) (skipped_count s)
    (transferred_bytes s).
Definition count_bytes (n : Z) (s : SyncStats) : SyncStats :=
  mkStats (copied_count s) (metadata_updated_count s) (deleted_count s) (skipped_count s)
    (transferred_bytes s + n).

Fixpoint execute_transfers (items : list TransferItem) (stats : SyncStats) : act SyncStats :=
  match items with
  | [] => st_ret stats
  | TFile p size m s n :: items =>
      (sent <- transfer_step p (size, m, s, n);;
       execute_transfers items (count_bytes sent (count_copy stats)))%st
  | TSymlink p target :: items =>
      (symlink_step p target;;; execute_transfers items (count_copy stats))%st
  end.

Definition metadata_step (u : MetadataUpdate) : act unit :=
  match direction with
  | HostToGuest => expect_success (UpdateMetadata (u_path u) (u_mode u) (u_secs u) (u_nanos u))
  | GuestToHost =>
      (p <- checked_host_path (u_path u);; update_host_metadata p (u_mode u) (u_secs u) (u_nanos u))%st
  end.

Fixpoint execute_metadata_updates (updates : list MetadataUpdate) : act unit :=
  match updates with
  | [] => st_ret tt
  | u :: updates => (metadata_step u;;; execute_metadata_updates updates)%st
  end.

Definition remove_step (rel_path : str) (is_dir : bool) : act unit :=
  match direction with
  | HostToGuest => expect_success (RRemoveEntry rel_path)
  | GuestToHost => (p <- checked_host_path rel_path;; if is_dir then remove_dir p else remove_file p)%st
  end.

Fixpoint execute_deletions (deletions : list (str * bool)) (stats : SyncStats) : act SyncStats :=
  match deletions with
  | [] => st_ret stats
  | (p, is_dir) :: deletions =>
      (remove_step p is_dir;;;
       execute_deletions deletions
         (mkStats (copied_count stats) (metadata_updated_count stats) (deleted_count stats + 1)
            (skipped_count stats) (transferred_bytes stats)))%st
  end.

Definition item_bytes (item : TransferItem) : Z :=
  match item with TFile _ size _ _ _ => size | TSymlink _ _ => 0 end.

Definition dry_run_report (items : list TransferItem) (file_updates : list MetadataUpdate)
    (deletions : list (str * bool)) (skipped : Z) : SyncStats :=
  mkStats (zlen items) (zlen file_updates) (zlen deletions) skipped (sumZ (item_bytes <$> items)).

Definition execute_plan (actions : list PlanAction) (is_dry_run : bool) : act SyncStats :=
  let create_dirs := sort_by_key (λ x, str_len x.1) (create_dirs_of actions) in
  let items := transfers_of actions in
  let file_updates := file_updates_of actions in
  let deletions := sort_by_key (λ x, - str_len x.1) (deletions_of actions) in
  let dir_updates := sort_by_key (λ u, - str_len (u_path u)) (dir_updates_of actions) in
  let skipped := zlen (skipped_of actions) in
  if is_dry_run then st_ret (dry_run_report items file_updates deletions skipped) else
  (execute_create_dirs create_dirs;;;
   stats <- execute_transfers items (mkStats 0 0 0 skipped 0);;
   execute_metadata_updates file_updates;;;
   stats <- execute_deletions deletions
              (mkStats (copied_count stats) (metadata_updated_count stats + zlen file_updates)
                 (deleted_count stats) (skipped_count stats) (transferred_bytes stats));;
   execute_metadata_updates dir_updates;;;
   expect_success EndSession;;;
   st_ret stats)%st.
End Execute.
End Guest.

End SyncExec.
