(* ===== verification/SyncSteps.v ===== *)
(** * What one step of an execution does to the host

    The steps of [SyncExec] in the direction from the guest to the host: what a step
    that succeeds did to the tree, whatever the guest sent, and that it does succeed
    when no system call is refused and the guest answers as asked. *)

From stdpp Require Import strings sorting gmap.
From S2P Require Import Prelude PolicyRules SyncTree SyncLinks PackedImage SyncPlan Frames SyncAgent SyncExec.

Local Open Scope Z_scope.

Module SyncSteps.
Import Sync SyncLinks SyncPlan SyncExec.

(** ** Trees *)

(** A change at [p] may move the modification time of the directory around it,
    and of nothing else. *)
Record touched_at (p : str) (t t' : gmap str node) : Prop := {
  ta_frame : ∀ q, q ≠ p → (p = [] ∨ q ≠ parent_of p) → t' !! q = t !! q;
  ta_parent : ∀ n, p ≠ [] → parent_of p ≠ p → t !! parent_of p = Some n →
    ∃ secs nanos, t' !! parent_of p = Some (mkNode (nd_kind n) (nd_mode n) secs nanos (nd_data n));
  ta_missing : p ≠ [] → parent_of p ≠ p → t !! parent_of p = None → t' !! parent_of p = None;
}.

#[local] Instance touched_preorder p : PreOrder (touched_at p).
Proof.
  split.
  - intros t. split; [done| |done]. intros n _ _ Hn. exists (nd_secs n), (nd_nanos n). by destruct n.
  - intros t1 t2 t3 [F1 P1 M1] [F2 P2 M2]. split.
    + intros q H1 H2. by rewrite F2, F1.
    + intros n H1 H2 (s & m & Hn)%P1; [|done..]. destruct (P2 _ H1 H2 Hn) as (s' & m' & ->). by exists s', m'.
    + auto.
Qed.

(** Everything around the place of [p] is a directory, as far as it exists; and it
    exists. *)
Definition clear (t : gmap str node) (p : str) : Prop :=
  ∀ ls ks n, Forall component_ok (ls ++ ks) → ks ≠ [] → p = join slash (ls ++ ks) →
    t !! join slash ls = Some n → nd_kind n = Directory.
Definition standing (t : gmap str node) (p : str) : Prop :=
  ∀ ls ks, Forall component_ok (ls ++ ks) → ks ≠ [] → p = join slash (ls ++ ks) →
    ∃ n, t !! join slash ls = Some n ∧ nd_kind n = Directory.

(** The same for the place of a list of components. *)
Definition standing_at (t : gmap str node) (cs : list str) : Prop :=
  ∀ ls ks, ks ≠ [] → ls ++ ks = cs → ∃ n, t !! join slash ls = Some n ∧ nd_kind n = Directory.

Lemma standing_at_join t cs : Forall component_ok cs → standing t (join slash cs) → standing_at t cs.
Proof. intros Hcs Hs ls ks Hne <-. by apply (Hs ls ks). Qed.

Lemma standing_clear t p : standing t p → clear t p.
Proof. intros H ls ks n H1 H2 H3 H4. destruct (H ls ks H1 H2 H3) as (n' & H5 & H6). congruence. Qed.

Lemma standing_parent t p : validate_relative_path p = Ok tt → standing t p → p ≠ [] →
  ∃ n, t !! parent_of p = Some n ∧ nd_kind n = Directory.
Proof.
  intros [->|(_ & _ & cs & Hne & Hcs & ->)]%relative_path_spec Hs Hp; [done|].
  destruct cs as [|c cs _] using rev_ind; [done|]. apply Forall_app in Hcs as [H1 H2]. rewrite Forall_singleton in H2.
  rewrite parent_of_join by done. apply (Hs cs [c]); [by apply Forall_app; split; [|apply Forall_singleton]|done|done].
Qed.

(** ** Parents *)

Lemma valid_components p :
  validate_relative_path p = Ok tt → p ≠ [] →
  ∃ ls c, Forall component_ok (ls ++ [c]) ∧ p = join 47 (ls ++ [c]) ∧ parent_of p = join 47 ls.
Proof.
  intros [->|(_ & _ & cs & Hne & Hcs & ->)]%relative_path_spec Hp; [done|].
  destruct cs as [|c cs _] using rev_ind; [done|]. exists cs, c. split_and!; [done|done|].
  apply Forall_app in Hcs as [? Hc]. rewrite Forall_singleton in Hc. by apply parent_of_join.
Qed.

Lemma ancestor_shorter ls ks : Forall component_ok (ls ++ ks) → ks ≠ [] → str_len (join 47 ls) < str_len (join 47 (ls ++ ks)).
Proof.
  intros [Hls Hks]%Forall_app Hne. pose proof (str_len_pos _ (join_nonempty ks Hne Hks)) as Hpos. destruct ls as [|l ls].
  - cbn [app]. change (str_len (join 47 [])) with 0. lia.
  - rewrite join_app by done. rewrite str_len_app. change (47 :: join 47 ks) with ([47] ++ join 47 ks).
    rewrite str_len_app. change (str_len [47]) with 1. lia.
Qed.
Lemma parent_shorter p :
  validate_relative_path p = Ok tt → p ≠ [] → str_len (parent_of p) < str_len p.
Proof.
  intros Hv Hp. destruct (valid_components p Hv Hp) as (ls & c & Hok & -> & ->). by apply ancestor_shorter.
Qed.
Lemma parent_ne p : validate_relative_path p = Ok tt → p ≠ [] → parent_of p ≠ p.
Proof. intros Hv Hp He. pose proof (parent_shorter p Hv Hp). rewrite He in *. lia. Qed.

(** ** Outcomes *)

(** Success has [Q]; and under the hypothesis [P] there is success, with [N]. *)
Definition outcome {A} (P : Prop) (r : result SyncError A * Host) (Q N : A → Host → Prop) : Prop :=
  match r with (Ok a, h) => Q a h ∧ (P → N a h) | (Err _, _) => ¬ P end.

Lemma outcome_bind {A B} P (m : act A) (k : A → act B) h Q N R N' :
  outcome P (m h) Q N → (∀ a h', Q a h' → outcome (P ∧ N a h') (k a h') R N') → outcome P (st_bind m k h) R N'.
Proof.
  unfold outcome, st_bind. destruct (m h) as [[a|e] h']; [|done]. intros [HQ HN] Hk. specialize (Hk a h' HQ).
  destruct (k a h') as [[b|e] h'']; [|tauto]. destruct Hk as [HR HN']. split; [done|]. intros HP. auto.
Qed.

Lemma outcome_impl {A} P P' (r : result SyncError A * Host) Q Q' N N' :
  outcome P r Q N → (P' → P) → (∀ a h, Q a h → Q' a h) → (∀ a h, P' → Q a h → N a h → N' a h) → outcome P' r Q' N'.
Proof.
  unfold outcome. destruct r as [[a|e] h]; [|tauto]. intros [HQ HN] HP HQ' HN'. split; [auto|]. intros H. apply HN'; auto.
Qed.

Lemma outcome_weaken {A} P (r : result SyncError A * Host) Q Q' N :
  outcome P r Q N → (∀ a h, Q a h → Q' a h) → outcome P r Q' N.
Proof. intros H HQ. eapply outcome_impl; [exact H|done|done|done]. Qed.

Lemma outcome_ret {A} P (a : A) h (Q N : A → Host → Prop) : Q a h → (P → N a h) → outcome P (st_ret a h) Q N.
Proof. by split. Qed.
Lemma outcome_err {A} (P : Prop) e h (Q N : A → Host → Prop) : ¬ P → outcome P (st_err e h) Q N.
Proof. done. Qed.

(** A file that is written past chunks of zeros, and cut to its length, has the bytes
    written. *)
Lemma resize_prefix (l : list Z) k n : zlen l ≤ k → k ≤ n → PackedImage.resize (PackedImage.resize l k) n = PackedImage.resize l n.
Proof.
  intros Hl Hk. unfold PackedImage.resize. pose proof (zlen_nonneg l). unfold zlen in *.
  rewrite (take_ge l (Z.to_nat k)), (take_ge l (Z.to_nat n)) by lia.
  rewrite take_ge by (rewrite length_app, length_replicate; lia). rewrite <- app_assoc, <- replicate_add, length_app, length_replicate.
  do 2 f_equal. lia.
Qed.

Definition written (f : Staged) (bs : list Z) : Prop :=
  s_pos f = zlen bs ∧ zlen (s_bytes f) ≤ zlen bs ∧ PackedImage.resize (s_bytes f) (zlen bs) = bs.

Lemma zeros_replicate (c : list Z) : forallb (λ b, b =? 0) c = true → c = replicate (length c) 0.
Proof. induction c as [|x c IH]; [done|]. cbn. intros [->%Z.eqb_eq H]%andb_true_iff. by rewrite <- IH. Qed.

Lemma resize_zeros (l : list Z) n k : zlen l ≤ n → 0 ≤ k →
  PackedImage.resize l (n + k) = PackedImage.resize l n ++ replicate (Z.to_nat k) 0.
Proof.
  intros Hl Hk. unfold PackedImage.resize. pose proof (zlen_nonneg l). unfold zlen in *.
  rewrite !take_ge by lia. rewrite <- app_assoc, <- replicate_add. do 2 f_equal. lia.
Qed.

Lemma write_chunk c f bs : written f bs → written (write_sparse_chunk c f) (bs ++ c).
Proof.
  intros (Hp & Hl & Hr). pose proof (zlen_nonneg c). pose proof (zlen_nonneg bs). unfold write_sparse_chunk, written. destruct (forallb _ c) eqn:Hz; cbn [s_pos s_bytes].
  - rewrite zlen_app. split_and!; [lia|lia|]. rewrite resize_zeros, Hr by lia. f_equal.
    unfold zlen. rewrite Nat2Z.id. by rewrite <- zeros_replicate.
  - rewrite Z.max_l by lia. rewrite Hp, Hr. unfold PackedImage.splice.
    assert (E : take (Z.to_nat (zlen bs)) bs ++ c ++ drop (Z.to_nat (zlen bs) + length c) bs = bs ++ c).
    { rewrite take_ge, drop_ge, app_nil_r by (unfold zlen; lia). done. }
    rewrite E, zlen_app. split_and!; [done|done|]. unfold PackedImage.resize, zlen.
    rewrite take_ge, length_app by (rewrite length_app; lia). replace (_ - _)%nat with 0%nat by lia. by rewrite app_nil_r.
Qed.


(** ** The host without refusals and the guest that answers *)

Section Steps.
Context (guest : list Outgoing → list Incoming) (umask : Z).
Context (source : btree SyncEntry) (source_data : str → list Z).

(** Asked for a file, the guest sends it with its listed metadata, in any pieces; the
    end of the session is confirmed. *)
Record honest : Prop := {
  ho_file : ∀ out p src size, bt_get p source = Some src → kind src = File size →
    ∃ pieces, concat pieces = source_data p ∧ Forall (λ c, c ≠ []) pieces ∧
      guest (out ++ [ORequest (ReadFile p)]) =
        IFrame (WFrame (ReadFileReady size (mode src) (mtime_secs src) (mtime_nanos src)))
        :: (IData <$> pieces) ++ [IFrame (WFrame Success)];
  ho_end : ∀ out, guest (out ++ [ORequest EndSession]) = [IFrame (WFrame Success)];
}.

(** No refusal is to come, and [rest] is on its way from the guest. What was fetched
    is the source's. *)
Definition calm (rest : list Incoming) (h : Host) : Prop :=
  honest ∧ answers h = [] ∧ incoming h = rest ∧ left_over h = [] ∧ Forall (λ x, x.2 = source_data x.1) (delivered h).

Definition same (h h' : Host) : Prop := tree h' = tree h ∧ delivered h' = delivered h.
#[local] Instance same_preorder : PreOrder same.
Proof. split; [done|]. intros a b c [H1 H2] [H3 H4]. split; congruence. Qed.

#[local] Ltac chain := cbn beta in *; first [eassumption | etrans; [eassumption|chain]].

(** A change at [p] that delivers nothing. *)
Definition changed (p : str) (h h' : Host) : Prop := touched_at p (tree h) (tree h') ∧ delivered h' = delivered h.
#[local] Instance changed_preorder p : PreOrder (changed p).
Proof. split; [by split|]. intros a b c [H1 H2] [H3 H4]. split; [by etrans|congruence]. Qed.
Lemma same_changed p h h' : same h h' → changed p h h'.
Proof. intros [H1 H2]. split; [by rewrite H1|done]. Qed.

Section Pure.
Context (P : Prop) (h : Host) (K : Host → Prop).
Hypothesis HK : P → K h.

Lemma get_tree_step : outcome P (get_tree h) (λ t h', h' = h ∧ t = tree h) (λ _, K).
Proof. by split. Qed.

Lemma require_step b e : (P → b = true) → outcome P (require_ b e h) (λ _ h', h' = h ∧ b = true) (λ _, K).
Proof. intros Hb. destruct b; [by split|]. by intros ?%Hb. Qed.

Lemma lift_step {A} (r : result SyncError A) : (P → ∃ a, r = Ok a) → outcome P (st_lift r h) (λ x h', h' = h ∧ r = Ok x) (λ _, K).
Proof. intros Hr. destruct r; [by split|]. intros (a & H)%Hr. done. Qed.
End Pure.

Section Calls.
Context (P : Prop) (rest : list Incoming) (h : Host).
Hypothesis HP : P → calm rest h.

Lemma sys_call_step : outcome P (sys_call h) (λ _ h', same h h') (λ _ h', calm rest h').
Proof.
  unfold sys_call, pop. destruct (answers h) as [|a l] eqn:Ha; [by split|].
  assert (¬ P) by (intros (_ & H & _)%HP; congruence). by destruct a.
Qed.

Lemma sys_count_step usual : outcome P (sys_count usual h) (λ _ h', same h h') (λ n h', n = usual ∧ calm rest h').
Proof.
  unfold sys_count, pop. destruct (answers h) as [|a l] eqn:Ha; [split; [done|]; by intros ?%HP|].
  assert (¬ P) by (intros (_ & H & _)%HP; congruence). by destruct a.
Qed.

Lemma touch_changed p : changed p h (touch p h) ∧ (P → calm rest (touch p h)).
Proof.
  unfold touch. set (x := match stamps h with [] => _ | _ => _ end).
  assert (Hx : tree x.2 = tree h ∧ delivered x.2 = delivered h ∧ (P → calm rest x.2)) by (subst x; by destruct (stamps h)).
  destruct x as [[s n] h1]. cbn in Hx. destruct Hx as (H1 & H2 & H3).
  case_bool_decide as Hp; [split; [by apply same_changed|done]|]. split; [|intros ?%H3; done]. split; [|done].
  cbn [tree set_tree]. rewrite H1. split.
  - intros q Hq [?|Hne]; [done|]. by rewrite lookup_alter_ne.
  - intros x _ _ Hn. rewrite lookup_alter_eq, Hn. by eexists _, _.
  - intros _ _ Hn. by rewrite lookup_alter_eq, Hn.
Qed.

Lemma put_step p x : outcome P (put p x h) (λ _ h', changed p h h' ∧ tree h' !! p = Some x) (λ _ h', calm rest h').
Proof.
  unfold put. destruct (touch_changed p) as [[[H1 H2 H3] Hd] H4]. split; [|done]. cbn. split; [|apply lookup_insert_eq].
  split; [|done]. cbn. split.
  - intros q Hq Hor. rewrite lookup_insert_ne by done. by apply H1.
  - intros n Hp Hne Hn. rewrite lookup_insert_ne by done. by apply H2.
  - intros Hp Hne Hn. rewrite lookup_insert_ne by done. by apply H3.
Qed.

Lemma delete_step p : outcome P (delete_entry p h) (λ _ h', changed p h h' ∧ tree h' !! p = None) (λ _ h', calm rest h').
Proof.
  unfold delete_entry. destruct (touch_changed p) as [[[H1 H2 H3] Hd] H4]. split; [|done]. cbn. split; [|apply lookup_delete_eq].
  split; [|done]. cbn. split.
  - intros q Hq Hor. rewrite lookup_delete_ne by done. by apply H1.
  - intros n Hp Hne Hn. rewrite lookup_delete_ne by done. by apply H2.
  - intros Hp Hne Hn. rewrite lookup_delete_ne by done. by apply H3.
Qed.

Lemma set_node_step p f : outcome P (set_node p f h)
  (λ _ h', tree h' = alter f p (tree h) ∧ delivered h' = delivered h) (λ _ h', calm rest h').
Proof. by split. Qed.

End Calls.

(** *** Frames and data *)

Lemma reply_step P h r rest : (P → calm (IFrame (WFrame r) :: rest) h) → (∀ m, r ≠ ErrReply m) →
  outcome P (read_reply h) (λ _ h', same h h') (λ a h', a = r ∧ calm rest h').
Proof.
  intros HP Hr. unfold read_reply. destruct (incoming h) as [|[w|bs] l] eqn:Hi;
    try (intros (_ & _ & H & _)%HP; congruence).
  assert (Hw : P → w = WFrame r ∧ l = rest) by (intros (_ & _ & H & _)%HP; split; congruence).
  destruct (Sync.read_reply w) as [a|e] eqn:Ha.
  - split; [done|]. intros H. destruct (Hw H) as [-> ->]. destruct (HP H) as (H1 & H2 & H3 & H4).
    split; [|done]. destruct r; cbn in Ha; congruence.
  - intros H. destruct (Hw H) as [-> ->]. destruct r; try done. by eapply Hr.
Qed.

Lemma emit_step P h q rest : (P → calm [] h) → (P → guest (sent h ++ [ORequest q]) = rest) →
  outcome P (emit guest (ORequest q) h) (λ _ h', same h h') (λ _ h', calm rest h').
Proof. intros HP Hq. split; [done|]. intros H. destruct (HP H) as (H1 & H2 & H3 & H4 & H5). split_and!; try done. cbn. by rewrite H3, Hq. Qed.

Lemma send_step P h q (F : list Incoming → Prop) : (P → calm [] h) → (P → ∀ out, F (guest (out ++ [ORequest q]))) →
  outcome P (send_request guest q h) (λ _ h', same h h') (λ _ h', ∃ rest, F rest ∧ calm rest h').
Proof.
  intros HP HF. unfold send_request. eapply outcome_bind; [by apply (sys_call_step P [])|]. intros ? h1 S1.
  eapply outcome_impl; [apply (emit_step (P ∧ calm [] h1)); [tauto|reflexivity]|tauto|intros ? h' S2; etrans; [exact S1|exact S2]|].
  intros ? h' HP' _ Hc. eexists. split; [|exact Hc]. apply HF, HP'.
Qed.

(** The pieces on their way, and what was received before them, are [data]. *)
Definition arriving (data got : list Z) (rest : list Incoming) (h : Host) : Prop :=
  ∃ pieces, calm ((IData <$> pieces) ++ rest) h ∧ Forall (λ c, c ≠ []) pieces ∧ got ++ concat pieces = data.

Lemma arriving_same data got rest h h' : (∀ r, calm r h → calm r h') → arriving data got rest h → arriving data got rest h'.
Proof. intros Hc (pieces & H1 & H2 & H3). exists pieces. auto. Qed.

Lemma arriving_done data got rest h : arriving data got rest h → zlen data ≤ zlen got → got = data ∧ calm rest h.
Proof.
  intros (pieces & H1 & H2 & H3) Hl. destruct pieces as [|c pieces].
  - cbn in H3. rewrite app_nil_r in H3. done.
  - apply Forall_cons in H2 as [Hc _]. rewrite <- H3, zlen_app in Hl. cbn [concat] in Hl. rewrite zlen_app in Hl.
    pose proof (zlen_nonneg (concat pieces)). destruct c as [|x c]; [done|]. unfold zlen in *. cbn [length] in *. lia.
Qed.

Lemma data_step P h want data got rest : 0 < want → (P → arriving data got rest h) → (P → zlen got < zlen data) →
  outcome P (read_file_data want h) (λ bs h', same h h' ∧ zlen bs ≤ want)
    (λ bs h', bs ≠ [] ∧ arriving data (got ++ bs) rest h').
Proof.
  intros Hw HP Hl. unfold read_file_data.
  assert (Hin : P → ∃ x xs pieces, incoming h = IData (x :: xs) :: (IData <$> pieces) ++ rest ∧ honest ∧ answers h = [] ∧
    (left_over h = [] ∧ Forall (λ x, x.2 = source_data x.1) (delivered h))
    ∧ Forall (λ c, c ≠ []) pieces ∧ got ++ (x :: xs) ++ concat pieces = data).
  { intros H. destruct (HP H) as ([|[|x xs] pieces] & (H1 & H2 & H3 & H4) & Hne & Hd).
    - cbn in Hd. rewrite app_nil_r in Hd. specialize (Hl H). rewrite Hd in Hl. lia.
    - by apply Forall_cons in Hne as [? _].
    - apply Forall_cons in Hne as [_ Hne]. by exists x, xs, pieces. }
  destruct (incoming h) as [|[w|bs] l] eqn:Hi; try (intros (x & xs & ps & H & _)%Hin; congruence).
  split; [split; [done|unfold zlen; rewrite length_take; lia]|].
  intros (x & xs & ps & [= -> ->] & H1 & H2 & H4 & Hne & Hd)%Hin. set (rst := drop _ _).
  destruct (Z.to_nat want) as [|k] eqn:Hk; [lia|]. split; [done|].
  exists (if bool_decide (rst = []) then ps else rst :: ps). assert (Ht : take (S k) (x :: xs) ++ rst = x :: xs) by apply take_drop.
  case_bool_decide as Hr.
  - split_and!; [done|done|]. rewrite Hr, app_nil_r in Ht. rewrite Ht, <- app_assoc. done.
  - split_and!; [done|by constructor|]. cbn [concat]. rewrite <- Hd, <- (app_assoc got). f_equal. by rewrite (app_assoc _ rst), Ht.
Qed.

Lemma call_while_arriving P h data got rest : (P → arriving data got rest h) →
  outcome P (sys_call h) (λ _ h', same h h') (λ _ h', arriving data got rest h').
Proof.
  intros HP. unfold sys_call, pop. destruct (answers h) as [|a l] eqn:Ha; [by split|].
  assert (¬ P) by (intros (ps & (_ & H & _) & _)%HP; congruence). by destruct a.
Qed.

Lemma receive_step turns data size rest : ∀ P got f h,
  (P → arriving data got rest h ∧ zlen data = size) → written f got → zlen got ≤ size → size ≤ zlen got + Z.of_nat turns →
  outcome P (receive_loop turns size got f h) (λ r h', same h h' ∧ written r.2 r.1 ∧ zlen r.1 = size)
    (λ r h', r.1 = data ∧ calm rest h').
Proof.
  induction turns as [|turns IH]; intros P got f h HP Hf Hg Ht; cbn [receive_loop]; destruct (Z.leb_spec size (zlen got)) as [Hs|Hs]; try lia.
  1,2: apply outcome_ret; [split_and!; [done|done|cbn; lia]|]; intros [Ha Hd]%HP; apply (arriving_done data got); [done|lia].
  eapply outcome_bind; [apply (call_while_arriving P h data got rest); intros H; apply HP, H|]. intros ? h1 S1.
  eapply outcome_bind; [apply (data_step _ h1 _ data got rest); [unfold CHUNK; lia|tauto|]|].
  { intros [[_ Hd]%HP _]. lia. }
  intros bs h2 [S2 Hbs]. eapply outcome_bind.
  { apply (require_step _ h2 (arriving data (got ++ bs) rest)); [tauto|]. intros (_ & Hb & _). by rewrite bool_decide_eq_false_2. }
  intros ? h3 [-> Hne%negb_true_iff%bool_decide_eq_false]. eapply outcome_bind; [apply (call_while_arriving _ h2 data (got ++ bs) rest); tauto|].
  intros ? h4 S4. assert (Hl : zlen bs ≤ size - zlen got) by (unfold CHUNK in *; lia).
  assert (Hpos : 1 ≤ zlen bs) by (destruct bs; [done|unfold zlen; cbn; lia]).
  eapply outcome_impl; [apply (IH (((P ∧ arriving data got rest h1) ∧ bs ≠ [] ∧ arriving data (got ++ bs) rest h2) ∧ arriving data (got ++ bs) rest h4))|..].
  - intros [[[H _] _] H4]. split; [done|]. apply HP, H.
  - by apply write_chunk.
  - rewrite zlen_app. lia.
  - rewrite zlen_app. lia.
  - tauto.
  - intros r h5 (S5 & H5). split; [|done]. chain.
  - tauto.
Qed.

(** *** Paths *)

Lemma push_join ls c : Forall component_ok (ls ++ [c]) → push (join slash ls) c = join slash (ls ++ [c]).
Proof.
  intros [Hls Hc]%Forall_app. unfold push. destruct ls as [|l ls]; [done|].
  rewrite bool_decide_eq_false_2 by by apply join_nonempty. by rewrite join_app.
Qed.

Lemma components_push {ls c ks} : Forall component_ok (ls ++ c :: ks) →
  Forall component_ok ((ls ++ [c]) ++ ks) ∧ push (join slash ls) c = join slash (ls ++ [c]).
Proof.
  intros H. rewrite <- app_assoc. split; [done|]. apply push_join. apply Forall_app in H as [H1 H2].
  apply Forall_cons in H2 as [H2 _]. apply Forall_app. split; [done|by apply Forall_singleton].
Qed.

Lemma metadata_step_at P rest h p : (P → calm rest h) →
  outcome P (optional_metadata p h) (λ x h', x = tree h !! p ∧ same h h') (λ _, calm rest).
Proof.
  intros HP. unfold optional_metadata. eapply outcome_bind; [by apply (sys_call_step P rest)|]. intros ? h1 [S1 D1].
  eapply outcome_bind; [apply (get_tree_step _ h1 (calm rest)); tauto|]. intros t h2 [-> ->].
  apply outcome_ret; [|tauto]. split; [by rewrite S1|by split].
Qed.

Lemma parents_step rest ks : ∀ P ls h,
  (P → calm rest h) → Forall component_ok (ls ++ ks) → clear (tree h) (join slash (ls ++ ks)) →
  outcome P (check_parents (join slash ls) ks h) (λ q h', q = join slash (ls ++ ks) ∧ same h h') (λ _, calm rest).
Proof.
  induction ks as [|c ks IH]; intros P ls h HP Hok Hc; cbn [check_parents].
  { apply outcome_ret; [|done]. by rewrite app_nil_r. }
  destruct (components_push Hok) as [Hok' Hpush]. rewrite Hpush.
  eapply outcome_bind; [by apply (metadata_step_at P rest)|].
  intros x h1 [-> [S1 D1]]. eapply outcome_bind; [apply (require_step _ h1 (calm rest)); [tauto|]|].
  { intros _. destruct (tree h !! join slash ls) as [n|] eqn:Hn; [|done]. apply bool_decide_eq_true_2.
    by apply (Hc ls (c :: ks) n). }
  intros ? h2 [-> _]. rewrite (cons_middle c ls ks), app_assoc.
  eapply outcome_weaken; [apply (IH _ _ h1); [|done|]|].
  - tauto.
  - rewrite <- app_assoc. by rewrite S1.
  - intros q h3 [-> [S3 D3]]. split; [done|]. split; congruence.
Qed.

Lemma checked_step P rest h p : (P → calm rest h) → validate_relative_path p = Ok tt → clear (tree h) p →
  outcome P (checked_host_path p h) (λ q h', q = p ∧ same h h') (λ _, calm rest).
Proof.
  intros HP Hv Hc. unfold checked_host_path. eapply outcome_bind; [apply (lift_step P h (calm rest) HP); by exists tt|].
  intros ? h1 [-> _]. case_bool_decide as Hp; [by subst; apply outcome_ret; [|tauto]|].
  apply relative_path_spec in Hv as [->|(_ & _ & cs & Hne & Hcs & ->)]; [done|].
  rewrite split_join by (try done; by apply components_free).
  apply (parents_step rest cs _ [] h); [tauto|done|done].
Qed.

(** *** Directories *)

(** A directory is there: it was, or it was made. *)
Definition made (p : str) (h h' : Host) : Prop :=
  (∃ n, tree h !! p = Some n ∧ same h h') ∨
  (tree h !! p = None ∧ changed p h h' ∧ ∃ m s n, tree h' !! p = Some (mkNode Directory m s n [])).

Lemma make_directory_step P rest h p : (P → calm rest h) → (∀ n, tree h !! p = Some n → nd_kind n = Directory) →
  outcome P (make_directory umask p h) (λ _ h', made p h h') (λ _, calm rest).
Proof.
  intros HP Hd. unfold make_directory. eapply outcome_bind; [by apply (get_tree_step P h (calm rest))|].
  intros t h1 [-> ->]. destruct (tree h !! p) as [n|] eqn:Hn.
  - eapply outcome_weaken; [apply (require_step _ h (calm rest)); [tauto|]|].
    + intros _. by apply bool_decide_eq_true_2, Hd.
    + intros ? h' [-> _]. left. by exists n.
  - eapply outcome_bind; [apply (sys_call_step _ rest); tauto|]. intros ? h2 [S2 D2].
    eapply outcome_weaken; [apply (put_step _ rest h2); tauto|].
    intros ? h3 [[T3 D3] N3]. right. rewrite S2 in T3. split_and!; [done|split; [done|congruence]|by eauto].
Qed.

Lemma make_directories_step rest ks : ∀ P ls h,
  (P → calm rest h) → Forall component_ok (ls ++ ks) → standing_at (tree h) (ls ++ ks) →
  (∀ n, tree h !! join slash (ls ++ ks) = Some n → nd_kind n = Directory) →
  outcome P (make_directories umask (join slash ls) ks h) (λ _ h', made (join slash (ls ++ ks)) h h') (λ _, calm rest).
Proof.
  induction ks as [|c ks IH]; intros P ls h HP Hok Hs Hd; cbn [make_directories].
  { rewrite app_nil_r in *. eapply outcome_bind; [by apply (make_directory_step P rest)|].
    intros [] h1 Hm. apply outcome_ret; [done|tauto]. }
  destruct (components_push Hok) as [Hok' Hpush]. rewrite Hpush.
  destruct (Hs ls (c :: ks)) as (n & Hn & Hk); [done|done|].
  eapply outcome_bind; [apply (make_directory_step P rest); [done|congruence]|].
  intros ? h1 [(x & Hx & [S1 D1])|(Hx & _)]; [|congruence]. rewrite (cons_middle c ls ks), app_assoc in *.
  eapply outcome_weaken; [apply (IH _ _ h1)|]; [tauto|done|by rewrite S1|by rewrite S1|].
  intros ? h2 Hm. unfold made, same, changed in *. by rewrite S1, D1 in Hm.
Qed.

Lemma create_dir_all_step P rest h cs : (P → calm rest h) → Forall component_ok cs → standing_at (tree h) cs →
  (∀ n, tree h !! join slash cs = Some n → nd_kind n = Directory) →
  outcome P (create_dir_all umask (join slash cs) h) (λ _ h', made (join slash cs) h h') (λ _, calm rest).
Proof.
  intros HP Hcs Hs Hd. unfold create_dir_all. eapply outcome_bind; [by apply (sys_call_step P rest)|].
  intros ? h1 [S1 D1].
  assert ((if bool_decide (join slash cs = []) then [] else split slash (join slash cs)) = cs) as ->.
  { destruct cs as [|c cs]; [done|]. rewrite bool_decide_eq_false_2 by by apply join_nonempty.
    by rewrite split_join by (try done; by apply components_free). }
  eapply outcome_weaken; [apply (make_directories_step rest cs _ [] h1)|]; [tauto|done|by rewrite S1|by rewrite S1|].
  intros ? h2 Hm. unfold made, same, changed in *. by rewrite S1, D1 in Hm.
Qed.

Lemma create_parent_step P rest h p : (P → calm rest h) → validate_relative_path p = Ok tt → standing (tree h) p →
  outcome P (create_parent umask p h) (λ _ h', same h h') (λ _, calm rest).
Proof.
  intros HP Hv Hs. unfold create_parent. case_bool_decide as Hp; [by apply sys_call_step|].
  destruct (standing_parent _ _ Hv Hs Hp) as (n & Hn & Hk).
  apply relative_path_spec in Hv as [->|(_ & _ & cs & Hne & Hcs & ->)]; [done|]. apply standing_at_join in Hs; [|done].
  destruct cs as [|c cs _] using rev_ind; [done|]. apply Forall_app in Hcs as [Hcs Hc]. rewrite Forall_singleton in Hc.
  rewrite parent_of_join in Hn |- * by done.
  eapply outcome_weaken; [apply (create_dir_all_step P rest); [done|done| |congruence]|].
  - intros ls ks Hks <-. apply (Hs ls (ks ++ [c])); [by destruct ks|by rewrite app_assoc].
  - intros ? h1 [(x & _ & H)|(Hx & _)]; [done|congruence].
Qed.

Lemma create_dir_done P rest h p m : (P → calm rest h) → validate_relative_path p = Ok tt → standing (tree h) p →
  tree h !! p = None →
  outcome P (create_dir_step guest umask GuestToHost p m h)
    (λ _ h', changed p h h' ∧ ∃ m' s n, tree h' !! p = Some (mkNode Directory m' s n [])) (λ _, calm rest).
Proof.
  intros HP Hv Hs Hn. unfold create_dir_step.
  eapply outcome_bind; [by apply (checked_step P rest); [| |apply standing_clear]|]. intros ? h1 [-> S1].
  eapply outcome_bind; [by apply (metadata_step_at _ rest); tauto|]. intros ? h2 [-> S2].
  pose proof (transitivity S1 S2) as [S D]. rewrite (proj1 S1), Hn.
  eapply outcome_bind; [by apply (require_step _ h2 (calm rest)); tauto|]. intros ? h3 [-> _].
  assert (∃ cs, p = join slash cs ∧ Forall component_ok cs) as (cs & -> & Hcs).
  { apply relative_path_spec in Hv as [->|(_ & _ & cs & Hne & Hcs & ->)]; [by exists []|by exists cs]. }
  eapply outcome_weaken; [apply (create_dir_all_step _ rest); [tauto|done| |]|].
  - rewrite S. by apply standing_at_join.
  - rewrite S, Hn. done.
  - intros ? h4 [(x & Hx & _)|(_ & [T4 D4] & H4)]; [congruence|]. rewrite S in T4. split; [split; [done|congruence]|done].
Qed.

(** *** Files *)

Lemma install_step P rest h p x : (P → calm rest h) → (∀ n, tree h !! p = Some n → nd_kind n ≠ Directory) →
  outcome P (install p x h) (λ _ h', changed p h h' ∧ tree h' !! p = Some x) (λ _, calm rest).
Proof.
  intros HP Hd. unfold install. eapply outcome_bind; [by apply (sys_call_step P rest)|]. intros ? h1 [S1 D1].
  eapply outcome_bind; [by apply (get_tree_step _ h1 (calm rest)); tauto|]. intros ? h2 [-> ->].
  eapply outcome_bind; [apply (require_step _ h1 (calm rest)); [tauto|]|].
  { intros _. rewrite S1. destruct (tree h !! p) as [n|] eqn:Hn; [|done]. by apply negb_true_iff, bool_decide_eq_false_2, Hd. }
  intros ? h2 [-> _]. eapply outcome_weaken; [apply (put_step _ rest h1); tauto|].
  intros ? h2 [[T2 D2] H2]. rewrite S1 in T2. split; [split; [done|congruence]|done].
Qed.

Lemma file_times_ok secs nanos t : 0 ≤ nanos < 1000000000 → file_times secs nanos = Ok t → t = (secs, nanos).
Proof.
  intros Hn. unfold file_times, SyncAgent.sync_file_times. destruct (_ && _); [|done]. intros [= <-].
  rewrite Z.div_small, Z.mod_small, Z.add_0_r by done. done.
Qed.
Lemma file_times_some secs nanos : 0 ≤ nanos < 1000000000 → - 2 ^ 63 ≤ secs < 2 ^ 63 → ∃ t, file_times secs nanos = Ok t.
Proof.
  intros Hn Hs. unfold file_times, SyncAgent.sync_file_times. rewrite Z.div_small, Z.add_0_r by done.
  rewrite (proj2 (Z.leb_le _ _)), (proj2 (Z.ltb_lt _ _)) by lia. by eexists.
Qed.

Lemma receive_file_step P h data size mode secs nanos rest :
  (P → arriving data [] (IFrame (WFrame Success) :: rest) h ∧ zlen data = size) →
  - 2 ^ 63 ≤ secs < 2 ^ 63 → 0 ≤ nanos < 1000000000 → 0 ≤ size →
  outcome P (receive_file size mode secs nanos h)
    (λ r h', same h h' ∧ r.2 = mkNode (File size) (to_safe_mode mode) secs nanos r.1) (λ r h', r.1 = data ∧ calm rest h').
Proof.
  intros HP Hs Hn Hsz. unfold receive_file. set (more := IFrame (WFrame Success) :: rest).
  eapply outcome_bind; [apply (receive_step _ data size more P [] (mkStaged [] 0) h HP)|].
  { done. } { done. } { change (zlen []) with 0. lia. }
  intros [got f] h1 (S1 & Hw & Hl). cbn [fst snd] in *.
  eapply outcome_bind; [by apply (sys_call_step _ more); tauto|]. intros ? h2 S2.
  eapply outcome_bind; [by apply (sys_call_step _ more); tauto|]. intros ? h3 S3.
  eapply outcome_bind; [by apply (reply_step _ h3 Success rest); [tauto|]|]. intros reply h4 S4.
  eapply outcome_bind; [apply (require_step _ h4 (calm rest)); [tauto|]|].
  { intros (_ & -> & _). done. }
  intros ? h5 [-> _]. eapply outcome_bind; [apply (lift_step _ h4 (calm rest)); [tauto|]|].
  { intros _. by apply file_times_some. }
  intros times h5 [-> ->%file_times_ok]; [|done].
  eapply outcome_bind; [by apply (sys_call_step _ rest); tauto|]. intros ? h5 S5.
  eapply outcome_bind; [by apply (sys_call_step _ rest); tauto|]. intros ? h6 S6.
  apply outcome_ret; [|tauto]. split; [chain|]. cbn.
  f_equal. rewrite <- Hl. apply Hw.
Qed.

Lemma or_drop_step {A} P p (m : act A) h Q N : outcome P (m h) Q N → outcome P (or_drop p m h) Q N.
Proof. unfold or_drop, outcome. destruct (m h) as [[a|e] h1]; [done|]. destruct (sys_try h1) as [[|] h2]; done. Qed.

Lemma touch_at p h : validate_relative_path p = Ok tt → tree (touch p h) !! p = tree h !! p.
Proof.
  intros Hv. unfold touch. set (x := match stamps h with [] => _ | _ => _ end).
  assert (Hx : tree x.2 = tree h) by (subst x; by destruct (stamps h)). destruct x as [[s n] h1]. cbn in Hx.
  case_bool_decide as Hp; [by rewrite Hx|]. cbn. rewrite lookup_alter_ne, Hx; [done|]. by apply parent_ne.
Qed.

Lemma staged_new_step P rest h p : (P → calm rest h) → validate_relative_path p = Ok tt →
  outcome P (staged_new p h) (λ _ h', changed p h h' ∧ tree h' !! p = tree h !! p) (λ _, calm rest).
Proof.
  intros HP Hv. unfold staged_new. eapply outcome_bind; [by apply (sys_call_step P rest)|]. intros ? h1 S1.
  eapply outcome_bind; [by apply (sys_call_step _ rest); tauto|]. intros ? h2 S2. pose proof (transitivity S1 S2) as [S D].
  destruct (touch_changed ((P ∧ calm rest h1) ∧ calm rest h2) rest h2 ltac:(tauto) p) as [[T3 D3] H3].
  split; [|done]. rewrite touch_at, S by done. split; [|done]. rewrite S in T3. split; [done|congruence].
Qed.

(** The file of the guest at [p] was fetched: [bs] arrived. *)
Definition fetched (p : str) (node_of : list Z → node) (h h' : Host) (bs : list Z) : Prop :=
  touched_at p (tree h) (tree h') ∧ delivered h' = delivered h ++ [(p, bs)] ∧ tree h' !! p = Some (node_of bs).

Lemma land_safe m : Z.land (Z.land m 0x1ff) 0x1ed = Z.land m 0x1ed.
Proof. by rewrite <- Z.land_assoc. Qed.

Lemma staged_step P h p data size mode secs nanos :
  (P → arriving data [] [IFrame (WFrame Success)] h ∧ zlen data = size) →
  - 2 ^ 63 ≤ secs < 2 ^ 63 → 0 ≤ nanos < 1000000000 → 0 ≤ size →
  (∀ n, tree h !! p = Some n → nd_kind n ≠ Directory) →
  outcome P (or_drop p (file <- receive_file size mode secs nanos;; install p file.2;;; st_ret file)%st h)
    (λ r h', changed p h h' ∧ r.2 = mkNode (File size) (to_safe_mode mode) secs nanos r.1 ∧ tree h' !! p = Some r.2)
    (λ r h', r.1 = data ∧ calm [] h').
Proof.
  intros HP Hs Hn Hsz Hd. apply or_drop_step.
  eapply outcome_bind; [by apply (receive_file_step P h data size mode secs nanos [])|]. intros r h1 [[S1 D1] Hr].
  eapply outcome_bind; [apply (install_step _ [] h1 p r.2); [tauto|by rewrite S1]|]. intros ? h2 [[T2 D2] H2].
  apply outcome_ret; [|tauto]. rewrite S1 in T2. split_and!; [split; [done|congruence]|done|done].
Qed.

Lemma deliver_step P h p bs : (P → bs = source_data p ∧ calm [] h) →
  outcome P (deliver p bs h) (λ _ h', tree h' = tree h ∧ delivered h' = delivered h ++ [(p, bs)]) (λ _, calm []).
Proof.
  intros HP. split; [done|]. intros [-> (H1 & H2 & H3 & H4 & H5)]%HP. split_and!; [done..|]. cbn.
  apply Forall_app. split; [done|by apply Forall_singleton].
Qed.

(** A file of the source, as its listing gives it. *)
Record listed_file (p : str) (src : SyncEntry) (size : Z) : Prop := {
  lf_entry : bt_get p source = Some src;
  lf_kind : kind src = File size;
  lf_size : zlen (source_data p) = size;
  lf_mode : Z.land (mode src) 0x1ff = mode src;
  lf_secs : - 2 ^ 63 ≤ mtime_secs src < 2 ^ 63;
  lf_nanos : 0 ≤ mtime_nanos src < 1000000000;
}.

(** What an honest guest has still to send after it announced the file. *)
Definition to_come (p : str) (rest : list Incoming) : Prop :=
  ∃ pieces, concat pieces = source_data p ∧ Forall (λ c, c ≠ []) pieces ∧
    rest = (IData <$> pieces) ++ [IFrame (WFrame Success)].

Lemma announce_step P h p src size : (P → calm [] h) → listed_file p src size →
  outcome P ((send_request guest (ReadFile p);;; read_reply)%st h) (λ _ h', same h h')
    (λ a h', a = ReadFileReady size (mode src) (mtime_secs src) (mtime_nanos src) ∧
       to_come p (incoming h') ∧ calm (incoming h') h').
Proof.
  intros HP [H1 H2 _ _ _ _]. set (r := ReadFileReady size (mode src) (mtime_secs src) (mtime_nanos src)).
  eapply outcome_bind; [apply (send_step P h (ReadFile p) (λ l, ∃ rest, to_come p rest ∧ l = IFrame (WFrame r) :: rest) HP)|].
  { intros (Hh & _)%HP out. destruct (ho_file Hh out p src size H1 H2) as (pieces & Hp & Hne & ->).
    eexists. split; [|done]. by exists pieces. }
  intros ? h1 S1. set (rest := tail (incoming h1)).
  set (P1 := P ∧ _). assert (Hc : P1 → to_come p rest ∧ calm (IFrame (WFrame r) :: rest) h1).
  { intros (_ & ? & (rest' & Ht & ->) & Hc). assert (rest = rest') as -> by (unfold rest; by destruct Hc as (_ & _ & -> & _)). done. }
  eapply outcome_impl; [apply (reply_step P1 h1 r rest); [tauto|done]|done|intros ? h2 S2; chain|].
  intros ? h2 HP1 _ [-> Hc2]. assert (incoming h2 = rest) as -> by apply Hc2. tauto.
Qed.

Lemma bind_assoc {A B C} (m : act A) (f : A → act B) (g : B → act C) h :
  st_bind m (λ a, st_bind (f a) g) h = st_bind (st_bind m f) g h.
Proof. unfold st_bind. by destruct (m h) as [[a|e] h1]. Qed.

Lemma fetch_step P h p src size : (P → calm [] h) → listed_file p src size →
  validate_relative_path p = Ok tt → standing (tree h) p → (∀ n, tree h !! p = Some n → nd_kind n ≠ Directory) →
  outcome P (fetch_file_from_guest guest umask p p (size, mode src, mtime_secs src, mtime_nanos src) h)
    (λ a h', a = size ∧ ∃ bs, fetched p (mkNode (File size) (to_safe_mode (mode src)) (mtime_secs src) (mtime_nanos src)) h h' bs)
    (λ _, calm []).
Proof.
  intros HP Hf Hv Hs Hd. unfold fetch_file_from_guest. rewrite bind_assoc.
  eapply outcome_bind; [by apply (announce_step P h p src size)|]. intros reply h1 S1. set (rest := incoming h1).
  set (P1 := P ∧ _). destruct reply as [| | | | | |size' m' s' n'| |]; try (intros (_ & ? & _); done).
  eapply outcome_bind; [apply (require_step P1 h1 (calm rest)); [unfold P1, rest; tauto|]|].
  { intros (_ & [= -> -> -> ->] & _). apply bool_decide_eq_true_2. by rewrite (lf_mode _ _ _ Hf). }
  intros ? h2 [-> [= -> Hm -> ->]%bool_decide_eq_true]. set (P2 := P1 ∧ _).
  eapply outcome_bind; [apply (create_parent_step P2 rest h1); [unfold P2; tauto|done|by rewrite (proj1 S1)]|].
  intros ? h2 S2. pose proof (transitivity S1 S2) as [S D].
  eapply outcome_bind; [by apply (staged_new_step (P2 ∧ calm rest h2) rest h2); [tauto|]|].
  intros ? h3 [[T3 D3] H3]. set (P3 := (P2 ∧ calm rest h2) ∧ calm rest h3).
  eapply outcome_bind; [apply (staged_step P3 h3 p (source_data p) size m')|].
  { intros [[((_ & _ & (pieces & H1 & H2 & H4) & _) & _) _] Hc]. split; [|apply Hf]. exists pieces. by rewrite <- H4. }
  { apply Hf. } { apply Hf. } { rewrite <- (lf_size _ _ _ Hf). apply zlen_nonneg. } { by rewrite H3, S. }
  intros [bs nd] h4 ([T4 D4] & Hnd & H4). cbn [fst snd] in *. subst nd. set (P4 := P3 ∧ _).
  assert (T : touched_at p (tree h) (tree h4)) by (rewrite <- S; by etrans).
  eapply outcome_bind; [by apply (deliver_step P4 h4 p bs); unfold P4; tauto|].
  intros ? h5 [T5 D5]. eapply outcome_bind; [by apply (sys_call_step _ [] h5); tauto|]. intros ? h6 [T6 D6].
  assert (Hdel : delivered h6 = delivered h ++ [(p, bs)]) by congruence.
  apply outcome_ret.
  - split; [done|]. exists bs. split_and!; [by rewrite T6, T5|done|]. rewrite T6, T5, H4. do 2 f_equal.
    unfold to_safe_mode. by rewrite <- Hm, land_safe.
  - tauto.
Qed.

Lemma transfer_done P h p src size : (P → calm [] h) → listed_file p src size →
  validate_relative_path p = Ok tt → standing (tree h) p → (∀ n, tree h !! p = Some n → nd_kind n ≠ Directory) →
  outcome P (transfer_step guest umask GuestToHost p (size, mode src, mtime_secs src, mtime_nanos src) h)
    (λ a h', a = size ∧ ∃ bs, fetched p (mkNode (File size) (to_safe_mode (mode src)) (mtime_secs src) (mtime_nanos src)) h h' bs)
    (λ _, calm []).
Proof.
  intros HP Hf Hv Hs Hd. unfold transfer_step.
  eapply outcome_bind; [by apply (checked_step P []); [| |apply standing_clear]|]. intros ? h1 [-> [S1 D1]].
  eapply outcome_impl; [apply (fetch_step (P ∧ calm [] h1) h1 p src size)|..]; try done.
  - tauto.
  - by rewrite S1.
  - by rewrite S1.
  - unfold fetched. by rewrite S1, D1.
Qed.

(** *** Links *)

Lemma sys_try_step P rest h : (P → calm rest h) → same h (sys_try h).2 ∧ (P → (sys_try h).1 = false ∧ calm rest (sys_try h).2).
Proof.
  intros HP. unfold sys_try, pop. destruct (answers h) as [|a l] eqn:Ha; cbn; [by split; [|auto]|].
  split; [done|]. intros (_ & H & _)%HP. congruence.
Qed.

Lemma install_link_step P h p target : (P → calm [] h) → validate_relative_path p = Ok tt →
  (∀ n, tree h !! p = Some n → nd_kind n ≠ Directory) →
  outcome P (install_host_symlink target p h)
    (λ _ h', changed p h h' ∧ ∃ m s n, tree h' !! p = Some (mkNode (Symlink target) m s n [])) (λ _, calm []).
Proof.
  intros HP Hv Hd. unfold install_host_symlink. eapply outcome_bind; [by apply (sys_call_step P [])|].
  intros ? h1 [S1 D1]. set (P1 := P ∧ calm [] h1). destruct (touch_changed P1 [] h1 ltac:(unfold P1; tauto) p) as [[T2 D2] H2].
  pose proof (touch_at p h1 Hv) as N2. set (h2 := touch p h1) in *. set (x := mkNode (Symlink target) 0x1ff 0 0 []).
  assert (HI : outcome P1 ((sys_call;;; install p x)%st h2) (λ _ h', changed p h2 h' ∧ tree h' !! p = Some x) (λ _, calm [])).
  { eapply outcome_bind; [by apply (sys_call_step P1 [])|]. intros ? h3 [S3 D3].
    eapply outcome_weaken; [apply (install_step _ [] h3 p x); [tauto|by rewrite S3, N2, S1]|].
    intros ? h4 [[T4 D4] H4]. rewrite S3 in T4. split; [split; [done|congruence]|done]. }
  destruct ((sys_call;;; install p x)%st h2) as [[[]|e] h3]; [|by destruct (sys_try h3) as [? h4]; destruct (sys_try h4)].
  destruct HI as [[[T3 D3] N3] H3]. destruct (sys_try_step P1 [] h3 H3) as [[S4 D4] H4]. destruct (sys_try h3) as [a4 h4].
  cbn [fst snd] in *. destruct (sys_try_step P1 [] h4 ltac:(tauto)) as [[S5 D5] H5]. destruct (sys_try h4) as [a5 h5].
  cbn [fst snd] in *. destruct (touch_changed P1 [] h5 ltac:(tauto) p) as [[T6 D6] H6].
  pose proof (touch_at p h5 Hv) as N6. set (h6 := touch p h5) in *. cbn [is_ok negb andb orb].
  assert (Hch : changed p h h6).
  { split; [|congruence]. rewrite <- S1. etrans; [exact T2|]. etrans; [exact T3|]. by rewrite <- S4, <- S5. }
  assert (Hnode : tree h6 !! p = Some x) by (rewrite N6, S5, S4; done).
  split.
  - destruct a5; [|split; [done|by eauto]]. split; [exact Hch|by eauto].
  - intros H. destruct (H5 H) as [-> _]. by apply H6.
Qed.

Lemma symlink_done P h p target : (P → calm [] h) → validate_download_symlink_target p target = Ok tt →
  validate_relative_path p = Ok tt → standing (tree h) p → (∀ n, tree h !! p = Some n → nd_kind n ≠ Directory) →
  outcome P (symlink_step guest umask GuestToHost p target h)
    (λ _ h', changed p h h' ∧ ∃ m s n, tree h' !! p = Some (mkNode (Symlink target) m s n [])) (λ _, calm []).
Proof.
  intros HP Ht Hv Hs Hd. unfold symlink_step.
  eapply outcome_bind; [apply (lift_step P h (calm []) HP); by exists tt|]. intros ? h1 [-> _].
  eapply outcome_bind; [by apply (checked_step _ []); [tauto| |apply standing_clear]|]. intros ? h1 [-> S1].
  eapply outcome_bind; [apply (create_parent_step _ [] h1); [tauto|done|by rewrite (proj1 S1)]|]. intros ? h2 S2.
  pose proof (transitivity S1 S2) as [S D].
  eapply outcome_weaken; [apply (install_link_step _ h2); [tauto|done|by rewrite S]|].
  intros ? h3 [[T3 D3] H3]. rewrite S in T3. split; [split; [done|congruence]|done].
Qed.

(** *** Metadata, removal, the end *)

Lemma metadata_done P h u x : (P → calm [] h) → validate_relative_path (u_path u) = Ok tt → clear (tree h) (u_path u) →
  tree h !! u_path u = Some x → (∀ t, nd_kind x ≠ Symlink t) →
  - 2 ^ 63 ≤ u_secs u < 2 ^ 63 → 0 ≤ u_nanos u < 1000000000 →
  outcome P (metadata_step guest GuestToHost u h)
    (λ _ h', tree h' = <[u_path u := mkNode (nd_kind x) (to_safe_mode (u_mode u)) (u_secs u) (u_nanos u) (nd_data x)]> (tree h) ∧
       delivered h' = delivered h) (λ _, calm []).
Proof.
  intros HP Hv Hc Hx Hl Hs Hn. unfold metadata_step, update_host_metadata.
  eapply outcome_bind; [by apply (checked_step P [])|]. intros ? h1 [-> S1].
  eapply outcome_bind; [by apply (sys_call_step _ []); tauto|]. intros ? h2 S2. pose proof (transitivity S1 S2) as [S D].
  eapply outcome_bind; [by apply (get_tree_step _ h2 (calm [])); tauto|]. intros ? h3 [-> ->]. rewrite S, Hx.
  eapply outcome_bind; [apply (require_step _ h2 (calm [])); [tauto|]|].
  { intros _. destruct (nd_kind x) as [| |t] eqn:Hk; [done|done|]. by destruct (Hl t). }
  intros ? h3 [-> _]. eapply outcome_bind; [by apply (sys_call_step _ []); tauto|]. intros ? h3 S3.
  eapply outcome_bind with (Q := λ _ h', same h3 h') (N := λ a h', a = 1 ∧ calm [] h').
  { destruct (nd_kind x); [apply sys_count_step; tauto|by apply outcome_ret; [|tauto]|by apply outcome_ret; [|tauto]]. }
  intros links h4 S4. eapply outcome_bind; [apply (require_step _ h4 (calm [])); [tauto|]|].
  { by intros (_ & -> & _). }
  intros ? h5 [-> _]. eapply outcome_bind; [by apply (sys_call_step _ []); tauto|]. intros ? h5 S5.
  eapply outcome_bind; [by apply (set_node_step _ []); tauto|]. intros ? h6 [T6 D6].
  eapply outcome_bind; [apply (lift_step _ h6 (calm [])); [tauto|intros _; by apply file_times_some]|].
  intros times h7 [-> ->%file_times_ok]; [|done].
  eapply outcome_bind; [by apply (sys_call_step _ []); tauto|]. intros ? h7 [S7 D7].
  eapply outcome_weaken; [by apply (set_node_step _ []); tauto|]. intros ? h8 [T8 D8].
  assert (SD : same h h5) by chain. destruct SD as [Sa Da]. split; [|congruence].
  rewrite T8, S7, T6, Sa. apply map_eq. intros q. destruct (decide (q = u_path u)) as [->|Hq].
  - by rewrite !lookup_alter_eq, Hx, lookup_insert_eq.
  - by rewrite !lookup_alter_ne, lookup_insert_ne.
Qed.

Lemma remove_done P h p is_dir x : (P → calm [] h) → validate_relative_path p = Ok tt → clear (tree h) p →
  tree h !! p = Some x → is_dir = bool_decide (nd_kind x = Directory) →
  (∀ q : str, q ≠ [] → parent_of q = p → tree h !! q = None) →
  outcome P (remove_step guest GuestToHost p is_dir h) (λ _ h', changed p h h' ∧ tree h' !! p = None) (λ _, calm []).
Proof.
  intros HP Hv Hc Hx Hd Hin. unfold remove_step.
  eapply outcome_bind; [by apply (checked_step P [])|]. intros ? h1 [-> S1].
  assert (HD : ∀ P' h', (P' → calm [] h') → same h h' →
    outcome P' (delete_entry p h') (λ _ h'', changed p h h'' ∧ tree h'' !! p = None) (λ _, calm [])).
  { intros P' h' HP' [S D]. eapply outcome_weaken; [by apply (delete_step P' [] h')|].
    intros ? h'' [[T'' D''] H'']. rewrite S in T''. split; [split; [done|congruence]|done]. }
  destruct is_dir; [unfold remove_dir|unfold remove_file];
    (eapply outcome_bind; [by apply (sys_call_step _ []); tauto|]); intros ? h2 S2; pose proof (transitivity S1 S2) as [S D];
    (eapply outcome_bind; [by apply (get_tree_step _ h2 (calm [])); tauto|]); intros ? h3 [-> ->]; rewrite S, Hx;
    (eapply outcome_bind; [apply (require_step _ h2 (calm [])); [tauto|]|]).
  - intros _. by unfold is_directory.
  - intros ? h3 [-> _]. destruct (has_entries p h2) eqn:He; [|apply HD; [tauto|done]]. intros [_ (_ & _ & _ & Hlo & _)].
    unfold has_entries in He. rewrite Hlo, app_nil_r, existsb_exists in He. destruct He as (q & Hq & [Hne Hpq]%andb_true_iff).
    apply negb_true_iff, bool_decide_eq_false in Hne. apply bool_decide_eq_true in Hpq.
    apply list_elem_of_In, list_elem_of_fmap in Hq as ([q' n] & -> & Hq%elem_of_map_to_list).
    cbn in *. rewrite S, Hin in Hq; [done|done|done].
  - intros _. unfold is_directory. by rewrite <- Hd.
  - intros ? h3 [-> _]. apply HD; [tauto|done].
Qed.

Lemma end_done P h : (P → calm [] h) → outcome P (expect_success guest EndSession h) (λ _ h', same h h') (λ _, calm []).
Proof.
  intros HP. unfold expect_success.
  eapply outcome_bind; [apply (send_step P h EndSession (λ l, l = [IFrame (WFrame Success)]) HP)|].
  { intros (Hh & _)%HP out. apply (ho_end Hh). }
  intros ? h1 S1. eapply outcome_bind; [apply (reply_step _ h1 Success [])|].
  { by intros (_ & ? & -> & Hc). } { done. }
  intros reply h2 S2. pose proof (transitivity S1 S2) as S.
  destruct reply; try (by intros (_ & ? & _)). apply outcome_ret; [done|tauto].
Qed.

End Steps.

End SyncSteps.
