(* ===== verification/SyncConverge.v ===== *)
(** * A synchronisation makes the destination equal to the source

    The plan of [SyncPlan] for a download, executed by [SyncExec] against any guest
    and any refusals of the host's system calls. *)

From stdpp Require Import strings sorting gmap.
From S2P Require Import Prelude PolicyRules SyncTree SyncLinks PackedImage SyncPlan Frames SyncAgent SyncExec SyncSteps.

Local Open Scope Z_scope.

Module SyncConverge.
Import Sync SyncLinks SyncPlan SyncExec SyncSteps.

(** ** Lists of actions *)

Lemma omap_NoDup_inj {A B} (f : A → option B) l x y b :
  NoDup (omap f l) → x ∈ l → y ∈ l → f x = Some b → f y = Some b → x = y.
Proof.
  induction l as [|a l IH]; [by intros _ ?%not_elem_of_nil|]. cbn [omap list_omap].
  intros Hnd Hx Hy Hfx Hfy. apply elem_of_cons in Hx, Hy.
  assert (Htail : ∀ z, z ∈ l → f z = Some b → b ∈ omap f l).
  { intros z Hz Hfz. apply list_elem_of_omap. by exists z. }
  destruct Hx as [->|Hx], Hy as [->|Hy]; [done|..].
  - rewrite Hfx in Hnd. apply NoDup_cons in Hnd as [Hn _]. exfalso. by eapply Hn, Htail.
  - rewrite Hfy in Hnd. apply NoDup_cons in Hnd as [Hn _]. exfalso. by eapply Hn, Htail.
  - destruct (f a); [apply NoDup_cons in Hnd as [_ Hnd]|]; by apply IH.
Qed.

Lemma omap_sublist {A B} (f g : A → option B) l :
  (∀ x b, g x = Some b → f x = Some b) → omap g l `sublist_of` omap f l.
Proof.
  intros Hfg. induction l as [|a l IH]; [done|]. cbn [omap list_omap].
  destruct (g a) as [b|] eqn:Hg; [rewrite (Hfg _ _ Hg); by constructor|].
  destruct (f a); [by constructor|done].
Qed.

(** ** The actions of a plan *)

(** The path of an action that changes an entry, directory times apart. *)
Definition struct_path (a : PlanAction) : option str :=
  match a with
  | CreateDir p _ | TransferFile p _ _ _ _ | CreateSymlink p _ | UpdateFileMetadata p _ _ _
  | RemoveEntry p _ => Some p
  | UpdateDirMetadata _ _ _ _ | Skip _ => None
  end.

Section Actions.
Context (checksum : str → result SyncError (list Z * list Z)).
Context (source target : btree SyncEntry) (is_checksum is_delete : bool) (direction : Direction).

Local Abbreviation entry_plan := (plan_entry checksum target is_checksum direction).

Lemma plan_entries_elem todo updates :
  plan_entries checksum target is_checksum direction todo = Ok updates →
  (∀ p src, (p, src) ∈ todo → ∃ a, entry_plan p src = Ok a ∧ a ⊆ updates) ∧
  (∀ x, x ∈ updates → ∃ p src a, (p, src) ∈ todo ∧ entry_plan p src = Ok a ∧ x ∈ a).
Proof.
  revert updates. induction todo as [|[p src] todo IH]; intros updates; cbn [plan_entries].
  { intros [= <-]. split; [by intros ? ? ?%not_elem_of_nil|by intros ? ?%not_elem_of_nil]. }
  rewrite bind_Ok. intros (a & Ha & H). rewrite bind_Ok in H. destruct H as (rest & Hr & [= <-]).
  destruct (IH rest Hr) as [IH1 IH2]. split.
  - intros p' src' [[= -> ->]|Hin]%elem_of_cons.
    + exists a. split; [done|]. intros x Hx. apply elem_of_app. by left.
    + destruct (IH1 p' src' Hin) as (a' & Ha' & Hsub). exists a'. split; [done|].
      intros x Hx. apply elem_of_app. right. by apply Hsub.
  - intros x [Hx|Hx]%elem_of_app; [exists p, src, a; split_and!; [by left|done|done]|].
    destruct (IH2 x Hx) as (p' & src' & a' & ? & ? & ?). exists p', src', a'. split_and!; [by right|done|done].
Qed.

(** Every action of an entry is about that entry. *)
Lemma entry_plan_paths p src a :
  entry_plan p src = Ok a → omap struct_path a = [] ∨ omap struct_path a = [p].
Proof.
  unfold plan_entry. destruct (bt_get p target) as [dst|].
  - destruct (kind src).
    + unfold plan_file_update. destruct (negb _); [intros [= <-]; by right|].
      rewrite bind_Ok. intros (x & Hx & [= <-]). rewrite bind_Ok in Hx. destruct Hx as (same & _ & [= <-]).
      destruct same; [|by right]. destruct (_ || _); [by right|by left].
    + intros [= <-]. destruct (_ || _); by left.
    + intros [= <-]. case_bool_decide; [by left|by right].
  - intros [= <-]. destruct (kind src); by right.
Qed.

Lemma plan_entries_NoDup todo updates :
  NoDup todo.*1 → plan_entries checksum target is_checksum direction todo = Ok updates →
  NoDup (omap struct_path updates) ∧ omap struct_path updates ⊆ todo.*1.
Proof.
  revert updates. induction todo as [|[p src] todo IH]; intros updates Hnd; cbn [plan_entries].
  { intros [= <-]. by split; [constructor|]. }
  rewrite bind_Ok. intros (a & Ha & H). rewrite bind_Ok in H. destruct H as (rest & Hr & [= <-]).
  cbn [fmap list_fmap fst] in Hnd |- *. apply NoDup_cons in Hnd as [Hp Hnd].
  destruct (IH rest Hnd Hr) as [N S]. rewrite omap_app.
  destruct (entry_plan_paths p src a Ha) as [->| ->]; cbn [app].
  - split; [done|]. intros x Hx. right. by apply S.
  - split; [apply NoDup_cons; split; [|done]; by intros ?%S|].
    intros x [->|Hx]%elem_of_cons; [by left|right; by apply S].
Qed.

Lemma extras_elem x :
  x ∈ plan_extras source target is_delete ↔
  ∃ p dst, (p, dst) ∈ target ∧ is_extra source p = true ∧
    x = if is_delete then RemoveEntry p (is_dir dst) else Skip p.
Proof.
  unfold plan_extras. rewrite list_elem_of_fmap. split.
  - intros ([p dst] & -> & [He Hin]%list_elem_of_filter). by exists p, dst.
  - intros (p & dst & Hin & He & ->). exists (p, dst). split; [done|]. by apply list_elem_of_filter.
Qed.

Lemma extras_paths :
  omap struct_path (plan_extras source target is_delete) =
  if is_delete then filter (λ p, is_extra source p = true) target.*1 else [].
Proof.
  unfold plan_extras. unfold btree in *.
  induction target as [|[p dst] m IH]; [by destruct is_delete|].
  cbn [fmap list_fmap fst]. rewrite !filter_cons. cbn [fst].
  destruct (decide (is_extra source p = true)); [|done].
  destruct is_delete; cbn [fmap list_fmap omap list_omap fst snd struct_path]; [|done].
  f_equal. exact IH.
Qed.

Lemma bt_wf_NoDup {V} (m : btree V) : bt_wf m → NoDup m.*1.
Proof.
  intros H. induction H as [|k l Hl IH Hk]; constructor; [|done]. intros Hin.
  rewrite Forall_forall in Hk. by apply (str_lt_irrefl k), Hk.
Qed.

Lemma plan_NoDup updates :
  bt_wf source → bt_wf target → plan_entries checksum target is_checksum direction source = Ok updates →
  NoDup (omap struct_path (updates ++ plan_extras source target is_delete)).
Proof.
  intros Hs Ht Hu. destruct (plan_entries_NoDup source updates (bt_wf_NoDup _ Hs) Hu) as [N S].
  rewrite omap_app, extras_paths. destruct is_delete; [|by rewrite app_nil_r].
  apply NoDup_app. split_and!; [done| |apply NoDup_filter, bt_wf_NoDup, Ht].
  intros p Hp [He _]%list_elem_of_filter. apply S, list_elem_of_fmap in Hp as ([k e] & -> & Hin).
  unfold is_extra in He. cbn [fst] in He. rewrite (bt_elem_get _ _ _ Hs Hin) in He.
  by rewrite andb_false_r in He.
Qed.

(** The restored actions: the same changes. *)
Lemma restore_struct ch a : struct_path (restore_parent source ch a) = struct_path a.
Proof. destruct a; try done. cbn [restore_parent]. by repeat case_match. Qed.

Lemma restore_elem ch (raw : list PlanAction) x :
  x ∈ restore_parent source ch <$> raw →
  (x ∈ raw ∧ (∀ p src, x = Skip p → p ∈ ch → bt_get p source = Some src → is_dir src = false)) ∨
  ∃ p src, Skip p ∈ raw ∧ p ∈ ch ∧ bt_get p source = Some src ∧ is_dir src = true ∧ x = update_dir p src.
Proof.
  intros (a & -> & Ha)%list_elem_of_fmap. destruct a as [| | | | | |p]; try by left.
  cbn [restore_parent]. case_bool_decide as Hc; [|by left; split; [|intros ? ? [= <-]]].
  destruct (bt_get p source) as [src|] eqn:Hp; [|left; split; [done|intros ? ? [= <-] _; by rewrite Hp]].
  destruct (is_dir src) eqn:Hd; [right; by exists p, src|].
  left. split; [done|]. intros ? ? [= <-] _. by rewrite Hp; intros [= <-].
Qed.

Lemma restore_keep ch (raw : list PlanAction) x :
  x ∈ raw → is_Some (struct_path x) → x ∈ restore_parent source ch <$> raw.
Proof. intros Hx [p Hp]. apply list_elem_of_fmap. exists x. split; [|done]. by destruct x. Qed.

(** The two files were judged to have the same contents. *)
Definition judged_same (p : str) (src dst : SyncEntry) : Prop :=
  if is_checksum then ∃ h, checksum p = Ok (h, h) else mtime_differs src dst = false.

Definition same_metadata (src dst : SyncEntry) : Prop :=
  mode dst = effective_mode (mode src) direction ∧ mtime_secs dst = mtime_secs src ∧
  mtime_nanos dst = mtime_nanos src.

Lemma same_metadata_test src dst :
  mode_differs direction src dst || mtime_differs src dst = false → same_metadata src dst.
Proof.
  unfold mode_differs, mtime_differs, same_metadata. rewrite !orb_false_iff, !negb_false_iff, !Z.eqb_eq.
  intuition congruence.
Qed.

(** What each action says about its entry. *)
Definition action_ok (p : str) (src : SyncEntry) (x : PlanAction) : Prop :=
  match x with
  | CreateDir q m => q = p ∧ kind src = Directory ∧ bt_get p target = None
  | TransferFile q size m s n =>
      q = p ∧ kind src = File size ∧ m = mode src ∧ s = mtime_secs src ∧ n = mtime_nanos src
  | CreateSymlink q t => q = p ∧ kind src = Symlink t
  | UpdateFileMetadata q m s n =>
      q = p ∧ m = mode src ∧ s = mtime_secs src ∧ n = mtime_nanos src ∧
      ∃ size dst, kind src = File size ∧ bt_get p target = Some dst ∧ kind dst = File size ∧
        judged_same p src dst
  | UpdateDirMetadata q m s n =>
      q = p ∧ kind src = Directory ∧ m = mode src ∧ s = mtime_secs src ∧ n = mtime_nanos src
  | RemoveEntry _ _ => False
  | Skip q =>
      q = p ∧ ∃ dst, bt_get p target = Some dst ∧ is_dir dst = is_dir src ∧
        (kind src ≠ Directory → kind dst = kind src) ∧
        (is_link src = true ∨ same_metadata src dst) ∧
        (∀ size, kind src = File size → judged_same p src dst)
  end.

Lemma entry_plan_ok p src a :
  entry_plan p src = Ok a →
  (∀ dst, bt_get p target = Some dst → is_dir dst = is_dir src) → Forall (action_ok p src) a ∧ a ≠ [].
Proof.
  intros Ha Hconf. unfold plan_entry in Ha. destruct (bt_get p target) as [dst|] eqn:Ht.
  - specialize (Hconf dst eq_refl). destruct (kind src) as [size| |t] eqn:Hk.
    + rewrite bind_Ok in Ha. destruct Ha as (x & Hx & [= <-]). split; [|done]. apply Forall_singleton.
      unfold plan_file_update in Hx. destruct (negb _) eqn:Hd; [by injection Hx as <-|].
      apply negb_false_iff, bool_decide_eq_true in Hd. rewrite bind_Ok in Hx.
      destruct Hx as (same & Hs & [= <-]). destruct same; [|done].
      assert (judged_same p src dst).
      { unfold judged_same. destruct is_checksum; [|by injection Hs as Hs%negb_true_iff].
        rewrite bind_Ok in Hs. destruct Hs as ([h h'] & Hc & [= ->%bool_decide_eq_true]). by exists h'. }
      destruct (mode_differs direction src dst || mtime_differs src dst) eqn:Hm; cbn [action_ok].
      * split_and!; try done. by exists size, dst.
      * split; [done|]. exists dst. split_and!; [done|done|by intros _; rewrite Hk|right; by apply same_metadata_test|done].
    + injection Ha as <-. split; [|done]. apply Forall_singleton.
      destruct (_ || _) eqn:Hm; [done|]. split; [done|]. exists dst.
      split_and!; [done|done|by rewrite Hk|right; by apply same_metadata_test|by rewrite Hk].
    + injection Ha as <-. split; [|done]. apply Forall_singleton. case_bool_decide as He; [|done].
      split; [done|]. exists dst. unfold is_link. rewrite Hk. by split_and!; try done; left.
  - injection Ha as <-. destruct (kind src) eqn:Hk; (split; [|done]); repeat constructor; by cbn.
Qed.
End Actions.

Lemma build_plan_Ok checksum host_names target_name siblings fuel source target is_checksum is_delete
    direction actions :
  build_plan checksum host_names target_name siblings fuel source target is_checksum is_delete direction
    = Some (Ok actions) →
  validate_plan_conflicts source target = Ok tt ∧
  plan_actions checksum source target is_checksum is_delete direction = Ok actions.
Proof.
  unfold build_plan. destruct (validate_plan_conflicts source target) as [[]|]; [|done].
  intros (checked & _ & [= H])%bind_Some. rewrite bind_Ok in H. by destruct H as ([] & _ & H).
Qed.

(** ** One synchronisation *)

(** What a listing shows of an entry: permission bits and whole microseconds. *)
Definition entry_at (p : str) (n : node) : SyncEntry :=
  mkEntry p (nd_kind n) (Z.land (nd_mode n) 0x1ff) (nd_secs n) (truncate_nanos (nd_nanos n)).

Section Run.
Context (guest : list Outgoing → list Incoming) (umask : Z) (source_data : str → list Z).
Context (checksum : str → result SyncError (list Z * list Z)).
Context (source target : btree SyncEntry) (is_checksum is_delete : bool).
Context (actions : list PlanAction) (d0 : Host).

Local Abbreviation direction := GuestToHost.
Local Abbreviation calm := (calm guest source source_data []).

(** What a synchronisation starts from: sorted manifests, a destination that is as
    its manifest says, a source whose files have their listed sizes and metadata in
    its ranges, a test for equal files that is right, and links that may be
    downloaded. *)
Record starting : Prop := {
  se_source : bt_wf source;
  se_target : bt_wf target;
  se_root : is_Some (bt_get [] source);
  se_target_root : ∀ p dst, bt_get p target = Some dst → is_Some (bt_get [] target);
  se_view : ∀ p, bt_get p target = entry_at p <$> tree d0 !! p;
  se_sizes : ∀ p src size, bt_get p source = Some src → kind src = File size →
    zlen (source_data p) = size;
  se_judged : ∀ p src dst n size, bt_get p source = Some src → bt_get p target = Some dst →
    tree d0 !! p = Some n → kind src = File size → kind dst = File size →
    judged_same checksum is_checksum p src dst → nd_data n = source_data p;
  se_fresh : delivered d0 = [];
  se_metadata : ∀ p src, bt_get p source = Some src →
    Z.land (mode src) 0x1ff = mode src ∧ - 2 ^ 63 ≤ mtime_secs src < 2 ^ 63 ∧
    0 ≤ mtime_nanos src < 1000000000 ∧ truncate_nanos (mtime_nanos src) = mtime_nanos src;
  se_links : ∀ p src t, bt_get p source = Some src → kind src = Symlink t →
    validate_download_symlink_target p t = Ok tt;
}.

(** The manifests are accepted and [actions] is the plan for them. *)
Record setting : Prop := {
  se_start :> starting;
  se_manifests : validate_plan_conflicts source target = Ok tt;
  se_plan : plan_actions checksum source target is_checksum is_delete direction = Ok actions;
}.

Context (S : setting).

Lemma run_manifests :
  manifest_ok source ∧ manifest_ok target ∧
  ∀ p src dst, bt_get p source = Some src → bt_get p target = Some dst → is_dir dst = is_dir src.
Proof.
  pose proof (se_manifests S) as H. unfold validate_plan_conflicts in H.
  rewrite bind_Ok in H. destruct H as ([] & H1 & H). rewrite bind_Ok in H. destruct H as ([] & H2 & H).
  split_and!; [by apply validate_manifest_ok..|]. intros p src dst Hp%bt_get_elem Hd.
  revert Hp H. generalize source at 1 2. intros todo. induction todo as [|[q e] todo IH]; intros Hp H.
  { by apply not_elem_of_nil in Hp. }
  cbn [check_conflicts] in H. rewrite bind_Ok in H. destruct H as ([] & H3 & H).
  apply elem_of_cons in Hp as [[= -> ->]|Hp]; [|by apply IH]. rewrite Hd in H3.
  by destruct (is_dir e), (is_dir dst).
Qed.

Lemma source_valid p src : bt_get p source = Some src → validate_relative_path p = Ok tt.
Proof. apply (mo_valid _ (proj1 run_manifests)). Qed.
Lemma target_valid p dst : bt_get p target = Some dst → validate_relative_path p = Ok tt.
Proof. apply (mo_valid _ (proj1 (proj2 run_manifests))). Qed.

Lemma source_parent p src :
  bt_get p source = Some src → p ≠ [] →
  ∃ q, bt_get (parent_of p) source = Some q ∧ kind q = Directory.
Proof.
  intros Hp Hne. pose proof (mo_parents _ (proj1 run_manifests) p src Hp Hne) as H.
  destruct (bt_get (parent_of p) source) as [q|] eqn:Hq; [by exists q|].
  destruct (se_root S) as [r Hr]. rewrite H in Hq. congruence.
Qed.

(** The plan before directories are restored. *)
Lemma run_raw :
  ∃ updates, plan_entries checksum target is_checksum direction source = Ok updates ∧
    actions = restore_parent source
      (omap find_changed_parent (updates ++ plan_extras source target is_delete))
      <$> (updates ++ plan_extras source target is_delete).
Proof.
  pose proof (se_plan S) as H. unfold plan_actions in H. rewrite bind_Ok in H.
  destruct H as (updates & Hu & [= <-]). by exists updates.
Qed.

Lemma run_NoDup : NoDup (omap struct_path actions).
Proof.
  destruct run_raw as (updates & Hu & ->).
  assert (He : ∀ ch (l : list PlanAction),
    omap struct_path (restore_parent source ch <$> l) = omap struct_path l).
  { intros ch l. induction l as [|a l IH]; [done|]. cbn [fmap list_fmap omap list_omap].
    rewrite restore_struct. by rewrite IH. }
  rewrite He. by apply (plan_NoDup checksum source target is_checksum is_delete direction), Hu;
    [apply S|apply S].
Qed.

(** Every action is about an entry of the source, or removes an extra one. *)
Lemma action_inv x :
  x ∈ actions →
  (∃ p src, bt_get p source = Some src ∧ action_ok checksum target is_checksum direction p src x) ∨
  (∃ p dst, bt_get p target = Some dst ∧ is_extra source p = true ∧
     x = if is_delete then RemoveEntry p (is_dir dst) else Skip p).
Proof.
  destruct run_raw as (updates & Hu & ->). destruct run_manifests as (_ & _ & Hconf).
  destruct (plan_entries_elem _ _ _ _ _ _ Hu) as [_ Hel]. intros Hx.
  apply restore_elem in Hx as [[[Hx|Hx]%elem_of_app _]|(p & src & _ & _ & Hp & Hd & ->)].
  - left. destruct (Hel x Hx) as (p & src & a & Hin & Ha & Hxa). apply (bt_elem_get _ _ _ (se_source S)) in Hin.
    exists p, src. split; [done|]. apply entry_plan_ok in Ha as [Ha _]; [|by intros; eapply Hconf].
    rewrite Forall_forall in Ha. by apply Ha.
  - right. apply extras_elem in Hx as (p & dst & Hin & He & ->). exists p, dst.
    split; [|done]. by apply (bt_elem_get _ _ _ (se_target S)).
  - left. exists p, src. split; [done|]. unfold is_dir in Hd. by apply bool_decide_eq_true in Hd.
Qed.

Definition updated (p : str) : Prop := p ∈ u_path <$> dir_updates_of actions.

Lemma updated_iff p : updated p ↔ ∃ m s n, UpdateDirMetadata p m s n ∈ actions.
Proof.
  unfold updated, dir_updates_of. rewrite list_elem_of_fmap. setoid_rewrite list_elem_of_omap. split.
  - intros (u & -> & a & Ha & Hu). destruct a; try done. injection Hu as <-. by eexists _, _, _.
  - intros (m & s0 & n & Ha). eexists. split; [|by eexists]. done.
Qed.

(** An entry of the source without a change of its own is already right, or is a
    directory that will be updated. *)
Lemma unchanged p src :
  bt_get p source = Some src → p ∉ omap struct_path actions →
  ∃ dst, bt_get p target = Some dst ∧ is_dir dst = is_dir src ∧
    (kind src ≠ Directory → kind dst = kind src) ∧
    (is_link src = true ∨ updated p ∨ same_metadata direction src dst) ∧
    (∀ size, kind src = File size → judged_same checksum is_checksum p src dst).
Proof.
  intros Hp Hno. destruct run_manifests as (_ & _ & Hconf).
  assert (Hraw : ∀ x, x ∈ actions → struct_path x ≠ Some p).
  { intros x Hx Hs. apply Hno, list_elem_of_omap. by exists x. }
  destruct run_raw as (updates & Hu & Hacts).
  destruct (plan_entries_elem _ _ _ _ _ _ Hu) as [Hel _].
  destruct (Hel p src (bt_get_elem _ _ _ Hp)) as (a & Ha & Hsub).
  apply entry_plan_ok in Ha as [Hok Hne]; [|by intros; eapply Hconf].
  destruct a as [|x a]; [done|]. inversion Hok as [|? ? Hx _]; subst.
  assert (Hin : x ∈ updates ++ plan_extras source target is_delete)
    by (apply elem_of_app; left; apply Hsub; by left).
  set (ch := omap find_changed_parent (updates ++ plan_extras source target is_delete)) in *.
  assert (Hres : restore_parent source ch x ∈ actions)
    by (rewrite Hacts; apply list_elem_of_fmap; by exists x).
  destruct x as [| | | |q m s0 n| |q]; cbn [action_ok restore_parent] in Hx, Hres;
    try (destruct Hx as [-> _]; by destruct (Hraw _ Hres)).
  - destruct Hx as (-> & Hk & _).
    assert (Hup : updated p) by (apply updated_iff; by eexists _, _, _).
    destruct (bt_get p target) as [dst|] eqn:Ht.
    + exists dst. split_and!; [done|by eapply Hconf|by rewrite Hk|by right; left|by rewrite Hk].
    + exfalso. destruct (Hel p src (bt_get_elem _ _ _ Hp)) as (a' & Ha' & Hsub').
      unfold plan_entry in Ha'. rewrite Ht, Hk in Ha'. injection Ha' as <-.
      apply (Hraw (CreateDir p (mode src))); [|done]. rewrite Hacts. apply restore_keep; [|by eexists].
      apply elem_of_app. left. apply Hsub'. by left.
  - done.
  - destruct Hx as (-> & dst & Ht & H1 & H2 & H3 & H4). exists dst. split_and!; try done.
    destruct H3 as [H3|H3]; [by left|right; by right].
Qed.

(** *** What the destination becomes *)

(** The bytes that arrived for the file at [p] when it was fetched, and the source's
    when it was not. *)
Definition contents (d : Host) (p : str) : list Z :=
  default (source_data p) (last (omap (λ x, if decide (x.1 = p) then Some x.2 else None) (delivered d))).

Lemma contents_same d d' p : delivered d' = delivered d → contents d' p = contents d p.
Proof. unfold contents. by intros ->. Qed.

Lemma contents_fetched d d' p bs q : delivered d' = delivered d ++ [(p, bs)] →
  contents d' q = if decide (q = p) then bs else contents d q.
Proof.
  unfold contents. intros ->. rewrite omap_app. cbn. destruct (decide (p = q)) as [->|Hq].
  - by rewrite last_snoc, decide_True.
  - by rewrite app_nil_r, decide_False.
Qed.

Lemma contents_calm d p : calm d → contents d p = source_data p.
Proof.
  intros (_ & _ & _ & _ & Hd). unfold contents. destruct (last _) as [bs|] eqn:Hl; [|done]. cbn.
  apply last_Some in Hl as (l & Hl). assert (Hin : bs ∈ l ++ [bs]) by (apply elem_of_app; right; by left).
  rewrite <- Hl in Hin. apply list_elem_of_omap in Hin as ([q b] & Hx & Hb). rewrite Forall_forall in Hd.
  specialize (Hd _ Hx). cbn in *. case_decide; [|done]. congruence.
Qed.

Definition goal_node (d : Host) (p : str) (src : SyncEntry) : node :=
  mkNode (kind src) (effective_mode (mode src) direction) (mtime_secs src) (mtime_nanos src)
    (match kind src with File _ => contents d p | _ => [] end).

Definition goal (d : Host) (p : str) : option node :=
  match bt_get p source with
  | Some src => Some (goal_node d p src)
  | None => if is_delete && is_extra source p then None else tree d0 !! p
  end.

Lemma goal_contents d d' p : contents d' p = contents d p → goal d' p = goal d p.
Proof. unfold goal, goal_node. by intros ->. Qed.

(** Mode and time are equal; for a listed entry as far as a listing shows them. *)
Definition same_times (listed : bool) (n e : node) : Prop :=
  nd_secs n = nd_secs e ∧
  if listed then Z.land (nd_mode n) 0x1ff = Z.land (nd_mode e) 0x1ff ∧ truncate_nanos (nd_nanos n) = truncate_nanos (nd_nanos e)
  else nd_mode n = nd_mode e ∧ nd_nanos n = nd_nanos e.

Definition listed (p : str) : bool := match bt_get p source with Some _ => true | None => false end.

(** Equal, except that [X] exempts mode and time, and that only files have
    contents. *)
Definition alike (l : bool) (X : Prop) (a b : option node) : Prop :=
  match a, b with
  | None, None => True
  | Some n, Some e =>
      nd_kind n = nd_kind e ∧ (∀ size, nd_kind e = File size → nd_data n = nd_data e) ∧ (X ∨ same_times l n e)
  | _, _ => False
  end.

Lemma same_times_eq l n e : nd_secs n = nd_secs e → nd_mode n = nd_mode e → nd_nanos n = nd_nanos e → same_times l n e.
Proof. unfold same_times. intros -> -> ->. by destruct l. Qed.

Lemma safe_bits m : Z.land (effective_mode m direction) 0x1ff = effective_mode m direction.
Proof. cbn [effective_mode]. unfold to_safe_mode. by rewrite <- Z.land_assoc. Qed.

(** Paths whose mode and time are not settled before the directory updates:
    updated directories, links, and what will be removed. *)
Definition unsettled (p : str) : Prop :=
  updated p ∨ (∃ src, bt_get p source = Some src ∧ is_link src = true) ∨
  (is_delete = true ∧ is_extra source p = true).

(** The destination while the changes at the paths [R] are still to come. *)
Definition midway (R : list str) (d : Host) : Prop :=
  ∀ p, alike (listed p) (unsettled p) (tree d !! p) (if decide (p ∈ R) then tree d0 !! p else goal d p).

Lemma alike_refl l X a : alike l X a a.
Proof. destruct a; [|done]. split_and!; [done|done|right; by apply same_times_eq]. Qed.

Lemma alike_kind l X a b n : alike l X a b → b = Some n → ∃ m, a = Some m ∧ nd_kind m = nd_kind n.
Proof. intros H ->. destruct a as [m|]; [|done]. exists m. split; [done|apply H]. Qed.

Lemma alike_None l X a b : alike l X a b → b = None → a = None.
Proof. intros H ->. by destruct a. Qed.

Lemma view_target p n : tree d0 !! p = Some n → bt_get p target = Some (entry_at p n).
Proof. intros H. by rewrite (se_view S), H. Qed.
Lemma view_source p dst : bt_get p target = Some dst → ∃ n, tree d0 !! p = Some n ∧ dst = entry_at p n.
Proof. rewrite (se_view S). intros (n & H & ->)%fmap_Some. by exists n. Qed.
Lemma view_None p : bt_get p target = None → tree d0 !! p = None.
Proof. rewrite (se_view S). by destruct (tree d0 !! p). Qed.

Lemma is_dir_kind e : is_dir e = true ↔ kind e = Directory.
Proof. unfold is_dir. apply bool_decide_eq_true. Qed.

Lemma goal_source d p src : bt_get p source = Some src → goal d p = Some (goal_node d p src).
Proof. unfold goal. by intros ->. Qed.

Lemma midway_start : midway (omap struct_path actions) d0.
Proof.
  intros p. destruct (decide _) as [Hin|Hno]; [apply alike_refl|]. unfold goal.
  destruct (bt_get p source) as [src|] eqn:Hp.
  - destruct (unchanged p src Hp Hno) as (dst & Ht & Hdir & Hk & Hm & Hj).
    destruct (view_source p dst Ht) as (n & Hn & ->). rewrite Hn. cbn [alike goal_node nd_kind].
    assert (Hkind : nd_kind n = kind src).
    { destruct (decide (kind src = Directory)) as [Hd|Hd]; [|by apply Hk].
      apply is_dir_kind in Hd as Hd2. rewrite Hd2 in Hdir. apply is_dir_kind in Hdir. by rewrite Hd. }
    split_and!; [done| |].
    + intros size Hs. cbn [nd_data goal_node]. rewrite Hs. unfold contents. rewrite (se_fresh S). cbn.
      eapply (se_judged S p src); [done|exact Ht|done|done|by cbn; rewrite Hkind|by eapply Hj].
    + destruct Hm as [Hl|[Hu|Hm]]; [left; right; left; by exists src|left; by left|right].
      destruct Hm as (Hmd & Hsc & Hns). cbn in Hmd, Hsc, Hns. unfold same_times, listed. rewrite Hp. cbn -[effective_mode Z.land].
      rewrite safe_bits, Hmd, Hns, (proj2 (proj2 (proj2 (se_metadata S p src Hp)))). done.
  - destruct (is_delete && is_extra source p) eqn:He; [|apply alike_refl].
    apply andb_true_iff in He as [Hdel He]. destruct (tree d0 !! p) as [n|] eqn:Hn; [|done]. exfalso.
    apply Hno, list_elem_of_omap. exists (RemoveEntry p (is_dir (entry_at p n))). split; [|done].
    destruct run_raw as (updates & _ & ->). apply restore_keep; [|by eexists].
    apply elem_of_app. right. apply extras_elem. exists p, (entry_at p n).
    rewrite Hdel. split_and!; [by apply bt_get_elem, view_target|done|done].
Qed.

(** *** Directories around a change are restored *)

Lemma changed_same ch (l : list PlanAction) :
  omap find_changed_parent (restore_parent source ch <$> l) = omap find_changed_parent l.
Proof.
  induction l as [|a l IH]; [done|]. cbn [fmap list_fmap omap list_omap]. rewrite IH.
  assert (He : find_changed_parent (restore_parent source ch a) = find_changed_parent a).
  { destruct a; try done. cbn [restore_parent]. by repeat case_match. }
  by rewrite He.
Qed.

Lemma changed_updated q src :
  bt_get q source = Some src → kind src = Directory → q ∈ omap find_changed_parent actions → updated q.
Proof.
  intros Hq Hk Hch. apply updated_iff. destruct run_raw as (updates & Hu & Hacts).
  rewrite Hacts, changed_same in Hch. set (ch := omap find_changed_parent _) in *.
  destruct (plan_entries_elem _ _ _ _ _ _ Hu) as [Hel _].
  destruct (Hel q src (bt_get_elem _ _ _ Hq)) as (a & Ha & Hsub).
  assert (Hin : update_dir q src ∈ a ∨ Skip q ∈ a).
  { unfold plan_entry in Ha. destruct (bt_get q target) as [dst|]; rewrite Hk in Ha; injection Ha as <-.
    - destruct (_ || _); [left|right]; by left.
    - left. right. by left. }
  exists (mode src), (mtime_secs src), (mtime_nanos src). rewrite Hacts. apply list_elem_of_fmap.
  destruct Hin as [Hin|Hin]; apply Hsub in Hin.
  - exists (update_dir q src). split; [done|]. apply elem_of_app. by left.
  - exists (Skip q). split; [|apply elem_of_app; by left]. cbn [restore_parent].
    rewrite bool_decide_eq_true_2 by done. rewrite Hq.
    by rewrite (proj2 (is_dir_kind src) Hk).
Qed.

Lemma parent_unsettled x p :
  x ∈ actions → struct_path x = Some p → find_changed_parent x = Some (parent_of p) →
  unsettled (parent_of p).
Proof.
  intros Hx Hs Hc.
  assert (Hch : parent_of p ∈ omap find_changed_parent actions)
    by (apply list_elem_of_omap; by exists x).
  assert (Hne : p ≠ []).
  { intros ->. destruct x; cbn in Hs, Hc; simplify_eq; by rewrite bool_decide_eq_true_2 in Hc. }
  destruct (action_inv x Hx) as [(p' & src & Hp & Hok)|(p' & dst & Ht & He & ->)].
  - assert (p' = p) as -> by (destruct x; cbn in Hs, Hok; try done; destruct Hok; congruence).
    destruct (source_parent p src Hp Hne) as (q & Hq & Hk). left. by eapply changed_updated.
  - destruct is_delete eqn:Hdel; [|done]. cbn in Hs. injection Hs as ->.
    pose proof (mo_parents _ (proj1 (proj2 run_manifests)) p dst Ht Hne) as Hpar.
    assert (∃ q, bt_get (parent_of p) target = Some q ∧ kind q = Directory) as (q & Hq & Hk).
    { destruct (bt_get (parent_of p) target) as [q|] eqn:Hq; [by exists q|].
      destruct (se_target_root S p dst Ht) as [r Hr]. rewrite Hpar in Hq. congruence. }
    destruct (bt_get (parent_of p) source) as [src|] eqn:Hsp.
    + left. eapply changed_updated; [done| |done].
      apply is_dir_kind. rewrite <-(proj2 (proj2 run_manifests) _ _ _ Hsp Hq). by apply is_dir_kind.
    + right. right. split; [done|]. unfold is_extra. rewrite Hsp, andb_true_r.
      rewrite bool_decide_eq_false_2; [done|]. intros Hroot. destruct (se_root S) as [r Hr].
      rewrite Hroot in Hsp. congruence.
Qed.

(** One change of the tree. *)
Lemma midway_touch x p R d d' :
  x ∈ actions → struct_path x = Some p →
  (p ≠ [] → find_changed_parent x = Some (parent_of p) ∧ parent_of p ≠ p) →
  midway (p :: R) d → p ∉ R → touched_at p (tree d) (tree d') → (∀ q, q ≠ p → contents d' q = contents d q) →
  alike (listed p) (unsettled p) (tree d' !! p) (goal d' p) → midway R d'.
Proof.
  intros Hx Hs Hpar Hm Hnot [Hframe Htouch Hmiss] Hcont Hp q.
  destruct (decide (q = p)) as [->|Hqp]; [by rewrite decide_False|].
  specialize (Hm q). rewrite (goal_contents d d' q) by by apply Hcont.
  assert (Hdec : (if decide (q ∈ p :: R) then tree d0 !! q else goal d q) =
                 (if decide (q ∈ R) then tree d0 !! q else goal d q)).
  { destruct (decide (q ∈ R)); [by rewrite decide_True by by right|].
    rewrite decide_False; [done|]. by intros [?|?]%elem_of_cons. }
  rewrite Hdec in Hm. clear Hdec.
  destruct (decide (p = [])) as [->|Hne]; [by rewrite Hframe by auto|].
  destruct (Hpar Hne) as [Hch Hpne].
  destruct (decide (q = parent_of p)) as [->|Hqpar]; [|by rewrite Hframe by auto].
  pose proof (parent_unsettled x p Hx Hs Hch) as Huns.
  destruct (tree d !! parent_of p) as [n|] eqn:Hn.
  - destruct (Htouch n Hne Hpne eq_refl) as (secs & nanos & ->).
    destruct (if decide _ then _ else _) as [e|]; [|done]. destruct Hm as (H1 & H2 & _).
    split_and!; [done|done|by left].
  - by rewrite (Hmiss Hne Hpne eq_refl).
Qed.

(** *** The directories around an entry *)

Definition source_dir (q : str) : Prop := ∃ e, bt_get q source = Some e ∧ kind e = Directory.
Definition target_dir (q : str) : Prop := ∃ e, bt_get q target = Some e ∧ kind e = Directory.

Lemma dirs_agree p src dst : bt_get p source = Some src → bt_get p target = Some dst → kind src = Directory ↔ kind dst = Directory.
Proof. intros H1 H2. rewrite <- !is_dir_kind. by rewrite (proj2 (proj2 run_manifests) p src dst H1 H2). Qed.

(** What either manifest calls a directory is one as long as it is there. *)
Lemma dir_stays R d q n :
  midway R d → source_dir q ∨ target_dir q → tree d !! q = Some n → nd_kind n = Directory.
Proof.
  intros Hm Hq Hn. specialize (Hm q). rewrite Hn in Hm.
  assert (Hold : ∀ m, tree d0 !! q = Some m → nd_kind m = Directory).
  { intros m Ht%view_target. destruct Hq as [(e & He & Hk)|(e & He & Hk)].
    - by apply (dirs_agree q e _ He Ht).
    - rewrite Ht in He. by simplify_eq. }
  destruct (decide (q ∈ R)) as [Hin|Hout].
  - destruct (tree d0 !! q) as [m|]; [|done]. destruct Hm as [-> _]. by apply Hold.
  - unfold goal in Hm. destruct (bt_get q source) as [src|] eqn:Hs.
    + destruct Hm as [-> _]. cbn. destruct Hq as [(e & He & Hk)|(e & He & Hk)]; [congruence|].
      by apply (dirs_agree q src e Hs He).
    + destruct (is_delete && is_extra source q); [done|]. destruct (tree d0 !! q) as [m|]; [|done].
      destruct Hm as [-> _]. by apply Hold.
Qed.

Lemma source_around p src ls ks :
  bt_get p source = Some src → Forall component_ok (ls ++ ks) → ks ≠ [] → p = join slash (ls ++ ks) →
  source_dir (join slash ls) ∧ str_len (join slash ls) < str_len p.
Proof.
  intros Hp Hok Hne ->. split; [|by apply ancestor_shorter].
  pose proof (manifest_ancestor source ls ks src (proj1 run_manifests) Hok Hne Hp) as H.
  destruct (bt_get (join slash ls) source) as [e|] eqn:He; [by exists e|]. subst ls. destruct (se_root S) as [r Hr]. cbn in He. congruence.
Qed.

Lemma target_around p dst ls ks :
  bt_get p target = Some dst → Forall component_ok (ls ++ ks) → ks ≠ [] → p = join slash (ls ++ ks) →
  target_dir (join slash ls).
Proof.
  intros Hp Hok Hne ->.
  pose proof (manifest_ancestor target ls ks dst (proj1 (proj2 run_manifests)) Hok Hne Hp) as H.
  destruct (bt_get (join slash ls) target) as [e|] eqn:He; [by exists e|]. subst ls.
  destruct (se_target_root S _ _ Hp) as [r Hr]. cbn in He. congruence.
Qed.

Lemma clear_source R d p src : midway R d → bt_get p source = Some src → clear (tree d) p.
Proof.
  intros Hm Hp ls ks n H1 H2 H3. eapply dir_stays; [exact Hm|]. left. by apply (source_around p src ls ks Hp).
Qed.
Lemma clear_target R d p dst : midway R d → bt_get p target = Some dst → clear (tree d) p.
Proof.
  intros Hm Hp ls ks n H1 H2 H3. eapply dir_stays; [exact Hm|]. right. by apply (target_around p dst ls ks Hp).
Qed.

(** The directories around a source entry are there when no change of them is to
    come. *)
Lemma standing_source R d p src :
  midway R d → bt_get p source = Some src → (∀ q, source_dir q → str_len q < str_len p → q ∉ R) → standing (tree d) p.
Proof.
  intros Hm Hp HR ls ks H1 H2 H3. destruct (source_around p src ls ks Hp H1 H2 H3) as [Hd Hl].
  pose proof (Hm (join slash ls)) as Hq. rewrite decide_False in Hq by by apply HR.
  destruct Hd as (e & He & Hk). rewrite (goal_source _ _ _ He) in Hq.
  eapply alike_kind in Hq as (n & Hn & Hkn); [|done]. exists n. split; [done|]. by rewrite Hkn.
Qed.

(** *** The phases *)

Lemma action_unique x y p :
  x ∈ actions → y ∈ actions → struct_path x = Some p → struct_path y = Some p → x = y.
Proof. intros. by eapply (omap_NoDup_inj struct_path actions); [apply run_NoDup|..]. Qed.

(** The action on a source entry, by its path. *)
Lemma action_at x p src :
  x ∈ actions → struct_path x = Some p → bt_get p source = Some src →
  action_ok checksum target is_checksum direction p src x.
Proof.
  intros Hx Hs Hp. destruct (action_inv x Hx) as [(p' & src' & Hp' & Hok)|(p' & dst & _ & He & ->)].
  - assert (p' = p) as -> by (destruct x; cbn in Hs, Hok; try done; destruct Hok; congruence).
    congruence.
  - destruct is_delete; [|done]. cbn in Hs. injection Hs as ->. unfold is_extra in He.
    by rewrite Hp, andb_false_r in He.
Qed.

Definition late (R : list str) : Prop :=
  ∀ p, p ∈ R → ∃ x, x ∈ actions ∧ struct_path x = Some p ∧ ∀ m, x ≠ CreateDir p m.

(** A directory of the source is not among the later changes. *)
Lemma dir_not_late q R : late R → source_dir q → q ∉ R.
Proof.
  intros HR (e & Hq & Hk) Hin. destruct (HR _ Hin) as (x & Hx & Hs & Hno).
  pose proof (action_at x _ _ Hx Hs Hq) as Hok.
  destruct x as [a m| | | | | |]; cbn in Hs, Hok; try done; simplify_eq.
  - by apply (Hno m).
  - destruct Hok as (_ & ? & _). congruence.
  - destruct Hok as (_ & ?). congruence.
  - destruct Hok as (_ & _ & _ & _ & size & dst & ? & _). congruence.
Qed.

Lemma source_parent_ne p src : bt_get p source = Some src → p ≠ [] → parent_of p ≠ p.
Proof. intros Hp. by apply parent_ne, (source_valid p src). Qed.

(** A new directory gets its mode and time later. *)
Lemma created_updated p m : CreateDir p m ∈ actions →
  ∃ src, bt_get p source = Some src ∧ kind src = Directory ∧ bt_get p target = None ∧ updated p.
Proof.
  intros Hx. destruct (action_inv _ Hx) as [(q & src & Hq & Hok)|(q & dst & _ & _ & He)]; [|by destruct is_delete].
  destruct Hok as (-> & Hk & Ht). exists src. split_and!; [done..|].
  apply updated_iff. destruct run_raw as (updates & Hu & Hraw).
  destruct (plan_entries_elem _ _ _ _ _ _ Hu) as [Hel _].
  destruct (Hel q src (bt_get_elem _ _ _ Hq)) as (a & Ha & Hsub).
  unfold plan_entry in Ha. rewrite Ht, Hk in Ha. injection Ha as <-.
  exists (mode src), (mtime_secs src), (mtime_nanos src). rewrite Hraw. apply list_elem_of_fmap.
  exists (update_dir q src). split; [done|]. apply elem_of_app. left. apply Hsub. right. by left.
Qed.

Lemma creates_run R dirs : ∀ P d,
  StronglySorted (by_key (λ x, str_len x.1)) dirs →
  (∀ p m, (p, m) ∈ dirs → CreateDir p m ∈ actions) →
  NoDup (dirs.*1 ++ R) → late R → midway (dirs.*1 ++ R) d → (P → calm d) →
  outcome P (execute_create_dirs guest umask direction dirs d)
    (λ _ d', midway R d' ∧ delivered d' = delivered d) (λ _, calm).
Proof.
  induction dirs as [|[p m] dirs IH]; intros P d Hsort Hacts Hnd HR Hm HP; [by apply outcome_ret|].
  cbn [fmap list_fmap fst app] in Hnd, Hm. apply NoDup_cons in Hnd as [Hnot Hnd].
  inversion Hsort as [|? ? Hsort' Hle]; subst.
  pose proof (Hacts p m ltac:(by left)) as Hx. destruct (created_updated p m Hx) as (src & Hp & Hk & Ht & Hup).
  assert (Hnone : tree d !! p = None).
  { specialize (Hm p). rewrite decide_True in Hm by by left. eapply alike_None; [exact Hm|]. by apply view_None. }
  assert (Hstand : standing (tree d) p).
  { eapply standing_source; [exact Hm|exact Hp|]. intros q Hq Hlen [Heq|[Hin|Hin]%elem_of_app]%elem_of_cons.
    - rewrite Heq in Hlen. lia.
    - apply list_elem_of_fmap in Hin as ([q' m'] & -> & Hin). rewrite Forall_forall in Hle. specialize (Hle _ Hin).
      unfold by_key in Hle. cbn [fst] in *. lia.
    - by apply (dir_not_late q R HR Hq). }
  cbn [execute_create_dirs].
  eapply outcome_bind; [by apply (create_dir_done guest umask source source_data P []); [|eapply source_valid| |]|].
  intros ? d1 ([Htouch Hdel] & m1 & s1 & n1 & Hnode). rewrite <- Hdel. apply IH; [done| |done|done| |tauto].
  - intros q m' Hin. apply Hacts. by right.
  - eapply midway_touch; [exact Hx|done| |exact Hm|done|exact Htouch|intros; by apply contents_same|].
    + intros Hne. split; [cbn; by rewrite bool_decide_eq_false_2|by eapply source_parent_ne].
    + rewrite Hnode, (goal_source _ _ _ Hp). cbn. rewrite Hk. split_and!; [done|done|]. left. by left.
Qed.
(** What stands at the path of a file or a link is no directory. *)
Lemma not_a_directory p src R d x :
  midway (p :: R) d → bt_get p source = Some src → kind src ≠ Directory → tree d !! p = Some x →
  nd_kind x ≠ Directory.
Proof.
  intros Hm Hp Hk Hx Hd. specialize (Hm p). rewrite decide_True in Hm by by left. rewrite Hx in Hm.
  destruct (tree d0 !! p) as [n|] eqn:Hn; [|done]. destruct Hm as (Hkn & _). apply Hk, is_dir_kind.
  rewrite <-(proj2 (proj2 run_manifests) p src _ Hp (view_target p n Hn)). apply is_dir_kind.
  cbn. congruence.
Qed.

Definition item_action (i : TransferItem) : PlanAction :=
  match i with TFile p size m s n => TransferFile p size m s n | TSymlink p t => CreateSymlink p t end.
Definition item_path (i : TransferItem) : str :=
  match i with TFile p _ _ _ _ => p | TSymlink p _ => p end.

Definition add_copies (stats : SyncStats) (items : list TransferItem) : SyncStats :=
  mkStats (copied_count stats + zlen items) (metadata_updated_count stats) (deleted_count stats)
    (skipped_count stats) (transferred_bytes stats + sumZ (item_bytes <$> items)).

(** The source entry of an item. *)
Lemma item_source i :
  item_action i ∈ actions →
  ∃ src, bt_get (item_path i) source = Some src ∧ kind src ≠ Directory ∧
    match i with
    | TFile _ size m s n =>
        kind src = File size ∧ m = mode src ∧ s = mtime_secs src ∧ n = mtime_nanos src
    | TSymlink _ t => kind src = Symlink t
    end.
Proof.
  intros Hx. destruct (action_inv _ Hx) as [(q & src & Hq & Hok)|(q & dst & _ & _ & He)];
    [|by destruct i, is_delete].
  exists src. destruct i; cbn in Hok |- *; destruct Hok as (-> & Hok).
  - destruct Hok as (Hk & ?). split_and!; try tauto. by rewrite Hk.
  - by rewrite Hok.
Qed.

(** The place of an item that is to come. *)
Lemma item_place i R d :
  item_action i ∈ actions → late (item_path i :: R) → midway (item_path i :: R) d →
  validate_relative_path (item_path i) = Ok tt ∧ standing (tree d) (item_path i) ∧
  (∀ x, tree d !! item_path i = Some x → nd_kind x ≠ Directory) ∧
  (item_path i ≠ [] →
    find_changed_parent (item_action i) = Some (parent_of (item_path i)) ∧ parent_of (item_path i) ≠ item_path i).
Proof.
  intros Hx Hlate Hm. destruct (item_source i Hx) as (src & Hp & Hk & _). split_and!.
  - by eapply source_valid.
  - eapply standing_source; [exact Hm|exact Hp|]. intros q Hq _. by apply dir_not_late.
  - intros x. by eapply not_a_directory.
  - intros Hne. split; [|by eapply source_parent_ne]. destruct i; cbn in *; by rewrite bool_decide_eq_false_2.
Qed.

Lemma file_item P R d p size m s n :
  TransferFile p size m s n ∈ actions → p ∉ R → late (p :: R) → midway (p :: R) d → (P → calm d) →
  outcome P (transfer_step guest umask direction p (size, m, s, n) d) 
    (λ a d', a = size ∧ midway R d' ∧ ∀ q, q ∈ R → contents d' q = contents d q) (λ _, calm).
Proof.
  intros Hx Hnot Hlate Hm HP. destruct (item_source (TFile p size m s n) Hx) as (src & Hp & _ & Hf & -> & -> & ->).
  cbn [item_path] in Hp. destruct (item_place (TFile p size _ _ _) R d Hx Hlate Hm) as (Hv & Hs & Hd & Hpar).
  cbn [item_path item_action] in *. destruct (se_metadata S p src Hp) as (Hmode & Hsecs & Hnanos & _).
  eapply outcome_weaken; [apply (transfer_done guest umask source source_data P d p src size); try done|].
  { by split; try done; apply (se_sizes S p src). }
  intros a d' (-> & bs & Htouch & Hdel & Hnode). split; [done|].
  assert (Hsame : ∀ q, q ≠ p → contents d' q = contents d q).
  { intros q Hq. by rewrite (contents_fetched d d' p bs q Hdel), decide_False. }
  split; [|intros q Hq; apply Hsame; by intros ->].
  eapply midway_touch; [exact Hx|done|exact Hpar|exact Hm|done|exact Htouch|exact Hsame|].
  rewrite Hnode, (goal_source _ _ _ Hp). cbn. rewrite Hf. split_and!; [done| |right; by apply same_times_eq].
  intros _ _. by rewrite (contents_fetched d d' p bs p Hdel), decide_True.
Qed.

Lemma link_item P R d p t :
  CreateSymlink p t ∈ actions → p ∉ R → late (p :: R) → midway (p :: R) d → (P → calm d) →
  outcome P (symlink_step guest umask direction p t d) (λ _ d', midway R d' ∧ delivered d' = delivered d) (λ _, calm).
Proof.
  intros Hx Hnot Hlate Hm HP. destruct (item_source (TSymlink p t) Hx) as (src & Hp & _ & Hk).
  cbn [item_path] in Hp. destruct (item_place (TSymlink p t) R d Hx Hlate Hm) as (Hv & Hs & Hd & Hpar).
  cbn [item_path item_action] in *.
  eapply outcome_weaken; [apply (symlink_done guest umask source source_data P d p t); try done; by apply (se_links S p src)|].
  intros ? d' ([Htouch Hdel] & m & s & n & Hnode). split; [|done].
  eapply midway_touch; [exact Hx|done|exact Hpar|exact Hm|done|exact Htouch|intros; by apply contents_same|].
  rewrite Hnode, (goal_source _ _ _ Hp). cbn. rewrite Hk. split_and!; [done|done|].
  left. right. left. exists src. unfold is_link. by rewrite Hk.
Qed.

Lemma items_run R items : ∀ P d stats,
  (∀ i, i ∈ items → item_action i ∈ actions) →
  NoDup ((item_path <$> items) ++ R) → late ((item_path <$> items) ++ R) →
  midway ((item_path <$> items) ++ R) d → (P → calm d) →
  outcome P (execute_transfers guest umask direction items stats d)
    (λ stats' d', stats' = add_copies stats items ∧ midway R d' ∧ ∀ q, q ∈ R → contents d' q = contents d q) (λ _, calm).
Proof.
  induction items as [|i items IH]; intros P d stats Hacts Hnd Hlate Hm HP.
  { apply outcome_ret; [|done]. split; [|done]. unfold add_copies. destruct stats. cbn.
    f_equal; change (zlen _) with 0; change (sumZ _) with 0; lia. }
  cbn [fmap list_fmap app] in Hnd, Hlate, Hm. apply NoDup_cons in Hnd as [Hnot Hnd].
  pose proof (Hacts i ltac:(by left)) as Hx. set (R' := (item_path <$> items) ++ R) in *.
  assert (Hnext : ∀ P' d' stats', add_copies stats (i :: items) = add_copies stats' items →
    midway R' d' → (∀ q, q ∈ R' → contents d' q = contents d q) → (P' → calm d') →
    outcome P' (execute_transfers guest umask direction items stats' d')
      (λ x d'', x = add_copies stats (i :: items) ∧ midway R d'' ∧ ∀ q, q ∈ R → contents d'' q = contents d q) (λ _, calm)).
  { intros P' d' stats' -> Hm' Hc HP'. eapply outcome_weaken.
    - apply IH; [intros j Hj; apply Hacts; by right|done|intros q Hq; apply Hlate; by right|done|done].
    - intros x d'' (-> & Hm'' & Hc''). split_and!; [done|done|]. intros q Hq. rewrite Hc'' by done. apply Hc.
      apply elem_of_app. by right. }
  destruct i as [p size m s n|p t]; cbn [execute_transfers item_path item_action] in *.
  - eapply outcome_bind; [by apply (file_item P R' d p size m s n)|]. intros a d1 (-> & Hm1 & Hc1).
    apply Hnext; [|done|done|tauto]. unfold add_copies, count_bytes, count_copy, zlen. cbn [fmap list_fmap length item_bytes].
    rewrite sumZ_cons. cbn. f_equal; lia.
  - eapply outcome_bind; [by apply (link_item P R' d p t)|]. intros ? d1 [Hm1 Hd1].
    apply Hnext; [|done|intros; by apply contents_same|tauto]. unfold add_copies, count_copy, zlen. cbn [fmap list_fmap length item_bytes].
    rewrite sumZ_cons. cbn. f_equal; lia.
Qed.

(** A change of the node at [p] alone. *)
Lemma midway_set p R d d' n :
  midway (p :: R) d → p ∉ R → tree d' = <[p := n]> (tree d) → delivered d' = delivered d →
  alike (listed p) (unsettled p) (Some n) (goal d p) → midway R d'.
Proof.
  intros Hm Hnot Ht Hdel Hp q. rewrite Ht, (goal_contents d d' q) by by apply contents_same. destruct (decide (q = p)) as [->|Hqp].
  { by rewrite decide_False, lookup_insert_eq. }
  rewrite lookup_insert_ne by done. specialize (Hm q).
  destruct (decide (q ∈ R)); [by rewrite decide_True in Hm by by right|].
  rewrite decide_False in Hm; [done|]. by intros [?|?]%elem_of_cons.
Qed.

Definition update_file (u : MetadataUpdate) : PlanAction :=
  UpdateFileMetadata (u_path u) (u_mode u) (u_secs u) (u_nanos u).

(** The metadata of a source entry that is at the destination. *)
Lemma metadata_run P d u src x :
  bt_get (u_path u) source = Some src → u = mkUpdate (u_path u) (mode src) (mtime_secs src) (mtime_nanos src) →
  clear (tree d) (u_path u) → tree d !! u_path u = Some x → (∀ t, nd_kind x ≠ Symlink t) → (P → calm d) →
  outcome P (metadata_step guest direction u d)
    (λ _ d', tree d' = <[u_path u := mkNode (nd_kind x) (effective_mode (mode src) direction) (mtime_secs src) (mtime_nanos src) (nd_data x)]> (tree d) ∧
       delivered d' = delivered d) (λ _, calm).
Proof.
  intros Hp Hu Hc Hx Hk HP. destruct (se_metadata S _ src Hp) as (_ & Hsecs & Hnanos & _).
  eapply outcome_weaken; [apply (metadata_done guest source source_data P d u x); try done|].
  - by eapply source_valid.
  - by rewrite Hu.
  - by rewrite Hu.
  - intros ? d' [-> ->]. by rewrite Hu.
Qed.

Lemma file_updates_run R us : ∀ P d,
  (∀ u, u ∈ us → update_file u ∈ actions) → NoDup ((u_path <$> us) ++ R) →
  midway ((u_path <$> us) ++ R) d → (∀ u, u ∈ us → contents d (u_path u) = source_data (u_path u)) → (P → calm d) →
  outcome P (execute_metadata_updates guest direction us d) (λ _ d', midway R d') (λ _, calm).
Proof.
  induction us as [|u us IH]; intros P d Hacts Hnd Hm Hpend HP; [by apply outcome_ret|].
  cbn [fmap list_fmap app] in Hnd, Hm. apply NoDup_cons in Hnd as [Hnot Hnd].
  pose proof (Hacts _ ltac:(by left)) as Hx. unfold update_file in Hx.
  destruct (action_inv _ Hx) as [(q & src & Hp & Hok)|(q & dst & _ & _ & He)]; [|by destruct is_delete].
  cbn in Hok. destruct Hok as (<- & Hmode & Hsecs & Hnanos & size & dst & Hf & Ht & Hd & Hj).
  destruct (view_source _ dst Ht) as (n0 & Hn0 & ->). cbn in Hd.
  pose proof (Hm (u_path u)) as Hq. rewrite decide_True, Hn0 in Hq by by left.
  destruct (tree d !! u_path u) as [x|] eqn:Hxq; [|done]. destruct Hq as (Hk & Hdata & _).
  cbn [execute_metadata_updates]. eapply outcome_bind.
  { apply (metadata_run P d u src x); [done| |by eapply clear_source|done|intros t; congruence|done].
    destruct u. cbn in *. congruence. }
  intros ? d1 [Htree Hdel]. apply IH; [intros v Hv; apply Hacts; by right|done| | |tauto].
  2: { intros v Hv. rewrite (contents_same d d1) by done. apply Hpend. by right. }
  eapply midway_set; [exact Hm|done|exact Htree|exact Hdel|]. rewrite (goal_source _ _ _ Hp). cbn. rewrite Hf.
  split_and!; [congruence| |right; by apply same_times_eq]. intros ? _. rewrite (Hdata size Hd), Hpend by by left.
  eapply (se_judged S (u_path u) src); [done|exact Ht|done|done|done|done].
Qed.

Definition add_deletions (stats : SyncStats) (k : Z) : SyncStats :=
  mkStats (copied_count stats) (metadata_updated_count stats) (deleted_count stats + k)
    (skipped_count stats) (transferred_bytes stats).

(** The entry of a removal, and that removals happen only with [is_delete]. *)
Lemma removal_inv p b :
  RemoveEntry p b ∈ actions →
  is_delete = true ∧ is_extra source p = true ∧
  ∃ dst, bt_get p target = Some dst ∧ b = is_dir dst.
Proof.
  intros Hx. destruct (action_inv _ Hx) as [(q & src & _ & [])|(q & dst & Ht & He & Heq)].
  destruct is_delete; [|done]. injection Heq as -> ->. split_and!; [done|done|by exists dst].
Qed.

Lemma extra_inv p : is_extra source p = true → p ≠ [] ∧ bt_get p source = None.
Proof.
  unfold is_extra. rewrite andb_true_iff, negb_true_iff, bool_decide_eq_false.
  by destruct (bt_get p source) as [|] eqn:H; intros [? ?].
Qed.

Lemma goal_removed d p : is_delete = true → is_extra source p = true → goal d p = None.
Proof. intros Hd He. unfold goal. by rewrite (proj2 (extra_inv p He)), Hd, He. Qed.

(** What is inside an extra directory is gone before the directory. *)
Lemma nothing_inside p b dels d q :
  RemoveEntry p b ∈ actions → midway (p :: dels) d →
  (∀ q', q' ∈ dels → str_len q' ≤ str_len p ∧ ∃ b', RemoveEntry q' b' ∈ actions) →
  q ≠ [] → parent_of q = p → tree d !! q = None.
Proof.
  intros Hx Hm Hlen Hq Hpar. destruct (removal_inv p b Hx) as (Hdel & He & dst & Ht & _).
  destruct (extra_inv p He) as [Hne Hnone].
  assert (Hvalid : ∀ b', RemoveEntry q b' ∈ actions → str_len p < str_len q).
  { intros b' (_ & _ & dst' & Ht' & _)%removal_inv. rewrite <-Hpar.
    apply parent_shorter; [by eapply target_valid|done]. }
  specialize (Hm q). destruct (decide (q ∈ p :: dels)) as [Hin|Hout].
  - exfalso. apply elem_of_cons in Hin as [Hqp|Hin].
    + rewrite Hqp in Hvalid. pose proof (Hvalid b Hx). lia.
    + destruct (Hlen q Hin) as (? & b' & Hb'). pose proof (Hvalid b' Hb'). lia.
  - rewrite decide_False in Hm by done. eapply alike_None; [exact Hm|]. unfold goal. destruct (bt_get q source) as [src|] eqn:Hs.
    + destruct (source_parent q src Hs Hq) as (? & Hps & _). rewrite Hpar in Hps. congruence.
    + unfold is_extra. rewrite Hdel, Hs, bool_decide_eq_false_2 by done. done.
Qed.

Lemma deletions_run dels : ∀ P d stats,
  StronglySorted (by_key (λ x, - str_len x.1)) dels →
  (∀ p b, (p, b) ∈ dels → RemoveEntry p b ∈ actions) → NoDup dels.*1 → midway dels.*1 d → (P → calm d) →
  outcome P (execute_deletions guest direction dels stats d)
    (λ stats' d', stats' = add_deletions stats (zlen dels) ∧ midway [] d') (λ _, calm).
Proof.
  induction dels as [|[p b] dels IH]; intros P d stats Hsort Hacts Hnd Hm HP.
  { apply outcome_ret; [|done]. split; [|done]. destruct stats. unfold add_deletions. cbn. f_equal. change (zlen _) with 0. lia. }
  cbn [fmap list_fmap fst] in Hnd, Hm. apply NoDup_cons in Hnd as [Hnot Hnd].
  inversion Hsort as [|? ? Hsort' Hle]; subst. pose proof (Hacts p b ltac:(by left)) as Hx.
  destruct (removal_inv p b Hx) as (Hdel & He & dst & Ht & ->). destruct (extra_inv p He) as [Hne Hns].
  destruct (view_source p dst Ht) as (n & Hn & ->).
  pose proof (Hm p) as Hp. rewrite decide_True, Hn in Hp by by left.
  destruct (tree d !! p) as [x|] eqn:Hxp; [|done]. destruct Hp as (Hk & _).
  cbn [execute_deletions]. eapply outcome_bind.
  { apply (remove_done guest source source_data P d p (is_dir (entry_at p n)) x);
      [done|by eapply target_valid|by eapply clear_target|done|unfold is_dir; cbn; by rewrite Hk|].
    intros q Hq Hpar. eapply nothing_inside; [exact Hx|exact Hm| |done|done].
    intros q' ([q2 b'] & -> & Hin)%list_elem_of_fmap. rewrite Forall_forall in Hle. specialize (Hle _ Hin).
    unfold by_key in Hle. cbn [fst] in Hle |- *. split; [lia|]. exists b'. apply Hacts. by right. }
  intros ? d1 [[Htouch Hsame] Hgone].
  eapply outcome_weaken; [apply IH; [done|intros; apply Hacts; by right|done| |tauto]|].
  - eapply midway_touch; [exact Hx|done| |exact Hm|done|exact Htouch|intros; by apply contents_same|].
    + intros _. split; [cbn; by rewrite bool_decide_eq_false_2|]. by eapply parent_ne, Hne; eapply target_valid.
    + by rewrite Hgone, goal_removed.
  - intros x' d2 [-> Hm2]. split; [|done]. unfold add_deletions. cbn. unfold zlen. cbn [length]. f_equal. lia.
Qed.

(** *** The directory updates settle mode and time *)

Definition linked (p : str) : Prop := ∃ src, bt_get p source = Some src ∧ is_link src = true.

Definition settling (us : list MetadataUpdate) (d : Host) : Prop :=
  ∀ p, alike (listed p) (p ∈ u_path <$> us ∨ linked p) (tree d !! p) (goal d p).

Lemma midway_settling us d :
  midway [] d → us ≡ₚ dir_updates_of actions → settling us d.
Proof.
  intros Hm Hus p. specialize (Hm p). rewrite decide_False in Hm by apply not_elem_of_nil.
  destruct (goal d p) as [e|] eqn:Hg; [|by destruct (tree d !! p)].
  destruct (tree d !! p) as [n|]; [|done]. destruct Hm as (H1 & H2 & H3). split_and!; [done|done|].
  destruct H3 as [[Hu|[Hl|[Hd He]]]|H3]; [left; left|left; by right| |by right].
  - by rewrite Hus.
  - by rewrite goal_removed in Hg.
Qed.

Definition update_directory (u : MetadataUpdate) : PlanAction :=
  UpdateDirMetadata (u_path u) (u_mode u) (u_secs u) (u_nanos u).

Lemma settling_clear us d p src : settling us d → bt_get p source = Some src → clear (tree d) p.
Proof.
  intros Hm Hp ls ks n H1 H2 H3 Hn. destruct (source_around p src ls ks Hp H1 H2 H3) as [(e & He & Hk) _].
  specialize (Hm (join slash ls)). rewrite Hn, (goal_source _ _ _ He) in Hm. destruct Hm as [-> _]. done.
Qed.

Lemma dir_updates_run us : ∀ P d,
  (∀ u, u ∈ us → update_directory u ∈ actions) → settling us d → (P → calm d) →
  outcome P (execute_metadata_updates guest direction us d) (λ _ d', settling [] d') (λ _, calm).
Proof.
  induction us as [|u us IH]; intros P d Hacts Hm HP; [by apply outcome_ret|].
  pose proof (Hacts _ ltac:(by left)) as Hx. unfold update_directory in Hx.
  destruct (action_inv _ Hx) as [(q & src & Hp & Hok)|(q & dst & _ & _ & He)]; [|by destruct is_delete].
  cbn in Hok. destruct Hok as (<- & Hd & Hmode & Hsecs & Hnanos).
  pose proof (Hm (u_path u)) as Hq. rewrite (goal_source _ _ _ Hp) in Hq.
  destruct (tree d !! u_path u) as [x|] eqn:Hxq; [|done]. destruct Hq as (Hk & Hdata & _). cbn in Hk.
  cbn [execute_metadata_updates]. eapply outcome_bind.
  { apply (metadata_run P d u src x); [done| |by eapply settling_clear|done|intros t; congruence|done].
    destruct u. cbn in *. congruence. }
  intros ? d1 [Htree Hdel]. apply IH; [intros v Hv; apply Hacts; by right| |tauto]. intros r.
  rewrite Htree, (goal_contents d d1 r) by by apply contents_same. destruct (decide (r = u_path u)) as [->|Hrq].
  - rewrite lookup_insert_eq, (goal_source _ _ _ Hp). cbn. split_and!; [done| |right; by apply same_times_eq].
    intros size Hs. congruence.
  - rewrite lookup_insert_ne by done. specialize (Hm r).
    destruct (tree d !! r), (goal d r); try done. destruct Hm as (? & ? & Hor). split_and!; [done|done|].
    destruct Hor as [[[->|Hin]%elem_of_cons|Hl]|?]; [done|left; by left|left; by right|by right].
Qed.
(** *** The phases together *)

Lemma midway_perm R R' d : R ≡ₚ R' → midway R d → midway R' d.
Proof.
  intros HR Hm p. specialize (Hm p). destruct (decide (p ∈ R)) as [Hin|Hin].
  - by rewrite decide_True by by rewrite <-HR.
  - by rewrite decide_False by by rewrite <-HR.
Qed.

Lemma parts_perm (l : list PlanAction) :
  (create_dirs_of l).*1 ++ (item_path <$> transfers_of l) ++ (u_path <$> file_updates_of l) ++
  (deletions_of l).*1 ≡ₚ omap struct_path l.
Proof.
  induction l as [|a l IH]; [done|].
  destruct a; cbn [create_dirs_of transfers_of file_updates_of deletions_of omap list_omap struct_path
    fmap list_fmap fst item_path u_path app]; try exact IH; rewrite <-IH; try done;
    rewrite ?(assoc_L (++)); by rewrite <-Permutation_middle, ?(assoc_L (++)).
Qed.

(** What the destination is after the run. *)
Record converged (d' : Host) : Prop := {
  cv_listed : ∀ p src, bt_get p source = Some src →
    ∃ n, tree d' !! p = Some n ∧ nd_kind n = kind src ∧
      (∀ size, kind src = File size → nd_data n = contents d' p) ∧
      (is_link src = false →
       Z.land (nd_mode n) 0x1ff = effective_mode (mode src) direction ∧
       nd_secs n = mtime_secs src ∧ truncate_nanos (nd_nanos n) = mtime_nanos src);
  cv_extra_removed : is_delete = true → ∀ p, bt_get p source = None → tree d' !! p = None;
  cv_extra_kept : is_delete = false → ∀ p, bt_get p source = None →
    alike false False (tree d' !! p) (tree d0 !! p);
}.

Lemma settled_converged d : settling [] d → converged d.
Proof.
  intros Hs. split.
  - intros p src Hp. specialize (Hs p). rewrite (goal_source _ _ _ Hp) in Hs.
    destruct (tree d !! p) as [n|]; [|done]. destruct Hs as (Hk & Hd & Hm). exists n. cbn in Hk, Hd, Hm.
    split_and!; [done|done| |].
    + intros size Hsz. specialize (Hd size Hsz). by rewrite Hsz in Hd.
    + intros Hl. destruct Hm as [[Hin|(src' & Hp' & Hl')]|Hm]; [by apply not_elem_of_nil in Hin|congruence|].
      unfold same_times, listed in Hm. rewrite Hp in Hm. cbn -[effective_mode Z.land] in Hm.
      rewrite safe_bits, (proj2 (proj2 (proj2 (se_metadata S p src Hp)))) in Hm. tauto.
  - intros Hd p Hp. specialize (Hs p). eapply alike_None; [exact Hs|]. apply goal_removed; [done|].
    unfold is_extra. rewrite Hp, andb_true_r, negb_true_iff, bool_decide_eq_false. intros ->.
    destruct (se_root S) as [r Hr]. congruence.
  - intros Hd p Hp. specialize (Hs p). unfold goal in Hs. rewrite Hp, Hd in Hs. cbn in Hs.
    destruct (tree d !! p), (tree d0 !! p); try done. destruct Hs as (? & ? & Hm). split_and!; [done|done|].
    destruct Hm as [[Hin|(src & Hp' & _)]|Hm]; [by apply not_elem_of_nil in Hin|congruence|right].
    unfold listed in Hm. by rewrite Hp in Hm.
Qed.

Lemma part_elem {A} (f : PlanAction → option A) (l : list A) x :
  l ≡ₚ omap f actions → x ∈ l → ∃ a, a ∈ actions ∧ f a = Some x.
Proof. intros -> Hx. by apply list_elem_of_omap in Hx. Qed.

Local Tactic Notation "part" uconstr(H) hyp(Hin) :=
  let y := fresh in destruct (part_elem _ _ _ H Hin) as (y & Ha & He); destruct y; by simplify_eq.

(** What is not a new directory comes after them. *)
Lemma rest_late dirs R :
  dirs ≡ₚ create_dirs_of actions → omap struct_path actions ≡ₚ dirs.*1 ++ R → NoDup (dirs.*1 ++ R) →
  late R.
Proof.
  intros Hdirs Hperm Hnd p Hp.
  assert (Hin : p ∈ omap struct_path actions) by (rewrite Hperm; apply elem_of_app; by right).
  apply list_elem_of_omap in Hin as (x & Hx & Hsp). exists x. split_and!; [done|done|].
  intros m ->. apply NoDup_app in Hnd as (_ & Hdis & _). apply (Hdis p); [|done].
  rewrite Hdirs. apply list_elem_of_fmap. exists (p, m). split; [done|].
  apply list_elem_of_omap. by exists (CreateDir p m).
Qed.

Lemma run_phases :
  outcome (calm d0) (execute_plan guest umask direction actions false d0)
    (λ stats d', stats = dry_run_report (transfers_of actions) (file_updates_of actions) (deletions_of actions)
                   (zlen (skipped_of actions)) ∧ converged d') (λ _, calm).
Proof.
  unfold execute_plan. cbv zeta. set (dirs := sort_by_key _ (create_dirs_of actions)).
  set (dels := sort_by_key _ (deletions_of actions)).
  set (ups := sort_by_key _ (dir_updates_of actions)).
  assert (Hdirs : dirs ≡ₚ create_dirs_of actions) by apply sort_by_key_perm.
  assert (Hdels : dels ≡ₚ deletions_of actions) by apply sort_by_key_perm.
  assert (Hups : ups ≡ₚ dir_updates_of actions) by apply sort_by_key_perm.
  set (R := (item_path <$> transfers_of actions) ++ (u_path <$> file_updates_of actions) ++ dels.*1).
  assert (Hperm : omap struct_path actions ≡ₚ dirs.*1 ++ R)
    by (unfold R; rewrite Hdirs, Hdels; symmetry; apply parts_perm).
  pose proof run_NoDup as Hnd. rewrite Hperm in Hnd.
  assert (Hlate : late R) by (eapply rest_late; [exact Hdirs|exact Hperm|exact Hnd]).
  eapply outcome_bind; [apply (creates_run R dirs); [apply sort_by_key_sorted| |done|done| |done]|].
  { intros p m Hin. part Hdirs Hin. }
  { eapply midway_perm; [exact Hperm|apply midway_start]. }
  intros ? d1 [Hm1 Hd1]. apply NoDup_app in Hnd as (_ & _ & Hnd).
  eapply outcome_bind; [apply (items_run ((u_path <$> file_updates_of actions) ++ dels.*1) (transfers_of actions)); [|exact Hnd|exact Hlate|exact Hm1|tauto]|].
  { intros i Hin. part (Permutation_refl _) Hin. }
  intros stats2 d2 (-> & Hm2 & Hc2). apply NoDup_app in Hnd as (_ & _ & Hnd).
  eapply outcome_bind; [apply (file_updates_run dels.*1 (file_updates_of actions)); [|exact Hnd|exact Hm2| |tauto]|].
  { intros i Hin. part (Permutation_refl _) Hin. }
  { intros u Hu. rewrite Hc2 by (apply elem_of_app; left; apply list_elem_of_fmap; by exists u).
    unfold contents. by rewrite Hd1, (se_fresh S). }
  intros ? d3 Hm3. apply NoDup_app in Hnd as (_ & _ & Hnd).
  eapply outcome_bind; [apply (deletions_run dels); [apply sort_by_key_sorted| |exact Hnd|exact Hm3|tauto]|].
  { intros p b Hin. part Hdels Hin. }
  intros stats4 d4 [-> Hm4]. eapply outcome_bind; [apply (dir_updates_run ups); [|by apply midway_settling|tauto]|].
  { intros u Hin. part Hups Hin. }
  intros ? d5 Hm5. eapply outcome_bind; [apply (end_done guest source source_data); tauto|]. intros ? d6 [T6 D6].
  apply outcome_ret; [|tauto]. split.
  - unfold dry_run_report, add_deletions, add_copies. cbn. f_equal; try lia. unfold zlen. by rewrite Hdels.
  - apply settled_converged. intros p. rewrite T6, (goal_contents d5 d6) by by apply contents_same. apply Hm5.
Qed.
End Run.


(** ** A download *)

(** A download with [--delete]: a changed file, a new directory with a file, a
    link, and an extra directory with a file to remove. *)
Definition demo_files (p : str) : list Z :=
  if bool_decide (p = lit "a") then [1; 2; 3] else if bool_decide (p = lit "d/f") then [7] else [].

Definition demo_new : btree SyncEntry :=
  [([], mkEntry [] Directory 0x1ed 5 0);
   (lit "a", mkEntry (lit "a") (File 3) 0x1ff 5 1000);
   (lit "d", mkEntry (lit "d") Directory 0x1ed 6 0);
   (lit "d/f", mkEntry (lit "d/f") (File 1) 0x1a4 7 0);
   (lit "l", mkEntry (lit "l") (Symlink (lit "d/f")) 0x1ff 8 0)].
Definition demo_old : btree SyncEntry :=
  [([], mkEntry [] Directory 0x1ed 5 0);
   (lit "a", mkEntry (lit "a") (File 2) 0x1a4 4 0);
   (lit "x", mkEntry (lit "x") Directory 0x1ed 4 0);
   (lit "x/y", mkEntry (lit "x/y") (File 1) 0x1a4 4 0)].
Definition demo_tree : gmap str node :=
  <[ [] := mkNode Directory 0x1ed 5 0 [] ]> (
  <[lit "a" := mkNode (File 2) 0x9a4 4 7 [8; 8]]> (
  <[lit "x" := mkNode Directory 0x1ed 4 0 []]> (
  <[lit "x/y" := mkNode (File 1) 0x1a4 4 0 [9]]> ∅))).
Definition demo_host : Host := mkHost demo_tree [] [] [(99, 9); (98, 8)] [] [] [].

(** The guest sends its files byte by byte. *)
Definition demo_guest (out : list Outgoing) : list Incoming :=
  match last out with
  | Some (ORequest (ReadFile p)) =>
      match bt_get p demo_new with
      | Some e =>
          match kind e with
          | File size =>
              IFrame (WFrame (ReadFileReady size (mode e) (mtime_secs e) (mtime_nanos e)))
              :: (IData <$> ((λ b, [b]) <$> demo_files p)) ++ [IFrame (WFrame Success)]
          | _ => [IFrame (WFrame (ErrReply []))]
          end
      | None => [IFrame (WFrame (ErrReply []))]
      end
  | _ => [IFrame (WFrame Success)]
  end.

Definition demo_checksum (p : str) : result SyncError (list Z * list Z) := Err NotUtf8.
Definition demo_names (source target : btree SyncEntry)
    : result SyncError ((str → str → result SyncError str) * result SyncError unit) :=
  Ok (demo_resolve, Ok tt).
Definition demo_actions : list PlanAction :=
  [update_dir [] (mkEntry [] Directory 0x1ed 5 0); TransferFile (lit "a") 3 0x1ff 5 1000;
   CreateDir (lit "d") 0x1ed; UpdateDirMetadata (lit "d") 0x1ed 6 0;
   TransferFile (lit "d/f") 1 0x1a4 7 0; CreateSymlink (lit "l") (lit "d/f");
   RemoveEntry (lit "x") true; RemoveEntry (lit "x/y") false].

Lemma demo_built :
  build_plan demo_checksum demo_names None (Err NotUtf8) 9 demo_new demo_old false true GuestToHost
    = Some (Ok demo_actions).
Proof. vm_compute. reflexivity. Qed.

Lemma bt_get_Forall {V} (P : str → V → Prop) p v (m : btree V) :
  bt_get p m = Some v → Forall (λ x, P x.1 x.2) m → P p v.
Proof. intros Hp%bt_get_elem Hm. rewrite Forall_forall in Hm. apply (Hm _ Hp). Qed.

Lemma demo_view p : bt_get p demo_old = entry_at p <$> demo_tree !! p.
Proof.
  destruct (decide (p ∈ demo_old.*1)) as [Hin|Hno].
  - cbn [fmap list_fmap fst demo_old] in Hin.
    repeat (apply elem_of_cons in Hin as [->|Hin]; [vm_compute; reflexivity|]).
    by apply not_elem_of_nil in Hin.
  - destruct (bt_get p demo_old) as [e|] eqn:He.
    { destruct Hno. apply list_elem_of_fmap. exists (p, e). split; [done|]. by apply bt_get_elem. }
    cbn [fmap list_fmap fst demo_old] in Hno. unfold demo_tree.
    repeat (apply not_elem_of_cons in Hno as [? Hno]; rewrite lookup_insert_ne by done).
    by rewrite lookup_empty.
Qed.

Lemma demo_starting : starting demo_files demo_checksum demo_new demo_old false demo_host.
Proof.
  split.
  - repeat constructor; vm_compute; reflexivity.
  - repeat constructor; vm_compute; reflexivity.
  - by eexists.
  - intros _ _ _. by eexists.
  - exact demo_view.
  - intros p src size Hp. revert size. pattern p, src.
    apply (bt_get_Forall _ _ _ _ Hp). repeat constructor; cbn; intros; by simplify_eq.
  - intros p src dst n size Hp. revert dst n size. pattern p, src.
    apply (bt_get_Forall _ _ _ _ Hp).
    repeat (apply Forall_cons_2; [intros dst n size Ht _ Hk Hd Hj; vm_compute in Ht; simplify_eq; cbn in Hk, Hd; by simplify_eq|]).
    by apply Forall_nil_2.
  - done.
  - intros p src Hp. pattern p, src. apply (bt_get_Forall _ _ _ _ Hp). repeat constructor; by vm_compute.
  - intros p src t Hp. revert t. pattern p, src.
    apply (bt_get_Forall _ _ _ _ Hp). repeat constructor; cbn; intros; simplify_eq; by vm_compute.
Qed.

Lemma demo_calm : calm demo_guest demo_new demo_files [] demo_host.
Proof.
  split_and!; [|done..]. split.
  - intros out p src size Hp Hk. exists ((λ b, [b]) <$> demo_files p). split_and!.
    + induction (demo_files p) as [|b l IH]; [done|]. cbn. by f_equal.
    + apply Forall_fmap, Forall_true. done.
    + unfold demo_guest. by rewrite last_snoc, Hp, Hk.
  - intros out. unfold demo_guest. by rewrite last_snoc.
Qed.


(** The metadata of a file with a second link is not changed. *)
Example hard_link_kept :
  (update_host_metadata (lit "a") 0x1ff 5 1 (set_answers [Fine; Fine; Count 2] demo_host)) = (Err (HostFailure 1), demo_host).
Proof. vm_compute. reflexivity. Qed.

End SyncConverge.
